(* ===== verification/_CoqProject ===== *)
-Q . S2P
Prelude.v
Span.v
SpanGen.v
ParseOrder.v
Generator.v
FiniteUnion.v
UnionHeap.v
ProductFrontier.v
ProductHeap.v
BuchseProduct.v
HieroProduct.v
LazySequence.v
OaTable.v
HashProbe.v
OaHashtable.v
PriorityTable.v
PriorityQueue.v
TokenStorage.v
Token.v
Dictionary.v
Alignment.v
Trie.v
BasicTrie.v
FixedTrie.v
SparseVector.v
Edge.v
EdgeEquivalence.v
EdgeQueue.v
FilterPredicate.v
EdgeFilter.v
Chart.v
SortedCube.v
Cube.v
CubeHeap.v
RuleMap.v
SpanFilter.v
FilterBank.v
GraphSearch.v
UnaryFilter.v
ChartEquiv.v
EquivSet.v
UnaryApplications.v
BankFinalize.v
ExhaustiveBank.v
BankParse.v
FilterCombinators.v
BlockParser.v
Binarizer.v
