(* ===== verification/Prelude.v ===== *)
(** * A verification library for the sbmt machine translation decoder

    The program (src/) is a syntax-based statistical machine translation system.
    Its core is a bottom-up chart parser, src/sbmt_decoder, over the generic
    library src/gusc.  This library models the data structures and algorithms on
    which the parser's search rests and proves what they promise.

    ** The parts and how they fit

    The parser walks over the spans of a sentence by growing length and, for each
    span, over its binary splits ([parse_order.hpp], driven by [span.hpp]).  For each
    call the filter bank ([filter_bank.hpp]) looks up the rules that fit the edges of
    the two parts ([sorted_rhs_map.hpp]) and hands rules and edges to the filter of the
    combined span ([span_filter_interface.hpp]), which keeps the best edges they make:
    all of them in turn, or best first by cube pruning ([sorted_cube.hpp],
    [cube_heap_span_filter.hpp]).  When a span is finished the bank empties its filter
    into the chart and applies the unary rules along an acyclic graph
    ([unary_applications.hpp]); for the whole sentence it applies the rules to the
    toplevel tag as well.  The chart groups equivalent edges into bounded equivalences;
    an edge refers to the equivalences of its children.  Filters hold their edges in a
    queue over a priority table, whose index is an open addressing hash table; the
    dictionary of tokens stores its strings in one too.  The lazily sorted products and
    unions of src/gusc/gusc/generator are a second, library form of cube pruning.
    Rules carry word alignments, which are composed when rules are, and feature scores
    as sparse vectors, and are looked up in tries.

    ** The files

    Foundations:
    - [Prelude] (this file): machine integers ([u16], [u32], [u64]), exceptions
      ([result], [rbind] and its notation in [sbmt_scope]), strict weak orders,
      the halving loop of [std::lower_bound], iterator ranges, list lemmas.
    - [Span]: [span_t] and the functions on spans (include/sbmt/span.hpp,
      src/span.cpp).
    - [SpanGen]: the partition and shift iterators, the [cky_generator] classes
      and [span_transform] (same files).
    - [ParseOrder]: [parse_cky::operator()] (include/sbmt/search/parse_order.hpp)
      against the class [FilterBank], the interface of [filter_bank].

    Generators (src/gusc/gusc/generator):
    - [Generator]: the class [Generator], the peekable-generator protocol
      (peekable_generator_facade.hpp); the classes [PriorityQueue] and
      [PriorityQueueLaws], the interface of [std::priority_queue], with a sorted
      list as an instance; the adapters chain, transform, filter, single value,
      any_generator, generator_from_iterator.
    - [FiniteUnion], [UnionHeap]: the merges of finite_union_generator.hpp and
      union_heap_generator.hpp.
    - [ProductFrontier]: positions in a box of sorted sequences and the theory of
      a frontier that the three product generators share; [ProductHeap],
      [BuchseProduct], [HieroProduct]: product_heap_generator.hpp,
      buchse_product_generator.hpp, hiero_product_generator.hpp.
    - [LazySequence]: lazy_sequence.hpp, the memoizing sequence over a generator.

    Hash table, tokens, tries and vectors:
    - [OaTable], [HashProbe], [OaHashtable]: the hash table of
      include/sbmt/hash/impl/oa_table_c.ipp, impl/oa_hashtable.ipp and
      oa_hashtable.hpp: storage with guards and iterators, double hashing over a
      table of primes, the operations and [oa_hash_map].
    - [TokenStorage]: the interface [TokenStorage] that the class template
      [dictionary] states in its comment, and [in_memory_token_storage]
      (in_memory_token_storage.hpp and .cpp) as an instance, over [OaHashtable].
    - [Token]: the operators of [token<D>] over the class [Token], [fat_token] and
      [indexed_token] (token.hpp, fat_token.hpp, src/token.cpp,
      indexed_token.hpp).
    - [Dictionary]: [dictionary<StorageP>] (indexed_token.hpp and its .ipp), over
      any instance of [TokenStorage].
    - [Alignment]: [struct alignment] (include/sbmt/grammar/alignment.hpp).
    - [PriorityTable]: the heap with a hash table as its index
      (include/sbmt/hash/priority_table.hpp and its .ipp), over [OaHashtable].
    - [Trie]: the class [TrieOps], the interface of a trie, what it means for a
      trie to be the unfolding of a tree, and the algorithms of
      src/gusc/gusc/trie/trie_algo.hpp over it; [BasicTrie], [FixedTrie]: the
      editable trie of nodes and the trie in one array (basic_trie.hpp,
      fixed_trie.hpp), as instances.
    - [SparseVector]: src/gusc/gusc/math/sparse_vector.hpp.

    Edges and the chart:
    - [Edge]: edges, the store of equivalences they refer to, and their making by
      rules (include/sbmt/edge/edge.hpp, impl/edge.ipp, concrete_edge_factory.hpp),
      over the interfaces [ScoreOps], [InfoOps] and [GrammarOps] and any [Generator]
      of infos.
    - [EdgeEquivalence]: edge_equivalence.hpp and its .ipp, over the class
      [StdAlgorithms], the heap and sorting algorithms of the standard library.
    - [Chart]: the cells, spans and chart of include/sbmt/chart with the default
      policies, over [EdgeEquivalence], and [SpanGen] for its spans; [ChartEquiv]:
      the chart as a set of equivalences, for the operations of the filter bank.

    The search (include/sbmt/search):
    - [PriorityQueue]: a priority table in use, as its clients see it: the values and
      the bound on insertions below which it grows without failing.
    - [EdgeQueue]: edge_queue.hpp and its .ipp, a priority table of equivalences.
    - [FilterPredicate]: filter_predicates.hpp and its .ipp and .cpp, the predicates as
      instances of one class, and the series of their settings for a retry.
    - [EdgeFilter]: predicate_edge_filter and cell_edge_filter (edge_filter.hpp and
      its .ipp, cell_filter.hpp).
    - [SortedCube], [Cube], [CubeHeap]: the cube of a range of rules and two ranges of
      equivalences and its exploration in order of the best corner (sorted_cube.hpp,
      cube.hpp and its .ipp, cube_heap_span_filter.hpp and its .ipp), over a
      priority queue.
    - [RuleMap]: sorted_rhs_map.hpp.
    - [SpanFilter]: the class [SpanFilter], the interface of a filter for a span, and
      the exhaustive filter; [CubeHeap] gives the other instance.
    - [FilterBank]: filter_bank.hpp and its .ipp up to [apply_rules]; its class
      [FilterRuns] states what a filter promises to the bank.
    - [GraphSearch]: the class of Boost's depth first search and topological sort with
      their documented behaviour, and an instance.
    - [UnaryFilter]: unary_filter_interface.hpp, its class and laws, and the
      exhaustive filter; [EquivSet]: the set of equivalences of unary_applications.hpp
      over [OaHashtable]; [UnaryApplications]: the graph of unary rules and its two
      passes.
    - [BankFinalize]: [finalize] of the filter bank, with the unary rules and the
      rules to the toplevel tag; its class [FilterDrains] states what a filter promises
      when it is emptied.
    - [ExhaustiveBank]: the exhaustive filter as an instance of both classes, and the
      toplevel rules of a bank of such filters.
    - [BankParse]: the bank as an instance of the interface of [ParseOrder], and the
      parse of a sentence from end to end.
    - [FilterCombinators]: filters made of filters (nested_filter.hpp and what derives
      from it, or_filter.hpp with its predicates), as instances of the same classes when
      the filters in them are.
    - [BlockParser]: lattices, their charts and their parse block by block
      (block_lattice_tree.hpp and .cpp, block_parser.hpp), over [FilterBank] and
      [ParseOrder].

    A separate program:
    - [Binarizer]: the bracketer of src/itg-binarizer/binal.cc, which decides by shifting
      and reducing whether the alignment of a rule can be binarized.

    State is passed explicitly: a member function is a function from the object to
    the new object, and the C++ names are kept where they are free.  Equivalences are
    shared by reference in the code: they live in a store [equiv_store] from locations
    to equivalences, which the operations read and write.  The result of an operation
    is an [option] where an assertion can fail, an access can be out of range or a loop
    may fail to end ([None]), and a [result] in it where the code throws ([Throw]).
    Template parameters are type class instances or section variables.

    ** What is proved

    - Order of the search: the CKY loop ends, makes exactly the calls of a
      schedule defined on lists of spans, and applies the rules of a split only
      after both parts were finalized; the span iterators visit each split and
      each span of a length once, within the limits of their generators;
      [span_transform] inverts.
    - The whole parse: over a bank with exhaustive filters the loop ends without a
      failed assertion, a throw or an access out of range, from any well formed chart of
      words, as long as no span gets more edges than a bound; every edge that was in
      the chart has an equivalent one that is not worse, and the filters are freed.
    - The filter bank: it applies every binary rule to every pair of edges that its
      right hand side names, once for each split, whatever filter there is; with the
      exhaustive filter and a beam, the filter then holds the best of each class of
      equivalent edges within the beam; finishing a span loses nothing that the filter
      kept or the span had.
    - Lattices: the chart of the leaves is made without a failure and holds the classes
      of exactly the edges that their rules make; the parse of a lattice is that of its blocks, the inner ones first, each
      over the spans between the boundaries of its children; what is kept of a block are
      its native tags.
    - Filters of filters: a nested filter runs as the one in it over the rules that are
      left; a filter of two exhaustive filters takes what both are good for and hands out
      all of both.
    - Filters: a filter inserts an edge or leaves queue and store as they were; the
      histogram keeps the best edges when none are equivalent, the ratio predicate the
      best of each class within its beam, when equivalent edges have the same heuristic;
      cube pruning ends, covers the cube and, with a beam, keeps what the exhaustive
      filter keeps if scores do not rise along the cubes (nothing is said of the fuzz,
      which is meant for scores that do); the loops over a cube visit each of its
      positions once.
    - Rules: the maps from right hand sides to rules give the rules of a right hand side,
      best first, and one representative of each.
    - Unary rules: the graph that is built is acyclic, the passes end, and every start
      edge is kept or improved.
    - Generators: merges and products of sorted inputs give every value exactly
      once and best first (for the union heap up to its lookahead), for any
      priority queue with the laws of [std::priority_queue]; the products are
      refinements of one frontier.  A lazy sequence memoizes its generator and
      its iterator is random access.
    - Hash table: insert, find, erase, rehash and the map operations refine those
      of a finite map; probing visits every slot and so ends; sizes are primes;
      loads computed in floating point are computed in [SpecFloat].
    - Tokens: the dictionary gives every string and type one token for good, with
      the label it was made of, and compares indexed tokens as the fat tokens
      they stand for; the storage does so against its interface, which the
      in-memory storage is proved to satisfy, hash table growth included.
    - The chart: after any sequence of insertions, looking up an edge finds the one
      equivalence of the edges equivalent to it, which has the best of them as
      representative and, below its limit, all of them; what a full equivalence
      drops; merging and pruning; the spans of a chart and its best result.  The
      edges a rule makes have the root, span, children and scores of its parts.
    - Priority table and edge queue: insert, pop, replace and modify refine those of a
      set of values of which the one of highest priority comes first.
    - Tries: insertion refines that of a finite map; the array trie is the same tree
      as its source and stays inside its buffer; equality, path and search decide,
      invert and enumerate what they should, and end.
    - Binarization: the greedy bracketer never leaves its arrays, and accepts a rule
      exactly when its alignment has a derivation by straight and inverted
      concatenations of adjacent spans.
    - Sparse vectors: both strategies of each operation are the operation component
      by component.
    - Alignments: the inverse is an involution up to [==]; substitution stays in
      range, has the size of its parts, and has the unit alignment as unit.

    Some theorems state defects: over the full index range the shift iterator
    visits no span ([SpanGen]), [end()] of a table cannot be decremented ([OaTable]), a lazy
    sequence's [end()] is at distance zero of [begin()] ([LazySequence]), a token
    with a NUL character breaks its storage ([TokenStorage]), erasing inside a
    priority table breaks its heap ([PriorityTable]), a full equivalence drops its
    best alternative ([EdgeEquivalence]), an array trie cannot be built with a
    transformation when assertions are on ([FixedTrie]), a scalar operation that
    makes a component zero is undefined ([SparseVector]), a cell filter can drop the
    better of two edges ([EdgeFilter]).

    ** Bounds and fuel

    - Loops over a 16-bit index have fuel for the range of the index and are
      proved to end within it; where the code's loop does not end, the result is
      [None].
    - Probing has the table size as fuel, and [probe_covers] shows that it is
      enough; iterators of a table have its size plus the two guards.
    - [UnionHeap] bounds the loop over empty generators by a parameter, which the
      theorem requires to be at least the number of generators.
    - [Trie]: the algorithms recurse along transitions and have fuel for the height of
      the tree, for which the theorems show the result.
    - [EdgeEquivalence]: merging has the number of edges as fuel; sizes are compared
      as the [unsigned] values the code compares.
    - [TokenStorage] counts the tokens ever added, below 2^30, the range of an
      index; the capacities the table can reach below this bound are computed and
      checked, so that it never throws there.
    - [EdgeQueue] counts the insertions ever made, below [pq_limit] = 2^28, for which
      the capacities of the hash table are computed as well; a filter that takes [n]
      edges makes at most [insertion_bound n] of them, quadratic because each can pop
      the ones that a predicate gave up.
    - [CubeHeap]: the exploration has the number of corners as fuel.
    - [UnaryApplications]: the graph has at most [vertices_bound n] vertices for [n]
      start edges, by the depth limit of the code; Boost's search is asked for no more
      than its [vertex_limit].
    - [BankFinalize], [BankParse]: the loops that call generators and empty filters have
      the parameters [max_infos], [max_edges], [max_collected] and [max_filtered] as
      fuel; [limits] and [toplevel_room] say how large they have to be.
    - [BlockParser]: the spans of a lattice end below 65535, so that the indices of the
      boundaries of a block are 16-bit values; [max_infos] and [max_edges] are as above.
    - [Binarizer]: the loop that combines nodes has the height of the stack as fuel.

    ** Not modelled

    The chart policies that order cells, feature information beyond its interface,
    grammars as they are read, forests and k-best lists, lazy CKY, language models,
    streams and printing, serialization beyond the token storage and the array trie,
    threads, reference counts.  The rule extractor, the binarizers but for the bracketer
    (what they print are strings) and the other programs of the repository are separate
    programs; vendored code and build files are
    not part of the model.  Boost's hash functions and graph algorithms are parameters.
    Scores are values with an order, a product and a quotient; their floating-point
    arithmetic is not modelled.  An exception leaves no state in the model.  [std::push_heap] and
    [std::pop_heap] are called by the code on vectors that are no heaps, for which the
    standard says nothing: see [StdAlgorithmLaws] for what is supposed of them.  The
    assertion of [combine] on spans, which holds wherever the filter bank calls it, is
    left out. *)
From Stdlib Require Export ZArith Lia Bool Sorting.Sorted.
From stdpp Require Export base decidable option list numbers sorting gmap strings.

(** * Machine integers *)

(** Conversion to an unsigned type of [w] bits: reduction modulo [2^w]. *)
Definition wrap (w z : Z) : Z := (z mod 2 ^ w)%Z.

Definition u16 (z : Z) : Z := wrap 16 z.
Definition u32 (z : Z) : Z := wrap 32 z.
Definition u64 (z : Z) : Z := wrap 64 z.

(** Conversion to a signed (two's complement) 16-bit type. *)
Definition s16 (z : Z) : Z :=
  let r := u16 z in if decide (r < 32768)%Z then r else (r - 65536)%Z.

Lemma wrap_small w z : (0 <= z < 2 ^ w)%Z -> wrap w z = z.
Proof. apply Z.mod_small. Qed.

Lemma u16_small z : (0 <= z < 65536)%Z -> u16 z = z.
Proof. apply (wrap_small 16). Qed.

Lemma u32_small z : (0 <= z < 4294967296)%Z -> u32 z = z.
Proof. apply (wrap_small 32). Qed.

Lemma u64_small z : (0 <= z < 18446744073709551616)%Z -> u64 z = z.
Proof. apply (wrap_small 64). Qed.

Lemma u32_add_l x y : u32 (u32 x + y) = u32 (x + y).
Proof. unfold u32, wrap. by rewrite Zplus_mod_idemp_l. Qed.

Lemma u64_add_l x y : u64 (u64 x + y) = u64 (x + y).
Proof. unfold u64, wrap. by rewrite Zplus_mod_idemp_l. Qed.

Lemma u16_range z : (0 <= u16 z < 65536)%Z.
Proof. apply Z.mod_pos_bound. lia. Qed.

Lemma u32_range z : (0 <= u32 z < 4294967296)%Z.
Proof. apply Z.mod_pos_bound. lia. Qed.

Lemma u64_range z : (0 <= u64 z < 18446744073709551616)%Z.
Proof. apply Z.mod_pos_bound. lia. Qed.

(** Rewrites away every wrap whose argument [lia] shows to be in range. *)
Ltac no_wrap :=
  repeat match goal with
  | |- context [u16 ?z] => rewrite (u16_small z) by lia
  | |- context [u32 ?z] => rewrite (u32_small z) by lia
  | |- context [u64 ?z] => rewrite (u64_small z) by lia
  end.

Tactic Notation "no_wrap" "in" hyp(H) :=
  repeat match type of H with
  | context [u16 ?z] => rewrite (u16_small z) in H by lia
  | context [u32 ?z] => rewrite (u32_small z) in H by lia
  | context [u64 ?z] => rewrite (u64_small z) in H by lia
  end.

(** * Errors thrown by the code *)

Inductive result (A : Type) : Type :=
  | Ok (a : A)
  | Throw (msg : string).
Arguments Ok {A} a.
Arguments Throw {A} msg.

(** Sequencing of operations that can throw, or ([None]) be undefined: after an
    exception nothing more is done. *)
Definition rbind {A B} (m : option (result A)) (k : A -> option (result B)) : option (result B) :=
  match m with
  | Some (Ok a) => k a
  | Some (Throw msg) => Some (Throw msg)
  | None => None
  end.

Declare Scope sbmt_scope.
Delimit Scope sbmt_scope with sbmt.
Notation "x ⇐ m ; k" := (rbind m (fun x => k))
  (at level 20, m at level 100, k at level 200, right associativity) : sbmt_scope.
Notation "' p ⇐ m ; k" := (rbind m (fun x => match x with p => k end))
  (at level 20, p pattern, m at level 100, k at level 200, right associativity) : sbmt_scope.
#[global] Open Scope sbmt_scope.

(** * Comparison functors

    A [Compare] template argument is a C++ strict weak ordering; [lt a b] is
    true when [a] comes before [b], i.e. when [a] has the lower priority. *)

Class StrictWeak {A : Type} (lt : A -> A -> bool) : Prop := {
  sw_irrefl : forall a, lt a a = false;
  sw_trans : forall a b c, lt a b = true -> lt b c = true -> lt a c = true;
  sw_negtrans : forall a b c, lt a b = false -> lt b c = false -> lt a c = false
}.

Section strict_weak.
Context {A : Type} (lt : A -> A -> bool) `{!StrictWeak lt}.

Lemma sw_asym a b : lt a b = true -> lt b a = false.
Proof.
  intros H. destruct (lt b a) eqn:E; [|done].
  pose proof (sw_trans _ _ _ H E) as F. by rewrite sw_irrefl in F.
Qed.

Lemma sw_total a b : lt a b = false \/ lt b a = false.
Proof. destruct (lt a b) eqn:E; [right; by apply sw_asym|by left]. Qed.

(** [a] is at least as good as [b]. *)
Definition noworse (a b : A) : Prop := lt a b = false.

#[global] Instance noworse_preorder : PreOrder noworse.
Proof.
  split; [intros a; apply sw_irrefl|intros a b c; apply sw_negtrans].
Qed.

(** The order in which a max-first generator yields its values. *)
Definition descending (l : list A) : Prop := StronglySorted noworse l.

Lemma sw_pullback {B} (f : B -> A) : StrictWeak (fun x y => lt (f x) (f y)).
Proof.
  split; intros; [apply sw_irrefl|eapply sw_trans; eauto|eapply sw_negtrans; eauto].
Qed.
End strict_weak.

(** A strict total order: [==] is the absence of an order. *)
Class StrictTotal {A : Type} (lt : A -> A -> bool) : Prop := {
  st_weak :: StrictWeak lt;
  st_total : forall a b, lt a b = false -> lt b a = false -> a = b
}.

#[export] Instance Z_ltb_total : StrictTotal Z.ltb.
Proof.
  split; [split; [intros x; lia|intros x y z; lia|intros x y z; lia]|]. intros a b. lia.
Qed.

(** [None] stands for an exhausted generator, which comes before every value. *)
Definition opt_lt {A} (lt : A -> A -> bool) (x y : option A) : bool :=
  match x, y with
  | None, None => false
  | None, Some _ => true
  | Some _, None => false
  | Some a, Some b => lt a b
  end.

#[export] Instance opt_lt_sw {A} (lt : A -> A -> bool) `{!StrictWeak lt} :
  StrictWeak (opt_lt lt).
Proof.
  split.
  - intros [a|]; simpl; [apply sw_irrefl|done].
  - intros [a|] [b|] [c|]; simpl; try done. apply sw_trans.
  - intros [a|] [b|] [c|]; simpl; try done. apply sw_negtrans.
Qed.

(** * [std::lower_bound] over a random-access range

    The halving loop of the standard library: [less i] is the comparison of
    the element at offset [i] with the searched value. *)

Fixpoint lower_bound_loop (fuel : nat) (less : nat -> bool) (first len : nat) : nat :=
  match fuel with
  | O => first
  | S fuel =>
      match len with
      | O => first
      | _ =>
          let half := (len / 2)%nat in
          if less (first + half)%nat
          then lower_bound_loop fuel less (first + half + 1) (len - half - 1)
          else lower_bound_loop fuel less first half
      end
  end.

Definition lower_bound {A} (less : A -> bool) (l : list A) : nat :=
  lower_bound_loop (length l) (fun i => match l !! i with Some a => less a | None => false end)
    0 (length l).

Lemma lower_bound_loop_step fuel less first len :
  len <> 0%nat ->
  lower_bound_loop (S fuel) less first len =
  (let half := (len / 2)%nat in
   if less (first + half)%nat
   then lower_bound_loop fuel less (first + half + 1) (len - half - 1)
   else lower_bound_loop fuel less first half).
Proof. by destruct len. Qed.

Lemma lower_bound_loop_spec fuel less first len k :
  (len <= fuel)%nat -> (first <= k <= first + len)%nat ->
  (forall i, (i < k)%nat -> less i = true) ->
  (forall i, (k <= i < first + len)%nat -> less i = false) ->
  lower_bound_loop fuel less first len = k.
Proof.
  revert first len. induction fuel as [|fuel IH]; intros first len Hf Hk Hlt Hge.
  { simpl. lia. }
  destruct (decide (len = 0%nat)) as [->|Hne]; [simpl; lia|].
  rewrite lower_bound_loop_step by done. cbv zeta.
  pose proof (Nat.div_lt len 2 ltac:(lia) ltac:(lia)) as Hhalf.
  generalize dependent (len / 2)%nat. intros half Hhalf.
  destruct (less (first + half)%nat) eqn:E.
  - assert (first + half < k)%nat.
    { destruct (decide (first + half < k)%nat); [done|]. rewrite Hge in E; [done|lia]. }
    apply IH; [lia|lia|done|]. intros i Hi. apply Hge. lia.
  - assert (k <= first + half)%nat.
    { destruct (decide (k <= first + half)%nat); [done|]. rewrite Hlt in E; [done|lia]. }
    apply IH; [lia|lia|done|]. intros i Hi. apply Hge. lia.
Qed.

(** On a partitioned range the loop finds the partition point. *)
Lemma lower_bound_partition {A} (less : A -> bool) (l : list A) k :
  (k <= length l)%nat ->
  (forall i a, l !! i = Some a -> (i < k)%nat -> less a = true) ->
  (forall i a, l !! i = Some a -> (k <= i)%nat -> less a = false) ->
  lower_bound less l = k.
Proof.
  intros Hk Hlt Hge. apply lower_bound_loop_spec; [lia|lia| |].
  - intros i Hi. destruct (lookup_lt_is_Some_2 l i ltac:(lia)) as [a E].
    rewrite E. eauto.
  - intros i Hi. destruct (l !! i) eqn:E; [|done]. apply (Hge i); [done|lia].
Qed.

(** * Lists *)

(** Iterator ranges.  [range_list fuel first last] is the list of iterator
    states that the C++ loop [for (; first != last; ++first)] visits, or [None]
    when [fuel] increments do not reach [last].  [skip_while] is the loop
    [while (first != last && pred(first)) ++first]. *)
Section ranges.
Context {S : Type} `{!EqDecision S} (inc : S -> S).

Fixpoint range_list (fuel : nat) (first last : S) : option (list S) :=
  if decide (first = last) then Some []
  else match fuel with
       | O => None
       | Datatypes.S fuel => cons first <$> range_list fuel (inc first) last
       end.

Fixpoint skip_while (fuel : nat) (pred : S -> bool) (first last : S) : option S :=
  if decide (first = last) then Some first
  else if pred first
       then match fuel with
            | O => None
            | Datatypes.S fuel => skip_while fuel pred (inc first) last
            end
       else Some first.

(** [chain first l last]: incrementing [first] goes through [l] to [last]. *)
Fixpoint chain (first : S) (l : list S) (last : S) : Prop :=
  match l with
  | [] => first = last
  | x :: l => x = first /\ chain (inc first) l last
  end.

Lemma chain_app a l1 m l2 e : chain a l1 m -> chain m l2 e -> chain a (l1 ++ l2) e.
Proof.
  revert a. induction l1 as [|x l1 IH]; simpl; intros a; [by intros ->|].
  intros [-> H] H2. eauto.
Qed.

Lemma chain_fmap_seq (f : nat -> S) n :
  (forall i, (i < n)%nat -> inc (f i) = f (Datatypes.S i)) ->
  chain (f 0%nat) (f <$> seq 0 n) (f n).
Proof.
  revert f. induction n as [|n IH]; intros f Hs; [done|]. simpl. split; [done|].
  rewrite (Hs 0%nat) by lia.
  rewrite <- fmap_S_seq, <- list_fmap_compose.
  apply (IH (fun i => f (Datatypes.S i))). intros i Hi. apply Hs. lia.
Qed.

Lemma range_list_chain fuel a l e :
  chain a l e -> e ∉ l -> (length l <= fuel)%nat -> range_list fuel a e = Some l.
Proof.
  revert a l. induction fuel as [|fuel IH]; intros a l Hc Hn Hl.
  - destruct l; simpl in *; [|lia]. subst. by rewrite decide_True.
  - destruct l as [|x l]; simpl in *; [subst; by rewrite decide_True|].
    destruct Hc as [-> Hc]. rewrite not_elem_of_cons in Hn. destruct Hn as [Hx Hn].
    rewrite decide_False by congruence. rewrite (IH _ l); [done|done|done|lia].
Qed.

Lemma skip_while_chain fuel pred a l e :
  chain a l e -> e ∉ l -> (length l <= fuel)%nat ->
  exists l1 l2 m, l = l1 ++ l2 /\ skip_while fuel pred a e = Some m /\
    chain a l1 m /\ chain m l2 e /\ Forall (fun x => pred x = true) l1 /\
    (forall x, head l2 = Some x -> pred x = false /\ m = x).
Proof.
  revert a l. induction fuel as [|fuel IH]; intros a l Hc Hn Hl.
  - destruct l; simpl in *; [|lia]. subst. exists [], [], e.
    rewrite decide_True by done. done.
  - destruct l as [|x l]; simpl in *.
    { subst. exists [], [], e. rewrite decide_True by done. done. }
    destruct Hc as [-> Hc]. rewrite not_elem_of_cons in Hn. destruct Hn as [Hx Hn].
    rewrite decide_False by congruence. destruct (pred a) eqn:E.
    + destruct (IH _ l Hc Hn ltac:(lia)) as (l1&l2&m&->&Hs&H1&H2&Hf&Hh).
      exists (a :: l1), l2, m. split_and!; try done. by constructor.
    + exists [], (a :: l), a. split_and!; try done. intros y [= ->]. done.
Qed.

Lemma range_list_prefix fuel a l1 m l2 e :
  chain a l1 m -> chain m l2 e -> e ∉ l1 ++ l2 -> NoDup (l1 ++ l2) ->
  (length (l1 ++ l2) <= fuel)%nat ->
  range_list fuel a m = Some l1 /\ range_list fuel m e = Some l2.
Proof.
  intros H1 H2 He Hnd Hl. rewrite length_app in Hl. rewrite elem_of_app in He.
  split; apply range_list_chain; try done; try lia; [|tauto].
  apply NoDup_app in Hnd as (_&Hd&_). intros Hm.
  destruct l2 as [|x l2]; simpl in H2; [subst; tauto|].
  destruct H2 as [-> _]. apply (Hd m Hm). by left.
Qed.

(** Two skipping loops in sequence, the first stopping where the second goes
    on: they delimit the run of elements that satisfy [P2]. *)
Lemma skip_interval fuel (P1 P2 : S -> bool) a l e :
  (forall x, P1 x = negb (P2 x)) ->
  chain a l e -> e ∉ l -> NoDup l -> (length l <= fuel)%nat ->
  exists l1 l2 l3, l = l1 ++ l2 ++ l3 /\
    (first ← skip_while fuel P1 a e;
     second ← skip_while fuel P2 (if decide (first = e) then first else inc first) e;
     range_list fuel first second) = Some l2 /\
    Forall (fun x => P2 x = false) l1 /\ Forall (fun x => P2 x = true) l2 /\
    (forall y, head l3 = Some y -> P2 y = false) /\ (l2 = [] -> l3 = []).
Proof.
  intros HP Hc He Hnd Hlen.
  destruct (skip_while_chain fuel P1 _ _ _ Hc He Hlen) as (l1&l2&m&->&->&Hc1&Hc2&Hf&Hhd).
  assert (Hf' : Forall (fun x => P2 x = false) l1).
  { eapply Forall_impl; [exact Hf|]. intros x Hx. cbn in *.
    rewrite HP in Hx. by apply negb_true_iff. }
  rewrite elem_of_app in He. rewrite length_app in Hlen.
  apply NoDup_app in Hnd as (_&_&Hnd). cbn [mbind option_bind].
  destruct l2 as [|x l2].
  { simpl in Hc2. subst m. exists l1, [], []. rewrite decide_True by done.
    destruct (skip_while_chain fuel P2 e [] e) as (?&?&m&Hn&->&?&_); [done|set_solver|simpl; lia|].
    destruct x; [|done]. simplify_eq/=. split_and!; try done.
    apply (range_list_chain _ _ []); [done|set_solver|simpl; lia]. }
  destruct (Hhd x eq_refl) as [Hx ->]. destruct Hc2 as [_ Hc2].
  rewrite decide_False by set_solver. cbn in Hlen.
  destruct (skip_while_chain fuel P2 _ _ _ Hc2 ltac:(set_solver) ltac:(lia))
    as (l3&l4&m&->&->&Hc3&Hc4&Hf3&Hhd4).
  exists l1, (x :: l3), l4. split_and!; try done.
  - cbn. eapply (range_list_prefix fuel x (x :: l3) m l4 e); try done; [set_solver|].
    cbn. lia.
  - constructor; [|done]. rewrite HP in Hx. by apply negb_false_iff.
  - intros y Hy. by destruct (Hhd4 y Hy).
Qed.
End ranges.

Lemma StronglySorted_lookup_lt {A} (R : relation A) l i j x y :
  StronglySorted R l -> l !! i = Some x -> l !! j = Some y -> (i < j)%nat -> R x y.
Proof.
  intros H. revert i j. induction H as [|a l H IH Hf]; intros i j Hi Hj Hlt; [done|].
  destruct j as [|j]; [lia|]. destruct i as [|i]; simplify_eq/=.
  - rewrite Forall_lookup in Hf. eauto.
  - eapply (IH i j); eauto. lia.
Qed.

Lemma StronglySorted_lookup_inv {A} (R : relation A) `{!Asymmetric R} l i j x y :
  StronglySorted R l -> l !! i = Some x -> l !! j = Some y -> R x y -> (i < j)%nat.
Proof.
  intros Hs Hi Hj HR. destruct (decide (i < j)%nat) as [|Hge]; [done|].
  destruct (decide (i = j)) as [->|Hne].
  - simplify_eq. by destruct (asymmetry HR HR).
  - pose proof (StronglySorted_lookup_lt R l j i y x Hs Hj Hi ltac:(lia)) as HR'.
    by destruct (asymmetry HR HR').
Qed.

Lemma StronglySorted_bind {A B} (R0 : relation A) (R : relation B) (f : A -> list B) l :
  StronglySorted R0 l -> (forall x, x ∈ l -> StronglySorted R (f x)) ->
  (forall x y, x ∈ l -> y ∈ l -> R0 x y -> forall a b, a ∈ f x -> b ∈ f y -> R a b) ->
  StronglySorted R (l ≫= f).
Proof.
  intros Hs Hf Hxy. induction Hs as [|x l Hs IH Hx]; csimpl; [constructor|].
  apply StronglySorted_app_2.
  - intros a b Ha [y [Hb Hy]]%list_elem_of_bind. rewrite Forall_forall in Hx.
    eapply (Hxy x y); eauto; [left|right; done].
  - apply Hf. left.
  - apply IH; intros; [apply Hf; by right|]. eapply (Hxy x0 y); eauto; by right.
Qed.

Lemma StronglySorted_seqZ m n : StronglySorted Z.lt (seqZ m n).
Proof.
  unfold seqZ. generalize (Z.to_nat n) as k. intros k.
  cut (forall s, StronglySorted Z.lt ((fun i : nat => Z.of_nat i + m)%Z <$> seq s k)); [done|].
  induction k as [|k IH]; intros s; csimpl; [constructor|].
  constructor; [apply IH|]. apply Forall_fmap, Forall_seq. simpl. intros j Hj. lia.
Qed.

(** A loop that may fail. *)
Lemma foldl_some_cons {A B} (g : A -> B -> option A) (a : A) (b : B) l :
  foldl (fun r x => r ≫= fun a => g a x) (Some a) (b :: l) = foldl (fun r x => r ≫= fun a => g a x) (g a b) l.
Proof. done. Qed.

Lemma foldl_none {A B} (g : A -> B -> option A) (l : list B) :
  foldl (fun r x => r ≫= fun a => g a x) None l = None.
Proof. by induction l. Qed.

(** Filters that agree on the elements of a list. *)
Lemma list_filter_ext {A} (P1 P2 : A -> Prop) `{!forall x, Decision (P1 x), !forall x, Decision (P2 x)}
    (l : list A) :
  (forall x, x ∈ l -> (P1 x <-> P2 x)) -> filter P1 l = filter P2 l.
Proof.
  induction l as [|a l IH]; intros Hiff; [done|]. rewrite !filter_cons.
  rewrite IH by (intros; apply Hiff; by right).
  pose proof (Hiff a ltac:(left)) as Ha. repeat case_decide; tauto.
Qed.

(** The least number with a decidable property. *)
Lemma least_Z (P : Z -> Prop) `{!forall x, Decision (P x)} i :
  (0 <= i)%Z -> P i -> exists e, (0 <= e <= i)%Z /\ P e /\ forall j, (0 <= j < e)%Z -> ~ P j.
Proof.
  intros Hi HP. remember (Z.to_nat i) as n eqn:Hn. revert i Hi HP Hn.
  induction n as [n IH] using lt_wf_ind. intros i Hi HP Hn.
  destruct (decide (Exists P (seqZ 0 i))) as [Hex|Hno].
  - apply Exists_exists in Hex as (j&Hj%elem_of_seqZ&HPj).
    destruct (IH (Z.to_nat j) ltac:(lia) j ltac:(lia) HPj eq_refl) as (e&He&HPe&Hmin).
    exists e. split_and!; (done || lia).
  - exists i. split_and!; [lia|lia|done|]. intros j Hj HPj. apply Hno, Exists_exists.
    exists j. by rewrite elem_of_seqZ.
Qed.

Lemma length_bind_const {A B} (f : A -> list B) n l :
  (forall x, x ∈ l -> length (f x) = n) -> length (l ≫= f) = (length l * n)%nat.
Proof.
  induction l as [|x l IH]; intros Hf; [done|]. cbn [mbind list_bind length]. rewrite length_app.
  rewrite (Hf x) by left. change (list_bind A B f l) with (l ≫= f). rewrite IH by (intros; apply Hf; by right). lia.
Qed.

Lemma bind_perm_ext {A B} (f g : A -> list B) l : (forall x, x ∈ l -> f x ≡ₚ g x) -> l ≫= f ≡ₚ l ≫= g.
Proof.
  induction l as [|a l IH]; intros Hfg; [done|]. cbn [mbind list_bind].
  rewrite (Hfg a ltac:(left)), IH; [done|]. intros; apply Hfg. by right.
Qed.

Lemma bind_none {A B} (f : A -> list B) l : (forall x, x ∈ l -> f x = []) -> l ≫= f = [].
Proof.
  induction l as [|a l IH]; intros Hf; [done|]. cbn [mbind list_bind].
  rewrite (Hf a ltac:(left)), IH; [done|]. intros; apply Hf. by right.
Qed.

(** Elements grouped by a key: those whose key is not listed give nothing. *)
Lemma bind_partition {A B K} `{!EqDecision K} (key : A -> K) (f : A -> list B) ks l :
  NoDup ks -> (forall x, x ∈ l -> key x ∉ ks -> f x = []) ->
  l ≫= f ≡ₚ ks ≫= fun k => filter (fun x => key x = k) l ≫= f.
Proof.
  revert l. induction ks as [|k ks IH]; intros l Hnd Hf; cbn [mbind list_bind].
  { rewrite bind_none; [done|]. intros x Hx. apply Hf; [done|]. apply not_elem_of_nil. }
  apply NoDup_cons in Hnd as [Hk Hnd].
  rewrite <- (filter_app_complement (fun x => key x = k) l) at 1. rewrite bind_app. f_equiv.
  rewrite IH; [|done|].
  - apply bind_perm_ext. intros k' Hk'. rewrite list_filter_filter. apply Permutation_refl'. f_equal.
    apply list_filter_ext. intros x. split; [by intros []|]. intros <-. split; [done|]. intros Heq. apply Hk. by rewrite <- Heq.
  - intros x [Hx Hl]%list_elem_of_filter Hks. apply Hf; [done|]. by rewrite not_elem_of_cons.
Qed.
