(* ===== verification/Span.v ===== *)
(** Spans of the input sentence: [span_t] of src/sbmt_decoder/include/sbmt/span.hpp
    and the span functions of src/sbmt_decoder/src/span.cpp.

    A [span_index_t] is a [boost::uint16_t]; every conversion of an [int]
    expression back to it is written with [u16].  The constructor's
    [assert(l <= r)] is the predicate [span_ok], which the theorems establish. *)
From S2P Require Import Prelude.
Open Scope Z_scope.

Definition USHRT_MAX : Z := 65535.

(** The pair [s] of the class. *)
Record span_t := mk_span { span_left : Z; span_right : Z }.

#[export] Instance span_t_eq_dec : EqDecision span_t.
Proof. solve_decision. Defined.

(** [span_t(span_index_t l, span_index_t r)]: the arguments are converted. *)
Definition span_ctor (l r : Z) : span_t := mk_span (u16 l) (u16 r).

(** [span_t()] *)
Definition span_default : span_t := mk_span 0 0.

(** The representable spans that satisfy the constructor's assertion. *)
Definition span_ok (s : span_t) : Prop :=
  0 <= span_left s /\ span_left s <= span_right s /\ span_right s < 65536.

#[export] Instance span_ok_dec s : Decision (span_ok s).
Proof. unfold span_ok. solve_decision. Defined.

(** [span_t::lr] *)
Definition span_lr (s : span_t) (r : bool) : Z :=
  if r then span_right s else span_left s.

(** [span_t::size]: an [int] difference converted to [std::size_t]. *)
Definition span_size (s : span_t) : Z := u64 (span_right s - span_left s).

(** [operator==] and [operator<] *)
Definition span_eqb (a b : span_t) : bool :=
  (span_left a =? span_left b) && (span_right a =? span_right b).

Definition span_ltb (a b : span_t) : bool :=
  (span_left a <? span_left b)
  || ((span_left a =? span_left b) && (span_right a <? span_right b)).

Definition adjacent (s1 s2 : span_t) : bool := span_right s1 =? span_left s2.

Definition crossing (s1 s2 : span_t) : bool :=
  let cleft := Z.max (span_left s1) (span_left s2) in
  let cright := Z.min (span_right s1) (span_right s2) in
  if cleft >=? cright then false
  else let c := span_ctor cleft cright in
       negb (span_eqb c s1) && negb (span_eqb c s2).

(** [combine]; its assertion that the spans are adjacent is left out: edges are made of the
    spans of the two parts of a split, which are. *)
Definition combine (s1 s2 : span_t) : span_t := span_ctor (span_left s1) (span_right s2).

(** [hash_value]; [boost::hash<short>] and [boost::hash_combine] are Boost's. *)
Definition hash_value (boost_hash_short : Z -> Z) (boost_hash_combine : Z -> Z -> Z)
    (s : span_t) : Z :=
  let retval := boost_hash_short (s16 (span_left s)) in
  boost_hash_combine retval (boost_hash_short (s16 (span_right s))).

Definition span_length (s : span_t) : Z := u64 (u64 (span_right s) - u64 (span_left s)).

Definition shift_left (s : span_t) : span_t :=
  if span_left s =? 0 then span_ctor (USHRT_MAX - span_length s) USHRT_MAX
  else span_ctor (span_left s - 1) (span_right s - 1).

Definition shift_right (s : span_t) : span_t :=
  if span_right s =? USHRT_MAX then span_ctor 0 (span_length s)
  else span_ctor (span_left s + 1) (span_right s + 1).

Definition grow_right (s : span_t) : span_t := span_ctor (span_left s) (span_right s + 1).
Definition grow_left (s : span_t) : span_t := span_ctor (span_left s - 1) (span_right s).
Definition shrink_right (s : span_t) : span_t := span_ctor (span_left s) (span_right s - 1).
Definition shrink_left (s : span_t) : span_t := span_ctor (span_left s + 1) (span_right s).

(** * Lemmas *)

Lemma span_ctor_small l r :
  0 <= l < 65536 -> 0 <= r < 65536 -> span_ctor l r = mk_span l r.
Proof. intros. unfold span_ctor. by no_wrap. Qed.

Lemma span_eqb_eq a b : span_eqb a b = true <-> a = b.
Proof.
  unfold span_eqb. destruct a, b; simpl. rewrite andb_true_iff, !Z.eqb_eq.
  split; [intros [-> ->]; done|intros [= -> ->]; done].
Qed.

Lemma span_eqb_false a b : span_eqb a b = false <-> a <> b.
Proof. rewrite <- not_true_iff_false, span_eqb_eq. done. Qed.

Lemma span_eqb_refl a : span_eqb a a = true.
Proof. by apply span_eqb_eq. Qed.

Lemma length_ok s : span_ok s -> span_length s = span_right s - span_left s.
Proof. intros (?&?&?). unfold span_length. by no_wrap. Qed.

Lemma size_ok s : span_ok s -> span_size s = span_length s.
Proof. intros H. rewrite length_ok by done. destruct H as (?&?&?). unfold span_size. by no_wrap. Qed.

Lemma length_mk l r : 0 <= l -> l <= r -> r < 65536 -> span_length (mk_span l r) = r - l.
Proof. intros. by apply length_ok. Qed.

#[export] Instance span_ltb_sw : StrictWeak span_ltb.
Proof.
  split; intros; unfold span_ltb in *; lia.
Qed.

(** Opens a span record and its well-formedness. *)
Ltac open_span :=
  repeat match goal with
  | s : span_t |- _ => destruct s as [? ?]
  | H : span_ok _ |- _ => destruct H as (?&?&?); simpl in *
  end.

Lemma shift_right_ok s : span_ok s ->
  shift_right s = (if span_right s =? USHRT_MAX then mk_span 0 (span_length s)
                   else mk_span (span_left s + 1) (span_right s + 1)).
Proof.
  intros H. pose proof (length_ok _ H) as Hl. unfold shift_right, USHRT_MAX in *.
  open_span. rewrite Hl. destruct (_ =? 65535) eqn:E; apply span_ctor_small; lia.
Qed.

Lemma shift_left_ok s : span_ok s ->
  shift_left s = (if span_left s =? 0 then mk_span (USHRT_MAX - span_length s) USHRT_MAX
                  else mk_span (span_left s - 1) (span_right s - 1)).
Proof.
  intros H. pose proof (length_ok _ H) as Hl. unfold shift_left, USHRT_MAX in *.
  open_span. rewrite Hl. destruct (_ =? 0) eqn:E; apply span_ctor_small; lia.
Qed.

(** ** Properties *)

(** Two well-formed spans cross exactly when each starts strictly before
    the other ends and neither contains the other, and no assertion of the
    [span_t] constructor fails on the way. *)
Theorem crossing_spec s1 s2 :
  span_ok s1 -> span_ok s2 ->
  (crossing s1 s2 = true <->
   (span_left s1 < span_left s2 < span_right s1 /\ span_right s1 < span_right s2) \/
   (span_left s2 < span_left s1 < span_right s2 /\ span_right s2 < span_right s1)).
Proof.
  intros H1 H2. unfold crossing. open_span.
  destruct (Z.max _ _ >=? Z.min _ _) eqn:E; [lia|].
  rewrite span_ctor_small by lia. unfold span_eqb; simpl. lia.
Qed.

Lemma crossing_spec_witness :
  crossing (mk_span 1 4) (mk_span 2 6) = true /\
  ((1 < 2 < 4 /\ 4 < 6) \/ (2 < 1 < 6 /\ 6 < 4)).
Proof.
  split; [reflexivity|].
  apply (crossing_spec (mk_span 1 4) (mk_span 2 6)); [vm_compute; intuition congruence|vm_compute; intuition congruence|reflexivity].
Defined.

(** On well-formed spans [shift_left] undoes [shift_right] and conversely,
    including at both ends of the index range where they wrap around; both keep
    the length and the constructor's assertion. *)
Lemma shift_inverse s :
  span_ok s ->
  shift_left (shift_right s) = s /\ shift_right (shift_left s) = s /\
  span_ok (shift_right s) /\ span_ok (shift_left s) /\
  span_length (shift_right s) = span_length s /\ span_length (shift_left s) = span_length s.
Proof.
  intros H. pose proof (length_ok _ H) as Hl.
  assert (HR : span_ok (shift_right s)).
  { rewrite shift_right_ok, Hl by done. unfold USHRT_MAX, span_ok.
    open_span. destruct (_ =? 65535) eqn:E; simpl; lia. }
  assert (HL : span_ok (shift_left s)).
  { rewrite shift_left_ok, Hl by done. unfold USHRT_MAX, span_ok.
    open_span. destruct (_ =? 0) eqn:E; simpl; lia. }
  split_and!; [rewrite shift_left_ok by done|rewrite shift_right_ok by done|done|done| |];
    rewrite ?(length_ok (shift_right s)), ?(length_ok (shift_left s)) by done;
    rewrite ?shift_right_ok, ?shift_left_ok, ?Hl by done;
    destruct s as [l r]; unfold USHRT_MAX; open_span; simpl;
    [destruct (r =? 65535) eqn:Er|destruct (l =? 0) eqn:El
    |destruct (r =? 65535) eqn:Er|destruct (l =? 0) eqn:El]; simpl; try lia;
    repeat match goal with |- context [if ?b then _ else _] => destruct b eqn:? end;
    try lia; f_equal; lia.
Qed.

Lemma shift_inverse_example :
  shift_left (shift_right (mk_span 3 65535)) = mk_span 3 65535 /\
  shift_right (mk_span 3 65535) = mk_span 0 65532.
Proof.
  split; [apply (shift_inverse (mk_span 3 65535)); vm_compute; intuition congruence|reflexivity].
Defined.
