(* ===== verification/SpanGen.v ===== *)
(** Enumeration of spans: [partitions_generator], [shift_generator],
    [span_transform] and the [cky_generator] classes of
    src/sbmt_decoder/include/sbmt/span.hpp and src/sbmt_decoder/src/span.cpp.

    A generator's [begin()]/[end()] pair is modelled at the level of iterator
    states; a method that returns a range returns the values that a loop over
    it visits ([range_list]), [None] when the loop would not reach [end()].
    [range_fuel] increments suffice: an iterator only ranges over indices of
    type [uint16_t]. *)
From S2P Require Import Prelude Span.
Open Scope Z_scope.

Definition range_fuel : nat := Z.to_nat 65536.

Lemma range_fuel_eq : range_fuel = Z.to_nat 65536.
Proof. reflexivity. Qed.
Lemma range_fuel_pos : (1 <= range_fuel)%nat.
Proof. rewrite range_fuel_eq. lia. Qed.
#[global] Opaque range_fuel.

(** * [boost::logic::tribool] *)

Inductive tribool := tri_true | tri_false | indeterminate.

Definition tri_not (t : tribool) : tribool :=
  match t with
  | tri_true => tri_false
  | tri_false => tri_true
  | indeterminate => indeterminate
  end.

(** The value of a tribool used as a condition. *)
Definition tri_test (t : tribool) : bool :=
  match t with tri_true => true | _ => false end.

(** * [partitions_generator] *)

(** The mark [span_t(0, USHRT_MAX)] of an exhausted side. *)
Definition past_span : span_t := span_ctor 0 USHRT_MAX.

Definition past_forward (p : span_t * span_t) : tribool :=
  if span_eqb p.2 past_span
  then (if span_eqb p.1 past_span then indeterminate else tri_true)
  else tri_false.

Definition past_reverse (p : span_t * span_t) : tribool :=
  if span_eqb p.1 past_span
  then (if span_eqb p.2 past_span then indeterminate else tri_true)
  else tri_false.

Definition initial_partition (s : span_t) : span_t * span_t :=
  if span_length s =? 1 then (past_span, past_span)
  else (span_ctor (span_left s) (span_left s + 1), span_ctor (span_left s + 1) (span_right s)).

Definition final_partition (s : span_t) : span_t * span_t :=
  if span_length s =? 1 then (past_span, past_span)
  else (span_ctor (span_left s) (span_right s - 1), span_ctor (span_right s - 1) (span_right s)).

(** [partitions_generator::begin] and [end] (the two private constructors). *)
Definition partitions_begin (s : span_t) : span_t * span_t := initial_partition s.

Definition partitions_end (s : span_t) : span_t * span_t :=
  if span_length s =? 1 then (past_span, past_span) else (s, past_span).

Definition partitions_increment (p : span_t * span_t) : span_t * span_t :=
  if span_length p.2 =? 1 then (grow_right p.1, past_span)
  else if tri_test (past_reverse p) then initial_partition p.2
  else if tri_test (tri_not (past_forward p)) then (grow_right p.1, shrink_left p.2)
  else p.

Definition partitions_decrement (p : span_t * span_t) : span_t * span_t :=
  if span_length p.1 =? 1 then (past_span, grow_left p.2)
  else if tri_test (past_forward p) then final_partition p.1
  else if tri_test (tri_not (past_reverse p)) then (shrink_right p.1, grow_left p.2)
  else p.

Definition partitions_of (s : span_t) : option (list (span_t * span_t)) :=
  range_list partitions_increment range_fuel (partitions_begin s) (partitions_end s).

(** * [shift_generator] *)

Definition shift_begin (total : span_t) (size : Z) : span_t :=
  span_ctor (span_left total) (span_left total + size).

Definition shift_end (total : span_t) (size : Z) : span_t :=
  shift_right (span_ctor (span_right total - size) (span_right total)).

Definition shifts_of (total : span_t) (size : Z) : option (list span_t) :=
  range_list shift_right range_fuel (shift_begin total size) (shift_end total size).

(** * [span_transform] *)

(** The member [transform]; [operator[]] on it is unchecked, so an index past
    its end has no value. *)
Definition transform_index (t : list Z) (idx : Z) : option Z := t !! Z.to_nat idx.

Definition transform_span (t : list Z) (s : span_t) : option span_t :=
  l ← transform_index t (span_left s);
  r ← transform_index t (span_right s);
  Some (span_ctor l r).

(** [span_transform::inverse]: the position [std::lower_bound] finds, which is
    asserted not to be the end. *)
Definition inverse_index (t : list Z) (idx : Z) : option Z :=
  let pos := lower_bound (fun x => x <? idx) t in
  if (pos =? length t)%nat then None else Some (u16 (Z.of_nat pos)).

Definition inverse_span (t : list Z) (s : span_t) : option span_t :=
  l ← inverse_index t (span_left s);
  r ← inverse_index t (span_right s);
  Some (span_ctor l r).

(** * The [cky_generator] interface and its implementations *)

Record cky_generator := {
  cky_shifts : span_t -> Z -> option (list span_t);
  cky_shift_sizes : span_t -> option Z;
  cky_partitions : span_t -> option (list (span_t * span_t))
}.

(** [full_cky_generator] *)
Definition full_cky_generator : cky_generator := {|
  cky_shifts s size := shifts_of s size;
  cky_shift_sizes s := Some (u16 (span_length s));
  cky_partitions s := partitions_of s
|}.

(** [limit_syntax_length_generator] *)
Definition limit_syntax_shifts (max_length : Z) (s : span_t) (size : Z) : option (list span_t) :=
  if max_length >? size then shifts_of s size
  else
    let itr := shift_begin s size in
    let second :=
      if negb (span_eqb itr (shift_end s size)) && (span_left itr =? 0)
      then shift_right itr else itr in
    range_list shift_right range_fuel itr second.

Definition limit_syntax_partitions (max_length : Z) (s : span_t)
  : option (list (span_t * span_t)) :=
  let first := partitions_begin s in
  let second := partitions_end s in
  first ← (if span_length s >? max_length
           then skip_while partitions_increment range_fuel
                  (fun p => span_length p.2 >? max_length) first second
           else Some first);
  range_list partitions_increment range_fuel first second.

Definition limit_syntax_length_generator (max_length : Z) : cky_generator := {|
  cky_shifts := limit_syntax_shifts max_length;
  cky_shift_sizes s := Some (u16 (span_length s));
  cky_partitions := limit_syntax_partitions max_length
|}.

(** [limit_split_difference_generator] *)
Definition absdiff (na nb : Z) : Z := if na >? nb then u64 (na - nb) else u64 (nb - na).

Definition length_diff (a b : span_t) : Z := absdiff (span_length a) (span_length b).

Definition limit_split_partitions (max_diff : Z) (s : span_t)
  : option (list (span_t * span_t)) :=
  if span_left s >? 0 then
    let pend := partitions_end s in
    pitr ← skip_while partitions_increment range_fuel
             (fun p => length_diff p.1 p.2 >? max_diff) (partitions_begin s) pend;
    let first := pitr in
    let pitr := if decide (pitr = pend) then pitr else partitions_increment pitr in
    second ← skip_while partitions_increment range_fuel
               (fun p => length_diff p.1 p.2 <=? max_diff) pitr pend;
    range_list partitions_increment range_fuel first second
  else partitions_of s.

Definition limit_split_difference_generator (max_diff : Z) : cky_generator := {|
  cky_shifts s size := shifts_of s size;
  cky_shift_sizes s := Some (u16 (span_length s));
  cky_partitions := limit_split_partitions max_diff
|}.

(** [span_transform_generator]: the underlying generator on the inverse image,
    its ranges mapped through the transform on dereference. *)
Definition transform_pair (t : list Z) (p : span_t * span_t) : option (span_t * span_t) :=
  a ← transform_span t p.1; b ← transform_span t p.2; Some (a, b).

Definition span_transform_generator (t : list Z) (gen : cky_generator) : cky_generator := {|
  cky_shifts s size := s ← inverse_span t s; l ← cky_shifts gen s size; mapM (transform_span t) l;
  cky_shift_sizes s := s ← inverse_span t s; Some (u16 (span_length s));
  cky_partitions s := s ← inverse_span t s; l ← cky_partitions gen s; mapM (transform_pair t) l
|}.

(** * Lemmas *)

(** The cut of [s] at index [k], and every cut from left to right. *)
Definition split_at (s : span_t) (k : Z) : span_t * span_t :=
  (mk_span (span_left s) k, mk_span k (span_right s)).

Definition all_splits (s : span_t) : list (span_t * span_t) :=
  split_at s <$> seqZ (span_left s + 1) (span_right s - span_left s - 1).

(** The spans of [size] indices inside [total]. *)
Definition all_shifts (total : span_t) (size : Z) : list span_t :=
  (fun k => mk_span k (k + size)) <$>
    seqZ (span_left total) (span_right total - span_left total - size + 1).

Lemma past_span_eq : past_span = mk_span 0 65535.
Proof. reflexivity. Qed.

Lemma tri_test_past_reverse p :
  tri_test (past_reverse p) = span_eqb p.1 past_span && negb (span_eqb p.2 past_span).
Proof. unfold past_reverse. by destruct (span_eqb p.1 past_span), (span_eqb p.2 past_span). Qed.

Lemma tri_test_past_forward p :
  tri_test (past_forward p) = span_eqb p.2 past_span && negb (span_eqb p.1 past_span).
Proof. unfold past_forward. by destruct (span_eqb p.1 past_span), (span_eqb p.2 past_span). Qed.

Lemma tri_test_not_past_forward p :
  tri_test (tri_not (past_forward p)) = negb (span_eqb p.2 past_span).
Proof. unfold past_forward. by destruct (span_eqb p.1 past_span), (span_eqb p.2 past_span). Qed.

Lemma tri_test_not_past_reverse p :
  tri_test (tri_not (past_reverse p)) = negb (span_eqb p.1 past_span).
Proof. unfold past_reverse. by destruct (span_eqb p.1 past_span), (span_eqb p.2 past_span). Qed.

Lemma not_past_span l r : l <> 0 \/ r <> 65535 -> span_eqb (mk_span l r) past_span = false.
Proof. intros H. rewrite past_span_eq. unfold span_eqb. simpl. lia. Qed.

Lemma increment_split s k :
  span_ok s -> span_left s < k < span_right s ->
  partitions_increment (split_at s k) =
    if decide (k + 1 = span_right s) then (s, past_span) else split_at s (k + 1).
Proof.
  intros H Hk. open_span. unfold partitions_increment, split_at. simpl.
  rewrite length_mk by lia. case_decide.
  - replace (_ =? 1) with true by lia. unfold grow_right; simpl.
    rewrite span_ctor_small by lia. do 2 f_equal. lia.
  - replace (_ =? 1) with false by lia.
    rewrite tri_test_past_reverse, tri_test_not_past_forward. simpl.
    rewrite !not_past_span by lia. simpl. unfold grow_right, shrink_left. simpl.
    by rewrite !span_ctor_small by lia.
Qed.

Lemma decrement_split s k :
  span_ok s -> span_left s + 1 < k < span_right s ->
  partitions_decrement (split_at s k) = split_at s (k - 1).
Proof.
  intros H Hk. open_span. unfold partitions_decrement, split_at. simpl.
  rewrite length_mk by lia. replace (_ =? 1) with false by lia.
  rewrite tri_test_past_forward, tri_test_not_past_reverse. simpl.
  rewrite !not_past_span by lia. simpl. unfold shrink_right, grow_left. simpl.
  by rewrite !span_ctor_small by lia.
Qed.

Lemma begin_split s :
  span_ok s -> 2 <= span_length s -> partitions_begin s = split_at s (span_left s + 1).
Proof.
  intros H. rewrite length_ok by done. intros Hl. unfold partitions_begin, initial_partition.
  rewrite length_ok by done. open_span.
  replace (_ =? 1) with false by lia. by rewrite !span_ctor_small by lia.
Qed.

Lemma end_split s :
  span_ok s -> 2 <= span_length s -> partitions_end s = (s, past_span).
Proof. intros H Hl. unfold partitions_end. by replace (_ =? 1) with false by lia. Qed.

Lemma partitions_chain s :
  span_ok s -> 1 <= span_length s ->
  chain partitions_increment (partitions_begin s) (all_splits s) (partitions_end s).
Proof.
  intros H Hl. destruct (decide (span_length s = 1)) as [E|E].
  { unfold partitions_begin, initial_partition, partitions_end, all_splits.
    rewrite E. rewrite length_ok in E by done. by rewrite E. }
  rewrite begin_split, end_split by (done || lia). unfold all_splits, seqZ.
  rewrite <- list_fmap_compose.
  rewrite length_ok in * by done. set (n := Z.to_nat _).
  set (f := fun i : nat => if decide (i < n)%nat
                           then split_at s (Z.of_nat i + (span_left s + 1)) else (s, past_span)).
  replace (split_at s (span_left s + 1)) with (f 0%nat).
  2: { unfold f. rewrite decide_True by lia. f_equal. }
  replace (s, past_span) with (f n).
  2: { unfold f. by rewrite decide_False by lia. }
  erewrite list_fmap_ext; [apply chain_fmap_seq|].
  - intros i Hi. unfold f. rewrite decide_True by done.
    rewrite increment_split by (done || lia). repeat case_decide; try lia; [done|].
    f_equal. lia.
  - intros i x Hx. simpl. unfold f. apply lookup_seq in Hx as [-> Hx]. by rewrite decide_True.
Qed.

Lemma elem_of_all_splits s p :
  p ∈ all_splits s <-> exists k, span_left s < k < span_right s /\ p = split_at s k.
Proof.
  unfold all_splits. rewrite list_elem_of_fmap. setoid_rewrite elem_of_seqZ.
  split; intros [k [H1 H2]]; exists k; split; try done; lia.
Qed.

Lemma split_end_not_in s : span_ok s -> 1 <= span_length s -> partitions_end s ∉ all_splits s.
Proof.
  intros H Hl [k [Hk He]]%elem_of_all_splits.
  rewrite end_split in He by (rewrite ?length_ok in * by done; done || lia).
  unfold split_at in He. destruct s as [l r]. simplify_eq/=. lia.
Qed.

Lemma all_splits_NoDup s : NoDup (all_splits s).
Proof.
  unfold all_splits. apply NoDup_fmap_2_strong; [|apply NoDup_seqZ].
  intros x y _ _ [= ->]. done.
Qed.

Lemma all_splits_length s : span_ok s -> (List.length (all_splits s) <= range_fuel)%nat.
Proof.
  intros H. open_span. unfold all_splits. rewrite range_fuel_eq.
  rewrite length_fmap, length_seqZ. simpl. lia.
Qed.

Lemma partitions_of_all s :
  span_ok s -> 1 <= span_length s -> partitions_of s = Some (all_splits s).
Proof.
  intros. apply range_list_chain;
    auto using partitions_chain, split_end_not_in, all_splits_length.
Qed.

Lemma lookup_all_splits s i p :
  all_splits s !! i = Some p <->
  p = split_at s (span_left s + 1 + Z.of_nat i) /\
  (i < Z.to_nat (span_right s - span_left s - 1))%nat.
Proof.
  unfold all_splits. rewrite list_lookup_fmap. split.
  - intros Hp. destruct (seqZ _ _ !! i) eqn:E; [|done]. simplify_eq/=.
    apply lookup_seqZ in E as [-> ?]. split; [done|lia].
  - intros [-> Hi]. rewrite lookup_seqZ_lt by lia. done.
Qed.

(** A predicate that is first true and then false (or the reverse) along a
    list makes the skipping loops equal to a filter. *)
Lemma filter_split {A} (P : A -> bool) (l1 l2 : list A) :
  Forall (fun x => P x = false) l1 -> Forall (fun x => P x = true) l2 ->
  filter (fun x => P x = true) (l1 ++ l2) = l2.
Proof.
  intros H1 H2. rewrite filter_app.
  replace (filter _ l1) with (@nil A).
  2: { induction H1 as [|x l Hx _ IH]; [done|]. rewrite filter_cons_False by congruence. done. }
  simpl. induction H2 as [|x l Hx _ IH]; [done|]. rewrite filter_cons_True by done. by f_equal.
Qed.

Lemma split_lengths s k :
  span_ok s -> span_left s < k < span_right s ->
  span_length (split_at s k).1 = k - span_left s /\
  span_length (split_at s k).2 = span_right s - k.
Proof. intros H Hk. open_span. by rewrite !length_mk by lia. Qed.

Lemma lookup_all_splits_app s l1 l2 j p :
  all_splits s = l1 ++ l2 -> l2 !! j = Some p ->
  exists k, p = split_at s k /\ k = span_left s + 1 + Z.of_nat (List.length l1 + j) /\
    span_left s < k < span_right s.
Proof.
  intros E Hj. exists (span_left s + 1 + Z.of_nat (List.length l1 + j)).
  assert (Hl : all_splits s !! (List.length l1 + j)%nat = Some p).
  { rewrite E, lookup_app_r by lia. by replace (_ + j - _)%nat with j by lia. }
  apply lookup_all_splits in Hl as [-> Hlt]. split_and!; [done|done|lia|lia].
Qed.

Lemma limit_syntax_partitions_filter max s :
  span_ok s -> 1 <= span_length s ->
  limit_syntax_partitions max s =
    Some (filter (fun p => (span_length p.2 <=? max) = true) (all_splits s)).
Proof.
  intros H Hl. unfold limit_syntax_partitions.
  pose proof (all_splits_length s H) as Hlen. revert Hlen.
  generalize range_fuel. intros fuel Hlen.
  pose proof (partitions_chain s H Hl) as Hc.
  pose proof (split_end_not_in s H Hl) as He.
  destruct (span_length s >? max) eqn:E.
  - destruct (skip_while_chain partitions_increment fuel
      (fun p => span_length p.2 >? max) _ _ _ Hc He Hlen) as (l1&l2&m&Hs&->&_&Hc2&Hf&Hhd).
    simpl. rewrite Hs in He, Hlen. rewrite elem_of_app in He. rewrite length_app in Hlen.
    rewrite (range_list_chain _ _ _ l2) by (done || tauto || lia).
    rewrite Hs, (filter_split (fun p => span_length p.2 <=? max)); [done| |].
    + eapply Forall_impl; [exact Hf|]. simpl. intros. lia.
    + apply Forall_lookup. intros j q Hj.
      destruct (lookup_all_splits_app s l1 l2 j q Hs Hj) as (k&->&Ek&Hk).
      destruct l2 as [|x l2]; [done|]. destruct (Hhd x eq_refl) as [Hx _].
      destruct (lookup_all_splits_app s l1 (x :: l2) 0 x Hs eq_refl) as (kx&->&Ekx&Hkx).
      rewrite (proj2 (split_lengths s kx H Hkx)) in Hx.
      rewrite (proj2 (split_lengths s k H Hk)). lia.
  - simpl. rewrite (range_list_chain _ _ _ (all_splits s)) by done. f_equal.
    symmetry. apply (filter_split (fun p => span_length p.2 <=? max) []); [done|].
    apply Forall_forall. intros p [k [Hk ->]]%elem_of_all_splits.
    rewrite (proj2 (split_lengths s _ H Hk)). rewrite length_ok in E by done. lia.
Qed.

Lemma length_diff_split s k :
  span_ok s -> span_left s < k < span_right s ->
  length_diff (split_at s k).1 (split_at s k).2 = Z.abs (2 * k - span_left s - span_right s).
Proof.
  intros H Hk. destruct (split_lengths s k H Hk) as [E1 E2].
  unfold length_diff, absdiff. rewrite E1, E2. open_span.
  destruct (_ >? _) eqn:E; no_wrap; lia.
Qed.

Lemma filter_interval {A} (P : A -> bool) (l1 l2 l3 : list A) :
  Forall (fun x => P x = false) l1 -> Forall (fun x => P x = true) l2 ->
  Forall (fun x => P x = false) l3 ->
  filter (fun x => P x = true) (l1 ++ l2 ++ l3) = l2.
Proof.
  intros H1 H2 H3. rewrite app_assoc, filter_app, filter_split by done.
  replace (filter _ l3) with (@nil A); [by rewrite app_nil_r|].
  induction H3 as [|x l Hx _ IH]; [done|]. rewrite filter_cons_False by congruence. done.
Qed.

Lemma limit_split_partitions_filter diff s :
  span_ok s -> 1 <= span_length s -> 0 < span_left s ->
  limit_split_partitions diff s =
    Some (filter (fun p => (length_diff p.1 p.2 <=? diff) = true) (all_splits s)).
Proof.
  intros H Hl Hpos. unfold limit_split_partitions.
  pose proof (all_splits_length s H) as Hlen. revert Hlen.
  generalize range_fuel. intros fuel Hlen.
  replace (span_left s >? 0) with true by lia.
  pose proof (all_splits_NoDup s) as Hnd.
  destruct (skip_interval partitions_increment fuel
    (fun p => length_diff p.1 p.2 >? diff) (fun p => length_diff p.1 p.2 <=? diff) _ _ _
    ltac:(intros x; cbn beta; lia) (partitions_chain s H Hl) (split_end_not_in s H Hl) Hnd Hlen)
    as (l1&l2&l3&Hs&->&Hf1&Hf2&Hhd&Hnil).
  rewrite Hs, (filter_interval (fun p => length_diff p.1 p.2 <=? diff)); try done.
  apply Forall_lookup. intros j q Hj.
  assert (Hs' : all_splits s = (l1 ++ l2) ++ l3) by by rewrite <- app_assoc.
  destruct (lookup_all_splits_app s _ l3 j q Hs' Hj) as (k&->&Ek&Hk).
  destruct l3 as [|y l3]; [done|]. specialize (Hhd y eq_refl).
  destruct (lookup_all_splits_app s _ (y :: l3) 0 y Hs' eq_refl) as (ky&->&Eky&Hky).
  destruct l2 as [|x l2]; [by specialize (Hnil eq_refl)|].
  destruct (lookup_all_splits_app s l1 _ 0 x Hs eq_refl) as (kx&->&Ekx&Hkx).
  apply Forall_cons in Hf2 as [Hx _].
  rewrite length_diff_split in Hx, Hhd |- * by done.
  rewrite length_app in Ek, Eky. simpl in *. lia.
Qed.

(** A total span and a span size for which [shift_generator]'s assertion and
    its end mark are sound. *)
Definition shiftable (total : span_t) (size : Z) : Prop :=
  span_ok total /\ 0 <= size <= span_length total /\ total <> mk_span 0 65535.

Lemma shift_begin_eq total size :
  shiftable total size -> shift_begin total size = mk_span (span_left total) (span_left total + size).
Proof.
  intros (H&Hs&_). rewrite length_ok in Hs by done. open_span.
  unfold shift_begin. simpl. by rewrite span_ctor_small by lia.
Qed.

Lemma shift_end_eq total size :
  shiftable total size ->
  shift_end total size =
    (if span_right total =? 65535 then mk_span 0 size
     else mk_span (span_right total - size + 1) (span_right total + 1)).
Proof.
  intros (H&Hs&_). rewrite length_ok in Hs by done. open_span.
  unfold shift_end. simpl. rewrite span_ctor_small by lia.
  rewrite shift_right_ok by (unfold span_ok; simpl; lia). simpl. unfold USHRT_MAX.
  rewrite length_mk by lia. destruct (_ =? 65535); f_equal; lia.
Qed.

Lemma elem_of_all_shifts total size s :
  s ∈ all_shifts total size <->
  exists k, s = mk_span k (k + size) /\ span_left total <= k /\ k + size <= span_right total.
Proof.
  unfold all_shifts. rewrite list_elem_of_fmap. setoid_rewrite elem_of_seqZ.
  split; intros [k H]; exists k; split; try tauto; lia.
Qed.

Lemma shift_end_not_in total size :
  shiftable total size -> shift_end total size ∉ all_shifts total size.
Proof.
  intros H [k (Hk&?&?)]%elem_of_all_shifts. rewrite shift_end_eq in Hk by done.
  destruct H as (Hok&Hs&Hne). rewrite length_ok in Hs by done. open_span.
  destruct (_ =? 65535) eqn:E; simplify_eq/=; [|lia]. apply Hne. f_equal; lia.
Qed.

Lemma shifts_chain total size :
  shiftable total size ->
  chain shift_right (shift_begin total size) (all_shifts total size) (shift_end total size).
Proof.
  intros H. pose proof H as (Hok&Hs&Hne). rewrite length_ok in Hs by done.
  rewrite shift_begin_eq, shift_end_eq by done. unfold all_shifts, seqZ.
  rewrite <- list_fmap_compose. set (n := Z.to_nat _).
  set (last := if _ =? 65535 then _ else _).
  set (f := fun i : nat => if decide (i < n)%nat
         then mk_span (Z.of_nat i + span_left total) (Z.of_nat i + span_left total + size) else last).
  replace (mk_span (span_left total) _) with (f 0%nat).
  2: { unfold f. by rewrite decide_True by lia. }
  replace last with (f n).
  2: { unfold f. by rewrite decide_False by lia. }
  erewrite list_fmap_ext; [apply chain_fmap_seq|].
  - intros i Hi. unfold f. rewrite decide_True by done.
    destruct total as [l r], Hok as (?&?&?). cbn [span_left span_right] in *.
    rewrite shift_right_ok by (unfold span_ok; simpl; lia). simpl. unfold USHRT_MAX.
    rewrite length_mk by lia. unfold last. case_decide; simpl.
    + replace (_ =? 65535) with false by lia. f_equal; lia.
    + replace (Z.of_nat i + l + size) with r by lia. destruct (r =? 65535); f_equal; lia.
  - intros i x Hx. simpl. unfold f. apply lookup_seq in Hx as [-> Hx]. by rewrite decide_True.
Qed.

Lemma all_shifts_length total size :
  shiftable total size -> (List.length (all_shifts total size) <= range_fuel)%nat.
Proof.
  intros (H&Hs&Hne). rewrite length_ok in Hs by done.
  destruct total as [l r], H as (?&?&?). cbn [span_left span_right] in *.
  unfold all_shifts. rewrite length_fmap, length_seqZ, range_fuel_eq. cbn [span_left span_right].
  assert (l <> 0 \/ r <> 65535) by (destruct (decide (l = 0)); [right; congruence|by left]).
  lia.
Qed.

Lemma shifts_of_all total size :
  shiftable total size -> shifts_of total size = Some (all_shifts total size).
Proof.
  intros. apply range_list_chain; auto using shifts_chain, shift_end_not_in, all_shifts_length.
Qed.

Lemma limit_syntax_shifts_eq max total size :
  shiftable total size ->
  limit_syntax_shifts max total size =
    Some (if max >? size then all_shifts total size
          else if span_left total =? 0 then [mk_span 0 size] else []).
Proof.
  intros H. unfold limit_syntax_shifts. destruct (max >? size); [by apply shifts_of_all|].
  assert (Hne : span_eqb (shift_begin total size) (shift_end total size) = false).
  { apply span_eqb_false. intros E. apply (shift_end_not_in _ _ H). rewrite <- E.
    apply elem_of_all_shifts. exists (span_left total). rewrite shift_begin_eq by done.
    destruct H as (Hok&Hs&_). rewrite length_ok in Hs by done. split; [done|lia]. }
  rewrite Hne, shift_begin_eq by done. cbn [span_left negb andb].
  pose proof range_fuel_pos as Hfuel. revert Hfuel. generalize range_fuel. intros fuel Hfuel.
  destruct H as (Hok&Hs&Hne'). rewrite length_ok in Hs by done.
  destruct total as [l r], Hok as (?&?&?). cbn [span_left span_right] in *.
  destruct (l =? 0) eqn:E.
  - apply Z.eqb_eq in E. subst. simpl.
    apply (range_list_chain _ _ _ [mk_span 0 size]); [done| |done].
    rewrite list_elem_of_singleton, shift_right_ok by (unfold span_ok; simpl; lia). simpl.
    unfold USHRT_MAX. replace (_ =? 65535) with false; [intros [=]; lia|].
    symmetry. apply Z.eqb_neq. intros ?. apply Hne'. f_equal. lia.
  - apply (range_list_chain _ _ _ []); [done|set_solver|apply Nat.le_0_l].
Qed.

(** Indices of a strictly increasing transform. *)
Lemma lower_bound_increasing (t : list Z) i x :
  StronglySorted Z.lt t -> t !! i = Some x -> lower_bound (fun y => y <? x) t = i.
Proof.
  intros Hs Hi. pose proof (lookup_lt_Some _ _ _ Hi).
  apply lower_bound_partition; [lia| |]; intros j y Hj Hlt.
  - apply Z.ltb_lt. eapply StronglySorted_lookup_lt; eauto.
  - apply Z.ltb_ge. destruct (decide (i = j)) as [->|]; [simplify_eq; lia|].
    apply Z.lt_le_incl. eapply (StronglySorted_lookup_lt _ t i j); eauto; lia.
Qed.

(** ** Properties *)

(** Iterating a [partitions_generator] over a non-empty span visits every
    binary split of the span exactly once, from left to right, and reaches
    [end()]. *)
Theorem partitions_enumerates s :
  span_ok s -> 1 <= span_length s ->
  partitions_of s = Some (all_splits s) /\
  NoDup (all_splits s) /\
  (forall a b, (a, b) ∈ all_splits s <->
     span_ok a /\ span_ok b /\ 1 <= span_length a /\ 1 <= span_length b /\
     adjacent a b = true /\ combine a b = s).
Proof.
  intros H Hl. split_and!; [by apply partitions_of_all|apply all_splits_NoDup|].
  intros a b. rewrite elem_of_all_splits. split.
  - intros [k [Hk [= -> ->]]]. open_span. unfold adjacent, combine, span_ok. simpl.
    rewrite !length_mk, span_ctor_small by lia. split_and!; try lia. done.
  - intros (Ha&Hb&La&Lb&Hadj&Hc). rewrite length_ok in La, Lb by done.
    unfold adjacent, combine in *. apply Z.eqb_eq in Hadj.
    destruct a as [la ra], b as [lb rb]. simpl in *. subst lb.
    destruct Ha as (?&?&?), Hb as (?&?&?). simpl in *.
    rewrite span_ctor_small in Hc by lia. subst s. exists ra. simpl. split; [lia|done].
Qed.

Lemma partitions_enumerates_witness :
  partitions_of (mk_span 1 5) = Some (all_splits (mk_span 1 5)) /\ NoDup (all_splits (mk_span 1 5)).
Proof.
  destruct (partitions_enumerates (mk_span 1 5)) as (H1&H2&_);
    [vm_compute; intuition congruence|vm_compute; intuition congruence|].
  split; assumption.
Defined.

(** Stepping a partition iterator back from any position after the first,
    [end()] included, undoes the increment that led to it, unless the span is
    the whole index range [0,65535], whose [end()] mark cannot be decremented. *)
Theorem partitions_decrement_increment s k :
  span_ok s -> span_left s < k < span_right s ->
  (s <> mk_span 0 65535 ->
   partitions_decrement (partitions_increment (split_at s k)) = split_at s k) /\
  (s = mk_span 0 65535 -> partitions_decrement (partitions_end s) = partitions_end s).
Proof.
  intros H Hk. split; [|by intros ->].
  intros Hs. rewrite increment_split by done. case_decide as E.
  2: { rewrite decrement_split by (done || lia). f_equal. lia. }
  unfold partitions_decrement. cbn [fst snd]. rewrite length_ok by done.
  destruct (decide (span_right s - span_left s = 1)) as [E1|E1]; [lia|].
  replace (_ =? 1) with false by lia.
  rewrite tri_test_past_forward. cbn [fst snd]. rewrite span_eqb_refl.
  assert (span_eqb s past_span = false) as ->.
  { apply span_eqb_false. by rewrite past_span_eq. }
  cbn [andb negb]. unfold final_partition. rewrite length_ok by done. replace (_ =? 1) with false by lia.
  open_span. unfold split_at. simpl. rewrite !span_ctor_small by lia. do 2 f_equal; lia.
Qed.

Lemma partitions_decrement_increment_witness :
  partitions_decrement (partitions_increment (split_at (mk_span 1 5) 4)) = split_at (mk_span 1 5) 4.
Proof.
  apply (partitions_decrement_increment (mk_span 1 5) 4);
    vm_compute; intuition congruence.
Defined.

(** [limit_syntax_length_generator::partitions] yields exactly the binary
    splits whose right part is no longer than [max_length], and
    [limit_split_difference_generator::partitions], away from the left edge of
    the sentence, exactly those whose parts differ in length by at most
    [max_diff]; both keep the left-to-right order. *)
Theorem limited_partitions_filter max s :
  span_ok s -> 1 <= span_length s ->
  cky_partitions (limit_syntax_length_generator max) s =
    Some (filter (fun p => (span_length p.2 <=? max) = true) (all_splits s)) /\
  cky_partitions (limit_split_difference_generator max) s =
    Some (if span_left s =? 0 then all_splits s
          else filter (fun p => (length_diff p.1 p.2 <=? max) = true) (all_splits s)).
Proof.
  intros H Hl. split; [by apply limit_syntax_partitions_filter|]. simpl.
  destruct (_ =? 0) eqn:E.
  - unfold limit_split_partitions. replace (_ >? 0) with false by lia.
    by apply partitions_of_all.
  - apply limit_split_partitions_filter; try done. destruct H. lia.
Qed.

Lemma limited_partitions_filter_witness :
  cky_partitions (limit_syntax_length_generator 2) (mk_span 1 7) =
    Some (filter (fun p => (span_length p.2 <=? 2) = true) (all_splits (mk_span 1 7))).
Proof.
  apply (limited_partitions_filter 2 (mk_span 1 7)); vm_compute; intuition congruence.
Defined.

(** Iterating a [shift_generator] over a range other than [0,65535] visits
    every span of the given size inside the range once, from left to right,
    and reaches [end()]; [limit_syntax_length_generator::shifts] yields all of
    them below the length limit, and only the one at the left edge of the
    sentence from the limit on. *)
Theorem shifts_enumerates max total size :
  span_ok total -> 0 <= size <= span_length total -> total <> mk_span 0 65535 ->
  cky_shifts full_cky_generator total size = Some (all_shifts total size) /\
  cky_shifts (limit_syntax_length_generator max) total size =
    Some (if max >? size then all_shifts total size
          else if span_left total =? 0 then [mk_span 0 size] else []) /\
  NoDup (all_shifts total size) /\
  (forall s, s ∈ all_shifts total size <->
     span_ok s /\ span_length s = size /\
     span_left total <= span_left s /\ span_right s <= span_right total).
Proof.
  intros H Hs Hne. assert (Hsh : shiftable total size) by done.
  split_and!; [by apply shifts_of_all|by apply limit_syntax_shifts_eq| |].
  - unfold all_shifts. apply NoDup_fmap_2_strong; [|apply NoDup_seqZ].
    intros x y _ _ [= ->]. done.
  - intros s. rewrite elem_of_all_shifts. split.
    + intros (k&->&?&?). open_span. rewrite length_mk by lia. unfold span_ok. simpl. lia.
    + intros (Hok&Hl&?&?). rewrite length_ok in Hl by done.
      exists (span_left s). destruct s as [l r]. simpl in *. split; [f_equal; lia|lia].
Qed.

Lemma shifts_enumerates_witness :
  cky_shifts full_cky_generator (mk_span 1 5) 2 = Some (all_shifts (mk_span 1 5) 2).
Proof.
  apply (shifts_enumerates 3 (mk_span 1 5) 2); vm_compute; intuition congruence.
Defined.

(** Over the whole index range [0,65535] the end mark of [shift_generator]
    wraps around to its begin mark, so that no span of any size is visited,
    although there are such spans. *)
Theorem shifts_full_range_empty size :
  0 <= size <= 65535 ->
  cky_shifts full_cky_generator (mk_span 0 65535) size = Some [] /\
  span_ok (mk_span 0 size) /\ span_length (mk_span 0 size) = size.
Proof.
  intros Hs. split_and!.
  - cbn [cky_shifts full_cky_generator]. apply (range_list_chain _ _ _ []);
      [|set_solver|apply Nat.le_0_l].
    unfold shift_begin, shift_end. simpl. rewrite !span_ctor_small by lia.
    rewrite shift_right_ok by (unfold span_ok; simpl; lia). simpl.
    rewrite length_mk by lia. f_equal. lia.
  - unfold span_ok. simpl. lia.
  - rewrite length_mk by lia. lia.
Qed.

Lemma shifts_full_range_empty_witness :
  cky_shifts full_cky_generator (mk_span 0 65535) 3 = Some [].
Proof.
  apply (shifts_full_range_empty 3). vm_compute. intuition congruence.
Defined.

(** For a strictly increasing transform whose values are indices,
    [span_transform::inverse] undoes [operator()], on indices and on spans, and
    the image of a well-formed span is well-formed. *)
Theorem span_transform_inverse t s :
  StronglySorted Z.lt t -> Forall (fun x => 0 <= x < 65536) t -> Z.of_nat (List.length t) < 65536 ->
  0 <= span_left s <= span_right s -> span_right s < Z.of_nat (List.length t) ->
  exists s', transform_span t s = Some s' /\ span_ok s' /\ inverse_span t s' = Some s /\
    (span_left s < span_right s -> 1 <= span_length s').
Proof.
  intros Hs Hb Hlen Hl Hr. unfold transform_span, transform_index.
  destruct (lookup_lt_is_Some_2 t (Z.to_nat (span_left s)) ltac:(lia)) as [x Hx].
  destruct (lookup_lt_is_Some_2 t (Z.to_nat (span_right s)) ltac:(lia)) as [y Hy].
  rewrite Hx, Hy. simpl. rewrite Forall_lookup in Hb.
  pose proof (Hb _ _ Hx). pose proof (Hb _ _ Hy).
  rewrite span_ctor_small by done. eexists. split; [done|].
  assert (Hxy : x <= y /\ (span_left s < span_right s -> x < y)).
  { destruct (decide (span_left s < span_right s)) as [Hlt|Hge].
    - assert (x < y); [|lia].
      eapply StronglySorted_lookup_lt; [apply Hs|exact Hx|exact Hy|lia].
    - replace (span_right s) with (span_left s) in Hy by lia. simplify_eq. lia. }
  assert (Hok : span_ok (mk_span x y)) by (unfold span_ok; simpl; lia).
  split_and!; [done| |].
  - unfold inverse_span, inverse_index. simpl.
    rewrite (lower_bound_increasing t _ x), (lower_bound_increasing t _ y) by done.
    apply lookup_lt_Some in Hx, Hy. rewrite (proj2 (Nat.eqb_neq (Z.to_nat (span_left s)) _)), (proj2 (Nat.eqb_neq (Z.to_nat (span_right s)) _)) by lia. simpl.
    f_equal. rewrite !Z2Nat.id by lia. no_wrap. rewrite span_ctor_small by lia. destruct s; simpl in *. f_equal; lia.
  - rewrite length_ok by done. simpl. lia.
Qed.

Lemma span_transform_inverse_witness :
  exists s', transform_span [0; 2; 5; 9] (mk_span 1 3) = Some s' /\ span_ok s' /\
    inverse_span [0; 2; 5; 9] s' = Some (mk_span 1 3).
Proof.
  destruct (span_transform_inverse [0; 2; 5; 9] (mk_span 1 3)) as (s'&H1&H2&H3&_).
  - repeat constructor.
  - repeat constructor; vm_compute; congruence.
  - reflexivity.
  - vm_compute. intuition congruence.
  - reflexivity.
  - exists s'. split; [assumption|split; assumption].
Defined.
