(* ===== verification/ParseOrder.v ===== *)
(** The CKY loop [parse_cky::operator()] of
    src/sbmt_decoder/include/sbmt/search/parse_order.hpp, over any
    [cky_generator] and any filter bank.

    The filter bank is the interface [FilterBank]: the two calls that the loop
    makes on it, each a function on the bank's state.  Logging, timing and the
    block disabled by [if(false)] have no effect on the bank and are left out. *)
From S2P Require Import Prelude Span SpanGen.
Open Scope Z_scope.

(** [filter_bank.apply_rules(first, right)] and [filter_bank.finalize(span)]. *)
Class FilterBank (B : Type) := {
  fb_apply_rules : span_t -> Z -> B -> B;
  fb_finalize : span_t -> B -> B
}.

(** [for (i = first; i < last; ++i)] on a [uint16_t] index. *)
Fixpoint for_lt {B} (fuel : nat) (i last : Z) (body : Z -> B -> option B) (b : B) : option B :=
  if i <? last
  then match fuel with
       | O => None
       | S fuel => b ← body i b; for_lt fuel (u16 (i + 1)) last body b
       end
  else Some b.

(** [for (i = first; i <= last; ++i)] on a [uint16_t] index. *)
Fixpoint for_le {B} (fuel : nat) (i last : Z) (body : Z -> B -> option B) (b : B) : option B :=
  if i <=? last
  then match fuel with
       | O => None
       | S fuel => b ← body i b; for_le fuel (u16 (i + 1)) last body b
       end
  else Some b.

(** [for (; itr != end; ++itr)] over the visited values of a range. *)
Fixpoint for_each {A B} (l : list A) (body : A -> B -> option B) (b : B) : option B :=
  match l with
  | [] => Some b
  | x :: l => b ← body x b; for_each l body b
  end.

Section parse_cky.
Context {B : Type} `{!FilterBank B}.

(** The body of the loop for spans of length one. *)
Definition parse_word (i : Z) (b : B) : option B :=
  Some (fb_finalize (span_ctor i (i + 1)) b).

(** The body of the loop over the spans of one length. *)
Definition parse_span (cky_gen : cky_generator) (span : span_t) (b : B) : option B :=
  parts ← cky_partitions cky_gen span;
  b ← for_each parts (fun p b => Some (fb_apply_rules p.1 (span_right p.2) b)) b;
  Some (fb_finalize span b).

Definition parse_length (cky_gen : cky_generator) (target_span : span_t) (len : Z) (b : B)
  : option B :=
  if len =? 1
  then for_lt range_fuel (span_left target_span) (span_right target_span) parse_word b
  else spans ← cky_shifts cky_gen target_span len;
       for_each spans (parse_span cky_gen) b.

(** [parse_cky::operator()].  The length index is a [uint16_t]: [range_fuel]
    iterations are enough unless the target is as long as the index type. *)
Definition parse_cky (cky_gen : cky_generator) (target_span : span_t) (b : B) : option B :=
  b ← for_le range_fuel 1 (u16 (span_length target_span))
        (parse_length cky_gen target_span) b;
  Some (fb_finalize target_span b).
End parse_cky.

(** * The calls as a trace *)

(** One call on the filter bank. *)
Inductive fb_call :=
  | ApplyRules (s : span_t) (right : Z)
  | Finalize (s : span_t).

#[export] Instance fb_call_eq_dec : EqDecision fb_call.
Proof. solve_decision. Defined.

(** The bank that records its calls. *)
#[export] Instance trace_bank : FilterBank (list fb_call) := {|
  fb_apply_rules s r t := t ++ [ApplyRules s r];
  fb_finalize s t := t ++ [Finalize s]
|}.

(** Running recorded calls on another bank. *)
Definition run_call {B} `{!FilterBank B} (b : B) (c : fb_call) : B :=
  match c with
  | ApplyRules s r => fb_apply_rules s r b
  | Finalize s => fb_finalize s b
  end.

Definition run_calls {B} `{!FilterBank B} (t : list fb_call) (b : B) : B := foldl run_call b t.

(** The calls for one span: every split of it, then the span itself. *)
Definition span_calls (s : span_t) : list fb_call :=
  ((fun p => ApplyRules p.1 (span_right p.2)) <$> all_splits s) ++ [Finalize s].

(** The specification of the loop with the full generator: bottom up by
    length, within a length from left to right. *)
Definition cky_calls (target : span_t) : list fb_call :=
  seqZ 1 (span_length target) ≫= fun len => all_shifts target len ≫= span_calls.

(** * Lemmas *)

Lemma run_calls_app {B} `{!FilterBank B} t1 t2 (b : B) :
  run_calls (t1 ++ t2) b = run_calls t2 (run_calls t1 b).
Proof. apply foldl_app. Qed.

Lemma trace_run_calls t t0 : run_calls t t0 = t0 ++ t.
Proof.
  revert t0. induction t as [|c t IH]; intros t0; simpl; [by rewrite app_nil_r|].
  change (foldl run_call ?b t) with (run_calls t b). rewrite IH.
  destruct c; simpl; by rewrite <- app_assoc.
Qed.

Lemma for_each_calls {A B} `{!FilterBank B} (body : A -> B -> option B) calls l b :
  (forall x b, x ∈ l -> body x b = Some (run_calls (calls x) b)) ->
  for_each l body b = Some (run_calls (l ≫= calls) b).
Proof.
  revert b. induction l as [|x l IH]; intros b H; [done|]. csimpl.
  rewrite H by set_solver. simpl. rewrite IH by set_solver. by rewrite run_calls_app.
Qed.

Lemma for_lt_calls {B} `{!FilterBank B} (body : Z -> B -> option B) calls fuel i last b :
  0 <= i -> last < 65536 -> last - i <= Z.of_nat fuel ->
  (forall x b, i <= x < last -> body x b = Some (run_calls (calls x) b)) ->
  for_lt fuel i last body b = Some (run_calls (seqZ i (last - i) ≫= calls) b).
Proof.
  revert i b. induction fuel as [|fuel IH]; intros i b Hi Hlast Hf H; simpl.
  - replace (i <? last) with false by lia. by rewrite seqZ_nil by lia.
  - destruct (i <? last) eqn:E.
    + rewrite H by lia. simpl. rewrite u16_small by lia. rewrite IH; [|lia|lia|lia|].
      * rewrite (seqZ_cons i) by lia. csimpl. rewrite run_calls_app.
        do 3 f_equal. f_equal; lia.
      * intros x b' Hx. apply H. lia.
    + by rewrite seqZ_nil by lia.
Qed.

Lemma for_le_lt {B} (body : Z -> B -> option B) fuel i last b :
  last < 65535 -> for_le fuel i last body b = for_lt fuel i (last + 1) body b.
Proof.
  intros Hl. revert i b. induction fuel as [|fuel IH]; intros i b; simpl.
  - by replace (i <=? last) with (i <? last + 1) by lia.
  - replace (i <=? last) with (i <? last + 1) by lia. destruct (_ <? _); [|done].
    destruct (body i b); [simpl; apply IH|done].
Qed.

Lemma parse_span_calls {B} `{!FilterBank B} s (b : B) :
  span_ok s -> 1 <= span_length s ->
  parse_span full_cky_generator s b = Some (run_calls (span_calls s) b).
Proof.
  intros H Hl. unfold parse_span. simpl. rewrite partitions_of_all by done. simpl.
  rewrite (for_each_calls _ (fun p => [ApplyRules p.1 (span_right p.2)])) by done.
  simpl. unfold span_calls. rewrite run_calls_app. simpl. do 3 f_equal.
Qed.

Lemma all_shifts_one target :
  all_shifts target 1 = (fun i => mk_span i (i + 1)) <$>
    seqZ (span_left target) (span_right target - span_left target).
Proof. unfold all_shifts. do 2 f_equal. lia. Qed.

Lemma span_calls_word i : span_calls (mk_span i (i + 1)) = [Finalize (mk_span i (i + 1))].
Proof. unfold span_calls, all_splits. rewrite seqZ_nil; [done|]. simpl. lia. Qed.

Lemma parse_length_calls {B} `{!FilterBank B} target len (b : B) :
  span_ok target -> target <> mk_span 0 65535 -> 1 <= len <= span_length target ->
  parse_length full_cky_generator target len b =
    Some (run_calls (all_shifts target len ≫= span_calls) b).
Proof.
  intros H Hne Hl. unfold parse_length. destruct (len =? 1) eqn:E.
  - apply Z.eqb_eq in E. subst.
    rewrite all_shifts_one, list_fmap_bind. destruct H as (?&?&?).
    apply for_lt_calls; [done|done|rewrite range_fuel_eq; lia|].
    intros x b' Hx. unfold parse_word. cbn [compose]. rewrite span_calls_word.
    by rewrite span_ctor_small by lia.
  - cbn [cky_shifts full_cky_generator]. rewrite shifts_of_all by (split_and!; done || lia). simpl.
    apply for_each_calls. intros s b' (k&->&?&?)%elem_of_all_shifts.
    destruct H as (?&?&?). apply parse_span_calls; [unfold span_ok; simpl; lia|].
    rewrite length_mk by lia. lia.
Qed.

Lemma parse_cky_calls {B} `{!FilterBank B} target (b : B) :
  span_ok target -> span_length target < 65535 ->
  parse_cky full_cky_generator target b =
    Some (run_calls (cky_calls target ++ [Finalize target]) b).
Proof.
  intros H Hl. assert (Hne : target <> mk_span 0 65535) by (intros ->; vm_compute in Hl; discriminate Hl).
  pose proof H as (?&?&?). pose proof (length_ok _ H) as Hlen.
  unfold parse_cky. rewrite u16_small by lia.
  rewrite for_le_lt by done.
  rewrite (for_lt_calls _ (fun len => all_shifts target len ≫= span_calls)).
  - simpl. rewrite run_calls_app. unfold cky_calls.
    by replace (span_length target + 1 - 1) with (span_length target) by lia.
  - lia.
  - lia.
  - rewrite range_fuel_eq. lia.
  - intros len b' ?. apply parse_length_calls; [done|done|lia].
Qed.

(** ** Ordering of the calls *)

(** The position of a call in the schedule as a number: by length, then left
    end, then the splits by their cut, then the finalisation. *)
Definition call_key (c : fb_call) : Z :=
  match c with
  | ApplyRules s r => ((r - span_left s) * 65536 + span_left s) * 65536 + span_right s
  | Finalize s => (span_length s * 65536 + span_left s) * 65536 + 65536 - 1
  end.

Definition call_before (a b : fb_call) : Prop := call_key a < call_key b.

#[export] Instance call_before_asym : Asymmetric call_before.
Proof. intros a b. unfold call_before. lia. Qed.

Lemma elem_of_span_calls s c :
  c ∈ span_calls s <->
  c = Finalize s \/
  exists k, span_left s < k < span_right s /\ c = ApplyRules (mk_span (span_left s) k) (span_right s).
Proof.
  unfold span_calls. rewrite elem_of_app, list_elem_of_singleton, list_elem_of_fmap.
  setoid_rewrite elem_of_all_splits. split.
  - intros [(p&->&k&Hk&->)|H]; [right|by left]. by exists k.
  - intros [H|(k&Hk&->)]; [by right|left]. exists (split_at s k). split; [done|]. by exists k.
Qed.

Lemma elem_of_cky_calls target c :
  span_ok target ->
  c ∈ cky_calls target <->
  match c with
  | ApplyRules s r => span_left target <= span_left s /\ span_left s < span_right s /\
      span_right s < r /\ r <= span_right target
  | Finalize s => span_left target <= span_left s /\ span_left s < span_right s /\
      span_right s <= span_right target
  end.
Proof.
  intros H. unfold cky_calls. rewrite list_elem_of_bind. setoid_rewrite list_elem_of_bind.
  setoid_rewrite elem_of_span_calls. setoid_rewrite elem_of_all_shifts.
  setoid_rewrite elem_of_seqZ. rewrite length_ok by done. split.
  - intros (len&(s&Hc&k&->&?&?)&?). cbn [span_left span_right] in *.
    destruct Hc as [->|(j&?&->)]; simpl; lia.
  - destruct c as [[l m] r|[l r]]; simpl; intros Hc.
    + exists (r - l). split; [|lia]. exists (mk_span l r). split.
      * right. exists m. split; [simpl; lia|done].
      * exists l. split; [f_equal; lia|lia].
    + exists (r - l). split; [|lia]. exists (mk_span l r). split; [by left|].
      exists l. split; [f_equal; lia|lia].
Qed.

Lemma span_calls_sorted s : span_ok s -> StronglySorted call_before (span_calls s).
Proof.
  intros H. unfold span_calls, all_splits. apply StronglySorted_app_2.
  - setoid_rewrite list_elem_of_fmap. setoid_rewrite list_elem_of_fmap.
    intros c c' (p&->&k&->&Hk%elem_of_seqZ) ->%list_elem_of_singleton.
    unfold call_before. simpl. rewrite length_ok by done. destruct H as (?&?&?). lia.
  - rewrite <- list_fmap_compose. apply (StronglySorted_fmap _ Z.lt); [|apply StronglySorted_seqZ].
    intros x y Hxy. unfold call_before. simpl. lia.
  - repeat constructor.
Qed.

Lemma cky_calls_sorted target : span_ok target -> StronglySorted call_before (cky_calls target).
Proof.
  intros H. pose proof H as (?&?&?). unfold cky_calls.
  assert (Hkey : forall s c, span_ok s -> c ∈ span_calls s ->
    (span_length s * 65536 + span_left s) * 65536 <= call_key c
      < (span_length s * 65536 + span_left s) * 65536 + 65536).
  { intros s c Hs Hc. rewrite elem_of_span_calls in Hc. rewrite length_ok by done.
    destruct Hs as (?&?&?). destruct Hc as [->|(k&?&->)]; simpl; [rewrite length_ok by done|]; lia. }
  assert (Hsh : forall len s, 1 <= len -> s ∈ all_shifts target len ->
    span_ok s /\ span_length s = len).
  { intros len s Hlen (k&->&?&?)%elem_of_all_shifts. split; [unfold span_ok; simpl; lia|].
    rewrite length_mk; lia. }
  apply (StronglySorted_bind Z.lt); [apply StronglySorted_seqZ| |].
  - intros len Hlen%elem_of_seqZ.
    apply (StronglySorted_bind (fun a b => span_left a < span_left b)).
    + unfold all_shifts. apply (StronglySorted_fmap _ Z.lt); [done|apply StronglySorted_seqZ].
    + intros s Hs. apply span_calls_sorted. eapply Hsh; [|done]. lia.
    + intros s1 s2 Hs1 Hs2 Hlt a b Ha Hb.
      destruct (Hsh len s1 ltac:(lia) Hs1) as [Ok1 L1], (Hsh len s2 ltac:(lia) Hs2) as [Ok2 L2].
      apply Hkey in Ha, Hb; try done. unfold call_before. lia.
  - intros l1 l2 Hl1%elem_of_seqZ Hl2%elem_of_seqZ Hlt a b Ha Hb.
    apply list_elem_of_bind in Ha as (s1&Ha&Hs1), Hb as (s2&Hb&Hs2).
    destruct (Hsh l1 s1 ltac:(lia) Hs1) as [Ok1 L1], (Hsh l2 s2 ltac:(lia) Hs2) as [Ok2 L2].
    apply Hkey in Ha, Hb; try done. destruct Ok1 as (?&?&?), Ok2 as (?&?&?).
    unfold call_before. lia.
Qed.

(** ** Properties *)

(** C2: for a target shorter than the index type the loop terminates, and on
    any filter bank with any initial state it does exactly what the schedule
    [cky_calls] does, followed by a second finalisation of the target. *)
Theorem parse_cky_refines_schedule {B} `{!FilterBank B} target (b : B) :
  span_ok target -> span_length target < 65535 ->
  parse_cky full_cky_generator target b =
    Some (fb_finalize target (run_calls (cky_calls target) b)).
Proof.
  intros H Hl. rewrite parse_cky_calls by done. by rewrite run_calls_app.
Qed.

Lemma parse_cky_refines_schedule_witness :
  parse_cky full_cky_generator (mk_span 0 3) ([] : list fb_call) =
    Some (fb_finalize (mk_span 0 3) (run_calls (cky_calls (mk_span 0 3)) [])).
Proof.
  apply (parse_cky_refines_schedule (mk_span 0 3)); vm_compute; intuition congruence.
Defined.

(** C1: the recorded trace of the loop is a schedule without repetitions
    followed by one more finalisation of the target.  In the schedule every
    span inside the target is finalised, every split of it is applied, and
    whenever the rules are applied to two adjacent spans both have been
    finalised before, and their combination has not been and will be later. *)
Theorem parse_cky_dependency_order target :
  span_ok target -> span_length target < 65535 ->
  exists calls, parse_cky full_cky_generator target [] = Some (calls ++ [Finalize target]) /\
  NoDup calls /\
  (forall l m r, span_left target <= l -> l < m -> m < r -> r <= span_right target ->
     exists i j1 j2 k, (j1 < i)%nat /\ (j2 < i)%nat /\ (i < k)%nat /\
       calls !! i = Some (ApplyRules (mk_span l m) r) /\
       calls !! j1 = Some (Finalize (mk_span l m)) /\
       calls !! j2 = Some (Finalize (mk_span m r)) /\
       calls !! k = Some (Finalize (mk_span l r))) /\
  (forall a r, ApplyRules a r ∈ calls ->
     span_left target <= span_left a /\ span_left a < span_right a /\
     span_right a < r /\ r <= span_right target).
Proof.
  intros H Hl. exists (cky_calls target).
  pose proof (cky_calls_sorted _ H) as Hs.
  split_and!.
  - rewrite parse_cky_calls by done. by rewrite trace_run_calls.
  - apply NoDup_alt. intros i j c Hi Hj. destruct (lt_eq_lt_dec i j) as [[Hlt|]|Hlt]; [|done|].
    + pose proof (StronglySorted_lookup_lt _ _ _ _ _ _ Hs Hi Hj Hlt). unfold call_before in *. lia.
    + pose proof (StronglySorted_lookup_lt _ _ _ _ _ _ Hs Hj Hi Hlt). unfold call_before in *. lia.
  - intros l m r Hl1 Hlm Hmr Hr. pose proof H as (?&?&?).
    assert (Hin : forall c, c ∈ cky_calls target -> exists i, cky_calls target !! i = Some c)
      by (intros c; apply list_elem_of_lookup_1).
    destruct (Hin (ApplyRules (mk_span l m) r)) as [i Hi]; [apply (elem_of_cky_calls _ _ H); simpl; lia|].
    destruct (Hin (Finalize (mk_span l m))) as [j1 Hj1]; [apply (elem_of_cky_calls _ _ H); simpl; lia|].
    destruct (Hin (Finalize (mk_span m r))) as [j2 Hj2]; [apply (elem_of_cky_calls _ _ H); simpl; lia|].
    destruct (Hin (Finalize (mk_span l r))) as [k Hk]; [apply (elem_of_cky_calls _ _ H); simpl; lia|].
    exists i, j1, j2, k. split_and!; try done;
      [apply (StronglySorted_lookup_inv _ _ _ _ _ _ Hs Hj1 Hi)
      |apply (StronglySorted_lookup_inv _ _ _ _ _ _ Hs Hj2 Hi)
      |apply (StronglySorted_lookup_inv _ _ _ _ _ _ Hs Hi Hk)];
      unfold call_before; simpl; rewrite length_mk by lia; lia.
  - intros a r Ha. by apply elem_of_cky_calls in Ha.
Qed.

Lemma parse_cky_dependency_order_witness :
  exists calls, parse_cky full_cky_generator (mk_span 0 3) [] =
    Some (calls ++ [Finalize (mk_span 0 3)]) /\ NoDup calls.
Proof.
  destruct (parse_cky_dependency_order (mk_span 0 3)) as (calls&H1&H2&_);
    [vm_compute; intuition congruence|vm_compute; reflexivity|].
  exists calls. split; assumption.
Defined.
