(* ===== verification/Generator.v ===== *)
(** Generators: the peekable-generator protocol of src/gusc/gusc/generator
    (peekable_generator_facade.hpp, peek_compare.hpp) as the typeclass
    [Generator], the priority queue that the merging generators keep as the
    typeclass [PriorityQueue], and the adapters that have no queue: ranges,
    single values, make_peekable, any_generator, filtering, transforming and
    chaining.

    A generator is a state [G] with its [operator bool], dereference and
    increment; [None] is a dereference or increment the code leaves undefined
    or a loop that does not end within the fuel.  The copies that share one
    [boost::shared_ptr] are used linearly by the code modelled here, so a
    generator is a value. *)
From S2P Require Import Prelude.

Class Generator (G A : Type) := {
  gmore : G -> bool;
  gpeek : G -> option A;
  gpop : G -> option G
}.

(** [peekable_generator_facade::operator()]: dereference, then increment. *)
Definition gcall {G A} `{!Generator G A} (g : G) : option (A * G) :=
  a ← gpeek g; g' ← gpop g; Some (a, g').

(** [peekable_generator_facade::equal]: only exhausted generators are equal. *)
Definition gequal {G1 G2 A} `{!Generator G1 A, !Generator G2 A} (g : G1) (h : G2) : bool :=
  negb (gmore g) && negb (gmore h).

(** [peek_compare<Compare>::operator()] *)
Definition peek_compare {G A} `{!Generator G A} (compare : A -> A -> bool) (p1 p2 : G) : bool :=
  if negb (gmore p1) then gmore p2
  else if negb (gmore p2) then false
  else match gpeek p1, gpeek p2 with
       | Some a, Some b => compare a b
       | _, _ => false
       end.

(** [yields g l]: calling [g] while it is true returns the values of [l]. *)
Inductive yields {G A} `{!Generator G A} : G -> list A -> Prop :=
  | yields_nil g : gmore g = false -> yields g []
  | yields_cons g a g' l :
      gmore g = true -> gpeek g = Some a -> gpop g = Some g' -> yields g' l ->
      yields g (a :: l).

(** The loop [while (g) out.push_back(g());], at most [fuel] times. *)
Fixpoint drain {G A} `{!Generator G A} (fuel : nat) (g : G) : option (list A) :=
  if gmore g then
    match fuel with
    | O => None
    | S fuel => p ← gcall g; cons p.1 <$> drain fuel p.2
    end
  else Some [].

(** * [std::priority_queue]

    [lt a b] puts [b] nearer the top.  [pq_elems] are the stored values in no
    particular order: which of several best values is on top is left open, as
    the standard does. *)
Class PriorityQueue {A : Type} (lt : A -> A -> bool) (Q : Type) := {
  pq_new : Q;
  pq_push : A -> Q -> Q;
  pq_top : Q -> option A;
  pq_pop : Q -> Q;
  pq_elems : Q -> list A
}.

Class PriorityQueueLaws {A} (lt : A -> A -> bool) (Q : Type) `{!PriorityQueue lt Q} : Prop := {
  pq_elems_new : pq_elems pq_new = [];
  pq_elems_push a q : pq_elems (pq_push a q) ≡ₚ a :: pq_elems q;
  pq_top_none q : pq_top q = None <-> pq_elems q = [];
  pq_elems_pop q a : pq_top q = Some a -> pq_elems q ≡ₚ a :: pq_elems (pq_pop q);
  pq_top_best q a b : pq_top q = Some a -> b ∈ pq_elems q -> noworse lt a b
}.

Definition pq_empty {A} {lt : A -> A -> bool} {Q} `{!PriorityQueue lt Q} (q : Q) : bool :=
  match pq_top q with Some _ => false | None => true end.

(** The queue as a list sorted best first. *)
Fixpoint sorted_insert {A} (lt : A -> A -> bool) (a : A) (l : list A) : list A :=
  match l with
  | [] => [a]
  | b :: l => if lt b a then a :: b :: l else b :: sorted_insert lt a l
  end.

Record sorted_queue {A} (lt : A -> A -> bool) := mk_sorted_queue {
  sq_list : list A;
  sq_sorted : StrictWeak lt -> descending lt sq_list
}.
Arguments mk_sorted_queue {A lt} _ _.
Arguments sq_list {A lt} _.
Arguments sq_sorted {A lt} _ _.

(** * The adapters *)

(** [generator_from_iterator], [generator_from_range]: the values from the
    current position on. *)
#[export] Instance range_generator A : Generator (list A) A := {|
  gmore l := match l with [] => false | _ => true end;
  gpeek l := head l;
  gpop l := match l with [] => None | _ :: l => Some l end
|}.

(** [single_value_generator] *)
Record single_value_generator (A : Type) := { sv_result : A; sv_called : bool }.
Arguments Build_single_value_generator {A} _ _.
Arguments sv_result {A} _.
Arguments sv_called {A} _.

#[export] Instance single_value A : Generator (single_value_generator A) A := {|
  gmore g := negb (sv_called g);
  gpeek g := Some (sv_result g);
  gpop g := Some {| sv_result := sv_result g; sv_called := true |}
|}.

Definition generate_single_value {A} (a : A) : single_value_generator A :=
  {| sv_result := a; sv_called := false |}.

(** [peekable_generator]: the next value is held in [pk_val]. *)
Record peekable_generator (G A : Type) := { pk_gen : G; pk_val : option A }.
Arguments Build_peekable_generator {G A} _ _.
Arguments pk_gen {G A} _.
Arguments pk_val {G A} _.

Definition peekable_pop {G A} `{!Generator G A} (p : peekable_generator G A)
  : option (peekable_generator G A) :=
  if gmore (pk_gen p)
  then c ← gcall (pk_gen p); Some {| pk_gen := c.2; pk_val := Some c.1 |}
  else Some {| pk_gen := pk_gen p; pk_val := None |}.

Definition make_peekable {G A} `{!Generator G A} (g : G) : option (peekable_generator G A) :=
  peekable_pop {| pk_gen := g; pk_val := None |}.

#[export] Instance peekable G A `{!Generator G A} : Generator (peekable_generator G A) A := {|
  gmore p := match pk_val p with Some _ => true | None => false end;
  gpeek p := pk_val p;
  gpop := peekable_pop
|}.

(** [any_generator]: a null pointer or a held generator, whose calls it
    forwards. *)
Definition any_generator (G : Type) := option G.

#[export] Instance any G A `{!Generator G A} : Generator (any_generator G) A := {|
  gmore p := match p with Some g => gmore g | None => false end;
  gpeek p := p ≫= gpeek;
  gpop p := p ≫= fun g => Some <$> gpop g
|}.

(** [filter_generator]; the loop [while (bool(generator) and not
    filter( *generator)) ++generator] of its constructor and of [pop]. *)
Record filter_generator (G A : Type) (fuel : nat) := { fg_gen : G; fg_filter : A -> bool }.
Arguments Build_filter_generator {G A fuel} _ _.
Arguments fg_gen {G A fuel} _.
Arguments fg_filter {G A fuel} _.

Fixpoint filter_skip {G A} `{!Generator G A} (fuel : nat) (f : A -> bool) (g : G) : option G :=
  if gmore g then
    a ← gpeek g;
    if f a then Some g
    else match fuel with
         | O => None
         | S fuel => g' ← gpop g; filter_skip fuel f g'
         end
  else Some g.

Definition generate_filtered {G A} `{!Generator G A} (fuel : nat) (g : G) (f : A -> bool)
  : option (filter_generator G A fuel) :=
  g' ← filter_skip fuel f g; Some {| fg_gen := g'; fg_filter := f |}.

#[export] Instance filtered G A fuel `{!Generator G A} :
  Generator (filter_generator G A fuel) A := {|
  gmore p := gmore (fg_gen p);
  gpeek p := gpeek (fg_gen p);
  gpop p := g ← gpop (fg_gen p); g' ← filter_skip fuel (fg_filter p) g;
            Some {| fg_gen := g'; fg_filter := fg_filter p |}
|}.

(** [transform_generator] has only [operator()]: [transform(generator())]. *)
Record transform_generator (G A B : Type) := { tg_gen : G; tg_transform : A -> B }.
Arguments Build_transform_generator {G A B} _ _.
Arguments tg_gen {G A B} _.
Arguments tg_transform {G A B} _.

#[export] Instance transformed G A B `{!Generator G A} : Generator (transform_generator G A B) B := {|
  gmore p := gmore (tg_gen p);
  gpeek p := tg_transform p <$> gpeek (tg_gen p);
  gpop p := g ← gpop (tg_gen p); Some {| tg_gen := g; tg_transform := tg_transform p |}
|}.

(** [generator_chain]: the generators of a generator, one after another. *)
Record generator_chain (GG G : Type) (fuel : nat) := { ch_gg : GG; ch_g : option G }.
Arguments Build_generator_chain {GG G fuel} _ _.
Arguments ch_gg {GG G fuel} _.
Arguments ch_g {GG G fuel} _.

Fixpoint chain_skip {GG G A} `{!Generator GG G, !Generator G A} (fuel : nat) (gg : GG) (g : G)
  : option (GG * option G) :=
  if gmore gg && negb (gmore g)
  then match fuel with
       | O => None
       | S fuel => c ← gcall gg; chain_skip fuel c.2 c.1
       end
  else Some (gg, if gmore g then Some g else None).

Definition chain_generators {GG G A} `{!Generator GG G, !Generator G A} (fuel : nat) (gg : GG)
  : option (generator_chain GG G fuel) :=
  if gmore gg
  then c ← gcall gg; s ← chain_skip fuel c.2 c.1; Some {| ch_gg := s.1; ch_g := s.2 |}
  else Some {| ch_gg := gg; ch_g := None |}.

#[export] Instance chained GG G A fuel `{!Generator GG G, !Generator G A} :
  Generator (generator_chain GG G fuel) A := {|
  gmore p := match ch_g p with Some _ => true | None => false end;
  gpeek p := ch_g p ≫= gpeek;
  gpop p := g ← ch_g p; g' ← gpop g; s ← chain_skip fuel (ch_gg p) g';
            Some {| ch_gg := s.1; ch_g := s.2 |}
|}.

(** * Lemmas *)

Section yields.
Context {G A : Type} `{!Generator G A}.

Lemma yields_more (g : G) l : yields g l -> gmore g = match l with [] => false | _ => true end.
Proof. by destruct 1. Qed.

Lemma yields_cons_inv (g : G) a l :
  yields g (a :: l) ->
  gmore g = true /\ gpeek g = Some a /\ exists g', gpop g = Some g' /\ yields g' l.
Proof. inversion 1; subst. split_and!; eauto. Qed.

Lemma yields_functional (g : G) l1 l2 : yields g l1 -> yields g l2 -> l1 = l2.
Proof.
  intros H. revert l2. induction H as [g Hm|g a g' l Hm Hp Hpop H IH]; intros l2 H2.
  - apply yields_more in H2. rewrite Hm in H2. by destruct l2.
  - destruct l2 as [|b l2]; [apply yields_more in H2; by rewrite Hm in H2|].
    apply yields_cons_inv in H2 as (_&?&?&?&?). simplify_eq. f_equal. eauto.
Qed.

Lemma drain_yields (g : G) l n : (length l <= n)%nat -> yields g l -> drain n g = Some l.
Proof.
  intros Hn H. revert n Hn.
  induction H as [g Hm|g a g' l Hm Hp Hpop H IH]; intros n Hn.
  - destruct n; simpl; by rewrite Hm.
  - destruct n as [|n]; simpl in *; [lia|]. rewrite Hm. unfold gcall. rewrite Hp. simpl.
    rewrite Hpop. simpl. by rewrite IH by lia.
Qed.

Lemma yields_drain (g : G) l n : drain n g = Some l -> yields g l.
Proof.
  revert g l. induction n as [|n IH]; intros g l; simpl; destruct (gmore g) eqn:Hm; try done.
  1, 3: intros [= <-]; by constructor.
  unfold gcall. destruct (gpeek g) as [a|] eqn:Hp; [|done]. simpl.
  destruct (gpop g) as [g'|] eqn:Hpop; [|done]. simpl.
  destruct (drain n g') eqn:Hd; [|done]. intros [= <-]. econstructor; eauto.
Qed.
End yields.

Lemma yields_range {A} (l : list A) : yields l l.
Proof. induction l; by econstructor. Qed.

Lemma yields_single {A} (a : A) : yields (generate_single_value a) [a].
Proof. econstructor; [done..|]. by constructor. Qed.

(** Exhausted generators compare below every other, the rest by their heads. *)
Lemma peek_compare_head {G A} `{!Generator G A} (lt : A -> A -> bool) (g h : G) l1 l2 :
  yields g l1 -> yields h l2 -> peek_compare lt g h = opt_lt lt (head l1) (head l2).
Proof.
  unfold peek_compare. intros [|] [|]; simplify_eq/=; rewrite ?H, ?H0, ?H3; simpl; try done.
  all: repeat match goal with H : _ = _ |- _ => rewrite H end; done.
Qed.

Section adapters.
Context {G A : Type} `{!Generator G A}.

Lemma peekable_pop_yields (g : G) v l :
  yields g l -> exists p, peekable_pop {| pk_gen := g; pk_val := v |} = Some p /\ yields p l.
Proof.
  intros H. revert v. induction H as [g Hm|g a g' l Hm Hp Hpop H IH]; intros v.
  - unfold peekable_pop. simpl. rewrite Hm. eexists. split; [done|]. by constructor.
  - unfold peekable_pop. simpl. rewrite Hm. unfold gcall. rewrite Hp. simpl. rewrite Hpop. simpl.
    eexists. split; [done|]. destruct (IH (Some a)) as (p&Hpp&Hy). by econstructor.
Qed.

Lemma yields_any (g : G) l : yields g l -> yields (Some g : any_generator G) l.
Proof.
  induction 1 as [g Hm|g a g' l Hm Hp Hpop H IH]; econstructor; simpl; try done.
  by rewrite Hpop.
Qed.

Lemma filter_skip_yields fuel (f : A -> bool) (g : G) l :
  (length l <= fuel)%nat -> yields g l ->
  exists g' l', filter_skip fuel f g = Some g' /\ yields g' l' /\
    (length l' <= length l)%nat /\
    filter (fun a => f a = true) l = filter (fun a => f a = true) l' /\
    (forall a, head l' = Some a -> f a = true).
Proof.
  intros Hl H. revert fuel Hl. induction H as [g Hm|g a g' l Hm Hp Hpop H IH]; intros fuel Hl.
  - exists g, []. destruct fuel; simpl; rewrite Hm; by repeat (econstructor || split).
  - destruct (f a) eqn:Ef.
    + exists g, (a :: l). destruct fuel as [|fuel]; [simpl in Hl; lia|]. simpl. rewrite Hm, Hp. simpl.
      rewrite Ef. split_and!; try done; [by econstructor|]. by intros ? [= <-].
    + destruct fuel as [|fuel]; simpl in *; [lia|].
      destruct (IH fuel ltac:(lia)) as (g2&l2&Hs&Hy&Hlen&Hf&Hh).
      exists g2, l2. rewrite Hm, Hp. simpl. rewrite Ef, Hpop. simpl.
      rewrite filter_cons_False by congruence. split_and!; try done; lia.
Qed.

Lemma yields_transform {B} (f : A -> B) (g : G) l :
  yields g l -> yields {| tg_gen := g; tg_transform := f |} (f <$> l).
Proof.
  induction 1 as [g Hm|g a g' l Hm Hp Hpop H IH]; csimpl; [by constructor|].
  econstructor; simpl; [done|by rewrite Hp|by rewrite Hpop|done].
Qed.
End adapters.

Section sorted_queue.
Context {A : Type} (lt : A -> A -> bool).

Lemma sorted_insert_perm a l : sorted_insert lt a l ≡ₚ a :: l.
Proof.
  induction l as [|b l IH]; simpl; [done|]. destruct (lt b a); [done|].
  rewrite IH. constructor.
Qed.

Lemma sorted_insert_descending `{!StrictWeak lt} a l :
  descending lt l -> descending lt (sorted_insert lt a l).
Proof.
  induction 1 as [|b l Hs IH Hb]; simpl; [repeat constructor|].
  destruct (lt b a) eqn:E.
  - repeat (constructor; try done).
    + apply sw_asym; done.
    + eapply Forall_impl; [exact Hb|]. intros c Hc. unfold noworse in *.
      destruct (lt a c) eqn:F; [|done]. by rewrite (sw_trans _ _ _ E F) in Hc.
  - constructor; [done|]. rewrite sorted_insert_perm. by constructor.
Qed.

Definition sorted_push (a : A) (q : sorted_queue lt) : sorted_queue lt :=
  mk_sorted_queue (sorted_insert lt a (sq_list q))
    (fun H => sorted_insert_descending a _ (sq_sorted q H)).

Lemma descending_tail l : descending lt l -> descending lt (tail l).
Proof. destruct 1; [constructor|done]. Qed.

Definition sorted_pop (q : sorted_queue lt) : sorted_queue lt :=
  mk_sorted_queue (tail (sq_list q)) (fun H => descending_tail _ (sq_sorted q H)).

#[export] Instance sorted_pq : PriorityQueue lt (sorted_queue lt) := {|
  pq_new := mk_sorted_queue [] (fun _ => SSorted_nil _);
  pq_push := sorted_push;
  pq_top q := head (sq_list q);
  pq_pop := sorted_pop;
  pq_elems := sq_list
|}.

#[export] Instance sorted_pq_laws `{!StrictWeak lt} : PriorityQueueLaws lt (sorted_queue lt).
Proof.
  split; simpl; [done|intros a q; apply sorted_insert_perm| | |].
  - intros q. by destruct (sq_list q).
  - intros q a. by destruct (sq_list q); simpl; [|intros [= ->]].
  - intros q a b. pose proof (sq_sorted q _) as Hs. destruct (sq_list q) as [|c l]; [done|].
    simpl. intros [= ->]. apply StronglySorted_inv in Hs as [_ Hf].
    intros [->|Hb]%elem_of_cons; [apply sw_irrefl|]. rewrite Forall_forall in Hf. by apply Hf.
Qed.
End sorted_queue.

Section pq.
Context {A : Type} (lt : A -> A -> bool) {Q : Type} `{!PriorityQueue lt Q, !PriorityQueueLaws lt Q}.

Lemma pq_empty_false q : pq_empty q = false <-> exists a, pq_top q = Some a.
Proof. unfold pq_empty. destruct (pq_top q); split; try done; eauto. by intros [??]. Qed.

Lemma pq_empty_true q : pq_empty q = true <-> pq_elems q = [].
Proof. rewrite <- pq_top_none. unfold pq_empty. by destruct (pq_top q). Qed.

Lemma pq_top_elem q a : pq_top q = Some a -> a ∈ pq_elems q.
Proof. intros H. rewrite (pq_elems_pop _ _ H). left. Qed.
End pq.

Section chain.
Context {GG G A : Type} `{!Generator GG G, !Generator G A} (fuel : nat).

Lemma chain_skip_yields (gs : list G) (ls : list (list A)) (gg : GG) (g : G) (l : list A) n :
  yields gg gs -> Forall2 yields gs ls -> yields g l ->
  (length gs <= n)%nat -> (length gs <= fuel)%nat ->
  exists s, chain_skip n gg g = Some s /\
    yields ({| ch_gg := s.1; ch_g := s.2 |} : generator_chain GG G fuel) (l ++ concat ls).
Proof.
  intros Hgg Hls. revert gg g l n Hgg.
  induction Hls as [|h lh gs ls Hh Hls IHgs]; intros gg g l n Hgg Hg.
  all: revert n; induction Hg as [g Hm|g a g' l Hm Hp Hpop Hg IHl]; intros n Hn Hf;
    pose proof (yields_more _ _ Hgg) as Hmore.
  - exists (gg, None). destruct n; simpl; rewrite Hmore, Hm; simpl; split; try done; by constructor.
  - destruct (IHl fuel) as (s&Hs&Hy); simpl; [lia..|].
    exists (gg, Some g). split; [destruct n; simpl; by rewrite Hmore, Hm|].
    econstructor; simpl; [done|done| |exact Hy]. rewrite Hpop. simpl. by rewrite Hs.
  - destruct n as [|n]; simpl in Hn, Hf; [lia|].
    apply yields_cons_inv in Hgg as (_&Hpk&gg'&Hpop&Hgg).
    destruct (IHgs gg' h lh n Hgg Hh) as (s&Hs&Hy); [lia..|].
    exists s. split; [|done]. simpl. rewrite Hmore, Hm. unfold gcall. rewrite Hpk. simpl.
    rewrite Hpop. simpl. done.
  - destruct (IHl fuel) as (s&Hs&Hy); [lia..|].
    exists (gg, Some g). split; [destruct n; simpl; by rewrite Hmore, Hm|].
    econstructor; simpl; [done|done| |exact Hy]. rewrite Hpop. simpl. by rewrite Hs.
Qed.

Lemma chain_generators_eq (gg : GG) gs :
  yields gg gs ->
  chain_generators fuel gg =
    match gs with
    | [] => Some {| ch_gg := gg; ch_g := None |}
    | g :: _ => gg' ← gpop gg; s ← chain_skip fuel gg' g; Some {| ch_gg := s.1; ch_g := s.2 |}
    end.
Proof.
  intros Hg. unfold chain_generators. rewrite (yields_more _ _ Hg).
  destruct gs as [|g gs]; [done|]. apply yields_cons_inv in Hg as (_&Hp&gg'&Hpop&_).
  unfold gcall. rewrite Hp. simpl. by rewrite Hpop.
Qed.
End chain.

(** ** Properties *)

(** A [generator_chain] returns the values of the generators of a
    generator one after another, empty generators included, and its loop over
    empty generators ends. *)
Theorem chain_generators_concat {GG G A} `{!Generator GG G, !Generator G A} fuel
    (gg : GG) (gs : list G) (ls : list (list A)) :
  yields gg gs -> Forall2 yields gs ls -> (length gs <= fuel)%nat ->
  exists p : generator_chain GG G fuel,
    chain_generators fuel gg = Some p /\ yields p (concat ls).
Proof.
  intros Hgg Hls Hf. rewrite (chain_generators_eq fuel gg gs Hgg).
  destruct Hls as [|g l gs ls Hg Hls].
  { eexists. split; [done|]. by constructor. }
  apply yields_cons_inv in Hgg as (_&_&gg'&->&Hgg). simpl in *.
  destruct (chain_skip_yields fuel gs ls gg' g l fuel Hgg Hls Hg) as (s&->&Hy); [lia..|].
  by eexists.
Qed.

Lemma chain_generators_concat_witness :
  exists p : generator_chain (list (list nat)) (list nat) 4,
    chain_generators 4 [[]; [1; 2]; []; [3]]%nat = Some p /\ yields p [1; 2; 3]%nat.
Proof.
  apply (chain_generators_concat 4 [[]; [1; 2]; []; [3]]%nat [[]; [1; 2]; []; [3]]%nat
    [[]; [1; 2]; []; [3]]%nat).
  - apply yields_range.
  - repeat constructor; apply yields_range.
  - vm_compute. repeat constructor.
Defined.

(** A [filter_generator] returns exactly the values that satisfy the
    filter, in order, and its skipping loops end. *)
Theorem generate_filtered_filter {G A} `{!Generator G A} fuel (f : A -> bool) (g : G) (l : list A) :
  yields g l -> (length l <= fuel)%nat ->
  exists p : filter_generator G A fuel,
    generate_filtered fuel g f = Some p /\ yields p (filter (fun a => f a = true) l).
Proof.
  intros Hg Hf. unfold generate_filtered.
  enough (H : forall n (g : G) l, yields g l -> (length l <= n)%nat -> (length l <= fuel)%nat ->
    exists g', filter_skip fuel f g = Some g' /\
      yields ({| fg_gen := g'; fg_filter := f |} : filter_generator G A fuel)
             (filter (fun a => f a = true) l)).
  { destruct (H (length l) g l) as (g'&->&Hy); [done..|]. simpl. by eexists. }
  clear g l Hg Hf. induction n as [|n IH]; intros g l Hg Hn Hf.
  all: destruct (filter_skip_yields fuel f g l Hf Hg) as (g'&l'&Hs&Hy&Hlen&->&Hh); exists g';
    split; [done|].
  all: destruct l' as [|a l']; [apply yields_more in Hy; by constructor|simpl in Hlen].
  { lia. }
  rewrite filter_cons_True by by apply Hh.
  apply yields_cons_inv in Hy as (Hm&Hp&g2&Hpop&Hy).
  destruct (IH g2 l' Hy) as (g3&Hs3&Hy3); [lia..|].
  econstructor; simpl; [done|done| |exact Hy3]. by rewrite Hpop; simpl; rewrite Hs3.
Qed.

Lemma generate_filtered_filter_witness :
  exists p : filter_generator (list nat) nat 5,
    generate_filtered 5 [1; 2; 3; 4; 6]%nat Nat.even = Some p /\ yields p [2; 4; 6]%nat.
Proof.
  apply (generate_filtered_filter 5 Nat.even [1; 2; 3; 4; 6]%nat [1; 2; 3; 4; 6]%nat).
  - apply yields_range.
  - vm_compute. repeat constructor.
Defined.
