(* ===== verification/FiniteUnion.v ===== *)
(** The merge of finitely many generators: [finite_union_generator] of
    src/gusc/gusc/generator/finite_union_generator.hpp, over any generator
    type and any priority queue. *)
From S2P Require Import Prelude Generator.

(** [compare_current::operator()]: the comparison of the current elements.
    The code only compares generators that have one. *)
Definition compare_current {G A} `{!Generator G A} (compare : A -> A -> bool) (g1 g2 : G) : bool :=
  opt_lt compare (gpeek g1) (gpeek g2).

#[export] Instance compare_current_sw {G A} `{!Generator G A} (compare : A -> A -> bool)
  `{!StrictWeak compare} : StrictWeak (compare_current (G := G) compare).
Proof. exact (sw_pullback (opt_lt compare) gpeek). Qed.

Section finite_union.
Context {G A : Type} `{!Generator G A} (compare : A -> A -> bool).
Context {Q : Type} `{!PriorityQueue (compare_current (G := G) compare) Q}.

(** [impl_type] *)
Record finite_union_generator := { fu_heap : Q }.

(** The loop of the constructor [impl_type(rng, compare)]. *)
Fixpoint fu_fill (rng : list G) (heap : Q) : Q :=
  match rng with
  | [] => heap
  | gen :: rng => fu_fill rng (if gmore gen then pq_push gen heap else heap)
  end.

Definition generate_finite_union (rng : list G) : finite_union_generator :=
  {| fu_heap := fu_fill rng pq_new |}.

(** [finite_union_generator::pop] *)
Definition fu_pop (u : finite_union_generator) : option finite_union_generator :=
  g ← pq_top (fu_heap u);
  let heap := pq_pop (fu_heap u) in
  g ← gpop g;
  Some {| fu_heap := if gmore g then pq_push g heap else heap |}.

Definition fu_peek (u : finite_union_generator) : option A :=
  g ← pq_top (fu_heap u); gpeek g.

Definition fu_more (u : finite_union_generator) : bool := negb (pq_empty (fu_heap u)).

#[export] Instance finite_union : Generator finite_union_generator A := {|
  gmore := fu_more; gpeek := fu_peek; gpop := fu_pop
|}.
End finite_union.

Arguments finite_union_generator Q : clear implicits.

(** * Lemmas *)

(** Taking the first element of one of several descending lists, when it is no
    worse than the other first elements, keeps the merge descending. *)
Lemma descending_cons_concat {A} (lt : A -> A -> bool) `{!StrictWeak lt} a l (ls : list (list A)) :
  descending lt (a :: l) -> Forall (descending lt) ls ->
  Forall (fun k => forall b, head k = Some b -> noworse lt a b) ls ->
  Forall (noworse lt a) (l ++ concat ls).
Proof.
  intros Ha Hls Hh. apply Forall_app. split; [by apply StronglySorted_inv in Ha as [_ ?]|].
  induction Hls as [|k ls Hk Hls IH]; [done|]. apply Forall_cons in Hh as [Hhk Hh].
  simpl. apply Forall_app. split; [|by apply IH].
  destruct Hk as [|b k Hk Hb]; [done|]. specialize (Hhk b eq_refl). constructor; [done|].
  eapply Forall_impl; [exact Hb|]. intros c Hc. by etrans.
Qed.

(** [l] in front of [ls], unless it is exhausted. *)
Definition cons_nonempty {A} (l : list A) (ls : list (list A)) : list (list A) :=
  match l with [] => ls | _ => l :: ls end.

Lemma concat_cons_nonempty {A} (l : list A) ls : concat (cons_nonempty l ls) = l ++ concat ls.
Proof. by destruct l. Qed.

Section holds.
Context {G A : Type} `{!Generator G A} (compare : A -> A -> bool).
Context {Q : Type} `{!PriorityQueue (compare_current (G := G) compare) Q}.
Context `{!PriorityQueueLaws (compare_current (G := G) compare) Q}.

(** The queue holds generators that have a current value and yield [ls], in
    some order. *)
Definition holds (q : Q) (ls : list (list A)) : Prop :=
  exists gs, pq_elems q ≡ₚ gs /\ Forall2 yields gs ls /\ Forall (fun l => l <> []) ls.

#[export] Instance holds_perm q : Proper ((≡ₚ) ==> iff) (holds q).
Proof.
  enough (forall ls ls', ls ≡ₚ ls' -> holds q ls -> holds q ls') as H
    by (intros ls ls' Hp; split; by apply H).
  intros ls ls' Hp (gs&Hq&Hy&Hn).
  destruct (Permutation_Forall2 Hp (proj2 (Forall2_flip _ _ _) Hy)) as (gs'&Hgs&Hy').
  exists gs'. split_and!; [by rewrite Hq|exact (proj1 (Forall2_flip _ _ _) Hy')|by rewrite <- Hp].
Qed.

Lemma holds_new : holds pq_new [].
Proof. exists []. by rewrite pq_elems_new. Qed.

Lemma holds_push q g l ls :
  yields g l -> l <> [] -> holds q ls -> holds (pq_push g q) (l :: ls).
Proof.
  intros Hg Hl (gs&Hq&Hy&Hn). exists (g :: gs).
  rewrite pq_elems_push, Hq. split_and!; [done|by constructor|by constructor].
Qed.

Lemma holds_push_if q g l ls :
  yields g l -> holds q ls -> holds (if gmore g then pq_push g q else q) (cons_nonempty l ls).
Proof.
  intros Hg Hq. rewrite (yields_more _ _ Hg). destruct l; [done|]. by apply holds_push.
Qed.

Lemma holds_none q ls : holds q ls -> pq_top q = None <-> ls = [].
Proof.
  intros (gs&Hq&Hy&Hn). rewrite pq_top_none. split.
  - intros E. rewrite E in Hq. apply Permutation_nil in Hq as ->. by inversion Hy.
  - intros ->. inversion Hy; subst. symmetry in Hq. by apply Permutation_nil.
Qed.

Lemma holds_length q ls : holds q ls -> length (pq_elems q) = length ls.
Proof. intros (gs&->&Hy&_). by eapply Forall2_length. Qed.

(** The top generator's current value is no worse than any other. *)
Lemma holds_top q ls g :
  holds q ls -> pq_top q = Some g ->
  exists a g' l ls', gpeek g = Some a /\ gpop g = Some g' /\ yields g (a :: l) /\ yields g' l /\
    ls ≡ₚ (a :: l) :: ls' /\ holds (pq_pop q) ls' /\
    Forall (fun k => forall b, head k = Some b -> noworse compare a b) ls.
Proof.
  intros (gs&Hq&Hy&Hn) Htop. pose proof (pq_elems_pop _ _ Htop) as Hpop.
  assert (g ∈ gs) as [gs' Hg]%elem_of_Permutation by (rewrite <- Hq; by eapply pq_top_elem).
  destruct (Permutation_Forall2 Hg Hy) as (ls2&Hp&Hls2).
  apply Forall2_cons_inv_l in Hls2 as (lg&ls'&Hyg&Hls'&->).
  pose proof Hn as Hn'. rewrite Hp in Hn'. apply Forall_cons in Hn' as [Hng Hn'].
  destruct lg as [|a lg]; [done|]. pose proof Hyg as Hyg'.
  apply yields_cons_inv in Hyg' as (_&Hpk&g'&Hg'&Hy').
  exists a, g', lg, ls'. split_and!; try done.
  - exists gs'. split_and!; try done.
    apply (Permutation_cons_inv (a := g)). by rewrite <- Hpop, Hq.
  - apply Forall_lookup. intros i k Hk b Hb.
    destruct (Forall2_lookup_r _ _ _ _ _ Hy Hk) as (h&Hh&Hyh).
    assert (Hhq : h ∈ pq_elems q) by (rewrite Hq; by eapply list_elem_of_lookup_2).
    pose proof (pq_top_best _ _ _ Htop Hhq) as Hbest. unfold noworse, compare_current in *.
    destruct k as [|c k]; simplify_eq/=. apply yields_cons_inv in Hyh as (_&Hc&_).
    by rewrite Hpk, Hc in Hbest.
Qed.

Lemma fu_fill_holds rng ls (heap : Q) hs :
  Forall2 yields rng ls -> holds heap hs ->
  exists ls', holds (fu_fill compare rng heap) ls' /\ concat ls' ≡ₚ concat ls ++ concat hs /\
    (Forall (descending compare) ls -> Forall (descending compare) hs ->
     Forall (descending compare) ls').
Proof.
  intros H. revert heap hs. induction H as [|g l rng ls Hg H IH]; intros heap hs Hh; simpl.
  { by exists hs. }
  destruct (IH _ _ (holds_push_if _ _ _ _ Hg Hh)) as (ls'&Hls'&Hc&Hd).
  exists ls'. split_and!; [done| |].
  - rewrite Hc, concat_cons_nonempty. by rewrite !app_assoc, (Permutation_app_comm l).
  - intros [??]%Forall_cons ?. apply Hd; [done|]. destruct l; [done|]. by constructor.
Qed.

Lemma fu_yields n (u : finite_union_generator Q) ls :
  holds (fu_heap u) ls -> length (concat ls) = n ->
  exists l, yields u l /\ l ≡ₚ concat ls /\
    (StrictWeak compare -> Forall (descending compare) ls -> descending compare l).
Proof.
  revert u ls. induction n as [n IH] using lt_wf_ind. intros u ls Hls Hn.
  destruct (pq_top (fu_heap u)) as [g|] eqn:Htop.
  2: { pose proof (proj1 (holds_none _ _ Hls) Htop) as ->. exists [].
       split_and!; [constructor; cbn; unfold fu_more, pq_empty; by rewrite Htop|done|constructor]. }
  destruct (holds_top _ _ _ Hls Htop) as (a&g'&l&ls'&Hpk&Hg'&_&Hy&Hp&Hpop&Hbest).
  destruct (IH (length (concat (cons_nonempty l ls')))) with
    (u := {| fu_heap := if gmore g' then pq_push g' (pq_pop (fu_heap u)) else pq_pop (fu_heap u) |})
    (ls := cons_nonempty l ls') as (r&Hyr&Hr&Hd).
  { rewrite concat_cons_nonempty, <- Hn, Hp. simpl. lia. }
  { by apply holds_push_if. }
  { done. }
  rewrite concat_cons_nonempty in Hr. exists (a :: r). split_and!.
  - econstructor; [cbn; unfold fu_more, pq_empty; by rewrite Htop
      |cbn; unfold fu_peek; by rewrite Htop
      |cbn; unfold fu_pop; rewrite Htop; simpl; rewrite Hg'; done|exact Hyr].
  - by rewrite Hr, Hp.
  - intros Hsw Hdls. rewrite Hp in Hdls, Hbest.
    apply Forall_cons in Hdls as [Hda Hdls], Hbest as [_ Hbest].
    constructor; [|rewrite Hr; by apply (descending_cons_concat compare)].
    apply Hd; [done|]. apply StronglySorted_inv in Hda as [? _]. destruct l; [done|]. by constructor.
Qed.
End holds.

(** ** Properties *)

(** The union of finitely many generators returns each of their values
    exactly once and then ends; if every generator returns its values best
    first, so does the union. *)
Theorem finite_union_merges {G A} `{!Generator G A} (compare : A -> A -> bool) {Q}
    `{!PriorityQueue (compare_current (G := G) compare) Q}
    `{!PriorityQueueLaws (compare_current (G := G) compare) Q}
    (rng : list G) (ls : list (list A)) :
  Forall2 yields rng ls ->
  exists l, yields (generate_finite_union (Q := Q) compare rng) l /\ l ≡ₚ concat ls /\
    (StrictWeak compare -> Forall (descending compare) ls -> descending compare l).
Proof.
  intros H. destruct (fu_fill_holds compare (Q := Q) rng ls pq_new [] H (holds_new compare))
    as (ls'&Hls'&Hc&Hd). rewrite app_nil_r in Hc.
  destruct (fu_yields compare _ (generate_finite_union compare rng) ls' Hls' eq_refl)
    as (l&Hy&Hl&Hdl).
  exists l. split_and!; [done|by rewrite Hl|]. intros ??. apply Hdl; [done|]. by apply Hd.
Qed.

Lemma finite_union_merges_witness :
  exists l, yields (generate_finite_union
      (Q := sorted_queue (compare_current (G := list nat) Nat.ltb)) Nat.ltb [[5; 2]; []; [7; 3; 1]]%nat) l
    /\ l ≡ₚ [5; 2; 7; 3; 1]%nat /\ drain 6 (generate_finite_union
      (Q := sorted_queue (compare_current (G := list nat) Nat.ltb)) Nat.ltb [[5; 2]; []; [7; 3; 1]]%nat)
      = Some [7; 5; 3; 2; 1]%nat.
Proof.
  assert (Hsw : StrictWeak Nat.ltb) by (split; intros; rewrite ?Nat.ltb_lt, ?Nat.ltb_ge in *; lia).
  destruct (finite_union_merges Nat.ltb (Q := sorted_queue (compare_current (G := list nat) Nat.ltb))
    [[5; 2]; []; [7; 3; 1]]%nat [[5; 2]; []; [7; 3; 1]]%nat) as (l&H1&H2&_).
  - repeat constructor; apply yields_range.
  - exists l. split; [exact H1|]. split; [exact H2|]. vm_compute. reflexivity.
Defined.
