(* ===== verification/UnionHeap.v ===== *)
(** The merge of a generator of generators: [union_heap_generator] of
    src/gusc/gusc/generator/union_heap_generator.hpp.

    The outer generator is consumed in windows of [lookahead] generators.  The
    loop over empty generators is bounded by [fuel]. *)
From S2P Require Import Prelude Generator FiniteUnion.
Open Scope Z_scope.

(** [std::numeric_limits<size_t>::max()] *)
Definition SIZE_MAX : Z := 18446744073709551615.

Section union_heap.
Context {GG G A : Type} `{!Generator GG G, !Generator G A} (fuel : nat) (compare : A -> A -> bool).
Context {Q : Type} `{!PriorityQueue (compare_current (G := G) compare) Q}.

(** [impl_] *)
Record uh_impl := mk_uh_impl {
  uh_gen : GG;
  uh_heap : Q;
  uh_window : Q;
  uh_empty_max : Z;
  uh_empty_count : Z
}.

Definition empties_exhausted (st : uh_impl) : bool := uh_empty_count st >=? uh_empty_max st.

Fixpoint skip_empties (fuel : nat) (st : uh_impl) : option uh_impl :=
  if gmore (uh_gen st) && negb (empties_exhausted st) then
    g ← gpeek (uh_gen st);
    if negb (gmore g)
    then match fuel with
         | O => None
         | S fuel =>
             c ← gcall (uh_gen st);
             skip_empties fuel (mk_uh_impl c.2 (uh_heap st) (uh_window st) (uh_empty_max st)
                                  (u64 (uh_empty_count st + 1)))
         end
    else Some st
  else Some st.

Definition push_to_window (st : uh_impl) : option uh_impl :=
  if gmore (uh_gen st)
  then c ← gcall (uh_gen st);
       skip_empties fuel (mk_uh_impl c.2 (uh_heap st) (pq_push c.1 (uh_window st))
                            (uh_empty_max st) (uh_empty_count st))
  else skip_empties fuel st.

(** [for (size_t x = 0; x != n; ++x) body();] *)
Fixpoint times (n : nat) (body : uh_impl -> option uh_impl) (st : uh_impl) : option uh_impl :=
  match n with
  | O => Some st
  | S n => st ← body st; times n body st
  end.

(** [impl->heap.push(impl->window.top()); impl->window.pop();] *)
Definition move_top (st : uh_impl) : option uh_impl :=
  g ← pq_top (uh_window st);
  Some (mk_uh_impl (uh_gen st) (pq_push g (uh_heap st)) (pq_pop (uh_window st))
          (uh_empty_max st) (uh_empty_count st)).

Definition push_to_heap (st : uh_impl) : option uh_impl :=
  if negb (pq_empty (uh_window st)) then
    let lookahead := length (pq_elems (uh_window st)) in
    st ← times lookahead move_top st;
    times lookahead push_to_window st
  else Some st.

Definition uh_init (window : nat) (st : uh_impl) : option uh_impl :=
  st ← skip_empties fuel st;
  st ← times window push_to_window st;
  push_to_heap st.

(** [generate_union_heap]: every constructor sets [empty_max] to the maximum of
    [size_t]; the argument [max_empties] is not used. *)
Definition generate_union_heap (gen : GG) (lookahead : nat) (max_empties : Z) : option uh_impl :=
  uh_init lookahead (mk_uh_impl gen pq_new pq_new SIZE_MAX 0).

(** [union_heap_generator::increment] *)
Definition uh_increment (st : uh_impl) : option uh_impl :=
  g ← pq_top (uh_heap st);
  let heap := pq_pop (uh_heap st) in
  g ← gpop g;
  let heap := if gmore g then pq_push g heap else heap in
  let st := mk_uh_impl (uh_gen st) heap (uh_window st) (uh_empty_max st) (uh_empty_count st) in
  if negb (pq_empty (uh_window st)) &&
     (pq_empty heap ||
      match pq_top heap, pq_top (uh_window st) with
      | Some h, Some w => compare_current compare h w
      | _, _ => false
      end)
  then push_to_heap st
  else Some st.

Definition uh_dereference (st : uh_impl) : option A := g ← pq_top (uh_heap st); gpeek g.

Definition uh_more (st : uh_impl) : bool :=
  negb (pq_empty (uh_heap st)) && negb (empties_exhausted st).

#[export] Instance union_heap : Generator uh_impl A := {|
  gmore := uh_more; gpeek := uh_dereference; gpop := uh_increment
|}.
End union_heap.

Arguments uh_impl GG Q : clear implicits.

(** * Lemmas *)

(** The head of [l] is no worse than the head of [k]. *)
Definition head_ge {A} (compare : A -> A -> bool) (l k : list A) : Prop :=
  forall a b, head l = Some a -> head k = Some b -> noworse compare a b.

(** Among the first values of the non-empty lists of [R], none that comes
    [lookahead] or more places later is better. *)
Definition lookahead_sorted {A} (compare : A -> A -> bool) (lookahead : nat) (R : list (list A))
  : Prop :=
  forall i j l k, R !! i = Some l -> R !! j = Some k -> (i + lookahead <= j)%nat ->
    head_ge compare l k.

Definition nonempty {A} (ls : list (list A)) : list (list A) := filter (fun l => l <> []) ls.

Lemma concat_nonempty {A} (ls : list (list A)) : concat (nonempty ls) = concat ls.
Proof.
  induction ls as [|l ls IH]; [done|]. unfold nonempty in *. rewrite filter_cons.
  case_decide as E; simpl; [by rewrite IH|]. by destruct l.
Qed.

Section lemmas.
Context {GG G A : Type} `{!Generator GG G, !Generator G A} (fuel : nat) (compare : A -> A -> bool).
Context {Q : Type} `{!PriorityQueue (compare_current (G := G) compare) Q}.
Context `{!PriorityQueueLaws (compare_current (G := G) compare) Q}.
Abbreviation state := (uh_impl GG Q).

(** The outer generator yields generators of [ls], with fuel and counter large
    enough for the empty ones among them. *)
Definition outer (st : state) (ls : list (list A)) : Prop :=
  exists gs, yields (uh_gen st) gs /\ Forall2 yields gs ls /\ (length gs <= fuel)%nat /\
    uh_empty_max st = SIZE_MAX /\ 0 <= uh_empty_count st /\
    uh_empty_count st + Z.of_nat (length gs) < SIZE_MAX.

(** ... and the first of them is not empty. *)
Definition rest (st : state) (R : list (list A)) : Prop :=
  exists ls, outer st ls /\ R = nonempty ls /\ (forall l, head ls = Some l -> l <> []).

Lemma outer_not_exhausted st ls : outer st ls -> empties_exhausted st = false.
Proof. intros (gs&_&_&_&Hmax&H0&Hc). unfold empties_exhausted. rewrite Hmax. lia. Qed.

Lemma skip_empties_rest st ls :
  outer st ls ->
  exists st', skip_empties fuel st = Some st' /\ rest st' (nonempty ls) /\
    uh_heap st' = uh_heap st /\ uh_window st' = uh_window st.
Proof.
  intros H. assert (exists n, n = fuel /\ exists gs, yields (uh_gen st) gs /\ Forall2 yields gs ls /\
      (length gs <= n)%nat) as (n&Hn&Hgs).
  { destruct H as (gs&?&?&?&_). eauto 6. }
  rewrite <- Hn. assert (Hle : (n <= fuel)%nat) by lia. clear Hn.
  revert n Hle st H Hgs. induction ls as [|l ls IH]; intros n Hle st H Hgs;
    destruct Hgs as (gs&Hy&H2&Hlen); pose proof (outer_not_exhausted _ _ H) as He.
  - inversion H2; subst. exists st. split_and!; [|by exists []|done|done].
    destruct n; simpl; by rewrite (yields_more _ _ Hy).
  - apply Forall2_cons_inv_r in H2 as (g&gs'&Hg&H2&->).
    pose proof Hy as Hy'. apply yields_cons_inv in Hy' as (Hm&Hp&gg'&Hpop&Hy').
    destruct l as [|a l].
    + destruct n as [|n]; simpl in Hlen; [lia|].
      destruct (IH n ltac:(lia) (mk_uh_impl gg' (uh_heap st) (uh_window st) (uh_empty_max st)
                                  (u64 (uh_empty_count st + 1)))) as (st'&Hs&Hr&Hh&Hw).
      * destruct H as (gs0&Hy0&H20&Hl0&Hmax&H0&Hc).
        rewrite (yields_functional _ _ _ Hy0 Hy) in *. simpl in *. unfold SIZE_MAX in *.
        exists gs'. simpl. rewrite u64_small by lia. split_and!; try done; unfold SIZE_MAX; lia.
      * exists gs'. simpl. split_and!; [done|done|lia].
      * exists st'. simpl. rewrite Hm, He. simpl. rewrite Hp. simpl.
        rewrite (yields_more _ _ Hg). simpl. unfold gcall. rewrite Hp. simpl. rewrite Hpop. simpl.
        rewrite Hs. split_and!; try done.
    + exists st. split_and!; [|exists ((a :: l) :: ls)|done|done].
      * destruct n; simpl; rewrite Hm, He; simpl; rewrite Hp; simpl; by rewrite (yields_more _ _ Hg).
      * split_and!; [done|done|]. by intros ? [= <-].
Qed.

Lemma push_to_window_rest st R W :
  rest st R -> holds compare (uh_window st) W ->
  exists st', push_to_window fuel compare st = Some st' /\ rest st' (drop 1 R) /\
    uh_heap st' = uh_heap st /\ holds compare (uh_window st') (take 1 R ++ W).
Proof.
  intros (ls&Ho&->&Hhd) HW. pose proof Ho as (gs&Hy&H2&Hf&Hmax&H0&Hc).
  unfold push_to_window. rewrite (yields_more _ _ Hy).
  destruct H2 as [|g l gs ls Hg H2].
  - destruct (skip_empties_rest _ _ Ho) as (st'&Hs&Hr&Hh&Hw). exists st'. rewrite Hw. done.
  - specialize (Hhd l eq_refl). apply yields_cons_inv in Hy as (_&Hp&gg'&Hpop&Hy).
    unfold gcall. rewrite Hp. simpl. rewrite Hpop. simpl.
    destruct (skip_empties_rest (mk_uh_impl gg' (uh_heap st) (pq_push g (uh_window st))
      (uh_empty_max st) (uh_empty_count st)) ls) as (st'&Hs&Hr&Hh&Hw).
    { exists gs. simpl in *. split_and!; try done; lia. }
    exists st'. rewrite Hw. unfold nonempty. rewrite filter_cons_True by done. simpl.
    rewrite ?drop_0, ?take_0. split_and!; [done|done|done|]. simpl. by apply holds_push.
Qed.

Lemma times_push_to_window n st R W :
  rest st R -> holds compare (uh_window st) W ->
  exists st', times n (push_to_window fuel compare) st = Some st' /\ rest st' (drop n R) /\
    uh_heap st' = uh_heap st /\ holds compare (uh_window st') (take n R ++ W).
Proof.
  revert st R W. induction n as [|n IH]; intros st R W HR HW.
  { exists st. simpl. by rewrite ?drop_0. }
  destruct (push_to_window_rest st R W HR HW) as (st1&Hs1&HR1&Hh1&HW1).
  destruct (IH st1 _ _ HR1 HW1) as (st2&Hs2&HR2&Hh2&HW2).
  exists st2. simpl. rewrite Hs1. simpl. rewrite drop_drop in HR2. split_and!; [done|done|congruence|].
  destruct R as [|r R]; simpl in *; [by destruct n|]. rewrite ?drop_0, ?take_0 in HW2. simpl in HW2.
  rewrite (Permutation_middle (take n R) W r). done.
Qed.

Lemma times_move_top st H W R :
  rest st R -> holds compare (uh_heap st) H -> holds compare (uh_window st) W ->
  exists st', times (length W) (move_top compare) st = Some st' /\ rest st' R /\
    holds compare (uh_heap st') (W ++ H) /\ holds compare (uh_window st') [].
Proof.
  intros HR HH HW. remember (length W) as n eqn:Hn.
  revert st H W Hn HR HH HW. induction n as [|n IH]; intros st H W Hn HR HH HW.
  { destruct W; [|done]. by exists st. }
  destruct (pq_top (uh_window st)) as [g|] eqn:Htop.
  2: { apply (holds_none compare _ _ HW) in Htop. by subst. }
  destruct (holds_top compare _ _ _ HW Htop) as (a&_&l&W'&_&_&Hg&_&Hp&Hpop&_).
  assert (Hn' : n = length W') by (apply Permutation_length in Hp; simpl in *; lia).
  destruct (IH (mk_uh_impl (uh_gen st) (pq_push g (uh_heap st)) (pq_pop (uh_window st))
          (uh_empty_max st) (uh_empty_count st)) ((a :: l) :: H) W' Hn') as (st'&Hs&HR'&HH'&HW').
  - done.
  - by apply holds_push.
  - done.
  - exists st'. cbn [times].
    assert (move_top compare st = Some (mk_uh_impl (uh_gen st) (pq_push g (uh_heap st))
      (pq_pop (uh_window st)) (uh_empty_max st) (uh_empty_count st))) as ->.
    { unfold move_top. by rewrite Htop. }
    split_and!; [done|done| |done]. rewrite Hp. simpl. by rewrite Permutation_middle.
Qed.

Lemma push_to_heap_rest st H W R :
  rest st R -> holds compare (uh_heap st) H -> holds compare (uh_window st) W ->
  exists st', push_to_heap fuel compare st = Some st' /\ rest st' (drop (length W) R) /\
    holds compare (uh_heap st') (W ++ H) /\ holds compare (uh_window st') (take (length W) R).
Proof.
  intros HR HH HW. unfold push_to_heap.
  pose proof (holds_none compare _ _ HW) as Hnone. unfold pq_empty.
  destruct (pq_top (uh_window st)) eqn:Htop; simpl.
  - rewrite (holds_length compare _ _ HW).
    destruct (times_move_top st H W R HR HH HW) as (st1&->&HR1&HH1&HW1). simpl.
    destruct (times_push_to_window (length W) st1 R [] HR1 HW1) as (st2&->&HR2&Hh2&HW2).
    exists st2. rewrite app_nil_r in HW2. by rewrite Hh2.
  - rewrite (proj1 Hnone eq_refl) in *. exists st. simpl. by rewrite ?drop_0.
Qed.

(** ** Order *)

(** Not exhausted, and best first. *)
Definition fine (l : list A) : Prop := l <> [] /\ descending compare l.

Lemma head_ge_trans `{!StrictWeak compare} (l k m : list A) :
  fine k -> head_ge compare l k -> head_ge compare k m -> head_ge compare l m.
Proof.
  intros [Hk _] H1 H2 a c Ha Hc. destruct k as [|b k]; [done|].
  etrans; [exact (H1 a b Ha eq_refl)|exact (H2 b c eq_refl Hc)].
Qed.

(** [X] has a list whose head is no worse than those of [Y]. *)
Definition leads (X Y : list (list A)) : Prop :=
  Y = [] \/ exists x, x ∈ X /\ Forall (head_ge compare x) Y.

Lemma leads_take X R L : leads X R -> leads X (take L R).
Proof. intros [->|(x&Hx&HF)]; [left; by rewrite take_nil|]. right. exists x. auto using Forall_take. Qed.

Lemma lookahead_leads (L : nat) R :
  (0 < L)%nat -> lookahead_sorted compare L R -> leads (take L R) (drop L R).
Proof.
  intros HL HR. destruct R as [|r R]; [left; apply drop_nil|]. right. exists r.
  split; [destruct L; [lia|]; left|]. apply Forall_lookup. intros i k Hk.
  rewrite lookup_drop in Hk. apply (HR 0%nat (L + i)%nat); [done|done|lia].
Qed.

Lemma lookahead_sorted_drop L n R :
  lookahead_sorted compare L R -> lookahead_sorted compare L (drop n R).
Proof.
  intros HR i j l k. rewrite !lookup_drop. intros ???.
  apply (HR (n + i)%nat (n + j)%nat); [done|done|lia].
Qed.

(** The order that the heap, the window and the rest are kept in. *)
Record uh_sorted (L : nat) (H W R : list (list A)) : Prop := {
  us_fine : Forall fine (H ++ W ++ R);
  us_heap : leads H W;
  us_window : leads W R;
  us_rest : lookahead_sorted compare L R;
  us_full : length W = L \/ R = []
}.

(** Refilling: the window joins the heap, the next generators form the window. *)
Lemma uh_sorted_refill L H W R :
  (0 < L)%nat -> Forall fine (H ++ W ++ R) -> leads W R ->
  lookahead_sorted compare L R -> (length W = L \/ R = []) ->
  uh_sorted L (W ++ H) (take (length W) R) (drop (length W) R).
Proof.
  intros HL Hd Hw HR Hf. split.
  - by rewrite take_drop, (Permutation_app_comm W H), <- app_assoc.
  - apply (leads_take _ _ (length W)) in Hw as [->|(x&Hx&HF)]; [by left|right].
    exists x. rewrite elem_of_app. auto.
  - destruct Hf as [->| ->]; [by apply lookahead_leads|left; apply drop_nil].
  - by apply lookahead_sorted_drop.
  - destruct Hf as [->| ->]; [|right; apply drop_nil].
    destruct (decide (length R < L)%nat); [right; apply drop_ge; lia|].
    left. rewrite length_take. lia.
Qed.

(** What leads [Y] is itself no worse than a list whose head is best. *)
Lemma leads_best `{!StrictWeak compare} l X Y :
  Forall fine X -> Forall (head_ge compare l) X -> leads X Y -> Forall (head_ge compare l) Y.
Proof.
  intros Hf Hl [->|(x&Hx&HF)]; [done|]. rewrite Forall_forall in Hf, Hl.
  eapply Forall_impl; [exact HF|]. intros y. apply head_ge_trans; auto.
Qed.

Lemma uh_sorted_best `{!StrictWeak compare} L H W R a l H' :
  uh_sorted L H W R -> H ≡ₚ (a :: l) :: H' ->
  Forall (fun k => forall b, head k = Some b -> noworse compare a b) H ->
  Forall (noworse compare a) (l ++ concat (H' ++ W ++ R)).
Proof.
  intros [Hd Hh Hw _ _] Hp Hbest.
  apply Forall_app in Hd as [HdH Hd]. pose proof Hd as [HdW HdR]%Forall_app.
  assert (HH : Forall (head_ge compare (a :: l)) H).
  { eapply Forall_impl; [exact Hbest|]. intros k Hk b c [= ->]. apply Hk. }
  pose proof (leads_best _ _ _ HdH HH Hh) as HW. pose proof (leads_best _ _ _ HdW HW Hw) as HR.
  rewrite Hp in HH, HdH. apply Forall_cons in HdH as [[_ Ha] HdH], HH as [_ HH].
  apply (descending_cons_concat compare a l); [done| |].
  - assert (Hf : Forall fine (H' ++ W ++ R)) by by rewrite !Forall_app.
    eapply Forall_impl; [exact Hf|]. by intros ? [].
  - assert (Hf : Forall (head_ge compare (a :: l)) (H' ++ W ++ R)) by by rewrite !Forall_app.
    eapply Forall_impl; [exact Hf|]. intros k Hk b. by apply Hk.
Qed.

Lemma fine_cons_nonempty (a : A) l ls :
  fine (a :: l) -> Forall fine ls -> Forall fine (cons_nonempty l ls).
Proof.
  intros [_ Hd] Hls. destruct l; [done|]. constructor; [|done].
  split; [done|]. by apply StronglySorted_inv in Hd as [? _].
Qed.

(** ** The whole run *)

(** The state, by the lists its generators yield; the heap is only empty when
    everything is. *)
Definition uh_state (st : state) (H W R : list (list A)) : Prop :=
  holds compare (uh_heap st) H /\ holds compare (uh_window st) W /\ rest st R /\
  (H = [] -> W = []) /\ (W = [] -> R = []).

Lemma uh_more_state st H W R :
  uh_state st H W R -> uh_more compare st = match H with [] => false | _ => true end.
Proof.
  intros (HH&HW&(ls&Ho&_)&_). unfold uh_more, pq_empty.
  rewrite (outer_not_exhausted _ _ Ho). pose proof (holds_none compare _ _ HH) as Hn.
  destruct (pq_top (uh_heap st)); destruct H; simpl; try done; destruct Hn; naive_solver.
Qed.

Lemma push_to_heap_state st H W R :
  rest st R -> holds compare (uh_heap st) H -> holds compare (uh_window st) W ->
  (W = [] -> R = []) ->
  exists st', push_to_heap fuel compare st = Some st' /\
    uh_state st' (W ++ H) (take (length W) R) (drop (length W) R).
Proof.
  intros HR HH HW Hn.
  destruct (push_to_heap_rest st H W R HR HH HW) as (st'&Hs&HR'&HH'&HW').
  exists st'. split; [done|]. unfold uh_state. split_and!; try done.
  - intros [-> ->]%app_eq_nil. by rewrite take_0.
  - destruct W; [by rewrite Hn|]. by destruct R.
Qed.

(** One increment: the best list of the heap loses its first value. *)
Lemma uh_increment_state st H W R a g' l H' g :
  uh_state st H W R ->
  pq_top (uh_heap st) = Some g -> gpop g = Some g' -> yields g' l ->
  holds compare (pq_pop (uh_heap st)) H' ->
  exists st' H1 W1 R1, uh_increment fuel compare st = Some st' /\ uh_state st' H1 W1 R1 /\
    concat (H1 ++ W1 ++ R1) ≡ₚ l ++ concat (H' ++ W ++ R) /\
    (forall L, (0 < L)%nat -> StrictWeak compare -> fine (a :: l) -> H ≡ₚ (a :: l) :: H' ->
     uh_sorted L H W R -> uh_sorted L H1 W1 R1).
Proof.
  intros (HH&HW&HR&Hn1&Hn2) Htop Hpop Hy HH'. unfold uh_increment. rewrite Htop. simpl.
  rewrite Hpop. simpl.
  pose proof (holds_push_if compare _ _ _ _ Hy HH') as HP. revert HP.
  generalize (if gmore g' then pq_push g' (pq_pop (uh_heap st)) else pq_pop (uh_heap st)) as heap.
  intros heap HP. set (P := cons_nonempty l H') in *.
  set (st0 := mk_uh_impl _ _ _ _ _).
  assert (HR0 : rest st0 R) by done.
  assert (HcP : concat (P ++ W ++ R) = l ++ concat (H' ++ W ++ R)).
  { unfold P. by rewrite concat_app, (concat_app H'), concat_cons_nonempty, <- app_assoc. }
  assert (HfP : forall L, fine (a :: l) -> H ≡ₚ (a :: l) :: H' -> uh_sorted L H W R ->
    Forall fine (P ++ W ++ R)).
  { intros L Hf Hp [Hd _ _ _ _]. rewrite Hp in Hd. simpl in Hd. apply Forall_cons in Hd as [_ Hd].
    apply Forall_app in Hd as [Hd ?]. apply Forall_app. split; [by eapply fine_cons_nonempty|done]. }
  pose proof (holds_none compare _ _ HP) as HnP. pose proof (holds_none compare _ _ HW) as HnW.
  destruct (_ && _) eqn:Hcond.
  - destruct (push_to_heap_state st0 P W R HR0 HP HW Hn2) as (st'&Hs&Hst).
    exists st', (W ++ P), (take (length W) R), (drop (length W) R). split_and!; [done|done| |].
    + by rewrite take_drop, <- HcP, !app_assoc, (Permutation_app_comm W P).
    + intros L HL _ Hf Hp Hus. pose proof (HfP L Hf Hp Hus). destruct Hus.
      by apply uh_sorted_refill.
  - exists st0, P, W, R. unfold pq_empty in Hcond.
    destruct (pq_top (uh_window st)) as [w|] eqn:Hw; simpl in Hcond.
    + destruct (pq_top heap) as [h|] eqn:Hh; simpl in Hcond; [|done].
      split_and!; [done| |by rewrite HcP|].
      * unfold uh_state. split_and!; try done. intros E. by apply HnP in E.
      * intros L HL Hsw Hf Hp Hus. pose proof (HfP L Hf Hp Hus) as Hfine. destruct Hus. split; try done.
        destruct (holds_top compare _ _ _ HP Hh) as (b&h'&lh&P'&Hb&_&_&_&HpP&_&_).
        destruct (holds_top compare _ _ _ HW Hw) as (c&w'&lw&W'&Hc&_&_&_&_&_&Hbest).
        right. exists (b :: lh). split; [rewrite HpP; left|].
        eapply Forall_impl; [exact Hbest|]. intros k Hk x y [= ->] Hy'.
        etrans; [|exact (Hk y Hy')]. unfold compare_current in Hcond. by rewrite Hb, Hc in Hcond.
    + pose proof (proj1 HnW eq_refl) as ->. specialize (Hn2 eq_refl) as ->.
      split_and!; [done|by unfold uh_state|by rewrite HcP|].
      intros L HL Hsw Hf Hp Hus. pose proof (HfP L Hf Hp Hus). destruct Hus. split; try done. by left.
Qed.

Lemma uh_yields L n st H W R :
  uh_state st H W R -> length (concat (H ++ W ++ R)) = n -> (0 < L)%nat ->
  exists l, yields (Generator0 := union_heap fuel compare) st l /\ l ≡ₚ concat (H ++ W ++ R) /\
    (StrictWeak compare -> uh_sorted L H W R -> descending compare l).
Proof.
  revert st H W R. induction n as [n IH] using lt_wf_ind. intros st H W R Hst Hn HL.
  pose proof (uh_more_state _ _ _ _ Hst) as Hm. pose proof Hst as (HH&HW&HR&Hn1&Hn2).
  pose proof (holds_none compare _ _ HH) as HnH.
  destruct (pq_top (uh_heap st)) as [g|] eqn:Htop.
  2: { pose proof (proj1 HnH eq_refl) as ->. specialize (Hn1 eq_refl) as ->.
       specialize (Hn2 eq_refl) as ->. exists []. split_and!; [by constructor|done|constructor]. }
  destruct (holds_top compare _ _ _ HH Htop) as (a&g'&l&H'&Hpk&Hpop&_&Hy&Hp&HH'&Hbest).
  destruct (uh_increment_state st H W R a g' l H' g Hst Htop Hpop Hy HH')
    as (st'&H1&W1&R1&Hinc&Hst'&Hc&Hs).
  assert (Hcat : concat (H ++ W ++ R) ≡ₚ a :: l ++ concat (H' ++ W ++ R)) by by rewrite Hp.
  destruct (IH (length (concat (H1 ++ W1 ++ R1)))) with (st := st') (H := H1) (W := W1) (R := R1)
    as (r&Hyr&Hr&Hd); try done.
  { rewrite <- Hn, Hc, Hcat. simpl. lia. }
  exists (a :: r). split_and!.
  - econstructor; [|cbn; unfold uh_dereference; by rewrite Htop|exact Hinc|exact Hyr].
    cbn. rewrite Hm. destruct H; [|done]. by apply Permutation_nil_cons in Hp.
  - by rewrite Hr, Hc, Hcat.
  - intros Hsw Hus. assert (Hf : fine (a :: l)).
    { destruct Hus as [Hd' _ _ _ _]. rewrite Hp in Hd'. simpl in Hd'. by apply Forall_cons in Hd' as [? _]. }
    constructor; [by eapply Hd, Hs|]. rewrite Hr, Hc. by eapply uh_sorted_best.
Qed.
End lemmas.

(** ** Properties *)

(** C18: a union heap with a positive lookahead returns every value of every
    generator of the outer generator exactly once and then ends; if the inner
    generators return their values best first and no non-empty generator
    starts better than one [lookahead] or more places before it, the values
    come out best first. *)
Theorem union_heap_merges {GG G A} `{!Generator GG G, !Generator G A} fuel
    (compare : A -> A -> bool) {Q} `{!PriorityQueue (compare_current (G := G) compare) Q}
    `{!PriorityQueueLaws (compare_current (G := G) compare) Q}
    (gen : GG) (gs : list G) (ls : list (list A)) (lookahead : nat) (max_empties : Z) :
  yields gen gs -> Forall2 yields gs ls -> (length gs <= fuel)%nat ->
  Z.of_nat (length gs) < SIZE_MAX -> (0 < lookahead)%nat ->
  exists st l,
    generate_union_heap (Q := Q) fuel compare gen lookahead max_empties = Some st /\
    yields (Generator0 := union_heap fuel compare) st l /\ l ≡ₚ concat ls /\
    (StrictWeak compare -> Forall (descending compare) ls ->
     lookahead_sorted compare lookahead (nonempty ls) -> descending compare l).
Proof.
  intros Hgs Hls Hf Hmax HL. unfold generate_union_heap, uh_init.
  destruct (skip_empties_rest fuel (Q := Q) (mk_uh_impl gen pq_new pq_new SIZE_MAX 0) ls)
    as (st0&->&HR0&Hh0&Hw0); [exists gs; simpl; split_and!; (done || lia)|]. simpl in *.
  pose proof (holds_new compare (G := G) (Q := Q)) as Hnew.
  destruct (times_push_to_window fuel compare lookahead st0 (nonempty ls) [] HR0) as (st1&->&HR1&Hh1&HW1).
  { by rewrite Hw0. }
  simpl. rewrite app_nil_r in HW1. set (R := nonempty ls) in *. rewrite Hh0 in Hh1.
  destruct (push_to_heap_state fuel compare st1 [] (take lookahead R) (drop lookahead R))
    as (st2&->&Hst2); [done|by rewrite Hh1|done| |].
  { intros E. destruct lookahead; [lia|]. destruct R; [done|]. done. }
  destruct (uh_yields fuel compare lookahead _ st2 _ _ _ Hst2 eq_refl HL) as (l&Hy&Hp&Hd).
  exists st2, l. split_and!; [done|done| |].
  - rewrite Hp, take_drop, app_nil_r, take_drop. unfold R. by rewrite concat_nonempty.
  - intros Hsw Hdl HR. apply Hd; [done|]. apply uh_sorted_refill; try done.
    + simpl. rewrite take_drop. unfold R, nonempty. apply Forall_forall.
      intros k [Hk Hin]%list_elem_of_filter. rewrite Forall_forall in Hdl. split; auto.
    + by apply lookahead_leads.
    + by apply lookahead_sorted_drop.
    + rewrite length_take. destruct (decide (length R < lookahead)%nat);
        [right; apply drop_ge; lia|left; lia].
Qed.

Lemma union_heap_merges_witness :
  exists st l,
    generate_union_heap (Q := sorted_queue (compare_current (G := list nat) Nat.ltb)) 9 Nat.ltb
      [[]; [5; 2]; [7; 3; 1]; []; [6]; [4]]%nat 2 0 = Some st /\
    yields (Generator0 := union_heap 9 Nat.ltb) st l /\ l ≡ₚ [5; 2; 7; 3; 1; 6; 4]%nat /\
    drain (Generator0 := union_heap 9 Nat.ltb) 9 st = Some [7; 6; 5; 4; 3; 2; 1]%nat.
Proof.
  assert (Hsw : StrictWeak Nat.ltb) by (split; intros; rewrite ?Nat.ltb_lt, ?Nat.ltb_ge in *; lia).
  set (gs := [[]; [5; 2]; [7; 3; 1]; []; [6]; [4]]%nat).
  destruct (union_heap_merges 9 Nat.ltb (Q := sorted_queue (compare_current (G := list nat) Nat.ltb))
    gs gs gs 2 0) as (st&l&H1&H2&H3&_).
  - apply yields_range.
  - repeat constructor; apply yields_range.
  - vm_compute. repeat constructor.
  - reflexivity.
  - repeat constructor.
  - exists st, l. split; [exact H1|]. split; [exact H2|]. split; [exact H3|].
    vm_compute in H1. injection H1 as <-. vm_compute. reflexivity.
Defined.
