(* ===== verification/ProductFrontier.v ===== *)
(** What the three product generators of src/gusc/gusc/generator share
    (product_heap_generator.hpp, buchse_product_generator.hpp,
    hiero_product_generator.hpp): positions in a tuple of sequences,
    [all_not_at_end], [apply_at], [init] and the heap of scored positions; and
    the theory of a best-first frontier of positions, which each of the three
    generators maintains in its own way.

    A tuple of sequences is a list of lists; the value types of the sequences
    are one type [A].  A [boost::array<int,N>] of indices is a list of [nat]:
    the indices stay below the lengths of the sequences. *)
From S2P Require Import Prelude Generator.

Abbreviation position := (list nat).

(** [pos[x]++] and [pos[x]--] *)
Definition pos_inc (x : nat) (pos : position) : position := alter S x pos.
Definition pos_dec (x : nat) (pos : position) : position := alter pred x pos.

(** [sorter::operator()] *)
Definition sorter {B} (compare : B -> B -> bool) (t1 t2 : B * position) : bool :=
  compare t1.1 t2.1.

#[export] Instance sorter_sw {B} (compare : B -> B -> bool) `{!StrictWeak compare} :
  StrictWeak (sorter compare).
Proof. exact (sw_pullback compare fst). Qed.

Section product.
Context {A B : Type} (product : list A -> B) (sequences : list (list A)).

(** [not_at_end] applied to every index: [begin + pos != end]. *)
Fixpoint not_at_ends (ss : list (list A)) (pos : position) (res : bool) : bool :=
  match ss, pos with
  | s :: ss, p :: pos => not_at_ends ss pos (if res then negb (p =? length s)%nat else res)
  | _, _ => res
  end.

Definition all_not_at_end (pos : position) : bool := not_at_ends sequences pos true.

(** [apply_at]: the product of the sequences' elements at a position; indexing
    past the end of a sequence is undefined. *)
Fixpoint args_at (ss : list (list A)) (pos : position) : option (list A) :=
  match ss, pos with
  | [], [] => Some []
  | s :: ss, p :: pos => a ← s !! p; cons a <$> args_at ss pos
  | _, _ => None
  end.

Definition apply_at (pos : position) : option B := product <$> args_at sequences pos.

(** [pos.assign(0)] *)
Definition origin : position := replicate (length sequences) 0%nat.

Section heap.
Context (compare : B -> B -> bool) {Q : Type} `{!PriorityQueue (sorter compare) Q}.

(** [heap.push(boost::make_tuple(apply_at_(pos),pos))] *)
Definition push_at (pos : position) (heap : Q) : option Q :=
  r ← apply_at pos; Some (pq_push (r, pos) heap).

(** [init] *)
Definition product_init : option Q :=
  if all_not_at_end origin then push_at origin pq_new else Some pq_new.
End heap.
End product.

(** * Positions *)

(** All tuples of one element of each list. *)
Fixpoint tuples {A} (ss : list (list A)) : list (list A) :=
  match ss with
  | [] => [[]]
  | s :: ss => s ≫= fun a => cons a <$> tuples ss
  end.

Definition positions {A} (ss : list (list A)) : list position :=
  tuples ((fun s => seq 0 (length s)) <$> ss).

Definition in_box {A} (ss : list (list A)) (pos : position) : Prop :=
  Forall2 (fun p s => (p < length s)%nat) pos ss.

#[export] Instance in_box_dec {A} (ss : list (list A)) pos : Decision (in_box ss pos).
Proof. unfold in_box. apply _. Defined.

Lemma elem_of_tuples {A} (ss : list (list A)) t : t ∈ tuples ss <-> Forall2 (fun a s => a ∈ s) t ss.
Proof.
  revert t. induction ss as [|s ss IH]; intros t; simpl.
  - rewrite list_elem_of_singleton. split; [by intros ->|by inversion 1].
  - rewrite list_elem_of_bind. setoid_rewrite list_elem_of_fmap. setoid_rewrite IH. split.
    + intros (a&(t'&->&Ht')&Ha). by constructor.
    + intros (a&t'&Ha&Ht'&->)%Forall2_cons_inv_r. eauto.
Qed.

Lemma tuples_NoDup {A} (ss : list (list A)) : Forall NoDup ss -> NoDup (tuples ss).
Proof.
  induction 1 as [|s ss Hs Hss IH]; simpl; [repeat constructor; set_solver|].
  apply NoDup_bind; [|intros a _; by apply NoDup_fmap_2; [intros ?? [=]|]|done].
  intros a b t _ _ (t1&->&_)%list_elem_of_fmap (t2&[= -> _]&_)%list_elem_of_fmap. done.
Qed.

Lemma elem_of_positions {A} (ss : list (list A)) pos : pos ∈ positions ss <-> in_box ss pos.
Proof.
  unfold positions, in_box. rewrite elem_of_tuples, Forall2_fmap_r.
  split; intros H; (eapply Forall2_impl; [exact H|]); intros p s; simpl; rewrite elem_of_seq; lia.
Qed.

Lemma positions_NoDup {A} (ss : list (list A)) : NoDup (positions ss).
Proof. apply tuples_NoDup, Forall_fmap, Forall_true. intros s. apply NoDup_seq. Qed.

Lemma lookup_pos_inc x y pos :
  pos_inc x pos !! y = (if decide (x = y) then S <$> pos !! y else pos !! y).
Proof.
  unfold pos_inc. case_decide as E; [subst; apply list_lookup_alter_eq|by apply list_lookup_alter_ne].
Qed.

Lemma lookup_pos_dec x y pos :
  pos_dec x pos !! y = (if decide (x = y) then pred <$> pos !! y else pos !! y).
Proof.
  unfold pos_dec. case_decide as E; [subst; apply list_lookup_alter_eq|by apply list_lookup_alter_ne].
Qed.

Lemma pos_dec_inc x pos : pos_dec x (pos_inc x pos) = pos.
Proof.
  apply list_eq. intros i. rewrite lookup_pos_dec, !lookup_pos_inc. case_decide; [|done].
  by destruct (pos !! i).
Qed.

Lemma pos_inc_dec x pos :
  (forall p, pos !! x = Some p -> p <> 0%nat) -> pos_inc x (pos_dec x pos) = pos.
Proof.
  intros H. apply list_eq. intros i. rewrite lookup_pos_inc, !lookup_pos_dec.
  case_decide; [subst|done]. destruct (pos !! i) as [p|]; [|done].
  specialize (H p eq_refl). simpl. f_equal. lia.
Qed.

Lemma pos_inc_length x pos : length (pos_inc x pos) = length pos.
Proof. apply length_alter. Qed.

Lemma in_box_length {A} (ss : list (list A)) pos : in_box ss pos -> length pos = length ss.
Proof. apply Forall2_length. Qed.

Lemma in_box_dec_pos {A} (ss : list (list A)) x pos : in_box ss (pos_inc x pos) -> in_box ss pos.
Proof.
  unfold in_box. rewrite !Forall2_lookup. intros H i. specialize (H i).
  rewrite lookup_pos_inc in H. case_decide as E; [subst|done].
  destruct (pos !! i); simpl in H; inversion H; subst; constructor; lia.
Qed.

(** Next to a position in the box, not being at the end is being in the box. *)
Lemma not_at_ends_true (A : Type) (ss : list (list A)) pos res :
  Forall2 (fun p s => (p <= length s)%nat) pos ss ->
  not_at_ends ss pos res = res && bool_decide (in_box ss pos).
Proof.
  intros H. revert res. induction H as [|p s pos ss Hp H IH]; intros res; simpl.
  - by destruct res.
  - rewrite IH. destruct res; simpl; [|done].
    destruct (Nat.eqb_spec p (length s)) as [->|Hne]; simpl; symmetry.
    + apply bool_decide_eq_false. inversion 1. lia.
    + apply bool_decide_ext. split; intros Hb; [by inversion Hb|]. constructor; [lia|done].
Qed.

Lemma all_not_at_end_inc {A} (ss : list (list A)) x pos :
  in_box ss pos -> all_not_at_end ss (pos_inc x pos) = bool_decide (in_box ss (pos_inc x pos)).
Proof.
  intros H. unfold all_not_at_end. rewrite not_at_ends_true; [done|].
  unfold in_box in H. rewrite Forall2_lookup in *. intros i. specialize (H i).
  rewrite lookup_pos_inc. case_decide as E; [subst|]; destruct H; simpl; constructor; lia.
Qed.

Lemma all_not_at_end_origin {A} (ss : list (list A)) :
  all_not_at_end ss (origin ss) = bool_decide (in_box ss (origin ss)).
Proof.
  unfold all_not_at_end. rewrite not_at_ends_true; [done|]. unfold origin.
  induction ss; constructor; (done || lia).
Qed.

Lemma lookup_origin {A} (ss : list (list A)) x p : origin ss !! x = Some p -> p = 0%nat.
Proof. unfold origin. by intros [-> _]%lookup_replicate. Qed.

(** The first index that is not zero. *)
Lemma first_nonzero {A} (ss : list (list A)) pos :
  length pos = length ss -> pos = origin ss \/
  exists x p, pos !! x = Some p /\ p <> 0%nat /\ (forall y q, (y < x)%nat -> pos !! y = Some q -> q = 0%nat).
Proof.
  intros Hl. unfold origin. rewrite <- Hl. clear Hl ss.
  induction pos as [|p pos IH]; [by left|]. destruct (decide (p = 0%nat)) as [->|Hp].
  - destruct IH as [->|(x&p&Hx&Hp&Hf)].
    + left. simpl. by rewrite length_replicate.
    + right. exists (S x), p. split_and!; [done|done|].
      intros [|y] q Hy Hq; simplify_eq/=; [done|]. apply (Hf y); [lia|done].
  - right. exists 0%nat, p. split_and!; [done|done|lia].
Qed.

(** * Values *)

Lemma args_at_total {A} (ss : list (list A)) pos : in_box ss pos -> exists l, args_at ss pos = Some l.
Proof.
  induction 1 as [|p s pos ss Hp H [l IH]]; [by exists []|]. simpl.
  destruct (lookup_lt_is_Some_2 s p Hp) as [a Ha]. rewrite Ha. simpl. rewrite IH. by exists (a :: l).
Qed.

Lemma args_at_inc {A} (ss : list (list A)) pos x l l' s p :
  args_at ss pos = Some l -> args_at ss (pos_inc x pos) = Some l' ->
  ss !! x = Some s -> pos !! x = Some p ->
  exists l1 a b l2, l = l1 ++ a :: l2 /\ l' = l1 ++ b :: l2 /\ length l1 = x /\
    s !! p = Some a /\ s !! S p = Some b.
Proof.
  revert pos x l l'. induction ss as [|s0 ss IH]; intros [|p0 pos] x l l'; try done.
  destruct x as [|x]; simpl; intros Hl Hl' Hs Hp; simplify_eq.
  - destruct (s !! p) as [a|] eqn:Ea, (s !! S p) as [b|] eqn:Eb; simplify_eq/=.
    destruct (args_at ss pos) as [l2|]; simplify_eq/=. by exists [], a, b, l2.
  - destruct (s0 !! p0) as [a0|]; simplify_eq/=.
    destruct (args_at ss pos) as [k|] eqn:Ek; simplify_eq/=.
    destruct (args_at ss (pos_inc x pos)) as [k'|] eqn:Ek'; simplify_eq/=.
    destruct (IH pos x k k' Ek Ek' Hs Hp) as (l1&a&b&l2&->&->&<-&Ha&Hb).
    by exists (a0 :: l1), a, b, l2.
Qed.

Lemma args_at_row {A} (ss : list (list A)) P T pre s :
  Forall2 (fun pos t => args_at ss pos = Some t) P T ->
  Forall2 (fun pos t => args_at ((pre ++ s) :: ss) pos = Some t)
    (seq (length pre) (length s) ≫= fun a => cons a <$> P) (s ≫= fun a => cons a <$> T).
Proof.
  intros H. revert pre. induction s as [|a s IH]; intros pre; csimpl; [constructor|].
  apply Forall2_app.
  - apply Forall2_fmap. eapply Forall2_impl; [exact H|]. intros pos t Ht. simpl.
    rewrite lookup_app_r by lia. rewrite Nat.sub_diag. simpl. by rewrite Ht.
  - specialize (IH (pre ++ [a])). rewrite <- app_assoc, length_app in IH. simpl in IH.
    by rewrite Nat.add_1_r in IH.
Qed.

Lemma mapM_args_at {A} (ss : list (list A)) : mapM (args_at ss) (positions ss) = Some (tuples ss).
Proof.
  apply mapM_Some. unfold positions. induction ss as [|s ss IH]; [by repeat constructor|].
  exact (args_at_row ss _ _ [] s IH).
Qed.

Lemma mapM_apply_at {A B} (product : list A -> B) (ss : list (list A)) :
  mapM (apply_at product ss) (positions ss) = Some (product <$> tuples ss).
Proof.
  apply mapM_Some, Forall2_fmap_r. pose proof (mapM_args_at ss) as H%mapM_Some.
  eapply Forall2_impl; [exact H|]. intros pos t Ht. unfold apply_at. by rewrite Ht.
Qed.

(** A product that is monotone in each argument, with each sequence in the
    order of its argument, does not improve along a position increment. *)
Definition product_monotone {A B} (product : list A -> B) (R : nat -> relation A)
    (compare : B -> B -> bool) : Prop :=
  forall l1 a b l2, R (length l1) a b ->
    noworse compare (product (l1 ++ a :: l2)) (product (l1 ++ b :: l2)).

Definition sequences_sorted {A} (R : nat -> relation A) (ss : list (list A)) : Prop :=
  forall x s, ss !! x = Some s -> StronglySorted (R x) s.

(** * The frontier *)

Section frontier.
Context {A B : Type} (product : list A -> B) (sequences : list (list A)).
Context (compare : B -> B -> bool) {Q : Type} `{!PriorityQueue (sorter compare) Q}.
Context `{!PriorityQueueLaws (sorter compare) Q}.

(** The positions in the heap, each with its value. *)
Definition waiting (heap : Q) : list position := snd <$> pq_elems heap.

Definition valued (heap : Q) : Prop :=
  Forall (fun e => apply_at product sequences e.2 = Some e.1) (pq_elems heap).

(** After popping [P]: no position is popped twice, and every other position
    is waiting or has a predecessor that is not popped. *)
Record frontier (P : list position) (heap : Q) : Prop := {
  fr_valued : valued heap;
  fr_nodup : NoDup (P ++ waiting heap);
  fr_box : Forall (in_box sequences) (P ++ waiting heap);
  fr_cover : forall q, in_box sequences q -> q ∉ P -> q ∉ waiting heap ->
    exists x p, (x < length p)%nat /\ q = pos_inc x p /\ p ∉ P
}.

Lemma push_at_spec pos heap :
  in_box sequences pos ->
  exists heap', push_at product sequences compare pos heap = Some heap' /\
    waiting heap' ≡ₚ pos :: waiting heap /\ (valued heap -> valued heap').
Proof.
  intros H. unfold push_at, apply_at. destruct (args_at_total _ _ H) as [l Hl]. rewrite Hl. simpl.
  eexists. split; [done|]. unfold waiting, valued. split.
  - by rewrite pq_elems_push.
  - rewrite pq_elems_push. intros ?. constructor; [|done]. simpl. unfold apply_at. by rewrite Hl.
Qed.

Lemma pop_spec heap r p :
  pq_top heap = Some (r, p) ->
  waiting heap ≡ₚ p :: waiting (pq_pop heap) /\
  (valued heap -> valued (pq_pop heap) /\ apply_at product sequences p = Some r).
Proof.
  intros H. pose proof (pq_elems_pop _ _ H) as Hp. unfold waiting, valued. split.
  - by rewrite Hp.
  - rewrite Hp. by intros [? ?]%Forall_cons.
Qed.

Lemma product_init_spec :
  exists heap, product_init product sequences compare = Some heap /\ valued heap /\
    waiting heap ≡ₚ if decide (in_box sequences (origin sequences)) then [origin sequences] else [].
Proof.
  assert (valued pq_new) by (unfold valued; rewrite pq_elems_new; constructor).
  assert (waiting pq_new = []) as Hnew by (unfold waiting; by rewrite pq_elems_new).
  unfold product_init. rewrite all_not_at_end_origin. case_decide as E.
  - rewrite bool_decide_true by done. destruct (push_at_spec _ pq_new E) as (heap&?&Hw&?).
    exists heap. rewrite Hw, Hnew. auto.
  - rewrite bool_decide_false by done. exists pq_new. by rewrite Hnew.
Qed.

(** Increments inside the box. *)
Definition step (p q : position) : Prop :=
  in_box sequences q /\ exists x, (x < length p)%nat /\ q = pos_inc x p.

Lemma sum_list_inc x p : (x < length p)%nat -> sum_list (pos_inc x p) = S (sum_list p).
Proof.
  revert x. induction p as [|i p IH]; intros [|x] Hx; simpl in *; try lia.
  change (alter S x p) with (pos_inc x p). rewrite IH by lia. lia.
Qed.

Lemma frontier_dominates P heap q :
  frontier P heap -> in_box sequences q -> q ∉ P ->
  exists h, h ∈ waiting heap /\ rtc step h q.
Proof.
  intros HF. remember (sum_list q) as n eqn:Hn. revert q Hn.
  induction n as [|n IH]; intros q Hn Hq HP;
    (destruct (decide (q ∈ waiting heap)) as [Hw|Hw]; [by exists q|]);
    destruct (fr_cover _ _ HF q Hq HP Hw) as (x&p&Hx&->&Hp); rewrite sum_list_inc in Hn by done.
  - lia.
  - destruct (IH p) as (h&Hh&Hr); [lia|by eapply in_box_dec_pos|done|].
    exists h. split; [done|]. eapply rtc_r; [exact Hr|]. split; eauto.
Qed.

Lemma step_value R p q a b :
  product_monotone product R compare -> sequences_sorted R sequences -> step p q ->
  apply_at product sequences p = Some a -> apply_at product sequences q = Some b ->
  noworse compare a b.
Proof.
  intros Hm Hs [Hq (x&Hx&->)]. unfold apply_at. intros Ha Hb.
  destruct (args_at sequences p) as [l|] eqn:El; simplify_eq/=.
  destruct (args_at sequences (pos_inc x p)) as [l'|] eqn:El'; simplify_eq/=.
  pose proof (in_box_length _ _ Hq) as Hlen. rewrite pos_inc_length in Hlen.
  destruct (lookup_lt_is_Some_2 p x Hx) as [i Hi].
  destruct (lookup_lt_is_Some_2 sequences x) as [s Hseq]; [lia|].
  destruct (args_at_inc _ _ _ _ _ _ _ El El' Hseq Hi) as (l1&c&d&l2&->&->&Hl1&Hc&Hd).
  apply Hm. rewrite Hl1. eapply (StronglySorted_lookup_lt _ s i (S i)); eauto.
Qed.

Lemma steps_value `{!StrictWeak compare} R p q a b :
  product_monotone product R compare -> sequences_sorted R sequences -> rtc step p q ->
  apply_at product sequences p = Some a -> apply_at product sequences q = Some b ->
  noworse compare a b.
Proof.
  intros Hm Hs Hr. revert a b. induction Hr as [p|p q r Hpq Hr IH]; intros a b Ha Hb.
  { simplify_eq. reflexivity. }
  pose proof Hpq as [Hq _]. destruct (args_at_total _ _ Hq) as [l Hl].
  assert (apply_at product sequences q = Some (product l)) as Hc by (unfold apply_at; by rewrite Hl).
  etrans; [by eapply step_value|by apply IH].
Qed.

(** The best waiting value is no worse than any value not yet popped. *)
Lemma frontier_best `{!StrictWeak compare} R P heap r p q b :
  product_monotone product R compare -> sequences_sorted R sequences ->
  frontier P heap -> pq_top heap = Some (r, p) -> in_box sequences q -> q ∉ P ->
  apply_at product sequences q = Some b -> noworse compare r b.
Proof.
  intros Hm Hs HF Htop Hq HP Hb. destruct (frontier_dominates P heap q HF Hq HP) as (h&Hh&Hr).
  apply list_elem_of_fmap in Hh as ([c h']&->&Hh).
  pose proof (pq_top_best _ _ _ Htop Hh) as Hbest. unfold noworse, sorter in Hbest. simpl in Hbest.
  pose proof (fr_valued _ _ HF) as Hv. unfold valued in Hv. rewrite Forall_forall in Hv.
  specialize (Hv _ Hh). simpl in Hv. etrans; [exact Hbest|by eapply steps_value].
Qed.

Lemma frontier_popped P heap : frontier P heap -> P ⊆+ positions sequences.
Proof.
  intros [_ Hnd Hb _]. apply NoDup_app in Hnd as [Hnd _]. apply Forall_app in Hb as [Hb _].
  rewrite Forall_forall in Hb. apply NoDup_submseteq; [done|].
  intros q Hq%Hb. by apply elem_of_positions.
Qed.

Lemma frontier_end P heap : frontier P heap -> pq_top heap = None -> P ≡ₚ positions sequences.
Proof.
  intros HF Htop. apply pq_top_none in Htop.
  pose proof HF as [_ Hnd Hb _]. apply NoDup_app in Hnd as [Hnd _]. apply Forall_app in Hb as [Hb _].
  rewrite Forall_forall in Hb.
  apply NoDup_Permutation; [done|apply positions_NoDup|]. intros q.
  rewrite elem_of_positions. split; [apply Hb|]. intros Hq. destruct (decide (q ∈ P)) as [|HP]; [done|].
  destruct (frontier_dominates P heap q HF Hq HP) as (h&Hh&_).
  unfold waiting in Hh. rewrite Htop in Hh. by apply not_elem_of_nil in Hh.
Qed.

(** A generator whose states keep a frontier yields the value of every
    position once, best first when the product is monotone. *)
Lemma frontier_yields {St} `{!Generator St B} (heap_of : St -> Q)
    (inv : St -> list position -> Prop) :
  (forall st, gmore st = negb (pq_empty (heap_of st))) ->
  (forall st, gpeek st = fst <$> pq_top (heap_of st)) ->
  (forall st P, inv st P -> frontier P (heap_of st)) ->
  (forall st P r p, inv st P -> pq_top (heap_of st) = Some (r, p) ->
     exists st', gpop st = Some st' /\ inv st' (p :: P)) ->
  forall n st P, inv st P -> (length (positions sequences) <= n + length P)%nat ->
  exists Qs l, yields st l /\ mapM (apply_at product sequences) Qs = Some l /\
    Qs ++ P ≡ₚ positions sequences /\
    (forall R, StrictWeak compare -> product_monotone product R compare ->
     sequences_sorted R sequences -> descending compare l).
Proof.
  intros Hmore Hpeek Hfr Hpop. induction n as [|n IH]; intros st P Hinv Hn;
    pose proof (Hfr _ _ Hinv) as HF;
    (destruct (pq_top (heap_of st)) as [[r p]|] eqn:Htop;
     [destruct (Hpop _ _ _ _ Hinv Htop) as (st'&Hst'&Hinv')
     |exists [], []; split_and!; [constructor; rewrite Hmore; unfold pq_empty; by rewrite Htop|done
        |by eapply frontier_end|constructor]]).
  { pose proof (submseteq_length _ _ (frontier_popped _ _ (Hfr _ _ Hinv'))). simpl in *. lia. }
  destruct (IH st' (p :: P) Hinv' ltac:(simpl; lia)) as (Qs&l&Hy&HQs&Hperm&Hd).
  destruct (pop_spec _ _ _ Htop) as [_ Hv]. destruct (Hv (fr_valued _ _ HF)) as [_ Hr].
  exists (p :: Qs), (r :: l). split_and!.
  - econstructor; [|by rewrite Hpeek, Htop|exact Hst'|exact Hy].
    rewrite Hmore. unfold pq_empty. by rewrite Htop.
  - simpl. rewrite Hr. simpl. by rewrite HQs.
  - rewrite <- Hperm. simpl. apply Permutation_middle.
  - intros R Hsw Hm Hs. constructor; [by eapply Hd|].
    apply Forall_forall. intros b Hb. apply mapM_Some in HQs.
    apply list_elem_of_lookup in Hb as [i Hi].
    destruct (Forall2_lookup_r _ _ _ _ _ HQs Hi) as (q&Hq%list_elem_of_lookup_2&Hbq).
    assert (Hnd : NoDup (Qs ++ p :: P)) by (rewrite Hperm; apply positions_NoDup).
    apply NoDup_app in Hnd as (_&Hdisj&_).
    eapply (frontier_best R P _ r p q); try done.
    + apply elem_of_positions. rewrite <- Hperm. set_solver.
    + intros HP. apply (Hdisj q Hq). by right.
Qed.

(** From the initial heap: the values of all tuples. *)
Lemma frontier_yields_all {St} `{!Generator St B} (heap_of : St -> Q)
    (inv : St -> list position -> Prop) :
  (forall st, gmore st = negb (pq_empty (heap_of st))) ->
  (forall st, gpeek st = fst <$> pq_top (heap_of st)) ->
  (forall st P, inv st P -> frontier P (heap_of st)) ->
  (forall st P r p, inv st P -> pq_top (heap_of st) = Some (r, p) ->
     exists st', gpop st = Some st' /\ inv st' (p :: P)) ->
  forall st, inv st [] ->
  exists l, yields st l /\ l ≡ₚ product <$> tuples sequences /\
    (forall R, StrictWeak compare -> product_monotone product R compare ->
     sequences_sorted R sequences -> descending compare l).
Proof.
  intros Hmore Hpeek Hfr Hpop st Hinv.
  destruct (frontier_yields heap_of inv Hmore Hpeek Hfr Hpop (length (positions sequences)) st [] Hinv)
    as (Qs&l&Hy&HQs&Hperm&Hd); [lia|].
  exists l. split_and!; [done| |done]. rewrite app_nil_r in Hperm.
  apply mapM_Some in HQs. destruct (Permutation_Forall2 Hperm HQs) as (l'&Hl&HQs').
  pose proof (mapM_apply_at product sequences) as Hall%mapM_Some.
  rewrite Hl. apply reflexive_eq. clear -Hall HQs'. revert l' HQs'.
  induction Hall as [|q b qs bs Hb Hall IH]; intros l' H; inversion H; subst; [done|].
  f_equal; [congruence|auto].
Qed.
End frontier.

(** * Increments and predecessors *)

(** The increments of [p] at the [n] indices from [x] on. *)
Definition increments (n x : nat) (p : position) : list position :=
  (fun y => pos_inc y p) <$> seq x n.

(** The positions that [q] is an increment of. *)
Definition preds (q : position) : list position :=
  (fun x => pos_dec x q) <$> filter (fun x => q !! x <> Some 0%nat) (seq 0 (length q)).

Lemma elem_of_increments n x p q :
  q ∈ increments n x p <-> exists y, (x <= y < x + n)%nat /\ q = pos_inc y p.
Proof.
  unfold increments. rewrite list_elem_of_fmap. setoid_rewrite elem_of_seq. naive_solver.
Qed.

Lemma increments_cons n x p : increments (S n) x p = pos_inc x p :: increments n (S x) p.
Proof. done. Qed.

Lemma pos_inc_inj x y p : (x < length p)%nat -> pos_inc x p = pos_inc y p -> x = y.
Proof.
  intros Hx H. destruct (decide (x = y)) as [|Hne]; [done|].
  destruct (lookup_lt_is_Some_2 p x Hx) as [i Hi].
  apply (f_equal (lookup x)) in H. rewrite !lookup_pos_inc, Hi in H.
  rewrite decide_True, decide_False in H by done. simplify_eq/=. lia.
Qed.

Lemma not_in_increments n x p :
  (x < length p)%nat -> pos_inc x p ∉ increments n (S x) p.
Proof. intros Hx [y [Hy He]]%elem_of_increments. apply pos_inc_inj in He; [lia|done]. Qed.

Lemma increments_NoDup n x p : (x + n <= length p)%nat -> NoDup (increments n x p).
Proof.
  revert x. induction n as [|n IH]; intros x Hn; [constructor|]. rewrite increments_cons.
  constructor; [apply not_in_increments; lia|]. apply IH. lia.
Qed.

Lemma elem_of_preds p q :
  p ∈ preds q <-> exists x, (x < length p)%nat /\ q = pos_inc x p.
Proof.
  unfold preds. rewrite list_elem_of_fmap. setoid_rewrite list_elem_of_filter.
  setoid_rewrite elem_of_seq. split.
  - intros (x&->&Hne&Hx). exists x. unfold pos_dec at 1. rewrite length_alter.
    split; [lia|]. symmetry. apply pos_inc_dec. intros i Hi ->. done.
  - intros (x&Hx&->). exists x. rewrite pos_dec_inc, lookup_pos_inc, decide_True, pos_inc_length by done.
    split_and!; [done| |lia|lia]. by destruct (p !! x).
Qed.

Lemma elem_of_preds_increments p q : p ∈ preds q <-> q ∈ increments (length p) 0 p.
Proof.
  rewrite elem_of_preds, elem_of_increments. split; intros (x&?&?); exists x; split; (done || lia).
Qed.

Lemma preds_NoDup q : NoDup (preds q).
Proof.
  unfold preds. apply NoDup_fmap_2_strong; [|apply NoDup_filter, NoDup_seq].
  intros x y [Hx Hx']%list_elem_of_filter [Hy _]%list_elem_of_filter H.
  destruct (decide (x = y)) as [|Hne]; [done|].
  apply elem_of_seq in Hx'. destruct (lookup_lt_is_Some_2 q x) as [i Hi]; [lia|].
  apply (f_equal (lookup x)) in H. rewrite !lookup_pos_dec, Hi in H.
  rewrite decide_True, decide_False in H by done. simplify_eq/=. destruct i; [done|]. simpl in H. lia.
Qed.

Lemma preds_origin {A} (ss : list (list A)) q : length q = length ss -> preds q = [] <-> q = origin ss.
Proof.
  intros Hl. split.
  - intros H. destruct (first_nonzero ss q Hl) as [|(x&i&Hi&Hne&_)]; [done|].
    exfalso. apply (not_elem_of_nil (pos_dec x q)). rewrite <- H. apply elem_of_preds.
    exists x. unfold pos_dec at 1. rewrite length_alter. split; [by eapply lookup_lt_Some|].
    symmetry. apply pos_inc_dec. congruence.
  - intros ->. destruct (preds (origin ss)) as [|p l] eqn:E; [done|].
    assert (Hp : p ∈ preds (origin ss)) by (rewrite E; left).
    apply elem_of_preds in Hp as (x&Hx&Ho). destruct (lookup_lt_is_Some_2 p x Hx) as [i Hi].
    apply (f_equal (lookup x)) in Ho. rewrite lookup_pos_inc, decide_True, Hi in Ho by done.
    by apply lookup_origin in Ho.
Qed.

(** The waiting positions, one popped position later. *)
Lemma waiting_pop {B} (compare : B -> B -> bool) {Q} `{!PriorityQueue (sorter compare) Q}
    (P new : list position) (p : position) (heap popped heap' : Q) :
  waiting compare heap ≡ₚ p :: waiting compare popped ->
  waiting compare heap' ≡ₚ new ++ waiting compare popped ->
  (p :: P) ++ waiting compare heap' ≡ₚ new ++ (P ++ waiting compare heap).
Proof.
  intros Hw Hw'. rewrite Hw', Hw. simpl. rewrite (Permutation_app_swap_app P new).
  by rewrite Permutation_middle, <- (Permutation_middle P).
Qed.
