(* ===== verification/ProductHeap.v ===== *)
(** [product_heap_generator] of
    src/gusc/gusc/generator/product_heap_generator.hpp: the tuples of several
    sequences in the order of a product of their elements.

    A popped position pushes its increments up to and including its first
    index that is not zero, so that every position has exactly one parent. *)
From S2P Require Import Prelude Generator ProductFrontier.

Section product_heap.
Context {A B : Type} (product : list A -> B) (sequences : list (list A)).
Context (compare : B -> B -> bool) {Q : Type} `{!PriorityQueue (sorter compare) Q}.

(** [impl_]; the product and the sequences do not change. *)
Record product_heap_generator := { ph_heap : Q }.

Definition generate_product_heap : option product_heap_generator :=
  heap ← product_init product sequences compare; Some {| ph_heap := heap |}.

(** The loop of [increment] from index [x] on, [n] indices left; [None] only
    where [apply_at_] would be undefined. *)
Fixpoint ph_loop (n x : nat) (pos : position) (heap : Q) : option Q :=
  match n with
  | O => Some heap
  | S n =>
      let pos := pos_inc x pos in
      heap ← (if all_not_at_end sequences pos then push_at product sequences compare pos heap
              else Some heap);
      let pos := pos_dec x pos in
      if match pos !! x with Some i => negb (i =? 0)%nat | None => false end
      then Some heap
      else ph_loop n (S x) pos heap
  end.

Definition ph_increment (g : product_heap_generator) : option product_heap_generator :=
  top ← pq_top (ph_heap g);
  let pos := top.2 in
  heap ← ph_loop (length pos) 0 pos (pq_pop (ph_heap g));
  Some {| ph_heap := heap |}.

Definition ph_dereference (g : product_heap_generator) : option B := fst <$> pq_top (ph_heap g).

Definition ph_more (g : product_heap_generator) : bool := negb (pq_empty (ph_heap g)).

#[export] Instance product_heap : Generator product_heap_generator B := {|
  gmore := ph_more; gpeek := ph_dereference; gpop := ph_increment
|}.
End product_heap.

Arguments product_heap_generator Q : clear implicits.

(** * Lemmas *)

(** [p] is zero before index [x]. *)
Definition zero_before (x : nat) (p : position) : Prop :=
  forall y i, (y < x)%nat -> p !! y = Some i -> i = 0%nat.

(** [q] is pushed when [p] is popped. *)
Definition child (p q : position) : Prop :=
  exists x, (x < length p)%nat /\ q = pos_inc x p /\ zero_before x p.

Lemma child_unique p1 p2 q : child p1 q -> child p2 q -> p1 = p2.
Proof.
  intros (x&Hx&->&Hz1) (y&Hy&Heq&Hz2).
  assert (Hlen : length p1 = length p2) by (apply (f_equal length) in Heq; by rewrite !pos_inc_length in Heq).
  assert (x = y) as ->.
  { destruct (Nat.lt_trichotomy x y) as [Hlt|[?|Hlt]]; [exfalso|done|exfalso].
    - destruct (lookup_lt_is_Some_2 p1 x Hx) as [i Hi].
      destruct (lookup_lt_is_Some_2 p2 x) as [j Hj]; [lia|].
      apply (f_equal (lookup x)) in Heq. rewrite !lookup_pos_inc, Hi, Hj in Heq.
      rewrite decide_True, decide_False in Heq by (done || lia).
      specialize (Hz2 x j Hlt Hj). simplify_eq/=.
    - destruct (lookup_lt_is_Some_2 p1 y) as [i Hi]; [lia|].
      destruct (lookup_lt_is_Some_2 p2 y Hy) as [j Hj].
      apply (f_equal (lookup y)) in Heq. rewrite !lookup_pos_inc, Hi, Hj in Heq.
      rewrite decide_False, decide_True in Heq by (done || lia).
      specialize (Hz1 y i Hlt Hi). simplify_eq/=. }
  by rewrite <- (pos_dec_inc y p1), Heq, pos_dec_inc.
Qed.

Section lemmas.
Context {A B : Type} (product : list A -> B) (sequences : list (list A)).
Context (compare : B -> B -> bool) {Q : Type} `{!PriorityQueue (sorter compare) Q}.
Context `{!PriorityQueueLaws (sorter compare) Q}.

(** The positions the loop pushes from index [x] on. *)
Fixpoint pushed (n x : nat) (p : position) : list position :=
  match n with
  | O => []
  | S n =>
      (if decide (in_box sequences (pos_inc x p)) then [pos_inc x p] else [])
      ++ match p !! x with
         | Some (S _) => []
         | _ => pushed n (S x) p
         end
  end.

Lemma ph_loop_spec n x p heap :
  in_box sequences p ->
  exists heap', ph_loop product sequences compare n x p heap = Some heap' /\
    waiting compare heap' ≡ₚ pushed n x p ++ waiting compare heap /\
    (valued product sequences compare heap -> valued product sequences compare heap').
Proof.
  intros Hp. revert x heap. induction n as [|n IH]; intros x heap; [by exists heap|].
  cbn [ph_loop pushed]. rewrite pos_dec_inc, all_not_at_end_inc by done.
  assert (exists heap1, (if bool_decide (in_box sequences (pos_inc x p))
      then push_at product sequences compare (pos_inc x p) heap else Some heap) = Some heap1 /\
    waiting compare heap1 ≡ₚ (if decide (in_box sequences (pos_inc x p)) then [pos_inc x p] else [])
      ++ waiting compare heap /\
    (valued product sequences compare heap -> valued product sequences compare heap1))
    as (heap1&->&Hw1&Hv1).
  { case_decide as E; [rewrite bool_decide_true by done|rewrite bool_decide_false by done; by exists heap].
    by apply push_at_spec. }
  cbn [mbind option_bind]. destruct (IH (S x) heap1) as (heap2&Hs2&Hw2&Hv2).
  destruct (p !! x) as [[|i]|] eqn:Ex; cbn [Nat.eqb negb];
    [exists heap2|exists heap1|exists heap2]; (split; [done|]); split; auto;
    rewrite ?Hw2, Hw1, ?app_nil_r; [|done|]; by rewrite <- !app_assoc, Permutation_app_swap_app.
Qed.

Lemma elem_of_pushed n x p q :
  (n + x = length p)%nat -> zero_before x p ->
  (q ∈ pushed n x p <-> in_box sequences q /\
     exists y, (x <= y < length p)%nat /\ q = pos_inc y p /\ zero_before y p).
Proof.
  revert x. induction n as [|n IH]; intros x Hn Hz; cbn [pushed].
  { split; [by intros ?%not_elem_of_nil|]. intros (_&y&Hy&_). lia. }
  destruct (lookup_lt_is_Some_2 p x) as [i Hi]; [lia|].
  rewrite elem_of_app.
  assert (H1 : q ∈ (if decide (in_box sequences (pos_inc x p)) then [pos_inc x p] else []) <->
    q = pos_inc x p /\ in_box sequences q).
  { case_decide as E; [rewrite list_elem_of_singleton|rewrite elem_of_nil]; split; try done.
    - by intros ->.
    - by intros [-> _].
    - by intros [-> ?]. }
  rewrite H1. destruct i as [|i]; rewrite Hi.
  - rewrite IH; [|lia|].
    2: { intros y j Hy Hj. destruct (decide (y = x)) as [->|]; [congruence|]. apply (Hz y); [lia|done]. }
    split.
    + intros [[-> Hb]|(Hb&y&Hy&->&Hzy)]; split; try done; [exists x|exists y]; split_and!; (done || lia).
    + intros (Hb&y&Hy&->&Hzy). destruct (decide (y = x)) as [->|]; [by left|right].
      split; [done|]. exists y. split_and!; (done || lia).
  - rewrite elem_of_nil. split.
    + intros [[-> Hb]|[]]. split; [done|]. exists x. split_and!; (done || lia).
    + intros (Hb&y&Hy&->&Hzy). destruct (decide (y = x)) as [->|]; [by left|].
      specialize (Hzy x (S i) ltac:(lia) Hi). done.
Qed.

Lemma pushed_NoDup n x p : (n + x = length p)%nat -> zero_before x p -> NoDup (pushed n x p).
Proof.
  revert x. induction n as [|n IH]; intros x Hn Hz; cbn [pushed]; [constructor|].
  destruct (lookup_lt_is_Some_2 p x) as [i Hi]; [lia|]. rewrite Hi. destruct i as [|i].
  2: { rewrite app_nil_r. case_decide; repeat constructor. set_solver. }
  assert (Hz' : zero_before (S x) p).
  { intros y j Hy Hj. destruct (decide (y = x)) as [->|]; [congruence|]. apply (Hz y); [lia|done]. }
  apply NoDup_app. split_and!; [case_decide; repeat constructor; set_solver| |apply IH; [lia|done]].
  intros q Hq Hq'. apply elem_of_pushed in Hq' as (_&y&Hy&Hqy&_); [|lia|done].
  case_decide; [|by apply not_elem_of_nil in Hq]. apply list_elem_of_singleton in Hq. subst q.
  apply (f_equal (lookup x)) in Hqy. rewrite !lookup_pos_inc, Hi in Hqy.
  rewrite decide_True, decide_False in Hqy by (done || lia). done.
Qed.

(** The positions in the heap are exactly the children of popped positions. *)
Definition ph_inv (g : product_heap_generator Q) (P : list position) : Prop :=
  valued product sequences compare (ph_heap g) /\
  NoDup (P ++ waiting compare (ph_heap g)) /\
  (forall q, q ∈ P ++ waiting compare (ph_heap g) <->
     in_box sequences q /\ (q = origin sequences \/ exists p, p ∈ P /\ child p q)).

Lemma child_not_origin p q : child p q -> q <> origin sequences.
Proof.
  intros (x&Hx&->&_) H. destruct (lookup_lt_is_Some_2 p x Hx) as [i Hi].
  apply (f_equal (lookup x)) in H. rewrite lookup_pos_inc, decide_True, Hi in H by done.
  symmetry in H. by apply lookup_origin in H.
Qed.

Lemma ph_inv_frontier g P : ph_inv g P -> frontier product sequences compare P (ph_heap g).
Proof.
  intros (Hv&Hnd&Hiff). split; [done|done| |].
  - apply Forall_forall. intros q Hq. by apply Hiff in Hq as [? _].
  - intros q Hq HP HW. pose proof (in_box_length _ _ Hq) as Hlen.
    destruct (first_nonzero sequences q Hlen) as [->|(x&i&Hi&Hne&Hz)].
    { exfalso. assert (Hin : origin sequences ∈ P ++ waiting compare (ph_heap g)) by (apply Hiff; auto).
      apply elem_of_app in Hin. tauto. }
    pose proof (lookup_lt_Some _ _ _ Hi) as Hx.
    assert (Hq' : pos_inc x (pos_dec x q) = q) by (apply pos_inc_dec; congruence).
    assert (Hld : length (pos_dec x q) = length q) by apply length_alter.
    exists x, (pos_dec x q). split_and!; [lia|done|]. intros HP'.
    assert (Hin : q ∈ P ++ waiting compare (ph_heap g)).
    { apply Hiff. split; [done|]. right. exists (pos_dec x q). split; [done|].
      exists x. split_and!; [lia|done|]. intros y j Hy Hj. rewrite lookup_pos_dec in Hj.
      rewrite decide_False in Hj by lia. by eapply Hz. }
    apply elem_of_app in Hin. tauto.
Qed.

Lemma ph_inv_pop g P r p :
  ph_inv g P -> pq_top (ph_heap g) = Some (r, p) ->
  exists g', ph_increment product sequences compare g = Some g' /\ ph_inv g' (p :: P).
Proof.
  intros (Hv&Hnd&Hiff) Htop. destruct (pop_spec product sequences compare _ _ _ Htop) as [Hw Hvp].
  destruct (Hvp Hv) as [Hv' _].
  assert (Hin : p ∈ P ++ waiting compare (ph_heap g)) by (rewrite Hw; set_solver).
  pose proof (proj1 (Hiff p) Hin) as [Hb _].
  destruct (ph_loop_spec (length p) 0 p (pq_pop (ph_heap g)) Hb) as (heap'&Hs&Hw'&Hv2).
  assert (Hz0 : zero_before 0 p) by (intros ???; lia).
  exists {| ph_heap := heap' |}. unfold ph_increment. rewrite Htop. simpl. rewrite Hs. split; [done|].
  assert (Hnew : forall q, q ∈ pushed (length p) 0 p <-> in_box sequences q /\ child p q).
  { intros q. rewrite elem_of_pushed by (done || lia). unfold child. split;
      intros (?&y&Hy&?&?); split; try done; exists y; split_and!; (done || lia). }
  assert (Hperm : (p :: P) ++ waiting compare heap' ≡ₚ
    pushed (length p) 0 p ++ (P ++ waiting compare (ph_heap g))).
  { by eapply waiting_pop. }
  unfold ph_inv. cbn [ph_heap]. split_and!; [auto| |].
  - rewrite Hperm. apply NoDup_app. split_and!; [apply pushed_NoDup; (done || lia)| |done].
    intros q [Hbq Hc]%Hnew [_ [->|(p'&Hp'&Hc')]]%Hiff; [by eapply child_not_origin|].
    rewrite (child_unique _ _ _ Hc Hc') in Hw. apply NoDup_app in Hnd as (_&Hd&_).
    apply (Hd p' Hp'). rewrite Hw. left.
  - intros q. rewrite Hperm, elem_of_app, Hnew, Hiff. split.
    + intros [[? Hc]|[? [?|(p'&?&?)]]]; (split; [done|]); [right; exists p|left|right; exists p'];
        rewrite ?elem_of_cons; auto.
    + intros [Hbq [->|(p'&[->|Hp']%elem_of_cons&Hc)]]; [right|left|right]; split_and!; eauto.
Qed.
End lemmas.

(** ** Properties *)

(** C16: a product heap generator yields the product of every tuple of elements
    of its sequences exactly once and then ends; if the product is monotone in
    each argument and the sequences are sorted, the products come out best
    first.  Indices never leave the sequences on the way. *)
Theorem product_heap_enumerates {A B} (product : list A -> B) (sequences : list (list A))
    (compare : B -> B -> bool) {Q} `{!PriorityQueue (sorter compare) Q}
    `{!PriorityQueueLaws (sorter compare) Q} :
  exists g l, generate_product_heap (Q := Q) product sequences compare = Some g /\
    yields (Generator0 := product_heap product sequences compare) g l /\
    l ≡ₚ product <$> tuples sequences /\
    (forall R, StrictWeak compare -> product_monotone product R compare ->
     sequences_sorted R sequences -> descending compare l).
Proof.
  destruct (product_init_spec product sequences compare (Q := Q)) as (heap&Hinit&Hv&Hw).
  exists {| ph_heap := heap |}. unfold generate_product_heap. rewrite Hinit. simpl.
  destruct (frontier_yields_all product sequences compare
    (Generator0 := product_heap product sequences compare) ph_heap (ph_inv product sequences compare))
    with (st := {| ph_heap := heap |}) as (l&?&?&?); try done.
  - intros g P Hi. by apply ph_inv_frontier.
  - intros g P r p Hi Ht. by apply (ph_inv_pop _ _ _ g P r p).
  - unfold ph_inv. simpl. rewrite Hw. split_and!; [done|case_decide; repeat constructor; set_solver|].
    intros q. simpl. rewrite Hw. split.
    + case_decide; [|by intros ?%not_elem_of_nil]. intros ->%list_elem_of_singleton. auto.
    + intros [Hq [->|(p&Hp&_)]]; [|by apply not_elem_of_nil in Hp].
      rewrite decide_True by done. left.
  - by exists l.
Qed.

(** An instance with its loops run: two sequences, products as sums, largest
    first. *)
Lemma product_heap_enumerates_witness :
  exists g l,
    generate_product_heap (Q := sorted_queue (sorter Nat.ltb))
      sum_list [[9; 5; 1]; [7; 6]]%nat Nat.ltb = Some g /\
    yields (Generator0 := product_heap sum_list [[9; 5; 1]; [7; 6]]%nat Nat.ltb) g l /\
    drain (Generator0 := product_heap sum_list [[9; 5; 1]; [7; 6]]%nat Nat.ltb) 9 g
      = Some [16; 15; 12; 11; 8; 7]%nat.
Proof.
  assert (Hsw : StrictWeak Nat.ltb) by (split; intros; rewrite ?Nat.ltb_lt, ?Nat.ltb_ge in *; lia).
  destruct (product_heap_enumerates sum_list [[9; 5; 1]; [7; 6]]%nat Nat.ltb
    (Q := sorted_queue (sorter Nat.ltb))) as (g&l&H1&H2&_).
  exists g, l. split; [exact H1|]. split; [exact H2|].
  vm_compute in H1. injection H1 as <-. vm_compute. reflexivity.
Defined.
