(* ===== verification/BuchseProduct.v ===== *)
(** [buchse_product_generator] of
    src/gusc/gusc/generator/buchse_product_generator.hpp: the tuples of several
    sequences in the order of a product of their elements.

    Every popped position is counted at each of its increments; a position is
    pushed when all its predecessors have been counted. *)
From S2P Require Import Prelude Generator ProductFrontier.

Section buchse.
Context {A B : Type} (product : list A -> B) (sequences : list (list A)).
Context (compare : B -> B -> bool) {Q : Type} `{!PriorityQueue (sorter compare) Q}.

(** [impl_]: the heap and the map [buchse_counts]. *)
Record buchse_product_generator := mk_buchse {
  bu_heap : Q;
  buchse_counts : gmap position nat
}.

Definition generate_buchse_product : option buchse_product_generator :=
  heap ← product_init product sequences compare;
  Some {| bu_heap := heap; buchse_counts := ∅ |}.

Fixpoint num_succ (pos : position) : nat :=
  match pos with
  | [] => 0
  | i :: pos => if negb (i =? 0) then S (num_succ pos) else num_succ pos
  end.

(** The body of the loop of [increment] at an increment [pos]. *)
Definition bu_visit (pos : position) (g : buchse_product_generator)
  : option buchse_product_generator :=
  if all_not_at_end sequences pos then
    let c := match buchse_counts g !! pos with None => 1 | Some c => S c end in
    let counts := <[pos := c]> (buchse_counts g) in
    heap ← (if c =? num_succ pos then push_at product sequences compare pos (bu_heap g)
            else Some (bu_heap g));
    Some {| bu_heap := heap; buchse_counts := counts |}
  else Some g.

Fixpoint bu_loop (n x : nat) (pos : position) (g : buchse_product_generator)
  : option buchse_product_generator :=
  match n with
  | O => Some g
  | S n =>
      let pos := pos_inc x pos in
      g ← bu_visit pos g;
      let pos := pos_dec x pos in
      bu_loop n (S x) pos g
  end.

Definition bu_increment (g : buchse_product_generator) : option buchse_product_generator :=
  top ← pq_top (bu_heap g);
  let pos := top.2 in
  bu_loop (length pos) 0 pos
    {| bu_heap := pq_pop (bu_heap g); buchse_counts := buchse_counts g |}.

Definition bu_dereference (g : buchse_product_generator) : option B := fst <$> pq_top (bu_heap g).

Definition bu_more (g : buchse_product_generator) : bool := negb (pq_empty (bu_heap g)).

#[export] Instance buchse_product : Generator buchse_product_generator B := {|
  gmore := bu_more; gpeek := bu_dereference; gpop := bu_increment
|}.
End buchse.

Arguments buchse_product_generator Q : clear implicits.

(** * Lemmas *)

Lemma num_succ_preds pos : num_succ pos = length (preds pos).
Proof.
  unfold preds. rewrite length_fmap.
  enough (forall k, num_succ pos =
    length (filter (fun x => pos !! (x - k)%nat <> Some 0) (seq k (length pos)))) as H.
  { rewrite (H 0). f_equal. apply list_filter_iff. intros x. by rewrite Nat.sub_0_r. }
  induction pos as [|i pos IH]; intros k; cbn [num_succ length seq]; [done|].
  rewrite filter_cons, Nat.sub_diag, (IH (S k)).
  assert (filter (fun x => (i :: pos) !! (x - k) <> Some 0) (seq (S k) (length pos)) =
    filter (fun x => pos !! (x - S k) <> Some 0) (seq (S k) (length pos))) as ->.
  { apply list_filter_ext. intros x [Hx _]%elem_of_seq. replace (x - k) with (S (x - S k)) by lia. done. }
  destruct (Nat.eqb_spec i 0) as [->|Hne]; cbn [negb].
  - by rewrite decide_False by (intros H; by apply H).
  - rewrite decide_True; [done|]. cbn. congruence.
Qed.

Section lemmas.
Context {A B : Type} (product : list A -> B) (sequences : list (list A)).
Context (compare : B -> B -> bool) {Q : Type} `{!PriorityQueue (sorter compare) Q}.
Context `{!PriorityQueueLaws (sorter compare) Q}.

(** How many predecessors of [q] have been popped. *)
Definition popped_preds (P : list position) (q : position) : nat :=
  length (filter (fun p => p ∈ P) (preds q)).

Lemma popped_preds_cons p P q :
  p ∉ P -> popped_preds (p :: P) q =
    (if decide (p ∈ preds q) then S (popped_preds P q) else popped_preds P q).
Proof.
  intros Hp. unfold popped_preds. pose proof (preds_NoDup q) as Hnd.
  induction Hnd as [|r l Hr Hnd IH]; [done|]. rewrite !filter_cons.
  destruct (decide (p = r)) as [->|Hne].
  - rewrite decide_True by by left. rewrite (decide_False (P := r ∈ P)) by done.
    rewrite (decide_True (P := r ∈ r :: l)) by left. simpl. rewrite IH. by rewrite decide_False.
  - destruct (decide (p ∈ r :: l)) as [Hpl|Hpl], (decide (p ∈ l)) as [Hl|Hl];
      [|by apply elem_of_cons in Hpl as [?|?]|by destruct Hpl; right|];
      (destruct (decide (r ∈ P)) as [HrP|HrP];
        [rewrite decide_True by (by right); simpl; by rewrite IH
        |rewrite decide_False; [by rewrite IH|by intros [?|?]%elem_of_cons]]).
Qed.

Lemma popped_preds_all P q : popped_preds P q = num_succ q <-> forall p, p ∈ preds q -> p ∈ P.
Proof.
  rewrite num_succ_preds. unfold popped_preds. induction (preds q) as [|r l IH]; [simpl|rewrite filter_cons].
  { split; [by intros _ p ?%not_elem_of_nil|done]. }
  case_decide as E; simpl.
  - split.
    + intros [= H]. rewrite IH in H. intros p [->|?]%elem_of_cons; auto.
    + intros H. f_equal. apply IH. intros p Hp. apply H. by right.
  - split; [|intros H; exfalso; apply E, H; left].
    intros H. pose proof (length_filter (fun p => p ∈ P) l). lia.
Qed.

Lemma bu_visit_spec q (g : buchse_product_generator Q) :
  all_not_at_end sequences q = bool_decide (in_box sequences q) ->
  let c := S (default 0 (buchse_counts g !! q)) in
  exists g', bu_visit product sequences compare q g = Some g' /\
    waiting compare (bu_heap g') ≡ₚ
      (if decide (in_box sequences q /\ c = num_succ q) then [q] else []) ++ waiting compare (bu_heap g) /\
    (valued product sequences compare (bu_heap g) -> valued product sequences compare (bu_heap g')) /\
    buchse_counts g' = if decide (in_box sequences q) then <[q := c]> (buchse_counts g) else buchse_counts g.
Proof.
  intros Hend c. unfold bu_visit. rewrite Hend.
  destruct (decide (in_box sequences q)) as [Hb|Hb].
  - rewrite bool_decide_true by done.
    replace (match buchse_counts g !! q with None => 1 | Some c => S c end) with c
      by (unfold c; by destruct (buchse_counts g !! q)).
    destruct (Nat.eqb_spec c (num_succ q)) as [Hc|Hc].
    + destruct (push_at_spec product sequences compare q (bu_heap g) Hb) as (heap&->&Hw&Hv).
      eexists. split; [done|]. simpl. rewrite decide_True by done. done.
    + eexists. split; [done|]. simpl. rewrite decide_False by tauto. done.
  - rewrite bool_decide_false by done. exists g. rewrite decide_False by tauto. done.
Qed.

Lemma bu_loop_spec n x p g :
  in_box sequences p -> (n + x = length p)%nat ->
  exists g', bu_loop product sequences compare n x p g = Some g' /\
    waiting compare (bu_heap g') ≡ₚ
      filter (fun q => in_box sequences q /\ S (default 0 (buchse_counts g !! q)) = num_succ q)
        (increments n x p) ++ waiting compare (bu_heap g) /\
    (valued product sequences compare (bu_heap g) -> valued product sequences compare (bu_heap g')) /\
    (forall q, buchse_counts g' !! q =
       if decide (q ∈ increments n x p /\ in_box sequences q)
       then Some (S (default 0 (buchse_counts g !! q))) else buchse_counts g !! q).
Proof.
  intros Hp. revert x g. induction n as [|n IH]; intros x g Hn.
  { by exists g. }
  cbn [bu_loop]. rewrite pos_dec_inc.
  destruct (bu_visit_spec (pos_inc x p) g) as (g1&->&Hw1&Hv1&Hc1);
    [by apply all_not_at_end_inc|]. cbn [mbind option_bind].
  destruct (IH (S x) g1) as (g2&->&Hw2&Hv2&Hc2); [lia|].
  exists g2. assert (Hni : pos_inc x p ∉ increments n (S x) p) by (apply not_in_increments; lia).
  assert (Hsame : forall q, q <> pos_inc x p -> buchse_counts g1 !! q = buchse_counts g !! q).
  { intros q Hq. rewrite Hc1. case_decide; [|done]. by rewrite lookup_insert_ne. }
  split_and!; [done| |auto|].
  - rewrite Hw2, Hw1, increments_cons, filter_cons.
    rewrite (list_filter_ext (fun q => in_box sequences q /\
       S (default 0 (buchse_counts g1 !! q)) = num_succ q) (fun q => in_box sequences q /\
       S (default 0 (buchse_counts g !! q)) = num_succ q)).
    2: { intros q Hq. rewrite Hsame; [reflexivity|]. by intros ->. }
    clear Hw1 Hw2 Hc1 Hc2. case_decide; simpl; [|done]. by rewrite Permutation_middle.
  - intros q. rewrite Hc2, increments_cons. destruct (decide (q = pos_inc x p)) as [->|Hq].
    + rewrite decide_False by tauto. rewrite Hc1.
      destruct (decide (in_box sequences (pos_inc x p))) as [Hb|Hb].
      * rewrite lookup_insert_eq, decide_True; [done|]. split; [left|done].
      * rewrite decide_False; [done|tauto].
    + rewrite (Hsame q Hq). apply decide_ext. rewrite elem_of_cons. tauto.
Qed.

(** The positions popped or in the heap are those whose predecessors are all
    popped, and the counts are the numbers of popped predecessors. *)
Definition bu_inv (g : buchse_product_generator Q) (P : list position) : Prop :=
  valued product sequences compare (bu_heap g) /\
  NoDup (P ++ waiting compare (bu_heap g)) /\
  (forall q, q ∈ P ++ waiting compare (bu_heap g) <->
     in_box sequences q /\ forall p, p ∈ preds q -> p ∈ P) /\
  (forall q, in_box sequences q -> default 0 (buchse_counts g !! q) = popped_preds P q).

Lemma bu_inv_frontier g P : bu_inv g P -> frontier product sequences compare P (bu_heap g).
Proof.
  intros (Hv&Hnd&Hiff&_). split; [done|done| |].
  - apply Forall_forall. intros q Hq. by apply Hiff in Hq as [? _].
  - intros q Hq HP HW.
    destruct (decide (Forall (fun p => p ∈ P) (preds q))) as [Hall|Hex].
    + rewrite Forall_forall in Hall. assert (Hin : q ∈ P ++ waiting compare (bu_heap g)) by by apply Hiff.
      apply elem_of_app in Hin. tauto.
    + apply not_Forall_Exists in Hex; [|apply _]. apply Exists_exists in Hex as (p&Hp&HpP).
      apply elem_of_preds in Hp as (x&Hx&->). by exists x, p.
Qed.

Lemma bu_inv_pop g P r p :
  bu_inv g P -> pq_top (bu_heap g) = Some (r, p) ->
  exists g', bu_increment product sequences compare g = Some g' /\ bu_inv g' (p :: P).
Proof.
  intros (Hv&Hnd&Hiff&Hcnt) Htop. destruct (pop_spec product sequences compare _ _ _ Htop) as [Hw Hvp].
  destruct (Hvp Hv) as [Hv' _].
  assert (Hin : p ∈ P ++ waiting compare (bu_heap g)) by (rewrite Hw; set_solver).
  pose proof (proj1 (Hiff p) Hin) as [Hb _].
  assert (HpP : p ∉ P).
  { intros HpP. apply NoDup_app in Hnd as (_&Hd&_). apply (Hd p HpP). rewrite Hw. left. }
  destruct (bu_loop_spec (length p) 0 p {| bu_heap := pq_pop (bu_heap g);
    buchse_counts := buchse_counts g |} Hb) as (g'&Hs&Hw'&Hv2&Hc'); [lia|]. simpl in Hw', Hv2, Hc'.
  exists g'. unfold bu_increment. rewrite Htop. cbn. rewrite Hs. split; [done|].
  set (new := filter _ _) in Hw'.
  assert (Hnew : forall q, q ∈ new <-> p ∈ preds q /\ in_box sequences q /\
    (forall s, s ∈ preds q -> s ∈ p :: P)).
  { intros q. unfold new. rewrite list_elem_of_filter, elem_of_preds_increments, <- popped_preds_all.
    split.
    - intros [[Hq Hc] Hi]. split_and!; [done..|]. rewrite popped_preds_cons by done.
      rewrite decide_True by by apply elem_of_preds_increments. by rewrite <- Hcnt.
    - intros (Hi&Hq&Hc). rewrite popped_preds_cons in Hc by done.
      rewrite decide_True in Hc by by apply elem_of_preds_increments. by rewrite Hcnt. }
  pose proof (waiting_pop compare P new p _ _ _ Hw Hw') as Hperm.
  unfold bu_inv. split_and!; [auto| | |].
  - rewrite Hperm. apply NoDup_app. split_and!; [apply NoDup_filter, increments_NoDup; lia| |done].
    intros q (Hq&_)%Hnew [_ Hall]%Hiff. by apply HpP, Hall.
  - intros q. rewrite Hperm, elem_of_app, Hnew, Hiff. split.
    + intros [(?&?&?)|[? Hall]]; [done|]. split; [done|]. intros s Hs'. right. auto.
    + intros [Hq Hall]. destruct (decide (p ∈ preds q)) as [|Hnp]; [by left|right].
      split; [done|]. intros s Hs'. specialize (Hall s Hs').
      apply elem_of_cons in Hall as [->|]; done.
  - intros q Hq. rewrite Hc', popped_preds_cons, <- (Hcnt q Hq) by done.
    destruct (decide (p ∈ preds q)) as [Hi|Hi]; rewrite elem_of_preds_increments in Hi.
    + by rewrite decide_True.
    + rewrite decide_False by tauto. done.
Qed.
End lemmas.

(** ** Properties *)

(** A Buchse product generator yields the product of every tuple of
    elements of its sequences exactly once and then ends; if the product is
    monotone in each argument and the sequences are sorted, the products come
    out best first. *)
Theorem buchse_product_enumerates {A B} (product : list A -> B) (sequences : list (list A))
    (compare : B -> B -> bool) {Q} `{!PriorityQueue (sorter compare) Q}
    `{!PriorityQueueLaws (sorter compare) Q} :
  exists g l, generate_buchse_product (Q := Q) product sequences compare = Some g /\
    yields (Generator0 := buchse_product product sequences compare) g l /\
    l ≡ₚ product <$> tuples sequences /\
    (forall R, StrictWeak compare -> product_monotone product R compare ->
     sequences_sorted R sequences -> descending compare l).
Proof.
  destruct (product_init_spec product sequences compare (Q := Q)) as (heap&Hinit&Hv&Hw).
  exists {| bu_heap := heap; buchse_counts := ∅ |}. unfold generate_buchse_product. rewrite Hinit. simpl.
  destruct (frontier_yields_all product sequences compare
    (Generator0 := buchse_product product sequences compare) bu_heap (bu_inv product sequences compare))
    with (st := {| bu_heap := heap; buchse_counts := ∅ |}) as (l&?&?&?); try done.
  - intros g P Hi. by apply bu_inv_frontier.
  - intros g P r p Hi Ht. by apply (bu_inv_pop _ _ _ g P r p).
  - unfold bu_inv. simpl. rewrite Hw. split_and!; [done|case_decide; repeat constructor; set_solver| |].
    + intros q. rewrite Hw. split.
      * case_decide; [|by intros ?%not_elem_of_nil]. intros ->%list_elem_of_singleton. split; [done|].
        rewrite (proj2 (preds_origin sequences (origin sequences) (length_replicate _ _)) eq_refl).
        by intros ? ?%not_elem_of_nil.
      * intros [Hq Hall]. assert (Hnil : preds q = []).
        { destruct (preds q) as [|s l]; [done|]. by specialize (Hall s ltac:(left)) as ?%not_elem_of_nil. }
        apply (preds_origin sequences q (in_box_length _ _ Hq)) in Hnil as ->.
        rewrite decide_True by done. left.
    + intros q _. rewrite lookup_empty. simpl. unfold popped_preds.
      induction (preds q); [done|]. rewrite filter_cons_False; [done|apply not_elem_of_nil].
  - by exists l.
Qed.

Lemma buchse_product_enumerates_witness :
  exists g l,
    generate_buchse_product (Q := sorted_queue (sorter Nat.ltb))
      sum_list [[9; 5; 1]; [7; 6]; [3; 0]] Nat.ltb = Some g /\
    yields (Generator0 := buchse_product sum_list [[9; 5; 1]; [7; 6]; [3; 0]] Nat.ltb) g l /\
    drain (Generator0 := buchse_product sum_list [[9; 5; 1]; [7; 6]; [3; 0]] Nat.ltb) 19 g
      = Some [19; 18; 16; 15; 15; 14; 12; 11; 11; 10; 8; 7].
Proof.
  assert (Hsw : StrictWeak Nat.ltb) by (split; intros; rewrite ?Nat.ltb_lt, ?Nat.ltb_ge in *; lia).
  destruct (buchse_product_enumerates sum_list [[9; 5; 1]; [7; 6]; [3; 0]] Nat.ltb
    (Q := sorted_queue (sorter Nat.ltb))) as (g&l&H1&H2&_).
  exists g, l. split; [exact H1|]. split; [exact H2|].
  vm_compute in H1. injection H1 as <-. vm_compute. reflexivity.
Defined.
