(* ===== verification/HieroProduct.v ===== *)
(** [hiero_product_generator] of
    src/gusc/gusc/generator/hiero_product_generator.hpp: the tuples of several
    sequences in the order of a product of their elements.

    A popped position pushes all its increments that were not pushed before;
    the set [positions] remembers those that were. *)
From S2P Require Import Prelude Generator ProductFrontier.

Section hiero.
Context {A B : Type} (product : list A -> B) (sequences : list (list A)).
Context (compare : B -> B -> bool) {Q : Type} `{!PriorityQueue (sorter compare) Q}.

(** [impl_]: the heap and the set [positions]. *)
Record hiero_product_generator := mk_hiero {
  hi_heap : Q;
  hi_positions : gset position
}.

Definition generate_hiero_product : option hiero_product_generator :=
  heap ← product_init product sequences compare;
  Some {| hi_heap := heap; hi_positions := ∅ |}.

(** The body of the loop of [increment] at an increment [pos]. *)
Definition hi_visit (pos : position) (g : hiero_product_generator)
  : option hiero_product_generator :=
  if all_not_at_end sequences pos then
    if decide (pos ∈ hi_positions g) then Some g
    else heap ← push_at product sequences compare pos (hi_heap g);
         Some {| hi_heap := heap; hi_positions := {[pos]} ∪ hi_positions g |}
  else Some g.

Fixpoint hi_loop (n x : nat) (pos : position) (g : hiero_product_generator)
  : option hiero_product_generator :=
  match n with
  | O => Some g
  | S n =>
      let pos := pos_inc x pos in
      g ← hi_visit pos g;
      let pos := pos_dec x pos in
      hi_loop n (S x) pos g
  end.

Definition hi_increment (g : hiero_product_generator) : option hiero_product_generator :=
  top ← pq_top (hi_heap g);
  let pos := top.2 in
  hi_loop (length pos) 0 pos
    {| hi_heap := pq_pop (hi_heap g); hi_positions := hi_positions g |}.

Definition hi_dereference (g : hiero_product_generator) : option B := fst <$> pq_top (hi_heap g).

Definition hi_more (g : hiero_product_generator) : bool := negb (pq_empty (hi_heap g)).

#[export] Instance hiero_product : Generator hiero_product_generator B := {|
  gmore := hi_more; gpeek := hi_dereference; gpop := hi_increment
|}.
End hiero.

Arguments hiero_product_generator Q : clear implicits.

(** * Lemmas *)

Section lemmas.
Context {A B : Type} (product : list A -> B) (sequences : list (list A)).
Context (compare : B -> B -> bool) {Q : Type} `{!PriorityQueue (sorter compare) Q}.
Context `{!PriorityQueueLaws (sorter compare) Q}.

Lemma hi_loop_spec n x p g :
  in_box sequences p -> (n + x = length p)%nat ->
  exists g', hi_loop product sequences compare n x p g = Some g' /\
    waiting compare (hi_heap g') ≡ₚ
      filter (fun q => in_box sequences q /\ q ∉ hi_positions g) (increments n x p)
      ++ waiting compare (hi_heap g) /\
    (valued product sequences compare (hi_heap g) -> valued product sequences compare (hi_heap g')) /\
    (forall q, q ∈ hi_positions g' <->
       q ∈ hi_positions g \/ (q ∈ increments n x p /\ in_box sequences q)).
Proof.
  intros Hp. revert x g. induction n as [|n IH]; intros x g Hn.
  { exists g. split_and!; try done. intros q. simpl. rewrite elem_of_nil. tauto. }
  cbn [hi_loop]. rewrite pos_dec_inc. unfold hi_visit. rewrite all_not_at_end_inc by done.
  assert (Hni : pos_inc x p ∉ increments n (S x) p) by (apply not_in_increments; lia).
  rewrite increments_cons, filter_cons.
  destruct (decide (in_box sequences (pos_inc x p))) as [Hb|Hb].
  2: { rewrite bool_decide_false, decide_False by tauto. simpl.
       destruct (IH (S x) g) as (g'&?&?&?&Hpos); [lia|]. exists g'. split_and!; try done.
       intros q. rewrite Hpos, elem_of_cons. naive_solver. }
  rewrite bool_decide_true by done. destruct (decide (pos_inc x p ∈ hi_positions g)) as [Hq|Hq].
  - rewrite decide_False by tauto. simpl.
    destruct (IH (S x) g) as (g'&?&?&?&Hpos); [lia|]. exists g'. split_and!; try done.
    intros q. rewrite Hpos, elem_of_cons. naive_solver.
  - rewrite decide_True by done.
    destruct (push_at_spec product sequences compare _ (hi_heap g) Hb) as (heap&->&Hw&Hv). cbn.
    destruct (IH (S x) {| hi_heap := heap; hi_positions := {[pos_inc x p]} ∪ hi_positions g |})
      as (g'&Hs&Hw'&Hv'&Hpos); [lia|]. cbn [hi_heap hi_positions] in *.
    exists g'. split_and!; [done| |auto|].
    + rewrite Hw', Hw, Permutation_middle. simpl.
      rewrite (list_filter_ext (fun q => in_box sequences q /\ q ∉ {[pos_inc x p]} ∪ hi_positions g)
        (fun q => in_box sequences q /\ q ∉ hi_positions g)); [done|].
      intros q Hqi. rewrite elem_of_union, elem_of_singleton. split; [tauto|].
      intros [? ?]. split; [done|]. intros [->|?]; done.
    + intros q. rewrite Hpos, elem_of_union, elem_of_singleton, elem_of_cons. naive_solver.
Qed.

(** Some predecessor of [q] has been popped. *)
Definition some_pred (P : list position) (q : position) : Prop := exists p, p ∈ preds q /\ p ∈ P.

Lemma some_pred_cons p P q : some_pred (p :: P) q <-> p ∈ preds q \/ some_pred P q.
Proof.
  unfold some_pred. setoid_rewrite elem_of_cons. split.
  - intros (s&Hs&[->|?]); eauto.
  - intros [?|(s&?&?)]; eauto.
Qed.

(** The positions pushed so far are the origin and those with a popped
    predecessor. *)
Definition hi_inv (g : hiero_product_generator Q) (P : list position) : Prop :=
  valued product sequences compare (hi_heap g) /\
  NoDup (P ++ waiting compare (hi_heap g)) /\
  (forall q, q ∈ P ++ waiting compare (hi_heap g) <->
     in_box sequences q /\ (q = origin sequences \/ some_pred P q)) /\
  (forall q, q ∈ hi_positions g <-> in_box sequences q /\ some_pred P q).

Lemma hi_inv_frontier g P : hi_inv g P -> frontier product sequences compare P (hi_heap g).
Proof.
  intros (Hv&Hnd&Hiff&_). split; [done|done| |].
  - apply Forall_forall. intros q Hq. by apply Hiff in Hq as [? _].
  - intros q Hq HP HW. assert (Hnin : q ∉ P ++ waiting compare (hi_heap g)).
    { rewrite elem_of_app. tauto. }
    rewrite Hiff in Hnin. destruct (preds q) as [|p l] eqn:E.
    + destruct Hnin. split; [done|]. left.
      by apply (preds_origin sequences q (in_box_length _ _ Hq)).
    + assert (Hp : p ∈ preds q) by (rewrite E; left). pose proof Hp as (x&Hx&->)%elem_of_preds.
      exists x, p. split_and!; [done|done|]. intros HpP. apply Hnin. split; [done|]. right.
      by exists p.
Qed.

Lemma not_origin p q : p ∈ preds q -> q <> origin sequences.
Proof.
  intros Hp ->. pose proof (proj2 (preds_origin sequences (origin sequences)
    (length_replicate _ _)) eq_refl) as E. rewrite E in Hp. by apply not_elem_of_nil in Hp.
Qed.

Lemma hi_inv_pop g P r p :
  hi_inv g P -> pq_top (hi_heap g) = Some (r, p) ->
  exists g', hi_increment product sequences compare g = Some g' /\ hi_inv g' (p :: P).
Proof.
  intros (Hv&Hnd&Hiff&Hpos) Htop. destruct (pop_spec product sequences compare _ _ _ Htop) as [Hw Hvp].
  destruct (Hvp Hv) as [Hv' _].
  assert (Hin : p ∈ P ++ waiting compare (hi_heap g)) by (rewrite Hw; set_solver).
  pose proof (proj1 (Hiff p) Hin) as [Hb _].
  destruct (hi_loop_spec (length p) 0 p {| hi_heap := pq_pop (hi_heap g);
    hi_positions := hi_positions g |} Hb) as (g'&Hs&Hw'&Hv2&Hpos'); [lia|]. cbn in Hw', Hv2, Hpos'.
  exists g'. unfold hi_increment. rewrite Htop. cbn. rewrite Hs. split; [done|].
  set (new := filter _ _) in Hw'.
  assert (Hnew : forall q, q ∈ new <-> p ∈ preds q /\ in_box sequences q /\ ~ some_pred P q).
  { intros q. unfold new. rewrite list_elem_of_filter, Hpos, <- elem_of_preds_increments. tauto. }
  pose proof (waiting_pop compare P new p _ _ _ Hw Hw') as Hperm.
  unfold hi_inv. split_and!; [auto| | |].
  - rewrite Hperm. apply NoDup_app. split_and!; [apply NoDup_filter, increments_NoDup; lia| |done].
    intros q (Hq&_&Hno)%Hnew [_ [->|?]]%Hiff; [by eapply not_origin|done].
  - intros q. rewrite Hperm, elem_of_app, Hnew, Hiff, some_pred_cons. split; [tauto|].
    intros [Hq [->|[Hp|?]]]; [tauto| |tauto].
    destruct (decide (Exists (fun s => s ∈ P) (preds q))) as [Hex|Hex]; rewrite Exists_exists in Hex.
    + tauto.
    + by left.
  - intros q. rewrite Hpos', Hpos, some_pred_cons, elem_of_preds_increments. tauto.
Qed.
End lemmas.

(** ** Properties *)

(** C17: a hiero product generator yields the product of every tuple of
    elements of its sequences exactly once and then ends; if the product is
    monotone in each argument and the sequences are sorted, the products come
    out best first. *)
Theorem hiero_product_enumerates {A B} (product : list A -> B) (sequences : list (list A))
    (compare : B -> B -> bool) {Q} `{!PriorityQueue (sorter compare) Q}
    `{!PriorityQueueLaws (sorter compare) Q} :
  exists g l, generate_hiero_product (Q := Q) product sequences compare = Some g /\
    yields (Generator0 := hiero_product product sequences compare) g l /\
    l ≡ₚ product <$> tuples sequences /\
    (forall R, StrictWeak compare -> product_monotone product R compare ->
     sequences_sorted R sequences -> descending compare l).
Proof.
  destruct (product_init_spec product sequences compare (Q := Q)) as (heap&Hinit&Hv&Hw).
  exists {| hi_heap := heap; hi_positions := ∅ |}. unfold generate_hiero_product. rewrite Hinit. simpl.
  assert (Hnone : forall q, ~ some_pred [] q) by (intros q (p&_&Hp); by apply not_elem_of_nil in Hp).
  destruct (frontier_yields_all product sequences compare
    (Generator0 := hiero_product product sequences compare) hi_heap (hi_inv product sequences compare))
    with (st := {| hi_heap := heap; hi_positions := ∅ |}) as (l&?&?&?); try done.
  - intros g P Hi. by apply hi_inv_frontier.
  - intros g P r p Hi Ht. by apply (hi_inv_pop _ _ _ g P r p).
  - unfold hi_inv. simpl. rewrite Hw. split_and!; [done|case_decide; repeat constructor; set_solver| |].
    + intros q. rewrite Hw. split.
      * case_decide; [|by intros ?%not_elem_of_nil]. intros ->%list_elem_of_singleton. auto.
      * intros [Hq [->|Hp]]; [|by apply Hnone in Hp]. rewrite decide_True by done. left.
    + intros q. rewrite elem_of_empty. split; [done|]. intros [_ []%Hnone].
  - by exists l.
Qed.

Lemma hiero_product_enumerates_witness :
  exists g l,
    generate_hiero_product (Q := sorted_queue (sorter Nat.ltb))
      sum_list [[9; 5; 1]; [7; 6]; [3; 0]] Nat.ltb = Some g /\
    yields (Generator0 := hiero_product sum_list [[9; 5; 1]; [7; 6]; [3; 0]] Nat.ltb) g l /\
    drain (Generator0 := hiero_product sum_list [[9; 5; 1]; [7; 6]; [3; 0]] Nat.ltb) 19 g
      = Some [19; 18; 16; 15; 15; 14; 12; 11; 11; 10; 8; 7].
Proof.
  assert (Hsw : StrictWeak Nat.ltb) by (split; intros; rewrite ?Nat.ltb_lt, ?Nat.ltb_ge in *; lia).
  destruct (hiero_product_enumerates sum_list [[9; 5; 1]; [7; 6]; [3; 0]] Nat.ltb
    (Q := sorted_queue (sorter Nat.ltb))) as (g&l&H1&H2&_).
  exists g, l. split; [exact H1|]. split; [exact H2|].
  vm_compute in H1. injection H1 as <-. vm_compute. reflexivity.
Defined.
