(* ===== verification/LazySequence.v ===== *)
(** [lazy_sequence] and [lazy_sequence_iterator] of
    src/gusc/gusc/generator/lazy_sequence.hpp: a generator memoized in a vector.

    An iterator holds a pointer to the sequence it reads: the sequence is the
    state that every iterator operation takes and returns.  The loop of
    [instantiate] is bounded by [fuel]. *)
From S2P Require Import Prelude Generator.
Open Scope Z_scope.

(** Conversion of a 64-bit value to [ptrdiff_t]. *)
Definition ptrdiff (z : Z) : Z := let r := u64 z in if r <? 2 ^ 63 then r else r - 2 ^ 64.

(** [boost::integer_traits<ptrdiff_t>::const_max] *)
Definition ptrdiff_max : Z := 2 ^ 63 - 1.

Section lazy_sequence.
Context {G A : Type} `{!Generator G A} (fuel : nat).

Record lazy_sequence := mk_lazy { ls_g : G; ls_c : list A }.

(** [c.size()] *)
Definition c_size (s : lazy_sequence) : Z := Z.of_nat (length (ls_c s)).

Fixpoint instantiate_loop (fuel : nat) (n : Z) (s : lazy_sequence) : option lazy_sequence :=
  if (c_size s <=? n) && gmore (ls_g s) then
    match fuel with
    | O => None
    | S fuel =>
        p ← gcall (ls_g s);
        instantiate_loop fuel n {| ls_g := p.2; ls_c := ls_c s ++ [p.1] |}
    end
  else Some s.

Definition instantiate (n : Z) (s : lazy_sequence) : option lazy_sequence :=
  if (n <? 0) || (c_size s >? n) || negb (gmore (ls_g s)) then Some s
  else instantiate_loop fuel n s.

(** The subscript operator on [size_t n]; [c.at(n)] throws [std::out_of_range]. *)
Definition ls_index (n : Z) (s : lazy_sequence) : option (result A * lazy_sequence) :=
  s ← instantiate (ptrdiff n) s;
  Some (if n <? c_size s
        then match ls_c s !! Z.to_nat n with Some a => Ok a | None => Throw "out_of_range" end
        else Throw "out_of_range", s).

Record lazy_sequence_iterator := mk_iter { it_idx : Z; it_at_end : bool }.

(** [lazy_sequence_iterator(s, i, ae)] *)
Definition iter_ctor (i : Z) (ae : bool) (s : lazy_sequence)
  : option (lazy_sequence_iterator * lazy_sequence) :=
  s ← instantiate i s;
  Some (if (i <? 0) || (c_size s <=? i)
        then {| it_idx := c_size s; it_at_end := true |}
        else {| it_idx := i; it_at_end := ae |}, s).

Definition ls_begin (s : lazy_sequence) := iter_ctor 0 false s.
Definition ls_end (s : lazy_sequence) := iter_ctor 0 true s.

Definition iter_distance_to (it other : lazy_sequence_iterator) : Z := it_idx other - it_idx it.

Definition iter_advance (n : Z) (it : lazy_sequence_iterator) (s : lazy_sequence)
  : option (lazy_sequence_iterator * lazy_sequence) :=
  if it_at_end it then
    if n >=? 0 then Some (it, s)
    else s ← instantiate ptrdiff_max s;
         Some ({| it_idx := ptrdiff (c_size s + n); it_at_end := false |}, s)
  else if n >? 0 then
    s ← instantiate (it_idx it + n) s;
    let idx := it_idx it + n in
    Some (if (idx >=? 0) && (idx >=? c_size s)
          then {| it_idx := c_size s; it_at_end := true |}
          else {| it_idx := idx; it_at_end := it_at_end it |}, s)
  else Some ({| it_idx := it_idx it + n; it_at_end := it_at_end it |}, s).

Definition iter_increment it s := iter_advance 1 it s.
Definition iter_decrement it s := iter_advance (-1) it s.

(** The element at [idx]: the index is converted to [size_t]. *)
Definition iter_dereference (it : lazy_sequence_iterator) (s : lazy_sequence)
  : option (result A * lazy_sequence) :=
  ls_index (u64 (it_idx it)) s.

Definition iter_equal (it other : lazy_sequence_iterator) : bool :=
  if it_at_end it then it_at_end other
  else negb (it_at_end other) && (it_idx it =? it_idx other).

(** The loop [for (it = s.begin(); it != s.end(); ++it) out.push_back( *it);] *)
Fixpoint iterate_from (steps : nat) (it : lazy_sequence_iterator) (s : lazy_sequence)
  : option (list (result A)) :=
  e ← ls_end s;
  if iter_equal it e.1 then Some []
  else match steps with
       | O => None
       | S steps =>
           v ← iter_dereference it e.2;
           p ← iter_increment it v.2;
           cons v.1 <$> iterate_from steps p.1 p.2
       end.

Definition iterate (steps : nat) (s : lazy_sequence) : option (list (result A)) :=
  b ← ls_begin s; iterate_from steps b.1 b.2.
End lazy_sequence.

Arguments lazy_sequence G A : clear implicits.

(** * Lemmas *)

Lemma ptrdiff_small z : - 2 ^ 63 <= z < 2 ^ 63 -> ptrdiff z = z.
Proof.
  intros H. unfold ptrdiff, u64, wrap. destruct (decide (0 <= z)).
  - rewrite Z.mod_small by lia. destruct (z <? 2 ^ 63) eqn:E; lia.
  - replace (z mod 2 ^ 64) with (z + 2 ^ 64).
    + destruct (_ <? _) eqn:E; lia.
    + apply (Z.mod_unique z (2 ^ 64) (-1)); lia.
Qed.

Section lemmas.
Context {G A : Type} `{!Generator G A} (fuel : nat) (l : list A).
Context (Hfuel : (length l <= fuel)%nat) (Hmax : Z.of_nat (length l) < 2 ^ 63).
Abbreviation len := (Z.of_nat (length l)).

(** The sequence holds a prefix of [l], the generator the rest. *)
Definition lazy_inv (s : lazy_sequence G A) : Prop :=
  exists l2, l = ls_c s ++ l2 /\ yields (ls_g s) l2.

Lemma lazy_inv_size s : lazy_inv s -> 0 <= c_size s <= len.
Proof. intros (l2&Hl&_). unfold c_size. rewrite Hl, length_app. lia. Qed.

Lemma lazy_inv_lookup s i a : lazy_inv s -> ls_c s !! i = Some a -> l !! i = Some a.
Proof. intros (l2&->&_) H. by apply lookup_app_l_Some. Qed.

Lemma instantiate_loop_spec n f s :
  lazy_inv s -> 0 <= n -> len - c_size s <= Z.of_nat f ->
  exists s', instantiate_loop f n s = Some s' /\ lazy_inv s' /\
    c_size s' = Z.max (c_size s) (Z.min (n + 1) len).
Proof.
  revert s. induction f as [|f IH]; intros s Hs Hn Hf; pose proof (lazy_inv_size _ Hs) as Hsz;
    destruct Hs as (l2&Hl&Hy); pose proof (yields_more _ _ Hy) as Hm;
    assert (Hlen : len = c_size s + Z.of_nat (length l2)) by (unfold c_size; rewrite Hl, length_app; lia);
    simpl; rewrite Hm.
  - destruct l2; [|simpl in Hlen; lia]. rewrite andb_false_r. exists s. split_and!; [done|by exists []|].
    simpl in Hlen. lia.
  - destruct l2 as [|a l2].
    { rewrite andb_false_r. exists s. split_and!; [done|by exists []|]. simpl in Hlen. lia. }
    rewrite andb_true_r. destruct (_ <=? _) eqn:E.
    2: { exists s. split_and!; [done|by exists (a :: l2)|]. simpl in Hlen. lia. }
    apply yields_cons_inv in Hy as (_&Hp&g'&Hpop&Hy). unfold gcall. rewrite Hp. simpl.
    rewrite Hpop. simpl.
    assert (Hc : c_size {| ls_g := g'; ls_c := ls_c s ++ [a] |} = c_size s + 1).
    { unfold c_size. simpl. rewrite length_app. simpl. lia. }
    destruct (IH {| ls_g := g'; ls_c := ls_c s ++ [a] |}) as (s'&Hs'&Hi&Hz); [|lia|lia|].
    { exists l2. simpl. by rewrite <- app_assoc. }
    exists s'. split_and!; [done|done|]. simpl in Hlen. lia.
Qed.

(** [instantiate(n)] fetches no more values than asked for. *)
Lemma instantiate_spec n s :
  lazy_inv s ->
  exists s', instantiate fuel n s = Some s' /\ lazy_inv s' /\
    c_size s' = Z.max (c_size s) (Z.min (n + 1) len).
Proof.
  intros Hs. pose proof (lazy_inv_size _ Hs) as Hsz. unfold instantiate.
  destruct (_ || _) eqn:E.
  - exists s. split_and!; [done|done|]. destruct Hs as (l2&Hl&Hy).
    rewrite (yields_more _ _ Hy) in E. destruct l2; [|simpl in E; lia].
    rewrite app_nil_r in Hl. unfold c_size in *. rewrite <- Hl in *. lia.
  - apply instantiate_loop_spec; [done|lia|lia].
Qed.

Lemma ls_index_at n s :
  lazy_inv s -> 0 <= n < 2 ^ 64 ->
  exists s', ls_index fuel n s =
      Some (match l !! Z.to_nat n with
            | Some a => if n <? len then Ok a else Throw "out_of_range"
            | None => Throw "out_of_range" end, s') /\
    lazy_inv s' /\ c_size s' = Z.max (c_size s) (if n <? 2 ^ 63 then Z.min (n + 1) len else 0).
Proof.
  intros Hs Hn. destruct (instantiate_spec (ptrdiff n) s Hs) as (s'&Hs'&Hi&Hz).
  exists s'. unfold ls_index. rewrite Hs'. simpl.
  pose proof (lazy_inv_size _ Hs). pose proof (lazy_inv_size _ Hi).
  assert (Hp : ptrdiff n = if n <? 2 ^ 63 then n else n - 2 ^ 64).
  { unfold ptrdiff. by rewrite u64_small by lia. }
  rewrite Hp in Hz. clear Hp. destruct (n <? c_size s') eqn:E.
  - destruct (n <? 2 ^ 63) eqn:E63; [|lia].
    destruct (lookup_lt_is_Some_2 (ls_c s') (Z.to_nat n)) as [a Ha]; [unfold c_size in E; lia|].
    rewrite Ha, (lazy_inv_lookup _ _ _ Hi Ha). replace (n <? len) with true by lia. done.
  - assert ((n <? len) = false) as -> by (destruct (n <? 2 ^ 63) eqn:?; lia).
    split_and!; [by destruct (l !! Z.to_nat n)|done|]. destruct (n <? 2 ^ 63) eqn:?; lia.
Qed.

(** The iterator at offset [k] of [l]; the index of an end iterator is free. *)
Definition iter_at (k : Z) (it : lazy_sequence_iterator) : Prop :=
  (0 <= k < len /\ it = {| it_idx := k; it_at_end := false |}) \/
  (k = len /\ it_at_end it = true).

Lemma iter_advance_at n k it s :
  lazy_inv s -> iter_at k it -> 0 <= k + n ->
  exists it' s', iter_advance fuel n it s = Some (it', s') /\ lazy_inv s' /\
    iter_at (Z.min (k + n) len) it'.
Proof.
  intros Hs Hit Hk. pose proof (lazy_inv_size _ Hs) as Hsz. unfold iter_advance.
  destruct Hit as [[Hk' ->]|[-> Hat]]; [simpl|rewrite Hat; simpl].
  - destruct (n >? 0) eqn:E.
    + destruct (instantiate_spec (k + n) s Hs) as (s'&->&Hi&Hz). simpl. do 2 eexists.
      split; [done|]. split; [done|]. pose proof (lazy_inv_size _ Hi).
      destruct (_ && _) eqn:E2; [right|left].
      * split; [lia|done].
      * split; [lia|]. f_equal. lia.
    + do 2 eexists. split; [done|]. split; [done|]. left. split; [lia|]. f_equal. lia.
  - destruct (n >=? 0) eqn:E.
    + exists it, s. split_and!; [done|done|]. right. split; [lia|done].
    + destruct (instantiate_spec ptrdiff_max s Hs) as (s'&->&Hi&Hz). simpl.
      assert (Hsize : c_size s' = len) by (unfold ptrdiff_max in Hz; lia).
      do 2 eexists. split; [done|]. split; [done|]. left. rewrite Hsize, ptrdiff_small by lia.
      split; [lia|]. f_equal. lia.
Qed.

Lemma ls_begin_at s :
  lazy_inv s -> exists it s', ls_begin fuel s = Some (it, s') /\ lazy_inv s' /\ iter_at 0 it.
Proof.
  intros Hs. unfold ls_begin, iter_ctor. destruct (instantiate_spec 0 s Hs) as (s'&->&Hi&Hz).
  simpl. pose proof (lazy_inv_size _ Hs). do 2 eexists. split; [done|]. split; [done|].
  destruct (c_size s' <=? 0) eqn:E; [right; split; [lia|done]|left; split; [lia|done]].
Qed.

Lemma ls_end_at s :
  lazy_inv s -> exists it s', ls_end fuel s = Some (it, s') /\ lazy_inv s' /\
    it_at_end it = true /\ it_idx it = 0.
Proof.
  intros Hs. unfold ls_end, iter_ctor. destruct (instantiate_spec 0 s Hs) as (s'&->&Hi&Hz).
  simpl. pose proof (lazy_inv_size _ Hs). do 2 eexists. split; [done|]. split; [done|].
  destruct (c_size s' <=? 0) eqn:E; simpl; split; (done || lia).
Qed.

Lemma iterate_from_at steps k it s :
  lazy_inv s -> iter_at (Z.of_nat k) it -> (length l <= k + steps)%nat ->
  iterate_from fuel steps it s = Some (Ok <$> drop k l).
Proof.
  revert k it s. induction steps as [|steps IH]; intros k it s Hs Hit Hst;
    destruct (ls_end_at s Hs) as (e&s1&He&Hs1&Hend&_); simpl; rewrite He; simpl;
    (destruct Hit as [[Hk ->]|[Hk Hat]];
      [|unfold iter_equal; rewrite Hat, Hend; simpl; by rewrite drop_ge by lia]);
    unfold iter_equal; simpl; rewrite Hend; simpl; [lia|].
  destruct (lookup_lt_is_Some_2 l k) as [a Ha]; [lia|].
  unfold iter_dereference. simpl. rewrite u64_small by lia.
  destruct (ls_index_at (Z.of_nat k) s1 Hs1 ltac:(lia)) as (s2&->&Hs2&_). simpl.
  rewrite Nat2Z.id, Ha. replace (_ <? _) with true by lia.
  destruct (iter_advance_at 1 (Z.of_nat k) {| it_idx := Z.of_nat k; it_at_end := false |} s2 Hs2)
    as (it'&s3&Hadv&Hs3&Hit'); [by left|lia|]. unfold iter_increment. rewrite Hadv. simpl.
  rewrite (IH (S k) it' s3 Hs3); [|by replace (Z.of_nat (S k)) with (Z.min (Z.of_nat k + 1) len) by lia|lia].
  by rewrite (drop_S l a k Ha).
Qed.
End lemmas.

(** ** Properties *)

(** Subscripting a lazy sequence gives the value that the generator would
    return at that place, or throws [std::out_of_range] past its end, and
    fetches no value of the generator beyond that place. *)
Theorem lazy_sequence_index {G A} `{!Generator G A} fuel (l : list A) (s : lazy_sequence G A) n :
  (length l <= fuel)%nat -> Z.of_nat (length l) < 2 ^ 63 -> lazy_inv l s -> 0 <= n < 2 ^ 63 ->
  exists r s', ls_index fuel n s = Some (r, s') /\ lazy_inv l s' /\
    c_size s' = Z.max (c_size s) (Z.min (n + 1) (Z.of_nat (length l))) /\
    r = (if n <? Z.of_nat (length l)
         then match l !! Z.to_nat n with Some a => Ok a | None => Throw "out_of_range" end
         else Throw "out_of_range").
Proof.
  intros Hf Hmax Hs Hn. destruct (ls_index_at fuel l Hf Hmax n s Hs) as (s'&Hi&Hs'&Hz); [lia|].
  do 2 eexists. split; [exact Hi|]. split_and!; [done| |].
  - by replace (n <? 2 ^ 63) with true in Hz by lia.
  - destruct (n <? _) eqn:E; destruct (l !! Z.to_nat n) eqn:El; done.
Qed.

Lemma lazy_sequence_index_witness :
  ls_index 5 2 {| ls_g := [4; 5; 6; 7]; ls_c := [] |} = Some (Ok 6, {| ls_g := [7]; ls_c := [4; 5; 6] |}) /\
  exists r s', ls_index 5 2 {| ls_g := [4; 5; 6; 7]; ls_c := [] |} = Some (r, s') /\ c_size s' = 3.
Proof.
  split; [reflexivity|].
  destruct (lazy_sequence_index 5 [4; 5; 6; 7] {| ls_g := [4; 5; 6; 7]; ls_c := [] |} 2)
    as (r&s'&H&_&Hz&_).
  - vm_compute. repeat constructor.
  - reflexivity.
  - exists [4; 5; 6; 7]. split; [reflexivity|apply yields_range].
  - vm_compute. intuition congruence.
  - exists r, s'. split; [exact H|exact Hz].
Defined.

(** A loop from [begin()] to [end()] over a lazy sequence visits exactly
    the values of its generator, in order, however much of them was fetched
    before. *)
Theorem lazy_sequence_iterate {G A} `{!Generator G A} fuel (l : list A) (s : lazy_sequence G A) :
  (length l <= fuel)%nat -> Z.of_nat (length l) < 2 ^ 63 -> lazy_inv l s ->
  iterate fuel (length l) s = Some (Ok <$> l).
Proof.
  intros Hf Hmax Hs. unfold iterate. destruct (ls_begin_at fuel l Hf s Hs) as (it&s'&->&Hs'&Hit).
  simpl. by rewrite (iterate_from_at fuel l Hf Hmax _ 0).
Qed.

Lemma lazy_sequence_iterate_witness :
  iterate 5 3 {| ls_g := [5; 6]; ls_c := [4] |} = Some [Ok 4; Ok 5; Ok 6].
Proof.
  apply (lazy_sequence_iterate 5 [4; 5; 6] {| ls_g := [5; 6]; ls_c := [4] |}).
  - vm_compute. repeat constructor.
  - reflexivity.
  - exists [5; 6]. split; [reflexivity|apply yields_range].
Defined.

(** Moving an iterator by any distance that stays at or after the first
    element puts it at that distance, clamped to the end; from the end it moves
    back as far as from the last element's successor. *)
Theorem lazy_sequence_advance {G A} `{!Generator G A} fuel (l : list A) (s : lazy_sequence G A) k n it :
  (length l <= fuel)%nat -> Z.of_nat (length l) < 2 ^ 63 -> lazy_inv l s ->
  iter_at l k it -> 0 <= k + n ->
  exists it' s', iter_advance fuel n it s = Some (it', s') /\ lazy_inv l s' /\
    iter_at l (Z.min (k + n) (Z.of_nat (length l))) it'.
Proof. intros. by apply iter_advance_at. Qed.

Lemma lazy_sequence_advance_witness :
  exists it' s', iter_advance 5 (-2) {| it_idx := 0; it_at_end := true |}
      {| ls_g := [5; 6]; ls_c := [4] |} = Some (it', s') /\ iter_at [4; 5; 6] 1 it'.
Proof.
  destruct (lazy_sequence_advance 5 [4; 5; 6] {| ls_g := [5; 6]; ls_c := [4] |} 3 (-2)
    {| it_idx := 0; it_at_end := true |}) as (it'&s'&H&_&Hi).
  - vm_compute. repeat constructor.
  - reflexivity.
  - exists [5; 6]. split; [reflexivity|apply yields_range].
  - right. split; reflexivity.
  - vm_compute. congruence.
  - exists it', s'. split; [exact H|exact Hi].
Defined.

(** The distance from [begin()] to [end()] of a lazy sequence is zero,
    whatever its length. *)
Theorem lazy_sequence_end_distance {G A} `{!Generator G A} fuel (l : list A) (s : lazy_sequence G A) :
  (length l <= fuel)%nat -> Z.of_nat (length l) < 2 ^ 63 -> lazy_inv l s ->
  exists b s1 e s2, ls_begin fuel s = Some (b, s1) /\ ls_end fuel s1 = Some (e, s2) /\
    iter_distance_to b e = 0.
Proof.
  intros Hf Hmax Hs. destruct (ls_begin_at fuel l Hf s Hs) as (b&s1&Hb&Hs1&Hit).
  destruct (ls_end_at fuel l Hf s1 Hs1) as (e&s2&He&_&_&Hz).
  exists b, s1, e, s2. split_and!; [done|done|]. unfold iter_distance_to. rewrite Hz.
  destruct Hit as [[_ ->]|[Hl Hat]]; [done|].
  unfold ls_begin, iter_ctor in Hb. destruct (instantiate_spec fuel l Hf 0 s Hs) as (s'&Hi&_&_).
  rewrite Hi in Hb. simpl in Hb. destruct (c_size s' <=? 0) eqn:E; simplify_eq/=.
  unfold c_size in *. lia.
Qed.

Lemma lazy_sequence_end_distance_witness :
  exists b s1 e s2, ls_begin 5 {| ls_g := [4; 5; 6]; ls_c := [] |} = Some (b, s1) /\
    ls_end 5 s1 = Some (e, s2) /\ iter_distance_to b e = 0.
Proof.
  apply (lazy_sequence_end_distance 5 [4; 5; 6] {| ls_g := [4; 5; 6]; ls_c := [] |}).
  - vm_compute. repeat constructor.
  - reflexivity.
  - exists [4; 5; 6]. split; [reflexivity|apply yields_range].
Defined.
