(* ===== verification/OaTable.v ===== *)
(** The table of the open addressing hash table: [oa_entry], [oa_table_c] and
    [oa_iterator] of src/sbmt_decoder/include/sbmt/hash/impl/oa_table_c.ipp.

    A table is an array of [table_size + 2] entries, the first and the last of
    which are guards with status [oa_entry_invalid]; index [idx] of the
    interface is entry [idx + 1].  A failing [assert] and an access outside the
    array are [None]. *)
From S2P Require Import Prelude.
From stdpp Require Import pretty.
Open Scope Z_scope.

Inductive oa_entry_status :=
  | oa_entry_empty
  | oa_entry_occupied
  | oa_entry_erased
  | oa_entry_invalid.

#[export] Instance oa_entry_status_eq_dec : EqDecision oa_entry_status.
Proof. solve_decision. Defined.

Section table.
Context {V : Type}.

(** [oa_entry]: [value] is constructed only while the entry is occupied. *)
Record oa_entry := mk_entry { stat : oa_entry_status; value : option V }.

Record oa_table_c := mk_table {
  table_size : Z;
  max_non_empty : Z;
  num_occupied : Z;
  num_non_empty : Z;
  table : list oa_entry
}.

Definition guard_entry : oa_entry := mk_entry oa_entry_invalid None.
Definition empty_entry : oa_entry := mk_entry oa_entry_empty None.

(** [oa_table_c(max_occupied, table_size)] *)
Definition oa_table (max_occupied size : Z) : result oa_table_c :=
  if (size <=? max_occupied) || (size <=? 0)
  then Throw ("table cant hold more items than space: was load-factor >= 1?"
              +:+ " max_occupied: " +:+ pretty max_occupied +:+ " table_size: " +:+ pretty size)
  else Ok (mk_table size max_occupied 0 0
             (guard_entry :: replicate (Z.to_nat size) empty_entry ++ [guard_entry])).

(** The copy constructor: only occupied entries have a value to copy. *)
Definition copy_entry (e : oa_entry) : oa_entry :=
  mk_entry (stat e) (if decide (stat e = oa_entry_occupied) then value e else None).

Definition oa_table_copy (t : oa_table_c) : oa_table_c :=
  mk_table (table_size t) (max_non_empty t) (num_occupied t) (num_non_empty t)
    (guard_entry :: (copy_entry <$> take (Z.to_nat (table_size t)) (drop 1 (table t))) ++ [guard_entry]).

Definition real_index (t : oa_table_c) (idx : Z) : option Z :=
  if (0 <=? idx) && (idx <? table_size t) then Some (idx + 1) else None.

Definition entry_at (t : oa_table_c) (real_idx : Z) : option oa_entry :=
  table t !! Z.to_nat real_idx.

Definition set_entry (t : oa_table_c) (real_idx : Z) (e : oa_entry) (occ non_empty : Z) : oa_table_c :=
  mk_table (table_size t) (max_non_empty t) occ non_empty (<[Z.to_nat real_idx := e]> (table t)).

Definition is_blank (s : oa_entry_status) : bool :=
  bool_decide (s = oa_entry_empty) || bool_decide (s = oa_entry_erased).

Definition set_value_at (t : oa_table_c) (idx : Z) (v : V) : option oa_table_c :=
  real_idx ← real_index t idx;
  e ← entry_at t real_idx;
  if is_blank (stat e)
  then Some (set_entry t real_idx (mk_entry oa_entry_occupied (Some v)) (num_occupied t + 1)
               (if decide (stat e = oa_entry_empty) then num_non_empty t + 1 else num_non_empty t))
  else if decide (stat e = oa_entry_occupied)
       then Some (set_entry t real_idx (mk_entry oa_entry_occupied (Some v))
                    (num_occupied t) (num_non_empty t))
       else None.

Definition value_at (t : oa_table_c) (idx : Z) : option V :=
  real_idx ← real_index t idx;
  e ← entry_at t real_idx;
  if decide (stat e = oa_entry_occupied) then value e else None.

Definition status_at (t : oa_table_c) (idx : Z) : option oa_entry_status :=
  real_idx ← real_index t idx; stat <$> entry_at t real_idx.

Definition erase_entry (t : oa_table_c) (real_idx : Z) : option oa_table_c :=
  e ← entry_at t real_idx;
  if decide (stat e = oa_entry_occupied)
  then Some (set_entry t real_idx (mk_entry oa_entry_erased None) (num_occupied t - 1) (num_non_empty t))
  else Some t.

(** [erase_value_at(size_t)] *)
Definition erase_value_at (t : oa_table_c) (idx : Z) : option oa_table_c :=
  real_idx ← real_index t idx; erase_entry t real_idx.

Definition oa_clear (t : oa_table_c) : oa_table_c :=
  mk_table (table_size t) (max_non_empty t) 0 0
    (take 1 (table t)
     ++ ((fun _ => empty_entry) <$> take (Z.to_nat (table_size t)) (drop 1 (table t)))
     ++ drop (Z.to_nat (table_size t) + 1) (table t)).

(** ** Iterators

    An [oa_iterator] is the index of an entry; its loops over blank entries
    stop at a guard, so that [table_size + 2] steps are enough. *)

Fixpoint skip_blank (fuel : nat) (t : oa_table_c) (step itr : Z) : option Z :=
  e ← entry_at t itr;
  if is_blank (stat e)
  then match fuel with O => None | S fuel => skip_blank fuel t step (itr + step) end
  else Some itr.

Definition table_fuel (t : oa_table_c) : nat := Z.to_nat (table_size t) + 2.

Definition oa_iterator (t : oa_table_c) (i : Z) : option Z := skip_blank (table_fuel t) t 1 i.

Definition iterator_step (t : oa_table_c) (step itr : Z) : option Z :=
  e ← entry_at t itr;
  if decide (stat e = oa_entry_invalid) then Some itr
  else skip_blank (table_fuel t) t step (itr + step).

Definition iterator_increment (t : oa_table_c) (itr : Z) : option Z := iterator_step t 1 itr.
Definition iterator_decrement (t : oa_table_c) (itr : Z) : option Z := iterator_step t (-1) itr.

Definition iterator_dereference (t : oa_table_c) (itr : Z) : option V :=
  e ← entry_at t itr;
  if decide (stat e = oa_entry_occupied) then value e else None.

Definition table_begin (t : oa_table_c) : option Z := oa_iterator t 1.
Definition table_end (t : oa_table_c) : option Z := oa_iterator t (table_size t + 1).

Definition position_iterator (t : oa_table_c) (idx : Z) : option Z :=
  real_idx ← real_index t idx; oa_iterator t real_idx.

(** [erase_value_at(iterator)] *)
Definition erase_value_at_iterator (t : oa_table_c) (pos : Z) : option oa_table_c :=
  erase_entry t pos.

(** The values visited by [for (itr = begin(); itr != end(); ++itr)]. *)
Fixpoint iterate_from (fuel : nat) (t : oa_table_c) (itr last : Z) : option (list V) :=
  if decide (itr = last) then Some []
  else match fuel with
       | O => None
       | S fuel =>
           v ← iterator_dereference t itr;
           itr ← iterator_increment t itr;
           cons v <$> iterate_from fuel t itr last
       end.

Definition table_values (t : oa_table_c) : option (list V) :=
  first ← table_begin t; last ← table_end t; iterate_from (table_fuel t) t first last.
End table.

Arguments oa_entry V : clear implicits.
Arguments oa_table_c V : clear implicits.

(** * Lemmas *)

Section lemmas.
Context {V : Type}.
Implicit Types (t : oa_table_c V) (e : oa_entry V).

(** How many entries of [l] satisfy [P]. *)
Definition count (P : oa_entry V -> bool) (l : list (oa_entry V)) : Z :=
  Z.of_nat (length (filter (fun e => P e = true) l)).

Definition occupied e : bool := bool_decide (stat e = oa_entry_occupied).
Definition filled e : bool := negb (bool_decide (stat e = oa_entry_empty)).

(** An entry between the guards. *)
Definition entry_ok e : Prop :=
  match stat e, value e with
  | oa_entry_occupied, Some _ => True
  | oa_entry_empty, None | oa_entry_erased, None => True
  | _, _ => False
  end.

Record table_ok t (slots : list (oa_entry V)) : Prop := {
  to_table : table t = guard_entry :: slots ++ [guard_entry];
  to_size : table_size t = Z.of_nat (length slots);
  to_pos : 0 < table_size t;
  to_cap : max_non_empty t < table_size t;
  to_slots : Forall entry_ok slots;
  to_occ : num_occupied t = count occupied slots;
  to_filled : num_non_empty t = count filled slots
}.

(** The values held, in table order. *)
Definition held (slots : list (oa_entry V)) : list V := omap value slots.

Lemma count_cons P e l : count P (e :: l) = (if P e then 1 else 0) + count P l.
Proof. unfold count. rewrite filter_cons. destruct (P e); simpl; lia. Qed.

Lemma count_app P l1 l2 : count P (l1 ++ l2) = count P l1 + count P l2.
Proof. unfold count. rewrite filter_app, length_app. lia. Qed.

Lemma count_insert P l i e e' :
  l !! i = Some e ->
  count P (<[i := e']> l) = count P l - (if P e then 1 else 0) + (if P e' then 1 else 0).
Proof.
  intros H. rewrite (insert_take_drop l i e') by by eapply lookup_lt_Some.
  rewrite <- (take_drop_middle l i e H) at 3. rewrite !count_app, !count_cons. lia.
Qed.

Lemma count_bounds P l : 0 <= count P l <= Z.of_nat (length l).
Proof. unfold count. pose proof (length_filter (fun e => P e = true) l). lia. Qed.

Lemma count_le P1 P2 l : (forall e, P1 e = true -> P2 e = true) -> count P1 l <= count P2 l.
Proof.
  intros H. induction l as [|e l IH]; [done|]. rewrite !count_cons.
  destruct (P1 e) eqn:E1, (P2 e) eqn:E2; try lia. by rewrite (H e E1) in E2.
Qed.

Lemma held_middle l1 e l2 :
  held (l1 ++ e :: l2) ≡ₚ option_list (value e) ++ held (l1 ++ l2).
Proof.
  unfold held. rewrite !omap_app. csimpl. destruct (value e); simpl; [|done].
  by rewrite Permutation_middle.
Qed.

Lemma held_insert l i e e' :
  l !! i = Some e ->
  held (<[i := e']> l) ≡ₚ option_list (value e') ++ held (take i l ++ drop (S i) l) /\
  held l ≡ₚ option_list (value e) ++ held (take i l ++ drop (S i) l).
Proof.
  intros H. split.
  - rewrite (insert_take_drop l i e') by (by eapply lookup_lt_Some). apply held_middle.
  - rewrite <- (take_drop_middle l i e H) at 1. apply held_middle.
Qed.

Lemma held_occupied l : Forall entry_ok l -> count occupied l = Z.of_nat (length (held l)).
Proof.
  induction 1 as [|e l He Hl IH]; [done|]. rewrite count_cons, IH. unfold held. csimpl.
  assert (occupied e = match value e with Some _ => true | None => false end) as ->.
  { by destruct e as [[] [v|]]. }
  destruct (value e); csimpl; lia.
Qed.

Lemma elem_of_held slots v :
  Forall entry_ok slots ->
  v ∈ held slots <-> exists i, slots !! i = Some (mk_entry oa_entry_occupied (Some v)).
Proof.
  intros Hok. unfold held. rewrite list_elem_of_omap. split.
  - intros (e&[i Hi]%list_elem_of_lookup&Hv). exists i. rewrite Hi.
    rewrite Forall_lookup in Hok. specialize (Hok i e Hi). unfold entry_ok in Hok.
    destruct e as [[] [?|]]; simplify_eq/=; done.
  - intros [i Hi]. eexists. split; [by eapply list_elem_of_lookup_2|done].
Qed.
(** ** The operations on the slots *)

Lemma entry_at_slot t slots i :
  table_ok t slots -> 0 <= i <= table_size t ->
  entry_at t (i + 1) =
    if i =? table_size t then Some guard_entry else slots !! Z.to_nat i.
Proof.
  intros [Ht Hs _ _ _ _ _] Hi. unfold entry_at. rewrite Ht.
  replace (Z.to_nat (i + 1)) with (S (Z.to_nat i)) by lia. simpl.
  destruct (Z.eqb_spec i (table_size t)) as [->|Hne].
  - rewrite lookup_app_r by lia. by replace (_ - _)%nat with 0%nat by lia.
  - by rewrite lookup_app_l by lia.
Qed.

Lemma status_at_slot t slots i :
  table_ok t slots -> 0 <= i < table_size t -> status_at t i = stat <$> slots !! Z.to_nat i.
Proof.
  intros Ht Hi. unfold status_at, real_index.
  replace (_ && _) with true by lia. simpl. rewrite (entry_at_slot t slots) by (done || lia).
  by replace (i =? table_size t) with false by lia.
Qed.

Lemma value_at_slot t slots i v :
  table_ok t slots -> 0 <= i < table_size t ->
  slots !! Z.to_nat i = Some (mk_entry oa_entry_occupied (Some v)) -> value_at t i = Some v.
Proof.
  intros Ht Hi He. unfold value_at, real_index.
  replace (_ && _) with true by lia. simpl. rewrite (entry_at_slot t slots) by (done || lia).
  replace (i =? table_size t) with false by lia. by rewrite He.
Qed.

Lemma slot_lookup t slots i :
  table_ok t slots -> 0 <= i < table_size t ->
  exists e, slots !! Z.to_nat i = Some e /\ entry_ok e.
Proof.
  intros Ht Hi. destruct (lookup_lt_is_Some_2 slots (Z.to_nat i)) as [e He].
  { destruct Ht. lia. }
  exists e. split; [done|]. destruct Ht as [_ _ _ _ Hok _ _].
  rewrite Forall_lookup in Hok. eauto.
Qed.

Lemma set_entry_ok t slots i e e' occ fill :
  table_ok t slots -> 0 <= i < table_size t -> slots !! Z.to_nat i = Some e -> entry_ok e' ->
  occ = num_occupied t - (if occupied e then 1 else 0) + (if occupied e' then 1 else 0) ->
  fill = num_non_empty t - (if filled e then 1 else 0) + (if filled e' then 1 else 0) ->
  table_ok (set_entry t (i + 1) e' occ fill) (<[Z.to_nat i := e']> slots).
Proof.
  intros [Ht Hs Hp Hc Hok Ho Hf] Hi He He' -> ->. split; simpl; try done.
  - rewrite Ht. replace (Z.to_nat (i + 1)) with (S (Z.to_nat i)) by lia. simpl.
    by rewrite insert_app_l by lia.
  - by rewrite length_insert.
  - by apply Forall_insert.
  - rewrite (count_insert _ _ _ e) by done. lia.
  - rewrite (count_insert _ _ _ e) by done. lia.
Qed.

Lemma set_value_at_slot t slots i v :
  table_ok t slots -> 0 <= i < table_size t ->
  exists t', set_value_at t i v = Some t' /\
    table_ok t' (<[Z.to_nat i := mk_entry oa_entry_occupied (Some v)]> slots) /\
    table_size t' = table_size t /\ max_non_empty t' = max_non_empty t.
Proof.
  intros Ht Hi. destruct (slot_lookup t slots i Ht Hi) as (e&He&Hok).
  unfold set_value_at, real_index. replace (_ && _) with true by lia. simpl.
  rewrite (entry_at_slot t slots) by (done || lia).
  replace (i =? table_size t) with false by lia. rewrite He. simpl.
  destruct e as [[] w]; simpl; try done;
    (eexists; split; [done|]; split_and!; [|done|done];
     eapply set_entry_ok; [done|done|exact He|done| |]; simpl; destruct Ht; lia).
Qed.

Lemma erase_value_at_slot t slots i :
  table_ok t slots -> 0 <= i < table_size t ->
  exists t' e, slots !! Z.to_nat i = Some e /\ erase_value_at t i = Some t' /\
    table_ok t' (if occupied e then <[Z.to_nat i := mk_entry oa_entry_erased None]> slots else slots) /\
    table_size t' = table_size t /\ max_non_empty t' = max_non_empty t.
Proof.
  intros Ht Hi. destruct (slot_lookup t slots i Ht Hi) as (e&He&Hok).
  unfold erase_value_at, erase_entry, real_index. replace (_ && _) with true by lia. simpl.
  rewrite (entry_at_slot t slots) by (done || lia).
  replace (i =? table_size t) with false by lia. rewrite He. simpl.
  destruct (decide (stat e = oa_entry_occupied)) as [E|E].
  - eexists _, e. split_and!; try done. unfold occupied. rewrite bool_decide_true by done.
    eapply set_entry_ok; [done|done|exact He|done| |]; destruct e as [[] w]; simpl in *; try done; lia.
  - exists t, e. split_and!; try done. unfold occupied. by rewrite bool_decide_false.
Qed.

Lemma count_replicate_empty n P : P empty_entry = false -> count P (replicate n empty_entry) = 0.
Proof. intros H. induction n as [|n IH]; [done|]. simpl. rewrite count_cons, H. lia. Qed.

Lemma held_replicate_empty n : held (replicate n (@empty_entry V)) = [].
Proof. unfold held. induction n as [|n IH]; [done|exact IH]. Qed.

Lemma oa_table_new_ok max size :
  0 < size -> max < size ->
  exists t, oa_table max size = Ok t /\ table_ok t (replicate (Z.to_nat size) empty_entry) /\
    table_size t = size /\ max_non_empty t = max.
Proof.
  intros Hs Hm. unfold oa_table. replace (_ || _) with false by lia.
  eexists. split; [done|]. split; [|done]. split; simpl; try done.
  - rewrite length_replicate. lia.
  - by apply Forall_replicate.
  - by rewrite count_replicate_empty.
  - by rewrite count_replicate_empty.
Qed.

Lemma oa_table_throws max size :
  size <= max \/ size <= 0 -> exists msg, oa_table (V := V) max size = Throw msg.
Proof. intros H. unfold oa_table. replace (_ || _) with true by lia. by eexists. Qed.

Lemma slots_of_table t slots :
  table_ok t slots -> take (Z.to_nat (table_size t)) (drop 1 (table t)) = slots.
Proof. intros [-> -> _ _ _ _ _]. simpl. rewrite Nat2Z.id, drop_0. by rewrite take_app_length. Qed.

Lemma oa_clear_ok t slots :
  table_ok t slots -> table_ok (oa_clear t) (replicate (length slots) empty_entry).
Proof.
  intros Ht. pose proof (slots_of_table _ _ Ht) as Hsl. destruct Ht as [Ht Hs Hp Hc Hok _ _].
  split; simpl; try done.
  - rewrite Hsl, Ht, Hs, Nat2Z.id. replace (length slots + 1)%nat with (S (length slots)) by lia.
    simpl. rewrite drop_app_length. f_equal. f_equal. by apply const_fmap.
  - by rewrite length_replicate.
  - by apply Forall_replicate.
  - by rewrite count_replicate_empty.
  - by rewrite count_replicate_empty.
Qed.

Lemma oa_table_copy_eq t slots : table_ok t slots -> oa_table_copy t = t.
Proof.
  intros Ht. unfold oa_table_copy. rewrite (slots_of_table _ _ Ht).
  destruct t as [size max occ fill tbl], Ht as [Ht _ _ _ Hok _ _]; simpl in *. subst tbl.
  do 3 f_equal. induction Hok as [|[[] [v|]] l He Hl IH]; simpl; try done; by f_equal.
Qed.

(** ** Iteration *)

Lemma blank_held slots i j :
  Forall entry_ok slots -> (i <= j)%nat ->
  (forall k e, (i <= k < j)%nat -> slots !! k = Some e -> is_blank (stat e) = true) ->
  held (drop i slots) = held (drop j slots).
Proof.
  intros Hok Hij Hb. induction Hij as [|j Hij IH]; [done|].
  rewrite IH by (intros k e Hk; apply Hb; lia).
  destruct (slots !! j) as [e|] eqn:E.
  - rewrite (drop_S _ _ _ E). unfold held. csimpl. specialize (Hb j e ltac:(lia) E).
    rewrite Forall_lookup in Hok. specialize (Hok j e E). by destruct e as [[] [v|]].
  - apply lookup_ge_None in E. by rewrite !drop_ge by lia.
Qed.

Lemma skip_blank_slot t slots fuel i :
  table_ok t slots -> (i <= length slots)%nat -> (length slots - i <= fuel)%nat ->
  exists j, skip_blank fuel t 1 (Z.of_nat i + 1) = Some (Z.of_nat j + 1) /\
    (i <= j <= length slots)%nat /\
    (forall k e, (i <= k < j)%nat -> slots !! k = Some e -> is_blank (stat e) = true) /\
    (j = length slots \/ exists v, slots !! j = Some (mk_entry oa_entry_occupied (Some v))).
Proof.
  intros Ht. revert i. induction fuel as [|fuel IH]; intros i Hi Hf.
  all: pose proof (to_size _ _ Ht) as Hs; cbn [skip_blank];
    rewrite (entry_at_slot t slots) by (done || lia);
    destruct (Z.eqb_spec (Z.of_nat i) (table_size t)) as [E|E].
  1, 3: exists i; simpl; split_and!; (done || lia).
  { lia. }
  rewrite Nat2Z.id.
  destruct (slot_lookup t slots (Z.of_nat i) Ht ltac:(lia)) as (e&He&Hok). rewrite Nat2Z.id in He.
  rewrite He. cbn [mbind option_bind].
  destruct e as [[] [v|]]; simpl; try done.
  - destruct (IH (S i)) as (j&Hj&Hij&Hb&Hend); [lia..|].
    exists j. replace (Z.of_nat i + 1 + 1) with (Z.of_nat (S i) + 1) by lia. split_and!; try done; try lia.
    intros k e Hk. destruct (decide (k = i)) as [->|]; [intros ?; by simplify_eq|]. apply Hb. lia.
  - exists i. split_and!; try lia; [done|]. right. by exists v.
  - destruct (IH (S i)) as (j&Hj&Hij&Hb&Hend); [lia..|].
    exists j. replace (Z.of_nat i + 1 + 1) with (Z.of_nat (S i) + 1) by lia. split_and!; try done; try lia.
    intros k e Hk. destruct (decide (k = i)) as [->|]; [intros ?; by simplify_eq|]. apply Hb. lia.
Qed.

Lemma iterate_from_slot t slots fuel j :
  table_ok t slots -> (j <= length slots)%nat -> (length slots - j <= fuel)%nat ->
  (j = length slots \/ exists v, slots !! j = Some (mk_entry oa_entry_occupied (Some v))) ->
  iterate_from fuel t (Z.of_nat j + 1) (table_size t + 1) = Some (held (drop j slots)).
Proof.
  intros Ht. pose proof (to_size _ _ Ht) as Hs. pose proof (to_slots _ _ Ht) as Hok.
  revert j. induction fuel as [|fuel IH]; intros j Hj Hf Hend; cbn [iterate_from].
  all: destruct (decide (Z.of_nat j + 1 = table_size t + 1)) as [E|E];
    [by rewrite drop_ge by lia|].
  { lia. }
  destruct Hend as [->|[v Hv]]; [lia|].
  unfold iterator_dereference, iterator_increment, iterator_step.
  rewrite (entry_at_slot t slots) by (done || lia).
  replace (Z.of_nat j =? table_size t) with false by lia. rewrite Nat2Z.id, Hv. cbn.
  destruct (skip_blank_slot t slots (table_fuel t) (S j) Ht) as (k&Hk&Hjk&Hb&Hend).
  { apply lookup_lt_Some in Hv. lia. }
  { unfold table_fuel. lia. }
  replace (Z.of_nat j + 1 + 1) with (Z.of_nat (S j) + 1) by lia. rewrite Hk.
  rewrite (decide_True (P := oa_entry_occupied = oa_entry_occupied)) by done.
  rewrite decide_False by discriminate. cbn [mbind option_bind].
  rewrite (IH k) by (done || lia). rewrite (drop_S _ _ _ Hv).
  rewrite <- (blank_held slots (S j) k) by (done || lia). done.
Qed.

Lemma table_begin_slot t slots :
  table_ok t slots ->
  exists j, table_begin t = Some (Z.of_nat j + 1) /\ (j <= length slots)%nat /\
    held (drop j slots) = held slots /\
    (j = length slots \/ exists v, slots !! j = Some (mk_entry oa_entry_occupied (Some v))).
Proof.
  intros Ht. pose proof (to_size _ _ Ht) as Hs. unfold table_begin, oa_iterator.
  destruct (skip_blank_slot t slots (table_fuel t) 0 Ht) as (j&Hj&Hij&Hb&Hend);
    [lia|unfold table_fuel; lia|].
  exists j. split_and!; [done|lia| |done].
  by rewrite <- (blank_held slots 0 j (to_slots _ _ Ht)) by (done || lia).
Qed.

Lemma table_end_eq t slots : table_ok t slots -> table_end t = Some (table_size t + 1).
Proof.
  intros Ht. unfold table_end, oa_iterator, table_fuel. rewrite Nat.add_comm. cbn [skip_blank Nat.add].
  pose proof (to_pos _ _ Ht). rewrite (entry_at_slot t slots (table_size t)) by (done || lia).
  by rewrite Z.eqb_refl.
Qed.
(** Iterating a table from [begin()] to [end()] visits exactly its
    occupied entries, in table order, and stays between the guards. *)
Lemma table_values_held_eq t slots : table_ok t slots -> table_values t = Some (held slots).
Proof.
  intros Ht. unfold table_values. rewrite (table_end_eq t slots Ht).
  destruct (table_begin_slot t slots Ht) as (j&->&Hj&Hh&Hend). simpl.
  rewrite (iterate_from_slot t slots) by (done || (unfold table_fuel; destruct Ht; lia)).
  by rewrite Hh.
Qed.
End lemmas.

(** ** Properties *)

(** The table of five slots that holds [10] and [30], and an erased entry. *)
Definition sample_table : option (oa_table_c Z) :=
  match oa_table 4 5 with
  | Ok t => t ← set_value_at t 1 10; t ← set_value_at t 2 20; t ← set_value_at t 4 30;
            erase_value_at t 2
  | Throw _ => None
  end.

Definition sample_slots : list (oa_entry Z) :=
  [empty_entry; mk_entry oa_entry_occupied (Some 10); mk_entry oa_entry_erased None;
   empty_entry; mk_entry oa_entry_occupied (Some 30)].

Lemma sample_table_values :
  exists t, sample_table = Some t /\ table_values t = Some [10; 30].
Proof.
  destruct sample_table as [t|] eqn:E; [|exfalso; vm_compute in E; discriminate E].
  exists t. split; [reflexivity|]. apply (table_values_held_eq t sample_slots).
  vm_compute in E. injection E as <-.
  split; [reflexivity|reflexivity|reflexivity|reflexivity|repeat constructor|reflexivity|reflexivity].
Defined.

(** Decrementing the iterator [end()] leaves it where it is: the last
    element of a table cannot be reached backwards from its end. *)
Theorem table_end_decrement {V} (t : oa_table_c V) slots :
  table_ok t slots ->
  exists e, table_end t = Some e /\ iterator_decrement t e = Some e.
Proof.
  intros Ht. exists (table_size t + 1). split; [by eapply table_end_eq|].
  unfold iterator_decrement, iterator_step. pose proof (to_pos _ _ Ht).
  rewrite (entry_at_slot t slots) by (done || lia). by rewrite Z.eqb_refl.
Qed.

Lemma table_end_decrement_witness :
  exists t e, sample_table = Some t /\ table_end t = Some e /\ iterator_decrement t e = Some e.
Proof.
  destruct sample_table as [t|] eqn:E; [|exfalso; vm_compute in E; discriminate E].
  destruct (table_end_decrement t sample_slots) as (e&H1&H2).
  - vm_compute in E. injection E as <-.
    split; [reflexivity|reflexivity|reflexivity|reflexivity|repeat constructor|reflexivity|reflexivity].
  - exists t, e. split; [reflexivity|]. split; [exact H1|exact H2].
Defined.
