(* ===== verification/HashProbe.v ===== *)
(** Prime table sizes and double hashing: the namespace [detail] of
    src/sbmt_decoder/include/sbmt/hash/impl/oa_hashtable.ipp. *)
From Stdlib Require Import ZArith Zdivisibility.
From S2P Require Import Prelude.
Open Scope Z_scope.

(** [detail::oa_prime_list] *)
Definition oa_prime_list : list Z :=
  [53; 97; 193; 389; 769;
   1543; 3079; 6151; 12289; 24593;
   49157; 98317; 196613; 393241; 786433;
   1572869; 3145739; 6291469; 12582917; 25165843;
   50331653; 100663319; 201326611; 402653189; 805306457;
   1610612741; 3221225473; 4294967291].

(** [detail::oa_next_prime] *)
Definition oa_next_prime (n : Z) : Z :=
  let pos := lower_bound (fun x => x <? n) oa_prime_list in
  if decide (pos = length oa_prime_list)
  then List.last oa_prime_list 0
  else default 0 (oa_prime_list !! pos).

(** [detail::double_hash_generator] *)
Record double_hash_generator := mk_dhg { dh_h : Z; dh_k : Z; dh_m : Z; dh_last : Z }.

Definition dh_new (hash_v modulus : Z) : double_hash_generator :=
  mk_dhg (hash_v mod modulus) (u64 (1 + hash_v mod (modulus - 1))) modulus (hash_v mod modulus).

Definition dh_next (g : double_hash_generator) : Z * double_hash_generator :=
  (dh_last g, mk_dhg (dh_h g) (dh_k g) (dh_m g) (u64 (dh_last g + dh_k g) mod dh_m g)).

(** * Primality of the table sizes *)

(** No number from [d] on, [n] numbers in steps of two, divides [p]. *)
Fixpoint no_divisor (n : nat) (d p : Z) : bool :=
  match n with
  | O => true
  | S n => negb (p mod d =? 0) && no_divisor n (d + 2) p
  end.

Definition is_prime (p : Z) : bool :=
  (1 <? p) && negb (p mod 2 =? 0) && no_divisor (Z.to_nat (Z.sqrt p / 2)) 3 p.

Lemma no_divisor_spec n d p :
  no_divisor n d p = true -> forall i, 0 <= i < Z.of_nat n -> ~ (d + 2 * i | p).
Proof.
  revert d. induction n as [|n IH]; intros d H i Hi; [lia|].
  simpl in H. apply andb_true_iff in H as [H1 H2].
  destruct (decide (i = 0)) as [->|Hne].
  - intros Hd. rewrite Z.mul_0_r, Z.add_0_r in Hd. apply negb_true_iff, Z.eqb_neq in H1. apply H1.
    destruct (decide (d = 0)) as [->|]; [by apply Z.divide_0_l in Hd as ->|].
    by apply Z.mod_divide.
  - specialize (IH _ H2 (i - 1) ltac:(lia)). by replace (d + 2 + 2 * (i - 1)) with (d + 2 * i) in IH by lia.
Qed.

Lemma is_prime_small_divisor p d :
  is_prime p = true -> 1 < d -> d * d <= p -> ~ (d | p).
Proof.
  unfold is_prime. rewrite !andb_true_iff. intros [[Hp H2] Hn] Hd Hdd Hdiv.
  apply negb_true_iff, Z.eqb_neq in H2.
  destruct (Z.Even_or_Odd d) as [[c Hc]|[c Hc]].
  - apply H2, Z.mod_divide; [done|]. etrans; [|exact Hdiv]. exists c. lia.
  - apply (no_divisor_spec _ _ _ Hn (c - 1)).
    + assert (d <= Z.sqrt p) by (apply Z.sqrt_le_square; lia).
      pose proof (Z.div_mod (Z.sqrt p) 2 ltac:(lia)). pose proof (Z.mod_pos_bound (Z.sqrt p) 2 ltac:(lia)).
      lia.
    + by replace (3 + 2 * (c - 1)) with d by lia.
Qed.

Lemma is_prime_prime p : is_prime p = true -> Z.prime p.
Proof.
  intros H. assert (Hp : 1 < p) by (unfold is_prime in H; lia).
  split; [done|]. intros d Hd [q Hq].
  assert (1 < q) by nia.
  destruct (decide (d <= q)).
  - apply (is_prime_small_divisor p d H); [lia|nia|]. by exists q.
  - apply (is_prime_small_divisor p q H); [lia|nia|]. exists d. lia.
Qed.

Lemma prime_list_check : forallb is_prime oa_prime_list = true.
Proof. vm_compute. reflexivity. Qed.

Lemma prime_list_prime p : p ∈ oa_prime_list -> Z.prime p.
Proof.
  intros H. apply is_prime_prime. pose proof prime_list_check as Hc.
  rewrite forallb_forall in Hc. apply Hc. by apply list_elem_of_In.
Qed.

Lemma prime_list_sorted : StronglySorted Z.lt oa_prime_list.
Proof. repeat constructor. Qed.

Lemma prime_list_bounds p : p ∈ oa_prime_list -> 53 <= p <= 4294967291.
Proof.
  assert (H : Forall (fun p => 53 <= p <= 4294967291) oa_prime_list).
  { repeat constructor; vm_compute; congruence. }
  rewrite Forall_forall in H. apply H.
Qed.

(** The least prime of the list that is at least [n], or the last one. *)
Lemma oa_next_prime_spec n :
  oa_next_prime n ∈ oa_prime_list /\
  (n <= 4294967291 -> n <= oa_next_prime n /\
     forall p, p ∈ oa_prime_list -> n <= p -> oa_next_prime n <= p).
Proof.
  pose proof prime_list_sorted as Hs.
  assert (Hk : exists k, lower_bound (fun x => x <? n) oa_prime_list = k /\
    (k <= length oa_prime_list)%nat /\
    (forall i a, oa_prime_list !! i = Some a -> (i < k)%nat -> a < n) /\
    (forall i a, oa_prime_list !! i = Some a -> (k <= i)%nat -> n <= a)).
  { set (k := length (filter (fun x => x < n) oa_prime_list)). exists k.
    assert (H : (k <= length oa_prime_list)%nat /\
      (forall i a, oa_prime_list !! i = Some a -> (i < k)%nat -> a < n) /\
      (forall i a, oa_prime_list !! i = Some a -> (k <= i)%nat -> n <= a)).
    { unfold k. clear k. induction Hs as [|x l Hs IH Hx]; [by simpl; split_and!|].
      destruct IH as (Hl&H1&H2). rewrite Forall_forall in Hx. rewrite filter_cons.
      case_decide as E; simpl.
      - split_and!; [lia| |].
        + intros [|i] a Ha Hi; simplify_eq/=; [done|]. apply (H1 i); [done|lia].
        + intros [|i] a Ha Hi; simplify_eq/=; [lia|]. apply (H2 i); [done|lia].
      - assert (Hnone : filter (fun y => y < n) l = []).
        { destruct (filter _ l) as [|y l'] eqn:Ef; [done|].
          assert (Hy : y ∈ filter (fun y => y < n) l) by (rewrite Ef; left).
          apply list_elem_of_filter in Hy as [? Hy]. specialize (Hx y Hy). lia. }
        rewrite Hnone. simpl. split_and!; [lia|lia|].
        intros [|i] a Ha _; simplify_eq/=; [lia|].
        apply list_elem_of_lookup_2, Hx in Ha. lia. }
    destruct H as (Hle&H1&H2). split_and!; try done.
    apply lower_bound_partition; [done| |].
    - intros i a Ha Hi. specialize (H1 i a Ha Hi). lia.
    - intros i a Ha Hi. specialize (H2 i a Ha Hi). lia. }
  destruct Hk as (k&Hlb&Hle&H1&H2). unfold oa_next_prime. rewrite Hlb.
  destruct (decide (k = length oa_prime_list)) as [->|Hne].
  - split; [vm_compute; repeat (left || right)|]. intros Hn.
    specialize (H1 27%nat 4294967291 eq_refl ltac:(simpl; lia)). lia.
  - destruct (lookup_lt_is_Some_2 oa_prime_list k) as [p Hp]; [lia|]. rewrite Hp. simpl.
    split; [by eapply list_elem_of_lookup_2|]. intros _. split; [by eapply H2|].
    intros q [i Hi]%list_elem_of_lookup Hq. destruct (decide (i < k)%nat) as [Hlt|Hge].
    + specialize (H1 i q Hi Hlt). lia.
    + destruct (decide (i = k)) as [->|Hik]; [simplify_eq; lia|].
      pose proof (StronglySorted_lookup_lt _ _ k i _ _ Hs Hp Hi ltac:(lia)). lia.
Qed.

(** * Probing *)

(** The [i]-th index probed for a hash value in a table of [m] slots. *)
Definition probe (hash_v m i : Z) : Z := (hash_v mod m + i * (1 + hash_v mod (m - 1))) mod m.

(** The state of the generator after [i] calls. *)
Definition probing (g : double_hash_generator) (hash_v m i : Z) : Prop :=
  dh_k g = 1 + hash_v mod (m - 1) /\ dh_m g = m /\ dh_last g = probe hash_v m i.

Lemma probe_range hash_v m i : 0 < m -> 0 <= probe hash_v m i < m.
Proof. intros. by apply Z.mod_pos_bound. Qed.

Lemma dh_new_probing hash_v m : 1 < m < 2 ^ 62 -> probing (dh_new hash_v m) hash_v m 0.
Proof.
  intros Hm. pose proof (Z.mod_pos_bound hash_v (m - 1) ltac:(lia)).
  split_and!; simpl; [by rewrite u64_small by lia|done|].
  unfold probe. rewrite Z.mul_0_l, Z.add_0_r. by rewrite Z.mod_mod by lia.
Qed.

Lemma dh_next_probing g hash_v m i :
  1 < m < 2 ^ 62 -> probing g hash_v m i ->
  exists g', dh_next g = (probe hash_v m i, g') /\ probing g' hash_v m (i + 1).
Proof.
  intros Hm (Hk&Hmm&Hl). eexists. unfold dh_next. rewrite Hl. split; [done|].
  pose proof (Z.mod_pos_bound hash_v (m - 1) ltac:(lia)).
  pose proof (probe_range hash_v m i ltac:(lia)).
  split_and!; simpl; [done|done|]. rewrite Hk, Hmm, u64_small by lia.
  unfold probe. rewrite Z.add_mod_idemp_l by lia. f_equal. lia.
Qed.

(** For a prime table size the double hash sequence of any hash value
    visits every slot of the table within as many probes as it has slots. *)
Lemma probe_covers hash_v m x :
  m ∈ oa_prime_list -> 0 <= x < m -> exists i, 0 <= i < m /\ probe hash_v m i = x.
Proof.
  intros Hm Hx. pose proof (prime_list_bounds _ Hm). apply prime_list_prime in Hm.
  unfold probe. set (h := hash_v mod m). set (k := 1 + hash_v mod (m - 1)).
  assert (Hk : 1 <= k < m).
  { pose proof (Z.mod_pos_bound hash_v (m - 1) ltac:(lia)). unfold k. lia. }
  pose proof (Z.Bezout_coprime m k (Z.coprime_prime_small m k Hm Hk)) as (v&u&Huv).
  exists (((x - h) * u) mod m). split; [apply Z.mod_pos_bound; lia|].
  rewrite Z.add_mod, Z.mul_mod_idemp_l by lia. rewrite <- Z.add_mod by lia.
  assert (E : u * k = 1 - v * m) by lia.
  replace (h + (x - h) * u * k) with (h + (x - h) * (u * k)) by ring. rewrite E.
  replace (h + (x - h) * (1 - v * m)) with (x + (- (x - h) * v) * m) by ring.
  rewrite Z_mod_plus_full. by apply Z.mod_small.
Qed.

Lemma probe_covers_example : exists i, 0 <= i < 53 /\ probe 123456 53 i = 17.
Proof.
  apply (probe_covers 123456 53 17); [vm_compute; left|vm_compute; intuition congruence].
Defined.

(** The sizes listed for the tables are prime and increasing, and
    [oa_next_prime] returns the least of them that is at least its argument,
    if there is one. *)
Theorem oa_next_prime_least n :
  Forall Z.prime oa_prime_list /\ StronglySorted Z.lt oa_prime_list /\
  oa_next_prime n ∈ oa_prime_list /\
  (n <= 4294967291 -> n <= oa_next_prime n /\
     forall p, p ∈ oa_prime_list -> n <= p -> oa_next_prime n <= p).
Proof.
  split; [apply Forall_forall; apply prime_list_prime|].
  split; [exact prime_list_sorted|apply oa_next_prime_spec].
Qed.
