(* ===== verification/OaHashtable.v ===== *)
(** The open addressing hash table: [oa_hashtable] and [oa_hash_map] of
    src/sbmt_decoder/include/sbmt/hash/oa_hashtable.hpp and
    src/sbmt_decoder/include/sbmt/hash/impl/oa_hashtable.ipp.

    The hash function, the equality of keys and the key extractor are template
    parameters: the class [HashKey] and the variable [extract_key].  Loads are
    computed in [float] (binary32) and [double] (binary64) arithmetic.  A probing
    loop is bounded by the table size; [None] is a failing assertion, an
    undefined conversion, or a probing loop that does not end. *)
From Stdlib Require Import Floats.SpecFloat.
From S2P Require Import Prelude OaTable HashProbe.
Open Scope Z_scope.

(** * Floating point *)

Definition float32_of (z : Z) : spec_float := binary_normalize 24 128 z 0 false.
Definition float64_of (z : Z) : spec_float := binary_normalize 53 1024 z 0 false.
Definition f32_div := SFdiv 24 128.
Definition f32_add := SFadd 24 128.
Definition f32_mul := SFmul 24 128.
Definition f64_mul := SFmul 53 1024.

(** Conversion of a floating point value to [size_t]: the integral part, which
    must be representable. *)
Definition float_to_size (f : spec_float) : option Z :=
  match f with
  | S754_zero _ => Some 0
  | S754_finite s m e =>
      let a := if 0 <=? e then Z.pos m * 2 ^ e else Z.pos m / 2 ^ (- e) in
      let z := if s then - a else a in
      if (0 <=? z) && (z <? 18446744073709551616) then Some z else None
  | _ => None
  end.

(** [0.5f] *)
Definition half32 : spec_float := f32_div (float32_of 1) (float32_of 2).
Definition half64 : spec_float := SFdiv 53 1024 (float64_of 1) (float64_of 2).

(** * Keys *)

Class HashKey (K : Type) := {
  hash_key : K -> Z;
  equal_keys : K -> K -> bool
}.

Class HashKeyLaws (K : Type) `{!HashKey K} : Prop := {
  equal_keys_refl k : equal_keys k k = true;
  equal_keys_sym a b : equal_keys a b = true -> equal_keys b a = true;
  equal_keys_trans a b c : equal_keys a b = true -> equal_keys b c = true -> equal_keys a c = true;
  equal_keys_hash a b : equal_keys a b = true -> hash_key a = hash_key b
}.

(** * [oa_hashtable] *)

Section hashtable.
Context {K V : Type} `{!HashKey K} (extract_key : V -> K).

Record oa_hashtable := mk_hashtable { lf : spec_float; tbl : oa_table_c V }.

(** The constructors, without and with a load factor. *)
Definition new_hashtable (lft : spec_float) (max_occupied : option Z) (n : Z)
  : option (result oa_hashtable) :=
  m ← max_occupied;
  Some (match oa_table m (oa_next_prime (u64 (n + 1))) with
        | Ok t => Ok (mk_hashtable lft t)
        | Throw msg => Throw msg
        end).

Definition oa_hashtable_default (n : Z) : option (result oa_hashtable) :=
  new_hashtable half32 (float_to_size (f64_mul half64 (float64_of (oa_next_prime n)))) n.

Definition oa_hashtable_load (n : Z) (lft : spec_float) : option (result oa_hashtable) :=
  new_hashtable lft (float_to_size (f32_mul lft (float32_of (oa_next_prime n)))) n.

Definition ht_size (h : oa_hashtable) : Z := num_occupied (tbl h).
Definition ht_empty (h : oa_hashtable) : bool := num_occupied (tbl h) =? 0.
Definition ht_max_size (h : oa_hashtable) : Z := max_non_empty (tbl h).
Definition ht_begin (h : oa_hashtable) : option Z := table_begin (tbl h).
Definition ht_end (h : oa_hashtable) : option Z := table_end (tbl h).

(** [status == oa_entry_occupied and equal_keys(extract_key()(value_at(idx)), k)] *)
Definition key_at (t : oa_table_c V) (idx : Z) (k : K) : option bool :=
  st ← status_at t idx;
  if decide (st = oa_entry_occupied)
  then v ← value_at t idx; Some (equal_keys (extract_key v) k)
  else Some false.

Definition probe_fuel (t : oa_table_c V) : nat := Z.to_nat (table_size t).

Fixpoint find_value_loop (fuel : nat) (t : oa_table_c V) (k : K) (idx : Z)
    (hg : double_hash_generator) : option Z :=
  st ← status_at t idx;
  if decide (st = oa_entry_empty) then Some idx
  else
    b ← key_at t idx k;
    if (b : bool) then Some idx
    else match fuel with
         | O => None
         | S fuel => let p := dh_next hg in find_value_loop fuel t k p.1 p.2
         end.

Definition find_value (k : K) (t : oa_table_c V) : option Z :=
  let hg := dh_new (hash_key k) (table_size t) in
  let p := dh_next hg in
  find_value_loop (probe_fuel t) t k p.1 p.2.

(** The inner loop of [find_insertion], once an erased slot was met. *)
Fixpoint find_blank_loop (fuel : nat) (t : oa_table_c V) (k : K) (blank_pos idx : Z)
    (hg : double_hash_generator) : option Z :=
  st ← status_at t idx;
  if decide (st = oa_entry_empty) then Some blank_pos
  else
    b ← key_at t idx k;
    if (b : bool) then Some idx
    else match fuel with
         | O => None
         | S fuel => let p := dh_next hg in find_blank_loop fuel t k blank_pos p.1 p.2
         end.

Fixpoint find_insertion_loop (fuel : nat) (t : oa_table_c V) (k : K) (idx : Z)
    (hg : double_hash_generator) : option Z :=
  st ← status_at t idx;
  if decide (st = oa_entry_empty) then Some idx
  else
    b ← key_at t idx k;
    if (b : bool) then Some idx
    else if decide (st = oa_entry_erased) then find_blank_loop fuel t k idx idx hg
    else match fuel with
         | O => None
         | S fuel => let p := dh_next hg in find_insertion_loop fuel t k p.1 p.2
         end.

Definition find_insertion (k : K) (t : oa_table_c V) : option Z :=
  let hg := dh_new (hash_key k) (table_size t) in
  let p := dh_next hg in
  find_insertion_loop (probe_fuel t) t k p.1 p.2.

(** The size of the new table in [rehash(n)]. *)
Definition grow_size (lft : spec_float) (n : Z) : option Z :=
  s ← float_to_size (f32_add (f32_div (float32_of n) lft) (float32_of 1));
  let new_table_size := oa_next_prime s in
  Some (if new_table_size <=? n then oa_next_prime (u64 (n + 1)) else new_table_size).

Definition rehash_size (h : oa_hashtable) (n : Z) : option Z :=
  if n =? max_non_empty (tbl h) then Some (table_size (tbl h)) else grow_size (lf h) n.

(** The loop of [rehash] over the values of the old table. *)
Fixpoint rehash_loop (vs : list V) (new_table : oa_table_c V) : option (oa_table_c V) :=
  match vs with
  | [] => Some new_table
  | v :: vs =>
      pos ← find_insertion (extract_key v) new_table;
      st ← status_at new_table pos;
      if decide (st = oa_entry_empty)
      then new_table ← set_value_at new_table pos v; rehash_loop vs new_table
      else None
  end.

Definition rehash (n : Z) (h : oa_hashtable) : option (result oa_hashtable) :=
  if n <? num_occupied (tbl h) then Some (Ok h)
  else
    new_table_size ← rehash_size h n;
    match oa_table n new_table_size with
    | Throw msg => Some (Throw msg)
    | Ok new_table =>
        vs ← table_values (tbl h);
        new_table ← rehash_loop vs new_table;
        Some (Ok (mk_hashtable (lf h) new_table))
    end.

(** The condition under which a table full of erased entries is rehashed at
    its present size. *)
Definition rehash_in_place (h : oa_hashtable) : bool :=
  (num_occupied (tbl h) <? max_non_empty (tbl h)) &&
  SFleb (f32_div (float32_of (num_occupied (tbl h))) (float32_of (table_size (tbl h))))
        (f32_div (lf h) (float32_of 2)).

Definition insert_size (h : oa_hashtable) : Z :=
  if rehash_in_place h then max_non_empty (tbl h) else u64 (2 * max_non_empty (tbl h) + 1).

(** [insert(obj)]: an iterator to the value with the key of [obj], and whether
    [obj] was inserted. *)
Definition ht_insert (obj : V) (h : oa_hashtable) : option (result (Z * bool * oa_hashtable)) :=
  pos ← find_insertion (extract_key obj) (tbl h);
  st ← status_at (tbl h) pos;
  let inserting := negb (bool_decide (st = oa_entry_occupied)) in
  if inserting then
    t ← set_value_at (tbl h) pos obj;
    let h := mk_hashtable (lf h) t in
    if num_non_empty t >? max_non_empty t then
      r ← rehash (insert_size h) h;
      match r with
      | Throw msg => Some (Throw msg)
      | Ok h =>
          pos ← find_value (extract_key obj) (tbl h);
          itr ← position_iterator (tbl h) pos;
          Some (Ok (itr, inserting, h))
      end
    else itr ← position_iterator t pos; Some (Ok (itr, inserting, h))
  else itr ← position_iterator (tbl h) pos; Some (Ok (itr, inserting, h)).

(** [insert(first, last)] *)
Fixpoint ht_insert_range (objs : list V) (h : oa_hashtable) : option (result oa_hashtable) :=
  match objs with
  | [] => Some (Ok h)
  | obj :: objs =>
      r ← ht_insert obj h;
      match r with
      | Ok p => ht_insert_range objs p.2
      | Throw msg => Some (Throw msg)
      end
  end.

(** [erase(iterator)] *)
Definition ht_erase_at (position : Z) (h : oa_hashtable) : option oa_hashtable :=
  t ← erase_value_at_iterator (tbl h) position; Some (mk_hashtable (lf h) t).

(** [erase(k)] *)
Definition ht_erase (k : K) (h : oa_hashtable) : option (Z * oa_hashtable) :=
  pos ← find_value k (tbl h);
  st ← status_at (tbl h) pos;
  if decide (st = oa_entry_occupied)
  then t ← erase_value_at (tbl h) pos; Some (1, mk_hashtable (lf h) t)
  else Some (0, h).

Definition ht_clear (h : oa_hashtable) : oa_hashtable := mk_hashtable (lf h) (oa_clear (tbl h)).

(** [swap]: the tables are exchanged, the load factors are not. *)
Definition ht_swap (h other : oa_hashtable) : oa_hashtable * oa_hashtable :=
  (mk_hashtable (lf h) (tbl other), mk_hashtable (lf other) (tbl h)).

Definition ht_find (k : K) (h : oa_hashtable) : option Z :=
  pos ← find_value k (tbl h);
  st ← status_at (tbl h) pos;
  if decide (st = oa_entry_occupied) then position_iterator (tbl h) pos else table_end (tbl h).

Definition load_factor (h : oa_hashtable) : spec_float :=
  f32_div (float32_of (num_non_empty (tbl h))) (float32_of (table_size (tbl h))).

Definition max_load_factor (h : oa_hashtable) : spec_float :=
  f32_div (float32_of (max_non_empty (tbl h))) (float32_of (table_size (tbl h))).
End hashtable.

Arguments oa_hashtable V : clear implicits.

(** * [oa_hash_map]: pairs of a key and a mapped value *)

Section hash_map.
Context {K V : Type} `{!HashKey K}.

(** [at_default(key, def)]; the subscript operator is [at_default(key, V())].
    The result is the address of the mapped value, an iterator. *)
Definition hm_at_default (key : K) (def : V) (h : oa_hashtable (K * V))
  : option (result (Z * oa_hashtable (K * V))) :=
  r ← ht_insert fst (key, def) h;
  Some (match r with Ok p => Ok (p.1.1, p.2) | Throw msg => Throw msg end).

(** [at_throw(key)] *)
Definition hm_at_throw (key : K) (h : oa_hashtable (K * V)) : option (result V) :=
  i ← ht_find fst key h;
  e ← ht_end h;
  if decide (i = e)
  then Some (Throw "Tried to get a key from oa_hash_map that isn't there")
  else p ← iterator_dereference (tbl h) i; Some (Ok p.2).

(** [at(key)]: the key must be there. *)
Definition hm_at (key : K) (h : oa_hashtable (K * V)) : option V :=
  i ← ht_find fst key h;
  e ← ht_end h;
  if decide (i = e) then None else p ← iterator_dereference (tbl h) i; Some p.2.
End hash_map.

(** * Lemmas *)

(** No two values of the list have equal keys. *)
Fixpoint keys_distinct {K V} `{!HashKey K} (extract_key : V -> K) (l : list V) : Prop :=
  match l with
  | [] => True
  | v :: l => (forall w, w ∈ l -> equal_keys (extract_key v) (extract_key w) = false) /\
              keys_distinct extract_key l
  end.

Definition occ {V} (v : V) : oa_entry V := mk_entry oa_entry_occupied (Some v).

Section lemmas.
Context {K V : Type} `{!HashKey K, !HashKeyLaws K} (extract_key : V -> K).
Implicit Types (t : oa_table_c V) (slots : list (oa_entry V)) (h : oa_hashtable V).

Definition is_filled slots (i : Z) : Prop := filled <$> slots !! Z.to_nat i = Some true.

(** The invariant of the slots of a table of [m] slots: a held value is found
    by probing for its key, and keys are held once. *)
Record slots_ok (m : Z) slots : Prop := {
  so_reach : forall i v, 0 <= i < m -> slots !! Z.to_nat i = Some (occ v) ->
    exists r, 0 <= r /\ probe (hash_key (extract_key v)) m r = i /\
      forall j, 0 <= j < r -> is_filled slots (probe (hash_key (extract_key v)) m j);
  so_distinct : forall i j v w, slots !! i = Some (occ v) -> slots !! j = Some (occ w) ->
    equal_keys (extract_key v) (extract_key w) = true -> i = j
}.

Record hash_table t slots : Prop := {
  hb_table : table_ok t slots;
  hb_prime : table_size t ∈ oa_prime_list;
  hb_slots : slots_ok (table_size t) slots
}.

Lemma hash_table_size t slots : hash_table t slots -> 53 <= table_size t <= 4294967291.
Proof. intros [_ Hp _]. by apply prime_list_bounds. Qed.

Definition matches (k : K) (e : oa_entry V) : bool :=
  match stat e, value e with
  | oa_entry_occupied, Some v => equal_keys (extract_key v) k
  | _, _ => false
  end.

Lemma matches_occ k e : entry_ok e -> matches k e = true ->
  exists v, e = occ v /\ equal_keys (extract_key v) k = true.
Proof. destruct e as [[] [v|]]; try done. intros _ H. by exists v. Qed.

Lemma key_at_slot t slots i e k :
  table_ok t slots -> 0 <= i < table_size t -> slots !! Z.to_nat i = Some e ->
  key_at extract_key t i k = Some (matches k e).
Proof.
  intros Ht Hi He. unfold key_at. rewrite (status_at_slot t slots i Ht Hi), He. cbn.
  pose proof (to_slots _ _ Ht) as Hok. rewrite Forall_lookup in Hok. specialize (Hok _ _ He).
  destruct e as [[] [v|]]; try done; cbn. by rewrite (value_at_slot t slots i v Ht Hi He).
Qed.

(** A table with fewer filled slots than slots has an empty one. *)
Lemma empty_slot slots :
  Forall entry_ok slots -> count filled slots < Z.of_nat (length slots) ->
  exists i, slots !! i = Some empty_entry.
Proof.
  induction 1 as [|e l He Hl IH]; [done|]. rewrite count_cons. simpl. intros Hc.
  destruct (filled e) eqn:E.
  - destruct IH as [i Hi]; [lia|]. by exists (S i).
  - exists 0%nat. unfold filled in E. apply negb_false_iff, bool_decide_eq_true in E.
    by destruct e as [[] [v|]].
Qed.

(** The first empty slot that probing for a hash value meets. *)
Lemma first_empty t slots hv :
  hash_table t slots -> num_non_empty t < table_size t ->
  exists e, 0 <= e < table_size t /\ slots !! Z.to_nat (probe hv (table_size t) e) = Some empty_entry /\
    forall j, 0 <= j < e -> is_filled slots (probe hv (table_size t) j).
Proof.
  intros Hh Hlt. pose proof (hash_table_size _ _ Hh) as Hm. pose proof (hb_table _ _ Hh) as Ht.
  destruct (empty_slot slots (to_slots _ _ Ht)) as [x Hx].
  { rewrite <- (to_filled _ _ Ht), <- (to_size _ _ Ht). done. }
  assert (Hxm : 0 <= Z.of_nat x < table_size t).
  { apply lookup_lt_Some in Hx. rewrite (to_size _ _ Ht). lia. }
  destruct (probe_covers hv _ _ (hb_prime _ _ Hh) Hxm) as (i&Hi&Hpi).
  assert (He : slots !! Z.to_nat (probe hv (table_size t) i) = Some empty_entry).
  { by rewrite Hpi, Nat2Z.id. }
  clear x Hx Hxm Hpi.
  destruct (least_Z (fun j => filled <$> slots !! Z.to_nat (probe hv (table_size t) j) = Some false) i)
    as (e&Hei&He'&Hmin); [lia|by rewrite He|].
  assert (Hslot : forall j, exists ej,
    slots !! Z.to_nat (probe hv (table_size t) j) = Some ej /\ entry_ok ej).
  { intros j. apply (slot_lookup t slots _ Ht), probe_range. lia. }
  exists e. split_and!; [lia|lia| |].
  - destruct (Hslot e) as (ee&Hee&Hok). rewrite Hee in He' |- *. f_equal.
    destruct ee as [[] [v|]]; done.
  - intros j Hj. specialize (Hmin j Hj). unfold is_filled.
    destruct (Hslot j) as (ej&Hej&_). rewrite Hej in Hmin |- *. simpl in *.
    by destruct (filled ej).
Qed.

(** ** The probing loops *)

Section probing.
Context t slots (Hh : hash_table t slots) (k : K).
Abbreviation m := (table_size t).
Abbreviation P := (probe (hash_key k) m).
Context (e : Z) (He : 0 <= e < m) (Hempty : slots !! Z.to_nat (P e) = Some empty_entry).
Context (Hfilled : forall j, 0 <= j < e -> is_filled slots (P j)).

(** No probe from [i] up to [j] meets the key. *)
Definition no_match (i j : Z) : Prop :=
  forall x en, i <= x < j -> slots !! Z.to_nat (P x) = Some en -> matches k en = false.

Lemma probe_entry j :
  exists en, slots !! Z.to_nat (P j) = Some en /\ entry_ok en /\ 0 <= P j < m /\
    status_at t (P j) = Some (stat en) /\ key_at extract_key t (P j) k = Some (matches k en).
Proof.
  pose proof (hash_table_size _ _ Hh). pose proof (hb_table _ _ Hh) as Ht.
  assert (Hr : 0 <= P j < m) by (apply probe_range; lia).
  destruct (slot_lookup t slots _ Ht Hr) as (en&Hen&Hok). exists en.
  rewrite (status_at_slot t slots _ Ht Hr), Hen, (key_at_slot t slots _ en k Ht Hr Hen).
  split_and!; (done || lia).
Qed.

Lemma status_filled j en : 0 <= j < e -> slots !! Z.to_nat (P j) = Some en -> stat en <> oa_entry_empty.
Proof.
  intros Hj Hen. specialize (Hfilled j Hj). unfold is_filled, filled in Hfilled. rewrite Hen in Hfilled.
  simpl in Hfilled. intros E. by rewrite E in Hfilled.
Qed.

Lemma no_match_step i j en :
  no_match i j -> slots !! Z.to_nat (P j) = Some en -> matches k en = false -> no_match i (j + 1).
Proof.
  intros Hn Hen Hm x ex Hx Hex. destruct (decide (x = j)) as [->|]; [by simplify_eq|].
  apply (Hn x ex); [lia|done].
Qed.

Lemma probing_next hg j : probing hg (hash_key k) m j ->
  exists hg', dh_next hg = (P j, hg') /\ probing hg' (hash_key k) m (j + 1).
Proof. intros Hp. pose proof (hash_table_size _ _ Hh). apply dh_next_probing; [lia|done]. Qed.

Lemma find_value_loop_spec fuel i j hg :
  0 <= j <= e -> e - j <= Z.of_nat fuel -> probing hg (hash_key k) m (j + 1) -> no_match i j ->
  exists r en, find_value_loop extract_key fuel t k (P j) hg = Some (P r) /\ j <= r <= e /\
    no_match i r /\ slots !! Z.to_nat (P r) = Some en /\ (r = e \/ matches k en = true).
Proof.
  revert j hg. induction fuel as [|fuel IH]; intros j hg Hj Hf Hp Hn;
    destruct (probe_entry j) as (en&Hen&Hok&Hr&Hst&Hkey); cbn [find_value_loop]; rewrite Hst;
    cbn [mbind option_bind];
    (destruct (decide (j = e)) as [->|Hne];
      [rewrite Hempty in Hen; simplify_eq; rewrite decide_True by done; exists e, empty_entry;
       split_and!; (done || lia || by left)|]); [lia|].
  rewrite decide_False by (eapply status_filled; [|exact Hen]; lia).
  rewrite Hkey. cbn [mbind option_bind]. destruct (matches k en) eqn:Hm.
  { exists j, en. split_and!; (done || lia || by right). }
  destruct (probing_next hg (j + 1) Hp) as (hg'&->&Hp').
  destruct (IH (j + 1) hg') as (r&er&Hl&Hr'&Hn'&Her&Hres);
    [lia|lia|done|by eapply no_match_step|].
  exists r, er. split_and!; (done || lia).
Qed.

Lemma find_blank_loop_spec fuel i j hg blank :
  0 <= j <= e -> e - j <= Z.of_nat fuel -> probing hg (hash_key k) m (j + 1) -> no_match i j ->
  (find_blank_loop extract_key fuel t k blank (P j) hg = Some blank /\ no_match i e) \/
  exists r en, find_blank_loop extract_key fuel t k blank (P j) hg = Some (P r) /\ j <= r < e /\
    slots !! Z.to_nat (P r) = Some en /\ matches k en = true.
Proof.
  revert j hg. induction fuel as [|fuel IH]; intros j hg Hj Hf Hp Hn;
    destruct (probe_entry j) as (en&Hen&Hok&Hr&Hst&Hkey); cbn [find_blank_loop]; rewrite Hst;
    cbn [mbind option_bind];
    (destruct (decide (j = e)) as [->|Hne];
      [rewrite Hempty in Hen; simplify_eq; rewrite decide_True by done; by left|]); [lia|].
  rewrite decide_False by (eapply status_filled; [|exact Hen]; lia).
  rewrite Hkey. cbn [mbind option_bind]. destruct (matches k en) eqn:Hm.
  { right. exists j, en. split_and!; (done || lia). }
  destruct (probing_next hg (j + 1) Hp) as (hg'&->&Hp').
  destruct (IH (j + 1) hg') as [?|(r&er&Hl&Hr'&Her&Hres)];
    [lia|lia|done|by eapply no_match_step|by left|].
  right. exists r, er. split_and!; (done || lia).
Qed.

Lemma find_insertion_loop_spec fuel i j hg :
  0 <= j <= e -> e - j <= Z.of_nat fuel -> probing hg (hash_key k) m (j + 1) -> no_match i j ->
  exists r en, find_insertion_loop extract_key fuel t k (P j) hg = Some (P r) /\ j <= r <= e /\
    slots !! Z.to_nat (P r) = Some en /\
    (matches k en = true \/ (is_blank (stat en) = true /\ no_match i e)).
Proof.
  revert j hg. induction fuel as [|fuel IH]; intros j hg Hj Hf Hp Hn;
    destruct (probe_entry j) as (en&Hen&Hok&Hr&Hst&Hkey); cbn [find_insertion_loop]; rewrite Hst;
    cbn [mbind option_bind];
    (destruct (decide (j = e)) as [->|Hne];
      [rewrite Hempty in Hen; simplify_eq; rewrite decide_True by done; exists e, empty_entry;
       split_and!; (done || lia || by right)|]); [lia|].
  rewrite decide_False by (eapply status_filled; [|exact Hen]; lia).
  rewrite Hkey. cbn [mbind option_bind]. destruct (matches k en) eqn:Hm.
  { exists j, en. split_and!; (done || lia || by left). }
  destruct (decide (stat en = oa_entry_erased)) as [Her|Her].
  - destruct (find_blank_loop_spec (S fuel) i j hg (P j)) as [[Hb Hno]|(r&er&Hb&Hr'&Herr&Hmr)];
      [lia|lia|done|done| |].
    + exists j, en. split_and!; (done || lia || idtac). right. split; [by rewrite Her|done].
    + exists r, er. split_and!; (done || lia || by left).
  - destruct (probing_next hg (j + 1) Hp) as (hg'&->&Hp').
    destruct (IH (j + 1) hg') as (r&er&Hl&Hr'&Her'&Hres); [lia|lia|done|by eapply no_match_step|].
    exists r, er. split_and!; (done || lia).
Qed.

(** A key that probing does not meet before the first empty slot is not held. *)
Lemma no_match_held :
  no_match 0 e -> forall v, v ∈ held slots -> equal_keys (extract_key v) k = false.
Proof.
  intros Hn v Hv. destruct (equal_keys (extract_key v) k) eqn:E; [|done]. exfalso.
  pose proof (hb_table _ _ Hh) as Ht.
  apply (elem_of_held _ _ (to_slots _ _ Ht)) in Hv as [i Hi].
  pose proof (lookup_lt_Some _ _ _ Hi) as Hlt. pose proof (to_size _ _ Ht).
  destruct (so_reach _ _ (hb_slots _ _ Hh) (Z.of_nat i) v) as (r&Hr&Hpr&Hf);
    [lia|by rewrite Nat2Z.id|].
  rewrite (equal_keys_hash _ _ E) in Hpr, Hf.
  destruct (Z.lt_trichotomy r e) as [Hlt'|[->|Hgt]].
  - assert (Hm : matches k (occ v) = false).
    { apply (Hn r); [lia|]. by rewrite Hpr, Nat2Z.id. }
    cbn in Hm. congruence.
  - rewrite Hpr, Nat2Z.id, Hi in Hempty. done.
  - specialize (Hf e ltac:(lia)). unfold is_filled in Hf. by rewrite Hempty in Hf.
Qed.
End probing.

(** ** [find_value] and [find_insertion] *)

(** What a probe for [k] returns: the slot of the value with that key, or a
    slot without value when no value has it. *)
Definition found (k : K) slots (i : Z) : Prop :=
  (exists v, slots !! Z.to_nat i = Some (occ v) /\ equal_keys (extract_key v) k = true) \/
  ((forall v, v ∈ held slots -> equal_keys (extract_key v) k = false) /\
   exists en, slots !! Z.to_nat i = Some en /\ is_blank (stat en) = true).

Lemma first_probe t slots k :
  hash_table t slots ->
  exists hg, dh_next (dh_new (hash_key k) (table_size t)) = (probe (hash_key k) (table_size t) 0, hg) /\
    probing hg (hash_key k) (table_size t) (0 + 1).
Proof.
  intros Hh. pose proof (hash_table_size _ _ Hh).
  apply dh_next_probing; [lia|]. apply dh_new_probing. lia.
Qed.

Lemma find_value_spec t slots k :
  hash_table t slots -> num_non_empty t < table_size t ->
  exists i, find_value extract_key k t = Some i /\ 0 <= i < table_size t /\ found k slots i.
Proof.
  intros Hh Hlt. pose proof (hash_table_size _ _ Hh).
  destruct (first_empty t slots (hash_key k) Hh Hlt) as (e&He&Hemp&Hfill).
  destruct (first_probe t slots k Hh) as (hg&Hnext&Hp).
  unfold find_value. rewrite Hnext. cbn [fst snd].
  destruct (find_value_loop_spec t slots Hh k e Hemp Hfill (probe_fuel t) 0 0 hg)
    as (r&en&Hl&Hr&Hno&Hen&Hres); [lia|unfold probe_fuel; lia|done|intros ???; lia|].
  rewrite Hl. eexists. split; [done|]. split; [apply probe_range; lia|].
  destruct Hres as [->|Hm].
  - right. split; [by eapply no_match_held|]. exists empty_entry. done.
  - left. apply matches_occ in Hm as (v&->&Hv); [by exists v|].
    pose proof (to_slots _ _ (hb_table _ _ Hh)) as Hok. rewrite Forall_lookup in Hok. by eapply Hok.
Qed.

Lemma find_insertion_spec t slots k :
  hash_table t slots -> num_non_empty t < table_size t ->
  exists i r, find_insertion extract_key k t = Some i /\ 0 <= i < table_size t /\ found k slots i /\
    0 <= r /\ probe (hash_key k) (table_size t) r = i /\
    forall j, 0 <= j < r -> is_filled slots (probe (hash_key k) (table_size t) j).
Proof.
  intros Hh Hlt. pose proof (hash_table_size _ _ Hh).
  destruct (first_empty t slots (hash_key k) Hh Hlt) as (e&He&Hemp&Hfill).
  destruct (first_probe t slots k Hh) as (hg&Hnext&Hp).
  unfold find_insertion. rewrite Hnext. cbn [fst snd].
  destruct (find_insertion_loop_spec t slots Hh k e Hemp Hfill (probe_fuel t) 0 0 hg)
    as (r&en&Hl&Hr&Hen&Hres); [lia|unfold probe_fuel; lia|done|intros ???; lia|].
  rewrite Hl. exists (probe (hash_key k) (table_size t) r), r. split; [done|].
  split; [apply probe_range; lia|]. split_and!; [|lia|done|intros j Hj; apply Hfill; lia].
  destruct Hres as [Hm|[Hb Hno]].
  - left. apply matches_occ in Hm as (v&->&Hv); [by exists v|].
    pose proof (to_slots _ _ (hb_table _ _ Hh)) as Hok. rewrite Forall_lookup in Hok. by eapply Hok.
  - right. split; [by eapply no_match_held|]. by exists en.
Qed.

(** ** Updates of a slot *)

Lemma is_filled_insert slots i en j :
  filled en = true -> is_filled slots j -> is_filled (<[i := en]> slots) j.
Proof.
  unfold is_filled. intros Hen Hj. destruct (decide (i = Z.to_nat j)) as [->|Hne].
  - rewrite list_lookup_insert_eq; [simpl; by rewrite Hen|].
    destruct (slots !! Z.to_nat j) eqn:E; [by eapply lookup_lt_Some|done].
  - by rewrite list_lookup_insert_ne.
Qed.

(** A new value in a blank slot at the end of its probe sequence. *)
Lemma slots_ok_set m slots i r v en :
  slots_ok m slots -> 0 <= i < m -> slots !! Z.to_nat i = Some en -> 0 <= r ->
  probe (hash_key (extract_key v)) m r = i ->
  (forall j, 0 <= j < r -> is_filled slots (probe (hash_key (extract_key v)) m j)) ->
  (forall w, w ∈ held slots -> equal_keys (extract_key w) (extract_key v) = false) ->
  slots_ok m (<[Z.to_nat i := occ v]> slots).
Proof.
  intros [Hreach Hdist] Hi Hen Hr Hpr Hf Hno.
  assert (Hheld : forall j w, slots !! j = Some (occ w) -> w ∈ held slots).
  { intros j w Hj. unfold held. apply list_elem_of_omap. eexists.
    split; [by eapply list_elem_of_lookup_2|done]. }
  assert (Hlen : (Z.to_nat i < length slots)%nat) by by eapply lookup_lt_Some.
  split.
  - intros j w Hj Hw. destruct (decide (j = i)) as [->|Hne].
    + rewrite list_lookup_insert_eq in Hw by done. simplify_eq.
      exists r. split_and!; [done|done|]. intros x Hx. apply is_filled_insert; [done|by apply Hf].
    + rewrite list_lookup_insert_ne in Hw by lia.
      destruct (Hreach j w Hj Hw) as (x&Hx&Hpx&Hfx). exists x. split_and!; [done|done|].
      intros y Hy. apply is_filled_insert; [done|by apply Hfx].
  - intros a b w1 w2 Ha Hb Heq.
    destruct (decide (a = Z.to_nat i)) as [->|Hna], (decide (b = Z.to_nat i)) as [->|Hnb]; [done| | |].
    + rewrite list_lookup_insert_eq in Ha by done. rewrite list_lookup_insert_ne in Hb by done.
      simplify_eq. apply equal_keys_sym in Heq. by rewrite (Hno w2 (Hheld _ _ Hb)) in Heq.
    + rewrite list_lookup_insert_eq in Hb by done. rewrite list_lookup_insert_ne in Ha by done.
      simplify_eq. by rewrite (Hno w1 (Hheld _ _ Ha)) in Heq.
    + rewrite list_lookup_insert_ne in Ha by done. rewrite list_lookup_insert_ne in Hb by done.
      by eapply Hdist.
Qed.

(** Erasing a slot keeps it filled for the probes that pass it. *)
Lemma slots_ok_erase m slots i :
  slots_ok m slots -> slots_ok m (<[i := mk_entry oa_entry_erased None]> slots).
Proof.
  intros [Hreach Hdist].
  assert (Hold : forall j w, <[i := mk_entry oa_entry_erased None]> slots !! j = Some (occ w) ->
    slots !! j = Some (occ w)).
  { intros j w Hw. apply list_lookup_insert_Some in Hw as [(_&?&_)|(_&?)]; done. }
  split.
  - intros j w Hj Hw%Hold. destruct (Hreach j w Hj Hw) as (x&Hx&Hpx&Hfx).
    exists x. split_and!; [done|done|]. intros y Hy. apply is_filled_insert; [done|by apply Hfx].
  - intros a b w1 w2 Ha%Hold Hb%Hold. by apply Hdist.
Qed.

Lemma slots_ok_empty m n : slots_ok m (replicate n empty_entry).
Proof.
  split.
  - intros i v _ H. by apply lookup_replicate in H as [? _].
  - intros i j v w H. by apply lookup_replicate in H as [? _].
Qed.

(** Placing a value whose key is not held. *)
Lemma set_found t slots i r v :
  hash_table t slots -> 0 <= i < table_size t -> 0 <= r ->
  probe (hash_key (extract_key v)) (table_size t) r = i ->
  (forall j, 0 <= j < r -> is_filled slots (probe (hash_key (extract_key v)) (table_size t) j)) ->
  (forall w, w ∈ held slots -> equal_keys (extract_key w) (extract_key v) = false) ->
  (exists en, slots !! Z.to_nat i = Some en /\ is_blank (stat en) = true) ->
  exists t' slots', set_value_at t i v = Some t' /\ hash_table t' slots' /\
    slots' = <[Z.to_nat i := occ v]> slots /\ held slots' ≡ₚ v :: held slots /\
    table_size t' = table_size t /\ max_non_empty t' = max_non_empty t /\
    num_non_empty t' <= num_non_empty t + 1.
Proof.
  intros [Ht Hp Hs] Hi Hr Hpr Hf Hno (en&Hen&Hb).
  destruct (set_value_at_slot t slots i v Ht Hi) as (t'&Hset&Ht'&Hsize&Hcap).
  exists t', (<[Z.to_nat i := occ v]> slots). split_and!; try done.
  - split; [done|by rewrite Hsize|]. rewrite Hsize. by eapply slots_ok_set.
  - destruct (held_insert slots (Z.to_nat i) en (occ v) Hen) as [H1 H2].
    pose proof (to_slots _ _ Ht) as Hok. rewrite Forall_lookup in Hok. specialize (Hok _ _ Hen).
    rewrite H1, H2. by destruct en as [[] [w|]].
  - rewrite (to_filled _ _ Ht'), (to_filled _ _ Ht), (count_insert _ _ _ en) by done.
    destruct (filled en), (filled _); lia.
Qed.

(** ** The hash table as a finite map

    [represents h l]: the hash table [h] holds the values of [l], in some
    order. *)
Definition ht_ok h slots : Prop :=
  hash_table (tbl h) slots /\ 0 <= max_non_empty (tbl h) /\
  num_non_empty (tbl h) <= max_non_empty (tbl h).

Definition represents h (l : list V) : Prop := exists slots, ht_ok h slots /\ l ≡ₚ held slots.

#[export] Instance represents_perm h : Proper ((≡ₚ) ==> iff) (represents h).
Proof.
  intros l1 l2 Hl. unfold represents.
  split; intros (slots&?&Hp); exists slots; (split; [done|]); [by rewrite <- Hl|by rewrite Hl].
Qed.

(** Two values of [l] with equal keys are at the same place. *)
Lemma keys_distinct_held slots :
  Forall entry_ok slots ->
  (forall i j v w, slots !! i = Some (occ v) -> slots !! j = Some (occ w) ->
    equal_keys (extract_key v) (extract_key w) = true -> i = j) ->
  keys_distinct extract_key (held slots).
Proof.
  induction 1 as [|e l He Hl IH]; intros Hd; [done|].
  assert (IH' : keys_distinct extract_key (held l)).
  { apply IH. intros i j v w Hi Hj Heq. specialize (Hd (S i) (S j) v w Hi Hj Heq). lia. }
  unfold held. csimpl. destruct e as [[] [v|]]; try done. csimpl. split; [|done].
  intros w Hw. change (omap value l) with (held l) in Hw. apply (elem_of_held _ _ Hl) in Hw as [j Hj].
  destruct (equal_keys _ _) eqn:Heq; [|done]. by specialize (Hd 0%nat (S j) v w eq_refl Hj Heq).
Qed.

Lemma keys_distinct_perm l1 l2 :
  l1 ≡ₚ l2 -> keys_distinct extract_key l1 -> keys_distinct extract_key l2.
Proof.
  induction 1 as [|v l1 l2 Hl IH|v w l|l1 l2 l3 _ IH1 _ IH2]; simpl; [done| | |by auto].
  - intros [Hv Hd]. split; [|auto]. intros w Hw. apply Hv. by rewrite Hl.
  - intros [Hw [Hv Hd]]. split_and!; [|intros x Hx; apply Hw; by right|done].
    intros x [->|Hx]%elem_of_cons; [|by apply Hv].
    destruct (equal_keys (extract_key v) (extract_key w)) eqn:E; [|done].
    apply equal_keys_sym in E. by rewrite (Hw v ltac:(left)) in E.
Qed.

Lemma hash_table_distinct t slots : hash_table t slots -> keys_distinct extract_key (held slots).
Proof.
  intros [Ht _ Hs]. apply keys_distinct_held; [apply (to_slots _ _ Ht)|apply (so_distinct _ _ Hs)].
Qed.

(** Without erased entries, the filled slots are the occupied ones. *)
Definition never_erased slots : Prop := Forall (fun e => stat e <> oa_entry_erased) slots.

Lemma never_erased_count slots :
  Forall entry_ok slots -> never_erased slots -> count filled slots = Z.of_nat (length (held slots)).
Proof.
  intros Hok Hne. rewrite <- held_occupied by done.
  induction Hok as [|e l He Hl IH]; [done|]. apply Forall_cons in Hne as [He' Hne].
  rewrite !count_cons, IH by done. by destruct e as [[] [v|]].
Qed.

Lemma rehash_loop_spec vs t slots :
  hash_table t slots -> never_erased slots ->
  num_non_empty t + Z.of_nat (length vs) < table_size t + 1 ->
  keys_distinct extract_key (vs ++ held slots) ->
  exists t' slots', rehash_loop extract_key vs t = Some t' /\ hash_table t' slots' /\
    held slots' ≡ₚ vs ++ held slots /\ table_size t' = table_size t /\
    max_non_empty t' = max_non_empty t /\ num_non_empty t' <= num_non_empty t + Z.of_nat (length vs).
Proof.
  revert t slots. induction vs as [|v vs IH]; intros t slots Hh Hne Hc Hd.
  { exists t, slots. simpl. split_and!; (done || lia). }
  destruct Hd as [Hv Hd].
  assert (Hno : forall w, w ∈ held slots -> equal_keys (extract_key w) (extract_key v) = false).
  { intros w Hw. destruct (equal_keys (extract_key w) _) eqn:E; [|done].
    apply equal_keys_sym in E. rewrite Hv in E; [done|]. apply elem_of_app. by right. }
  destruct (find_insertion_spec t slots (extract_key v) Hh) as (i&r&Hi&Hir&Hf&Hr&Hpr&Hfill);
    [simpl in Hc; lia|].
  destruct Hf as [(w&Hw&Heq)|[_ (en&Hen&Hb)]].
  { rewrite Hno in Heq; [done|]. unfold held. apply list_elem_of_omap. eexists.
    split; [by eapply list_elem_of_lookup_2|done]. }
  assert (Hst : stat en = oa_entry_empty).
  { unfold never_erased in Hne. rewrite Forall_lookup in Hne. specialize (Hne _ _ Hen).
    by destruct en as [[] ?]. }
  destruct (set_found t slots i r v Hh Hir Hr Hpr Hfill Hno) as (t1&s1&Hset&Hh1&->&Hp1&Hs1&Hc1&Hn1).
  { by exists en. }
  destruct (IH t1 (<[Z.to_nat i := occ v]> slots) Hh1) as (t2&s2&Hl&Hh2&Hp2&Hs2&Hc2&Hn2).
  - apply Forall_insert; [done|]. done.
  - rewrite Hs1. simpl in Hc. lia.
  - apply (keys_distinct_perm (v :: vs ++ held slots)); [|by split].
    by rewrite Hp1, Permutation_middle.
  - exists t2, s2. cbn [rehash_loop]. rewrite Hi. cbn [mbind option_bind].
    rewrite (status_at_slot t slots i (hb_table _ _ Hh) Hir), Hen. cbn [fmap option_fmap option_map mbind option_bind].
    rewrite decide_True by done. rewrite Hset. cbn [mbind option_bind]. split_and!; try done; [|lia|lia|simpl; lia].
    rewrite Hp2, Hp1. simpl. by rewrite Permutation_middle.
Qed.

Lemma rehash_spec n h slots s :
  hash_table (tbl h) slots -> num_occupied (tbl h) <= n -> rehash_size h n = Some s -> n < s ->
  exists h' slots', rehash extract_key n h = Some (Ok h') /\ ht_ok h' slots' /\
    held slots' ≡ₚ held slots /\ lf h' = lf h /\ max_non_empty (tbl h') = n /\
    table_size (tbl h') = s /\ num_non_empty (tbl h') <= num_occupied (tbl h).
Proof.
  intros Hh Hn Hs Hns. pose proof (hb_table _ _ Hh) as Ht. unfold rehash.
  replace (n <? num_occupied (tbl h)) with false by lia. rewrite Hs. cbn [mbind option_bind].
  assert (Hprime : s ∈ oa_prime_list).
  { unfold rehash_size, grow_size in Hs. destruct (n =? _); [simplify_eq; apply (hb_prime _ _ Hh)|].
    destruct (float_to_size _) as [x|]; simplify_eq/=. destruct (_ <=? _); apply oa_next_prime_spec. }
  pose proof (prime_list_bounds _ Hprime).
  destruct (oa_table_new_ok (V := V) n s) as (t0&->&Ht0&Hsize0&Hcap0); [lia|lia|].
  rewrite (table_values_held_eq _ _ Ht). cbn [mbind option_bind].
  pose proof (to_occ _ _ Ht) as Hocc. rewrite (held_occupied _ (to_slots _ _ Ht)) in Hocc.
  assert (Hn0 : num_non_empty t0 = 0).
  { rewrite (to_filled _ _ Ht0). by rewrite count_replicate_empty. }
  assert (Hheld0 : held (replicate (Z.to_nat s) (@empty_entry V)) = []).
  { apply held_replicate_empty. }
  destruct (rehash_loop_spec (held slots) t0 (replicate (Z.to_nat s) empty_entry))
    as (t1&s1&->&Hh1&Hp1&Hs1&Hc1&Hn1).
  - split; [done|by rewrite Hsize0|apply slots_ok_empty].
  - by apply Forall_replicate.
  - lia.
  - rewrite Hheld0, app_nil_r. by eapply hash_table_distinct.
  - rewrite Hheld0, app_nil_r in Hp1. eexists _, s1. cbn [mbind option_bind]. split; [done|].
    unfold ht_ok. cbn [tbl lf]. pose proof (to_occ _ _ Ht). pose proof (count_bounds occupied slots).
    split_and!; try done; cbn [tbl]; lia.
Qed.

Lemma ht_ok_room h slots : ht_ok h slots -> num_non_empty (tbl h) < table_size (tbl h).
Proof. intros ([Ht _ _]&_&Hle). pose proof (to_cap _ _ Ht). lia. Qed.

Lemma position_iterator_occ t slots i v :
  table_ok t slots -> 0 <= i < table_size t -> slots !! Z.to_nat i = Some (occ v) ->
  position_iterator t i = Some (i + 1) /\ iterator_dereference t (i + 1) = Some v /\
  i + 1 <> table_size t + 1.
Proof.
  intros Ht Hi Hv. unfold position_iterator, oa_iterator, iterator_dereference, real_index, table_fuel.
  replace (_ && _) with true by lia. cbn [mbind option_bind]. rewrite Nat.add_comm. cbn [Nat.add skip_blank].
  rewrite (entry_at_slot t slots i) by (done || lia).
  replace (i =? table_size t) with false by lia. rewrite Hv. cbn. split_and!; (done || lia).
Qed.

(** ** [insert] *)

(** The table after placing [obj] in a slot found by [find_insertion]. *)
Lemma ht_insert_place h slots obj i r :
  ht_ok h slots -> find_insertion extract_key (extract_key obj) (tbl h) = Some i ->
  0 <= i < table_size (tbl h) -> 0 <= r ->
  probe (hash_key (extract_key obj)) (table_size (tbl h)) r = i ->
  (forall j, 0 <= j < r ->
     is_filled slots (probe (hash_key (extract_key obj)) (table_size (tbl h)) j)) ->
  (forall w, w ∈ held slots -> equal_keys (extract_key w) (extract_key obj) = false) ->
  (exists en, slots !! Z.to_nat i = Some en /\ is_blank (stat en) = true) ->
  exists t slots1, set_value_at (tbl h) i obj = Some t /\ hash_table t slots1 /\
    held slots1 ≡ₚ obj :: held slots /\ slots1 !! Z.to_nat i = Some (occ obj) /\
    table_size t = table_size (tbl h) /\ max_non_empty t = max_non_empty (tbl h) /\
    num_non_empty t <= num_non_empty (tbl h) + 1 /\ num_occupied t <= num_non_empty t.
Proof.
  intros (Hh&Hc0&Hle) Hfind Hir Hr Hpr Hfill Hno Hblank.
  destruct (set_found _ _ i r obj Hh Hir Hr Hpr Hfill Hno Hblank)
    as (t&s1&Hset&Hh1&->&Hp1&Hs1&Hc1&Hn1).
  exists t, (<[Z.to_nat i := occ obj]> slots). split_and!; try done; [|].
  - destruct Hblank as (en&Hen&_). rewrite list_lookup_insert_eq; [done|by eapply lookup_lt_Some].
  - pose proof (hb_table _ _ Hh1) as Ht1. rewrite (to_occ _ _ Ht1), (to_filled _ _ Ht1).
    apply count_le. intros e. unfold occupied, filled.
    destruct (stat e); done.
Qed.

(** A size that [insert] asks [rehash] for is large enough, and small enough
    for the prime that [rehash] chooses. *)
Lemma insert_size_ok h s :
  0 <= max_non_empty (tbl h) < 2 ^ 33 -> num_occupied (tbl h) <= max_non_empty (tbl h) + 1 ->
  max_non_empty (tbl h) < table_size (tbl h) ->
  grow_size (lf h) (2 * max_non_empty (tbl h) + 1) = Some s ->
  num_occupied (tbl h) <= insert_size h /\
  exists s', rehash_size h (insert_size h) = Some s' /\
    (insert_size h < s' \/
     insert_size h = 2 * max_non_empty (tbl h) + 1 /\ s' = s /\ s <= insert_size h).
Proof.
  intros Hc Ho Hcap Hg. unfold insert_size, rehash_size. destruct (rehash_in_place h) eqn:E.
  - unfold rehash_in_place in E. split; [lia|]. rewrite Z.eqb_refl. eexists. split; [done|]. by left.
  - rewrite u64_small by lia. split; [lia|].
    replace (_ =? _) with false by lia. exists s. split; [done|].
    destruct (decide (2 * max_non_empty (tbl h) + 1 < s)); [by left|right; split_and!; (done || lia)].
Qed.

(** The capacity after an insertion: it grows only when it was used up. *)
Definition ht_grown h h' : Prop :=
  num_non_empty (tbl h') <= num_non_empty (tbl h) + 1 /\
  (max_non_empty (tbl h') = max_non_empty (tbl h) \/
   max_non_empty (tbl h') = 2 * max_non_empty (tbl h) + 1 /\
   max_non_empty (tbl h) <= num_non_empty (tbl h)).

Lemma ht_insert_spec h slots obj s :
  ht_ok h slots -> grow_size (lf h) (2 * max_non_empty (tbl h) + 1) = Some s ->
  (exists w it, w ∈ held slots /\ equal_keys (extract_key w) (extract_key obj) = true /\
     ht_insert extract_key obj h = Some (Ok (it, false, h)) /\ iterator_dereference (tbl h) it = Some w) \/
  ((forall w, w ∈ held slots -> equal_keys (extract_key w) (extract_key obj) = false) /\
   ((s <= 2 * max_non_empty (tbl h) + 1 /\ exists msg, ht_insert extract_key obj h = Some (Throw msg)) \/
    exists it h' slots', ht_insert extract_key obj h = Some (Ok (it, true, h')) /\ ht_ok h' slots' /\
      held slots' ≡ₚ obj :: held slots /\ lf h' = lf h /\ iterator_dereference (tbl h') it = Some obj /\
      ht_grown h h')).
Proof.
  intros Hok Hg. pose proof Hok as (Hh&Hc0&Hle). pose proof (hb_table _ _ Hh) as Ht.
  pose proof (hash_table_size _ _ Hh) as Hsz. pose proof (to_cap _ _ Ht) as Hcap.
  destruct (find_insertion_spec _ _ (extract_key obj) Hh (ht_ok_room _ _ Hok))
    as (i&r&Hi&Hir&Hf&Hr&Hpr&Hfill).
  unfold ht_insert. rewrite Hi. cbn [mbind option_bind].
  rewrite (status_at_slot _ _ _ Ht Hir).
  destruct Hf as [(w&Hw&Heq)|[Hno Hblank]].
  { left. rewrite Hw. destruct (position_iterator_occ _ _ _ _ Ht Hir Hw) as (Hit&Hd&_).
    exists w, (i + 1). cbn. rewrite Hit. split_and!; try done.
    apply list_elem_of_omap. eexists. split; [by eapply list_elem_of_lookup_2|done]. }
  right. split; [done|]. pose proof Hblank as (en&Hen&Hb). rewrite Hen. cbn [fmap option_fmap option_map mbind option_bind].
  rewrite bool_decide_false by by destruct en as [[] ?]. cbn [negb].
  destruct (ht_insert_place h slots obj i r Hok Hi Hir Hr Hpr Hfill Hno Hblank)
    as (t&s1&->&Hh1&Hp1&Hat&Hs1&Hc1&Hn1&Hocc1). cbn [mbind option_bind].
  pose proof (hb_table _ _ Hh1) as Ht1.
  destruct (num_non_empty t >? max_non_empty t) eqn:E.
  2: { right. destruct (position_iterator_occ t s1 i obj Ht1 ltac:(lia) Hat) as (->&Hd&_).
       cbn [mbind option_bind]. eexists _, _, s1. split; [done|]. unfold ht_ok, ht_grown. cbn [tbl lf].
       split_and!; (done || lia || by left). }
  destruct (insert_size_ok (mk_hashtable (lf h) t) s) as (Hocc2&s'&Hrs&Hlt); cbn [tbl lf];
    [lia|lia|lia|by rewrite Hc1|].
  destruct Hlt as [Hlt|(Hsize&->&Hle2)].
  - right. destruct (rehash_spec _ (mk_hashtable (lf h) t) s1 s' Hh1 Hocc2 Hrs Hlt)
      as (h2&s2&->&Hok2&Hp2&Hlf2&Hc2&Hs2&Hn2). cbn [mbind option_bind].
    pose proof Hok2 as (Hh2&_&_).
    destruct (find_value_spec _ _ (extract_key obj) Hh2 (ht_ok_room _ _ Hok2)) as (j&->&Hj&Hfj).
    cbn [mbind option_bind]. assert (Hobj : obj ∈ held s2) by (rewrite Hp2, Hp1; left).
    destruct Hfj as [(w&Hw&Heq)|[Hno2 _]].
    2: { specialize (Hno2 _ Hobj). by rewrite equal_keys_refl in Hno2. }
    assert (w = obj) as ->.
    { assert (Hin : w ∈ held s2).
      { apply list_elem_of_omap. eexists. split; [by eapply list_elem_of_lookup_2|done]. }
      rewrite Hp2, Hp1 in Hin. apply elem_of_cons in Hin as [|Hin]; [done|].
      by rewrite (Hno w Hin) in Heq. }
    destruct (position_iterator_occ _ _ _ _ (hb_table _ _ Hh2) Hj Hw) as (->&Hd&_).
    cbn [mbind option_bind]. eexists _, h2, s2. split; [done|]. split_and!; try done.
    + by rewrite Hp2.
    + cbn [tbl] in Hn2. split; [lia|]. rewrite Hc2. unfold insert_size. cbn [tbl].
      destruct (rehash_in_place _); [by left|]. right. rewrite Hc1, u64_small by lia. lia.
  - left. cbn [tbl] in Hsize. rewrite Hc1 in Hsize. split; [lia|].
    unfold rehash. cbn [tbl] in *. replace (_ <? num_occupied t) with false by lia.
    rewrite Hrs. cbn [mbind option_bind].
    destruct (oa_table_throws (V := V) (insert_size (mk_hashtable (lf h) t)) s) as [msg ->]; [by left|].
    by exists msg.
Qed.

(** ** [find], [erase], [clear] and the constructors *)

Lemma ht_find_spec h slots k :
  ht_ok h slots ->
  (exists v it, v ∈ held slots /\ equal_keys (extract_key v) k = true /\
     ht_find extract_key k h = Some it /\ ht_end h <> Some it /\
     iterator_dereference (tbl h) it = Some v) \/
  ((forall v, v ∈ held slots -> equal_keys (extract_key v) k = false) /\
   ht_find extract_key k h = ht_end h /\ ht_end h <> None).
Proof.
  intros Hok. pose proof Hok as (Hh&_&_). pose proof (hb_table _ _ Hh) as Ht.
  destruct (find_value_spec _ _ k Hh (ht_ok_room _ _ Hok)) as (i&Hi&Hir&Hf).
  unfold ht_find, ht_end. rewrite Hi, (table_end_eq _ _ Ht). cbn [mbind option_bind].
  rewrite (status_at_slot _ _ _ Ht Hir). destruct Hf as [(v&Hv&Heq)|[Hno (en&Hen&Hb)]].
  - left. destruct (position_iterator_occ _ _ _ _ Ht Hir Hv) as (Hit&Hd&Hne).
    rewrite Hv. exists v, (i + 1). cbn. rewrite Hit. split_and!; try done; [|congruence].
    apply list_elem_of_omap. eexists. split; [by eapply list_elem_of_lookup_2|done].
  - right. rewrite Hen. cbn [fmap option_fmap option_map mbind option_bind].
    rewrite decide_False by by destruct en as [[] ?]. done.
Qed.

Lemma ht_erase_spec h slots k :
  ht_ok h slots ->
  (exists v h' slots', v ∈ held slots /\ equal_keys (extract_key v) k = true /\
     ht_erase extract_key k h = Some (1, h') /\ ht_ok h' slots' /\
     held slots ≡ₚ v :: held slots' /\ lf h' = lf h /\
     num_non_empty (tbl h') = num_non_empty (tbl h) /\ max_non_empty (tbl h') = max_non_empty (tbl h)) \/
  ((forall v, v ∈ held slots -> equal_keys (extract_key v) k = false) /\
   ht_erase extract_key k h = Some (0, h)).
Proof.
  intros Hok. pose proof Hok as (Hh&Hc0&Hle). pose proof (hb_table _ _ Hh) as Ht.
  destruct (find_value_spec _ _ k Hh (ht_ok_room _ _ Hok)) as (i&Hi&Hir&Hf).
  unfold ht_erase. rewrite Hi. cbn [mbind option_bind].
  rewrite (status_at_slot _ _ _ Ht Hir). destruct Hf as [(v&Hv&Heq)|[Hno (en&Hen&Hb)]].
  - left. destruct (erase_value_at_slot _ _ _ Ht Hir) as (t'&e&He&Her&Ht'&Hs'&Hc').
    rewrite Hv in He. simplify_eq. cbn in Ht'.
    set (slots' := <[Z.to_nat i := mk_entry oa_entry_erased None]> slots) in *.
    assert (Hfill : num_non_empty t' = num_non_empty (tbl h)).
    { rewrite (to_filled _ _ Ht'), (to_filled _ _ Ht). unfold slots'.
      rewrite (count_insert _ _ _ (occ v)) by done. simpl. lia. }
    exists v, (mk_hashtable (lf h) t'), slots'. rewrite Hv. cbn. rewrite Her. split_and!; try done.
    + apply list_elem_of_omap. eexists. split; [by eapply list_elem_of_lookup_2|done].
    + unfold ht_ok. cbn [tbl]. split_and!; [|lia|lia].
      split; [done|rewrite Hs'; by apply (hb_prime _ _ Hh)|].
      rewrite Hs'. apply slots_ok_erase, (hb_slots _ _ Hh).
    + destruct (held_insert slots (Z.to_nat i) (occ v) (mk_entry oa_entry_erased None) Hv) as [H1 H2].
      by rewrite H2, <- H1.
  - right. split; [done|]. rewrite Hen. cbn [fmap option_fmap option_map mbind option_bind].
    by rewrite decide_False by by destruct en as [[] ?].
Qed.

Lemma new_table_ok m s t lft :
  oa_table m s = Ok t -> s ∈ oa_prime_list -> 0 <= m ->
  ht_ok (mk_hashtable lft t) (replicate (Z.to_nat s) empty_entry).
Proof.
  intros Hn Hp Hm. pose proof (prime_list_bounds _ Hp).
  assert (m < s).
  { unfold oa_table in Hn. destruct (_ || _) eqn:E; [done|lia]. }
  destruct (oa_table_new_ok (V := V) m s) as (t'&Ht'&Hok&Hs&Hc); [lia|done|].
  rewrite Hn in Ht'. simplify_eq. unfold ht_ok. cbn [tbl]. split_and!; [|done|].
  - split; [done|done|apply slots_ok_empty].
  - rewrite (to_filled _ _ Hok). by rewrite count_replicate_empty.
Qed.

Lemma ht_clear_ok h slots :
  ht_ok h slots -> ht_ok (ht_clear h) (replicate (length slots) empty_entry).
Proof.
  intros (Hh&Hc&Hle). pose proof (oa_clear_ok _ _ (hb_table _ _ Hh)) as Ht.
  unfold ht_ok. split_and!; [|done|].
  - split; [done|apply (hb_prime _ _ Hh)|apply slots_ok_empty].
  - unfold ht_clear. cbn [tbl]. rewrite (to_filled _ _ Ht). by rewrite count_replicate_empty.
Qed.

Lemma ht_clear_non_empty h slots : ht_ok h slots -> num_non_empty (tbl (ht_clear h)) = 0.
Proof.
  intros (Hh&_&_). pose proof (oa_clear_ok _ _ (hb_table _ _ Hh)) as Ht.
  unfold ht_clear. cbn [tbl]. rewrite (to_filled _ _ Ht). by rewrite count_replicate_empty.
Qed.
End lemmas.

(** A key extractor matters only on the values held. *)
Lemma ht_ok_ext {K V} `{!HashKey K} (f g : V -> K) h slots :
  (forall v, v ∈ held slots -> f v = g v) -> ht_ok f h slots -> ht_ok g h slots.
Proof.
  intros Hfg ([Ht Hp [Hreach Hdist]]&Hc&Hle).
  assert (Hheld : forall i v, slots !! i = Some (occ v) -> f v = g v).
  { intros i v Hi. apply Hfg, list_elem_of_omap. eexists.
    split; [by eapply list_elem_of_lookup_2|done]. }
  split_and!; try done. split; [done|done|split].
  - intros i v Hi Hv. rewrite <- (Hheld _ _ Hv). by apply Hreach.
  - intros i j v w Hi Hj. rewrite <- (Hheld _ _ Hi), <- (Hheld _ _ Hj). by apply Hdist.
Qed.

(** Values with equal keys may take each other's place. *)
Lemma ht_ok_equal_keys {K V} `{!HashKey K, !HashKeyLaws K} (f g : V -> K) h slots :
  (forall v, v ∈ held slots -> equal_keys (f v) (g v) = true) -> ht_ok f h slots -> ht_ok g h slots.
Proof.
  intros Hfg ([Ht Hp [Hreach Hdist]]&Hc&Hle).
  assert (Hheld : forall i v, slots !! i = Some (occ v) -> equal_keys (f v) (g v) = true).
  { intros i v Hi. apply Hfg, list_elem_of_omap. eexists.
    split; [by eapply list_elem_of_lookup_2|done]. }
  split_and!; try done. split; [done|done|split].
  - intros i v Hi Hv. rewrite <- (equal_keys_hash _ _ (Hheld _ _ Hv)). by apply Hreach.
  - intros i j v w Hi Hj Heq. apply (Hdist i j v w Hi Hj).
    eapply equal_keys_trans; [by apply (Hheld i)|]. eapply equal_keys_trans; [exact Heq|].
    apply equal_keys_sym. by apply (Hheld j).
Qed.

(** ** Properties *)

(** The keys of the examples: integers, hashed to themselves. *)
#[export] Instance Z_hash_key : HashKey Z := {| hash_key z := u64 z; equal_keys := Z.eqb |}.

#[export] Instance Z_hash_key_laws : HashKeyLaws Z.
Proof.
  split; cbn; intros *; rewrite ?Z.eqb_eq; congruence.
Qed.

Section properties.
Context {K V : Type} `{!HashKey K, !HashKeyLaws K} (extract_key : V -> K).

(** C19: inserting a value keeps the table the finite map it represents: when a
    value with an equal key is there it is found and nothing changes; otherwise
    the new value is added, at the position returned, whether or not the table
    is rehashed on the way.  The only other outcome is the exception of a table
    that cannot grow, when the size chosen for it is too small. *)
Theorem ht_insert_refines (h : oa_hashtable V) (l : list V) (obj : V) s :
  represents extract_key h l -> grow_size (lf h) (2 * max_non_empty (tbl h) + 1) = Some s ->
  (exists w it, w ∈ l /\ equal_keys (extract_key w) (extract_key obj) = true /\
     ht_insert extract_key obj h = Some (Ok (it, false, h)) /\
     iterator_dereference (tbl h) it = Some w) \/
  ((forall w, w ∈ l -> equal_keys (extract_key w) (extract_key obj) = false) /\
   ((s <= 2 * max_non_empty (tbl h) + 1 /\ exists msg, ht_insert extract_key obj h = Some (Throw msg)) \/
    exists it h', ht_insert extract_key obj h = Some (Ok (it, true, h')) /\
      represents extract_key h' (obj :: l) /\ lf h' = lf h /\
      iterator_dereference (tbl h') it = Some obj)).
Proof.
  intros (slots&Hok&Hl) Hg.
  destruct (ht_insert_spec extract_key h slots obj s Hok Hg)
    as [(w&it&Hw&Heq&Hi&Hd)|(Hno&[Ht|(it&h'&slots'&Hi&Hok'&Hp&Hlf&Hd&_)])].
  - left. exists w, it. by rewrite Hl.
  - right. split; [intros w; rewrite Hl; apply Hno|by left].
  - right. split; [intros w; rewrite Hl; apply Hno|right]. exists it, h'.
    split_and!; try done. exists slots'. split; [done|]. by rewrite Hl, Hp.
Qed.

(** [find] returns the position of the value with the key looked for, or
    [end()] exactly when no value of the table has it; the probing ends. *)
Theorem ht_find_refines (h : oa_hashtable V) (l : list V) (k : K) :
  represents extract_key h l ->
  (exists v it, v ∈ l /\ equal_keys (extract_key v) k = true /\
     ht_find extract_key k h = Some it /\ ht_end h <> Some it /\
     iterator_dereference (tbl h) it = Some v) \/
  ((forall v, v ∈ l -> equal_keys (extract_key v) k = false) /\
   ht_find extract_key k h = ht_end h /\ ht_end h <> None).
Proof.
  intros (slots&Hok&Hl). setoid_rewrite Hl. by apply ht_find_spec.
Qed.

(** C20: [erase(k)] removes the value with key [k] and nothing else and returns
    1, or returns 0 and changes nothing when there is none. *)
Theorem ht_erase_refines (h : oa_hashtable V) (l : list V) (k : K) :
  represents extract_key h l ->
  (exists v h' l', equal_keys (extract_key v) k = true /\ l ≡ₚ v :: l' /\
     ht_erase extract_key k h = Some (1, h') /\ represents extract_key h' l' /\ lf h' = lf h) \/
  ((forall v, v ∈ l -> equal_keys (extract_key v) k = false) /\
   ht_erase extract_key k h = Some (0, h)).
Proof.
  intros (slots&Hok&Hl).
  destruct (ht_erase_spec extract_key h slots k Hok) as [(v&h'&slots'&Hv&Heq&He&Hok'&Hp&Hlf&_)|[Hno He]].
  - left. exists v, h', (held slots'). split_and!; try done; [by rewrite Hl|]. by exists slots'.
  - right. split; [|done]. intros v. rewrite Hl. apply Hno.
Qed.

(** [rehash] to any capacity that the values fit in keeps exactly the
    values of the table, in a table of prime size with no erased entries
    counted; to a smaller one it changes nothing; it throws exactly when the
    size chosen is not above the capacity. *)
Theorem rehash_refines (h : oa_hashtable V) (l : list V) n s :
  represents extract_key h l -> 0 <= n -> rehash_size h n = Some s ->
  (n < Z.of_nat (length l) /\ rehash extract_key n h = Some (Ok h)) \/
  (Z.of_nat (length l) <= n /\ s <= n /\ exists msg, rehash extract_key n h = Some (Throw msg)) \/
  (Z.of_nat (length l) <= n /\ n < s /\ exists h', rehash extract_key n h = Some (Ok h') /\
     represents extract_key h' l /\ max_non_empty (tbl h') = n /\ table_size (tbl h') = s).
Proof.
  intros (slots&Hok&Hl) Hn Hs. pose proof Hok as (Hh&_&_). pose proof (hb_table _ _ _ Hh) as Ht.
  assert (Hocc : num_occupied (tbl h) = Z.of_nat (length l)).
  { by rewrite (to_occ _ _ Ht), (held_occupied _ (to_slots _ _ Ht)), Hl. }
  destruct (decide (n < num_occupied (tbl h))).
  { left. split; [lia|]. unfold rehash. by replace (_ <? _) with true by lia. }
  right. destruct (decide (n < s)) as [Hlt|Hge]; [right|left].
  - destruct (rehash_spec extract_key n h slots s Hh ltac:(lia) Hs Hlt) as (h'&s'&Hr&Hok'&Hp&_&Hc&Hsz&_).
    split_and!; [lia|done|]. exists h'. split_and!; try done. exists s'. by rewrite Hl, Hp.
  - split_and!; [lia|lia|]. unfold rehash. replace (_ <? num_occupied _) with false by lia.
    rewrite Hs. cbn [mbind option_bind].
    destruct (oa_table_throws (V := V) n s) as [msg ->]; [left; lia|]. by exists msg.
Qed.

(** A table never holds two values with equal keys, its size is the number
    of its values, and iterating over it visits exactly these. *)
Theorem represents_table (h : oa_hashtable V) (l : list V) :
  represents extract_key h l ->
  keys_distinct extract_key l /\ ht_size h = Z.of_nat (length l) /\
  exists l', table_values (tbl h) = Some l' /\ l' ≡ₚ l.
Proof.
  intros (slots&Hok&Hl). pose proof Hok as (Hh&_&_). pose proof (hb_table _ _ _ Hh) as Ht.
  split_and!.
  - eapply keys_distinct_perm; [symmetry; exact Hl|]. by eapply hash_table_distinct.
  - unfold ht_size. by rewrite (to_occ _ _ Ht), (held_occupied _ (to_slots _ _ Ht)), Hl.
  - exists (held slots). by rewrite (table_values_held_eq _ _ Ht).
Qed.

(** A table made by a constructor that does not throw, and a cleared
    table, represent the empty map. *)
Lemma new_hashtable_empty lft m n (h h' : oa_hashtable V) l :
  new_hashtable lft (Some m) n = Some (Ok h) -> 0 <= m -> represents extract_key h' l ->
  represents extract_key h [] /\ represents extract_key (ht_clear h') [].
Proof.
  intros Hn Hm (slots&Hok&_). split.
  - unfold new_hashtable in Hn. simpl in Hn.
    destruct (oa_table m _) as [t|msg] eqn:E; simplify_eq.
    eexists. split; [eapply new_table_ok; [exact E|apply oa_next_prime_spec|done]|].
    by rewrite held_replicate_empty.
  - eexists. split; [by apply ht_clear_ok|]. by rewrite held_replicate_empty.
Qed.
End properties.

(** [at_throw] and [at] of a hash map return the value mapped to a key that
    is there; on another key [at_throw] throws, and so does not insert. *)
Theorem hm_at_refines {K V} `{!HashKey K, !HashKeyLaws K} (h : oa_hashtable (K * V)) l (k : K) :
  represents fst h l ->
  (exists p, p ∈ l /\ equal_keys p.1 k = true /\
     hm_at_throw k h = Some (Ok p.2) /\ hm_at k h = Some p.2) \/
  ((forall p, p ∈ l -> equal_keys p.1 k = false) /\ hm_at k h = None /\
   hm_at_throw k h = Some (Throw "Tried to get a key from oa_hash_map that isn't there")).
Proof.
  intros (slots&Hok&Hl). setoid_rewrite Hl. unfold hm_at_throw, hm_at.
  destruct (ht_find_spec fst h slots k Hok) as [(p&it&Hp&Heq&Hf&Hne&Hd)|(Hno&Hf&Hend)].
  - left. exists p. rewrite Hf. destruct Hok as [Hh _]. unfold ht_end in *.
    rewrite (table_end_eq _ _ (hb_table _ _ _ Hh)) in *. cbn.
    rewrite !decide_False by congruence. rewrite Hd. done.
  - right. rewrite Hf. destruct (ht_end h) as [e|]; [|done]. cbn.
    split_and!; [exact Hno|by rewrite decide_True|by rewrite decide_True].
Qed.

(** [at_default] leads to the value already mapped to the key, or inserts
    the default for it, leaving all other keys as they are. *)
Theorem hm_at_default_refines {K V} `{!HashKey K, !HashKeyLaws K} (h : oa_hashtable (K * V)) l
    (k : K) (def : V) s :
  represents fst h l -> grow_size (lf h) (2 * max_non_empty (tbl h) + 1) = Some s ->
  2 * max_non_empty (tbl h) + 1 < s ->
  exists it h' p, hm_at_default k def h = Some (Ok (it, h')) /\
    iterator_dereference (tbl h') it = Some p /\ equal_keys p.1 k = true /\
    ((p ∈ l /\ h' = h) \/ ((forall q, q ∈ l -> equal_keys q.1 k = false) /\
       p = (k, def) /\ represents fst h' ((k, def) :: l))).
Proof.
  intros (slots&Hok&Hl) Hg Hlt. unfold hm_at_default.
  destruct (ht_insert_spec fst h slots (k, def) s Hok Hg)
    as [(w&it&Hw&Heq&Hi&Hd)|(Hno&[[Hle _]|(it&h'&slots'&Hi&Hok'&Hp&Hlf&Hd&_)])]; [|lia|].
  - exists it, h, w. rewrite Hi. split_and!; try done. left. by rewrite Hl.
  - exists it, h', (k, def). rewrite Hi. split_and!; try done; [apply equal_keys_refl|]. right.
    split_and!; [intros q; rewrite Hl; apply Hno|done|]. exists slots'. split; [done|]. by rewrite Hl, Hp.
Qed.

(** ** Examples

    A table with three keys of the same hash modulo its size, the second of
    which is erased again. *)

Definition ok_or {A} (d : A) (r : option (result A)) : A :=
  match r with Some (Ok a) => a | _ => d end.

Definition sample_empty : oa_hashtable (Z * Z) :=
  ok_or (mk_hashtable half32 (mk_table 0 0 0 0 [])) (oa_hashtable_default 0).

Definition put (p : Z * Z) (h : oa_hashtable (Z * Z)) : oa_hashtable (Z * Z) :=
  match ht_insert fst p h with Some (Ok r) => r.2 | _ => h end.

Definition puts (p : Z * Z) (h : oa_hashtable (Z * Z)) : bool :=
  match ht_insert fst p h, grow_size (lf h) (2 * max_non_empty (tbl h) + 1) with
  | Some (Ok (_, true, _)), Some _ => true
  | _, _ => false
  end.

Lemma put_represents p h l : puts p h = true -> represents fst h l -> represents fst (put p h) (p :: l).
Proof.
  unfold puts, put. intros Hp (slots&Hok&Hl).
  destruct (grow_size _ _) as [s|] eqn:Hg; [|by destruct (ht_insert fst p h) as [[[[? []] ?]|]|]].
  destruct (ht_insert_spec fst h slots p s Hok Hg)
    as [(w&it&_&_&Hi&_)|(_&[[_ [msg Hi]]|(it&h'&slots'&Hi&Hok'&Hp'&_)])]; rewrite Hi in Hp |- *; try done.
  exists slots'. split; [done|]. by rewrite Hl, Hp'.
Qed.

Lemma sample_empty_represents : represents fst sample_empty [].
Proof.
  exists (replicate (Z.to_nat 53) empty_entry). split; [|by rewrite held_replicate_empty].
  destruct (oa_table (V := Z * Z) 26 53) as [t|] eqn:E; [|discriminate E].
  replace sample_empty with (mk_hashtable half32 t).
  - eapply new_table_ok; [exact E|vm_compute; left|lia].
  - vm_compute in E. injection E as <-. vm_compute. reflexivity.
Qed.

Definition take_out (k : Z) (h : oa_hashtable (Z * Z)) : oa_hashtable (Z * Z) :=
  match ht_erase fst k h with Some r => r.2 | None => h end.

Definition sample : oa_hashtable (Z * Z) :=
  take_out 58 (put (111, 3) (put (58, 2) (put (5, 1) sample_empty))).

Lemma take_out_represents p h l : represents fst h (p :: l) -> represents fst (take_out p.1 h) l.
Proof.
  intros (slots&Hok&Hl). pose proof Hok as (Hh&_&_).
  pose proof (keys_distinct_perm fst _ _ (symmetry Hl) (hash_table_distinct fst _ _ Hh)) as [Hd _].
  unfold take_out.
  destruct (ht_erase_spec fst h slots p.1 Hok) as [(v&h'&slots'&Hv&Heq&->&Hok'&Hp&_)|[Hno _]].
  - exists slots'. split; [done|]. rewrite <- Hl in Hv. apply elem_of_cons in Hv as [->|Hv].
    + apply (Permutation_cons_inv (a := p)). by rewrite <- Hp.
    + specialize (Hd v Hv). apply equal_keys_sym in Heq. congruence.
  - specialize (Hno p). rewrite <- Hl, equal_keys_refl in Hno. by specialize (Hno ltac:(left)).
Qed.

Lemma sample_represents : represents fst sample [(111, 3); (5, 1)].
Proof.
  apply (take_out_represents (58, 2)). rewrite (perm_swap (111, 3) (58, 2) [(5, 1)]).
  do 3 (apply put_represents; [vm_compute; reflexivity|]). exact sample_empty_represents.
Qed.

Lemma ht_insert_refines_witness :
  exists it h', ht_insert fst (164, 4) sample = Some (Ok (it, true, h')) /\
    represents fst h' [(164, 4); (111, 3); (5, 1)] /\ iterator_dereference (tbl h') it = Some (164, 4).
Proof.
  destruct (ht_insert_refines fst sample [(111, 3); (5, 1)] (164, 4) 193 sample_represents
    ltac:(vm_compute; reflexivity))
    as [(w&it&Hw&Heq&Hi&_)|(_&[[Hs _]|(it&h'&Hi&Hr&_&Hd)])].
  - vm_compute in Hi. discriminate Hi.
  - vm_compute in Hs. exfalso. apply Hs. reflexivity.
  - exists it, h'. split; [exact Hi|]. split; [exact Hr|exact Hd].
Defined.

Lemma ht_find_refines_witness :
  exists it, ht_find fst 111 sample = Some it /\ iterator_dereference (tbl sample) it = Some (111, 3).
Proof.
  destruct (ht_find_refines fst sample [(111, 3); (5, 1)] 111 sample_represents)
    as [(v&it&Hv&Heq&Hf&_&Hd)|(Hno&_)].
  - exists it. split; [exact Hf|]. vm_compute in Hf. injection Hf as <-. vm_compute. reflexivity.
  - specialize (Hno (111, 3) ltac:(left)). vm_compute in Hno. discriminate Hno.
Defined.

Lemma ht_erase_refines_witness :
  exists h' l', ht_erase fst 5 sample = Some (1, h') /\ represents fst h' l' /\
    [(111, 3); (5, 1)] ≡ₚ (5, 1) :: l'.
Proof.
  destruct (ht_erase_refines fst sample [(111, 3); (5, 1)] 5 sample_represents)
    as [(v&h'&l'&Heq&Hl&He&Hr&_)|[Hno _]].
  - exists h', l'. split; [exact He|]. split; [exact Hr|]. rewrite Hl.
    assert (v = (5, 1)) as ->; [|reflexivity].
    assert (Hv : v ∈ [(111, 3); (5, 1)]) by (rewrite Hl; left).
    apply elem_of_cons in Hv as [->|Hv]; [discriminate Heq|]. by apply list_elem_of_singleton in Hv.
  - specialize (Hno (5, 1) ltac:(right; left)). vm_compute in Hno. discriminate Hno.
Defined.

Lemma rehash_refines_witness :
  exists h', rehash fst 100 sample = Some (Ok h') /\ represents fst h' [(111, 3); (5, 1)] /\
    table_size (tbl h') = 389.
Proof.
  destruct (rehash_refines fst sample [(111, 3); (5, 1)] 100 389 sample_represents)
    as [[Hn _]|[(_&Hs&_)|(_&_&h'&Hr&Hp&_&Hs)]].
  - vm_compute. congruence.
  - vm_compute. reflexivity.
  - vm_compute in Hn. discriminate Hn.
  - vm_compute in Hs. exfalso. apply Hs. reflexivity.
  - exists h'. split; [exact Hr|]. split; [exact Hp|exact Hs].
Defined.

Lemma represents_table_witness :
  keys_distinct fst [(111, 3); (5, 1)] /\ ht_size sample = 2.
Proof.
  destruct (represents_table fst sample [(111, 3); (5, 1)] sample_represents) as (H1&H2&_).
  split; [exact H1|exact H2].
Defined.

Lemma new_hashtable_empty_example :
  represents fst sample_empty [] /\ represents fst (ht_clear sample) [].
Proof.
  apply (new_hashtable_empty fst half32 26 0 sample_empty sample [(111, 3); (5, 1)]).
  - vm_compute. reflexivity.
  - vm_compute. congruence.
  - exact sample_represents.
Defined.

Lemma hm_at_refines_witness :
  hm_at_throw 5 sample = Some (Ok 1) /\
  hm_at_throw 58 sample = Some (Throw "Tried to get a key from oa_hash_map that isn't there").
Proof.
  split; [vm_compute; reflexivity|].
  destruct (hm_at_refines sample [(111, 3); (5, 1)] 58 sample_represents) as [(p&Hp&Heq&_)|(_&_&H)].
  - apply elem_of_cons in Hp as [->|Hp]; [discriminate Heq|].
    apply list_elem_of_singleton in Hp as ->. discriminate Heq.
  - exact H.
Defined.

Lemma hm_at_default_refines_witness :
  exists it h', hm_at_default 58 7 sample = Some (Ok (it, h')) /\
    iterator_dereference (tbl h') it = Some (58, 7).
Proof.
  destruct (hm_at_default_refines sample [(111, 3); (5, 1)] 58 7 193 sample_represents)
    as (it&h'&p&H&Hd&Heq&[[Hp _]|(_&->&_)]).
  - vm_compute. reflexivity.
  - vm_compute. reflexivity.
  - apply elem_of_cons in Hp as [->|Hp]; [discriminate Heq|].
    apply list_elem_of_singleton in Hp as ->. discriminate Heq.
  - exists it, h'. split; [exact H|exact Hd].
Defined.
