(* ===== verification/PriorityTable.v ===== *)
(** The priority table: [priority_table] of
    src/sbmt_decoder/include/sbmt/hash/priority_table.hpp and
    impl/priority_table.ipp, a binary heap in a vector whose elements are found
    by key through an [oa_hashtable] of their indices.

    The key extractor of the hash table reads the heap: [extract_key_from_entry].
    Swapping two elements of the heap writes to the indices in the hash table
    in place ([iterator_assign]).  [None] is an undefined access or a failing
    assertion. *)
From S2P Require Import Prelude OaTable HashProbe OaHashtable.
Open Scope Z_scope.

(** [*itr = v], by a cast that removes [const] *)
Definition iterator_assign {V} (t : oa_table_c V) (itr : Z) (v : V) : option (oa_table_c V) :=
  e ← entry_at t itr;
  if decide (stat e = oa_entry_occupied)
  then Some (set_entry t itr (mk_entry oa_entry_occupied (Some v)) (num_occupied t) (num_non_empty t))
  else None.

Section priority_table.
Context {K V P : Type} `{!HashKey K, !Inhabited K}.
Context (extract_key : V -> K) (extract_priority : V -> P) (compare_priorities : P -> P -> bool).

Record priority_table := mk_ptable {
  priority_heap : list V;
  entry_index : oa_hashtable Z
}.

Implicit Types t : priority_table.

(** An index out of range is never read. *)
Definition extract_key_from_entry (heap : list V) (index : Z) : K :=
  match heap !! Z.to_nat index with Some v => extract_key v | None => inhabitant end.

Definition new_priority_table : option (result priority_table) :=
  idx ⇐ oa_hashtable_default 0; Some (Ok (mk_ptable [] idx)).

(** The copy constructor: the indices are inserted into a new hash table. *)
Definition priority_table_copy (other : priority_table) : option (result priority_table) :=
  idx ⇐ oa_hashtable_default 0;
  indices ← table_values (tbl (entry_index other));
  idx ⇐ ht_insert_range (extract_key_from_entry (priority_heap other)) indices idx;
  Some (Ok (mk_ptable (priority_heap other) idx)).

(** An iterator is one of the hash table. *)
Definition pt_begin t : option Z := ht_begin (entry_index t).
Definition pt_end t : option Z := ht_end (entry_index t).
Definition pt_find (k : K) t : option Z :=
  ht_find (extract_key_from_entry (priority_heap t)) k (entry_index t).
Definition pt_position t (itr : Z) : option nat :=
  Z.to_nat <$> iterator_dereference (tbl (entry_index t)) itr.
Definition pt_dereference t (itr : Z) : option V :=
  i ← pt_position t itr; priority_heap t !! i.

Definition pt_top t : option V := priority_heap t !! 0%nat.
Definition pt_size t : option Z :=
  if Z.of_nat (length (priority_heap t)) =? ht_size (entry_index t)
  then Some (Z.of_nat (length (priority_heap t))) else None.

(** [priority(itr)] *)
Definition priority t (x : nat) : option P := extract_priority <$> priority_heap t !! x.

Definition parent (x : nat) : nat := (x / 2)%nat.
Definition left_child t (x : nat) : nat :=
  let l_offset := (x * 2)%nat in
  if (length (priority_heap t) <=? l_offset)%nat then length (priority_heap t) else l_offset.
Definition right_child t (x : nat) : nat :=
  let r_offset := (x * 2 + 1)%nat in
  if (length (priority_heap t) <=? r_offset)%nat then length (priority_heap t) else r_offset.

(** [swap(x1, x2)] *)
Definition pt_swap (x1 x2 : nat) t : option priority_table :=
  let h := entry_index t in
  v1 ← priority_heap t !! x1;
  v2 ← priority_heap t !! x2;
  p1 ← pt_find (extract_key v1) t;
  p2 ← pt_find (extract_key v2) t;
  let heap := <[x2 := v1]> (<[x1 := v2]> (priority_heap t)) in
  i1 ← iterator_dereference (tbl h) p1;
  i2 ← iterator_dereference (tbl h) p2;
  tb ← iterator_assign (tbl h) p1 i2;
  tb ← iterator_assign tb p2 i1;
  Some (mk_ptable heap (mk_hashtable (lf h) tb)).

(** [compare_priorities(priority(x), priority(y))] *)
Definition lower t (x y : nat) : option bool :=
  px ← priority t x; py ← priority t y; Some (compare_priorities px py).

Fixpoint percolate_up (fuel x : nat) t : option priority_table :=
  if (x =? 0)%nat then Some t
  else
    let p := parent x in
    b ← lower t p x;
    if (b : bool)
    then match fuel with
         | O => None
         | S fuel => t ← pt_swap x p t; percolate_up fuel p t
         end
    else Some t.

(** One of the two tests of [percolate_down]: [c], if it is in the heap and has a
    higher priority than [to]. *)
Definition prefer t (to c : nat) : option nat :=
  if (c <? length (priority_heap t))%nat
  then b ← lower t to c; Some (if (b : bool) then c else to)
  else Some to.

Fixpoint percolate_down (fuel x : nat) t : option priority_table :=
  if (x <? length (priority_heap t))%nat then
    to ← prefer t x (left_child t x);
    to ← prefer t to (right_child t x);
    if (to =? x)%nat then Some t
    else match fuel with
         | O => None
         | S fuel => t ← pt_swap x to t; percolate_down fuel to t
         end
  else Some t.

Definition up x t : option priority_table := percolate_up x x t.
Definition down x t : option priority_table := percolate_down (length (priority_heap t)) x t.

(** [insert(val)] *)
Definition pt_insert (val : V) t : option (result (Z * bool * priority_table)) :=
  let heap := priority_heap t ++ [val] in
  '(itr, inserted, idx) ⇐ ht_insert (extract_key_from_entry heap) (Z.of_nat (length heap) - 1)
                            (entry_index t);
  if (inserted : bool) then
    t ← up (length heap - 1)%nat (mk_ptable heap idx);
    itr ← pt_find (extract_key val) t;
    Some (Ok (itr, true, t))
  else Some (Ok (itr, false, mk_ptable (priority_heap t) idx)).

(** [erase(pos)] of a heap position; [priority_heap.end() - 1] is out of range
    when the heap is empty. *)
Definition pt_erase_position (pos : nat) t : option priority_table :=
  match length (priority_heap t) with
  | O => None
  | S n =>
      t ← pt_swap pos n t;
      v ← priority_heap t !! n;
      r ← ht_erase (extract_key_from_entry (priority_heap t)) (extract_key v) (entry_index t);
      down 0 (mk_ptable (take n (priority_heap t)) r.2)
  end.

(** [erase(iterator)] *)
Definition pt_erase_at (itr : Z) t : option priority_table :=
  p ← pt_position t itr; pt_erase_position p t.

(** [erase(key)] *)
Definition pt_erase (key : K) t : option (bool * priority_table) :=
  pos ← pt_find key t;
  last ← pt_end t;
  if decide (pos = last) then Some (false, t)
  else t ← pt_erase_at pos t; Some (true, t).

Definition pt_pop t : option priority_table := pt_erase_position 0 t.

(** [replace(pos, val)] *)
Definition pt_replace (pos : Z) (val : V) t : option (bool * priority_table) :=
  old ← pt_dereference t pos;
  if negb (equal_keys (extract_key val) (extract_key old)) then Some (false, t)
  else
    let perc_up := compare_priorities (extract_priority old) (extract_priority val) in
    i ← pt_position t pos;
    let t := mk_ptable (<[i := val]> (priority_heap t)) (entry_index t) in
    t ← (if perc_up then up i t else down i t);
    Some (true, t).

(** [modify(pos, f)] *)
Definition pt_modify (pos : Z) (f : V -> V) t : option (result priority_table) :=
  old ← pt_dereference t pos;
  i ← pt_position t pos;
  let t := mk_ptable (<[i := f old]> (priority_heap t)) (entry_index t) in
  if negb (equal_keys (extract_key old) (extract_key (f old)))
  then Some (Throw "priority_table invalidated!")
  else
    t ← (if compare_priorities (extract_priority old) (extract_priority (f old)) then up i t else down i t);
    Some (Ok t).
End priority_table.

Arguments priority_table V : clear implicits.

(** * The heap *)

Section heap.
Context {A : Type} (lt : A -> A -> bool) `{!StrictWeak lt}.
Implicit Types l : list A.

(** The parent of [i] is no worse, where [i] satisfies [P]. *)
Definition heap_where (P : nat -> Prop) l : Prop :=
  forall i x y, (0 < i)%nat -> P i -> l !! (i / 2)%nat = Some x -> l !! i = Some y -> noworse lt x y.

Definition heap_ok l : Prop := heap_where (fun _ => True) l.

(** The children of [x] are no better than its parent. *)
Definition bridged (x : nat) l : Prop :=
  forall i a c, (0 < x)%nat -> (i / 2)%nat = x -> l !! (x / 2)%nat = Some a -> l !! i = Some c -> noworse lt a c.

(** A heap but for [x], which may be too good or too bad for its place. *)
Definition up_inv (x : nat) l : Prop := heap_where (fun i => i <> x) l /\ bridged x l.
Definition down_inv (x : nat) l : Prop := heap_where (fun i => (i / 2)%nat <> x) l /\ bridged x l.

Lemma half_lt x : (0 < x)%nat -> (x / 2 < x)%nat.
Proof. intros Hx. apply Nat.div_lt; lia. Qed.

Lemma half_children i x : (i / 2 = x <-> i = x * 2 \/ i = x * 2 + 1)%nat.
Proof.
  pose proof (Nat.div_mod_eq i 2). pose proof (Nat.mod_upper_bound i 2 ltac:(lia)). lia.
Qed.

Lemma half_pos i : (0 < i / 2)%nat -> (0 < i)%nat.
Proof. destruct i; [|lia]. intros H. by apply Nat.lt_irrefl in H. Qed.

Lemma heap_top l x i y : heap_ok l -> l !! 0%nat = Some x -> l !! i = Some y -> noworse lt x y.
Proof.
  intros Hl Hx. revert y. induction i as [i IH] using lt_wf_ind. intros y Hi.
  destruct (decide (i = 0%nat)) as [->|Hne].
  { rewrite Hx in Hi. injection Hi as ->. apply sw_irrefl; apply _. }
  pose proof (half_lt i ltac:(lia)). pose proof (lookup_lt_Some _ _ _ Hi).
  destruct (lookup_lt_is_Some_2 l (i / 2)%nat ltac:(lia)) as [z Hz].
  etrans; [by apply (IH (i / 2)%nat)|]. by apply (Hl i z y ltac:(lia)).
Qed.

(** The vector with two elements exchanged. *)
Definition exchange (i j : nat) l : list A :=
  match l !! i, l !! j with Some x, Some y => <[j := x]> (<[i := y]> l) | _, _ => l end.

Lemma exchange_lookup i j l x y k :
  l !! i = Some x -> l !! j = Some y ->
  exchange i j l !! k = if decide (k = j) then Some x else if decide (k = i) then Some y else l !! k.
Proof.
  intros Hi Hj. unfold exchange. rewrite Hi, Hj. apply lookup_lt_Some in Hi, Hj.
  destruct (decide (k = j)) as [->|Hkj].
  - apply list_lookup_insert_eq. by rewrite length_insert.
  - rewrite list_lookup_insert_ne by done. case_decide; [subst; by apply list_lookup_insert_eq|].
    by rewrite list_lookup_insert_ne.
Qed.

Lemma exchange_length i j l : length (exchange i j l) = length l.
Proof. unfold exchange. destruct (l !! i), (l !! j); by rewrite ?length_insert. Qed.

Lemma exchange_perm i j l x y : l !! i = Some x -> l !! j = Some y -> exchange i j l ≡ₚ l.
Proof.
  intros Hi Hj. unfold exchange. rewrite Hi, Hj. by apply Permutation_insert_swap.
Qed.

(** ** Sifting up *)

Lemma up_inv_step l x a b :
  (0 < x)%nat -> up_inv x l -> l !! (x / 2)%nat = Some a -> l !! x = Some b -> lt a b = true ->
  up_inv (x / 2) (exchange x (x / 2) l).
Proof.
  intros Hx [Hheap Hbr] Ha Hb Hlt. pose proof (half_lt x Hx) as Hpx.
  pose proof (sw_asym lt _ _ Hlt) as Hba. change (lt b a = false) with (noworse lt b a) in Hba.
  assert (Hl : forall k, exchange x (x / 2) l !! k =
            if decide (k = x / 2)%nat then Some b else if decide (k = x) then Some a else l !! k).
  { intros k. by apply exchange_lookup. }
  split.
  - intros i u v Hi Hne Hu Hv. rewrite Hl in Hu, Hv. rewrite (decide_False (P := i = (x / 2)%nat)) in Hv by done.
    pose proof (half_lt i Hi). destruct (decide (i = x)) as [->|Hix].
    { rewrite decide_True in Hu by done. by simplify_eq. }
    destruct (decide (i / 2 = x / 2)%nat) as [Hp|Hp].
    { injection Hu as <-. etrans; [exact Hba|]. apply (Hheap i a v Hi Hix); [by rewrite Hp|done]. }
    destruct (decide (i / 2 = x)%nat) as [Hpi|Hpi]; [|by apply (Hheap i u v Hi Hix)].
    simplify_eq. by apply (Hbr i u v Hx).
  - intros i u v Hp Hi Hu Hv. rewrite Hl in Hu, Hv. pose proof (half_lt (x / 2) Hp).
    rewrite !decide_False in Hu by lia.
    assert (i <> (x / 2)%nat).
    { intros ->. lia. }
    rewrite (decide_False (P := i = (x / 2)%nat)) in Hv by done.
    assert (Hua : noworse lt u a) by (apply (Hheap (x / 2)%nat u a Hp); [lia|done|done]).
    destruct (decide (i = x)) as [->|Hix]; [by simplify_eq|].
    etrans; [exact Hua|]. apply (Hheap i a v); [|done|by rewrite Hi|done].
    apply half_pos. by rewrite Hi.
Qed.

Lemma up_inv_done l x a b :
  up_inv x l -> l !! (x / 2)%nat = Some a -> l !! x = Some b -> lt a b = false -> heap_ok l.
Proof.
  intros [Hheap _] Ha Hb Hlt i u v Hi _ Hu Hv. destruct (decide (i = x)) as [->|Hne]; [|by apply (Hheap i)].
  by simplify_eq.
Qed.

Lemma up_inv_root l : up_inv 0 l -> heap_ok l.
Proof. intros [Hheap _] i u v Hi _. apply Hheap; lia. Qed.

(** Putting a better element into a heap. *)
Lemma up_inv_insert l x old new :
  heap_ok l -> l !! x = Some old -> lt old new = true -> up_inv x (<[x := new]> l).
Proof.
  intros Hheap Hx Hlt. pose proof (sw_asym lt _ _ Hlt) as Hno. change (noworse lt new old) in Hno.
  pose proof (lookup_lt_Some _ _ _ Hx) as Hlen. split.
  - intros i u v Hi Hne Hu Hv. rewrite list_lookup_insert_ne in Hv by done.
    destruct (decide (i / 2 = x)%nat) as [Hp|Hp].
    + rewrite Hp, list_lookup_insert_eq in Hu by done. injection Hu as <-.
      etrans; [exact Hno|]. apply (Hheap i old v Hi I); [by rewrite Hp|done].
    + rewrite list_lookup_insert_ne in Hu by done. by apply (Hheap i).
  - intros i u v Hx0 Hi Hu Hv. pose proof (half_lt x Hx0).
    rewrite list_lookup_insert_ne in Hu by lia.
    assert (i <> x) by (intros ->; lia). rewrite list_lookup_insert_ne in Hv by done.
    etrans; [by apply (Hheap x u old Hx0 I)|]. apply (Hheap i old v); [|done|by rewrite Hi|done].
    apply half_pos. by rewrite Hi.
Qed.

Lemma up_inv_snoc l x : heap_ok l -> up_inv (length l) (l ++ [x]).
Proof.
  intros Hheap. split.
  - intros i u v Hi Hne Hu Hv. pose proof (half_lt i Hi). apply lookup_lt_Some in Hv as Hl.
    rewrite length_app in Hl. simpl in Hl. rewrite lookup_app_l in Hu, Hv by lia. by apply (Hheap i).
  - intros i u v Hx Hi Hu Hv. apply lookup_lt_Some in Hv as Hl. rewrite length_app in Hl. simpl in Hl.
    apply half_children in Hi. lia.
Qed.
(** ** Sifting down *)

Lemma down_inv_step l x j a b :
  down_inv x l -> (j / 2 = x)%nat -> j <> x -> l !! x = Some a -> l !! j = Some b -> lt a b = true ->
  (forall i c, (i / 2 = x)%nat -> i <> x -> l !! i = Some c -> noworse lt b c) ->
  down_inv j (exchange x j l).
Proof.
  intros [Hheap Hbr] Hj Hjx Ha Hb Hlt Hbest.
  pose proof (sw_asym lt _ _ Hlt) as Hba. change (noworse lt b a) in Hba.
  assert (Hl : forall k, exchange x j l !! k =
            if decide (k = j) then Some a else if decide (k = x) then Some b else l !! k).
  { intros k. by apply exchange_lookup. }
  split.
  - intros i u v Hi Hne Hu Hv. rewrite Hl in Hu, Hv. pose proof (half_lt i Hi).
    rewrite (decide_False (P := (i / 2 = j)%nat)) in Hu by done.
    destruct (decide (i = j)) as [->|Hij]; [rewrite decide_True in Hu by done; by simplify_eq|].
    destruct (decide (i = x)) as [->|Hix].
    { rewrite decide_False in Hu by lia. injection Hv as <-. by apply (Hbr j u b Hi Hj). }
    destruct (decide (i / 2 = x)%nat) as [Hp|Hp].
    { injection Hu as <-. by apply (Hbest i v Hp). }
    by apply (Hheap i u v Hi).
  - intros i u v Hj0 Hi Hu Hv. rewrite Hl in Hu, Hv. pose proof (half_lt j Hj0).
    rewrite decide_False, decide_True in Hu by lia. injection Hu as <-.
    assert (0 < i)%nat by (apply half_pos; lia). pose proof (half_lt i ltac:(lia)).
    assert (x < j)%nat by lia.
    rewrite !decide_False in Hv by lia. apply (Hheap i b v); [lia|lia|by rewrite Hi|done].
Qed.

Lemma down_inv_done l x a :
  down_inv x l -> l !! x = Some a ->
  (forall i c, (i / 2 = x)%nat -> i <> x -> l !! i = Some c -> noworse lt a c) -> heap_ok l.
Proof.
  intros [Hheap _] Ha Hbest i u v Hi _ Hu Hv. destruct (decide (i / 2 = x)%nat) as [Hp|Hp].
  - rewrite Hp, Ha in Hu. injection Hu as <-. apply (Hbest i v Hp); [|done]. pose proof (half_lt i Hi). lia.
  - by apply (Hheap i).
Qed.

Lemma down_inv_end l x : down_inv x l -> (length l <= x)%nat -> heap_ok l.
Proof.
  intros [Hheap _] Hx i u v Hi _ Hu Hv. apply (Hheap i u v Hi); [|done|done].
  intros Hp. apply lookup_lt_Some in Hu. lia.
Qed.

(** Putting an element that is no better into a heap. *)
Lemma down_inv_insert l x old new :
  heap_ok l -> l !! x = Some old -> lt old new = false -> down_inv x (<[x := new]> l).
Proof.
  intros Hheap Hx Hno. change (noworse lt old new) in Hno. pose proof (lookup_lt_Some _ _ _ Hx) as Hlen. split.
  - intros i u v Hi Hne Hu Hv. rewrite list_lookup_insert_ne in Hu by done.
    destruct (decide (i = x)) as [->|Hix].
    + rewrite list_lookup_insert_eq in Hv by done. injection Hv as <-.
      etrans; [by apply (Hheap x u old Hi I)|done].
    + rewrite list_lookup_insert_ne in Hv by done. by apply (Hheap i).
  - intros i u v Hx0 Hi Hu Hv. pose proof (half_lt x Hx0).
    rewrite list_lookup_insert_ne in Hu by lia.
    assert (0 < i)%nat by (apply half_pos; lia). pose proof (half_lt i ltac:(lia)).
    rewrite list_lookup_insert_ne in Hv by lia.
    etrans; [by apply (Hheap x u old Hx0 I)|]. apply (Hheap i old v); [lia|done|by rewrite Hi|done].
Qed.

(** Moving the last element to the root and removing its place. *)
Lemma down_inv_pop l n : heap_ok l -> length l = S n -> down_inv 0 (take n (exchange 0 n l)).
Proof.
  intros Hheap Hlen. split.
  - intros i u v Hi Hne Hu Hv. pose proof (half_lt i Hi).
    apply lookup_take_Some in Hu as [Hu _]. apply lookup_take_Some in Hv as [Hv Hin].
    destruct (lookup_lt_is_Some_2 l 0 ltac:(lia)) as [a Ha].
    destruct (lookup_lt_is_Some_2 l n ltac:(lia)) as [b Hb].
    rewrite (exchange_lookup 0 n l a b) in Hu, Hv by done.
    rewrite !decide_False in Hu by lia. rewrite !decide_False in Hv by lia. by apply (Hheap i).
  - intros i u v H0. lia.
Qed.
End heap.

(** * The index *)

Section index.
Context {K V : Type} `{!HashKey K, !HashKeyLaws K, !Inhabited K} (extract_key : V -> K).
Implicit Types (h : oa_hashtable Z) (heap : list V).
Abbreviation ek := (extract_key_from_entry extract_key).

(** Renaming the values held, when keys stay with their slots. *)
Lemma slots_ok_rename (f g : Z -> K) (s : Z -> Z) m (slots : list (oa_entry Z)) :
  (forall v, v ∈ held slots -> g (s v) = f v) -> slots_ok f m slots ->
  slots_ok g m ((fun e => mk_entry (stat e) (s <$> value e)) <$> slots).
Proof.
  intros Hs [Hreach Hdist].
  assert (Hocc : forall i w, ((fun e => mk_entry (stat e) (s <$> value e)) <$> slots) !! i = Some (occ w) ->
            exists v, slots !! i = Some (occ v) /\ w = s v /\ g w = f v).
  { intros i w Hi. rewrite list_lookup_fmap in Hi. apply fmap_Some in Hi as ([st [v|]]&Hi&He); [|done].
    injection He as <- ->. exists v. split_and!; [done|done|]. apply Hs, list_elem_of_omap.
    eexists. split; [by eapply list_elem_of_lookup_2|done]. }
  assert (Hfill : forall i, is_filled slots i ->
            is_filled ((fun e => mk_entry (stat e) (s <$> value e)) <$> slots) i).
  { intros i. unfold is_filled. rewrite list_lookup_fmap. by destruct (slots !! Z.to_nat i). }
  split.
  - intros i w Hi Hw. destruct (Hocc _ _ Hw) as (v&Hv&_&->).
    destruct (Hreach i v Hi Hv) as (r&Hr&Hp&Hf). exists r. split_and!; [done|done|]. auto.
  - intros i j w1 w2 H1 H2. destruct (Hocc _ _ H1) as (v1&Hv1&_&->), (Hocc _ _ H2) as (v2&Hv2&_&->).
    by apply Hdist.
Qed.
(** An iterator that can be dereferenced is at the slot of its value. *)
Lemma dereference_slot {W} (t : oa_table_c W) slots it v :
  table_ok t slots -> iterator_dereference t it = Some v ->
  exists i, Z.to_nat it = S i /\ slots !! i = Some (occ v).
Proof.
  intros Ht. unfold iterator_dereference, entry_at. rewrite (to_table _ _ Ht).
  destruct (Z.to_nat it) as [|i]; [done|].
  change ((guard_entry :: slots ++ [guard_entry]) !! S i) with ((slots ++ [guard_entry]) !! i).
  destruct (decide (i < length slots)%nat) as [Hi|Hi].
  - rewrite lookup_app_l by done. destruct (slots !! i) as [[st [w|]]|] eqn:E; [| |done]; cbn.
    + case_decide; [|done]. intros [= ->]. exists i. by subst st.
    + by case_decide.
  - rewrite lookup_app_r by lia. destruct (i - length slots)%nat as [|k]; [done|]. by destruct k.
Qed.

Lemma iterator_assign_slot {W} (t : oa_table_c W) slots it i (v w : W) :
  table_ok t slots -> Z.to_nat it = S i -> slots !! i = Some (occ v) ->
  exists t', iterator_assign t it w = Some t' /\ table_ok t' (<[i := occ w]> slots) /\
    table_size t' = table_size t /\ max_non_empty t' = max_non_empty t /\
    num_non_empty t' = num_non_empty t.
Proof.
  intros Ht Hit Hi. unfold iterator_assign, entry_at. rewrite (to_table _ _ Ht), Hit.
  pose proof (lookup_lt_Some _ _ _ Hi) as Hlen.
  change ((guard_entry :: slots ++ [guard_entry]) !! S i) with ((slots ++ [guard_entry]) !! i).
  rewrite lookup_app_l, Hi by done. cbn [mbind option_bind]. rewrite decide_True by done.
  eexists. split; [done|]. split; [|done].
  replace it with (Z.of_nat i + 1) by lia. rewrite <- (Nat2Z.id i) at 2.
  pose proof (to_size _ _ Ht).
  apply (set_entry_ok t slots (Z.of_nat i) (occ v)); [done|lia|by rewrite Nat2Z.id|done| |].
  - change (occupied (occ v)) with true. change (occupied (occ w)) with true. lia.
  - change (filled (occ v)) with true. change (filled (occ w)) with true. lia.
Qed.
(** The hash table has the indices of the heap. *)
Definition index_ok heap h : Prop :=
  exists slots, ht_ok (ek heap) h slots /\ held slots ≡ₚ seqZ 0 (Z.of_nat (length heap)).

(** A hash table with the load factor, the capacity and the use of another one. *)
Definition same_capacity h h' : Prop :=
  lf h' = lf h /\ max_non_empty (tbl h') = max_non_empty (tbl h) /\
  num_non_empty (tbl h') = num_non_empty (tbl h).

Lemma same_capacity_refl h : same_capacity h h.
Proof. done. Qed.

Lemma same_capacity_trans h1 h2 h3 : same_capacity h1 h2 -> same_capacity h2 h3 -> same_capacity h1 h3.
Proof. intros (?&?&?) (?&?&?). split_and!; congruence. Qed.

Lemma ek_lookup heap x v : heap !! x = Some v -> ek heap (Z.of_nat x) = extract_key v.
Proof. unfold extract_key_from_entry. rewrite Nat2Z.id. by intros ->. Qed.

Lemma held_index heap slots v :
  held slots ≡ₚ seqZ 0 (Z.of_nat (length heap)) -> v ∈ held slots ->
  exists x w, v = Z.of_nat x /\ heap !! x = Some w.
Proof.
  intros Hp Hv. rewrite Hp, elem_of_seqZ in Hv.
  destruct (lookup_lt_is_Some_2 heap (Z.to_nat v) ltac:(lia)) as [w Hw].
  exists (Z.to_nat v), w. split; [lia|done].
Qed.

Lemma slot_held {W} (slots : list (oa_entry W)) i v : slots !! i = Some (occ v) -> v ∈ held slots.
Proof. intros Hi. apply list_elem_of_omap. eexists. split; [by eapply list_elem_of_lookup_2|done]. Qed.

(** No two elements of the heap have equal keys. *)
Lemma index_distinct heap h x y v w :
  index_ok heap h -> heap !! x = Some v -> heap !! y = Some w ->
  equal_keys (extract_key v) (extract_key w) = true -> x = y.
Proof.
  intros (slots&(Hh&_&_)&Hp) Hx Hy Heq. pose proof (hb_table _ _ _ Hh) as Ht.
  assert (Hslot : forall z u, heap !! z = Some u -> exists i, slots !! i = Some (occ (Z.of_nat z))).
  { intros z u Hz. apply (elem_of_held _ _ (to_slots _ _ Ht)). rewrite Hp, elem_of_seqZ.
    apply lookup_lt_Some in Hz. lia. }
  destruct (Hslot x v Hx) as [i Hi], (Hslot y w Hy) as [j Hj].
  rewrite <- (ek_lookup heap x v Hx), <- (ek_lookup heap y w Hy) in Heq.
  pose proof (so_distinct _ _ _ (hb_slots _ _ _ Hh) i j _ _ Hi Hj Heq) as ->.
  rewrite Hi in Hj. injection Hj as Hj. lia.
Qed.

(** Finding an element of the heap by its key. *)
Lemma index_find heap h slots x v k :
  ht_ok (ek heap) h slots -> held slots ≡ₚ seqZ 0 (Z.of_nat (length heap)) ->
  heap !! x = Some v -> equal_keys (extract_key v) k = true ->
  exists it i, ht_find (ek heap) k h = Some it /\ ht_end h <> Some it /\
    iterator_dereference (tbl h) it = Some (Z.of_nat x) /\ Z.to_nat it = S i /\
    slots !! i = Some (occ (Z.of_nat x)).
Proof.
  intros Hok Hp Hx Hk. pose proof Hok as (Hh&_&_). pose proof (hb_table _ _ _ Hh) as Ht.
  assert (Hin : Z.of_nat x ∈ held slots).
  { rewrite Hp, elem_of_seqZ. apply lookup_lt_Some in Hx. lia. }
  destruct (ht_find_spec (ek heap) h slots k Hok) as [(z&it&Hz&Heq&Hf&Hne&Hd)|(Hno&_)].
  - destruct (held_index heap slots z Hp Hz) as (y&w&->&Hy).
    rewrite (ek_lookup _ _ _ Hy) in Heq.
    assert (y = x) as ->.
    { apply (index_distinct heap h y x w v); [by exists slots|done|done|].
      eapply equal_keys_trans; [exact Heq|by apply equal_keys_sym]. }
    destruct (dereference_slot _ _ _ _ Ht Hd) as (i&Hi&Hs). by exists it, i.
  - specialize (Hno _ Hin). by rewrite (ek_lookup _ _ _ Hx), Hk in Hno.
Qed.
(** ** [swap] *)

Definition transpose (x1 x2 z : Z) : Z := if z =? x1 then x2 else if z =? x2 then x1 else z.

Definition rename (f : Z -> Z) (e : oa_entry Z) : oa_entry Z := mk_entry (stat e) (f <$> value e).

Lemma transpose_involutive x1 x2 z : transpose x1 x2 (transpose x1 x2 z) = z.
Proof.
  unfold transpose. destruct (Z.eqb_spec z x1), (Z.eqb_spec z x2), (Z.eqb_spec x2 x1); subst;
    rewrite ?Z.eqb_refl; try lia; repeat (rewrite (proj2 (Z.eqb_neq _ _)) by lia); lia.
Qed.

Lemma held_rename f (slots : list (oa_entry Z)) : held (rename f <$> slots) = f <$> held slots.
Proof.
  unfold held. induction slots as [|[st [v|]] slots IH]; [done| |]; csimpl; by rewrite ?IH.
Qed.

Lemma transpose_perm x1 x2 n :
  0 <= x1 < n -> 0 <= x2 < n -> transpose x1 x2 <$> seqZ 0 n ≡ₚ seqZ 0 n.
Proof.
  intros H1 H2. assert (Hr : forall z, 0 <= z < n -> 0 <= transpose x1 x2 z < n).
  { intros z Hz. unfold transpose. destruct (z =? x1), (z =? x2); lia. }
  apply NoDup_Permutation; [|apply NoDup_seqZ|].
  - apply (NoDup_fmap_2_strong); [|apply NoDup_seqZ]. intros a b _ _ Hab.
    by rewrite <- (transpose_involutive x1 x2 a), Hab, transpose_involutive.
  - intros z. rewrite list_elem_of_fmap. setoid_rewrite elem_of_seqZ. split.
    + intros (y&->&Hy). specialize (Hr y). lia.
    + intros Hz. exists (transpose x1 x2 z). split; [by rewrite transpose_involutive|].
      specialize (Hr z). lia.
Qed.

(** Exchanging the values of two slots is a renaming. *)
Lemma exchanged_slots (slots : list (oa_entry Z)) a b x1 x2 :
  slots !! a = Some (occ x1) -> slots !! b = Some (occ x2) -> Forall entry_ok slots ->
  (forall i j v, slots !! i = Some (occ v) -> slots !! j = Some (occ v) -> i = j) ->
  <[b := occ x1]> (<[a := occ x2]> slots) = rename (transpose x1 x2) <$> slots.
Proof.
  intros Ha Hb Hok Huniq. apply list_eq. intros k. rewrite list_lookup_fmap.
  pose proof (lookup_lt_Some _ _ _ Ha). pose proof (lookup_lt_Some _ _ _ Hb).
  destruct (decide (k = b)) as [->|Hkb].
  { rewrite list_lookup_insert_eq, Hb by (by rewrite length_insert). cbn. unfold rename, transpose. cbn.
    destruct (Z.eqb_spec x2 x1) as [->|]; by rewrite ?Z.eqb_refl. }
  rewrite list_lookup_insert_ne by done. destruct (decide (k = a)) as [->|Hka].
  { rewrite list_lookup_insert_eq, Ha by done. unfold rename, transpose. cbn. by rewrite Z.eqb_refl. }
  rewrite list_lookup_insert_ne by done. destruct (slots !! k) as [e|] eqn:Hk; [|done].
  cbn. f_equal. rewrite Forall_lookup in Hok. specialize (Hok k e Hk).
  destruct e as [[] [v|]]; try done. unfold rename, transpose. cbn.
  destruct (Z.eqb_spec v x1) as [->|]; [by destruct Hka; apply (Huniq k a x1)|].
  destruct (Z.eqb_spec v x2) as [->|]; [by destruct Hkb; apply (Huniq k b x2)|]. done.
Qed.

Lemma pt_swap_ok heap h x1 x2 v1 v2 :
  index_ok heap h -> heap !! x1 = Some v1 -> heap !! x2 = Some v2 ->
  exists h', pt_swap extract_key x1 x2 (mk_ptable heap h) = Some (mk_ptable (exchange x1 x2 heap) h') /\
    index_ok (exchange x1 x2 heap) h' /\ same_capacity h h'.
Proof.
  intros Hix H1 H2. pose proof Hix as (slots&Hok&Hp). pose proof Hok as (Hh&Hcap&Hle).
  pose proof (hb_table _ _ _ Hh) as Ht.
  destruct (index_find heap h slots x1 v1 (extract_key v1) Hok Hp H1 (equal_keys_refl _))
    as (p1&a&Hf1&_&Hd1&Hp1&Ha).
  destruct (index_find heap h slots x2 v2 (extract_key v2) Hok Hp H2 (equal_keys_refl _))
    as (p2&b&Hf2&_&Hd2&Hp2&Hb).
  assert (Huniq : forall i j v, slots !! i = Some (occ v) -> slots !! j = Some (occ v) -> i = j).
  { intros i j v Hi Hj. by apply (so_distinct _ _ _ (hb_slots _ _ _ Hh) i j v v Hi Hj), equal_keys_refl. }
  unfold pt_swap, pt_find. cbn [priority_heap entry_index]. rewrite H1, H2. cbn [mbind option_bind].
  rewrite Hf1, Hf2. cbn [mbind option_bind]. rewrite Hd1, Hd2. cbn [mbind option_bind].
  destruct (iterator_assign_slot (tbl h) slots p1 a (Z.of_nat x1) (Z.of_nat x2) Ht Hp1 Ha)
    as (t1&->&Ht1&Hs1&Hm1&Hn1). cbn [mbind option_bind].
  assert (Hb' : exists w, <[a := occ (Z.of_nat x2)]> slots !! b = Some (occ w)).
  { destruct (decide (a = b)) as [->|Hne]; eexists.
    - apply list_lookup_insert_eq. by eapply lookup_lt_Some.
    - by rewrite list_lookup_insert_ne. }
  destruct Hb' as [w Hb'].
  destruct (iterator_assign_slot t1 _ p2 b w (Z.of_nat x1) Ht1 Hp2 Hb') as (t2&->&Ht2&Hs2&Hm2&Hn2).
  cbn [mbind option_bind]. eexists. split; [unfold exchange; rewrite H1, H2; done|].
  rewrite (exchanged_slots slots a b _ _ Ha Hb (to_slots _ _ Ht) Huniq) in Ht2.
  split; [|split_and!; cbn; congruence]. eexists. split.
  - split; [|cbn; lia]. split; [exact Ht2|cbn; rewrite Hs2, Hs1; apply (hb_prime _ _ _ Hh)|].
    cbn [tbl]. rewrite Hs2, Hs1. apply (slots_ok_rename (ek heap)); [|apply (hb_slots _ _ _ Hh)].
    intros z Hz. destruct (held_index heap slots z Hp Hz) as (y&u&->&Hy). rewrite (ek_lookup _ _ _ Hy).
    unfold transpose. destruct (Z.eqb_spec (Z.of_nat y) (Z.of_nat x1)) as [E|E];
      [|destruct (Z.eqb_spec (Z.of_nat y) (Z.of_nat x2)) as [E'|E']]; apply ek_lookup;
      rewrite (exchange_lookup x1 x2 heap v1 v2) by done.
    + apply Nat2Z.inj in E as ->. rewrite decide_True by done. congruence.
    + apply Nat2Z.inj in E' as ->. case_decide; [subst; congruence|]. rewrite decide_True by done. congruence.
    + rewrite !decide_False by congruence. done.
  - rewrite held_rename, Hp, exchange_length. apply transpose_perm; apply lookup_lt_Some in H1, H2; lia.
Qed.
End index.

(** * Percolation *)

Section percolate.
Context {K V P : Type} `{!HashKey K, !HashKeyLaws K, !Inhabited K}.
Context (extract_key : V -> K) (extract_priority : V -> P) (compare_priorities : P -> P -> bool).
Context `{!StrictWeak compare_priorities}.
Implicit Types (t : priority_table V) (heap : list V).
Abbreviation ek := (extract_key_from_entry extract_key).

(** The order of the values by priority. *)
Definition lower_priority (v w : V) : bool := compare_priorities (extract_priority v) (extract_priority w).

#[local] Instance lower_priority_sw : StrictWeak lower_priority.
Proof. apply (sw_pullback compare_priorities extract_priority). Qed.

(** [t'] is [t] with its heap in another order. *)
Definition rearranged t t' : Prop :=
  index_ok extract_key (priority_heap t') (entry_index t') /\
  priority_heap t' ≡ₚ priority_heap t /\ same_capacity (entry_index t) (entry_index t').

Lemma rearranged_trans t1 t2 t3 : rearranged t1 t2 -> rearranged t2 t3 -> rearranged t1 t3.
Proof.
  intros (_&Hp1&H1) (Hi&Hp2&H2). split_and!; [done|by rewrite Hp2|]. by eapply same_capacity_trans.
Qed.

Lemma pt_swap_rearranged t x y v w :
  index_ok extract_key (priority_heap t) (entry_index t) ->
  priority_heap t !! x = Some v -> priority_heap t !! y = Some w ->
  exists t', pt_swap extract_key x y t = Some t' /\ rearranged t t' /\
    priority_heap t' = exchange x y (priority_heap t).
Proof.
  intros Hi Hv Hw. destruct t as [heap h]. cbn in *.
  destruct (pt_swap_ok extract_key heap h x y v w Hi Hv Hw) as (h'&Hs&Hi'&Hc).
  eexists. split; [exact Hs|]. split; [|done]. split_and!; [done|by eapply exchange_perm|done].
Qed.

Lemma lower_lookup t x y v w :
  priority_heap t !! x = Some v -> priority_heap t !! y = Some w ->
  lower extract_priority compare_priorities t x y = Some (lower_priority v w).
Proof. intros Hv Hw. unfold lower, priority. by rewrite Hv, Hw. Qed.

Lemma percolate_up_ok fuel x t :
  (x <= fuel)%nat -> (x < length (priority_heap t))%nat ->
  index_ok extract_key (priority_heap t) (entry_index t) -> up_inv lower_priority x (priority_heap t) ->
  exists t', percolate_up extract_key extract_priority compare_priorities fuel x t = Some t' /\
    rearranged t t' /\ heap_ok lower_priority (priority_heap t').
Proof.
  revert x t. induction fuel as [|fuel IH]; intros x t Hf Hx Hi Hup; cbn [percolate_up];
    (destruct (Nat.eqb_spec x 0) as [->|Hx0];
     [exists t; split; [done|split; [by split_and!|by apply up_inv_root]]|]); [lia|].
  unfold parent. pose proof (half_lt x ltac:(lia)) as Hp.
  destruct (lookup_lt_is_Some_2 (priority_heap t) x Hx) as [b Hb].
  destruct (lookup_lt_is_Some_2 (priority_heap t) (x / 2)%nat ltac:(lia)) as [a Ha].
  rewrite (lower_lookup t _ _ a b Ha Hb). cbn [mbind option_bind].
  destruct (lower_priority a b) eqn:Hab.
  - destruct (pt_swap_rearranged t x (x / 2)%nat b a Hi Hb Ha) as (t1&->&Hr1&Hh1). cbn [mbind option_bind].
    destruct (IH (x / 2)%nat t1) as (t2&Ht2&Hr2&Hok2); [lia| |apply Hr1| |].
    + rewrite Hh1, exchange_length. lia.
    + rewrite Hh1. by apply (up_inv_step lower_priority (priority_heap t) x a b); [lia|..].
    + exists t2. split; [done|]. split; [by eapply rearranged_trans|done].
  - exists t. split; [done|]. split; [by split_and!|].
    by apply (up_inv_done lower_priority (priority_heap t) x a b).
Qed.

(** One test of [percolate_down]. *)
Lemma prefer_ok t to a c :
  priority_heap t !! to = Some a ->
  exists r b, prefer extract_priority compare_priorities t to c = Some r /\
    priority_heap t !! r = Some b /\
    (r = to /\ b = a /\ (forall y, priority_heap t !! c = Some y -> noworse lower_priority a y) \/
     r = c /\ lower_priority a b = true).
Proof.
  intros Ha. unfold prefer. destruct (Nat.ltb_spec c (length (priority_heap t))) as [Hc|Hc].
  - destruct (lookup_lt_is_Some_2 _ c Hc) as [y Hy]. rewrite (lower_lookup t to c a y Ha Hy).
    cbn [mbind option_bind]. destruct (lower_priority a y) eqn:Hl; eexists _, _.
    + split; [done|]. split; [exact Hy|]. by right.
    + split; [done|]. split; [exact Ha|]. left. split_and!; [done|done|]. intros z Hz. by simplify_eq.
  - exists to, a. split; [done|]. split; [done|]. left. split_and!; [done|done|].
    intros y Hy. apply lookup_lt_Some in Hy. lia.
Qed.

Lemma left_child_lookup t x y :
  priority_heap t !! (x * 2)%nat = Some y -> priority_heap t !! left_child t x = Some y.
Proof.
  intros Hy. unfold left_child. rewrite (proj2 (Nat.leb_gt _ _)); [done|]. by eapply lookup_lt_Some.
Qed.

Lemma right_child_lookup t x y :
  priority_heap t !! (x * 2 + 1)%nat = Some y -> priority_heap t !! right_child t x = Some y.
Proof.
  intros Hy. unfold right_child. rewrite (proj2 (Nat.leb_gt _ _)); [done|]. by eapply lookup_lt_Some.
Qed.

Lemma child_position t x c b :
  c = left_child t x \/ c = right_child t x -> priority_heap t !! c = Some b -> (c / 2)%nat = x.
Proof.
  intros Hc Hb. apply lookup_lt_Some in Hb. apply half_children.
  destruct Hc as [->| ->]; unfold left_child, right_child in *; case_match; lia.
Qed.

(** Both tests together: a child that is better than [x] and no worse than the
    other one, or [x] when it has no better child. *)
Lemma best_child t x a :
  priority_heap t !! x = Some a ->
  exists to1 to b,
    prefer extract_priority compare_priorities t x (left_child t x) = Some to1 /\
    prefer extract_priority compare_priorities t to1 (right_child t x) = Some to /\
    priority_heap t !! to = Some b /\
    (to = x \/ (to / 2)%nat = x /\ lower_priority a b = true) /\
    (forall i c, (i / 2)%nat = x -> i <> x -> priority_heap t !! i = Some c -> noworse lower_priority b c).
Proof.
  intros Ha. destruct (prefer_ok t x a (left_child t x) Ha) as (to1&b1&H1&Hb1&Hc1).
  destruct (prefer_ok t to1 b1 (right_child t x) Hb1) as (to&b&H2&Hb&Hc2).
  exists to1, to, b. do 3 (split; [done|]).
  assert (Hchild : forall i c, (i / 2)%nat = x -> priority_heap t !! i = Some c ->
            priority_heap t !! left_child t x = Some c \/ priority_heap t !! right_child t x = Some c).
  { intros i c [->| ->]%half_children Hc; [left; by apply left_child_lookup|right; by apply right_child_lookup]. }
  assert (Hself : forall v, noworse lower_priority v v) by (intros; apply sw_irrefl; apply _).
  split.
  - destruct Hc2 as [(->&->&_)|[Hto Hlt2]].
    + destruct Hc1 as [(->&_)|[Hto1 Hlt1]]; [by left|]. right. split; [|done].
      eapply child_position; [left; exact Hto1|done].
    + right. split; [eapply child_position; [right; exact Hto|done]|].
      destruct Hc1 as [(_&->&_)|[_ Hlt1]]; [done|]. by eapply sw_trans; [..|exact Hlt2].
  - intros i c Hi Hne Hc. destruct (Hchild i c Hi Hc) as [Hl|Hr].
    + assert (H1c : noworse lower_priority b1 c).
      { destruct Hc1 as [(_&->&Hno)|[-> _]]; [by apply Hno|]. rewrite Hb1 in Hl. by injection Hl as <-. }
      destruct Hc2 as [(_&->&_)|[_ Hlt2]]; [done|]. etrans; [|exact H1c].
      by apply (sw_asym lower_priority).
    + destruct Hc2 as [(_&->&Hno)|[-> _]]; [by apply Hno|]. rewrite Hb in Hr. by injection Hr as <-.
Qed.

Lemma percolate_down_ok fuel x t :
  (length (priority_heap t) <= fuel + x)%nat ->
  index_ok extract_key (priority_heap t) (entry_index t) -> down_inv lower_priority x (priority_heap t) ->
  exists t', percolate_down extract_key extract_priority compare_priorities fuel x t = Some t' /\
    rearranged t t' /\ heap_ok lower_priority (priority_heap t').
Proof.
  revert x t. induction fuel as [|fuel IH]; intros x t Hf Hi Hdown; cbn [percolate_down];
    (destruct (Nat.ltb_spec x (length (priority_heap t))) as [Hx|Hx];
     [|exists t; split; [done|split; [by split_and!|by eapply down_inv_end]]]); [lia|].
  destruct (lookup_lt_is_Some_2 (priority_heap t) x Hx) as [a Ha].
  destruct (best_child t x a Ha) as (to1&to&b&->&H2&Hb&Hto&Hbest). cbn [mbind option_bind].
  rewrite H2. cbn [mbind option_bind]. destruct (Nat.eqb_spec to x) as [->|Hne].
  - exists t. split; [done|]. split; [by split_and!|].
    apply (down_inv_done lower_priority (priority_heap t) x b); [done|done|exact Hbest].
  - destruct Hto as [|[Hto Hlt]]; [done|].
    destruct (pt_swap_rearranged t x to a b Hi Ha Hb) as (t1&->&Hr1&Hh1). cbn [mbind option_bind].
    assert (x < to)%nat.
    { destruct (decide (to = 0%nat)) as [->|]; [|pose proof (half_lt to); lia].
      destruct Hne. rewrite <- Hto. reflexivity. }
    destruct (IH to t1) as (t2&Ht2&Hr2&Hok2); [|apply Hr1| |].
    + rewrite Hh1, exchange_length. lia.
    + rewrite Hh1. by apply (down_inv_step lower_priority (priority_heap t) x to a b).
    + exists t2. split; [done|]. split; [by eapply rearranged_trans|done].
Qed.
End percolate.

(** * The operations *)

Section operations.
Context {K V P : Type} `{!HashKey K, !HashKeyLaws K, !Inhabited K}.
Context (extract_key : V -> K) (extract_priority : V -> P) (compare_priorities : P -> P -> bool).
Context `{!StrictWeak compare_priorities}.
Implicit Types (t : priority_table V) (heap : list V).
Abbreviation ek := (extract_key_from_entry extract_key).
Abbreviation lt := (lower_priority extract_priority compare_priorities).
#[local] Existing Instance lower_priority_sw.

(** The invariant: a heap, and the hash table has the indices of its elements. *)
Definition pt_ok t : Prop :=
  heap_ok lt (priority_heap t) /\ index_ok extract_key (priority_heap t) (entry_index t).

(** [v] has the key [k]. *)
Definition has_key (k : K) (v : V) : Prop := equal_keys (extract_key v) k = true.

(** The position an iterator refers to. *)
Lemma position_value t it v :
  pt_ok t -> pt_dereference t it = Some v ->
  exists i, pt_position t it = Some i /\ priority_heap t !! i = Some v.
Proof. intros _. unfold pt_dereference. destruct (pt_position t it) as [i|]; [|done]. by exists i. Qed.

Lemma pt_find_ok t x v k :
  index_ok extract_key (priority_heap t) (entry_index t) ->
  priority_heap t !! x = Some v -> equal_keys (extract_key v) k = true ->
  exists it, pt_find extract_key k t = Some it /\ pt_dereference t it = Some v /\ pt_end t <> Some it.
Proof.
  intros (slots&Hok&Hp) Hx Hk.
  destruct (index_find extract_key _ _ _ x v k Hok Hp Hx Hk) as (it&i&Hf&Hne&Hd&_).
  exists it. split; [exact Hf|]. split; [|done]. unfold pt_dereference, pt_position. rewrite Hd. cbn.
  by rewrite Nat2Z.id.
Qed.

(** A heap with an element added at the end. *)
Lemma snoc_index heap h slots v :
  ht_ok (ek heap) h slots -> held slots ≡ₚ seqZ 0 (Z.of_nat (length heap)) ->
  ht_ok (ek (heap ++ [v])) h slots.
Proof.
  intros Hok Hp. apply (ht_ok_ext (ek heap)); [|done]. intros z Hz.
  destruct (held_index heap slots z Hp Hz) as (x&w&->&Hx).
  rewrite (ek_lookup _ _ _ _ Hx). symmetry. apply ek_lookup.
  rewrite lookup_app_l; [done|by eapply lookup_lt_Some].
Qed.

Lemma seqZ_snoc n : seqZ 0 (Z.of_nat n + 1) = seqZ 0 (Z.of_nat n) ++ [Z.of_nat n].
Proof. rewrite (seqZ_app 0 (Z.of_nat n) 1) by lia. done. Qed.

(** The index after a new element. *)
Lemma pt_insert_index heap h val s :
  index_ok extract_key heap h ->
  grow_size (lf h) (2 * max_non_empty (tbl h) + 1) = Some s -> 2 * max_non_empty (tbl h) + 1 < s ->
  (exists it x w, heap !! x = Some w /\ has_key (extract_key val) w /\
     ht_insert (ek (heap ++ [val])) (Z.of_nat (length heap)) h = Some (Ok (it, false, h)) /\
     iterator_dereference (tbl h) it = Some (Z.of_nat x)) \/
  (forall w, w ∈ heap -> equal_keys (extract_key w) (extract_key val) = false) /\
  exists it h', ht_insert (ek (heap ++ [val])) (Z.of_nat (length heap)) h = Some (Ok (it, true, h')) /\
    index_ok extract_key (heap ++ [val]) h' /\ lf h' = lf h /\ ht_grown h h'.
Proof.
  intros (slots&Hok&Hp) Hg Hs. pose proof (snoc_index heap h slots val Hok Hp) as Hok'.
  assert (Hval : ek (heap ++ [val]) (Z.of_nat (length heap)) = extract_key val).
  { apply ek_lookup. by rewrite lookup_app_r, Nat.sub_diag by lia. }
  assert (Hold : forall x w, heap !! x = Some w -> ek (heap ++ [val]) (Z.of_nat x) = extract_key w).
  { intros x w Hx. apply ek_lookup. rewrite lookup_app_l; [done|by eapply lookup_lt_Some]. }
  destruct (ht_insert_spec (ek (heap ++ [val])) h slots (Z.of_nat (length heap)) s Hok' Hg)
    as [(z&it&Hz&Heq&Hi&Hd)|(Hno&[[? _]|(it&h'&slots'&Hi&Hok2&Hp2&Hlf&_&Hgr)])]; [|lia|].
  - left. destruct (held_index heap slots z Hp Hz) as (x&w&->&Hx). rewrite Hval, (Hold x w Hx) in Heq.
    by exists it, x, w.
  - right. split.
    + intros w (x&Hx)%list_elem_of_lookup. rewrite <- Hval, <- (Hold x w Hx). apply Hno.
      rewrite Hp, elem_of_seqZ. apply lookup_lt_Some in Hx. lia.
    + exists it, h'. split; [done|]. split; [|done]. exists slots'. split; [done|].
      rewrite Hp2, length_app, Nat2Z.inj_add, Hp. change (Z.of_nat (length [val])) with 1.
      rewrite seqZ_snoc. apply Permutation_cons_append.
Qed.

(** The rest of [insert], for a new element. *)
Lemma pt_insert_percolate heap h' val :
  heap_ok lt heap -> index_ok extract_key (heap ++ [val]) h' ->
  exists (it : Z) t',
    (t ← up extract_key extract_priority compare_priorities (length heap) (mk_ptable (heap ++ [val]) h');
     it ← pt_find extract_key (extract_key val) t;
     Some (Ok (it, true, t))) = Some (Ok (it, true, t')) /\
    pt_ok t' /\ priority_heap t' ≡ₚ val :: heap /\ pt_dereference t' it = Some val /\
    same_capacity h' (entry_index t').
Proof.
  intros Hheap Hix'. unfold up.
  destruct (percolate_up_ok extract_key extract_priority compare_priorities (length heap) (length heap)
              (mk_ptable (heap ++ [val]) h')) as (t2&Ht2&(Hix2&Hp2&Hsame)&Hheap2);
    [done|cbn; rewrite length_app; simpl; lia|done|by apply up_inv_snoc|].
  rewrite Ht2. cbn [mbind option_bind]. cbn [priority_heap] in Hp2.
  assert (Hin : val ∈ priority_heap t2).
  { rewrite Hp2, elem_of_app, list_elem_of_singleton. by right. }
  apply list_elem_of_lookup in Hin as [x Hx].
  destruct (pt_find_ok t2 x val (extract_key val) Hix2 Hx (equal_keys_refl _)) as (it2&->&Hd2&_).
  exists it2, t2. split; [done|]. split; [by split|]. split; [|done].
  by rewrite Hp2, <- Permutation_cons_append.
Qed.

(** C21: inserting into a priority table keeps it a heap with a consistent index.
    When an element with the key is there, the iterator returned refers to it
    and nothing changes; otherwise exactly the new element is added, and the
    iterator refers to it wherever it has percolated to. *)
Theorem pt_insert_refines t (val : V) s :
  pt_ok t -> grow_size (lf (entry_index t)) (2 * max_non_empty (tbl (entry_index t)) + 1) = Some s ->
  2 * max_non_empty (tbl (entry_index t)) + 1 < s ->
  (exists w it, w ∈ priority_heap t /\ has_key (extract_key val) w /\
     pt_insert extract_key extract_priority compare_priorities val t = Some (Ok (it, false, t)) /\
     pt_dereference t it = Some w) \/
  ((forall w, w ∈ priority_heap t -> equal_keys (extract_key w) (extract_key val) = false) /\
   exists it t',
     pt_insert extract_key extract_priority compare_priorities val t = Some (Ok (it, true, t')) /\
     pt_ok t' /\ priority_heap t' ≡ₚ val :: priority_heap t /\ pt_dereference t' it = Some val).
Proof.
  intros [Hheap Hix] Hg Hs. destruct t as [heap h]. cbn [priority_heap entry_index] in *.
  unfold pt_insert. cbn [priority_heap entry_index]. rewrite length_app.
  replace (Z.of_nat (length heap + length [val]) - 1) with (Z.of_nat (length heap)) by (simpl; lia).
  destruct (pt_insert_index heap h val s Hix Hg Hs) as [(it&x&w&Hx&Hk&->&Hd)|(Hno&it&h'&->&Hix'&_)].
  - left. exists w, it. split_and!; [by eapply list_elem_of_lookup_2|done|done|].
    unfold pt_dereference, pt_position. cbn. rewrite Hd. cbn. by rewrite Nat2Z.id.
  - right. split; [done|]. cbn [rbind mbind option_bind].
    replace (length heap + length [val] - 1)%nat with (length heap) by (simpl; lia).
    destruct (pt_insert_percolate heap h' val Hheap Hix') as (it2&t2&Hres&Hok&Hp&Hd&_). cbn zeta in Hres.
    rewrite Hres. by exists it2, t2.
Qed.

(** ** Removal *)

Lemma take_index heap h n v :
  index_ok extract_key heap h -> length heap = S n -> heap !! n = Some v ->
  exists h', ht_erase (ek heap) (extract_key v) h = Some (1, h') /\
    index_ok extract_key (take n heap) h' /\ same_capacity h h'.
Proof.
  intros Hix Hlen Hn. pose proof Hix as (slots&Hok&Hp).
  destruct (ht_erase_spec (ek heap) h slots (extract_key v) Hok)
    as [(z&h'&slots'&Hz&Heq&He&Hok'&Hp'&Hsame)|[Hno _]].
  - exists h'. split; [done|]. split; [|split_and!; apply Hsame]. destruct (held_index heap slots z Hp Hz) as (x&w&->&Hx).
    rewrite (ek_lookup _ _ _ _ Hx) in Heq.
    assert (x = n) as -> by (by apply (index_distinct extract_key heap h x n w v)).
    assert (Hheld : held slots' ≡ₚ seqZ 0 (Z.of_nat n)).
    { apply (Permutation_cons_inv (a := Z.of_nat n)). rewrite <- Hp', Hp, Hlen.
      replace (Z.of_nat (S n)) with (Z.of_nat n + 1) by lia. rewrite seqZ_snoc.
      symmetry. apply Permutation_cons_append. }
    exists slots'. split; [|by rewrite length_take_le by lia].
    apply (ht_ok_ext (ek heap)); [|done]. intros y Hy. rewrite Hheld, elem_of_seqZ in Hy.
    unfold extract_key_from_entry. by rewrite lookup_take_lt by lia.
  - specialize (Hno (Z.of_nat n)). rewrite (ek_lookup _ _ _ _ Hn), equal_keys_refl in Hno.
    discriminate Hno. rewrite Hp, elem_of_seqZ. lia.
Qed.

(** C40: [top()] is an element that no element of the table has a higher priority
    than, and [pop()] removes exactly this element and restores the heap; both
    are undefined on the empty table. *)
Theorem pt_pop_refines t :
  pt_ok t ->
  (priority_heap t = [] /\ pt_top t = None /\
   pt_pop extract_key extract_priority compare_priorities t = None) \/
  exists v t', pt_top t = Some v /\ Forall (noworse lt v) (priority_heap t) /\
    pt_pop extract_key extract_priority compare_priorities t = Some t' /\ pt_ok t' /\
    priority_heap t ≡ₚ v :: priority_heap t'.
Proof.
  intros [Hheap Hix]. destruct t as [heap h]. cbn [priority_heap entry_index] in *.
  unfold pt_top, pt_pop, pt_erase_position. cbn [priority_heap entry_index].
  destruct (length heap) as [|n] eqn:Hlen; [left; by destruct heap|right].
  destruct (lookup_lt_is_Some_2 heap 0 ltac:(lia)) as [v Hv].
  destruct (lookup_lt_is_Some_2 heap n ltac:(lia)) as [w Hw].
  destruct (pt_swap_ok extract_key heap h 0 n v w Hix Hv Hw) as (h1&->&Hix1&_).
  cbn [mbind option_bind priority_heap entry_index].
  assert (Hlast : exchange 0 n heap !! n = Some v).
  { rewrite (exchange_lookup 0 n heap v w) by done. by rewrite decide_True. }
  assert (Hlen1 : length (exchange 0 n heap) = S n) by (by rewrite exchange_length).
  rewrite Hlast. cbn [mbind option_bind].
  destruct (take_index _ h1 n v Hix1 Hlen1 Hlast) as (h2&->&Hix2&_). cbn [mbind option_bind].
  unfold down. cbn [priority_heap].
  destruct (percolate_down_ok extract_key extract_priority compare_priorities
              (length (take n (exchange 0 n heap))) 0 (mk_ptable (take n (exchange 0 n heap)) h2))
    as (t3&Ht3&(Hix3&Hp3&_)&Hheap3);
    [cbn; lia|done|by apply down_inv_pop|].
  exists v, t3. split; [done|]. split.
  { apply Forall_lookup. intros i u Hu. by apply (heap_top lt heap v i u). }
  split; [exact Ht3|]. split; [by split|]. rewrite Hp3. cbn [priority_heap].
  etrans; [symmetry; by apply (exchange_perm 0 n heap v w)|].
  rewrite <- (take_drop n (exchange 0 n heap)) at 1. rewrite (drop_S _ v n Hlast).
  rewrite drop_ge by lia. symmetry. apply Permutation_cons_append.
Qed.

(** ** Changing an element *)

(** Writing a value with an equal key. *)
Lemma insert_index heap h i old new :
  index_ok extract_key heap h -> heap !! i = Some old ->
  equal_keys (extract_key old) (extract_key new) = true -> index_ok extract_key (<[i := new]> heap) h.
Proof.
  intros (slots&Hok&Hp) Hi Hk. exists slots. rewrite length_insert. split; [|done].
  apply (ht_ok_equal_keys (ek heap)); [|done]. intros z Hz.
  destruct (held_index heap slots z Hp Hz) as (x&w&->&Hx). rewrite (ek_lookup _ _ _ _ Hx).
  destruct (decide (x = i)) as [->|Hne].
  - rewrite (ek_lookup _ _ i new) by (apply list_lookup_insert_eq; by eapply lookup_lt_Some).
    congruence.
  - rewrite (ek_lookup _ _ x w) by (by rewrite list_lookup_insert_ne). apply equal_keys_refl.
Qed.

(** Writing a value at a position and percolating it in the direction of its
    priority: the common part of [replace] and [modify]. *)
Lemma change_ok heap h i old new :
  heap_ok lt heap -> index_ok extract_key heap h -> heap !! i = Some old ->
  equal_keys (extract_key old) (extract_key new) = true ->
  exists t' rest, (let t := mk_ptable (<[i := new]> heap) h in
     if compare_priorities (extract_priority old) (extract_priority new)
     then up extract_key extract_priority compare_priorities i t
     else down extract_key extract_priority compare_priorities i t) = Some t' /\
    pt_ok t' /\ heap ≡ₚ old :: rest /\ priority_heap t' ≡ₚ new :: rest.
Proof.
  intros Hheap Hix Hi Hk. pose proof (insert_index heap h i old new Hix Hi Hk) as Hix'.
  pose proof (lookup_lt_Some _ _ _ Hi) as Hlt.
  assert (Hperm : heap ≡ₚ old :: delete i heap /\ <[i := new]> heap ≡ₚ new :: delete i heap).
  { split; [by apply delete_Permutation|]. rewrite (delete_Permutation (<[i:=new]> heap) i new);
      [|by apply list_lookup_insert_eq].
    rewrite !delete_take_drop, take_insert_ge, drop_insert_lt by lia. done. }
  destruct Hperm as [Hold Hnew]. cbn zeta.
  destruct (compare_priorities _ _) eqn:Hc.
  - unfold up. destruct (percolate_up_ok extract_key extract_priority compare_priorities i i
      (mk_ptable (<[i := new]> heap) h)) as (t'&Ht'&(Hix2&Hp2&_)&Hheap2);
      [done|cbn; by rewrite length_insert|done|exact (up_inv_insert lt heap i old new Hheap Hi Hc)|].
    exists t', (delete i heap). split; [done|]. split; [by split|]. split; [done|]. by rewrite Hp2.
  - unfold down. destruct (percolate_down_ok extract_key extract_priority compare_priorities
      (length (<[i := new]> heap)) i (mk_ptable (<[i := new]> heap) h))
      as (t'&Ht'&(Hix2&Hp2&_)&Hheap2); [cbn [priority_heap]; lia|done|exact (down_inv_insert lt heap i old new Hheap Hi Hc)|].
    exists t', (delete i heap). split; [done|]. split; [by split|]. split; [done|]. by rewrite Hp2.
Qed.

(** [replace] of an element by one with another key is refused and changes
    nothing; otherwise it puts the new value in the place of the old one and the
    table is a heap with a consistent index again, whether the priority has
    gone up or down. *)
Theorem pt_replace_refines t (pos : Z) (old new : V) :
  pt_ok t -> pt_dereference t pos = Some old ->
  (equal_keys (extract_key new) (extract_key old) = false /\
   pt_replace extract_key extract_priority compare_priorities pos new t = Some (false, t)) \/
  (equal_keys (extract_key new) (extract_key old) = true /\
   exists t' rest, pt_replace extract_key extract_priority compare_priorities pos new t = Some (true, t') /\
     pt_ok t' /\ priority_heap t ≡ₚ old :: rest /\ priority_heap t' ≡ₚ new :: rest).
Proof.
  intros Hok Hd. destruct (position_value t pos old Hok Hd) as (i&Hp&Hi). destruct Hok as [Hheap Hix].
  unfold pt_replace. rewrite Hd, Hp. cbn [mbind option_bind]. destruct (equal_keys _ _) eqn:Hk; [right|by left].
  split; [done|]. cbn [negb].
  destruct (change_ok _ _ i old new Hheap Hix Hi (equal_keys_sym _ _ Hk)) as (t'&rest&Ht'&Hok'&H1&H2).
  exists t', rest. cbn zeta in Ht'. rewrite Ht'. by split_and!.
Qed.

(** [modify] with a function that keeps the key updates this element alone
    and keeps the invariant; when the function changes the key it throws. *)
Theorem pt_modify_refines t (pos : Z) (f : V -> V) (old : V) :
  pt_ok t -> pt_dereference t pos = Some old ->
  (equal_keys (extract_key old) (extract_key (f old)) = false /\
   pt_modify extract_key extract_priority compare_priorities pos f t =
     Some (Throw "priority_table invalidated!")) \/
  (equal_keys (extract_key old) (extract_key (f old)) = true /\
   exists t' rest, pt_modify extract_key extract_priority compare_priorities pos f t = Some (Ok t') /\
     pt_ok t' /\ priority_heap t ≡ₚ old :: rest /\ priority_heap t' ≡ₚ f old :: rest).
Proof.
  intros Hok Hd. destruct (position_value t pos old Hok Hd) as (i&Hp&Hi). destruct Hok as [Hheap Hix].
  unfold pt_modify. rewrite Hd, Hp. cbn [mbind option_bind]. destruct (equal_keys _ _) eqn:Hk; [right|by left].
  split; [done|]. cbn [negb].
  destruct (change_ok _ _ i old (f old) Hheap Hix Hi Hk) as (t'&rest&Ht'&Hok'&H1&H2).
  exists t', rest. cbn zeta in Ht'. rewrite Ht'. by split_and!.
Qed.
End operations.

(** * Examples

    Elements are pairs of a key and a priority. *)

Abbreviation zt_insert := (pt_insert (fst : Z * Z -> Z) snd Z.ltb).
Abbreviation zt_ok := (pt_ok (fst : Z * Z -> Z) snd Z.ltb).

(** The hash table can grow. *)
Definition zt_room (t : priority_table (Z * Z)) : bool :=
  let cap := 2 * max_non_empty (tbl (entry_index t)) + 1 in
  match grow_size (lf (entry_index t)) cap with Some s => cap <? s | None => false end.

Fixpoint zt_insert_all (vs : list (Z * Z)) (t : priority_table (Z * Z)) : option (priority_table (Z * Z)) :=
  match vs with
  | [] => Some t
  | v :: vs =>
      if zt_room t
      then match zt_insert v t with Some (Ok r) => zt_insert_all vs r.2 | _ => None end
      else None
  end.

(** The table after inserting [vs] in this order. *)
Definition zt_of (vs : list (Z * Z)) : option (priority_table (Z * Z)) :=
  match new_priority_table with Some (Ok t) => zt_insert_all vs t | _ => None end.

Lemma zt_insert_ok t v r : zt_ok t -> zt_room t = true -> zt_insert v t = Some (Ok r) -> zt_ok r.2.
Proof.
  intros [Hheap Hix] Hr. unfold zt_room in Hr. destruct (grow_size _ _) as [s|] eqn:Hg; [|done].
  destruct t as [heap h]. cbn [priority_heap entry_index] in *. unfold pt_insert. cbn [priority_heap entry_index].
  rewrite length_app.
  replace (Z.of_nat (length heap + length [v]) - 1) with (Z.of_nat (length heap)) by (simpl; lia).
  replace (length heap + length [v] - 1)%nat with (length heap) by (simpl; lia).
  destruct (pt_insert_index _ heap h v s Hix Hg ltac:(lia)) as [(it&x&w&Hx&Hk&->&Hd)|(_&it&h'&->&Hix'&_)];
    cbn [rbind mbind option_bind]; [by intros [= <-]|].
  destruct (pt_insert_percolate (fst : Z * Z -> Z) snd Z.ltb heap h' v Hheap Hix')
    as (it2&t2&Hres&Hok&_).
  intros Heq. unfold rbind in Heq. cbn in Heq, Hres. rewrite Hres in Heq. by injection Heq as <-.
Qed.

Lemma zt_of_ok vs t : zt_of vs = Some t -> zt_ok t.
Proof.
  unfold zt_of, new_priority_table. destruct (oa_hashtable_default 0) as [[h|]|] eqn:E; [|done|done].
  assert (H0 : zt_ok (mk_ptable [] h)).
  { split; [by intros i x y _ _|]. exists (replicate (Z.to_nat (oa_next_prime (u64 (0 + 1)))) empty_entry).
    unfold oa_hashtable_default, new_hashtable in E.
    destruct (float_to_size _) as [m|] eqn:Em; [|done]. cbn [mbind option_bind] in E.
    destruct (oa_table m _) as [tb|] eqn:Et; [|done]. injection E as <-.
    split; [|by rewrite held_replicate_empty]. eapply new_table_ok; [exact Et|apply oa_next_prime_spec|].
    vm_compute in Em. by injection Em as <-. }
  cbn [rbind mbind option_bind]. generalize dependent (mk_ptable (V := Z * Z) [] h). clear h E.
  induction vs as [|v vs IH]; intros t0 H0; cbn [zt_insert_all]; [by intros [= <-]|].
  destruct (zt_room t0) eqn:Hr; [|done]. destruct (zt_insert v t0) as [[r|]|] eqn:Hi; [|done|done].
  apply IH. by apply (zt_insert_ok t0 v).
Qed.

(** The example table: five elements, best first. *)
Definition zs_values : list (Z * Z) := [(1, 50); (2, 40); (3, 30); (4, 20); (5, 10)].

Definition zt_sample : priority_table (Z * Z) :=
  match zt_of zs_values with Some t => t | None => mk_ptable [] (mk_hashtable half32 (mk_table 0 0 0 0 [])) end.

Lemma zt_sample_ok : zt_ok zt_sample.
Proof. apply (zt_of_ok zs_values). vm_compute. reflexivity. Qed.

Lemma pt_insert_refines_witness :
  exists it t', zt_insert (6, 90) zt_sample = Some (Ok (it, true, t')) /\ zt_ok t' /\
    priority_heap t' ≡ₚ (6, 90) :: priority_heap zt_sample /\ pt_dereference t' it = Some (6, 90).
Proof.
  destruct (pt_insert_refines (fst : Z * Z -> Z) snd Z.ltb zt_sample (6, 90) 193 zt_sample_ok)
    as [(w&it&Hw&Hk&_)|[_ H]]; [vm_compute; reflexivity|vm_compute; reflexivity| |exact H].
  unfold has_key in Hk. cbn in Hk. apply Z.eqb_eq in Hk.
  assert (Hall : forallb (fun p : Z * Z => negb (p.1 =? 6)) (priority_heap zt_sample) = true)
    by (vm_compute; reflexivity).
  rewrite forallb_forall in Hall. specialize (Hall w). rewrite <- list_elem_of_In in Hall.
  specialize (Hall Hw). lia.
Defined.

Lemma pt_pop_refines_witness :
  exists t', pt_top zt_sample = Some (1, 50) /\
    pt_pop (fst : Z * Z -> Z) snd Z.ltb zt_sample = Some t' /\ zt_ok t' /\
    priority_heap zt_sample ≡ₚ (1, 50) :: priority_heap t'.
Proof.
  destruct (pt_pop_refines (fst : Z * Z -> Z) snd Z.ltb zt_sample zt_sample_ok)
    as [[H _]|(v&t'&Hv&_&Hp&Hok&Hperm)]; [vm_compute in H; discriminate H|].
  assert (v = (1, 50)) as -> by (vm_compute in Hv; by injection Hv as <-).
  exists t'. exact (conj Hv (conj Hp (conj Hok Hperm))).
Defined.

(** The element with key 2 goes down, to priority 5, and up, to 60. *)
Definition zs_position : Z :=
  match pt_find (fst : Z * Z -> Z) 2 zt_sample with Some it => it | None => 0 end.

Lemma pt_replace_refines_witness :
  exists t' rest, pt_replace (fst : Z * Z -> Z) snd Z.ltb zs_position (2, 5) zt_sample = Some (true, t') /\
    zt_ok t' /\ priority_heap zt_sample ≡ₚ (2, 40) :: rest /\ priority_heap t' ≡ₚ (2, 5) :: rest.
Proof.
  destruct (pt_replace_refines (fst : Z * Z -> Z) snd Z.ltb zt_sample zs_position (2, 40) (2, 5) zt_sample_ok)
    as [[H _]|[_ (t'&rest&Hr&Hok&H1&H2)]]; [vm_compute; reflexivity|vm_compute in H; discriminate H|].
  exists t', rest. exact (conj Hr (conj Hok (conj H1 H2))).
Defined.

Lemma pt_modify_refines_witness :
  exists t' rest, pt_modify (fst : Z * Z -> Z) snd Z.ltb zs_position (fun p => (p.1, 60)) zt_sample = Some (Ok t') /\
    zt_ok t' /\ priority_heap zt_sample ≡ₚ (2, 40) :: rest /\ priority_heap t' ≡ₚ (2, 60) :: rest.
Proof.
  destruct (pt_modify_refines (fst : Z * Z -> Z) snd Z.ltb zt_sample zs_position (fun p => (p.1, 60)) (2, 40)
              zt_sample_ok)
    as [[H _]|[_ (t'&rest&Hr&Hok&H1&H2)]]; [vm_compute; reflexivity|vm_compute in H; discriminate H|].
  exists t', rest. exact (conj Hr (conj Hok (conj H1 H2))).
Defined.

(** Erasing an element inside the heap breaks it: [erase] percolates from the
    root and not from the place of the erased element.  Here elements with the
    priorities 50, 40, 30, 20, 10 are inserted, the second one is erased and
    the top popped: the new top has priority 20, though 30 is in the table. *)
Theorem pt_erase_breaks_heap :
  exists t t1 t2, zt_of zs_values = Some t /\
    pt_erase (fst : Z * Z -> Z) snd Z.ltb 2 t = Some (true, t1) /\
    pt_pop (fst : Z * Z -> Z) snd Z.ltb t1 = Some t2 /\
    pt_top t2 = Some (4, 20) /\ priority_heap t2 = [(4, 20); (5, 10); (3, 30)].
Proof.
  eexists _, _, _. split; [vm_compute; reflexivity|]. split; [vm_compute; reflexivity|].
  split; [vm_compute; reflexivity|]. split; vm_compute; reflexivity.
Qed.
