(* ===== verification/PriorityQueue.v ===== *)
(** Priority tables in use: what the clients of [priority_table]
    (src/sbmt_decoder/include/sbmt/hash/priority_table.hpp) rely on.

    [PriorityTable] states each operation for one table; here the hash table of
    indices is counted as well, so that up to [pq_limit] insertions no operation
    fails, and [modify] is given for elements that are references to objects: the
    functions that read keys and priorities change with the object. *)
From S2P Require Import Prelude OaTable HashProbe OaHashtable PriorityTable.
Open Scope Z_scope.

(** [modify(pos, f)] where the element is a reference and [f] changes the object:
    [ek] and [ep] read the objects before, [ek'] and [ep'] after. *)
Definition pt_modify_object {K V P} `{!HashKey K, !Inhabited K} (ek ek' : V -> K) (ep ep' : V -> P)
    (compare_priorities : P -> P -> bool) (pos : Z) (t : priority_table V)
  : option (result (priority_table V)) :=
  v ← pt_dereference t pos;
  if negb (equal_keys (ek v) (ek' v)) then Some (Throw "priority_table invalidated!")
  else
    i ← pt_position t pos;
    t ← (if compare_priorities (ep v) (ep' v) then up ek' ep' compare_priorities i t
         else down ek' ep' compare_priorities i t);
    Some (Ok t).

(** * The growth of the hash table *)

(** The capacity of the hash table after it has grown [j] times. *)
Fixpoint pq_capacity (j : nat) : Z :=
  match j with O => 26 | S j => 2 * pq_capacity j + 1 end.

(** Up to so many insertions the table can grow. *)
Definition pq_limit : Z := 2 ^ 28.

Lemma pq_capacity_le i j : (i <= j)%nat -> pq_capacity i <= pq_capacity j.
Proof.
  assert (Hpos : forall j, 26 <= pq_capacity j) by (intros k; induction k; cbn [pq_capacity]; lia).
  induction 1 as [|k Hk IH]; cbn [pq_capacity]; [lia|]. specialize (Hpos k). lia.
Qed.

Lemma pq_capacity_grows j : pq_capacity j + 1 <= 2 * pq_limit ->
  exists s, grow_size half32 (2 * pq_capacity j + 1) = Some s /\ 2 * pq_capacity j + 1 < s.
Proof.
  intros Hj. assert (j <= 24)%nat as Hj24.
  { destruct (decide (j <= 24)%nat) as [|Hn]; [done|].
    pose proof (pq_capacity_le 25 j ltac:(lia)) as Hc.
    assert (2 * pq_limit < pq_capacity 25) by (vm_compute; reflexivity). lia. }
  set (grows := fun j => match grow_size half32 (2 * pq_capacity j + 1) with
                         | Some g => 2 * pq_capacity j + 1 <? g | None => false end).
  assert (Hall : forallb grows (seq 0 25) = true) by (vm_compute; reflexivity).
  rewrite forallb_forall in Hall. specialize (Hall j). rewrite in_seq in Hall.
  specialize (Hall ltac:(lia)). unfold grows in Hall.
  destruct (grow_size _ _) as [g|]; [|done]. exists g. split; [done|lia].
Qed.

(** The hash table after at most [n] insertions. *)
Definition pq_usage {V} (n : Z) (h : oa_hashtable V) : Prop :=
  exists j, lf h = half32 /\ num_non_empty (tbl h) <= n /\ max_non_empty (tbl h) = pq_capacity j /\
    (j = 0%nat \/ pq_capacity j + 1 <= 2 * n).

Lemma pq_usage_same n h h' : same_capacity h h' -> pq_usage n h -> pq_usage n h'.
Proof. intros (H1&H2&H3) (j&?&?&?&?). exists j. split_and!; congruence || lia. Qed.

Lemma pq_usage_le {V} n n' (h : oa_hashtable V) : n <= n' -> pq_usage n h -> pq_usage n' h.
Proof. intros Hn (j&?&?&?&Hj). exists j. split_and!; [done|lia|done|]. destruct Hj; [by left|right; lia]. Qed.

Lemma pq_usage_grown {V} n (h h' : oa_hashtable V) : lf h' = lf h -> ht_grown h h' -> pq_usage n h -> pq_usage (n + 1) h'.
Proof.
  intros Hlf [Hne Hmax] (j&Hl&Hn&Hc&Hj). destruct Hmax as [Hm|[Hm Hfull]].
  - exists j. split_and!; [congruence|lia|congruence|]. destruct Hj; [by left|right; lia].
  - exists (S j). split_and!; [congruence|lia|cbn [pq_capacity]; congruence|right; cbn [pq_capacity]; lia].
Qed.

Lemma pq_usage_room {V} n (h : oa_hashtable V) : n < pq_limit -> pq_usage n h ->
  exists s, grow_size (lf h) (2 * max_non_empty (tbl h) + 1) = Some s /\ 2 * max_non_empty (tbl h) + 1 < s.
Proof.
  intros Hn (j&->&_&->&Hj). apply pq_capacity_grows. destruct Hj as [->|Hj]; [vm_compute; discriminate|lia].
Qed.

(** A new hash table. *)
Lemma default_table_ok {K V} `{!HashKey K} (ek : V -> K) : exists h, oa_hashtable_default 0 = Some (Ok h) /\
  (exists slots, ht_ok ek h slots /\ held slots = []) /\ pq_usage 0 h.
Proof.
  unfold oa_hashtable_default, new_hashtable.
  assert (float_to_size (f64_mul half64 (float64_of (oa_next_prime 0))) = Some 26) as -> by (vm_compute; reflexivity).
  assert (oa_next_prime (u64 (0 + 1)) = 53) as Hp by (vm_compute; reflexivity). rewrite Hp.
  cbn [rbind mbind option_bind].
  destruct (oa_table_new_ok (V := V) 26 53) as (tb&Htb&Hok&Hs&Hc); [lia|lia|]. rewrite Htb. cbn [rbind mbind option_bind].
  eexists. split; [done|]. split.
  - exists (replicate (Z.to_nat 53) empty_entry). split; [|by rewrite held_replicate_empty].
    eapply new_table_ok; [exact Htb| |lia]. rewrite <- Hp. apply oa_next_prime_spec.
  - exists 0%nat. split; [done|]. cbn [tbl]. split_and!; [|done|by left].
    rewrite (to_filled _ _ Hok). by rewrite count_replicate_empty.
Qed.

(** * The operations *)

Section queue.
Context {K V P : Type} `{!HashKey K, !HashKeyLaws K, !Inhabited K}.
Context (compare_priorities : P -> P -> bool) `{!StrictWeak compare_priorities}.
Implicit Types (t : priority_table V) (ek : V -> K) (ep : V -> P) (n : Z).
Abbreviation pt_ok ek ep := (pt_ok ek ep compare_priorities).

(** A priority table after at most [n] insertions. *)
Definition pq_holds n ek ep t : Prop := pt_ok ek ep t /\ pq_usage n (entry_index t).

Lemma pq_holds_le n n' ek ep t : n <= n' -> pq_holds n ek ep t -> pq_holds n' ek ep t.
Proof. intros Hn [H1 H2]. split; [done|by eapply pq_usage_le]. Qed.

Lemma pq_new ek ep : exists t, new_priority_table (V := V) = Some (Ok t) /\ priority_heap t = [] /\ pq_holds 0 ek ep t.
Proof.
  unfold new_priority_table. destruct (default_table_ok (extract_key_from_entry ek (V := V) [])) as (h&->&(slots&Hok&Hh)&Hu).
  cbn [rbind mbind option_bind]. eexists. split; [done|]. split; [done|]. split; [split|done].
  - by intros i x y _ _.
  - exists slots. split; [done|by rewrite Hh].
Qed.

(** Keys and priorities matter only on the elements. *)
Lemma pq_holds_ext n ek ek' ep ep' t :
  (forall v, v ∈ priority_heap t -> ek' v = ek v /\ ep' v = ep v) ->
  pq_holds n ek ep t -> pq_holds n ek' ep' t.
Proof.
  intros Hext [[Hheap (slots&Hok&Hp)] Hu]. split; [split|done].
  - intros i x y Hi _ Hx Hy. unfold noworse, lower_priority.
    destruct (Hext x (list_elem_of_lookup_2 _ _ _ Hx)) as [_ ->].
    destruct (Hext y (list_elem_of_lookup_2 _ _ _ Hy)) as [_ ->]. by apply (Hheap i x y).
  - exists slots. split; [|done]. apply (ht_ok_ext (extract_key_from_entry ek (priority_heap t))); [|done].
    intros z Hz. destruct (held_index (priority_heap t) slots z Hp Hz) as (x&w&->&Hx).
    rewrite (ek_lookup ek _ _ _ Hx), (ek_lookup ek' _ _ _ Hx). symmetry.
    by apply Hext, (list_elem_of_lookup_2 _ x).
Qed.

(** No two elements have equal keys. *)
Lemma pq_distinct n ek ep t x y v w : pq_holds n ek ep t ->
  priority_heap t !! x = Some v -> priority_heap t !! y = Some w -> equal_keys (ek v) (ek w) = true -> x = y.
Proof. intros [[_ Hix] _]. by apply (index_distinct ek _ (entry_index t)). Qed.

Lemma pq_NoDup n ek ep t : pq_holds n ek ep t -> NoDup (priority_heap t).
Proof.
  intros Hq. apply NoDup_alt. intros i j v Hi Hj. eapply pq_distinct; eauto using equal_keys_refl.
Qed.

Lemma pq_unique n ek ep t v w : pq_holds n ek ep t -> v ∈ priority_heap t -> w ∈ priority_heap t ->
  equal_keys (ek v) (ek w) = true -> v = w.
Proof.
  intros Hq [i Hi]%list_elem_of_lookup [j Hj]%list_elem_of_lookup He.
  pose proof (pq_distinct n ek ep t i j v w Hq Hi Hj He) as ->. congruence.
Qed.

Lemma pq_size n ek ep t : pq_holds n ek ep t -> pt_size t = Some (Z.of_nat (length (priority_heap t))).
Proof.
  intros [[_ (slots&(Hh&_&_)&Hp)] _]. unfold pt_size, ht_size. pose proof (hb_table _ _ _ Hh) as Ht.
  rewrite (to_occ _ _ Ht), (held_occupied _ (to_slots _ _ Ht)), Hp, length_seqZ, Nat2Z.id.
  by rewrite Z.eqb_refl.
Qed.

(** The top is no worse than any element. *)
Lemma pq_top n ek ep t v w : pq_holds n ek ep t -> pt_top t = Some v -> w ∈ priority_heap t ->
  compare_priorities (ep v) (ep w) = false.
Proof.
  intros [[Hheap _] _] Hv [i Hi]%list_elem_of_lookup.
  pose proof (lower_priority_sw ep compare_priorities).
  exact (heap_top (lower_priority ep compare_priorities) _ v i w Hheap Hv Hi).
Qed.

Lemma pq_find n ek ep t k : pq_holds n ek ep t ->
  (exists v it, v ∈ priority_heap t /\ equal_keys (ek v) k = true /\ pt_find ek k t = Some it /\
     pt_end t <> Some it /\ pt_dereference t it = Some v) \/
  ((forall v, v ∈ priority_heap t -> equal_keys (ek v) k = false) /\
   pt_find ek k t = pt_end t /\ pt_end t <> None).
Proof.
  intros [[_ Hix] _]. destruct (decide (Exists (fun v => equal_keys (ek v) k = true) (priority_heap t))) as [He|Hne].
  - left. apply Exists_exists in He as (v&Hv&Hk). pose proof Hv as [i Hi]%list_elem_of_lookup.
    destruct (pt_find_ok ek t i v k Hix Hi Hk) as (it&?&?&?). by exists v, it.
  - right. assert (Hno : forall v, v ∈ priority_heap t -> equal_keys (ek v) k = false).
    { intros v Hv. destruct (equal_keys (ek v) k) eqn:E; [|done]. destruct Hne. apply Exists_exists. by exists v. }
    split; [done|]. destruct Hix as (slots&Hok&Hp).
    destruct (ht_find_spec (extract_key_from_entry ek (priority_heap t)) (entry_index t) slots k Hok)
      as [(z&it&Hz&Heq&_)|(_&Hf&He)]; [|done].
    destruct (held_index (priority_heap t) slots z Hp Hz) as (x&w&->&Hx). rewrite (ek_lookup ek _ _ _ Hx) in Heq.
    rewrite (Hno w) in Heq; [done|by eapply list_elem_of_lookup_2].
Qed.

(** An iterator to an element is not the end. *)
Lemma pq_iterator n ek ep t it v : pq_holds n ek ep t -> pt_dereference t it = Some v ->
  exists last, pt_end t = Some last /\ it <> last.
Proof.
  intros [[_ (slots&(Hh&_&_)&_)] _] Hd. pose proof (hb_table _ _ _ Hh) as Ht.
  unfold pt_dereference, pt_position in Hd. destruct (iterator_dereference _ it) as [z|] eqn:Hit; [|done].
  destruct (dereference_slot _ _ _ _ Ht Hit) as (i&Hi&Hs). apply lookup_lt_Some in Hs.
  unfold pt_end, ht_end. rewrite (table_end_eq _ _ Ht). eexists. split; [done|].
  pose proof (to_size _ _ Ht). lia.
Qed.

Lemma pq_insert n ek ep t v : pq_holds n ek ep t -> n < pq_limit ->
  (forall w, w ∈ priority_heap t -> equal_keys (ek w) (ek v) = false) ->
  exists it t', pt_insert ek ep compare_priorities v t = Some (Ok (it, true, t')) /\
    pq_holds (n + 1) ek ep t' /\ priority_heap t' ≡ₚ v :: priority_heap t /\ pt_dereference t' it = Some v.
Proof.
  intros [[Hheap Hix] Hu] Hn Hno. destruct (pq_usage_room n _ Hn Hu) as (s&Hg&Hs).
  destruct t as [heap h]. cbn [priority_heap entry_index] in *. unfold pt_insert. cbn [priority_heap entry_index].
  rewrite length_app. replace (Z.of_nat (length heap + length [v]) - 1) with (Z.of_nat (length heap)) by (simpl; lia).
  destruct (pt_insert_index ek heap h v s Hix Hg Hs) as [(it&x&w&Hx&Hk&_)|(_&it&h'&->&Hix'&Hlf&Hgr)].
  - unfold has_key in Hk. rewrite (Hno w) in Hk; [done|by eapply list_elem_of_lookup_2].
  - cbn [rbind mbind option_bind]. replace (length heap + length [v] - 1)%nat with (length heap) by (simpl; lia).
    destruct (pt_insert_percolate ek ep compare_priorities heap h' v Hheap Hix') as (it2&t2&Hres&Hok&Hp&Hd&Hsame).
    cbn zeta in Hres. rewrite Hres. exists it2, t2. split; [done|]. split; [split; [done|]|done].
    eapply pq_usage_same; [exact Hsame|]. by eapply pq_usage_grown.
Qed.

Lemma pq_pop n ek ep t v : pq_holds n ek ep t -> pt_top t = Some v ->
  exists t', pt_pop ek ep compare_priorities t = Some t' /\ pq_holds n ek ep t' /\
    priority_heap t ≡ₚ v :: priority_heap t'.
Proof.
  intros [[Hheap Hix] Hu] Hv. destruct t as [heap h]. unfold pt_top in Hv. cbn [priority_heap entry_index] in *.
  unfold pt_pop, pt_erase_position. cbn [priority_heap entry_index].
  destruct (length heap) as [|m] eqn:Hlen; [by destruct heap|].
  destruct (lookup_lt_is_Some_2 heap m ltac:(lia)) as [w Hw].
  destruct (pt_swap_ok ek heap h 0 m v w Hix Hv Hw) as (h1&->&Hix1&Hs1). cbn [mbind option_bind priority_heap entry_index].
  assert (Hlast : exchange 0 m heap !! m = Some v).
  { rewrite (exchange_lookup 0 m heap v w) by done. by rewrite decide_True. }
  assert (Hlen1 : length (exchange 0 m heap) = S m) by (by rewrite exchange_length).
  rewrite Hlast. cbn [mbind option_bind].
  destruct (take_index ek _ h1 m v Hix1 Hlen1 Hlast) as (h2&->&Hix2&Hs2). cbn [mbind option_bind].
  pose proof (lower_priority_sw ep compare_priorities).
  destruct (percolate_down_ok ek ep compare_priorities (length (take m (exchange 0 m heap))) 0
              (mk_ptable (take m (exchange 0 m heap)) h2)) as (t3&Ht3&(Hix3&Hp3&Hs3)&Hheap3);
    [cbn; lia|done|by apply down_inv_pop|].
  exists t3. split; [exact Ht3|]. split; [split; [by split|]|].
  - eapply pq_usage_same; [|exact Hu]. eapply same_capacity_trans; [exact Hs1|]. by eapply same_capacity_trans.
  - rewrite Hp3. cbn [priority_heap]. etrans; [symmetry; by apply (exchange_perm 0 m heap v w)|].
    rewrite <- (take_drop m (exchange 0 m heap)) at 1. rewrite (drop_S _ v m Hlast), drop_ge by lia.
    symmetry. apply Permutation_cons_append.
Qed.

(** ** Changing an object *)

Lemma heap_where_fmap ep Q l :
  heap_where (lower_priority ep compare_priorities) Q l <-> heap_where compare_priorities Q (ep <$> l).
Proof.
  split; intros Hl i x y Hi HQ Hx Hy.
  - rewrite list_lookup_fmap in Hx, Hy. apply fmap_Some in Hx as (a&Ha&->). apply fmap_Some in Hy as (b&Hb&->).
    by apply (Hl i a b).
  - apply (Hl i (ep x) (ep y) Hi HQ); rewrite list_lookup_fmap; [by rewrite Hx|by rewrite Hy].
Qed.

Lemma bridged_fmap ep x l :
  bridged (lower_priority ep compare_priorities) x l <-> bridged compare_priorities x (ep <$> l).
Proof.
  split; intros Hl i a c Hx Hi Ha Hc.
  - rewrite list_lookup_fmap in Ha, Hc. apply fmap_Some in Ha as (u&Hu&->). apply fmap_Some in Hc as (w&Hw&->).
    by apply (Hl i u w).
  - apply (Hl i (ep a) (ep c) Hx Hi); rewrite list_lookup_fmap; [by rewrite Ha|by rewrite Hc].
Qed.

(** The priorities after one object has changed. *)
Lemma changed_priorities ep ep' l i v : NoDup l -> l !! i = Some v ->
  (forall w, w ∈ l -> w <> v -> ep' w = ep w) -> ep' <$> l = <[i := ep' v]> (ep <$> l).
Proof.
  intros Hnd Hi Hext. apply list_eq. intros k. rewrite list_lookup_fmap.
  destruct (decide (k = i)) as [->|Hk].
  - rewrite Hi, list_lookup_insert_eq; [done|]. rewrite length_fmap. by eapply lookup_lt_Some.
  - rewrite list_lookup_insert_ne, list_lookup_fmap by done. destruct (l !! k) as [w|] eqn:Hw; [|done]. cbn. f_equal.
    apply Hext; [by eapply list_elem_of_lookup_2|]. intros ->. destruct Hk. by eapply (NoDup_lookup l).
Qed.

Lemma pq_modify n ek ek' ep ep' t it v : pq_holds n ek ep t -> pt_dereference t it = Some v ->
  (forall w, w ∈ priority_heap t -> w <> v -> ek' w = ek w /\ ep' w = ep w) ->
  equal_keys (ek v) (ek' v) = true ->
  exists t', pt_modify_object ek ek' ep ep' compare_priorities it t = Some (Ok t') /\
    pq_holds n ek' ep' t' /\ priority_heap t' ≡ₚ priority_heap t.
Proof.
  intros Hq Hd Hext Hk. pose proof (pq_NoDup _ _ _ _ Hq) as Hnd. pose proof Hq as [Hok Hu].
  destruct (position_value ek ep compare_priorities t it v Hok Hd) as (i&Hpos&Hi). destruct Hok as [Hheap (slots&Hok&Hp)].
  unfold pt_modify_object. rewrite Hd. cbn [mbind option_bind]. rewrite Hk, Hpos. cbn [negb mbind option_bind].
  assert (Hix' : index_ok ek' (priority_heap t) (entry_index t)).
  { exists slots. split; [|done]. apply (ht_ok_equal_keys (extract_key_from_entry ek (priority_heap t))); [|done].
    intros z Hz. destruct (held_index (priority_heap t) slots z Hp Hz) as (x&w&->&Hx).
    rewrite (ek_lookup ek _ _ _ Hx), (ek_lookup ek' _ _ _ Hx).
    destruct (decide (x = i)) as [->|Hxi]; [by replace w with v by congruence|].
    destruct (Hext w) as [-> _]; [by eapply list_elem_of_lookup_2| |apply equal_keys_refl].
    intros ->. destruct Hxi. by eapply (NoDup_lookup (priority_heap t)). }
  pose proof (changed_priorities ep ep' _ i v Hnd Hi (fun w Hw Hwv => proj2 (Hext w Hw Hwv))) as Hprio.
  assert (Hold : heap_ok compare_priorities (ep <$> priority_heap t)) by (by apply heap_where_fmap).
  assert (Hat : (ep <$> priority_heap t) !! i = Some (ep v)) by (rewrite list_lookup_fmap; by rewrite Hi).
  pose proof (lookup_lt_Some _ _ _ Hi) as Hlt. pose proof (lower_priority_sw ep' compare_priorities).
  assert (Hfin : forall t', rearranged ek' t t' -> heap_ok (lower_priority ep' compare_priorities) (priority_heap t') ->
            pq_holds n ek' ep' t' /\ priority_heap t' ≡ₚ priority_heap t).
  { intros t' (Hi'&Hp'&Hs') Hh'. split; [split; [by split|]|done]. by eapply pq_usage_same. }
  destruct (compare_priorities (ep v) (ep' v)) eqn:Hc.
  - destruct (percolate_up_ok ek' ep' compare_priorities i i t) as (t'&Ht'&Hr&Hh); [done|done|done| |].
    { pose proof (up_inv_insert compare_priorities _ i (ep v) (ep' v) Hold Hat Hc) as [Hw Hb].
      rewrite <- Hprio in Hw, Hb. split; [by apply heap_where_fmap|by apply bridged_fmap]. }
    exists t'. unfold up. rewrite Ht'. split; [done|]. by apply Hfin.
  - destruct (percolate_down_ok ek' ep' compare_priorities (length (priority_heap t)) i t) as (t'&Ht'&Hr&Hh); [lia|done| |].
    { pose proof (down_inv_insert compare_priorities _ i (ep v) (ep' v) Hold Hat Hc) as [Hw Hb].
      rewrite <- Hprio in Hw, Hb. split; [by apply heap_where_fmap|by apply bridged_fmap]. }
    exists t'. unfold down. rewrite Ht'. split; [done|]. by apply Hfin.
Qed.
End queue.
