(* ===== verification/TokenStorage.v ===== *)
(** The storage of token labels: [in_memory_token_storage] of
    src/sbmt_decoder/include/sbmt/token/in_memory_token_storage.hpp and
    src/sbmt_decoder/src/in_memory_token_storage.cpp, over the hash table of
    [OaHashtable], and the interface [TokenStorage] that the class template
    [dictionary] asks of its storage (the comment of indexed_token.hpp), which
    [in_memory_token_storage] implements.

    The hash of a string, [boost::hash], is the class [StringHash].  [None] is a
    failing assertion or an undefined operation. *)
From Stdlib Require Import Floats.SpecFloat.
From S2P Require Import Prelude OaTable HashProbe OaHashtable.
Open Scope Z_scope.

Class StringHash := hash_string : string -> Z.

#[export] Instance string_hash_key `{StringHash} : HashKey string :=
  {| hash_key := hash_string; equal_keys := String.eqb |}.

#[export] Instance string_hash_key_laws `{StringHash} : HashKeyLaws string.
Proof.
  split; cbn; intros *; rewrite ?String.eqb_eq; congruence.
Qed.

(** [std::string(t.c_str())]: the characters before the first NUL. *)
Fixpoint c_str (t : string) : string :=
  match t with
  | EmptyString => EmptyString
  | String a t => if Ascii.eqb a Ascii.zero then EmptyString else String a (c_str t)
  end.

(** * The interface of a storage

    [ts_holds n s l]: the storage [s] has the tokens [l], in the order of their
    indices, and at most [n] tokens were ever added to it. *)

Definition no_nul (t : string) : Prop := c_str t = t.

#[export] Instance no_nul_dec t : Decision (no_nul t).
Proof. unfold no_nul. apply _. Defined.

Class TokenStorage (S : Type) := {
  ts_new : option (result S);
  ts_get_index : string -> S -> option (result (Z * S));
  ts_find_index : string -> S -> option (result Z);
  ts_get_token : Z -> S -> option string;
  ts_has_token : string -> S -> option bool;
  ts_size : S -> Z;
  ts_shrink : Z -> S -> option S;
  ts_reset : S -> S;
  ts_swap : S -> S -> S * S
}.

(** The limit on the tokens ever added, the range of the indices. *)
Definition storage_limit : Z := 2 ^ 30.

Class TokenStorageLaws (S : Type) `{!TokenStorage S} := {
  ts_holds : Z -> S -> list string -> Prop;
  ts_holds_bound n s l : ts_holds n s l -> NoDup l /\ Z.of_nat (length l) <= n;
  ts_holds_le n n' s l : n <= n' -> ts_holds n s l -> ts_holds n' s l;
  ts_new_holds : exists s, ts_new = Some (Ok s) /\ ts_holds 0 s [];
  ts_get_index_holds n s l t : ts_holds n s l -> n < storage_limit -> no_nul t ->
    exists i s', ts_get_index t s = Some (Ok (Z.of_nat i, s')) /\
      ((l !! i = Some t /\ s' = s) \/ ((t ∉ l) /\ i = length l /\ ts_holds (n + 1) s' (l ++ [t])));
  ts_find_index_holds n s l t : ts_holds n s l ->
    (exists i, l !! i = Some t /\ ts_find_index t s = Some (Ok (Z.of_nat i))) \/
    ((t ∉ l) /\ exists msg, ts_find_index t s = Some (Throw msg));
  ts_get_token_holds n s l i : ts_holds n s l -> ts_get_token (Z.of_nat i) s = l !! i;
  ts_has_token_holds n s l t : ts_holds n s l -> ts_has_token t s = Some (bool_decide (t ∈ l));
  ts_size_holds n s l : ts_holds n s l -> n <= storage_limit -> ts_size s = Z.of_nat (length l);
  ts_shrink_holds n s l m : ts_holds n s l -> n <= storage_limit -> (m <= length l)%nat ->
    exists s', ts_shrink (Z.of_nat m) s = Some s' /\ ts_holds n s' (take m l);
  ts_reset_holds n s l : ts_holds n s l -> ts_holds n (ts_reset s) [];
  ts_swap_holds n s l n' s' l' : ts_holds n s l -> ts_holds n' s' l' ->
    ts_holds n' (ts_swap s s').1 l' /\ ts_holds n (ts_swap s s').2 l
}.

(** * [in_memory_token_storage] *)

Section storage.
Context `{StringHash}.

Record in_memory_token_storage := mk_storage {
  tokens : list string;
  dict_hash : oa_hashtable Z
}.

(** [key_extractor]: the elements of [dict_hash] are indices into [tokens], and
    their keys the tokens.  An index out of range is never looked at. *)
Definition key_extractor (vec : list string) (idx : Z) : string :=
  default EmptyString (vec !! Z.to_nat idx).

Definition SBMT_DICTIONARY_INITIAL_SIZE : Z := 10000.
Definition SBMT_DICTIONARY_LOAD_FACTOR : spec_float := f32_div (float32_of 3) (float32_of 4).

(** The constructors. *)
Definition new_storage (reserve : Z) : option (result in_memory_token_storage) :=
  r ← oa_hashtable_load reserve SBMT_DICTIONARY_LOAD_FACTOR;
  Some (match r with Ok h => Ok (mk_storage [] h) | Throw msg => Throw msg end).

Definition new_storage_default : option (result in_memory_token_storage) :=
  new_storage SBMT_DICTIONARY_INITIAL_SIZE.

Implicit Types s : in_memory_token_storage.

Definition storage_swap s other : in_memory_token_storage * in_memory_token_storage :=
  let hs := ht_swap (dict_hash s) (dict_hash other) in
  (mk_storage (tokens other) hs.1, mk_storage (tokens s) hs.2).

Definition storage_size s : Z := u32 (Z.of_nat (length (tokens s))).
Definition n_actual_tokens s : Z := storage_size s.
Definition ibegin : Z := 0.
Definition iend s : Z := n_actual_tokens s.
Definition has_index (idx : Z) s : bool := idx <? storage_size s.
Definition get_token (idx : Z) s : option string := tokens s !! Z.to_nat idx.

(** [tokens.size() == dict_hash.size()] *)
Definition sizes_agree s : bool := Z.of_nat (length (tokens s)) =? ht_size (dict_hash s).

Definition push_back (t : string) s : option (result (Z * in_memory_token_storage)) :=
  if sizes_agree s then
    let newi := u32 (Z.of_nat (length (tokens s))) in
    let toks := tokens s ++ [c_str t] in
    r ← ht_insert (key_extractor toks) newi (dict_hash s);
    match r with
    | Throw msg => Some (Throw msg)
    | Ok p => let s' := mk_storage toks p.2 in
              if sizes_agree s' then Some (Ok (newi, s')) else None
    end
  else None.

(** [for (i = new_end; i < tokens.size(); ++i) dict_hash.erase(tokens[i])] *)
Fixpoint shrink_loop (fuel : nat) (toks : list string) (i : Z) (h : oa_hashtable Z)
  : option (oa_hashtable Z) :=
  if i <? Z.of_nat (length toks) then
    match fuel with
    | O => None
    | S fuel =>
        t ← toks !! Z.to_nat i;
        p ← ht_erase (key_extractor toks) t h;
        shrink_loop fuel toks (u32 (i + 1)) p.2
    end
  else Some h.

Definition shrink (new_end : Z) s : option in_memory_token_storage :=
  if sizes_agree s && (new_end <=? Z.of_nat (length (tokens s))) then
    h ← shrink_loop (length (tokens s)) (tokens s) new_end (dict_hash s);
    let s' := mk_storage (take (Z.to_nat new_end) (tokens s)) h in
    if sizes_agree s' then Some s' else None
  else None.

Definition storage_clear s : option in_memory_token_storage := shrink 0 s.

Definition get_index (tok : string) s : option (result (Z * in_memory_token_storage)) :=
  if sizes_agree s then
    pos ← ht_find (key_extractor (tokens s)) tok (dict_hash s);
    last ← ht_end (dict_hash s);
    if decide (pos = last) then push_back tok s
    else idx ← iterator_dereference (tbl (dict_hash s)) pos; Some (Ok (idx, s))
  else None.

(** [get_index(tok) const] *)
Definition get_index_const (tok : string) s : option (result Z) :=
  if sizes_agree s then
    pos ← ht_find (key_extractor (tokens s)) tok (dict_hash s);
    last ← ht_end (dict_hash s);
    if decide (pos = last)
    then Some (Throw ("attempted to retrieve non-existent index from const token_storage "
                      +:+ "for token '" +:+ tok +:+ "'"))
    else idx ← iterator_dereference (tbl (dict_hash s)) pos; Some (Ok idx)
  else None.

Definition has_token (t : string) s : option bool :=
  pos ← ht_find (key_extractor (tokens s)) t (dict_hash s);
  last ← ht_end (dict_hash s);
  Some (negb (bool_decide (pos = last))).

(** [get_index_unk]: its return type is [bool]. *)
Definition get_index_unk (t : string) (unk : Z) s : option (result bool) :=
  b ← has_token t s;
  if (b : bool) then
    r ← get_index_const t s;
    Some (match r with Ok i => Ok (negb (i =? 0)) | Throw msg => Throw msg end)
  else Some (Ok (negb (unk =? 0))).

Definition storage_reset s : in_memory_token_storage := mk_storage [] (ht_clear (dict_hash s)).

(** ** Loading: [serialize] with an archive that has the tokens [ts] *)

Definition drop_get_index s : in_memory_token_storage :=
  mk_storage (tokens s) (ht_clear (dict_hash s)).

(** [for (i = ibegin(); i < iend(); ++i) dict_hash.insert(i)] *)
Fixpoint generate_loop (fuel : nat) (i : Z) s : option (result in_memory_token_storage) :=
  if i <? iend s then
    match fuel with
    | O => None
    | S fuel =>
        r ← ht_insert (key_extractor (tokens s)) i (dict_hash s);
        match r with
        | Throw msg => Some (Throw msg)
        | Ok p => generate_loop fuel (u32 (i + 1)) (mk_storage (tokens s) p.2)
        end
    end
  else Some (Ok s).

Definition generate_get_index s : option (result in_memory_token_storage) :=
  generate_loop (length (tokens s)) ibegin s.

Definition regenerate_get_index s : option (result in_memory_token_storage) :=
  generate_get_index (drop_get_index s).

Definition storage_load (ts : list string) s : option (result in_memory_token_storage) :=
  regenerate_get_index (mk_storage ts (dict_hash (drop_get_index s))).
End storage.

(** * Lemmas *)

(** The capacity of the hash table after it has grown [j] times. *)
Fixpoint capacity (j : nat) : Z :=
  match j with O => 9216 | S j => 2 * capacity j + 1 end.

Lemma capacity_ge j : 9216 <= capacity j.
Proof. induction j; simpl; lia. Qed.

Lemma capacity_le i j : (i <= j)%nat -> capacity i <= capacity j.
Proof. induction 1; simpl; [lia|]. pose proof (capacity_ge m). lia. Qed.

Lemma capacity_range j : capacity j + 1 <= 2 * storage_limit -> (j <= 17)%nat.
Proof.
  intros Hj. destruct (decide (j <= 17)%nat) as [|Hn]; [done|].
  pose proof (capacity_le 18 j ltac:(lia)) as Hc.
  assert (2 * storage_limit < capacity 18) by (vm_compute; reflexivity). lia.
Qed.

(** Up to the limit the table can grow. *)
Lemma capacity_grows j :
  (j <= 17)%nat ->
  exists g, grow_size SBMT_DICTIONARY_LOAD_FACTOR (2 * capacity j + 1) = Some g /\
    2 * capacity j + 1 < g.
Proof.
  intros Hj.
  set (grows := fun j => match grow_size SBMT_DICTIONARY_LOAD_FACTOR (2 * capacity j + 1) with
                         | Some g => 2 * capacity j + 1 <? g | None => false end).
  assert (Hall : forallb grows (seq 0 18) = true) by (vm_compute; reflexivity).
  rewrite forallb_forall in Hall. specialize (Hall j). rewrite in_seq in Hall.
  specialize (Hall ltac:(lia)). unfold grows in Hall.
  destruct (grow_size _ _) as [g|]; [|done]. exists g. split; [done|lia].
Qed.

Section lemmas.
Context `{StringHash}.
Implicit Types (s : in_memory_token_storage) (h : oa_hashtable Z) (l : list string).

(** [dict_holds n l vs h]: the hash table [h] has the indices [vs] of the tokens
    [l], and at most [n] insertions were made; [dict_ok n l m h]: these are the
    first [m] indices. *)
Definition dict_holds (n : Z) l (vs : list Z) h : Prop :=
  exists slots j, ht_ok (key_extractor l) h slots /\ held slots ≡ₚ vs /\
    lf h = SBMT_DICTIONARY_LOAD_FACTOR /\ num_non_empty (tbl h) <= n /\
    max_non_empty (tbl h) = capacity j /\ (j = 0%nat \/ capacity j + 1 <= 2 * n).

Definition dict_ok (n : Z) l (m : nat) h : Prop := dict_holds n l (seqZ 0 (Z.of_nat m)) h.

Record storage_ok (n : Z) s l : Prop := {
  st_tokens : tokens s = l;
  st_distinct : NoDup l;
  st_no_nul : Forall no_nul l;
  st_dict : dict_ok n l (length l) (dict_hash s)
}.

Lemma key_extractor_lookup l i t : l !! i = Some t -> key_extractor l (Z.of_nat i) = t.
Proof. unfold key_extractor. rewrite Nat2Z.id. by intros ->. Qed.

Lemma seqZ_index m v : v ∈ seqZ 0 (Z.of_nat m) -> exists i, v = Z.of_nat i /\ (i < m)%nat.
Proof. rewrite elem_of_seqZ. intros Hv. exists (Z.to_nat v). lia. Qed.

Lemma dict_ok_le n n' l m h : n <= n' -> dict_ok n l m h -> dict_ok n' l m h.
Proof.
  intros Hn (slots&j&Hok&Hp&Hlf&Hne&Hc&Hj). exists slots, j. split_and!; try done; [lia|].
  destruct Hj; [by left|right; lia].
Qed.

(** Changing tokens that have no index yet. *)
Lemma dict_ok_tokens n l l' m h :
  (forall i, (i < m)%nat -> l !! i = l' !! i) -> dict_ok n l m h -> dict_ok n l' m h.
Proof.
  intros Hl (slots&j&Hok&Hp&Hrest). exists slots, j. split; [|done].
  eapply ht_ok_ext; [|exact Hok]. intros v. rewrite Hp. intros (i&->&Hi)%seqZ_index.
  unfold key_extractor. by rewrite Nat2Z.id, Hl.
Qed.

Lemma dict_ok_size n l m h : dict_ok n l m h -> ht_size h = Z.of_nat m /\ Z.of_nat m <= n.
Proof.
  intros (slots&j&(Hh&Hc&Hle)&Hp&Hlf&Hne&_). pose proof (hb_table _ _ _ Hh) as Ht.
  assert (Hsize : ht_size h = Z.of_nat m).
  { unfold ht_size. rewrite (to_occ _ _ Ht), (held_occupied _ (to_slots _ _ Ht)), Hp.
    rewrite length_seqZ. lia. }
  split; [done|]. rewrite <- Hsize. unfold ht_size.
  assert (num_occupied (tbl h) <= num_non_empty (tbl h)); [|lia].
  rewrite (to_occ _ _ Ht), (to_filled _ _ Ht). apply count_le. intros e.
  unfold occupied, filled. by destruct (stat e).
Qed.

(** The index of a token that has one. *)
Lemma dict_find n l m h t :
  NoDup l -> (m <= length l)%nat -> dict_ok n l m h ->
  (exists i it e, (i < m)%nat /\ l !! i = Some t /\ ht_find (key_extractor l) t h = Some it /\
     ht_end h = Some e /\ it <> e /\ iterator_dereference (tbl h) it = Some (Z.of_nat i)) \/
  ((t ∉ take m l) /\ exists e, ht_find (key_extractor l) t h = Some e /\ ht_end h = Some e).
Proof.
  intros Hnd Hm (slots&j&Hok&Hp&_).
  destruct (ht_find_spec (key_extractor l) h slots t Hok) as [(v&it&Hv&Heq&Hf&Hne&Hd)|(Hno&Hf&Hend)].
  - left. rewrite Hp in Hv. apply seqZ_index in Hv as (i&->&Hi).
    destruct (lookup_lt_is_Some_2 l i ltac:(lia)) as [u Hu].
    rewrite (key_extractor_lookup _ _ _ Hu) in Heq. apply String.eqb_eq in Heq as ->.
    destruct Hok as [Hh _]. unfold ht_end in *. rewrite (table_end_eq _ _ (hb_table _ _ _ Hh)) in *.
    eexists i, it, _. split_and!; try done. congruence.
  - right. split.
    + intros [i Hi]%list_elem_of_lookup. apply lookup_take_Some in Hi as [Hi Him].
      specialize (Hno (Z.of_nat i)). rewrite Hp, elem_of_seqZ in Hno.
      specialize (Hno ltac:(lia)). cbn in Hno.
      by rewrite (key_extractor_lookup _ _ _ Hi), String.eqb_refl in Hno.
    + rewrite Hf. destruct (ht_end h) as [e|]; [|done]. by exists e.
Qed.

(** Inserting the next index. *)
Lemma dict_insert n l m h t :
  NoDup l -> l !! m = Some t -> n < storage_limit -> dict_ok n l m h ->
  exists it h', ht_insert (key_extractor l) (Z.of_nat m) h = Some (Ok (it, true, h')) /\
    dict_ok (n + 1) l (S m) h'.
Proof.
  intros Hnd Ht Hn Hd. pose proof (dict_ok_size _ _ _ _ Hd) as [_ Hmn].
  destruct Hd as (slots&j&Hok&Hp&Hlf&Hne&Hc&Hj).
  assert (Hj17 : (j <= 17)%nat).
  { destruct Hj as [->|Hj]; [lia|]. apply capacity_range. lia. }
  destruct (capacity_grows j Hj17) as (g&Hg&Hlt).
  rewrite <- Hlf, <- Hc in Hg. rewrite <- Hc in Hlt.
  destruct (ht_insert_spec (key_extractor l) h slots (Z.of_nat m) g Hok Hg)
    as [(v&it&Hv&Heq&_)|(Hno&[[Hle _]|(it&h'&slots'&Hi&Hok'&Hp'&Hlf'&Hd&Hgr)])]; [|lia|].
  { exfalso. rewrite Hp in Hv. apply seqZ_index in Hv as (i&->&Him).
    apply lookup_lt_Some in Ht as Hml. destruct (lookup_lt_is_Some_2 l i ltac:(lia)) as [u Hu].
    rewrite (key_extractor_lookup _ _ _ Hu), (key_extractor_lookup _ _ _ Ht) in Heq.
    apply String.eqb_eq in Heq as ->. pose proof (NoDup_lookup _ _ _ _ Hnd Hu Ht). lia. }
  exists it, h'. split; [done|]. destruct Hgr as [Hne' Hcap].
  assert (Hp2 : held slots' ≡ₚ seqZ 0 (Z.of_nat (S m))).
  { rewrite Hp', Hp, seqZ_S. by rewrite <- Permutation_cons_append, Z.add_0_l. }
  destruct Hcap as [Hcap|[Hcap Hfull]].
  - exists slots', j. split_and!; try done; [congruence|lia|congruence|].
    destruct Hj; [by left|right; lia].
  - exists slots', (S j). split_and!; try done; [congruence|lia|by rewrite Hcap, Hc|].
    right. simpl. lia.
Qed.
(** Erasing an index. *)
Lemma dict_erase n l vs h i t :
  NoDup l -> l !! i = Some t -> (forall v, v ∈ vs -> exists j, v = Z.of_nat j /\ (j < length l)%nat) ->
  dict_holds n l (Z.of_nat i :: vs) h ->
  exists h', ht_erase (key_extractor l) t h = Some (1, h') /\ dict_holds n l vs h'.
Proof.
  intros Hnd Ht Hvs (slots&j&Hok&Hp&Hlf&Hne&Hc&Hj).
  destruct (ht_erase_spec (key_extractor l) h slots t Hok)
    as [(v&h'&slots'&Hv&Heq&He&Hok'&Hp'&Hlf'&Hne'&Hc')|[Hno _]].
  - exists h'. split; [done|]. exists slots', j. split_and!; try done; try congruence.
    assert (v = Z.of_nat i) as ->; [|by rewrite Hp in Hp'; apply Permutation_cons_inv in Hp'].
    rewrite Hp in Hv. apply elem_of_cons in Hv as [|(k&->&Hk)%Hvs]; [done|].
    destruct (lookup_lt_is_Some_2 l k Hk) as [u Hu]. rewrite (key_extractor_lookup _ _ _ Hu) in Heq.
    apply String.eqb_eq in Heq as ->. by rewrite (NoDup_lookup _ _ _ _ Hnd Hu Ht).
  - specialize (Hno (Z.of_nat i)). rewrite Hp in Hno. specialize (Hno ltac:(left)). cbn in Hno.
    by rewrite (key_extractor_lookup _ _ _ Ht), String.eqb_refl in Hno.
Qed.

Lemma dict_clear n l l' m h : dict_ok n l m h -> dict_ok n l' 0 (ht_clear h).
Proof.
  intros (slots&j&Hok&Hp&Hlf&Hne&Hc&Hj). exists (replicate (length slots) empty_entry), j.
  pose proof (ht_clear_non_empty _ _ _ Hok) as Hz. pose proof Hok as (Hh&_&_).
  pose proof (to_filled _ _ (hb_table _ _ _ Hh)). pose proof (count_bounds filled slots).
  split_and!; try done; [|by rewrite held_replicate_empty|lia].
  eapply ht_ok_ext, ht_clear_ok, Hok. intros v. by rewrite held_replicate_empty, elem_of_nil.
Qed.

(** ** The operations of a storage *)

Lemma storage_ok_bound n s l : storage_ok n s l -> Z.of_nat (length l) <= n.
Proof. intros [_ _ _ Hd]. by apply dict_ok_size in Hd as [_ ?]. Qed.

Lemma storage_ok_le n n' s l : n <= n' -> storage_ok n s l -> storage_ok n' s l.
Proof. intros Hn [? ? ? Hd]. split; try done. by eapply dict_ok_le. Qed.

Lemma sizes_agree_ok n s l : storage_ok n s l -> sizes_agree s = true.
Proof.
  intros [<- _ _ Hd]. apply dict_ok_size in Hd as [Hs _]. unfold sizes_agree. by rewrite Hs, Z.eqb_refl.
Qed.

Lemma push_back_new n s l t :
  storage_ok n s l -> n < storage_limit -> no_nul (c_str t) -> c_str t ∉ l ->
  exists s', push_back t s = Some (Ok (Z.of_nat (length l), s')) /\ storage_ok (n + 1) s' (l ++ [c_str t]).
Proof.
  intros Hs Hn Hnul Ht. pose proof (storage_ok_bound _ _ _ Hs) as Hb. unfold push_back.
  rewrite (sizes_agree_ok _ _ _ Hs). destruct Hs as [-> Hnd Hf Hd].
  unfold storage_limit in Hn. rewrite u32_small by lia.
  assert (Hnd' : NoDup (l ++ [c_str t])).
  { apply NoDup_app. split_and!; [done|set_solver|apply NoDup_singleton]. }
  destruct (dict_insert n (l ++ [c_str t]) (length l) (dict_hash s) (c_str t)) as (it&h'&->&Hd');
    [done|by apply list_lookup_middle|done| |].
  { eapply dict_ok_tokens; [|exact Hd]. intros i Hi. by rewrite lookup_app_l. }
  cbn [mbind option_bind snd].
  assert (Hs' : storage_ok (n + 1) (mk_storage (l ++ [c_str t]) h') (l ++ [c_str t])).
  { split; [done|done|by apply Forall_app_2, Forall_singleton|]. cbn [dict_hash].
    by rewrite length_app, Nat.add_comm. }
  rewrite (sizes_agree_ok _ _ _ Hs'). by eexists.
Qed.

Lemma get_index_ok n s l t :
  storage_ok n s l -> n < storage_limit -> no_nul t ->
  exists i s', get_index t s = Some (Ok (Z.of_nat i, s')) /\
    ((l !! i = Some t /\ s' = s) \/ ((t ∉ l) /\ i = length l /\ storage_ok (n + 1) s' (l ++ [t]))).
Proof.
  intros Hs Hn Ht. unfold get_index. rewrite (sizes_agree_ok _ _ _ Hs).
  pose proof Hs as [Hl Hnd Hf Hd]. rewrite Hl.
  destruct (dict_find _ _ _ _ t Hnd (le_n _) Hd) as [(i&it&e&Hi&Hli&->&->&Hne&Hde)|(Hno&e&->&->)].
  - exists i, s. cbn [mbind option_bind]. rewrite decide_False by done. rewrite Hde. split; [done|by left].
  - cbn [mbind option_bind]. rewrite decide_True by done. rewrite firstn_all in Hno.
    destruct (push_back_new n s l t Hs Hn) as (s'&->&Hs'); [by rewrite !Ht|by rewrite Ht|].
    rewrite Ht in Hs'. exists (length l), s'. split; [done|by right].
Qed.

Lemma get_index_const_ok n s l t :
  storage_ok n s l ->
  (exists i, l !! i = Some t /\ get_index_const t s = Some (Ok (Z.of_nat i))) \/
  ((t ∉ l) /\ exists msg, get_index_const t s = Some (Throw msg)).
Proof.
  intros Hs. unfold get_index_const. rewrite (sizes_agree_ok _ _ _ Hs).
  pose proof Hs as [Hl Hnd Hf Hd]. rewrite Hl.
  destruct (dict_find _ _ _ _ t Hnd (le_n _) Hd) as [(i&it&e&Hi&Hli&->&->&Hne&Hde)|(Hno&e&->&->)];
    cbn [mbind option_bind].
  - left. exists i. rewrite decide_False by done. by rewrite Hde.
  - right. rewrite decide_True by done. rewrite firstn_all in Hno. split; [done|by eexists].
Qed.

Lemma has_token_ok n s l t : storage_ok n s l -> has_token t s = Some (bool_decide (t ∈ l)).
Proof.
  intros [Hl Hnd Hf Hd]. unfold has_token. rewrite Hl.
  destruct (dict_find _ _ _ _ t Hnd (le_n _) Hd) as [(i&it&e&Hi&Hli&->&->&Hne&Hde)|(Hno&e&->&->)];
    cbn [mbind option_bind].
  - rewrite bool_decide_false, bool_decide_true; [done|by eapply list_elem_of_lookup_2|done].
  - rewrite firstn_all in Hno. by rewrite bool_decide_true, bool_decide_false.
Qed.

Lemma seqZ_nat_elem m k v :
  v ∈ seqZ (Z.of_nat m) (Z.of_nat k) -> exists j, v = Z.of_nat j /\ (j < m + k)%nat.
Proof. rewrite elem_of_seqZ. intros Hv. exists (Z.to_nat v). lia. Qed.

Lemma shrink_loop_ok n l m k h fuel :
  NoDup l -> Z.of_nat (length l) <= storage_limit -> length l = (m + k)%nat -> (k <= fuel)%nat ->
  forall m0, (m0 <= m)%nat ->
  dict_holds n l (seqZ 0 (Z.of_nat m0) ++ seqZ (Z.of_nat m) (Z.of_nat k)) h ->
  exists h', shrink_loop fuel l (Z.of_nat m) h = Some h' /\ dict_ok n l m0 h'.
Proof.
  intros Hnd Hlim Hlen Hfuel m0 Hm0. unfold storage_limit in Hlim.
  revert m fuel h Hlen Hfuel Hm0. induction k as [|k IH]; intros m fuel h Hlen Hfuel Hm0 Hd.
  - exists h. rewrite app_nil_r in Hd. split; [|done].
    destruct fuel; cbn [shrink_loop]; by replace (_ <? _) with false by lia.
  - destruct fuel as [|fuel]; [lia|]. cbn [shrink_loop]. replace (_ <? _) with true by lia.
    rewrite Nat2Z.id. destruct (lookup_lt_is_Some_2 l m ltac:(lia)) as [t Ht]. rewrite Ht.
    cbn [mbind option_bind].
    destruct (dict_erase n l (seqZ 0 (Z.of_nat m0) ++ seqZ (Z.of_nat (S m)) (Z.of_nat k)) h m t Hnd Ht)
      as (h'&->&Hd').
    + intros v [Hv|Hv]%elem_of_app.
      * apply seqZ_index in Hv as (x&->&?). exists x. lia.
      * apply seqZ_nat_elem in Hv as (x&->&?). exists x. lia.
    + destruct Hd as (slots&j&Hok&Hp&Hrest). exists slots, j. split; [done|]. split; [|done].
      rewrite Hp, (seqZ_cons (Z.of_nat m)) by lia. rewrite <- Permutation_middle.
      replace (Z.succ (Z.of_nat m)) with (Z.of_nat (S m)) by lia.
      by replace (Z.pred (Z.of_nat (S k))) with (Z.of_nat k) by lia.
    + cbn [mbind option_bind snd]. rewrite u32_small by lia.
      replace (Z.of_nat m + 1) with (Z.of_nat (S m)) by lia. apply IH; [lia|lia|lia|done].
Qed.

Lemma shrink_ok n s l m :
  storage_ok n s l -> n <= storage_limit -> (m <= length l)%nat ->
  exists s', shrink (Z.of_nat m) s = Some s' /\ storage_ok n s' (take m l).
Proof.
  intros Hs Hn Hm. pose proof (storage_ok_bound _ _ _ Hs). unfold shrink.
  rewrite (sizes_agree_ok _ _ _ Hs). destruct Hs as [-> Hnd Hf Hd].
  replace (_ <=? _) with true by lia. cbn [andb].
  destruct (shrink_loop_ok n l m (length l - m) (dict_hash s) (length l)) with (m0 := m)
    as (h'&->&Hd'); [done|lia|lia|lia|lia| |].
  - destruct Hd as (slots&j&Hok&Hp&Hrest). exists slots, j. split; [done|]. split; [|done].
    rewrite Hp. rewrite <- (Z.add_0_l (Z.of_nat m)) at 2. rewrite <- seqZ_app by lia. f_equiv. f_equal. lia.
  - cbn [mbind option_bind]. rewrite Nat2Z.id.
    assert (Hs' : storage_ok n (mk_storage (take m l) h') (take m l)).
    { split; [done|..].
      - rewrite <- (take_drop m l) in Hnd. by apply NoDup_app in Hnd as [? _].
      - by apply Forall_take.
      - cbn [dict_hash]. rewrite length_take_le by done. eapply dict_ok_tokens; [|exact Hd'].
        intros i Hi. by rewrite lookup_take_lt. }
    rewrite (sizes_agree_ok _ _ _ Hs'). by eexists.
Qed.
Lemma new_storage_default_ok : exists s, new_storage_default = Some (Ok s) /\ storage_ok 0 s [].
Proof.
  assert (Hsize : float_to_size (f32_mul SBMT_DICTIONARY_LOAD_FACTOR
                    (float32_of (oa_next_prime SBMT_DICTIONARY_INITIAL_SIZE))) = Some 9216)
    by (vm_compute; reflexivity).
  assert (Hprime : oa_next_prime (u64 (SBMT_DICTIONARY_INITIAL_SIZE + 1)) = 12289)
    by (vm_compute; reflexivity).
  destruct (oa_table_new_ok (V := Z) 9216 12289) as (t&Ht&Hok&Hs&Hc); [lia|lia|].
  unfold new_storage_default, new_storage, oa_hashtable_load, new_hashtable.
  rewrite Hsize, Hprime. cbn [mbind option_bind]. rewrite Ht. cbn [mbind option_bind].
  eexists. split; [done|]. split; [done|constructor|constructor|].
  assert (Hh : ht_ok (key_extractor []) (mk_hashtable SBMT_DICTIONARY_LOAD_FACTOR t)
                 (replicate (Z.to_nat 12289) empty_entry)).
  { eapply new_table_ok; [exact Ht| |lia]. rewrite <- Hprime. apply oa_next_prime_spec. }
  exists (replicate (Z.to_nat 12289) empty_entry), 0%nat. split_and!; [done| |done| |done|by left].
  - by rewrite held_replicate_empty.
  - cbn [tbl dict_hash]. rewrite (to_filled _ _ Hok). by rewrite count_replicate_empty.
Qed.

Lemma storage_reset_ok n s l : storage_ok n s l -> storage_ok n (storage_reset s) [].
Proof. intros [_ _ _ Hd]. split; [done|constructor|constructor|]. by eapply dict_clear. Qed.

Lemma storage_swap_ok n s l n' s' l' :
  storage_ok n s l -> storage_ok n' s' l' ->
  storage_ok n' (storage_swap s s').1 l' /\ storage_ok n (storage_swap s s').2 l.
Proof.
  intros [Hl Hnd Hf Hd] [Hl' Hnd' Hf' Hd'].
  destruct Hd as (sl&j&Hok&Hp&Hlf&Hne&Hc&Hj), Hd' as (sl'&j'&Hok'&Hp'&Hlf'&Hne'&Hc'&Hj').
  split; (split; [done|done|done|]); [exists sl', j'|exists sl, j]; by split_and!.
Qed.

Lemma generate_loop_ok l n s m fuel :
  NoDup l -> n + Z.of_nat (length l - m) <= storage_limit -> 0 <= n -> (m <= length l)%nat ->
  (length l - m <= fuel)%nat -> tokens s = l -> dict_ok n l m (dict_hash s) ->
  exists s', generate_loop fuel (Z.of_nat m) s = Some (Ok s') /\ tokens s' = l /\
    dict_ok (n + Z.of_nat (length l - m)) l (length l) (dict_hash s').
Proof.
  unfold storage_limit. intros Hnd. revert n s m.
  induction fuel as [|fuel IH]; intros n s m Hlim Hn Hm Hfuel Hl Hd;
    pose proof (dict_ok_size _ _ _ _ Hd) as [_ Hmn]; cbn [generate_loop];
    unfold iend, n_actual_tokens, storage_size; rewrite Hl, (u32_small (Z.of_nat _)) by lia.
  - replace (_ <? _) with false by lia. exists s. split_and!; [done|done|].
    assert (m = length l) as -> by lia. eapply dict_ok_le; [|exact Hd]. lia.
  - destruct (decide (m = length l)) as [->|Hne].
    + rewrite Z.ltb_irrefl. exists s. split_and!; [done|done|].
      eapply dict_ok_le; [|exact Hd]. lia.
    + replace (_ <? _) with true by lia. destruct (lookup_lt_is_Some_2 l m ltac:(lia)) as [t Ht].
      destruct (dict_insert n l m (dict_hash s) t Hnd Ht) as (it&h'&->&Hd'); [unfold storage_limit; lia|done|].
      cbn [mbind option_bind snd]. rewrite u32_small by lia.
      replace (Z.of_nat m + 1) with (Z.of_nat (S m)) by lia.
      destruct (IH (n + 1) (mk_storage l h') (S m)) as (s'&->&Hl'&Hs'); [lia|lia|lia|lia|done|done|].
      exists s'. split_and!; [done|done|]. eapply dict_ok_le; [|exact Hs']. lia.
Qed.

Lemma storage_load_ok n s l ts :
  storage_ok n s l -> NoDup ts -> Forall no_nul ts -> n + Z.of_nat (length ts) <= storage_limit ->
  exists s', storage_load ts s = Some (Ok s') /\ storage_ok (n + Z.of_nat (length ts)) s' ts.
Proof.
  intros Hs Hnd Hf Hn. pose proof (storage_ok_bound _ _ _ Hs). destruct Hs as [_ _ _ Hd].
  unfold storage_load, regenerate_get_index, generate_get_index, drop_get_index.
  cbn [dict_hash tokens].
  destruct (generate_loop_ok ts n (mk_storage ts (ht_clear (ht_clear (dict_hash s)))) 0 (length ts))
    as (s'&Hg&Hl'&Hs'); [done|rewrite Nat.sub_0_r; lia|lia|lia|lia|done| |].
  - cbn [dict_hash]. eapply (dict_clear n []), dict_clear, Hd.
  - exists s'. split; [exact Hg|]. rewrite Nat.sub_0_r in Hs'. by split.
Qed.


End lemmas.

(** * [in_memory_token_storage] as a storage of a dictionary *)

#[export] Instance in_memory_storage `{StringHash} : TokenStorage in_memory_token_storage := {|
  ts_new := new_storage_default;
  ts_get_index := get_index;
  ts_find_index := get_index_const;
  ts_get_token := get_token;
  ts_has_token := has_token;
  ts_size := storage_size;
  ts_shrink := shrink;
  ts_reset := storage_reset;
  ts_swap := storage_swap
|}.

#[export] Instance in_memory_storage_laws `{StringHash} : TokenStorageLaws in_memory_token_storage.
Proof.
  refine {|
    ts_holds := storage_ok;
    ts_holds_le := storage_ok_le;
    ts_new_holds := new_storage_default_ok;
    ts_get_index_holds := get_index_ok;
    ts_find_index_holds := get_index_const_ok;
    ts_has_token_holds := has_token_ok;
    ts_shrink_holds := shrink_ok;
    ts_reset_holds := storage_reset_ok;
    ts_swap_holds := storage_swap_ok
  |}.
  - intros n s l Hs. split; [apply (st_distinct _ _ _ Hs)|by eapply storage_ok_bound].
  - intros n s l i [Hl _ _ _]. cbn. unfold get_token. by rewrite Hl, Nat2Z.id.
  - intros n s l Hs Hn. pose proof (storage_ok_bound _ _ _ Hs). unfold storage_limit in Hn.
    cbn. unfold storage_size. rewrite (st_tokens _ _ _ Hs). apply u32_small. lia.
Defined.

(** * Properties *)




(** C39: loading saved tokens into any storage, which regenerates the hash table,
    gives a storage of exactly these tokens with the indices they had when they
    were saved. *)
Theorem storage_load_roundtrip `{StringHash} n n' (s s0 : in_memory_token_storage) (l l0 : list string) :
  storage_ok n s l -> storage_ok n' s0 l0 -> n' + Z.of_nat (length l) <= storage_limit ->
  exists s', storage_load (tokens s) s0 = Some (Ok s') /\
    storage_ok (n' + Z.of_nat (length l)) s' l /\
    forall i t, l !! i = Some t -> get_index_const t s' = Some (Ok (Z.of_nat i)).
Proof.
  intros [Hl Hnd Hf _] Hs0 Hn. rewrite Hl.
  destruct (storage_load_ok n' s0 l0 l Hs0 Hnd Hf Hn) as (s'&Hload&Hs').
  exists s'. split; [done|]. split; [done|]. intros i t Hi.
  destruct (get_index_const_ok _ _ _ t Hs') as [(j&Hj&->)|[Hno _]].
  - by rewrite (NoDup_lookup _ _ _ _ Hnd Hi Hj).
  - destruct Hno. by eapply list_elem_of_lookup_2.
Qed.

(** [shrink(new_end)] forgets exactly the tokens from index [new_end] on: the
    rest keep their indices, and the forgotten ones are unknown to the [const]
    [get_index], which throws. *)
Lemma shrink_refines `{StringHash} n (s : in_memory_token_storage) (l : list string) m :
  storage_ok n s l -> n <= storage_limit -> (m <= length l)%nat ->
  exists s', shrink (Z.of_nat m) s = Some s' /\ storage_ok n s' (take m l) /\
    forall i t, l !! i = Some t ->
      if decide (i < m)%nat then get_index_const t s' = Some (Ok (Z.of_nat i))
      else exists msg, get_index_const t s' = Some (Throw msg).
Proof.
  intros Hs Hn Hm. destruct (shrink_ok n s l m Hs Hn Hm) as (s'&Hsh&Hs').
  exists s'. split; [done|]. split; [done|]. intros i t Hi. pose proof (st_distinct _ _ _ Hs) as Hnd.
  destruct (get_index_const_ok _ _ _ t Hs') as [(j&Hj&->)|[Hno Hthrow]].
  - apply lookup_take_Some in Hj as [Hj Hjm].
    assert (i = j) as -> by by eapply NoDup_lookup. by rewrite decide_True.
  - rewrite decide_False; [done|]. intros Him. apply Hno.
    apply (list_elem_of_lookup_2 _ i). by apply lookup_take_Some.
Qed.

(** ** Examples: a storage of two tokens with the same hash *)

#[local] Instance sample_hash : StringHash := fun t => Z.of_nat (String.length t).

Definition add_token (t : string) (s : in_memory_token_storage) : in_memory_token_storage :=
  match get_index t s with Some (Ok p) => p.2 | _ => s end.

Definition empty_storage : in_memory_token_storage :=
  ok_or (mk_storage [] (mk_hashtable half32 (mk_table 0 0 0 0 []))) new_storage_default.

Lemma empty_storage_ok : storage_ok 0 empty_storage [].
Proof. destruct new_storage_default_ok as (s&Hs&Hok). unfold empty_storage. by rewrite Hs. Qed.

Lemma add_token_ok n s l t :
  storage_ok n s l -> n < storage_limit -> no_nul t -> t ∉ l ->
  storage_ok (n + 1) (add_token t s) (l ++ [t]).
Proof.
  intros Hs Hn Ht Hno. unfold add_token.
  destruct (get_index_ok n s l t Hs Hn Ht) as (i&s'&->&[[Hi _]|(_&_&Hs')]); [|done].
  destruct Hno. by eapply list_elem_of_lookup_2.
Qed.

Definition two_tokens : in_memory_token_storage := add_token "cat" (add_token "the" empty_storage).

Lemma two_tokens_ok : storage_ok 2 two_tokens ["the"; "cat"].
Proof.
  assert (H1 : storage_ok 1 (add_token "the" empty_storage) ["the"]).
  { apply (add_token_ok 0 _ []); [exact empty_storage_ok|done|done|apply not_elem_of_nil]. }
  apply (add_token_ok 1 _ ["the"]); [exact H1|done|done|]. by intros ?%list_elem_of_singleton.
Qed.



Lemma storage_load_roundtrip_witness :
  exists s', storage_load (tokens two_tokens) empty_storage = Some (Ok s') /\
    get_index_const "cat" s' = Some (Ok 1).
Proof.
  destruct (storage_load_roundtrip 2 0 two_tokens empty_storage ["the"; "cat"] [] two_tokens_ok
    empty_storage_ok) as (s'&Hload&_&Hi); [vm_compute; congruence|].
  exists s'. split; [exact Hload|]. apply (Hi 1%nat). reflexivity.
Defined.

Lemma shrink_refines_example :
  exists s' msg, shrink 1 two_tokens = Some s' /\ get_index_const "the" s' = Some (Ok 0) /\
    get_index_const "cat" s' = Some (Throw msg).
Proof.
  destruct (shrink_refines 2 two_tokens ["the"; "cat"] 1 two_tokens_ok) as (s'&Hs&_&Hi);
    [vm_compute; congruence|simpl; lia|].
  destruct (Hi 1%nat "cat" eq_refl) as [msg Hmsg]. exists s', msg.
  split; [exact Hs|]. split; [exact (Hi 0%nat "the" eq_refl)|exact Hmsg].
Defined.
