(* ===== verification/Token.v ===== *)
(** Tokens: the operators of [token<D>] (src/sbmt_decoder/include/sbmt/token/token.hpp),
    [fat_token] with its factory (fat_token.hpp, src/sbmt_decoder/src/token.cpp) and
    [indexed_token] (indexed_token.hpp).

    The base class [token<D>] reaches the members of [D] through [token_access]:
    the class [Token] is this interface, [TokenLaws] what its operators rely on.
    [boost::hash_combine] is the class [HashCombine]. *)
From S2P Require Import Prelude TokenStorage.
Open Scope Z_scope.

Inductive token_type_id :=
  foreign_token | native_token | tag_token | virtual_tag_token | top_token.

#[export] Instance token_type_id_eq_dec : EqDecision token_type_id.
Proof. solve_decision. Defined.

Definition type_number (t : token_type_id) : Z :=
  match t with
  | foreign_token => 0 | native_token => 1 | tag_token => 2 | virtual_tag_token => 3 | top_token => 4
  end.

Definition top_token_text : string := "TOP".

(** * [token<D>] *)

Class Token (D : Type) := {
  token_type : D -> token_type_id;
  token_equal : D -> D -> bool;
  token_less : D -> D -> bool;
  token_hash_value : D -> Z
}.

(** The tokens the constructors make are well-formed; on these [less] is a strict
    total order and [equal] is equality. *)
Class TokenLaws (D : Type) `{!Token D} := {
  token_wf : D -> Prop;
  token_equal_eq a b : token_wf a -> token_wf b -> token_equal a b = true <-> a = b;
  token_less_irrefl a : token_less a a = false;
  token_less_trans a b c : token_less a b = true -> token_less b c = true -> token_less a c = true;
  token_less_total a b : token_wf a -> token_wf b ->
    token_less a b = true \/ a = b \/ token_less b a = true
}.

Section operators.
Context {D : Type} `{!Token D}.
Implicit Types t : D.

Definition token_eq t1 t2 : bool := token_equal t1 t2.
Definition token_lt t1 t2 : bool := token_less t1 t2.
Definition token_le t1 t2 : bool := token_less t1 t2 || token_equal t1 t2.
Definition token_ge t1 t2 : bool := negb (token_less t1 t2).
Definition token_gt t1 t2 : bool := negb (token_less t1 t2) && negb (token_equal t1 t2).
Definition token_ne t1 t2 : bool := negb (token_eq t1 t2).

Definition is_lexical t : bool :=
  let typ := token_type t in
  bool_decide (typ = foreign_token) || bool_decide (typ = native_token).
Definition is_nonterminal t : bool := negb (is_lexical t).
Definition is_native_tag t : bool :=
  let typ := token_type t in
  bool_decide (typ = tag_token) || bool_decide (typ = top_token).
Definition is_virtual_tag t : bool := bool_decide (token_type t = virtual_tag_token).
Definition is_native t : bool := bool_decide (token_type t = native_token).
Definition is_foreign t : bool := bool_decide (token_type t = foreign_token).
End operators.

(** * [fat_token] *)

Record fat_token := mk_fat { typ : token_type_id; lbl : string }.

(** The constructors: a top token is always labelled ["TOP"]. *)
Definition new_fat_token (str : string) (t : token_type_id) : fat_token :=
  mk_fat t (if decide (t = top_token) then top_token_text else str).
Definition fat_token_default : fat_token := mk_fat top_token top_token_text.

Definition fat_label (t : fat_token) : string := lbl t.
Definition fat_type (t : fat_token) : token_type_id := typ t.
Definition fat_swap (t other : fat_token) : fat_token * fat_token :=
  (mk_fat (typ other) (lbl other), mk_fat (typ t) (lbl t)).

Definition fat_equal (t other : fat_token) : bool :=
  bool_decide (typ t = typ other) &&
  (bool_decide (typ t = top_token) || String.eqb (lbl t) (lbl other)).

Definition fat_less (t other : fat_token) : bool :=
  (type_number (typ t) <? type_number (typ other)) ||
  (bool_decide (typ t = typ other) && String.ltb (lbl t) (lbl other)).

Class HashCombine := hash_combine : Z -> Z -> Z.

Definition fat_hash_value `{StringHash, HashCombine} (t : fat_token) : Z :=
  hash_combine (hash_string (lbl t)) (type_number (typ t)).

Definition foreign_word (word : string) : fat_token := new_fat_token word foreign_token.
Definition native_word (word : string) : fat_token := new_fat_token word native_token.
Definition tag (word : string) : fat_token := new_fat_token word tag_token.
Definition virtual_tag (word : string) : fat_token := new_fat_token word virtual_tag_token.
Definition toplevel_tag : fat_token := new_fat_token top_token_text top_token.
Definition foreign_start_sentence : fat_token := new_fat_token "<foreign-sentence>" foreign_token.
Definition foreign_end_sentence : fat_token := new_fat_token "</foreign-sentence>" foreign_token.
Definition foreign_unknown_word : fat_token := new_fat_token "<unknown-word/>" foreign_token.
Definition native_unknown_word : fat_token := new_fat_token "<unknown-word/>" native_token.
Definition native_epsilon : fat_token := new_fat_token "<epsilon/>" native_token.
Definition native_separator : fat_token := new_fat_token "<separator/>" native_token.

(** [fat_token_factory] *)
Definition fat_create_token (s : string) (t : token_type_id) : fat_token := new_fat_token s t.

(** * [indexed_token] *)

Record indexed_token := mk_indexed { typ_and_idx : Z }.

#[export] Instance indexed_token_eq_dec : EqDecision indexed_token.
Proof. solve_decision. Defined.

Definition type_stride : Z := Z.shiftl 1 30.
Definition top_index : Z := type_stride - 1.
Definition null_index : Z := type_stride - 2.
Definition max_normal_index : Z := type_stride - 3.

Definition index (t : indexed_token) : Z := typ_and_idx t mod type_stride.
Definition is_top (t : indexed_token) : bool := typ_and_idx t =? top_index.
Definition is_null (t : indexed_token) : bool := typ_and_idx t =? null_index.
Definition set_null (t : indexed_token) : indexed_token := mk_indexed null_index.

(** [token_type_id(n)] *)
Definition type_of_number (n : Z) : token_type_id :=
  if n =? 0 then foreign_token else if n =? 1 then native_token
  else if n =? 2 then tag_token else if n =? 3 then virtual_tag_token else top_token.

Definition indexed_type (t : indexed_token) : token_type_id :=
  if is_top t then top_token else type_of_number (typ_and_idx t / type_stride).

(** The constructors: without arguments, [as_top], from an index and a type (with
    the assertion), from the raw number. *)
Definition indexed_token_default : indexed_token := mk_indexed null_index.
Definition indexed_token_top : indexed_token := mk_indexed top_index.
Definition new_indexed_token (idx : Z) (t : token_type_id) : option indexed_token :=
  if negb (bool_decide (t = top_token)) && negb (idx =? top_index) && (idx <=? max_normal_index)
  then Some (mk_indexed (u32 (type_number t * type_stride + idx)))
  else None.
Definition indexed_token_raw (typidx : Z) : indexed_token := mk_indexed typidx.

Definition indexed_equal (t other : indexed_token) : bool := typ_and_idx t =? typ_and_idx other.
Definition indexed_less (t other : indexed_token) : bool := typ_and_idx t <? typ_and_idx other.
Definition indexed_hash_value (t : indexed_token) : Z := typ_and_idx t.

#[export] Instance fat_token_token `{StringHash, HashCombine} : Token fat_token := {|
  token_type := fat_type; token_equal := fat_equal; token_less := fat_less;
  token_hash_value := fat_hash_value |}.

#[export] Instance indexed_token_token : Token indexed_token := {|
  token_type := indexed_type; token_equal := indexed_equal; token_less := indexed_less;
  token_hash_value := indexed_hash_value |}.

(** * Lemmas *)

(** ** The order of [std::string] *)

Lemma string_ltb_leb a b : String.ltb a b = negb (String.leb b a).
Proof.
  unfold String.ltb, String.leb. rewrite (String.compare_antisym a b). by destruct (String.compare b a).
Qed.

Lemma string_leb_trans a b c : String.leb a b = true -> String.leb b c = true -> String.leb a c = true.
Proof. rewrite <- !Is_true_true. apply (transitivity (R := String.le)). Qed.

Lemma string_leb_refl a : String.leb a a = true.
Proof. rewrite <- Is_true_true. apply (reflexivity (R := String.le)). Qed.

Lemma string_ltb_irrefl a : String.ltb a a = false.
Proof. by rewrite string_ltb_leb, string_leb_refl. Qed.

Lemma string_ltb_trans a b c : String.ltb a b = true -> String.ltb b c = true -> String.ltb a c = true.
Proof.
  rewrite !string_ltb_leb. intros Hab Hbc. destruct (String.leb c a) eqn:Hca; [|done].
  destruct (String.leb_total a b) as [H|H]; [|by rewrite H in Hab].
  by rewrite (string_leb_trans _ _ _ Hca H) in Hbc.
Qed.

Lemma string_ltb_total a b : String.ltb a b = true \/ a = b \/ String.ltb b a = true.
Proof.
  rewrite !string_ltb_leb. destruct (String.leb b a) eqn:Hba; [|by left].
  destruct (String.leb a b) eqn:Hab; [|by right; right]. right; left. by apply String.leb_antisym.
Qed.

(** ** Well-formed tokens *)

Lemma type_number_inj t1 t2 : type_number t1 = type_number t2 -> t1 = t2.
Proof. by destruct t1, t2. Qed.

Definition fat_wf (t : fat_token) : Prop := typ t = top_token -> lbl t = top_token_text.

Lemma new_fat_token_wf s t : fat_wf (new_fat_token s t).
Proof. unfold fat_wf. cbn. intros ->. by rewrite decide_True. Qed.

Lemma fat_default_wf : fat_wf fat_token_default.
Proof. done. Qed.

Lemma fat_equal_eq a b : fat_wf a -> fat_wf b -> fat_equal a b = true <-> a = b.
Proof.
  destruct a as [ta la], b as [tb lb]. unfold fat_wf, fat_equal. cbn. intros Ha Hb.
  rewrite andb_true_iff, orb_true_iff, !bool_decide_eq_true, String.eqb_eq. split.
  - intros [Hty [Ht|Hl]]; [|congruence]. rewrite Ha, Hb by congruence. congruence.
  - intros [= -> ->]. auto.
Qed.

Lemma fat_less_iff a b :
  fat_less a b = true <->
  type_number (typ a) < type_number (typ b) \/ typ a = typ b /\ String.ltb (lbl a) (lbl b) = true.
Proof.
  unfold fat_less. by rewrite orb_true_iff, andb_true_iff, bool_decide_eq_true, Z.ltb_lt.
Qed.

#[export] Instance fat_token_laws `{StringHash, HashCombine} : TokenLaws fat_token.
Proof.
  refine {| token_wf := fat_wf; token_equal_eq := fat_equal_eq |}; cbn.
  - intros a. apply not_true_is_false. rewrite fat_less_iff, string_ltb_irrefl. intuition; lia.
  - intros a b c. rewrite !fat_less_iff. intros [H1|[H1 H1']] [H2|[H2 H2']].
    + left. lia.
    + left. by rewrite <- H2.
    + left. by rewrite H1.
    + right. split; [congruence|by eapply string_ltb_trans].
  - intros a b Ha Hb. rewrite !fat_less_iff.
    destruct (Z.lt_trichotomy (type_number (typ a)) (type_number (typ b))) as [Hlt|[Heq|Hlt]]; [tauto| |tauto].
    apply type_number_inj in Heq.
    destruct (string_ltb_total (lbl a) (lbl b)) as [?|[Hl|?]]; [tauto| |rewrite Heq; tauto].
    right; left. destruct a, b; cbn in *. by subst.
Defined.

#[export] Instance indexed_token_laws : TokenLaws indexed_token.
Proof.
  refine {| token_wf := fun _ => True |}; cbn; unfold indexed_equal, indexed_less.
  - intros [a] [b] _ _. cbn. rewrite Z.eqb_eq. split; [by intros ->|by intros [= ->]].
  - intros [a]. cbn. lia.
  - intros [a] [b] [c]. cbn. lia.
  - intros [a] [b] _ _. cbn. destruct (Z.lt_trichotomy a b) as [?|[->|?]]; [left; lia|by right; left|].
    right; right. lia.
Defined.

(** ** The encoding of an indexed token *)

Lemma new_indexed_token_range idx t tok :
  new_indexed_token idx t = Some tok -> t <> top_token /\ idx <= max_normal_index.
Proof.
  unfold new_indexed_token. destruct (_ && _) eqn:E; [|done]. intros _.
  apply andb_prop in E as [E H]. apply andb_prop in E as [E _].
  apply negb_true_iff, bool_decide_eq_false in E. split; [done|lia].
Qed.

Lemma new_indexed_token_some idx t :
  t <> top_token -> 0 <= idx <= max_normal_index ->
  exists tok, new_indexed_token idx t = Some tok /\ index tok = idx /\ indexed_type tok = t /\
    is_top tok = false /\ is_null tok = false /\ typ_and_idx tok = type_number t * type_stride + idx.
Proof.
  intros Ht Hidx. unfold new_indexed_token. rewrite bool_decide_false by done.
  replace (idx =? top_index) with false by (unfold max_normal_index, top_index in *; lia).
  replace (idx <=? max_normal_index) with true by lia. cbn [negb andb]. eexists. split; [done|].
  unfold index, indexed_type, is_top, is_null, max_normal_index, top_index, null_index, type_stride in *.
  cbn [typ_and_idx]. rewrite Z.shiftl_1_l in *. change (2 ^ 30) with 1073741824 in *.
  assert (Htn : 0 <= type_number t <= 3) by (destruct t; done || (cbn; lia)).
  rewrite u32_small by lia. rewrite Z.add_comm, Z.mod_add, Z.mod_small by lia.
  rewrite Z.div_add, Z.div_small by lia. cbn [Z.add].
  rewrite !(proj2 (Z.eqb_neq _ _)) by lia. split_and!; (done || lia || by destruct t).
Qed.

(** * Properties *)

(** The six comparison operators of tokens are those of one total order: on
    tokens made by the constructors [==] is equality, [<] a strict total order,
    and [<=], [>=], [>], [!=] are the relations derived from these two, though
    each is defined on its own by [less] and [equal]. *)
Theorem token_operators_order {D} `{TokenLaws D} (a b : D) :
  token_wf a -> token_wf b ->
  (token_eq a b = true <-> a = b) /\ token_ne a b = negb (token_eq a b) /\
  token_gt a b = token_lt b a /\ token_ge a b = token_le b a /\
  token_le a b = negb (token_gt a b) /\
  (token_lt a b = true /\ a <> b /\ token_lt b a = false \/
   token_lt a b = false /\ a = b /\ token_lt b a = false \/
   token_lt a b = false /\ a <> b /\ token_lt b a = true).
Proof.
  intros Ha Hb. unfold token_ne, token_gt, token_ge, token_le, token_eq, token_lt.
  pose proof (token_equal_eq a b Ha Hb) as Hab. pose proof (token_equal_eq b a Hb Ha) as Hba.
  assert (Hasym : forall x y : D, token_less x y = true -> token_less y x = false).
  { intros x y Hxy. destruct (token_less y x) eqn:Hyx; [|done].
    by rewrite <- (token_less_trans x y x Hxy Hyx), token_less_irrefl. }
  pose proof (Hasym a b). pose proof (Hasym b a).
  destruct (token_less_total a b Ha Hb) as [Hl|[->|Hl]].
  - assert (Hne : a <> b) by (intros ->; by rewrite token_less_irrefl in Hl).
    destruct (token_equal a b) eqn:?, (token_equal b a) eqn:?, (token_less b a) eqn:?;
      rewrite ?Hl in *; intuition congruence.
  - rewrite token_less_irrefl. destruct (token_equal b b); intuition congruence.
  - assert (Hne : a <> b) by (intros ->; by rewrite token_less_irrefl in Hl).
    destruct (token_equal a b) eqn:?, (token_equal b a) eqn:?, (token_less a b) eqn:?;
      rewrite ?Hl in *; intuition congruence.
Qed.

(** An index and a type that the constructor of an indexed token takes are
    recovered from its 32 bits, and no such token is the top or the null token. *)
Lemma indexed_token_roundtrip idx t tok :
  new_indexed_token idx t = Some tok -> 0 <= idx ->
  index tok = idx /\ indexed_type tok = t /\ is_top tok = false /\ is_null tok = false /\
  0 <= typ_and_idx tok < 2 ^ 32.
Proof.
  intros Htok Hidx. destruct (new_indexed_token_range _ _ _ Htok) as [Ht Hmax].
  destruct (new_indexed_token_some idx t Ht ltac:(lia)) as (tok'&Htok'&Hi&Hty&Htop&Hnull&Hraw).
  rewrite Htok in Htok'. injection Htok' as <-. split; [exact Hi|]. split; [exact Hty|].
  split; [exact Htop|]. split; [exact Hnull|]. rewrite Hraw.
  change max_normal_index with 1073741821 in Hmax. change type_stride with 1073741824.
  change (2 ^ 32) with 4294967296. destruct t; cbn [type_number]; [lia..|done].
Qed.

Lemma token_operators_order_witness :
  let hs : StringHash := fun t => Z.of_nat (String.length t) in
  let hc : HashCombine := Z.add in
  token_lt (D := fat_token) (foreign_word "a") (native_word "a") = true /\
  token_ge (D := fat_token) (foreign_word "a") (native_word "a") = false.
Proof.
  intros hs hc.
  destruct (token_operators_order (D := fat_token) (foreign_word "a") (native_word "a"))
    as (_&_&_&Hge&_); [apply new_fat_token_wf|apply new_fat_token_wf|].
  split; [reflexivity|]. rewrite Hge. reflexivity.
Defined.

Lemma indexed_token_roundtrip_example :
  index (mk_indexed 2147483655) = 7 /\ indexed_type (mk_indexed 2147483655) = tag_token.
Proof.
  destruct (indexed_token_roundtrip 7 tag_token (mk_indexed 2147483655)) as (H1&H2&_).
  - reflexivity.
  - lia.
  - split; [exact H1|exact H2].
Defined.
