(* ===== verification/Dictionary.v ===== *)
(** The dictionary of indexed tokens: the class template [dictionary<StorageP>]
    of src/sbmt_decoder/include/sbmt/token/indexed_token.hpp and
    impl/indexed_token.ipp, over the interface [TokenStorage] of its storage.

    An operation gives [None] when an assertion fails or an index is out of
    range, and [Throw] when it throws; the state an exception leaves behind is
    not modelled. *)
From stdpp Require Import functions.
From S2P Require Import Prelude TokenStorage Token.
Open Scope Z_scope.

Section dictionary.
Context {S : Type} `{!TokenStorage S}.

Record dictionary := mk_dictionary {
  foreign_start_sentence_tok : indexed_token;
  foreign_end_sentence_tok : indexed_token;
  foreign_unknown_word_tok : indexed_token;
  native_unknown_word_tok : indexed_token;
  native_epsilon_tok : indexed_token;
  native_separator_tok : indexed_token;
  foreign_storage : S;
  native_storage : S;
  tag_storage : S;
  virtual_tag_storage : S
}.

Implicit Types (d : dictionary) (s : string) (tok : indexed_token).

Definition with_storages d f n t v : dictionary :=
  mk_dictionary (foreign_start_sentence_tok d) (foreign_end_sentence_tok d)
    (foreign_unknown_word_tok d) (native_unknown_word_tok d) (native_epsilon_tok d)
    (native_separator_tok d) f n t v.

(** ** Words and tags *)

(** The common body of [native_word], [foreign_word], [tag] and [virtual_tag]. *)
Definition word_token (t : token_type_id) (msg s : string) (st : S)
  : option (result (indexed_token * S)) :=
  '(idx, st) ⇐ ts_get_index s st;
  if max_normal_index <=? idx then Some (Throw msg)
  else tok ← new_indexed_token idx t; Some (Ok (tok, st)).

Definition find_word_token (t : token_type_id) (msg s : string) (st : S)
  : option (result indexed_token) :=
  idx ⇐ ts_find_index s st;
  if max_normal_index <=? idx then Some (Throw msg)
  else tok ← new_indexed_token idx t; Some (Ok tok).

Definition dict_native_word s d : option (result (indexed_token * dictionary)) :=
  '(tok, st) ⇐ word_token native_token "too many native tokens" s (native_storage d);
  Some (Ok (tok, with_storages d (foreign_storage d) st (tag_storage d) (virtual_tag_storage d))).

Definition find_native_word s d : option (result indexed_token) :=
  find_word_token native_token "too many native tokens" s (native_storage d).

Definition has_native_word s d : option bool := ts_has_token s (native_storage d).

Definition dict_foreign_word s d : option (result (indexed_token * dictionary)) :=
  '(tok, st) ⇐ word_token foreign_token "too many foreign tokens" s (foreign_storage d);
  Some (Ok (tok, with_storages d st (native_storage d) (tag_storage d) (virtual_tag_storage d))).

Definition find_foreign_word s d : option (result indexed_token) :=
  find_word_token foreign_token "too many foreign tokens" s (foreign_storage d).

Definition dict_tag s d : option (result (indexed_token * dictionary)) :=
  '(tok, st) ⇐ word_token tag_token "too many tag tokens" s (tag_storage d);
  Some (Ok (tok, with_storages d (foreign_storage d) (native_storage d) st (virtual_tag_storage d))).

Definition find_tag s d : option (result indexed_token) :=
  find_word_token tag_token "too many tag tokens" s (tag_storage d).

Definition dict_virtual_tag s d : option (result (indexed_token * dictionary)) :=
  '(tok, st) ⇐ word_token virtual_tag_token "too many virtual tag tokens" s (virtual_tag_storage d);
  Some (Ok (tok, with_storages d (foreign_storage d) (native_storage d) (tag_storage d) st)).

Definition find_virtual_tag s d : option (result indexed_token) :=
  find_word_token virtual_tag_token "too many virtual tag tokens" s (virtual_tag_storage d).

Definition dict_toplevel_tag : indexed_token := indexed_token_top.

Definition create_token s (t : token_type_id) d : option (result (indexed_token * dictionary)) :=
  match t with
  | top_token => Some (Ok (dict_toplevel_tag, d))
  | foreign_token => dict_foreign_word s d
  | native_token => dict_native_word s d
  | tag_token => dict_tag s d
  | virtual_tag_token => dict_virtual_tag s d
  end.

Definition find_token s (t : token_type_id) d : option (result indexed_token) :=
  match t with
  | top_token => Some (Ok dict_toplevel_tag)
  | foreign_token => find_foreign_word s d
  | native_token => find_native_word s d
  | tag_token => find_tag s d
  | virtual_tag_token => find_virtual_tag s d
  end.

Definition label tok d : option string :=
  let idx := index tok in
  match indexed_type tok with
  | top_token => Some top_token_text
  | foreign_token => ts_get_token idx (foreign_storage d)
  | native_token => ts_get_token idx (native_storage d)
  | tag_token => ts_get_token idx (tag_storage d)
  | virtual_tag_token => ts_get_token idx (virtual_tag_storage d)
  end.

Definition foreign_word_count d : Z := ts_size (foreign_storage d).
Definition native_word_count d : Z := ts_size (native_storage d).
Definition tag_count d : Z := ts_size (tag_storage d).
Definition virtual_tag_count d : Z := ts_size (virtual_tag_storage d).

(** ** Ranges of tokens

    A [dictionary::iterator] is a token. *)

Definition word_iterator_increment (current : indexed_token) : option indexed_token :=
  new_indexed_token (index current + 1) (indexed_type current).

Definition word_range (t : token_type_id) (x : Z) (st : S) : option (indexed_token * indexed_token) :=
  first ← new_indexed_token x t; last ← new_indexed_token (ts_size st) t; Some (first, last).

Definition foreign_words (x : Z) d := word_range foreign_token x (foreign_storage d).
Definition native_words (x : Z) d := word_range native_token x (native_storage d).
Definition tags (x : Z) d := word_range tag_token x (tag_storage d).
Definition virtual_tags d := word_range virtual_tag_token 0 (virtual_tag_storage d).

(** The tokens that a loop over a range visits. *)
Fixpoint range_tokens (fuel : nat) (first last : indexed_token) : option (list indexed_token) :=
  if indexed_equal first last then Some []
  else match fuel with
       | O => None
       | Datatypes.S fuel =>
           next ← word_iterator_increment first; cons first <$> range_tokens fuel next last
       end.

(** ** The special tokens *)

Definition create_fat_token (ft : fat_token) d := create_token (fat_label ft) (fat_type ft) d.

Definition init_special_tokens d : option (result dictionary) :=
  '(start, d) ⇐ create_fat_token foreign_start_sentence d;
  '(end_, d) ⇐ create_fat_token foreign_end_sentence d;
  '(funk, d) ⇐ create_fat_token foreign_unknown_word d;
  '(nunk, d) ⇐ create_fat_token native_unknown_word d;
  '(eps, d) ⇐ create_fat_token native_epsilon d;
  '(sep, d) ⇐ create_fat_token native_separator d;
  Some (Ok (mk_dictionary start end_ funk nunk eps sep
              (foreign_storage d) (native_storage d) (tag_storage d) (virtual_tag_storage d))).

Definition new_dictionary : option (result dictionary) :=
  f ⇐ ts_new; n ⇐ ts_new; t ⇐ ts_new; v ⇐ ts_new;
  let null := indexed_token_default in
  init_special_tokens (mk_dictionary null null null null null null f n t v).

Definition reset_storage d : option (result dictionary) :=
  init_special_tokens
    (with_storages d (ts_reset (foreign_storage d)) (ts_reset (native_storage d))
       (ts_reset (tag_storage d)) (ts_reset (virtual_tag_storage d))).

Definition dict_shrink (f n t v : indexed_token) d : option dictionary :=
  fs ← ts_shrink (index f) (foreign_storage d);
  ns ← ts_shrink (index n) (native_storage d);
  ts ← ts_shrink (index t) (tag_storage d);
  vs ← ts_shrink (index v) (virtual_tag_storage d);
  Some (with_storages d fs ns ts vs).

(** [swap]: the storages are exchanged, the special tokens are not. *)
Definition dict_swap d o : dictionary * dictionary :=
  let f := ts_swap (foreign_storage d) (foreign_storage o) in
  let n := ts_swap (native_storage d) (native_storage o) in
  let t := ts_swap (tag_storage d) (tag_storage o) in
  let v := ts_swap (virtual_tag_storage d) (virtual_tag_storage o) in
  (with_storages d f.1 n.1 t.1 v.1, with_storages o f.2 n.2 t.2 v.2).

(** [tag_token_factory]: it gives the storage of the native words. *)
Definition tag_token_factory d : S := native_storage d.
End dictionary.

Arguments dictionary S : clear implicits.

(** * Lemmas *)

Section lemmas.
Context {S : Type} `{!TokenStorage S, !TokenStorageLaws S}.
Implicit Types (d : dictionary S) (s : string) (t : token_type_id) (tok : indexed_token).

(** [dict_holds n d L]: the words of type [t] of [d] are [L t], in the order of
    their indices; at most [n] were added to each storage. *)
Record dict_holds (n : Z) d (L : token_type_id -> list string) : Prop := {
  dh_foreign : ts_holds n (foreign_storage d) (L foreign_token);
  dh_native : ts_holds n (native_storage d) (L native_token);
  dh_tag : ts_holds n (tag_storage d) (L tag_token);
  dh_virtual : ts_holds n (virtual_tag_storage d) (L virtual_tag_token)
}.

(** [token_of L t s tok]: [tok] is the token of type [t] with label [s]. *)
Definition token_of (L : token_type_id -> list string) t s tok : Prop :=
  if decide (t = top_token) then tok = indexed_token_top
  else exists i, L t !! i = Some s /\ Z.of_nat i < max_normal_index /\
         new_indexed_token (Z.of_nat i) t = Some tok.

Lemma dict_holds_distinct n d L t :
  dict_holds n d L -> t <> top_token -> NoDup (L t) /\ Z.of_nat (length (L t)) <= n.
Proof. intros [Hf Hn Ht Hv] Htop. by destruct t; (eapply ts_holds_bound; eassumption) || done. Qed.

Lemma dict_holds_le n n' d L : n <= n' -> dict_holds n d L -> dict_holds n' d L.
Proof. intros Hn [Hf Hnat Ht Hv]. split; eapply ts_holds_le; eassumption. Qed.

Lemma dict_holds_ext n d L L' :
  (forall t, t <> top_token -> L t = L' t) -> dict_holds n d L -> dict_holds n d L'.
Proof. intros HL [Hf Hn Ht Hv]. split; by rewrite <- HL. Qed.

Lemma label_lookup n d L tok :
  dict_holds n d L -> 
  label tok d = if decide (indexed_type tok = top_token) then Some top_token_text
                else L (indexed_type tok) !! Z.to_nat (index tok).
Proof.
  intros [Hf Hn Ht Hv]. unfold label.
  assert (Hidx : index tok = Z.of_nat (Z.to_nat (index tok))).
  { rewrite Z2Nat.id; [done|]. unfold index. pose proof (Z.mod_pos_bound (typ_and_idx tok) type_stride). 
    by apply H. }
  generalize dependent (Z.to_nat (index tok)). intros i Hidx. rewrite Hidx.
  destruct (indexed_type tok); case_decide; try done; by eapply ts_get_token_holds.
Qed.

Lemma label_token_of n d L t s tok :
  dict_holds n d L -> token_of L t s tok ->
  indexed_type tok = t /\ label tok d = Some (if decide (t = top_token) then top_token_text else s).
Proof.
  intros Hd Htok. rewrite (label_lookup n d L tok Hd). unfold token_of in Htok.
  destruct (decide (t = top_token)) as [->|Htop]; [by subst tok|].
  destruct Htok as (i&Hi&Hmax&Htok).
  destruct (new_indexed_token_some (Z.of_nat i) t Htop ltac:(lia)) as (tok'&Htok'&Hidx&Hty&_).
  rewrite Htok in Htok'. simplify_eq. split; [done|]. rewrite Hidx, Nat2Z.id, Hi. by rewrite decide_False.
Qed.

(** Equal tokens have the same type and label. *)
Lemma token_of_inj n d L t1 t2 s1 s2 tok1 tok2 :
  dict_holds n d L -> token_of L t1 s1 tok1 -> token_of L t2 s2 tok2 ->
  tok1 = tok2 <-> t1 = t2 /\ (t1 = top_token \/ s1 = s2).
Proof.
  intros Hd H1 H2. destruct (label_token_of _ _ _ _ _ _ Hd H1) as [Hty1 Hl1].
  destruct (label_token_of _ _ _ _ _ _ Hd H2) as [Hty2 Hl2]. split.
  - intros ->. rewrite Hty1 in Hty2. split; [done|]. subst t2. rewrite Hl1 in Hl2.
    case_decide; [by left|]. right. by simplify_eq.
  - intros [<- Hs]. unfold token_of in H1, H2. destruct (decide (t1 = top_token)); [by subst|].
    destruct Hs as [|<-]; [done|]. destruct H1 as (i&Hi&_&Htok1), H2 as (j&Hj&_&Htok2).
    destruct (dict_holds_distinct _ _ _ t1 Hd ltac:(done)) as [Hnd _].
    rewrite (NoDup_lookup _ _ _ _ Hnd Hi Hj) in Htok1. congruence.
Qed.

(** ** Words *)

(** What [word_token] and [find_word_token] make of an index. *)
Definition token_result {A} t msg (i : nat) (a : A) (r : option (result (indexed_token * A))) : Prop :=
  if decide (max_normal_index <= Z.of_nat i) then r = Some (Throw msg)
  else exists tok, new_indexed_token (Z.of_nat i) t = Some tok /\ r = Some (Ok (tok, a)).

Lemma word_token_ok n t msg s st l :
  t <> top_token -> ts_holds n st l -> n < storage_limit -> no_nul s ->
  exists i l' st', token_result t msg i st' (word_token t msg s st) /\ l' !! i = Some s /\
    (s ∈ l /\ l' = l \/ (s ∉ l) /\ l' = l ++ [s]) /\ ts_holds (n + 1) st' l'.
Proof.
  intros Ht Hst Hn Hs. unfold word_token.
  destruct (ts_get_index_holds n st l s Hst Hn Hs) as (i&st'&->&Hcase). cbn [rbind].
  assert (exists l', l' !! i = Some s /\ (s ∈ l /\ l' = l \/ (s ∉ l) /\ l' = l ++ [s]) /\
            ts_holds (n + 1) st' l') as (l'&Hl'&Hcase'&Hst').
  { destruct Hcase as [[Hi ->]|(Hno&->&Hst')].
    - exists l. split; [done|]. split; [left; split; [by eapply list_elem_of_lookup_2|done]|].
      eapply ts_holds_le, Hst. lia.
    - exists (l ++ [s]). split; [by apply list_lookup_middle|]. split; [by right|done]. }
  exists i, l', st'. split; [|done]. unfold token_result. case_decide.
  - by rewrite (proj2 (Z.leb_le _ _)).
  - rewrite (proj2 (Z.leb_gt _ _)) by lia.
    destruct (new_indexed_token_some (Z.of_nat i) t Ht ltac:(lia)) as (tok&Htok&_).
    exists tok. by rewrite Htok.
Qed.

Lemma find_word_token_ok n t msg s st l :
  t <> top_token -> ts_holds n st l ->
  (exists i, l !! i = Some s /\
     if decide (max_normal_index <= Z.of_nat i) then find_word_token t msg s st = Some (Throw msg)
     else exists tok, new_indexed_token (Z.of_nat i) t = Some tok /\
            find_word_token t msg s st = Some (Ok tok)) \/
  ((s ∉ l) /\ exists e, find_word_token t msg s st = Some (Throw e)).
Proof.
  intros Ht Hst. unfold find_word_token.
  destruct (ts_find_index_holds n st l s Hst) as [(i&Hi&->)|(Hno&e&->)]; cbn [rbind].
  - left. exists i. split; [done|]. case_decide.
    + by rewrite (proj2 (Z.leb_le _ _)).
    + rewrite (proj2 (Z.leb_gt _ _)) by lia.
      destruct (new_indexed_token_some (Z.of_nat i) t Ht ltac:(lia)) as (tok&Htok&_).
      exists tok. by rewrite Htok.
  - right. split; [done|]. by exists e.
Qed.

(** [create_token] of a word, whatever its type. *)
Lemma create_token_ok n d L s t :
  t <> top_token -> dict_holds n d L -> n < storage_limit -> no_nul s ->
  exists i l' d', token_result t ("too many " +:+
      match t with foreign_token => "foreign" | native_token => "native" | tag_token => "tag"
              | _ => "virtual tag" end +:+ " tokens") i d' (create_token s t d) /\
    l' !! i = Some s /\ (s ∈ L t /\ l' = L t \/ (s ∉ L t) /\ l' = L t ++ [s]) /\
    dict_holds (n + 1) d' (<[t := l']> L).
Proof.
  intros Ht Hd Hn Hs. pose proof (dict_holds_le n (n + 1) d L ltac:(lia) Hd) as [Hf' Hn' Ht' Hv'].
  destruct Hd as [Hf Hnat Htg Hv].
  destruct t; try done; unfold create_token, dict_foreign_word, dict_native_word, dict_tag, dict_virtual_tag;
    [destruct (word_token_ok n foreign_token "too many foreign tokens" s _ _ Ht Hf Hn Hs)
       as (i&l'&st'&Hr&Hi&Hc&Hst)
    |destruct (word_token_ok n native_token "too many native tokens" s _ _ Ht Hnat Hn Hs)
       as (i&l'&st'&Hr&Hi&Hc&Hst)
    |destruct (word_token_ok n tag_token "too many tag tokens" s _ _ Ht Htg Hn Hs)
       as (i&l'&st'&Hr&Hi&Hc&Hst)
    |destruct (word_token_ok n virtual_tag_token "too many virtual tag tokens" s _ _ Ht Hv Hn Hs)
       as (i&l'&st'&Hr&Hi&Hc&Hst)];
    (exists i, l'; eexists; split; [|split; [exact Hi|split; [exact Hc|]]];
     [unfold token_result in *; case_decide; [by rewrite Hr|];
      destruct Hr as (tok&Htok&Hr); exists tok; split; [exact Htok|by rewrite Hr]
     |by split]).
Qed.
(** A new word gets the next token of its type. *)
Lemma create_token_next n d L s t tok :
  t <> top_token -> dict_holds n d L -> n < storage_limit -> no_nul s -> s ∉ L t ->
  Z.of_nat (length (L t)) < max_normal_index ->
  new_indexed_token (Z.of_nat (length (L t))) t = Some tok ->
  exists d', create_token s t d = Some (Ok (tok, d')) /\ dict_holds (n + 1) d' (<[t := L t ++ [s]]> L).
Proof.
  intros Ht Hd Hn Hs Hno Hlen Htok.
  destruct (create_token_ok n d L s t Ht Hd Hn Hs) as (i&l'&d'&Hr&Hi&Hcase&Hd').
  destruct Hcase as [[Hin _]|[_ ->]]; [done|]. exists d'. split; [|done].
  assert (i = length (L t)) as ->.
  { destruct (dict_holds_distinct _ _ _ t Hd' Ht) as [Hnd _]. rewrite fn_lookup_insert in Hnd.
    eapply NoDup_lookup; [exact Hnd|exact Hi|by apply list_lookup_middle]. }
  unfold token_result in Hr. rewrite decide_False in Hr by lia.
  destruct Hr as (tok'&Htok'&->). congruence.
Qed.

(** The words of a new dictionary. *)
Definition special_labels (t : token_type_id) : list string :=
  match t with
  | foreign_token => ["<foreign-sentence>"; "</foreign-sentence>"; "<unknown-word/>"]
  | native_token => ["<unknown-word/>"; "<epsilon/>"; "<separator/>"]
  | _ => []
  end.

Definition special_tokens d : list indexed_token :=
  [foreign_start_sentence_tok d; foreign_end_sentence_tok d; foreign_unknown_word_tok d;
   native_unknown_word_tok d; native_epsilon_tok d; native_separator_tok d].

Lemma create_fat_token_next n d L ft tok :
  dict_holds n d L -> typ ft <> top_token -> n < storage_limit -> no_nul (lbl ft) ->
  lbl ft ∉ L (typ ft) -> Z.of_nat (length (L (typ ft))) < max_normal_index ->
  new_indexed_token (Z.of_nat (length (L (typ ft)))) (typ ft) = Some tok ->
  exists d', create_fat_token ft d = Some (Ok (tok, d')) /\
    dict_holds (n + 1) d' (<[typ ft := L (typ ft) ++ [lbl ft]]> L).
Proof. intros. by apply create_token_next. Qed.

Ltac special_token :=
  match goal with
  | |- _ < storage_limit => lia
  | |- _ ∉ _ => apply (bool_decide_unpack _); vm_compute; exact I
  | |- _ => vm_compute; (reflexivity || discriminate)
  end.

Lemma init_special_tokens_ok n d :
  dict_holds n d (fun _ => []) -> n + 6 <= storage_limit ->
  exists d', init_special_tokens d = Some (Ok d') /\ dict_holds (n + 6) d' special_labels /\
    special_tokens d' = mk_indexed <$> [0; 1; 2; 1073741824; 1073741825; 1073741826].
Proof.
  intros Hd Hn. unfold init_special_tokens.
  destruct (create_fat_token_next _ _ _ foreign_start_sentence (mk_indexed 0) Hd) as (d1&->&Hd1);
    [special_token..|cbn [rbind]].
  destruct (create_fat_token_next _ _ _ foreign_end_sentence (mk_indexed 1) Hd1) as (d2&->&Hd2);
    [special_token..|cbn [rbind]].
  destruct (create_fat_token_next _ _ _ foreign_unknown_word (mk_indexed 2) Hd2) as (d3&->&Hd3);
    [special_token..|cbn [rbind]].
  destruct (create_fat_token_next _ _ _ native_unknown_word (mk_indexed 1073741824) Hd3) as (d4&->&Hd4);
    [special_token..|cbn [rbind]].
  destruct (create_fat_token_next _ _ _ native_epsilon (mk_indexed 1073741825) Hd4) as (d5&->&Hd5);
    [special_token..|cbn [rbind]].
  destruct (create_fat_token_next _ _ _ native_separator (mk_indexed 1073741826) Hd5) as (d6&->&Hd6);
    [special_token..|cbn [rbind]].
  eexists. split; [done|]. split; [|done].
  replace (n + 6) with (n + 1 + 1 + 1 + 1 + 1 + 1) by lia.
  eapply dict_holds_ext; [|destruct Hd6; by split]. by intros [].
Qed.

Lemma new_dictionary_ok :
  exists d, new_dictionary = Some (Ok d) /\ dict_holds 6 d special_labels /\
    special_tokens d = mk_indexed <$> [0; 1; 2; 1073741824; 1073741825; 1073741826].
Proof.
  unfold new_dictionary. destruct ts_new_holds as (st&->&Hst). cbn [rbind].
  by apply (init_special_tokens_ok 0).
Qed.

Lemma reset_storage_ok n d L :
  dict_holds n d L -> n + 6 <= storage_limit ->
  exists d', reset_storage d = Some (Ok d') /\ dict_holds (n + 6) d' special_labels /\
    special_tokens d' = mk_indexed <$> [0; 1; 2; 1073741824; 1073741825; 1073741826].
Proof.
  intros [Hf Hn Ht Hv] Hlim. apply init_special_tokens_ok; [|done].
  split; by eapply ts_reset_holds.
Qed.

(** ** [find_token] *)

Lemma find_token_ok n d L s t :
  dict_holds n d L ->
  (exists tok, token_of L t s tok /\ find_token s t d = Some (Ok tok)) \/
  (t <> top_token /\ (s ∈ L t -> max_normal_index <= n) /\ (forall tok, ~ token_of L t s tok) /\
   exists e, find_token s t d = Some (Throw e)).
Proof.
  intros Hd. destruct (decide (t = top_token)) as [->|Ht].
  { left. by exists indexed_token_top. }
  destruct (dict_holds_distinct n d L t Hd Ht) as [Hnd Hbound].
  assert (Hfind : (exists i, L t !! i = Some s /\
     if decide (max_normal_index <= Z.of_nat i) then exists e, find_token s t d = Some (Throw e)
     else exists tok, new_indexed_token (Z.of_nat i) t = Some tok /\ find_token s t d = Some (Ok tok)) \/
    ((s ∉ L t) /\ exists e, find_token s t d = Some (Throw e))).
  { destruct Hd as [Hf Hn Htg Hv].
    destruct t; try done;
      [destruct (find_word_token_ok n foreign_token "too many foreign tokens" s _ _ Ht Hf)
         as [(i&Hi&Hr)|Hr]
      |destruct (find_word_token_ok n native_token "too many native tokens" s _ _ Ht Hn)
         as [(i&Hi&Hr)|Hr]
      |destruct (find_word_token_ok n tag_token "too many tag tokens" s _ _ Ht Htg)
         as [(i&Hi&Hr)|Hr]
      |destruct (find_word_token_ok n virtual_tag_token "too many virtual tag tokens" s _ _ Ht Hv)
         as [(i&Hi&Hr)|Hr]]; [|by right| |by right| |by right| |by right];
      (left; exists i; split; [exact Hi|]; case_decide; [by eexists|exact Hr]). }
  destruct Hfind as [(i&Hi&Hr)|[Hno Hr]].
  - case_decide.
    + right. split; [done|]. split; [apply lookup_lt_Some in Hi; lia|]. split; [|done].
      intros tok. unfold token_of. rewrite decide_False by done. intros (j&Hj&Hmax&_).
      pose proof (NoDup_lookup _ _ _ _ Hnd Hi Hj). lia.
    + destruct Hr as (tok&Htok&Hr). left. exists tok. split; [|done]. unfold token_of.
      rewrite decide_False by done. exists i. split; [done|]. split; [lia|done].
  - right. split; [done|]. split; [done|]. split; [|done]. intros tok. unfold token_of.
    rewrite decide_False by done. intros (j&Hj&_). destruct Hno. by eapply list_elem_of_lookup_2.
Qed.
End lemmas.

(** ** Ranges *)

Lemma range_tokens_ok {S} `{!TokenStorage S} t (m k fuel : nat) first last :
  t <> top_token -> Z.of_nat (m + k) <= max_normal_index ->
  new_indexed_token (Z.of_nat m) t = Some first -> new_indexed_token (Z.of_nat (m + k)) t = Some last ->
  (k <= fuel)%nat ->
  exists toks, range_tokens fuel first last = Some toks /\
    Forall2 (fun tok i => new_indexed_token (Z.of_nat i) t = Some tok) toks (seq m k).
Proof.
  intros Ht Hmax Hfirst Hlast. revert m first fuel Hmax Hfirst Hlast.
  induction k as [|k IH]; intros m first fuel Hmax Hfirst Hlast Hfuel.
  - rewrite Nat.add_0_r in Hlast. assert (first = last) as -> by congruence.
    exists []. split; [|constructor]. destruct fuel; cbn; unfold indexed_equal; by rewrite Z.eqb_refl.
  - destruct fuel as [|fuel]; [lia|]. cbn [range_tokens].
    destruct (new_indexed_token_some (Z.of_nat m) t Ht ltac:(lia)) as (f'&Hf'&Hidx&Hty&_&_&Hraw).
    destruct (new_indexed_token_some (Z.of_nat (m + Datatypes.S k)) t Ht ltac:(lia))
      as (l'&Hl'&_&_&_&_&Hraw').
    assert (f' = first) as -> by congruence. assert (l' = last) as -> by congruence.
    unfold indexed_equal. rewrite Hraw, Hraw', (proj2 (Z.eqb_neq _ _)) by lia.
    unfold word_iterator_increment. rewrite Hidx, Hty.
    destruct (new_indexed_token_some (Z.of_nat (Datatypes.S m)) t Ht ltac:(lia)) as (nx&Hnx&_).
    replace (Z.of_nat m + 1) with (Z.of_nat (Datatypes.S m)) by lia. rewrite Hnx.
    cbn [mbind option_bind].
    destruct (IH (Datatypes.S m) nx fuel) as (toks&->&Htoks); [lia|done| |lia|].
    { by replace (Datatypes.S m + k)%nat with (m + Datatypes.S k)%nat by lia. }
    exists (first :: toks). split; [done|]. by constructor.
Qed.

Lemma mapM_label_range {S} `{!TokenStorage S, !TokenStorageLaws S} n (d : dictionary S) L t toks m k :
  dict_holds n d L -> t <> top_token -> Z.of_nat (m + k) <= max_normal_index ->
  length (L t) = (m + k)%nat ->
  Forall2 (fun tok i => new_indexed_token (Z.of_nat i) t = Some tok) toks (seq m k) ->
  mapM (fun tok => label tok d) toks = Some (drop m (L t)) /\ Forall (fun tok => indexed_type tok = t) toks.
Proof.
  intros Hd Ht. revert m toks. induction k as [|k IH]; intros m toks Hmax Hlen Htoks.
  { inversion Htoks; subst. by rewrite drop_ge by lia. }
  inversion Htoks as [|tok i toks' ns Htok Htoks' E1 E2]; subst.
  destruct (IH (Datatypes.S m) toks') as [Hl Hty]; [lia|lia|done|].
  destruct (new_indexed_token_some (Z.of_nat m) t Ht ltac:(lia)) as (tok'&Htok'&Hidx&Hty'&_).
  assert (tok' = tok) as -> by congruence. split; [|by constructor].
  cbn [mapM]. rewrite (label_lookup n d L tok Hd), decide_False, Hty', Hidx, Nat2Z.id by by rewrite Hty'.
  destruct (lookup_lt_is_Some_2 (L t) m ltac:(lia)) as [s Hs].
  rewrite Hs. cbn [mbind option_bind]. rewrite Hl. cbn [mbind option_bind].
  by rewrite (drop_S (L t) s m Hs).
Qed.

(** * Properties *)

Section properties.
Context {S : Type} `{!TokenStorage S, !TokenStorageLaws S}.
Implicit Types (d : dictionary S) (s : string) (t : token_type_id) (tok : indexed_token).

(** [create_token(s, t)] gives a token of type [t] whose label is that of the
    fat token made of [s] and [t], the one that [find_token] gives from then on;
    no token made before changes its label.  The only exception is that of a
    type with 2^30 - 3 words. *)
Theorem create_token_refines n d L s t :
  dict_holds n d L -> n < storage_limit -> no_nul s ->
  (exists tok d' L', create_token s t d = Some (Ok (tok, d')) /\ dict_holds (n + 1) d' L' /\
     indexed_type tok = t /\ label tok d' = Some (fat_label (new_fat_token s t)) /\
     find_token s t d' = Some (Ok tok) /\
     forall tok0 s0, label tok0 d = Some s0 -> label tok0 d' = Some s0) \/
  (t <> top_token /\ max_normal_index <= n /\ exists msg, create_token s t d = Some (Throw msg)).
Proof.
  intros Hd Hn Hs. destruct (decide (t = top_token)) as [->|Ht].
  { left. exists indexed_token_top, d, L. split_and!; try done.
    eapply dict_holds_le, Hd. lia. }
  destruct (create_token_ok n d L s t Ht Hd Hn Hs) as (i&l'&d'&Hr&Hi&Hcase&Hd').
  destruct (dict_holds_distinct n d L t Hd Ht) as [_ Hb].
  unfold token_result in Hr. case_decide as Hmax.
  - right. split; [done|]. split; [|by eexists]. apply lookup_lt_Some in Hi.
    destruct Hcase as [[_ ->]|[_ ->]]; [lia|]. rewrite length_app in Hi. simpl in Hi. lia.
  - left. destruct Hr as (tok&Htok&Hr). exists tok, d', (<[t := l']> L).
    assert (Hof : token_of (<[t := l']> L) t s tok).
    { unfold token_of. rewrite decide_False by done. exists i. rewrite fn_lookup_insert.
      split; [done|]. split; [lia|done]. }
    destruct (label_token_of _ _ _ _ _ _ Hd' Hof) as [Hty Hlabel].
    split; [done|]. split; [done|]. split; [done|]. split; [done|]. split.
    + destruct (find_token_ok (n + 1) d' (<[t := l']> L) s t Hd') as [(tok'&Hof'&->)|(_&_&Hnone&_)].
      * by rewrite (proj2 (token_of_inj _ _ _ _ _ _ _ _ _ Hd' Hof Hof')) by auto.
      * by destruct (Hnone tok).
    + intros tok0 s0. rewrite (label_lookup n d L), (label_lookup _ d' (<[t := l']> L)) by done.
      destruct (decide (indexed_type tok0 = top_token)); [done|]. destruct (decide (t = indexed_type tok0)) as [Heq|Hne].
      * rewrite <- Heq, fn_lookup_insert. destruct Hcase as [[_ ->]|[_ ->]]; [done|].
        intros H0. by apply lookup_app_l_Some.
      * by rewrite fn_lookup_insert_ne.
Qed.
(** Two indexed tokens of a dictionary are equal exactly when the fat tokens
    with the same strings and types are: an indexed token can stand for the fat
    token in every comparison. *)
Theorem find_token_mirrors_fat n d L s1 t1 s2 t2 tok1 tok2 :
  dict_holds n d L ->
  find_token s1 t1 d = Some (Ok tok1) -> find_token s2 t2 d = Some (Ok tok2) ->
  indexed_equal tok1 tok2 = fat_equal (new_fat_token s1 t1) (new_fat_token s2 t2) /\
  indexed_type tok1 = fat_type (new_fat_token s1 t1) /\
  label tok1 d = Some (fat_label (new_fat_token s1 t1)).
Proof.
  intros Hd H1 H2.
  assert (Hof : forall s t tok, find_token s t d = Some (Ok tok) -> token_of L t s tok).
  { intros s t tok Hf. destruct (find_token_ok n d L s t Hd) as [(tok'&Hof&Hf')|(_&_&_&e&Hf')].
    - rewrite Hf in Hf'. by simplify_eq.
    - by rewrite Hf in Hf'. }
  pose proof (token_of_inj _ _ _ _ _ _ _ _ _ Hd (Hof _ _ _ H1) (Hof _ _ _ H2)) as Hinj.
  destruct (label_token_of _ _ _ _ _ _ Hd (Hof _ _ _ H1)) as [Hty Hl].
  split; [|by rewrite Hl]. apply eq_bool_prop_intro. rewrite !Is_true_true.
  unfold indexed_equal. rewrite Z.eqb_eq, fat_equal_eq by apply new_fat_token_wf.
  trans (tok1 = tok2); [destruct tok1, tok2; cbn; split; congruence|]. rewrite Hinj.
  unfold new_fat_token. split.
  - intros [<- Hs]. case_decide; [done|]. destruct Hs as [|<-]; done.
  - intros [= <- Hs]. split; [done|]. case_decide; [by left|by right].
Qed.

(** A new dictionary, and one that was reset, have the six special tokens and
    no other words, and the special tokens have the labels and types of the
    special fat tokens; they are the same in every dictionary. *)
Theorem dictionary_special_tokens n d0 L :
  dict_holds n d0 L -> n + 6 <= storage_limit ->
  exists d d', new_dictionary = Some (Ok d) /\ reset_storage d0 = Some (Ok d') /\
    dict_holds 6 d special_labels /\ dict_holds (n + 6) d' special_labels /\
    special_tokens d' = special_tokens d /\
    Forall2 (fun tok ft => indexed_type tok = fat_type ft /\
                           label tok d = Some (fat_label ft) /\ label tok d' = Some (fat_label ft))
      (special_tokens d)
      [foreign_start_sentence; foreign_end_sentence; foreign_unknown_word;
       native_unknown_word; native_epsilon; native_separator].
Proof.
  intros Hd0 Hn. destruct new_dictionary_ok as (d&Hnew&Hd&Hs).
  destruct (reset_storage_ok n d0 L Hd0 Hn) as (d'&Hreset&Hd'&Hs').
  exists d, d'. do 4 (split; [done|]). split; [congruence|]. rewrite Hs.
  assert (Hlabel : forall tok, label tok d' = label tok d).
  { intros tok. by rewrite (label_lookup _ d _ tok Hd), (label_lookup _ d' _ tok Hd'). }
  repeat (constructor; [rewrite Hlabel, !(label_lookup _ d _ _ Hd); done|]). constructor.
Qed.

(** The range of words of a type from index [x] on visits each word from [x]
    on once, in the order of their indices, and ends; its iterators never fail
    the assertion of the token constructor. *)
Theorem word_range_visits n d L t (x : nat) :
  dict_holds n d L -> n <= max_normal_index -> t <> top_token -> (x <= length (L t))%nat ->
  (t = virtual_tag_token -> x = 0%nat) ->
  exists first last toks,
    match t with
    | foreign_token => foreign_words (Z.of_nat x) d
    | native_token => native_words (Z.of_nat x) d
    | tag_token => tags (Z.of_nat x) d
    | _ => virtual_tags d
    end = Some (first, last) /\
    range_tokens (length (L t)) first last = Some toks /\
    mapM (fun tok => label tok d) toks = Some (drop x (L t)) /\
    Forall (fun tok => indexed_type tok = t) toks.
Proof.
  intros Hd Hn Ht Hx Hv. destruct (dict_holds_distinct n d L t Hd Ht) as [_ Hb].
  destruct (new_indexed_token_some (Z.of_nat x) t Ht ltac:(lia)) as (first&Hfirst&_).
  destruct (new_indexed_token_some (Z.of_nat (length (L t))) t Ht ltac:(lia)) as (last&Hlast&_).
  destruct (range_tokens_ok t x (length (L t) - x) (length (L t)) first last Ht) as (toks&Hr&Htoks);
    [lia|done|by replace (x + _)%nat with (length (L t)) by lia|lia|].
  destruct (mapM_label_range n d L t toks x (length (L t) - x) Hd Ht) as [Hl Hty]; [lia|lia|done|].
  exists first, last, toks. split; [|done].
  assert (Hlim : n <= storage_limit).
  { etrans; [exact Hn|]. vm_compute. discriminate. }
  assert (Hrange : forall st, ts_holds n st (L t) -> word_range t (Z.of_nat x) st = Some (first, last)).
  { intros st Hst. unfold word_range. by rewrite Hfirst, (ts_size_holds n st (L t) Hst Hlim), Hlast. }
  destruct Hd as [Hf Hnat Htg Hvt]. destruct t; try done; try (by apply Hrange).
  specialize (Hv eq_refl). subst x. by apply Hrange.
Qed.
End properties.

(** ** Examples: a dictionary over [in_memory_token_storage] *)

#[local] Instance sample_hash : StringHash := fun t => Z.of_nat (String.length t).

Abbreviation sample_dictionary := (dictionary in_memory_token_storage).

Lemma new_dictionary_sample :
  exists d : sample_dictionary, dict_holds 6 d special_labels.
Proof. destruct (new_dictionary_ok (S := in_memory_token_storage)) as (d&_&Hd&_). by exists d. Qed.

Lemma create_token_refines_witness :
  exists (d d' : sample_dictionary) tok, create_token "NP" tag_token d = Some (Ok (tok, d')) /\
    label tok d' = Some "NP".
Proof.
  destruct new_dictionary_sample as [d Hd].
  destruct (create_token_refines 6 d special_labels "NP" tag_token Hd)
    as [(tok&d'&L'&Hc&_&_&Hl&_)|(_&Hmax&_)].
  - vm_compute. reflexivity.
  - reflexivity.
  - exists d, d', tok. split; [exact Hc|exact Hl].
  - vm_compute in Hmax. exfalso. apply Hmax. reflexivity.
Defined.

Lemma find_token_mirrors_fat_witness :
  exists (d : sample_dictionary) tok1 tok2,
    find_token "<unknown-word/>" foreign_token d = Some (Ok tok1) /\
    find_token "<unknown-word/>" native_token d = Some (Ok tok2) /\ indexed_equal tok1 tok2 = false.
Proof.
  destruct new_dictionary_sample as [d Hd].
  assert (Hfind : forall t, "<unknown-word/>" ∈ special_labels t ->
    exists tok, find_token "<unknown-word/>" t d = Some (Ok tok)).
  { intros t Hin. destruct (find_token_ok 6 d special_labels "<unknown-word/>" t Hd)
      as [(tok&_&Hf)|(_&Hmax&_)]; [by exists tok|].
    specialize (Hmax Hin). vm_compute in Hmax. by destruct Hmax. }
  destruct (Hfind foreign_token) as [tok1 H1]; [apply (bool_decide_unpack _); vm_compute; exact I|].
  destruct (Hfind native_token) as [tok2 H2]; [apply (bool_decide_unpack _); vm_compute; exact I|].
  exists d, tok1, tok2. split; [exact H1|]. split; [exact H2|].
  exact (proj1 (find_token_mirrors_fat 6 d special_labels _ _ _ _ tok1 tok2 Hd H1 H2)).
Defined.

Lemma dictionary_special_tokens_witness :
  exists d0 d' : sample_dictionary, reset_storage d0 = Some (Ok d') /\ dict_holds 12 d' special_labels.
Proof.
  destruct new_dictionary_sample as [d0 Hd0].
  destruct (dictionary_special_tokens 6 d0 special_labels Hd0) as (d&d'&_&Hr&_&Hd'&_).
  - vm_compute. discriminate.
  - exists d0, d'. split; [exact Hr|exact Hd'].
Defined.

Lemma word_range_visits_witness :
  exists (d : sample_dictionary) first last toks, native_words 1 d = Some (first, last) /\
    range_tokens 3 first last = Some toks /\
    mapM (fun tok => label tok d) toks = Some ["<epsilon/>"; "<separator/>"].
Proof.
  destruct new_dictionary_sample as [d Hd]. exists d.
  destruct (word_range_visits 6 d special_labels native_token 1 Hd) as (first&last&toks&H1&H2&H3&_).
  - vm_compute. discriminate.
  - discriminate.
  - vm_compute. lia.
  - discriminate.
  - exists first, last, toks. split; [exact H1|]. split; [exact H2|exact H3].
Defined.
