(* ===== verification/Alignment.v ===== *)
(** Word alignments: [struct alignment] of
    src/sbmt_decoder/include/sbmt/grammar/alignment.hpp.

    Indices are 32-bit unsigned.  [None] is an element access out of range; the
    exceptions of the class are [Throw].  Printing and reading are not
    modelled.  A source position has the list of its target positions. *)
From stdpp Require Import pretty.
From S2P Require Import Prelude.
Open Scope Z_scope.

(** [cumulative_offsets]: replaces each length by the sum of those before it, and
    returns the sum of all. *)
Fixpoint cumulative_offsets (base : Z) (lens : list Z) : list Z * Z :=
  match lens with
  | [] => ([], base)
  | delta :: lens => let r := cumulative_offsets (u32 (base + delta)) lens in (base :: r.1, r.2)
  end.

Definition out_of_range_msg (i len : Z) : string :=
  "Alignment index " +:+ pretty i +:+ " is too large for the phrase of length " +:+ pretty len.

Definition alignment_in_range (i len : Z) : result unit :=
  if len <=? i then Throw (out_of_range_msg i len) else Ok tt.

Record alignment := mk_alignment { ntar : Z; sa : list (list Z) }.

Definition alignment_default : alignment := mk_alignment 0 [].
Definition n_tar (a : alignment) : Z := ntar a.
Definition n_src (a : alignment) : Z := u32 (Z.of_nat (length (sa a))).

Definition set_empty (ns nt : Z) : alignment := mk_alignment nt (replicate (Z.to_nat ns) []).
Definition set_null_alignment : alignment := set_empty 0 0.
Definition alignment_is_null (a : alignment) : bool := (ntar a =? 0) && bool_decide (sa a = []).

(** [visit]: the pairs in the order they are visited. *)
Definition visit (a : alignment) : list (Z * Z) :=
  mjoin (imap (fun i row => (fun t => (Z.of_nat i, t)) <$> row) (sa a)).

(** [sa[s].push_back(t)] *)
Definition push_row (rows : list (list Z)) (s t : Z) : option (list (list Z)) :=
  row ← rows !! Z.to_nat s; Some (<[Z.to_nat s := row ++ [t]]> rows).

Definition add (s t : Z) (a : alignment) : option (result alignment) :=
  match alignment_in_range s (n_src a) with
  | Throw msg => Some (Throw msg)
  | Ok _ =>
      match alignment_in_range t (n_tar a) with
      | Throw msg => Some (Throw msg)
      | Ok _ => rows ← push_row (sa a) s t; Some (Ok (mk_alignment (ntar a) rows))
      end
  end.

(** [set_unit]: [set_empty(1,1); add(0,0)] *)
Definition set_unit : option (result alignment) := add 0 0 (set_empty 1 1).
Definition unit_alignment : alignment := mk_alignment 1 [[0]].

Definition check_size (n_s n_t : Z) (a : alignment) : result unit :=
  if negb (n_tar a =? n_t) then Throw "alignment #t doesn't match"
  else if negb (n_src a =? n_s) then Throw "alignment #s doesn't match"
  else Ok tt.

(** [sort]: [std::sort] of each row. *)
Definition sort_tars (row : list Z) : list Z := merge_sort Z.le row.
Definition sort_alignment (a : alignment) : alignment := mk_alignment (ntar a) (sort_tars <$> sa a).

(** [operator==]: it sorts both of its arguments in place. *)
Definition alignment_eq (a o : alignment) : bool * alignment * alignment :=
  let a := sort_alignment a in
  let o := sort_alignment o in
  ((n_tar a =? n_tar o) && bool_decide (sa a = sa o), a, o).

(** [set_inverse] *)
Fixpoint inverse_row (i : Z) (row : list Z) (rows : list (list Z)) : option (list (list Z)) :=
  match row with
  | [] => Some rows
  | s :: row => rows ← push_row rows s i; inverse_row i row rows
  end.

Fixpoint inverse_rows (i : Z) (orows : list (list Z)) (rows : list (list Z)) : option (list (list Z)) :=
  match orows with
  | [] => Some rows
  | row :: orows => rows ← inverse_row i row rows; inverse_rows (u32 (i + 1)) orows rows
  end.

Definition set_inverse (o : alignment) : option alignment :=
  let a := set_empty (n_tar o) (n_src o) in
  rows ← inverse_rows 0 (sa o) (sa a); Some (mk_alignment (ntar a) rows).

(** ** Substitution *)

(** [append_remap(t, offs)] *)
Definition append_remap (t offs : list Z) (rows : list (list Z)) : option (list (list Z)) :=
  b ← mapM (fun i => offs !! Z.to_nat i) t; Some (rows ++ [b]).

(** [append_offset(t, offset)], to the last row *)
Definition append_offset_row (t : list Z) (offset : Z) (b : list Z) : list Z :=
  b ++ ((fun i => u32 (i + offset)) <$> t).

(** The inner loop of [append_offset(parent_tars, var, offs)]. *)
Fixpoint append_offset_loop (s parent_tars offs b : list Z) : option (list Z) :=
  match parent_tars with
  | [] => Some b
  | t :: parent_tars =>
      offset ← offs !! Z.to_nat t; append_offset_loop s parent_tars offs (append_offset_row s offset b)
  end.

Fixpoint append_offset (parent_tars : list Z) (var_rows : list (list Z)) (offs : list Z)
    (rows : list (list Z)) : option (list (list Z)) :=
  match var_rows with
  | [] => Some rows
  | s :: var_rows =>
      b ← append_offset_loop s parent_tars offs [];
      append_offset parent_tars var_rows offs (rows ++ [b])
  end.

(** [substitution]: the alignment put in, and the source position it is for. *)
Definition substitution : Type := alignment * Z.

(** [tar_offsets[*i] = len] for the positions [i] of the row. *)
Fixpoint set_lengths (row : list Z) (len : Z) (lens : list Z) : option (list Z) :=
  match row with
  | [] => Some lens
  | i :: row => _ ← lens !! Z.to_nat i; set_lengths row len (<[Z.to_nat i := len]> lens)
  end.

(** The loop that sets the lengths of the variables. *)
Fixpoint subst_loop (a : alignment) (subs : list substitution) (lens : list Z)
    (src_vars : list (option alignment)) : option (result (list Z * list (option alignment))) :=
  match subs with
  | [] => Some (Ok (lens, src_vars))
  | (v, t) :: subs =>
      match alignment_in_range t (n_src a) with
      | Throw msg => Some (Throw msg)
      | Ok _ =>
          row ← sa a !! Z.to_nat t;
          lens ← set_lengths row (n_tar v) lens;
          subst_loop a subs lens (<[Z.to_nat t := Some v]> src_vars)
      end
  end.

(** The loop that appends the source positions. *)
Fixpoint append_loop (srows : list (list Z)) (src_vars : list (option alignment)) (offs : list Z)
    (rows : list (list Z)) : option (list (list Z)) :=
  match srows, src_vars with
  | row :: srows, Some v :: src_vars =>
      rows ← append_offset row (sa v) offs rows; append_loop srows src_vars offs rows
  | row :: srows, None :: src_vars =>
      rows ← append_remap row offs rows; append_loop srows src_vars offs rows
  | _, _ => Some rows
  end.

Definition substitute_into (a into : alignment) (subs : list substitution) : option (result alignment) :=
  if alignment_is_null a then Some (Ok set_null_alignment)
  else
    '(lens, src_vars) ⇐ subst_loop a subs (replicate (Z.to_nat (n_tar a)) 1)
                          (replicate (Z.to_nat (n_src a)) None);
    let r := cumulative_offsets 0 lens in
    rows ← append_loop (sa a) src_vars r.1 (sa into);
    Some (Ok (mk_alignment r.2 rows)).

(** [alignment(from, subs)] *)
Definition alignment_subst (from : alignment) (subs : list substitution) : option (result alignment) :=
  substitute_into from alignment_default subs.

(** * Lemmas *)

Definition row_ok (n : Z) (row : list Z) : Prop := Forall (fun t => 0 <= t < n) row.

Record alignment_ok (a : alignment) : Prop := {
  al_tar : 0 <= ntar a < 4294967296;
  al_src : Z.of_nat (length (sa a)) < 4294967296;
  al_rows : Forall (row_ok (ntar a)) (sa a)
}.

Lemma n_src_length a : alignment_ok a -> n_src a = Z.of_nat (length (sa a)).
Proof. intros [_ Hs _]. unfold n_src. apply u32_small. lia. Qed.

(** ** The inverse *)

(** The row of the inverse for the target [t]: the source positions, from [i] on,
    of the rows that have [t]. *)
Fixpoint column (i : Z) (rows : list (list Z)) (t : Z) : list Z :=
  match rows with
  | [] => []
  | row :: rows => ((fun _ => i) <$> filter (fun s => s = t) row) ++ column (i + 1) rows t
  end.

Lemma push_at_lookup rows s t :
  0 <= s < Z.of_nat (length rows) ->
  exists rows', push_row rows s t = Some rows' /\ length rows' = length rows /\
    forall k row, rows !! k = Some row ->
      rows' !! k = Some (if decide (Z.of_nat k = s) then row ++ [t] else row).
Proof.
  intros Hs. destruct (lookup_lt_is_Some_2 rows (Z.to_nat s) ltac:(lia)) as [r Hr].
  unfold push_row. rewrite Hr. cbn [mbind option_bind]. eexists. split; [done|].
  rewrite length_insert. split; [done|]. intros k row Hk. case_decide.
  - replace (Z.to_nat s) with k in * by lia. rewrite Hr in Hk. injection Hk as ->.
    apply list_lookup_insert_eq. by eapply lookup_lt_Some.
  - rewrite list_lookup_insert_ne by lia. done.
Qed.

Lemma inverse_row_lookup i row rows :
  row_ok (Z.of_nat (length rows)) row ->
  exists rows', inverse_row i row rows = Some rows' /\ length rows' = length rows /\
    forall k r, rows !! k = Some r ->
      rows' !! k = Some (r ++ ((fun _ => i) <$> filter (fun s => s = Z.of_nat k) row)).
Proof.
  revert rows. induction row as [|s row IH]; intros rows Hok.
  { exists rows. split_and!; [done|done|]. intros k r Hk. by rewrite app_nil_r. }
  apply Forall_cons in Hok as [Hs Hok]. cbn [inverse_row].
  destruct (push_at_lookup rows s i Hs) as (rows1&->&Hlen&Hlook). cbn [mbind option_bind].
  destruct (IH rows1) as (rows2&->&Hlen2&Hlook2); [by rewrite Hlen|].
  exists rows2. split_and!; [done|lia|]. intros k r Hk.
  rewrite (Hlook2 k _ (Hlook k r Hk)). rewrite filter_cons. do 2 case_decide; try lia; [|done].
  by rewrite <- app_assoc.
Qed.

Lemma inverse_rows_lookup i orows rows :
  0 <= i -> i + Z.of_nat (length orows) < 4294967296 ->
  Forall (row_ok (Z.of_nat (length rows))) orows ->
  exists rows', inverse_rows i orows rows = Some rows' /\ length rows' = length rows /\
    forall k r, rows !! k = Some r -> rows' !! k = Some (r ++ column i orows (Z.of_nat k)).
Proof.
  revert i rows. induction orows as [|row orows IH]; intros i rows Hi Hlen Hok.
  { exists rows. split_and!; [done|done|]. intros k r Hk. by rewrite app_nil_r. }
  apply Forall_cons in Hok as [Hrow Hok]. cbn [inverse_rows]. simpl in Hlen.
  destruct (inverse_row_lookup i row rows Hrow) as (rows1&->&Hlen1&Hlook1). cbn [mbind option_bind].
  rewrite u32_small by lia.
  destruct (IH (i + 1) rows1) as (rows2&->&Hlen2&Hlook2); [lia|lia|by rewrite Hlen1|].
  exists rows2. split_and!; [done|lia|]. intros k r Hk.
  rewrite (Hlook2 k _ (Hlook1 k r Hk)). by rewrite <- app_assoc.
Qed.

Lemma set_inverse_eq o :
  alignment_ok o ->
  set_inverse o = Some (mk_alignment (n_src o) (column 0 (sa o) <$> seqZ 0 (ntar o))).
Proof.
  intros Hok. unfold set_inverse, set_empty. cbn [sa ntar]. pose proof Hok as [Ht Hs Hr].
  destruct (inverse_rows_lookup 0 (sa o) (replicate (Z.to_nat (n_tar o)) [])) as (rows&->&Hlen&Hlook).
  { done. } { lia. } { rewrite length_replicate, Z2Nat.id by (unfold n_tar; lia). done. }
  cbn [mbind option_bind]. do 2 f_equal. unfold n_tar in *. rewrite length_replicate in Hlen.
  apply list_eq. intros k. rewrite list_lookup_fmap.
  destruct (decide (k < Z.to_nat (ntar o))%nat) as [Hk|Hk].
  - rewrite (Hlook k []) by by apply lookup_replicate_2.
    rewrite (proj2 (lookup_seqZ _ _ k (Z.of_nat k))) by lia. done.
  - rewrite (proj2 (lookup_ge_None _ k)) by lia.
    by rewrite lookup_seqZ_ge by lia.
Qed.

Lemma elem_of_column i rows t s :
  s ∈ column i rows t <-> exists k row, rows !! k = Some row /\ t ∈ row /\ s = i + Z.of_nat k.
Proof.
  revert i. induction rows as [|row rows IH]; intros i; simpl.
  - rewrite elem_of_nil. split; [done|]. by intros (k&row&Hk&_).
  - rewrite elem_of_app, IH, list_elem_of_fmap. setoid_rewrite list_elem_of_filter. split.
    + intros [(x&->&->&Hx)|(k&r&Hk&Hr&->)].
      * exists 0%nat, row. split_and!; [done|done|lia].
      * exists (S k), r. split_and!; [done|done|lia].
    + intros (k&r&Hk&Hr&->). destruct k as [|k]; simpl in Hk.
      * injection Hk as ->. left. exists t. split_and!; [lia|done|done].
      * right. exists k, r. split_and!; [done|done|lia].
Qed.

Lemma column_sorted i rows t : StronglySorted Z.le (column i rows t).
Proof.
  revert i. induction rows as [|row rows IH]; intros i; simpl; [constructor|].
  apply StronglySorted_app_2; [|induction (filter _ row); csimpl; constructor; [done|]|apply IH].
  - intros a b (x&->&_)%list_elem_of_fmap (k&r&_&_&->)%elem_of_column. lia.
  - apply Forall_fmap, Forall_true. intros x. cbn. lia.
Qed.

Lemma count_occ_filter_const (row : list Z) (i t x : Z) :
  count_occ Z.eq_dec ((fun _ => i) <$> filter (fun s => s = t) row) x =
  if decide (x = i) then count_occ Z.eq_dec row t else 0%nat.
Proof.
  induction row as [|s row IH]; [by case_decide|]. rewrite filter_cons. simpl.
  destruct (Z.eq_dec s t), (decide (s = t)); try done; csimpl; rewrite IH.
  destruct (Z.eq_dec i x); case_decide; done || congruence.
Qed.

Lemma count_occ_column i rows t x :
  count_occ Z.eq_dec (column i rows t) x =
  match rows !! Z.to_nat (x - i) with
  | Some row => if decide (i <= x) then count_occ Z.eq_dec row t else 0%nat
  | None => 0%nat
  end.
Proof.
  revert i. induction rows as [|row rows IH]; intros i; [done|]. cbn [column].
  rewrite count_occ_app, count_occ_filter_const, IH. destruct (decide (x = i)) as [->|Hx].
  - rewrite Z.sub_diag. change ((row :: rows) !! Z.to_nat 0) with (Some row).
    cbv iota. rewrite (decide_True (P := i <= i)) by lia. destruct (rows !! _); [|lia]. rewrite decide_False by lia. lia.
  - destruct (decide (i < x)) as [Hlt|Hge].
    + replace (Z.to_nat (x - i)) with (S (Z.to_nat (x - (i + 1)))) by lia.
      rewrite <- lookup_tail. cbn [tail]. destruct (rows !! _); [|done]. by rewrite !decide_True by lia.
    + replace (Z.to_nat (x - i)) with 0%nat by lia. change ((row :: rows) !! 0%nat) with (Some row).
      cbv iota. rewrite (decide_False (P := i <= x)) by lia. destruct (rows !! _); [|done]. by rewrite decide_False by lia.
Qed.

(** A sorted list with the elements of a row is the sorted row. *)
Lemma sorted_row_eq (l row : list Z) : StronglySorted Z.le l -> l ≡ₚ row -> l = sort_tars row.
Proof.
  intros Hs Hp. apply (StronglySorted_unique Z.le); [done| |].
  - apply StronglySorted_merge_sort; apply _.
  - unfold sort_tars. by rewrite merge_sort_Permutation.
Qed.

Lemma elem_of_visit a s t :
  (s, t) ∈ visit a <-> exists k row, sa a !! k = Some row /\ s = Z.of_nat k /\ t ∈ row.
Proof.
  unfold visit. rewrite list_elem_of_join. split.
  - intros (ps&Hp&Hps). apply elem_of_lookup_imap in Hps as (k&row&->&Hk).
    apply list_elem_of_fmap in Hp as (t'&[= -> ->]&Ht). by exists k, row.
  - intros (k&row&Hk&->&Ht). eexists. split; [|apply elem_of_lookup_imap; by exists k, row].
    apply list_elem_of_fmap. by exists t.
Qed.

(** ** Offsets *)

Fixpoint sum_list (l : list Z) : Z := match l with [] => 0 | x :: l => x + sum_list l end.

Lemma sum_list_nonneg l : Forall (Z.le 0) l -> 0 <= sum_list l.
Proof. induction 1; simpl; lia. Qed.

(** Without overflow, the offset of a position with length [len] leaves room for
    [len] more positions before the sum. *)
Lemma cumulative_offsets_spec base lens :
  0 <= base -> Forall (Z.le 0) lens -> base + sum_list lens < 4294967296 ->
  (cumulative_offsets base lens).2 = base + sum_list lens /\
  length (cumulative_offsets base lens).1 = length lens /\
  forall k len, lens !! k = Some len -> exists off, (cumulative_offsets base lens).1 !! k = Some off /\
    off = base + sum_list (take k lens) /\ off + len <= base + sum_list lens.
Proof.
  intros Hb Hl. revert base Hb. induction Hl as [|delta lens Hd Hl IH]; intros base Hb Hsum.
  { simpl. split_and!; [lia|done|done]. }
  pose proof (sum_list_nonneg lens Hl). cbn [cumulative_offsets sum_list fst snd length] in *.
  rewrite u32_small by lia. destruct (IH (base + delta)) as (H1&H2&H3); [lia|lia|].
  split_and!; [lia|lia|]. intros [|k] len Hk; cbn in Hk.
  - injection Hk as <-. exists base. split_and!; [done|simpl; lia|lia].
  - destruct (H3 k len Hk) as (off&Hoff&->&Hle). eexists. split; [exact Hoff|]. simpl. lia.
Qed.

Lemma sum_list_ones n : sum_list (replicate n 1) = Z.of_nat n.
Proof. induction n; simpl; lia. Qed.

(** ** Rows *)

Lemma set_lengths_spec row len lens :
  row_ok (Z.of_nat (length lens)) row ->
  exists lens', set_lengths row len lens = Some lens' /\ length lens' = length lens /\
    forall k x, lens !! k = Some x -> lens' !! k = Some (if decide (Z.of_nat k ∈ row) then len else x).
Proof.
  revert lens. induction row as [|i row IH]; intros lens Hok.
  { exists lens. split_and!; [done|done|]. intros k x Hk. by rewrite decide_False by apply not_elem_of_nil. }
  apply Forall_cons in Hok as [Hi Hok]. cbn [set_lengths].
  destruct (lookup_lt_is_Some_2 lens (Z.to_nat i) ltac:(lia)) as [y ->]. cbn [mbind option_bind].
  destruct (IH (<[Z.to_nat i := len]> lens)) as (lens'&->&Hlen&Hlook); [by rewrite length_insert|].
  rewrite length_insert in Hlen. exists lens'. split_and!; [done|done|]. intros k x Hk.
  destruct (decide (Z.of_nat k = i)) as [<-|Hne].
  - rewrite (decide_True (P := Z.of_nat k ∈ Z.of_nat k :: row)) by left. rewrite (Hlook k len); [by case_decide|].
    rewrite Nat2Z.id. apply list_lookup_insert_eq. by eapply lookup_lt_Some.
  - rewrite (Hlook k x) by by rewrite list_lookup_insert_ne by lia.
    assert (Z.of_nat k ∈ i :: row <-> Z.of_nat k ∈ row) as Hiff by (rewrite elem_of_cons; naive_solver).
    do 2 case_decide; tauto.
Qed.

(** Appending a row keeps targets below [n], when the offsets do. *)
Lemma append_remap_ok n t offs rows :
  (forall x, x ∈ t -> exists off, offs !! Z.to_nat x = Some off /\ 0 <= off < n) ->
  Forall (row_ok n) rows ->
  exists rows', append_remap t offs rows = Some rows' /\ Forall (row_ok n) rows' /\
    length rows' = (length rows + 1)%nat.
Proof.
  intros Ht Hrows. unfold append_remap.
  assert (exists b, mapM (fun i => offs !! Z.to_nat i) t = Some b /\ row_ok n b) as (b&->&Hb).
  { clear Hrows. induction t as [|x t IH]; [by exists []; split; [|constructor]|].
    destruct (Ht x ltac:(left)) as (off&Hoff&Hr).
    destruct IH as (b&Hb&Hok); [intros y Hy; apply Ht; by right|].
    exists (off :: b). cbn [mapM]. rewrite Hoff. cbn [mbind option_bind]. rewrite Hb. by split; [|constructor]. }
  eexists. split; [done|]. split; [by apply Forall_app_2, Forall_singleton|]. by rewrite length_app.
Qed.

Lemma append_offset_loop_ok n m s parent offs b :
  0 <= n < 4294967296 -> row_ok m s ->
  (forall x, x ∈ parent -> exists off, offs !! Z.to_nat x = Some off /\ 0 <= off /\ off + m <= n) ->
  row_ok n b -> exists b', append_offset_loop s parent offs b = Some b' /\ row_ok n b'.
Proof.
  intros Hn Hs. revert b. induction parent as [|t parent IH]; intros b Hp Hb; [by exists b|].
  destruct (Hp t ltac:(left)) as (off&Hoff&Hr). cbn [append_offset_loop]. rewrite Hoff.
  cbn [mbind option_bind]. apply IH; [intros x Hx; apply Hp; by right|].
  apply Forall_app_2; [done|]. apply Forall_fmap. eapply Forall_impl; [exact Hs|].
  intros x Hx. cbn in *. rewrite u32_small by lia. lia.
Qed.

Lemma append_offset_ok n m parent vrows offs rows :
  0 <= n < 4294967296 -> Forall (row_ok m) vrows ->
  (forall x, x ∈ parent -> exists off, offs !! Z.to_nat x = Some off /\ 0 <= off /\ off + m <= n) ->
  Forall (row_ok n) rows ->
  exists rows', append_offset parent vrows offs rows = Some rows' /\ Forall (row_ok n) rows' /\
    length rows' = (length rows + length vrows)%nat.
Proof.
  intros Hn Hv Hp. revert rows. induction Hv as [|s vrows Hs Hv IH]; intros rows Hrows.
  { exists rows. split_and!; [done|done|simpl; lia]. }
  cbn [append_offset].
  destruct (append_offset_loop_ok n m s parent offs [] Hn Hs Hp) as (b&->&Hb); [constructor|].
  cbn [mbind option_bind].
  destruct (IH (rows ++ [b])) as (rows'&->&Hok&Hlen); [by apply Forall_app_2, Forall_singleton|].
  exists rows'. split_and!; [done|done|]. rewrite Hlen, length_app. simpl. lia.
Qed.

(** ** The variables *)

(** How many target positions the substitution makes of position [t], and how
    many source positions of position [s]: the last substitution counts. *)
Definition target_length (a : alignment) (subs : list substitution) (t : Z) : Z :=
  foldl (fun len p => match sa a !! Z.to_nat p.2 with
                      | Some row => if decide (t ∈ row) then n_tar p.1 else len
                      | None => len end) 1 subs.

Definition substituted (subs : list substitution) (s : Z) : option alignment :=
  foldl (fun v p => if decide (p.2 = s) then Some p.1 else v) None subs.

(** Substitutions that the code asks for: a target position aligned with a
    variable is aligned with nothing else. *)
Definition suitable (a : alignment) (subs : list substitution) : Prop :=
  forall p k row row' t, p ∈ subs -> p.2 <> Z.of_nat k ->
    sa a !! Z.to_nat p.2 = Some row -> sa a !! k = Some row' -> t ∈ row -> t ∉ row'.

Definition substitution_ok (a : alignment) (p : substitution) : Prop :=
  alignment_ok p.1 /\ 0 <= p.2 < n_src a.

Lemma subst_loop_spec a subs lens src_vars :
  alignment_ok a -> Forall (substitution_ok a) subs ->
  length lens = Z.to_nat (ntar a) -> length src_vars = length (sa a) ->
  exists lens' src_vars', subst_loop a subs lens src_vars = Some (Ok (lens', src_vars')) /\
    length lens' = length lens /\ length src_vars' = length src_vars /\
    (forall k x, lens !! k = Some x ->
       lens' !! k = Some (foldl (fun len p => match sa a !! Z.to_nat p.2 with
                            | Some row => if decide (Z.of_nat k ∈ row) then n_tar p.1 else len
                            | None => len end) x subs)) /\
    (forall k v, src_vars !! k = Some v ->
       src_vars' !! k = Some (foldl (fun v p => if decide (p.2 = Z.of_nat k) then Some p.1 else v) v subs)).
Proof.
  intros Ha. revert lens src_vars. induction subs as [|[v t] subs IH]; intros lens src_vars Hs Hl Hv.
  { exists lens, src_vars. split_and!; try done. }
  apply Forall_cons in Hs as [[Hvok Ht] Hs]. cbn [fst snd] in *. cbn [subst_loop].
  unfold alignment_in_range. rewrite (proj2 (Z.leb_gt _ _)) by lia.
  rewrite (n_src_length a Ha) in Ht.
  destruct (lookup_lt_is_Some_2 (sa a) (Z.to_nat t) ltac:(lia)) as [row Hrow]. rewrite Hrow.
  cbn [mbind option_bind]. pose proof Ha as [Hta _ Hrows].
  destruct (set_lengths_spec row (n_tar v) lens) as (lens1&->&Hlen1&Hlook1).
  { rewrite Hl, Z2Nat.id by lia. rewrite Forall_lookup in Hrows. by eapply Hrows. }
  cbn [mbind option_bind].
  destruct (IH lens1 (<[Z.to_nat t := Some v]> src_vars) Hs) as (lens2&vars2&->&H1&H2&H3&H4);
    [lia|by rewrite length_insert|].
  rewrite length_insert in H2. exists lens2, vars2. split_and!; [done|lia|lia| |].
  - intros k x Hk. rewrite (H3 k _ (Hlook1 k x Hk)). cbn [foldl fst snd]. by rewrite Hrow.
  - intros k w Hk. cbn [foldl fst snd]. case_decide as Heq.
    + apply H4. replace (Z.to_nat t) with k by lia. apply list_lookup_insert_eq. by eapply lookup_lt_Some.
    + apply H4. by rewrite list_lookup_insert_ne by lia.
Qed.

(** A target position of a source position has the length of its variable. *)
Lemma target_length_substituted a subs k row t :
  suitable a subs -> Forall (substitution_ok a) subs -> sa a !! k = Some row -> t ∈ row ->
  target_length a subs t = match substituted subs (Z.of_nat k) with Some v => n_tar v | None => 1 end.
Proof.
  intros Hsuit Hok Hk Ht. revert Hsuit Hok. induction subs as [|p subs IH] using rev_ind; [done|].
  intros Hsuit Hok. apply Forall_app in Hok as [Hok Hp].
  apply Forall_singleton in Hp as [_ Hp].
  assert (IH' : target_length a subs t =
                match substituted subs (Z.of_nat k) with Some v => n_tar v | None => 1 end).
  { apply IH; [|done]. intros q k' r r' x Hq. apply Hsuit. apply elem_of_app. by left. }
  unfold target_length, substituted in *. rewrite !foldl_app. cbn [foldl].
  case_decide as Heq.
  - rewrite Heq, Nat2Z.id, Hk. by rewrite decide_True.
  - destruct (sa a !! Z.to_nat p.2) as [row'|] eqn:Hr; [|exact IH'].
    rewrite decide_False; [exact IH'|]. intros Hin.
    apply (Hsuit p k row' row t); [apply elem_of_app; right; left|done..].
Qed.

Lemma target_length_nonneg a subs t :
  Forall (substitution_ok a) subs -> 0 <= target_length a subs t.
Proof.
  unfold target_length. assert (H : 0 <= 1) by lia. revert H. generalize 1.
  induction subs as [|p subs IH]; intros x Hx Hs; [done|]. apply Forall_cons in Hs as [[Hp _] Hs].
  cbn [foldl]. apply IH; [|done]. destruct Hp as [Hp _ _]. unfold n_tar.
  destruct (sa a !! _); [case_decide|]; lia.
Qed.

Lemma substituted_rows a subs s v :
  Forall (substitution_ok a) subs -> substituted subs s = Some v -> Forall (row_ok (ntar v)) (sa v).
Proof.
  intros Hs. induction subs as [|p subs IH] using rev_ind; [done|].
  apply Forall_app in Hs as [Hs Hp]. apply Forall_singleton in Hp as [Hp _].
  unfold substituted in *. rewrite foldl_app. cbn [foldl]. case_decide; [|by apply IH].
  intros [= <-]. apply Hp.
Qed.

(** What the row of a source position needs of the offsets. *)
Definition row_fits (n : Z) (offs row : list Z) (ov : option alignment) : Prop :=
  match ov with
  | Some v => Forall (row_ok (ntar v)) (sa v) /\
      forall x, x ∈ row -> exists off, offs !! Z.to_nat x = Some off /\ 0 <= off /\ off + ntar v <= n
  | None => forall x, x ∈ row -> exists off, offs !! Z.to_nat x = Some off /\ 0 <= off < n
  end.

Definition source_length (ov : option alignment) : Z :=
  match ov with Some v => Z.of_nat (length (sa v)) | None => 1 end.

Lemma append_loop_ok n srows src_vars offs rows :
  0 <= n < 4294967296 -> Forall2 (row_fits n offs) srows src_vars -> Forall (row_ok n) rows ->
  exists rows', append_loop srows src_vars offs rows = Some rows' /\ Forall (row_ok n) rows' /\
    Z.of_nat (length rows') = Z.of_nat (length rows) + sum_list (source_length <$> src_vars).
Proof.
  intros Hn Hfit. revert rows. induction Hfit as [|row ov srows src_vars Hrow Hfit IH]; intros rows Hrows.
  { exists rows. split_and!; [done|done|simpl; lia]. }
  cbn [append_loop]. csimpl. destruct ov as [v|].
  - destruct Hrow as [Hv Hrow].
    destruct (append_offset_ok n (ntar v) row (sa v) offs rows Hn Hv Hrow Hrows) as (rows1&->&Hok&Hlen).
    cbn [mbind option_bind]. destruct (IH rows1 Hok) as (rows2&->&Hok2&Hlen2).
    exists rows2. split_and!; [done|done|]. simpl. lia.
  - destruct (append_remap_ok n row offs rows Hrow Hrows) as (rows1&->&Hok&Hlen).
    cbn [mbind option_bind]. destruct (IH rows1 Hok) as (rows2&->&Hok2&Hlen2).
    exists rows2. split_and!; [done|done|]. simpl. lia.
Qed.

Lemma seqZ_fmap_eq {A} (f : Z -> A) (l : list A) n :
  length l = Z.to_nat n -> (forall k, (k < length l)%nat -> l !! k = Some (f (Z.of_nat k))) ->
  l = f <$> seqZ 0 n.
Proof.
  intros Hl Hk. apply list_eq. intros k. rewrite list_lookup_fmap.
  destruct (decide (k < length l)%nat).
  - rewrite Hk, lookup_seqZ_lt by lia. done.
  - rewrite lookup_ge_None_2, lookup_seqZ_ge by lia. done.
Qed.

(** The loop over the substitutions, from the initial vectors. *)
Lemma subst_loop_init a subs :
  alignment_ok a -> Forall (substitution_ok a) subs ->
  subst_loop a subs (replicate (Z.to_nat (n_tar a)) 1) (replicate (Z.to_nat (n_src a)) None) =
  Some (Ok (target_length a subs <$> seqZ 0 (ntar a), substituted subs <$> seqZ 0 (n_src a))).
Proof.
  intros Ha Hs. pose proof (n_src_length a Ha) as Hns. pose proof (al_tar a Ha).
  destruct (subst_loop_spec a subs (replicate (Z.to_nat (n_tar a)) 1) (replicate (Z.to_nat (n_src a)) None)
    Ha Hs) as (lens&vars&->&H1&H2&H3&H4); [by rewrite length_replicate|rewrite length_replicate; lia|].
  rewrite length_replicate in H1. rewrite length_replicate in H2. do 3 f_equal.
  - apply seqZ_fmap_eq; [done|]. intros k Hk. apply H3, lookup_replicate_2. lia.
  - apply seqZ_fmap_eq; [done|]. intros k Hk. apply H4, lookup_replicate_2. lia.
Qed.

(** The rows of the inverse of a well-formed alignment. *)
Definition inverse_of (o : alignment) : alignment :=
  mk_alignment (n_src o) (column 0 (sa o) <$> seqZ 0 (ntar o)).

Lemma inverse_of_lookup o k row :
  sa (inverse_of o) !! k = Some row -> row = column 0 (sa o) (Z.of_nat k) /\ Z.of_nat k < ntar o.
Proof.
  cbn. rewrite list_lookup_fmap. intros (z&[-> Hz]%lookup_seqZ&->)%fmap_Some. by split.
Qed.

Lemma inverse_of_ok o : alignment_ok o -> alignment_ok (inverse_of o).
Proof.
  intros Ho. pose proof Ho as [Ht Hs _]. pose proof (n_src_length o Ho) as Hns.
  split; [cbn; lia|cbn; rewrite length_fmap, length_seqZ; lia|].
  apply Forall_lookup. intros k row [-> _]%inverse_of_lookup.
  apply Forall_forall. intros s (j&r&Hj&_&->)%elem_of_column. apply lookup_lt_Some in Hj. cbn. lia.
Qed.

Lemma row_ok_elem n row t : row_ok n row -> t ∈ row -> 0 <= t < n.
Proof. unfold row_ok. rewrite Forall_forall. auto. Qed.

(** The columns of the columns are the sorted rows. *)
Lemma column_twice o k row :
  alignment_ok o -> sa o !! k = Some row ->
  column 0 (sa (inverse_of o)) (Z.of_nat k) = sort_tars row.
Proof.
  intros [Ht Hs Hr] Hrow. rewrite Forall_lookup in Hr. pose proof (Hr _ _ Hrow) as Hok. cbn.
  apply sorted_row_eq; [apply column_sorted|]. apply (Permutation_count_occ Z.eq_dec). intros x.
  rewrite count_occ_column, Z.sub_0_r, list_lookup_fmap. destruct (decide (0 <= x < ntar o)) as [Hx|Hx].
  - rewrite lookup_seqZ_lt by lia. cbn. rewrite decide_True by lia. rewrite Z2Nat.id by lia.
    rewrite count_occ_column, Z.sub_0_r, Nat2Z.id, Hrow. by rewrite decide_True by lia.
  - rewrite (proj1 (count_occ_not_In Z.eq_dec row x)).
    2: { intros Hin%list_elem_of_In. by apply Hx, (row_ok_elem _ row). }
    destruct (decide (0 <= x)); [by rewrite lookup_seqZ_ge by lia|].
    by destruct (seqZ 0 (ntar o) !! Z.to_nat x).
Qed.

(** ** Unit substitutions *)

Lemma cumulative_offsets_ones base n :
  0 <= base -> base + Z.of_nat n < 4294967296 ->
  cumulative_offsets base (replicate n 1) = (seqZ base (Z.of_nat n), base + Z.of_nat n).
Proof.
  revert base. induction n as [|n IH]; intros base Hb Hn; cbn [replicate cumulative_offsets].
  { by rewrite Z.add_0_r. }
  rewrite u32_small, IH by lia. rewrite (seqZ_cons base (Z.of_nat (S n))) by lia. cbn [fst snd].
  f_equal; [|lia]. by replace (Z.pred (Z.of_nat (S n))) with (Z.of_nat n) by lia.
Qed.

Lemma append_remap_id n row rows :
  row_ok n row -> append_remap row (seqZ 0 n) rows = Some (rows ++ [row]).
Proof.
  intros Hr. unfold append_remap.
  assert (mapM (fun i => seqZ 0 n !! Z.to_nat i) row = Some row) as ->; [|done].
  induction Hr as [|x row Hx Hr IH]; [done|]. cbn [mapM]. rewrite lookup_seqZ_lt, IH by lia.
  cbn. do 2 f_equal. lia.
Qed.

Lemma append_offset_unit n row rows :
  0 <= n < 4294967296 -> row_ok n row ->
  append_offset row [[0]] (seqZ 0 n) rows = Some (rows ++ [row]).
Proof.
  intros Hn Hr. cbn [append_offset].
  assert (forall b, append_offset_loop [0] row (seqZ 0 n) b = Some (b ++ row)) as H; [|by rewrite H].
  induction Hr as [|x row Hx Hr IH]; intros b; [by rewrite app_nil_r|]. cbn [append_offset_loop].
  rewrite lookup_seqZ_lt by lia. cbn [mbind option_bind]. rewrite IH. unfold append_offset_row. csimpl.
  rewrite u32_small by lia. rewrite <- app_assoc. simpl. do 3 f_equal. lia.
Qed.

Lemma append_loop_id n srows src_vars rows :
  0 <= n < 4294967296 -> Forall (row_ok n) srows -> length src_vars = length srows ->
  Forall (fun ov => ov = None \/ ov = Some unit_alignment) src_vars ->
  append_loop srows src_vars (seqZ 0 n) rows = Some (rows ++ srows).
Proof.
  intros Hn Hs. revert src_vars rows. induction Hs as [|row srows Hr Hs IH];
    intros [|ov src_vars] rows Hlen Hv; try done; [by rewrite app_nil_r|].
  apply Forall_cons in Hv as [Hov Hv]. injection Hlen as Hlen.
  cbn [append_loop]. destruct Hov as [->| ->].
  - rewrite (append_remap_id n row rows Hr). cbn [mbind option_bind]. rewrite IH by done.
    by rewrite <- app_assoc.
  - change (sa unit_alignment) with [[0]]. rewrite (append_offset_unit n row rows Hn Hr). cbn [mbind option_bind]. rewrite IH by done.
    by rewrite <- app_assoc.
Qed.

Lemma target_length_unit a subs n :
  Forall (fun p => p.1 = unit_alignment) subs ->
  target_length a subs <$> seqZ 0 (Z.of_nat n) = replicate n 1.
Proof.
  intros Hu. assert (Hone : forall t, target_length a subs t = 1).
  { intros t. unfold target_length. induction Hu as [|p subs Hp Hu IH]; [done|]. cbn [foldl].
    rewrite Hp. by destruct (sa a !! _); [case_decide|]. }
  apply list_eq. intros k. rewrite list_lookup_fmap. destruct (decide (k < n)%nat).
  - rewrite lookup_seqZ_lt, lookup_replicate_2 by lia. apply (f_equal Some), Hone.
  - rewrite lookup_seqZ_ge, lookup_ge_None_2 by (rewrite ?length_replicate; lia). done.
Qed.

Lemma substituted_unit subs s :
  Forall (fun p => p.1 = unit_alignment) subs ->
  substituted subs s = None \/ substituted subs s = Some unit_alignment.
Proof.
  intros Hu. unfold substituted. induction subs as [|p subs IH] using rev_ind; [by left|].
  apply Forall_app in Hu as [Hu Hp]. apply Forall_cons in Hp as [Hp _]. rewrite foldl_app. cbn [foldl].
  destruct (decide (p.2 = s)); [right; exact (f_equal Some Hp)|by apply IH].
Qed.

(** * Properties *)

(** Inverting an alignment of well-formed indices never goes out of range,
    swaps source and target in every aligned pair, and inverting twice gives an
    alignment that is [==] to the original one. *)
Theorem set_inverse_involutive (o : alignment) :
  alignment_ok o -> exists a b, set_inverse o = Some a /\ set_inverse a = Some b /\
    n_src a = n_tar o /\ n_tar a = n_src o /\
    (forall s t, (t, s) ∈ visit a <-> (s, t) ∈ visit o) /\ (alignment_eq b o).1.1 = true.
Proof.
  intros Ho. pose proof Ho as [Ht Hs Hr]. pose proof (inverse_of_ok o Ho) as Ha.
  pose proof (n_src_length o Ho) as Hns. pose proof (n_src_length _ Ha) as Hna.
  assert (Hnt : n_src (inverse_of o) = n_tar o).
  { rewrite Hna. cbn. rewrite length_fmap, length_seqZ. unfold n_tar. lia. }
  exists (inverse_of o), (inverse_of (inverse_of o)).
  split; [by apply set_inverse_eq|]. split; [by apply set_inverse_eq|]. do 2 (split; [done|]). split.
  - intros s t. rewrite !elem_of_visit. split.
    + intros (k&row&[-> _]%inverse_of_lookup&->&(j&r&Hj&Hin&->)%elem_of_column). by exists j, r.
    + intros (k&row&Hk&->&Hin). rewrite Forall_lookup in Hr.
      pose proof (row_ok_elem _ _ _ (Hr _ _ Hk) Hin) as Hb.
      exists (Z.to_nat t), (column 0 (sa o) t). split_and!; [|lia|apply elem_of_column; by exists k, row].
      cbn. rewrite list_lookup_fmap, lookup_seqZ_lt by lia. cbn. by rewrite Z2Nat.id by lia.
  - apply andb_true_intro. split; [apply Z.eqb_eq, Hnt|]. apply bool_decide_eq_true.
    change (sort_tars <$> (column 0 (sa (inverse_of o)) <$> seqZ 0 (n_src o)) = sort_tars <$> sa o).
    apply list_eq. intros k.
    rewrite !list_lookup_fmap. destruct (decide (k < length (sa o))%nat) as [Hk|Hk].
    2: { by rewrite lookup_seqZ_ge, lookup_ge_None_2 by lia. }
    destruct (lookup_lt_is_Some_2 (sa o) k Hk) as [row Hrow].
    rewrite Hrow, lookup_seqZ_lt by lia. cbn [fmap option_fmap option_map]. f_equal.
    rewrite Z.add_0_l, (column_twice o k row Ho Hrow). symmetry. apply sorted_row_eq; [|done].
    apply StronglySorted_merge_sort; apply _.
Qed.

(** Substituting well-formed alignments into a well-formed one whose variables
    are aligned with targets of their own never goes out of range: the result
    has as many source and target positions as its parts add up to, as long as
    these can be counted, and every aligned target is one of them. *)
Theorem alignment_subst_ok (a : alignment) (subs : list substitution) :
  alignment_ok a -> Forall (substitution_ok a) subs -> suitable a subs ->
  sum_list (target_length a subs <$> seqZ 0 (ntar a)) < 4294967296 ->
  exists r, alignment_subst a subs = Some (Ok r) /\
    n_tar r = sum_list (target_length a subs <$> seqZ 0 (ntar a)) /\
    Z.of_nat (length (sa r)) = sum_list (source_length ∘ substituted subs <$> seqZ 0 (n_src a)) /\
    Forall (row_ok (n_tar r)) (sa r).
Proof.
  intros Ha Hs Hsuit Hsum. unfold alignment_subst, substitute_into.
  pose proof (n_src_length a Ha) as Hns. pose proof (al_tar a Ha) as Hta.
  destruct (alignment_is_null a) eqn:Hnull.
  { apply andb_prop in Hnull as [Hn0 Hs0%bool_decide_eq_true].
    exists set_null_alignment. rewrite Hns, Hs0. replace (ntar a) with 0 by lia. by split_and!. }
  rewrite (subst_loop_init a subs Ha Hs). cbn [rbind].
  set (lens := target_length a subs <$> seqZ 0 (ntar a)) in *.
  assert (Hlens : Forall (Z.le 0) lens).
  { apply Forall_fmap, Forall_true. intros t. by apply target_length_nonneg. }
  pose proof (sum_list_nonneg lens Hlens).
  destruct (cumulative_offsets_spec 0 lens) as (Htot&_&Hoff); [lia|done|lia|]. cbn [Z.add] in *.
  destruct (append_loop_ok (sum_list lens) (sa a) (substituted subs <$> seqZ 0 (n_src a))
    (cumulative_offsets 0 lens).1 []) as (rows&Hrows&Hok&Hlen); [lia| |constructor|].
  - apply Forall2_same_length_lookup. split; [rewrite length_fmap, length_seqZ; lia|].
    intros k row ov Hk Hov. rewrite list_lookup_fmap in Hov.
    apply fmap_Some in Hov as (z&[-> Hz]%lookup_seqZ&->). rewrite Z.add_0_l.
    assert (Hfit : forall x, x ∈ row -> exists off, (cumulative_offsets 0 lens).1 !! Z.to_nat x = Some off /\
              0 <= off /\ off + target_length a subs x <= sum_list lens).
    { intros x Hx. pose proof (al_rows a Ha) as Hrs. rewrite Forall_lookup in Hrs.
      pose proof (row_ok_elem _ _ _ (Hrs _ _ Hk) Hx) as Hb.
      destruct (Hoff (Z.to_nat x) (target_length a subs x)) as (off&Hof&->&Hle).
      { unfold lens. rewrite list_lookup_fmap, lookup_seqZ_lt by lia. cbn. by rewrite Z2Nat.id by lia. }
      eexists. split; [exact Hof|]. split; [|lia].
      pose proof (sum_list_nonneg (take (Z.to_nat x) lens) (Forall_take _ _ _ Hlens)). lia. }
    unfold row_fits. destruct (substituted subs (Z.of_nat k)) as [v|] eqn:Hv.
    + split; [by eapply substituted_rows|]. intros x Hx. specialize (Hfit x Hx).
      by rewrite (target_length_substituted a subs k row x Hsuit Hs Hk Hx), Hv in Hfit.
    + intros x Hx. destruct (Hfit x Hx) as (off&Hof&H0&Hle). exists off. split; [done|].
      rewrite (target_length_substituted a subs k row x Hsuit Hs Hk Hx), Hv in Hle. lia.
  - cbv zeta. change (sa alignment_default) with (@nil (list Z)). rewrite Hrows.
    cbn [mbind option_bind]. eexists. split; [done|]. unfold n_tar. cbn [ntar sa].
    rewrite Htot. split; [done|]. split; [|done]. rewrite Hlen. cbn. by rewrite <- list_fmap_compose.
Qed.

(** The unit alignment that [set_unit] makes is a unit of substitution: put
    in for any source positions it changes nothing. *)
Theorem alignment_subst_unit (a : alignment) (subs : list substitution) :
  alignment_ok a -> Forall (fun p => set_unit = Some (Ok p.1) /\ 0 <= p.2 < n_src a) subs ->
  alignment_subst a subs = Some (Ok a).
Proof.
  intros Ha Hu. pose proof (al_tar a Ha) as Hta. pose proof (n_src_length a Ha) as Hns.
  assert (Hu1 : Forall (fun p => p.1 = unit_alignment) subs).
  { eapply Forall_impl; [exact Hu|]. intros p [Hp _]. vm_compute in Hp. by injection Hp. }
  assert (Hs : Forall (substitution_ok a) subs).
  { apply Forall_forall. intros p Hp. rewrite Forall_forall in Hu1, Hu.
    split; [rewrite (Hu1 p Hp)|by apply Hu]. split; [done|done|by repeat constructor]. }
  unfold alignment_subst, substitute_into. destruct (alignment_is_null a) eqn:Hnull.
  { apply andb_prop in Hnull as [Hn0 Hs0%bool_decide_eq_true]. destruct a as [n rows]. cbn in *.
    subst rows. by replace n with 0 by lia. }
  rewrite (subst_loop_init a subs Ha Hs). cbn [rbind].
  pose proof (target_length_unit a subs (Z.to_nat (ntar a)) Hu1) as Hlens.
  rewrite Z2Nat.id in Hlens by lia. rewrite Hlens.
  rewrite cumulative_offsets_ones by lia. cbn [fst snd]. rewrite Z2Nat.id by lia.
  rewrite append_loop_id; [|lia|apply Ha|rewrite length_fmap, length_seqZ; lia|].
  - cbn. by destruct a.
  - apply Forall_fmap, Forall_true. intros s. by apply substituted_unit.
Qed.

(** ** Examples: two source words, the first aligned with two target words *)

Definition sample_alignment : alignment := mk_alignment 3 [[2; 0]; [1]].

Lemma sample_alignment_ok : alignment_ok sample_alignment.
Proof. split; [done|done|]. repeat constructor; cbn; lia. Qed.

Lemma set_inverse_involutive_witness :
  set_inverse sample_alignment = Some (mk_alignment 2 [[0]; [1]; [0]]) /\
  exists b, set_inverse (mk_alignment 2 [[0]; [1]; [0]]) = Some b /\
    (alignment_eq b sample_alignment).1.1 = true.
Proof.
  destruct (set_inverse_involutive sample_alignment sample_alignment_ok) as (a&b&Ha&Hb&_&_&_&Heq).
  assert (Ha' : set_inverse sample_alignment = Some (mk_alignment 2 [[0]; [1]; [0]]))
    by (vm_compute; reflexivity).
  split; [exact Ha'|]. exists b. split; [|exact Heq]. rewrite Ha' in Ha. injection Ha as <-. exact Hb.
Defined.

Lemma alignment_subst_ok_witness :
  exists r, alignment_subst sample_alignment [(sample_alignment, 1)] = Some (Ok r) /\ n_tar r = 5.
Proof.
  destruct (alignment_subst_ok sample_alignment [(sample_alignment, 1)]) as (r&Hr&Ht&_).
  - exact sample_alignment_ok.
  - repeat constructor; cbn; try lia.
  - intros p k row row' t Hp Hk Hrow Hrow' Ht Ht'. apply list_elem_of_singleton in Hp as ->.
    injection Hrow as <-. apply list_elem_of_singleton in Ht as ->.
    destruct k as [|[|k]]; cbn in Hrow'; [|done|done]. injection Hrow' as <-.
    repeat (apply elem_of_cons in Ht' as [Ht'|Ht']; [discriminate Ht'|]). by apply elem_of_nil in Ht'.
  - vm_compute. reflexivity.
  - exists r. split; [exact Hr|exact Ht].
Defined.

Lemma alignment_subst_unit_witness :
  alignment_subst sample_alignment [(unit_alignment, 0); (unit_alignment, 1)] =
  Some (Ok sample_alignment).
Proof.
  apply alignment_subst_unit; [exact sample_alignment_ok|].
  repeat constructor; vm_compute; intuition congruence.
Defined.
