(* ===== verification/Trie.v ===== *)
(** Tries: the concept that the tries of src/gusc/gusc/trie share, and the
    algorithms over it: traverse_trie.hpp, trie_algo.hpp, impl/trie_algo.ipp and
    [count] of impl/fixed_trie.ipp.

    The template parameter [Trie] is the class [TrieOps]: a trie [T] with states
    [S], which a type of tries implements in its own file.  [None] is undefined
    behaviour of the implementation (a state that is not one of the trie).

    The algorithms recurse along the transitions; fuel bounds the depth, and is
    enough when it is the height of the tree that a state unfolds to. *)
From S2P Require Import Prelude.
Open Scope Z_scope.

Class TrieOps (T St K V : Type) := {
  start : T -> St;
  transitions : T -> St -> option (list St);
  transition : T -> St -> K -> option (bool * St);
  state_key : T -> St -> option K;
  state_value : T -> St -> option V;
  nonvalue : T -> V
}.

(** * The algorithms *)

Section algorithms.
Context {T St K V : Type} `{!TrieOps T St K V}.
Implicit Types (t : T) (s : St).

(** [count(trie, s, internal, total)]; [Size] is [boost::uint32_t]. *)
Fixpoint count (fuel : nat) t s (internal total : Z) : option (Z * Z) :=
  match fuel with
  | O => None
  | S fuel =>
      let total := u32 (total + 1) in
      ss ← transitions t s;
      let internal := match ss with [] => internal | _ => u32 (internal + 1) end in
      foldl (fun r s' => p ← r; count fuel t s' p.1 p.2) (Some (internal, total)) ss
  end.

Record trie_find_result := mk_find_result {
  found : bool;
  pos : list K;
  state : St
}.

Fixpoint trie_find_loop t s (itr : list K) : option (list K * St) :=
  match itr with
  | [] => Some ([], s)
  | k :: rest =>
      p ← transition t s k;
      if (p.1 : bool) then trie_find_loop t p.2 rest else Some (itr, s)
  end.

(** [trie_find(trie, s, itr, end)]: [pos] is the part of the sequence left. *)
Definition trie_find `{!EqDecision V} t s (itr : list K) : option trie_find_result :=
  r ← trie_find_loop t s itr;
  match r.1 with
  | [] => v ← state_value t r.2; Some (mk_find_result (negb (bool_decide (v = nonvalue t))) [] r.2)
  | rest => Some (mk_find_result false rest r.2)
  end.

(** [trie_transition(trie, s, k, eq)], where [less k] is the functor [eq(k)]: the
    states between [std::lower_bound] and [std::upper_bound]. *)
Definition trie_transition (less : K -> K -> K -> bool) t s (k : K) : option (list St) :=
  ss ← transitions t s;
  let key_less p := match state_key t p with Some pk => less k pk k | None => false end in
  let not_greater p := match state_key t p with Some pk => negb (less k k pk) | None => false end in
  let low := lower_bound key_less ss in
  Some (take (lower_bound not_greater (drop low ss)) (drop low ss)).

(** [traverse_trie(trie, s, visit)]: the visitor may write to the trie. *)
Record visitor := mk_visitor {
  at_state : T -> St -> option T;
  begin_children : T -> St -> option T;
  end_children : T -> St -> option T
}.

Fixpoint traverse_trie (fuel : nat) (visit : visitor) t s : option T :=
  match fuel with
  | O => None
  | S fuel =>
      t ← at_state visit t s;
      t ← begin_children visit t s;
      ss ← transitions t s;
      t ← foldl (fun r s' => t ← r; traverse_trie fuel visit t s') (Some t) ss;
      end_children visit t s
  end.
End algorithms.

Section equal_trie.
Context {T1 St1 T2 St2 K V : Type} `{!TrieOps T1 St1 K V, !TrieOps T2 St2 K V}.
Context `{!EqDecision K, !EqDecision V}.

(** The loop over the two ranges of transitions. *)
Fixpoint equal_children (equal : St1 -> St2 -> option bool) (t1 : T1) (t2 : T2)
    (l1 : list St1) (l2 : list St2) : option bool :=
  match l1, l2 with
  | s1 :: l1, s2 :: l2 =>
      k1 ← state_key t1 s1;
      k2 ← state_key t2 s2;
      if decide (k1 = k2)
      then b ← equal s1 s2; if (b : bool) then equal_children equal t1 t2 l1 l2 else Some false
      else Some false
  | [], [] => Some true
  | [], _ => Some false
  | _, [] => None
  end.

(** [equal_trie(t1, s1, t2, s2)] *)
Fixpoint equal_trie (fuel : nat) (t1 : T1) (s1 : St1) (t2 : T2) (s2 : St2) : option bool :=
  match fuel with
  | O => None
  | S fuel =>
      v1 ← state_value t1 s1;
      v2 ← state_value t2 s2;
      if decide (v1 = v2) then
        l1 ← transitions t1 s1;
        l2 ← transitions t2 s2;
        if decide (length l1 = length l2)
        then equal_children (fun x y => equal_trie fuel t1 x t2 y) t1 t2 l1 l2
        else Some false
      else Some false
  end.
End equal_trie.

(** * What a trie is *)

(** The tree a state unfolds to: its value, and its children by key. *)
#[warnings="-register-all"]
Inductive tree (K V : Type) := Tree (v : V) (cs : list (K * tree K V)).
Arguments Tree {K V} v cs.

Definition tree_value {K V} (a : tree K V) : V := let 'Tree v _ := a in v.
Definition tree_children {K V} (a : tree K V) : list (K * tree K V) := let 'Tree _ cs := a in cs.

(** Induction with the hypothesis for every child. *)
Lemma tree_ind' {K V} (P : tree K V -> Prop) :
  (forall v cs, Forall (fun c => P c.2) cs -> P (Tree v cs)) -> forall a, P a.
Proof.
  intros H. fix IH 1. intros [v cs]. apply H.
  induction cs as [|[k a] cs IHcs]; constructor; [apply IH|exact IHcs].
Qed.

#[export] Instance tree_eq_dec {K V} `{!EqDecision K, !EqDecision V} : EqDecision (tree K V).
Proof.
  refine (fix go a b : Decision (a = b) :=
    let 'Tree v cs := a in
    let 'Tree w ds := b in
    match decide (v = w) with
    | left Hv =>
        match (fix go_list cs ds : Decision (cs = ds) :=
                 match cs, ds with
                 | [], [] => left eq_refl
                 | (k, a) :: cs, (k', b) :: ds =>
                     match decide (k = k'), go a b, go_list cs ds with
                     | left Hk, left Hab, left Hcs => left _
                     | _, _, _ => right _
                     end
                 | _, _ => right _
                 end) cs ds with
        | left Hcs => left _
        | right Hcs => right _
        end
    | right Hv => right _
    end); congruence.
Defined.

Fixpoint tree_height {K V} (a : tree K V) : nat :=
  let 'Tree _ cs := a in S (foldr (fun c n => Nat.max (tree_height c.2) n) 0%nat cs).

Fixpoint tree_map {K V W} (f : V -> W) (a : tree K V) : tree K W :=
  let 'Tree v cs := a in Tree (f v) (map (fun c => (c.1, tree_map f c.2)) cs).

(** The states, and the states with children. *)
Fixpoint tree_nodes {K V} (a : tree K V) : Z :=
  let 'Tree _ cs := a in 1 + foldr (fun c n => tree_nodes c.2 + n) 0 cs.
Fixpoint tree_internal {K V} (a : tree K V) : Z :=
  let 'Tree _ cs := a in
  match cs with [] => 0 | _ => 1 end + foldr (fun c n => tree_internal c.2 + n) 0 cs.


(** Looking a key sequence up: the value at its end. *)
Section tree_lookup.
Context {K V : Type} `{!EqDecision K}.

Fixpoint tree_child (k : K) (cs : list (K * tree K V)) : option (tree K V) :=
  match cs with
  | [] => None
  | c :: cs => if decide (c.1 = k) then Some c.2 else tree_child k cs
  end.

(** The longest part of the sequence that is a path, what is left, and the tree
    at its end. *)
Fixpoint tree_descend (a : tree K V) (path : list K) : list K * tree K V :=
  match path with
  | [] => ([], a)
  | k :: rest => match tree_child k (tree_children a) with
                 | Some b => tree_descend b rest
                 | None => (path, a)
                 end
  end.

Definition tree_lookup (a : tree K V) (path : list K) : option V :=
  match tree_descend a path with ([], b) => Some (tree_value b) | _ => None end.
End tree_lookup.

Definition keys_sorted {K} (key_less : K -> K -> bool) : list K -> Prop :=
  StronglySorted (fun x y => key_less x y = true).

Section unfolds.
Context {T St K V : Type} `{!TrieOps T St K V} (t : T).

(** [s] is the root of [a] in [t]. *)
#[warnings="-register-all"]
Inductive unfolds : St -> tree K V -> Prop :=
  | unfolds_tree s v ss cs :
      state_value t s = Some v -> transitions t s = Some ss ->
      Forall2 (fun s' c => state_key t s' = Some c.1) ss cs ->
      Forall2 (fun s' c => unfolds s' c.2) ss cs ->
      unfolds s (Tree v cs).

(** What the members [transitions] and [transition] promise each other, in a
    trie whose transitions are in the order of their keys. *)
Class TrieLaws (key_less : K -> K -> bool) : Prop := {
  transition_law s ss ks k :
    transitions t s = Some ss -> Forall2 (fun s' k' => state_key t s' = Some k') ss ks ->
    keys_sorted key_less ks ->
    (exists i s', ks !! i = Some k /\ ss !! i = Some s' /\ transition t s k = Some (true, s')) \/
    ((k ∉ ks) /\ transition t s k = Some (false, start t))
}.
End unfolds.

(** Every state has its children in the order of their keys. *)
#[warnings="-register-all"]
Inductive tree_sorted {K V} (key_less : K -> K -> bool) : tree K V -> Prop :=
  | tree_sorted_node v cs :
      keys_sorted key_less cs.*1 ->
      Forall (fun c => tree_sorted key_less c.2) cs ->
      tree_sorted key_less (Tree v cs).

(** * Lemmas *)

Lemma tree_height_child {K V} (v : V) (cs : list (K * tree K V)) c :
  c ∈ cs -> (tree_height c.2 < tree_height (Tree v cs))%nat.
Proof.
  intros Hc. cbn [tree_height]. induction cs as [|d cs IH]; [by apply not_elem_of_nil in Hc|].
  cbn [foldr]. apply elem_of_cons in Hc as [<-|Hc]; [lia|]. specialize (IH Hc). lia.
Qed.

Lemma tree_nodes_pos {K V} (a : tree K V) : 1 <= tree_nodes a /\ 0 <= tree_internal a <= tree_nodes a.
Proof.
  induction a as [v cs IH] using tree_ind'. cbn [tree_nodes tree_internal].
  assert (0 <= foldr (fun c n => tree_nodes c.2 + n) 0 cs /\
          0 <= foldr (fun c n => tree_internal c.2 + n) 0 cs <= foldr (fun c n => tree_nodes c.2 + n) 0 cs).
  { induction IH as [|c cs Hc _ IHcs]; cbn [foldr]; lia. }
  destruct cs; lia.
Qed.

Section child_lemmas.
Context {K V : Type} `{!EqDecision K} (key_less : K -> K -> bool) `{!StrictTotal key_less}.

Lemma tree_child_Some k (cs : list (K * tree K V)) a :
  tree_child k cs = Some a -> exists i, cs !! i = Some (k, a).
Proof.
  induction cs as [|[k' b] cs IH]; [done|]. cbn. case_decide as E.
  - intros [= <-]. exists 0%nat. by rewrite <- E.
  - intros [i Hi]%IH. by exists (S i).
Qed.

Lemma tree_child_None k (cs : list (K * tree K V)) : tree_child k cs = None <-> (k ∉ cs.*1).
Proof.
  induction cs as [|[k' b] cs IH]; [split; [intros _; apply not_elem_of_nil|done]|].
  cbn. rewrite not_elem_of_cons. case_decide; [naive_solver|]. rewrite IH. naive_solver.
Qed.

Lemma sorted_keys_inj (ks : list K) i j k :
  keys_sorted key_less ks -> ks !! i = Some k -> ks !! j = Some k -> i = j.
Proof.
  intros Hs Hi Hj. destruct (lt_eq_lt_dec i j) as [[Hlt| ->]|Hlt]; [|done|].
  - pose proof (StronglySorted_lookup_lt _ _ _ _ _ _ Hs Hi Hj Hlt) as H.
    cbn in H. by rewrite sw_irrefl in H.
  - pose proof (StronglySorted_lookup_lt _ _ _ _ _ _ Hs Hj Hi Hlt) as H.
    cbn in H. by rewrite sw_irrefl in H.
Qed.

Lemma tree_child_lookup k (cs : list (K * tree K V)) i a :
  keys_sorted key_less cs.*1 -> cs !! i = Some (k, a) -> tree_child k cs = Some a.
Proof.
  intros Hs Hi. destruct (tree_child k cs) as [b|] eqn:E.
  - apply tree_child_Some in E as [j Hj].
    assert (i = j) as -> by (apply (sorted_keys_inj cs.*1 i j k Hs); by rewrite list_lookup_fmap, ?Hi, ?Hj).
    rewrite Hi in Hj. by injection Hj as ->.
  - apply tree_child_None in E. destruct E. apply list_elem_of_fmap. exists (k, a).
    split; [done|]. by eapply list_elem_of_lookup_2.
Qed.
End child_lemmas.

Section theory.
Context {T St K V : Type} `{!TrieOps T St K V} `{!EqDecision K, !EqDecision V}.
Context (key_less : K -> K -> bool) `{!StrictTotal key_less}.
Implicit Types (t : T) (s : St) (a b : tree K V).

(** The children of a state and the children of its tree correspond. *)
Lemma unfolds_inv t s a :
  unfolds t s a -> exists ss, state_value t s = Some (tree_value a) /\ transitions t s = Some ss /\
    Forall2 (fun s' k => state_key t s' = Some k) ss (tree_children a).*1 /\
    Forall2 (fun s' c => unfolds t s' c.2) ss (tree_children a).
Proof.
  intros H. inversion H as [s0 v ss cs Hv Ht Hk Hu]; subst. exists ss. split_and!; try done.
  cbn [tree_children]. by apply Forall2_fmap_r.
Qed.

Lemma tree_sorted_inv a :
  tree_sorted key_less a ->
  keys_sorted key_less (tree_children a).*1 /\
  Forall (fun c => tree_sorted key_less c.2) (tree_children a).
Proof. by inversion 1. Qed.

(** One transition follows the tree. *)
Lemma transition_unfolds t s a k :
  TrieLaws t key_less -> unfolds t s a -> tree_sorted key_less a ->
  match tree_child k (tree_children a) with
  | Some b => exists s', transition t s k = Some (true, s') /\ unfolds t s' b /\ tree_sorted key_less b
  | None => transition t s k = Some (false, start t)
  end.
Proof.
  intros Hl Hu Hs. destruct (unfolds_inv t s a Hu) as (ss&_&Ht&Hk&Hc).
  destruct (tree_sorted_inv a Hs) as [Hsort Hsub].
  destruct (transition_law t (key_less := key_less) s ss _ k Ht Hk Hsort)
    as [(i&s'&Hi&Hss&Htr)|[Hno Htr]].
  - rewrite list_lookup_fmap in Hi. apply fmap_Some in Hi as ([k' b]&Hi&->). cbn [fst] in *.
    rewrite (tree_child_lookup key_less _ _ i b Hsort Hi).
    exists s'. split; [done|]. split.
    + apply (Forall2_lookup_lr _ _ _ _ _ _ Hc Hss Hi).
    + rewrite Forall_lookup in Hsub. apply (Hsub _ _ Hi).
  - by rewrite (proj2 (tree_child_None k _)).
Qed.

Lemma trie_find_loop_unfolds t path s a :
  TrieLaws t key_less -> unfolds t s a -> tree_sorted key_less a ->
  exists s', trie_find_loop t s path = Some ((tree_descend a path).1, s') /\
    unfolds t s' (tree_descend a path).2.
Proof.
  intros Hl. revert s a. induction path as [|k path IH]; intros s a Hu Hs; [by exists s|].
  cbn [trie_find_loop tree_descend]. pose proof (transition_unfolds t s a k Hl Hu Hs) as Htr.
  destruct (tree_child k _) as [b|].
  - destruct Htr as (s'&->&Hu'&Hs'). cbn [mbind option_bind fst snd]. by apply IH.
  - rewrite Htr. by exists s.
Qed.

Lemma trie_find_unfolds t s a (path : list K) :
  TrieLaws t key_less -> unfolds t s a -> tree_sorted key_less a ->
  exists s', trie_find t s path = Some (mk_find_result
      (bool_decide ((tree_descend a path).1 = [] /\ tree_value (tree_descend a path).2 <> nonvalue t))
      (tree_descend a path).1 s') /\
    unfolds t s' (tree_descend a path).2.
Proof.
  intros Hl Hu Hs. destruct (trie_find_loop_unfolds t path s a Hl Hu Hs) as (s'&Hf&Hu').
  exists s'. split; [|done]. unfold trie_find. rewrite Hf. cbn [mbind option_bind fst snd].
  destruct (tree_descend a path) as [[|k rest] b]; cbn [fst snd] in *.
  - destruct (unfolds_inv t s' b Hu') as (ss&->&_). cbn. do 3 f_equal.
    rewrite <- bool_decide_not. apply bool_decide_ext. naive_solver.
  - rewrite bool_decide_false by naive_solver. done.
Qed.
End theory.

(** * Counting *)

Section counting.
Context {T St K V : Type} `{!TrieOps T St K V}.
Implicit Types (t : T) (s : St) (a b : tree K V).

(** [count] adds the numbers of internal states and of states, modulo [2^32]. *)
Lemma count_unfolds fuel t s a internal total :
  unfolds t s a -> (tree_height a <= fuel)%nat ->
  exists r, count fuel t s internal total = Some r /\
    u32 r.1 = u32 (internal + tree_internal a) /\ u32 r.2 = u32 (total + tree_nodes a).
Proof.
  revert s a internal total. induction fuel as [|fuel IH]; intros s [v cs] internal total Hu Hf; [cbn in Hf; lia|].
  destruct (unfolds_inv t s _ Hu) as (ss&_&Ht&_&Hc). cbn [tree_children] in Hc.
  cbn [count]. rewrite Ht. cbn [mbind option_bind].
  assert (Hloop : forall l (cs' : list (K * tree K V)), Forall2 (fun s' c => unfolds t s' c.2) l cs' ->
    (forall c, c ∈ cs' -> (tree_height c.2 <= fuel)%nat) -> forall i n,
    exists r, foldl (fun r s' => p ← r; count fuel t s' p.1 p.2) (Some (i, n)) l = Some r /\
      u32 r.1 = u32 (i + foldr (fun c n => tree_internal c.2 + n) 0 cs') /\
      u32 r.2 = u32 (n + foldr (fun c n => tree_nodes c.2 + n) 0 cs')).
  { clear - IH. induction 1 as [|s' c l cs' Hs' _ IHl]; intros Hh i n.
    - exists (i, n). cbn. by rewrite !Z.add_0_r.
    - cbn [foldl foldr]. cbn [mbind option_bind fst snd].
      destruct (IH s' c.2 i n Hs' (Hh c ltac:(left))) as ([i' n']&->&Hi&Hn). cbn [fst snd] in *.
      destruct (IHl (fun d Hd => Hh d ltac:(by right)) i' n') as (r&->&Hi'&Hn'). exists r.
      split; [done|]. rewrite Hi', Hn', <- u32_add_l, Hi, <- (u32_add_l n'), Hn, !u32_add_l.
      split; f_equal; lia. }
  destruct (Hloop ss cs Hc) with (i := match ss with [] => internal | _ => u32 (internal + 1) end)
    (n := u32 (total + 1)) as (r&->&Hi&Hn).
  { intros c Hc'. pose proof (tree_height_child v cs c Hc'). lia. }
  exists r. split; [done|]. rewrite Hi, Hn. cbn [tree_internal tree_nodes]. rewrite u32_add_l.
  apply Forall2_length in Hc. destruct ss, cs; try done; rewrite ?u32_add_l; split; f_equal; lia.
Qed.
End counting.

(** * Equality *)

Section equality.
Context {T1 St1 T2 St2 K V : Type} `{!TrieOps T1 St1 K V, !TrieOps T2 St2 K V}.
Context `{!EqDecision K, !EqDecision V}.
Implicit Types (a b : tree K V).

Lemma equal_children_unfolds equal (t1 : T1) (t2 : T2) l1 l2 (cs1 cs2 : list (K * tree K V)) :
  Forall2 (fun s k => state_key t1 s = Some k) l1 cs1.*1 ->
  Forall2 (fun s k => state_key t2 s = Some k) l2 cs2.*1 ->
  length l1 = length l2 ->
  (forall i s1 s2 c1 c2, l1 !! i = Some s1 -> l2 !! i = Some s2 -> cs1 !! i = Some c1 -> cs2 !! i = Some c2 ->
     exists r, equal s1 s2 = Some r /\ (r = true <-> c1.2 = c2.2)) ->
  exists r, equal_children equal t1 t2 l1 l2 = Some r /\ (r = true <-> cs1 = cs2).
Proof.
  revert l2 cs1 cs2. induction l1 as [|s1 l1 IH]; intros l2 cs1 cs2 H1 H2 Hlen Heq.
  - destruct l2; [|done]. destruct cs1; [|inversion H1]. destruct cs2; [|inversion H2]. by exists true.
  - destruct l2 as [|s2 l2]; [done|].
    destruct cs1 as [|[k1 a] cs1]; [inversion H1|]. destruct cs2 as [|[k2 b] cs2]; [inversion H2|].
    apply Forall2_cons_1 in H1 as [Hk1 H1]. apply Forall2_cons_1 in H2 as [Hk2 H2].
    cbn [equal_children]. cbn [fst] in *. rewrite Hk1, Hk2. cbn [mbind option_bind].
    destruct (decide (k1 = k2)) as [->|Hne]; [|exists false; split; [done|naive_solver]].
    destruct (Heq 0%nat s1 s2 _ _ eq_refl eq_refl eq_refl eq_refl) as ([]&->&Hr);
      cbn [mbind option_bind snd] in *; [|exists false; split; [done|naive_solver]].
    destruct (IH l2 cs1 cs2 H1 H2) as (r&->&Hr').
    + by injection Hlen.
    + intros i. apply (Heq (S i)).
    + exists r. split; [done|]. rewrite Hr'. naive_solver.
Qed.

(** C33: [equal_trie] terminates and decides whether two tries, which may be of
    different types, hold the same tree of keys and values. *)
Theorem equal_trie_refines fuel (t1 : T1) (t2 : T2) s1 s2 a b :
  unfolds t1 s1 a -> unfolds t2 s2 b -> (tree_height a <= fuel)%nat ->
  exists r, equal_trie fuel t1 s1 t2 s2 = Some r /\ (r = true <-> a = b).
Proof.
  revert s1 s2 a b. induction fuel as [|fuel IH]; intros s1 s2 [v1 cs1] [v2 cs2] Hu1 Hu2 Hf; [cbn in Hf; lia|].
  destruct (unfolds_inv t1 s1 _ Hu1) as (l1&Hv1&Ht1&Hk1&Hc1).
  destruct (unfolds_inv t2 s2 _ Hu2) as (l2&Hv2&Ht2&Hk2&Hc2). cbn [tree_value tree_children] in *.
  cbn [equal_trie]. rewrite Hv1, Hv2. cbn [mbind option_bind].
  destruct (decide (v1 = v2)) as [->|Hne]; [|exists false; split; [done|naive_solver]].
  rewrite Ht1, Ht2. cbn [mbind option_bind].
  pose proof (Forall2_length _ _ _ Hc1) as Hn1. pose proof (Forall2_length _ _ _ Hc2) as Hn2.
  destruct (decide (length l1 = length l2)) as [Hlen|Hlen].
  - destruct (equal_children_unfolds (fun x y => equal_trie fuel t1 x t2 y) t1 t2 l1 l2 cs1 cs2 Hk1 Hk2 Hlen)
      as (r&->&Hr); [|exists r; split; [done|naive_solver]].
    intros i x y c1 c2 Hx Hy Hcs1 Hcs2. apply IH.
    + apply (Forall2_lookup_lr _ _ _ _ _ _ Hc1 Hx Hcs1).
    + apply (Forall2_lookup_lr _ _ _ _ _ _ Hc2 Hy Hcs2).
    + pose proof (tree_height_child v2 cs1 c1 ltac:(by eapply list_elem_of_lookup_2)). lia.
  - exists false. split; [done|]. split; [done|]. intros [= ->]. congruence.
Qed.
End equality.

(** * Ranges of transitions *)

Section ranges.
Context {T St K V : Type} `{!TrieOps T St K V}.
Context (key_less : K -> K -> bool) (less : K -> K -> K -> bool).

(** The functor [eq(k)] is an order that the order of the keys refines. *)
Definition coarser (k : K) : Prop :=
  (forall a b, key_less a b = true -> less k b k = true -> less k a k = true) /\
  (forall a b, key_less a b = true -> less k k a = true -> less k k b = true) /\
  (forall a, less k a k = true -> less k k a = false).

(** A key that is neither less nor greater. *)
Definition equivalent (k a : K) : bool := negb (less k a k) && negb (less k k a).

(** A list that a predicate splits in two. *)
Lemma split_at {A} (p : A -> bool) (R : A -> A -> Prop) (l : list A) :
  StronglySorted R l -> (forall a b, R a b -> p b = true -> p a = true) ->
  exists k, (k <= length l)%nat /\ lower_bound p l = k /\
    Forall (fun a => p a = true) (take k l) /\ Forall (fun a => p a = false) (drop k l).
Proof.
  intros Hs Hp.
  assert (Hk : exists k, (k <= length l)%nat /\
    Forall (fun a => p a = true) (take k l) /\ Forall (fun a => p a = false) (drop k l)).
  { induction Hs as [|a l Hs IH Ha]; [by exists 0%nat|]. destruct (p a) eqn:E.
    - destruct IH as (k&Hk&Ht&Hd). exists (S k). cbn. split_and!; [lia|by constructor|done].
    - exists 0%nat. cbn. split_and!; [lia|constructor|]. constructor; [done|].
      eapply Forall_impl; [exact Ha|]. intros b Hab. destruct (p b) eqn:Eb; [|done].
      by rewrite (Hp a b Hab Eb) in E. }
  destruct Hk as (k&Hk&Ht&Hd). exists k. split_and!; try done.
  apply lower_bound_partition; [done| |].
  - intros i x Hi Hx. rewrite Forall_lookup in Ht. apply (Ht i). by rewrite lookup_take_lt.
  - intros i x Hi Hx. rewrite Forall_lookup in Hd. apply (Hd (i - k)%nat). rewrite lookup_drop.
    by replace (k + (i - k))%nat with i by lia.
Qed.

Lemma lower_bound_loop_ext fuel (p q : nat -> bool) first len :
  (forall i, (i < first + len)%nat -> p i = q i) ->
  lower_bound_loop fuel p first len = lower_bound_loop fuel q first len.
Proof.
  revert first len. induction fuel as [|fuel IH]; intros first len Hpq; [done|].
  destruct (decide (len = 0%nat)) as [->|Hne]; [done|]. rewrite !lower_bound_loop_step by done. cbv zeta.
  pose proof (Nat.div_lt len 2 ltac:(lia) ltac:(lia)). rewrite Hpq by lia.
  destruct (q _); apply IH; intros i Hi; apply Hpq; lia.
Qed.

Lemma lower_bound_Forall2 {A B} (p : A -> bool) (q : B -> bool) l1 l2 :
  Forall2 (fun a b => p a = q b) l1 l2 -> lower_bound p l1 = lower_bound q l2.
Proof.
  intros H. unfold lower_bound. rewrite (Forall2_length _ _ _ H). apply lower_bound_loop_ext.
  intros i Hi. destruct (l2 !! i) as [b|] eqn:Hb.
  - destruct (Forall2_lookup_r _ _ _ _ _ H Hb) as (a&->&Hab). done.
  - apply lookup_ge_None in Hb. lia.
Qed.

Lemma filter_all {A} (p : A -> bool) (l : list A) : Forall (fun a => p a = true) l -> filter (fun a => p a = true) l = l.
Proof. induction 1 as [|a l Ha _ IH]; [done|]. by rewrite filter_cons_True, IH. Qed.

Lemma filter_none {A} (p : A -> bool) (l : list A) : Forall (fun a => p a = false) l -> filter (fun a => p a = true) l = [].
Proof. induction 1 as [|a l Ha _ IH]; [done|]. rewrite filter_cons_False; [done|]. by rewrite Ha. Qed.

Definition equivalent_child k (c : K * tree K V) : bool := equivalent k c.1.

(** [trie_transition] finds exactly the children with an equivalent key. *)
Lemma trie_transition_unfolds t s a k :
  unfolds t s a -> tree_sorted key_less a -> coarser k ->
  exists ss, trie_transition less t s k = Some ss /\
    Forall2 (fun s' c => unfolds t s' c.2) ss (filter (fun c => equivalent_child k c = true) (tree_children a)).
Proof.
  intros Hu Hs (Hdown&Hup&Hex). destruct (unfolds_inv t s a Hu) as (ss&_&Ht&Hk&Hc).
  destruct (tree_sorted_inv key_less a Hs) as [Hsort _]. apply Forall2_fmap_r in Hk.
  set (cs := tree_children a) in *. unfold trie_transition. rewrite Ht. cbn [mbind option_bind].
  assert (Hsort' : StronglySorted (fun c d : K * tree K V => key_less c.1 d.1 = true) cs).
  { clearbody cs. clear - Hsort. induction cs as [|c cs IH]; [constructor|]. inversion Hsort; subst.
    constructor; [by apply IH|]. by apply Forall_fmap in H2. }
  set (p1 := fun c : K * tree K V => less k c.1 k).
  set (p2 := fun c : K * tree K V => negb (less k k c.1)).
  destruct (split_at p1 _ cs Hsort') as (low&Hlow&Hlb1&Hlt&Hge); [intros x y; apply Hdown|].
  rewrite (lower_bound_Forall2 _ p1 ss cs), Hlb1
    by (eapply Forall2_impl; [exact Hk|]; intros x c Hx; cbn in Hx; rewrite Hx; reflexivity).
  assert (Hsort2 : StronglySorted (fun c d : K * tree K V => key_less c.1 d.1 = true) (drop low cs)).
  { rewrite <- (take_drop low cs) in Hsort'. by apply StronglySorted_app_1_r in Hsort'. }
  destruct (split_at p2 _ _ Hsort2) as (m&Hm&Hlb2&Hle&Hgt).
  { intros x y Hxy Hy. unfold p2 in *. apply negb_true_iff in Hy. apply negb_true_iff.
    destruct (less k k x.1) eqn:E; [|done]. by rewrite (Hup _ _ Hxy E) in Hy. }
  rewrite (lower_bound_Forall2 _ p2 (drop low ss) (drop low cs)), Hlb2.
  2: { eapply Forall2_impl; [exact (Forall2_drop _ _ _ low Hk)|]. intros x c Hx. cbn in Hx. rewrite Hx. reflexivity. }
  eexists. split; [done|].
  rewrite <- (take_drop low cs), <- (take_drop m (drop low cs)), !filter_app.
  rewrite (filter_none _ (take low cs)), (filter_none _ (drop m _)), app_nil_r.
  - rewrite filter_all; [by apply Forall2_take, Forall2_drop|].
    rewrite Forall_forall in *. intros c Hin. unfold equivalent_child, equivalent.
    specialize (Hle c Hin). assert (Hin' : c ∈ drop low cs).
    { rewrite <- (take_drop m (drop low cs)). apply elem_of_app. by left. }
    specialize (Hge c Hin'). unfold p1, p2 in *. by rewrite Hge, Hle.
  - eapply Forall_impl; [exact Hgt|]. intros c Hc'. unfold equivalent_child, equivalent, p2 in *.
    apply negb_false_iff in Hc'. by rewrite Hc', andb_false_r.
  - eapply Forall_impl; [exact Hlt|]. intros c Hc'. unfold equivalent_child, equivalent, p1 in *.
    by rewrite Hc'.
Qed.
End ranges.

(** * Searching a graph *)

(** [trie_search]: the walks of a graph that are paths of the trie.  The graph is
    the parameter [out_edges], a label and a target for each edge. *)
Section trie_search.
Context {T St K V W : Type} `{!TrieOps T St K V}.
Context `{!EqDecision V, !EqDecision St, !EqDecision W}.
Context (less : K -> K -> K -> bool) (out_edges : W -> list (K * W)).
Implicit Types (t : T) (equivset : list (St * W)) (out : list (V * W)).

(** The set of pairs met, and the output so far. *)
Fixpoint trie_search_impl (fuel : nat) t (s : St * W) (r : list (St * W) * list (V * W))
  : option (list (St * W) * list (V * W)) :=
  match fuel with
  | O => None
  | S fuel =>
      v ← state_value t s.1;
      let out := if decide (v = nonvalue t) then r.2 else r.2 ++ [(v, s.2)] in
      foldl (fun r edge =>
        r ← r;
        tos ← trie_transition less t s.1 (edge : K * W).1;
        foldl (fun r to =>
          r ← r;
          let ss := (to, edge.2) in
          if decide (ss ∈ r.1) then Some r
          else trie_search_impl fuel t ss (ss :: r.1, r.2)) (Some r) tos)
        (Some (r.1, out)) (out_edges s.2)
  end.

Definition trie_search (fuel : nat) t (root : St) (start : W) : option (list (V * W)) :=
  snd <$> trie_search_impl fuel t (root, start) ([], []).
End trie_search.

Section trie_search_theory.
Context {T St K V W : Type} `{!TrieOps T St K V}.
Context `{!EqDecision V, !EqDecision St, !EqDecision W}.
Context (key_less : K -> K -> bool) (less : K -> K -> K -> bool) (out_edges : W -> list (K * W)).
Context (Hless : forall k, coarser key_less less k).
Context (t : T).
Implicit Types (p q : St * W) (a b : tree K V).

(** One edge of the graph and one transition of the trie, with an equivalent label. *)
Definition search_step p q : Prop :=
  exists k tos, (k, q.2) ∈ out_edges p.2 /\ trie_transition less t p.1 k = Some tos /\ q.1 ∈ tos.

(** The output for a pair. *)
Definition emit p : option (V * W) :=
  v ← state_value t p.1; if decide (v = nonvalue t) then None else Some (v, p.2).

Definition successors p : list (St * W) :=
  out_edges p.2 ≫= fun edge => (fun to => (to, edge.2)) <$> default [] (trie_transition less t p.1 edge.1).

Lemma unfolds_fun s a b : unfolds t s a -> unfolds t s b -> a = b.
Proof.
  revert s b. induction a as [v cs IH] using tree_ind'. intros s [w ds] Ha Hb.
  destruct (unfolds_inv t s _ Ha) as (ss&Hv&Ht&Hk&Hc). destruct (unfolds_inv t s _ Hb) as (ss'&Hv'&Ht'&Hk'&Hc').
  cbn [tree_value tree_children] in *. assert (ss' = ss) as -> by congruence. assert (w = v) as -> by congruence.
  f_equal. clear Ha Hb Ht Ht' Hv Hv'. revert ss ds Hk Hk' Hc Hc'.
  induction IH as [|[k a] cs Ha _ IHcs]; intros ss ds Hk Hk' Hc Hc'.
  - inversion Hc; subst. inversion Hc'. done.
  - destruct ss as [|s0 ss]; [inversion Hc|]. destruct ds as [|[k' b] ds]; [inversion Hc'|].
    apply Forall2_cons_1 in Hk as [Hk0 Hk], Hk' as [Hk0' Hk'], Hc as [Hc0 Hc], Hc' as [Hc0' Hc'].
    cbn in *. rewrite (Ha s0 b Hc0 Hc0'). assert (k' = k) as -> by congruence.
    f_equal. by apply (IHcs ss).
Qed.

(** The states below a state unfold to trees of smaller height. *)
Definition below (n : nat) (s : St) : Prop :=
  exists a, unfolds t s a /\ tree_sorted key_less a /\ (tree_height a <= n)%nat.

Lemma transition_below n s k :
  below (S n) s -> exists tos, trie_transition less t s k = Some tos /\ Forall (below n) tos.
Proof.
  intros (a&Hu&Hs&Hh).
  destruct (trie_transition_unfolds key_less less t s a k Hu Hs (Hless k)) as (tos&Ht&Hc).
  exists tos. split; [done|]. apply Forall_lookup. intros i s' Hi.
  destruct (Forall2_lookup_l _ _ _ _ _ Hc Hi) as (c&Hci&Hu'). apply list_elem_of_lookup_2 in Hci.
  apply list_elem_of_filter in Hci as [_ Hc']. exists c.2. split; [done|]. split.
  - apply tree_sorted_inv in Hs as [_ Hs]. rewrite Forall_forall in Hs. by apply Hs.
  - destruct a as [v cs]. pose proof (tree_height_child v cs c Hc'). lia.
Qed.

Lemma elem_of_successors n p q : below (S n) p.1 -> q ∈ successors p <-> search_step p q.
Proof.
  intros Hb. unfold successors, search_step. rewrite list_elem_of_bind. split.
  - intros ([k w]&Hin&He). apply list_elem_of_fmap in Hin as (to&->&Hto).
    destruct (transition_below n p.1 k Hb) as (tos&Ht&_). cbn in *. rewrite Ht in Hto.
    by exists k, tos.
  - intros (k&tos&He&Ht&Hq). exists (k, q.2). split; [|done]. cbn. rewrite Ht. cbn.
    apply list_elem_of_fmap. exists q.1. split; [by destruct q|done].
Qed.

(** Visiting one successor. *)
Definition visit (fuel : nat) (r : list (St * W) * list (V * W)) q : option (list (St * W) * list (V * W)) :=
  if decide (q ∈ r.1) then Some r else trie_search_impl less out_edges fuel t q (q :: r.1, r.2).

Lemma foldl_visit fuel p n r :
  below (S n) p.1 ->
  foldl (fun r edge =>
      r ← r;
      tos ← trie_transition less t p.1 (edge : K * W).1;
      foldl (fun r to =>
        r ← r;
        let ss := (to, edge.2) in
        if decide (ss ∈ r.1) then Some r
        else trie_search_impl less out_edges fuel t ss (ss :: r.1, r.2)) (Some r) tos) (Some r) (out_edges p.2) =
  foldl (fun r q => r ← r; visit fuel r q) (Some r) (successors p).
Proof.
  intros Hb. unfold successors. generalize (Some r). clear r. induction (out_edges p.2) as [|edge es IH]; [done|].
  intros r. csimpl. rewrite foldl_app, <- IH. f_equal. clear IH.
  destruct (transition_below n p.1 edge.1 Hb) as (tos&->&_). cbn.
  destruct r as [r|]; cbn; [|by rewrite foldl_none]. generalize (Some r). clear r.
  induction tos as [|to tos IH]; [done|]. intros r. csimpl. by rewrite IH.
Qed.

(** What visiting adds to the pairs met: [new], latest first. *)
Record visited (E new : list (St * W)) : Prop := {
  vi_nodup : NoDup new;
  vi_new q : q ∈ new -> q ∉ E;
  vi_closed q q' : q ∈ new -> search_step q q' -> q' ∈ new ++ E
}.

Lemma foldl_visit_spec fuel (l : list (St * W)) E out :
  (forall q E out, q ∈ l -> exists new,
     trie_search_impl less out_edges fuel t q (E, out) = Some (new ++ E, out ++ omap emit (q :: reverse new)) /\
     visited E new /\ (forall q', q' ∈ new -> tc search_step q q') /\
     (forall q', search_step q q' -> q' ∈ new ++ E)) ->
  exists new, foldl (fun r q => r ← r; visit fuel r q) (Some (E, out)) l =
      Some (new ++ E, out ++ omap emit (reverse new)) /\
    visited E new /\ (forall q', q' ∈ new -> exists q, q ∈ l /\ rtc search_step q q') /\
    (forall q, q ∈ l -> q ∈ new ++ E).
Proof.
  revert E out. induction l as [|q l IH]; intros E out Hl.
  { exists []. cbn. rewrite app_nil_r. split; [done|].
    split; [split; [apply NoDup_nil_2|by intros q ?%not_elem_of_nil|by intros q q' ?%not_elem_of_nil]|].
    split; intros q Hq; by apply not_elem_of_nil in Hq. }
  cbn [foldl]. cbn [mbind option_bind]. unfold visit at 2. cbn [fst snd].
  destruct (decide (q ∈ E)) as [Hin|Hno].
  - destruct (IH E out) as (new&->&Hv&Hr&Hc); [intros x ? ? Hx; apply Hl; by right|].
    exists new. split; [done|]. split; [done|]. split.
    + intros q' Hq'. destruct (Hr q' Hq') as (x&Hx&Hxr). exists x. split; [by right|done].
    + intros x Hx. apply elem_of_cons in Hx as [->|Hx]; [|by apply Hc].
      apply elem_of_app. by right.
  - destruct (Hl q (q :: E) out ltac:(left)) as (n1&->&[Hnd1 Hnew1 Hcl1]&Hr1&Hc1).
    destruct (IH (n1 ++ q :: E) (out ++ omap emit (q :: reverse n1))) as (n2&->&[Hnd2 Hnew2 Hcl2]&Hr2&Hc2);
      [intros x ? ? Hx; apply Hl; by right|].
    exists (n2 ++ n1 ++ [q]).
    assert (Hassoc : (n2 ++ n1 ++ [q]) ++ E = n2 ++ n1 ++ q :: E) by by rewrite <- !app_assoc.
    rewrite Hassoc. split.
    { rewrite !reverse_app, omap_app. cbn [reverse rev_append]. do 2 f_equal. by rewrite <- app_assoc. }
    split; [split|split].
    + apply NoDup_app. split; [done|]. split.
      { intros x Hx Hx'. apply (Hnew2 x Hx). apply elem_of_app in Hx' as [Hx'|Hx']; apply elem_of_app; [by left|].
        apply list_elem_of_singleton in Hx' as ->. right. left. }
      apply NoDup_app. split; [done|]. split; [|apply NoDup_singleton].
      intros x Hx Hx'. apply list_elem_of_singleton in Hx' as ->. apply (Hnew1 q Hx). left.
    + intros x Hx HE. rewrite !elem_of_app, list_elem_of_singleton in Hx. destruct Hx as [Hx|[Hx| ->]]; [| |done].
      * apply (Hnew2 x Hx), elem_of_app. right. by right.
      * apply (Hnew1 x Hx). by right.
    + intros x y Hx Hxy. rewrite !elem_of_app, list_elem_of_singleton in Hx. rewrite Hassoc.
      destruct Hx as [Hx|[Hx| ->]]; [by apply (Hcl2 x)| |]; apply elem_of_app; right;
        [by apply (Hcl1 x)|by apply Hc1].
    + intros x Hx. rewrite !elem_of_app, list_elem_of_singleton in Hx. destruct Hx as [Hx|[Hx| ->]].
      * destruct (Hr2 x Hx) as (y&Hy&Hyx). exists y. split; [by right|done].
      * exists q. split; [left|]. by apply tc_rtc, Hr1.
      * exists q. split; [left|done].
    + intros x Hx. apply elem_of_cons in Hx as [->|Hx]; [|by apply Hc2].
      rewrite !elem_of_app. right. right. left.
Qed.

Lemma trie_search_impl_spec fuel p E out :
  below fuel p.1 ->
  exists new, trie_search_impl less out_edges fuel t p (E, out) =
      Some (new ++ E, out ++ omap emit (p :: reverse new)) /\
    visited E new /\ (forall q, q ∈ new -> tc search_step p q) /\
    (forall q, search_step p q -> q ∈ new ++ E).
Proof.
  revert p E out. induction fuel as [|fuel IH]; intros p E out Hb.
  { destruct Hb as ([v cs]&_&_&Hh). cbn in Hh. lia. }
  pose proof Hb as (a&Hu&_&_). destruct (unfolds_inv t _ a Hu) as (ss&Hv&_).
  cbn [trie_search_impl fst snd]. rewrite Hv. cbn [mbind option_bind].
  rewrite (foldl_visit fuel p fuel _ Hb).
  destruct (foldl_visit_spec fuel (successors p) E
    (if decide (tree_value a = nonvalue t) then out else out ++ [(tree_value a, p.2)]))
    as (new&->&Hvis&Hr&Hc).
  { intros q E' out' Hq. apply IH. apply (elem_of_successors fuel p q Hb) in Hq as (k&tos&_&Ht&Hin).
    destruct (transition_below fuel p.1 k Hb) as (tos'&Ht'&Hf). rewrite Ht in Ht'. injection Ht' as <-.
    rewrite Forall_forall in Hf. by apply Hf. }
  exists new. split; [|split; [done|split]].
  - csimpl. unfold emit at 2. rewrite Hv. cbn [mbind option_bind]. case_decide; [done|].
    by rewrite <- app_assoc.
  - intros q Hq. destruct (Hr q Hq) as (x&Hx&Hxq). apply (elem_of_successors fuel p x Hb) in Hx.
    eapply tc_rtc_r; [by apply tc_once|done].
  - intros q Hq. apply Hc. by apply (elem_of_successors fuel p q Hb).
Qed.

Lemma search_step_height p q a :
  unfolds t p.1 a -> tree_sorted key_less a -> search_step p q ->
  exists b, unfolds t q.1 b /\ tree_sorted key_less b /\ (tree_height b < tree_height a)%nat.
Proof.
  intros Hu Hs (k&tos&_&Ht&Hq). destruct a as [v cs].
  destruct (transition_below (tree_height (Tree v cs) - 1) p.1 k) as (tos'&Ht'&Hf).
  - exists (Tree v cs). split_and!; [done|done|cbn; lia].
  - rewrite Ht in Ht'. injection Ht' as <-. rewrite Forall_forall in Hf.
    destruct (Hf _ Hq) as (b&Hub&Hsb&Hh). exists b. split_and!; [done|done|cbn in *; lia].
Qed.

(** A state is not below itself. *)
Lemma search_steps_height p q a :
  unfolds t p.1 a -> tree_sorted key_less a -> tc search_step p q ->
  exists b, unfolds t q.1 b /\ (tree_height b < tree_height a)%nat.
Proof.
  intros Hu Hs H. revert a Hu Hs. induction H as [p q Hpq|p x q Hpx _ IH]; intros a Hu Hs.
  - destruct (search_step_height p q a Hu Hs Hpq) as (b&Hb&_&Hh). by exists b.
  - destruct (search_step_height p x a Hu Hs Hpx) as (b&Hb&Hsb&Hh).
    destruct (IH b Hb Hsb) as (c&Hc&Hhc). exists c. split; [done|lia].
Qed.

(** C34: [trie_search] terminates, also on a cyclic graph, and meets exactly the
    pairs of a trie state and a graph vertex that are reached together over
    equivalent labels, each pair once: the output is the values at these pairs. *)
Theorem trie_search_refines fuel root (w : W) a :
  unfolds t root a -> tree_sorted key_less a -> (tree_height a <= fuel)%nat ->
  exists met, trie_search less out_edges fuel t root w = Some (omap emit met) /\ NoDup met /\
    forall p, p ∈ met <-> rtc search_step (root, w) p.
Proof.
  intros Hu Hs Hf.
  destruct (trie_search_impl_spec fuel (root, w) [] []) as (new&Hres&[Hnd _ Hcl]&Htc&Hstep); [by exists a|].
  exists ((root, w) :: reverse new). split; [unfold trie_search; by rewrite Hres|].
  rewrite app_nil_r in Hcl, Hstep. split.
  - apply NoDup_cons. split; [|by rewrite reverse_Permutation]. rewrite elem_of_reverse. intros Hin.
    destruct (search_steps_height (root, w) (root, w) a Hu Hs (Htc _ Hin)) as (b&Hub&Hh).
    cbn in Hub. rewrite (unfolds_fun root a b Hu Hub) in Hh. lia.
  - intros p. rewrite elem_of_cons, elem_of_reverse. split.
    + intros [->|Hp]; [done|]. by apply tc_rtc, Htc.
    + intros Hp%rtc_tc. destruct Hp as [<-|Hp]; [by left|]. right.
      revert p Hp. apply tc_ind_r; [exact Hstep|].
      intros y z _ Hyz Hy. by apply (Hcl y).
Qed.
End trie_search_theory.

(** * Trees as tries

    The reference implementation of the concept: a state is a subtree with its
    key, and a trie is its root and the value that stands for none. *)

Section pure_trie.
Context {K V : Type} `{!EqDecision K}.

#[export] Instance pure_trie_ops : TrieOps (V * (K * tree K V)) (K * tree K V) K V := {|
  start t := t.2;
  transitions _ s := Some (tree_children s.2);
  transition t s k :=
    match tree_child k (tree_children s.2) with
    | Some a => Some (true, (k, a))
    | None => Some (false, t.2)
    end;
  state_key _ s := Some s.1;
  state_value _ s := Some (tree_value s.2);
  nonvalue := fst
|}.

Lemma pure_unfolds (t : V * (K * tree K V)) k a : unfolds t (k, a) a.
Proof.
  revert k. induction a as [v cs IH] using tree_ind'. intros k.
  apply (unfolds_tree t (k, Tree v cs) v cs cs); [done|done| |].
  - clear IH. induction cs; by constructor.
  - induction IH as [|[k' a] cs Ha _ IHcs]; constructor; [apply Ha|done].
Qed.

#[export] Instance pure_trie_laws (key_less : K -> K -> bool) `{!StrictTotal key_less}
    (t : V * (K * tree K V)) : TrieLaws t key_less.
Proof.
  split. intros [k0 a] ss ks k Ht Hk Hs. cbn in Ht. injection Ht as <-. cbn.
  assert (Hks : ks = (tree_children a).*1).
  { clear Hs. revert ks Hk. induction (tree_children a) as [|c cs IH]; intros ks Hk; [by inversion Hk|].
    inversion Hk as [|? k' ? ks' Hk' Hks']; subst. cbn in Hk'. injection Hk' as <-. cbn. by rewrite (IH ks'). }
  subst ks. destruct (tree_child k (tree_children a)) as [b|] eqn:E.
  - left. destruct (tree_child_Some k _ b E) as [i Hi]. exists i, (k, b). by rewrite list_lookup_fmap, Hi.
  - right. by apply tree_child_None in E.
Qed.
End pure_trie.

(** ** Examples *)

Definition leaf (v : Z) : tree Z Z := Tree v [].
Definition sample_tree : tree Z Z := Tree 0 [(1, Tree 7 [(2, leaf 5); (3, leaf 6)]); (4, Tree 0 [(4, leaf 8)])].
Definition sample_pure : Z * (Z * tree Z Z) := (0, (0, sample_tree)).

Lemma sample_tree_sorted : tree_sorted Z.ltb sample_tree.
Proof. repeat (constructor; cbn); done. Qed.

Lemma equal_trie_refines_witness :
  exists r, equal_trie 4 sample_pure (0, sample_tree) sample_pure (4, Tree 0 [(4, leaf 8)]) = Some r /\
    (r = true <-> sample_tree = Tree 0 [(4, leaf 8)]).
Proof.
  apply (equal_trie_refines 4 sample_pure sample_pure _ _ sample_tree (Tree 0 [(4, leaf 8)]));
    [apply pure_unfolds|apply pure_unfolds|vm_compute; lia].
Defined.

(** A graph with a cycle: edges labelled 1 to itself, and 2 and 4 to another vertex. *)
Definition sample_graph (w : Z) : list (Z * Z) := if w =? 0 then [(1, 0); (2, 1); (4, 1)] else [(4, 0)].

(** The functor that ignores its argument: labels are equivalent when equal. *)
Lemma plain_less_coarser k : coarser Z.ltb (fun _ => Z.ltb) k.
Proof. split_and!; intros a *; lia. Qed.

Lemma trie_search_refines_witness :
  exists met, trie_search (fun _ => Z.ltb) sample_graph 4 sample_pure (0, sample_tree) 0 =
      Some (omap (emit sample_pure) met) /\ NoDup met /\
    forall p, p ∈ met <-> rtc (search_step (fun _ => Z.ltb) sample_graph sample_pure) ((0, sample_tree), 0) p.
Proof.
  apply (trie_search_refines Z.ltb (fun _ => Z.ltb) sample_graph plain_less_coarser sample_pure 4
           (0, sample_tree) 0 sample_tree);
    [apply pure_unfolds|apply sample_tree_sorted|vm_compute; lia].
Defined.
