(* ===== verification/BasicTrie.v ===== *)
(** The editable trie: src/gusc/gusc/trie/basic_trie.hpp, and [trie_path] of
    trie_algo.hpp.

    Nodes are numbered in the order of their allocation; the root is node 0, and
    pointers are these numbers.  The key of the root is default-initialised: the
    parameter [default_key].  [None] is an access through a pointer that is not
    to a node. *)
From S2P Require Import Prelude Trie.
Open Scope Z_scope.

Section basic_trie.
Context {K V : Type} `{!EqDecision K, !EqDecision V} (key_less : K -> K -> bool) (default_key : K).

Record node_ := mk_node {
  node_key : K;
  node_val : V;
  node_children : list nat;
  node_parent : option nat
}.

Record basic_trie := mk_trie {
  nodes : list node_;
  internal_node_count : Z;
  branch_count : Z;
  none : V
}.

Implicit Types (t : basic_trie) (s : nat).

Definition new_basic_trie (n : V) : basic_trie := mk_trie [mk_node default_key n [] None] 0 0 n.

(** [first_less()(p, v)] *)
Definition first_less t (v : K) (p : nat) : bool :=
  match nodes t !! p with Some nd => key_less (node_key nd) v | None => false end.

(** The child with key [k], or the place of a new one: the position found by
    [lower_bound], and whether the child there has the key. *)
Definition child_position t (nd : node_) (k : K) : option (nat * option nat) :=
  let pos := lower_bound (first_less t k) (node_children nd) in
  match node_children nd !! pos with
  | Some c => cd ← nodes t !! c; Some (pos, if decide (node_key cd = k) then Some c else None)
  | None => Some (pos, None)
  end.

(** [transition(s, k)] *)
Definition bt_transition t s (k : K) : option (bool * nat) :=
  nd ← nodes t !! s;
  r ← child_position t nd k;
  match r.2 with Some c => Some (true, c) | None => Some (false, 0%nat) end.

(** A new node inserted into the children of [curr] before position [pos]. *)
Definition add_child t (curr : nat) (nd : node_) (pos : nat) (k : K) : basic_trie :=
  let c := length (nodes t) in
  let children := take pos (node_children nd) ++ c :: drop pos (node_children nd) in
  mk_trie
    (<[curr := mk_node (node_key nd) (node_val nd) children (node_parent nd)]> (nodes t)
       ++ [mk_node k (none t) [] (Some curr)])
    (if (length children =? 1)%nat then u64 (internal_node_count t + 1) else internal_node_count t)
    (u64 (branch_count t + 1))
    (none t).

(** The loop of [insert]. *)
Fixpoint insert_loop (itr : list K) (curr : nat) t : option (nat * basic_trie) :=
  match itr with
  | [] => Some (curr, t)
  | k :: itr =>
      nd ← nodes t !! curr;
      r ← child_position t nd k;
      match r.2 with
      | Some c => insert_loop itr c t
      | None => insert_loop itr (length (nodes t)) (add_child t curr nd r.1 k)
      end
  end.

Definition valset (nd : node_) (n : V) : bool := negb (bool_decide (node_val nd = n)).

(** [insert(s, itr, end, v)] *)
Definition bt_insert_at s (itr : list K) (v : V) t : option (bool * nat * basic_trie) :=
  r ← insert_loop itr s t;
  nd ← nodes r.2 !! r.1;
  if valset nd (none r.2) then Some (false, r.1, r.2)
  else Some (true, r.1,
    mk_trie (<[r.1 := mk_node (node_key nd) v (node_children nd) (node_parent nd)]> (nodes r.2))
            (internal_node_count r.2) (branch_count r.2) (none r.2)).

(** [insert(itr, end, v)] *)
Definition bt_insert (itr : list K) (v : V) t : option (bool * nat * basic_trie) :=
  bt_insert_at 0 itr v t.

Definition bt_parent t s : option nat := nd ← nodes t !! s; node_parent nd.

Definition bt_swap t other : basic_trie * basic_trie :=
  (mk_trie (nodes other) (internal_node_count other) (branch_count other) (none other),
   mk_trie (nodes t) (internal_node_count t) (branch_count t) (none t)).

Definition bt_transitions t s : option (list nat) := node_children <$> nodes t !! s.
Definition bt_key t s : option K := node_key <$> nodes t !! s.
Definition bt_value t s : option V := node_val <$> nodes t !! s.

Definition basic_trie_ops : TrieOps basic_trie nat K V := {|
  start _ := 0%nat;
  transitions := bt_transitions;
  transition := bt_transition;
  state_key := bt_key;
  state_value := bt_value;
  nonvalue := none
|}.

(** [trie_path(trie, s, out)], by the parents; a parent was made earlier. *)
Fixpoint trie_path (fuel : nat) t s : option (list K) :=
  match s with
  | O => Some []
  | _ =>
      match fuel with
      | O => None
      | S fuel =>
          p ← bt_parent t s;
          out ← trie_path fuel t p;
          k ← bt_key t s;
          Some (out ++ [k])
      end
  end.

(** * The invariant *)

Definition before t (c d : nat) : Prop :=
  exists kc kd, bt_key t c = Some kc /\ bt_key t d = Some kd /\ key_less kc kd = true.

Definition has_children (nd : node_) : bool := match node_children nd with [] => false | _ => true end.

(** Children are later nodes, in the order of their keys; the parent pointers are
    the inverse of the children; the counters count. *)
Record trie_ok t : Prop := {
  ok_root : exists nd, nodes t !! 0%nat = Some nd /\ node_parent nd = None;
  ok_child i nd c : nodes t !! i = Some nd -> c ∈ node_children nd ->
    (i < c)%nat /\ exists cd, nodes t !! c = Some cd /\ node_parent cd = Some i;
  ok_sorted i nd : nodes t !! i = Some nd -> StronglySorted (before t) (node_children nd);
  ok_parent i nd : nodes t !! i = Some nd -> i <> 0%nat ->
    exists p pd, node_parent nd = Some p /\ nodes t !! p = Some pd /\ i ∈ node_children pd;
  ok_branches : branch_count t = u64 (Z.of_nat (length (nodes t)) - 1);
  ok_internal : internal_node_count t = u64 (Z.of_nat (length (filter (fun nd => has_children nd = true) (nodes t))))
}.

(** A later state of the trie: nodes keep all but their children, and a new node
    has no value. *)
Record extends t t' : Prop := {
  ex_none : none t' = none t;
  ex_old i nd : nodes t !! i = Some nd -> exists nd', nodes t' !! i = Some nd' /\
    node_key nd' = node_key nd /\ node_val nd' = node_val nd /\ node_parent nd' = node_parent nd;
  ex_new i nd : nodes t' !! i = Some nd -> nodes t !! i = None -> node_val nd = none t
}.
End basic_trie.

Arguments node_ K V : clear implicits.
Arguments basic_trie K V : clear implicits.

(** * Lemmas *)

Section lemmas.
Context {K V : Type} `{!EqDecision K, !EqDecision V} (key_less : K -> K -> bool) (default_key : K).
Context `{!StrictTotal key_less}.
Implicit Types (t : basic_trie K V) (s : nat) (nd : node_ K V).
#[local] Instance bt_ops : TrieOps (basic_trie K V) nat K V := basic_trie_ops key_less.
Abbreviation trie_ok := (trie_ok key_less).
Abbreviation before := (before key_less).

#[local] Instance extends_preorder : PreOrder (@extends K V).
Proof.
  split.
  - intros t. split; [done| |]; [intros i nd Hi; by exists nd|intros i nd Hi Hn; congruence].
  - intros t1 t2 t3 [Hn1 Ho1 Hx1] [Hn2 Ho2 Hx2]. split; [congruence| |].
    + intros i nd Hi. destruct (Ho1 i nd Hi) as (nd2&H2&?&?&?). destruct (Ho2 i nd2 H2) as (nd3&H3&?&?&?).
      exists nd3. split_and!; congruence.
    + intros i nd Hi Hn. destruct (nodes t2 !! i) as [nd2|] eqn:E.
      * destruct (Ho2 i nd2 E) as (nd3&H3&?&Hv&?). rewrite Hi in H3. injection H3 as <-.
        rewrite Hv. by apply (Hx1 i).
      * rewrite (Hx2 i nd Hi E). done.
Qed.

Lemma filter_insert_length {A} (p : A -> bool) (l : list A) i x y :
  l !! i = Some x ->
  Z.of_nat (length (filter (fun a => p a = true) (<[i := y]> l))) =
  Z.of_nat (length (filter (fun a => p a = true) l)) - Z.b2z (p x) + Z.b2z (p y).
Proof.
  revert i. induction l as [|a l IH]; intros [|i] Hi; [done|done| |].
  - injection Hi as ->. cbn [insert list_insert]. rewrite !filter_cons.
    destruct (p x), (p y); repeat case_decide; try done; cbn [length Z.b2z]; lia.
  - cbn in Hi. specialize (IH i Hi). change (<[S i := y]> (a :: l)) with (a :: <[i := y]> l).
    rewrite !filter_cons. case_decide; cbn [length]; lia.
Qed.

Lemma and_iff_under (A B C : Prop) : (A -> (B <-> C)) -> (A /\ B <-> A /\ C).
Proof. tauto. Qed.

Lemma before_trans t a b c : before t a b -> before t b c -> before t a c.
Proof.
  intros (ka&kb&Ha&Hb&Hab) (kb'&kc&Hb'&Hc&Hbc). rewrite Hb in Hb'. injection Hb' as <-.
  exists ka, kc. split_and!; [done|done|]. eapply sw_trans; eauto.
Qed.

(** The child that [lower_bound] finds, or the place where a child with the key
    keeps the order. *)
Lemma child_position_spec t i nd k :
  trie_ok t -> nodes t !! i = Some nd ->
  exists r, child_position key_less t nd k = Some r /\
    match r.2 with
    | Some c => node_children nd !! r.1 = Some c /\ bt_key t c = Some k
    | None => (r.1 <= length (node_children nd))%nat /\
        Forall (fun c => exists kc, bt_key t c = Some kc /\ key_less kc k = true) (take r.1 (node_children nd)) /\
        Forall (fun c => exists kc, bt_key t c = Some kc /\ key_less k kc = true) (drop r.1 (node_children nd))
    end.
Proof.
  intros Hok Hi. pose proof (ok_sorted _ _ Hok i nd Hi) as Hs. set (cs := node_children nd) in *.
  assert (Hkey : forall c, c ∈ cs -> exists kc, bt_key t c = Some kc).
  { intros c Hc. destruct (ok_child _ _ Hok i nd c Hi Hc) as (_&cd&Hcd&_). exists (node_key cd).
    unfold bt_key. by rewrite Hcd. }
  destruct (split_at (first_less key_less t k) (before t) cs Hs) as (pos&Hpos&Hlb&Hlt&Hge).
  { intros a b (ka&kb&Ha&Hb&Hab) Hless. unfold first_less in *. unfold bt_key in Ha, Hb.
    destruct (nodes t !! a) as [na|]; [|done]. destruct (nodes t !! b) as [nb|]; [|done].
    cbn in Ha, Hb. injection Ha as <-. injection Hb as <-. eapply sw_trans; eauto. }
  assert (Hltk : Forall (fun c => exists kc, bt_key t c = Some kc /\ key_less kc k = true) (take pos cs)).
  { eapply Forall_impl; [exact Hlt|]. intros c Hc. unfold first_less in Hc. unfold bt_key.
    destruct (nodes t !! c) as [cd|]; [|done]. by exists (node_key cd). }
  unfold child_position. fold cs. rewrite Hlb. destruct (cs !! pos) as [c|] eqn:Hc.
  - destruct (Hkey c (list_elem_of_lookup_2 _ _ _ Hc)) as [kc Hkc]. unfold bt_key in Hkc.
    destruct (nodes t !! c) as [cd|] eqn:Hcd; [|done]. cbn in Hkc. injection Hkc as <-. cbn [mbind option_bind].
    assert (Hck : key_less (node_key cd) k = false).
    { rewrite Forall_lookup in Hge. specialize (Hge 0%nat c). rewrite lookup_drop, Nat.add_0_r in Hge.
      specialize (Hge Hc). unfold first_less in Hge. by rewrite Hcd in Hge. }
    destruct (decide (node_key cd = k)) as [Hk|Hne]; eexists; (split; [done|]); cbn [fst snd].
    + split; [done|]. unfold bt_key. rewrite Hcd. cbn. by rewrite Hk.
    + split_and!; [done|done|]. rewrite (drop_S _ _ _ Hc).
      assert (Hkc : key_less k (node_key cd) = true).
      { destruct (key_less k (node_key cd)) eqn:E; [done|]. destruct Hne. by apply (st_total (lt := key_less)). }
      constructor; [exists (node_key cd); unfold bt_key; by rewrite Hcd|].
      rewrite <- (take_drop pos cs), (drop_S _ _ _ Hc) in Hs. apply StronglySorted_app_1_r in Hs.
      inversion Hs as [|? ? _ Hall]; subst. eapply Forall_impl; [exact Hall|].
      intros d (kc&kd&Hkc'&Hkd&Hcd'). exists kd. split; [done|]. unfold bt_key in Hkc'. rewrite Hcd in Hkc'.
      cbn in Hkc'. injection Hkc' as <-. eapply sw_trans; eauto.
  - apply lookup_ge_None in Hc. exists (pos, None). split; [done|]. cbn [fst snd]. split_and!; [done|done|].
    by rewrite drop_ge.
Qed.

(** ** Adding a child *)

Section add_child.
Context t (curr : nat) nd (pos : nat) (k : K).
Context (Hok : trie_ok t) (Hcurr : nodes t !! curr = Some nd).
Context (Hpos : (pos <= length (node_children nd))%nat).
Context (Hbefore : Forall (fun c => exists kc, bt_key t c = Some kc /\ key_less kc k = true) (take pos (node_children nd))).
Context (Hafter : Forall (fun c => exists kc, bt_key t c = Some kc /\ key_less k kc = true) (drop pos (node_children nd))).
Let c := length (nodes t).
Let t' := add_child t curr nd pos k.
Let children := take pos (node_children nd) ++ c :: drop pos (node_children nd).

Lemma add_child_new : nodes t' !! c = Some (mk_node k (none t) [] (Some curr)).
Proof. unfold t', add_child. cbn. rewrite lookup_app_r; rewrite length_insert; [|done]. by rewrite Nat.sub_diag. Qed.

Lemma add_child_curr : nodes t' !! curr = Some (mk_node (node_key nd) (node_val nd) children (node_parent nd)).
Proof.
  pose proof (lookup_lt_Some _ _ _ Hcurr). unfold t', add_child. cbn.
  rewrite lookup_app_l by (by rewrite length_insert). by rewrite list_lookup_insert_eq.
Qed.

Lemma add_child_other i : i <> curr -> i <> c -> nodes t' !! i = nodes t !! i.
Proof.
  intros Hi Hc. unfold t', add_child. cbn. destruct (decide (i < c)%nat) as [Hlt|Hge].
  - rewrite lookup_app_l by (by rewrite length_insert). by rewrite list_lookup_insert_ne.
  - rewrite lookup_app_r by (rewrite length_insert; lia). rewrite length_insert.
    fold c. destruct (i - c)%nat as [|x] eqn:E; [lia|]. cbn. symmetry. apply lookup_ge_None. fold c. lia.
Qed.

(** Every node of the new trie: the new one, the one with a new child, or an old one. *)
Lemma add_child_cases i nd' :
  nodes t' !! i = Some nd' ->
  (i = c /\ nd' = mk_node k (none t) [] (Some curr)) \/
  (i = curr /\ nd' = mk_node (node_key nd) (node_val nd) children (node_parent nd)) \/
  (i <> curr /\ i <> c /\ nodes t !! i = Some nd').
Proof.
  intros Hi. destruct (decide (i = c)) as [->|Hc].
  { left. split; [done|]. rewrite add_child_new in Hi. by injection Hi. }
  right. destruct (decide (i = curr)) as [->|Hne].
  - left. split; [done|]. rewrite add_child_curr in Hi. by injection Hi.
  - right. by rewrite add_child_other in Hi.
Qed.

Lemma curr_lt_new : (curr < c)%nat.
Proof. apply (lookup_lt_Some _ _ _ Hcurr). Qed.

Lemma add_child_extends : extends t t'.
Proof.
  pose proof curr_lt_new. split; [done| |].
  - intros i nd0 Hi. destruct (decide (i = curr)) as [->|Hne].
    + rewrite Hcurr in Hi. injection Hi as <-. rewrite add_child_curr. by eexists.
    + exists nd0. rewrite add_child_other; [done|done|]. apply lookup_lt_Some in Hi. unfold c. lia.
  - intros i nd' Hi Hn. destruct (add_child_cases i nd' Hi) as [[-> ->]|[[-> _]|(_&_&Hi')]]; [done|congruence..].
Qed.

Lemma add_child_key i : (i < c)%nat -> bt_key t' i = bt_key t i.
Proof.
  intros Hi. destruct (lookup_lt_is_Some_2 (nodes t) i Hi) as [nd0 Hnd0].
  destruct (ex_old _ _ add_child_extends i nd0 Hnd0) as (nd'&Hnd'&Hk&_).
  unfold bt_key. rewrite Hnd0, Hnd'. cbn. by rewrite Hk.
Qed.

Lemma add_child_before a b : (a < c)%nat -> (b < c)%nat -> before t a b -> before t' a b.
Proof.
  intros Ha Hb (ka&kb&Hka&Hkb&Hab). exists ka, kb. by rewrite !add_child_key.
Qed.

Lemma child_lt i nd0 x : nodes t !! i = Some nd0 -> x ∈ node_children nd0 -> (x < c)%nat.
Proof.
  intros Hi Hx. destruct (ok_child _ _ Hok i nd0 x Hi Hx) as (_&cd&Hcd&_). apply (lookup_lt_Some _ _ _ Hcd).
Qed.

Lemma StronglySorted_impl_elem {A} (R R' : relation A) (l : list A) :
  (forall x y, x ∈ l -> y ∈ l -> R x y -> R' x y) -> StronglySorted R l -> StronglySorted R' l.
Proof.
  intros H Hs. induction Hs as [|a l Hs IH Ha]; [constructor|]. constructor.
  - apply IH. intros x y Hx Hy. apply H; by right.
  - rewrite Forall_forall in *. intros y Hy. apply H; [left|by right|by apply Ha].
Qed.

Lemma add_child_sorted : StronglySorted (before t') children.
Proof.
  pose proof (ok_sorted _ _ Hok curr nd Hcurr) as Hs.
  assert (Hlift : forall l, l ⊆ node_children nd -> StronglySorted (before t) l -> StronglySorted (before t') l).
  { intros l Hl. apply StronglySorted_impl_elem. intros x y Hx Hy.
    apply add_child_before; eapply child_lt; eauto. }
  rewrite <- (take_drop pos (node_children nd)) in Hs.
  pose proof (StronglySorted_app_1_l _ _ _ Hs) as Hs1. pose proof (StronglySorted_app_1_r _ _ _ Hs) as Hs2.
  assert (Hin1 : take pos (node_children nd) ⊆ node_children nd).
  { intros x Hx. rewrite <- (take_drop pos (node_children nd)). apply elem_of_app. by left. }
  assert (Hin2 : drop pos (node_children nd) ⊆ node_children nd).
  { intros x Hx. rewrite <- (take_drop pos (node_children nd)). apply elem_of_app. by right. }
  assert (Hnew : bt_key t' c = Some k) by (unfold bt_key; by rewrite add_child_new).
  rewrite Forall_forall in Hbefore, Hafter.
  apply StronglySorted_app_2; [|by apply Hlift|].
  - intros x y Hx Hy. destruct (Hbefore x Hx) as (kx&Hkx&Hxk).
    assert (Hxc : (x < c)%nat) by (eapply child_lt; eauto).
    apply elem_of_cons in Hy as [->|Hy].
    + exists kx, k. split_and!; [by rewrite add_child_key|done|done].
    + destruct (Hafter y Hy) as (ky&Hky&Hyk). exists kx, ky.
      rewrite !add_child_key by (done || eapply child_lt; eauto).
      split_and!; [done|done|]. eapply sw_trans; eauto.
  - constructor; [by apply Hlift|]. apply Forall_forall. intros y Hy.
    destruct (Hafter y Hy) as (ky&Hky&Hyk). exists k, ky.
    rewrite (add_child_key y) by (eapply child_lt; eauto). done.
Qed.

Lemma add_child_counts :
  branch_count t' = u64 (Z.of_nat (length (nodes t')) - 1) /\
  internal_node_count t' = u64 (Z.of_nat (length (filter (fun nd => has_children nd = true) (nodes t')))).
Proof.
  pose proof (lookup_lt_Some _ _ _ Hcurr) as Hlt. split.
  - unfold t', add_child. cbn. rewrite length_app, length_insert, (ok_branches _ _ Hok), u64_add_l.
    f_equal. cbn. lia.
  - unfold t', add_child. cbn [internal_node_count nodes]. rewrite filter_app.
    rewrite (filter_cons_False _ (mk_node k (none t) [] (Some curr))) by done.
    rewrite filter_nil, app_nil_r, (filter_insert_length has_children _ curr nd) by done.
    assert (Hsize : (length (take pos (node_children nd) ++ length (nodes t) :: drop pos (node_children nd)) =
              S (length (node_children nd)))%nat).
    { rewrite length_app. cbn. rewrite length_take, length_drop. lia. }
    assert (Hold : Z.b2z (has_children nd) = if (length (node_children nd) =? 0)%nat then 0 else 1).
    { unfold has_children. by destruct (node_children nd). }
    assert (Hnew : has_children (mk_node (node_key nd) (node_val nd)
              (take pos (node_children nd) ++ length (nodes t) :: drop pos (node_children nd)) (node_parent nd)) = true).
    { unfold has_children. cbn. by destruct (take pos (node_children nd)). }
    rewrite Hsize, Hold, Hnew, (ok_internal _ _ Hok).
    destruct (length (node_children nd)); cbn [Nat.eqb Z.b2z]; rewrite ?u64_add_l; f_equal; lia.
Qed.

Lemma add_child_ok : trie_ok t'.
Proof.
  pose proof curr_lt_new as Hlt. split; [| | | |apply add_child_counts..].
  - destruct (ok_root _ _ Hok) as (rd&Hr&Hp). destruct (ex_old _ _ add_child_extends 0%nat rd Hr) as (rd'&?&_&_&?).
    exists rd'. split; [done|congruence].
  - intros i nd' x Hi Hx. destruct (add_child_cases i nd' Hi) as [[-> ->]|[[-> ->]|(Hne&Hnc&Hi')]].
    + by apply not_elem_of_nil in Hx.
    + cbn [node_children] in Hx. unfold children in Hx. rewrite elem_of_app, elem_of_cons in Hx.
      destruct (decide (x = c)) as [->|Hxc]; [split; [done|]; rewrite add_child_new; by eexists|].
      assert (Hin : x ∈ node_children nd).
      { rewrite <- (take_drop pos (node_children nd)), elem_of_app. tauto. }
      destruct (ok_child _ _ Hok curr nd x Hcurr Hin) as (Hcx&cd&Hcd&Hcp). split; [done|].
      destruct (ex_old _ _ add_child_extends x cd Hcd) as (cd'&?&_&_&?). exists cd'. split; [done|congruence].
    + destruct (ok_child _ _ Hok i nd' x Hi' Hx) as (Hcx&cd&Hcd&Hcp). split; [done|].
      destruct (ex_old _ _ add_child_extends x cd Hcd) as (cd'&?&_&_&?). exists cd'. split; [done|congruence].
  - intros i nd' Hi. destruct (add_child_cases i nd' Hi) as [[-> ->]|[[-> ->]|(Hne&Hnc&Hi')]].
    + constructor.
    + apply add_child_sorted.
    + eapply StronglySorted_impl_elem; [|by apply (ok_sorted _ _ Hok i nd')].
      intros x y Hx Hy. apply add_child_before; eapply child_lt; eauto.
  - intros i nd' Hi Hi0. destruct (add_child_cases i nd' Hi) as [[-> ->]|[[-> ->]|(Hne&Hnc&Hi')]].
    + exists curr. eexists. split; [done|]. split; [apply add_child_curr|]. cbn. unfold children.
      apply elem_of_app. right. left.
    + destruct (ok_parent _ _ Hok curr nd Hcurr Hi0) as (p&pd&Hp&Hpd&Hin).
      exists p. cbn. assert (p <> curr).
      { intros ->. destruct (ok_child _ _ Hok curr pd curr Hpd Hin). lia. }
      exists pd. split; [done|]. split; [|done]. rewrite add_child_other; [done|done|].
      apply lookup_lt_Some in Hpd. unfold c. lia.
    + destruct (ok_parent _ _ Hok i nd' Hi' Hi0) as (p&pd&Hp&Hpd&Hin). exists p.
      destruct (decide (p = curr)) as [->|Hpc].
      * eexists. split; [done|]. split; [apply add_child_curr|]. cbn. unfold children.
        rewrite Hcurr in Hpd. injection Hpd as <-.
        rewrite <- (take_drop pos (node_children nd)), elem_of_app in Hin. rewrite elem_of_app, elem_of_cons. tauto.
      * exists pd. split; [done|]. split; [|done]. rewrite add_child_other; [done|done|].
        apply lookup_lt_Some in Hpd. unfold c. lia.
Qed.
End add_child.

(** ** Paths *)

(** The keys on the way from the root to a node. *)
Inductive path_of t : nat -> list K -> Prop :=
  | path_root : path_of t 0 []
  | path_child i nd p l : i <> 0%nat -> nodes t !! i = Some nd -> node_parent nd = Some p ->
      path_of t p l -> path_of t i (l ++ [node_key nd]).

Lemma path_of_inv t i nd p l :
  i <> 0%nat -> nodes t !! i = Some nd -> node_parent nd = Some p -> path_of t i l ->
  exists l', l = l' ++ [node_key nd] /\ path_of t p l'.
Proof.
  intros Hi Hnd Hp H. inversion H as [|i' nd' p' l' Hi' Hnd' Hp' Hl']; subst; [done|].
  rewrite Hnd in Hnd'. injection Hnd' as <-. rewrite Hp in Hp'. injection Hp' as <-. by exists l'.
Qed.

Lemma path_of_fun t i p q : path_of t i p -> path_of t i q -> p = q.
Proof.
  intros Hp. revert q. induction Hp as [|i nd p l Hi Hnd Hpar Hl IH]; intros q Hq; [by inversion Hq|].
  destruct (path_of_inv t i nd p q Hi Hnd Hpar Hq) as (l'&->&Hl'). by rewrite (IH l' Hl').
Qed.

Lemma path_of_extends t t' i p : extends t t' -> path_of t i p -> path_of t' i p.
Proof.
  intros He. induction 1 as [|i nd p l Hi Hnd Hp _ IH]; [constructor|].
  destruct (ex_old _ _ He i nd Hnd) as (nd'&Hnd'&Hk&_&Hp'). rewrite <- Hk.
  apply (path_child _ i nd' p); [done|done|congruence|done].
Qed.

Lemma path_of_child t i nd c k p :
  trie_ok t -> nodes t !! i = Some nd -> c ∈ node_children nd -> bt_key t c = Some k ->
  path_of t i p -> path_of t c (p ++ [k]).
Proof.
  intros Hok Hi Hc Hk Hp. destruct (ok_child _ _ Hok i nd c Hi Hc) as (Hlt&cd&Hcd&Hpar).
  unfold bt_key in Hk. rewrite Hcd in Hk. injection Hk as <-. apply (path_child _ c cd i); [lia|done..].
Qed.

Lemma path_total t i : trie_ok t -> (i < length (nodes t))%nat -> exists p, path_of t i p.
Proof.
  intros Hok. induction i as [i IH] using lt_wf_ind. intros Hi.
  destruct (decide (i = 0%nat)) as [->|Hne]; [exists []; constructor|].
  destruct (lookup_lt_is_Some_2 _ _ Hi) as [nd Hnd].
  destruct (ok_parent _ _ Hok i nd Hnd Hne) as (p&pd&Hp&Hpd&Hin).
  destruct (ok_child _ _ Hok p pd i Hpd Hin) as [Hlt _]. destruct (IH p Hlt) as [l Hl]; [lia|].
  exists (l ++ [node_key nd]). by apply (path_child _ i nd p).
Qed.

(** [trie_path] computes the path, and a fuel of the number of the node is enough. *)
Lemma trie_path_of t i p fuel : trie_ok t -> (i <= fuel)%nat -> path_of t i p -> trie_path fuel t i = Some p.
Proof.
  intros Hok. revert i p. induction fuel as [|fuel IH]; intros i p Hf Hp.
  - assert (i = 0%nat) as -> by lia. by inversion Hp.
  - inversion Hp as [|i' nd q l Hi Hnd Hpar Hl]; subst; [done|]. destruct i as [|i]; [done|].
    cbn [trie_path]. unfold bt_parent, bt_key. rewrite Hnd. cbn [mbind option_bind]. rewrite Hpar.
    cbn [mbind option_bind].
    destruct (ok_parent _ _ Hok (S i) nd Hnd Hi) as (p'&pd&Hp'&Hpd&Hin).
    rewrite Hpar in Hp'. injection Hp' as <-. destruct (ok_child _ _ Hok q pd (S i) Hpd Hin) as [Hlt _].
    rewrite (IH q l) by (done || lia). done.
Qed.

(** ** [insert] *)

Lemma insert_loop_spec itr curr t :
  trie_ok t -> (curr < length (nodes t))%nat ->
  exists c t', insert_loop key_less itr curr t = Some (c, t') /\ trie_ok t' /\ extends t t' /\
    (c < length (nodes t'))%nat /\ forall p, path_of t curr p -> path_of t' c (p ++ itr).
Proof.
  revert curr t. induction itr as [|k itr IH]; intros curr t Hok Hcurr.
  { exists curr, t. split; [done|]. split_and!; try done. intros p. by rewrite app_nil_r. }
  destruct (lookup_lt_is_Some_2 _ _ Hcurr) as [nd Hnd].
  destruct (child_position_spec t curr nd k Hok Hnd) as ([pos [c|]]&Hpos&Hr); cbn [fst snd] in Hr;
    cbn [insert_loop]; rewrite Hnd; cbn [mbind option_bind]; rewrite Hpos; cbn [mbind option_bind fst snd].
  - destruct Hr as [Hc Hk]. apply list_elem_of_lookup_2 in Hc.
    destruct (ok_child _ _ Hok curr nd c Hnd Hc) as (_&cd&Hcd&_).
    destruct (IH c t Hok (lookup_lt_Some _ _ _ Hcd)) as (d&t'&->&Hok'&Hext&Hd&Hpath).
    exists d, t'. split_and!; try done. intros p Hp.
    rewrite (cons_middle k p itr), app_assoc. apply Hpath. by apply (path_of_child t curr nd).
  - destruct Hr as (Hlen&Hb&Ha).
    pose proof (add_child_ok t curr nd pos k Hok Hnd Hlen Hb Ha) as Hok1.
    pose proof (add_child_extends t curr nd pos k Hnd Hlen) as Hext1.
    pose proof (add_child_new t curr nd pos k) as Hnew.
    destruct (IH (length (nodes t)) _ Hok1 (lookup_lt_Some _ _ _ Hnew)) as (d&t'&->&Hok'&Hext&Hd&Hpath).
    exists d, t'. split; [done|]. split; [done|]. split; [by etrans|]. split; [done|]. intros p Hp.
    rewrite (cons_middle k p itr), app_assoc. apply Hpath.
    apply (path_child _ (length (nodes t)) (mk_node k (none t) [] (Some curr)) curr); [lia|done|done|].
    by apply (path_of_extends t).
Qed.

(** Writing a value. *)
Definition set_val t (i : nat) nd (v : V) : basic_trie K V :=
  mk_trie (<[i := mk_node (node_key nd) v (node_children nd) (node_parent nd)]> (nodes t))
    (internal_node_count t) (branch_count t) (none t).

Lemma set_val_lookup t i nd v j nd' :
  nodes t !! i = Some nd -> nodes t !! j = Some nd' ->
  nodes (set_val t i nd v) !! j =
    Some (mk_node (node_key nd') (if decide (j = i) then v else node_val nd') (node_children nd') (node_parent nd')).
Proof.
  intros Hi Hj. cbn. destruct (decide (j = i)) as [->|Hne].
  - rewrite list_lookup_insert_eq by (by eapply lookup_lt_Some). by simplify_eq.
  - rewrite list_lookup_insert_ne, Hj by done. by destruct nd'.
Qed.

Lemma set_val_lookup_inv t i nd v j nd' :
  nodes t !! i = Some nd -> nodes (set_val t i nd v) !! j = Some nd' ->
  exists nd0, nodes t !! j = Some nd0 /\ node_key nd' = node_key nd0 /\ node_children nd' = node_children nd0 /\
    node_parent nd' = node_parent nd0.
Proof.
  intros Hi Hj. destruct (nodes t !! j) as [nd0|] eqn:E.
  - exists nd0. rewrite (set_val_lookup t i nd v j nd0 Hi E) in Hj. by injection Hj as <-.
  - apply lookup_lt_Some in Hj. cbn in Hj. rewrite length_insert in Hj. apply lookup_ge_None in E. lia.
Qed.

Lemma set_val_ok t i nd v : trie_ok t -> nodes t !! i = Some nd -> trie_ok (set_val t i nd v).
Proof.
  intros Hok Hi. split.
  - destruct (ok_root _ _ Hok) as (rd&Hr&Hp). eexists. split; [by apply (set_val_lookup t i nd v 0%nat rd)|done].
  - intros j nd' c Hj Hc. destruct (set_val_lookup_inv t i nd v j nd' Hi Hj) as (nd0&H0&_&Hch&_).
    rewrite Hch in Hc. destruct (ok_child _ _ Hok j nd0 c H0 Hc) as (Hlt&cd&Hcd&Hp). split; [done|].
    eexists. split; [by apply (set_val_lookup t i nd v c cd)|done].
  - intros j nd' Hj. destruct (set_val_lookup_inv t i nd v j nd' Hi Hj) as (nd0&H0&_&Hch&_). rewrite Hch.
    eapply StronglySorted_impl_elem; [|by apply (ok_sorted _ _ Hok j nd0)].
    intros x y _ _ (kx&ky&Hx&Hy&Hxy). exists kx, ky.
    assert (Hkey : forall z kz, bt_key t z = Some kz -> bt_key (set_val t i nd v) z = Some kz).
    { intros z kz. unfold bt_key. destruct (nodes t !! z) as [zd|] eqn:E; [|done].
      by rewrite (set_val_lookup t i nd v z zd Hi E). }
    split_and!; [by apply Hkey|by apply Hkey|done].
  - intros j nd' Hj Hj0. destruct (set_val_lookup_inv t i nd v j nd' Hi Hj) as (nd0&H0&_&_&Hpar).
    destruct (ok_parent _ _ Hok j nd0 H0 Hj0) as (p&pd&Hp&Hpd&Hin). exists p. eexists.
    split; [congruence|]. split; [by apply (set_val_lookup t i nd v p pd)|done].
  - cbn. rewrite length_insert. apply (ok_branches _ _ Hok).
  - cbn [set_val internal_node_count nodes]. rewrite (filter_insert_length has_children _ i nd) by done.
    rewrite (ok_internal _ _ Hok). f_equal.
    change (has_children (mk_node _ _ _ _)) with (has_children nd). lia.
Qed.

Lemma set_val_path t i nd v j p : nodes t !! i = Some nd -> path_of t j p <-> path_of (set_val t i nd v) j p.
Proof.
  intros Hi. split; induction 1 as [|j nd' q l Hj Hnd' Hp _ IH]; try constructor.
  - apply (path_child (set_val t i nd v) j _ q l Hj (set_val_lookup t i nd v j nd' Hi Hnd') Hp IH).
  - destruct (set_val_lookup_inv t i nd v j nd' Hi Hnd') as (nd0&H0&->&_&Hpar).
    apply (path_child _ j nd0 q); [done|done|congruence|done].
Qed.

(** ** The tree of a trie *)

#[local] Instance basic_trie_laws t : trie_ok t -> TrieLaws t key_less.
Proof.
  intros Hok. split. intros s ss ks k Ht Hk _. cbn in Ht, Hk. unfold bt_transitions in Ht.
  destruct (nodes t !! s) as [nd|] eqn:Hs; [|done]. cbn in Ht. injection Ht as <-.
  cbn [transition bt_ops basic_trie_ops start]. unfold bt_transition. rewrite Hs. cbn [mbind option_bind].
  destruct (child_position_spec t s nd k Hok Hs) as ([pos [c|]]&->&Hr); cbn [mbind option_bind fst snd] in *.
  - left. destruct Hr as [Hc Hkc]. exists pos, c. split; [|done].
    destruct (Forall2_lookup_l _ _ _ _ _ Hk Hc) as (k'&->&Hk'). congruence.
  - right. split; [|done]. intros (i&Hi)%list_elem_of_lookup.
    destruct (Forall2_lookup_r _ _ _ _ _ Hk Hi) as (c&Hc&Hkc). destruct Hr as (_&Hb&Ha).
    apply list_elem_of_lookup_2 in Hc. rewrite <- (take_drop pos (node_children nd)), elem_of_app in Hc.
    rewrite Forall_forall in Hb, Ha.
    destruct Hc as [Hc|Hc]; [destruct (Hb c Hc) as (kc&Hkc'&Hlt)|destruct (Ha c Hc) as (kc&Hkc'&Hlt)];
      rewrite Hkc in Hkc'; injection Hkc' as <-; by rewrite sw_irrefl in Hlt.
Qed.

(** Every node unfolds to a finite tree, with its children in order. *)
Lemma trie_unfolds t i :
  trie_ok t -> (i < length (nodes t))%nat ->
  exists a, unfolds t i a /\ tree_sorted key_less a /\ (tree_height a <= length (nodes t) - i)%nat.
Proof.
  intros Hok. remember (length (nodes t) - i)%nat as n eqn:Hn. revert i Hn.
  induction n as [n IH] using lt_wf_ind. intros i Hn Hi.
  destruct (lookup_lt_is_Some_2 _ _ Hi) as [nd Hnd].
  assert (Hcs : exists cs : list (K * tree K V),
    Forall2 (fun c d => bt_key t c = Some d.1 /\ unfolds t c d.2 /\ tree_sorted key_less d.2 /\
                        (tree_height d.2 < n)%nat) (node_children nd) cs).
  { pose proof (fun c => ok_child _ _ Hok i nd c Hnd) as Hc. revert Hc. clear Hnd.
    induction (node_children nd) as [|c l IHl]; intros Hc; [by exists []|].
    destruct IHl as [cs Hcs]; [intros x Hx; apply Hc; by right|].
    destruct (Hc c ltac:(left)) as (Hlt&cd&Hcd&_). apply lookup_lt_Some in Hcd as Hcl.
    destruct (IH (length (nodes t) - c)%nat ltac:(lia) c eq_refl Hcl) as (a&Hu&Hs&Hh).
    exists ((node_key cd, a) :: cs). constructor; [|done]. cbn. unfold bt_key. rewrite Hcd.
    split_and!; [done|done|done|lia]. }
  destruct Hcs as [cs Hcs]. exists (Tree (node_val nd) cs). split_and!.
  - apply (unfolds_tree t i (node_val nd) (node_children nd) cs).
    + cbn. unfold bt_value. by rewrite Hnd.
    + cbn. unfold bt_transitions. by rewrite Hnd.
    + eapply Forall2_impl; [exact Hcs|]. by intros c d (Hk&_).
    + eapply Forall2_impl; [exact Hcs|]. by intros c d (_&Hu&_).
  - constructor.
    + pose proof (ok_sorted _ _ Hok i nd Hnd) as Hs. revert Hcs Hs. clear.
      generalize (node_children nd) as l. intros l Hcs. induction Hcs as [|c d l cs (Hk&_) Hcs IH]; intros Hs; [constructor|].
      inversion Hs as [|? ? Hs' Hall]; subst. constructor; [by apply IH|].
      rewrite Forall_forall in Hall. apply Forall_forall. intros k (d'&->&Hd')%list_elem_of_fmap.
      apply list_elem_of_lookup in Hd' as [j Hj]. destruct (Forall2_lookup_r _ _ _ _ _ Hcs Hj) as (c'&Hc'&(Hk'&_)).
      apply list_elem_of_lookup_2 in Hc'. destruct (Hall c' Hc') as (ka&kb&Ha&Hb&Hab). congruence.
    + apply Forall_forall. intros d (j&Hj)%list_elem_of_lookup.
      by destruct (Forall2_lookup_r _ _ _ _ _ Hcs Hj) as (c&_&_&_&Hs&_).
  - cbn [tree_height]. assert (Hmax : (foldr (fun c n => Nat.max (tree_height c.2) n) 0 cs <= n - 1)%nat).
    { clear - Hcs. induction Hcs as [|c d l cs (_&_&_&Hh) _ IH]; cbn [foldr]; lia. }
    lia.
Qed.

(** The values stored, by path: the finite map that a trie represents. *)
Definition contents (n : V) (a : tree K V) (p : list K) : option V :=
  match tree_lookup a p with
  | Some v => if decide (v = n) then None else Some v
  | None => None
  end.

Lemma tree_descend_snoc (a b d : tree K V) p k :
  tree_descend a p = ([], b) -> tree_child k (tree_children b) = Some d -> tree_descend a (p ++ [k]) = ([], d).
Proof.
  revert a. induction p as [|x p IH]; intros a; cbn; [intros [= ->] ->; done|].
  destruct (tree_child x _); [apply IH|done].
Qed.

Lemma lookup_path_of t s a q p v :
  trie_ok t -> unfolds t s a -> path_of t s q -> tree_lookup a p = Some v ->
  exists i, path_of t i (q ++ p) /\ bt_value t i = Some v.
Proof.
  intros Hok. revert s a q. unfold tree_lookup. induction p as [|k p IH]; intros s a q Hu Hq.
  - cbn. intros [= <-]. exists s. rewrite app_nil_r. split; [done|].
    by destruct (unfolds_inv t s a Hu) as (ss&Hv&_).
  - cbn. destruct (tree_child k (tree_children a)) as [b|] eqn:E; [|done].
    destruct (tree_child_Some k _ b E) as [i Hi]. destruct (unfolds_inv t s a Hu) as (ss&_&Ht&Hk&Hc).
    destruct (Forall2_lookup_r _ _ _ _ _ Hc Hi) as (c&Hc'&Hub). cbn in Hub.
    assert (Hkc : state_key t c = Some k).
    { apply (Forall2_lookup_lr _ _ _ _ _ _ Hk Hc'). by rewrite list_lookup_fmap, Hi. }
    cbn in Ht. unfold bt_transitions in Ht. destruct (nodes t !! s) as [nd|] eqn:Hs; [|done].
    cbn in Ht. injection Ht as <-. apply list_elem_of_lookup_2 in Hc'. intros Hv.
    destruct (IH c b (q ++ [k]) Hub) as (j&Hj&Hvj); [by apply (path_of_child t s nd)|done|].
    exists j. by rewrite (cons_middle k q p), app_assoc.
Qed.

Lemma path_of_lookup t i a p :
  trie_ok t -> unfolds t 0%nat a -> tree_sorted key_less a -> path_of t i p ->
  exists b, tree_descend a p = ([], b) /\ unfolds t i b /\ tree_sorted key_less b.
Proof.
  intros Hok Hu Hs. induction 1 as [|i nd q l Hi Hnd Hp Hl IH]; [by exists a|].
  destruct IH as (b&Hd&Hub&Hsb).
  destruct (ok_parent _ _ Hok i nd Hnd Hi) as (p'&pd&Hp'&Hpd&Hin). rewrite Hp in Hp'. injection Hp' as <-.
  destruct (unfolds_inv t q b Hub) as (ss&_&Ht&Hk&Hc). cbn in Ht. unfold bt_transitions in Ht.
  rewrite Hpd in Ht. cbn in Ht. injection Ht as <-. apply list_elem_of_lookup in Hin as [j Hj].
  destruct (Forall2_lookup_l _ _ _ _ _ Hc Hj) as ([k d]&Hd'&Hud).
  destruct (Forall2_lookup_l _ _ _ _ _ Hk Hj) as (k'&Hk'&Hkey).
  rewrite list_lookup_fmap, Hd' in Hk'. injection Hk' as <-. cbn in Hkey, Hud. unfold bt_key in Hkey.
  rewrite Hnd in Hkey. injection Hkey as ->. destruct (tree_sorted_inv key_less b Hsb) as [Hsk Hsub].
  exists d. split; [|split; [done|]].
  - eapply tree_descend_snoc; [exact Hd|]. by apply (tree_child_lookup key_less _ _ j d).
  - rewrite Forall_lookup in Hsub. apply (Hsub j _ Hd').
Qed.

(** The map of a trie, read off its nodes. *)
Lemma contents_nodes t a p v :
  trie_ok t -> unfolds t 0%nat a -> tree_sorted key_less a ->
  contents (none t) a p = Some v <-> v <> none t /\ exists i, path_of t i p /\ bt_value t i = Some v.
Proof.
  intros Hok Hu Hs. unfold contents. split.
  - destruct (tree_lookup a p) as [w|] eqn:E; [|done]. case_decide; [done|]. intros [= <-]. split; [done|].
    by apply (lookup_path_of t 0%nat a [] p w Hok Hu (path_root t)).
  - intros (Hne&i&Hi&Hv). destruct (path_of_lookup t i a p Hok Hu Hs Hi) as (b&Hd&Hub&_).
    unfold tree_lookup. rewrite Hd. destruct (unfolds_inv t i b Hub) as (ss&Hvb&_). cbn in Hvb.
    rewrite Hvb in Hv. injection Hv as ->. by rewrite decide_False.
Qed.

(** A path leads to one node. *)
Lemma path_of_inj t i j p : trie_ok t -> path_of t i p -> path_of t j p -> i = j.
Proof.
  intros Hok Hi. revert j. induction Hi as [|i nd q l Hi0 Hnd Hp Hl IH]; intros j Hj.
  - remember [] as p0 eqn:E. destruct Hj as [|j nd' q' l' Hj0 Hnd' Hp' Hl']; [done|by destruct l'].
  - remember (l ++ [node_key nd]) as p0 eqn:E. destruct Hj as [|j nd' q' l' Hj0 Hnd' Hp' Hl']; [by destruct l|].
    apply app_inj_tail in E as [-> Hkey]. rewrite (IH q' Hl') in *.
    destruct (ok_parent _ _ Hok i nd Hnd Hi0) as (p1&pd&Hp1&Hpd&Hin). rewrite Hp in Hp1. injection Hp1 as <-.
    destruct (ok_parent _ _ Hok j nd' Hnd' Hj0) as (p2&pd'&Hp2&Hpd'&Hin'). rewrite Hp' in Hp2. injection Hp2 as <-.
    rewrite Hpd in Hpd'. injection Hpd' as <-.
    pose proof (ok_sorted _ _ Hok q' pd Hpd) as Hs.
    apply list_elem_of_lookup in Hin as [x Hx], Hin' as [y Hy].
    assert (Hnot : forall u v, before t u v -> bt_key t u = Some (node_key nd) -> bt_key t v = Some (node_key nd) -> False).
    { intros u v (ku&kv&Hu&Hv&Huv) H1 H2. rewrite H1 in Hu. rewrite H2 in Hv. injection Hu as <-. injection Hv as <-.
      by rewrite sw_irrefl in Huv. }
    assert (Hki : bt_key t i = Some (node_key nd)) by (unfold bt_key; by rewrite Hnd).
    assert (Hkj : bt_key t j = Some (node_key nd)) by (unfold bt_key; rewrite Hnd'; cbn; by rewrite Hkey).
    destruct (lt_eq_lt_dec x y) as [[Hlt| ->]|Hlt]; [|congruence|].
    + destruct (Hnot i j (StronglySorted_lookup_lt _ _ _ _ _ _ Hs Hx Hy Hlt) Hki Hkj).
    + destruct (Hnot j i (StronglySorted_lookup_lt _ _ _ _ _ _ Hs Hy Hx Hlt) Hkj Hki).
Qed.

(** The root of a trie unfolds to one sorted tree. *)
Lemma root_tree t a : trie_ok t -> unfolds t 0%nat a -> tree_sorted key_less a.
Proof.
  intros Hok Hu. destruct (ok_root _ _ Hok) as (rd&Hr&_). apply lookup_lt_Some in Hr.
  destruct (trie_unfolds t 0 Hok Hr) as (b&Hub&Hsb&_). by rewrite (unfolds_fun t 0%nat a b Hu Hub).
Qed.

(** Adding nodes without a value does not change the map. *)
Lemma contents_extends t t' a a' q :
  trie_ok t -> trie_ok t' -> extends t t' -> unfolds t 0%nat a -> unfolds t' 0%nat a' ->
  contents (none t) a' q = contents (none t) a q.
Proof.
  intros Hok Hok' He Hu Hu'. apply option_eq. intros w. pose proof (ex_none _ _ He) as Hn. rewrite <- Hn at 1.
  rewrite (contents_nodes t' a' q w Hok' Hu' (root_tree _ _ Hok' Hu')).
  rewrite (contents_nodes t a q w Hok Hu (root_tree _ _ Hok Hu)). rewrite Hn.
  apply and_iff_under. intros Hw. split; intros (i&Hi&Hv).
  - exists i. unfold bt_value in *. destruct (nodes t' !! i) as [nd'|] eqn:Hnd'; [|done]. cbn in Hv. injection Hv as Hv.
    destruct (nodes t !! i) as [nd|] eqn:Hnd.
    + destruct (ex_old _ _ He i nd Hnd) as (nd2&H2&_&Hv2&_). rewrite Hnd' in H2. injection H2 as <-.
      split; [|cbn; congruence]. destruct (path_total t i Hok (lookup_lt_Some _ _ _ Hnd)) as [q' Hq'].
      by rewrite (path_of_fun t' i q q' Hi (path_of_extends t t' i q' He Hq')).
    + pose proof (ex_new _ _ He i nd' Hnd' Hnd). congruence.
  - exists i. split; [by apply (path_of_extends t)|]. unfold bt_value in *.
    destruct (nodes t !! i) as [nd|] eqn:Hnd; [|done]. cbn in Hv. injection Hv as <-.
    destruct (ex_old _ _ He i nd Hnd) as (nd2&H2&_&Hv2&_). rewrite H2. cbn. by rewrite Hv2.
Qed.

(** Writing a value changes the map at the path of the node. *)
Lemma contents_set_val t i nd v a a' p q :
  trie_ok t -> nodes t !! i = Some nd -> path_of t i p -> unfolds t 0%nat a ->
  unfolds (set_val t i nd v) 0%nat a' ->
  contents (none t) a' q =
    if decide (q = p) then (if decide (v = none t) then None else Some v) else contents (none t) a q.
Proof.
  intros Hok Hi Hp Hu Hu'. pose proof (set_val_ok t i nd v Hok Hi) as Hok'. apply option_eq. intros w.
  rewrite (contents_nodes (set_val t i nd v) a' q w Hok' Hu' (root_tree _ _ Hok' Hu')).
  change (none (set_val t i nd v)) with (none t).
  assert (Hval : forall j, bt_value (set_val t i nd v) j =
            if decide (j = i) then Some v else bt_value t j).
  { intros j. unfold bt_value. destruct (nodes t !! j) as [nd'|] eqn:E.
    - rewrite (set_val_lookup t i nd v j nd' Hi E). cbn. by case_decide.
    - destruct (decide (j = i)) as [->|]; [congruence|]. cbn. by rewrite list_lookup_insert_ne, E. }
  destruct (decide (q = p)) as [->|Hq].
  - split.
    + intros (Hw&j&Hj&Hv). apply (set_val_path t i nd v j p Hi) in Hj.
      rewrite Hval, (path_of_inj t j i p Hok Hj Hp), decide_True in Hv by done. injection Hv as ->.
      by rewrite decide_False.
    + case_decide; [done|]. intros [= <-]. split; [done|]. exists i.
      split; [by apply (set_val_path t i nd v i p Hi)|]. by rewrite Hval, decide_True.
  - rewrite (contents_nodes t a q w Hok Hu (root_tree _ _ Hok Hu)). apply and_iff_under. intros _.
    split; intros (j&Hj&Hv); exists j; rewrite Hval in *.
    + apply (set_val_path t i nd v j q Hi) in Hj. split; [done|]. rewrite decide_False in Hv; [done|].
      intros ->. by destruct Hq; apply (path_of_fun t i).
    + split; [by apply (set_val_path t i nd v j q Hi)|]. rewrite decide_False; [done|].
      intros ->. by destruct Hq; apply (path_of_fun t i).
Qed.

(** C32: inserting into a trie keeps its invariant and changes the finite map it
    represents at the path inserted and nowhere else.  A path that has a value
    keeps it, and the result is [false]; the state returned is the one of the
    path in every case. *)
Theorem bt_insert_refines t a (path : list K) (v : V) :
  trie_ok t -> unfolds t 0%nat a ->
  exists b s t' a', bt_insert key_less path v t = Some (b, s, t') /\ trie_ok t' /\ none t' = none t /\
    unfolds t' 0%nat a' /\ trie_path s t' s = Some path /\
    match contents (none t) a path with
    | Some w => b = false /\ bt_value t' s = Some w /\
        forall q, contents (none t) a' q = contents (none t) a q
    | None => b = true /\ bt_value t' s = Some v /\
        forall q, contents (none t) a' q =
          if decide (q = path) then (if decide (v = none t) then None else Some v) else contents (none t) a q
    end.
Proof.
  intros Hok Hu. destruct (ok_root _ _ Hok) as (rd&Hr&_). apply lookup_lt_Some in Hr.
  destruct (insert_loop_spec path 0 t Hok Hr) as (c&t1&Hloop&Hok1&Hext&Hc&Hpath).
  specialize (Hpath [] (path_root t)). cbn [app] in Hpath.
  destruct (ok_root _ _ Hok1) as (rd1&Hr1&_). apply lookup_lt_Some in Hr1.
  destruct (trie_unfolds t1 0 Hok1 Hr1) as (a1&Hu1&Hs1&_).
  pose proof (contents_extends t t1 a a1 path Hok Hok1 Hext Hu Hu1) as Hat.
  destruct (lookup_lt_is_Some_2 _ _ Hc) as [nd Hnd]. pose proof (ex_none _ _ Hext) as Hnone.
  assert (Hvnd : bt_value t1 c = Some (node_val nd)) by (unfold bt_value; by rewrite Hnd).
  unfold bt_insert, bt_insert_at. rewrite Hloop. cbn [mbind option_bind fst snd]. rewrite Hnd.
  cbn [mbind option_bind]. unfold valset. rewrite Hnone. destruct (bool_decide_reflect (node_val nd = none t)) as [Hv|Hv].
  - pose proof (set_val_ok t1 c nd v Hok1 Hnd) as Hok2.
    assert (Hr2 : (0 < length (nodes (set_val t1 c nd v)))%nat) by (cbn; by rewrite length_insert).
    destruct (trie_unfolds (set_val t1 c nd v) 0 Hok2 Hr2) as (a2&Hu2&_).
    assert (Hempty : contents (none t) a path = None).
    { rewrite <- Hat. destruct (contents (none t) a1 path) as [w|] eqn:E; [|done]. rewrite <- Hnone in E.
      apply (contents_nodes t1 a1 path w Hok1 Hu1 Hs1) in E as (Hw&i&Hi&Hvi).
      rewrite (path_of_inj t1 i c path Hok1 Hi Hpath), Hvnd in Hvi. congruence. }
    exists true, c, (set_val t1 c nd v), a2. rewrite Hempty. cbn [negb]. rewrite <- Hnone. split; [done|].
    split; [done|]. split; [done|]. split; [done|]. split.
    { apply trie_path_of; [done|done|]. by apply (set_val_path t1 c nd v c path Hnd). }
    split; [done|]. split.
    { unfold bt_value. rewrite (set_val_lookup t1 c nd v c nd Hnd Hnd). cbn. by rewrite decide_True. }
    intros q. rewrite (contents_set_val t1 c nd v a1 a2 path q Hok1 Hnd Hpath Hu1 Hu2). rewrite Hnone.
    case_decide; [done|]. by apply (contents_extends t t1).
  - assert (Hset : contents (none t) a path = Some (node_val nd)).
    { rewrite <- Hat, <- Hnone. apply (contents_nodes t1 a1 path _ Hok1 Hu1 Hs1). split; [congruence|]. by exists c. }
    exists false, c, t1, a1. rewrite Hset. split; [done|]. split; [done|]. split; [done|]. split; [done|].
    split; [by apply trie_path_of|]. split; [done|]. split; [done|]. intros q. by apply (contents_extends t t1).
Qed.

Lemma trie_find_loop_snoc t s x y q k :
  trie_find_loop t s q = Some ([], x) -> transition t x k = Some (true, y) ->
  trie_find_loop t s (q ++ [k]) = Some ([], y).
Proof.
  revert s. induction q as [|k' q IH]; intros s; cbn [trie_find_loop app].
  - intros [= ->] ->. done.
  - destruct (transition t s k') as [[[] s']|]; [|done|done]. cbn [mbind option_bind fst snd]. apply IH.
Qed.

(** [trie_path] and [trie_find] are inverse: every node has a path, and
    looking it up leads back to the node. *)
Theorem trie_path_find t s :
  trie_ok t -> (s < length (nodes t))%nat ->
  exists p f, trie_path s t s = Some p /\ trie_find t 0%nat p = Some (mk_find_result f [] s).
Proof.
  intros Hok Hs. destruct (path_total t s Hok Hs) as [p Hp]. exists p.
  assert (Hloop : trie_find_loop t 0%nat p = Some ([], s)).
  { induction Hp as [|i nd q l Hi Hnd Hpar Hl IH]; [done|].
    destruct (ok_parent _ _ Hok i nd Hnd Hi) as (q'&pd&Hq'&Hpd&Hin). rewrite Hpar in Hq'. injection Hq' as <-.
    apply (trie_find_loop_snoc t 0%nat q i l (node_key nd)); [apply IH; by eapply lookup_lt_Some|].
    cbn. unfold bt_transition. rewrite Hpd. cbn [mbind option_bind].
    destruct (child_position_spec t q pd (node_key nd) Hok Hpd) as ([pos [c|]]&->&Hr); cbn [mbind option_bind fst snd] in *.
    - destruct Hr as [Hc Hk]. apply list_elem_of_lookup_2 in Hc.
      by rewrite (path_of_inj t c i (l ++ [node_key nd]) Hok (path_of_child t q pd c _ l Hok Hpd Hc Hk Hl)
                   (path_child t i nd q l Hi Hnd Hpar Hl)).
    - destruct Hr as (_&Hb&Ha). rewrite <- (take_drop pos (node_children pd)), elem_of_app in Hin.
      rewrite Forall_forall in Hb, Ha. unfold bt_key in Hb, Ha.
      destruct Hin as [Hin|Hin]; [destruct (Hb i Hin) as (k&Hk&Hlt)|destruct (Ha i Hin) as (k&Hk&Hlt)];
        rewrite Hnd in Hk; injection Hk as <-; by rewrite sw_irrefl in Hlt. }
  destruct (lookup_lt_is_Some_2 _ _ Hs) as [nd Hnd].
  eexists. split; [by apply trie_path_of|]. unfold trie_find. rewrite Hloop. cbn. unfold bt_value.
  by rewrite Hnd.
Qed.

Lemma new_basic_trie_ok (n : V) : trie_ok (new_basic_trie default_key n).
Proof.
  split; [by eexists| | | |done|done].
  - intros [|i] nd c Hi Hc; [|done]. injection Hi as <-. by apply not_elem_of_nil in Hc.
  - intros [|i] nd Hi; [|done]. injection Hi as <-. constructor.
  - intros [|i] nd Hi Hne; done.
Qed.

Lemma bt_insert_ok t path v b s t' : trie_ok t -> bt_insert key_less path v t = Some (b, s, t') -> trie_ok t'.
Proof.
  intros Hok. destruct (ok_root _ _ Hok) as (rd&Hr&_). apply lookup_lt_Some in Hr.
  destruct (insert_loop_spec path 0 t Hok Hr) as (c&t1&Hloop&Hok1&_&Hc&_).
  destruct (lookup_lt_is_Some_2 _ _ Hc) as [nd Hnd].
  unfold bt_insert, bt_insert_at. rewrite Hloop. cbn [mbind option_bind fst snd]. rewrite Hnd.
  cbn [mbind option_bind]. destruct (valset _ _); [by intros [= _ _ <-]|].
  intros [= _ _ <-]. by apply (set_val_ok t1 c nd v).
Qed.
End lemmas.

(** * Examples

    Keys and values are numbers, and 0 is no value. *)

Fixpoint bt_insert_all (ps : list (list Z * Z)) (t : basic_trie Z Z) : option (basic_trie Z Z) :=
  match ps with
  | [] => Some t
  | p :: ps => r ← bt_insert Z.ltb p.1 p.2 t; bt_insert_all ps r.2
  end.

Lemma bt_insert_all_ok ps t t' : trie_ok Z.ltb t -> bt_insert_all ps t = Some t' -> trie_ok Z.ltb t'.
Proof.
  revert t. induction ps as [|p ps IH]; intros t Hok; cbn; [by intros [= <-]|].
  destruct (bt_insert Z.ltb p.1 p.2 t) as [[[b s] t1]|] eqn:E; [|done]. cbn.
  apply IH. by apply (bt_insert_ok Z.ltb t p.1 p.2 b s).
Qed.

Definition sample_paths : list (list Z * Z) := [([1; 3], 6); ([1; 2], 5); ([1], 7); ([4; 4], 8)].

Definition sample_trie : basic_trie Z Z :=
  default (new_basic_trie 0 0) (bt_insert_all sample_paths (new_basic_trie 0 0)).

Lemma sample_trie_ok : trie_ok Z.ltb sample_trie.
Proof.
  apply (bt_insert_all_ok sample_paths (new_basic_trie 0 0)); [apply new_basic_trie_ok|]. vm_compute. reflexivity.
Qed.

Lemma sample_trie_tree : exists a, @unfolds _ _ _ _ (basic_trie_ops Z.ltb) sample_trie 0%nat a.
Proof.
  destruct (trie_unfolds Z.ltb sample_trie 0 sample_trie_ok) as (a&Hu&_); [vm_compute; lia|by exists a].
Qed.

(** [1; 2] has a value, [4] has none. *)
Lemma bt_insert_refines_witness :
  exists a b s t' a', bt_insert Z.ltb [4] 9 sample_trie = Some (b, s, t') /\ trie_ok Z.ltb t' /\
    @unfolds _ _ _ _ (basic_trie_ops Z.ltb) t' 0%nat a' /\ trie_path s t' s = Some [4] /\
    @unfolds _ _ _ _ (basic_trie_ops Z.ltb) sample_trie 0%nat a.
Proof.
  destruct sample_trie_tree as [a Hu].
  destruct (bt_insert_refines Z.ltb sample_trie a [4] 9 sample_trie_ok Hu)
    as (b&s&t'&a'&Hi&Hok&_&Hu'&Hp&_).
  exists a, b, s, t', a'. exact (conj Hi (conj Hok (conj Hu' (conj Hp Hu)))).
Defined.

Lemma trie_path_find_witness :
  exists p f, trie_path 3 sample_trie 3 = Some p /\
    @trie_find _ _ _ _ (basic_trie_ops Z.ltb) _ sample_trie 0%nat p = Some (mk_find_result f [] 3%nat).
Proof. apply (trie_path_find Z.ltb sample_trie 3 sample_trie_ok). vm_compute. lia. Defined.
