(* ===== verification/FixedTrie.v ===== *)
(** The fixed trie: src/gusc/gusc/trie/fixed_trie.hpp and impl/fixed_trie.ipp, a
    trie that keeps its nodes in one block of memory and is built from another
    trie.

    The block is a map from byte offsets to the objects constructed there, nodes
    and numbers of children; [sizeof_node] is a parameter.  [None] is an access
    outside of the block or to an object that is not there, or a failing
    assertion; [debug] tells whether assertions are compiled in.  Offsets are
    [boost::uint32_t]. *)
From S2P Require Import Prelude Trie BasicTrie.
Open Scope Z_scope.

Section fixed_trie.
Context {K V : Type} `{!EqDecision K, !EqDecision V} (key_less : K -> K -> bool).
Context (sizeof_node : Z) (debug : bool).

(** [sizeof(uint_type)] *)
Definition sizeof_uint : Z := 4.

(** What is constructed at an offset: [node], or the [num_children] record. *)
Inductive cell :=
  | Node (key : K) (val : V) (child_offset : Z)
  | Count (n : Z).

Definition sizeof (c : cell) : Z := match c with Node _ _ _ => sizeof_node | Count _ => sizeof_uint end.

Record fixed_trie := mk_fixed {
  trie_ : gmap Z cell;
  sz : Z;
  fixed_none : V
}.

Implicit Types (buf : gmap Z cell) (ft : fixed_trie).

(** Constructing or assigning an object in a block of [size] bytes. *)
Definition store (size : Z) buf (offset : Z) (c : cell) : option (gmap Z cell) :=
  if (0 <=? offset) && (offset + sizeof c <=? size) then Some (<[offset := c]> buf) else None.

Definition load_node buf (s : Z) : option (K * V * Z) :=
  match buf !! s with Some (Node k v o) => Some (k, v, o) | _ => None end.

Definition load_count buf (offset : Z) : option Z :=
  match buf !! offset with Some (Count n) => Some n | _ => None end.

(** The pointers from [child_begin] to [child_end], both null without children. *)
Definition child_range buf (s : Z) : option (list Z) :=
  nd ← load_node buf s;
  if nd.2 =? 0 then Some []
  else n ← load_count buf (nd.2 - sizeof_uint);
       Some ((fun i => nd.2 + sizeof_node * i) <$> seqZ 0 n).

Definition assert_ (b : bool) : option unit := if debug && negb b then None else Some tt.

(** [transition(s, k)] *)
Definition ft_transition ft (s : Z) (k : K) : option (bool * Z) :=
  ss ← child_range (trie_ ft) s;
  let less p := match load_node (trie_ ft) p with Some nd => key_less nd.1.1 k | None => false end in
  match ss !! lower_bound less ss with
  | Some p => nd ← load_node (trie_ ft) p; if decide (nd.1.1 = k) then Some (true, p) else Some (false, 0)
  | None => Some (false, 0)
  end.

Definition ft_key ft (s : Z) : option K := nd ← load_node (trie_ ft) s; Some nd.1.1.
Definition ft_value ft (s : Z) : option V := nd ← load_node (trie_ ft) s; Some nd.1.2.

(** [set_value(s, v)] *)
Definition ft_set_value ft (s : Z) (v : V) : option fixed_trie :=
  nd ← load_node (trie_ ft) s;
  Some (mk_fixed (<[s := Node nd.1.1 v nd.2]> (trie_ ft)) (sz ft) (fixed_none ft)).

Definition fixed_trie_ops : TrieOps fixed_trie Z K V := {|
  start _ := 0;
  transitions ft s := child_range (trie_ ft) s;
  transition := ft_transition;
  state_key := ft_key;
  state_value := ft_value;
  nonvalue := fixed_none
|}.

(** ** Construction *)

Section build.
Context {T St : Type} `{!TrieOps T St K V} (trie : T) (f : V -> V) (size : Z).

(** The constructor of [node]. *)
Definition new_node (s : St) : option cell :=
  k ← state_key trie s; v ← state_value trie s; Some (Node k (f v) 0).

(** The assertions that [curr] is the node of [s]. *)
Definition assert_same buf (curr : Z) (s : St) : option unit :=
  nd ← load_node buf curr;
  k ← state_key trie s;
  v ← state_value trie s;
  _ ← assert_ (bool_decide (nd.1.1 = k));
  assert_ (bool_decide (nd.1.2 = v)).

(** The assertions after a child was built. *)
Definition assert_built buf (curr : Z) (s : St) : option unit :=
  nd ← load_node buf curr;
  k ← state_key trie s;
  v ← state_value trie s;
  _ ← assert_ (bool_decide (nd.1.1 = k));
  assert_ (bool_decide (nd.1.2 = f v)).

(** The first loop of [build]: nodes for the children, counted at [count_at]. *)
Fixpoint place_children (ss : list St) (count_at : Z) buf (offset : Z) : option (gmap Z cell * Z) :=
  match ss with
  | [] => Some (buf, offset)
  | s :: ss =>
      nd ← new_node s;
      buf ← store size buf offset nd;
      n ← load_count buf count_at;
      buf ← store size buf count_at (Count (u32 (n + 1)));
      place_children ss count_at buf (u32 (offset + sizeof_node))
  end.

(** [build(trie, s, f, curr, buf, offset)] *)
Fixpoint build (fuel : nat) (s : St) (curr : Z) buf (offset : Z) : option (gmap Z cell * Z) :=
  match fuel with
  | O => None
  | S fuel =>
      _ ← assert_same buf curr s;
      ss ← transitions trie s;
      match ss with
      | [] => Some (buf, offset)
      | _ =>
          let count_at := offset in
          let offset := u32 (offset + sizeof_uint) in
          buf ← store size buf count_at (Count 0);
          nd ← load_node buf curr;
          buf ← store size buf curr (Node nd.1.1 nd.1.2 offset);
          r ← place_children ss count_at buf offset;
          let '(buf, offset) := r in
          children ← child_range buf curr;
          _ ← assert_same buf curr s;
          n ← load_count buf count_at;
          _ ← assert_ (n =? Z.of_nat (length ss));
          _ ← assert_ (length ss =? length children)%nat;
          foldl (fun r p =>
            r ← r;
            r ← build fuel (p : St * Z).1 p.2 r.1 r.2;
            _ ← assert_built r.1 p.2 p.1;
            Some r) (Some (buf, offset)) (combine ss children)
      end
  end.
End build.

(** [init(trie, s, f)] *)
Definition init {T St : Type} `{!TrieOps T St K V} (fuel : nat) (trie : T) (s : St) (f : V -> V)
  : option fixed_trie :=
  c ← count fuel trie s 0 0;
  let size := u32 (sizeof_node * c.2 + sizeof_uint * c.1) in
  x ← new_node trie f s;
  buf ← store size ∅ 0 x;
  r ← build trie f size fuel s 0 buf (u32 sizeof_node);
  _ ← assert_ (r.2 =? size);
  v ← state_value trie (start trie);
  nd ← load_node r.1 0;
  _ ← assert_ (bool_decide (f v = nd.1.2));
  Some (mk_fixed r.1 size (nonvalue trie)).

(** ** Serialization *)

(** The archive as the sequence of the objects written. *)
Inductive archived :=
  | AUint (n : Z)
  | AValue (v : V)
  | ABinary (buf : gmap Z cell) (n : Z).

Definition ft_save ft : list archived :=
  [AUint (sz ft); AValue (fixed_none ft); ABinary (trie_ ft) (sz ft)].

Definition ft_load (ar : list archived) : option (fixed_trie * list archived) :=
  match ar with
  | AUint s :: AValue n :: ABinary t s' :: ar => if s =? s' then Some (mk_fixed t s n, ar) else None
  | _ => None
  end.
End fixed_trie.

Arguments cell K V : clear implicits.
Arguments fixed_trie K V : clear implicits.

(** * What a block stores *)

Section stored.
Context {K V : Type} `{!EqDecision K, !EqDecision V} (key_less : K -> K -> bool).
Context (sizeof_node : Z) (debug : bool) (Hsizeof : 0 < sizeof_node).
Implicit Types (buf : gmap Z (cell K V)) (a : tree K V).

Definition position (co : Z) (i : nat) : Z := co + sizeof_node * Z.of_nat i.

(** The node at [x] is the root of [a]; all else is in [lo .. hi). *)
Inductive stored buf (lo hi : Z) : Z -> tree K V -> Prop :=
  | stored_tree x k v co cs :
      buf !! x = Some (Node k v co) ->
      (cs = [] /\ co = 0 \/
       cs <> [] /\ 0 < co /\ buf !! (co - sizeof_uint) = Some (Count (Z.of_nat (length cs))) /\
       lo <= co - sizeof_uint < hi) ->
      (forall i c, cs !! i = Some c -> lo <= position co i < hi /\
         exists v' o', buf !! position co i = Some (Node c.1 v' o')) ->
      (forall i c, cs !! i = Some c -> stored buf lo hi (position co i) c.2) ->
      stored buf lo hi x (Tree v cs).

(** The bytes below a node. *)
Fixpoint bytes_below a : Z :=
  let 'Tree _ cs := a in
  match cs with [] => 0 | _ => sizeof_uint + sizeof_node * Z.of_nat (length cs) end +
  foldr (fun c n => bytes_below c.2 + n) 0 cs.

Lemma bytes_below_eq a :
  bytes_below a = sizeof_node * (tree_nodes a - 1) + sizeof_uint * tree_internal a.
Proof.
  induction a as [v cs IH] using tree_ind'. cbn [bytes_below tree_nodes tree_internal].
  assert (Hsum : foldr (fun c n => bytes_below c.2 + n) 0 cs =
    sizeof_node * (foldr (fun c n => tree_nodes c.2 + n) 0 cs - Z.of_nat (length cs)) +
    sizeof_uint * foldr (fun c n => tree_internal c.2 + n) 0 cs).
  { induction IH as [|c cs Hc _ IHcs]; [cbn; lia|]. cbn [foldr length]. rewrite Hc, IHcs. lia. }
  rewrite Hsum. destruct cs; cbn [length]; lia.
Qed.

Lemma bytes_below_nonneg a : 0 <= bytes_below a.
Proof.
  rewrite bytes_below_eq. pose proof (tree_nodes_pos a). unfold sizeof_uint. nia.
Qed.

Lemma stored_frame buf buf' lo hi lo' hi' x a :
  stored buf lo hi x a -> lo' <= lo -> hi <= hi' ->
  (forall y, lo <= y < hi -> buf' !! y = buf !! y) -> buf' !! x = buf !! x -> stored buf' lo' hi' x a.
Proof.
  intros H Hlo Hhi Hsame. induction H as [x k v co cs Hx Hco Hpos _ IH]. intros Hsx.
  apply (stored_tree buf' lo' hi' x k v co cs).
  - congruence.
  - destruct Hco as [?|(Hne&Hco&Hn&Hr)]; [by left|]. right. split_and!; [done|done| |lia|lia].
    by rewrite Hsame.
  - intros i c Hi. destruct (Hpos i c Hi) as (Hr&v'&o'&Hc). split; [lia|].
    exists v', o'. by rewrite Hsame.
  - intros i c Hi. apply (IH i c Hi). by apply Hsame, (Hpos i c Hi).
Qed.

Lemma seqZ_lookup_pos n i : (i < n)%nat -> seqZ 0 (Z.of_nat n) !! i = Some (Z.of_nat i).
Proof. intros Hi. rewrite lookup_seqZ. split; [|lia]. lia. Qed.

Lemma stored_range buf lo hi x a :
  stored buf lo hi x a -> exists co, child_range sizeof_node buf x =
    Some (position co <$> seq 0 (length (tree_children a))) /\
    forall i c, tree_children a !! i = Some c ->
      (exists v' o', buf !! position co i = Some (Node c.1 v' o')) /\ stored buf lo hi (position co i) c.2.
Proof.
  intros H. destruct H as [x k v co cs Hx Hco Hpos Hsub]. exists co. split.
  - unfold child_range, load_node. rewrite Hx. cbn [mbind option_bind snd tree_children].
    destruct Hco as [[-> ->]|(Hne&Hco&Hn&_)]; [done|]. replace (co =? 0) with false by lia.
    unfold load_count. rewrite Hn. cbn [mbind option_bind]. f_equal. unfold seqZ.
    rewrite Nat2Z.id, <- list_fmap_compose. apply list_fmap_ext. intros i j Hj. unfold position. cbn. lia.
  - intros i c Hi. split; [apply (Hpos i c Hi)|by apply (Hsub i c Hi)].
Qed.

Abbreviation ops := (fixed_trie_ops (V := V) key_less sizeof_node).

(** A block that stores a tree is a trie with this tree. *)
Lemma stored_unfolds ft lo hi x a : stored (trie_ ft) lo hi x a -> @unfolds _ _ _ _ ops ft x a.
Proof.
  revert x. induction a as [v cs IH] using tree_ind'. intros x H.
  destruct (stored_range _ _ _ _ _ H) as (co&Hr&Hsub). cbn [tree_children] in *.
  eapply (unfolds_tree (TrieOps0 := ops)).
  - inversion H; subst. cbn. unfold ft_value, load_node. rewrite H2. done.
  - cbn. exact Hr.
  - apply Forall2_fmap_l, Forall2_same_length_lookup_2; [by rewrite length_seq|].
    intros i j c Hj Hc. apply lookup_seq in Hj as [-> Hlt]. cbn.
    destruct (Hsub i c Hc) as [(v'&o'&Hn) _]. cbn. unfold ft_key, load_node. by rewrite Hn.
  - apply Forall2_fmap_l, Forall2_same_length_lookup_2; [by rewrite length_seq|].
    intros i j c Hj Hc. apply lookup_seq in Hj as [-> Hlt]. cbn.
    rewrite Forall_lookup in IH. apply (IH i c Hc). by apply (Hsub i c Hc).
Qed.
End stored.

(** * [build] *)

Lemma assert_ok debug b : (debug = true -> b = true) -> assert_ debug b = Some tt.
Proof. unfold assert_. destruct debug, b; try done. intros H. by specialize (H eq_refl). Qed.

Section build_theory.
Context {K V : Type} `{!EqDecision K, !EqDecision V} (key_less : K -> K -> bool).
Context (sizeof_node : Z) (debug : bool) (Hsizeof : 0 < sizeof_node).
Context {T St : Type} `{!TrieOps T St K V} (trie : T) (f : V -> V) (size : Z).
Context (Hsize : 0 <= size < 4294967296) (Hdebug : debug = true -> forall v, f v = v).
Implicit Types (buf : gmap Z (cell K V)) (a : tree K V) (cs : list (K * tree K V)).
Abbreviation build := (build sizeof_node debug trie f size).
Abbreviation below := (bytes_below sizeof_node).

Lemma store_ok buf o c : 0 <= o -> o + sizeof sizeof_node c <= size -> store sizeof_node size buf o c = Some (<[o := c]> buf).
Proof. intros H1 H2. unfold store. by replace (_ && _) with true by lia. Qed.

(** A state and its tree; the node of [c] at [p], before its children are built. *)
Definition child_of (s : St) (c : K * tree K V) : Prop := state_key trie s = Some c.1 /\ unfolds trie s c.2.
Definition placed buf (p : Z) (c : K * tree K V) : Prop := buf !! p = Some (Node c.1 (f (tree_value c.2)) 0).

Lemma place_children_ok ss cs count_at buf o n0 :
  Forall2 child_of ss cs -> buf !! count_at = Some (Count n0) ->
  0 <= count_at -> count_at + sizeof_uint <= o -> 0 <= n0 -> n0 + Z.of_nat (length cs) < 4294967296 ->
  o + sizeof_node * Z.of_nat (length cs) <= size ->
  exists buf', place_children sizeof_node trie f size ss count_at buf o =
      Some (buf', o + sizeof_node * Z.of_nat (length cs)) /\
    buf' !! count_at = Some (Count (n0 + Z.of_nat (length cs))) /\
    (forall i c, cs !! i = Some c -> placed buf' (position sizeof_node o i) c) /\
    forall y, y < o -> y <> count_at -> buf' !! y = buf !! y.
Proof.
  intros Hss. revert buf o n0. induction Hss as [|s c ss cs [Hk Hu] Hss IH]; intros buf o n0 Hn Hca Ho Hn0 Hlen Hfit.
  { exists buf. cbn. split; [do 2 f_equal; lia|]. split; [rewrite Hn; do 2 f_equal; lia|]. done. }
  cbn [place_children length] in *. destruct (unfolds_inv trie s _ Hu) as (ss0&Hv&_).
  unfold new_node. rewrite Hk, Hv. cbn [mbind option_bind]. unfold sizeof_uint in *.
  rewrite store_ok by (cbn; lia). cbn [mbind option_bind].
  unfold load_count. rewrite lookup_insert_ne, Hn by lia. cbn [mbind option_bind].
  rewrite store_ok by (cbn; unfold sizeof_uint; lia). cbn [mbind option_bind].
  rewrite !u32_small by lia.
  destruct (IH (<[count_at := Count (n0 + 1)]> (<[o := Node c.1 (f (tree_value c.2)) 0]> buf)) (o + sizeof_node) (n0 + 1))
    as (buf'&->&Hc'&Hp'&Hs'); [by rewrite lookup_insert_eq|lia..|].
  exists buf'. split; [do 2 f_equal; lia|]. split; [rewrite Hc'; do 2 f_equal; lia|]. split.
  - intros [|i] d Hi.
    + injection Hi as <-. unfold placed, position. rewrite Z.mul_0_r, Z.add_0_r.
      rewrite Hs' by lia. rewrite lookup_insert_ne by lia. by rewrite lookup_insert_eq.
    + cbn in Hi. specialize (Hp' i d Hi). unfold position in *. 
      by replace (o + sizeof_node * Z.of_nat (S i)) with (o + sizeof_node + sizeof_node * Z.of_nat i) by lia.
  - intros y Hy Hne. rewrite Hs' by lia. by rewrite !lookup_insert_ne by lia.
Qed.

(** What [build] makes of a node that is placed. *)
Definition built fuel : Prop :=
  forall s k a curr buf o, child_of s (k, a) -> (tree_height a <= fuel)%nat -> placed buf curr (k, a) ->
    0 <= curr -> curr + sizeof_node <= size -> curr < o -> 0 < o -> o + below a <= size ->
    exists buf' co, build fuel s curr buf o = Some (buf', o + below a) /\
      stored sizeof_node buf' o (o + below a) curr (tree_map f a) /\
      buf' !! curr = Some (Node k (f (tree_value a)) co) /\
      forall y, y < o -> y <> curr -> buf' !! y = buf !! y.

(** One round of the second loop. *)
Definition build_round fuel (r : gmap Z (cell K V) * Z) (p : St * Z) : option (gmap Z (cell K V) * Z) :=
  r ← build fuel p.1 p.2 r.1 r.2; _ ← assert_built debug trie f r.1 p.2 p.1; Some r.

Lemma build_children_ok fuel (ss : list St) (ps : list Z) cs P buf o :
  built fuel -> Forall2 child_of ss cs -> length ps = length ss -> NoDup ps ->
  (forall i p c, ps !! i = Some p -> cs !! i = Some c ->
     placed buf p c /\ 0 <= p /\ p < P /\ p + sizeof_node <= size /\ (tree_height c.2 <= fuel)%nat) ->
  P <= o -> 0 < o -> o + foldr (fun c n => below c.2 + n) 0 cs <= size ->
  exists buf', foldl (fun r p => r ← r; build_round fuel r p) (Some (buf, o)) (combine ss ps) =
      Some (buf', o + foldr (fun c n => below c.2 + n) 0 cs) /\
    (forall i p c, ps !! i = Some p -> cs !! i = Some c ->
       stored sizeof_node buf' P (o + foldr (fun c n => below c.2 + n) 0 cs) p (tree_map f c.2) /\
       exists co, buf' !! p = Some (Node c.1 (f (tree_value c.2)) co)) /\
    forall y, y < o -> y ∉ ps -> buf' !! y = buf !! y.
Proof.
  intros Hbuilt Hss. revert ps buf o. induction Hss as [|s [k a] ss cs Hc Hss IH]; intros ps buf o Hlen Hnd Hps HP Ho Hfit.
  { destruct ps; [|done]. exists buf. cbn. split; [do 2 f_equal; lia|done]. }
  destruct ps as [|p ps]; [done|]. cbn [combine foldr fst snd] in *. rewrite foldl_some_cons.
  apply NoDup_cons in Hnd as [Hp Hnd].
  destruct (Hps 0%nat p (k, a) eq_refl eq_refl) as (Hpl&Hp0&HpP&Hpz&Hh).
  assert (Hbelow : forall l : list (K * tree K V), 0 <= foldr (fun c n => below c.2 + n) 0 l).
  { induction l as [|d l IHl]; cbn; [lia|]. pose proof (bytes_below_nonneg sizeof_node Hsizeof d.2). lia. }
  pose proof (Hbelow cs) as Hcs. pose proof (bytes_below_nonneg sizeof_node Hsizeof a).
  destruct (Hbuilt s k a p buf o Hc Hh Hpl) as (b1&co&Hb1&Hst1&Hn1&Hsame1); [lia..|].
  destruct Hc as [Hk Hu]. cbn [fst snd] in Hk, Hu. destruct (unfolds_inv trie s _ Hu) as (ss0&Hv&_).
  assert (Hround : build_round fuel (buf, o) (s, p) = Some (b1, o + below a)).
  { unfold build_round. cbn [fst snd]. rewrite Hb1. cbn [mbind option_bind fst snd].
    unfold assert_built, load_node. rewrite Hn1, Hk, Hv. cbn [mbind option_bind fst snd].
    by rewrite !assert_ok by (intros _; by apply bool_decide_eq_true). }
  rewrite Hround.
  destruct (IH ps b1 (o + below a)) as (b2&->&Hst2&Hsame2); [by injection Hlen|done| |lia|lia|lia|].
  { intros i q c Hq Hci. destruct (Hps (S i) q c Hq Hci) as (Hpl'&?&?&?&?). split_and!; try done.
    unfold placed. rewrite Hsame1; [done|lia|]. intros ->. apply Hp. by eapply list_elem_of_lookup_2. }
  exists b2. split; [do 2 f_equal; lia|]. split.
  - intros [|i] q c Hq Hci.
    + injection Hq as <-. injection Hci as <-. cbn [fst snd]. split.
      * apply (stored_frame sizeof_node b1 _ o (o + below a)); [done|lia|lia| |apply Hsame2; [lia|done]].
        intros y Hy. apply Hsame2; [lia|]. intros (j&Hj)%list_elem_of_lookup.
        destruct (lookup_lt_is_Some_2 cs j) as [d Hd].
        { apply lookup_lt_Some in Hj. apply Forall2_length in Hss. injection Hlen as Hlen. lia. }
        destruct (Hps (S j) y d Hj Hd) as (_&?&?&_). lia.
      * exists co. rewrite Hsame2; [done|lia|done].
    + destruct (Hst2 i q c Hq Hci) as [Hs Hn]. split; [|done].
      by replace (o + (below a + foldr (fun c n => below c.2 + n) 0 cs))
        with (o + below a + foldr (fun c n => below c.2 + n) 0 cs) by lia.
  - intros y Hy Hny. apply not_elem_of_cons in Hny as [Hyp Hny]. rewrite Hsame2; [|lia|done]. by apply Hsame1.
Qed.

Lemma child_range_position buf x k v co n :
  buf !! x = Some (Node k v co) -> 0 < co -> buf !! (co - sizeof_uint) = Some (Count (Z.of_nat n)) ->
  child_range sizeof_node buf x = Some (position sizeof_node co <$> seq 0 n).
Proof.
  intros Hx Hco Hn. unfold child_range, load_node. rewrite Hx. cbn [mbind option_bind snd].
  replace (co =? 0) with false by lia. unfold load_count. rewrite Hn. cbn [mbind option_bind]. f_equal.
  unfold seqZ. rewrite Nat2Z.id, <- list_fmap_compose. apply list_fmap_ext. intros i j Hj.
  unfold position. cbn. lia.
Qed.

Lemma position_lookup co n i p :
  (position sizeof_node co <$> seq 0 n) !! i = Some p -> p = position sizeof_node co i /\ (i < n)%nat.
Proof.
  rewrite list_lookup_fmap. intros (j&Hj&->)%fmap_Some. by apply lookup_seq in Hj as [-> ?].
Qed.

Lemma position_NoDup co n : NoDup (position sizeof_node co <$> seq 0 n).
Proof.
  apply NoDup_fmap_2_strong; [|apply NoDup_seq]. intros i j _ _. unfold position. nia.
Qed.

(** The stored tree, from the stored children. *)
Lemma stored_children buf o o' curr k v co cs :
  buf !! curr = Some (Node k (f v) (o + sizeof_uint)) -> cs <> [] ->
  buf !! o = Some (Count (Z.of_nat (length cs))) -> 0 <= o ->
  co = o + sizeof_uint -> co + sizeof_node * Z.of_nat (length cs) <= o' ->
  (forall i c, cs !! i = Some c ->
     stored sizeof_node buf (co + sizeof_node * Z.of_nat (length cs)) o' (position sizeof_node co i) (tree_map f c.2) /\
     exists o0, buf !! position sizeof_node co i = Some (Node c.1 (f (tree_value c.2)) o0)) ->
  stored sizeof_node buf o o' curr (tree_map f (Tree v cs)).
Proof.
  intros Hn Hne Hc Ho -> Ho' Hsub. cbn [tree_map].
  assert (Hlen : 0 < Z.of_nat (length cs)) by (destruct cs; [done|cbn; lia]).
  assert (Hmap : forall i c, map (fun c => (c.1, tree_map f c.2)) cs !! i = Some c ->
    exists d, cs !! i = Some d /\ c = (d.1, tree_map f d.2)).
  { intros i c Hi. change (map ?g ?l) with (g <$> l) in Hi. rewrite list_lookup_fmap in Hi.
    apply fmap_Some in Hi as (d&Hd&->). by exists d. }
  apply (stored_tree sizeof_node buf o o' curr k (f v) (o + sizeof_uint)).
  - done.
  - right. split; [by destruct cs|]. unfold sizeof_uint in *. split; [lia|]. rewrite length_map.
    replace (o + 4 - 4) with o by lia. split; [done|nia].
  - intros i c Hi. destruct (Hmap i c Hi) as (d&Hd&->). destruct (Hsub i d Hd) as (_&o0&Hnd).
    apply lookup_lt_Some in Hd. unfold position, sizeof_uint in *. split; [nia|]. by exists (f (tree_value d.2)), o0.
  - intros i c Hi. destruct (Hmap i c Hi) as (d&Hd&->). destruct (Hsub i d Hd) as (Hst&_).
    apply (stored_frame sizeof_node buf _ _ _ _ _ _ _ Hst); [unfold sizeof_uint; nia|lia|done|done].
Qed.

Lemma fold_below_nonneg cs : 0 <= foldr (fun c n => below c.2 + n) 0 cs.
Proof.
  induction cs as [|c cs IH]; cbn; [lia|]. pose proof (bytes_below_nonneg sizeof_node Hsizeof c.2). lia.
Qed.

Lemma children_of s v cs ss :
  unfolds trie s (Tree v cs) -> transitions trie s = Some ss -> Forall2 child_of ss cs.
Proof.
  intros Hu Ht. destruct (unfolds_inv trie s _ Hu) as (ss'&_&Ht'&Hkeys&Hsub). cbn [tree_children] in *.
  rewrite Ht in Ht'. injection Ht' as <-. apply Forall2_fmap_r in Hkeys.
  apply Forall2_same_length_lookup_2; [by eapply Forall2_length|]. intros i x c Hx Hc.
  split; [by apply (Forall2_lookup_lr _ _ _ _ _ _ Hkeys Hx Hc)|by apply (Forall2_lookup_lr _ _ _ _ _ _ Hsub Hx Hc)].
Qed.

(** The end of [build], once the children are placed. *)
Lemma build_placed fuel k v ss cs curr buf o :
  let first := o + sizeof_uint in
  let last := first + sizeof_node * Z.of_nat (length cs) in
  built fuel -> Forall2 child_of ss cs -> cs <> [] -> (tree_height (Tree v cs) <= S fuel)%nat ->
  curr < o -> 0 < o -> buf !! curr = Some (Node k (f v) first) ->
  buf !! o = Some (Count (Z.of_nat (length cs))) ->
  (forall i c, cs !! i = Some c -> placed buf (position sizeof_node first i) c) ->
  last + foldr (fun c n => below c.2 + n) 0 cs <= size ->
  exists buf', foldl (fun r p => r ← r; build_round fuel r p) (Some (buf, last))
      (combine ss (position sizeof_node first <$> seq 0 (length cs))) =
      Some (buf', last + foldr (fun c n => below c.2 + n) 0 cs) /\
    stored sizeof_node buf' o (last + foldr (fun c n => below c.2 + n) 0 cs) curr (tree_map f (Tree v cs)) /\
    buf' !! curr = Some (Node k (f v) first) /\
    forall y, y < o -> y <> curr -> buf' !! y = buf !! y.
Proof.
  intros first last Hbuilt Hss Hne Hh Hco Ho Hcurr Hcount Hp Hfit.
  pose proof (fold_below_nonneg cs) as Hfold. assert (Hpos : 0 < Z.of_nat (length cs)) by (destruct cs; [done|cbn; lia]).
  subst last first. unfold sizeof_uint in *.
  destruct (build_children_ok fuel ss (position sizeof_node (o + 4) <$> seq 0 (length cs)) cs
    (o + 4 + sizeof_node * Z.of_nat (length cs)) buf (o + 4 + sizeof_node * Z.of_nat (length cs)))
    as (b4&Hloop&Hst4&Hs4); [done|done| |apply position_NoDup| |lia|nia|lia|].
  { by rewrite length_fmap, length_seq, (Forall2_length _ _ _ Hss). }
  { intros i p c [-> Hi]%position_lookup Hc. unfold position. split_and!; [by apply Hp|nia|nia|nia|].
    pose proof (tree_height_child v cs c ltac:(by eapply list_elem_of_lookup_2)). lia. }
  assert (Hkeep : forall y, y < o + 4 -> b4 !! y = buf !! y).
  { intros y Hy. apply Hs4; [nia|]. intros (i&Hi)%list_elem_of_lookup.
    apply position_lookup in Hi as [-> _]. unfold position in Hy. nia. }
  exists b4. rewrite Hloop. split; [done|]. split; [|split].
  - apply (stored_children b4 o _ curr k v (o + 4) cs); unfold sizeof_uint;
      [by rewrite Hkeep by lia|done|by rewrite Hkeep by lia|lia|done|nia|].
    intros i c Hi. pose proof (lookup_lt_Some _ _ _ Hi).
    apply (Hst4 i (position sizeof_node (o + 4) i) c); [|done].
    by rewrite list_lookup_fmap, lookup_seq_lt.
  - by rewrite Hkeep by lia.
  - intros y Hy Hyc. apply Hkeep. lia.
Qed.

Lemma assert_same_ok buf curr s k v cs co :
  child_of s (k, Tree v cs) -> buf !! curr = Some (Node k (f v) co) -> assert_same debug trie buf curr s = Some tt.
Proof.
  intros [Hk Hu] Hb. cbn [fst snd] in *. destruct (unfolds_inv trie s _ Hu) as (ss&Hv&_). cbn [tree_value] in Hv.
  unfold assert_same, load_node. rewrite Hb, Hk, Hv. cbn [mbind option_bind fst snd].
  rewrite (assert_ok debug (bool_decide (k = k))) by (intros _; by apply bool_decide_eq_true).
  apply assert_ok. intros Hd. apply bool_decide_eq_true. by apply Hdebug.
Qed.

Lemma build_ok fuel : built fuel.
Proof.
  induction fuel as [|fuel IH]; intros s k [v cs] curr buf o Hc Hh Hpl Hc0 Hcz Hco Ho Hfit; [cbn in Hh; lia|].
  pose proof Hc as [_ Hu]. cbn [fst snd] in Hu. destruct (unfolds_inv trie s _ Hu) as (ss&_&Ht&_).
  pose proof (children_of s v cs ss Hu Ht) as Hsub. cbn [build].
  rewrite (assert_same_ok buf curr s k v cs 0 Hc Hpl), Ht. cbn [mbind option_bind].
  destruct ss as [|s1 ss1] eqn:Ess.
  { inversion Hsub; subst cs. cbn [bytes_below foldr] in *. exists buf, 0. split; [do 2 f_equal; lia|].
    split; [|done]. apply (stored_tree _ buf _ _ curr k (f v) 0); [done|by left|done|done]. }
  rewrite <- Ess in *. assert (Hne : cs <> []) by (intros ->; subst ss; inversion Hsub). clear s1 ss1 Ess.
  pose proof (Forall2_length _ _ _ Hsub) as Hlen. pose proof (fold_below_nonneg cs) as Hfold.
  assert (Hsum : below (Tree v cs) = 4 + sizeof_node * Z.of_nat (length cs) +
            foldr (fun c n => below c.2 + n) 0 cs) by (cbn [bytes_below]; by destruct cs).
  rewrite Hsum in *. assert (Hpos : 0 < Z.of_nat (length cs)) by (destruct cs; [done|cbn; lia]).
  unfold placed in Hpl. cbn [fst snd tree_value] in *. unfold sizeof_uint. rewrite u32_small by nia.
  rewrite store_ok by (cbn; unfold sizeof_uint; nia). cbn [mbind option_bind].
  unfold load_node at 1. rewrite lookup_insert_ne, Hpl by lia. cbn [mbind option_bind fst snd].
  rewrite store_ok by (cbn; nia). cbn [mbind option_bind].
  destruct (place_children_ok ss cs o (<[curr := Node k (f v) (o + 4)]> (<[o := Count 0]> buf)) (o + 4) 0)
    as (b3&->&Hn3&Hp3&Hs3); [done|by rewrite lookup_insert_ne, lookup_insert_eq by lia|unfold sizeof_uint; nia..|].
  cbn [mbind option_bind]. rewrite Z.add_0_l in Hn3.
  assert (Hcurr3 : b3 !! curr = Some (Node k (f v) (o + 4))) by (rewrite Hs3, lookup_insert_eq by lia; done).
  rewrite (child_range_position b3 curr k (f v) (o + 4) (length cs) Hcurr3) by
    (unfold sizeof_uint; rewrite ?Z.add_simpl_r; (lia || done)).
  cbn [mbind option_bind]. rewrite (assert_same_ok b3 curr s k v cs _ Hc Hcurr3). cbn [mbind option_bind].
  unfold load_count. rewrite Hn3. cbn [mbind option_bind].
  rewrite (assert_ok debug (Z.of_nat (length cs) =? Z.of_nat (length ss))) by (intros _; lia). cbn [mbind option_bind].
  rewrite (assert_ok debug (length ss =? length (position sizeof_node (o + 4) <$> seq 0 (length cs)))%nat)
    by (intros _; apply Nat.eqb_eq; rewrite length_fmap, length_seq; done).
  cbn [mbind option_bind].
  destruct (build_placed fuel k v ss cs curr b3 o IH Hsub Hne Hh Hco Ho Hcurr3 Hn3 Hp3) as (b4&Hloop&Hst&Hn4&Hs4);
    [unfold sizeof_uint; lia|].
  change (foldl _ (Some (b3, _)) _) with (foldl (fun r p => r ← r; build_round fuel r p)
    (Some (b3, o + 4 + sizeof_node * Z.of_nat (length cs))) (combine ss (position sizeof_node (o + 4) <$> seq 0 (length cs)))).
  unfold sizeof_uint in Hloop, Hst. rewrite Hloop. exists b4, (o + 4).
  rewrite !Z.add_assoc. split; [done|]. split; [done|]. split; [done|].
  intros y Hy Hyc. rewrite Hs4, Hs3 by lia. by rewrite !lookup_insert_ne by lia.
Qed.
End build_theory.

(** * Properties *)

Section properties.
Context {K V : Type} `{!EqDecision K, !EqDecision V} (key_less : K -> K -> bool) `{!StrictTotal key_less}.
Context (sizeof_node : Z) (debug : bool) (Hsizeof : 0 < sizeof_node).
Implicit Types (ft : fixed_trie K V) (a : tree K V).
#[local] Instance ft_ops : TrieOps (fixed_trie K V) Z K V := fixed_trie_ops key_less sizeof_node.

#[export] Instance fixed_trie_laws ft : TrieLaws ft key_less.
Proof.
  split. intros s ss ks k Ht Hk Hs. cbn in Ht, Hk. cbn [transition ft_ops fixed_trie_ops start].
  unfold ft_transition. rewrite Ht. cbn [mbind option_bind].
  assert (Hkey : forall i p, ss !! i = Some p -> exists nd k', load_node (trie_ ft) p = Some nd /\ nd.1.1 = k' /\
            ks !! i = Some k').
  { intros i p Hp. destruct (Forall2_lookup_l _ _ _ _ _ Hk Hp) as (k'&Hk'&Hpk). unfold ft_key in Hpk.
    destruct (load_node _ p) as [nd|]; [|done]. cbn in Hpk. injection Hpk as <-. by exists nd, nd.1.1. }
  set (less := fun p => match load_node (trie_ ft) p with Some nd => key_less nd.1.1 k | None => false end).
  destruct (split_at (fun k' => key_less k' k) _ ks Hs) as (n&Hn&Hlb&Hlt&Hge).
  { intros x y Hxy Hyk. eapply sw_trans; eauto. }
  assert (Hlb' : lower_bound less ss = n).
  { rewrite <- Hlb. apply lower_bound_Forall2, Forall2_same_length_lookup_2; [by eapply Forall2_length|].
    intros i p k' Hp Hk'. destruct (Hkey i p Hp) as (nd&k2&Hnd&Hk2&Hki). unfold less. rewrite Hnd. congruence. }
  rewrite Hlb'. rewrite Forall_lookup in Hlt, Hge. destruct (ss !! n) as [p|] eqn:Hp.
  - destruct (Hkey n p Hp) as (nd&k'&Hnd&Hk'&Hkn). rewrite Hnd. cbn [mbind option_bind].
    destruct (decide (nd.1.1 = k)) as [Heq|Hne]; [left; exists n, p; split_and!; [congruence|done|done]|].
    right. split; [|done]. intros (i&Hi)%list_elem_of_lookup.
    assert (Hkn' : key_less k' k = false).
    { apply (Hge 0%nat). by rewrite lookup_drop, Nat.add_0_r. }
    destruct (decide (i < n)%nat) as [Hin|Hin].
    + specialize (Hlt i k). rewrite lookup_take_lt in Hlt by done. specialize (Hlt Hi). by rewrite sw_irrefl in Hlt.
    + destruct (decide (i = n)) as [->|Hin']; [congruence|].
      pose proof (StronglySorted_lookup_lt _ _ _ _ _ _ Hs Hkn Hi ltac:(lia)) as Hlt'. cbn in Hlt'. congruence.
  - right. split; [|done]. intros (i&Hi)%list_elem_of_lookup. apply lookup_ge_None in Hp.
    apply Forall2_length in Hk. pose proof (lookup_lt_Some _ _ _ Hi).
    specialize (Hlt i k). rewrite lookup_take_lt in Hlt by lia. specialize (Hlt Hi). by rewrite sw_irrefl in Hlt.
Qed.

Lemma u32_eq_small x y : u32 x = u32 y -> 0 <= y < 4294967296 -> u32 x = y.
Proof. intros -> Hy. by apply u32_small. Qed.

Section from.
Context {T St : Type} `{!TrieOps T St K V} (trie : T).

(** [init] makes the tree of the state, with the values transformed, in a block of the
    size computed beforehand. *)
Lemma fixed_trie_build fuel (s : St) (k : K) (f : V -> V) a :
  state_key trie s = Some k -> unfolds trie s a -> (tree_height a <= fuel)%nat ->
  sizeof_node * tree_nodes a + sizeof_uint * tree_internal a < 4294967296 ->
  (exists v, state_value trie (start trie) = Some v) ->
  (debug = true -> s = start trie /\ forall v, f v = v) ->
  exists ft, init sizeof_node debug fuel trie s f = Some ft /\ unfolds ft (start ft) (tree_map f a) /\
    fixed_none ft = nonvalue trie /\
    sz ft = sizeof_node * tree_nodes a + sizeof_uint * tree_internal a.
Proof.
  intros Hk Hu Hh Hfit [v0 Hv0] Hdebug. pose proof (tree_nodes_pos a) as [Hn Hi]. unfold sizeof_uint in *.
  assert (Hnodes : tree_nodes a <= sizeof_node * tree_nodes a) by nia.
  destruct (count_unfolds fuel trie s a 0 0 Hu Hh) as ([ci cn]&Hcount&Hci&Hcn). cbn [fst snd] in *.
  destruct (unfolds_inv trie s a Hu) as (ss&Hv&_).
  unfold init. rewrite Hcount. cbn [mbind option_bind fst snd].
  set (size := u32 (sizeof_node * cn + sizeof_uint * ci)).
  assert (Hsz : size = sizeof_node * tree_nodes a + 4 * tree_internal a).
  { unfold size, sizeof_uint. rewrite <- (u32_small (sizeof_node * tree_nodes a + 4 * tree_internal a)) by nia. unfold u32, wrap in *.
    rewrite Z.add_mod, (Z.mul_mod sizeof_node cn), (Z.mul_mod 4 ci) by lia. rewrite Hci, Hcn, !Z.add_0_l.
    rewrite <- !Z.mul_mod, <- Z.add_mod by lia. done. }
  unfold new_node. rewrite Hk, Hv. cbn [mbind option_bind].
  rewrite (store_ok sizeof_node size) by (cbn; nia). cbn [mbind option_bind].
  assert (Hid : debug = true -> forall v, f v = v) by (intros Hd; by apply Hdebug).
  pose proof (bytes_below_eq sizeof_node a) as Hbelow. unfold sizeof_uint in Hbelow.
  rewrite u32_small by nia.
  destruct (build_ok sizeof_node debug Hsizeof trie f size ltac:(nia) Hid fuel s k a 0
    (<[0 := Node k (f (tree_value a)) 0]> ∅) sizeof_node) as (buf'&co&Hb&Hst&Hroot&_);
    [done|done|unfold placed; by rewrite lookup_insert_eq|lia|nia|lia|lia|nia|].
  rewrite Hb. cbn [mbind option_bind fst snd].
  rewrite (assert_ok debug (sizeof_node + bytes_below sizeof_node a =? size)) by (intros _; apply Z.eqb_eq; rewrite Hbelow, Hsz; ring). cbn [mbind option_bind].
  rewrite Hv0. unfold load_node. rewrite Hroot. cbn [mbind option_bind fst snd].
  rewrite (assert_ok debug (bool_decide (f v0 = f (tree_value a)))).
  2: { intros Hd. destruct (Hdebug Hd) as [-> _]. apply bool_decide_eq_true. congruence. }
  cbn [mbind option_bind]. eexists. split; [done|]. cbn [start ft_ops fixed_trie_ops fixed_none sz].
  split; [|by split].
  eapply (stored_unfolds key_less sizeof_node (mk_fixed buf' size (nonvalue trie))). exact Hst.
Qed.

Lemma tree_child_map (f : V -> V) (cs : list (K * tree K V)) k :
  tree_child k (map (fun c => (c.1, tree_map f c.2)) cs) = tree_map f <$> tree_child k cs.
Proof. induction cs as [|c cs IH]; [done|]. cbn. by case_decide. Qed.

Lemma tree_descend_map (f : V -> V) a path :
  tree_descend (tree_map f a) path = ((tree_descend a path).1, tree_map f (tree_descend a path).2).
Proof.
  revert a. induction path as [|k path IH]; intros [v cs]; [done|]. cbn [tree_descend tree_map tree_children].
  rewrite tree_child_map. destruct (tree_child k cs) as [b|]; [|done]. cbn [fmap option_fmap option_map]. apply IH.
Qed.

Lemma tree_sorted_map (f : V -> V) a : tree_sorted key_less a -> tree_sorted key_less (tree_map f a).
Proof.
  induction a as [v cs IH] using tree_ind'. intros Hs. destruct (tree_sorted_inv key_less _ Hs) as [Hk Hsub].
  cbn [tree_map tree_children] in *. constructor.
  - replace (map _ cs).*1 with cs.*1; [done|]. change (map ?g cs) with (g <$> cs). by rewrite <- list_fmap_compose.
  - apply Forall_map. rewrite Forall_forall in *. intros c Hc. cbn. by apply IH, Hsub.
Qed.

(** C31: a fixed trie can be built from any trie: [build] never writes outside of
    the block, whose size is computed beforehand, and no assertion fails.  The
    fixed trie holds the same keys with the values transformed, and looking a
    key sequence up gives what looking it up in the original trie gives.  This
    needs the size to fit in 32 bits; with assertions compiled in, it also needs
    the identity as the transform and the start state as the root. *)
Theorem fixed_trie_refines fuel (s : St) (k : K) (f : V -> V) a :
  TrieLaws trie key_less -> state_key trie s = Some k -> unfolds trie s a -> tree_sorted key_less a ->
  (tree_height a <= fuel)%nat ->
  sizeof_node * tree_nodes a + sizeof_uint * tree_internal a < 4294967296 ->
  (exists v, state_value trie (start trie) = Some v) ->
  (debug = true -> s = start trie /\ forall v, f v = v) ->
  (forall v, f v = nonvalue trie <-> v = nonvalue trie) ->
  exists ft, init sizeof_node debug fuel trie s f = Some ft /\ unfolds ft (start ft) (tree_map f a) /\
    sz ft = sizeof_node * tree_nodes a + sizeof_uint * tree_internal a /\
    forall path, exists fnd rest s1 s2 v,
      trie_find trie s path = Some (mk_find_result fnd rest s1) /\ state_value trie s1 = Some v /\
      trie_find ft (start ft) path = Some (mk_find_result fnd rest s2) /\ state_value ft s2 = Some (f v).
Proof.
  intros Hlaws Hk Hu Hs Hh Hfit Hv0 Hdebug Hnone.
  destruct (fixed_trie_build fuel s k f a Hk Hu Hh Hfit Hv0 Hdebug) as (ft&Hinit&Huf&Hnv&Hsz).
  exists ft. split; [done|]. split; [done|]. split; [done|]. intros path.
  destruct (trie_find_unfolds key_less trie s a path Hlaws Hu Hs) as (s1&Hf1&Hu1).
  destruct (trie_find_unfolds key_less ft (start ft) _ path (fixed_trie_laws ft) Huf (tree_sorted_map f a Hs))
    as (s2&Hf2&Hu2).
  rewrite tree_descend_map in Hf2, Hu2. cbn [fst snd] in *.
  destruct (tree_descend a path) as [rest [v cs]]. cbn [fst snd tree_value tree_map] in *.
  eexists _, rest, s1, s2, v. split; [exact Hf1|]. split.
  { by destruct (unfolds_inv trie s1 _ Hu1) as (?&?&_). }
  split; [|by destruct (unfolds_inv ft s2 _ Hu2) as (?&?&_)].
  rewrite Hf2. do 2 f_equal. apply bool_decide_ext. change (nonvalue ft) with (fixed_none ft).
  rewrite Hnv, Hnone. done.
Qed.

(** With assertions compiled in, a transform that changes the value of the root
    fails the assertion at the start of [build], which compares the value stored,
    [f(trie.value(s))], with [trie.value(s)]. *)
Lemma fixed_trie_transform_asserts fuel (s : St) (k : K) (v : V) (f : V -> V) :
  state_key trie s = Some k -> state_value trie s = Some v -> f v <> v ->
  init sizeof_node true fuel trie s f = None.
Proof.
  intros Hk Hv Hne. unfold init. destruct (count fuel trie s 0 0) as [c|]; [|done]. cbn [mbind option_bind].
  unfold new_node. rewrite Hk, Hv. cbn [mbind option_bind]. unfold store.
  destruct (_ && _); [|done]. cbn [mbind option_bind].
  destruct fuel as [|fuel]; [done|]. cbn [build]. unfold assert_same, load_node.
  rewrite lookup_insert_eq, Hk, Hv. cbn [mbind option_bind fst snd].
  unfold assert_. rewrite (bool_decide_true (k = k)) by done. cbn [negb andb mbind option_bind].
  rewrite (bool_decide_false (f v = v)) by done. done.
Qed.
End from.

(** What is saved is loaded again. *)
Lemma ft_save_load ft ar : ft_load (ft_save ft ++ ar) = Some (ft, ar).
Proof. destruct ft. cbn. by rewrite Z.eqb_refl. Qed.
End properties.

(** [set_values_via(f)] of set_values_visitor.hpp *)
Definition set_values_visitor {K V} (f : V -> V) : visitor (T := fixed_trie K V) (St := Z) :=
  mk_visitor (fun t s => v ← ft_value t s; ft_set_value t s (f v)) (fun t _ => Some t) (fun t _ => Some t).

(** ** Examples *)

Lemma fixed_trie_refines_witness :
  exists ft, init 16 true 4 sample_pure (0, sample_tree) (fun v => v) = Some ft /\
    @unfolds _ _ _ _ (fixed_trie_ops Z.ltb 16) ft 0 (tree_map (fun v => v) sample_tree) /\ sz ft = 108.
Proof.
  destruct (fixed_trie_refines Z.ltb 16 true ltac:(lia) sample_pure 4 (0, sample_tree) 0 (fun v => v) sample_tree)
    as (ft&Hi&Hu&Hsz&_);
    [apply pure_trie_laws; apply _|reflexivity|apply pure_unfolds|apply sample_tree_sorted|vm_compute; lia|
     vm_compute; reflexivity|by eexists|intros _; split; reflexivity|intros v; reflexivity|].
  exists ft. exact (conj Hi (conj Hu Hsz)).
Defined.

(** All values of the fixed trie doubled by a traversal. *)
Lemma set_values_example :
  (ft ← init 16 true 4 sample_pure (0, sample_tree) (fun v => v);
   ft ← @traverse_trie _ _ _ _ (fixed_trie_ops Z.ltb 16) 4 (set_values_visitor (fun v => 2 * v)) ft 0;
   r ← @trie_find _ _ _ _ (fixed_trie_ops Z.ltb 16) _ ft 0 [1; 3];
   ft_value ft (state r)) = Some 12.
Proof. vm_compute. reflexivity. Qed.
