(* ===== verification/SparseVector.v ===== *)
(** Sparse vectors: src/gusc/gusc/math/sparse_vector.hpp, the feature and weight
    vectors of the decoder.

    The [std::map] of the components is a list in the order of the keys, and an
    iterator of it is the key it is at, or [None] for [end()]; stepping an
    iterator whose element was erased is undefined.  The type of the components
    is a parameter with a value [zero], [data_type()], and a decidable [==].
    The cross-checks under [#if !defined(NDEBUG)] are not modelled. *)
From S2P Require Import Prelude.
Open Scope Z_scope.

(** * [std::map] *)

Section map.
Context {K D : Type} `{!EqDecision K} (key_less : K -> K -> bool).
Implicit Types (m : list (K * D)).

Fixpoint map_find (k : K) m : option D :=
  match m with
  | [] => None
  | (k', d) :: m => if decide (k' = k) then Some d else map_find k m
  end.

(** [insert(make_pair(k, d))], which does not overwrite *)
Fixpoint map_insert (k : K) (d : D) m : list (K * D) :=
  match m with
  | [] => [(k, d)]
  | (k', d') :: m' =>
      if key_less k k' then (k, d) :: m
      else if key_less k' k then (k', d') :: map_insert k d m'
      else m
  end.

(** [pos->second = d] at the position of [k] *)
Fixpoint map_assign (k : K) (d : D) m : list (K * D) :=
  match m with
  | [] => []
  | (k', d') :: m => if decide (k' = k) then (k', d) :: m else (k', d') :: map_assign k d m
  end.

Fixpoint map_erase (k : K) m : list (K * D) :=
  match m with
  | [] => []
  | (k', d') :: m => if decide (k' = k) then m else (k', d') :: map_erase k m
  end.

(** [begin()], and [++] of an iterator at [k]. *)
Definition map_begin m : option K := fst <$> head m.
Fixpoint map_next (k : K) m : option (option K) :=
  match m with
  | [] => None
  | (k', _) :: m => if decide (k' = k) then Some (map_begin m) else map_next k m
  end.
End map.

(** * [sparse_vector] *)

Section sparse_vector.
Context {K D : Type} `{!EqDecision K, !EqDecision D} (key_less : K -> K -> bool) (zero : D).
Abbreviation sparse_vector := (list (K * D)).
Implicit Types (v w m : sparse_vector) (op : D -> D -> D).

(** [sparse_vector_element]: the component at [i], read and written through the map *)
Definition get_d m (i : K) : D := match map_find i m with Some d => d | None => zero end.

Definition el_set m (i : K) (s : D) : sparse_vector :=
  match map_find i m with
  | Some _ => if decide (s = zero) then map_erase i m else map_assign i s m
  | None => if decide (s = zero) then m else map_insert key_less i s m
  end.

(** [v[i] += dd], and the same with [-=], [*=], [/=] *)
Definition el_update op m (i : K) (dd : D) : sparse_vector := el_set m i (op (get_d m i) dd).

(** [operator[]] of a constant vector *)
Definition sv_at v (k : K) : D := match map_find k v with Some d => d | None => zero end.

Definition sv_size v : nat := length v.

(** [sparse_lookup_op(v1, v2, op)] *)
Definition sparse_lookup_op op v1 v2 : sparse_vector :=
  foldl (fun v1 p => el_set v1 p.1 (op (get_d v1 p.1) p.2)) v1 v2.

(** The components of the second argument: [None] when it is the object that is
    being changed. *)
Definition second_of (v2 : option sparse_vector) v1 : sparse_vector := default v1 v2.

(** [while (i1 != e1)] *)
Fixpoint pairwise_rest1 (fuel : nat) op v1 (i1 : option K) : option sparse_vector :=
  match i1 with
  | None => Some v1
  | Some k1 =>
      match fuel with
      | O => None
      | S fuel =>
          i1 ← map_next k1 v1;
          pairwise_rest1 fuel op (el_set v1 k1 (op (get_d v1 k1) zero)) i1
      end
  end.

(** [while (i2 != e2)] *)
Fixpoint pairwise_rest2 (fuel : nat) op v1 (v2 : option sparse_vector) (i2 : option K) : option sparse_vector :=
  match i2 with
  | None => Some v1
  | Some k2 =>
      match fuel with
      | O => None
      | S fuel =>
          d2 ← map_find k2 (second_of v2 v1);
          let v1 := el_set v1 k2 (op zero d2) in
          i2 ← map_next k2 (second_of v2 v1);
          pairwise_rest2 fuel op v1 v2 i2
      end
  end.

Fixpoint pairwise_loop (fuel : nat) op v1 (v2 : option sparse_vector) (i1 i2 : option K)
  : option sparse_vector :=
  match i1, i2 with
  | Some k1, Some k2 =>
      match fuel with
      | O => None
      | S fuel =>
          if key_less k1 k2 then
            i1 ← map_next k1 v1;
            pairwise_loop fuel op (el_set v1 k1 (op (get_d v1 k1) zero)) v2 i1 i2
          else if key_less k2 k1 then
            d2 ← map_find k2 (second_of v2 v1);
            let v1 := el_set v1 k2 (op zero d2) in
            i2 ← map_next k2 (second_of v2 v1);
            pairwise_loop fuel op v1 v2 i1 i2
          else
            i1 ← map_next k1 v1;
            d2 ← map_find k2 (second_of v2 v1);
            let v1 := el_set v1 k1 (op (get_d v1 k1) d2) in
            i2 ← map_next k2 (second_of v2 v1);
            pairwise_loop fuel op v1 v2 i1 i2
      end
  | _, _ => v1 ← pairwise_rest1 fuel op v1 i1; pairwise_rest2 fuel op v1 v2 i2
  end.

(** [sparse_pairwise_op(v1, v2, op)]; each round steps an iterator. *)
Definition sparse_pairwise_op op v1 (v2 : option sparse_vector) : option sparse_vector :=
  pairwise_loop (length v1 + length (second_of v2 v1)) op v1 v2
    (map_begin v1) (map_begin (second_of v2 v1)).

(** [sparse_op_inplace(w, v, op, force_pairwise)] *)
Definition sparse_op_inplace op (force_pairwise : bool) w (v : option sparse_vector) : option sparse_vector :=
  if (2 * sv_size (second_of v w) <? sv_size w)%nat && negb force_pairwise
  then Some (sparse_lookup_op op w (second_of v w))
  else sparse_pairwise_op op w v.

(** [sparse_op_copy(w, v1, v2, op, force_pairwise)] *)
Definition sparse_op_copy op (force_pairwise : bool) v1 v2 : option sparse_vector :=
  sparse_op_inplace op force_pairwise v1 (Some v2).

(** [sparse_scalar_op(v, op, c)]: the loop steps the iterator after the element
    was written. *)
Fixpoint scalar_loop (fuel : nat) op (c : D) v (i : option K) : option sparse_vector :=
  match i with
  | None => Some v
  | Some k =>
      match fuel with
      | O => None
      | S fuel =>
          let v := el_set v k (op (get_d v k) c) in
          i ← map_next k v;
          scalar_loop fuel op c v i
      end
  end.

Definition sparse_scalar_op op (c : D) v : option sparse_vector :=
  scalar_loop (length v) op c v (map_begin v).

(** ** Reductions *)

Section reduce.
Context {E : Type} (reduce : E -> E -> E) (ezero : E).
Implicit Types (prod : D -> D -> E).

Definition sparse_lookup_op_reduce prod v1 v2 : option E :=
  if (length v2 <=? length v1)%nat
  then Some (foldl (fun ret p => reduce ret (prod (sv_at v1 p.1) p.2)) ezero v2)
  else None.

Fixpoint pairwise_reduce_loop (fuel : nat) prod (res : E) v1 v2 : E :=
  match v1, v2 with
  | (k1, d1) :: v1', (k2, d2) :: v2' =>
      match fuel with
      | O => res
      | S fuel =>
          if key_less k1 k2 then pairwise_reduce_loop fuel prod res v1' v2
          else if key_less k2 k1 then pairwise_reduce_loop fuel prod res v1 v2'
          else pairwise_reduce_loop fuel prod (reduce res (prod d1 d2)) v1' v2'
      end
  | _, _ => res
  end.

Definition sparse_pairwise_op_reduce prod v1 v2 : E :=
  pairwise_reduce_loop (length v1 + length v2) prod ezero v1 v2.

(** The overload for [reverse_args]. *)
Definition sparse_op_reduce_reversed prod v1 v2 : option E :=
  if (2 * length v2 <? length v1)%nat then sparse_lookup_op_reduce prod v1 v2
  else Some (sparse_pairwise_op_reduce prod v1 v2).

Definition reverse_args prod : D -> D -> E := fun x y => prod y x.

Definition sparse_op_reduce prod v1 v2 : option E :=
  if (length v1 <? length v2)%nat then sparse_op_reduce_reversed (reverse_args prod) v2 v1
  else if (2 * length v2 <? length v1)%nat then sparse_lookup_op_reduce prod v1 v2
  else Some (sparse_pairwise_op_reduce prod v1 v2).
End reduce.

(** ** The operators *)

Section operators.
Context (times plus minus divide : D -> D -> D) (minus_one : D).

Definition mul_assign v1 (v2 : option sparse_vector) := sparse_op_inplace times true v1 v2.
Definition mul v1 v2 := sparse_op_copy times true v1 v2.
Definition add_assign v1 (v2 : option sparse_vector) := sparse_op_inplace plus false v1 v2.
Definition plus_vectors v1 v2 := sparse_op_copy plus false v1 v2.
Definition neg v := sparse_scalar_op times minus_one v.
Definition sub_assign v1 (v2 : option sparse_vector) := sparse_op_inplace minus false v1 v2.
Definition sub v1 v2 := sparse_op_copy minus false v1 v2.
Definition scale v (c : D) := sparse_scalar_op times c v.
Definition div_scale v (c : D) := sparse_scalar_op divide c v.
Definition dot v w : option D := sparse_op_reduce plus zero times w v.
End operators.
End sparse_vector.

(** * Lemmas *)

Section lemmas.
Context {K D : Type} `{!EqDecision K, !EqDecision D} (key_less : K -> K -> bool) (zero : D).
Context `{!StrictTotal key_less}.
Implicit Types (v w m pre suf : list (K * D)) (op : D -> D -> D).
Abbreviation el_set := (el_set key_less zero).
Abbreviation sv_at := (sv_at zero).

(** The keys are in order: what the [std::map] guarantees. *)
Definition ordered m : Prop := StronglySorted (fun x y => key_less x y = true) m.*1.

Definition all_below pre (k : K) : Prop := Forall (fun p => key_less p.1 k = true) pre.
Definition all_above (k : K) suf : Prop := Forall (fun p => key_less k p.1 = true) suf.

(** A component, unless it is zero. *)
Definition put (k : K) (s : D) m := if decide (s = zero) then m else (k, s) :: m.

Lemma key_less_irrefl k : key_less k k = false.
Proof. apply sw_irrefl; apply _. Qed.

Lemma key_less_ne k k' : key_less k k' = true -> k <> k'.
Proof. intros H ->. by rewrite key_less_irrefl in H. Qed.

Lemma ordered_cons k d m : ordered ((k, d) :: m) <-> all_above k m /\ ordered m.
Proof.
  unfold ordered, all_above. cbn. rewrite <- (Forall_fmap fst (fun k' => key_less k k' = true)).
  split; [by inversion 1|]. intros [H1 H2]. by constructor.
Qed.

Lemma ordered_app pre k d suf :
  ordered (pre ++ (k, d) :: suf) <-> ordered (pre ++ suf) /\ all_below pre k /\ all_above k suf.
Proof.
  induction pre as [|[k' d'] pre IH].
  - cbn [app]. rewrite ordered_cons. unfold all_below. rewrite Forall_nil. tauto.
  - cbn [app]. rewrite !ordered_cons, IH. unfold all_above, all_below. rewrite !Forall_app, !Forall_cons. cbn.
    tauto.
Qed.

Lemma map_find_below pre k m : all_below pre k -> map_find k (pre ++ m) = map_find k m.
Proof.
  induction 1 as [|[k' d] pre Hk _ IH]; [done|]. cbn. rewrite decide_False; [done|]. by apply key_less_ne.
Qed.

Lemma map_find_above k m : all_above k m -> map_find k m = None.
Proof.
  induction 1 as [|[k' d] m Hk _ IH]; [done|]. cbn. rewrite decide_False; [done|].
  intros ->. by destruct (key_less_ne _ _ Hk).
Qed.

Lemma map_find_head k d m : map_find k ((k, d) :: m) = Some d.
Proof. cbn. by rewrite decide_True. Qed.

Lemma map_next_at pre k d m : all_below pre k -> map_next k (pre ++ (k, d) :: m) = Some (map_begin m).
Proof.
  induction 1 as [|[k' d'] pre Hk _ IH]; [cbn; by rewrite decide_True|].
  cbn. rewrite decide_False; [done|]. by apply key_less_ne.
Qed.

Lemma map_next_absent pre k m : all_below pre k -> all_above k m -> map_next k (pre ++ m) = None.
Proof.
  intros H1 H2. induction H1 as [|[k' d'] pre Hk _ IH].
  - induction H2 as [|[k' d'] m Hk _ IH]; [done|]. cbn. rewrite decide_False; [done|].
    intros ->. by destruct (key_less_ne _ _ Hk).
  - cbn. rewrite decide_False; [done|]. by apply key_less_ne.
Qed.

(** Writing a component that is there, and one that is not. *)
Lemma el_set_present pre k d suf s :
  all_below pre k -> el_set (pre ++ (k, d) :: suf) k s = pre ++ put k s suf.
Proof.
  intros Hb. unfold el_set, put. rewrite (map_find_below pre k _ Hb), map_find_head.
  destruct (decide (s = zero)); induction Hb as [|[k' d'] pre Hk _ IH]; cbn;
    rewrite ?decide_True by done; try done; rewrite decide_False by (by apply key_less_ne); by rewrite IH.
Qed.

Lemma el_set_absent pre k suf s :
  all_below pre k -> all_above k suf -> el_set (pre ++ suf) k s = pre ++ put k s suf.
Proof.
  intros Hb Ha. unfold el_set, put. rewrite (map_find_below pre k _ Hb), (map_find_above k _ Ha).
  destruct (decide (s = zero)); [done|]. induction Hb as [|[k' d'] pre Hk _ IH]; cbn.
  - destruct Ha as [|[k' d'] suf Hk _]; cbn; [done|]. cbn in Hk. by rewrite Hk.
  - cbn in Hk. by rewrite (sw_asym key_less _ _ Hk), Hk, IH.
Qed.

(** Every key splits a map in two. *)
Lemma ordered_split k m :
  ordered m -> exists pre suf, all_below pre k /\ all_above k suf /\
    (m = pre ++ suf \/ exists d, m = pre ++ (k, d) :: suf).
Proof.
  induction m as [|[k' d'] m IH]; intros Ho.
  { exists [], []. split_and!; [constructor|constructor|by left]. }
  apply ordered_cons in Ho as [Ha Ho]. destruct (key_less k' k) eqn:E1.
  - destruct (IH Ho) as (pre&suf&Hb&Hs&Hm). exists ((k', d') :: pre), suf.
    split_and!; [by constructor|done|]. destruct Hm as [->|[d ->]]; [by left|right; by exists d].
  - destruct (key_less k k') eqn:E2.
    + exists [], ((k', d') :: m). split_and!; [constructor| |by left]. constructor; [done|].
      eapply Forall_impl; [exact Ha|]. intros p Hp. by eapply sw_trans.
    + assert (k' = k) as -> by by apply (st_total (lt := key_less)).
      exists [], m. split_and!; [constructor|done|]. right. by exists d'.
Qed.

Lemma put_app pre k s suf : pre ++ put k s suf = (pre ++ put k s []) ++ suf.
Proof. unfold put. destruct (decide _); by rewrite <- app_assoc. Qed.

Lemma sv_at_put k s m k' : all_above k m -> sv_at (put k s m) k' = if decide (k' = k) then s else sv_at m k'.
Proof.
  intros Ha. unfold put, SparseVector.sv_at. destruct (decide (s = zero)) as [->|Hs].
  - destruct (decide (k' = k)) as [->|]; [|done]. by rewrite map_find_above.
  - cbn. destruct (decide (k = k')) as [->|]; [by rewrite decide_True|]. by rewrite decide_False.
Qed.

Lemma sv_at_app pre m k : sv_at (pre ++ m) k = match map_find k pre with Some d => d | None => sv_at m k end.
Proof.
  unfold SparseVector.sv_at. induction pre as [|[k' d] pre IH]; [done|]. cbn. case_decide; [done|]. exact IH.
Qed.

Lemma ordered_put_app pre k s suf : ordered (pre ++ suf) -> all_below pre k -> all_above k suf -> ordered (pre ++ put k s suf).
Proof. intros Ho Hb Ha. unfold put. destruct (decide _); [done|]. by apply ordered_app. Qed.

(** Writing a component changes this component only. *)
Lemma el_set_ok m k s :
  ordered m -> ordered (el_set m k s) /\ forall k', sv_at (el_set m k s) k' = if decide (k' = k) then s else sv_at m k'.
Proof.
  intros Ho. destruct (ordered_split k m Ho) as (pre&suf&Hb&Ha&Hm).
  assert (Heq : el_set m k s = pre ++ put k s suf).
  { destruct Hm as [->|[d ->]]; [by apply el_set_absent|by apply el_set_present]. }
  assert (Hos : ordered (pre ++ suf)).
  { destruct Hm as [->|[d ->]]; [done|]. by apply ordered_app in Ho as [? _]. }
  rewrite Heq. split; [by apply ordered_put_app|]. intros k'. rewrite sv_at_app, sv_at_put by done.
  assert (Hmk : k' <> k -> sv_at m k' = sv_at (pre ++ suf) k').
  { intros Hne. destruct Hm as [->|[d ->]]; [done|]. rewrite !sv_at_app. unfold SparseVector.sv_at. cbn.
    by rewrite decide_False. }
  destruct (decide (k' = k)) as [->|Hne].
  - pose proof (map_find_below pre k [] Hb) as Hnil. rewrite app_nil_r in Hnil. by rewrite Hnil.
  - by rewrite Hmk, sv_at_app.
Qed.

(** * In-place operations *)

Lemma sparse_lookup_op_ok op w v :
  ordered w -> ordered v ->
  ordered (sparse_lookup_op key_less zero op w v) /\
  forall k, sv_at (sparse_lookup_op key_less zero op w v) k =
    match map_find k v with Some d => op (sv_at w k) d | None => sv_at w k end.
Proof.
  unfold sparse_lookup_op. revert w. induction v as [|[k d] v IH]; intros w Hw Hv; [done|].
  apply ordered_cons in Hv as [Ha Hv]. cbn [foldl fst snd]. change (get_d zero w k) with (sv_at w k).
  destruct (el_set_ok w k (op (sv_at w k) d) Hw) as [Ho Hat]. destruct (IH _ Ho Hv) as [Ho' Hat'].
  split; [done|]. intros k'. rewrite Hat', Hat. cbn. destruct (decide (k = k')) as [<-|Hne].
  - by rewrite (map_find_above k v Ha), decide_True.
  - by rewrite decide_False.
Qed.

(** The components of two vectors, merged. *)
Fixpoint merge op (l1 : list (K * D)) : list (K * D) -> list (K * D) :=
  fix go l2 :=
    match l1, l2 with
    | [], [] => []
    | [], (k2, d2) :: l2' => put k2 (op zero d2) (go l2')
    | (k1, d1) :: l1', [] => put k1 (op d1 zero) (merge op l1' [])
    | (k1, d1) :: l1', (k2, d2) :: l2' =>
        if key_less k1 k2 then put k1 (op d1 zero) (merge op l1' l2)
        else if key_less k2 k1 then put k2 (op zero d2) (go l2')
        else put k1 (op d1 d2) (merge op l1' l2')
    end.

Lemma all_above_put k k' s m : key_less k k' = true -> all_above k m -> all_above k (put k' s m).
Proof. intros Hk Hm. unfold put. destruct (decide _); [done|]. by constructor. Qed.

Lemma all_above_merge op k l1 l2 : all_above k l1 -> all_above k l2 -> all_above k (merge op l1 l2).
Proof.
  revert l2. induction l1 as [|[k1 d1] l1 IH1]; intros l2 H1 H2; induction l2 as [|[k2 d2] l2 IH2]; cbn [merge].
  - done.
  - apply Forall_cons in H2 as [Hk H2]. by apply all_above_put; [|apply IH2].
  - apply Forall_cons in H1 as [Hk H1]. by apply all_above_put; [|apply IH1].
  - apply Forall_cons in H1 as [Hk1 H1]. apply Forall_cons in H2 as [Hk2 H2].
    destruct (key_less k1 k2); [|destruct (key_less k2 k1)]; apply all_above_put; try done.
    + apply IH1; [done|by constructor].
    + apply IH2. done.
    + by apply IH1.
Qed.

Lemma all_above_trans k k' m : key_less k k' = true -> all_above k' m -> all_above k m.
Proof. intros Hk Hm. eapply Forall_impl; [exact Hm|]. intros p Hp. by eapply sw_trans. Qed.

Lemma sv_at_above k m : all_above k m -> sv_at m k = zero.
Proof. intros H. unfold SparseVector.sv_at. by rewrite map_find_above. Qed.

Lemma sv_at_cons k d m k' : sv_at ((k, d) :: m) k' = if decide (k' = k) then d else sv_at m k'.
Proof.
  unfold SparseVector.sv_at. cbn. destruct (decide (k = k')) as [->|]; [by rewrite decide_True|].
  by rewrite decide_False.
Qed.

Lemma ordered_put k s m : all_above k m -> ordered m -> ordered (put k s m).
Proof. intros Ha Ho. apply (ordered_put_app [] k s m); [done|constructor|done]. Qed.

Lemma merge_ok op l1 l2 :
  op zero zero = zero -> ordered l1 -> ordered l2 ->
  ordered (merge op l1 l2) /\ forall k, sv_at (merge op l1 l2) k = op (sv_at l1 k) (sv_at l2 k).
Proof.
  intros H0. revert l2. induction l1 as [|[k1 d1] l1 IH1]; intros l2 H1 H2;
    induction l2 as [|[k2 d2] l2 IH2]; cbn [merge].
  - split; [constructor|]. intros k. done.
  - apply ordered_cons in H2 as [Ha2 H2]. destruct (IH2 H2) as [Ho Hat].
    assert (Ha : all_above k2 (merge op [] l2)) by (by apply all_above_merge; [constructor|]).
    split; [by apply ordered_put|]. intros k. rewrite sv_at_put by exact Ha. rewrite sv_at_cons.
    change (sv_at [] k) with zero. case_decide; [done|]. apply Hat.
  - apply ordered_cons in H1 as [Ha1 H1]. destruct (IH1 [] H1 H2) as [Ho Hat].
    assert (Ha : all_above k1 (merge op l1 [])) by (by apply all_above_merge; [|constructor]).
    split; [by apply ordered_put|]. intros k. rewrite sv_at_put by exact Ha. rewrite sv_at_cons.
    change (sv_at [] k) with zero. case_decide; [done|]. apply Hat.
  - pose proof H1 as H1'. pose proof H2 as H2'.
    apply ordered_cons in H1 as [Ha1 H1]. apply ordered_cons in H2 as [Ha2 H2].
    destruct (key_less k1 k2) eqn:E1; [|destruct (key_less k2 k1) eqn:E2].
    + destruct (IH1 ((k2, d2) :: l2) H1 H2') as [Ho Hat].
      assert (Ha2' : all_above k1 ((k2, d2) :: l2)) by (constructor; [done|by eapply all_above_trans]).
      assert (Ha : all_above k1 (merge op l1 ((k2, d2) :: l2))) by (by apply all_above_merge).
      split; [by apply ordered_put|]. intros k. rewrite sv_at_put by exact Ha. rewrite (sv_at_cons k1).
      case_decide as E; [|apply Hat]. by rewrite E, (sv_at_above k1 _ Ha2').
    + destruct (IH2 H2) as [Ho Hat].
      assert (Ha1' : all_above k2 ((k1, d1) :: l1)) by (constructor; [done|by eapply all_above_trans]).
      assert (Ha : all_above k2 (merge op ((k1, d1) :: l1) l2)) by (by apply all_above_merge).
      split; [by apply ordered_put|]. intros k. rewrite sv_at_put by exact Ha. rewrite (sv_at_cons k2).
      case_decide as E; [|apply Hat]. by rewrite E, (sv_at_above k2 _ Ha1').
    + assert (k2 = k1) as -> by by apply (st_total (lt := key_less)).
      destruct (IH1 l2 H1 H2) as [Ho Hat].
      assert (Ha : all_above k1 (merge op l1 l2)) by (by apply all_above_merge).
      split; [by apply ordered_put|]. intros k. rewrite sv_at_put by exact Ha. rewrite !sv_at_cons.
      case_decide; [done|apply Hat].
Qed.

(** The iterators of the loop split the map in the part done and the rest. *)
Definition done_below pre suf : Prop := Forall (fun p => all_below pre p.1) suf.

Lemma all_below_app pre1 pre2 k : all_below (pre1 ++ pre2) k <-> all_below pre1 k /\ all_below pre2 k.
Proof. apply Forall_app. Qed.

Lemma all_below_put pre k s k' : all_below pre k' -> key_less k k' = true -> all_below (pre ++ put k s []) k'.
Proof.
  intros Hb Hk. apply all_below_app. split; [done|]. unfold put. destruct (decide _); repeat constructor. done.
Qed.

Lemma done_below_put pre k s suf : done_below pre suf -> all_above k suf -> done_below (pre ++ put k s []) suf.
Proof.
  intros Hd Ha. apply Forall_forall. intros p Hp. unfold done_below, all_above in *. rewrite Forall_forall in Hd, Ha.
  by apply all_below_put; [apply Hd|apply Ha].
Qed.

Lemma ordered_app_inv pre suf : ordered (pre ++ suf) -> ordered suf /\ done_below pre suf.
Proof.
  intros Ho. revert pre Ho. induction suf as [|[k d] suf IH]; intros pre Ho; [split; constructor|].
  pose proof Ho as Ho'. apply ordered_app in Ho as (Ho&Hb&Ha). destruct (IH pre Ho) as [Hs Hd].
  split; [by apply ordered_cons|]. by constructor.
Qed.

Lemma pairwise_rest1_ok fuel op pre l1 :
  ordered (pre ++ l1) -> (length l1 <= fuel)%nat ->
  pairwise_rest1 key_less zero fuel op (pre ++ l1) (map_begin l1) = Some (pre ++ merge op l1 []).
Proof.
  revert pre fuel. induction l1 as [|[k1 d1] l1 IH]; intros pre fuel Ho Hf; [by destruct fuel|].
  destruct fuel as [|fuel]; [cbn in Hf; lia|]. pose proof Ho as Ho1. apply ordered_app in Ho1 as (Ho1&Hb&Ha).
  cbn [pairwise_rest1 map_begin head fmap option_fmap option_map fst].
  rewrite (map_next_at pre k1 d1 l1 Hb). cbn [mbind option_bind].
  unfold get_d. rewrite (map_find_below pre k1 _ Hb), map_find_head, (el_set_present pre k1 d1 l1 _ Hb).
  rewrite put_app, IH; [|by rewrite <- put_app; apply ordered_put_app|cbn in Hf; lia].
  cbn [merge]. by rewrite <- put_app.
Qed.

Lemma pairwise_rest2_ok fuel op pre pre2 l2 :
  ordered pre -> ordered (pre2 ++ l2) -> done_below pre l2 -> (length l2 <= fuel)%nat ->
  pairwise_rest2 key_less zero fuel op pre (Some (pre2 ++ l2)) (map_begin l2) = Some (pre ++ merge op [] l2).
Proof.
  revert pre pre2 fuel. induction l2 as [|[k2 d2] l2 IH]; intros pre pre2 fuel Ho Ho2 Hd Hf.
  { destruct fuel; cbn; by rewrite app_nil_r. }
  destruct fuel as [|fuel]; [cbn in Hf; lia|]. pose proof Ho2 as Ho2'. apply ordered_app in Ho2' as (_&Hb2&Ha2).
  apply Forall_cons in Hd as [Hb Hd]. cbn [fst] in Hb.
  cbn [pairwise_rest2 map_begin head fmap option_fmap option_map fst second_of default from_option id].
  rewrite (map_find_below pre2 k2 _ Hb2), map_find_head. cbn [mbind option_bind].
  rewrite (map_next_at pre2 k2 d2 l2 Hb2). cbn [mbind option_bind].
  pose proof (el_set_absent pre k2 [] (op zero d2) Hb ltac:(constructor)) as Hset. rewrite app_nil_r in Hset.
  rewrite Hset, (cons_middle (k2, d2) pre2 l2), app_assoc.
  rewrite IH; [cbn [merge]; by rewrite <- put_app| | | |cbn in Hf; lia].
  - apply ordered_put_app; [by rewrite app_nil_r|done|constructor].
  - by rewrite <- app_assoc.
  - by apply done_below_put.
Qed.

Lemma pairwise_loop_ok fuel op pre pre2 l1 l2 :
  ordered (pre ++ l1) -> ordered (pre2 ++ l2) -> done_below pre l2 -> (length l1 + length l2 <= fuel)%nat ->
  pairwise_loop key_less zero fuel op (pre ++ l1) (Some (pre2 ++ l2)) (map_begin l1) (map_begin l2) =
    Some (pre ++ merge op l1 l2).
Proof.
  revert pre pre2 l1 l2. induction fuel as [|fuel IH]; intros pre pre2 l1 l2 Ho Ho2 Hd Hf.
  { destruct l1; [|cbn in Hf; lia]. destruct l2; [done|cbn in Hf; lia]. }
  destruct l1 as [|[k1 d1] l1].
  { cbn [pairwise_loop map_begin head fmap option_fmap option_map]. rewrite app_nil_r in *.
    cbn [pairwise_rest1 mbind option_bind]. apply (pairwise_rest2_ok (S fuel)); done. }
  destruct l2 as [|[k2 d2] l2].
  { change (map_begin []) with (@None K). cbn [pairwise_loop].
    rewrite (pairwise_rest1_ok (S fuel)); [done|done|cbn in *; lia]. }
  pose proof Ho as Ho1'. apply ordered_app in Ho1' as (Hos1&Hb1&Ha1).
  pose proof Ho2 as Ho2'. apply ordered_app in Ho2' as (Hos2&Hb2&Ha2).
  pose proof Hd as Hd'. apply Forall_cons in Hd' as [Hb12 Hd2]. cbn [fst] in Hb12.
  cbn [pairwise_loop map_begin head fmap option_fmap option_map fst second_of default from_option id merge].
  rewrite (map_next_at pre k1 d1 l1 Hb1), (map_next_at pre2 k2 d2 l2 Hb2).
  rewrite (map_find_below pre2 k2 _ Hb2), map_find_head. cbn [mbind option_bind].
  unfold get_d. rewrite (map_find_below pre k1 _ Hb1), map_find_head, !(el_set_present pre k1 d1 l1 _ Hb1).
  cbn [length] in Hf.
  destruct (key_less k1 k2) eqn:E1; [|destruct (key_less k2 k1) eqn:E2].
  - rewrite put_app. rewrite (IH _ pre2 l1 ((k2, d2) :: l2)); [by rewrite <- put_app| |done| |cbn [length]; lia].
    + rewrite <- put_app. by apply ordered_put_app.
    + apply done_below_put; [done|]. constructor; [done|]. by eapply all_above_trans.
  - assert (Ha21 : all_above k2 ((k1, d1) :: l1)) by (constructor; [done|by eapply all_above_trans]).
    rewrite (el_set_absent pre k2 _ _ Hb12 Ha21), put_app.
    rewrite (cons_middle (k2, d2) pre2 l2), app_assoc.
    change (Some k1) with (map_begin ((k1, d1) :: l1)).
    rewrite (IH _ _ ((k1, d1) :: l1) l2); [by rewrite <- put_app| | | |cbn [length]; lia].
    + rewrite <- put_app. by apply ordered_put_app.
    + by rewrite <- app_assoc.
    + by apply done_below_put.
  - assert (k2 = k1) as -> by by apply (st_total (lt := key_less)).
    rewrite put_app, (cons_middle (k1, d2) pre2 l2), app_assoc.
    rewrite (IH _ _ l1 l2); [by rewrite <- put_app| | | |lia].
    + rewrite <- put_app. by apply ordered_put_app.
    + by rewrite <- app_assoc.
    + by apply done_below_put.
Qed.

(** An in-place operation on sparse vectors ends and computes the operation
    componentwise, whichever of the two algorithms is chosen by the sizes: the
    pairwise one also when absent components matter, the lookup one when adding
    a zero component changes nothing. *)
Theorem sparse_op_inplace_refines op force w v :
  ordered w -> ordered v -> op zero zero = zero -> (force = false -> forall x, op x zero = x) ->
  exists w', sparse_op_inplace key_less zero op force w (Some v) = Some w' /\ ordered w' /\
    forall k, sv_at w' k = op (sv_at w k) (sv_at v k).
Proof.
  intros Hw Hv H0 Hforce. unfold sparse_op_inplace, sv_size. cbn [second_of default from_option id].
  destruct (_ <? _)%nat eqn:E, force; cbn [andb negb].
  2: { destruct (sparse_lookup_op_ok op w v Hw Hv) as [Ho Hat]. eexists. split; [done|]. split; [done|].
       intros k. rewrite Hat. unfold SparseVector.sv_at at 4. destruct (map_find k v); [done|]. by rewrite Hforce. }
  all: exists (merge op w v); unfold sparse_pairwise_op; cbn [second_of default from_option id];
    rewrite (pairwise_loop_ok _ op [] [] w v Hw Hv); [|apply Forall_forall; intros; constructor|done];
    split; [done|by apply merge_ok].
Qed.

Lemma omap_none_all {A B} (f : A -> option B) (l : list A) : (forall x, f x = None) -> omap f l = [].
Proof. intros Hf. induction l as [|x l IH]; [done|]. csimpl. by rewrite Hf. Qed.

(** ** Scalar operations *)

Definition map_values (f : D -> D) m : list (K * D) := map (fun p => (p.1, f p.2)) m.

Lemma scalar_loop_ok fuel op c pre suf :
  ordered (pre ++ suf) -> (length suf <= fuel)%nat ->
  scalar_loop key_less zero fuel op c (pre ++ suf) (map_begin suf) =
    if forallb (fun p => negb (bool_decide (op p.2 c = zero))) suf
    then Some (pre ++ map_values (fun d => op d c) suf) else None.
Proof.
  revert pre fuel. induction suf as [|[k d] suf IH]; intros pre fuel Ho Hf.
  { destruct fuel; cbn; by rewrite app_nil_r. }
  destruct fuel as [|fuel]; [cbn in Hf; lia|]. pose proof Ho as Ho'. apply ordered_app in Ho' as (Hos&Hb&Ha).
  cbn [scalar_loop map_begin head fmap option_fmap option_map fst forallb snd].
  unfold get_d. rewrite (map_find_below pre k _ Hb), map_find_head, (el_set_present pre k d suf _ Hb).
  unfold put. destruct (bool_decide_reflect (op d c = zero)) as [Hz|Hz]; cbn [negb andb].
  - rewrite decide_True by done. by rewrite (map_next_absent pre k suf Hb Ha).
  - rewrite decide_False by done. rewrite (map_next_at pre k _ suf Hb). cbn [mbind option_bind].
    rewrite (cons_middle (k, op d c) pre suf), app_assoc, IH; [|rewrite <- app_assoc; by apply ordered_app|cbn in Hf; lia].
    destruct (forallb _ suf); [|done]. cbn [map_values map fst snd]. by rewrite <- app_assoc.
Qed.

(** An operation with a scalar changes every component, in order, and is
    undefined when one of them becomes zero: the loop erases the component its
    own iterator is at and then steps the iterator. *)
Theorem sparse_scalar_op_refines op (c : D) v :
  ordered v ->
  ((exists p, p ∈ v /\ op p.2 c = zero) /\ sparse_scalar_op key_less zero op c v = None) \/
  (Forall (fun p => op p.2 c <> zero) v /\
   sparse_scalar_op key_less zero op c v = Some (map_values (fun d => op d c) v)).
Proof.
  intros Ho. unfold sparse_scalar_op. pose proof (scalar_loop_ok (length v) op c [] v Ho ltac:(lia)) as Hl. cbn [app] in Hl. rewrite Hl.
  destruct (forallb _ v) eqn:E; [right|left].
  - rewrite forallb_forall in E. split; [|done]. apply Forall_forall. intros p Hp.
    apply list_elem_of_In in Hp. specialize (E p Hp). by apply negb_true_iff, bool_decide_eq_false in E.
  - split; [|done]. apply not_true_iff_false in E. rewrite forallb_forall in E.
    destruct (decide (Exists (fun p => op p.2 c = zero) v)) as [Hex|Hno]; [by apply Exists_exists|].
    destruct E. intros p Hp. apply list_elem_of_In in Hp. apply negb_true_iff, bool_decide_eq_false.
    intros Hz. apply Hno, Exists_exists. by exists p.
Qed.

(** ** A vector and itself *)

Lemma pairwise_loop_self fuel op pre suf :
  ordered (pre ++ suf) -> (length suf <= fuel)%nat ->
  pairwise_loop key_less zero fuel op (pre ++ suf) None (map_begin suf) (map_begin suf) =
    if forallb (fun p => negb (bool_decide (op p.2 p.2 = zero))) suf
    then Some (pre ++ map_values (fun d => op d d) suf) else None.
Proof.
  revert pre fuel. induction suf as [|[k d] suf IH]; intros pre fuel Ho Hf.
  { destruct fuel; cbn; by rewrite app_nil_r. }
  destruct fuel as [|fuel]; [cbn in Hf; lia|]. pose proof Ho as Ho'. apply ordered_app in Ho' as (Hos&Hb&Ha).
  cbn [pairwise_loop map_begin head fmap option_fmap option_map fst forallb snd second_of default from_option id].
  rewrite key_less_irrefl, (map_next_at pre k d suf Hb). cbn [mbind option_bind].
  rewrite (map_find_below pre k _ Hb), map_find_head. cbn [mbind option_bind].
  unfold get_d. rewrite (map_find_below pre k _ Hb), map_find_head, (el_set_present pre k d suf _ Hb).
  unfold put. destruct (bool_decide_reflect (op d d = zero)) as [Hz|Hz]; cbn [negb andb].
  - rewrite decide_True by done. by rewrite (map_next_absent pre k suf Hb Ha).
  - rewrite decide_False by done. rewrite (map_next_at pre k _ suf Hb). cbn [mbind option_bind].
    rewrite (cons_middle (k, op d d) pre suf), app_assoc, IH; [|rewrite <- app_assoc; by apply ordered_app|cbn in Hf; lia].
    destruct (forallb _ suf); [|done]. cbn [map_values map fst snd]. by rewrite <- app_assoc.
Qed.

(** An in-place operation of a vector with itself, as in [v += v], doubles
    as long as no component becomes zero, and is undefined as soon as one does,
    as always in [v -= v]: the component is erased under the second iterator. *)
Theorem sparse_op_inplace_self op force v :
  ordered v ->
  ((exists p, p ∈ v /\ op p.2 p.2 = zero) /\ sparse_op_inplace key_less zero op force v None = None) \/
  (Forall (fun p => op p.2 p.2 <> zero) v /\
   sparse_op_inplace key_less zero op force v None = Some (map_values (fun d => op d d) v)).
Proof.
  intros Ho. unfold sparse_op_inplace, sv_size. cbn [second_of default from_option id].
  replace (2 * length v <? length v)%nat with false by (symmetry; apply Nat.ltb_ge; lia). cbn [andb].
  unfold sparse_pairwise_op. cbn [second_of default from_option id].
  pose proof (pairwise_loop_self (length v + length v) op [] v Ho ltac:(lia)) as Hl. cbn [app] in Hl. rewrite Hl.
  destruct (forallb _ v) eqn:E; [right|left].
  - rewrite forallb_forall in E. split; [|done]. apply Forall_forall. intros p Hp.
    apply list_elem_of_In in Hp. specialize (E p Hp). by apply negb_true_iff, bool_decide_eq_false in E.
  - split; [|done]. apply not_true_iff_false in E. rewrite forallb_forall in E.
    destruct (decide (Exists (fun p => op p.2 p.2 = zero) v)) as [Hex|Hno]; [by apply Exists_exists|].
    destruct E. intros p Hp. apply list_elem_of_In in Hp. apply negb_true_iff, bool_decide_eq_false.
    intros Hz. apply Hno, Exists_exists. by exists p.
Qed.

(** ** Reductions *)

Section reductions.
Context {E : Type} (reduce : E -> E -> E) (ezero : E).

(** The components with a key in both, in the order of the keys. *)
Definition common v1 v2 : list (D * D) :=
  omap (fun p => d2 ← map_find p.1 v2; Some (p.2, d2)) v1.

Definition reduce_common (prod : D -> D -> E) v1 v2 : E :=
  foldl (fun ret p => reduce ret (prod p.1 p.2)) ezero (common v1 v2).

Lemma common_cons_l k d v1 v2 :
  common ((k, d) :: v1) v2 = match map_find k v2 with Some d2 => [(d, d2)] | None => [] end ++ common v1 v2.
Proof. unfold common. csimpl. by destruct (map_find k v2). Qed.

Lemma common_skip_r k d v1 v2 : all_above k v1 -> common v1 ((k, d) :: v2) = common v1 v2.
Proof.
  induction 1 as [|[k1 d1] v1 Hk _ IH]; [done|]. rewrite !common_cons_l, IH. f_equal. cbn [map_find].
  by rewrite decide_False by (by apply key_less_ne).
Qed.

Lemma pairwise_reduce_loop_ok fuel prod res v1 v2 :
  ordered v1 -> ordered v2 -> (length v1 + length v2 <= fuel)%nat ->
  pairwise_reduce_loop key_less reduce fuel prod res v1 v2 =
    foldl (fun ret p => reduce ret (prod p.1 p.2)) res (common v1 v2).
Proof.
  revert res v1 v2. induction fuel as [|fuel IH]; intros res v1 v2 H1 H2 Hf.
  { destruct v1; [|cbn in Hf; lia]. done. }
  destruct v1 as [|[k1 d1] v1]; [done|]. destruct v2 as [|[k2 d2] v2].
  { cbn [pairwise_reduce_loop]. unfold common. rewrite (omap_none_all _ ((k1, d1) :: v1)); [done|done]. }
  pose proof H1 as H1'. pose proof H2 as H2'. apply ordered_cons in H1 as [Ha1 H1], H2 as [Ha2 H2].
  cbn [pairwise_reduce_loop length] in *. destruct (key_less k1 k2) eqn:E1; [|destruct (key_less k2 k1) eqn:E2].
  - rewrite IH by (done || cbn; lia). rewrite common_cons_l.
    rewrite (map_find_above k1 ((k2, d2) :: v2)); [done|]. constructor; [done|by eapply all_above_trans].
  - rewrite IH by (done || cbn; lia). rewrite common_skip_r; [done|]. constructor; [done|by eapply all_above_trans].
  - assert (k2 = k1) as -> by by apply (st_total (lt := key_less)).
    rewrite IH by (done || lia). rewrite common_cons_l, map_find_head. cbn [app foldl fst snd].
    by rewrite common_skip_r.
Qed.

(** Only the common components count, when a zero component adds nothing. *)
Lemma sparse_lookup_op_reduce_ok prod v1 v2 :
  (forall r y, reduce r (prod zero y) = r) -> (length v2 <= length v1)%nat ->
  sparse_lookup_op_reduce zero reduce ezero prod v1 v2 = Some (reduce_common (fun x y => prod y x) v2 v1).
Proof.
  intros H0 Hlen. unfold sparse_lookup_op_reduce. replace (_ <=? _)%nat with true by (symmetry; by apply Nat.leb_le).
  f_equal. unfold reduce_common. clear Hlen. generalize ezero. induction v2 as [|[k d] v2 IH]; intros res; [done|].
  rewrite common_cons_l. cbn [foldl fst snd]. rewrite IH. unfold SparseVector.sv_at.
  destruct (map_find k v1); [done|]. by rewrite H0.
Qed.

Lemma common_swap v1 v2 : ordered v1 -> ordered v2 -> common v2 v1 = (fun p => (p.2, p.1)) <$> common v1 v2.
Proof.
  intros H1 H2. remember (length v1 + length v2)%nat as n eqn:Hn. assert (Hf : (length v1 + length v2 <= n)%nat) by lia.
  clear Hn. revert v1 v2 H1 H2 Hf. induction n as [|n IH]; intros v1 v2 H1 H2 Hf.
  { destruct v1; [|cbn in Hf; lia]. destruct v2; [done|cbn in Hf; lia]. }
  destruct v1 as [|[k1 d1] v1]; [by apply omap_none_all|]. destruct v2 as [|[k2 d2] v2].
  { unfold common at 2. by rewrite omap_none_all. }
  pose proof H1 as H1'. pose proof H2 as H2'. apply ordered_cons in H1 as [Ha1 H1], H2 as [Ha2 H2]. cbn [length] in Hf.
  destruct (key_less k1 k2) eqn:E1; [|destruct (key_less k2 k1) eqn:E2].
  - rewrite common_skip_r by (constructor; [done|by eapply all_above_trans]).
    rewrite IH by (done || cbn; lia). rewrite (common_cons_l k1 d1).
    rewrite (map_find_above k1); [done|]. constructor; [done|by eapply all_above_trans].
  - rewrite (common_skip_r k2 d2 ((k1, d1) :: v1)) by (constructor; [done|by eapply all_above_trans]).
    rewrite (common_cons_l k2 d2), (map_find_above k2) by (constructor; [done|by eapply all_above_trans]).
    cbn [app]. rewrite IH by (done || cbn; lia). done.
  - assert (k2 = k1) as -> by by apply (st_total (lt := key_less)).
    rewrite !common_cons_l, !map_find_head. cbn [app]. rewrite !common_skip_r by done.
    by rewrite IH by (done || lia).
Qed.

Lemma reduce_common_swap prod v1 v2 :
  ordered v1 -> ordered v2 -> reduce_common (fun x y => prod y x) v2 v1 = reduce_common prod v1 v2.
Proof.
  intros H1 H2. unfold reduce_common. rewrite (common_swap v1 v2 H1 H2). generalize ezero.
  induction (common v1 v2) as [|p l IH]; intros r; [done|]. apply IH.
Qed.

(** Reducing two sparse vectors, as in [dot], is the reduction of the
    products of the components they have in common, in the order of the keys,
    whichever of the four ways the sizes select, when the product with a zero
    component adds nothing. *)
Theorem sparse_op_reduce_refines prod v1 v2 :
  ordered v1 -> ordered v2 -> (forall r y, reduce r (prod zero y) = r) -> (forall r x, reduce r (prod x zero) = r) ->
  sparse_op_reduce key_less zero reduce ezero prod v1 v2 = Some (reduce_common prod v1 v2).
Proof.
  intros H1 H2 Hz1 Hz2. unfold sparse_op_reduce, sparse_op_reduce_reversed, sparse_pairwise_op_reduce.
  destruct (Nat.ltb_spec (length v1) (length v2)) as [Hlt|Hge].
  - destruct (Nat.ltb_spec (2 * length v1) (length v2)).
    + rewrite sparse_lookup_op_reduce_ok; [done|intros r y; apply Hz2|lia].
    + rewrite pairwise_reduce_loop_ok by done. f_equal. change (reduce_common (fun x y => prod y x) v2 v1 = reduce_common prod v1 v2).
      by apply reduce_common_swap.
  - destruct (Nat.ltb_spec (2 * length v2) (length v1)).
    + rewrite sparse_lookup_op_reduce_ok by done. f_equal. by apply reduce_common_swap.
    + by rewrite pairwise_reduce_loop_ok.
Qed.
End reductions.
End lemmas.

(** ** Examples *)

Definition sample_weights : list (Z * Z) := [(1, 2); (3, 4); (5, 6)].
Definition sample_features : list (Z * Z) := [(3, -4); (4, 7)].

Lemma sample_weights_ordered : ordered Z.ltb sample_weights.
Proof. repeat constructor. Qed.

Lemma sample_features_ordered : ordered Z.ltb sample_features.
Proof. repeat constructor. Qed.

Lemma sparse_op_inplace_refines_witness :
  exists w', sparse_op_inplace Z.ltb 0 Z.add false sample_weights (Some sample_features) = Some w' /\
    ordered Z.ltb w' /\ forall k, sv_at 0 w' k = sv_at 0 sample_weights k + sv_at 0 sample_features k.
Proof.
  apply (sparse_op_inplace_refines Z.ltb 0 Z.add false _ _ sample_weights_ordered sample_features_ordered);
    [reflexivity|intros _ x; lia].
Defined.

Lemma sparse_scalar_op_refines_witness :
  sparse_scalar_op Z.ltb 0 Z.mul 3 sample_weights = Some [(1, 6); (3, 12); (5, 18)].
Proof.
  destruct (sparse_scalar_op_refines Z.ltb 0 Z.mul 3 sample_weights sample_weights_ordered)
    as [[_ H]|[_ H]]; [vm_compute in H; discriminate H|exact H].
Defined.

Lemma sparse_op_inplace_self_witness :
  sparse_op_inplace Z.ltb 0 Z.sub false sample_weights None = None.
Proof.
  destruct (sparse_op_inplace_self Z.ltb 0 Z.sub false sample_weights sample_weights_ordered)
    as [[_ H]|[H _]]; [exact H|]. inversion H. lia.
Defined.

Lemma sparse_op_reduce_refines_witness :
  sparse_op_reduce Z.ltb 0 Z.add 0 Z.mul sample_weights sample_features = Some (-16).
Proof.
  rewrite (sparse_op_reduce_refines Z.ltb 0 Z.add 0 Z.mul sample_weights sample_features sample_weights_ordered
             sample_features_ordered); [reflexivity|intros; lia|intros; lia].
Defined.
