(* ===== verification/Edge.v ===== *)
(** Edges of the chart and how they are made: [edge<InfoT>], [edge_generator] and
    the edge-creating part of [edge_factory]
    (src/sbmt_decoder/include/sbmt/edge/edge.hpp, impl/edge.ipp), with the data of
    [edge_equivalence_impl] (edge_equivalence.hpp), which edges refer to.

    An edge points to the equivalences of its children; equivalences are objects in
    a store, which is passed explicitly, so that sharing is visible.  A reference
    that is not in the store is an access to freed memory, and [None]; so is a
    failed assertion.  Scores ([score_t]) and feature information ([InfoT]) are
    the classes [ScoreOps] and [InfoOps]; the grammar and the info factory are the
    interface [GrammarOps]. *)
From S2P Require Import Prelude Span TokenStorage Token Generator.
Open Scope Z_scope.

(** [score_t]: its order, product and quotient, and one. *)
Class ScoreOps (S : Type) := {
  score_lt : S -> S -> bool;
  score_mul : S -> S -> S;
  score_div : S -> S -> S;
  as_one : S
}.

(** [info_type] with [edge_info_equal] and [edge_info_hash]. *)
Class InfoOps (I : Type) := {
  edge_info_equal : I -> I -> bool;
  edge_info_hash : I -> Z
}.

(** Equality of infos is an equivalence that the hash respects. *)
Class InfoLaws (I : Type) `{!InfoOps I} : Prop := {
  info_equal_refl i : edge_info_equal i i = true;
  info_equal_sym i j : edge_info_equal i j = true -> edge_info_equal j i = true;
  info_equal_trans i j k :
    edge_info_equal i j = true -> edge_info_equal j k = true -> edge_info_equal i k = true;
  info_equal_hash i j : edge_info_equal i j = true -> edge_info_hash i = edge_info_hash j
}.

Definition NULL_GRAMMAR_RULE_ID : Z := 0.

(** A reference to an equivalence: [boost::intrusive_ptr]. *)
Definition equiv_p : Type := option positive.

#[export] Instance equiv_p_eq_dec : EqDecision equiv_p := _.

Section edge.
Context {score info_type : Type} `{!ScoreOps score, !InfoOps info_type}.

Record edge := mk_edge {
  rt : indexed_token;
  rule_id : Z;
  child0 : equiv_p;
  child1 : equiv_p;
  total : score;
  inside : score;
  spn : span_t;
  info : info_type
}.

(** What differs between the edges of an equivalence. *)
Record alt_edge := mk_alt {
  alt_child0 : equiv_p;
  alt_child1 : equiv_p;
  alt_inside : score;
  alt_rule_id : Z
}.

Record edge_equivalence_impl := mk_equiv {
  m_alts : list alt_edge;
  m_rep : edge
}.

Abbreviation equiv_store := (gmap positive edge_equivalence_impl).

Definition edge_is_null (e : edge) : bool := is_null (rt e).
Definition edge_set_null (e : edge) : edge :=
  mk_edge (set_null (rt e)) (rule_id e) (child0 e) (child1 e) (total e) (inside e) (spn e) (info e).

(** [edge_equivalence_impl::empty] *)
Definition equiv_empty (i : edge_equivalence_impl) : bool := edge_is_null (m_rep i).

Definition assert_true (b : bool) : option unit := if b then Some tt else None.

(** [*child] *)
Definition deref (σ : equiv_store) (p : equiv_p) : option edge_equivalence_impl :=
  match p with Some l => σ !! l | None => None end.

(** [child[0] && !child[0]->empty()] *)
Definition has_first_child (σ : equiv_store) (e : edge) : option bool :=
  match child0 e with
  | None => Some false
  | Some _ => i ← deref σ (child0 e); Some (negb (equiv_empty i))
  end.
Definition has_second_child (e : edge) : bool := bool_decide (child1 e <> None).

Definition is_unary (σ : equiv_store) (e : edge) : option bool :=
  b ← has_first_child σ e; Some (b && negb (has_second_child e)).
Definition is_binary (e : edge) : bool := has_second_child e.
Definition child_count (σ : equiv_store) (e : edge) : option Z :=
  b ← has_first_child σ e;
  Some (if negb b then 0 else if negb (has_second_child e) then 1 else 2).

(** [get_children(i)] and [get_child(i)] *)
Definition child_at (e : edge) (i : bool) : equiv_p := if i then child1 e else child0 e.
Definition get_children (σ : equiv_store) (e : edge) (i : bool) : option equiv_p :=
  q ← deref σ (child_at e i);
  assert_true (negb (equiv_empty q)) ;;
  Some (child_at e i).
Definition get_child (σ : equiv_store) (e : edge) (i : bool) : option edge :=
  q ← deref σ (child_at e i);
  assert_true (negb (equiv_empty q)) ;;
  Some (m_rep q).
Definition first_children (σ : equiv_store) (e : edge) : option equiv_p := get_children σ e false.
Definition second_children (σ : equiv_store) (e : edge) : option equiv_p := get_children σ e true.
Definition first_child (σ : equiv_store) (e : edge) : option edge := get_child σ e false.
Definition second_child (σ : equiv_store) (e : edge) : option edge := get_child σ e true.

Definition split (σ : equiv_store) (e : edge) : option Z :=
  b ← has_first_child σ e;
  if (b : bool) then c ← first_child σ e; Some (span_right (spn c)) else Some 0.

Definition heuristic_score (e : edge) : score := score_div (total e) (inside e).
Definition delta_inside_score (σ : equiv_store) (e : edge) : option score :=
  b ← has_first_child σ e;
  if negb b then Some (inside e)
  else c ← first_child σ e;
       let ret := score_div (inside e) (inside c) in
       if negb (has_second_child e) then Some ret
       else c ← second_child σ e; Some (score_div ret (inside c)).

Definition has_rule_id (e : edge) : bool := negb (rule_id e =? NULL_GRAMMAR_RULE_ID).

(** [adjust]: the heuristic part of the total is kept. *)
Definition adjust (child1 child2 : equiv_p) (inside_score : score) (ruleid : Z) (e : edge) : edge :=
  let heuristic := score_div (total e) (inside e) in
  mk_edge (rt e) ruleid child1 child2 (score_mul heuristic inside_score) inside_score (spn e) (info e).
Definition adjust_score (inside_score : score) (e : edge) : edge :=
  let heuristic := score_div (total e) (inside e) in
  mk_edge (rt e) (rule_id e) (child0 e) (child1 e) (score_mul heuristic inside_score) inside_score
    (spn e) (info e).

(** [equal_to]: the infos of two top edges are not compared. *)
Definition equal_to (e other : edge) : bool :=
  indexed_equal (rt e) (rt other) && span_eqb (spn e) (spn other) &&
  (bool_decide (indexed_type (rt e) = top_token) || edge_info_equal (info e) (info other)).

Definition edge_hash_value `{!HashCombine} (hash_token : indexed_token -> Z) (hash_span : span_t -> Z)
    (e : edge) : Z :=
  let retval := hash_combine (hash_token (rt e)) (hash_span (spn e)) in
  if bool_decide (indexed_type (rt e) = top_token) then retval
  else hash_combine retval (edge_info_hash (info e)).

(** [adjust_child]: the child is replaced by an equivalent one. *)
Definition adjust_child (σ : equiv_store) (new_child : equiv_p) (i : bool) (e : edge) : option edge :=
  old_edge ← get_child σ e i;
  let e := mk_edge (rt e) (rule_id e) (if i then child0 e else new_child)
             (if i then new_child else child1 e) (total e) (inside e) (spn e) (info e) in
  new_edge ← get_child σ e i;
  assert_true (equal_to old_edge new_edge) ;;
  let a := score_div (inside new_edge) (inside old_edge) in
  Some (mk_edge (rt e) (rule_id e) (child0 e) (child1 e) (score_mul (total e) a)
          (score_mul (inside e) a) (spn e) (info e)).

Definition set_lexical (t : indexed_token) (s : span_t) (scr : score) (n : info_type) : edge :=
  mk_edge t NULL_GRAMMAR_RULE_ID None None scr scr s n.

(** The constructor from two children, the second of which may be null. *)
Definition new_edge (σ : equiv_store) (rt : indexed_token) (id : Z) (info : info_type)
    (inside_score heuristic : score) (child0 child1 : equiv_p) : option edge :=
  c0 ← deref σ child0;
  match child1 with
  | None =>
      let ins := score_mul inside_score (inside (m_rep c0)) in
      Some (mk_edge rt id child0 child1 (score_mul heuristic ins) ins (spn (m_rep c0)) info)
  | Some _ =>
      c1 ← deref σ child1;
      let ins := score_mul (score_mul inside_score (inside (m_rep c0))) (inside (m_rep c1)) in
      Some (mk_edge rt id child0 child1 (score_mul heuristic ins) ins
              (combine (spn (m_rep c0)) (spn (m_rep c1))) info)
  end.
End edge.

Arguments edge : clear implicits.
Arguments alt_edge : clear implicits.
Arguments edge_equivalence_impl : clear implicits.
Abbreviation equiv_store score info_type := (gmap positive (edge_equivalence_impl score info_type)).

(** * Making edges *)

(** What [edge_factory] asks of the grammar and of the info factory: the right hand
    side, left hand side, number and scores of a rule, and the generator of
    infos with their inside and heuristic scores for a rule over some children,
    whose own children it may look up. *)
Class GrammarOps (R score E St G : Type) := {
  rule_rhs : R -> nat -> option indexed_token;
  rule_rhs_size : R -> Z;
  rule_lhs : R -> indexed_token;
  rule_number : R -> Z;
  rule_score : R -> score;
  rule_score_estimate : R -> score;
  create_info : St -> R -> span_t -> list E -> G
}.

Section factory.
Context {score info_type R G : Type} `{!ScoreOps score, !InfoOps info_type}.
Context `{!GrammarOps R score (edge score info_type) (equiv_store score info_type) G}.
Context `{!Generator G (info_type * score * score)}.
Abbreviation edge := (edge score info_type).
Abbreviation store := (equiv_store score info_type).
Implicit Types (σ : store) (r : R) (e : edge).

(** [edge_factory]: the seen cells with their outside scores and the weight
    [weight_cell_outside] as a power, the heuristic of unseen cells, and the
    number of edges made. *)
Record edge_factory := mk_factory {
  cells : option (span_t -> indexed_token -> option score);
  pow_weight : score -> score;
  h_unseen_cell : score;
  num_edges : Z
}.

Definition set_cells (c : span_t -> indexed_token -> option score) (pow_weight : score -> score)
    (unseen_cell_outside : score) (ef : edge_factory) : edge_factory :=
  mk_factory (Some c) pow_weight (pow_weight unseen_cell_outside) (num_edges ef).

Definition get_cell_heuristic (ef : edge_factory) (root : indexed_token) (span : span_t) : score :=
  match cells ef with
  | Some cs => match cs span root with Some h => pow_weight ef h | None => h_unseen_cell ef end
  | None => as_one
  end.

Definition log_create_edge (ef : edge_factory) : edge_factory :=
  mk_factory (cells ef) (pow_weight ef) (h_unseen_cell ef) (num_edges ef + 1).

(** [create_edge] of a word. *)
Definition create_word_edge (no_info : info_type) (word : indexed_token) (s : span_t) (scr : score)
    (ef : edge_factory) : edge * edge_factory :=
  let ef := log_create_edge ef in
  let ret := set_lexical word s scr no_info in
  (mk_edge (rt ret) (rule_id ret) (child0 ret) (child1 ret)
     (score_mul (total ret) (get_cell_heuristic ef (rt ret) (spn ret))) (inside ret) (spn ret)
     (info ret), ef).

Record edge_generator := mk_edge_generator {
  eg_generator : G;
  tm_inside : score;
  tm_heuristic : score;
  eg_rule_id : Z;
  eg_root : indexed_token;
  eg_e1 : equiv_p;
  eg_e2 : equiv_p
}.

Definition new_edge_generator (r : R) (generator : G) (cell_h : score) (e1 e2 : equiv_p)
  : edge_generator :=
  mk_edge_generator generator (rule_score r) (score_mul (rule_score_estimate r) cell_h)
    (rule_number r) (rule_lhs r) e1 e2.

Definition edge_generator_more (g : edge_generator) : bool := gmore (eg_generator g).

(** [edge_generator::operator()] *)
Definition edge_generator_call σ (g : edge_generator) (ef : edge_factory)
  : option (edge * edge_generator * edge_factory) :=
  c ← gcall (eg_generator g);
  let '((info, inside, heuristic), generator) := c in
  let inside := score_mul inside (tm_inside g) in
  let heuristic := score_mul heuristic (tm_heuristic g) in
  e ← new_edge σ (eg_root g) (eg_rule_id g) info inside heuristic (eg_e1 g) (eg_e2 g);
  Some (e, mk_edge_generator generator (tm_inside g) (tm_heuristic g) (eg_rule_id g) (eg_root g)
             (eg_e1 g) (eg_e2 g), log_create_edge ef).

(** [edge_equivalence::representative], with its assertion. *)
Definition representative σ (p : equiv_p) : option edge :=
  q ← deref σ p; assert_true (negb (equiv_empty q)) ;; Some (m_rep q).

Definition assert_rhs (r : R) (i : nat) (e : edge) : option unit :=
  t ← rule_rhs r i; assert_true (indexed_equal t (rt e)).

(** [create_edge] by a binary and by a unary rule. *)
Definition create_binary_edge (ef : edge_factory) σ (r : R) (e1 e2 : equiv_p) : option edge_generator :=
  r1 ← representative σ e1;
  assert_rhs r 0 r1 ;;
  r2 ← representative σ e2;
  assert_rhs r 1 r2 ;;
  assert_true (rule_rhs_size r =? 2) ;;
  let cell_h := get_cell_heuristic ef (rule_lhs r) (combine (spn r1) (spn r2)) in
  Some (new_edge_generator r (create_info σ r (combine (spn r1) (spn r2)) [r1; r2]) cell_h e1 e2).

Definition create_unary_edge (ef : edge_factory) σ (r : R) (e : equiv_p) : option edge_generator :=
  r1 ← representative σ e;
  assert_rhs r 0 r1 ;;
  assert_true (rule_rhs_size r =? 1) ;;
  let cell_h := get_cell_heuristic ef (rule_lhs r) (spn r1) in
  Some (new_edge_generator r (create_info σ r (spn r1) [r1]) cell_h e None).

(** Calling a generator of edges while it is true. *)
Fixpoint edge_generator_run (n : nat) σ (g : edge_generator) (ef : edge_factory)
  : option (list edge * edge_factory) :=
  if edge_generator_more g then
    match n with
    | O => None
    | S n => c ← edge_generator_call σ g ef;
             let '(e, g, ef) := c in
             d ← edge_generator_run n σ g ef; Some (e :: d.1, d.2)
    end
  else Some ([], ef).

(** The edge an info makes of a rule and the edges of its children. *)
Definition edge_of_info (ef : edge_factory) (r : R) (e1 e2 : equiv_p) (s : span_t)
    (child_inside : score -> score) (v : info_type * score * score) : edge :=
  let ins := child_inside (score_mul v.1.2 (rule_score r)) in
  let h := score_mul v.2 (score_mul (rule_score_estimate r) (get_cell_heuristic ef (rule_lhs r) s)) in
  mk_edge (rule_lhs r) (rule_number r) e1 e2 (score_mul h ins) ins s v.1.1.

Definition count_edges (n : nat) (ef : edge_factory) : edge_factory :=
  mk_factory (cells ef) (pow_weight ef) (h_unseen_cell ef) (num_edges ef + Z.of_nat n).

Lemma edge_generator_run_yields σ g ef (f : info_type * score * score -> edge) infos :
  yields (eg_generator g) infos ->
  (forall v, new_edge σ (eg_root g) (eg_rule_id g) v.1.1 (score_mul v.1.2 (tm_inside g))
     (score_mul v.2 (tm_heuristic g)) (eg_e1 g) (eg_e2 g) = Some (f v)) ->
  edge_generator_run (length infos) σ g ef = Some (f <$> infos, count_edges (length infos) ef).
Proof.
  intros Hy Hf. revert g ef Hy Hf. induction infos as [|v infos IH]; intros g ef Hy Hf.
  - cbn. unfold edge_generator_more. rewrite (yields_more _ _ Hy). cbn. f_equal. f_equal.
    destruct ef. unfold count_edges. cbn. f_equal. lia.
  - apply yields_cons_inv in Hy as (Hm&Hp&gen'&Hpop&Hy). cbn [edge_generator_run length].
    unfold edge_generator_more. rewrite Hm. unfold edge_generator_call, gcall.
    rewrite Hp; cbn [mbind option_bind]. rewrite Hpop; cbn [mbind option_bind].
    destruct v as [[i ins] h]. pose proof (Hf (i, ins, h)) as Hv. cbn in Hv. rewrite Hv.
    cbn [mbind option_bind].
    rewrite (IH (mk_edge_generator gen' (tm_inside g) (tm_heuristic g) (eg_rule_id g) (eg_root g)
      (eg_e1 g) (eg_e2 g)) (log_create_edge ef) Hy); [|exact Hf].
    cbn. f_equal. f_equal. unfold count_edges, log_create_edge. cbn. f_equal. lia.
Qed.

(** A rule applied where its assertions hold. *)
Lemma create_binary_edge_ok ef σ r l1 l2 i1 i2 :
  σ !! l1 = Some i1 -> σ !! l2 = Some i2 -> equiv_empty i1 = false -> equiv_empty i2 = false ->
  rule_rhs r 0 = Some (rt (m_rep i1)) -> rule_rhs r 1 = Some (rt (m_rep i2)) -> rule_rhs_size r = 2 ->
  let s := combine (spn (m_rep i1)) (spn (m_rep i2)) in
  create_binary_edge ef σ r (Some l1) (Some l2) =
    Some (new_edge_generator r (create_info σ r s [m_rep i1; m_rep i2]) (get_cell_heuristic ef (rule_lhs r) s)
            (Some l1) (Some l2)).
Proof.
  intros H1 H2 He1 He2 Hr1 Hr2 Hs s. unfold create_binary_edge, representative, assert_rhs.
  cbn [deref]. rewrite H1; cbn [mbind option_bind]. rewrite He1, Hr1; cbn.
  unfold indexed_equal. rewrite Z.eqb_refl. cbn. rewrite H2; cbn. rewrite He2, Hr2; cbn.
  unfold indexed_equal. by rewrite Z.eqb_refl, Hs.
Qed.

(** A binary rule whose right hand side matches the representatives of two
    equivalences makes one edge for each info of the info factory, in its order:
    rooted at the left hand side, over the combined span, with the two
    equivalences as children, with the product of the inside scores of info, rule and
    children, and with this times the heuristics of info, rule and cell as
    its total; the factory counts the edges. *)
Theorem create_binary_edge_generates ef σ r l1 l2 i1 i2 infos :
  σ !! l1 = Some i1 -> σ !! l2 = Some i2 -> equiv_empty i1 = false -> equiv_empty i2 = false ->
  rule_rhs r 0 = Some (rt (m_rep i1)) -> rule_rhs r 1 = Some (rt (m_rep i2)) -> rule_rhs_size r = 2 ->
  let s := combine (spn (m_rep i1)) (spn (m_rep i2)) in
  yields (create_info σ r s [m_rep i1; m_rep i2]) infos ->
  exists g, create_binary_edge ef σ r (Some l1) (Some l2) = Some g /\
    edge_generator_run (length infos) σ g ef =
      Some (edge_of_info ef r (Some l1) (Some l2) s
              (fun x => score_mul (score_mul x (inside (m_rep i1))) (inside (m_rep i2))) <$> infos,
            count_edges (length infos) ef).
Proof.
  intros H1 H2 He1 He2 Hr1 Hr2 Hs s Hy. rewrite (create_binary_edge_ok ef σ r l1 l2 i1 i2) by done.
  eexists. split; [reflexivity|].
  apply edge_generator_run_yields; [exact Hy|]. intros v. cbn. by rewrite H1, H2.
Qed.

(** The same for a unary rule: the span and the child are those of the one
    equivalence. *)
Theorem create_unary_edge_generates ef σ r l i infos :
  σ !! l = Some i -> equiv_empty i = false ->
  rule_rhs r 0 = Some (rt (m_rep i)) -> rule_rhs_size r = 1 ->
  yields (create_info σ r (spn (m_rep i)) [m_rep i]) infos ->
  exists g, create_unary_edge ef σ r (Some l) = Some g /\
    edge_generator_run (length infos) σ g ef =
      Some (edge_of_info ef r (Some l) None (spn (m_rep i))
              (fun x => score_mul x (inside (m_rep i))) <$> infos,
            count_edges (length infos) ef).
Proof.
  intros H1 He1 Hr1 Hs Hy. unfold create_unary_edge, representative, assert_rhs.
  cbn [deref]. rewrite H1; cbn [mbind option_bind]. rewrite He1, Hr1; cbn.
  unfold indexed_equal. rewrite Z.eqb_refl, Hs. cbn. eexists. split; [reflexivity|].
  apply edge_generator_run_yields; [exact Hy|]. intros v. cbn. by rewrite H1.
Qed.
End factory.

Arguments edge_factory : clear implicits.
Arguments edge_generator : clear implicits.

(** * Samples: scores as integral logarithms, infos as numbers *)

#[export] Instance log_score : ScoreOps Z := {|
  score_lt := Z.ltb; score_mul := Z.add; score_div := Z.sub; as_one := 0 |}.

#[export] Instance number_info : InfoOps Z := {|
  edge_info_equal := Z.eqb; edge_info_hash := id |}.

#[export] Instance number_info_laws : InfoLaws Z.
Proof. split; cbn; intros; lia. Qed.

Definition sample_tag (n : Z) : indexed_token := mk_indexed (2 * type_stride + n).

(** One rule: tag 3 -> tag 1, tag 2. *)
#[local] Instance sample_grammar :
  GrammarOps unit Z (edge Z Z) (equiv_store Z Z) (list (Z * Z * Z)) := {|
  rule_rhs _ i := [sample_tag 1; sample_tag 2] !! i;
  rule_rhs_size _ := 2;
  rule_lhs _ := sample_tag 3;
  rule_number _ := 77;
  rule_score _ := -2;
  rule_score_estimate _ := -1;
  create_info _ _ _ es := [(foldr (fun e s => info e + s) 0 es, -1, 0); (9, -4, 1)]
|}.

Definition sample_edge (t id inside total l r : Z) : edge Z Z :=
  mk_edge (sample_tag t) id None None total inside (mk_span l r) 5.

Definition sample_store : equiv_store Z Z :=
  <[1%positive := mk_equiv [] (sample_edge 1 10 (-3) (-3) 0 2)]>
  {[2%positive := mk_equiv [] (sample_edge 2 11 (-4) (-5) 2 3)]}.

Lemma create_binary_edge_generates_witness :
  exists g, create_binary_edge (mk_factory None id 0 0) sample_store tt (Some 1%positive) (Some 2%positive)
            = Some g /\
    edge_generator_run 2 sample_store g (mk_factory None id 0 0) =
      Some ([mk_edge (sample_tag 3) 77 (Some 1%positive) (Some 2%positive) (-11) (-10) (mk_span 0 3) 10;
             mk_edge (sample_tag 3) 77 (Some 1%positive) (Some 2%positive) (-13) (-13) (mk_span 0 3) 9],
            mk_factory None id 0 2).
Proof.
  exact (create_binary_edge_generates (mk_factory None id 0 0) sample_store tt 1%positive 2%positive
    (mk_equiv [] (sample_edge 1 10 (-3) (-3) 0 2)) (mk_equiv [] (sample_edge 2 11 (-4) (-5) 2 3))
    [(10, -1, 0); (9, -4, 1)] eq_refl eq_refl eq_refl eq_refl eq_refl eq_refl eq_refl
    (yields_range [(10, -1, 0); (9, -4, 1)])).
Defined.
