(* ===== verification/EdgeEquivalence.v ===== *)
(** The bounded collection of equivalent edges: [edge_equivalence_impl],
    [edge_equivalence] and [edge_equivalence_pool]
    (src/sbmt_decoder/include/sbmt/edge/edge_equivalence.hpp and
    impl/edge_equivalence.ipp, with EDGE_EQUIV_REVERSE_SORT not defined).

    The best edge is the representative; of the others only what differs is kept,
    in a vector that [std::push_heap] and [std::pop_heap] arrange.  These and
    [std::sort] are the class [StdAlgorithms]. *)
From S2P Require Import Prelude Span TokenStorage Token Generator Edge.
Open Scope Z_scope.

(** * The algorithms of the standard library *)

(** [std::push_heap], [std::pop_heap] and [std::sort] on a whole vector. *)
Class StdAlgorithms (A : Type) := {
  push_heap : (A -> A -> bool) -> list A -> list A;
  pop_heap : (A -> A -> bool) -> list A -> list A;
  std_sort : (A -> A -> bool) -> list A -> list A
}.

(** A heap of the standard library: no element is better than the one at half its
    position. *)
Definition is_heap {A} (comp : A -> A -> bool) (l : list A) : Prop :=
  forall i a p, (0 < i)%nat -> l !! i = Some a -> l !! ((i - 1) / 2)%nat = Some p -> comp p a = false.

(** The laws of the standard, and more: [push_heap_perm] and [pop_heap_swap] are stated for
    any vector.  The standard requires a heap of the one before the last element, or of the
    whole, and [insert_edge] does not always give one ([insert_better_breaks_heap]); what
    is supposed of the algorithms then is that they move the elements and, as
    [std::pop_heap] is described, that the first one goes to the end. *)
Class StdAlgorithmLaws (A : Type) `{!StdAlgorithms A} : Prop := {
  push_heap_perm comp l : push_heap comp l ≡ₚ l;
  push_heap_heap comp `{!StrictWeak comp} l a :
    is_heap comp l -> is_heap comp (push_heap comp (l ++ [a]));
  pop_heap_swap comp a l : exists l', pop_heap comp (a :: l) = l' ++ [a] /\ l' ≡ₚ l;
  pop_heap_heap comp `{!StrictWeak comp} a l l' :
    is_heap comp (a :: l) -> pop_heap comp (a :: l) = l' ++ [a] -> is_heap comp l';
  std_sort_perm comp l : std_sort comp l ≡ₚ l;
  std_sort_sorted comp `{!StrictWeak comp} l :
    StronglySorted (fun a b => comp b a = false) (std_sort comp l)
}.

(** [std::numeric_limits<unsigned>::max()] *)
Definition UINT_MAX : Z := 4294967295.

(** [max_edges_per_equivalence(x)] *)
Definition set_max_equivalents (x : Z) : Z := if x =? 0 then UINT_MAX else x.
Definition DEFAULT_MAX_EQUIVALENTS : Z := 4.

Section equivalence.
Context {score info_type : Type} `{!ScoreOps score, !InfoOps info_type}.
Abbreviation edge := (edge score info_type).
Abbreviation alt_edge := (alt_edge score).
Abbreviation impl := (edge_equivalence_impl score info_type).
Abbreviation store := (equiv_store score info_type).
Context `{!StdAlgorithms alt_edge, !HashCombine}.
Context (hash_token : indexed_token -> Z) (hash_span : span_t -> Z) (max_equivalents : Z).
Implicit Types (σ : store) (e : edge) (i : impl) (a : alt_edge).

Definition better_score (e1 e2 : alt_edge) : bool := score_lt (alt_inside e2) (alt_inside e1).
Definition worse_score (e1 e2 : alt_edge) : bool := score_lt (alt_inside e1) (alt_inside e2).

(** [alt_edge(e)]: a first child that is empty becomes null. *)
Definition new_alt σ e : option alt_edge :=
  b ← has_first_child σ e;
  c0 ← (if (b : bool) then first_children σ e else Some None);
  c1 ← (if has_second_child e then second_children σ e else Some None);
  Some (mk_alt c0 c1 (inside e) (rule_id e)).

(** The limit is a [size_t] that is returned as an [unsigned]; top edges have none. *)
Definition edge_equiv_max i : Z :=
  if bool_decide (indexed_type (rt (m_rep i)) = top_token) then UINT_MAX else u32 max_equivalents.

Definition alts_full i : bool := u32 (edge_equiv_max i - 1) <=? Z.of_nat (length (m_alts i)).

Definition equiv_size i : Z := if equiv_empty i then 0 else Z.of_nat (length (m_alts i)) + 1.

(** [v.back() = a] *)
Definition assign_back (l : list alt_edge) (a : alt_edge) : option (list alt_edge) :=
  match l with [] => None | _ => Some (take (length l - 1) l ++ [a]) end.

Definition pop_worst i : option impl :=
  match m_alts i with
  | [] => None
  | _ => let alts := pop_heap worse_score (m_alts i) in
         Some (mk_equiv (take (length alts - 1) alts) (m_rep i))
  end.

Definition edge_hash e : Z := edge_hash_value hash_token hash_span e.

Definition insert_edge σ e i : option impl :=
  assert_true (equiv_empty i || equal_to (m_rep i) e) ;;
  assert_true (equiv_empty i || (edge_hash (m_rep i) =? edge_hash e)) ;;
  if equiv_empty i then Some (mk_equiv (m_alts i) e)
  else if score_lt (inside (m_rep i)) (inside e) then
    alts ← (if 1 <? edge_equiv_max i then
              if alts_full i then
                let alts := pop_heap worse_score (m_alts i) in
                a ← new_alt σ (m_rep i); assign_back alts a
              else a ← new_alt σ (m_rep i); Some (m_alts i ++ [a])
            else Some (m_alts i));
    Some (mk_equiv alts e)
  else if edge_equiv_max i =? 1 then Some i
  else if alts_full i then
    front ← head (m_alts i);
    if score_lt (alt_inside front) (inside e) then
      let alts := pop_heap worse_score (m_alts i) in
      a ← new_alt σ e;
      alts ← assign_back alts a;
      Some (mk_equiv (push_heap worse_score alts) (m_rep i))
    else Some i
  else
    a ← new_alt σ e;
    Some (mk_equiv (push_heap worse_score (m_alts i ++ [a])) (m_rep i)).

(** [sort_alts] and [prune_inside]: the loop finds the first alternative that is too
    bad; the vector is cut there. *)
Definition sort_alts i : impl := mk_equiv (std_sort better_score (m_alts i)) (m_rep i).

Fixpoint first_worse (worse_than : score) (alts : list alt_edge) : nat :=
  match alts with
  | [] => O
  | a :: alts => if score_lt (alt_inside a) worse_than then O else S (first_worse worse_than alts)
  end.

Definition prune_inside (worse_than : score) i : impl :=
  let i := sort_alts i in
  mk_equiv (take (first_worse worse_than (m_alts i)) (m_alts i)) (m_rep i).

(** [current] adjusted to the alternative at [next]. *)
Definition adjust_alt a e : edge :=
  adjust (alt_child0 a) (alt_child1 a) (alt_inside a) (alt_rule_id a) e.

(** [operator[]] *)
Definition equiv_at i (n : nat) : option edge :=
  match n with
  | O => Some (m_rep i)
  | S n => a ← m_alts i !! n; Some (adjust_alt a (m_rep i))
  end.

(** The iterator: the current edge, which an end iterator has none of; the
    alternatives from [next] on; [at_end]. *)
Record equiv_iterator := mk_iterator {
  it_current : option edge;
  it_next : list alt_edge;
  it_at_end : bool
}.

Definition equiv_end : equiv_iterator := mk_iterator None [] true.
Definition equiv_begin i : equiv_iterator :=
  if equiv_empty i then equiv_end else mk_iterator (Some (m_rep i)) (m_alts i) false.
Definition it_equal (x y : equiv_iterator) : bool :=
  if negb (it_at_end x) && negb (it_at_end y)
  then bool_decide (length (it_next x) = length (it_next y))
  else it_at_end x && it_at_end y.
Definition it_dereference (x : equiv_iterator) : option edge :=
  if it_at_end x then None else it_current x.
Definition it_increment (x : equiv_iterator) : equiv_iterator :=
  match it_next x with
  | a :: next => mk_iterator (adjust_alt a <$> it_current x) next (it_at_end x)
  | [] => mk_iterator (it_current x) [] true
  end.

(** [merge] with an equivalence that is another object. *)
Fixpoint merge_loop (fuel : nat) σ (itr : equiv_iterator) i : option impl :=
  if it_equal itr equiv_end then Some i
  else match fuel with
       | O => None
       | S fuel =>
           e ← it_dereference itr;
           i ← insert_edge σ e i;
           merge_loop fuel σ (it_increment itr) i
       end.

Definition merge σ (other : impl) i : option impl :=
  if negb (equiv_empty other)
  then merge_loop (S (length (m_alts other))) σ (equiv_begin other) i
  else Some i.

(** [edge_equivalence_pool::create] *)
Definition pool_create e : impl := mk_equiv [] e.

(** A new object in the store. *)
Definition allocate σ i : positive * store := let l := fresh (dom σ) in (l, <[l := i]> σ).

(** The edges in the order of the iterator. *)
Fixpoint edges_from e (alts : list alt_edge) : list edge :=
  e :: match alts with [] => [] | a :: alts => edges_from (adjust_alt a e) alts end.
Definition edges_of i : list edge :=
  if equiv_empty i then [] else edges_from (m_rep i) (m_alts i).

(** * The specification *)

(** What an equivalence keeps of an edge, and what it keeps in all. *)
Definition alt_of e : alt_edge := mk_alt (child0 e) (child1 e) (inside e) (rule_id e).
Definition contents i : list alt_edge := if equiv_empty i then [] else alt_of (m_rep i) :: m_alts i.

(** Children are equivalences that are not empty. *)
Definition child_ok σ (p : equiv_p) : Prop :=
  match p with None => True | Some l => exists q, σ !! l = Some q /\ equiv_empty q = false end.
Definition alt_ok σ a : Prop := child_ok σ (alt_child0 a) /\ child_ok σ (alt_child1 a).
Definition edge_ok σ e : Prop := edge_is_null e = false /\ alt_ok σ (alt_of e).
Definition equiv_ok σ i : Prop :=
  edge_ok σ (m_rep i) /\ Forall (alt_ok σ) (m_alts i) /\
  1 <= edge_equiv_max i /\ Z.of_nat (length (m_alts i)) <= edge_equiv_max i - 1.

(** The first of the best edges. *)
Definition best_edge (e0 : edge) (es : list edge) : edge :=
  foldl (fun b e => if score_lt (inside b) (inside e) then e else b) e0 es.

(** The edges of [es] that are equivalent to [e]. *)
Definition class_of e (es : list edge) : list edge := filter (fun e' => equal_to e e' = true) es.

Definition insert_edges σ (es : list edge) i : option impl :=
  foldl (fun o e => i ← o; insert_edge σ e i) (Some i) es.

(** * Lemmas *)

Section inserting.
Context `{!StdAlgorithmLaws alt_edge, !InfoLaws info_type, !StrictWeak (score_lt (S := score))}.

#[local] Instance worse_score_sw : StrictWeak worse_score.
Proof. apply (sw_pullback score_lt alt_inside). Qed.

#[local] Instance better_score_sw : StrictWeak better_score.
Proof.
  split; unfold better_score; intros *; [apply sw_irrefl| |].
  - intros H1 H2. exact (sw_trans _ _ _ H2 H1).
  - intros H1 H2. exact (sw_negtrans _ _ _ H2 H1).
Qed.

Lemma equal_to_refl e : equal_to e e = true.
Proof.
  unfold equal_to, indexed_equal, span_eqb. rewrite !Z.eqb_refl, info_equal_refl. cbn. by rewrite orb_true_r.
Qed.

Lemma equal_to_spec e e' : equal_to e e' = true <->
  rt e = rt e' /\ spn e = spn e' /\
  (indexed_type (rt e) = top_token \/ edge_info_equal (info e) (info e') = true).
Proof.
  unfold equal_to, indexed_equal, span_eqb. destruct (rt e) as [x], (rt e') as [y], (spn e) as [l r], (spn e') as [l' r']; cbn.
  rewrite !andb_true_iff, orb_true_iff, bool_decide_eq_true, !Z.eqb_eq. split.
  - intros [[-> [-> ->]] Hc]. done.
  - intros ([= ->]&[= -> ->]&Hc). done.
Qed.

Lemma equal_to_sym e e' : equal_to e e' = true -> equal_to e' e = true.
Proof.
  rewrite !equal_to_spec. intros (H1&H2&[H3|H3]); rewrite <- H1, <- H2; eauto using info_equal_sym.
Qed.

Lemma equal_to_trans e e' e'' :
  equal_to e e' = true -> equal_to e' e'' = true -> equal_to e e'' = true.
Proof.
  rewrite !equal_to_spec. intros (H1&H2&H3) (G1&G2&G3). rewrite <- H1 in G3.
  split; [congruence|]. split; [congruence|]. destruct H3, G3; eauto using info_equal_trans.
Qed.

Lemma class_of_equal e e' es : equal_to e e' = true -> class_of e es = class_of e' es.
Proof.
  intros He. apply list_filter_ext. intros x _. split; eauto using equal_to_trans, equal_to_sym.
Qed.

Lemma class_of_snoc e' es e :
  class_of e' (es ++ [e]) = class_of e' es ++ (if equal_to e' e then [e] else []).
Proof.
  unfold class_of. rewrite filter_app. f_equal. rewrite filter_cons, filter_nil.
  destruct (equal_to e' e); [by rewrite decide_True|by rewrite decide_False].
Qed.

Lemma equal_to_hash e e' : equal_to e e' = true -> edge_hash e = edge_hash e'.
Proof.
  rewrite equal_to_spec. intros (H1&H2&H3). unfold edge_hash, edge_hash_value. rewrite <- H1, <- H2.
  destruct (bool_decide_reflect (indexed_type (rt e) = top_token)); [done|].
  destruct H3 as [H3|H3]; [done|]. by rewrite (info_equal_hash _ _ H3).
Qed.

Lemma equal_to_null e e' : equal_to e e' = true -> edge_is_null e' = edge_is_null e.
Proof. rewrite equal_to_spec. intros (H1&_&_). unfold edge_is_null. by rewrite H1. Qed.

Lemma edge_equiv_max_rt i i' : rt (m_rep i) = rt (m_rep i') -> edge_equiv_max i = edge_equiv_max i'.
Proof. unfold edge_equiv_max. by intros ->. Qed.

Lemma edge_equiv_max_range i : 0 <= edge_equiv_max i <= UINT_MAX.
Proof.
  unfold edge_equiv_max, UINT_MAX, u32, wrap. case_bool_decide; [lia|].
  pose proof (Z.mod_pos_bound max_equivalents (2 ^ 32) ltac:(lia)). lia.
Qed.

Lemma get_children_ok σ e j l q :
  child_at e j = Some l -> σ !! l = Some q -> equiv_empty q = false ->
  get_children σ e j = Some (Some l).
Proof. intros Hc Hl Hq. unfold get_children. rewrite Hc. cbn [deref]. rewrite Hl. cbn. by rewrite Hq. Qed.

Lemma new_alt_ok σ e : alt_ok σ (alt_of e) -> new_alt σ e = Some (alt_of e).
Proof.
  intros [H0 H1]. cbn in H0, H1. unfold new_alt, has_first_child, has_second_child, first_children,
    second_children, alt_of.
  destruct (child0 e) as [l0|] eqn:E0; [destruct H0 as (q0&Hq0&He0); cbn [deref]; rewrite Hq0;
    cbn [mbind option_bind]; rewrite He0; cbn [negb]; rewrite (get_children_ok σ e false l0 q0 E0 Hq0 He0)|];
  cbn [mbind option_bind];
  (destruct (child1 e) as [l1|] eqn:E1; [destruct H1 as (q1&Hq1&He1); rewrite bool_decide_true by done;
     by rewrite (get_children_ok σ e true l1 q1 E1 Hq1 He1)|by rewrite bool_decide_false by auto]).
Qed.

Lemma alts_full_spec i : 1 <= edge_equiv_max i ->
  Z.of_nat (length (m_alts i)) <= edge_equiv_max i - 1 ->
  alts_full i = (edge_equiv_max i - 1 =? Z.of_nat (length (m_alts i))).
Proof.
  intros H1 H2. pose proof (edge_equiv_max_range i) as Hr. unfold UINT_MAX in Hr. unfold alts_full.
  assert (u32 (edge_equiv_max i - 1) = edge_equiv_max i - 1) as ->
    by (unfold u32, wrap; rewrite Z.mod_small; lia). lia.
Qed.

(** When the vector is full its first element makes place for the new one. *)
Lemma assign_back_pop a l b :
  exists l', assign_back (pop_heap worse_score (a :: l)) b = Some (l' ++ [b]) /\ l' ≡ₚ l /\
    (is_heap worse_score (a :: l) -> is_heap worse_score l').
Proof.
  destruct (pop_heap_swap worse_score a l) as (l'&Hl&Hp). exists l'. split; [|split; [done|]].
  - rewrite Hl. unfold assign_back. destruct (l' ++ [a]) eqn:E; [by destruct l'|]. rewrite <- E.
    rewrite length_app, Nat.add_sub. by rewrite take_app_length.
  - intros Hh. by apply (pop_heap_heap worse_score a l l').
Qed.

(** What [insert_edge] keeps when [e] becomes the representative. *)
Definition step_ok σ e i (rep : edge) (i' : impl) : Prop :=
  equiv_ok σ i' /\ m_rep i' = rep /\ contents i' ⊆+ alt_of e :: contents i /\
  Z.of_nat (length (contents i')) = Z.min (Z.of_nat (S (length (contents i)))) (edge_equiv_max i).

Lemma step_ok_intro σ e i rep alts :
  equiv_ok σ i -> edge_ok σ rep -> rt rep = rt (m_rep i) -> Forall (alt_ok σ) alts ->
  alt_of rep :: alts ⊆+ alt_of e :: contents i ->
  Z.of_nat (S (length alts)) = Z.min (Z.of_nat (S (length (contents i)))) (edge_equiv_max i) ->
  step_ok σ e i rep (mk_equiv alts rep).
Proof.
  intros (_&_&Hm&_) Hrep Hrt Halts Hsub Hlen.
  assert (edge_equiv_max (mk_equiv alts rep) = edge_equiv_max i) as Hmax by (by apply edge_equiv_max_rt).
  assert (contents (mk_equiv alts rep) = alt_of rep :: alts) as Hc
    by (unfold contents, equiv_empty; cbn [m_rep m_alts]; by rewrite (proj1 Hrep)).
  unfold step_ok, equiv_ok. rewrite Hmax, Hc. cbn [m_rep m_alts length].
  repeat split; try done; lia || apply Hrep.
Qed.

Lemma insert_better σ e i :
  equiv_ok σ i -> edge_ok σ e -> equal_to (m_rep i) e = true ->
  score_lt (inside (m_rep i)) (inside e) = true ->
  exists i', insert_edge σ e i = Some i' /\ step_ok σ e i e i'.
Proof.
  intros Hi He Heq Hlt. pose proof Hi as ((Hn&Hrep)&Halts&Hm&Hlen).
  pose proof (proj1 (equal_to_spec _ _) Heq) as (Hrt&_).
  unfold insert_edge. rewrite Heq, (equal_to_hash _ _ Heq), Z.eqb_refl, !orb_true_r.
  unfold equiv_empty. rewrite Hn, Hlt. cbn [assert_true mbind option_bind].
  rewrite (alts_full_spec i Hm Hlen), (new_alt_ok σ _ Hrep). cbn [mbind option_bind].
  assert (contents i = alt_of (m_rep i) :: m_alts i) as Hc by (unfold contents, equiv_empty; by rewrite Hn).
  destruct (Z.ltb_spec 1 (edge_equiv_max i)) as [Hm1|Hm1];
    [destruct (Z.eqb_spec (edge_equiv_max i - 1) (Z.of_nat (length (m_alts i)))) as [Hf|Hf]|].
  - destruct (m_alts i) as [|a l] eqn:Ea; [cbn in Hf; lia|].
    destruct (assign_back_pop a l (alt_of (m_rep i))) as (l'&->&Hp&_). cbn [mbind option_bind].
    apply Forall_cons_1 in Halts as [Ha Hl]. pose proof (Permutation_length Hp) as Hpl.
    eexists. split; [reflexivity|]. cbn [length] in *. apply step_ok_intro; try done.
    + apply Forall_app; split; [by rewrite Hp|by constructor].
    + rewrite Hc. apply submseteq_skip. rewrite Hp, Permutation_app_comm. cbn.
      by apply submseteq_skip, submseteq_cons.
    + rewrite Hc, length_app. cbn [length]. lia.
  - eexists. split; [reflexivity|]. apply step_ok_intro; try done.
    + apply Forall_app; split; [done|by constructor].
    + rewrite Hc. by rewrite Permutation_app_comm.
    + rewrite Hc, length_app. cbn [length]. lia.
  - eexists. split; [reflexivity|]. apply step_ok_intro; try done; rewrite Hc.
    + by apply submseteq_skip, submseteq_cons.
    + cbn [length]. lia.
Qed.

Lemma insert_no_better σ e i :
  equiv_ok σ i -> edge_ok σ e -> equal_to (m_rep i) e = true ->
  score_lt (inside (m_rep i)) (inside e) = false ->
  exists i', insert_edge σ e i = Some i' /\ step_ok σ e i (m_rep i) i'.
Proof.
  intros Hi He Heq Hlt. pose proof Hi as (Hrep&Halts&Hm&Hlen). pose proof (proj1 Hrep) as Hn.
  unfold insert_edge. rewrite Heq, (equal_to_hash _ _ Heq), Z.eqb_refl, !orb_true_r.
  unfold equiv_empty. rewrite Hn, Hlt. cbn [assert_true mbind option_bind].
  rewrite (alts_full_spec i Hm Hlen), (new_alt_ok σ _ (proj2 He)). cbn [mbind option_bind].
  assert (contents i = alt_of (m_rep i) :: m_alts i) as Hc by (unfold contents, equiv_empty; by rewrite Hn).
  assert (forall alts, Forall (alt_ok σ) alts -> alts ⊆+ alt_of e :: m_alts i ->
    Z.of_nat (S (length alts)) = Z.min (Z.of_nat (2 + length (m_alts i))) (edge_equiv_max i) ->
    step_ok σ e i (m_rep i) (mk_equiv alts (m_rep i))) as Hok.
  { intros alts Ha Hs Hl. apply step_ok_intro; try done; rewrite Hc; [|done].
    rewrite Permutation_swap. by apply submseteq_skip. }
  assert (edge_equiv_max i - 1 = Z.of_nat (length (m_alts i)) -> step_ok σ e i (m_rep i) i) as Hsame.
  { intros Hf. specialize (Hok (m_alts i)). destruct i as [alts rep]. apply Hok; [done|by apply submseteq_cons|].
    cbn [m_alts] in *. lia. }
  destruct (Z.eqb_spec (edge_equiv_max i) 1) as [Hm1|Hm1]; [eexists; split; [done|apply Hsame; lia]|].
  destruct (Z.eqb_spec (edge_equiv_max i - 1) (Z.of_nat (length (m_alts i)))) as [Hf|Hf].
  - destruct (m_alts i) as [|a l] eqn:Ea; [cbn in Hf; lia|]. cbn [head mbind option_bind].
    destruct (score_lt (alt_inside a) (inside e)); [|eexists; split; [done|by apply Hsame]].
    destruct (assign_back_pop a l (alt_of e)) as (l'&->&Hp&_). cbn [mbind option_bind].
    assert (push_heap worse_score (l' ++ [alt_of e]) ≡ₚ alt_of e :: l) as Hpp
      by (rewrite push_heap_perm, Permutation_app_comm, Hp; done).
    pose proof (Permutation_length Hpp) as Hppl. apply Forall_cons_1 in Halts as [Ha Hl].
    eexists. split; [reflexivity|]. cbn [length] in *. apply Hok; [|by rewrite Hpp; apply submseteq_skip, submseteq_cons|lia].
    rewrite Hpp. constructor; [apply He|done].
  - assert (push_heap worse_score (m_alts i ++ [alt_of e]) ≡ₚ alt_of e :: m_alts i) as Hpp
      by (rewrite push_heap_perm, Permutation_app_comm; done).
    pose proof (Permutation_length Hpp) as Hppl. cbn [length] in *.
    eexists. split; [reflexivity|]. apply Hok; [rewrite Hpp; constructor; [apply He|done]|by rewrite Hpp|lia].
Qed.

(** A step of [insert_edge]. *)
Lemma insert_edge_step σ e i :
  equiv_ok σ i -> edge_ok σ e -> equal_to (m_rep i) e = true ->
  exists i', insert_edge σ e i = Some i' /\ step_ok σ e i (best_edge (m_rep i) [e]) i'.
Proof.
  intros Hi He Heq. unfold best_edge. cbn [foldl].
  destruct (score_lt (inside (m_rep i)) (inside e)) eqn:Hlt;
    [by apply insert_better|by apply insert_no_better].
Qed.

Lemma best_edge_equal es e0 : Forall (fun e => equal_to e0 e = true) es ->
  equal_to e0 (best_edge e0 es) = true.
Proof.
  intros Hes. enough (forall b, equal_to e0 b = true -> equal_to e0 (best_edge b es) = true) as Hgo
    by apply Hgo, equal_to_refl.
  unfold best_edge. induction es as [|e es IH]; intros b Hb; cbn [foldl]; [done|].
  apply Forall_cons_1 in Hes as [He Hes]. apply IH; [done|]. by case_match.
Qed.

Lemma insert_edges_spec σ es i :
  equiv_ok σ i -> Forall (edge_ok σ) es -> Forall (fun e => equal_to (m_rep i) e = true) es ->
  exists i', insert_edges σ es i = Some i' /\ equiv_ok σ i' /\ m_rep i' = best_edge (m_rep i) es /\
    contents i' ⊆+ (alt_of <$> es) ++ contents i /\
    Z.of_nat (length (contents i')) = Z.min (Z.of_nat (length es + length (contents i))) (edge_equiv_max i).
Proof.
  revert i. induction es as [|e es IH]; intros i Hi Hes Heq.
  - exists i. split; [done|]. split; [done|]. split; [done|]. split; [done|].
    destruct Hi as ((Hn&_)&_&_&Hl). unfold contents, equiv_empty. rewrite Hn. cbn [length]. lia.
  - apply Forall_cons_1 in Hes as [He Hes]. apply Forall_cons_1 in Heq as [Hee Heq].
    destruct (insert_edge_step σ e i Hi He Hee) as (i1&Hins&Hi1&Hrep1&Hc1&Hl1).
    assert (equal_to (m_rep i) (m_rep i1) = true) as Heq1.
    { rewrite Hrep1. apply best_edge_equal. by constructor. }
    assert (edge_equiv_max i1 = edge_equiv_max i) as Hmax.
    { apply edge_equiv_max_rt. by apply equal_to_spec in Heq1 as (->&_). }
    destruct (IH i1 Hi1 Hes) as (i2&Hins2&Hi2&Hrep2&Hc2&Hl2).
    { eapply Forall_impl; [exact Heq|]. intros x Hx. eauto using equal_to_trans, equal_to_sym. }
    exists i2. split; [unfold insert_edges; rewrite (foldl_some_cons (fun i e => insert_edge σ e i)), Hins; exact Hins2|].
    split; [done|]. split; [by rewrite Hrep2, Hrep1|]. split.
    + rewrite Hc2. cbn [fmap list_fmap app]. rewrite Permutation_middle. by apply submseteq_app.
    + rewrite Hl2, Hmax. cbn [length]. lia.
Qed.

Lemma best_edge_best e0 es :
  Forall (fun e => score_lt (inside (best_edge e0 es)) (inside e) = false) (e0 :: es).
Proof.
  unfold best_edge. revert e0. induction es as [|e es IH]; intros e0; cbn [foldl].
  - constructor; [apply sw_irrefl|constructor].
  - specialize (IH (if score_lt (inside e0) (inside e) then e else e0)).
    apply Forall_cons_1 in IH as [Hb Hes]. destruct (score_lt (inside e0) (inside e)) eqn:E.
    + constructor; [exact (sw_negtrans _ _ _ Hb (sw_asym _ _ _ E))|by constructor].
    + constructor; [done|]. constructor; [exact (sw_negtrans _ _ _ Hb E)|done].
Qed.

(** ** Heaps *)

Lemma heap_front {A} (comp : A -> A -> bool) `{!StrictWeak comp} (a : A) (l : list A) (b : A) :
  is_heap comp (a :: l) -> b ∈ a :: l -> comp a b = false.
Proof.
  intros Hh [j Hj]%list_elem_of_lookup. revert b Hj. induction (lt_wf j) as [j _ IH]. intros b Hj.
  destruct (decide (j = 0)%nat) as [->|Hj0]; [injection Hj as ->; apply sw_irrefl|].
  pose proof (Nat.Div0.div_lt_upper_bound (j - 1) 2 j ltac:(lia)) as Hlt.
  pose proof (lookup_lt_Some _ _ _ Hj) as Hlen.
  destruct ((a :: l) !! ((j - 1) / 2)%nat) as [p|] eqn:Hp.
  - eapply sw_negtrans; [exact (IH _ Hlt p Hp)|]. by apply (Hh j b p); [lia|..].
  - apply lookup_ge_None in Hp. lia.
Qed.

(** ** Iteration *)

Lemma edges_from_alts e alts : alt_of <$> edges_from e alts = alt_of e :: alts.
Proof.
  revert e. induction alts as [|a alts IH]; intros e; [done|].
  cbn [edges_from fmap list_fmap]. f_equal. specialize (IH (adjust_alt a e)).
  change (alt_of <$> edges_from (adjust_alt a e) alts = a :: alts). rewrite IH. by destruct a.
Qed.

Lemma edges_from_equal e alts : Forall (fun e' => equal_to e e' = true) (edges_from e alts).
Proof.
  enough (forall e', equal_to e e' = true -> Forall (fun e'' => equal_to e e'' = true) (edges_from e' alts)) as Hgo
    by apply Hgo, equal_to_refl.
  induction alts as [|a alts IH]; intros e' He; cbn [edges_from]; constructor; auto.
Qed.

Lemma edges_from_ok σ e alts : edge_ok σ e -> Forall (alt_ok σ) alts ->
  Forall (edge_ok σ) (edges_from e alts).
Proof.
  revert e. induction alts as [|a alts IH]; intros e He Ha; cbn [edges_from]; constructor; auto.
  apply Forall_cons_1 in Ha as [Ha Hl]. apply IH; [|done]. split; [apply He|]. by destruct a.
Qed.

Lemma merge_loop_edges fuel σ e next i : (length next < fuel)%nat ->
  merge_loop fuel σ (mk_iterator (Some e) next false) i = insert_edges σ (edges_from e next) i.
Proof.
  revert e next i. induction fuel as [|fuel IH]; intros e next i Hf; [lia|].
  cbn [merge_loop it_equal equiv_end it_at_end negb andb it_dereference it_current mbind option_bind].
  destruct next as [|a next]; cbn [edges_from length] in *; unfold insert_edges;
    rewrite (foldl_some_cons (fun i e => insert_edge σ e i)); destruct (insert_edge σ e i) as [i'|]; cbn [mbind option_bind it_increment it_next].
  - by destruct fuel.
  - done.
  - apply IH. lia.
  - symmetry. apply (foldl_none (fun i e => insert_edge σ e i)).
Qed.

Lemma merge_edges σ other i : merge σ other i = insert_edges σ (edges_of other) i.
Proof.
  unfold merge, edges_of, equiv_begin. destruct (equiv_empty other); [done|]. cbn [negb].
  apply merge_loop_edges. lia.
Qed.

Lemma best_edge_in e0 es : best_edge e0 es = e0 \/ best_edge e0 es ∈ es.
Proof.
  unfold best_edge. revert e0. induction es as [|e es IH]; intros e0; cbn [foldl]; [by left|].
  destruct (IH (if score_lt (inside e0) (inside e) then e else e0)) as [->|Hin]; [|right; by right].
  case_match; [right; left|by left].
Qed.

(** What [merge] does to a non-empty equivalence. *)
Lemma merge_step σ other i : equiv_ok σ other -> equiv_ok σ i -> equal_to (m_rep i) (m_rep other) = true ->
  exists i', merge σ other i = Some i' /\ equiv_ok σ i' /\ m_rep i' = best_edge (m_rep i) (edges_of other) /\
    equal_to (m_rep i) (m_rep i') = true.
Proof.
  intros Ho Hi Heq. rewrite merge_edges. assert (equiv_empty other = false) as Hne by apply Ho.
  assert (Forall (fun e => equal_to (m_rep i) e = true) (edges_of other)) as Hall.
  { unfold edges_of. rewrite Hne. eapply Forall_impl; [apply edges_from_equal|]. eauto using equal_to_trans. }
  destruct (insert_edges_spec σ (edges_of other) i Hi) as (i'&Hins&Hi'&Hr&_); [|done|].
  { unfold edges_of. rewrite Hne. apply edges_from_ok; apply Ho. }
  exists i'. split; [done|]. split; [done|]. split; [done|]. rewrite Hr. by apply best_edge_equal.
Qed.

(** ** Pruning *)

Lemma first_worse_filter w alts :
  StronglySorted (fun a b => better_score b a = false) alts ->
  take (first_worse w alts) alts = filter (fun a => score_lt (alt_inside a) w = false) alts.
Proof.
  induction 1 as [|a alts Hs IH Hall]; [done|]. cbn [first_worse]. rewrite filter_cons.
  destruct (score_lt (alt_inside a) w) eqn:E.
  - rewrite decide_False by done. cbn [take]. symmetry. clear IH. induction Hall as [|b l Hb Hall IHall]; [done|].
    rewrite filter_cons, decide_False; [apply IHall; by inversion Hs|].
    unfold better_score in Hb. intros F. pose proof (sw_negtrans _ _ _ Hb F) as F'. congruence.
  - cbn [take]. rewrite decide_True by done. by f_equal.
Qed.

(** ** The store *)

(** Writing an equivalence: a new one, or in the place of an equivalent one. *)
Definition writes σ (l : positive) i' : Prop :=
  equiv_ok σ i' /\ forall i, σ !! l = Some i -> equal_to (m_rep i) (m_rep i') = true.

Lemma child_ok_write σ l i' p : writes σ l i' -> child_ok σ p -> child_ok (<[l := i']> σ) p.
Proof.
  intros [Hi' Hw]. destruct p as [x|]; [|done]. intros (q&Hq&Hne). destruct (decide (x = l)) as [->|Hx].
  - exists i'. rewrite lookup_insert_eq. split; [done|]. apply Hi'.
  - exists q. by rewrite lookup_insert_ne.
Qed.

Lemma alt_ok_write σ l i' a : writes σ l i' -> alt_ok σ a -> alt_ok (<[l := i']> σ) a.
Proof. intros Hw [H1 H2]. split; by apply child_ok_write. Qed.

Lemma edge_ok_write σ l i' e : writes σ l i' -> edge_ok σ e -> edge_ok (<[l := i']> σ) e.
Proof. intros Hw [H1 H2]. split; [done|]. by apply alt_ok_write. Qed.

Lemma equiv_ok_write σ l i' i : writes σ l i' -> equiv_ok σ i -> equiv_ok (<[l := i']> σ) i.
Proof.
  intros Hw (H1&H2&H3). split; [by apply edge_ok_write|]. split; [|done].
  eapply Forall_impl; [exact H2|]. intros. by apply alt_ok_write.
Qed.

Lemma writes_lookup σ l i' x j : writes σ l i' -> σ !! x = Some j -> equiv_ok σ j ->
  exists j', <[l := i']> σ !! x = Some j' /\ equiv_ok (<[l := i']> σ) j' /\
    equal_to (m_rep j) (m_rep j') = true.
Proof.
  intros Hw Hj Hok. destruct (decide (x = l)) as [->|Hx].
  - exists i'. rewrite lookup_insert_eq. split; [done|]. split; [|by apply Hw].
    apply equiv_ok_write; [done|apply Hw].
  - exists j. rewrite lookup_insert_ne by done. split; [done|].
    split; [by apply equiv_ok_write|apply equal_to_refl].
Qed.

Lemma representative_ok σ l i : σ !! l = Some i -> equiv_ok σ i -> representative σ (Some l) = Some (m_rep i).
Proof.
  intros Hl (Hok&_). unfold representative. cbn [deref]. rewrite Hl. cbn [mbind option_bind].
  unfold equiv_empty. by rewrite (proj1 Hok).
Qed.

Lemma new_equiv_ok σ e : edge_ok σ e -> 1 <= edge_equiv_max (pool_create e) -> equiv_ok σ (pool_create e).
Proof. intros He Hm. split; [done|]. split; [constructor|]. split; [done|]. cbn. lia. Qed.

Lemma new_writes σ l e : edge_ok σ e -> 1 <= edge_equiv_max (pool_create e) -> σ !! l = None ->
  writes σ l (pool_create e).
Proof. intros He Hm Hl. split; [by apply new_equiv_ok|]. intros i Hi. congruence. Qed.

Lemma step_writes σ l i e i' : equiv_ok σ i -> σ !! l = Some i -> equal_to (m_rep i) e = true ->
  step_ok σ e i (best_edge (m_rep i) [e]) i' ->
  writes σ l i' /\ equal_to (m_rep i') e = true.
Proof.
  intros Hi Hl He (Hok&Hrep&_).
  assert (equal_to (m_rep i) (m_rep i') = true) as Heq
    by (rewrite Hrep; apply best_edge_equal; by constructor).
  split; [split; [done|]; intros j Hj; rewrite Hl in Hj; by injection Hj as <-|].
  eauto using equal_to_trans, equal_to_sym.
Qed.

Lemma allocate_fresh σ : σ !! fresh (dom σ) = None.
Proof. apply not_elem_of_dom, is_fresh. Qed.

(** A larger store. *)
Lemma alt_ok_subseteq σ σ' a : σ ⊆ σ' -> alt_ok σ a -> alt_ok σ' a.
Proof.
  intros Hσ [H1 H2]. assert (Hc : forall p, child_ok σ p -> child_ok σ' p).
  { intros [x|]; [|done]. intros (q&Hq&?). exists q. split; [by eapply lookup_weaken|done]. }
  split; by apply Hc.
Qed.

Lemma edge_ok_subseteq σ σ' e : σ ⊆ σ' -> edge_ok σ e -> edge_ok σ' e.
Proof. intros Hσ [He Ha]. split; [done|by eapply alt_ok_subseteq]. Qed.

Lemma equiv_ok_subseteq σ σ' i : σ ⊆ σ' -> equiv_ok σ i -> equiv_ok σ' i.
Proof.
  intros Hσ (H1&H2&H3). split; [by eapply edge_ok_subseteq|]. split; [|done].
  eapply Forall_impl; [exact H2|]. intros a. by apply alt_ok_subseteq.
Qed.

(** Every equivalence is still there, and not worse. *)
Record improves σ σ' : Prop := {
  im_at l i : σ !! l = Some i -> equiv_ok σ i -> exists i', σ' !! l = Some i' /\ equiv_ok σ' i' /\
    equal_to (m_rep i) (m_rep i') = true /\ score_lt (inside (m_rep i')) (inside (m_rep i)) = false
}.

Lemma improves_refl σ : improves σ σ.
Proof. split. intros l i Hi Hok. exists i. split; [done|]. split; [done|]. split; [apply equal_to_refl|apply sw_irrefl]. Qed.

Lemma improves_trans σ1 σ2 σ3 : improves σ1 σ2 -> improves σ2 σ3 -> improves σ1 σ3.
Proof.
  intros [H12] [H23]. split. intros l i Hi Hok. destruct (H12 l i Hi Hok) as (i2&Hi2&Hok2&He2&Hs2), (H23 l i2 Hi2 Hok2) as (i3&Hi3&Hok3&He3&Hs3).
  exists i3. split; [done|]. split; [done|]. split; [by eapply equal_to_trans|exact (sw_negtrans _ _ _ Hs3 Hs2)].
Qed.

Lemma improves_write σ l i' : writes σ l i' ->
  (forall i, σ !! l = Some i -> score_lt (inside (m_rep i')) (inside (m_rep i)) = false) -> improves σ (<[l := i']> σ).
Proof.
  intros Hw Hs. split. intros x j Hj Hok. destruct (writes_lookup σ l i' x j Hw Hj Hok) as (j'&Hj'&Hok'&He).
  exists j'. split; [done|]. split; [done|]. split; [done|]. destruct (decide (x = l)) as [->|Hne].
  - rewrite lookup_insert_eq in Hj'. injection Hj' as <-. by apply Hs.
  - rewrite lookup_insert_ne in Hj' by done. rewrite Hj in Hj'. injection Hj' as ->. apply sw_irrefl.
Qed.

Lemma improves_subseteq σ σ' : σ ⊆ σ' -> improves σ σ'.
Proof.
  intros Hs. split. intros l i Hi Hok. exists i. split; [by eapply lookup_weaken|]. split; [by apply (equiv_ok_subseteq σ)|].
  split; [apply equal_to_refl|apply sw_irrefl].
Qed.

(** * Theorems *)

(** Inserting equivalent edges one after the other into a new equivalence always
    succeeds.  The representative is the first of the best edges; the alternatives
    are among the inserted ones; the size is the number of edges up to the limit,
    below which nothing is lost. *)
Theorem insert_edges_keeps σ e0 es :
  Forall (edge_ok σ) (e0 :: es) -> Forall (fun e => equal_to e0 e = true) es ->
  1 <= edge_equiv_max (pool_create e0) ->
  exists i, insert_edges σ es (pool_create e0) = Some i /\
    m_rep i = best_edge e0 es /\
    Forall (fun e => score_lt (inside (m_rep i)) (inside e) = false) (e0 :: es) /\
    contents i ⊆+ alt_of <$> (e0 :: es) /\
    equiv_size i = Z.min (1 + Z.of_nat (length es)) (edge_equiv_max (pool_create e0)) /\
    (1 + Z.of_nat (length es) <= edge_equiv_max (pool_create e0) ->
     contents i ≡ₚ alt_of <$> (e0 :: es)).
Proof.
  intros Hok Heq Hm. apply Forall_cons_1 in Hok as [H0 Hes].
  destruct (insert_edges_spec σ es (pool_create e0)) as (i&Hi&Hok&Hrep&Hc&Hl); [|done|done|].
  { split; [done|]. split; [constructor|]. split; [done|]. cbn. lia. }
  assert (contents (pool_create e0) = [alt_of e0]) as Hc0
    by (unfold contents, equiv_empty, pool_create; cbn [m_rep]; by rewrite (proj1 H0)).
  assert (equiv_empty i = false) as Hne by apply Hok.
  rewrite Hc0, Permutation_app_comm in Hc. rewrite Hc0 in Hl. cbn [length] in Hl.
  exists i. split; [done|]. split; [done|]. split; [rewrite Hrep; apply best_edge_best|]. split; [done|].
  split; [unfold equiv_size; rewrite Hne; unfold contents in Hl; rewrite Hne in Hl; cbn [length] in Hl; lia|].
  intros Hfit. apply submseteq_length_Permutation; [done|]. rewrite length_fmap. cbn [length]. lia.
Qed.

(** When an equivalence is full, the place for an edge that does not become the
    representative is taken from the best of the alternatives, and the edge is
    discarded unless it is better than this one: the heap has its best element
    in front, not its worst. *)
Theorem insert_full_drops_best σ e i :
  equiv_ok σ i -> edge_ok σ e -> equal_to (m_rep i) e = true ->
  score_lt (inside (m_rep i)) (inside e) = false ->
  1 < edge_equiv_max i -> equiv_size i = edge_equiv_max i -> is_heap worse_score (m_alts i) ->
  exists best rest i', m_alts i = best :: rest /\
    Forall (fun a => worse_score best a = false) rest /\
    insert_edge σ e i = Some i' /\ m_rep i' = m_rep i /\
    if score_lt (alt_inside best) (inside e)
    then m_alts i' ≡ₚ alt_of e :: rest /\ is_heap worse_score (m_alts i')
    else i' = i.
Proof.
  intros (Hrep&Halts&Hm&Hlen) He Heq Hlt Hm1 Hsize Hh. pose proof (proj1 Hrep) as Hn.
  unfold equiv_size, equiv_empty in Hsize. rewrite Hn in Hsize.
  destruct (m_alts i) as [|a l] eqn:Ea; [cbn in Hsize; lia|]. rewrite <- Ea in Hlen, Hsize.
  exists a, l. unfold insert_edge. rewrite Heq, (equal_to_hash _ _ Heq), Z.eqb_refl, !orb_true_r.
  unfold equiv_empty. rewrite Hn, Hlt. cbn [assert_true mbind option_bind].
  rewrite (alts_full_spec i Hm Hlen), (proj2 (Z.eqb_neq (edge_equiv_max i) 1)) by lia.
  rewrite (proj2 (Z.eqb_eq (edge_equiv_max i - 1) _)) by lia. rewrite Ea. cbn [head mbind option_bind].
  assert (Forall (fun b => worse_score a b = false) l) as Hf
    by (apply Forall_forall; intros b Hb; by apply (heap_front worse_score a l b); [|right]).
  destruct (score_lt (alt_inside a) (inside e)) eqn:Hab; [|by exists i].
  rewrite (new_alt_ok σ _ (proj2 He)). cbn [mbind option_bind].
  destruct (assign_back_pop a l (alt_of e)) as (l'&->&Hp&Hh'). cbn [mbind option_bind].
  eexists. repeat split; try done; cbn [m_alts].
  - by rewrite push_heap_perm, Permutation_app_comm, Hp.
  - apply push_heap_heap; [apply _|]. by apply Hh'.
Qed.

(** [prune_inside] keeps the representative and exactly the alternatives that
    are not worse than the bound, sorted best first. *)
Theorem prune_inside_keeps worse_than i :
  m_rep (prune_inside worse_than i) = m_rep i /\
  m_alts (prune_inside worse_than i) ≡ₚ
    filter (fun a => score_lt (alt_inside a) worse_than = false) (m_alts i) /\
  StronglySorted (fun a b => score_lt (alt_inside a) (alt_inside b) = false)
    (m_alts (prune_inside worse_than i)).
Proof.
  pose proof (std_sort_sorted better_score (m_alts i)) as Hs.
  split; [done|]. unfold prune_inside. cbn [m_alts m_rep sort_alts]. split.
  - rewrite first_worse_filter by exact Hs. by rewrite std_sort_perm.
  - eapply StronglySorted_app_1_l. by rewrite take_drop.
Qed.

(** Merging an equivalence into another inserts the edges of its iteration:
    merging always succeeds, the representative is the best of both, the
    alternatives come from both, and below the limit nothing is lost. *)
Theorem merge_keeps σ other i :
  equiv_ok σ other -> equiv_ok σ i -> equal_to (m_rep i) (m_rep other) = true ->
  exists i', merge σ other i = Some i' /\ equiv_ok σ i' /\
    m_rep i' = best_edge (m_rep i) (edges_of other) /\
    alt_of <$> edges_of other = contents other /\
    contents i' ⊆+ contents other ++ contents i /\
    equiv_size i' = Z.min (equiv_size other + equiv_size i) (edge_equiv_max i) /\
    (equiv_size other + equiv_size i <= edge_equiv_max i -> contents i' ≡ₚ contents other ++ contents i).
Proof.
  intros Ho Hi Heq. pose proof Ho as (Hrep&Halts&_). rewrite merge_edges.
  assert (alt_of <$> edges_of other = contents other) as He
    by (unfold edges_of, contents; case_match; [done|apply edges_from_alts]).
  assert (equiv_empty other = false) as Hne by apply Ho.
  assert (equiv_empty i = false) as Hni by apply Hi.
  destruct (insert_edges_spec σ (edges_of other) i Hi) as (i'&Hins&Hi'&Hr&Hc&Hl).
  - unfold edges_of. rewrite Hne. by apply edges_from_ok.
  - unfold edges_of. rewrite Hne. eapply Forall_impl; [apply edges_from_equal|]. eauto using equal_to_trans.
  - assert (equiv_empty i' = false) as Hne' by apply Hi'.
    rewrite He in Hc. rewrite <- (length_fmap alt_of), He in Hl.
    exists i'. unfold equiv_size. rewrite Hne, Hni, Hne'.
    assert (forall j, equiv_empty j = false -> length (contents j) = S (length (m_alts j))) as Hlen
      by (intros j Hj; unfold contents; by rewrite Hj).
    pose proof (Hlen _ Hne). pose proof (Hlen _ Hni). pose proof (Hlen _ Hne'). do 5 (split; [done|]). split; [lia|].
    intros Hfit. apply submseteq_length_Permutation; [done|]. rewrite length_app. lia.
Qed.
End inserting.
End equivalence.

(** * Samples *)

(** The algorithms on sorted lists: the heap is kept best first. *)
Definition insertion_sort {A} (lt : A -> A -> bool) (l : list A) : list A :=
  foldr (sorted_insert lt) [] l.

#[export] Instance sorted_algorithms A : StdAlgorithms A := {|
  push_heap comp l := insertion_sort comp l;
  pop_heap comp l := match l with [] => [] | a :: l => insertion_sort comp l ++ [a] end;
  std_sort comp l := insertion_sort (fun a b => comp b a) l
|}.

Lemma insertion_sort_perm {A} (lt : A -> A -> bool) l : insertion_sort lt l ≡ₚ l.
Proof. induction l as [|a l IH]; cbn; [done|]. by rewrite sorted_insert_perm, IH. Qed.

Lemma insertion_sort_descending {A} (lt : A -> A -> bool) `{!StrictWeak lt} l :
  descending lt (insertion_sort lt l).
Proof. induction l as [|a l IH]; cbn; [constructor|]. by apply sorted_insert_descending. Qed.

Lemma descending_heap {A} (lt : A -> A -> bool) l : descending lt l -> is_heap lt l.
Proof.
  intros Hd i a p Hi Ha Hp.
  pose proof (Nat.Div0.div_lt_upper_bound (i - 1) 2 i ltac:(lia)) as Hlt.
  exact (StronglySorted_lookup_lt _ _ _ _ _ _ Hd Hp Ha Hlt).
Qed.

Lemma converse_sw {A} (lt : A -> A -> bool) `{!StrictWeak lt} : StrictWeak (fun a b => lt b a).
Proof.
  split; [intros a; apply sw_irrefl| |]; intros a b c Ha Hb;
    [exact (sw_trans _ _ _ Hb Ha)|exact (sw_negtrans _ _ _ Hb Ha)].
Qed.

#[export] Instance sorted_algorithms_laws A : StdAlgorithmLaws A.
Proof.
  split; cbn.
  - intros. apply insertion_sort_perm.
  - intros. by apply descending_heap, insertion_sort_descending.
  - intros comp a l. eexists. split; [done|apply insertion_sort_perm].
  - intros comp ? a l l' _ [<- _]%app_inj_tail. by apply descending_heap, insertion_sort_descending.
  - intros. apply insertion_sort_perm.
  - intros comp ? l. pose proof (converse_sw comp). apply (insertion_sort_descending (fun a b => comp b a)).
Qed.

#[local] Instance sample_combine : HashCombine := Z.add.
Definition sample_hash_span (s : span_t) : Z := span_left s + span_right s.
Abbreviation sample_insert := (insert_edge typ_and_idx sample_hash_span).
Abbreviation sample_inserts := (insert_edges typ_and_idx sample_hash_span).

(** Equivalent edges over the sample store, by rule and inside score. *)
Definition scored (id inside : Z) : edge Z Z :=
  mk_edge (sample_tag 3) id (Some 1%positive) (Some 2%positive) (inside - 1) inside (mk_span 0 3) 9.

Lemma scored_ok id x : edge_ok sample_store (scored id x).
Proof. split; [done|]. split; eexists; split; reflexivity. Qed.

(** Applies a theorem with three hypotheses whose conclusion is the goal evaluated. *)
Ltac apply_evaluated thm :=
  let Hthm := fresh in
  pose proof thm as Hthm;
  match type of Hthm with _ -> _ -> _ -> ?P => change P end;
  apply Hthm; clear Hthm.

Lemma insert_edges_keeps_witness :
  exists i, sample_inserts 4 sample_store [scored 2 5; scored 3 8] (pool_create (scored 1 7)) = Some i /\
    m_rep i = scored 3 8 /\ Forall (fun e => score_lt (inside (m_rep i)) (inside e) = false)
      [scored 1 7; scored 2 5; scored 3 8] /\
    contents i ⊆+ [alt_of (scored 1 7); alt_of (scored 2 5); alt_of (scored 3 8)] /\
    equiv_size i = 3 /\
    (3 <= 4 -> contents i ≡ₚ [alt_of (scored 1 7); alt_of (scored 2 5); alt_of (scored 3 8)]).
Proof.
  apply_evaluated (insert_edges_keeps typ_and_idx sample_hash_span 4 sample_store (scored 1 7)
    [scored 2 5; scored 3 8]).
  - repeat apply Forall_cons_2; try apply scored_ok. apply Forall_nil_2.
  - repeat apply Forall_cons_2; try reflexivity. apply Forall_nil_2.
  - vm_compute. discriminate.
Defined.

(** With room for three edges, inserting 10, 5, 8, 9 loses the 8 and keeps the 5. *)
Definition full_equiv : edge_equivalence_impl Z Z :=
  mk_equiv [alt_of (scored 3 8); alt_of (scored 2 5)] (scored 1 10).

Example full_equiv_reached :
  sample_inserts 3 sample_store [scored 2 5; scored 3 8] (pool_create (scored 1 10)) = Some full_equiv.
Proof. reflexivity. Qed.

Lemma insert_full_drops_best_witness :
  exists best rest i', m_alts full_equiv = best :: rest /\
    Forall (fun a => worse_score best a = false) rest /\
    sample_insert 3 sample_store (scored 4 9) full_equiv = Some i' /\ m_rep i' = m_rep full_equiv /\
    if score_lt (alt_inside best) (inside (scored 4 9))
    then m_alts i' ≡ₚ alt_of (scored 4 9) :: rest /\ is_heap worse_score (m_alts i')
    else i' = full_equiv.
Proof.
  apply (insert_full_drops_best typ_and_idx sample_hash_span 3 sample_store (scored 4 9) full_equiv).
  - split; [apply scored_ok|]. split; [repeat constructor; eexists; split; reflexivity|]. by split.
  - apply scored_ok.
  - reflexivity.
  - reflexivity.
  - reflexivity.
  - reflexivity.
  - apply descending_heap. repeat constructor.
Defined.

Example insert_full_loses :
  sample_insert 3 sample_store (scored 4 9) full_equiv =
    Some (mk_equiv [alt_of (scored 4 9); alt_of (scored 2 5)] (scored 1 10)).
Proof. reflexivity. Qed.

(** The representative that is replaced is put at the end of the heap, which is no
    heap then: [std::pop_heap] is called on it later. *)
Example insert_better_breaks_heap :
  exists i, sample_inserts 4 sample_store [scored 2 5; scored 3 9] (pool_create (scored 1 8)) = Some i /\
    m_alts i = [alt_of (scored 2 5); alt_of (scored 1 8)] /\ ~ is_heap worse_score (m_alts i).
Proof.
  eexists. split; [reflexivity|]. split; [reflexivity|]. intros Hh.
  specialize (Hh 1%nat _ _ ltac:(lia) eq_refl eq_refl). discriminate.
Qed.

Lemma prune_inside_keeps_witness :
  m_rep (prune_inside 6 full_equiv) = m_rep full_equiv /\
  m_alts (prune_inside 6 full_equiv) ≡ₚ
    filter (fun a => score_lt (alt_inside a) 6 = false) (m_alts full_equiv) /\
  StronglySorted (fun a b => score_lt (alt_inside a) (alt_inside b) = false)
    (m_alts (prune_inside 6 full_equiv)).
Proof. exact (prune_inside_keeps (score := Z) (info_type := Z) 6 full_equiv). Defined.

Lemma merge_keeps_witness :
  exists i', merge typ_and_idx sample_hash_span 5 sample_store full_equiv (pool_create (scored 4 12)) = Some i' /\
    equiv_ok 5 sample_store i' /\
    m_rep i' = scored 4 12 /\
    alt_of <$> edges_of full_equiv = contents full_equiv /\
    contents i' ⊆+ contents full_equiv ++ contents (pool_create (scored 4 12)) /\
    equiv_size i' = 4 /\
    (4 <= 5 -> contents i' ≡ₚ contents full_equiv ++ contents (pool_create (scored 4 12))).
Proof.
  apply_evaluated (merge_keeps typ_and_idx sample_hash_span 5 sample_store full_equiv (pool_create (scored 4 12))).
  - split; [apply scored_ok|]. split; [repeat constructor; eexists; split; reflexivity|]. by split.
  - split; [apply scored_ok|]. split; [constructor|]. by split.
  - reflexivity.
Defined.
