(* ===== verification/EdgeQueue.v ===== *)
(** The queue of edges that pruning works on: [edge_queue]
    (src/sbmt_decoder/include/sbmt/search/edge_queue.hpp and impl/edge_queue.ipp).

    A queue is a priority table of references to equivalences, found by the
    representative and ordered by its score, worst first, with the highest score
    that was inserted.  Equivalent edges are merged in place, so the operations
    read and write the store of [Edge]. *)
From S2P Require Import Prelude Span OaTable OaHashtable PriorityTable PriorityQueue TokenStorage Token Edge EdgeEquivalence.
Open Scope Z_scope.

(** [score_t(0.0)] and [operator==]; all scores are at least zero. *)
Class ScoreZero (S : Type) := {
  as_zero : S;
  score_eqb : S -> S -> bool
}.

Class ScoreZeroLaws (S : Type) `{!ScoreOps S, !ScoreZero S} : Prop := {
  zero_least (x : S) : score_lt x as_zero = false;
  score_eqb_spec (x y : S) : score_eqb x y = negb (score_lt x y) && negb (score_lt y x)
}.

Record edge_queue (score : Type) := mk_queue {
  ptable : priority_table positive;
  high_score : score
}.
Arguments mk_queue {score}.
Arguments ptable {score}.
Arguments high_score {score}.

Section queue.
Context {score info_type : Type} `{!ScoreOps score, !ScoreZero score, !InfoOps info_type}.
Context `{!Inhabited score, !Inhabited info_type}.
Abbreviation edge := (edge score info_type).
Abbreviation impl := (edge_equivalence_impl score info_type).
Abbreviation store := (equiv_store score info_type).
Abbreviation edge_queue := (edge_queue score).
Context `{!StdAlgorithms (alt_edge score), HC : !HashCombine}.
Context (hash_token : indexed_token -> Z) (hash_span : span_t -> Z) (max_equivalents : Z).
Implicit Types (σ : store) (e r : edge) (es rs : list edge) (i : impl) (q : edge_queue) (l : positive).

Abbreviation insert_edge := (insert_edge hash_token hash_span max_equivalents).
Abbreviation merge := (merge hash_token hash_span max_equivalents).

(** [boost::hash<edge_type>] and [std::equal_to<edge_type>] *)
#[local] Instance edge_key : HashKey edge := {|
  hash_key := edge_hash hash_token hash_span; equal_keys := equal_to |}.

#[local] Instance edge_inhabited : Inhabited edge :=
  populate (mk_edge (mk_indexed 0) 0 None None inhabitant inhabitant (mk_span 0 0) inhabitant).

(** [representative_edge] and [representative_score]; a reference that is not in the
    store is never read. *)
Definition representative_edge σ l : edge :=
  match σ !! l with Some i => m_rep i | None => inhabitant end.
Definition representative_score σ l : score := total (representative_edge σ l).

(** [std::greater] *)
Definition score_greater (a b : score) : bool := score_lt b a.

Definition new_edge_queue : option (result edge_queue) :=
  t ⇐ new_priority_table; Some (Ok (mk_queue t as_zero)).

(** An iterator is one of the table. *)
Definition queue_find σ e q : option Z := pt_find (representative_edge σ) e (ptable q).
Definition queue_end q : option Z := pt_end (ptable q).
Definition queue_dereference q (itr : Z) : option positive := pt_dereference (ptable q) itr.

Definition queue_insert_table σ l (t : priority_table positive) :=
  pt_insert (representative_edge σ) (representative_score σ) score_greater l t.

(** [ptable.modify(pos, f)] where [f] changes the object from [σ] to [σ']; then
    [ptable.find(e)]. *)
Definition queue_modify σ σ' e (pos : Z) (t : priority_table positive)
  : option (result (store * Z * priority_table positive)) :=
  t ⇐ pt_modify_object (representative_edge σ) (representative_edge σ')
        (representative_score σ) (representative_score σ') score_greater pos t;
  pos ← pt_find (representative_edge σ') e t;
  Some (Ok (σ', pos, t)).

(** The end of both [insert]s. *)
Definition queue_raise (s : score) (r : store * Z * priority_table positive) q
  : option (result (store * Z * edge_queue)) :=
  let '(σ, pos, t) := r in
  let high := if score_lt (high_score q) s then s else high_score q in
  last ← pt_end t;
  assert_true (negb (pos =? last)) ;;
  Some (Ok (σ, pos, mk_queue t high)).

(** [insert(epool, e)] *)
Definition queue_insert_edge σ e q : option (result (store * Z * edge_queue)) :=
  pos ← queue_find σ e q;
  last ← queue_end q;
  r ⇐ (if pos =? last then
         let '(l, σ) := allocate σ (pool_create e) in
         '(pos, _, t) ⇐ queue_insert_table σ l (ptable q); Some (Ok (σ, pos, t))
       else
         l ← queue_dereference q pos;
         i ← σ !! l;
         i ← insert_edge σ e i;
         queue_modify σ (<[l := i]> σ) e pos (ptable q));
  queue_raise (total e) r q.

(** [insert(eq)]: merging an object with itself is [None], as in [Chart]. *)
Definition queue_insert σ (eq : positive) q : option (result (store * Z * edge_queue)) :=
  e ← representative σ (Some eq);
  pos ← queue_find σ e q;
  last ← queue_end q;
  '(σ, pos, t) ⇐ (if pos =? last then
         '(pos, _, t) ⇐ queue_insert_table σ eq (ptable q); Some (Ok (σ, pos, t))
       else
         l ← queue_dereference q pos;
         if decide (l = eq) then None
         else
           o ← σ !! eq;
           i ← σ !! l;
           i ← merge σ o i;
           queue_modify σ (<[l := i]> σ) e pos (ptable q));
  e ← representative σ (Some eq);
  queue_raise (total e) (σ, pos, t) q.

Definition queue_top q : option positive := pt_top (ptable q).
Definition queue_size q : option Z := pt_size (ptable q).
Definition queue_empty q : option bool := n ← queue_size q; Some (n =? 0).

Definition queue_pop σ q : option edge_queue :=
  t ← pt_pop (representative_edge σ) (representative_score σ) score_greater (ptable q);
  Some (mk_queue t (high_score q)).

Definition lowest_score σ q : option score :=
  b ← queue_empty q;
  if negb b then l ← queue_top q; r ← representative σ (Some l); Some (total r) else Some as_zero.
Definition highest_score q : option score :=
  b ← queue_empty q; Some (if negb b then high_score q else as_zero).

(** The elements in the order of iteration, which is that of the hash table. *)
Definition queue_elements q : option (list positive) :=
  indices ← table_values (tbl (entry_index (ptable q)));
  mapM (fun x => priority_heap (ptable q) !! Z.to_nat x) indices.

(** [std::max] *)
Definition max_score (a b : score) : score := if score_lt a b then b else a.

(** [erase(e)]: when the highest score goes, the new one is searched for. *)
Definition queue_erase σ e q : option (bool * edge_queue) :=
  pos ← queue_find σ e q;
  last ← queue_end q;
  if pos =? last then Some (false, q)
  else
    l ← queue_dereference q pos;
    let pos_score := representative_score σ l in
    t ← pt_erase_at (representative_edge σ) (representative_score σ) score_greater pos (ptable q);
    let q := mk_queue t (high_score q) in
    if negb (score_lt pos_score (high_score q)) then
      ls ← queue_elements q;
      Some (true, mk_queue t (foldl (fun m l => max_score m (representative_score σ l)) as_zero ls))
    else Some (true, q).

(** * The specification *)

Abbreviation equiv_ok := (equiv_ok max_equivalents).
Abbreviation edge_equiv_max := (edge_equiv_max max_equivalents).
Abbreviation writes := (writes max_equivalents).
Abbreviation items q := (priority_heap (ptable q)).

(** The representatives in the queue. *)
Definition queued σ q : list edge := representative_edge σ <$> items q.

(** An equivalence with a score of at most [high]. *)
Definition live σ (high : score) l : Prop :=
  exists i, σ !! l = Some i /\ equiv_ok σ i /\ score_lt high (total (m_rep i)) = false.

(** A queue after at most [n] insertions. *)
Definition queue_ok (n : Z) σ q : Prop :=
  pq_holds score_greater n (representative_edge σ) (representative_score σ) (ptable q) /\
  Forall (live σ (high_score q)) (items q).

(** * Lemmas *)

Section laws.
Context `{!StdAlgorithmLaws (alt_edge score), !InfoLaws info_type, !StrictWeak (score_lt (S := score)),
  !ScoreZeroLaws score}.

#[local] Instance edge_key_laws : HashKeyLaws edge.
Proof.
  split; cbn; [intros a; by apply equal_to_refl|intros a b; by apply equal_to_sym|
    intros a b c; by apply equal_to_trans|intros a b; apply equal_to_hash; apply _].
Qed.

#[local] Instance score_greater_sw : StrictWeak score_greater.
Proof. apply (converse_sw score_lt). Qed.

Lemma representative_edge_lookup σ l i : σ !! l = Some i -> representative_edge σ l = m_rep i.
Proof. unfold representative_edge. by intros ->. Qed.

Lemma representative_write σ l i l' :
  representative_edge (<[l := i]> σ) l' = if decide (l' = l) then m_rep i else representative_edge σ l'.
Proof.
  unfold representative_edge. case_decide as E; [subst; by rewrite lookup_insert_eq|by rewrite lookup_insert_ne].
Qed.

Lemma queue_live n σ q l : queue_ok n σ q -> l ∈ items q ->
  exists i, σ !! l = Some i /\ equiv_ok σ i /\ score_lt (high_score q) (total (m_rep i)) = false.
Proof. intros [_ Hl]. rewrite Forall_forall in Hl. apply Hl. Qed.

Lemma queue_ok_le n n' σ q : n <= n' -> queue_ok n σ q -> queue_ok n' σ q.
Proof. intros Hn [H1 H2]. split; [by eapply pq_holds_le|done]. Qed.

Lemma queue_size_ok n σ q : queue_ok n σ q -> queue_size q = Some (Z.of_nat (length (items q))).
Proof. intros [H _]. by eapply pq_size. Qed.

Lemma queue_empty_ok n σ q : queue_ok n σ q ->
  queue_empty q = Some (match items q with [] => true | _ => false end).
Proof.
  intros Hq. unfold queue_empty. rewrite (queue_size_ok _ _ _ Hq). cbn [mbind option_bind].
  by destruct (items q).
Qed.

Lemma live_representative σ h l : live σ h l -> representative σ (Some l) = Some (representative_edge σ l).
Proof.
  intros (i&Hi&Hok&_). rewrite (representative_edge_lookup _ _ _ Hi). by apply (representative_ok max_equivalents).
Qed.

Lemma live_score σ h l : live σ h l -> score_lt h (representative_score σ l) = false.
Proof. intros (i&Hi&_&Hs). unfold representative_score. by rewrite (representative_edge_lookup _ _ _ Hi). Qed.

(** The lowest score is that of the top. *)
Lemma lowest_score_ok n σ q : queue_ok n σ q ->
  exists s, lowest_score σ q = Some s /\
    match queue_top q with
    | Some l => l ∈ items q /\ s = representative_score σ l /\
                forall l', l' ∈ items q -> score_lt (representative_score σ l') s = false
    | None => items q = [] /\ s = as_zero
    end.
Proof.
  intros Hq. unfold lowest_score. rewrite (queue_empty_ok _ _ _ Hq). cbn [mbind option_bind].
  pose proof Hq as [Hp Hl]. unfold queue_top, pt_top.
  destruct (items q) as [|l ls] eqn:E; [by eexists|]. cbn [negb lookup list_lookup mbind option_bind].
  rewrite Forall_forall in Hl.
  rewrite (live_representative σ (high_score q) l) by (apply Hl; left). cbn [mbind option_bind].
  eexists. split; [done|]. split; [left|]. split; [done|]. intros l' Hl'.
  apply (pq_top score_greater n (representative_edge σ) (representative_score σ) (ptable q) l l' Hp);
    [unfold pt_top; by rewrite E|by rewrite E].
Qed.

Lemma highest_score_ok n σ q : queue_ok n σ q ->
  highest_score q = Some (match items q with [] => as_zero | _ => high_score q end).
Proof.
  intros Hq. unfold highest_score. rewrite (queue_empty_ok _ _ _ Hq). cbn [mbind option_bind].
  by destruct (items q).
Qed.

(** No element is better than the highest score. *)
Lemma queue_high n σ q l : queue_ok n σ q -> l ∈ items q ->
  score_lt (high_score q) (representative_score σ l) = false.
Proof. intros [_ Hl] Hin. rewrite Forall_forall in Hl. by apply live_score, Hl. Qed.

(** ** Inserting *)

Lemma max_score_l a b : score_lt (max_score a b) a = false.
Proof. unfold max_score. destruct (score_lt a b) eqn:E; [by apply sw_asym|apply sw_irrefl]. Qed.

Lemma max_score_r a b : score_lt (max_score a b) b = false.
Proof. unfold max_score. destruct (score_lt a b) eqn:E; [apply sw_irrefl|done]. Qed.

Lemma live_raise σ h s l : live σ h l -> live σ (max_score h s) l.
Proof.
  intros (i&Hi&Hok&Hs). exists i. split; [done|]. split; [done|]. exact (sw_negtrans _ _ _ (max_score_l h s) Hs).
Qed.

Lemma live_write_other σ h l i' l' : writes σ l i' -> live σ h l' -> l' <> l -> live (<[l := i']> σ) h l'.
Proof.
  intros Hw (j&Hj&Hok&Hs) Hne. exists j. rewrite lookup_insert_ne by done. split; [done|].
  split; [by apply equiv_ok_write|done].
Qed.

Lemma live_write σ h l i' : writes σ l i' -> score_lt h (total (m_rep i')) = false -> live (<[l := i']> σ) h l.
Proof.
  intros Hw Hs. exists i'. rewrite lookup_insert_eq. split; [done|]. split; [|done].
  apply equiv_ok_write; [done|apply Hw].
Qed.

(** The end of an insertion, when the table has the new element. *)
Lemma queue_raise_ok n σ' pos t l s q : pq_holds score_greater n (representative_edge σ') (representative_score σ') t ->
  pt_dereference t pos = Some l -> Forall (live σ' (max_score (high_score q) s)) (priority_heap t) ->
  queue_raise s (σ', pos, t) q = Some (Ok (σ', pos, mk_queue t (max_score (high_score q) s))) /\
  queue_ok n σ' (mk_queue t (max_score (high_score q) s)).
Proof.
  intros Ht Hd Hl. destruct (pq_iterator score_greater n _ _ t pos l Ht Hd) as (last&Hlast&Hne).
  unfold queue_raise. rewrite Hlast. cbn [mbind option_bind].
  rewrite (proj2 (Z.eqb_neq pos last) Hne). cbn. split; [done|]. by split.
Qed.

(** A write to an object that is not in the queue. *)
Lemma queue_ok_write n σ q l i : queue_ok n σ q -> l ∉ items q -> writes σ l i ->
  queue_ok n (<[l := i]> σ) q /\ queued (<[l := i]> σ) q = queued σ q.
Proof.
  intros Hq Hfree Hw. pose proof Hq as [Hp Hl]. rewrite Forall_forall in Hl.
  assert (Hne : forall x, x ∈ items q -> x <> l) by (by intros x Hx ->).
  assert (Hrep : forall x, x ∈ items q -> representative_edge (<[l := i]> σ) x = representative_edge σ x).
  { intros x Hx. by rewrite representative_write, decide_False by auto. }
  split; [split|].
  - eapply pq_holds_ext; [|exact Hp]. intros x Hx. unfold representative_score. by rewrite Hrep.
  - apply Forall_forall. intros x Hx. apply live_write_other; auto.
  - apply list_fmap_ext. intros k x Hx. apply Hrep. by eapply list_elem_of_lookup_2.
Qed.

(** A store that has the objects of the queue as they are. *)
Lemma queue_ok_frame n σ σ' q : queue_ok n σ q ->
  (forall x i, x ∈ items q -> σ !! x = Some i -> equiv_ok σ i -> σ' !! x = Some i /\ equiv_ok σ' i) -> queue_ok n σ' q.
Proof.
  intros [Hp Hl] Hframe. rewrite Forall_forall in Hl. split.
  - eapply pq_holds_ext; [|exact Hp]. intros x Hx. destruct (Hl x Hx) as (i&Hi&Hok&_).
    destruct (Hframe x i Hx Hi Hok) as [Hi' _]. unfold representative_score.
    by rewrite (representative_edge_lookup _ _ _ Hi), (representative_edge_lookup _ _ _ Hi').
  - apply Forall_forall. intros x Hx. destruct (Hl x Hx) as (i&Hi&Hok&?). destruct (Hframe x i Hx Hi Hok). by exists i.
Qed.

(** A new object in the store, which is not in the queue yet. *)
Lemma queue_ok_new n σ q l i : queue_ok n σ q -> σ !! l = None -> writes σ l i ->
  queue_ok n (<[l := i]> σ) q /\ queued (<[l := i]> σ) q = queued σ q.
Proof.
  intros Hq Hfree. apply queue_ok_write; [done|]. intros Hx.
  destruct (queue_live _ _ _ _ Hq Hx) as (j&Hj&_). congruence.
Qed.

(** Adding an object without an equivalent in the queue. *)
Lemma queue_insert_absent n σ q l i : queue_ok n σ q -> n < pq_limit -> σ !! l = Some i -> equiv_ok σ i ->
  (forall r, r ∈ queued σ q -> equal_to r (m_rep i) = false) ->
  exists pos t, queue_insert_table σ l (ptable q) = Some (Ok (pos, true, t)) /\
    pt_dereference t pos = Some l /\ priority_heap t ≡ₚ l :: items q /\
    pq_holds score_greater (n + 1) (representative_edge σ) (representative_score σ) t /\
    Forall (live σ (max_score (high_score q) (total (m_rep i)))) (priority_heap t).
Proof.
  intros [Hp Hl] Hn Hi Hok Hno.
  destruct (pq_insert score_greater n (representative_edge σ) (representative_score σ) (ptable q) l Hp Hn)
    as (pos&t&Hins&Ht&Hperm&Hd).
  { intros x Hx. cbn. rewrite (representative_edge_lookup _ _ _ Hi). apply Hno, list_elem_of_fmap. by exists x. }
  exists pos, t. split; [exact Hins|]. split; [done|]. split; [done|]. split; [done|].
  rewrite Hperm. apply Forall_cons. split.
  - exists i. split; [done|]. split; [done|]. apply max_score_r.
  - eapply Forall_impl; [exact Hl|]. intros x. apply live_raise.
Qed.

(** Looking up an edge finds the one equivalent element. *)
Lemma queue_find_ok n σ q e : queue_ok n σ q ->
  exists pos last, queue_find σ e q = Some pos /\ queue_end q = Some last /\
    ((pos <> last /\ exists l i, l ∈ items q /\ σ !! l = Some i /\ equiv_ok σ i /\
        equal_to (m_rep i) e = true /\ queue_dereference q pos = Some l) \/
     (pos = last /\ forall r, r ∈ queued σ q -> equal_to r e = false)).
Proof.
  intros Hq. pose proof Hq as [Hp _]. unfold queue_find, queue_end.
  destruct (pq_find score_greater n _ _ (ptable q) e Hp) as [(l&pos&Hl&He&Hf&Hne&Hd)|(Hno&Hf&He)].
  - destruct (pq_iterator score_greater n _ _ (ptable q) pos l Hp Hd) as (last&Hlast&Hpl).
    exists pos, last. split; [done|]. split; [done|]. left. split; [done|].
    destruct (queue_live _ _ _ _ Hq Hl) as (i&Hi&Hok&_). exists l, i.
    cbn in He. rewrite (representative_edge_lookup _ _ _ Hi) in He. done.
  - destruct (pt_end (ptable q)) as [last|] eqn:Hlast; [|done]. exists last, last. split; [done|]. split; [done|].
    right. split; [done|]. unfold queued. intros r (l&->&Hl)%list_elem_of_fmap. by apply Hno.
Qed.

(** An object that changes in its place. *)
Lemma queue_modify_ok n σ q e s pos l i i' : queue_ok n σ q -> l ∈ items q -> σ !! l = Some i ->
  queue_dereference q pos = Some l -> equal_to (m_rep i) e = true -> writes σ l i' ->
  equal_to (m_rep i') e = true -> score_lt (max_score (high_score q) s) (total (m_rep i')) = false ->
  exists pos' t, queue_modify σ (<[l := i']> σ) e pos (ptable q) = Some (Ok (<[l := i']> σ, pos', t)) /\
    pt_dereference t pos' = Some l /\ priority_heap t ≡ₚ items q /\
    pq_holds score_greater n (representative_edge (<[l := i']> σ)) (representative_score (<[l := i']> σ)) t /\
    Forall (live (<[l := i']> σ) (max_score (high_score q) s)) (priority_heap t).
Proof.
  intros Hq Hl Hi Hd He Hw He' Hs. pose proof Hq as [Hp Hlive].
  assert (Hl' : representative_edge (<[l := i']> σ) l = m_rep i') by (by rewrite representative_write, decide_True).
  destruct (pq_modify score_greater n (representative_edge σ) (representative_edge (<[l := i']> σ))
    (representative_score σ) (representative_score (<[l := i']> σ)) (ptable q) pos l Hp Hd)
    as (t&Hm&Ht&Hperm).
  - intros x _ Hx. unfold representative_score. rewrite representative_write, decide_False by done. done.
  - cbn. rewrite Hl', (representative_edge_lookup _ _ _ Hi). by apply Hw.
  - destruct (pq_find score_greater n _ _ t e Ht) as [(x&pos'&Hx&Hxe&Hf&_&Hdx)|(Hno&_)].
    + assert (x = l) as ->.
      { apply (pq_unique score_greater n _ _ t x l Ht Hx); [by rewrite Hperm|].
        cbn in Hxe |- *. rewrite Hl'. eauto using equal_to_trans, equal_to_sym. }
      exists pos', t. unfold queue_modify. rewrite Hm. cbn [rbind mbind option_bind]. rewrite Hf. cbn [mbind option_bind].
      split; [done|]. split; [done|]. split; [done|]. split; [done|]. rewrite Hperm. apply Forall_forall. intros y Hy.
      rewrite Forall_forall in Hlive. destruct (decide (y = l)) as [->|Hne]; [by apply live_write|].
      apply live_write_other; [done|by apply live_raise, Hlive|done].
    + specialize (Hno l). rewrite Hperm in Hno. specialize (Hno Hl). cbn in Hno. rewrite Hl' in Hno. congruence.
Qed.

(** What an insertion of [e] does: a new object of [e] alone is added, or the one
    equivalent object takes [e] in. *)
Inductive queue_inserted σ q e : store -> edge_queue -> Prop :=
| inserted_new q' l :
    σ !! l = None -> (forall r, r ∈ queued σ q -> equal_to r e = false) ->
    items q' ≡ₚ l :: items q -> queued (<[l := pool_create e]> σ) q' ≡ₚ e :: queued σ q ->
    queue_inserted σ q e (<[l := pool_create e]> σ) q'
| inserted_merged q' l i i' rest :
    l ∈ items q -> σ !! l = Some i -> equal_to (m_rep i) e = true -> insert_edge σ e i = Some i' ->
    items q' ≡ₚ items q -> queued σ q ≡ₚ m_rep i :: rest ->
    queued (<[l := i']> σ) q' ≡ₚ best_edge (m_rep i) [e] :: rest ->
    queue_inserted σ q e (<[l := i']> σ) q'.

(** The representatives after an object has changed. *)
Lemma queued_write σ q q' l i i' : NoDup (items q) -> l ∈ items q -> σ !! l = Some i -> items q' ≡ₚ items q ->
  exists rest, queued σ q ≡ₚ m_rep i :: rest /\ queued (<[l := i']> σ) q' ≡ₚ m_rep i' :: rest.
Proof.
  intros Hnd [k Hk]%list_elem_of_lookup Hi Hq'. pose proof (delete_Permutation _ _ _ Hk) as Hp.
  generalize dependent (delete k (items q)). intros d Hp.
  exists (representative_edge σ <$> d). unfold queued. rewrite Hq', Hp.
  cbn [fmap list_fmap]. rewrite (representative_edge_lookup _ _ _ Hi), representative_write, decide_True by done.
  split; [done|]. apply Permutation_skip. rewrite Hp in Hnd. apply NoDup_cons in Hnd as [Hl _].
  erewrite list_fmap_ext; [done|]. intros j x Hx. rewrite representative_write, decide_False; [done|].
  intros ->. apply Hl. by eapply list_elem_of_lookup_2.
Qed.

Lemma queued_cons σ q q' l i : σ !! l = Some i -> items q' ≡ₚ l :: items q -> queued σ q' ≡ₚ m_rep i :: queued σ q.
Proof.
  intros Hl Hq'. unfold queued. rewrite Hq'. cbn [fmap list_fmap]. by rewrite (representative_edge_lookup _ _ _ Hl).
Qed.

Lemma queue_NoDup n σ q : queue_ok n σ q -> NoDup (items q).
Proof. intros [Hp _]. by eapply pq_NoDup. Qed.

Lemma queue_insert_edge_ok n σ q e : queue_ok n σ q -> n < pq_limit -> edge_ok σ e ->
  1 <= edge_equiv_max (pool_create e) ->
  exists σ' pos q', queue_insert_edge σ e q = Some (Ok (σ', pos, q')) /\ queue_ok (n + 1) σ' q' /\
    high_score q' = max_score (high_score q) (total e) /\ queue_inserted σ q e σ' q'.
Proof.
  intros Hq Hn He Hm. destruct (queue_find_ok n σ q e Hq) as (pos&last&Hf&Hlast&Hcase).
  unfold queue_insert_edge. rewrite Hf, Hlast. cbn [mbind option_bind].
  destruct Hcase as [(Hne&l&i&Hl&Hi&Hok&Heq&Hd)|(->&Hno)].
  - rewrite (proj2 (Z.eqb_neq pos last) Hne), Hd. cbn [mbind option_bind]. rewrite Hi. cbn [mbind option_bind].
    destruct (insert_edge_step hash_token hash_span max_equivalents σ e i Hok He Heq) as (i'&Hins&Hstep).
    rewrite Hins. cbn [mbind option_bind].
    destruct (step_writes max_equivalents σ l i e i' Hok Hi Heq Hstep) as (Hw&Heq'). pose proof Hstep as (_&Hrep&_).
    destruct (queue_modify_ok n σ q e (total e) pos l i i' Hq Hl Hi Hd Heq Hw Heq') as (pos'&t&->&Hd'&Hperm&Ht&Hlive).
    { rewrite Hrep. unfold best_edge. cbn. case_match; [apply max_score_r|].
      pose proof (queue_high _ _ _ _ Hq Hl) as Hh. unfold representative_score in Hh.
      rewrite (representative_edge_lookup _ _ _ Hi) in Hh. exact (sw_negtrans _ _ _ (max_score_l _ _) Hh). }
    cbn [rbind mbind option_bind]. destruct (queue_raise_ok n _ pos' t l (total e) q Ht Hd' Hlive) as (->&Hok').
    do 3 eexists. split; [done|]. split; [eapply queue_ok_le; [|exact Hok']; lia|]. split; [done|].
    destruct (queued_write σ q (mk_queue t (max_score (high_score q) (total e))) l i i' (queue_NoDup _ _ _ Hq) Hl Hi Hperm)
      as (rest&H1&H2). rewrite Hrep in H2. by eapply inserted_merged.
  - rewrite Z.eqb_refl. unfold allocate. set (l := fresh (dom σ)).
    pose proof (allocate_fresh σ : σ !! l = None) as Hl. pose proof (new_writes max_equivalents σ l e He Hm Hl) as Hw.
    destruct (queue_ok_new n σ q l _ Hq Hl Hw) as [Hq1 Hqd1].
    destruct (queue_insert_absent n (<[l := pool_create e]> σ) q l (pool_create e) Hq1 Hn (lookup_insert_eq _ _ _))
      as (pos&t&->&Hd&Hperm&Ht&Hlive); [by apply equiv_ok_write; [|apply Hw]|by rewrite Hqd1|].
    cbn [rbind mbind option_bind].
    destruct (queue_raise_ok (n + 1) _ pos t l (total e) q Ht Hd Hlive) as (->&Hok').
    do 3 eexists. split; [done|]. split; [done|]. split; [done|].
    apply inserted_new; [done|done|done|]. rewrite <- Hqd1.
    apply (queued_cons (<[l := pool_create e]> σ) q _ l (pool_create e)); [apply lookup_insert_eq|done].
Qed.

(** Inserting an equivalence: it is shared, or merged into the equivalent one that
    the queue has. *)
Lemma queue_insert_new_ok n σ q l i : queue_ok n σ q -> n < pq_limit -> σ !! l = Some i -> equiv_ok σ i ->
  (forall r, r ∈ queued σ q -> equal_to r (m_rep i) = false) ->
  exists pos q', queue_insert σ l q = Some (Ok (σ, pos, q')) /\ queue_ok (n + 1) σ q' /\
    high_score q' = max_score (high_score q) (total (m_rep i)) /\ items q' ≡ₚ l :: items q /\
    queued σ q' ≡ₚ m_rep i :: queued σ q.
Proof.
  intros Hq Hn Hi Hok Hno. unfold queue_insert. rewrite (representative_ok max_equivalents _ _ _ Hi Hok).
  cbn [mbind option_bind]. destruct (queue_find_ok n σ q (m_rep i) Hq) as (pos&last&Hf&Hlast&[(_&x&j&Hx&Hj&_&He&_)|(->&_)]).
  { rewrite (Hno (m_rep j)) in He; [done|]. apply list_elem_of_fmap. exists x.
    by rewrite (representative_edge_lookup _ _ _ Hj). }
  rewrite Hf, Hlast. cbn [mbind option_bind]. rewrite Z.eqb_refl.
  destruct (queue_insert_absent n σ q l i Hq Hn Hi Hok Hno) as (pos&t&->&Hd&Hperm&Ht&Hlive). cbn [rbind mbind option_bind].
  rewrite (representative_ok max_equivalents _ _ _ Hi Hok). cbn [mbind option_bind].
  destruct (queue_raise_ok (n + 1) σ pos t l (total (m_rep i)) q Ht Hd Hlive) as (->&Hok').
  do 2 eexists. split; [done|]. split; [done|]. split; [done|]. split; [done|]. by apply (queued_cons σ q _ l i).
Qed.

Lemma queue_insert_merge_ok n σ q l i : queue_ok n σ q -> σ !! l = Some i -> equiv_ok σ i ->
  (forall e, e ∈ edges_of i -> score_lt (total (m_rep i)) (total e) = false) ->
  (exists l' j, l' ∈ items q /\ l' <> l /\ σ !! l' = Some j /\ equal_to (m_rep j) (m_rep i) = true) ->
  exists l' j j' pos q' rest, queue_insert σ l q = Some (Ok (<[l' := j']> σ, pos, q')) /\
    queue_ok n (<[l' := j']> σ) q' /\
    σ !! l' = Some j /\ merge σ i j = Some j' /\ m_rep j' = best_edge (m_rep j) (edges_of i) /\
    high_score q' = max_score (high_score q) (total (m_rep i)) /\ items q' ≡ₚ items q /\
    queued σ q ≡ₚ m_rep j :: rest /\ queued (<[l' := j']> σ) q' ≡ₚ m_rep j' :: rest.
Proof.
  intros Hq Hi Hok Hbest (l'&j&Hl'&Hne&Hj&Hji). unfold queue_insert.
  rewrite (representative_ok max_equivalents _ _ _ Hi Hok). cbn [mbind option_bind].
  destruct (queue_live _ _ _ _ Hq Hl') as (j0&Hj0&Hjok&Hjs). rewrite Hj in Hj0. injection Hj0 as <-.
  destruct (queue_find_ok n σ q (m_rep i) Hq) as (pos&last&Hf&Hlast&[(Hpl&x&j1&Hx&Hj1&_&He&Hd)|(_&Hno)]).
  2: { rewrite (Hno (m_rep j)) in Hji; [done|]. apply list_elem_of_fmap. exists l'.
       by rewrite (representative_edge_lookup _ _ _ Hj). }
  assert (x = l') as ->.
  { apply (pq_unique score_greater n (representative_edge σ) (representative_score σ) (ptable q)); [apply Hq|done|done|].
    cbn. rewrite (representative_edge_lookup _ _ _ Hj1), (representative_edge_lookup _ _ _ Hj).
    eauto using equal_to_trans, equal_to_sym. }
  rewrite Hj in Hj1. injection Hj1 as <-. rewrite Hf, Hlast. cbn [mbind option_bind].
  rewrite (proj2 (Z.eqb_neq pos last) Hpl), Hd. cbn [mbind option_bind]. rewrite decide_False, Hi, Hj by done.
  cbn [mbind option_bind].
  destruct (merge_step hash_token hash_span max_equivalents σ i j Hok Hjok Hji) as (j'&Hm&Hj'&Hrep&Heq). rewrite Hm. cbn [mbind option_bind].
  assert (Hw : writes σ l' j').
  { split; [done|]. intros y Hy. rewrite Hj in Hy. by injection Hy as <-. }
  destruct (queue_modify_ok n σ q (m_rep i) (total (m_rep i)) pos l' j j' Hq Hl' Hj Hd Hji Hw)
    as (pos'&t&->&Hd'&Hperm&Ht&Hlive); [eauto using equal_to_trans, equal_to_sym| |].
  { rewrite Hrep. destruct (best_edge_in (m_rep j) (edges_of i)) as [->|Hin].
    - exact (sw_negtrans _ _ _ (max_score_l _ _) Hjs).
    - exact (sw_negtrans _ _ _ (max_score_r _ _) (Hbest _ Hin)). }
  cbn [rbind mbind option_bind]. unfold representative. cbn [deref].
  rewrite lookup_insert_ne, Hi by done. cbn [mbind option_bind]. destruct Hok as ((Hn&_)&_). unfold equiv_empty. rewrite Hn.
  cbn [negb assert_true mbind option_bind].
  destruct (queue_raise_ok n _ pos' t l' (total (m_rep i)) q Ht Hd' Hlive) as (->&Hok').
  destruct (queued_write σ q (mk_queue t (max_score (high_score q) (total (m_rep i)))) l' j j'
    (queue_NoDup _ _ _ Hq) Hl' Hj Hperm) as (rest&H1&H2).
  exists l', j, j', pos'. do 2 eexists. split_and!; done.
Qed.

Lemma queue_pop_ok n σ q l : queue_ok n σ q -> queue_top q = Some l ->
  exists q', queue_pop σ q = Some q' /\ queue_ok n σ q' /\ high_score q' = high_score q /\
    items q ≡ₚ l :: items q'.
Proof.
  intros [Hp Hl] Ht. unfold queue_pop.
  destruct (pq_pop score_greater n _ _ (ptable q) l Hp Ht) as (t&->&Ht'&Hperm). cbn [mbind option_bind].
  eexists. split; [done|]. split; [split; [done|]|done]. cbn [ptable high_score].
  rewrite Hperm in Hl. by apply Forall_cons in Hl as [_ Hl].
Qed.

Lemma mapM_perm {A B} (f : A -> option B) (l l' : list A) : l ≡ₚ l' ->
  forall k, mapM f l = Some k -> exists k', mapM f l' = Some k' /\ k' ≡ₚ k.
Proof.
  induction 1 as [|x l l' _ IH|x y l|l l1 l2 _ IH1 _ IH2]; intros k Hk.
  - by exists k.
  - cbn in *. destruct (f x) as [b|]; [|done]. cbn in *. destruct (mapM f l) as [k1|]; [|done]. injection Hk as <-.
    destruct (IH k1 eq_refl) as (k'&->&Hp). exists (b :: k'). split; [done|by rewrite Hp].
  - cbn in *. destruct (f x) as [b|], (f y) as [c|]; cbn in *; [|done..]. destruct (mapM f l) as [k1|]; [|done]. injection Hk as <-.
    eexists. split; [done|apply Permutation_swap].
  - destruct (IH1 k Hk) as (k1&Hk1&Hp1). destruct (IH2 k1 Hk1) as (k2&Hk2&Hp2). exists k2. split; [done|by etrans].
Qed.

Lemma mapM_positions {A} (heap pre : list A) :
  mapM (fun x => (pre ++ heap) !! Z.to_nat x) (seqZ (Z.of_nat (length pre)) (Z.of_nat (length heap))) = Some heap.
Proof.
  revert pre. induction heap as [|v heap IH]; intros pre; [done|]. cbn [length]. rewrite seqZ_cons by lia.
  cbn [mapM]. rewrite Nat2Z.id, list_lookup_middle by done. cbn [mbind option_bind].
  replace (Z.succ (Z.of_nat (length pre))) with (Z.of_nat (length (pre ++ [v]))) by (rewrite length_app; cbn; lia).
  replace (Z.pred (Z.of_nat (S (length heap)))) with (Z.of_nat (length heap)) by lia.
  specialize (IH (pre ++ [v])). rewrite <- app_assoc in IH. cbn [app] in IH. by rewrite IH.
Qed.

(** The elements in the order of iteration are those of the queue. *)
Lemma queue_elements_ok n σ q : queue_ok n σ q -> exists ls, queue_elements q = Some ls /\ ls ≡ₚ items q.
Proof.
  intros [[[_ (slots&(Hh&_&_)&Hp)] _] _]. pose proof (hb_table _ _ _ Hh) as Ht. unfold queue_elements.
  rewrite (table_values_held_eq _ _ Ht). cbn [mbind option_bind]. symmetry in Hp.
  exact (mapM_perm _ _ _ Hp _ (mapM_positions (items q) [])).
Qed.

(** ** The classes of the edges *)

(** Inserting edges one after the other. *)
Fixpoint queue_insert_edges σ (es : list edge) q : option (result (store * edge_queue)) :=
  match es with
  | [] => Some (Ok (σ, q))
  | e :: es => '(σ, _, q) ⇐ queue_insert_edge σ e q; queue_insert_edges σ es q
  end.

(** The queue after the edges of [es]. *)
Record queue_of (es : list edge) σ q : Prop := {
  qo_ok : queue_ok (Z.of_nat (length es)) σ q;
  qo_classes r : r ∈ queued σ q -> exists e0 rest, class_of r es = e0 :: rest /\ r = best_edge e0 rest;
  qo_complete e : e ∈ es -> exists r, r ∈ queued σ q /\ equal_to r e = true;
  qo_high : high_score q = foldl (fun m e => max_score m (total e)) as_zero es
}.

Lemma class_of_nil r es : (forall e, e ∈ es -> equal_to r e = false) -> class_of r es = [].
Proof.
  intros Hno. unfold class_of. induction es as [|e es IH]; [done|].
  rewrite filter_cons, decide_False; [apply IH; intros x Hx; apply Hno; by right|].
  rewrite Hno by left. done.
Qed.

Lemma best_edge_snoc e0 es e : best_edge e0 (es ++ [e]) = best_edge (best_edge e0 es) [e].
Proof. unfold best_edge. by rewrite foldl_app. Qed.

(** No two of the edges are equivalent. *)
Fixpoint inequivalent (rs : list edge) : Prop :=
  match rs with
  | [] => True
  | r :: rs => (forall r', r' ∈ rs -> equal_to r r' = false) /\ inequivalent rs
  end.

Lemma inequivalent_perm rs rs' : rs ≡ₚ rs' -> inequivalent rs -> inequivalent rs'.
Proof.
  induction 1 as [|r rs rs' Hp IH|r r' rs|rs rs' rs'' _ IH1 _ IH2]; cbn [inequivalent]; auto.
  - intros [Hr Hrs]. split; [|by apply IH]. intros x. rewrite <- Hp. apply Hr.
  - intros (Hr&Hr'&Hrs). split; [|split; [|done]].
    + intros x [->|Hx]%elem_of_cons; [|by apply Hr'].
      destruct (equal_to r r') eqn:E; [|done]. apply equal_to_sym in E. by rewrite (Hr r ltac:(left)) in E.
    + intros x Hx. apply Hr. by right.
Qed.

Lemma queued_inequivalent n σ q : queue_ok n σ q -> inequivalent (queued σ q).
Proof.
  intros Hq. pose proof (queue_NoDup _ _ _ Hq) as Hnd. unfold queued.
  assert (Hu : forall x y, x ∈ items q -> y ∈ items q ->
    equal_to (representative_edge σ x) (representative_edge σ y) = true -> x = y).
  { intros x y. exact (pq_unique score_greater n (representative_edge σ) (representative_score σ) _ x y (proj1 Hq)). }
  induction (items q) as [|l ls IH]; cbn [fmap list_fmap inequivalent]; [done|].
  apply NoDup_cons in Hnd as [Hl Hnd]. split.
  - intros r' (l'&->&Hl')%list_elem_of_fmap. destruct (equal_to _ _) eqn:E; [|done].
    apply Hu in E; [by subst|left|by right].
  - apply IH; [done|]. intros x y Hx Hy. apply Hu; by right.
Qed.

(** One more edge. *)
Lemma queue_of_step es σ q e σ' q' : queue_of es σ q -> queue_ok (Z.of_nat (S (length es))) σ' q' ->
  high_score q' = max_score (high_score q) (total e) -> queue_inserted σ q e σ' q' -> queue_of (es ++ [e]) σ' q'.
Proof.
  intros [Hq Hcl Hco Hh] Hq' Hh' Hins. split.
  - rewrite length_app, Nat.add_comm. exact Hq'.
  - destruct Hins as [q' l _ Hno _ Hqd|q' l i i' rest _ Hl He _ _ Hqd Hqd']; intros r Hr; rewrite class_of_snoc.
    + rewrite Hqd in Hr. apply elem_of_cons in Hr as [->|Hr].
      * rewrite equal_to_refl, class_of_nil; [by exists e, []|]. intros x Hx.
        destruct (equal_to e x) eqn:E; [|done]. destruct (Hco x Hx) as (r&Hr&Hrx).
        exfalso. pose proof (Hno r Hr) as F.
        rewrite (equal_to_trans r x e) in F; [done|done|by apply equal_to_sym].
      * rewrite (Hno r Hr), app_nil_r. by apply Hcl.
    + pose proof (inequivalent_perm _ _ Hqd (queued_inequivalent _ _ _ Hq)) as [Hne _].
      rewrite Hqd' in Hr. apply elem_of_cons in Hr as [->|Hr].
      * destruct (Hcl (m_rep i)) as (e0&cl&Hc&Hrep); [rewrite Hqd; left|].
        assert (Hb : equal_to (m_rep i) (best_edge (m_rep i) [e]) = true) by (apply best_edge_equal; by constructor).
        rewrite <- (class_of_equal _ _ es Hb), Hc.
        rewrite (equal_to_trans _ (m_rep i) e) by (done || by apply equal_to_sym).
        exists e0, (cl ++ [e]). split; [done|]. by rewrite best_edge_snoc, <- Hrep.
      * destruct (equal_to r e) eqn:E.
        { pose proof (Hne r Hr) as F. rewrite (equal_to_trans (m_rep i) e r) in F; [done|done|by apply equal_to_sym]. }
        rewrite app_nil_r. apply Hcl. rewrite Hqd. by right.
  - intros x [Hx|Hx]%elem_of_app.
    + destruct (Hco x Hx) as (r&Hr&Hrx). destruct Hins as [q' l _ Hno _ Hqd|q' l i i' rest _ Hl He _ _ Hqd Hqd'].
      * exists r. rewrite Hqd. split; [by right|done].
      * rewrite Hqd in Hr. apply elem_of_cons in Hr as [->|Hr]; [|exists r; rewrite Hqd'; split; [by right|done]].
        exists (best_edge (m_rep i) [e]). rewrite Hqd'. split; [left|].
        apply (equal_to_trans _ (m_rep i)); [|done]. apply equal_to_sym, best_edge_equal. by constructor.
    + apply list_elem_of_singleton in Hx as ->. destruct Hins as [q' l _ Hno _ Hqd|q' l i i' rest _ Hl He _ _ Hqd Hqd'].
      * exists e. rewrite Hqd. split; [left|apply equal_to_refl].
      * exists (best_edge (m_rep i) [e]). rewrite Hqd'. split; [left|].
        apply (equal_to_trans _ (m_rep i)); [|done]. apply equal_to_sym, best_edge_equal. by constructor.
  - rewrite foldl_app, <- Hh. exact Hh'.
Qed.

Lemma new_edge_queue_ok σ : exists q, new_edge_queue = Some (Ok q) /\ queue_of [] σ q /\ items q = [].
Proof.
  destruct (pq_new score_greater (representative_edge σ) (representative_score σ)) as (t&Ht&Hnil&Hp).
  unfold new_edge_queue. rewrite Ht. clear Ht. eexists. split; [done|]. split; [|done]. split.
  - split; [done|]. cbn. rewrite Hnil. constructor.
  - unfold queued. cbn. rewrite Hnil. by intros r ?%not_elem_of_nil.
  - by intros e ?%not_elem_of_nil.
  - done.
Qed.

Lemma inserted_edge_ok n σ q e σ' q' x : queue_ok n σ q -> edge_ok σ e -> 1 <= edge_equiv_max (pool_create e) ->
  queue_inserted σ q e σ' q' -> edge_ok σ x -> edge_ok σ' x.
Proof.
  intros Hq He Hm Hins. destruct Hins as [q' l Hl _ _ _|q' l i i' rest Hin Hl Heq Hi' _ _ _];
    apply edge_ok_write with (max_equivalents := max_equivalents); [by apply new_writes|].
  destruct (queue_live _ _ _ _ Hq Hin) as (j&Hj&Hok&_). rewrite Hl in Hj. injection Hj as <-.
  destruct (insert_edge_step hash_token hash_span max_equivalents σ e i Hok He Heq) as (i2&H2&Hstep).
  rewrite Hi' in H2. injection H2 as <-. by apply (step_writes max_equivalents σ l i e i').
Qed.

Lemma queue_insert_edges_ok es2 es1 σ q : queue_of es1 σ q -> Forall (edge_ok σ) es2 ->
  Forall (fun e => 1 <= edge_equiv_max (pool_create e)) es2 ->
  Z.of_nat (length es1 + length es2) <= pq_limit ->
  exists σ' q', queue_insert_edges σ es2 q = Some (Ok (σ', q')) /\ queue_of (es1 ++ es2) σ' q'.
Proof.
  revert es1 σ q. induction es2 as [|e es2 IH]; intros es1 σ q Hq Hes Hm Hlen; cbn [queue_insert_edges].
  { exists σ, q. by rewrite app_nil_r. }
  apply Forall_cons in Hes as [He Hes]. apply Forall_cons in Hm as [Hme Hm]. cbn [length] in Hlen.
  destruct (queue_insert_edge_ok _ σ q e (qo_ok _ _ _ Hq)) as (σ'&pos&q'&->&Hq'&Hh&Hins); [lia|done|done|].
  cbn [rbind mbind option_bind].
  assert (Hq1 : queue_of (es1 ++ [e]) σ' q').
  { eapply queue_of_step; [done| |done|done]. eapply queue_ok_le; [|exact Hq']. lia. }
  destruct (IH (es1 ++ [e]) σ' q' Hq1) as (σ2&q2&H2&Hq2); [| |rewrite length_app; cbn [length]; lia|].
  - eapply Forall_impl; [exact Hes|]. intros x. eapply inserted_edge_ok; [apply Hq|done|done|done].
  - done.
  - exists σ2, q2. split; [done|]. by rewrite <- (app_assoc es1 [e] es2) in Hq2.
Qed.

(** * Theorems *)

(** C22: Edges inserted into a queue end up in one element for each class of
    equivalent edges, whose representative is the first of the best edges of the
    class.  The highest score is the best of all, the top is an element of the
    lowest score of a representative. *)
Theorem edge_queue_refines es σ :
  Forall (edge_ok σ) es -> Forall (fun e => 1 <= edge_equiv_max (pool_create e)) es ->
  Z.of_nat (length es) <= pq_limit ->
  exists q0 σ' q, new_edge_queue = Some (Ok q0) /\ queue_insert_edges σ es q0 = Some (Ok (σ', q)) /\
    inequivalent (queued σ' q) /\
    (forall r, r ∈ queued σ' q <-> exists e0 rest, class_of r es = e0 :: rest /\ r = best_edge e0 rest) /\
    highest_score q = Some (foldl (fun m e => max_score m (total e)) as_zero es) /\
    match queue_top q with
    | None => es = []
    | Some l => lowest_score σ' q = Some (representative_score σ' l) /\ representative_edge σ' l ∈ queued σ' q /\
                forall r, r ∈ queued σ' q -> score_lt (total r) (representative_score σ' l) = false
    end.
Proof.
  intros Hes Hm Hlen. destruct (new_edge_queue_ok σ) as (q0&H0&Hq0&_).
  destruct (queue_insert_edges_ok es [] σ q0 Hq0 Hes Hm) as (σ'&q&Hins&[Hq Hcl Hco Hh]); [done|].
  cbn [app] in *. exists q0, σ', q. split; [exact H0|]. split; [exact Hins|]. clear H0 Hins.
  assert (Hnil : items q = [] -> es = []).
  { intros E. destruct es as [|e es]; [done|]. destruct (Hco e ltac:(left)) as (r&Hr&_).
    unfold queued in Hr. rewrite E in Hr. by apply not_elem_of_nil in Hr. }
  split; [by eapply queued_inequivalent|]. split; [|split].
  - intros r. split; [apply Hcl|]. intros (e0&rest&Hc&Hr0).
    assert (He0 : e0 ∈ class_of r es) by (rewrite Hc; left).
    unfold class_of in He0. apply list_elem_of_filter in He0 as [Heq He0].
    destruct (Hco e0 He0) as (r1&Hr1&Hre). destruct (Hcl r1 Hr1) as (e1&rest1&Hc1&Hr2).
    rewrite (class_of_equal r1 r), Hc in Hc1 by eauto using equal_to_trans, equal_to_sym.
    injection Hc1 as <- <-. by rewrite Hr0, <- Hr2.
  - rewrite (highest_score_ok _ _ _ Hq), <- Hh. destruct (items q) eqn:E; [|done].
    rewrite Hh. by rewrite (Hnil eq_refl).
  - destruct (lowest_score_ok _ _ _ Hq) as (s&Hs&Htop). destruct (queue_top q) as [l|].
    + destruct Htop as (Hl&->&Hall). split; [done|]. split; [apply list_elem_of_fmap; by exists l|].
      intros r (l'&->&Hl')%list_elem_of_fmap. by apply Hall.
    + by apply Hnil, Htop.
Qed.
End laws.
End queue.

(** * Samples: scores as logarithms, with that of zero *)

Definition log_lt (a b : option Z) : bool :=
  match a, b with
  | None, Some _ => true
  | Some x, Some y => x <? y
  | _, None => false
  end.

#[export] Instance log_number : ScoreOps (option Z) := {|
  score_lt := log_lt;
  score_mul a b := x ← a; y ← b; Some (x + y);
  score_div a b := x ← a; y ← b; Some (x - y);
  as_one := Some 0 |}.

#[export] Instance log_number_zero : ScoreZero (option Z) := {|
  as_zero := None; score_eqb a b := bool_decide (a = b) |}.

#[export] Instance log_number_sw : StrictWeak (score_lt (S := option Z)).
Proof.
  split; cbn.
  - intros [x|]; cbn; lia.
  - intros [x|] [y|] [z|]; cbn; lia.
  - intros [x|] [y|] [z|]; cbn; lia.
Qed.

#[export] Instance log_number_laws : ScoreZeroLaws (option Z).
Proof.
  split; [by intros [x|]|]. intros [x|] [y|]; cbn; [|done..].
  destruct (bool_decide_reflect (Some x = Some y)) as [[= ->]|Hne]; [lia|].
  assert (x <> y) by congruence. lia.
Qed.

#[local] Instance sample_combine : HashCombine := Z.add.
Abbreviation sample_edges es :=
  (queue_insert_edges (score := option Z) (info_type := Z) typ_and_idx sample_hash_span 4 ∅ es).

(** An edge without children, by rule, score and info. *)
Definition leaf (id x n : Z) : edge (option Z) Z :=
  mk_edge (sample_tag 3) id None None (Some x) (Some x) (mk_span 0 1) n.

Definition leaves (xs : list (Z * Z * Z)) : list (edge (option Z) Z) :=
  map (fun x => leaf x.1.1 x.1.2 x.2) xs.

Lemma leaves_ok σ xs : Forall (edge_ok σ) (leaves xs).
Proof. induction xs; constructor; done. Qed.

Lemma leaves_max xs : Forall (fun e => 1 <= edge_equiv_max 4 (pool_create e)) (leaves xs).
Proof.
  induction xs as [|x xs IH]; constructor; [|done].
  change (1 <= 4). lia.
Qed.

(** Two of the three edges are equivalent. *)
Definition sample_leaves : list (edge (option Z) Z) := leaves [(1, 5, 7); (2, 8, 9); (3, 6, 7)].

Lemma edge_queue_refines_witness :
  exists q0 σ' q, new_edge_queue = Some (Ok q0) /\ sample_edges sample_leaves q0 = Some (Ok (σ', q)) /\
    inequivalent (queued σ' q) /\
    (forall r, r ∈ queued σ' q <-> exists e0 rest, class_of r sample_leaves = e0 :: rest /\ r = best_edge e0 rest) /\
    highest_score q = Some (Some 8) /\
    match queue_top q with
    | None => sample_leaves = []
    | Some l => lowest_score σ' q = Some (representative_score σ' l) /\ representative_edge σ' l ∈ queued σ' q /\
                forall r, r ∈ queued σ' q -> score_lt (total r) (representative_score σ' l) = false
    end.
Proof.
  apply_evaluated (edge_queue_refines typ_and_idx sample_hash_span 4 sample_leaves ∅).
  - apply leaves_ok.
  - apply leaves_max.
  - vm_compute. discriminate.
Defined.

Example sample_queue :
  match new_edge_queue with
  | Some (Ok q0) => match sample_edges sample_leaves q0 with
                    | Some (Ok (σ, q)) => Some (queued σ q, highest_score q)
                    | _ => None
                    end
  | _ => None
  end = Some ([leaf 3 6 7; leaf 2 8 9], Some (Some 8)).
Proof. vm_compute. reflexivity. Qed.
