(* ===== verification/FilterPredicate.v ===== *)
(** The predicates that decide what is pruned: [edge_filter_predicate] and the
    predicates of src/sbmt_decoder/include/sbmt/search/filter_predicates.hpp with
    impl/filter_predicates.ipp, src/filter_predicates.cpp and retry_series.hpp.

    A predicate is asked whether an edge should be put into a queue, and whether
    the top of the queue, its worst element, should be removed.  The type-erasing
    [edge_filter_predicate] is the class [FilterPredicate].  A predicate answers
    with a [tribool]; those that answer with a [bool] never say [indeterminate]. *)
From S2P Require Import Prelude Span PriorityTable TokenStorage Token Edge EdgeEquivalence EdgeQueue.
Open Scope Z_scope.

(** [boost::logic::tribool] *)
Inductive tribool := tri_false | tri_true | indeterminate.

#[export] Instance tribool_eq_dec : EqDecision tribool.
Proof. solve_decision. Defined.

Definition tri_of_bool (b : bool) : tribool := if b then tri_true else tri_false.
(** The conversion to [bool] *)
Definition is_true (t : tribool) : bool := bool_decide (t = tri_true).
Definition tri_and (a b : tribool) : tribool :=
  match a, b with
  | tri_false, _ | _, tri_false => tri_false
  | tri_true, tri_true => tri_true
  | _, _ => indeterminate
  end.
Definition tri_or (a b : tribool) : tribool :=
  match a, b with
  | tri_true, _ | _, tri_true => tri_true
  | tri_false, tri_false => tri_false
  | _, _ => indeterminate
  end.

(** * Retries *)

(** [retry_series<V>]: a function of the number of the retry, or none. *)
Definition retry_series (V : Type) : Type := option (Z -> V).

(** [operator()(retry_i, val)]: whether the value has changed, and the value. *)
Definition retry_call {V} (value_differs : V -> V -> bool) (f : retry_series V) (retry_i : Z) (val : V) : bool * V :=
  match f with
  | None => (false, val)
  | Some func => if retry_i =? 0 then (true, func retry_i) else (value_differs (func retry_i) val, func retry_i)
  end.

Definition any_change (a b : bool) : bool := a || b.

(** [hist_t] is an [unsigned]. *)
Definition retry_hist : retry_series Z -> Z -> Z -> bool * Z := retry_call (fun x y => negb (x =? y)).

Section predicates.
Context {score info_type : Type} `{!ScoreOps score, !ScoreZero score, !InfoOps info_type}.
Abbreviation edge := (edge score info_type).
Abbreviation store := (equiv_store score info_type).
Abbreviation edge_queue := (edge_queue score).
Implicit Types (σ : store) (e : edge) (q : edge_queue).

Class FilterPredicate (P : Type) := {
  keep_edge : store -> edge_queue -> edge -> P -> option (tribool * P);
  pop_top : store -> edge_queue -> P -> option bool;
  adjust_for_retry : Z -> P -> bool * P
}.

Definition retry_beam : retry_series score -> Z -> score -> bool * score :=
  retry_call (fun x y => negb (score_eqb x y)).

(** [assert(pqueue.lowest_score() <= pqueue.highest_score())] *)
Definition assert_sane σ q : option unit :=
  low ← lowest_score σ q; high ← highest_score q; assert_true (negb (score_lt high low)).

(** ** [ratio_predicate] *)

Record ratio_predicate := mk_ratio { threshold : score; retry_threshold : retry_series score }.

Definition new_ratio (threshold : score) : option ratio_predicate :=
  assert_true (negb (score_lt as_one threshold)) ;; Some (mk_ratio threshold None).
Definition ratio_adjust (i : Z) (p : ratio_predicate) : bool * ratio_predicate :=
  let r := retry_beam (retry_threshold p) i (threshold p) in (r.1, mk_ratio r.2 (retry_threshold p)).
(** A score that is not set is one. *)
Definition new_ratio_retry (retry_threshold : retry_series score) : ratio_predicate :=
  (ratio_adjust 0 (mk_ratio as_one retry_threshold)).2.

Definition ratio_keep q e (p : ratio_predicate) : option bool :=
  high ← highest_score q; Some (negb (score_lt (total e) (score_mul (threshold p) high))).
Definition ratio_pop σ q (p : ratio_predicate) : option bool :=
  assert_sane σ q ;;
  low ← lowest_score σ q; high ← highest_score q;
  Some (score_lt low (score_mul (threshold p) high)).

#[export] Instance ratio_filter : FilterPredicate ratio_predicate := {|
  keep_edge σ q e p := b ← ratio_keep q e p; Some (tri_of_bool b, p);
  pop_top := ratio_pop;
  adjust_for_retry := ratio_adjust |}.

(** ** [fuzzy_ratio_predicate] *)

Record fuzzy_ratio_predicate := mk_fuzzy_ratio {
  fr_threshold : score; fr_fuzz : score;
  fr_retry_threshold : retry_series score; fr_retry_fuzz : retry_series score
}.

Definition new_fuzzy_ratio (t f : score) : option fuzzy_ratio_predicate :=
  assert_true (negb (score_lt as_one t)) ;; Some (mk_fuzzy_ratio t f None None).
Definition fuzzy_ratio_adjust (i : Z) (p : fuzzy_ratio_predicate) : bool * fuzzy_ratio_predicate :=
  let t := retry_beam (fr_retry_threshold p) i (fr_threshold p) in
  let f := retry_beam (fr_retry_fuzz p) i (fr_fuzz p) in
  (any_change t.1 f.1, mk_fuzzy_ratio t.2 f.2 (fr_retry_threshold p) (fr_retry_fuzz p)).
Definition new_fuzzy_ratio_retry (rt rf : retry_series score) : fuzzy_ratio_predicate :=
  (fuzzy_ratio_adjust 0 (mk_fuzzy_ratio as_one as_one rt rf)).2.

Definition fuzzy_ratio_keep q e (p : fuzzy_ratio_predicate) : option tribool :=
  high ← highest_score q;
  Some (if negb (score_lt (total e) (score_mul (fr_threshold p) high)) then tri_true
        else if negb (score_lt (total e) (score_mul (score_mul (fr_threshold p) (fr_fuzz p)) high)) then indeterminate
        else tri_false).
Definition fuzzy_ratio_pop σ q (p : fuzzy_ratio_predicate) : option bool :=
  assert_sane σ q ;;
  low ← lowest_score σ q; high ← highest_score q;
  Some (score_lt low (score_mul (fr_threshold p) high)).

#[export] Instance fuzzy_ratio_filter : FilterPredicate fuzzy_ratio_predicate := {|
  keep_edge σ q e p := t ← fuzzy_ratio_keep q e p; Some (t, p);
  pop_top := fuzzy_ratio_pop;
  adjust_for_retry := fuzzy_ratio_adjust |}.

(** ** [pass_thru_predicate] *)

Record pass_thru_predicate := mk_pass_thru {}.

#[export] Instance pass_thru_filter : FilterPredicate pass_thru_predicate := {|
  keep_edge σ q e p := Some (tri_true, p);
  pop_top σ q p := Some false;
  adjust_for_retry i p := (true, p) |}.

(** ** [histogram_predicate] *)

Record histogram_predicate := mk_histogram { top_n : Z; retry_top_n : retry_series Z }.

(** The [size_t] is converted to an [unsigned]. *)
Definition new_histogram (top_n : Z) : histogram_predicate := mk_histogram (u32 top_n) None.
Definition histogram_adjust (i : Z) (p : histogram_predicate) : bool * histogram_predicate :=
  let r := retry_hist (retry_top_n p) i (top_n p) in (r.1, mk_histogram r.2 (retry_top_n p)).
Definition new_histogram_retry (uninitialized : Z) (retry_top_n : retry_series Z) : histogram_predicate :=
  (histogram_adjust 0 (mk_histogram uninitialized retry_top_n)).2.

(** [pq.size() < top_n || e.score() >= pq.lowest_score()] *)
Definition histogram_keep σ q e (top_n : Z) : option bool :=
  n ← queue_size q;
  if n <? top_n then Some true
  else low ← lowest_score σ q; Some (negb (score_lt (total e) low)).
Definition histogram_pop σ q (top_n : Z) : option bool :=
  assert_sane σ q ;; n ← queue_size q; Some (top_n <? n).

#[export] Instance histogram_filter : FilterPredicate histogram_predicate := {|
  keep_edge σ q e p := b ← histogram_keep σ q e (top_n p); Some (tri_of_bool b, p);
  pop_top σ q p := histogram_pop σ q (top_n p);
  adjust_for_retry := histogram_adjust |}.

(** ** [fuzzy_histogram_predicate] *)

Record fuzzy_histogram_predicate := mk_fuzzy_histogram {
  fh_top_n : Z; fh_fuzz : score; fh_retry_top_n : retry_series Z; fh_retry_fuzz : retry_series score
}.

Definition new_fuzzy_histogram (n : Z) (f : score) : fuzzy_histogram_predicate :=
  mk_fuzzy_histogram (u32 n) f None None.
Definition fuzzy_histogram_adjust (i : Z) (p : fuzzy_histogram_predicate) : bool * fuzzy_histogram_predicate :=
  let t := retry_hist (fh_retry_top_n p) i (fh_top_n p) in
  let f := retry_beam (fh_retry_fuzz p) i (fh_fuzz p) in
  (any_change t.1 f.1, mk_fuzzy_histogram t.2 f.2 (fh_retry_top_n p) (fh_retry_fuzz p)).

Definition fuzzy_histogram_keep σ q e (p : fuzzy_histogram_predicate) : option tribool :=
  b ← histogram_keep σ q e (fh_top_n p);
  if (b : bool) then Some tri_true
  else low ← lowest_score σ q;
       Some (if negb (score_lt (total e) (score_mul (fh_fuzz p) low)) then indeterminate else tri_false).

#[export] Instance fuzzy_histogram_filter : FilterPredicate fuzzy_histogram_predicate := {|
  keep_edge σ q e p := t ← fuzzy_histogram_keep σ q e p; Some (t, p);
  pop_top σ q p := histogram_pop σ q (fh_top_n p);
  adjust_for_retry := fuzzy_histogram_adjust |}.

(** ** [poplimit_histogram_predicate] *)

Record poplimit_histogram_predicate := mk_poplimit {
  pl_top_n : Z; poplimit : Z; softlimit : Z; num_keep_queries : Z;
  pl_retry_top_n : retry_series Z; retry_poplimit : retry_series Z; retry_softlimit : retry_series Z
}.

Definition new_poplimit (top_n poplimit softlimit : Z) : poplimit_histogram_predicate :=
  mk_poplimit (u32 top_n) (u32 poplimit) (u32 softlimit) 0 None None None.
Definition poplimit_adjust (i : Z) (p : poplimit_histogram_predicate) : bool * poplimit_histogram_predicate :=
  let t := retry_hist (pl_retry_top_n p) i (pl_top_n p) in
  let l := retry_hist (retry_poplimit p) i (poplimit p) in
  let s := retry_hist (retry_softlimit p) i (softlimit p) in
  (s.1 || (l.1 || t.1),
   mk_poplimit t.2 l.2 s.2 0 (pl_retry_top_n p) (retry_poplimit p) (retry_softlimit p)).

(** [mutable hist_t num_keep_queries]: every question counts. *)
Definition count_query (p : poplimit_histogram_predicate) : poplimit_histogram_predicate :=
  mk_poplimit (pl_top_n p) (poplimit p) (softlimit p) (u32 (num_keep_queries p + 1))
    (pl_retry_top_n p) (retry_poplimit p) (retry_softlimit p).
Definition poplimit_keep σ q e (p : poplimit_histogram_predicate) : option (tribool * poplimit_histogram_predicate) :=
  let p := count_query p in
  n ← queue_size q;
  if (poplimit p <? num_keep_queries p) || ((pl_top_n p <=? n) && (softlimit p <? num_keep_queries p))
  then Some (tri_false, p)
  else if n <? pl_top_n p then Some (tri_true, p)
  else low ← lowest_score σ q;
       Some (if score_lt low (total e) then tri_true else indeterminate, p).

#[export] Instance poplimit_filter : FilterPredicate poplimit_histogram_predicate := {|
  keep_edge := poplimit_keep;
  pop_top σ q p := histogram_pop σ q (pl_top_n p);
  adjust_for_retry := poplimit_adjust |}.

(** ** [intersection_predicate] and [union_predicate]

    Both parts are asked when one of them answers with a [tribool]; when both
    answer with a [bool] the second one is asked only if it matters, but then its
    question has no effect. *)

Definition adjust_both {P1 P2} `{!FilterPredicate P1, !FilterPredicate P2} (i : Z) (p : P1 * P2) : bool * (P1 * P2) :=
  let a := adjust_for_retry i p.1 in
  let b := adjust_for_retry i p.2 in
  (any_change a.1 b.1, (a.2, b.2)).

Record intersection_predicate (P1 P2 : Type) := mk_intersection { both_of : P1 * P2 }.
Record union_predicate (P1 P2 : Type) := mk_union { either_of : P1 * P2 }.
Arguments mk_intersection {P1 P2}.
Arguments mk_union {P1 P2}.
Arguments both_of {P1 P2}.
Arguments either_of {P1 P2}.

Definition ask_both {P1 P2} `{!FilterPredicate P1, !FilterPredicate P2} (op : tribool -> tribool -> tribool)
    σ q e (p : P1 * P2) : option (tribool * (P1 * P2)) :=
  a ← keep_edge σ q e p.1;
  b ← keep_edge σ q e p.2;
  Some (op a.1 b.1, (a.2, b.2)).

#[export] Instance intersection_filter {P1 P2} `{!FilterPredicate P1, !FilterPredicate P2} :
    FilterPredicate (intersection_predicate P1 P2) := {|
  keep_edge σ q e p := r ← ask_both tri_and σ q e (both_of p); Some (r.1, mk_intersection r.2);
  pop_top σ q p := a ← pop_top σ q (both_of p).1;
                   if (a : bool) then Some true else pop_top σ q (both_of p).2;
  adjust_for_retry i p := let r := adjust_both i (both_of p) in (r.1, mk_intersection r.2) |}.

#[export] Instance union_filter {P1 P2} `{!FilterPredicate P1, !FilterPredicate P2} :
    FilterPredicate (union_predicate P1 P2) := {|
  keep_edge σ q e p := r ← ask_both tri_or σ q e (either_of p); Some (r.1, mk_union r.2);
  pop_top σ q p := a ← pop_top σ q (either_of p).1;
                   if (a : bool) then pop_top σ q (either_of p).2 else Some false;
  adjust_for_retry i p := let r := adjust_both i (either_of p) in (r.1, mk_union r.2) |}.
End predicates.

Arguments mk_intersection {P1 P2}.
Arguments mk_union {P1 P2}.
Arguments both_of {P1 P2}.
Arguments either_of {P1 P2}.

(** * The predicates are defined on every well-formed queue *)

Section safe.
Context {score info_type : Type} `{!ScoreOps score, !ScoreZero score, !InfoOps info_type}.
Context `{!Inhabited score, !Inhabited info_type}.
Abbreviation edge := (edge score info_type).
Abbreviation store := (equiv_store score info_type).
Abbreviation edge_queue := (edge_queue score).
Context `{!StdAlgorithms (alt_edge score), HC : !HashCombine}.
Context (hash_token : indexed_token -> Z) (hash_span : span_t -> Z) (max_equivalents : Z).
Implicit Types (σ : store) (e : edge) (q : edge_queue).
Abbreviation queue_ok := (queue_ok hash_token hash_span max_equivalents).

(** No question fails, and the assertion of the predicates holds. *)
Class PredicateSafe (P : Type) `{!FilterPredicate (score := score) (info_type := info_type) P} : Prop := {
  keep_defined n σ q e (p : P) : queue_ok n σ q -> exists r, keep_edge σ q e p = Some r;
  pop_defined n σ q (p : P) : queue_ok n σ q -> exists b, pop_top σ q p = Some b
}.

Context `{!StdAlgorithmLaws (alt_edge score), !InfoLaws info_type, !StrictWeak (score_lt (S := score)),
  !ScoreZeroLaws score}.

Lemma assert_sane_ok n σ q : queue_ok n σ q -> assert_sane σ q = Some tt.
Proof.
  intros Hq. unfold assert_sane. destruct (lowest_score_ok _ _ _ _ _ _ Hq) as (s&->&Hs).
  rewrite (highest_score_ok _ _ _ _ _ _ Hq). cbn [mbind option_bind].
  destruct (queue_top q) as [l|].
  - destruct Hs as (Hl&->&_). pose proof (queue_high _ _ _ _ _ _ _ Hq Hl) as Hh.
    destruct (priority_heap (ptable q)); [by apply not_elem_of_nil in Hl|]. by rewrite Hh.
  - destruct Hs as [-> ->]. by rewrite sw_irrefl.
Qed.

(** Evaluates what a predicate asks of a well-formed queue. *)
Ltac queue_answers Hq :=
  let s := fresh "s" in let Hs := fresh in
  rewrite ?(assert_sane_ok _ _ _ Hq), ?(highest_score_ok _ _ _ _ _ _ Hq), ?(queue_size_ok _ _ _ _ _ _ Hq);
  destruct (lowest_score_ok _ _ _ _ _ _ Hq) as (s&Hs&_); rewrite ?Hs;
  cbn [mbind option_bind fst snd].

#[export] Instance ratio_safe : PredicateSafe ratio_predicate.
Proof.
  split; intros *; intros Hq; cbn; unfold ratio_keep, ratio_pop; queue_answers Hq; by eexists.
Qed.

#[export] Instance fuzzy_ratio_safe : PredicateSafe fuzzy_ratio_predicate.
Proof.
  split; intros *; intros Hq; cbn; unfold fuzzy_ratio_keep, fuzzy_ratio_pop; queue_answers Hq; by eexists.
Qed.

#[export] Instance pass_thru_safe : PredicateSafe pass_thru_predicate.
Proof. split; intros *; intros Hq; by eexists. Qed.

Lemma histogram_pop_ok n σ q k : queue_ok n σ q ->
  histogram_pop σ q k = Some (k <? Z.of_nat (length (priority_heap (ptable q)))).
Proof. intros Hq. unfold histogram_pop. by queue_answers Hq. Qed.

Lemma histogram_keep_ok n σ q e k : queue_ok n σ q ->
  exists b, histogram_keep σ q e k = Some b.
Proof. intros Hq. unfold histogram_keep. queue_answers Hq. case_match; by eexists. Qed.

#[export] Instance histogram_safe : PredicateSafe histogram_predicate.
Proof.
  split; intros *; intros Hq; cbn; [|by rewrite (histogram_pop_ok _ _ _ _ Hq); eexists].
  destruct (histogram_keep_ok n σ q e (top_n p) Hq) as [b ->]. by eexists.
Qed.

#[export] Instance fuzzy_histogram_safe : PredicateSafe fuzzy_histogram_predicate.
Proof.
  split; intros *; intros Hq; cbn; [|by rewrite (histogram_pop_ok _ _ _ _ Hq); eexists].
  unfold fuzzy_histogram_keep. destruct (histogram_keep_ok n σ q e (fh_top_n p) Hq) as [b ->].
  queue_answers Hq. destruct b; by eexists.
Qed.

#[export] Instance poplimit_safe : PredicateSafe poplimit_histogram_predicate.
Proof.
  split; intros *; intros Hq; cbn; [|by rewrite (histogram_pop_ok _ _ _ _ Hq); eexists].
  unfold poplimit_keep. queue_answers Hq. repeat case_match; by eexists.
Qed.

Lemma ask_both_ok {P1 P2} `{!FilterPredicate P1, !FilterPredicate P2, !PredicateSafe P1, !PredicateSafe P2}
    n σ q e op (p : P1 * P2) : queue_ok n σ q -> exists r, ask_both op σ q e p = Some r.
Proof.
  intros Hq. unfold ask_both. destruct (keep_defined n σ q e p.1 Hq) as [a ->].
  destruct (keep_defined n σ q e p.2 Hq) as [b ->]. by eexists.
Qed.

#[export] Instance intersection_safe {P1 P2} `{!FilterPredicate P1, !FilterPredicate P2, !PredicateSafe P1, !PredicateSafe P2} :
  PredicateSafe (intersection_predicate P1 P2).
Proof.
  split; intros *; intros Hq; cbn.
  - destruct (ask_both_ok n σ q e tri_and (both_of p) Hq) as [r ->]. by eexists.
  - destruct (pop_defined n σ q (both_of p).1 Hq) as [a ->]. destruct (pop_defined n σ q (both_of p).2 Hq) as [b Hb].
    cbn [mbind option_bind]. destruct a; eauto.
Qed.

#[export] Instance union_safe {P1 P2} `{!FilterPredicate P1, !FilterPredicate P2, !PredicateSafe P1, !PredicateSafe P2} :
  PredicateSafe (union_predicate P1 P2).
Proof.
  split; intros *; intros Hq; cbn.
  - destruct (ask_both_ok n σ q e tri_or (either_of p) Hq) as [r ->]. by eexists.
  - destruct (pop_defined n σ q (either_of p).1 Hq) as [a ->]. destruct (pop_defined n σ q (either_of p).2 Hq) as [b Hb].
    cbn [mbind option_bind]. destruct a; eauto.
Qed.
End safe.
