(* ===== verification/EdgeFilter.v ===== *)
(** Pruning filters: [predicate_edge_filter] and [cell_edge_filter]
    (src/sbmt_decoder/include/sbmt/search/edge_filter.hpp and impl/edge_filter.ipp).

    A filter is a queue of edges and a predicate: what the predicate does not keep
    is not inserted, what it wants to pop is removed after each insertion.  The
    filter sees to it that of the elements of one score all or none are removed.
    The predicates are those of [FilterPredicate], any instance of its class. *)
From S2P Require Import Prelude Span OaTable OaHashtable PriorityTable PriorityQueue TokenStorage Token Edge EdgeEquivalence EdgeQueue FilterPredicate.
Open Scope Z_scope.

(** [edge_filter_finalized] *)
Definition filter_finalized_msg : string := "attempted to insert into filter after finalized".

Section filter.
Context {score info_type : Type} `{!ScoreOps score, !ScoreZero score, !InfoOps info_type}.
Context `{!Inhabited score, !Inhabited info_type}.
Abbreviation edge := (edge score info_type).
Abbreviation impl := (edge_equivalence_impl score info_type).
Abbreviation store := (equiv_store score info_type).
Abbreviation edge_queue := (edge_queue score).
Context `{!StdAlgorithms (alt_edge score), HC : !HashCombine}.
Context (hash_token : indexed_token -> Z) (hash_span : span_t -> Z) (max_equivalents : Z).
Implicit Types (σ : store) (e r : edge) (es rs : list edge) (i : impl) (q : edge_queue) (l : positive).

Abbreviation queue_insert_edge := (queue_insert_edge hash_token hash_span max_equivalents).
Abbreviation queue_insert := (queue_insert hash_token hash_span max_equivalents).
Abbreviation queue_pop := (queue_pop hash_token hash_span).
Abbreviation queue_erase := (queue_erase hash_token hash_span).
Abbreviation queue_find := (queue_find hash_token hash_span).

(** * [predicate_edge_filter] *)

Section predicate.
Context {P : Type} `{!FilterPredicate (score := score) (info_type := info_type) P}.

Record predicate_edge_filter := mk_filter {
  transact : list positive;
  filt : P;
  pqueue : edge_queue;
  finalized : bool
}.
Implicit Types f : predicate_edge_filter.

Definition new_filter (p : P) : option (result predicate_edge_filter) :=
  q ⇐ new_edge_queue; Some (Ok (mk_filter [] p q false)).

(** The copy of a popped element: [transact] has the elements of one score. *)
Definition push_transact σ (transact : list positive) l : option (list positive) :=
  match last transact with
  | None => Some (transact ++ [l])
  | Some b => rb ← representative σ (Some b);
              r ← representative σ (Some l);
              Some (if score_eqb (total rb) (total r) then transact ++ [l] else [l])
  end.

(** The loop of [pop_top]; the fuel is the size of the queue. *)
Fixpoint pop_loop (fuel : nat) σ (p : P) q (transact : list positive) (min : score)
  : option (edge_queue * list positive) :=
  b ← queue_empty q;
  if (b : bool) then Some (q, transact)
  else
    b ← pop_top σ q p;
    if (b : bool) then
      match fuel with
      | O => None
      | S fuel =>
          l ← queue_top q;
          r ← representative σ (Some l);
          assert_true (negb (score_lt (total r) min)) ;;
          transact ← push_transact σ transact l;
          q ← queue_pop σ q;
          pop_loop fuel σ p q transact (total r)
      end
    else Some (q, transact).

Fixpoint queue_insert_all σ (ls : list positive) q : option (result (store * edge_queue)) :=
  match ls with
  | [] => Some (Ok (σ, q))
  | l :: ls => '(σ, _, q) ⇐ queue_insert σ l q; queue_insert_all σ ls q
  end.

(** Whether the elements popped last have the score of the top. *)
Definition same_as_top σ (transact : list positive) q : option bool :=
  match last transact with
  | None => Some false
  | Some b =>
      e ← queue_empty q;
      if (e : bool) then Some false
      else rb ← representative σ (Some b);
           t ← queue_top q;
           rt ← representative σ (Some t);
           Some (score_eqb (total rb) (total rt))
  end.

Definition filter_pop_top σ f : option (result (store * predicate_edge_filter)) :=
  n ← queue_size (pqueue f);
  r ← pop_loop (Z.to_nat n) σ (filt f) (pqueue f) [] as_zero;
  b ← same_as_top σ r.2 r.1;
  r' ⇐ (if (b : bool) then queue_insert_all σ r.2 r.1 else Some (Ok (σ, r.1)));
  Some (Ok (r'.1, mk_filter r.2 (filt f) r'.2 (finalized f))).

Definition set_queue (p : P) q f : predicate_edge_filter := mk_filter (transact f) p q (finalized f).

(** [insert(epool, e)] *)
Definition filter_insert_edge σ e f : option (result (tribool * store * predicate_edge_filter)) :=
  if finalized f then Some (Throw filter_finalized_msg)
  else
    k ← keep_edge σ (pqueue f) e (filt f);
    let retval := k.1 in
    if is_true retval then
      low ← lowest_score σ (pqueue f);
      '(σ, _, q) ⇐ queue_insert_edge σ e (pqueue f);
      let f := set_queue k.2 q f in
      if score_eqb (total e) low then Some (Ok (retval, σ, f))
      else r ⇐ filter_pop_top σ f; Some (Ok (retval, r.1, r.2))
    else r ⇐ filter_pop_top σ (set_queue k.2 (pqueue f) f); Some (Ok (retval, r.1, r.2)).

(** [insert(eq)] *)
Definition filter_insert σ (eq : positive) f : option (result (tribool * store * predicate_edge_filter)) :=
  if finalized f then Some (Throw filter_finalized_msg)
  else
    e ← representative σ (Some eq);
    k ← keep_edge σ (pqueue f) e (filt f);
    '(σ, q) ⇐ (if is_true k.1 then '(σ, _, q) ⇐ queue_insert σ eq (pqueue f); Some (Ok (σ, q))
               else Some (Ok (σ, pqueue f)));
    r ⇐ filter_pop_top σ (set_queue k.2 q f);
    Some (Ok (k.1, r.1, r.2)).

Definition filter_top f : option positive := assert_true (finalized f) ;; queue_top (pqueue f).
Definition filter_pop σ f : option predicate_edge_filter :=
  assert_true (finalized f) ;; q ← queue_pop σ (pqueue f); Some (set_queue (filt f) q f).
Definition filter_finalize f : predicate_edge_filter := mk_filter (transact f) (filt f) (pqueue f) true.
Definition filter_empty f : option bool := queue_empty (pqueue f).
Definition filter_size f : option Z := queue_size (pqueue f).
Definition filter_adjust (retry_i : Z) f : option (bool * predicate_edge_filter) :=
  assert_true (negb (finalized f)) ;;
  b ← queue_empty (pqueue f);
  assert_true b ;;
  let r := adjust_for_retry (score := score) (info_type := info_type) retry_i (filt f) in
  Some (r.1, set_queue r.2 (pqueue f) f).
End predicate.
Arguments predicate_edge_filter : clear implicits.

(** Edges inserted one after the other. *)
Fixpoint filter_insert_edges {P} `{!FilterPredicate (score := score) (info_type := info_type) P} σ es
    (f : predicate_edge_filter P) : option (result (store * predicate_edge_filter P)) :=
  match es with
  | [] => Some (Ok (σ, f))
  | e :: es => '(_, σ, f) ⇐ filter_insert_edge σ e f; filter_insert_edges σ es f
  end.

(** * [cell_edge_filter]

    A queue for each root, with a predicate of its own, and a queue for the span.
    The hash map of the cells is a list without order, as in [Chart]. *)

Section cell.
Context {SP CP : Type} `{!FilterPredicate (score := score) (info_type := info_type) SP,
  !FilterPredicate (score := score) (info_type := info_type) CP}.

Record queue_and_pred := mk_qp { qp_queue : edge_queue; qp_pred : CP }.

Record cell_edge_filter := mk_cell_filter {
  cell_map : list (indexed_token * queue_and_pred);
  span_queue : edge_queue;
  span_pred : SP;
  cell_pred : CP;
  cf_finalized : bool
}.
Implicit Types c : cell_edge_filter.

Definition new_cell_filter (sp : SP) (cp : CP) : option (result cell_edge_filter) :=
  q ⇐ new_edge_queue; Some (Ok (mk_cell_filter [] q sp cp false)).

Definition set_cells c (m : list (indexed_token * queue_and_pred)) : cell_edge_filter :=
  mk_cell_filter m (span_queue c) (span_pred c) (cell_pred c) (cf_finalized c).
Definition set_span c q (p : SP) : cell_edge_filter :=
  mk_cell_filter (cell_map c) q p (cell_pred c) (cf_finalized c).

(** [cell_map.find(tok)]: the place of the cell. *)
Definition find_cell_queue (tok : indexed_token) (m : list (indexed_token * queue_and_pred)) : option nat :=
  fst <$> list_find (fun x => indexed_equal x.1 tok = true) m.

Definition get_create (tok : indexed_token) c : option (result (nat * cell_edge_filter)) :=
  match find_cell_queue tok (cell_map c) with
  | Some k => Some (Ok (k, c))
  | None => q ⇐ new_edge_queue;
            Some (Ok (length (cell_map c), set_cells c (cell_map c ++ [(tok, mk_qp q (cell_pred c))])))
  end.

Definition cell_at (k : nat) c : option (indexed_token * queue_and_pred) := cell_map c !! k.
Definition put_cell (k : nat) (tok : indexed_token) (qp : queue_and_pred) c : cell_edge_filter :=
  set_cells c (<[k := (tok, qp)]> (cell_map c)).

(** The loop of [pop_cell]: what leaves the cell leaves the span. *)
Fixpoint pop_cell (fuel : nat) σ (p : CP) (cell_queue span_queue : edge_queue) : option (edge_queue * edge_queue) :=
  b ← queue_empty cell_queue;
  if (b : bool) then Some (cell_queue, span_queue)
  else
    b ← pop_top σ cell_queue p;
    if (b : bool) then
      match fuel with
      | O => None
      | S fuel =>
          l ← queue_top cell_queue;
          r ← representative σ (Some l);
          s ← queue_erase σ r span_queue;
          q ← queue_pop σ cell_queue;
          pop_cell fuel σ p q s.2
      end
    else Some (cell_queue, span_queue).

(** The loop of [pop_span]: what leaves the span leaves its cell. *)
Fixpoint pop_span (fuel : nat) σ c : option (result cell_edge_filter) :=
  b ← queue_empty (span_queue c);
  if (b : bool) then Some (Ok c)
  else
    b ← pop_top σ (span_queue c) (span_pred c);
    if (b : bool) then
      match fuel with
      | O => None
      | S fuel =>
          l ← queue_top (span_queue c);
          r ← representative σ (Some l);
          '(k, c) ⇐ get_create (rt r) c;
          x ← cell_at k c;
          s ← queue_erase σ r (qp_queue x.2);
          let c := put_cell k x.1 (mk_qp s.2 (qp_pred x.2)) c in
          q ← queue_pop σ (span_queue c);
          pop_span fuel σ (set_span c q (span_pred c))
      end
    else Some (Ok c).

Definition queue_fuel q : option nat := Z.to_nat <$> queue_size q.

(** The part of the two [insert]s after the cell's predicate was asked.  [put]
    inserts into the cell's queue.  An edge that its cell has dropped at once is
    reported on the error stream. *)
Definition cell_insert_kept (put : store -> edge_queue -> option (result (store * edge_queue))) σ e (k : nat) c
  : option (result (tribool * store * cell_edge_filter)) :=
  x ← cell_at k c;
  s ← queue_erase σ e (span_queue c);
  '(σ, q) ⇐ put σ (qp_queue x.2);
  n ← queue_fuel q;
  qs ← pop_cell n σ (qp_pred x.2) q s.2;
  let c := set_span (put_cell k x.1 (mk_qp qs.1 (qp_pred x.2)) c) qs.2 (span_pred c) in
  pe ← queue_find σ e qs.1;
  last ← queue_end qs.1;
  sk ← keep_edge σ (span_queue c) e (span_pred c);
  let c := set_span c (span_queue c) sk.2 in
  if negb (pe =? last) && is_true sk.1 then
    l ← queue_dereference qs.1 pe;
    '(σ, _, q) ⇐ queue_insert σ l (span_queue c);
    n ← queue_fuel q;
    c ⇐ pop_span n σ (set_span c q (span_pred c));
    Some (Ok (sk.1, σ, c))
  else Some (Ok (sk.1, σ, c)).

Definition cell_insert (put : store -> edge_queue -> option (result (store * edge_queue))) σ e c
  : option (result (tribool * store * cell_edge_filter)) :=
  if cf_finalized c then Some (Throw filter_finalized_msg)
  else
    '(k, c) ⇐ get_create (rt e) c;
    x ← cell_at k c;
    ck ← keep_edge σ (qp_queue x.2) e (qp_pred x.2);
    let c := put_cell k x.1 (mk_qp (qp_queue x.2) ck.2) c in
    if is_true ck.1 then cell_insert_kept put σ e k c
    else
      sk ← keep_edge σ (span_queue c) e (span_pred c);
      Some (Ok (sk.1, σ, set_span c (span_queue c) sk.2)).

(** [insert(epool, e)] and [insert(eq)] *)
Definition cell_filter_insert_edge σ e c : option (result (tribool * store * cell_edge_filter)) :=
  cell_insert (fun σ q => '(σ, _, q) ⇐ queue_insert_edge σ e q; Some (Ok (σ, q))) σ e c.
Definition cell_filter_insert σ (eq : positive) c : option (result (tribool * store * cell_edge_filter)) :=
  e ← representative σ (Some eq);
  cell_insert (fun σ q => '(σ, _, q) ⇐ queue_insert σ eq q; Some (Ok (σ, q))) σ e c.

Definition cell_filter_top c : option positive := assert_true (cf_finalized c) ;; queue_top (span_queue c).
Definition cell_filter_pop σ c : option cell_edge_filter :=
  assert_true (cf_finalized c) ;; q ← queue_pop σ (span_queue c); Some (set_span c q (span_pred c)).
Definition cell_filter_empty c : option bool := queue_empty (span_queue c).
Definition cell_filter_size c : option Z := queue_size (span_queue c).

(** The innermost loop of [finalize]. *)
Fixpoint shrink_span (fuel : nat) σ (p : SP) q : option edge_queue :=
  b ← queue_empty q;
  if (b : bool) then Some q
  else
    b ← pop_top σ q p;
    if (b : bool) then
      match fuel with
      | O => None
      | S fuel => q ← queue_pop σ q; shrink_span fuel σ p q
      end
    else Some q.

(** [finalize] takes up what the cells have and the span has not. *)
Fixpoint finalize_elements (ls : list positive) σ (p : SP) q : option (result (store * SP * edge_queue)) :=
  match ls with
  | [] => Some (Ok (σ, p, q))
  | l :: ls =>
      r ← representative σ (Some l);
      pos ← queue_find σ r q;
      last ← queue_end q;
      if pos =? last then
        k ← keep_edge σ q r p;
        if is_true k.1 then
          '(σ, _, q) ⇐ queue_insert σ l q;
          n ← queue_fuel q;
          q ← shrink_span n σ k.2 q;
          finalize_elements ls σ k.2 q
        else finalize_elements ls σ k.2 q
      else finalize_elements ls σ p q
  end.

Fixpoint finalize_cells (m : list (indexed_token * queue_and_pred)) σ (p : SP) q
  : option (result (store * SP * edge_queue)) :=
  match m with
  | [] => Some (Ok (σ, p, q))
  | x :: m =>
      ls ← queue_elements (qp_queue x.2);
      '(σ, p, q) ⇐ finalize_elements ls σ p q;
      finalize_cells m σ p q
  end.

Definition cell_filter_finalize σ c : option (result (store * cell_edge_filter)) :=
  if cf_finalized c then Some (Ok (σ, c))
  else
    '(σ, p, q) ⇐ finalize_cells (cell_map c) σ (span_pred c) (span_queue c);
    Some (Ok (σ, mk_cell_filter (cell_map c) q p (cell_pred c) true)).

Definition cell_filter_adjust (retry_i : Z) c : option (bool * cell_edge_filter) :=
  assert_true (negb (cf_finalized c)) ;;
  b ← queue_empty (span_queue c);
  assert_true b ;;
  match cell_map c with
  | _ :: _ => None
  | [] =>
      let s := adjust_for_retry (score := score) (info_type := info_type) retry_i (span_pred c) in
      let p := adjust_for_retry (score := score) (info_type := info_type) retry_i (cell_pred c) in
      Some (any_change s.1 p.1, mk_cell_filter [] (span_queue c) s.2 p.2 false)
  end.
End cell.

(** Edges inserted one after the other into a cell filter. *)
Fixpoint cell_filter_insert_edges {SP CP} `{!FilterPredicate (score := score) (info_type := info_type) SP,
    !FilterPredicate (score := score) (info_type := info_type) CP} σ es (c : cell_edge_filter (SP := SP) (CP := CP))
  : option (result (store * cell_edge_filter (SP := SP) (CP := CP))) :=
  match es with
  | [] => Some (Ok (σ, c))
  | e :: es => '(_, σ, c) ⇐ cell_filter_insert_edge σ e c; cell_filter_insert_edges σ es c
  end.

(** * The specification *)

(** The number of scores better than [s]. *)
Definition above (s : score) (ss : list score) : Z :=
  Z.of_nat (length (filter (fun x => score_lt s x = true) ss)).

(** The edges that fewer than [k] are better than: the [k] best, with all those that
    are as good as the last of them. *)
Definition best_edges (k : Z) es : list edge :=
  filter (fun e => above (total e) (total <$> es) < k) es.

(** The score that is best, and the edges within a beam below it. *)
Definition best_score es : score := foldl (fun m e => max_score m (total e)) as_zero es.
Definition within_beam (threshold : score) es : list edge :=
  filter (fun e => score_lt (total e) (score_mul threshold (best_score es)) = false) es.

(** [rs] are the representatives of the classes of equivalent edges of [es] that have an
    edge not below [bound]: one for each such class, as good as the best of it. *)
Record keeps_above (bound : score) es rs : Prop := {
  ka_inequivalent : inequivalent rs;
  ka_from r : r ∈ rs -> r ∈ es;
  ka_best r e : r ∈ rs -> e ∈ es -> equal_to r e = true -> score_lt (total r) (total e) = false;
  ka_within r : r ∈ rs -> score_lt (total r) bound = false;
  ka_complete e : e ∈ es -> score_lt (total e) bound = false -> exists r, r ∈ rs /\ equal_to r e = true
}.

(** What a beam keeps of [es] *)
Definition keeps_beam (threshold : score) es rs : Prop :=
  keeps_above (score_mul threshold (best_score es)) es rs.

(** Equivalent edges have the same heuristic: their totals are ordered as their inside
    scores, by which the representative is chosen. *)
Definition ordered_alike es : Prop :=
  forall e e', e ∈ es -> e' ∈ es -> equal_to e e' = true ->
    score_lt (total e) (total e') = score_lt (inside e) (inside e').

(** A factor that is at most one: multiplying by it keeps the order, and makes no
    score better. *)
Class Beam (threshold : score) : Prop := {
  beam_mono a b : score_lt a b = false -> score_lt (score_mul threshold a) (score_mul threshold b) = false;
  beam_le a : score_lt a (score_mul threshold a) = false
}.

(** * Lemmas *)

Abbreviation queue_ok := (queue_ok hash_token hash_span max_equivalents).
Abbreviation items q := (priority_heap (ptable q)).
Abbreviation rscore := representative_score.

Section laws.
Context `{!StdAlgorithmLaws (alt_edge score), !InfoLaws info_type, !StrictWeak (score_lt (S := score)),
  !ScoreZeroLaws score}.
Context {P : Type} `{!FilterPredicate (score := score) (info_type := info_type) P}.
Context `{!PredicateSafe hash_token hash_span max_equivalents P}.
Implicit Types (p : P) (f : predicate_edge_filter P).

(** [a] and [b] are the same score. *)
Definition same_score (a b : score) : Prop := score_lt a b = false /\ score_lt b a = false.

Lemma same_score_eqb a b : score_eqb a b = true <-> same_score a b.
Proof.
  rewrite score_eqb_spec. unfold same_score. destruct (score_lt a b), (score_lt b a); cbn; split; try done;
    by intros [].
Qed.

Lemma lt_same_l a b c : same_score a b -> score_lt a c = true -> score_lt b c = true.
Proof.
  intros [H1 H2] H3. destruct (score_lt b c) eqn:E; [done|].
  pose proof (sw_negtrans _ _ _ H1 E) as F. congruence.
Qed.

Lemma lt_le_trans a b c : score_lt a b = true -> score_lt c b = false -> score_lt a c = true.
Proof.
  intros H1 H2. destruct (score_lt a c) eqn:E; [done|]. pose proof (sw_negtrans _ _ _ E H2). congruence.
Qed.

Lemma le_lt_trans a b c : score_lt b a = false -> score_lt b c = true -> score_lt a c = true.
Proof.
  intros H1 H2. destruct (score_lt a c) eqn:E; [done|]. pose proof (sw_negtrans _ _ _ H1 E). congruence.
Qed.

(** ** Popping *)

(** The loop after it has popped [popped] from the queue [q0]: [transact] has the
    popped elements of the score [min], the others were worse. *)
Record popping (n : Z) σ q0 (popped : list positive) q (transact : list positive) (min : score) : Prop := {
  po_ok : queue_ok n σ q;
  po_high : high_score q = high_score q0;
  po_items : items q0 ≡ₚ popped ++ items q;
  po_below x y : x ∈ popped -> y ∈ items q -> score_lt (rscore σ y) (rscore σ x) = false;
  po_min y : y ∈ items q -> score_lt (rscore σ y) min = false;
  po_transact : exists lead, popped ≡ₚ lead ++ transact /\ (transact = [] -> popped = []) /\
    (forall x y, x ∈ lead -> y ∈ transact -> score_lt (rscore σ x) (rscore σ y) = true);
  po_same y : y ∈ transact -> same_score (rscore σ y) min
}.

Lemma popping_live n σ q0 popped q tr min l : queue_ok n σ q0 -> popping n σ q0 popped q tr min ->
  l ∈ popped \/ l ∈ items q -> live max_equivalents σ (high_score q0) l.
Proof.
  intros [_ Hl] Hp Hin. rewrite Forall_forall in Hl. apply Hl. rewrite (po_items _ _ _ _ _ _ _ Hp).
  by apply elem_of_app.
Qed.

Lemma transact_popped (popped lead tr : list positive) l : popped ≡ₚ lead ++ tr -> l ∈ tr -> l ∈ popped.
Proof. intros ->. rewrite elem_of_app. by right. Qed.

(** One round of the loop. *)
Lemma popping_step n σ q0 popped q tr min l : queue_ok n σ q0 -> popping n σ q0 popped q tr min ->
  queue_top q = Some l ->
  exists tr' q', push_transact σ tr l = Some tr' /\ queue_pop σ q = Some q' /\
    items q ≡ₚ l :: items q' /\ high_score q' = high_score q /\
    score_lt (rscore σ l) min = false /\
    popping n σ q0 (popped ++ [l]) q' tr' (rscore σ l).
Proof.
  intros Hq0 Hp Htop. pose proof Hp as [Hq Hh Hi Hb Hm (lead&Hlead&Hnil&Hlt) Hsame].
  destruct (queue_pop_ok hash_token hash_span max_equivalents n σ q l Hq Htop) as (q'&Hpop&Hq'&Hh'&Hi').
  destruct (lowest_score_ok hash_token hash_span max_equivalents n σ q Hq) as (s&_&Hlow). rewrite Htop in Hlow.
  destruct Hlow as (Hl&->&Hlow).
  assert (Hmin : score_lt (rscore σ l) min = false) by by apply Hm.
  assert (Hrep : forall x, x ∈ popped \/ x ∈ items q -> representative σ (Some x) = Some (representative_edge σ x)).
  { intros x Hx. apply (live_representative max_equivalents σ (high_score q0)).
    by apply (popping_live n σ q0 popped q tr min). }
  assert (Hnext : forall tr', (exists lead', popped ++ [l] ≡ₚ lead' ++ tr' /\ (tr' = [] -> popped ++ [l] = []) /\
             (forall x y, x ∈ lead' -> y ∈ tr' -> score_lt (rscore σ x) (rscore σ y) = true)) ->
           (forall y, y ∈ tr' -> same_score (rscore σ y) (rscore σ l)) ->
           popping n σ q0 (popped ++ [l]) q' tr' (rscore σ l)).
  { intros tr' Hlead' Hsame'. split; [done|by rewrite Hh'| | | |done|done].
    - by rewrite Hi, Hi', <- app_assoc.
    - intros x y Hx Hy. assert (y ∈ items q) by (rewrite Hi'; by right).
      apply elem_of_app in Hx as [Hx| ->%list_elem_of_singleton]; [by apply Hb|by apply Hlow].
    - intros y Hy. apply Hlow. rewrite Hi'. by right. }
  unfold push_transact. destruct (last tr) as [b|] eqn:Hlast.
  - apply last_Some in Hlast as [tr0 Htr]. assert (Hbt : b ∈ tr) by (rewrite Htr, elem_of_app, list_elem_of_singleton; by right).
    rewrite (Hrep b) by (left; by eapply transact_popped). rewrite (Hrep l) by by right. cbn [mbind option_bind].
    destruct (score_eqb _ _) eqn:E; eexists _, q'; (split; [done|]; split; [done|]; split; [done|]; split; [done|]; split; [done|]).
    + apply same_score_eqb in E. assert (Hml : same_score min (rscore σ l)).
      { destruct (Hsame b Hbt) as [S1 S2], E as [S3 S4]. split; eapply sw_negtrans; eauto. }
      apply Hnext.
      * exists lead. split; [by rewrite Hlead, app_assoc|]. split; [by destruct tr|].
        intros x y Hx [Hy| ->%list_elem_of_singleton]%elem_of_app; [by apply Hlt|].
        eapply lt_le_trans; [by apply (Hlt x b)|]. apply E.
      * intros y [Hy| ->%list_elem_of_singleton]%elem_of_app; [|by split; apply sw_irrefl].
        destruct (Hsame y Hy), Hml. split; eapply sw_negtrans; eauto.
    + assert (Hbl : score_lt (rscore σ b) (rscore σ l) = true).
      { rewrite score_eqb_spec in E. assert (Hlb : score_lt (rscore σ l) (rscore σ b) = false).
        { apply Hb; [by eapply transact_popped|done]. }
        fold (rscore σ b) in E. fold (rscore σ l) in E. rewrite Hlb in E.
        by destruct (score_lt (rscore σ b) (rscore σ l)). }
      apply Hnext.
      * exists popped. split; [done|]. split; [done|].
        intros x y Hx ->%list_elem_of_singleton. rewrite Hlead in Hx. apply elem_of_app in Hx as [Hx|Hx].
        -- eapply sw_trans; [by apply (Hlt x b)|done].
        -- eapply le_lt_trans; [|exact Hbl]. destruct (Hsame x Hx), (Hsame b Hbt). eapply sw_negtrans; eauto.
      * intros y ->%list_elem_of_singleton. split; apply sw_irrefl.
  - apply last_None in Hlast as ->. exists [l], q'. do 5 (split; [done|]). rewrite (Hnil eq_refl) in *.
    apply Hnext.
    + exists []. split; [done|]. split; [done|]. by intros x y ?%not_elem_of_nil.
    + intros y ->%list_elem_of_singleton. split; apply sw_irrefl.
Qed.
(** The loop ends, and [J] holds of what it pops when every round keeps it. *)
Lemma pop_loop_ok n σ q0 p (J : list positive -> edge_queue -> Prop) :
  queue_ok n σ q0 ->
  (forall popped q q' l, queue_ok n σ q -> high_score q = high_score q0 -> J popped q -> pop_top σ q p = Some true ->
     queue_top q = Some l -> items q ≡ₚ l :: items q' -> J (popped ++ [l]) q') ->
  forall fuel popped q tr min, popping n σ q0 popped q tr min -> J popped q -> (length (items q) <= fuel)%nat ->
  exists popped' q' tr' min', pop_loop fuel σ p q tr min = Some (q', tr') /\
    popping n σ q0 popped' q' tr' min' /\ J popped' q' /\ (items q' = [] \/ pop_top σ q' p = Some false).
Proof.
  intros Hq0 HJ. induction fuel as [|fuel IH]; intros popped q tr min Hp HJq Hf; cbn [pop_loop];
    rewrite (queue_empty_ok _ _ _ _ _ _ (po_ok _ _ _ _ _ _ _ Hp)); cbn [mbind option_bind];
    (destruct (items q) as [|x xs] eqn:E; [exists popped, q, tr, min; split; [done|]; split; [done|]; split; [done|by left]|]);
    [cbn in Hf; lia|].
  destruct (pop_defined hash_token hash_span max_equivalents n σ q p (po_ok _ _ _ _ _ _ _ Hp)) as [b Hb]. rewrite Hb. cbn [mbind option_bind].
  destruct b; [|exists popped, q, tr, min; split; [done|]; split; [done|]; split; [done|by right]].
  assert (Htop : queue_top q = Some x) by (unfold queue_top, pt_top; by rewrite E).
  destruct (popping_step n σ q0 popped q tr min x Hq0 Hp Htop) as (tr'&q'&Hpush&Hpop&Hi&Hh&Hmin&Hp').
  rewrite Htop. cbn [mbind option_bind].
  rewrite (live_representative max_equivalents σ (high_score q0)).
  2: { apply (popping_live n σ q0 popped q tr min); [done|done|]. right. rewrite E. left. }
  cbn [mbind option_bind]. fold (rscore σ x). rewrite Hmin, Hpush, Hpop. cbn [negb assert_true mbind option_bind].
  apply (IH _ _ _ _ Hp').
  - apply (HJ popped q); [apply Hp|apply Hp|done|done|done|done].
  - pose proof (Permutation_length Hi) as Hlen. rewrite E in Hlen. cbn [length] in *. lia.
Qed.

(** Putting popped elements back. *)
Lemma queue_insert_all_ok ls : forall n σ q, queue_ok n σ q -> n + Z.of_nat (length ls) <= pq_limit ->
  Forall (live max_equivalents σ (high_score q)) ls -> inequivalent ((representative_edge σ <$> ls) ++ queued σ q) ->
  exists q', queue_insert_all σ ls q = Some (Ok (σ, q')) /\
    queue_ok (n + Z.of_nat (length ls)) σ q' /\ high_score q' = high_score q /\ items q' ≡ₚ ls ++ items q.
Proof.
  induction ls as [|l ls IH]; intros n σ q Hq Hn Hl Hne; cbn [queue_insert_all].
  { exists q. rewrite Z.add_0_r. done. }
  apply Forall_cons in Hl as [(i&Hi&Hok&Hs) Hl]. cbn [fmap list_fmap app inequivalent] in Hne. destruct Hne as [Hne1 Hne].
  rewrite (representative_edge_lookup _ _ _ Hi) in Hne1. cbn [length] in Hn.
  destruct (queue_insert_new_ok hash_token hash_span max_equivalents n σ q l i Hq) as (pos&q1&->&Hq1&Hh1&Hi1&Hqd1);
    [lia|done|done| |].
  { intros r Hr. destruct (equal_to r (m_rep i)) eqn:E; [|done]. apply equal_to_sym in E.
    rewrite Hne1 in E; [done|]. apply elem_of_app. by right. }
  assert (Hsame : high_score q1 = high_score q).
  { rewrite Hh1. unfold max_score. by rewrite Hs. }
  cbn [rbind mbind option_bind]. destruct (IH (n + 1) σ q1 Hq1) as (q2&->&Hq2&Hh2&Hi2); [lia|by rewrite Hsame| |].
  - apply (inequivalent_perm (m_rep i :: (representative_edge σ <$> ls) ++ queued σ q)); [|by split].
    by rewrite Hqd1, Permutation_middle.
  - exists q2. split; [done|]. split; [|split].
    + eapply queue_ok_le; [|exact Hq2]. cbn [length]. lia.
    + congruence.
    + by rewrite Hi2, Hi1, <- Permutation_middle.
Qed.

Lemma inequivalent_app_r (a b : list edge) : inequivalent (a ++ b) -> inequivalent b.
Proof. induction a as [|x a IH]; [done|]. intros [_ H]. by apply IH. Qed.

(** Whether the elements popped last have the score of an element that stays. *)
Lemma same_as_top_ok n σ q0 popped q tr min : queue_ok n σ q0 -> popping n σ q0 popped q tr min ->
  exists b, same_as_top σ tr q = Some b /\
    if (b : bool) then exists t, queue_top q = Some t /\ forall x, x ∈ tr -> same_score (rscore σ x) (rscore σ t)
    else forall x y, x ∈ popped -> y ∈ items q -> score_lt (rscore σ x) (rscore σ y) = true.
Proof.
  intros Hq0 Hp. pose proof Hp as [Hq _ _ Hb _ (lead&Hlead&Hnil&Hlt) Hsame]. unfold same_as_top.
  destruct (last tr) as [b|] eqn:Hlast.
  2: { apply last_None in Hlast. exists false. split; [done|]. rewrite (Hnil Hlast). by intros x y ?%not_elem_of_nil. }
  rewrite (queue_empty_ok _ _ _ _ _ _ Hq). cbn [mbind option_bind].
  destruct (items q) as [|t ts] eqn:E.
  { exists false. split; [done|]. by intros x y _ ?%not_elem_of_nil. }
  assert (Htop : queue_top q = Some t) by (unfold queue_top, pt_top; by rewrite E).
  assert (Hbt : b ∈ tr).
  { apply last_Some in Hlast as [tr0 ->]. apply elem_of_app. right. apply list_elem_of_singleton. done. }
  assert (Hbp : b ∈ popped) by by eapply transact_popped.
  destruct (lowest_score_ok hash_token hash_span max_equivalents n σ q Hq) as (s&_&Hlow). rewrite Htop in Hlow.
  destruct Hlow as (Ht&->&Hlow).
  assert (Hrep : forall x, x ∈ popped \/ x ∈ items q -> representative σ (Some x) = Some (representative_edge σ x)).
  { intros x Hx. apply (live_representative max_equivalents σ (high_score q0)).
    by apply (popping_live n σ q0 popped q tr min). }
  rewrite (Hrep b), Htop by by left. cbn [mbind option_bind]. rewrite (Hrep t) by by right. cbn [mbind option_bind].
  fold (rscore σ b). fold (rscore σ t). eexists. split; [done|].
  assert (Hall : forall x, x ∈ tr -> same_score (rscore σ x) (rscore σ b)).
  { intros x Hx. destruct (Hsame x Hx), (Hsame b Hbt). split; eapply sw_negtrans; eauto. }
  destruct (score_eqb (rscore σ b) (rscore σ t)) eqn:Eq.
  - apply same_score_eqb in Eq. exists t. split; [done|]. intros x Hx.
    destruct (Hall x Hx), Eq. split; eapply sw_negtrans; eauto.
  - assert (Hbl : score_lt (rscore σ b) (rscore σ t) = true).
    { rewrite score_eqb_spec, (Hb b t Hbp ltac:(left)) in Eq. by destruct (score_lt (rscore σ b) (rscore σ t)). }
    intros x y Hx Hy. eapply lt_le_trans; [|apply Hlow; by rewrite E].
    rewrite Hlead in Hx. apply elem_of_app in Hx as [Hx|Hx].
    + eapply sw_trans; [by apply (Hlt x b)|done].
    + eapply le_lt_trans; [|exact Hbl]. apply (Hall x Hx).
Qed.

(** [pop_top]: what is removed is worse than what stays. *)
Record pruned (n : Z) σ q0 (dropped : list positive) q : Prop := {
  pr_ok : queue_ok n σ q;
  pr_high : high_score q = high_score q0;
  pr_items : items q0 ≡ₚ dropped ++ items q;
  pr_worse x y : x ∈ dropped -> y ∈ items q -> score_lt (rscore σ x) (rscore σ y) = true
}.

Lemma filter_pop_top_ok n σ f (J : list positive -> edge_queue -> Prop) :
  queue_ok n σ (pqueue f) -> n + Z.of_nat (length (items (pqueue f))) <= pq_limit ->
  (forall popped q q' l, queue_ok n σ q -> high_score q = high_score (pqueue f) -> J popped q ->
     pop_top σ q (filt f) = Some true -> queue_top q = Some l -> items q ≡ₚ l :: items q' -> J (popped ++ [l]) q') ->
  J [] (pqueue f) ->
  exists f' dropped popped q1 back, filter_pop_top σ f = Some (Ok (σ, f')) /\
    filt f' = filt f /\ finalized f' = finalized f /\
    pruned (n + Z.of_nat (length (items (pqueue f)))) σ (pqueue f) dropped (pqueue f') /\
    J popped q1 /\ (items q1 = [] \/ pop_top σ q1 (filt f) = Some false) /\ queue_ok n σ q1 /\
    high_score q1 = high_score (pqueue f) /\
    popped ≡ₚ dropped ++ back /\ items (pqueue f') ≡ₚ back ++ items q1 /\
    (back = [] \/ exists t, queue_top q1 = Some t /\ forall x, x ∈ back -> same_score (rscore σ x) (rscore σ t)).
Proof.
  intros Hq Hn HJ HJ0. set (q0 := pqueue f) in *. unfold filter_pop_top. fold q0.
  rewrite (queue_size_ok _ _ _ _ _ _ Hq). cbn [mbind option_bind]. rewrite Nat2Z.id.
  assert (Hstart : popping n σ q0 [] q0 [] as_zero).
  { split; [done|done|done| | | |]; try by intros ? ?%not_elem_of_nil.
    - by intros x y ?%not_elem_of_nil.
    - intros y _. apply zero_least.
    - exists []. split; [done|]. split; [done|]. by intros x y ?%not_elem_of_nil. }
  destruct (pop_loop_ok n σ q0 (filt f) J Hq HJ (length (items q0)) [] q0 [] as_zero Hstart HJ0 (le_n _))
    as (popped&q1&tr&min&->&Hp&HJ1&Hstop). cbn [mbind option_bind fst snd].
  destruct (same_as_top_ok n σ q0 popped q1 tr min Hq Hp) as (b&->&Hb). cbn [mbind option_bind].
  pose proof Hp as [Hq1 Hh1 Hi1 _ _ (lead&Hlead&Hnil&Hlt) _].
  pose proof (Permutation_length Hi1) as Hlen1. rewrite length_app in Hlen1. destruct b.
  - destruct Hb as (t&Ht&Hsame). pose proof (Permutation_length Hlead) as Hlen2. rewrite length_app in Hlen2.
    destruct (queue_insert_all_ok tr n σ q1 Hq1) as (q2&->&Hq2&Hh2&Hi2); [lia| | |].
    + apply Forall_forall. intros x Hx. rewrite Hh1. apply (popping_live n σ q0 popped q1 tr min); [done|done|].
      left. by eapply transact_popped.
    + apply (inequivalent_app_r (representative_edge σ <$> lead)).
      eapply inequivalent_perm; [|exact (queued_inequivalent _ _ _ _ _ _ Hq)].
      unfold queued. by rewrite Hi1, Hlead, !fmap_app, app_assoc.
    + cbn [rbind mbind option_bind fst snd]. exists (mk_filter tr (filt f) q2 (finalized f)), lead, popped, q1, tr.
      split; [done|]. do 2 (split; [done|]). split; [|split_and!; try done; right; by exists t].
      split; cbn [pqueue]; [eapply queue_ok_le; [|exact Hq2]; lia|congruence|by rewrite Hi1, Hlead, Hi2, app_assoc|].
      intros x y Hx Hy. rewrite Hi2 in Hy. apply elem_of_app in Hy as [Hy|Hy]; [by apply Hlt|].
      destruct (lowest_score_ok hash_token hash_span max_equivalents n σ q1 Hq1) as (s&_&Hlow). rewrite Ht in Hlow.
      destruct Hlow as (_&->&Hlow). destruct tr as [|z tr].
      { rewrite (Hnil eq_refl), app_nil_r in Hlead. apply Permutation_nil in Hlead as ->. by apply not_elem_of_nil in Hx. }
      eapply lt_le_trans; [|apply (Hlow y Hy)]. eapply lt_le_trans; [apply (Hlt x z Hx); left|].
      apply Hsame. left.
  - cbn [rbind mbind option_bind fst snd]. exists (mk_filter tr (filt f) q1 (finalized f)), popped, popped, q1, [].
    split; [done|]. do 2 (split; [done|]). rewrite app_nil_r. split; [|split_and!; try done; by left].
    split; cbn [pqueue]; [eapply queue_ok_le; [|exact Hq1]; lia|done|done|done].
Qed.

(** ** Inserting *)

(** What [insert] does, by the answer of the predicate. *)
Lemma filter_insert_edge_unfold n σ e f k : queue_ok n σ (pqueue f) -> finalized f = false ->
  keep_edge σ (pqueue f) e (filt f) = Some k -> n < pq_limit -> edge_ok σ e ->
  1 <= edge_equiv_max max_equivalents (pool_create e) ->
  exists low, lowest_score σ (pqueue f) = Some low /\
    if is_true k.1 then
      exists σ' q1, queue_ok (n + 1) σ' q1 /\ high_score q1 = max_score (high_score (pqueue f)) (total e) /\
        queue_inserted hash_token hash_span max_equivalents σ (pqueue f) e σ' q1 /\
        filter_insert_edge σ e f =
          if score_eqb (total e) low then Some (Ok (k.1, σ', set_queue k.2 q1 f))
          else r ⇐ filter_pop_top σ' (set_queue k.2 q1 f); Some (Ok (k.1, r.1, r.2))
    else filter_insert_edge σ e f = r ⇐ filter_pop_top σ (set_queue k.2 (pqueue f) f); Some (Ok (k.1, r.1, r.2)).
Proof.
  intros Hq Hf Hk Hn He Hm. unfold filter_insert_edge. rewrite Hf, Hk. cbn [mbind option_bind].
  destruct (lowest_score_ok hash_token hash_span max_equivalents n σ _ Hq) as (low&Hlow&_). exists low. split; [done|].
  rewrite Hlow. destruct (is_true k.1); [|done]. cbn [mbind option_bind].
  destruct (queue_insert_edge_ok hash_token hash_span max_equivalents n σ _ e Hq Hn He Hm)
    as (σ'&pos&q1&->&Hq1&Hh1&Hins). cbn [rbind mbind option_bind]. by exists σ', q1.
Qed.

(** An insertion succeeds, and removes only what is worse than all that stays. *)
Lemma filter_insert_edge_ok n σ e f :
  queue_ok n σ (pqueue f) -> finalized f = false -> edge_ok σ e ->
  1 <= edge_equiv_max max_equivalents (pool_create e) ->
  n + 2 + Z.of_nat (length (items (pqueue f))) <= pq_limit ->
  exists t σ' f' q1 dropped, filter_insert_edge σ e f = Some (Ok (t, σ', f')) /\
    (if is_true t then queue_inserted hash_token hash_span max_equivalents σ (pqueue f) e σ' q1
     else σ' = σ /\ q1 = pqueue f) /\
    pruned (n + 2 + Z.of_nat (length (items (pqueue f)))) σ' q1 dropped (pqueue f') /\ finalized f' = false.
Proof.
  intros Hq Hf He Hm Hn. set (m := n + 2 + Z.of_nat (length (items (pqueue f)))) in *.
  destruct (keep_defined hash_token hash_span max_equivalents n σ (pqueue f) e (filt f) Hq) as [k Hk].
  destruct (filter_insert_edge_unfold n σ e f k Hq Hf Hk) as (low&_&Hcase); [lia|done|done|].
  assert (Hpop : forall m1 σ1 q1, queue_ok m1 σ1 q1 -> m1 + Z.of_nat (length (items q1)) <= m ->
    exists f' dropped, filter_pop_top σ1 (set_queue k.2 q1 f) = Some (Ok (σ1, f')) /\
      pruned m σ1 q1 dropped (pqueue f') /\ finalized f' = false).
  { intros m1 σ1 q1 Hq1 Hm1.
    destruct (filter_pop_top_ok m1 σ1 (set_queue k.2 q1 f) (fun _ _ => True)) as (f'&dropped&_&_&_&Hp&_&Hf'&[H1 H2 H3 H4]&_);
      [done|cbn [pqueue set_queue]; lia|done|done|].
    exists f', dropped. split; [done|]. split; [|by rewrite Hf'].
    split; [eapply queue_ok_le; [|exact H1]; done|done|done|done]. }
  destruct (is_true k.1) eqn:Et.
  - destruct Hcase as (σ'&q1&Hq1&_&Hins&->). destruct (score_eqb (total e) low).
    + exists k.1, σ', (set_queue k.2 q1 f), q1, []. split; [done|]. rewrite Et. split; [done|]. split; [|done].
      split; [eapply queue_ok_le; [|exact Hq1]; lia|done|done|by intros x y ?%not_elem_of_nil].
    + assert (length (items q1) <= S (length (items (pqueue f))))%nat as Hlen.
      { destruct Hins as [q1 l _ _ Hi _|q1 l i i' rest _ _ _ _ Hi _ _]; rewrite Hi; cbn [length]; lia. }
      destruct (Hpop (n + 1) σ' q1 Hq1) as (f'&dropped&->&Hp&Hfin); [lia|]. cbn [rbind mbind option_bind].
      exists k.1, σ', f', q1, dropped. rewrite Et. done.
  - rewrite Hcase. destruct (Hpop n σ (pqueue f) Hq) as (f'&dropped&->&Hp&Hfin); [lia|]. cbn [rbind mbind option_bind].
    exists k.1, σ, f', (pqueue f), dropped. rewrite Et. done.
Qed.

(** C23: Whatever the predicate is, an insertion succeeds and removes only edges whose
    score is worse than that of every edge that stays: of the edges of one score
    all are removed or none. *)
Theorem filter_insert_all_or_none n σ e f :
  queue_ok n σ (pqueue f) -> finalized f = false -> edge_ok σ e ->
  1 <= edge_equiv_max max_equivalents (pool_create e) ->
  n + 2 + Z.of_nat (length (items (pqueue f))) <= pq_limit ->
  exists t σ' f' q1 dropped, filter_insert_edge σ e f = Some (Ok (t, σ', f')) /\
    (if is_true t then queue_inserted hash_token hash_span max_equivalents σ (pqueue f) e σ' q1
     else σ' = σ /\ q1 = pqueue f) /\
    queued σ' q1 ≡ₚ dropped ++ queued σ' (pqueue f') /\
    (forall d r, d ∈ dropped -> r ∈ queued σ' (pqueue f') -> score_lt (total d) (total r) = true) /\
    finalized f' = false /\ queue_ok (n + 2 + Z.of_nat (length (items (pqueue f)))) σ' (pqueue f').
Proof.
  intros Hq Hf He Hm Hn.
  destruct (filter_insert_edge_ok n σ e f Hq Hf He Hm Hn) as (t&σ'&f'&q1&dropped&Hins&Hq1&[H1 _ H3 H4]&Hfin).
  exists t, σ', f', q1, (representative_edge σ' <$> dropped). split; [done|]. split; [done|]. unfold queued.
  split; [by rewrite <- fmap_app, <- H3|]. split; [|done].
  intros d r (x&->&Hx)%list_elem_of_fmap (y&->&Hy)%list_elem_of_fmap. by apply H4.
Qed.

End laws.
Section instances.
Context `{!StdAlgorithmLaws (alt_edge score), !InfoLaws info_type, !StrictWeak (score_lt (S := score)),
  !ScoreZeroLaws score}.

(** ** The histogram *)

Implicit Types (h : predicate_edge_filter histogram_predicate) (ss : list score).

Lemma above_perm s ss ss' : ss ≡ₚ ss' -> above s ss = above s ss'.
Proof. intros Hp. unfold above. by rewrite Hp. Qed.

Lemma above_app s ss ss' : above s (ss ++ ss') = above s ss + above s ss'.
Proof. unfold above. rewrite filter_app, length_app. lia. Qed.

Lemma above_cons s x ss : above s (x :: ss) = (if score_lt s x then 1 else 0) + above s ss.
Proof.
  unfold above. rewrite filter_cons. destruct (score_lt s x); [rewrite decide_True by done; cbn [length]; lia|].
  rewrite decide_False by done. lia.
Qed.

Lemma above_bound s ss : 0 <= above s ss <= Z.of_nat (length ss).
Proof.
  induction ss as [|x ss IH]; [done|]. rewrite above_cons. cbn [length]. destruct (score_lt s x); lia.
Qed.

Lemma above_none s ss : (forall x, x ∈ ss -> score_lt s x = false) -> above s ss = 0.
Proof.
  induction ss as [|x ss IH]; intros Hs; [done|]. rewrite above_cons, (Hs x), IH by (try left; intros; apply Hs; by right).
  done.
Qed.

Lemma above_all s ss : (forall x, x ∈ ss -> score_lt s x = true) -> above s ss = Z.of_nat (length ss).
Proof.
  induction ss as [|x ss IH]; intros Hs; [done|]. rewrite above_cons, (Hs x), IH by (try left; intros; apply Hs; by right).
  cbn [length]. lia.
Qed.

Lemma above_le s s' ss : score_lt s s' = false -> above s ss <= above s' ss.
Proof.
  intros Hs. induction ss as [|x ss IH]; [done|]. rewrite !above_cons.
  destruct (score_lt s x) eqn:E; [|destruct (score_lt s' x); lia].
  rewrite (le_lt_trans s' s x Hs E). lia.
Qed.

(** [rs] is [es] without edges that are worse than all of [rs]; at least [k] are
    left when any was dropped. *)
Definition separated (k : Z) es rs : Prop :=
  exists dropped, es ≡ₚ dropped ++ rs /\
    (forall d r, d ∈ dropped -> r ∈ rs -> score_lt (total d) (total r) = true) /\
    (dropped <> [] -> k <= Z.of_nat (length rs)).

(** [rs] is what a histogram of [k] keeps of [es]. *)
Definition cut (k : Z) es rs : Prop :=
  separated k es rs /\ forall r, r ∈ rs -> above (total r) (total <$> rs) < k.

Lemma filter_perm_app {A} (Q : A -> Prop) `{!forall x, Decision (Q x)} (l d r : list A) :
  l ≡ₚ d ++ r -> (forall x, x ∈ d -> ~ Q x) -> (forall x, x ∈ r -> Q x) -> filter Q l ≡ₚ r.
Proof.
  intros -> Hd Hr. rewrite filter_app. assert (filter Q d = []) as ->.
  { induction d as [|x d IH]; [done|]. rewrite filter_cons, decide_False by (apply Hd; left).
    apply IH. intros y Hy. apply Hd. by right. }
  cbn [app]. induction r as [|x r IH]; [done|]. rewrite filter_cons, decide_True by (apply Hr; left).
  f_equiv. apply IH. intros y Hy. apply Hr. by right.
Qed.

Lemma cut_best k es rs : cut k es rs -> rs ≡ₚ best_edges k es.
Proof.
  intros [(dropped&Hp&Hlt&Hk) Hab]. symmetry. unfold best_edges.
  assert (Habove : forall s, above s (total <$> es) = above s (total <$> dropped) + above s (total <$> rs)).
  { intros s. rewrite <- above_app, <- fmap_app. apply above_perm. by rewrite Hp. }
  apply (filter_perm_app _ _ dropped); [done| |].
  - intros x Hx. rewrite Habove. rewrite (above_all (total x) (total <$> rs)).
    + rewrite length_fmap. assert (k <= Z.of_nat (length rs)) by (apply Hk; intros ->; by apply not_elem_of_nil in Hx).
      pose proof (above_bound (total x) (total <$> dropped)). lia.
    + intros s (r&->&Hr)%list_elem_of_fmap. by apply Hlt.
  - intros x Hx. rewrite Habove, above_none; [by apply Hab|].
    intros s (d&->&Hd)%list_elem_of_fmap. apply (sw_asym score_lt). by apply Hlt.
Qed.

Lemma queued_scores σ q : total <$> queued σ q = rscore σ <$> items q.
Proof. unfold queued. by rewrite <- list_fmap_compose. Qed.

(** An element that is not better than [s] does not count. *)
Lemma above_without σ s ls t : t ∈ ls -> score_lt s (rscore σ t) = false ->
  above s (rscore σ <$> ls) < Z.of_nat (length ls).
Proof.
  intros [j Hj]%list_elem_of_lookup Ht. pose proof (delete_Permutation _ _ _ Hj) as Hd.
  rewrite (above_perm s _ (rscore σ <$> t :: delete j ls)) by (by apply fmap_Permutation).
  cbn [fmap list_fmap]. rewrite above_cons, Ht. pose proof (above_bound s (rscore σ <$> delete j ls)) as Hb.
  rewrite length_fmap in Hb. apply Permutation_length in Hd. cbn [length] in Hd. lia.
Qed.

(** [pop_top] keeps [k], and those as good as the last of them. *)
Lemma histogram_pop_top n σ h : queue_ok n σ (pqueue h) -> n + Z.of_nat (length (items (pqueue h))) <= pq_limit ->
  exists h', filter_pop_top σ h = Some (Ok (σ, h')) /\ filt h' = filt h /\ finalized h' = finalized h /\
    queue_ok (n + Z.of_nat (length (items (pqueue h)))) σ (pqueue h') /\
    cut (top_n (filt h)) (queued σ (pqueue h)) (queued σ (pqueue h')).
Proof.
  intros Hq Hn. set (k := top_n (filt h)).
  destruct (filter_pop_top_ok (P := histogram_predicate) n σ h (fun popped q => popped <> [] -> k <= Z.of_nat (length (items q))) Hq Hn)
    as (h'&dropped&popped&q1&back&Hpop&Hfilt&Hfin&[H1 H2 H3 H4]&HJ&Hstop&Hq1&_&Hpd&Hi&Hback).
  - intros popped q q' l Hq' _ _ Hpop _ Hi _. cbn in Hpop. rewrite (histogram_pop_ok _ _ _ _ _ _ _ Hq') in Hpop.
    rewrite Hi in Hpop. cbn [length] in Hpop. fold k in Hpop.
    injection Hpop as Hpop. apply Z.ltb_lt in Hpop. lia.
  - done.
  - exists h'. split; [done|]. split; [done|]. split; [done|]. split; [done|].
    split; [exists (representative_edge σ <$> dropped); unfold queued; split; [by rewrite <- fmap_app, <- H3|split]|].
    + intros d r (x&->&Hx)%list_elem_of_fmap (y&->&Hy)%list_elem_of_fmap. by apply H4.
    + intros Hne. rewrite length_fmap, Hi, length_app. assert (popped <> []); [|specialize (HJ H); lia].
      intros ->. apply Permutation_nil in Hpd. apply app_eq_nil in Hpd as [-> _]. done.
    + intros r Hr. change (total <$> (representative_edge σ <$> items (pqueue h'))) with (total <$> queued σ (pqueue h')).
      rewrite queued_scores. apply list_elem_of_fmap in Hr as (y&->&Hy). fold (rscore σ y).
      rewrite (above_perm _ _ (rscore σ <$> (back ++ items q1))) by by rewrite Hi.
      rewrite fmap_app, above_app.
      destruct Hback as [->|(t&Ht&Hsame)].
      * rewrite Hi in Hy. cbn [app fmap list_fmap] in *. destruct Hstop as [E|Hstop]; [rewrite E in Hy; by apply not_elem_of_nil in Hy|].
        cbn in Hstop. rewrite (histogram_pop_ok _ _ _ _ _ _ _ Hq1) in Hstop. fold k in Hstop. injection Hstop as Hstop.
        apply Z.ltb_ge in Hstop. pose proof (above_without σ (rscore σ y) (items q1) y Hy (sw_irrefl _)).
        assert (above (rscore σ y) [] = 0) as -> by done. lia.
      * destruct (lowest_score_ok hash_token hash_span max_equivalents n σ q1 Hq1) as (s&_&Hlow). rewrite Ht in Hlow.
        destruct Hlow as (Htin&->&Hlow). destruct Hstop as [E|Hstop]; [rewrite E in Htin; by apply not_elem_of_nil in Htin|].
        cbn in Hstop. rewrite (histogram_pop_ok _ _ _ _ _ _ _ Hq1) in Hstop. fold k in Hstop. injection Hstop as Hstop.
        assert (Hyt : score_lt (rscore σ y) (rscore σ t) = false).
        { rewrite Hi in Hy. apply elem_of_app in Hy as [Hy|Hy]; [by apply Hsame|by apply Hlow]. }
        rewrite (above_none _ (rscore σ <$> back)).
        2: { intros x (b&->&Hb)%list_elem_of_fmap. eapply sw_negtrans; [exact Hyt|]. by apply Hsame. }
        apply Z.ltb_ge in Hstop. pose proof (above_without σ (rscore σ y) (items q1) t Htin Hyt). lia.
Qed.

(** ** Runs *)

(** The filter after the edges of [es], no two of which are equivalent; [m]
    insertions into its queue. *)
Lemma inequivalent_app_l (a b : list edge) x y : inequivalent (a ++ b) -> x ∈ a -> y ∈ b -> equal_to x y = false.
Proof.
  induction a as [|z a IH]; intros Hne Hx Hy; [by apply not_elem_of_nil in Hx|].
  cbn [app inequivalent] in Hne. destruct Hne as [Hz Hne]. apply elem_of_cons in Hx as [->|Hx]; [|by apply IH].
  apply Hz, elem_of_app. by right.
Qed.

(** Inserting an edge without an equivalent. *)
Lemma queue_inserted_new σ q e σ' q' es dropped : queue_inserted hash_token hash_span max_equivalents σ q e σ' q' ->
  es ≡ₚ dropped ++ queued σ q -> (forall x, x ∈ es -> equal_to x e = false) ->
  queued σ' q' ≡ₚ e :: queued σ q.
Proof.
  intros Hins Hes Hne. destruct Hins as [q' l _ _ _ Hqd|q' l i i' rest _ _ He _ _ Hqd _]; [done|].
  rewrite (Hne (m_rep i)) in He; [done|]. rewrite Hes, Hqd, elem_of_app. right. left.
Qed.

Definition insertions (es : list edge) : Z := Z.of_nat (length es) * (Z.of_nat (length es) + 1).

(** An invariant of the filter and of the edges inserted that every insertion keeps
    holds after all; [Q] is what is known of an edge and those inserted before it. *)
Lemma filter_insert_edges_ok {P} `{!FilterPredicate (score := score) (info_type := info_type) P}
    (I : store -> list edge -> predicate_edge_filter P -> Prop) (Q : list edge -> edge -> Prop) :
  (forall σ es f, I σ es f -> queue_ok (insertions es) σ (pqueue f)) ->
  (forall σ es e f, I σ es f -> edge_ok σ e -> 1 <= edge_equiv_max max_equivalents (pool_create e) ->
     Q es e -> insertions (es ++ [e]) <= pq_limit ->
     exists t σ' f', filter_insert_edge σ e f = Some (Ok (t, σ', f')) /\ I σ' (es ++ [e]) f' /\
       (σ' = σ \/ exists q1, queue_inserted hash_token hash_span max_equivalents σ (pqueue f) e σ' q1)) ->
  forall es2 es1 σ f, I σ es1 f -> Forall (edge_ok σ) es2 ->
  Forall (fun e => 1 <= edge_equiv_max max_equivalents (pool_create e)) es2 ->
  (forall pre e post, es1 ++ es2 = pre ++ e :: post -> Q pre e) -> insertions (es1 ++ es2) <= pq_limit ->
  exists σ' f', filter_insert_edges σ es2 f = Some (Ok (σ', f')) /\ I σ' (es1 ++ es2) f'.
Proof.
  intros Hinv Hstep es2. induction es2 as [|e es2 IH]; intros es1 σ f Hf Hes Hm Hne Hn; cbn [filter_insert_edges].
  { exists σ, f. by rewrite app_nil_r. }
  apply Forall_cons in Hes as [He Hes]. apply Forall_cons in Hm as [Hme Hm].
  assert (Hassoc : es1 ++ e :: es2 = (es1 ++ [e]) ++ es2) by by rewrite <- app_assoc.
  destruct (Hstep σ es1 e f Hf He Hme) as (t&σ'&f'&->&Hf'&Hσ).
  - by eapply Hne.
  - etrans; [|exact Hn]. unfold insertions. rewrite !length_app. cbn [length]. nia.
  - cbn [rbind mbind option_bind]. rewrite Hassoc in Hne, Hn |- *. apply IH; [done| |done|done|done].
    destruct Hσ as [->|[q1 Hins]]; [done|]. eapply Forall_impl; [exact Hes|]. intros x Hx.
    by apply (inserted_edge_ok hash_token hash_span max_equivalents _ σ _ e σ' q1 x (Hinv σ es1 f Hf) He Hme Hins).
Qed.

Lemma new_filter_ok {P} (p : P) σ : exists f, new_filter p = Some (Ok f) /\ filt f = p /\ finalized f = false /\
  queue_ok 0 σ (pqueue f) /\ queued σ (pqueue f) = [] /\ high_score (pqueue f) = as_zero.
Proof.
  destruct (new_edge_queue_ok hash_token hash_span max_equivalents σ) as (q&Hq&[Hok _ _ Hh]&Hnil).
  unfold new_filter. rewrite Hq. clear Hq. eexists. split; [done|]. cbn [filt finalized pqueue].
  split; [done|]. split; [done|]. split; [exact Hok|]. split; [|exact Hh]. unfold queued. by rewrite Hnil.
Qed.

(** ** Runs with a histogram *)

Record histogram_run (k : Z) σ es h : Prop := {
  hr_ok : queue_ok (insertions es) σ (pqueue h);
  hr_open : finalized h = false;
  hr_size : top_n (filt h) = k;
  hr_cut : cut k es (queued σ (pqueue h))
}.

Lemma length_items σ q : length (items q) = length (queued σ q).
Proof. unfold queued. by rewrite length_fmap. Qed.

Lemma cut_length k es rs : cut k es rs -> (length rs <= length es)%nat.
Proof. intros [(d&Hp&_) _]. rewrite Hp, length_app. lia. Qed.

Lemma insertions_snoc es e : insertions (es ++ [e]) = insertions es + 2 * Z.of_nat (length es) + 2.
Proof. unfold insertions. rewrite length_app. cbn [length]. lia. Qed.

Lemma insertions_le n es e m : n <= insertions es -> (m <= length es)%nat -> n + 2 + Z.of_nat m <= insertions (es ++ [e]).
Proof. intros. rewrite insertions_snoc. lia. Qed.

(** ** Runs with any predicate *)

Section inserted.
Context {P : Type} `{!FilterPredicate (score := score) (info_type := info_type) P}.
Context `{!PredicateSafe hash_token hash_span max_equivalents P}.
Context (σ0 : store) (f0 : predicate_edge_filter P).
Implicit Types f : predicate_edge_filter P.

(** The filter after the edges [es]: its queue has new equivalences only, and what was
    in the store before has not changed. *)
Record inserted es σ f : Prop := {
  in_run : filter_insert_edges σ0 es f0 = Some (Ok (σ, f));
  in_ok : queue_ok (insertions es) σ (pqueue f);
  in_open : finalized f = false;
  in_length : (length (items (pqueue f)) <= length es)%nat;
  in_sub : σ0 ⊆ σ;
  in_fresh x : x ∈ items (pqueue f) -> σ0 !! x = None
}.

Lemma filter_insert_edges_snoc es e σ f σ1 f1 : filter_insert_edges σ es f = Some (Ok (σ1, f1)) ->
  filter_insert_edges σ (es ++ [e]) f = '(_, σ, f) ⇐ filter_insert_edge σ1 e f1; Some (Ok (σ, f)).
Proof.
  revert σ f. induction es as [|x es IH]; intros σ f; cbn [app filter_insert_edges].
  { by intros [= -> ->]. }
  destruct (filter_insert_edge σ x f) as [[[[t σ'] f']|]|]; cbn [rbind mbind option_bind]; [apply IH|done..].
Qed.

(** The filter after [n] insertions of any kind, beside a store that it does not write. *)
Definition insertion_bound (n : nat) : Z := Z.of_nat n * (Z.of_nat n + 1).
Record filter_beside (n : nat) σ f : Prop := {
  fb_ok : queue_ok (insertion_bound n) σ (pqueue f);
  fb_open : finalized f = false;
  fb_length : (length (items (pqueue f)) <= n)%nat;
  fb_sub : σ0 ⊆ σ;
  fb_fresh x : x ∈ items (pqueue f) -> σ0 !! x = None
}.

Lemma filter_beside_step n σ f e : filter_beside n σ f -> edge_ok σ0 e ->
  1 <= edge_equiv_max max_equivalents (pool_create e) -> insertion_bound (S n) <= pq_limit ->
  exists t σ' f', filter_insert_edge σ e f = Some (Ok (t, σ', f')) /\ filter_beside (S n) σ' f'.
Proof.
  intros [Hq Hopen Hlen Hsub Hfresh] He Hm Hn.
  assert (Hstep : insertion_bound n + 2 + Z.of_nat (length (items (pqueue f))) <= insertion_bound (S n)) by (unfold insertion_bound; lia).
  destruct (filter_insert_edge_ok _ σ e f Hq Hopen)
    as (t&σ'&f'&q1&dropped&Hins&Hq1&[H1 _ H3 _]&Hfin); [by eapply edge_ok_subseteq|done|lia|].
  exists t, σ', f'. split; [exact Hins|]. clear Hins.
  assert (Hnew : σ0 ⊆ σ' /\ (length (items q1) <= S n)%nat /\ forall x, x ∈ items q1 -> σ0 !! x = None).
  { destruct (is_true t); [|destruct Hq1 as [-> ->]; split; [done|split; [lia|done]]].
    destruct Hq1 as [q1 x Hx _ Hi1 _|q1 x j j' rest Hx Hj _ _ Hi1 _ _].
    - assert (σ0 !! x = None) as Hx0 by by eapply lookup_weaken_None. split; [by apply insert_subseteq_r|].
      split; [rewrite Hi1; cbn [length]; lia|]. intros y. rewrite Hi1. intros [->|Hy]%elem_of_cons; [done|by apply Hfresh].
    - split; [apply insert_subseteq_r; [by apply Hfresh|done]|]. rewrite Hi1. split; [lia|].
      intros y. rewrite Hi1. apply Hfresh. }
  destruct Hnew as (Hs'&Hl'&Hf'). split; [by eapply queue_ok_le|done| |done|].
  - apply Permutation_length in H3. rewrite length_app in H3. lia.
  - intros x Hx. apply Hf'. rewrite H3. apply elem_of_app. by right.
Qed.

Lemma inserted_step es σ f e : inserted es σ f -> edge_ok σ0 e ->
  1 <= edge_equiv_max max_equivalents (pool_create e) -> insertions (es ++ [e]) <= pq_limit ->
  exists t σ' f', filter_insert_edge σ e f = Some (Ok (t, σ', f')) /\ inserted (es ++ [e]) σ' f'.
Proof.
  intros [Hrun Hq Hopen Hlen Hsub Hfresh] He Hm Hn.
  assert (Hlen1 : length (es ++ [e]) = S (length es)) by (rewrite length_app; cbn; lia).
  assert (Hb : insertions (es ++ [e]) = insertion_bound (S (length es))) by (unfold insertions; by rewrite Hlen1).
  rewrite Hb in Hn.
  destruct (filter_beside_step (length es) σ f e) as (t&σ'&f'&Hins&[H1 H2 H3 H4 H5]); [by split|done..|].
  exists t, σ', f'. split; [done|]. split; [|by rewrite Hb|done|by rewrite Hlen1|done..].
  by rewrite (filter_insert_edges_snoc _ _ _ _ _ _ Hrun), Hins.
Qed.

Lemma filter_beside_new p : new_filter p = Some (Ok f0) -> filter_beside 0 σ0 f0 /\ items (pqueue f0) = [].
Proof.
  intros Hf. destruct (new_filter_ok p σ0) as (f&Hf'&_&Hopen&Hq&Hqd&_).
  rewrite Hf in Hf'. injection Hf' as <-. clear Hf.
  assert (E : items (pqueue f0) = []) by by apply fmap_nil_inv in Hqd.
  split; [|done]. split; [done|done|by rewrite E|done|]. intros x. rewrite E. by intros ?%not_elem_of_nil.
Qed.

Lemma inserted_new p : new_filter p = Some (Ok f0) -> inserted [] σ0 f0.
Proof. intros Hf. destruct (filter_beside_new p Hf) as [[] _]. clear Hf. by split. Qed.

End inserted.

(** A write elsewhere. *)
Lemma filter_beside_write {P} `{!FilterPredicate (score := score) (info_type := info_type) P} σ0 n σ
    (f : predicate_edge_filter P) l i :
  filter_beside σ0 n σ f -> σ !! l = None \/ is_Some (σ0 !! l) -> writes max_equivalents σ l i ->
  filter_beside (<[l := i]> σ0) n (<[l := i]> σ) f.
Proof.
  intros [Hq Hopen Hlen Hsub Hfresh] Hl Hw.
  assert (Hni : l ∉ items (pqueue f)).
  { intros Hin. destruct Hl as [Hl|[j Hj]]; [|by rewrite Hfresh in Hj].
    destruct (queue_live _ _ _ _ _ _ _ Hq Hin) as (j&Hj&_). congruence. }
  destruct (queue_ok_write hash_token hash_span max_equivalents _ σ _ l i Hq Hni Hw) as [Hq' _].
  split; [done|done|done|by apply insert_mono|]. intros x Hx. rewrite lookup_insert_ne by (by intros ->). by apply Hfresh.
Qed.

(** The answer of the histogram. *)
Lemma histogram_answer n σ h e : queue_ok n σ (pqueue h) ->
  exists b low, keep_edge σ (pqueue h) e (filt h) = Some (tri_of_bool b, filt h) /\
    lowest_score σ (pqueue h) = Some low /\
    (queued σ (pqueue h) <> [] -> exists r, r ∈ queued σ (pqueue h) /\ total r = low) /\
    (forall r, r ∈ queued σ (pqueue h) -> score_lt (total r) low = false) /\
    b = (Z.of_nat (length (queued σ (pqueue h))) <? top_n (filt h)) || negb (score_lt (total e) low).
Proof.
  intros Hq. destruct (lowest_score_ok hash_token hash_span max_equivalents n σ _ Hq) as (low&Hlow&Htop).
  cbn. unfold histogram_keep. rewrite (queue_size_ok _ _ _ _ _ _ Hq), Hlow. cbn [mbind option_bind].
  rewrite (length_items σ).
  exists ((Z.of_nat (length (queued σ (pqueue h))) <? top_n (filt h)) || negb (score_lt (total e) low)), low.
  split; [by destruct (_ <? _)|]. split; [done|].
  destruct (queue_top (pqueue h)) as [l|].
  - destruct Htop as (Hl&->&Hall). split; [|split; [|done]].
    + intros _. exists (representative_edge σ l). split; [|done]. apply list_elem_of_fmap. by exists l.
    + intros r (x&->&Hx)%list_elem_of_fmap. by apply Hall.
  - destruct Htop as [E ->]. unfold queued. rewrite E. split; [done|]. split; [by intros r ?%not_elem_of_nil|done].
Qed.

Lemma separated_drop k es rs e : separated k es rs -> k <= Z.of_nat (length rs) ->
  (forall r, r ∈ rs -> score_lt (total e) (total r) = true) -> separated k (es ++ [e]) rs.
Proof.
  intros (d&Hp&Hlt&Hk) Hlen He. exists (e :: d). split; [by rewrite Hp, Permutation_app_comm|].
  split; [|done]. intros x r [->|Hx]%elem_of_cons Hr; [by apply He|by apply Hlt].
Qed.

Lemma separated_add k es rs e : separated k es rs ->
  (k <= Z.of_nat (length rs) -> exists r, r ∈ rs /\ score_lt (total e) (total r) = false) ->
  separated k (es ++ [e]) (e :: rs).
Proof.
  intros (d&Hp&Hlt&Hk) He. exists d. split; [by rewrite Hp, <- app_assoc, (Permutation_app_comm rs)|]. split.
  - intros x r Hx [->|Hr]%elem_of_cons; [|by apply Hlt].
    destruct He as (r&Hr&Her); [apply Hk; intros ->; by apply not_elem_of_nil in Hx|].
    eapply lt_le_trans; [by apply (Hlt x r)|done].
  - intros Hne. specialize (Hk Hne). cbn [length]. lia.
Qed.

Lemma separated_trans k es rs rs' : separated k es rs -> separated k rs rs' -> separated k es rs'.
Proof.
  intros (d&Hp&Hlt&Hk) (d'&Hp'&Hlt'&Hk'). exists (d ++ d'). split; [by rewrite Hp, Hp', app_assoc|]. split.
  - intros x r [Hx|Hx]%elem_of_app Hr; [|by apply Hlt']. apply Hlt; [done|]. rewrite Hp'. apply elem_of_app. by right.
  - intros Hne. destruct d' as [|z d']; [|by apply Hk']. rewrite app_nil_r in Hne.
    cbn [app] in Hp'. rewrite <- (Permutation_length Hp'). by apply Hk.
Qed.

Lemma separated_perm k es rs rs' : rs ≡ₚ rs' -> separated k es rs -> separated k es rs'.
Proof.
  intros Hp (d&Hd&Hlt&Hk). exists d. split; [by rewrite Hd, Hp|]. split; [|by rewrite <- (Permutation_length Hp)].
  intros x r Hx Hr. apply Hlt; [done|by rewrite Hp].
Qed.

(** An edge as good as the lowest one joins it. *)
Lemma cut_tie k rs e low : 1 <= k -> same_score (total e) low ->
  (rs <> [] -> exists r, r ∈ rs /\ total r = low) -> (forall r, r ∈ rs -> score_lt (total r) low = false) ->
  (forall r, r ∈ rs -> above (total r) (total <$> rs) < k) ->
  forall r, r ∈ e :: rs -> above (total r) (total <$> e :: rs) < k.
Proof.
  intros Hk [Hs1 Hs2] Hmin Hall Hab r Hr. cbn [fmap list_fmap]. rewrite above_cons.
  assert (score_lt (total r) (total e) = false) as ->.
  { apply elem_of_cons in Hr as [->|Hr]; [apply sw_irrefl|]. exact (sw_negtrans _ _ _ (Hall r Hr) Hs2). }
  apply elem_of_cons in Hr as [->|Hr]; [|by apply Hab].
  destruct rs as [|r1 rs]; [pose proof (above_bound (total e) []) as Hb; cbn [length fmap list_fmap] in *; lia|].
  destruct Hmin as (r0&Hr0&Htot); [done|]. rewrite <- Htot in Hs1.
  pose proof (above_le _ _ (total <$> r1 :: rs) Hs1). specialize (Hab r0 Hr0). cbn [fmap list_fmap] in *. lia.
Qed.

(** [pop_top] after an insertion. *)
Lemma histogram_prune n k σ es h : queue_ok n σ (pqueue h) -> finalized h = false -> top_n (filt h) = k ->
  separated k es (queued σ (pqueue h)) -> n + Z.of_nat (length (queued σ (pqueue h))) <= insertions es ->
  insertions es <= pq_limit ->
  exists h', filter_pop_top σ h = Some (Ok (σ, h')) /\ histogram_run k σ es h'.
Proof.
  intros Hq Ho Hsize Hsep Hn Hlim. rewrite <- (length_items σ) in Hn.
  destruct (histogram_pop_top n σ h Hq) as (h'&Hpop&Hfilt&Hfin&Hq'&[Hsep' Hab']); [lia|].
  exists h'. split; [done|]. rewrite Hsize in *. split; [by eapply queue_ok_le; [|exact Hq']|congruence|congruence|].
  split; [by eapply separated_trans|done].
Qed.

(** An insertion into a filter with a histogram. *)
Lemma histogram_step k σ es e h : 1 <= k -> histogram_run k σ es h -> edge_ok σ e ->
  1 <= edge_equiv_max max_equivalents (pool_create e) -> (forall x, x ∈ es -> equal_to x e = false) ->
  insertions (es ++ [e]) <= pq_limit ->
  exists t σ' h', filter_insert_edge σ e h = Some (Ok (t, σ', h')) /\ histogram_run k σ' (es ++ [e]) h' /\
    (σ' = σ \/ exists q1, queue_inserted hash_token hash_span max_equivalents σ (pqueue h) e σ' q1).
Proof.
  intros Hk [Hq Hopen Hsize Hcut] He Hm Hne Hn.
  pose proof (cut_length _ _ _ Hcut) as Hlen. pose proof (insertions_snoc es e) as Hsn. pose proof Hcut as [Hsep Hab].
  destruct (histogram_answer _ σ h e Hq) as (b&low&Hkeep&Hlow&Hmin&Hall&Hb). rewrite Hsize in Hb.
  destruct (filter_insert_edge_unfold _ σ e h _ Hq Hopen Hkeep) as (low'&Hlow'&Hcase); [lia|done|done|].
  rewrite Hlow in Hlow'. injection Hlow' as <-. cbn [fst snd] in Hcase.
  destruct b; cbn [tri_of_bool] in Hcase.
  - change (is_true tri_true) with true in Hcase. destruct Hcase as (σ'&q1&Hq1&_&Hins&->).
    assert (Hqd : queued σ' q1 ≡ₚ e :: queued σ (pqueue h)).
    { destruct Hsep as (d&Hp&_). by eapply queue_inserted_new. }
    assert (Hadd : separated k (es ++ [e]) (queued σ' q1)).
    { apply (separated_perm _ _ (e :: queued σ (pqueue h))); [done|]. apply separated_add; [done|]. intros Hfull.
      destruct Hmin as (r&Hr&Htot); [intros E; rewrite E in Hfull; cbn in Hfull; lia|]. exists r. split; [done|].
      rewrite Htot. destruct (score_lt (total e) low); [|done]. cbn in Hb. lia. }
    destruct (score_eqb (total e) low) eqn:Etie.
    + apply same_score_eqb in Etie. exists tri_true, σ', (set_queue (filt h) q1 h). split; [done|]. split; [|right; by exists q1].
      split; [eapply queue_ok_le; [|exact Hq1]; lia|done|done|]. split; [done|]. cbn [pqueue set_queue].
      intros r Hr. rewrite (above_perm _ _ _ (fmap_Permutation total _ _ Hqd)). rewrite Hqd in Hr. by apply (cut_tie k _ e low).
    + destruct (histogram_prune (insertions es + 1) k σ' (es ++ [e]) (set_queue (filt h) q1 h)) as (h'&->&Hrun);
        [done|done|done|done|cbn [pqueue set_queue]; rewrite (Permutation_length Hqd); cbn [length]; lia|done|].
      cbn [rbind mbind option_bind fst snd]. exists tri_true, σ', h'. split; [done|]. split; [done|]. right. by exists q1.
  - change (is_true tri_false) with false in Hcase. cbn beta iota in Hcase.
    symmetry in Hb. apply orb_false_iff in Hb as [Hfull Hworse]. apply Z.ltb_ge in Hfull. apply negb_false_iff in Hworse.
    destruct (histogram_prune (insertions es) k σ (es ++ [e]) (set_queue (filt h) (pqueue h) h)) as (h'&Hpop&Hrun);
      [done|done|done| |cbn [pqueue set_queue]; lia|done|].
    { apply separated_drop; [done|done|]. intros r Hr. eapply lt_le_trans; [exact Hworse|by apply Hall]. }
    rewrite Hcase, Hpop. cbn [rbind mbind option_bind fst snd]. exists tri_false, σ, h'. split; [done|]. split; [done|by left].
Qed.

(** A run with a histogram. *)
Lemma histogram_runs es σ k :
  1 <= k < 2 ^ 32 -> inequivalent es -> Forall (edge_ok σ) es ->
  Forall (fun e => 1 <= edge_equiv_max max_equivalents (pool_create e)) es -> insertions es <= pq_limit ->
  exists f0 σ' f, new_filter (new_histogram k) = Some (Ok f0) /\ filter_insert_edges σ es f0 = Some (Ok (σ', f)) /\
    histogram_run k σ' es f.
Proof.
  intros Hk Hne Hes Hm Hn. destruct (new_filter_ok (new_histogram k : histogram_predicate) σ) as (f0&Hf0&Hfilt&Ho&Hq&Hqd&_).
  exists f0. enough (exists σ' f, filter_insert_edges σ es f0 = Some (Ok (σ', f)) /\ histogram_run k σ' es f)
    as (σ'&f&Hrun) by (exists σ', f; exact (conj Hf0 Hrun)).
  clear Hf0. apply (filter_insert_edges_ok (histogram_run k) (fun es e => forall x, x ∈ es -> equal_to x e = false)) with (es1 := @nil edge);
    [| | |done|done| |done].
  - by intros σ1 es1 f [].
  - intros. by apply histogram_step; try lia.
  - split; [done|done|rewrite Hfilt; cbn; unfold new_histogram; cbn; by rewrite u32_small by lia|].
    rewrite Hqd. split; [|by intros r ?%not_elem_of_nil]. exists []. split; [done|]. split; [by intros x r ?%not_elem_of_nil|done].
  - cbn [app]. intros pre e post -> x Hx. apply (inequivalent_app_l pre (e :: post)); [done|done|left].
Qed.

(** C24: With a histogram of [top_n], when no two of the edges inserted are equivalent, a
    filter keeps exactly the edges that fewer than [top_n] of them are better than: the
    [top_n] best ones, and those with the score of the last of these, in whichever order
    they came.  (Of equivalent edges the queue has one, so that what it keeps then depends
    on the order.) *)
Theorem histogram_filter_keeps_best es σ k :
  1 <= k < 2 ^ 32 -> inequivalent es -> Forall (edge_ok σ) es ->
  Forall (fun e => 1 <= edge_equiv_max max_equivalents (pool_create e)) es -> insertions es <= pq_limit ->
  exists f0 σ' f, new_filter (new_histogram k) = Some (Ok f0) /\ filter_insert_edges σ es f0 = Some (Ok (σ', f)) /\
    queued σ' (pqueue f) ≡ₚ best_edges k es.
Proof.
  intros Hk Hne Hes Hm Hn. destruct (histogram_runs es σ k Hk Hne Hes Hm Hn) as (f0&σ'&f&Hf0&Hins&Hrun).
  exists f0, σ', f. exact (conj Hf0 (conj Hins (cut_best _ _ _ (hr_cut _ _ _ _ Hrun)))).
Qed.

(** ** The beam *)

Lemma best_score_snoc es e : best_score (es ++ [e]) = max_score (best_score es) (total e).
Proof. unfold best_score. by rewrite foldl_app. Qed.

Lemma best_score_upper es e : e ∈ es -> score_lt (best_score es) (total e) = false.
Proof.
  induction es as [|x es IH] using rev_ind; [by intros ?%not_elem_of_nil|]. rewrite best_score_snoc.
  intros [He| ->%list_elem_of_singleton]%elem_of_app; [|apply max_score_r].
  exact (sw_negtrans _ _ _ (max_score_l _ _) (IH He)).
Qed.

Lemma best_score_attained es : es <> [] -> exists e, e ∈ es /\ same_score (total e) (best_score es).
Proof.
  induction es as [|x es IH] using rev_ind; [done|]. intros _. rewrite best_score_snoc.
  unfold max_score. destruct (score_lt (best_score es) (total x)) eqn:E.
  { exists x. split; [apply elem_of_app; right; by apply list_elem_of_singleton|]. split; apply sw_irrefl. }
  destruct es as [|y es]; [|destruct IH as (e&He&Hs); [done|]; exists e; split; [apply elem_of_app; by left|done]].
  exists x. split; [by apply list_elem_of_singleton|]. split; [|exact E]. apply zero_least.
Qed.

(** [pop_top] removes what is below the beam under the highest score. *)
Lemma ratio_pop_top n σ (f : predicate_edge_filter ratio_predicate) : queue_ok n σ (pqueue f) ->
  n + Z.of_nat (length (items (pqueue f))) <= pq_limit ->
  exists f', filter_pop_top σ f = Some (Ok (σ, f')) /\ filt f' = filt f /\ finalized f' = finalized f /\
    queue_ok (n + Z.of_nat (length (items (pqueue f)))) σ (pqueue f') /\
    high_score (pqueue f') = high_score (pqueue f) /\
    queued σ (pqueue f') ≡ₚ
      filter (fun e => score_lt (total e) (score_mul (threshold (filt f)) (high_score (pqueue f))) = false)
        (queued σ (pqueue f)).
Proof.
  intros Hq Hn. set (bound := score_mul (threshold (filt f)) (high_score (pqueue f))).
  assert (Hpop : forall q x xs, queue_ok n σ q -> high_score q = high_score (pqueue f) -> items q = x :: xs ->
    pop_top σ q (filt f) = Some (score_lt (rscore σ x) bound) /\
    forall y, y ∈ items q -> score_lt (rscore σ y) (rscore σ x) = false).
  { intros q x xs Hq1 Hh E. cbn. unfold ratio_pop.
    rewrite (assert_sane_ok _ _ _ _ _ _ Hq1), (highest_score_ok _ _ _ _ _ _ Hq1).
    destruct (lowest_score_ok _ _ _ _ _ _ Hq1) as (s&->&Hs). unfold queue_top, pt_top in Hs. rewrite E in Hs.
    destruct Hs as (_&->&Hall). rewrite E. cbn [mbind option_bind]. rewrite Hh. split; [done|]. exact Hall. }
  destruct (filter_pop_top_ok (P := ratio_predicate) n σ f
      (fun popped _ => forall x, x ∈ popped -> score_lt (rscore σ x) bound = true) Hq Hn)
    as (f'&dropped&popped&q1&back&Hres&Hfilt&Hfin&[H1 H2 H3 H4]&HJ&Hstop&Hq1&Hh1&Hpd&Hi&Hback).
  - intros popped q q' l Hq1 Hh HJ Hp Ht _ x [Hx| ->%list_elem_of_singleton]%elem_of_app; [by apply HJ|].
    unfold queue_top, pt_top in Ht. destruct (items q) as [|y ys] eqn:E; [done|]. injection Ht as ->.
    destruct (Hpop q l ys Hq1 Hh E) as [Hp' _]. rewrite Hp in Hp'. by injection Hp' as <-.
  - by intros x ?%not_elem_of_nil.
  - exists f'. split; [done|]. split; [done|]. split; [done|]. split; [done|]. split; [done|].
    assert (Hlow : forall y, y ∈ items q1 -> score_lt (rscore σ y) bound = false).
    { intros y Hy. destruct (items q1) as [|t ts] eqn:E; [by apply not_elem_of_nil in Hy|].
      destruct (Hpop q1 t ts Hq1 Hh1 E) as [Hp Hall]. destruct Hstop as [|Hstop]; [done|].
      rewrite Hp in Hstop. injection Hstop as Hstop. rewrite E in Hall. exact (sw_negtrans _ _ _ (Hall y Hy) Hstop). }
    assert (back = []) as ->.
    { destruct Hback as [|(t&Ht&Hsame)]; [done|]. destruct back as [|b back]; [done|]. exfalso.
      assert (Hb : score_lt (rscore σ b) bound = true) by (apply HJ; rewrite Hpd; apply elem_of_app; right; left).
      unfold queue_top, pt_top in Ht. destruct (items q1) as [|t' ts]; [done|]. injection Ht as ->.
      destruct (Hsame b ltac:(left)) as [Hs _]. pose proof (sw_negtrans _ _ _ Hs (Hlow t ltac:(left))). congruence. }
    symmetry. apply (filter_perm_app _ _ (representative_edge σ <$> dropped)).
    + unfold queued. by rewrite <- fmap_app, <- H3.
    + intros r (x&->&Hx)%list_elem_of_fmap. fold (rscore σ x). rewrite HJ; [done|]. rewrite Hpd. apply elem_of_app. by left.
    + intros r (x&->&Hx)%list_elem_of_fmap. fold (rscore σ x). apply Hlow. by rewrite Hi in Hx.
Qed.

(** ** What is kept above a bound *)

Lemma inequivalent_NoDup_edges es : inequivalent es -> NoDup es.
Proof.
  induction es as [|e es IH]; cbn [inequivalent]; [constructor|]. intros [He Hes]. constructor; [|by apply IH].
  intros Hin%He. by rewrite equal_to_refl in Hin.
Qed.

Lemma inequivalent_spec es : inequivalent es ->
  forall x y, x ∈ es -> y ∈ es -> equal_to x y = true -> x = y.
Proof.
  induction es as [|e es IH]; cbn [inequivalent]; [by intros _ x y ?%not_elem_of_nil|]. intros [He Hes] x y.
  intros [->|Hx]%elem_of_cons [->|Hy]%elem_of_cons Exy; [done| | |by apply IH].
  - by rewrite He in Exy.
  - apply equal_to_sym in Exy. by rewrite He in Exy.
Qed.

Lemma keeps_above_length b es rs : keeps_above b es rs -> (length rs <= length es)%nat.
Proof.
  intros [Hne Hfrom _ _ _]. apply submseteq_length, NoDup_submseteq; [by apply inequivalent_NoDup_edges|done].
Qed.

(** An edge below the bound changes nothing. *)
Lemma keeps_above_reject b es rs e : keeps_above b es rs -> score_lt (total e) b = true -> keeps_above b (es ++ [e]) rs.
Proof.
  intros [Hne Hfrom Hbest Hin Hco] He. split; [done| | |done|].
  - intros r Hr. apply elem_of_app. left. by apply Hfrom.
  - intros r x Hr [Hx|Hx]%elem_of_app Heq; [by apply Hbest|]. apply list_elem_of_singleton in Hx as ->.
    destruct (score_lt (total r) (total e)) eqn:F; [|done]. pose proof (sw_trans _ _ _ F He) as X.
    by rewrite (Hin r Hr) in X.
  - intros x [Hx|Hx]%elem_of_app Hb; [by apply Hco|]. apply list_elem_of_singleton in Hx as ->. congruence.
Qed.

(** An edge that is not below it joins the queue. *)
Lemma keeps_above_insert n b es σ q e σ' q' : ordered_alike (es ++ [e]) -> keeps_above b es (queued σ q) ->
  score_lt (total e) b = false -> queue_inserted hash_token hash_span max_equivalents σ q e σ' q' ->
  queue_ok n σ' q' -> keeps_above b (es ++ [e]) (queued σ' q').
Proof.
  intros Halike [Hne Hfrom Hbest Hin Hco] He Hins Hq'.
  assert (Hold : forall r, r ∈ queued σ q -> r ∈ es ++ [e]) by (intros r Hr; apply elem_of_app; left; by apply Hfrom).
  assert (Hnew : e ∈ es ++ [e]) by (apply elem_of_app; right; by apply list_elem_of_singleton).
  enough (Hk : exists r0, equal_to r0 e = true /\ (r0 = e \/ r0 ∈ queued σ q) /\ score_lt (total r0) b = false /\
      score_lt (total r0) (total e) = false /\
      (forall x, x ∈ es -> equal_to r0 x = true -> score_lt (total r0) (total x) = false) /\
      (forall r, r ∈ queued σ' q' -> r = r0 \/ r ∈ queued σ q /\ equal_to r e = false) /\
      r0 ∈ queued σ' q' /\ (forall r, r ∈ queued σ q -> r ∈ queued σ' q' \/ equal_to r e = true)).
  { destruct Hk as (r0&H0e&H0&H0b&H0t&H0x&Hfrom'&H0q&Hto). split.
    - by eapply queued_inequivalent.
    - intros r [->|[Hr _]]%Hfrom'; [destruct H0 as [->|]|]; auto.
    - intros r x [->|[Hr Hre]]%Hfrom' [Hx|Hx]%elem_of_app Heq; [by apply H0x| |by apply Hbest|];
        apply list_elem_of_singleton in Hx as ->; [done|congruence].
    - intros r [->|[Hr _]]%Hfrom'; auto.
    - intros x [Hx|Hx]%elem_of_app Hb; [|apply list_elem_of_singleton in Hx as ->; by exists r0].
      destruct (Hco x Hx Hb) as (r&Hr&Hrx). destruct (Hto r Hr) as [|Hre]; [by exists r|].
      exists r0. split; [done|]. apply (equal_to_trans _ e); [done|]. apply (equal_to_trans _ r); [by apply equal_to_sym|done]. }
  destruct Hins as [q' l _ Hno _ Hqd|q' l i i' rest _ _ Heq _ _ Hqd Hqd'].
  - exists e. split; [apply equal_to_refl|]. split; [by left|]. split; [done|]. split; [apply sw_irrefl|]. split; [|split_and!].
    + intros x Hx Hex. destruct (score_lt (total e) (total x)) eqn:F; [|done]. exfalso.
      destruct (score_lt (total x) b) eqn:G; [pose proof (sw_trans _ _ _ F G); congruence|].
      destruct (Hco x Hx G) as (r&Hr&Hrx). pose proof (Hno r Hr) as Hre.
      rewrite (equal_to_trans r x e) in Hre; [done|done|by apply equal_to_sym].
    + intros r. rewrite Hqd. intros [->|Hr]%elem_of_cons; [by left|right]. by split; [|apply Hno].
    + rewrite Hqd. left.
    + intros r Hr. left. rewrite Hqd. by right.
  - assert (Hi : m_rep i ∈ queued σ q) by (rewrite Hqd; left).
    pose proof (inequivalent_perm _ _ Hqd Hne) as [Hrest _].
    pose proof (Halike _ _ (Hold _ Hi) Hnew Heq) as Hio.
    exists (best_edge (m_rep i) [e]). unfold best_edge in *. cbn [foldl] in *.
    assert (Hr : forall r, r ∈ rest -> equal_to r e = false).
    { intros r Hr. destruct (equal_to r e) eqn:E; [|done]. pose proof (Hrest r Hr) as F.
      rewrite (equal_to_trans _ e r) in F; [done|done|by apply equal_to_sym]. }
    assert (Hqs : forall r, r ∈ queued σ q -> r = m_rep i \/ r ∈ rest) by (intros r; rewrite Hqd; apply elem_of_cons).
    assert (Hqs' : forall r r0, queued (<[l := i']> σ) q' ≡ₚ r0 :: rest -> r ∈ queued (<[l := i']> σ) q' ->
        r = r0 \/ r ∈ queued σ q /\ equal_to r e = false).
    { intros r r0 Hp. rewrite Hp. intros [->|Hx]%elem_of_cons; [by left|right]. split; [rewrite Hqd; by right|by apply Hr]. }
    assert (Hto : forall r r0, queued (<[l := i']> σ) q' ≡ₚ r0 :: rest -> r ∈ queued σ q ->
        r ∈ queued (<[l := i']> σ) q' \/ equal_to r e = true).
    { intros r r0 Hp [->|Hx]%Hqs; [by right|left]. rewrite Hp. by right. }
    assert (Hib : forall x, x ∈ es -> equal_to e x = true -> score_lt (total (m_rep i)) (total x) = false).
    { intros x Hx Hex. apply Hbest; [done|done|]. by apply (equal_to_trans _ e). }
    destruct (score_lt (inside (m_rep i)) (inside e)) eqn:F.
    + split; [apply equal_to_refl|]. split; [by left|]. split; [done|]. split; [apply sw_irrefl|].
      split; [|split; [intros r; by apply Hqs'|split; [rewrite Hqd'; left|intros r; by apply (Hto r e)]]].
      intros x Hx Hex. exact (sw_negtrans _ _ _ (sw_asym score_lt _ _ Hio) (Hib x Hx Hex)).
    + split; [done|]. split; [by right|]. split; [by apply Hin|]. split; [congruence|].
      split; [|split; [intros r; by apply Hqs'|split; [rewrite Hqd'; left|intros r; by apply (Hto r (m_rep i))]]].
      intros x Hx Hex. by apply Hbest.
Qed.

(** The bound rises, and what is below it is dropped. *)
Lemma keeps_above_raise b b' es rs rs' : keeps_above b es rs -> score_lt b' b = false ->
  rs' ≡ₚ filter (fun r => score_lt (total r) b' = false) rs -> inequivalent rs' -> keeps_above b' es rs'.
Proof.
  intros [_ Hfrom Hbest _ Hco] Hb Hp Hne'.
  assert (Hrs : forall r, r ∈ rs' <-> score_lt (total r) b' = false /\ r ∈ rs) by (intros r; by rewrite Hp, list_elem_of_filter).
  split; [done| | | |].
  - intros r [_ Hr]%Hrs. by apply Hfrom.
  - intros r e [_ Hr]%Hrs. by apply Hbest.
  - by intros r [Hr _]%Hrs.
  - intros e He Heb. destruct (Hco e He) as (r&Hr&Hre); [exact (sw_negtrans _ _ _ Heb Hb)|].
    exists r. split; [|done]. apply Hrs. split; [|done]. exact (sw_negtrans _ _ _ (Hbest r e Hr He Hre) Heb).
Qed.

Lemma keeps_above_perm b es es' rs : es ≡ₚ es' -> keeps_above b es rs -> keeps_above b es' rs.
Proof.
  intros Hp [H1 H2 H3 H4 H5]. split; [done|by setoid_rewrite <- Hp|by setoid_rewrite <- Hp|done|by setoid_rewrite <- Hp].
Qed.

(** When no two edges are equivalent all that are not below the bound are kept. *)
Lemma keeps_above_all b es rs : inequivalent es -> keeps_above b es rs ->
  rs ≡ₚ filter (fun e => score_lt (total e) b = false) es.
Proof.
  intros Hes [Hne Hfrom _ Hin Hco]. pose proof (inequivalent_spec es Hes) as Huniq.
  apply NoDup_Permutation; [by apply inequivalent_NoDup_edges|by apply NoDup_filter, inequivalent_NoDup_edges|].
  intros e. rewrite list_elem_of_filter. split; [intros He; auto|]. intros [Heb He].
  destruct (Hco e He Heb) as (r&Hr&Hre). by rewrite <- (Huniq r e (Hfrom r Hr) He Hre).
Qed.

Lemma ordered_alike_sub es es' : (forall e, e ∈ es -> e ∈ es') -> ordered_alike es' -> ordered_alike es.
Proof. intros Hs H e e' He He'. apply H; auto. Qed.

Lemma inequivalent_alike es : inequivalent es -> ordered_alike es.
Proof.
  intros Hne e e' He He' Heq. rewrite (inequivalent_spec es Hne e e' He He' Heq). by rewrite !sw_irrefl.
Qed.

Record ratio_run (thr : score) σ es (f : predicate_edge_filter ratio_predicate) : Prop := {
  rr_ok : queue_ok (insertions es) σ (pqueue f);
  rr_open : finalized f = false;
  rr_threshold : threshold (filt f) = thr;
  rr_high : high_score (pqueue f) = best_score es;
  rr_beam : keeps_beam thr es (queued σ (pqueue f))
}.

Lemma ratio_highest thr σ es f `{!Beam thr} : ratio_run thr σ es f -> highest_score (pqueue f) = Some (best_score es).
Proof.
  intros [Hq _ _ Hh Hb]. rewrite (highest_score_ok _ _ _ _ _ _ Hq), <- Hh. destruct (items (pqueue f)) eqn:E; [|done].
  rewrite Hh. destruct es as [|e es]; [done|]. destruct (best_score_attained (e :: es)) as (x&Hx&Hs); [done|].
  destruct (ka_complete _ _ _ Hb x Hx) as (r&Hr&_); [eapply sw_negtrans; [apply Hs|apply beam_le]|].
  unfold queued in Hr. rewrite E in Hr. by apply not_elem_of_nil in Hr.
Qed.

(** The bound does not fall. *)
Lemma beam_rises thr es e `{!Beam thr} :
  score_lt (score_mul thr (best_score (es ++ [e]))) (score_mul thr (best_score es)) = false.
Proof. apply beam_mono. rewrite best_score_snoc. apply max_score_l. Qed.

(** An edge below the beam, or as good as an edge of the queue, is not the best. *)
Lemma best_score_same es e s : score_lt (best_score es) s = false -> score_lt s (total e) = false ->
  best_score (es ++ [e]) = best_score es.
Proof.
  intros H1 H2. rewrite best_score_snoc. unfold max_score. by rewrite (sw_negtrans _ _ _ H1 H2).
Qed.

(** [pop_top] after an insertion. *)
Lemma ratio_prune thr n σ es e (f : predicate_edge_filter ratio_predicate) `{!Beam thr} :
  queue_ok n σ (pqueue f) -> finalized f = false -> threshold (filt f) = thr ->
  high_score (pqueue f) = best_score (es ++ [e]) ->
  keeps_above (score_mul thr (best_score es)) (es ++ [e]) (queued σ (pqueue f)) ->
  n + Z.of_nat (length (queued σ (pqueue f))) <= insertions (es ++ [e]) -> insertions (es ++ [e]) <= pq_limit ->
  exists f', filter_pop_top σ f = Some (Ok (σ, f')) /\ ratio_run thr σ (es ++ [e]) f'.
Proof.
  intros Hq Hopen Hthr Hh Hk Hn Hlim. rewrite <- (length_items σ) in Hn.
  destruct (ratio_pop_top n σ f Hq) as (f'&Hpop&Hfilt&Hfin&Hq'&Hh'&Hqd'); [lia|].
  exists f'. split; [done|]. split; [by eapply queue_ok_le|congruence|congruence|congruence|].
  rewrite Hthr, Hh in Hqd'. eapply keeps_above_raise; [exact Hk|apply beam_rises; apply _|exact Hqd'|by eapply queued_inequivalent].
Qed.

Lemma ratio_step thr σ es e f `{!Beam thr} : ratio_run thr σ es f -> edge_ok σ e ->
  1 <= edge_equiv_max max_equivalents (pool_create e) -> ordered_alike (es ++ [e]) ->
  insertions (es ++ [e]) <= pq_limit ->
  exists t σ' f', filter_insert_edge σ e f = Some (Ok (t, σ', f')) /\ ratio_run thr σ' (es ++ [e]) f' /\
    (σ' = σ \/ exists q1, queue_inserted hash_token hash_span max_equivalents σ (pqueue f) e σ' q1).
Proof.
  intros Hrun He Hm Halike Hn. pose proof (ratio_highest thr σ es f Hrun) as Hhigh. destruct Hrun as [Hq Hopen Hthr Hh Hb].
  pose proof (insertions_snoc es e) as Hsn. pose proof (keeps_above_length _ _ _ Hb) as Hlen.
  assert (Hkeep : keep_edge σ (pqueue f) e (filt f) =
    Some (tri_of_bool (negb (score_lt (total e) (score_mul thr (best_score es)))), filt f)).
  { cbn. unfold ratio_keep. by rewrite Hhigh, Hthr. }
  destruct (filter_insert_edge_unfold _ σ e f _ Hq Hopen Hkeep) as (low&Hlow&Hcase); [lia|done|done|]. cbn [fst snd] in Hcase.
  destruct (score_lt (total e) (score_mul thr (best_score es))) eqn:Ee; cbn [negb tri_of_bool] in Hcase.
  - change (is_true tri_false) with false in Hcase. cbn beta iota in Hcase.
    assert (Hbest : best_score (es ++ [e]) = best_score es).
    { apply (best_score_same _ _ _ (beam_le (best_score es))). by apply sw_asym. }
    destruct (ratio_prune thr (insertions es) σ es e (set_queue (filt f) (pqueue f) f)) as (f'&Hpop&Hrun');
      [done|done|done|by rewrite Hbest|by apply keeps_above_reject|cbn [pqueue set_queue]; lia|done|].
    rewrite Hcase, Hpop. cbn [rbind mbind option_bind fst snd]. exists tri_false, σ, f'. split; [done|]. split; [done|by left].
  - change (is_true tri_true) with true in Hcase. destruct Hcase as (σ'&q1&Hq1&Hh1&Hins&->).
    pose proof (keeps_above_insert _ _ es σ _ e σ' q1 Halike Hb Ee Hins Hq1) as Hk.
    assert (Hlen1 : (length (queued σ' q1) <= S (length (queued σ (pqueue f))))%nat).
    { destruct Hins as [q1 l _ _ _ Hqd|q1 l i i' rest _ _ _ _ _ Hqd Hqd']; [rewrite Hqd|rewrite Hqd', Hqd]; cbn [length]; lia. }
    rewrite Hh, <- best_score_snoc in Hh1. destruct (score_eqb (total e) low) eqn:Etie.
    + exists tri_true, σ', (set_queue (filt f) q1 f). split; [done|]. split; [|right; by exists q1].
      split; [eapply queue_ok_le; [|exact Hq1]; lia|done|done|done|]. cbn [pqueue set_queue].
      unfold keeps_beam. rewrite (best_score_same es e low); [done| |by apply same_score_eqb in Etie as [_ ?]].
      destruct (lowest_score_ok hash_token hash_span max_equivalents _ _ _ Hq) as (low'&Hlow'&Htop).
      rewrite Hlow in Hlow'. injection Hlow' as <-.
      destruct (queue_top (pqueue f)) as [l|]; [destruct Htop as (Hl&->&_)|destruct Htop as [_ ->]; apply zero_least].
      rewrite <- Hh. by eapply queue_high.
    + destruct (ratio_prune thr (insertions es + 1) σ' es e (set_queue (filt f) q1 f)) as (f'&->&Hrun');
        [done|done|done|done|done|cbn [pqueue set_queue]; lia|done|].
      cbn [rbind mbind option_bind fst snd]. exists tri_true, σ', f'. split; [done|]. split; [done|right; by exists q1].
Qed.

(** A run with a beam, after the edges of [es1]. *)
Lemma ratio_runs thr es2 es1 σ f `{!Beam thr} : ratio_run thr σ es1 f -> Forall (edge_ok σ) es2 ->
  Forall (fun e => 1 <= edge_equiv_max max_equivalents (pool_create e)) es2 ->
  ordered_alike (es1 ++ es2) -> insertions (es1 ++ es2) <= pq_limit ->
  exists σ' f', filter_insert_edges σ es2 f = Some (Ok (σ', f')) /\ ratio_run thr σ' (es1 ++ es2) f'.
Proof.
  intros Hrun Hes Hm Halike. apply (filter_insert_edges_ok (ratio_run thr) (fun es e => ordered_alike (es ++ [e])));
    [by intros ??? []|intros; by apply ratio_step|done|done|done|].
  intros pre e post E. eapply ordered_alike_sub; [|exact Halike]. rewrite E. intros x.
  rewrite !elem_of_app, !elem_of_cons, elem_of_nil. tauto.
Qed.

Lemma ratio_run_new thr p σ : new_ratio thr = Some p ->
  exists f0, new_filter p = Some (Ok f0) /\ ratio_run thr σ [] f0.
Proof.
  intros Hp. destruct (new_filter_ok p σ) as (f0&Hf0&Hfilt&Ho&Hq&Hqd&Hh). exists f0. split; [exact Hf0|]. clear Hf0.
  split; [done|done| |done|].
  - rewrite Hfilt. unfold new_ratio in Hp. destruct (assert_true _); [|done]. by injection Hp as <-.
  - rewrite Hqd. split; [done|by intros r ?%not_elem_of_nil|by intros r e ?%not_elem_of_nil|by intros r ?%not_elem_of_nil|by intros e ?%not_elem_of_nil].
Qed.

(** The answer of [insert] is that of the predicate. *)
Lemma filter_insert_answer {P} `{!FilterPredicate (score := score) (info_type := info_type) P} σ e
    (f : predicate_edge_filter P) t σ' f' : filter_insert_edge σ e f = Some (Ok (t, σ', f')) ->
  exists k, keep_edge σ (pqueue f) e (filt f) = Some k /\ t = k.1.
Proof.
  unfold filter_insert_edge. destruct (finalized f); [done|].
  destruct (keep_edge σ (pqueue f) e (filt f)) as [k|]; [|done]. intros Hins. exists k. split; [done|].
  cbn [mbind option_bind] in Hins. destruct (is_true k.1).
  - destruct (lowest_score σ (pqueue f)); [|done]. cbn [mbind option_bind] in Hins.
    destruct (queue_insert_edge σ e (pqueue f)) as [[[[σ1 pos] q]|]|]; cbn [rbind mbind option_bind] in Hins; try done.
    destruct (score_eqb _ _); [congruence|].
    destruct (filter_pop_top _ _) as [[r|]|]; cbn [rbind mbind option_bind] in Hins; congruence.
  - destruct (filter_pop_top _ _) as [[r|]|]; cbn [rbind mbind option_bind] in Hins; congruence.
Qed.

(** An edge that is answered with [false] is below the beam. *)
Lemma ratio_rejected thr σ es e f σ' f' `{!Beam thr} : ratio_run thr σ es f ->
  filter_insert_edge σ e f = Some (Ok (tri_false, σ', f')) ->
  score_lt (total e) (score_mul thr (best_score es)) = true.
Proof.
  intros Hrun (k&Hk&Ht)%filter_insert_answer. pose proof (ratio_highest thr σ es f Hrun) as Hhigh.
  cbn in Hk. unfold ratio_keep in Hk. rewrite Hhigh, (rr_threshold _ _ _ _ Hrun) in Hk. cbn in Hk.
  injection Hk as <-. cbn in Ht. by destruct (score_lt _ _).
Qed.

(** What is below the beam of the edges before it does not matter. *)
Lemma keeps_beam_low thr es rest rs `{!Beam thr} : keeps_beam thr es rs ->
  (forall r, r ∈ rest -> score_lt (total r) (score_mul thr (best_score es)) = true) -> keeps_beam thr (es ++ rest) rs.
Proof.
  unfold keeps_beam. intros Hk Hlow.
  enough (best_score (es ++ rest) = best_score es /\ keeps_above (score_mul thr (best_score es)) (es ++ rest) rs) as [-> ?] by done.
  induction rest as [|r rest IH] using rev_ind; [by rewrite app_nil_r|].
  destruct IH as [Hb Hw]; [intros x Hx; apply Hlow, elem_of_app; by left|].
  assert (Hr : score_lt (total r) (score_mul thr (best_score es)) = true).
  { apply Hlow, elem_of_app. right. by apply list_elem_of_singleton. }
  rewrite app_assoc. split; [|by apply keeps_above_reject].
  rewrite (best_score_same _ _ (score_mul thr (best_score es))); [done|rewrite Hb; apply beam_le|by apply sw_asym].
Qed.

(** The beam does not depend on the order of the edges. *)
Lemma best_score_perm es es' : es ≡ₚ es' -> score_lt (best_score es) (best_score es') = false.
Proof.
  intros Hp. destruct es' as [|e' es']; [apply zero_least|].
  destruct (best_score_attained (e' :: es')) as (e&He&Hs); [done|].
  rewrite <- Hp in He. exact (sw_negtrans _ _ _ (best_score_upper _ _ He) (proj1 Hs)).
Qed.

Lemma keeps_beam_perm thr es es' rs `{!Beam thr} : es ≡ₚ es' -> keeps_beam thr es rs -> keeps_beam thr es' rs.
Proof.
  intros Hp [H1 H2 H3 H4 H5]. apply (keeps_above_perm _ es); [done|]. split; [done..| |].
  - intros r Hr. eapply sw_negtrans; [by apply H4|]. by apply beam_mono, best_score_perm.
  - intros e He Hb. apply H5; [done|]. eapply sw_negtrans; [exact Hb|]. by apply beam_mono, best_score_perm.
Qed.

Lemma keeps_beam_all thr es rs : inequivalent es -> keeps_beam thr es rs -> rs ≡ₚ within_beam thr es.
Proof. apply keeps_above_all. Qed.

(** Two filters that keep the beam of the same edges have equivalent representatives of the
    same scores. *)
Definition same_classes (rs rs' : list edge) : Prop :=
  forall r, r ∈ rs -> exists r', r' ∈ rs' /\ equal_to r r' = true /\ same_score (total r) (total r').

Lemma keeps_beam_same thr es rs rs' : keeps_beam thr es rs -> keeps_beam thr es rs' -> same_classes rs rs'.
Proof.
  intros [_ F1 B1 I1 C1] [_ F2 B2 I2 C2] r Hr. destruct (C2 r (F1 r Hr) (I1 r Hr)) as (r'&Hr'&Heq).
  exists r'. split; [done|]. pose proof (equal_to_sym _ _ Heq) as Heq'. split; [done|]. split; eauto.
Qed.

(** C25: With a beam a filter keeps, in whichever order the edges come, one representative
    for each class of equivalent edges that has an edge whose score is not below the
    threshold times the best score of all edges inserted, with the best score of its class,
    and nothing else: without equivalent edges, exactly the edges within the beam.
    Equivalent edges are supposed to have their totals ordered as their inside scores,
    since they have the same heuristic. *)
Theorem ratio_filter_keeps_beam es σ thr p `{!Beam thr} :
  new_ratio thr = Some p -> ordered_alike es -> Forall (edge_ok σ) es ->
  Forall (fun e => 1 <= edge_equiv_max max_equivalents (pool_create e)) es -> insertions es <= pq_limit ->
  exists f0 σ' f, new_filter p = Some (Ok f0) /\ filter_insert_edges σ es f0 = Some (Ok (σ', f)) /\
    keeps_beam thr es (queued σ' (pqueue f)) /\ highest_score (pqueue f) = Some (best_score es) /\
    (inequivalent es -> queued σ' (pqueue f) ≡ₚ within_beam thr es).
Proof.
  intros Hp Hne Hes Hm Hn. destruct (ratio_run_new thr p σ Hp) as (f0&Hf0&Hrun0). exists f0.
  destruct (ratio_runs thr es [] σ f0 Hrun0 Hes Hm Hne Hn) as (σ'&f&Hins&Hrun). exists σ', f.
  pose proof (rr_beam _ _ _ _ Hrun) as Hk.
  exact (conj Hf0 (conj Hins (conj Hk (conj (ratio_highest _ _ _ _ Hrun) (fun Hi => keeps_beam_all thr es _ Hi Hk))))).
Qed.

End instances.
End filter.

(** * Examples *)

#[local] Instance sample_combine : HashCombine := Z.add.
Abbreviation sample_filter_edges es := (filter_insert_edges (score := option Z) (info_type := Z)
  typ_and_idx sample_hash_span 4 ∅ es).

(** Scores 5, 8, 5 and 2. *)
Definition scored_leaves : list (edge (option Z) Z) := leaves [(1, 5, 7); (2, 8, 9); (3, 5, 4); (4, 2, 6)].

Lemma scored_leaves_inequivalent : inequivalent scored_leaves.
Proof.
  assert (Hall : forall r rs, forallb (fun r' => negb (equal_to r r')) rs = true -> forall r', r' ∈ rs -> equal_to (score := option Z) (info_type := Z) r r' = false).
  { intros r rs Hf r' Hr'. rewrite forallb_forall in Hf. apply list_elem_of_In, Hf in Hr'. by apply negb_true_iff in Hr'. }
  split; [by apply Hall|]. split; [by apply Hall|]. split; [by apply Hall|]. split; [by apply Hall|done].
Qed.

Lemma histogram_filter_keeps_best_witness :
  exists f0 σ' f, new_filter (new_histogram 2) = Some (Ok f0) /\
    sample_filter_edges scored_leaves f0 = Some (Ok (σ', f)) /\
    queued σ' (pqueue f) ≡ₚ leaves [(1, 5, 7); (2, 8, 9); (3, 5, 4)].
Proof.
  assert (E : best_edges 2 scored_leaves = leaves [(1, 5, 7); (2, 8, 9); (3, 5, 4)]) by (vm_compute; reflexivity).
  rewrite <- E. apply (histogram_filter_keeps_best typ_and_idx sample_hash_span 4 scored_leaves ∅ 2).
  - lia.
  - exact scored_leaves_inequivalent.
  - apply leaves_ok.
  - apply leaves_max.
  - vm_compute. discriminate.
Defined.

#[export] Instance log_beam x : x <= 0 -> Beam (Some x : option Z).
Proof.
  intros Hx. split; cbn.
  - intros [a|] [b|]; cbn; lia.
  - intros [a|]; cbn; lia.
Qed.

Lemma leaves_alike xs : ordered_alike (leaves xs).
Proof.
  assert (Hl : forall e, e ∈ leaves xs -> total e = inside e).
  { intros e (x&->&_)%list_elem_of_fmap. done. }
  intros e e' He He' _. by rewrite !Hl.
Qed.

(** Two of the edges are equivalent, that of score 5 and that of score 6. *)
Definition recombined_leaves : list (edge (option Z) Z) := leaves [(1, 5, 7); (2, 8, 9); (3, 6, 7); (4, 2, 6)].

Lemma ratio_filter_keeps_beam_witness :
  exists f0 σ' f, new_filter (mk_ratio (Some (-3)) None) = Some (Ok f0) /\
    sample_filter_edges recombined_leaves f0 = Some (Ok (σ', f)) /\
    keeps_beam (Some (-3)) recombined_leaves (queued σ' (pqueue f)) /\ highest_score (pqueue f) = Some (Some 8).
Proof.
  assert (B : best_score recombined_leaves = Some 8) by (vm_compute; reflexivity).
  rewrite <- B. pose proof (log_beam (-3) ltac:(lia)) as Hbeam.
  destruct (ratio_filter_keeps_beam typ_and_idx sample_hash_span 4 recombined_leaves ∅ (Some (-3)) (mk_ratio (Some (-3)) None))
    as (f0&σ&f&H1&H2&H3&H4&_).
  - reflexivity.
  - apply leaves_alike.
  - apply leaves_ok.
  - apply leaves_max.
  - vm_compute. discriminate.
  - exists f0, σ, f. exact (conj H1 (conj H2 (conj H3 H4))).
Defined.

(** One more edge, of score 6: the two of score 5 go. *)
Lemma filter_insert_all_or_none_witness :
  exists f0 σ f, new_filter (new_histogram 2) = Some (Ok f0) /\
    sample_filter_edges scored_leaves f0 = Some (Ok (σ, f)) /\
    exists t σ' f' q1 dropped,
      filter_insert_edge typ_and_idx sample_hash_span 4 σ (leaf 5 6 1) f = Some (Ok (t, σ', f')) /\
      (if is_true t then queue_inserted typ_and_idx sample_hash_span 4 σ (pqueue f) (leaf 5 6 1) σ' q1
       else σ' = σ /\ q1 = pqueue f) /\
      queued σ' q1 ≡ₚ dropped ++ queued σ' (pqueue f') /\
      (forall d r, d ∈ dropped -> r ∈ queued σ' (pqueue f') -> score_lt (total d) (total r) = true) /\
      finalized f' = false /\
      queue_ok typ_and_idx sample_hash_span 4 (20 + 2 + Z.of_nat (length (priority_heap (ptable (pqueue f))))) σ' (pqueue f').
Proof.
  destruct (histogram_runs typ_and_idx sample_hash_span 4 scored_leaves ∅ 2) as (f0&σ&f&H1&H2&[H3 H4 H5 H6]).
  - lia.
  - exact scored_leaves_inequivalent.
  - apply leaves_ok.
  - apply leaves_max.
  - vm_compute. discriminate.
  - exists f0, σ, f. split; [exact H1|]. split; [exact H2|]. clear H1 H2.
    apply (filter_insert_all_or_none typ_and_idx sample_hash_span 4 20 σ (leaf 5 6 1) f H3 H4).
    + exact (Forall_inv (leaves_ok σ [(5, 6, 1)])).
    + exact (Forall_inv (leaves_max [(5, 6, 1)])).
    + rewrite (length_items σ). pose proof (cut_length _ _ _ H6) as Hlen.
      assert (length scored_leaves = 4%nat) as E by reflexivity. unfold pq_limit. lia.
Defined.

(** Scores 10, 20, 30, 40 and 50, then another edge equivalent to the second one,
    then 60, 70 and 80. *)
Definition reinserted_leaves : list (edge (option Z) Z) :=
  leaves [(1, 10, 1); (2, 20, 2); (3, 30, 3); (4, 40, 4); (5, 50, 5); (9, 15, 2); (6, 60, 6); (7, 70, 7); (8, 80, 8)].

(** A [cell_edge_filter] does not keep the best edges: here the span keeps five
    edges and the cells keep all, yet of edges with the scores 10 to 80 the filter
    drops 40 and keeps 30.  Inserting an edge that has an equivalent takes the
    equivalent out of the span's queue first, and erasing inside the heap breaks
    it. *)
Example cell_filter_drops_better :
  match new_cell_filter (new_histogram 5) mk_pass_thru with
  | Some (Ok c0) =>
      match cell_filter_insert_edges typ_and_idx sample_hash_span 4 ∅ reinserted_leaves c0 with
      | Some (Ok (σ, c)) => Some (total <$> queued σ (span_queue c))
      | _ => None
      end
  | _ => None
  end = Some [Some 50; Some 30; Some 70; Some 60; Some 80].
Proof. vm_compute. reflexivity. Qed.

(** Without the equivalent edge it keeps the best five. *)
Example cell_filter_keeps_best :
  match new_cell_filter (new_histogram 5) mk_pass_thru with
  | Some (Ok c0) =>
      match cell_filter_insert_edges typ_and_idx sample_hash_span 4 ∅
              (filter (fun e => rule_id e <> 9) reinserted_leaves) c0 with
      | Some (Ok (σ, c)) => Some (total <$> queued σ (span_queue c))
      | _ => None
      end
  | _ => None
  end = Some [Some 40; Some 50; Some 60; Some 70; Some 80].
Proof. vm_compute. reflexivity. Qed.

(** Of two edges with the same score a cell with a histogram of one keeps the one
    inserted last: unlike [predicate_edge_filter] it separates edges of one score. *)
Example cell_filter_splits_ties :
  match new_cell_filter mk_pass_thru (new_histogram 1) with
  | Some (Ok c0) =>
      match cell_filter_insert_edges typ_and_idx sample_hash_span 4 ∅ (leaves [(1, 5, 7); (2, 5, 9)]) c0 with
      | Some (Ok (σ, c)) => Some (queued σ (span_queue c))
      | _ => None
      end
  | _ => None
  end = Some [leaf 2 5 9].
Proof. vm_compute. reflexivity. Qed.
