(* ===== verification/Chart.v ===== *)
(** The chart with its default policies: [unordered_cell], [unordered_span] and
    [basic_chart] (src/sbmt_decoder/include/sbmt/chart/unordered_cell.hpp,
    unordered_span.hpp, chart.hpp and their impl/*.ipp).

    A cell holds the equivalences of one span and root, a span the cells by root, the
    chart the spans.  Equivalences are shared objects: the chart holds their
    locations in the store of [Edge].  The hashed containers of
    boost::multi_index are lists without order; their lookup is by equality of
    the key, which the representative of an equivalence is. *)
From S2P Require Import Prelude Span SpanGen TokenStorage Token Edge EdgeEquivalence.
Open Scope Z_scope.

Section chart.
Context {score info_type : Type} `{!ScoreOps score, !InfoOps info_type}.
Abbreviation edge := (edge score info_type).
Abbreviation impl := (edge_equivalence_impl score info_type).
Abbreviation store := (equiv_store score info_type).
Context `{!StdAlgorithms (alt_edge score), !HashCombine}.
Context (hash_token : indexed_token -> Z) (hash_span : span_t -> Z) (max_equivalents : Z).
Implicit Types (σ : store) (e : edge) (i : impl).

Abbreviation insert_edge := (insert_edge hash_token hash_span max_equivalents).
Abbreviation merge := (merge hash_token hash_span max_equivalents).

(** * Cells *)

Record unordered_cell := mk_cell {
  edge_container : list positive;
  best_scr : score
}.
Implicit Types c : unordered_cell.

(** [std::max] *)
Definition score_max (a b : score) : score := if score_lt a b then b else a.

(** [edge_container.find(e)] *)
Fixpoint find_equiv σ e (ls : list positive) : option (option positive) :=
  match ls with
  | [] => Some None
  | l :: ls => r ← representative σ (Some l);
               if equal_to r e then Some (Some l) else find_equiv σ e ls
  end.

Definition new_cell σ e : store * unordered_cell :=
  let '(l, σ) := allocate σ (pool_create e) in (σ, mk_cell [l] (total e)).
Definition new_cell_equiv σ (eq : positive) : option unordered_cell :=
  r ← representative σ (Some eq); Some (mk_cell [eq] (total r)).

Definition cell_span σ c : option span_t :=
  l ← head (edge_container c); q ← σ !! l; Some (spn (m_rep q)).
Definition cell_root σ c : option indexed_token :=
  l ← head (edge_container c); r ← representative σ (Some l); Some (rt r).
Definition cell_best_score c : score := best_scr c.
Definition cell_find σ e c : option (option positive) := find_equiv σ e (edge_container c).
Definition cell_size c : Z := Z.of_nat (length (edge_container c)).

Definition cell_insert_edge σ e c : option (store * unordered_cell) :=
  s ← cell_span σ c;
  t ← cell_root σ c;
  assert_true (span_eqb (spn e) s && indexed_equal (rt e) t) ;;
  pos ← find_equiv σ e (edge_container c);
  let best := score_max (best_scr c) (total e) in
  match pos with
  | None => let '(l, σ) := allocate σ (pool_create e) in
            Some (σ, mk_cell (l :: edge_container c) best)
  | Some l => q ← σ !! l;
              q ← insert_edge σ e q;
              Some (<[l := q]> σ, mk_cell (edge_container c) best)
  end.

(** Inserting an equivalence: the cell shares it, unless it holds an equivalent one,
    into which it is merged.  Merging an object with itself, which would change the
    vector that is iterated over, is [None]. *)
Definition cell_insert_equiv σ (eq : positive) c : option (store * unordered_cell) :=
  o ← σ !! eq;
  s ← cell_span σ c;
  r ← representative σ (Some eq);
  t ← cell_root σ c;
  assert_true (span_eqb (spn (m_rep o)) s && indexed_equal (rt r) t) ;;
  pos ← find_equiv σ r (edge_container c);
  let best := score_max (best_scr c) (total r) in
  match pos with
  | None => Some (σ, mk_cell (eq :: edge_container c) best)
  | Some l => if decide (l = eq) then None
              else q ← σ !! l;
                   q ← merge σ o q;
                   Some (<[l := q]> σ, mk_cell (edge_container c) best)
  end.

(** * Spans *)

(** [cell_container.find(t)]: the cell by its root, with its place. *)
Fixpoint find_cell σ (t : indexed_token) (cs : list unordered_cell)
  : option (option (nat * unordered_cell)) :=
  match cs with
  | [] => Some None
  | c :: cs => r ← cell_root σ c;
               if indexed_equal r t then Some (Some (O, c))
               else o ← find_cell σ t cs;
                    Some (match o with Some (k, c) => Some (S k, c) | None => None end)
  end.

Definition span_insert_edge σ e (cs : list unordered_cell) : option (store * list unordered_cell) :=
  pos ← find_cell σ (rt e) cs;
  match pos with
  | None => let '(σ, c) := new_cell σ e in Some (σ, c :: cs)
  | Some (k, c) => r ← cell_insert_edge σ e c; Some (r.1, <[k := r.2]> cs)
  end.

Definition span_insert_equiv σ (eq : positive) (cs : list unordered_cell)
  : option (store * list unordered_cell) :=
  r ← representative σ (Some eq);
  pos ← find_cell σ (rt r) cs;
  match pos with
  | None => c ← new_cell_equiv σ eq; Some (σ, c :: cs)
  | Some (k, c) => r ← cell_insert_equiv σ eq c; Some (r.1, <[k := r.2]> cs)
  end.

Definition span_edges σ (t : indexed_token) (cs : list unordered_cell) : option (list positive) :=
  pos ← find_cell σ t cs;
  Some (match pos with None => [] | Some (_, c) => edge_container c end).

Definition span_find σ e (cs : list unordered_cell) : option (option positive) :=
  pos ← find_cell σ (rt e) cs;
  match pos with None => Some None | Some (_, c) => cell_find σ e c end.

(** * The chart *)

Record basic_chart := mk_chart {
  max_span_rt : Z;
  span_container : gmap (Z * Z) (list unordered_cell)
}.
Implicit Types ch : basic_chart.

Definition span_key (s : span_t) : Z * Z := (span_left s, span_right s).
Definition target_span ch : span_t := span_ctor 0 (max_span_rt ch).

(** [insert_into_map]: a key that is present keeps its value. *)
Definition insert_into_map (s : span_t) (cs : list unordered_cell)
    (m : gmap (Z * Z) (list unordered_cell)) : gmap (Z * Z) (list unordered_cell) :=
  match m !! span_key s with None => <[span_key s := cs]> m | Some _ => m end.

(** The loop over the lengths of the spans, from [x] on. *)
Fixpoint add_lengths (n : nat) (target : span_t) (x : Z) (m : gmap (Z * Z) (list unordered_cell))
  : option (gmap (Z * Z) (list unordered_cell)) :=
  match n with
  | O => Some m
  | S n => ss ← shifts_of target x;
           add_lengths n target (x + 1) (foldl (fun m s => insert_into_map s [] m) m ss)
  end.

(** The constructor and [reset]; the length is converted to a [span_index_t]. *)
Definition new_chart (max_len : Z) : option basic_chart :=
  let target := span_ctor 0 max_len in
  m ← add_lengths (Z.to_nat (max_len - 1)) target 1 ∅;
  Some (mk_chart (u16 max_len) (insert_into_map target [] m)).
Definition chart_reset (max_len : Z) (ch : basic_chart) : option basic_chart := new_chart max_len.
Definition chart_clear ch : option basic_chart := chart_reset (max_span_rt ch) ch.
Definition chart_clear_span (s : span_t) ch : option basic_chart :=
  _ ← span_container ch !! span_key s;
  Some (mk_chart (max_span_rt ch) (<[span_key s := []]> (span_container ch))).

Definition chart_insert_edge σ e ch : option (store * basic_chart) :=
  cs ← span_container ch !! span_key (spn e);
  r ← span_insert_edge σ e cs;
  Some (r.1, mk_chart (max_span_rt ch) (<[span_key (spn e) := r.2]> (span_container ch))).

Definition chart_insert_equiv σ (eq : positive) ch : option (store * basic_chart) :=
  q ← σ !! eq;
  let s := spn (m_rep q) in
  cs ← span_container ch !! span_key s;
  r ← span_insert_equiv σ eq cs;
  Some (r.1, mk_chart (max_span_rt ch) (<[span_key s := r.2]> (span_container ch))).

Definition chart_find σ e ch : option (option positive) :=
  cs ← span_container ch !! span_key (spn e); span_find σ e cs.
Definition chart_edges σ (t : indexed_token) (s : span_t) ch : option (list positive) :=
  match span_container ch !! span_key s with None => Some [] | Some cs => span_edges σ t cs end.
Definition chart_cells (s : span_t) ch : list unordered_cell :=
  default [] (span_container ch !! span_key s).
Definition chart_cell σ (s : span_t) (t : indexed_token) ch : option (option unordered_cell) :=
  cs ← span_container ch !! span_key s; pos ← find_cell σ t cs;
  Some (match pos with Some (_, c) => Some c | None => None end).
Definition empty_span (s : span_t) ch : bool :=
  match chart_cells s ch with [] => true | _ => false end.

(** [top_equiv]: the equivalence with the best score over the whole sentence; its
    loop keeps the first of the best. *)
Fixpoint top_equiv_loop σ (best : positive) (ls : list positive) : option positive :=
  match ls with
  | [] => Some best
  | l :: ls => b ← representative σ (Some best);
               r ← representative σ (Some l);
               top_equiv_loop σ (if score_lt (total b) (total r) then l else best) ls
  end.
Definition top_equiv σ (toplevel_tag : indexed_token) ch : option (result positive) :=
  er ← chart_edges σ toplevel_tag (target_span ch) ch;
  match er with
  | [] => Some (Throw "didn't build any toplevel items")
  | best :: ls => b ← top_equiv_loop σ best ls; Some (Ok b)
  end.

(** [span_contents] of a span: its cells, items and edges. *)
Definition span_contents σ (s : span_t) ch : option (Z * Z * Z) :=
  foldl (fun o c =>
    n ← o;
    m ← foldl (fun o l => m ← o; q ← σ !! l; Some (m.1 + 1, m.2 + equiv_size q))
              (Some (n.1.2, n.2)) (edge_container c);
    Some (n.1.1 + cell_size c, m.1, m.2))
  (Some (0, 0, 0)) (chart_cells s ch).

(** * The specification *)

Abbreviation equiv_ok := (equiv_ok max_equivalents).
Abbreviation edge_equiv_max := (edge_equiv_max max_equivalents).

(** [i] is what the edges of [l], inserted one after the other, give. *)
Definition collects i (l : list edge) : Prop :=
  match l with
  | [] => False
  | e0 :: es => m_rep i = best_edge e0 es /\ contents i ⊆+ alt_of <$> l /\
                Z.of_nat (length (contents i)) = Z.min (Z.of_nat (length l)) (edge_equiv_max i)
  end.

(** A cell of the span [k] and the root [t]: its equivalences are of this span and
    root, and no two of them are equivalent. *)
Definition cell_ok σ (k : Z * Z) (t : indexed_token) c : Prop :=
  edge_container c <> [] /\ NoDup (edge_container c) /\
  (forall l, l ∈ edge_container c ->
    exists i, σ !! l = Some i /\ equiv_ok σ i /\ span_key (spn (m_rep i)) = k /\ rt (m_rep i) = t) /\
  (forall l l' i i', l ∈ edge_container c -> l' ∈ edge_container c -> σ !! l = Some i -> σ !! l' = Some i' ->
    equal_to (m_rep i) (m_rep i') = true -> l = l').

Definition cells_ok σ (k : Z * Z) (cs : list unordered_cell) : Prop :=
  exists ts, Forall2 (cell_ok σ k) ts cs /\ NoDup ts.

Definition held (cs : list unordered_cell) (l : positive) : Prop :=
  exists c, c ∈ cs /\ l ∈ edge_container c.
Definition in_chart ch (k : Z * Z) (l : positive) : Prop :=
  exists cs, span_container ch !! k = Some cs /\ held cs l.

(** The chart after the edges of [es] were inserted. *)
Record chart_ok σ ch (es : list edge) : Prop := {
  co_cells k cs : span_container ch !! k = Some cs -> cells_ok σ k cs;
  co_collects k l : in_chart ch k l ->
    exists i, σ !! l = Some i /\ collects i (class_of (m_rep i) es);
  co_complete e : e ∈ es ->
    exists l i, in_chart ch (span_key (spn e)) l /\ σ !! l = Some i /\ equal_to (m_rep i) e = true
}.

(** * Lemmas *)

Abbreviation writes := (writes max_equivalents).

Section laws.
Context `{!StdAlgorithmLaws (alt_edge score), !InfoLaws info_type, !StrictWeak (score_lt (S := score))}.

Lemma cell_ok_write σ l i' k t c : writes σ l i' -> cell_ok σ k t c -> cell_ok (<[l := i']> σ) k t c.
Proof.
  intros Hw (H1&H2&H3&H4). split; [done|]. split; [done|]. split.
  - intros x Hx. destruct (H3 x Hx) as (j&Hj&Hok&<-&<-).
    destruct (writes_lookup max_equivalents σ l i' x j Hw Hj Hok) as (j'&Hj'&Hok'&Heq). exists j'.
    apply equal_to_spec in Heq as (<-&<-&_). done.
  - intros x y j1 j2 Hx Hy Hj1 Hj2 Heq. destruct (H3 x Hx) as (i1&Hi1&Hok1&_). destruct (H3 y Hy) as (i2&Hi2&Hok2&_).
    destruct (writes_lookup max_equivalents σ l i' x i1 Hw Hi1 Hok1) as (j1'&Hj1'&_&Heq1).
    destruct (writes_lookup max_equivalents σ l i' y i2 Hw Hi2 Hok2) as (j2'&Hj2'&_&Heq2).
    rewrite Hj1 in Hj1'. rewrite Hj2 in Hj2'. injection Hj1' as <-. injection Hj2' as <-.
    eapply H4; eauto using equal_to_trans, equal_to_sym.
Qed.

Lemma cells_ok_write σ l i' k cs : writes σ l i' -> cells_ok σ k cs -> cells_ok (<[l := i']> σ) k cs.
Proof.
  intros Hw (ts&Hts&Hnd). exists ts. split; [|done]. eapply Forall2_impl; [exact Hts|].
  intros. by apply cell_ok_write.
Qed.

(** ** Lookups *)

Lemma find_equiv_spec σ e ls :
  (forall l, l ∈ ls -> exists i, σ !! l = Some i /\ equiv_ok σ i) ->
  match find_equiv σ e ls with
  | None => False
  | Some None => forall l i, l ∈ ls -> σ !! l = Some i -> equal_to (m_rep i) e = false
  | Some (Some l) => exists i, l ∈ ls /\ σ !! l = Some i /\ equal_to (m_rep i) e = true
  end.
Proof.
  induction ls as [|l ls IH]; intros Hls; cbn [find_equiv]; [by intros l i []%not_elem_of_nil|].
  destruct (Hls l ltac:(left)) as (i&Hl&Hok). rewrite (representative_ok max_equivalents _ _ _ Hl Hok). cbn [mbind option_bind].
  destruct (equal_to (m_rep i) e) eqn:He; [exists i; split; [left|done]|].
  specialize (IH (fun x Hx => Hls x (list_elem_of_further _ _ _ Hx))). destruct (find_equiv σ e ls) as [[x|]|]; [| |done].
  - destruct IH as (j&Hj&?). exists j. split; [by right|done].
  - intros x j [->|Hx]%elem_of_cons Hj; [congruence|eauto].
Qed.

Lemma cell_head σ k t c : cell_ok σ k t c ->
  exists l i, head (edge_container c) = Some l /\ σ !! l = Some i /\ equiv_ok σ i /\
    span_key (spn (m_rep i)) = k /\ rt (m_rep i) = t.
Proof.
  intros (H1&_&H3&_). destruct (edge_container c) as [|l ls] eqn:E; [done|].
  destruct (H3 l ltac:(left)) as (i&?). by exists l, i.
Qed.

Lemma cell_root_ok σ k t c : cell_ok σ k t c -> cell_root σ c = Some t.
Proof.
  intros (l&i&Hh&Hl&Hok&_&Ht)%cell_head. unfold cell_root. rewrite Hh. cbn [mbind option_bind].
  rewrite (representative_ok max_equivalents _ _ _ Hl Hok). cbn. by f_equal.
Qed.

Lemma cell_span_ok σ k t c : cell_ok σ k t c -> exists s, cell_span σ c = Some s /\ span_key s = k.
Proof.
  intros (l&i&Hh&Hl&Hok&Hk&_)%cell_head. unfold cell_span. rewrite Hh. cbn [mbind option_bind]. rewrite Hl. by eexists.
Qed.

Lemma find_cell_spec σ k t ts cs : Forall2 (cell_ok σ k) ts cs ->
  match find_cell σ t cs with
  | None => False
  | Some None => t ∉ ts
  | Some (Some (j, c)) => ts !! j = Some t /\ cs !! j = Some c
  end.
Proof.
  induction 1 as [|t' c ts cs Hc Hcs IH]; cbn [find_cell]; [apply not_elem_of_nil|].
  rewrite (cell_root_ok _ _ _ _ Hc). cbn [mbind option_bind].
  unfold indexed_equal. destruct (Z.eqb_spec (typ_and_idx t') (typ_and_idx t)) as [Heq|Hne].
  - destruct t, t'; cbn in Heq; subst. done.
  - destruct (find_cell σ t cs) as [[[j c']|]|]; [exact IH| |done]. cbn.
    rewrite not_elem_of_cons. split; [congruence|done].
Qed.

Lemma span_key_inj s s' : span_key s = span_key s' -> s = s'.
Proof. destruct s, s'. unfold span_key. cbn. by intros [= -> ->]. Qed.

(** Two equivalent representatives in a span are of one object. *)
Lemma held_unique σ k cs l l' i i' : cells_ok σ k cs -> held cs l -> held cs l' ->
  σ !! l = Some i -> σ !! l' = Some i' -> equal_to (m_rep i) (m_rep i') = true -> l = l'.
Proof.
  intros (ts&Hts&Hnd) (c&Hc&Hlc) (c'&Hc'&Hlc') Hi Hi' Heq.
  apply list_elem_of_lookup in Hc as [j Hj]. apply list_elem_of_lookup in Hc' as [j' Hj'].
  destruct (Forall2_lookup_r _ _ _ _ _ Hts Hj) as (t&Ht&Hcok).
  destruct (Forall2_lookup_r _ _ _ _ _ Hts Hj') as (t'&Ht'&Hcok').
  pose proof Hcok as (_&_&H3&H4). pose proof Hcok' as (_&_&H3'&_).
  destruct (H3 l Hlc) as (x&Hx&_&_&Htx). destruct (H3' l' Hlc') as (x'&Hx'&_&_&Htx').
  rewrite Hi in Hx. injection Hx as <-. rewrite Hi' in Hx'. injection Hx' as <-.
  apply equal_to_spec in Heq as He. destruct He as (Hrt&_). rewrite Htx, Htx' in Hrt. rewrite <- Hrt in Ht'.
  rewrite (NoDup_lookup _ _ _ _ Hnd Ht Ht') in Hj. rewrite Hj in Hj'. injection Hj' as <-. eauto.
Qed.

Lemma held_key σ k cs l : cells_ok σ k cs -> held cs l ->
  exists i, σ !! l = Some i /\ equiv_ok σ i /\ span_key (spn (m_rep i)) = k.
Proof.
  intros (ts&Hts&_) (c&Hc&Hlc). apply list_elem_of_lookup in Hc as [j Hj].
  destruct (Forall2_lookup_r _ _ _ _ _ Hts Hj) as (t&Ht&(_&_&H3&_)).
  destruct (H3 l Hlc) as (i&?&?&?&_). by exists i.
Qed.

Lemma held_replace cs j c c' l : cs !! j = Some c -> (forall x, x ∈ edge_container c -> x ∈ edge_container c') ->
  held (<[j := c']> cs) l -> held cs l \/ l ∈ edge_container c'.
Proof.
  intros Hj Hsub (d&Hd&Hl). apply list_elem_of_lookup in Hd as [n Hn].
  destruct (decide (n = j)) as [->|Hne].
  - rewrite list_lookup_insert_eq in Hn by eauto using lookup_lt_Some. injection Hn as <-. by right.
  - rewrite list_lookup_insert_ne in Hn by done. left. exists d. eauto using list_elem_of_lookup_2.
Qed.

Lemma held_replace_mono cs j c c' l : cs !! j = Some c -> (forall x, x ∈ edge_container c -> x ∈ edge_container c') ->
  held cs l \/ l ∈ edge_container c' -> held (<[j := c']> cs) l.
Proof.
  intros Hj Hsub [(d&Hd&Hl)|Hl].
  - apply list_elem_of_lookup in Hd as [n Hn]. destruct (decide (n = j)) as [->|Hne].
    + rewrite Hj in Hn. injection Hn as <-. exists c'. split; [|auto].
      eapply list_elem_of_lookup_2. rewrite list_lookup_insert_eq; eauto using lookup_lt_Some.
    + exists d. split; [|done]. eapply list_elem_of_lookup_2. by rewrite list_lookup_insert_ne by done; eauto.
  - exists c'. split; [|done]. eapply list_elem_of_lookup_2. rewrite list_lookup_insert_eq; eauto using lookup_lt_Some.
Qed.

(** What inserting an edge does to the store and to the equivalences that are held:
    it writes an equivalence that was held and was equivalent to the edge, or a
    new one of the edge alone. *)
Definition inserted σ e (heldb helda : positive -> Prop) σ' : Prop :=
  exists l i', σ' = <[l := i']> σ /\ writes σ l i' /\ equal_to (m_rep i') e = true /\ helda l /\
    (forall x, helda x <-> heldb x \/ x = l) /\
    ((exists i, heldb l /\ σ !! l = Some i /\ equiv_ok σ i /\ equal_to (m_rep i) e = true /\
        step_ok max_equivalents σ e i (best_edge (m_rep i) [e]) i') \/
     (σ !! l = None /\ i' = pool_create e /\
      forall x j, heldb x -> σ !! x = Some j -> equal_to (m_rep j) e = false)).

(** ** Inserting *)

Lemma cell_insert_ok σ e k t c :
  cell_ok σ k t c -> edge_ok σ e -> span_key (spn e) = k -> rt e = t ->
  1 <= edge_equiv_max (pool_create e) ->
  exists σ' c', cell_insert_edge σ e c = Some (σ', c') /\ cell_ok σ' k t c' /\
    inserted σ e (fun l => l ∈ edge_container c) (fun l => l ∈ edge_container c') σ'.
Proof.
  intros Hc He <- <- Hm. pose proof Hc as (H1&H2&H3&H4). unfold cell_insert_edge.
  destruct (cell_span_ok _ _ _ _ Hc) as (s&->&Hs). apply span_key_inj in Hs as ->.
  rewrite (cell_root_ok _ _ _ _ Hc). cbn [mbind option_bind].
  unfold indexed_equal, span_eqb. rewrite !Z.eqb_refl. cbn [andb assert_true mbind option_bind].
  assert (forall l, l ∈ edge_container c -> exists i, σ !! l = Some i /\ equiv_ok σ i) as Hls
    by (intros l Hl; destruct (H3 l Hl) as (i&?&?&_); eauto).
  pose proof (find_equiv_spec σ e (edge_container c) Hls) as Hf.
  destruct (find_equiv σ e (edge_container c)) as [[l|]|]; [| |done]; cbn [mbind option_bind].
  - destruct Hf as (i&Hl&Hi&Heq). rewrite Hi. destruct (H3 l Hl) as (i0&Hi0&Hok&_).
    rewrite Hi in Hi0. injection Hi0 as <-. cbn [mbind option_bind].
    destruct (insert_edge_step hash_token hash_span max_equivalents σ e i Hok He Heq) as (i'&->&Hstep).
    cbn [mbind option_bind]. destruct (step_writes max_equivalents σ l i e i' Hok Hi Heq Hstep) as (Hw&Heq').
    do 2 eexists. split; [reflexivity|]. split; [by apply (cell_ok_write σ l i' _ _ c)|].
    exists l, i'. do 4 (split; [done|]). split; [intros x; cbn; split; [by left|by intros [Hx| ->]]|].
    left. exists i. done.
  - unfold allocate. set (l := fresh (dom σ)). pose proof (allocate_fresh σ) as Hfr. fold l in Hfr.
    pose proof (new_writes max_equivalents σ l e He Hm Hfr) as Hw.
    assert (l ∉ edge_container c) as Hlc by (intros Hl; destruct (Hls l Hl) as (i&Hi&_); congruence).
    do 2 eexists. split; [reflexivity|]. split.
    + destruct (cell_ok_write _ _ _ _ _ _ Hw Hc) as (_&_&G3&G4). split; [done|]. cbn [edge_container].
      split; [by constructor|].
      assert (<[l := pool_create e]> σ !! l = Some (pool_create e)) as Hll by apply lookup_insert_eq.
      split.
      * intros x [->|Hx]%elem_of_cons; [|by apply G3]. exists (pool_create e). split; [done|].
        split; [|done]. apply equiv_ok_write; [done|by apply new_equiv_ok].
      * intros x y ix iy [->|Hx]%elem_of_cons [->|Hy]%elem_of_cons Hix Hiy Heq; [done| | |by eapply G4].
        -- rewrite Hll in Hix. injection Hix as <-. rewrite lookup_insert_ne in Hiy by (intros ->; done).
           pose proof (Hf y iy Hy Hiy) as F. apply equal_to_sym in Heq. cbn [m_rep pool_create] in Heq. congruence.
        -- rewrite Hll in Hiy. injection Hiy as <-. rewrite lookup_insert_ne in Hix by (intros ->; done).
           pose proof (Hf x ix Hx Hix) as F. cbn [m_rep pool_create] in Heq. congruence.
    + exists l, (pool_create e). split; [done|]. split; [done|]. split; [apply equal_to_refl|].
      cbn [edge_container]. split; [left|]. split; [intros x; rewrite elem_of_cons; tauto|].
      right. done.
Qed.

Lemma new_cell_ok σ e : edge_ok σ e -> 1 <= edge_equiv_max (pool_create e) ->
  let r := new_cell σ e in
  cell_ok r.1 (span_key (spn e)) (rt e) r.2 /\ r.1 = <[fresh (dom σ) := pool_create e]> σ /\
  edge_container r.2 = [fresh (dom σ)].
Proof.
  intros He Hm. unfold new_cell, allocate. cbn [fst snd edge_container]. split; [|done].
  pose proof (new_writes max_equivalents σ _ e He Hm (allocate_fresh σ)) as Hw.
  split; [done|]. split; [apply NoDup_singleton|]. split.
  - intros x ->%list_elem_of_singleton. exists (pool_create e). rewrite lookup_insert_eq. split; [done|].
    split; [|done]. apply equiv_ok_write; [done|by apply new_equiv_ok].
  - by intros x y ix iy ->%list_elem_of_singleton ->%list_elem_of_singleton.
Qed.

Lemma held_cons c cs x : held (c :: cs) x <-> x ∈ edge_container c \/ held cs x.
Proof.
  unfold held. split.
  - intros (d&[->|Hd]%elem_of_cons&Hx); eauto.
  - intros [Hx|(d&Hd&Hx)]; [exists c; split; [left|done]|exists d; split; [by right|done]].
Qed.

(** A cell that holds an equivalent of [e] is the cell of its root. *)
Lemma held_root σ k ts cs n c x j e : Forall2 (cell_ok σ k) ts cs -> cs !! n = Some c ->
  x ∈ edge_container c -> σ !! x = Some j -> equal_to (m_rep j) e = true -> ts !! n = Some (rt e).
Proof.
  intros Hts Hn Hx Hj He. destruct (Forall2_lookup_r _ _ _ _ _ Hts Hn) as (t&Ht&(_&_&H3&_)).
  destruct (H3 x Hx) as (i&Hi&_&_&Hrt). rewrite Hj in Hi. injection Hi as <-.
  apply equal_to_spec in He as (He&_). by rewrite <- He, Hrt.
Qed.

Lemma span_insert_ok σ e k cs :
  cells_ok σ k cs -> edge_ok σ e -> span_key (spn e) = k -> 1 <= edge_equiv_max (pool_create e) ->
  exists σ' cs', span_insert_edge σ e cs = Some (σ', cs') /\ cells_ok σ' k cs' /\
    inserted σ e (held cs) (held cs') σ'.
Proof.
  intros Hcs He Hk Hm. pose proof Hcs as (ts&Hts&Hnd). unfold span_insert_edge.
  pose proof (find_cell_spec σ k (rt e) ts cs Hts) as Hf.
  destruct (find_cell σ (rt e) cs) as [[[j c]|]|]; [| |done]; cbn [mbind option_bind].
  - destruct Hf as (Ht&Hj). pose proof (Forall2_lookup_lr _ _ _ _ _ _ Hts Ht Hj) as Hc.
    destruct (cell_insert_ok σ e k (rt e) c Hc He Hk eq_refl Hm) as (σ'&c'&->&Hc'&Hins).
    destruct Hins as (l&i'&->&Hw&Heq&Hl&Hheld&Hcase). cbn [mbind option_bind fst snd].
    assert (forall x, x ∈ edge_container c -> x ∈ edge_container c') as Hsub by (intros x Hx; apply Hheld; by left).
    assert (forall x, held (<[j := c']> cs) x <-> held cs x \/ x = l) as Hh.
    { intros x. split.
      - intros [Hx|[Hx| ->]%Hheld]%(held_replace _ _ _ _ _ Hj Hsub); [by left| |by right].
        left. exists c. split; [by eapply list_elem_of_lookup_2|done].
      - intros Hx. apply (held_replace_mono _ _ _ _ _ Hj Hsub). rewrite Hheld. tauto. }
    do 2 eexists. split; [reflexivity|]. split.
    { exists ts. split; [|done].
      assert (Forall2 (cell_ok (<[l:=i']> σ) k) ts cs) as Hts'
        by (eapply Forall2_impl; [exact Hts|]; intros; by apply cell_ok_write).
      rewrite <- (list_insert_id ts j (rt e) Ht). by apply Forall2_insert. }
    exists l, i'. split; [done|]. split; [done|]. split; [done|]. split; [apply Hh; by right|].
    split; [done|]. destruct Hcase as [(i&Hi&?)|(Hn&Hi&Hall)].
    + left. exists i. split; [|done]. exists c. split; [by eapply list_elem_of_lookup_2|done].
    + right. split; [done|]. split; [done|]. intros x jx Hx Hjx.
      destruct (equal_to (m_rep jx) e) eqn:E; [|done]. destruct Hx as (d&Hd&Hx).
      apply list_elem_of_lookup in Hd as [n Hn']. pose proof (held_root _ _ _ _ _ _ _ _ _ Hts Hn' Hx Hjx E) as Htn.
      rewrite (NoDup_lookup _ _ _ _ Hnd Htn Ht) in Hn'. rewrite Hn' in Hj. injection Hj as ->.
      rewrite (Hall x jx Hx Hjx) in E. done.
  - destruct (new_cell σ e) as [σ' c] eqn:En. pose proof (new_cell_ok σ e He Hm) as Hnew. rewrite En in Hnew.
    cbn [fst snd] in Hnew. destruct Hnew as (Hc&->&Hec). rewrite Hk in Hc. set (l := fresh (dom σ)) in *.
    pose proof (new_writes max_equivalents σ l e He Hm (allocate_fresh σ)) as Hw.
    do 2 eexists. split; [reflexivity|]. split.
    { exists (rt e :: ts). split; [|by constructor]. constructor; [done|].
      eapply Forall2_impl; [exact Hts|]; intros; by apply cell_ok_write. }
    exists l, (pool_create e). split; [done|]. split; [done|]. split; [apply equal_to_refl|].
    split; [apply held_cons; left; rewrite Hec; left|].
    split; [intros x; rewrite held_cons, Hec, list_elem_of_singleton; tauto|].
    right. split; [apply allocate_fresh|]. split; [done|]. intros x jx (d&Hd&Hx) Hjx.
    destruct (equal_to (m_rep jx) e) eqn:E; [|done].
    apply list_elem_of_lookup in Hd as [n Hn']. pose proof (held_root _ _ _ _ _ _ _ _ _ Hts Hn' Hx Hjx E) as Htn.
    exfalso. apply Hf. by eapply list_elem_of_lookup_2.
Qed.

(** ** What an equivalence collects *)

Lemma collects_snoc σ i e i' l :
  equal_to (m_rep i) e = true -> step_ok max_equivalents σ e i (best_edge (m_rep i) [e]) i' ->
  collects i l -> collects i' (l ++ [e]).
Proof.
  intros He (Hok&Hrep&Hc&Hlen) Hl. destruct l as [|e0 es]; [done|]. destruct Hl as (Hr&Hcl&Hll).
  assert (edge_equiv_max i' = edge_equiv_max i) as Hmax.
  { apply edge_equiv_max_rt. rewrite Hrep.
    assert (equal_to (m_rep i) (best_edge (m_rep i) [e]) = true) as Hb
      by (apply best_edge_equal; by constructor).
    by apply equal_to_spec in Hb as (->&_). }
  cbn [app collects]. split; [|split].
  - rewrite Hrep, Hr. unfold best_edge. by rewrite foldl_app.
  - rewrite Hc. change (e0 :: es ++ [e]) with ((e0 :: es) ++ [e]). rewrite fmap_app, (Permutation_app_comm _ (alt_of <$> [e])).
    cbn. by apply submseteq_skip.
  - rewrite Hlen, Hmax. change (e0 :: es ++ [e]) with ((e0 :: es) ++ [e]).
    rewrite length_app. cbn [length] in *. lia.
Qed.

Lemma collects_new e : edge_is_null e = false -> 1 <= edge_equiv_max (pool_create e) ->
  collects (pool_create e) [e].
Proof.
  intros Hn Hm. assert (contents (pool_create e) = [alt_of e]) as Hc
    by (unfold contents, equiv_empty; cbn [m_rep pool_create]; by rewrite Hn).
  cbn [collects]. rewrite Hc. split; [done|]. split; [done|]. cbn [length]. lia.
Qed.

Lemma in_chart_insert ch k cs cs' x l n :
  span_container ch !! k = Some cs -> (forall y, held cs' y <-> held cs y \/ y = l) ->
  forall k', in_chart (mk_chart n (<[k := cs']> (span_container ch))) k' x <->
    in_chart ch k' x \/ (k' = k /\ x = l).
Proof.
  intros Hcs Hh k'. unfold in_chart. cbn [span_container]. destruct (decide (k' = k)) as [->|Hk].
  - rewrite lookup_insert_eq. split.
    + intros (d&[= <-]&[Hx| ->]%Hh); eauto.
    + intros Hx. exists cs'. split; [done|]. apply Hh. destruct Hx as [(d&Hd&Hx)|[_ ->]]; [|by right].
      rewrite Hcs in Hd. injection Hd as <-. by left.
  - rewrite lookup_insert_ne by done. split; [eauto|]. intros [?|[? _]]; done.
Qed.

(** An equivalence in the chart that is equivalent to the edge is the one written. *)
Lemma written_only σ ch es e cs l i' x j k :
  chart_ok σ ch es -> span_container ch !! span_key (spn e) = Some cs ->
  (exists i, held cs l /\ σ !! l = Some i /\ equiv_ok σ i /\ equal_to (m_rep i) e = true /\
     step_ok max_equivalents σ e i (best_edge (m_rep i) [e]) i') \/
  (σ !! l = None /\ i' = pool_create e /\ forall x j, held cs x -> σ !! x = Some j -> equal_to (m_rep j) e = false) ->
  in_chart ch k x -> σ !! x = Some j -> equal_to (m_rep j) e = true -> x = l.
Proof.
  intros Hch Hcs Hcase (d&Hd&Hx) Hj He.
  destruct (held_key σ k d x (co_cells _ _ _ Hch _ _ Hd) Hx) as (j'&Hj'&_&Hk).
  rewrite Hj in Hj'. injection Hj' as <-. apply equal_to_spec in He as He'. destruct He' as (_&Hs&_).
  rewrite <- Hk, Hs, Hcs in Hd. injection Hd as <-.
  destruct Hcase as [(i&Hl&Hi&_&Hie&_)|(_&_&Hall)]; [|by rewrite (Hall x j Hx Hj) in He].
  eapply (held_unique σ _ cs); [exact (co_cells _ _ _ Hch _ _ Hcs)|exact Hx|exact Hl|exact Hj|exact Hi|].
  eauto using equal_to_trans, equal_to_sym.
Qed.

Lemma chart_insert_ok σ ch es e :
  chart_ok σ ch es -> edge_ok σ e -> 1 <= edge_equiv_max (pool_create e) ->
  is_Some (span_container ch !! span_key (spn e)) ->
  exists σ' ch', chart_insert_edge σ e ch = Some (σ', ch') /\ chart_ok σ' ch' (es ++ [e]) /\
    dom (span_container ch') = dom (span_container ch).
Proof.
  intros Hch He Hm [cs Hcs]. unfold chart_insert_edge. rewrite Hcs. cbn [mbind option_bind].
  destruct (span_insert_ok σ e _ cs (co_cells _ _ _ Hch _ _ Hcs) He eq_refl Hm) as (σ'&cs'&->&Hcs'&Hins).
  cbn [mbind option_bind fst snd]. do 2 eexists. split; [reflexivity|].
  destruct Hins as (l&i'&->&Hw&Heq&Hl&Hheld&Hcase).
  pose proof (fun x => in_chart_insert ch _ cs cs' x l (max_span_rt ch) Hcs Hheld) as Hin.
  split; [|cbn [span_container]; apply dom_insert_lookup_L; by eexists]. split.
  - intros k d. cbn [span_container]. destruct (decide (k = span_key (spn e))) as [->|Hk].
    + rewrite lookup_insert_eq. by intros [= <-].
    + rewrite lookup_insert_ne by done. intros Hd. apply cells_ok_write; [done|]. by apply (co_cells _ _ _ Hch).
  - intros k x Hx. destruct (decide (x = l)) as [->|Hxl].
    + exists i'. rewrite lookup_insert_eq, class_of_snoc, Heq. split; [done|].
      destruct Hcase as [(i&Hli&Hi&Hok&Hie&Hstep)|(Hn& -> &Hall)].
      * apply (collects_snoc σ i e); [done..|]. rewrite (class_of_equal _ (m_rep i)) by eauto using equal_to_trans, equal_to_sym.
        destruct (co_collects _ _ _ Hch (span_key (spn e)) l ltac:(by exists cs)) as (i0&Hi0&Hc).
        rewrite Hi in Hi0. by injection Hi0 as <-.
      * assert (class_of (m_rep (pool_create e)) es = []) as ->; [|by apply collects_new; [apply He|]].
        cbn [m_rep pool_create]. destruct (class_of e es) as [|e' r] eqn:Ec; [done|].
        assert (e' ∈ class_of e es) as [Hee' He']%list_elem_of_filter by (rewrite Ec; left).
        destruct (co_complete _ _ _ Hch e' He') as (y&j&(d&Hd&Hy)&Hj&Hje).
        apply equal_to_spec in Hee' as Hs. destruct Hs as (_&Hs&_). rewrite <- Hs, Hcs in Hd. injection Hd as <-.
        pose proof (Hall y j Hy Hj) as F. rewrite (equal_to_trans _ _ _ Hje (equal_to_sym _ _ Hee')) in F. done.
    + apply Hin in Hx as [Hx|[_ ?]]; [|done]. destruct (co_collects _ _ _ Hch k x Hx) as (j&Hj&Hc).
      exists j. rewrite lookup_insert_ne by done. split; [done|]. rewrite class_of_snoc.
      destruct (equal_to (m_rep j) e) eqn:E; [|by rewrite app_nil_r].
      by destruct Hxl, (written_only σ ch es e cs l i' x j k Hch Hcs Hcase Hx Hj E).
  - intros e1 [He1|He1]%elem_of_app.
    + destruct (co_complete _ _ _ Hch e1 He1) as (y&j&Hy&Hj&Hje).
      destruct Hy as (d&Hd&Hyd). destruct (held_key σ _ d y (co_cells _ _ _ Hch _ _ Hd) Hyd) as (j0&Hj0&Hok&_).
      rewrite Hj in Hj0. injection Hj0 as <-. destruct (writes_lookup max_equivalents σ l i' y j Hw Hj Hok) as (j'&Hj'&_&Hjj).
      exists y, j'. split; [apply Hin; left; by exists d|]. eauto using equal_to_trans, equal_to_sym.
    + apply list_elem_of_singleton in He1 as ->. exists l, i'. rewrite lookup_insert_eq.
      split; [apply Hin; by right|done].
Qed.

(** ** Lookups in a chart *)

Lemma cell_members σ k ts cs n c : Forall2 (cell_ok σ k) ts cs -> cs !! n = Some c ->
  forall l, l ∈ edge_container c -> exists i, σ !! l = Some i /\ equiv_ok σ i.
Proof.
  intros Hts Hn l Hl. destruct (Forall2_lookup_r _ _ _ _ _ Hts Hn) as (t&_&(_&_&H3&_)).
  destruct (H3 l Hl) as (i&?&?&_). by exists i.
Qed.

Lemma span_find_spec σ k e cs : cells_ok σ k cs ->
  match span_find σ e cs with
  | None => False
  | Some None => forall x j, held cs x -> σ !! x = Some j -> equal_to (m_rep j) e = false
  | Some (Some l) => exists i, held cs l /\ σ !! l = Some i /\ equal_to (m_rep i) e = true
  end.
Proof.
  intros (ts&Hts&Hnd). unfold span_find. pose proof (find_cell_spec σ k (rt e) ts cs Hts) as Hf.
  assert (forall x j n c, cs !! n = Some c -> x ∈ edge_container c -> σ !! x = Some j ->
    equal_to (m_rep j) e = true -> ts !! n = Some (rt e)) as Hroot by (intros; by eapply held_root).
  destruct (find_cell σ (rt e) cs) as [[[n c]|]|]; cbn [mbind option_bind]; [| |done].
  - destruct Hf as (Ht&Hc). pose proof (find_equiv_spec σ e _ (cell_members _ _ _ _ _ _ Hts Hc)) as Hs.
    unfold cell_find. destruct (find_equiv σ e (edge_container c)) as [[l|]|]; [| |done].
    + destruct Hs as (i&Hl&?). exists i. split; [|done]. exists c. split; [by eapply list_elem_of_lookup_2|done].
    + intros x j (d&[n' Hn]%list_elem_of_lookup&Hx) Hj. apply not_true_is_false. intros He.
      rewrite (NoDup_lookup _ _ _ _ Hnd (Hroot x j n' d Hn Hx Hj He) Ht), Hc in Hn. injection Hn as <-.
      by rewrite (Hs x j Hx Hj) in He.
  - intros x j (d&[n' Hn]%list_elem_of_lookup&Hx) Hj. apply not_true_is_false. intros He.
    apply Hf. eapply list_elem_of_lookup_2. by eapply Hroot.
Qed.

Lemma chart_find_ok σ ch es e : chart_ok σ ch es -> is_Some (span_container ch !! span_key (spn e)) ->
  match class_of e es with
  | [] => chart_find σ e ch = Some None
  | cl => exists l i, chart_find σ e ch = Some (Some l) /\ σ !! l = Some i /\ collects i cl
  end.
Proof.
  intros Hch [cs Hcs]. pose proof (span_find_spec σ _ e cs (co_cells _ _ _ Hch _ _ Hcs)) as Hf.
  unfold chart_find. rewrite Hcs. cbn [mbind option_bind].
  destruct (span_find σ e cs) as [[l|]|]; [| |done].
  - destruct Hf as (i&Hl&Hi&He).
    destruct (co_collects _ _ _ Hch (span_key (spn e)) l ltac:(by exists cs)) as (j&Hj&Hc).
    rewrite Hi in Hj. injection Hj as <-. rewrite (class_of_equal _ _ _ He) in Hc.
    destruct (class_of e es); [done|]. by exists l, i.
  - destruct (class_of e es) as [|e' r] eqn:Ec; [done|].
    assert (e' ∈ class_of e es) as [Hee' He']%list_elem_of_filter by (rewrite Ec; left).
    destruct (co_complete _ _ _ Hch e' He') as (y&j&(d&Hd&Hy)&Hj&Hje).
    apply equal_to_spec in Hee' as Hs. destruct Hs as (_&Hs&_). rewrite <- Hs, Hcs in Hd. injection Hd as <-.
    pose proof (Hf y j Hy Hj) as F. rewrite (equal_to_trans _ _ _ Hje (equal_to_sym _ _ Hee')) in F. done.
Qed.

Lemma insert_into_map_spec s m : (forall k v, m !! k = Some v -> v = []) ->
  forall k, insert_into_map s [] m !! k = if decide (k = span_key s) then Some [] else m !! k.
Proof.
  intros Hm k. unfold insert_into_map. destruct (m !! span_key s) as [v|] eqn:E.
  - case_decide as Hk; [|done]. subst k. by rewrite E, (Hm _ _ E).
  - case_decide as Hk; [subst k; by rewrite lookup_insert_eq|by rewrite lookup_insert_ne].
Qed.

Lemma add_spans_spec ss m : (forall k v, m !! k = Some v -> v = []) ->
  forall k, foldl (fun m s => insert_into_map s [] m) m ss !! k =
    if decide (k ∈ span_key <$> ss) then Some [] else m !! k.
Proof.
  revert m. induction ss as [|s ss IH]; intros m Hm k; cbn [foldl fmap list_fmap].
  - by rewrite decide_False by apply not_elem_of_nil.
  - pose proof (insert_into_map_spec s m Hm) as Hs. rewrite IH.
    + rewrite Hs. destruct (decide (k ∈ span_key <$> ss)) as [H1|H1], (decide (k ∈ _ :: _)) as [H2|H2];
        rewrite elem_of_cons in H2; try case_decide; try done;
        first [destruct H2 as [?|?]; done|destruct H2; by (left + right)].
    + intros k' v. rewrite Hs. case_decide; [by intros [= <-]|apply Hm].
Qed.

(** The spans of the lengths from [x] on, [n] of them. *)
Lemma add_lengths_spec n target x m :
  (forall y, x <= y < x + Z.of_nat n -> shiftable target y) -> (forall k v, m !! k = Some v -> v = []) ->
  exists m', add_lengths n target x m = Some m' /\
    forall k, m' !! k =
      if decide (x <= k.2 - k.1 < x + Z.of_nat n /\ span_left target <= k.1 /\ k.2 <= span_right target)
      then Some [] else m !! k.
Proof.
  revert x m. induction n as [|n IH]; intros x m Hsh Hm; cbn [add_lengths].
  - exists m. split; [done|]. intros k. rewrite decide_False by lia. done.
  - rewrite (shifts_of_all target x) by (apply Hsh; lia). cbn [mbind option_bind].
    pose proof (add_spans_spec (all_shifts target x) m Hm) as Hs.
    destruct (IH (x + 1) (foldl (fun m s => insert_into_map s [] m) m (all_shifts target x))) as (m'&->&Hm').
    { intros y Hy. apply Hsh. lia. }
    { intros k v. rewrite Hs. case_decide; [by intros [= <-]|apply Hm]. }
    exists m'. split; [done|]. intros [l r]. rewrite Hm', Hs. cbn [fst snd].
    assert ((l, r) ∈ span_key <$> all_shifts target x <->
      r - l = x /\ span_left target <= l /\ r <= span_right target) as Hin.
    { rewrite list_elem_of_fmap. setoid_rewrite elem_of_all_shifts. unfold span_key. split.
      - intros (s&[= -> ->]&k&->&?&?). cbn. lia.
      - intros (?&?&?). exists (mk_span l r). split; [done|]. exists l. split; [f_equal; lia|lia]. }
    destruct (decide ((l, r) ∈ _)) as [H1|H1]; rewrite Hin in H1; repeat case_decide; try done; lia.
Qed.

(** ** The best of the whole sentence *)

Lemma top_equiv_loop_spec σ best ls :
  (forall l, l ∈ best :: ls -> exists r, representative σ (Some l) = Some r) ->
  exists b r, top_equiv_loop σ best ls = Some b /\ b ∈ best :: ls /\ representative σ (Some b) = Some r /\
    forall l r', l ∈ best :: ls -> representative σ (Some l) = Some r' -> score_lt (total r) (total r') = false.
Proof.
  revert best. induction ls as [|l ls IH]; intros best Hls; destruct (Hls best ltac:(left)) as (rb&Hb); cbn [top_equiv_loop].
  - exists best, rb. split; [done|]. split; [left|]. split; [done|].
    intros l r' ->%list_elem_of_singleton Hr'. rewrite Hb in Hr'. injection Hr' as <-. apply sw_irrefl.
  - destruct (Hls l ltac:(right; left)) as (rl&Hl). rewrite Hb, Hl. cbn [mbind option_bind].
    destruct (IH (if score_lt (total rb) (total rl) then l else best)) as (b&r&Hloop&Hin&Hr&Hall).
    { intros x [->|Hx]%elem_of_cons; [case_match; eauto|]. apply Hls. by right; right. }
    exists b, r. split; [done|].
    split; [apply elem_of_cons in Hin as [->|Hin]; [case_match; [right; left|left]|by right; right]|].
    split; [done|]. intros x r' Hx Hr'.
    assert (score_lt (total rb) (total rl) = true \/ score_lt (total rb) (total rl) = false) as [E|E] by (destruct (score_lt _ _); auto);
      rewrite E in Hall; apply elem_of_cons in Hx as [->|Hx].
    + rewrite Hb in Hr'. injection Hr' as <-.
      exact (sw_negtrans _ _ _ (Hall l rl ltac:(left) Hl) (sw_asym _ _ _ E)).
    + by apply (Hall x).
    + apply (Hall best); [left|done].
    + apply elem_of_cons in Hx as [->|Hx]; [|by apply (Hall x); [right|]].
      rewrite Hl in Hr'. injection Hr' as <-. exact (sw_negtrans _ _ _ (Hall best rb ltac:(left) Hb) E).
Qed.

Lemma span_edges_spec σ k t cs : cells_ok σ k cs ->
  exists ls, span_edges σ t cs = Some ls /\
    forall x, x ∈ ls <-> exists i, held cs x /\ σ !! x = Some i /\ equiv_ok σ i /\ rt (m_rep i) = t.
Proof.
  intros (ts&Hts&Hnd). unfold span_edges. pose proof (find_cell_spec σ k t ts cs Hts) as Hf.
  assert (forall x i n c, cs !! n = Some c -> x ∈ edge_container c -> σ !! x = Some i -> ts !! n = Some (rt (m_rep i))) as Hroot
    by (intros; by eapply held_root; [..|apply equal_to_refl]).
  destruct (find_cell σ t cs) as [[[n c]|]|]; cbn [mbind option_bind]; [| |done].
  - destruct Hf as (Ht&Hc). eexists. split; [reflexivity|]. intros x. split.
    + intros Hx. destruct (cell_members _ _ _ _ _ _ Hts Hc x Hx) as (i&Hi&Hok). exists i.
      split; [exists c; split; [by eapply list_elem_of_lookup_2|done]|]. split; [done|]. split; [done|].
      pose proof (Hroot x i n c Hc Hx Hi) as Hr. rewrite Ht in Hr. by injection Hr as <-.
    + intros (i&(d&[n' Hn]%list_elem_of_lookup&Hx)&Hi&_&<-). pose proof (Hroot x i n' d Hn Hx Hi) as Hr.
      rewrite (NoDup_lookup _ _ _ _ Hnd Hr Ht), Hc in Hn. by injection Hn as <-.
  - exists []. split; [done|]. intros x. split; [by intros ?%not_elem_of_nil|].
    intros (i&(d&[n' Hn]%list_elem_of_lookup&Hx)&Hi&_&<-). destruct Hf.
    eapply list_elem_of_lookup_2. by eapply Hroot.
Qed.

Definition in_range (n : Z) (s : span_t) : Prop := 0 <= span_left s < span_right s /\ span_right s <= n.

Lemma target_range n : 1 <= n < 65535 -> span_ctor 0 n = mk_span 0 n.
Proof. intros Hn. unfold span_ctor, u16, wrap. by rewrite !Z.mod_small by lia. Qed.

Lemma new_chart_ok n : 1 <= n < 65535 ->
  exists ch, new_chart n = Some ch /\ target_span ch = mk_span 0 n /\
    forall k, span_container ch !! k =
      if decide (0 <= k.1 < k.2 /\ k.2 <= n) then Some [] else None.
Proof.
  intros Hn. unfold new_chart. rewrite (target_range n Hn).
  destruct (add_lengths_spec (Z.to_nat (n - 1)) (mk_span 0 n) 1 ∅) as (m&->&Hm).
  { intros y Hy. unfold shiftable, span_ok. cbn. rewrite length_ok by (unfold span_ok; cbn; lia). cbn.
    split; [lia|]. split; [lia|]. intros [= ->]. lia. }
  { intros k v. by rewrite lookup_empty. }
  cbn [mbind option_bind]. eexists. split; [reflexivity|].
  assert (u16 n = n) as Hu by (unfold u16, wrap; by rewrite Z.mod_small by lia).
  split; [unfold target_span; cbn [max_span_rt]; rewrite Hu; by apply target_range|].
  intros [l r]. cbn [span_container fst snd]. rewrite insert_into_map_spec.
  - rewrite Hm, lookup_empty. cbn [fst snd span_left span_right]. unfold span_key. cbn [span_left span_right].
    destruct (decide ((l, r) = (0, n))) as [[= -> ->]|Hne]; repeat case_decide; try done; try lia.
    destruct Hne. f_equal; lia.
  - intros k v. rewrite Hm, lookup_empty. by case_decide; [intros [= <-]|].
Qed.

Lemma chart_ok_new σ n ch : 1 <= n < 65535 -> new_chart n = Some ch -> chart_ok σ ch [].
Proof.
  intros Hn Hch. destruct (new_chart_ok n Hn) as (ch'&Hch'&_&Hk). rewrite Hch in Hch'. injection Hch' as <-.
  split.
  - intros k cs. rewrite Hk. case_decide; [|done]. intros [= <-]. exists []. split; constructor.
  - intros k l (cs&Hcs&c&Hc&_). rewrite Hk in Hcs. case_decide; [|done]. injection Hcs as <-.
    by apply not_elem_of_nil in Hc.
  - intros e He. by apply not_elem_of_nil in He.
Qed.

(** The states of a chart for a sentence of [n] words: edges are inserted one after
    the other, each with children in the store. *)
Inductive chart_run (n : Z) : store -> basic_chart -> list edge -> Prop :=
  | run_new σ ch : new_chart n = Some ch -> chart_run n σ ch []
  | run_insert σ ch es e σ' ch' :
      chart_run n σ ch es -> edge_ok σ e -> chart_insert_edge σ e ch = Some (σ', ch') ->
      chart_run n σ' ch' (es ++ [e]).

Lemma one_or_top e : 1 <= u32 max_equivalents -> 1 <= edge_equiv_max (pool_create e).
Proof. intros Hm. unfold EdgeEquivalence.edge_equiv_max, UINT_MAX. case_bool_decide; lia. Qed.

Lemma chart_run_ok n σ ch es : 1 <= n < 65535 -> 1 <= u32 max_equivalents -> chart_run n σ ch es ->
  chart_ok σ ch es /\
  forall k, is_Some (span_container ch !! k) <-> 0 <= k.1 < k.2 /\ k.2 <= n.
Proof.
  intros Hn Hm. induction 1 as [σ ch Hch|σ ch es e σ' ch' Hrun [Hok Hdom] He Hins].
  - split; [by apply (chart_ok_new σ n)|]. destruct (new_chart_ok n Hn) as (ch'&Hch'&_&Hk).
    rewrite Hch in Hch'. injection Hch' as <-. intros k. rewrite Hk.
    case_decide; split; done.
  - assert (is_Some (span_container ch !! span_key (spn e))) as Hsome.
    { unfold chart_insert_edge in Hins. destruct (span_container ch !! _); [by eexists|done]. }
    destruct (chart_insert_ok σ ch es e Hok He (one_or_top e Hm) Hsome) as (σ1&ch1&Hins1&Hok1&Hd).
    rewrite Hins in Hins1. injection Hins1 as <- <-. split; [done|].
    intros k. rewrite <- Hdom, <- !elem_of_dom. by rewrite Hd.
Qed.

Lemma max_span_kept n σ ch es : 1 <= n < 65535 -> chart_run n σ ch es -> target_span ch = mk_span 0 n.
Proof.
  intros Hn. induction 1 as [σ ch Hch|σ ch es e σ' ch' Hrun IH He Hins].
  - destruct (new_chart_ok n Hn) as (ch'&Hch'&Ht&_). rewrite Hch in Hch'. by injection Hch' as <-.
  - unfold chart_insert_edge in Hins. destruct (span_container ch !! _); [|done]. cbn [mbind option_bind] in Hins.
    destruct (span_insert_edge σ e l); [|done]. by injection Hins as <- <-.
Qed.

(** * Theorems *)

(** C5: In every reachable chart, inserting an edge over a span of the sentence
    succeeds, and looking up an edge finds nothing if no equivalent edge was
    inserted, else the one equivalence that collects exactly the edges equivalent to
    it, in the order of their insertion, whatever other edges were inserted. *)
Theorem chart_run_refines n σ ch es :
  1 <= n < 65535 -> 1 <= u32 max_equivalents -> chart_run n σ ch es ->
  forall e, in_range n (spn e) ->
    (edge_ok σ e -> is_Some (chart_insert_edge σ e ch)) /\
    match class_of e es with
    | [] => chart_find σ e ch = Some None
    | cl => exists l i, chart_find σ e ch = Some (Some l) /\ σ !! l = Some i /\ collects i cl
    end.
Proof.
  intros Hn Hm Hrun e Hr. destruct (chart_run_ok n σ ch es Hn Hm Hrun) as [Hok Hdom].
  assert (is_Some (span_container ch !! span_key (spn e))) as Hsome by by apply Hdom.
  split; [|by apply chart_find_ok]. intros He.
  destruct (chart_insert_ok σ ch es e Hok He (one_or_top e Hm) Hsome) as (σ1&ch1&->&_). by eexists.
Qed.

(** C6: Every reachable chart is well typed: it has an entry for exactly the spans of
    the sentence, the cells of a span have different roots, and a cell has at least one
    equivalence, each of the cell's span and root, with at most as many edges as it
    may hold and every child of every edge in the store. *)
Theorem chart_run_typed n σ ch es :
  1 <= n < 65535 -> 1 <= u32 max_equivalents -> chart_run n σ ch es ->
  forall s,
    (is_Some (span_container ch !! span_key s) <-> in_range n s) /\
    exists ts, mapM (cell_root σ) (chart_cells s ch) = Some ts /\ NoDup ts /\
    forall c, c ∈ chart_cells s ch ->
      cell_span σ c = Some s /\ edge_container c <> [] /\
      forall l, l ∈ edge_container c -> exists i,
        σ !! l = Some i /\ cell_root σ c = Some (rt (m_rep i)) /\ spn (m_rep i) = s /\
        Forall (alt_ok σ) (contents i) /\ Z.of_nat (length (contents i)) <= edge_equiv_max i.
Proof.
  intros Hn Hm Hrun s. destruct (chart_run_ok n σ ch es Hn Hm Hrun) as [Hok Hdom]. split; [apply Hdom|].
  unfold chart_cells. destruct (span_container ch !! span_key s) as [cs|] eqn:Hcs; cbn [default];
    [|exists []; split_and!; [done|constructor|by intros c Hc%not_elem_of_nil]].
  destruct (co_cells _ _ _ Hok _ _ Hcs) as (ts&Hts&Hnd). exists ts. split_and!; [|done|].
  - apply mapM_Some. apply (Forall2_flip _ _ _). eapply Forall2_impl; [exact Hts|].
    intros t c. apply cell_root_ok.
  - intros c Hc. apply list_elem_of_lookup in Hc as [j Hj].
    destruct (Forall2_lookup_r _ _ _ _ _ Hts Hj) as (t&_&Hct). pose proof Hct as (Hne&_&Hall&_).
    destruct (cell_span_ok _ _ _ _ Hct) as (s'&Hs'&<-%span_key_inj). split_and!; [done|done|].
    intros l Hl. destruct (Hall l Hl) as (i&Hi&Hik&Hk&<-). exists i.
    split_and!; [done|by apply (cell_root_ok _ _ _ _ Hct)|by apply span_key_inj|..];
      destruct Hik as ((Hn'&Ha)&Halts&?&?); unfold contents, equiv_empty; rewrite Hn'; [by constructor|cbn [length]; lia].
Qed.

(** C15: A new chart has an empty entry for exactly the spans of the sentence. *)
Theorem new_chart_spans n : 1 <= n < 65535 ->
  exists ch, new_chart n = Some ch /\ target_span ch = mk_span 0 n /\
    forall s, span_container ch !! span_key s =
      if decide (0 <= span_left s < span_right s /\ span_right s <= n) then Some [] else None.
Proof.
  intros Hn. destruct (new_chart_ok n Hn) as (ch&?&?&Hk). exists ch. split; [done|]. split; [done|].
  intros s. by rewrite Hk.
Qed.

(** C35: [top_equiv] throws when no edge over the whole sentence with the top tag was
    inserted; else it gives an equivalence of such edges, and none of them has a
    representative with a better score. *)
Theorem top_equiv_best n σ ch es tag :
  1 <= n < 65535 -> 1 <= u32 max_equivalents -> chart_run n σ ch es ->
  let made := Exists (fun e => rt e = tag /\ spn e = mk_span 0 n) es in
  (made -> exists l i, top_equiv σ tag ch = Some (Ok l) /\ σ !! l = Some i /\
         rt (m_rep i) = tag /\ spn (m_rep i) = mk_span 0 n /\
         forall l' i', in_chart ch (0, n) l' -> σ !! l' = Some i' -> rt (m_rep i') = tag ->
           score_lt (total (m_rep i)) (total (m_rep i')) = false) /\
  (~ made -> top_equiv σ tag ch = Some (Throw "didn't build any toplevel items")).
Proof.
  intros Hn Hm Hrun made. destruct (chart_run_ok n σ ch es Hn Hm Hrun) as [Hok Hdom].
  destruct (proj2 (Hdom (0, n)) ltac:(cbn; lia)) as [cs Hcs]. pose proof (co_cells _ _ _ Hok _ _ Hcs) as Hcells.
  destruct (span_edges_spec σ _ tag cs Hcells) as (ls&Hls&Hmem).
  unfold top_equiv, chart_edges. rewrite (max_span_kept n σ ch es Hn Hrun). unfold span_key. cbn [span_left span_right].
  rewrite Hcs, Hls. cbn [mbind option_bind].
  destruct ls as [|b ls].
  - split; [|done]. intros Hex. apply Exists_exists in Hex as (e&He&<-&Hs).
    destruct (co_complete _ _ _ Hok e He) as (x&i&(d&Hd&Hx)&Hi&Heq). rewrite Hs in Hd.
    unfold span_key in Hd. cbn in Hd. rewrite Hcs in Hd. injection Hd as <-.
    destruct (held_key _ _ _ _ Hcells Hx) as (i'&Hi'&Hoki&_). rewrite Hi in Hi'. injection Hi' as <-.
    destruct (not_elem_of_nil x). apply Hmem. exists i. by apply equal_to_spec in Heq as (->&_).
  - destruct (top_equiv_loop_spec σ b ls) as (l&r&->&Hl&Hr&Hall).
    { intros x Hx. apply Hmem in Hx as (i&_&Hi&Hoki&_). eexists. by apply (representative_ok max_equivalents). }
    cbn [mbind option_bind]. apply Hmem in Hl as Hl'. destruct Hl' as (i&Hx&Hi&Hoki&Hrt).
    rewrite (representative_ok max_equivalents _ _ _ Hi Hoki) in Hr. injection Hr as <-.
    destruct (held_key _ _ _ _ Hcells Hx) as (i'&Hi'&_&Hk). rewrite Hi in Hi'. injection Hi' as <-.
    assert (spn (m_rep i) = mk_span 0 n) as Hs by by apply span_key_inj.
    split.
    + intros _. exists l, i. do 4 (split; [done|]). intros l' i' (d&Hd&Hx') Hi' Hrt'. rewrite Hcs in Hd. injection Hd as <-.
      destruct (held_key _ _ _ _ Hcells Hx') as (i0&Hi0&Hok0&_). rewrite Hi' in Hi0. injection Hi0 as <-.
      apply (Hall l'); [apply Hmem; by exists i'|by apply (representative_ok max_equivalents)].
    + intros Hex. destruct Hex. destruct (co_collects _ _ _ Hok (0, n) l ltac:(by exists cs)) as (i0&Hi0&Hc).
      rewrite Hi in Hi0. injection Hi0 as <-. destruct (class_of (m_rep i) es) as [|e r] eqn:Ec; [done|].
      assert (e ∈ class_of (m_rep i) es) as [Hee He]%list_elem_of_filter by (rewrite Ec; left).
      apply Exists_exists. exists e. apply equal_to_spec in Hee as (<-&<-&_). done.
Qed.
End laws.
End chart.

Arguments basic_chart : clear implicits.
Arguments unordered_cell : clear implicits.

(** * Samples *)

#[local] Instance sample_combine : HashCombine := Z.add.

Definition sample_insert_edge (r : equiv_store Z Z * basic_chart Z) (e : edge Z Z)
  : equiv_store Z Z * basic_chart Z :=
  default r (chart_insert_edge typ_and_idx sample_hash_span 4 r.1 e r.2).

(** The chart of a sentence of three words with four edges over it, three of them
    equivalent. *)
Definition sample_start : equiv_store Z Z * basic_chart Z :=
  (sample_store, default (mk_chart 0 ∅) (new_chart 3)).
Definition other_edge : edge Z Z :=
  mk_edge (sample_tag 4) 8 (Some 1%positive) (Some 2%positive) 1 1 (mk_span 0 3) 9.
Definition sample_edges : list (edge Z Z) := [scored 1 7; other_edge; scored 2 5; scored 3 8].
Definition sample_chart : equiv_store Z Z * basic_chart Z := foldl sample_insert_edge sample_start sample_edges.

Lemma sample_edge_ok σ e : match σ !! 1%positive, σ !! 2%positive with
    | Some i1, Some i2 => equiv_empty i1 || equiv_empty i2 | _, _ => true end = false ->
  edge_is_null e = false -> child0 e = Some 1%positive -> child1 e = Some 2%positive -> edge_ok (score := Z) (info_type := Z) σ e.
Proof.
  intros Hσ Hn H0 H1. split; [done|]. unfold alt_ok. cbn. rewrite H0, H1. cbn.
  destruct (σ !! 1%positive) as [i1|]; [|done]. destruct (σ !! 2%positive) as [i2|]; [|done].
  apply orb_false_elim in Hσ as [??]. split; eexists; done.
Qed.

Lemma sample_chart_run :
  chart_run typ_and_idx sample_hash_span 4 3 sample_chart.1 sample_chart.2 sample_edges.
Proof.
  assert (forall r es e, chart_run typ_and_idx sample_hash_span 4 3 r.1 r.2 es -> edge_ok r.1 e ->
    is_Some (chart_insert_edge typ_and_idx sample_hash_span 4 r.1 e r.2) ->
    chart_run typ_and_idx sample_hash_span 4 3 (sample_insert_edge r e).1 (sample_insert_edge r e).2 (es ++ [e])) as Hstep.
  { intros r es e Hr He [[σ ch] Hi]. apply (run_insert _ _ _ _ r.1 r.2); [done..|].
    unfold sample_insert_edge. by rewrite Hi. }
  unfold sample_chart, sample_edges. cbn [foldl].
  apply (Hstep _ [_; _; _]); [apply (Hstep _ [_; _]); [apply (Hstep _ [_]); [apply (Hstep _ []);
    [apply run_new; vm_compute; reflexivity|..]|..]|..]|..];
    first [apply sample_edge_ok; vm_compute; reflexivity|vm_compute; eexists; reflexivity].
Qed.

Lemma chart_run_refines_witness :
  (edge_ok sample_chart.1 (scored 4 6) ->
     is_Some (chart_insert_edge typ_and_idx sample_hash_span 4 sample_chart.1 (scored 4 6) sample_chart.2)) /\
  exists l i, chart_find sample_chart.1 (scored 4 6) sample_chart.2 = Some (Some l) /\
    sample_chart.1 !! l = Some i /\ collects 4 i [scored 1 7; scored 2 5; scored 3 8].
Proof.
  exact (chart_run_refines typ_and_idx sample_hash_span 4 3 sample_chart.1 sample_chart.2 sample_edges
    ltac:(lia) ltac:(vm_compute; discriminate) sample_chart_run (scored 4 6) ltac:(vm_compute; by repeat split)).
Defined.

Lemma chart_run_typed_witness :
  (is_Some (span_container sample_chart.2 !! span_key (mk_span 0 3)) <-> in_range 3 (mk_span 0 3)) /\
  exists ts, mapM (cell_root sample_chart.1) (chart_cells (mk_span 0 3) sample_chart.2) = Some ts /\ NoDup ts.
Proof.
  destruct (chart_run_typed typ_and_idx sample_hash_span 4 3 sample_chart.1 sample_chart.2 sample_edges
    ltac:(lia) ltac:(vm_compute; discriminate) sample_chart_run (mk_span 0 3)) as [H (ts&Hts&Hnd&_)].
  split; [exact H|]. exists ts. split; [exact Hts|exact Hnd].
Defined.

Lemma new_chart_spans_witness :
  exists ch, new_chart (score := Z) 5 = Some ch /\ target_span ch = mk_span 0 5 /\
    forall s, span_container ch !! span_key s =
      if decide (0 <= span_left s < span_right s /\ span_right s <= 5) then Some [] else None.
Proof. apply (new_chart_spans 5). lia. Defined.

Lemma top_equiv_best_witness :
  let made := Exists (fun e => rt e = sample_tag 3 /\ spn e = mk_span 0 3) sample_edges in
  (made -> exists l i, top_equiv sample_chart.1 (sample_tag 3) sample_chart.2 = Some (Ok l) /\
     sample_chart.1 !! l = Some i /\ rt (m_rep i) = sample_tag 3 /\ spn (m_rep i) = mk_span 0 3 /\
     forall l' i', in_chart sample_chart.2 (0, 3) l' -> sample_chart.1 !! l' = Some i' ->
       rt (m_rep i') = sample_tag 3 -> score_lt (total (m_rep i)) (total (m_rep i')) = false) /\
  (~ made -> top_equiv sample_chart.1 (sample_tag 3) sample_chart.2 =
     Some (Throw "didn't build any toplevel items")).
Proof.
  exact (top_equiv_best typ_and_idx sample_hash_span 4 3 sample_chart.1 sample_chart.2 sample_edges (sample_tag 3)
    ltac:(lia) ltac:(vm_compute; discriminate) sample_chart_run).
Defined.
