(* ===== verification/SortedCube.v ===== *)
(** The cube of all combinations of a rule and two equivalences: [sorted_cube]
    (src/sbmt_decoder/include/sbmt/search/sorted_cube.hpp, compiled with
    SBMT_CUBE_HEAP_REDUNDANT_PATHS as its first lines define it).

    A cube is three ranges; an item is a position in each of them, with a pointer
    to its cube, here the number of the cube in the list it is stored in.  A
    range is a list and an iterator into it a [nat], the end being its length. *)
From S2P Require Import Prelude.

Record item := mk_item { parent : nat; xitr : nat; yitr : nat; zitr : nat }.

#[export] Instance item_eq_dec : EqDecision item.
Proof. solve_decision. Defined.

#[export] Instance item_countable : Countable item.
Proof.
  apply (inj_countable' (fun i => (parent i, xitr i, yitr i, zitr i))
    (fun t => mk_item t.1.1.1 t.1.1.2 t.1.2 t.2)).
  by intros [].
Defined.

Definition bad_direction : string := "Impossible direction (should be 1,2, or 3) for sorted_cube".

Section sorted_cube.
Context {A B C : Type}.

Record sorted_cube := mk_cube { xs : list A; ys : list B; zs : list C }.
Implicit Types (c : sorted_cube) (i : item).

(** [x()], [y()] and [z()] *)
Definition item_x c i : option A := xs c !! xitr i.
Definition item_y c i : option B := ys c !! yitr i.
Definition item_z c i : option C := zs c !! zitr i.

(** One direction of [has_successor]: not at the end, and not when advanced. *)
Definition can_advance (itr last : nat) : bool := negb (itr =? last)%nat && negb (S itr =? last)%nat.

Definition has_successor c i (xyz : Z) : result bool :=
  match xyz with
  | 1%Z => Ok (can_advance (xitr i) (length (xs c)))
  | 2%Z => Ok ((xitr i =? 0)%nat && can_advance (yitr i) (length (ys c)))
  | 3%Z => Ok ((xitr i =? 0)%nat && (yitr i =? 0)%nat && can_advance (zitr i) (length (zs c)))
  | _ => Throw bad_direction
  end.

Definition successor i (xyz : Z) : result item :=
  match xyz with
  | 1%Z => Ok (mk_item (parent i) (S (xitr i)) (yitr i) (zitr i))
  | 2%Z => Ok (mk_item (parent i) (xitr i) (S (yitr i)) (zitr i))
  | 3%Z => Ok (mk_item (parent i) (xitr i) (yitr i) (S (zitr i)))
  | _ => Throw bad_direction
  end.

Definition cube_empty c : bool :=
  (length (xs c) =? 0)%nat || (length (ys c) =? 0)%nat || (length (zs c) =? 0)%nat.

(** The lengths are counted, and multiplied, as [size_t]. *)
Definition range_count (l : nat) : Z := u64 (Z.of_nat l).
Definition cube_size c : Z :=
  u64 (u64 (range_count (length (xs c)) * range_count (length (ys c))) * range_count (length (zs c))).

Definition corner (parent : nat) : item := mk_item parent 0 0 0.

Definition fill (xrange : list A) (yrange : list B) (zrange : list C) c : sorted_cube :=
  mk_cube xrange yrange zrange.

(** * The specification *)

Definition in_cube c i : Prop :=
  (xitr i < length (xs c))%nat /\ (yitr i < length (ys c))%nat /\ (zitr i < length (zs c))%nat.

#[export] Instance in_cube_dec c i : Decision (in_cube c i).
Proof. unfold in_cube. apply _. Defined.

(** All items of a cube. *)
Definition items_of (parent : nat) c : list item :=
  seq 0 (length (xs c)) ≫= fun x => seq 0 (length (ys c)) ≫= fun y => mk_item parent x y <$> seq 0 (length (zs c)).

(** [q] is a successor of [p]. *)
Definition successor_of c p q : Prop :=
  exists xyz, has_successor c p xyz = Ok true /\ successor p xyz = Ok q.

(** The steps from the corner to an item. *)
Definition distance i : nat := (xitr i + yitr i + zitr i)%nat.

(** Where the one path to an item comes from: back along the first axis that is not
    at its beginning. *)
Definition predecessor i : option item :=
  match xitr i, yitr i, zitr i with
  | S x, y, z => Some (mk_item (parent i) x y z)
  | O, S y, z => Some (mk_item (parent i) 0 y z)
  | O, O, S z => Some (mk_item (parent i) 0 0 z)
  | O, O, O => None
  end.

(** * Lemmas *)

Lemma elem_of_items_of k c i : i ∈ items_of k c <-> in_cube c i /\ parent i = k.
Proof.
  unfold items_of, in_cube. rewrite list_elem_of_bind. setoid_rewrite list_elem_of_bind.
  setoid_rewrite list_elem_of_fmap. setoid_rewrite elem_of_seq. split.
  - intros (x&(y&(z&->&?)&?)&?). cbn. lia.
  - intros [? <-]. exists (xitr i). split; [|lia]. exists (yitr i). split; [|lia]. exists (zitr i).
    split; [by destruct i|lia].
Qed.

Lemma items_of_NoDup k c : NoDup (items_of k c).
Proof.
  unfold items_of. apply NoDup_bind; [| |apply NoDup_seq].
  - intros a b i _ _ (y&Hi&_)%list_elem_of_bind (y'&Hi'&_)%list_elem_of_bind.
    apply list_elem_of_fmap in Hi as (?&->&_), Hi' as (?&[=]&_). done.
  - intros x _. apply NoDup_bind; [| |apply NoDup_seq].
    + intros a b i _ _ (?&->&_)%list_elem_of_fmap (?&[=]&_)%list_elem_of_fmap. done.
    + intros y _. apply NoDup_fmap_2; [|apply NoDup_seq]. by intros ?? [=].
Qed.

Lemma length_items_of k c : length (items_of k c) = (length (xs c) * (length (ys c) * length (zs c)))%nat.
Proof.
  unfold items_of. rewrite (length_bind_const _ (length (ys c) * length (zs c))), length_seq; [done|].
  intros x _. rewrite (length_bind_const _ (length (zs c))), length_seq; [done|].
  intros y _. by rewrite length_fmap, length_seq.
Qed.

Lemma can_advance_spec itr last : (itr < last)%nat -> can_advance itr last = true <-> (S itr < last)%nat.
Proof. unfold can_advance. intros H. rewrite andb_true_iff, !negb_true_iff, !Nat.eqb_neq. lia. Qed.

(** The three directions. *)
Lemma successor_of_spec c p q : in_cube c p ->
  successor_of c p q <-> in_cube c q /\ predecessor q = Some p.
Proof.
  destruct p as [k x y z]. unfold successor_of, in_cube. cbn [parent xitr yitr zitr]. intros (Hx&Hy&Hz). split.
  - intros (xyz&Hh&Hs). unfold has_successor, successor in *. cbn [parent xitr yitr zitr] in *.
    destruct xyz as [|[[| |]|[| |]|]|]; try done; injection Hh as Hh; injection Hs as <-;
      unfold predecessor; cbn [parent xitr yitr zitr].
    + apply andb_true_iff in Hh as [[->%Nat.eqb_eq ->%Nat.eqb_eq]%andb_true_iff Hh].
      apply can_advance_spec in Hh; [|done]. split; [lia|done].
    + apply andb_true_iff in Hh as [->%Nat.eqb_eq Hh]. apply can_advance_spec in Hh; [|done]. split; [lia|done].
    + apply can_advance_spec in Hh; [|done]. split; [lia|done].
  - destruct q as [k' x' y' z']. unfold predecessor. cbn [parent xitr yitr zitr]. intros [(Hx'&Hy'&Hz') Hp].
    destruct x' as [|x']; [destruct y' as [|y']; [destruct z' as [|z']; [done|]|]|]; injection Hp as -> <- <- <-.
    + exists 3%Z. cbn. split; [|done]. f_equal. apply can_advance_spec; lia.
    + exists 2%Z. cbn. split; [|done]. f_equal. apply can_advance_spec; lia.
    + exists 1%Z. cbn. split; [|done]. f_equal. apply can_advance_spec; lia.
Qed.

Lemma predecessor_distance q p : predecessor q = Some p -> distance q = S (distance p).
Proof.
  destruct q as [k [|x] [|y] [|z]]; unfold predecessor, distance; cbn; intros [= <-]; cbn; lia.
Qed.

Lemma predecessor_in_cube c q p : in_cube c q -> predecessor q = Some p -> in_cube c p.
Proof.
  destruct q as [k [|x] [|y] [|z]]; unfold predecessor, in_cube; cbn; intros ? [= <-]; cbn; lia.
Qed.

Lemma predecessor_parent q p : predecessor q = Some p -> parent p = parent q.
Proof. destruct q as [k [|x] [|y] [|z]]; unfold predecessor; cbn; by intros [= <-]. Qed.

Lemma predecessor_none q : predecessor q = None <-> q = corner (parent q).
Proof. destruct q as [k [|x] [|y] [|z]]; unfold predecessor, corner; cbn; by split. Qed.

Lemma cube_empty_spec c k : cube_empty c = false <-> in_cube c (corner k).
Proof.
  unfold cube_empty, in_cube, corner. cbn. rewrite !orb_false_iff, !Nat.eqb_neq. lia.
Qed.

(** The path by which an item is reached. *)
Inductive path c : item -> list Z -> item -> Prop :=
| path_nil i : path c i [] i
| path_cons i xyz j l k :
    has_successor c i xyz = Ok true -> successor i xyz = Ok j -> path c j l k -> path c i (xyz :: l) k.

Lemma path_snoc c i l j xyz k : path c i l j -> has_successor c j xyz = Ok true -> successor j xyz = Ok k ->
  path c i (l ++ [xyz]) k.
Proof. induction 1; intros; cbn; econstructor; eauto; constructor. Qed.

Lemma path_last c i l k : path c i l k ->
  l = [] /\ k = i \/
  exists l' j xyz, l = l' ++ [xyz] /\ path c i l' j /\ has_successor c j xyz = Ok true /\ successor j xyz = Ok k.
Proof.
  induction 1 as [i|i xyz j l k Hh Hs Hp IH]; [by left|]. right.
  destruct IH as [[-> ->]|(l'&m&d&->&Hp'&Hh'&Hs')].
  - exists [], i, xyz. split_and!; try done. constructor.
  - exists (xyz :: l'), m, d. split_and!; try done. econstructor; eauto.
Qed.

Lemma path_in_cube c i l k : in_cube c i -> path c i l k -> in_cube c k.
Proof.
  intros Hi. induction 1 as [i|i xyz j l k Hh Hs Hp IH]; [done|]. apply IH.
  apply (successor_of_spec c i j Hi). by exists xyz.
Qed.

Lemma successor_direction c i xyz xyz' k : has_successor c i xyz = Ok true -> successor i xyz = Ok k ->
  successor i xyz' = Ok k -> xyz = xyz'.
Proof.
  intros _. unfold successor.
  destruct xyz as [|[[| |]|[| |]|]|]; try done; destruct xyz' as [|[[| |]|[| |]|]|]; try done; intros <- [=]; lia.
Qed.

(** * Theorems *)

(** C29: The successors span the cube as a tree: from the corner of a cube that is not
    empty every item is reached along exactly one path, whose length is the item's
    distance from the corner, and nothing outside the cube is reached.  So no item
    would be met twice, although the macro that selects these directions is called
    SBMT_CUBE_HEAP_REDUNDANT_PATHS. *)
Theorem sorted_cube_spans c k : cube_empty c = false ->
  (forall i, in_cube c i -> parent i = k ->
     exists l, path c (corner k) l i /\ length l = distance i /\ forall l', path c (corner k) l' i -> l' = l) /\
  (forall l i, path c (corner k) l i -> in_cube c i /\ parent i = k).
Proof.
  intros Hc. apply (cube_empty_spec c k) in Hc. split.
  - intros i. remember (distance i) as n eqn:Hn. revert i Hn. induction n as [|n IH]; intros i Hn Hi Hk;
      (destruct (predecessor i) as [p|] eqn:Hp; [|apply predecessor_none in Hp; rewrite Hk in Hp; subst i]).
    1: { apply predecessor_distance in Hp. lia. }
    3: { unfold distance, corner in Hn. cbn in Hn. lia. }
    + exists []. split; [constructor|]. split; [done|]. intros l' Hl'.
      destruct (path_last _ _ _ _ Hl') as [[-> _]|(l&j&xyz&->&Hj&Hh&Hs)]; [done|]. exfalso.
      pose proof (path_in_cube _ _ _ _ Hc Hj) as Hcj.
      by destruct (proj1 (successor_of_spec c j _ Hcj) (ex_intro _ xyz (conj Hh Hs))).
    + pose proof (predecessor_in_cube _ _ _ Hi Hp) as Hpc.
      destruct (IH p) as (l&Hl&Hlen&Hu); [apply predecessor_distance in Hp; lia|done|by rewrite (predecessor_parent _ _ Hp)|].
      assert (successor_of c p i) as (xyz&Hh&Hs) by by apply successor_of_spec.
      exists (l ++ [xyz]). split; [by eapply path_snoc|]. split; [rewrite length_app; cbn; lia|].
      intros l' Hl'. destruct (path_last _ _ _ _ Hl') as [[_ ->]|(l1&j&d&->&Hj&Hhj&Hsj)]; [done|].
      pose proof (path_in_cube _ _ _ _ Hc Hj) as Hcj.
      destruct (proj1 (successor_of_spec c j _ Hcj) (ex_intro _ d (conj Hhj Hsj))) as [_ Hpj].
      rewrite Hp in Hpj. injection Hpj as ->. rewrite (Hu _ Hj). f_equal. f_equal. by eapply successor_direction.
  - intros l i Hl. split; [by eapply path_in_cube|].
    remember (corner k) as i0 eqn:Hi0. assert (parent i0 = k) as Hk by by subst. clear Hi0 Hc.
    induction Hl as [i|i xyz j l k' Hh Hs Hp IH]; [done|]. apply IH.
    unfold successor in Hs. destruct xyz as [|[[| |]|[| |]|]|]; try done; by injection Hs as <-.
Qed.
End sorted_cube.
Arguments sorted_cube : clear implicits.
Arguments mk_cube {A B C}.

Lemma sorted_cube_spans_witness :
  exists l, path (mk_cube [1; 2; 3] [1; 2] [1])%Z (corner 7) l (mk_item 7 2 1 0) /\ length l = 3%nat /\
    forall l', path (mk_cube [1; 2; 3] [1; 2] [1])%Z (corner 7) l' (mk_item 7 2 1 0) -> l' = l.
Proof.
  destruct (sorted_cube_spans (mk_cube [1; 2; 3] [1; 2] [1])%Z 7 eq_refl) as [H _].
  apply (H (mk_item 7 2 1 0)); [vm_compute; lia|reflexivity].
Defined.
