(* ===== verification/Cube.v ===== *)
(** The two loops over a cube of three ranges: [cube_loop] and [cube_heap]
    (src/sbmt_decoder/include/sbmt/search/impl/cube.ipp).

    The predicate is a functor with effects, such as inserting the edge it makes:
    a function on the elements and a state.  [cube_loop] relies on what its comment
    calls the cubic assumption, stated here as [Cubic]. *)
From S2P Require Import Prelude EdgeEquivalence.

(** [std::make_heap] *)
Class MakeHeap (A : Type) := make_heap : (A -> A -> bool) -> list A -> list A.

Class MakeHeapLaws (A : Type) `{!MakeHeap A} : Prop := {
  make_heap_perm comp l : make_heap comp l ≡ₚ l;
  make_heap_heap comp `{!StrictWeak comp} l : is_heap comp (make_heap comp l)
}.

Section cube.
Context {A B C St : Type} `{!StdAlgorithms A, !StdAlgorithms B, !StdAlgorithms C}.
Context (pred : A -> B -> C -> St -> bool * St).
Implicit Types (s : St) (ra : list A) (rb : list B) (rc : list C).

(** All triples, the last range innermost: what [cube_heap] fills its heap with. *)
Definition triples ra rb rc : list (A * B * C) :=
  ra ≫= fun a => rb ≫= fun b => pair (a, b) <$> rc.

(** * [cube_heap] *)

Section heap.
Context `{!StdAlgorithms (A * B * C), !MakeHeap (A * B * C)}.
Context (heaporder : A * B * C -> A * B * C -> bool).
Implicit Types (heap : list (A * B * C)).

(** The loop while [x > 0]; [pop_heap] is called on the first [x] elements. *)
Fixpoint heap_loop (x : nat) heap s : St :=
  match x, heap with
  | S x', t :: _ =>
      let r := pred t.1.1 t.1.2 t.2 s in
      if r.1 then heap_loop x' (pop_heap heaporder (take x heap) ++ drop x heap) r.2 else r.2
  | _, _ => s
  end.

(** [operator()] *)
Definition cube_heap ra rb rc s : St :=
  heap_loop (length ra * length rb * length rc)%nat (make_heap heaporder (triples ra rb rc)) s.

(** ** The specification *)

(** The predicate applied to a list of triples, up to the first that is rejected. *)
Fixpoint test_until (ts : list (A * B * C)) s : St :=
  match ts with
  | [] => s
  | t :: ts => let r := pred t.1.1 t.1.2 t.2 s in if r.1 then test_until ts r.2 else r.2
  end.

Lemma length_triples ra rb rc : length (triples ra rb rc) = (length ra * length rb * length rc)%nat.
Proof.
  unfold triples. rewrite (length_bind_const _ (length rb * length rc)%nat); [lia|].
  intros a _. apply length_bind_const. intros b _. by rewrite length_fmap.
Qed.

Context `{!StrictWeak heaporder, !StdAlgorithmLaws (A * B * C), !MakeHeapLaws (A * B * C)}.

Lemma heap_loop_spec x heap s : (x <= length heap)%nat -> is_heap heaporder (take x heap) ->
  exists l, l ≡ₚ take x heap /\ descending heaporder l /\ heap_loop x heap s = test_until l s.
Proof.
  revert heap s. induction x as [|x IH]; intros heap s Hx Hh.
  { exists []. split; [done|]. split; [constructor|by destruct heap]. }
  destruct heap as [|t heap]; [cbn in Hx; lia|]. cbn [heap_loop take drop].
  destruct (pop_heap_swap heaporder t (take x heap)) as (l'&Hl'&Hp). rewrite Hl'. cbn [length] in Hx.
  assert (length l' = x) as Hlen by (rewrite Hp, length_take; lia).
  destruct (IH ((l' ++ [t]) ++ drop x heap) (pred t.1.1 t.1.2 t.2 s).2) as (l&Hl&Hd&Heq).
  { rewrite !length_app. lia. }
  { rewrite <- app_assoc, take_app_le, take_ge by lia. by eapply pop_heap_heap. }
  rewrite <- app_assoc, take_app_le, take_ge in Hl by lia.
  exists (t :: l). split; [by rewrite Hl, Hp|]. split; [|cbn [test_until]; by rewrite Heq].
  constructor; [done|]. apply Forall_forall. intros t' Ht'.
  apply (heap_front heaporder t (take x heap)); [done|]. right. by rewrite <- Hp, <- Hl.
Qed.

(** [cube_heap] tests triples of the cube best first in the heap's order, up to the
    first one that the predicate rejects: no triple left untested is better than one
    that was tested. *)
Theorem cube_heap_best_first ra rb rc s :
  exists l, l ≡ₚ triples ra rb rc /\ descending heaporder l /\ cube_heap ra rb rc s = test_until l s.
Proof.
  unfold cube_heap. rewrite <- length_triples.
  pose proof (make_heap_perm heaporder (triples ra rb rc)) as Hp.
  destruct (heap_loop_spec (length (triples ra rb rc)) (make_heap heaporder (triples ra rb rc)) s) as (l&Hl&Hd&->).
  - by rewrite Hp.
  - rewrite take_ge by by rewrite Hp. by apply make_heap_heap.
  - rewrite take_ge in Hl by by rewrite Hp. exists l. split; [by rewrite Hl|done].
Qed.
End heap.

(** * [cube_loop] *)

Section loop.
Context (compa : A -> A -> bool) (compb : B -> B -> bool) (compc : C -> C -> bool).

(** The innermost loop, over the range up to [rcend]: the new [rcitr]. *)
Fixpoint loop_z (a : A) (b : B) (cs : list C) (rcitr : nat) s : nat * St :=
  match cs with
  | [] => (rcitr, s)
  | c :: cs =>
      let r := pred a b c s in
      if negb r.1 then (rcitr, r.2) else loop_z a b cs (S rcitr) r.2
  end.

(** The loop over [rb] up to [rbend]: the new [rbitr] and [rcend]. *)
Fixpoint loop_y (a : A) (bs : list B) rc (rbitr rcend : nat) s : nat * nat * St :=
  match bs with
  | [] => (rbitr, rcend, s)
  | b :: bs =>
      let '(rcitr, s) := loop_z a b (take rcend rc) 0 s in
      let rcend := rcitr in
      if (rcend =? 0)%nat then (rbitr, rcend, s) else loop_y a bs rc (S rbitr) rcend s
  end.

(** The loop over [ra]. *)
Fixpoint loop_x ra rb rc (rbend : nat) s : St :=
  match ra with
  | [] => s
  | a :: ra =>
      let '(rbitr, rcend, s) := loop_y a (take rbend rb) rc 0 (length rc) s in
      let rbend := if (rcend =? 0)%nat then rbitr else rbend in
      if (rbend =? 0)%nat && (rcend =? 0)%nat then s else loop_x ra rb rc rbend s
  end.

(** [operator()] sorts the ranges in place. *)
Definition cube_loop ra rb rc s : list A * list B * list C * St :=
  let ra := std_sort compa ra in
  let rb := std_sort compb rb in
  let rc := std_sort compc rc in
  (ra, rb, rc, loop_x ra rb rc (length rb) s).

(** * The specification *)

(** The predicate applied to every one of a list of triples. *)
Definition test s (t : A * B * C) : St := (pred t.1.1 t.1.2 t.2 s).2.
Definition test_all (ts : list (A * B * C)) s : St := foldl test s ts.

(** [t'] is not before [t] in any of the three orders. *)
Definition behind (t t' : A * B * C) : Prop :=
  compa t'.1.1 t.1.1 = false /\ compb t'.1.2 t.1.2 = false /\ compc t'.2 t.2 = false.

(** The cubic assumption: a triple that is rejected leaves the state as it was, and
    from then on everything behind it is rejected.  [later] is any preorder that
    the predicate's effects follow. *)
Class Cubic (later : relation St) : Prop := {
  later_preorder :: PreOrder later;
  later_step a b c s : later s (pred a b c s).2;
  later_rejected t t' s s1 s' : pred t.1.1 t.1.2 t.2 s = (false, s1) -> later s s' -> behind t t' ->
    pred t'.1.1 t'.1.2 t'.2 s' = (false, s')
}.

Context (later : relation St) `{!Cubic later}.
Context `{!StrictWeak compa, !StrictWeak compb, !StrictWeak compc}.
Context `{!StdAlgorithmLaws A, !StdAlgorithmLaws B, !StdAlgorithmLaws C}.

(** Rejected now and ever after. *)
Definition dead s (t : A * B * C) : Prop :=
  forall s', later s s' -> pred t.1.1 t.1.2 t.2 s' = (false, s').

Lemma dead_later s s' t : later s s' -> dead s t -> dead s' t.
Proof. intros Hs Hd s'' Hs''. apply Hd. by etrans. Qed.

Lemma rejected_dead t t' s s1 : pred t.1.1 t.1.2 t.2 s = (false, s1) -> behind t t' -> s1 = s /\ dead s t'.
Proof.
  intros Hp Hb. split.
  - pose proof (later_rejected t t s s1 s Hp (reflexivity s)) as Hr. rewrite Hr in Hp.
    + by injection Hp as <-.
    + split_and!; apply sw_irrefl.
  - intros s' Hs'. by apply (later_rejected t t' s s1 s').
Qed.

Lemma test_dead ts s : (forall t, t ∈ ts -> dead s t) -> test_all ts s = s.
Proof.
  induction ts as [|t ts IH]; intros Hd; [done|]. cbn [test_all foldl]. unfold test at 2.
  rewrite (Hd t ltac:(left) s (reflexivity s)). cbn [snd]. apply IH. intros t' Ht'. apply Hd. by right.
Qed.

Lemma test_all_app ts ts' s : test_all (ts ++ ts') s = test_all ts' (test_all ts s).
Proof. apply foldl_app. Qed.

Lemma test_all_later ts s : later s (test_all ts s).
Proof.
  revert s. induction ts as [|t ts IH]; intros s; [done|]. cbn [test_all foldl]. etrans; [apply later_step|apply IH].
Qed.

(** Everything from [a] and [b] on is rejected with the elements of [cs]. *)
Definition dead_with s (a : A) (b : B) (cs : list C) : Prop :=
  forall a' b' c, compa a' a = false -> compb b' b = false -> c ∈ cs -> dead s (a', b', c).

Abbreviation ordered comp := (StronglySorted (fun x y => comp y x = false)).

Lemma ordered_head {X} (comp : X -> X -> bool) `{!StrictWeak comp} x l y :
  ordered comp (x :: l) -> y ∈ x :: l -> comp y x = false.
Proof.
  intros [_ Hf]%StronglySorted_inv [->|Hy]%elem_of_cons; [apply sw_irrefl|].
  rewrite Forall_forall in Hf. by apply Hf.
Qed.

Lemma ordered_tail {X} (R : relation X) x l : StronglySorted R (x :: l) -> StronglySorted R l.
Proof. by intros [? _]%StronglySorted_inv. Qed.

Lemma ordered_take {X} (R : relation X) n l : StronglySorted R l -> StronglySorted R (take n l).
Proof.
  intros Hs. revert n. induction Hs as [|x l Hs IH Hf]; intros [|n]; cbn; try constructor; [done|].
  by apply Forall_take.
Qed.

Lemma elem_of_drop_split {X} j n (l : list X) x : (j <= n)%nat -> x ∈ drop j l -> x ∈ drop j (take n l) \/ x ∈ drop n l.
Proof.
  intros Hj. rewrite <- (take_drop n l) at 1. destruct (le_lt_dec n (length l)) as [Hn|Hn].
  - rewrite drop_app_le by (rewrite length_take; lia). by rewrite elem_of_app.
  - rewrite take_ge by lia. rewrite (drop_ge l n) by lia. rewrite app_nil_r. by left.
Qed.

Lemma dead_with_nil s a b : dead_with s a b [].
Proof. by intros a' b' c _ _ ?%not_elem_of_nil. Qed.

Lemma loop_z_spec a b cs k s : ordered compc cs ->
  exists j s', loop_z a b cs k s = ((k + j)%nat, s') /\ (j <= length cs)%nat /\
    s' = test_all (pair (a, b) <$> cs) s /\ dead_with s' a b (drop j cs).
Proof.
  revert k s. induction cs as [|c cs IH]; intros k s Hs; cbn [loop_z].
  { exists 0%nat, s. split; [by rewrite Nat.add_0_r|]. split; [done|]. split; [done|]. apply dead_with_nil. }
  destruct (pred a b c s) as [t s1] eqn:Hp. cbn [fst snd]. destruct t; cbn [negb].
  - destruct (IH (S k) s1 (ordered_tail _ _ _ Hs)) as (j&s'&->&Hj&->&Hd).
    assert (Ht : test_all (pair (a, b) <$> cs) s1 = test_all (pair (a, b) <$> c :: cs) s).
    { change s1 with (true, s1).2. by rewrite <- Hp. }
    exists (S j), (test_all (pair (a, b) <$> c :: cs) s). rewrite <- Ht.
    split; [f_equal; lia|]. split; [cbn; lia|]. by split.
  - assert (Hb : forall a' b' c', compa a' a = false -> compb b' b = false -> c' ∈ c :: cs -> s1 = s /\ dead s (a', b', c')).
    { intros a' b' c' Ha' Hb' Hc'. apply (rejected_dead (a, b, c)); [done|].
      split_and!; [done|done|]. by eapply ordered_head. }
    destruct (Hb a b c (sw_irrefl a) (sw_irrefl b) ltac:(left)) as [-> _].
    exists 0%nat, s. split; [by rewrite Nat.add_0_r|]. split; [lia|]. split; [|intros a' b' c' ???; by apply Hb].
    symmetry. apply test_dead. intros t (c'&->&Hc')%list_elem_of_fmap. apply Hb; [apply sw_irrefl..|done].
Qed.

(** The innermost loop up to [rcend] tests the whole range. *)
Lemma loop_z_all a b rc rcend s : ordered compc rc -> dead_with s a b (drop rcend rc) ->
  exists j s', loop_z a b (take rcend rc) 0 s = (j, s') /\ s' = test_all (pair (a, b) <$> rc) s /\
    later s s' /\ dead_with s' a b (drop j rc).
Proof.
  intros Hs Hd. destruct (loop_z_spec a b (take rcend rc) 0 s) as (j&s'&->&Hj&Hs'&Hdj); [by apply ordered_take|].
  assert (Hl : later s s') by (rewrite Hs'; apply test_all_later). exists j, s'. split; [done|].
  split; [|split; [done|]].
  - rewrite <- (take_drop rcend rc) at 1. rewrite fmap_app, test_all_app, <- Hs'. symmetry. apply test_dead.
    intros t (c&->&Hc)%list_elem_of_fmap. apply (dead_later s); [done|]. apply Hd; [apply sw_irrefl..|done].
  - rewrite length_take in Hj. intros a' b' c Ha' Hb' [Hc|Hc]%(elem_of_drop_split j rcend); [by apply Hdj| |lia].
    apply (dead_later s); [done|]. by apply Hd.
Qed.

Lemma loop_y_spec a bs rc k rcend s : ordered compb bs -> ordered compc rc ->
  (forall b, b ∈ bs -> dead_with s a b (drop rcend rc)) ->
  exists j r s', loop_y a bs rc k rcend s = ((k + j)%nat, r, s') /\ (j <= length bs)%nat /\
    s' = test_all (bs ≫= fun b => pair (a, b) <$> rc) s /\ later s s' /\
    (r = 0%nat -> forall b, b ∈ drop j bs -> dead_with s' a b rc).
Proof.
  intros Hbs Hrc. revert k rcend s. induction bs as [|b bs IH]; intros k rcend s Hd; cbn [loop_y].
  { exists 0%nat, rcend, s. split; [by rewrite Nat.add_0_r|]. split; [done|]. split; [done|]. split; [done|].
    by intros _ b ?%not_elem_of_nil. }
  destruct (loop_z_all a b rc rcend s Hrc (Hd b ltac:(left))) as (r&s1&->&Hs1&Hl1&Hd1).
  cbn [mbind list_bind]. rewrite test_all_app, <- Hs1. destruct (Nat.eqb_spec r 0) as [->|Hr].
  - assert (Hall : forall b', b' ∈ b :: bs -> dead_with s1 a b' rc).
    { intros b' Hb' a' b2 c Ha' Hb2 Hc. apply Hd1; [done| |done].
      eapply sw_negtrans; [exact Hb2|by eapply ordered_head]. }
    exists 0%nat, 0%nat, s1. split; [by rewrite Nat.add_0_r|]. split; [lia|]. split; [|done].
    symmetry. apply test_dead. intros t (b'&(c&->&Hc)%list_elem_of_fmap&Hb')%list_elem_of_bind.
    apply (Hall b'); [by right|apply sw_irrefl|apply sw_irrefl|done].
  - destruct (IH (ordered_tail _ _ _ Hbs) (S k) r s1) as (j&r'&s'&->&Hj&->&Hl&Hz).
    { intros b' Hb' a' b2 c Ha' Hb2 Hc. apply Hd1; [done| |done].
      eapply sw_negtrans; [exact Hb2|]. eapply ordered_head; [done|exact Hbs|by right]. }
    eexists (S j), r', _. split; [f_equal; f_equal; lia|]. split; [cbn; lia|]. split; [done|]. split; [by etrans|done].
Qed.

Lemma loop_x_spec ra rb rc rbend s : ordered compa ra -> ordered compb rb -> ordered compc rc ->
  (forall a b, a ∈ ra -> b ∈ drop rbend rb -> dead_with s a b rc) ->
  loop_x ra rb rc rbend s = test_all (triples ra rb rc) s.
Proof.
  intros Hra Hrb Hrc. revert rbend s. induction ra as [|a ra IH]; intros rbend s Hd; [done|]. cbn [loop_x].
  destruct (loop_y_spec a (take rbend rb) rc 0 (length rc) s) as (j&r&s1&->&Hj&Hs1&Hl&Hz);
    [by apply ordered_take|done|intros b _; rewrite drop_all; apply dead_with_nil|].
  assert (Hall : s1 = test_all (rb ≫= fun b => pair (a, b) <$> rc) s).
  { rewrite <- (take_drop rbend rb) at 1. rewrite bind_app, test_all_app, <- Hs1. symmetry. apply test_dead.
    intros t (b&(c&->&Hc)%list_elem_of_fmap&Hb)%list_elem_of_bind. apply (dead_later s); [done|].
    apply (Hd a b); [left|done|apply sw_irrefl|apply sw_irrefl|done]. }
  unfold triples. cbn [mbind list_bind]. rewrite test_all_app, <- Hall. fold (triples ra rb rc).
  assert (Hd1 : forall a' b, a' ∈ ra -> b ∈ drop (if (r =? 0)%nat then j else rbend) rb -> dead_with s1 a' b rc).
  { intros a' b Ha' Hb. destruct (Nat.eqb_spec r 0) as [Hr|_].
    - rewrite length_take in Hj. apply (elem_of_drop_split j rbend) in Hb as [Hb|Hb]; [| |lia].
      + intros a2 b2 c Ha2 Hb2 Hc. apply (Hz Hr b Hb); [|done|done].
        eapply sw_negtrans; [exact Ha2|]. eapply ordered_head; [done|exact Hra|by right].
      + intros a2 b2 c Ha2 Hb2 Hc. apply (dead_later s); [done|]. apply (Hd a' b); [by right|done..].
    - intros a2 b2 c Ha2 Hb2 Hc. apply (dead_later s); [done|]. apply (Hd a' b); [by right|done..]. }
  cbn [Nat.add]. destruct (Nat.eqb_spec r 0) as [Hr|Hr]; [|by rewrite andb_false_r; apply IH; eauto using ordered_tail].
  rewrite andb_true_r. destruct (Nat.eqb_spec j 0) as [->|Hj0]; [|by apply IH; eauto using ordered_tail].
  symmetry. apply test_dead. intros t (a'&(b&(c&->&Hc)%list_elem_of_fmap&Hb)%list_elem_of_bind&Ha')%list_elem_of_bind.
  apply (Hd1 a' b); [done|done|apply sw_irrefl|apply sw_irrefl|done].
Qed.

(** C30: Under the cubic assumption [cube_loop], which leaves out most of the cube, has the
    same effect as testing every triple of the sorted ranges, one after the other. *)
Theorem cube_loop_exhaustive ra rb rc s :
  let '(ra', rb', rc', s') := cube_loop ra rb rc s in
  ra' ≡ₚ ra /\ rb' ≡ₚ rb /\ rc' ≡ₚ rc /\ ordered compa ra' /\ ordered compb rb' /\ ordered compc rc' /\
  s' = test_all (triples ra' rb' rc') s.
Proof.
  unfold cube_loop. do 3 (split; [apply std_sort_perm|]). split; [exact (std_sort_sorted compa ra)|].
  split; [exact (std_sort_sorted compb rb)|]. split; [exact (std_sort_sorted compc rc)|].
  apply loop_x_spec; [exact (std_sort_sorted compa ra)|exact (std_sort_sorted compb rb)|
    exact (std_sort_sorted compc rc)|]. intros a b _ Hb. rewrite drop_all in Hb. by apply not_elem_of_nil in Hb.
Qed.
End loop.
End cube.

(** * Samples *)

#[export] Instance sorted_make_heap A : MakeHeap A := fun comp l => insertion_sort comp l.

#[export] Instance sorted_make_heap_laws A : MakeHeapLaws A.
Proof.
  split; unfold make_heap, sorted_make_heap.
  - intros. apply insertion_sort_perm.
  - intros. by apply descending_heap, insertion_sort_descending.
Qed.

(** The functor of src/sbmt_decoder/test/test_cube.cpp: it records the sums above a
    threshold. *)
Definition sum_threshold (threshold : Z) (x y z : Z) (out : list Z) : bool * list Z :=
  let r := (threshold <? x + y + z)%Z in
  (r, if r then out ++ [(x + y + z)%Z] else out).

(** [std::greater<int>] *)
Definition greater (x y : Z) : bool := (y <? x)%Z.

#[local] Instance greater_sw : StrictWeak greater.
Proof. unfold greater. split; intros; rewrite ?Z.ltb_lt, ?Z.ltb_ge in *; lia. Qed.

#[local] Instance sum_threshold_cubic t : Cubic (sum_threshold t) greater greater greater (fun _ _ => True).
Proof.
  split; [split; by intros ?| |]; [done|].
  intros [[a b] c] [[a' b'] c'] s s1 s' [=H1 H2] _ (Ha&Hb&Hc). unfold greater in *. cbn in *.
  rewrite Z.ltb_ge in *. unfold sum_threshold. by rewrite (proj2 (Z.ltb_ge _ _)) by lia.
Qed.

(** [heap_sum_threshold] of the same test. *)
Definition heap_sum_threshold (x y : Z * Z * Z) : bool :=
  (x.1.1 + x.1.2 + x.2 <? y.1.1 + y.1.2 + y.2)%Z.

#[local] Instance heap_sum_threshold_sw : StrictWeak heap_sum_threshold.
Proof. unfold heap_sum_threshold. split; intros; rewrite ?Z.ltb_lt, ?Z.ltb_ge in *; lia. Qed.

Lemma cube_loop_exhaustive_witness :
  (cube_loop (sum_threshold 8) greater greater greater [3; 1; 2] [4; 1] [5; 2] []).2 =
  test_all (sum_threshold 8) (triples [3; 2; 1] [4; 1] [5; 2]) [] /\
  test_all (sum_threshold 8) (triples [3; 2; 1] [4; 1] [5; 2]) [] = [12; 9; 9; 11; 10]%Z.
Proof.
  pose proof (cube_loop_exhaustive (sum_threshold 8) greater greater greater (fun _ _ => True)
    [3; 1; 2] [4; 1] [5; 2] [])%Z as H.
  cbn in H. split; [exact (proj2 (proj2 (proj2 (proj2 (proj2 (proj2 H))))))|reflexivity].
Defined.

Lemma cube_heap_best_first_witness :
  exists l, l ≡ₚ triples [3; 1; 2]%Z [4; 1]%Z [5; 2]%Z /\ descending heap_sum_threshold l /\
    cube_heap (sum_threshold 8) heap_sum_threshold [3; 1; 2]%Z [4; 1]%Z [5; 2]%Z [] =
    test_until (sum_threshold 8) l [].
Proof. exact (cube_heap_best_first (sum_threshold 8) heap_sum_threshold [3; 1; 2] [4; 1] [5; 2] [])%Z. Defined.
