(* ===== verification/CubeHeap.v ===== *)
(** The exploration of a span's cubes, best edges first: [cube_heap_span_filter]
    (src/sbmt_decoder/include/sbmt/search/cube_heap_span_filter.hpp and
    impl/cube_heap_span_filter.ipp).

    Every application of the rules of one right hand side to the edges of two cells
    is a cube.  [finalize] starts a priority queue with the corner of each cube and
    puts the successors of an item in when the item is taken out; it stops when
    the filter of the span rejects an edge.  The priority queue is any instance of
    [PriorityQueue]; the filter is that of [EdgeFilter]; edges are made by [Edge]. *)
From S2P Require Import Prelude Span PriorityTable PriorityQueue TokenStorage Token Edge EdgeEquivalence EdgeQueue FilterPredicate EdgeFilter SortedCube Generator.
Open Scope Z_scope.

Section cube_heap.
Context {score info_type R G P PQ : Type} `{!ScoreOps score, !ScoreZero score, !InfoOps info_type}.
Context `{!Inhabited score, !Inhabited info_type}.
Abbreviation edge := (edge score info_type).
Abbreviation store := (equiv_store score info_type).
Abbreviation factory := (edge_factory score).
Context `{!GrammarOps R score edge store G, !Generator G (info_type * score * score)}.
Context `{!StdAlgorithms (alt_edge score), HC : !HashCombine}.
Context `{!FilterPredicate (score := score) (info_type := info_type) P}.
Context (hash_token : indexed_token -> Z) (hash_span : span_t -> Z) (max_equivalents : Z).
Abbreviation filter_insert_edge := (filter_insert_edge hash_token hash_span max_equivalents).
Abbreviation filter_insert_edges := (filter_insert_edges hash_token hash_span max_equivalents).
Abbreviation filter_of := (predicate_edge_filter (score := score) (P := P)).
Abbreviation cube := (sorted_cube R positive positive).
Implicit Types (σ : store) (e : edge) (ef : factory) (i : item) (c : cube) (cs : list cube).

(** [pre_post_application] and [post_score_compare] *)
Definition pre_post_application : Type := item * edge.
Definition post_score_compare (p1 p2 : pre_post_application) : bool := score_lt (total p1.2) (total p2.2).

Context `{!PriorityQueue post_score_compare PQ}.

Record cube_heap_span_filter := mk_cube_heap {
  sorted_cube_list : list cube;
  fuzzy_filter : filter_of;
  ch_finalized : bool
}.
Implicit Types s : cube_heap_span_filter.

Definition new_cube_heap (f : filter_of) : cube_heap_span_filter := mk_cube_heap [] f false.

Definition nonempty {X} (l : list X) : bool := match l with [] => false | _ => true end.

(** A cube is added when none of its ranges is empty. *)
Definition apply_rules (rr : list R) (er1 er2 : list positive) s : cube_heap_span_filter :=
  if nonempty rr && nonempty er1 && nonempty er2
  then mk_cube_heap (sorted_cube_list s ++ [mk_cube rr er1 er2]) (fuzzy_filter s) (ch_finalized s)
  else s.

(** [ef.create_edge(gram, pre.x(), pre.y(), pre.z())()]: the first edge of the
    generator, the only one that is asked for. *)
Definition create_first_edge σ ef (r : R) (l1 l2 : positive) : option (edge * factory) :=
  g ← create_binary_edge ef σ r (Some l1) (Some l2);
  x ← edge_generator_call σ g ef;
  Some (x.1.1, x.2).

Definition item_edge cs σ ef i : option (edge * factory) :=
  c ← cs !! parent i;
  r ← item_x c i; l1 ← item_y c i; l2 ← item_z c i;
  create_first_edge σ ef r l1 l2.

(** The local variables of [finalize]. *)
Record search := mk_search { pq : PQ; items_seen : gset item; counter : factory }.
Implicit Types v : search.

Definition push_pre_post cs σ (pre : item) v : option search :=
  if bool_decide (pre ∈ items_seen v) then Some v
  else x ← item_edge cs σ (counter v) pre;
       Some (mk_search (pq_push (lt := post_score_compare) (pre, x.1) (pq v)) ({[pre]} ∪ items_seen v) x.2).

(** The corners of the cubes from number [k] on. *)
Fixpoint push_corners cs σ (k : nat) (rest : list cube) v : option search :=
  match rest with
  | [] => Some v
  | c :: rest =>
      v ← (if negb (cube_empty c) then push_pre_post cs σ (corner k) v else Some v);
      push_corners cs σ (S k) rest v
  end.

(** The loop over the directions; the cube is that of the item. *)
Fixpoint push_successors cs σ (pp : item) (xyzs : list Z) v : option (result search) :=
  match xyzs with
  | [] => Some (Ok v)
  | xyz :: xyzs =>
      c ← cs !! parent pp;
      b ⇐ Some (has_successor c pp xyz);
      if (b : bool) then
        next ⇐ Some (successor pp xyz);
        v ← push_pre_post cs σ next v;
        push_successors cs σ pp xyzs v
      else push_successors cs σ pp xyzs v
  end.

(** The loop while the queue is not empty.  The fuel is the number of items. *)
Fixpoint explore (fuel : nat) cs σ (f : filter_of) v
  : option (result (store * filter_of * search)) :=
  match pq_top (pq v) with
  | None => Some (Ok (σ, f, v))
  | Some p =>
      match fuel with
      | O => None
      | S fuel =>
          '(add_edge, σ, f) ⇐ filter_insert_edge σ p.2 f;
          if bool_decide (add_edge = tri_false) then Some (Ok (σ, f, v))
          else
            v ⇐ push_successors cs σ p.1 [1; 2; 3] (mk_search (pq_pop (pq v)) (items_seen v) (counter v));
            explore fuel cs σ f v
      end
  end.

(** All items of the cubes from number [k] on. *)
Fixpoint all_items (k : nat) cs : list item :=
  match cs with [] => [] | c :: cs => items_of k c ++ all_items (S k) cs end.

(** [finalize]: the member [finalized] is never set. *)
Definition finalize σ ef s : option (result (store * factory * cube_heap_span_filter)) :=
  if ch_finalized s then Some (Ok (σ, ef, s))
  else
    let cs := sorted_cube_list s in
    v ← push_corners cs σ 0 cs (mk_search (pq_new (lt := post_score_compare)) ∅ ef);
    '(σ, f, v) ⇐ explore (length (all_items 0 cs)) cs σ (fuzzy_filter s) v;
    Some (Ok (σ, counter v, mk_cube_heap cs (filter_finalize f) (ch_finalized s))).

Definition is_finalized s : bool := finalized (fuzzy_filter s).
Definition span_empty s : option bool := filter_empty (fuzzy_filter s).
Definition span_top s : option positive := filter_top (fuzzy_filter s).
Definition span_pop σ s : option cube_heap_span_filter :=
  f ← filter_pop hash_token hash_span σ (fuzzy_filter s);
  Some (mk_cube_heap (sorted_cube_list s) f (ch_finalized s)).

(** * The search as an exploration of a forest *)

Definition in_cubes cs i : Prop := exists c, cs !! parent i = Some c /\ in_cube c i.

(** The items in [l] were taken out of the queue, those in [fr] are in it: these
    are the corners, and the successors of what was taken out. *)
Record explored cs (l fr : list item) : Prop := {
  ex_NoDup : NoDup (l ++ fr);
  ex_in i : i ∈ l ++ fr -> in_cubes cs i;
  ex_closed i : in_cubes cs i ->
    i ∈ l ++ fr <-> match predecessor i with None => True | Some p => p ∈ l end
}.

Lemma elem_of_all_items k cs i :
  i ∈ all_items k cs <-> exists j c, cs !! j = Some c /\ in_cube c i /\ parent i = (k + j)%nat.
Proof.
  revert k. induction cs as [|c cs IH]; intros k; cbn [all_items].
  - split; [by intros ?%not_elem_of_nil|]. by intros (j&c&?&_).
  - rewrite elem_of_app, elem_of_items_of, IH. split.
    + intros [[Hi Hk]|(j&c'&Hj&Hi&Hk)]; [exists 0%nat, c; by rewrite Nat.add_0_r|].
      exists (S j), c'. split; [done|]. split; [done|lia].
    + intros ([|j]&c'&Hj&Hi&Hk); [left; injection Hj as ->; split; [done|lia]|].
      right. exists j, c'. split; [done|]. split; [done|lia].
Qed.

Lemma all_items_NoDup k cs : NoDup (all_items k cs).
Proof.
  revert k. induction cs as [|c cs IH]; intros k; cbn [all_items]; [constructor|].
  apply NoDup_app. split; [apply items_of_NoDup|]. split; [|apply IH].
  intros i [_ Hk]%elem_of_items_of (j&_&_&_&Hj)%elem_of_all_items. lia.
Qed.

Lemma in_cubes_all cs i : i ∈ all_items 0 cs <-> in_cubes cs i.
Proof.
  rewrite elem_of_all_items. unfold in_cubes. split.
  - intros (j&c&Hj&Hi&->). by exists c.
  - intros (c&Hc&Hi). by exists (parent i), c.
Qed.

Lemma explored_length cs l fr : explored cs l fr -> (length (l ++ fr) <= length (all_items 0 cs))%nat.
Proof.
  intros [Hnd Hin _]. apply submseteq_length. apply NoDup_submseteq; [done|].
  intros i Hi. by apply in_cubes_all, Hin.
Qed.

(** When the queue is empty everything has been taken out. *)
Lemma explored_all cs l i : explored cs l [] -> in_cubes cs i -> i ∈ l.
Proof.
  intros [_ _ Hcl]. remember (distance i) as n eqn:Hn. revert i Hn.
  induction n as [|n IH]; intros i Hn Hi; pose proof (Hcl i Hi) as Hc; rewrite app_nil_r in Hc; apply Hc;
    destruct (predecessor i) as [p|] eqn:Hp; try done.
  - apply predecessor_distance in Hp. lia.
  - apply IH; [apply predecessor_distance in Hp; lia|]. destruct Hi as (c&Hc'&Hi).
    exists c. rewrite (predecessor_parent _ _ Hp). split; [done|]. by eapply predecessor_in_cube.
Qed.

(** Every item that was not reached is behind one that is in the queue. *)
Lemma explored_behind cs l fr (le : relation item) `{!PreOrder le} i : explored cs l fr ->
  (forall j p, in_cubes cs j -> predecessor j = Some p -> le j p) ->
  in_cubes cs i -> i ∉ l -> exists j, j ∈ fr /\ le i j.
Proof.
  intros Hex Hle. remember (distance i) as n eqn:Hn. revert i Hn.
  induction n as [|n IH]; intros i Hn Hi Hl; (destruct (decide (i ∈ fr)) as [Hf|Hf]; [by exists i|]);
    pose proof (ex_closed _ _ _ Hex i Hi) as Hc; rewrite elem_of_app in Hc;
    (destruct (predecessor i) as [p|] eqn:Hp; [|tauto]).
  - apply predecessor_distance in Hp. lia.
  - assert (Hip : in_cubes cs p).
    { destruct Hi as (c&Hc'&Hi). exists c. rewrite (predecessor_parent _ _ Hp). split; [done|].
      by eapply predecessor_in_cube. }
    destruct (IH p) as (j&Hj&Hlej); [apply predecessor_distance in Hp; lia|done|tauto|].
    exists j. split; [done|]. etrans; [by apply Hle|done].
Qed.

Lemma explored_perm cs l fr fr' : fr ≡ₚ fr' -> explored cs l fr -> explored cs l fr'.
Proof.
  intros Hp [Hnd Hin Hcl]. split.
  - by rewrite <- Hp.
  - intros i. rewrite <- Hp. apply Hin.
  - intros i Hi. rewrite <- Hp. by apply Hcl.
Qed.

(** The successors of an item. *)
Definition next_items c i (xyzs : list Z) : list item :=
  omap (fun xyz => match has_successor c i xyz, successor i xyz with Ok true, Ok j => Some j | _, _ => None end) xyzs.

Lemma next_items_cons c i xyz xyzs b j : has_successor c i xyz = Ok b -> successor i xyz = Ok j ->
  next_items c i (xyz :: xyzs) = (if b then [j] else []) ++ next_items c i xyzs.
Proof. intros Hb Hj. unfold next_items. cbn [omap list_omap]. rewrite Hb, Hj. by destruct b. Qed.

Lemma elem_of_next_items c i j : in_cube c i ->
  j ∈ next_items c i [1; 2; 3] <-> in_cube c j /\ predecessor j = Some i.
Proof.
  intros Hi. rewrite <- (successor_of_spec c i j Hi). unfold next_items, successor_of.
  rewrite list_elem_of_omap. split.
  - intros (xyz&_&Hj). exists xyz. destruct (has_successor c i xyz) as [[]|], (successor i xyz); try done.
    by injection Hj as <-.
  - intros (xyz&Hh&Hs). exists xyz. rewrite Hh, Hs. split; [|done].
    unfold successor in Hs. destruct xyz as [|[[| |]|[| |]|]|]; try done; rewrite !elem_of_cons; tauto.
Qed.

Lemma next_items_NoDup c i : NoDup (next_items c i [1; 2; 3]).
Proof.
  unfold next_items, has_successor, successor. cbn.
  destruct (can_advance _ _), (_ && can_advance _ _), (_ && _ && can_advance _ _);
    cbn; repeat constructor; rewrite ?elem_of_cons, ?elem_of_nil; intros Hn; decompose [or] Hn; try done;
    match goal with E : mk_item _ _ _ _ = _ |- _ => injection E; lia end.
Qed.

Lemma explored_start cs fr : NoDup fr ->
  (forall i, i ∈ fr <-> in_cubes cs i /\ predecessor i = None) -> explored cs [] fr.
Proof.
  intros Hnd Hfr. split; [done|by intros i [? _]%Hfr|]. intros i Hi. cbn [app]. rewrite Hfr.
  destruct (predecessor i); [|tauto]. rewrite elem_of_nil. split; [by intros [_ ?]|done].
Qed.

Lemma explored_step cs l fr i c : explored cs l (i :: fr) -> cs !! parent i = Some c ->
  explored cs (l ++ [i]) (next_items c i [1; 2; 3] ++ fr).
Proof.
  intros [Hnd Hin Hcl] Hc. assert (Hi : in_cube c i).
  { destruct (Hin i) as (c'&Hc'&?); [apply elem_of_app; right; left|]. congruence. }
  assert (Hnext : forall j, j ∈ next_items c i [1; 2; 3] <-> in_cubes cs j /\ predecessor j = Some i).
  { intros j. rewrite (elem_of_next_items c i j Hi). split.
    - intros [Hj Hp]. split; [|done]. exists c. by rewrite <- (predecessor_parent _ _ Hp).
    - intros [(c'&Hc'&Hj) Hp]. split; [|done]. rewrite <- (predecessor_parent _ _ Hp) in Hc'. congruence. }
  assert (Hp : (l ++ [i]) ++ next_items c i [1; 2; 3] ++ fr ≡ₚ next_items c i [1; 2; 3] ++ l ++ i :: fr).
  { generalize (next_items c i [1; 2; 3]). intros next. solve_Permutation. }
  assert (Hil : i ∉ l).
  { intros Hl. apply NoDup_app in Hnd as (_&Hd&_). apply (Hd i Hl). left. }
  split.
  - rewrite Hp. apply NoDup_app. split; [apply next_items_NoDup|]. split; [|done].
    intros j [Hj Hpj]%Hnext Hjin. apply Hcl in Hjin; [|done]. by rewrite Hpj in Hjin.
  - intros j. rewrite Hp, elem_of_app. intros [[Hj _]%Hnext|Hj]; [done|by apply Hin].
  - intros j Hj. rewrite Hp, elem_of_app, (Hcl j Hj), Hnext. destruct (predecessor j) as [p|]; [|tauto].
    rewrite elem_of_app, list_elem_of_singleton. split.
    + intros [[_ [= ->]]|Hpl]; [by right|by left].
    + intros [Hpl| ->]; [by right|by left].
Qed.

(** An item's edge is made from the first info of its rule and equivalences. *)
Lemma item_edge_ok cs σ ef i c r l1 l2 (i1 i2 : edge_equivalence_impl score info_type) (v : info_type * score * score) vs :
  cs !! parent i = Some c -> item_x c i = Some r -> item_y c i = Some l1 -> item_z c i = Some l2 ->
  σ !! l1 = Some i1 -> σ !! l2 = Some i2 -> equiv_empty i1 = false -> equiv_empty i2 = false ->
  rule_rhs r 0 = Some (rt (m_rep i1)) -> rule_rhs r 1 = Some (rt (m_rep i2)) -> rule_rhs_size r = 2 ->
  let s := combine (spn (m_rep i1)) (spn (m_rep i2)) in
  yields (create_info σ r s [m_rep i1; m_rep i2]) (v :: vs) ->
  item_edge cs σ ef i =
    Some (edge_of_info ef r (Some l1) (Some l2) s
            (fun x => score_mul (score_mul x (inside (m_rep i1))) (inside (m_rep i2))) v, log_create_edge ef).
Proof.
  intros Hc Hx Hy Hz H1 H2 He1 He2 Hr1 Hr2 Hs s (_&Hp&g&Hpop&_)%yields_cons_inv. subst s.
  unfold item_edge, create_first_edge. rewrite Hc; cbn [mbind option_bind]. rewrite Hx, Hy, Hz; cbn [mbind option_bind].
  rewrite (create_binary_edge_ok ef σ r l1 l2 i1 i2) by done. cbn [mbind option_bind].
  unfold edge_generator_call, gcall, new_edge_generator. cbn [eg_generator]. rewrite Hp; cbn [mbind option_bind].
  rewrite Hpop; cbn [mbind option_bind]. destruct v as [[inf ins] h].
  cbn [eg_generator tm_inside tm_heuristic eg_rule_id eg_root eg_e1 eg_e2].
  unfold new_edge. cbn [deref]. rewrite H1. cbn [mbind option_bind]. by rewrite H2.
Qed.

(** * The run *)

Abbreviation queue_ok := (queue_ok hash_token hash_span max_equivalents).
Abbreviation items q := (priority_heap (ptable q)).

(** Inserting edges until one is answered with [false]: what [finalize] does to the
    filter and the store when it takes out the items in [l], then perhaps [last]. *)
Definition inserts_until σ0 (f0 : filter_of) (es : list edge) (last : option edge) σ (f : filter_of) : Prop :=
  exists σ1 f1, filter_insert_edges σ0 es f0 = Some (Ok (σ1, f1)) /\
    match last with
    | None => σ = σ1 /\ f = f1
    | Some e => filter_insert_edge σ1 e f1 = Some (Ok (tri_false, σ, f))
    end.

Section run.
Context `{!PriorityQueueLaws post_score_compare PQ}.
Context `{!StdAlgorithmLaws (alt_edge score), !InfoLaws info_type, !StrictWeak (score_lt (S := score)),
  !ScoreZeroLaws score}.
Context `{!PredicateSafe hash_token hash_span max_equivalents P}.
Context (cs : list cube) (σ0 : store) (ef0 : factory) (f0 : filter_of) (edge_at : item -> edge).
Implicit Types (f : filter_of) (l fr : list item).

(** The first edge of each item can be made, whatever has been inserted. *)
Class EdgesMade : Prop := {
  made σ n i : σ0 ⊆ σ -> in_cubes cs i ->
    item_edge cs σ (count_edges n ef0) i = Some (edge_at i, count_edges (S n) ef0);
  made_ok i : in_cubes cs i -> edge_ok σ0 (edge_at i);
  made_max i : in_cubes cs i -> 1 <= edge_equiv_max max_equivalents (pool_create (edge_at i))
}.
Context `{!EdgesMade}.

(** ** The queue *)

Record searching (l fr : list item) (n : nat) v : Prop := {
  se_queue : pq_elems (lt := post_score_compare) (pq v) ≡ₚ (fun i => (i, edge_at i)) <$> fr;
  se_seen i : i ∈ items_seen v <-> i ∈ l ++ fr;
  se_counter : counter v = count_edges n ef0
}.

Lemma push_pre_post_ok σ l fr n v i : σ0 ⊆ σ -> searching l fr n v -> in_cubes cs i -> i ∉ l ++ fr ->
  exists v', push_pre_post cs σ i v = Some v' /\ searching l (i :: fr) (S n) v'.
Proof.
  intros Hσ [Hq Hs Hc] Hi Hn. unfold push_pre_post. rewrite bool_decide_eq_false_2 by by rewrite Hs.
  rewrite Hc, (made σ n i Hσ Hi). cbn [mbind option_bind fst snd]. eexists. split; [done|]. split; cbn [pq items_seen counter].
  - rewrite (pq_elems_push (Q := PQ)). cbn [fmap list_fmap]. by rewrite Hq.
  - intros j. rewrite elem_of_union, elem_of_singleton, Hs, !elem_of_app, elem_of_cons. tauto.
  - done.
Qed.

(** The corners of the cubes that are not empty. *)
Fixpoint corners (k : nat) (rest : list cube) : list item :=
  match rest with
  | [] => []
  | c :: rest => if negb (cube_empty c) then corner k :: corners (S k) rest else corners (S k) rest
  end.

Lemma elem_of_corners k rest i :
  i ∈ corners k rest <-> exists j c, rest !! j = Some c /\ i = corner (k + j) /\ in_cube c i.
Proof.
  revert k. induction rest as [|c rest IH]; intros k; cbn [corners].
  { split; [by intros ?%not_elem_of_nil|]. by intros (j&c&?&_). }
  assert (Hrest : i ∈ corners (S k) rest <-> exists j c0, (c :: rest) !! S j = Some c0 /\ i = corner (k + S j) /\ in_cube c0 i).
  { rewrite IH. setoid_rewrite Nat.add_succ_r. cbn [lookup list_lookup Nat.add]. done. }
  destruct (cube_empty c) eqn:E; cbn [negb]; rewrite ?elem_of_cons, Hrest; clear Hrest; split.
  - intros (j&Hj). by exists (S j).
  - intros ([|j]&c0&Hj&Hi&Hc0); [|by exists j, c0]. injection Hj as ->. rewrite Hi in Hc0.
    apply cube_empty_spec in Hc0. congruence.
  - intros [->|(j&Hj)]; [|by exists (S j)]. exists 0%nat, c. rewrite Nat.add_0_r. split; [done|].
    split; [done|by apply cube_empty_spec].
  - intros ([|j]&c0&Hj&Hi&Hc0); [left; by rewrite Nat.add_0_r in Hi|right; by exists j, c0].
Qed.

Lemma corners_NoDup k rest : NoDup (corners k rest).
Proof.
  revert k. induction rest as [|c rest IH]; intros k; cbn [corners]; [constructor|].
  destruct (cube_empty c); [apply IH|]. constructor; [|apply IH].
  intros (j&c0&_&Hi&_)%elem_of_corners. injection Hi. lia.
Qed.

Lemma explored_corners : explored cs [] (corners 0 cs).
Proof.
  apply explored_start; [apply corners_NoDup|]. intros i. rewrite elem_of_corners, predecessor_none. split.
  - intros (j&c&Hj&->&Hc). split; [|done]. by exists c.
  - intros [(c&Hc&Hi) Hp]. exists (parent i), c. done.
Qed.

Lemma push_corners_ok σ k done rest fr n v : σ0 ⊆ σ -> cs = done ++ rest -> k = length done ->
  searching [] fr n v -> (forall i, i ∈ fr -> (parent i < k)%nat) ->
  exists v' fr' n', push_corners cs σ k rest v = Some v' /\ fr' ≡ₚ fr ++ corners k rest /\ searching [] fr' n' v'.
Proof.
  intros Hσ. revert k done fr n v. induction rest as [|c rest IH]; intros k done fr n v Hcs Hk Hv Hlt; cbn [push_corners corners].
  { exists v, fr, n. rewrite app_nil_r. done. }
  assert (Hcs' : cs = (done ++ [c]) ++ rest) by by rewrite <- app_assoc.
  assert (Hk' : S k = length (done ++ [c])) by (rewrite length_app; cbn [length]; lia).
  destruct (cube_empty c) eqn:E; cbn [negb].
  - cbn [mbind option_bind]. apply (IH (S k) (done ++ [c]) fr n v Hcs' Hk' Hv). intros i Hi. specialize (Hlt i Hi). lia.
  - destruct (push_pre_post_ok σ [] fr n v (corner k) Hσ Hv) as (v1&->&Hv1).
    + exists c. split; [|by apply cube_empty_spec]. cbn [parent corner]. rewrite Hcs, Hk. by apply list_lookup_middle.
    + intros Hi. specialize (Hlt _ Hi). cbn in Hlt. lia.
    + cbn [mbind option_bind]. destruct (IH (S k) (done ++ [c]) (corner k :: fr) (S n) v1 Hcs' Hk' Hv1) as (v'&fr'&n'&->&Hp&Hv').
      * intros i [->|Hi]%elem_of_cons; [cbn; lia|]. specialize (Hlt i Hi). lia.
      * exists v', fr', n'. split; [done|]. split; [|done]. rewrite Hp. cbn [app]. apply Permutation_middle.
Qed.

Lemma push_successors_ok σ l i c xyzs fr n v : σ0 ⊆ σ -> cs !! parent i = Some c -> in_cube c i ->
  xyzs ⊆+ [1; 2; 3] -> searching l fr n v -> NoDup (next_items c i xyzs) ->
  (forall j, j ∈ next_items c i xyzs -> in_cubes cs j /\ j ∉ l ++ fr) ->
  exists v' fr' n', push_successors cs σ i xyzs v = Some (Ok v') /\ fr' ≡ₚ next_items c i xyzs ++ fr /\
    searching l fr' n' v'.
Proof.
  intros Hσ Hc Hi. revert fr n v. induction xyzs as [|xyz xyzs IH]; intros fr n v Hsub Hv Hnd Hin; cbn [push_successors].
  { exists v, fr, n. done. }
  assert (Hh : exists b, has_successor c i xyz = Ok b /\ exists j, successor i xyz = Ok j).
  { assert (Hx : xyz ∈ [1; 2; 3]) by (eapply elem_of_submseteq; [left|exact Hsub]).
    rewrite !elem_of_cons, elem_of_nil in Hx. decompose [or] Hx; try done; subst; cbn; eauto. }
  destruct Hh as (b&Hb&j&Hj). rewrite (next_items_cons c i xyz xyzs b j Hb Hj) in Hnd, Hin |- *.
  rewrite Hc. cbn [mbind option_bind rbind]. rewrite Hb.
  cbn [rbind mbind option_bind]. assert (Hsub' : xyzs ⊆+ [1; 2; 3]) by (etrans; [|exact Hsub]; by apply submseteq_cons).
  destruct b; cbn [app] in *; [|by apply (IH fr n v)].
  rewrite Hj. cbn [rbind mbind option_bind].
  apply NoDup_cons in Hnd as [Hjn Hnd]. destruct (Hin j ltac:(left)) as [Hjc Hjf].
  destruct (push_pre_post_ok σ l fr n v j Hσ Hv Hjc Hjf) as (v1&->&Hv1). cbn [mbind option_bind].
  destruct (IH (j :: fr) (S n) v1 Hsub' Hv1 Hnd) as (v'&fr'&n'&->&Hp&Hv').
  - intros k Hk. destruct (Hin k ltac:(by right)) as [Hkc Hkf]. split; [done|].
    rewrite elem_of_app, elem_of_cons in *. intros [?|[->|?]]; tauto.
  - exists v', fr', n'. split; [done|]. split; [|done]. rewrite Hp. cbn [app]. symmetry. apply Permutation_middle.
Qed.

(** ** The filter *)

(** The filter after the items in [l]. *)
Abbreviation filtering l := (inserted hash_token hash_span max_equivalents σ0 f0 (edge_at <$> l)).

Lemma filtering_step l σ f i : filtering l σ f -> in_cubes cs i -> insertions (edge_at <$> l ++ [i]) <= pq_limit ->
  exists t σ' f', filter_insert_edge σ (edge_at i) f = Some (Ok (t, σ', f')) /\ filtering (l ++ [i]) σ' f'.
Proof.
  intros Hf Hi Hn. rewrite fmap_app in Hn |- *. apply (inserted_step hash_token hash_span max_equivalents σ0 f0 (edge_at <$> l) σ f (edge_at i));
    [done|by apply made_ok|by apply made_max|done].
Qed.

(** ** Best first *)

(** [j] is no better than [i]. *)
Definition no_better (j i : item) : Prop := noworse score_lt (total (edge_at i)) (total (edge_at j)).

(** Scores do not rise along the cubes. *)
Definition falling : Prop := forall j p, in_cubes cs j -> predecessor j = Some p -> no_better j p.

Definition best_first (l fr : list item) : Prop :=
  StronglySorted (fun i j => no_better j i) l /\ forall i j, i ∈ l -> j ∈ fr -> no_better j i.

#[export] Instance no_better_preorder : PreOrder no_better.
Proof.
  split; [intros i; apply sw_irrefl|]. intros i j k H1 H2. unfold no_better, noworse in *. eapply sw_negtrans; eauto.
Qed.

Lemma best_first_step l fr i next : best_first l (i :: fr) -> (forall j, j ∈ fr -> no_better j i) ->
  (forall j, j ∈ next -> no_better j i) -> best_first (l ++ [i]) (next ++ fr).
Proof.
  intros [Hs Hl] Hfr Hnext. split.
  - apply StronglySorted_app. split; [|split; [done|repeat constructor]].
    intros x y Hx ->%list_elem_of_singleton. apply Hl; [done|left].
  - intros x j [Hx| ->%list_elem_of_singleton]%elem_of_app [Hj|Hj]%elem_of_app; try by auto.
    + transitivity i; [by apply Hnext|]. apply Hl; [done|left].
    + apply Hl; [done|by right].
Qed.

(** ** The loop *)

Lemma top_of_frontier l fr n v p : searching l fr n v -> pq_top (pq v) = Some p ->
  exists i fr', p = (i, edge_at i) /\ fr ≡ₚ i :: fr' /\ (forall j, j ∈ fr -> no_better j i) /\
    searching (l ++ [i]) fr' n (mk_search (pq_pop (pq v)) (items_seen v) (counter v)).
Proof.
  intros [Hq Hs Hc] Htop. pose proof (pq_elems_pop (Q := PQ) _ _ Htop) as Hpop.
  assert (Hp : p ∈ (fun i => (i, edge_at i)) <$> fr) by (rewrite <- Hq, Hpop; left).
  apply list_elem_of_fmap in Hp as (i&->&Hi). destruct (proj1 (elem_of_Permutation _ _) Hi) as [fr' Hfr].
  exists i, fr'. split; [done|]. split; [done|]. split.
  - intros j Hj. apply (pq_top_best (Q := PQ) (pq v) (i, edge_at i) (j, edge_at j) Htop).
    rewrite Hq. apply list_elem_of_fmap. by exists j.
  - split; cbn [pq items_seen counter]; [|intros j; by rewrite Hs, Hfr, <- app_assoc|done].
    rewrite Hfr, Hpop in Hq. by apply Permutation_cons_inv in Hq.
Qed.

Lemma empty_frontier l fr n v : searching l fr n v -> pq_top (pq v) = None -> fr = [].
Proof.
  intros [Hq _ _] Htop. apply (proj1 (pq_top_none (Q := PQ) (pq v))) in Htop.
  assert (E : length (pq_elems (lt := post_score_compare) (pq v)) = 0%nat) by by rewrite Htop.
  rewrite Hq, length_fmap in E. by destruct fr.
Qed.

Lemma insertions_bound l : (length l <= length (all_items 0 cs))%nat ->
  insertions (edge_at <$> l) <= insertions (edge_at <$> all_items 0 cs).
Proof. unfold insertions. rewrite !length_fmap. nia. Qed.

(** How the search ends: nothing is left in the queue, or the best item in it is
    answered with [false]. *)
Definition search_end (l fr : list item) σ f : Prop :=
  exists σ1 f1, filtering l σ1 f1 /\
    (fr = [] /\ σ = σ1 /\ f = f1 \/
     exists i, i ∈ fr /\ (forall j, j ∈ fr -> no_better j i) /\
       filter_insert_edge σ1 (edge_at i) f1 = Some (Ok (tri_false, σ, f))).

Lemma explore_ok fuel l fr n σ f v :
  insertions (edge_at <$> all_items 0 cs) <= pq_limit ->
  filtering l σ f -> explored cs l fr -> searching l fr n v -> (falling -> best_first l fr) ->
  (length (all_items 0 cs) <= fuel + length l)%nat ->
  exists l' fr' n' σ' f' v', explore fuel cs σ f v = Some (Ok (σ', f', v')) /\
    explored cs l' fr' /\ counter v' = count_edges n' ef0 /\ (falling -> best_first l' fr') /\
    search_end l' fr' σ' f'.
Proof.
  intros Hlim. revert l fr n σ f v. induction fuel as [|fuel IH]; intros l fr n σ f v Hf Hex Hv Hb Hfuel; cbn [explore];
    pose proof (explored_length _ _ _ Hex) as Hlen; rewrite length_app in Hlen;
    (destruct (pq_top (pq v)) as [p|] eqn:Htop;
      [destruct (top_of_frontier l fr n v p Hv Htop) as (i&fr1&->&Hfr&Hbest&Hv1)|]).
  2, 4: pose proof (empty_frontier l fr n v Hv Htop) as ->; destruct Hv as [_ _ Hc];
    exists l, [], n, σ, f, v; (do 4 (split; [done|])); exists σ, f; split; [done|by left].
  { rewrite Hfr in Hlen. cbn [length] in Hlen. lia. }
  pose proof (explored_perm _ _ _ _ Hfr Hex) as Hex1. rewrite Hfr in Hlen. cbn [length] in Hlen.
  assert (Hi : in_cubes cs i) by (apply (ex_in _ _ _ Hex1), elem_of_app; right; left).
  destruct (filtering_step l σ f i Hf Hi) as (t&σ'&f'&Hins&Hf').
  { etrans; [apply insertions_bound|exact Hlim]. rewrite length_app. cbn [length]. lia. }
  cbn [fst snd]. rewrite Hins. cbn [rbind mbind option_bind].
  destruct (bool_decide_reflect (t = tri_false)) as [->|Ht].
  - exists l, fr, n, σ', f', v. split; [done|]. split; [done|]. split; [by destruct Hv|]. split; [done|].
    exists σ, f. split; [done|]. right. exists i. split; [rewrite Hfr; left|]. done.
  - destruct Hi as (c&Hc&Hi). pose proof (explored_step cs l fr1 i c Hex1 Hc) as Hex2.
    pose proof Hex2 as [Hnd2 Hin2 _].
    destruct (push_successors_ok σ' (l ++ [i]) i c [1; 2; 3] fr1 n _ (in_sub _ _ _ _ _ _ _ _ Hf') Hc Hi ltac:(done) Hv1) as (v2&fr2&n2&Hpush&Hfr2&Hv2).
    + apply NoDup_app in Hnd2 as (_&_&Hnd2). by apply NoDup_app in Hnd2 as (?&_).
    + intros j Hj. split; [apply Hin2; rewrite !elem_of_app; tauto|].
      apply NoDup_app in Hnd2 as (_&Hd1&(_&Hd2&_)%NoDup_app). rewrite elem_of_app. intros [Hjl|Hjf].
      * apply (Hd1 j Hjl). apply elem_of_app. by left.
      * by apply (Hd2 j Hj).
    + cbn [fst]. rewrite Hpush. cbn [rbind mbind option_bind].
      apply (IH (l ++ [i]) fr2 n2 σ' f' v2); [done|by eapply explored_perm; [symmetry|]|done| |rewrite length_app; cbn [length]; lia].
      intros Hfall. specialize (Hb Hfall).
      destruct (best_first_step l fr1 i (next_items c i [1; 2; 3])) as [H1 H2].
      * destruct Hb as [Hs Hl]. split; [done|]. intros x y. rewrite <- Hfr. apply Hl.
      * intros j Hj. apply Hbest. rewrite Hfr. by right.
      * intros j Hj. apply (elem_of_next_items c i j Hi) in Hj as [Hjc Hp]. apply Hfall; [|done].
        exists c. by rewrite <- (predecessor_parent _ _ Hp).
      * split; [done|]. intros x y. rewrite Hfr2. apply H2.
Qed.

(** ** Theorems *)

Lemma count_no_edges : count_edges 0 ef0 = ef0.
Proof. destruct ef0. unfold count_edges. cbn. f_equal. lia. Qed.

(** [finalize] as a search. *)
Lemma finalize_ok p : new_filter p = Some (Ok f0) -> insertions (edge_at <$> all_items 0 cs) <= pq_limit ->
  exists l fr n σ f, finalize σ0 ef0 (mk_cube_heap cs f0 false) =
      Some (Ok (σ, count_edges n ef0, mk_cube_heap cs (filter_finalize f) false)) /\
    explored cs l fr /\ (falling -> best_first l fr) /\ search_end l fr σ f.
Proof.
  intros Hf%(inserted_new hash_token hash_span max_equivalents σ0) Hlim. unfold finalize. cbn [ch_finalized sorted_cube_list fuzzy_filter].
  assert (Hv : searching [] [] 0 (mk_search (pq_new (lt := post_score_compare)) ∅ ef0)).
  { split; cbn [pq items_seen counter]; [by rewrite (pq_elems_new (Q := PQ))| |by rewrite count_no_edges].
    intros i. by rewrite elem_of_empty, elem_of_nil. }
  destruct (push_corners_ok σ0 0 [] cs [] 0 _ ltac:(done) eq_refl eq_refl Hv) as (v&fr&n&->&Hfr&Hv1);
    [by intros i ?%not_elem_of_nil|]. cbn [mbind option_bind app] in *.
  destruct (explore_ok (length (all_items 0 cs)) [] fr n σ0 f0 v Hlim Hf)
    as (l'&fr'&n'&σ'&f'&v'&->&Hex&Hc&Hb&Hend); [by eapply explored_perm, explored_corners|done| |lia|].
  - intros _. split; [constructor|]. by intros i j ?%not_elem_of_nil.
  - cbn [rbind mbind option_bind]. rewrite Hc. by exists l', fr', n', σ', f'.
Qed.

(** C26: [finalize] ends, and what it does to the filter is to insert the edges of
    different items, one after the other: those of all items of all cubes, or up to
    the first one that the filter answers with [false].  When scores do not rise
    along the cubes it inserts the edges best first, and no edge left out is
    better than the one that was rejected. *)
Theorem cube_heap_explores p :
  new_filter p = Some (Ok f0) -> insertions (edge_at <$> all_items 0 cs) <= pq_limit ->
  exists l n σ1 f1 σ f,
    finalize σ0 ef0 (mk_cube_heap cs f0 false) =
      Some (Ok (σ, count_edges n ef0, mk_cube_heap cs (filter_finalize f) false)) /\
    NoDup l /\ (forall i, i ∈ l -> in_cubes cs i) /\
    filter_insert_edges σ0 (edge_at <$> l) f0 = Some (Ok (σ1, f1)) /\
    (falling -> StronglySorted (fun i j => no_better j i) l) /\
    ((forall i, in_cubes cs i -> i ∈ l) /\ σ = σ1 /\ f = f1 \/
     exists i, in_cubes cs i /\ (i ∉ l) /\
       filter_insert_edge σ1 (edge_at i) f1 = Some (Ok (tri_false, σ, f)) /\
       (falling -> (forall j, j ∈ l -> no_better i j) /\ (forall j, in_cubes cs j -> j ∉ l -> no_better j i))).
Proof.
  intros Hf Hlim. destruct (finalize_ok p Hf Hlim) as (l&fr&n&σ&f&Hfin&Hex&Hb&σ1&f1&Hf1&Hend).
  clear Hf. exists l, n, σ1, f1, σ, f. split; [done|].
  split; [by destruct Hex as [(?&_&_)%NoDup_app _ _]|]. split; [intros i Hi; apply (ex_in _ _ _ Hex), elem_of_app; by left|].
  split; [apply Hf1|]. split; [intros Hfall; apply Hb, Hfall|].
  destruct Hend as [(->&->&->)|(i&Hi&Hbest&Hins)].
  - left. split; [|done]. intros i. by apply explored_all.
  - right. exists i. split; [apply (ex_in _ _ _ Hex), elem_of_app; by right|].
    split; [destruct Hex as [(_&Hd&_)%NoDup_app _ _]; intros Hl; by apply (Hd i)|]. split; [done|].
    intros Hfall. split; [intros j Hj; by apply (Hb Hfall)|]. intros j Hj Hjl.
    destruct (explored_behind cs l fr no_better j Hex Hfall Hj Hjl) as (k&Hk&Hjk).
    transitivity k; [done|by apply Hbest].
Qed.
End run.
End cube_heap.

Arguments cube_heap_span_filter : clear implicits.

(** * The exploration with a beam *)

Section beam.
Context {score info_type R G PQ : Type} `{!ScoreOps score, !ScoreZero score, !InfoOps info_type}.
Context `{!Inhabited score, !Inhabited info_type}.
Abbreviation edge := (edge score info_type).
Abbreviation store := (equiv_store score info_type).
Context `{!GrammarOps R score edge store G, !Generator G (info_type * score * score)}.
Context `{!StdAlgorithms (alt_edge score), HC : !HashCombine}.
Context (hash_token : indexed_token -> Z) (hash_span : span_t -> Z) (max_equivalents : Z).
Context `{!PriorityQueue (post_score_compare (score := score) (info_type := info_type)) PQ, !PriorityQueueLaws post_score_compare PQ}.
Context `{!StdAlgorithmLaws (alt_edge score), !InfoLaws info_type, !StrictWeak (score_lt (S := score)),
  !ScoreZeroLaws score}.
Context (cs : list (sorted_cube R positive positive)) (σ0 : store) (ef0 : edge_factory score) (edge_at : item -> edge).
Context `{!EdgesMade max_equivalents cs σ0 ef0 edge_at}.

Lemma alike_part es rest (all : list edge) : all ≡ₚ es ++ rest -> ordered_alike all -> ordered_alike es.
Proof. intros Hp. apply ordered_alike_sub. intros e He. rewrite Hp. apply elem_of_app. by left. Qed.

(** The edges of what was taken out, then of the rest. *)
Lemma explored_rest l fr : explored cs l fr ->
  exists rest, all_items 0 cs ≡ₚ l ++ rest /\ forall i, i ∈ rest <-> in_cubes cs i /\ i ∉ l.
Proof.
  intros Hex. pose proof Hex as [(Hnd&_&_)%NoDup_app Hin _].
  destruct (submseteq_Permutation l (all_items 0 cs)) as [rest Hp].
  { apply NoDup_submseteq; [done|]. intros i Hi. apply in_cubes_all, Hin, elem_of_app. by left. }
  exists rest. split; [done|]. intros i. pose proof (all_items_NoDup 0 cs) as Hall. rewrite Hp in Hall.
  apply NoDup_app in Hall as (_&Hd&_). rewrite <- in_cubes_all, Hp, elem_of_app. split; [|tauto].
  intros Hi. split; [by right|]. intros Hl. by apply (Hd i).
Qed.

(** The beam of what was inserted is that of all edges. *)
Lemma beam_of_all thr f0 l fr σ f `{!Beam thr} : ratio_run hash_token hash_span max_equivalents thr σ0 [] f0 ->
  insertions (edge_at <$> all_items 0 cs) <= pq_limit -> ordered_alike (edge_at <$> all_items 0 cs) ->
  falling cs edge_at ->
  explored cs l fr -> search_end hash_token hash_span max_equivalents σ0 f0 edge_at l fr σ f ->
  keeps_beam thr (edge_at <$> all_items 0 cs) (queued σ (pqueue f)).
Proof.
  pose proof EdgesMade0 as [_ Hok Hmax]. intros Hrun0 Hlim Halike Hfall Hex (σ1&f1&[Hrun _ _ _ Hsub _]&Hend).
  destruct (explored_rest l fr Hex) as (rest&Hp&Hrest).
  assert (Hpe : edge_at <$> all_items 0 cs ≡ₚ (edge_at <$> l) ++ (edge_at <$> rest)) by (rewrite <- fmap_app; by apply fmap_Permutation).
  assert (Hl : forall i, i ∈ l -> in_cubes cs i) by (intros i Hi; apply in_cubes_all; rewrite Hp; apply elem_of_app; by left).
  assert (Hins : insertions (edge_at <$> l) <= insertions (edge_at <$> all_items 0 cs)).
  { apply insertions_bound. rewrite Hp, length_app. lia. }
  destruct (ratio_runs hash_token hash_span max_equivalents thr (edge_at <$> l) [] σ0 f0 Hrun0) as (σ2&f2&Hrun2&Hratio);
    [|  |by eapply alike_part|cbn [app]; lia|].
  1, 2: apply Forall_fmap, Forall_forall; intros i Hi; cbn; by auto.
  rewrite Hrun in Hrun2. injection Hrun2 as <- <-. cbn [app] in Hratio. symmetry in Hpe.
  destruct Hend as [(->&->&->)|(i&Hi&Hbest&Hfalse)].
  - assert (rest = []) as ->.
    { destruct rest as [|j rest]; [done|]. destruct (proj1 (Hrest j) ltac:(left)) as [Hj Hjl].
      destruct Hjl. by eapply explored_all. }
    rewrite app_nil_r in Hpe. eapply keeps_beam_perm; [apply _|exact Hpe|apply Hratio].
  - pose proof (ratio_rejected _ _ _ thr σ1 _ _ f1 σ f Hratio Hfalse) as Hlow.
    assert (Hir : i ∈ rest).
    { apply Hrest. split; [apply (ex_in _ _ _ Hex), elem_of_app; by right|].
      destruct Hex as [(_&Hd&_)%NoDup_app _ _]. intros Hl'. by apply (Hd i). }
    destruct (proj1 (Hrest i) Hir) as [Hic Hil].
    assert (Hlows : forall j, j ∈ rest -> score_lt (total (edge_at j)) (score_mul thr (best_score (edge_at <$> l))) = true).
    { intros j [Hj Hjl]%Hrest. destruct (explored_behind cs l fr (no_better edge_at) j Hex Hfall Hj Hjl) as (k&Hk&Hjk).
      eapply le_lt_trans; [|exact Hlow].
      change (no_better edge_at j i). transitivity k; [done|by apply Hbest]. }
    assert (Hlen : (S (length l) <= length (all_items 0 cs))%nat).
    { rewrite Hp, length_app. destruct rest; [by apply not_elem_of_nil in Hir|cbn [length]; lia]. }
    apply elem_of_Permutation in Hir as [rest' Hr'].
    assert (Hall : ((edge_at <$> l) ++ [edge_at i]) ++ (edge_at <$> rest') ≡ₚ edge_at <$> all_items 0 cs).
    { rewrite <- Hpe, (fmap_Permutation edge_at _ _ Hr'). by rewrite <- app_assoc. }
    destruct (ratio_step hash_token hash_span max_equivalents thr σ1 (edge_at <$> l) (edge_at i) f1 Hratio)
      as (t&σ2&f2&Hins2&[_ _ _ _ Hkeeps]&_).
    + eapply edge_ok_subseteq; [done|]. by apply Hok.
    + by apply Hmax.
    + eapply alike_part; [symmetry; exact Hall|done].
    + etrans; [|exact Hlim]. rewrite insertions_snoc. unfold insertions. rewrite !length_fmap. nia.
    + rewrite Hfalse in Hins2. injection Hins2 as _ <- <-. eapply keeps_beam_perm; [apply _|exact Hall|].
      apply keeps_beam_low; [apply _|done|]. intros r (j&->&Hj)%list_elem_of_fmap.
      eapply lt_le_trans; [apply Hlows; rewrite Hr'; by right|apply beam_rises; apply _].
Qed.

(** C27: With a beam the exploration of the cubes loses nothing if scores do not rise along
    the cubes, although it stops at the first edge below the beam: of the edges of all items
    of all cubes the filter has one representative for each class of equivalent edges that
    has an edge not below the threshold times the best score of all, with the best score of
    its class, and nothing else.  Equivalent edges are supposed to have their totals ordered
    as their inside scores.  (When scores rise along the cubes, for which the fuzz of the
    filter is meant, nothing is said.) *)
Theorem cube_heap_keeps_beam thr p `{!Beam thr} :
  new_ratio thr = Some p -> insertions (edge_at <$> all_items 0 cs) <= pq_limit ->
  ordered_alike (edge_at <$> all_items 0 cs) -> falling cs edge_at ->
  exists f0 σ n f, new_filter p = Some (Ok f0) /\
    finalize (PQ := PQ) hash_token hash_span max_equivalents σ0 ef0 (mk_cube_heap cs f0 false) =
      Some (Ok (σ, count_edges n ef0, mk_cube_heap cs (filter_finalize f) false)) /\
    keeps_beam thr (edge_at <$> all_items 0 cs) (queued σ (pqueue f)).
Proof.
  intros Hp Hlim Halike Hfall. destruct (ratio_run_new hash_token hash_span max_equivalents thr p σ0 Hp) as (f0&Hf0&Hrun0).
  exists f0. destruct (finalize_ok (PQ := PQ) hash_token hash_span max_equivalents cs σ0 ef0 f0 edge_at p Hf0 Hlim)
    as (l&fr&n&σ&f&Hfin&Hex&Hb&Hend).
  exists σ, n, f. exact (conj Hf0 (conj Hfin (beam_of_all thr f0 l fr σ f Hrun0 Hlim Halike Hfall Hex Hend))).
Qed.
End beam.

(** * Samples *)

#[local] Instance sample_combine : HashCombine := Z.add.

(** Rules 3 -> 1, 2 with numbers that are their costs; the info of an edge tells the
    rule and the first child. *)
#[local] Instance cost_grammar :
  GrammarOps Z (option Z) (edge (option Z) Z) (equiv_store (option Z) Z) (list (Z * option Z * option Z)) := {|
  rule_rhs _ i := [sample_tag 1; sample_tag 2] !! i;
  rule_rhs_size _ := 2;
  rule_lhs _ := sample_tag 3;
  rule_number r := r;
  rule_score r := Some (- r);
  rule_score_estimate _ := Some 0;
  create_info _ r _ es := [(r + foldr (fun e s => info e + s) 0 es, Some 0, Some 0)]
|}.

Definition cost_edge (t inside n l r : Z) : edge (option Z) Z :=
  mk_edge (sample_tag t) 0 None None (Some inside) (Some inside) (mk_span l r) n.

(** Two equivalences of tag 1 and one of tag 2. *)
Definition cost_store : equiv_store (option Z) Z :=
  <[1%positive := mk_equiv [] (cost_edge 1 (-4) 10 0 1)]>
  (<[2%positive := mk_equiv [] (cost_edge 1 (-7) 20 0 1)]>
   {[3%positive := mk_equiv [] (cost_edge 2 (-1) 0 1 2)]}).

Definition cost_cubes : list (sorted_cube Z positive positive) :=
  [mk_cube [1; 5] [1%positive; 2%positive] [3%positive]; mk_cube [2] [] [3%positive]].

Definition cost_factory : edge_factory (option Z) := mk_factory None id (Some 0) 0.

Definition cost_at (i : item) : edge (option Z) Z :=
  match item_edge cost_cubes cost_store cost_factory i with
  | Some x => x.1
  | None => cost_edge 3 0 0 0 2
  end.

Lemma cost_items : all_items 0 cost_cubes = [mk_item 0 0 0 0; mk_item 0 0 1 0; mk_item 0 1 0 0; mk_item 0 1 1 0].
Proof. reflexivity. Qed.

Lemma cost_cases (Q : item -> Prop) : Forall Q (all_items 0 cost_cubes) -> forall i, in_cubes cost_cubes i -> Q i.
Proof. intros HQ i Hi%in_cubes_all. rewrite Forall_forall in HQ. by apply HQ. Qed.

Lemma cost_made_step σ n i r l1 l2 i1 i2 :
  item_x (mk_cube [1; 5] [1%positive; 2%positive] [3%positive]) i = Some r ->
  item_y (mk_cube [1; 5] [1%positive; 2%positive] [3%positive]) i = Some l1 ->
  item_z (mk_cube [1; 5] [1%positive; 2%positive] [3%positive]) i = Some l2 ->
  parent i = 0%nat -> cost_store !! l1 = Some i1 -> cost_store !! l2 = Some i2 ->
  equiv_empty i1 = false -> equiv_empty i2 = false ->
  rt (m_rep i1) = sample_tag 1 -> rt (m_rep i2) = sample_tag 2 ->
  cost_store ⊆ σ ->
  cost_at i = edge_of_info cost_factory r (Some l1) (Some l2) (combine (spn (m_rep i1)) (spn (m_rep i2)))
    (fun x => score_mul (score_mul x (inside (m_rep i1))) (inside (m_rep i2)))
    (r + foldr (fun e s => info e + s) 0 [m_rep i1; m_rep i2], Some 0, Some 0) ->
  item_edge cost_cubes σ (count_edges n cost_factory) i = Some (cost_at i, count_edges (S n) cost_factory).
Proof.
  intros Hx Hy Hz Hp H1 H2 He1 He2 Hr1 Hr2 Hσ ->.
  rewrite (item_edge_ok cost_cubes σ _ i (mk_cube [1; 5] [1%positive; 2%positive] [3%positive]) r l1 l2 i1 i2
    (r + foldr (fun e s => info e + s) 0 [m_rep i1; m_rep i2], Some 0, Some 0) []); try done.
  - f_equal. f_equal. unfold log_create_edge, count_edges, cost_factory. cbn. f_equal. lia.
  - by rewrite Hp.
  - by eapply lookup_weaken.
  - by eapply lookup_weaken.
  - by rewrite Hr1.
  - by rewrite Hr2.
  - apply yields_range.
Qed.

#[local] Instance cost_edges_made : EdgesMade 4 cost_cubes cost_store cost_factory cost_at.
Proof.
  split.
  - intros σ n i Hσ. apply (cost_cases (fun i => item_edge cost_cubes σ (count_edges n cost_factory) i =
      Some (cost_at i, count_edges (S n) cost_factory))).
    rewrite cost_items. do 4 (constructor; [by eapply cost_made_step|]). constructor.
  - apply (cost_cases (fun i => edge_ok cost_store (cost_at i))). rewrite cost_items.
    do 4 (constructor; [split; [done|split; by eexists]|]). constructor.
  - apply (cost_cases (fun i => 1 <= edge_equiv_max 4 (pool_create (cost_at i)))). rewrite cost_items.
    do 4 (constructor; [vm_compute; discriminate|]). constructor.
Qed.

Lemma cost_falling : falling cost_cubes cost_at.
Proof.
  intros j p Hj. revert p. revert j Hj.
  apply (cost_cases (fun j => forall p, predecessor j = Some p -> no_better cost_at j p)). rewrite cost_items.
  do 4 (constructor; [by intros p [= <-]|]). constructor.
Qed.

Lemma cost_alike : ordered_alike (cost_at <$> all_items 0 cost_cubes).
Proof.
  apply inequivalent_alike. rewrite cost_items. cbn [fmap list_fmap]. repeat split; intros r Hr;
    rewrite ?elem_of_cons, ?elem_of_nil in Hr; decompose [or] Hr; subst; (done || vm_compute; reflexivity).
Qed.

#[local] Instance cost_compare_sw : StrictWeak (post_score_compare (score := option Z) (info_type := Z)).
Proof. apply (sw_pullback score_lt (fun p : item * edge (option Z) Z => total p.2)). Qed.

Abbreviation cost_queue := (sorted_queue (post_score_compare (score := option Z) (info_type := Z))).
Abbreviation cost_finalize := (finalize (PQ := cost_queue) (G := list (Z * option Z * option Z)) typ_and_idx sample_hash_span 4
  cost_store cost_factory).

Lemma cube_heap_explores_witness :
  exists f0 l n σ1 f1 σ f,
    new_filter (new_histogram 2) = Some (Ok f0) /\
    cost_finalize (mk_cube_heap cost_cubes f0 false) =
      Some (Ok (σ, count_edges n cost_factory, mk_cube_heap cost_cubes (filter_finalize f) false)) /\
    NoDup l /\ (forall i, i ∈ l -> in_cubes cost_cubes i) /\
    filter_insert_edges typ_and_idx sample_hash_span 4 cost_store (cost_at <$> l) f0 = Some (Ok (σ1, f1)) /\
    StronglySorted (fun i j => no_better cost_at j i) l.
Proof.
  destruct (new_filter_ok typ_and_idx sample_hash_span 4 (new_histogram 2) cost_store)
    as (f0&Hf0&_).
  destruct (cube_heap_explores (PQ := cost_queue) (G := list (Z * option Z * option Z)) typ_and_idx sample_hash_span 4
    cost_cubes cost_store cost_factory f0 cost_at (new_histogram 2) Hf0) as (l&n&σ1&f1&σ&f&H1&H2&H3&H4&H5&_).
  - rewrite cost_items. vm_compute. discriminate.
  - exists f0, l, n, σ1, f1, σ, f. exact (conj Hf0 (conj H1 (conj H2 (conj H3 (conj H4 (H5 cost_falling)))))).
Defined.

Lemma cube_heap_keeps_beam_witness :
  exists f0 σ n f, new_filter (mk_ratio (Some (-3)) None) = Some (Ok f0) /\
    cost_finalize (mk_cube_heap cost_cubes f0 false) =
      Some (Ok (σ, count_edges n cost_factory, mk_cube_heap cost_cubes (filter_finalize f) false)) /\
    keeps_beam (Some (-3)) (cost_at <$> all_items 0 cost_cubes) (queued σ (pqueue f)).
Proof.
  pose proof (log_beam (-3) ltac:(lia)) as Hbeam.
  apply (cube_heap_keeps_beam (PQ := cost_queue) (G := list (Z * option Z * option Z)) typ_and_idx sample_hash_span 4
    cost_cubes cost_store cost_factory cost_at (Some (-3)) (mk_ratio (Some (-3)) None)).
  - reflexivity.
  - rewrite cost_items. vm_compute. discriminate.
  - exact cost_alike.
  - exact cost_falling.
Defined.

(** The member that should make [finalize] idempotent is never set: called again, it
    throws. *)
Example finalize_again_throws :
  match new_filter (new_histogram 2) with
  | Some (Ok f0) =>
      match cost_finalize (mk_cube_heap cost_cubes f0 false) with
      | Some (Ok (σ, ef, s)) =>
          Some (span_empty s, is_finalized s,
                finalize (PQ := cost_queue) typ_and_idx sample_hash_span 4 σ ef s)
      | _ => None
      end
  | _ => None
  end = Some (Some false, true, Some (Throw filter_finalized_msg)).
Proof. vm_compute. reflexivity. Qed.

(** The two best of the four edges are kept, in three insertions. *)
Example cost_histogram :
  match new_filter (new_histogram 2) with
  | Some (Ok f0) =>
      match cost_finalize (mk_cube_heap cost_cubes f0 false) with
      | Some (Ok (σ, ef, s)) => Some (total <$> queued σ (pqueue (fuzzy_filter s)), num_edges ef)
      | _ => None
      end
  | _ => None
  end = Some ([Some (-9); Some (-6)], 4).
Proof. vm_compute. reflexivity. Qed.
