(* ===== verification/RuleMap.v ===== *)
(** The rules by their right hand side: [sorted_rules_for_rhs], [sorted_rhs_map] and
    [signature_index_map] (src/sbmt_decoder/include/sbmt/grammar/sorted_rhs_map.hpp).

    The maps are hashed containers keyed by the right hand side of one of the rules;
    here they are lists without order, looked up by the equality of the code.  A
    rule is asked for its right hand side by position, a position out of range
    being [None]. *)
From S2P Require Import Prelude PriorityTable TokenStorage Token Edge EdgeEquivalence EdgeQueue.
Open Scope Z_scope.

(** * Signatures *)

(** What [uniform_access] makes of a rule and of an array of tokens. *)
Record rhs_key := mk_key { key_size : Z; key_at : nat -> option indexed_token }.
Definition array_key (l : list indexed_token) : rhs_key := mk_key (Z.of_nat (length l)) (fun x => l !! x).

(** [sig::first] *)
Definition sig_first (k : rhs_key) : option indexed_token := key_at k 0.

(** [sig::equal] *)
Fixpoint equal_loop (n x : nat) (k1 k2 : rhs_key) : option bool :=
  match n with
  | O => Some true
  | S n => t1 ← key_at k1 x; t2 ← key_at k2 x;
           if negb (indexed_equal t1 t2) then Some false else equal_loop n (S x) k1 k2
  end.
Definition sig_equal (k1 k2 : rhs_key) : option bool :=
  if negb (key_size k1 =? key_size k2) then Some false
  else equal_loop (Z.to_nat (key_size k1)) 0 k1 k2.

(** [sig::hash]; [sizeof(sz)] is 8. *)
Fixpoint hash_loop `{!HashCombine} (hash_token : indexed_token -> Z) (n x : nat) (k : rhs_key) (retval : Z) : option Z :=
  match n with
  | O => Some retval
  | S n => t ← key_at k x; hash_loop hash_token n (S x) k (hash_combine retval (hash_token t))
  end.
Definition sig_hash `{!HashCombine} (hash_token : indexed_token -> Z) (k : rhs_key) : option Z :=
  let sz := key_size k in
  hash_loop hash_token (Z.to_nat sz) 0 k (Z.lor (u64 (Z.shiftl sz 2)) (Z.shiftr sz (8 - 2))).

(** Every position below the size can be read. *)
Definition key_ok (k : rhs_key) : Prop :=
  0 <= key_size k /\ forall x, (x < Z.to_nat (key_size k))%nat -> is_Some (key_at k x).

(** The tokens of a key. *)
Definition signature (k : rhs_key) : list indexed_token := omap (key_at k) (seq 0 (Z.to_nat (key_size k))).

Lemma array_key_ok l : key_ok (array_key l).
Proof.
  split; cbn [key_size array_key]; [lia|]. intros x Hx. rewrite Nat2Z.id in Hx. by apply lookup_lt_is_Some.
Qed.

Lemma signature_from k x n : (forall y, (x <= y < x + n)%nat -> is_Some (key_at k y)) ->
  omap (key_at k) (seq x n) = (fun y => default (mk_indexed 0) (key_at k y)) <$> seq x n.
Proof.
  revert x. induction n as [|n IH]; intros x Hx; [done|]. cbn [seq omap list_omap fmap list_fmap].
  destruct (Hx x ltac:(lia)) as [t ->]. cbn [default id]. f_equal. apply IH. intros y Hy. apply Hx. lia.
Qed.

Lemma length_signature k : key_ok k -> Z.of_nat (length (signature k)) = key_size k.
Proof.
  intros [H0 Hk]. unfold signature. rewrite signature_from by (intros; apply Hk; lia).
  rewrite length_fmap, length_seq. lia.
Qed.

Lemma indexed_equal_spec t1 t2 : indexed_equal t1 t2 = bool_decide (t1 = t2).
Proof.
  unfold indexed_equal. destruct t1 as [a], t2 as [b]. cbn.
  destruct (Z.eqb_spec a b) as [->|Hne]; [by rewrite bool_decide_eq_true_2|].
  rewrite bool_decide_eq_false_2; congruence.
Qed.

Lemma equal_loop_spec n x k1 k2 :
  (forall y, (x <= y < x + n)%nat -> is_Some (key_at k1 y) /\ is_Some (key_at k2 y)) ->
  equal_loop n x k1 k2 = Some (bool_decide (omap (key_at k1) (seq x n) = omap (key_at k2) (seq x n))).
Proof.
  revert x. induction n as [|n IH]; intros x Hx; cbn [equal_loop seq omap list_omap].
  { by rewrite bool_decide_eq_true_2. }
  destruct (Hx x ltac:(lia)) as [[t1 H1] [t2 H2]]. rewrite H1, H2. cbn [mbind option_bind].
  rewrite indexed_equal_spec. case_bool_decide as Ht; cbn [negb].
  - subst. rewrite IH by (intros; apply Hx; lia). f_equal. apply bool_decide_ext.
    split; [by intros ->|by intros [=]].
  - rewrite bool_decide_eq_false_2; [done|congruence].
Qed.

(** Equality is that of the signatures. *)
Lemma sig_equal_spec k1 k2 : key_ok k1 -> key_ok k2 ->
  sig_equal k1 k2 = Some (bool_decide (signature k1 = signature k2)).
Proof.
  intros Hk1 Hk2. unfold sig_equal. destruct (Z.eqb_spec (key_size k1) (key_size k2)) as [Hs|Hs]; cbn [negb].
  - unfold signature. rewrite <- Hs. apply equal_loop_spec. intros y Hy. destruct Hk1 as [_ Hk1], Hk2 as [_ Hk2].
    rewrite <- Hs in Hk2. split; [apply Hk1|apply Hk2]; lia.
  - rewrite bool_decide_eq_false_2; [done|]. intros E. apply Hs. by rewrite <- !length_signature, E.
Qed.

Lemma hash_loop_spec `{!HashCombine} hash_token n x k1 k2 h :
  (forall y, (x <= y < x + n)%nat -> key_at k1 y = key_at k2 y) ->
  hash_loop hash_token n x k1 h = hash_loop hash_token n x k2 h.
Proof.
  revert x h. induction n as [|n IH]; intros x h Hx; cbn [hash_loop]; [done|].
  rewrite (Hx x) by lia. destruct (key_at k2 x); [|done]. cbn [mbind option_bind]. apply IH. intros. apply Hx. lia.
Qed.

Lemma signature_lookup k x : key_ok k -> (x < Z.to_nat (key_size k))%nat -> signature k !! x = key_at k x.
Proof.
  intros [H0 Hk] Hx. unfold signature. rewrite signature_from by (intros; apply Hk; lia).
  rewrite list_lookup_fmap, lookup_seq_lt by done. cbn. by destruct (Hk x Hx) as [t ->].
Qed.

(** Equal keys have equal hashes, as the containers require. *)
Lemma sig_equal_hash `{!HashCombine} hash_token k1 k2 : key_ok k1 -> key_ok k2 ->
  sig_equal k1 k2 = Some true -> sig_hash hash_token k1 = sig_hash hash_token k2.
Proof.
  intros Hk1 Hk2 He. rewrite sig_equal_spec in He by done. injection He as He%bool_decide_eq_true.
  assert (Hs : key_size k1 = key_size k2) by (by rewrite <- !length_signature, He).
  unfold sig_hash. rewrite Hs. apply hash_loop_spec. intros y Hy.
  rewrite <- !signature_lookup; [by rewrite He|done|lia|done|rewrite Hs; lia].
Qed.

Section rule_map.
Context {score R : Type} `{!ScoreOps score, !ScoreZero score, !StdAlgorithms (R * score)}.
Context (rule_lhs : R -> indexed_token) (rhs_size : R -> Z) (rhs : R -> nat -> option indexed_token).
Context (rule_heuristic : R -> score).
Implicit Types (r : R) (rs : list R) (k : rhs_key).

Definition rule_key r : rhs_key := mk_key (rhs_size r) (rhs r).

(** * [sorted_rules_for_rhs] *)

Abbreviation rule_vec := (list (R * score)).
Abbreviation rhs_map_t := (list (R * list (R * score))).
Implicit Types (m : rhs_map_t) (v : rule_vec).

(** [sort_op] *)
Definition sort_op (p1 p2 : R * score) : bool := score_lt p2.2 p1.2.

(** [rhs_map.find(k)]: the place of the entry. *)
Fixpoint find_rhs k m : option (option nat) :=
  match m with
  | [] => Some None
  | e :: m =>
      b ← sig_equal (rule_key e.1) k;
      if (b : bool) then Some (Some 0%nat) else o ← find_rhs k m;
           Some (match o with Some j => Some (S j) | None => None end)
  end.

(** [get_vec(r, is_new)]: the place of the vector, the map with it, and whether it is
    new. *)
Definition get_vec r m : option (nat * rhs_map_t * bool) :=
  o ← find_rhs (rule_key r) m;
  Some (match o with Some j => (j, m, false) | None => (length m, m ++ [(r, [])], true) end).

(** A vector changed in place. *)
Definition change_vec (f : rule_vec -> rule_vec) (j : nat) m : rhs_map_t := alter (fun e => (e.1, f e.2)) j m.

Definition rule_insert r m : option rhs_map_t :=
  x ← get_vec r m;
  Some (change_vec (fun v => v ++ [(r, rule_heuristic r)]) x.1.1 x.1.2).

(** [rules(k)]: the range of a vector, or an empty one. *)
Definition rules_from_vec v : list R := v.*1.
Definition rules_for k m : option (list R) :=
  o ← find_rhs k m;
  Some (match o with
        | Some j => match m !! j with Some e => rules_from_vec e.2 | None => [] end
        | None => []
        end).

Definition sort_vec v : rule_vec := std_sort sort_op v.
Definition sort_all m : rhs_map_t := (fun e => (e.1, sort_vec e.2)) <$> m.

(** [add_rules]: the rules that [f] does not give zero, by the product of scores. *)
Fixpoint accept_rules (f : R -> score) rs v : rule_vec :=
  match rs with
  | [] => v
  | r :: rs =>
      let s := f r in
      accept_rules f rs (if negb (score_eqb s as_zero) then v ++ [(r, score_mul s (rule_heuristic r))] else v)
  end.
Definition add_rules (f : R -> score) rs v : rule_vec := sort_vec (accept_rules f rs v).

Definition lazy_filtered_rules (f : R -> score) rs m : option (list R * rhs_map_t) :=
  r ← head rs;
  x ← get_vec r m;
  let m := if (x.2 : bool) then change_vec (add_rules f rs) x.1.1 x.1.2 else x.1.2 in
  e ← m !! x.1.1;
  Some (rules_from_vec e.2, m).

(** * [sorted_rhs_map] *)

Record sorted_rhs_map := mk_rhs_map { rhs_rules : rhs_map_t; top_rhs : rhs_map_t }.

Definition is_toplevel r : bool := bool_decide (indexed_type (rule_lhs r) = top_token).

Fixpoint insert_rules rs (s : sorted_rhs_map) : option sorted_rhs_map :=
  match rs with
  | [] => Some s
  | r :: rs =>
      s ← (if is_toplevel r then m ← rule_insert r (top_rhs s); Some (mk_rhs_map (rhs_rules s) m)
           else m ← rule_insert r (rhs_rules s); Some (mk_rhs_map m (top_rhs s)));
      insert_rules rs s
  end.

Definition new_sorted_rhs_map (all_rules : list R) : option sorted_rhs_map :=
  s ← insert_rules all_rules (mk_rhs_map [] []);
  Some (mk_rhs_map (sort_all (rhs_rules s)) (sort_all (top_rhs s))).

Definition rules k (s : sorted_rhs_map) : option (list R) := rules_for k (rhs_rules s).
Definition toplevel_rules k (s : sorted_rhs_map) : option (list R) := rules_for k (top_rhs s).

(** * [signature_index_map] *)

(** [sig_map.insert(r)]: a rule whose right hand side is there already is not put in. *)
Fixpoint has_signature k (sm : list R) : option bool :=
  match sm with
  | [] => Some false
  | r :: sm => b ← sig_equal (rule_key r) k; if (b : bool) then Some true else has_signature k sm
  end.
Definition sig_insert r (sm : list R) : option (list R) :=
  b ← has_signature (rule_key r) sm;
  if (b : bool) then Some sm else _ ← sig_first (rule_key r); Some (sm ++ [r]).

Record signature_index_map := mk_sig_map { sig_map : list R; top_sig_map : list R }.

Fixpoint insert_signatures rs (s : signature_index_map) : option signature_index_map :=
  match rs with
  | [] => Some s
  | r :: rs =>
      s ← (if rhs_size r =? 2 then
             if negb (is_toplevel r) then sm ← sig_insert r (sig_map s); Some (mk_sig_map sm (top_sig_map s))
             else sm ← sig_insert r (top_sig_map s); Some (mk_sig_map (sig_map s) sm)
           else Some s);
      insert_signatures rs s
  end.
Definition new_signature_map (all_rules : list R) : option signature_index_map :=
  insert_signatures all_rules (mk_sig_map [] []).

(** [sig_map.equal_range(tok)] *)
Fixpoint equal_range (tok : indexed_token) (sm : list R) : option (list R) :=
  match sm with
  | [] => Some []
  | r :: sm => t ← sig_first (rule_key r); l ← equal_range tok sm; Some (if indexed_equal t tok then r :: l else l)
  end.
Definition reps (tok : indexed_token) (s : signature_index_map) : option (list R) := equal_range tok (sig_map s).
Definition toplevel_reps (tok : indexed_token) (s : signature_index_map) : option (list R) :=
  equal_range tok (top_sig_map s).

(** * The specification *)

Abbreviation sig r := (signature (rule_key r)).

Definition rule_ok r : Prop := key_ok (rule_key r).

(** The rules with a right hand side. *)
Definition with_signature (l : list indexed_token) rs : list R := filter (fun r => sig r = l) rs.

(** The map of the rules [rs], its vectors in any order. *)
Record map_of rs m : Prop := {
  mo_keys : Forall (fun e => rule_ok e.1) m;
  mo_distinct : NoDup ((fun e => sig e.1) <$> m);
  mo_vec e : e ∈ m -> e.2 ≡ₚ (fun r => (r, rule_heuristic r)) <$> with_signature (sig e.1) rs;
  mo_complete r : r ∈ rs -> sig r ∈ (fun e => sig e.1) <$> m
}.

(** * Lemmas *)

Lemma filter_snoc {A} (Q : A -> Prop) `{!forall x, Decision (Q x)} (l : list A) x :
  filter Q (l ++ [x]) = filter Q l ++ (if decide (Q x) then [x] else []).
Proof. rewrite filter_app, filter_cons. case_decide; by rewrite filter_nil. Qed.

Lemma find_rhs_spec k m : key_ok k -> Forall (fun e => rule_ok e.1) m ->
  match find_rhs k m with
  | None => False
  | Some None => signature k ∉ (fun e => sig e.1) <$> m
  | Some (Some j) => exists e, m !! j = Some e /\ sig e.1 = signature k
  end.
Proof.
  intros Hk. induction 1 as [|e m He Hm IH]; cbn [find_rhs fmap list_fmap]; [apply not_elem_of_nil|].
  rewrite sig_equal_spec by done. cbn [mbind option_bind]. case_bool_decide as Hs; [by exists e|].
  destruct (find_rhs k m) as [[j|]|]; cbn [mbind option_bind]; [exact IH| |done].
  rewrite not_elem_of_cons. split; [congruence|done].
Qed.

(** The entry of a signature is unique. *)
Lemma entry_unique rs m i j e e' : map_of rs m -> m !! i = Some e -> m !! j = Some e' -> sig e.1 = sig e'.1 -> i = j.
Proof.
  intros [_ Hd _ _] Hi Hj He. apply (proj1 (NoDup_alt _) Hd i j (sig e.1)).
  - by rewrite list_lookup_fmap, Hi.
  - by rewrite list_lookup_fmap, Hj, He.
Qed.

(** [get_vec] makes an entry if there is none. *)
Lemma get_vec_spec r rs m : rule_ok r -> map_of rs m ->
  exists j e m' b, get_vec r m = Some (j, m', b) /\ m' !! j = Some e /\ sig e.1 = sig r /\
    (b = false /\ m' = m \/ b = true /\ m' = m ++ [(r, [])] /\ j = length m /\ sig r ∉ (fun e => sig e.1) <$> m).
Proof.
  intros Hr Hm. unfold get_vec. pose proof (find_rhs_spec (rule_key r) m Hr (mo_keys _ _ Hm)) as Hf.
  destruct (find_rhs (rule_key r) m) as [[j|]|]; [| |done]; cbn [mbind option_bind].
  - destruct Hf as (e&He&Hs). exists j, e, m, false. split; [done|]. split; [done|]. split; [done|by left].
  - exists (length m), (r, []), (m ++ [(r, [])]), true. split; [done|].
    split; [by rewrite lookup_app_r, Nat.sub_diag|]. split; [done|]. right. done.
Qed.

Lemma with_signature_snoc l rs r :
  with_signature l (rs ++ [r]) = with_signature l rs ++ (if decide (sig r = l) then [r] else []).
Proof.
  unfold with_signature. by rewrite filter_snoc.
Qed.

(** No rule has a signature that is not in the map. *)
Lemma with_signature_none l rs m : map_of rs m -> l ∉ (fun e => sig e.1) <$> m -> with_signature l rs = [].
Proof.
  intros Hm Hl. destruct (with_signature l rs) as [|r rs'] eqn:E; [done|]. exfalso.
  assert (Hr : r ∈ with_signature l rs) by (rewrite E; left).
  apply list_elem_of_filter in Hr as [Hs Hr]. apply Hl. rewrite <- Hs. by apply (mo_complete _ _ Hm).
Qed.

Lemma keys_change f j m : (fun e => sig e.1) <$> change_vec f j m = (fun e => sig e.1) <$> m.
Proof.
  unfold change_vec. apply list_eq. intros i. rewrite !list_lookup_fmap.
  destruct (decide (i = j)) as [->|Hij]; [rewrite list_lookup_alter_eq|by rewrite list_lookup_alter_ne].
  by destruct (m !! j).
Qed.

Lemma elem_of_change f j m e : e ∈ change_vec f j m ->
  exists i e0, m !! i = Some e0 /\ e = if decide (i = j) then (e0.1, f e0.2) else e0.
Proof.
  intros [i Hi]%list_elem_of_lookup. unfold change_vec in Hi. exists i.
  destruct (decide (i = j)) as [->|Hij]; [rewrite list_lookup_alter_eq in Hi|rewrite list_lookup_alter_ne in Hi by done].
  - destruct (m !! j) as [e0|]; [|done]. exists e0. split; [done|]. by injection Hi.
  - by exists e.
Qed.

(** One more rule. *)
Lemma rule_insert_ok r rs m : rule_ok r -> map_of rs m -> exists m', rule_insert r m = Some m' /\ map_of (rs ++ [r]) m'.
Proof.
  intros Hr Hm. destruct (get_vec_spec r rs m Hr Hm) as (j&e&m1&b&Hget&Hj&Hs&Hm1).
  unfold rule_insert. rewrite Hget. cbn [mbind option_bind fst snd]. eexists. split; [done|].
  assert (Hok : Forall (fun e => rule_ok e.1) m1 /\ NoDup ((fun e => sig e.1) <$> m1) /\
    (forall e0, e0 ∈ m1 -> e0.2 ≡ₚ (fun r => (r, rule_heuristic r)) <$> with_signature (sig e0.1) rs) /\
    forall r0, r0 ∈ rs ++ [r] -> sig r0 ∈ (fun e => sig e.1) <$> m1).
  { assert (Hin : sig r ∈ (fun e => sig e.1) <$> m1).
    { rewrite <- Hs. apply list_elem_of_fmap. exists e. split; [done|]. by eapply list_elem_of_lookup_2. }
    destruct Hm1 as [[_ ->]|(_&->&_&Hnew)]; pose proof Hm as [H1 H2 H3 H4]; split_and!; try done.
    - intros r0 [Hr0| ->%list_elem_of_singleton]%elem_of_app; [by apply H4|done].
    - apply Forall_app. split; [done|by constructor].
    - rewrite fmap_app. cbn [fmap list_fmap]. apply NoDup_app. split; [done|].
      split; [by intros x Hx ->%list_elem_of_singleton|apply NoDup_singleton].
    - intros e0 [He0| ->%list_elem_of_singleton]%elem_of_app; [by apply H3|].
      cbn [fst snd]. by rewrite (with_signature_none _ _ _ Hm Hnew).
    - intros r0 [Hr0| ->%list_elem_of_singleton]%elem_of_app; [|done]. rewrite fmap_app, elem_of_app. left. by apply H4. }
  clear Hm1 Hget. destruct Hok as (H1&H2&H3&H4). split.
  - apply Forall_forall. intros e1 (i&e0&Hi&->)%elem_of_change. rewrite Forall_forall in H1.
    apply list_elem_of_lookup_2, H1 in Hi. by case_decide.
  - by rewrite keys_change.
  - intros e1 (i&e0&Hi&->)%elem_of_change. rewrite with_signature_snoc, fmap_app.
    pose proof (H3 e0 (list_elem_of_lookup_2 _ _ _ Hi)) as H3i. case_decide as Hij.
    + subst i. rewrite Hj in Hi. injection Hi as <-. cbn [fst snd]. rewrite decide_True by done.
      cbn [fmap list_fmap]. by rewrite H3i.
    + rewrite decide_False; [by rewrite app_nil_r|]. intros Hse. apply Hij.
      apply (proj1 (NoDup_alt _) H2 i j (sig e0.1)); rewrite list_lookup_fmap; [by rewrite Hi|].
      rewrite Hj. cbn. congruence.
  - intros r0. rewrite keys_change. apply H4.
Qed.

Section laws.
Context `{!StdAlgorithmLaws (R * score), !StrictWeak (score_lt (S := score))}.

(** Best first by the heuristic. *)
Definition best_rules_first (l : list R) : Prop :=
  StronglySorted (fun r r' => noworse score_lt (rule_heuristic r) (rule_heuristic r')) l.

#[local] Instance sort_op_sw : StrictWeak sort_op.
Proof. pose proof (converse_sw score_lt). apply (sw_pullback (fun a b => score_lt b a) (fun p : R * score => p.2)). Qed.

Lemma sort_all_ok rs m : map_of rs m -> map_of rs (sort_all m) /\
  Forall (fun e => StronglySorted (fun p p' => noworse score_lt p.2 p'.2) e.2) (sort_all m).
Proof.
  intros [H1 H2 H3 H4]. assert (Hk : (fun e => sig e.1) <$> sort_all m = (fun e => sig e.1) <$> m).
  { unfold sort_all. rewrite <- list_fmap_compose. apply list_fmap_ext. by intros i []. }
  split; [split|].
  - apply Forall_fmap. exact H1.
  - by rewrite Hk.
  - intros e (e0&->&He)%list_elem_of_fmap. cbn [fst snd]. unfold sort_vec. rewrite std_sort_perm. by apply H3.
  - intros r. rewrite Hk. apply H4.
  - apply Forall_fmap, Forall_forall. intros e _. cbn [compose snd]. exact (std_sort_sorted sort_op e.2).
Qed.

Lemma StronglySorted_of_fmap {A B} (f : A -> B) (Q : B -> B -> Prop) (l : list A) :
  StronglySorted Q (f <$> l) -> StronglySorted (fun x y => Q (f x) (f y)) l.
Proof.
  induction l as [|x l IH]; intros Hs; [constructor|]. apply StronglySorted_inv in Hs as [Hs Hf].
  constructor; [by apply IH|]. change (Forall (Q (f x)) (f <$> l)) in Hf.
  exact (proj1 (Forall_fmap f (Q (f x)) l) Hf).
Qed.

Lemma rules_for_ok k rs m : key_ok k -> map_of rs m ->
  Forall (fun e => StronglySorted (fun p p' => noworse score_lt p.2 p'.2) e.2) m ->
  exists l, rules_for k m = Some l /\ l ≡ₚ with_signature (signature k) rs /\ best_rules_first l.
Proof.
  intros Hk Hm Hs. unfold rules_for. pose proof (find_rhs_spec k m Hk (mo_keys _ _ Hm)) as Hf.
  destruct (find_rhs k m) as [[j|]|]; [| |done]; cbn [mbind option_bind].
  2: { exists []. split; [done|]. split; [by rewrite (with_signature_none _ _ _ Hm Hf)|constructor]. }
  destruct Hf as (e&He&Hsig). rewrite He. exists (rules_from_vec e.2). split; [done|].
  pose proof (list_elem_of_lookup_2 _ _ _ He) as Hin. pose proof (mo_vec _ _ Hm e Hin) as Hv. rewrite Hsig in Hv.
  unfold rules_from_vec. split.
  - rewrite Hv, <- list_fmap_compose. apply Permutation_refl'. apply list_fmap_id.
  - rewrite Forall_forall in Hs. specialize (Hs e Hin). unfold best_rules_first.
    apply (StronglySorted_of_fmap (fun r => (r, rule_heuristic r)) (fun p p' => noworse score_lt p.2 p'.2)).
    assert (E : (fun r => (r, rule_heuristic r)) <$> (e.2).*1 = e.2); [|by rewrite E].
    rewrite <- list_fmap_compose. rewrite <- (list_fmap_id e.2) at 2. apply list_fmap_ext. intros i [r h] Hi. cbn.
    apply list_elem_of_lookup_2 in Hi. rewrite Hv in Hi. apply list_elem_of_fmap in Hi as (r'&[= -> ->]&_). done.
Qed.

Definition lower_rules rs : list R := filter (fun r => is_toplevel r = false) rs.
Definition upper_rules rs : list R := filter (fun r => is_toplevel r = true) rs.

Lemma insert_rules_ok rs2 rs1 s : Forall rule_ok rs2 -> map_of (lower_rules rs1) (rhs_rules s) ->
  map_of (upper_rules rs1) (top_rhs s) ->
  exists s', insert_rules rs2 s = Some s' /\ map_of (lower_rules (rs1 ++ rs2)) (rhs_rules s') /\
    map_of (upper_rules (rs1 ++ rs2)) (top_rhs s').
Proof.
  revert rs1 s. induction rs2 as [|r rs2 IH]; intros rs1 s Hok Hl Hu; cbn [insert_rules].
  { exists s. by rewrite app_nil_r. }
  apply Forall_cons in Hok as [Hr Hok].
  assert (Hsplit : lower_rules (rs1 ++ [r]) = lower_rules rs1 ++ (if is_toplevel r then [] else [r]) /\
    upper_rules (rs1 ++ [r]) = upper_rules rs1 ++ (if is_toplevel r then [r] else [])).
  { unfold lower_rules, upper_rules. rewrite !filter_snoc. by destruct (is_toplevel r). }
  destruct Hsplit as [Hsl Hsu]. replace (rs1 ++ r :: rs2) with ((rs1 ++ [r]) ++ rs2) by by rewrite <- app_assoc.
  destruct (is_toplevel r).
  - destruct (rule_insert_ok r _ _ Hr Hu) as (m'&->&Hm'). cbn [mbind option_bind].
    apply IH; cbn [rhs_rules top_rhs]; [done|by rewrite Hsl, app_nil_r|by rewrite Hsu].
  - destruct (rule_insert_ok r _ _ Hr Hl) as (m'&->&Hm'). cbn [mbind option_bind].
    apply IH; cbn [rhs_rules top_rhs]; [done|by rewrite Hsl|by rewrite Hsu, app_nil_r].
Qed.

Lemma map_of_empty : map_of [] [].
Proof. split; [constructor|constructor|by intros e ?%not_elem_of_nil|by intros r ?%not_elem_of_nil]. Qed.

(** The maps that the constructor makes of the rules of the grammar. *)
Definition sorted_map m : Prop := Forall (fun e => StronglySorted (fun p p' => noworse score_lt p.2 p'.2) e.2) m.
Record rhs_map_built all_rules s : Prop := {
  rb_lower : map_of (lower_rules all_rules) (rhs_rules s) /\ sorted_map (rhs_rules s);
  rb_upper : map_of (upper_rules all_rules) (top_rhs s) /\ sorted_map (top_rhs s)
}.

Lemma new_sorted_rhs_map_built all_rules : Forall rule_ok all_rules ->
  exists s, new_sorted_rhs_map all_rules = Some s /\ rhs_map_built all_rules s.
Proof.
  intros Hok. unfold new_sorted_rhs_map.
  destruct (insert_rules_ok all_rules [] (mk_rhs_map [] []) Hok map_of_empty map_of_empty) as (s&->&Hl&Hu).
  cbn [mbind option_bind app] in *. eexists. split; [done|]. split; by apply sort_all_ok.
Qed.

Lemma rules_built k all_rules s : key_ok k -> rhs_map_built all_rules s -> exists l t,
  rules k s = Some l /\ toplevel_rules k s = Some t /\
  l ≡ₚ with_signature (signature k) (lower_rules all_rules) /\ best_rules_first l /\
  t ≡ₚ with_signature (signature k) (upper_rules all_rules) /\ best_rules_first t.
Proof.
  intros Hk [[Hl Hls] [Hu Hus]].
  destruct (rules_for_ok k _ _ Hk Hl Hls) as (l&Hl1&Hl2&Hl3). destruct (rules_for_ok k _ _ Hk Hu Hus) as (t&Ht1&Ht2&Ht3).
  exists l, t. unfold rules, toplevel_rules. done.
Qed.

(** C14: The map of rules is made, and for every right hand side it gives the rules
    of the grammar with this right hand side, each as often as the grammar has it and
    best first by the heuristic: those to a toplevel tag apart from the others. *)
Theorem sorted_rhs_map_rules all_rules : Forall rule_ok all_rules ->
  exists s, new_sorted_rhs_map all_rules = Some s /\
    forall k, key_ok k -> exists l t,
      rules k s = Some l /\ toplevel_rules k s = Some t /\
      l ≡ₚ filter (fun r => sig r = signature k) (lower_rules all_rules) /\ best_rules_first l /\
      t ≡ₚ filter (fun r => sig r = signature k) (upper_rules all_rules) /\ best_rules_first t.
Proof.
  intros Hok. destruct (new_sorted_rhs_map_built all_rules Hok) as (s&Hs&Hb). exists s. split; [done|].
  intros k Hk. destruct (rules_built k all_rules s Hk Hb) as (l&t&H). by exists l, t.
Qed.

(** ** Representatives *)

(** [l] has one rule for each right hand side of the rules [rs]. *)
Definition represents rs (l : list R) : Prop :=
  NoDup ((fun r => sig r) <$> l) /\ (forall r, r ∈ l -> r ∈ rs) /\ forall r, r ∈ rs -> sig r ∈ (fun r => sig r) <$> l.

Lemma has_signature_spec k sm : key_ok k -> Forall rule_ok sm ->
  has_signature k sm = Some (bool_decide (signature k ∈ (fun r => sig r) <$> sm)).
Proof.
  intros Hk. induction 1 as [|r sm Hr Hsm IH]; cbn [has_signature fmap list_fmap].
  { by rewrite bool_decide_eq_false_2 by apply not_elem_of_nil. }
  rewrite sig_equal_spec by done. cbn [mbind option_bind].
  destruct (bool_decide_reflect (sig r = signature k)) as [Hs|Hs].
  - f_equal. symmetry. apply bool_decide_eq_true_2. rewrite <- Hs. left.
  - rewrite IH. f_equal. apply bool_decide_ext. split; [by right|by intros [|]%elem_of_cons].
Qed.

Lemma sig_insert_ok r rs sm : rule_ok r -> Forall rule_ok rs -> rhs_size r = 2 -> represents rs sm ->
  exists sm', sig_insert r sm = Some sm' /\ represents (rs ++ [r]) sm'.
Proof.
  intros Hr Hrs H2 (Hd&Hin&Hc). unfold sig_insert. rewrite has_signature_spec; [|done|].
  2: { apply Forall_forall. intros x Hx. rewrite Forall_forall in Hrs. by apply Hrs, Hin. }
  cbn [mbind option_bind]. case_bool_decide as Hs.
  - exists sm. split; [done|]. split; [done|]. split.
    + intros x Hx. apply elem_of_app. left. by apply Hin.
    + intros x [Hx| ->%list_elem_of_singleton]%elem_of_app; [by apply Hc|done].
  - destruct Hr as [_ Hr]. cbn [key_size rule_key key_at] in Hr. destruct (Hr 0%nat ltac:(lia)) as [t Ht].
    unfold sig_first. cbn [key_at rule_key]. rewrite Ht. cbn [mbind option_bind]. exists (sm ++ [r]). split; [done|].
    unfold represents. rewrite fmap_app. cbn [fmap list_fmap]. split; [|split].
    + apply NoDup_app. split; [done|]. split; [by intros x Hx ->%list_elem_of_singleton|apply NoDup_singleton].
    + intros x. rewrite !elem_of_app. intros [Hx|Hx]; [left; by apply Hin|by right].
    + intros x. rewrite !elem_of_app, !list_elem_of_singleton. intros [Hx| ->]; [left; by apply Hc|by right].
Qed.
(** The binary rules of a list. *)
Definition binary_rules rs : list R := filter (fun r => rhs_size r = 2) rs.

Lemma insert_signatures_ok rs2 rs1 s : Forall rule_ok (rs1 ++ rs2) ->
  represents (binary_rules (lower_rules rs1)) (sig_map s) -> represents (binary_rules (upper_rules rs1)) (top_sig_map s) ->
  exists s', insert_signatures rs2 s = Some s' /\ represents (binary_rules (lower_rules (rs1 ++ rs2))) (sig_map s') /\
    represents (binary_rules (upper_rules (rs1 ++ rs2))) (top_sig_map s').
Proof.
  revert rs1 s. induction rs2 as [|r rs2 IH]; intros rs1 s Hok Hl Hu; cbn [insert_signatures].
  { exists s. by rewrite app_nil_r in *. }
  assert (Hsplit : binary_rules (lower_rules (rs1 ++ [r])) = binary_rules (lower_rules rs1) ++
      (if decide (rhs_size r = 2) then if is_toplevel r then [] else [r] else []) /\
    binary_rules (upper_rules (rs1 ++ [r])) = binary_rules (upper_rules rs1) ++
      (if decide (rhs_size r = 2) then if is_toplevel r then [r] else [] else [])).
  { unfold binary_rules, lower_rules, upper_rules. rewrite !filter_snoc. destruct (is_toplevel r);
      [rewrite (decide_False (P := true = false)) by done; rewrite (decide_True (P := true = true)) by done
      |rewrite (decide_True (P := false = false)) by done; rewrite (decide_False (P := false = true)) by done];
      rewrite app_nil_r, filter_snoc; case_decide; by rewrite ?app_nil_r. }
  destruct Hsplit as [Hsl Hsu]. replace (rs1 ++ r :: rs2) with ((rs1 ++ [r]) ++ rs2) in * by by rewrite <- app_assoc.
  pose proof Hok as [[Hok1 [Hr _]%Forall_cons]%Forall_app _]%Forall_app.
  assert (Hsub : forall (Q : R -> Prop) `{!forall x, Decision (Q x)}, Forall rule_ok (binary_rules (filter Q rs1))).
  { intros Q HQ. apply Forall_forall. intros x [_ [_ Hx]%list_elem_of_filter]%list_elem_of_filter.
    rewrite Forall_forall in Hok1. by apply Hok1. }
  destruct (Z.eqb_spec (rhs_size r) 2) as [H2|H2].
  - rewrite decide_True in Hsl, Hsu by done. destruct (is_toplevel r); cbn [negb].
    + destruct (sig_insert_ok r _ _ Hr (Hsub _ _) H2 Hu) as (sm&->&Hsm). cbn [mbind option_bind].
      apply IH; cbn [sig_map top_sig_map]; [done|by rewrite Hsl, app_nil_r|by rewrite Hsu].
    + destruct (sig_insert_ok r _ _ Hr (Hsub _ _) H2 Hl) as (sm&->&Hsm). cbn [mbind option_bind].
      apply IH; cbn [sig_map top_sig_map]; [done|by rewrite Hsl|by rewrite Hsu, app_nil_r].
  - rewrite decide_False in Hsl, Hsu by done. cbn [mbind option_bind].
    apply IH; [done|by rewrite Hsl, app_nil_r|by rewrite Hsu, app_nil_r].
Qed.

(** The rules that start with a token. *)
Definition starting_with (tok : indexed_token) rs : list R := filter (fun r => rhs r 0 = Some tok) rs.

Lemma equal_range_spec tok sm : (forall r, r ∈ sm -> is_Some (rhs r 0)) ->
  equal_range tok sm = Some (starting_with tok sm).
Proof.
  intros Hsm. induction sm as [|r sm IH]; [done|]. cbn [equal_range]. unfold sig_first. cbn [key_at rule_key].
  destruct (Hsm r ltac:(left)) as [t Ht]. rewrite Ht. cbn [mbind option_bind].
  rewrite IH by (intros; apply Hsm; by right). cbn [mbind option_bind].
  unfold starting_with. rewrite filter_cons, Ht, indexed_equal_spec. f_equal.
  destruct (bool_decide_reflect (t = tok)) as [->|Hne]; [by rewrite decide_True|]. rewrite decide_False; congruence.
Qed.

Lemma represents_range tok rs sm : Forall rule_ok rs -> represents (binary_rules rs) sm ->
  exists l, equal_range tok sm = Some l /\ represents (starting_with tok (binary_rules rs)) l.
Proof.
  intros Hok (Hd&Hin&Hc). rewrite Forall_forall in Hok.
  assert (Hbin : forall r, r ∈ binary_rules rs -> rule_ok r /\ is_Some (rhs r 0)).
  { intros r [H2 Hr]%list_elem_of_filter. specialize (Hok r Hr). split; [done|].
    destruct Hok as [_ Hk]. cbn [key_size key_at rule_key] in Hk. apply Hk. lia. }
  exists (starting_with tok sm). split; [apply equal_range_spec; intros r Hr; by apply Hbin, Hin|].
  split; [|split].
  - assert (Hs : (fun r => sig r) <$> starting_with tok sm `sublist_of` (fun r => sig r) <$> sm).
    { apply fmap_sublist, sublist_filter. }
    by eapply sublist_NoDup.
  - intros r [Ht Hr]%list_elem_of_filter. apply list_elem_of_filter. split; [done|by apply Hin].
  - intros r [Ht Hr]%list_elem_of_filter. destruct (proj1 (list_elem_of_fmap _ _ _) (Hc r Hr)) as (r'&Hs&Hr').
    apply list_elem_of_fmap. exists r'. split; [done|]. apply list_elem_of_filter. split; [|done].
    destruct (Hbin r Hr) as [Hkr _], (Hbin r' (Hin r' Hr')) as [Hkr' _].
    apply list_elem_of_filter in Hr as [H2 _]. pose proof (Hin r' Hr') as [H2' _]%list_elem_of_filter.
    pose proof (signature_lookup (rule_key r) 0 Hkr) as E. pose proof (signature_lookup (rule_key r') 0 Hkr') as E'.
    cbn [key_size key_at rule_key] in E, E'. rewrite Hs, E' in E by lia. rewrite <- Ht. apply E. lia.
Qed.

Record sig_map_built all_rules (s : signature_index_map) : Prop := {
  sb_lower : represents (binary_rules (lower_rules all_rules)) (sig_map s);
  sb_upper : represents (binary_rules (upper_rules all_rules)) (top_sig_map s)
}.

Lemma new_signature_map_built all_rules : Forall rule_ok all_rules ->
  exists s, new_signature_map all_rules = Some s /\ sig_map_built all_rules s.
Proof.
  intros Hok. assert (Hnil : represents [] []) by (split; [constructor|split; by intros r ?%not_elem_of_nil]).
  destruct (insert_signatures_ok all_rules [] (mk_sig_map [] []) Hok Hnil Hnil) as (s&Hs&Hl&Hu). by exists s.
Qed.

Lemma reps_built tok all_rules s : Forall rule_ok all_rules -> sig_map_built all_rules s ->
  exists l t, reps tok s = Some l /\ toplevel_reps tok s = Some t /\
    represents (starting_with tok (binary_rules (lower_rules all_rules))) l /\
    represents (starting_with tok (binary_rules (upper_rules all_rules))) t.
Proof.
  intros Hok [Hl Hu].
  assert (Hsub : forall (Q : R -> Prop) `{!forall x, Decision (Q x)}, Forall rule_ok (filter Q all_rules)).
  { intros Q HQ. apply Forall_forall. intros x [_ Hx]%list_elem_of_filter. rewrite Forall_forall in Hok. by apply Hok. }
  destruct (represents_range tok _ _ (Hsub _ _) Hl) as (l&Hl1&Hl2).
  destruct (represents_range tok _ _ (Hsub _ _) Hu) as (t&Ht1&Ht2).
  by exists l, t.
Qed.

(** For every token the signature index gives exactly one binary rule for each
    right hand side of the grammar that starts with it, those to a toplevel tag
    apart from the others. *)
Theorem signature_reps all_rules : Forall rule_ok all_rules ->
  exists s, new_signature_map all_rules = Some s /\
    forall tok, exists l t, reps tok s = Some l /\ toplevel_reps tok s = Some t /\
      represents (starting_with tok (binary_rules (lower_rules all_rules))) l /\
      represents (starting_with tok (binary_rules (upper_rules all_rules))) t.
Proof.
  intros Hok. destruct (new_signature_map_built all_rules Hok) as (s&Hs&Hb). exists s. split; [done|].
  intros tok. by apply reps_built.
Qed.
End laws.
End rule_map.

(** * Samples: rules as left hand side, right hand side and heuristic *)

Definition sample_rule : Type := indexed_token * list indexed_token * Z.
Definition sample_size (r : sample_rule) : Z := Z.of_nat (length r.1.2).
Definition sample_rhs (r : sample_rule) (x : nat) : option indexed_token := r.1.2 !! x.
Definition top_tag : indexed_token := mk_indexed (4 * type_stride).

Definition sample_rules : list sample_rule :=
  [(sample_tag 3, [sample_tag 1; sample_tag 2], 4); (sample_tag 5, [sample_tag 1; sample_tag 2], 6);
   (sample_tag 3, [sample_tag 1], 1); (top_tag, [sample_tag 1; sample_tag 2], 9);
   (sample_tag 3, [sample_tag 1; sample_tag 3], 2)].

Lemma sample_rule_ok (r : sample_rule) : rule_ok sample_size sample_rhs r.
Proof. apply array_key_ok. Qed.

Lemma sorted_rhs_map_rules_witness :
  exists s, new_sorted_rhs_map (fun r => r.1.1) sample_size sample_rhs snd sample_rules = Some s /\
    exists l, rules sample_size sample_rhs (array_key [sample_tag 1; sample_tag 2]) s = Some l /\
      l ≡ₚ [(sample_tag 3, [sample_tag 1; sample_tag 2], 4); (sample_tag 5, [sample_tag 1; sample_tag 2], 6)] /\
      best_rules_first snd l.
Proof.
  destruct (sorted_rhs_map_rules (fun r : sample_rule => r.1.1) sample_size sample_rhs snd sample_rules) as (s&Hs&Hr).
  - apply Forall_forall. intros r _. apply sample_rule_ok.
  - exists s. split; [exact Hs|]. destruct (Hr (array_key [sample_tag 1; sample_tag 2])) as (l&t&H1&_&H2&H3&_).
    + apply array_key_ok.
    + exists l. split; [exact H1|]. split; [exact H2|exact H3].
Defined.

Lemma signature_reps_witness :
  exists s, new_signature_map (fun r => r.1.1) sample_size sample_rhs sample_rules = Some s /\
    exists l, reps sample_size sample_rhs (sample_tag 1) s = Some l /\
      represents sample_size sample_rhs
        [(sample_tag 3, [sample_tag 1; sample_tag 2], 4); (sample_tag 5, [sample_tag 1; sample_tag 2], 6);
         (sample_tag 3, [sample_tag 1; sample_tag 3], 2)] l.
Proof.
  destruct (signature_reps (fun r : sample_rule => r.1.1) sample_size sample_rhs sample_rules) as (s&Hs&Hr).
  - apply Forall_forall. intros r _. apply sample_rule_ok.
  - exists s. split; [exact Hs|]. destruct (Hr (sample_tag 1)) as (l&t&H1&_&H2&_).
    exists l. split; [exact H1|exact H2].
Defined.

Example sample_best_first :
  match new_sorted_rhs_map (fun r => r.1.1) sample_size sample_rhs snd sample_rules with
  | Some s => rules sample_size sample_rhs (array_key [sample_tag 1; sample_tag 2]) s
  | None => None
  end = Some [(sample_tag 5, [sample_tag 1; sample_tag 2], 6); (sample_tag 3, [sample_tag 1; sample_tag 2], 4)].
Proof. vm_compute. reflexivity. Qed.
