(* ===== verification/SpanFilter.v ===== *)
(** What a filter bank asks of the filter of a span, and the filters that answer:
    [span_filter_interface] (src/sbmt_decoder/include/sbmt/search/
    span_filter_interface.hpp) as a class, [exhaustive_span_filter] (span_filter.hpp,
    impl/span_filter.ipp) and, from [CubeHeap], [cube_heap_span_filter] as its
    instances.

    The exhaustive filter makes every edge of every application of a rule; the cube
    heap makes them best first and stops.  With a beam both keep the same edges. *)
From S2P Require Import Prelude Span PriorityTable PriorityQueue TokenStorage Token Edge EdgeEquivalence EdgeQueue FilterPredicate EdgeFilter SortedCube Generator CubeHeap.
Open Scope Z_scope.

Section span_filter.
Context {score info_type R G : Type} `{!ScoreOps score, !ScoreZero score, !InfoOps info_type}.
Context `{!Inhabited score, !Inhabited info_type}.
Abbreviation edge := (edge score info_type).
Abbreviation store := (equiv_store score info_type).
Abbreviation factory := (edge_factory score).
Context `{!GrammarOps R score edge store G, !Generator G (info_type * score * score)}.
Context `{!StdAlgorithms (alt_edge score), HC : !HashCombine}.
Context (hash_token : indexed_token -> Z) (hash_span : span_t -> Z) (max_equivalents : Z).
Implicit Types (σ : store) (e : edge) (es : list edge) (ef : factory).

(** [span_filter_interface]: the store and the factory are shared by all filters. *)
Class SpanFilter (F : Type) := {
  sf_apply_rules : store -> factory -> list R -> list positive -> list positive -> F -> option (result (store * factory * F));
  sf_finalize : store -> factory -> F -> option (result (store * factory * F));
  sf_is_finalized : F -> bool;
  sf_top : F -> option positive;
  sf_pop : store -> F -> option F;
  sf_empty : F -> option bool
}.

(** Rules applied to several pairs of cells, one after the other. *)
Fixpoint apply_all `{!SpanFilter F} σ ef (apps : list (list R * list positive * list positive)) (f : F)
  : option (result (store * factory * F)) :=
  match apps with
  | [] => Some (Ok (σ, ef, f))
  | a :: apps => '(σ, ef, f) ⇐ sf_apply_rules σ ef a.1.1 a.1.2 a.2 f; apply_all σ ef apps f
  end.

Definition run_filter `{!SpanFilter F} σ ef (apps : list (list R * list positive * list positive)) (f : F)
  : option (result (store * factory * F)) :=
  '(σ, ef, f) ⇐ apply_all σ ef apps f; sf_finalize σ ef f.

(** * [exhaustive_span_filter] *)

Section filters.
Context {P : Type} `{!FilterPredicate (score := score) (info_type := info_type) P}.
Abbreviation filter_of := (predicate_edge_filter (score := score) (P := P)).
Abbreviation filter_insert_edge := (filter_insert_edge hash_token hash_span max_equivalents).

Record exhaustive_span_filter := mk_exhaustive { ex_filter : filter_of }.
Implicit Types f : filter_of.

(** [while (g) filter.insert(epool, g())].  The fuel is the number of infos that one
    application makes. *)
Fixpoint insert_generated (n : nat) σ (g : edge_generator score G) ef f : option (result (store * factory * filter_of)) :=
  if edge_generator_more g then
    match n with
    | O => None
    | S n => c ← edge_generator_call σ g ef;
             '(_, σ, f) ⇐ filter_insert_edge σ c.1.1 f;
             insert_generated n σ c.1.2 c.2 f
    end
  else Some (Ok (σ, ef, f)).

Context (max_infos : nat).

(** The loops over the two ranges of edges. *)
Fixpoint apply_to_second (r : R) (l1 : positive) (er2 : list positive) σ ef f
  : option (result (store * factory * filter_of)) :=
  match er2 with
  | [] => Some (Ok (σ, ef, f))
  | l2 :: er2 =>
      g ← create_binary_edge ef σ r (Some l1) (Some l2);
      '(σ, ef, f) ⇐ insert_generated max_infos σ g ef f;
      apply_to_second r l1 er2 σ ef f
  end.

Fixpoint apply_to_first (r : R) (er1 er2 : list positive) σ ef f : option (result (store * factory * filter_of)) :=
  match er1 with
  | [] => Some (Ok (σ, ef, f))
  | l1 :: er1 =>
      '(σ, ef, f) ⇐ apply_to_second r l1 er2 σ ef f;
      apply_to_first r er1 er2 σ ef f
  end.

Definition apply_rule (r : R) (er1 er2 : list positive) σ ef f : option (result (store * factory * filter_of)) :=
  assert_true (rule_rhs_size r =? 2) ;; apply_to_first r er1 er2 σ ef f.

Fixpoint exhaustive_apply (rr : list R) (er1 er2 : list positive) σ ef f : option (result (store * factory * filter_of)) :=
  match rr with
  | [] => Some (Ok (σ, ef, f))
  | r :: rr => '(σ, ef, f) ⇐ apply_rule r er1 er2 σ ef f; exhaustive_apply rr er1 er2 σ ef f
  end.

#[export] Instance exhaustive_filter : SpanFilter exhaustive_span_filter := {|
  sf_apply_rules σ ef rr er1 er2 s :=
    '(σ, ef, f) ⇐ exhaustive_apply rr er1 er2 σ ef (ex_filter s); Some (Ok (σ, ef, mk_exhaustive f));
  sf_finalize σ ef s := Some (Ok (σ, ef, mk_exhaustive (filter_finalize (ex_filter s))));
  sf_is_finalized s := finalized (ex_filter s);
  sf_top s := filter_top (ex_filter s);
  sf_pop σ s := f ← filter_pop hash_token hash_span σ (ex_filter s); Some (mk_exhaustive f);
  sf_empty s := filter_empty (ex_filter s) |}.

(** The cube heap. *)
Context {PQ : Type} `{!PriorityQueue (post_score_compare (score := score) (info_type := info_type)) PQ}.
#[export] Instance cube_heap_filter : SpanFilter (cube_heap_span_filter score R P) := {|
  sf_apply_rules σ ef rr er1 er2 s := Some (Ok (σ, ef, apply_rules rr er1 er2 s));
  sf_finalize σ ef s := finalize (PQ := PQ) hash_token hash_span max_equivalents σ ef s;
  sf_is_finalized s := is_finalized s;
  sf_top s := span_top s;
  sf_pop σ s := span_pop hash_token hash_span σ s;
  sf_empty s := span_empty s |}.

(** * What the exhaustive filter inserts *)

(** A generator makes the edges [es], in any store that has what [σ0] has. *)
Inductive makes σ0 : edge_generator score G -> list edge -> Prop :=
| makes_nil g : edge_generator_more g = false -> makes σ0 g []
| makes_cons g e g' es :
    edge_generator_more g = true ->
    (forall σ ef, σ0 ⊆ σ -> edge_generator_call σ g ef = Some (e, g', log_create_edge ef)) ->
    makes σ0 g' es -> makes σ0 g (e :: es).

(** The edges of the applications of rules to pairs of ranges. *)
Definition made_edges (edges_of : R -> positive -> positive -> list edge)
    (a : list R * list positive * list positive) : list edge :=
  a.1.1 ≫= fun r => a.1.2 ≫= fun l1 => a.2 ≫= fun l2 => edges_of r l1 l2.

Definition applied (apps : list (list R * list positive * list positive)) (r : R) (l1 l2 : positive) : Prop :=
  exists a, a ∈ apps /\ r ∈ a.1.1 /\ l1 ∈ a.1.2 /\ l2 ∈ a.2.

(** A binary rule applied to children in [σ0] makes one edge for each info. *)
Lemma binary_rule_makes σ0 σ ef r l1 l2 (i1 i2 : edge_equivalence_impl score info_type) (infos : list (info_type * score * score)) :
  σ0 ⊆ σ -> σ0 !! l1 = Some i1 -> σ0 !! l2 = Some i2 -> equiv_empty i1 = false -> equiv_empty i2 = false ->
  rule_rhs r 0 = Some (rt (m_rep i1)) -> rule_rhs r 1 = Some (rt (m_rep i2)) -> rule_rhs_size r = 2 ->
  let s := combine (spn (m_rep i1)) (spn (m_rep i2)) in
  yields (create_info σ r s [m_rep i1; m_rep i2]) infos ->
  exists g, create_binary_edge ef σ r (Some l1) (Some l2) = Some g /\
    makes σ0 g (edge_of_info ef r (Some l1) (Some l2) s
      (fun x => score_mul (score_mul x (inside (m_rep i1))) (inside (m_rep i2))) <$> infos).
Proof.
  intros Hσ H1 H2 He1 He2 Hr1 Hr2 Hs s Hy.
  rewrite (create_binary_edge_ok ef σ r l1 l2 i1 i2) by (done || by eapply lookup_weaken).
  eexists. split; [done|]. fold s. revert Hy. generalize (create_info σ r s [m_rep i1; m_rep i2]).
  intros gen Hy. induction Hy as [gen Hm|gen v gen' infos Hm Hp Hpop Hy IH]; [by constructor|].
  cbn [fmap list_fmap]. econstructor; [done| |exact IH]. intros σ' ef' Hσ'.
  unfold edge_generator_call, gcall, new_edge_generator. cbn [eg_generator tm_inside tm_heuristic eg_rule_id eg_root eg_e1 eg_e2].
  rewrite Hp; cbn [mbind option_bind]. rewrite Hpop; cbn [mbind option_bind]. destruct v as [[inf ins] h].
  unfold new_edge. cbn [deref]. rewrite (lookup_weaken _ _ _ _ H1 Hσ'); cbn [mbind option_bind].
  by rewrite (lookup_weaken _ _ _ _ H2 Hσ').
Qed.

Section exhaustive.
Context `{!StdAlgorithmLaws (alt_edge score), !InfoLaws info_type, !StrictWeak (score_lt (S := score)),
  !ScoreZeroLaws score}.
Context `{!PredicateSafe hash_token hash_span max_equivalents P}.
Context (σ0 : store) (ef0 : factory) (f0 : filter_of) (edges_of : R -> positive -> positive -> list edge).
Abbreviation inserted := (inserted hash_token hash_span max_equivalents σ0 f0).

(** Every application is of a binary rule to children it fits, and makes at most
    [max_infos] edges. *)
Class ApplicationsMade (apps : list (list R * list positive * list positive)) : Prop := {
  am_size a r : a ∈ apps -> r ∈ a.1.1 -> rule_rhs_size r = 2;
  am_made σ n r l1 l2 : σ0 ⊆ σ -> applied apps r l1 l2 ->
    exists g, create_binary_edge (count_edges n ef0) σ r (Some l1) (Some l2) = Some g /\ makes σ0 g (edges_of r l1 l2);
  am_length r l1 l2 : applied apps r l1 l2 -> (length (edges_of r l1 l2) <= max_infos)%nat;
  am_ok r l1 l2 e : applied apps r l1 l2 -> e ∈ edges_of r l1 l2 -> edge_ok σ0 e;
  am_max r l1 l2 e : applied apps r l1 l2 -> e ∈ edges_of r l1 l2 ->
    1 <= edge_equiv_max max_equivalents (pool_create e)
}.

(** A loop that inserts the edges [new] into the filter. *)
Definition inserts (run : store -> factory -> filter_of -> option (result (store * factory * filter_of)))
    (new : list edge) : Prop :=
  forall k σ f es, inserted es σ f -> insertions (es ++ new) <= pq_limit ->
  exists σ' f', run σ (count_edges k ef0) f = Some (Ok (σ', count_edges (k + length new) ef0, f')) /\
    inserted (es ++ new) σ' f'.

Lemma insertions_prefix (a b : list edge) : insertions a <= insertions (a ++ b).
Proof. unfold insertions. rewrite length_app. nia. Qed.

Lemma inserts_nil : inserts (fun σ ef f => Some (Ok (σ, ef, f))) [].
Proof. intros k σ f es Hf _. exists σ, f. by rewrite Nat.add_0_r, app_nil_r. Qed.

Lemma inserts_app run1 run2 new1 new2 : inserts run1 new1 -> inserts run2 new2 ->
  inserts (fun σ ef f => '(σ, ef, f) ⇐ run1 σ ef f; run2 σ ef f) (new1 ++ new2).
Proof.
  intros H1 H2 k σ f es Hf Hn. rewrite app_assoc in Hn.
  destruct (H1 k σ f es Hf) as (σ1&f1&->&Hf1); [etrans; [apply insertions_prefix|exact Hn]|].
  cbn [rbind mbind option_bind]. destruct (H2 (k + length new1)%nat σ1 f1 (es ++ new1) Hf1 Hn) as (σ2&f2&->&Hf2).
  exists σ2, f2. by rewrite app_assoc, length_app, Nat.add_assoc.
Qed.

Lemma count_edges_log k : log_create_edge (count_edges k ef0) = count_edges (S k) ef0.
Proof. destruct ef0. unfold log_create_edge, count_edges. cbn. f_equal. lia. Qed.

Lemma insert_generated_inserts g new n : makes σ0 g new -> (length new <= n)%nat -> Forall (edge_ok σ0) new ->
  Forall (fun e => 1 <= edge_equiv_max max_equivalents (pool_create e)) new ->
  inserts (fun σ ef f => insert_generated n σ g ef f) new.
Proof.
  intros Hg. revert n. induction Hg as [g Hm|g e g' new Hm Hcall Hg IH]; intros n Hn Hok Hmax k σ f es Hf Hlim.
  - exists σ, f. destruct n; cbn [insert_generated]; rewrite Hm; by rewrite app_nil_r, Nat.add_0_r.
  - destruct n as [|n]; [cbn in Hn; lia|]. cbn [insert_generated]. rewrite Hm.
    rewrite Hcall by apply (in_sub _ _ _ _ _ _ _ _ Hf). cbn [mbind option_bind fst snd].
    apply Forall_cons in Hok as [He Hok]. apply Forall_cons in Hmax as [Hme Hmax].
    assert (Hassoc : es ++ e :: new = (es ++ [e]) ++ new) by by rewrite <- app_assoc.
    rewrite Hassoc in Hlim |- *.
    destruct (inserted_step hash_token hash_span max_equivalents σ0 f0 es σ f e Hf He Hme) as (t&σ1&f1&->&Hf1).
    + etrans; [apply insertions_prefix|exact Hlim].
    + cbn [rbind mbind option_bind]. rewrite count_edges_log.
      destruct (IH n ltac:(cbn in Hn; lia) Hok Hmax (S k) σ1 f1 (es ++ [e]) Hf1 Hlim) as (σ2&f2&->&Hf2).
      exists σ2, f2. split; [|done].
      by replace (k + length (e :: new))%nat with (S k + length new)%nat by (cbn [length]; lia).
Qed.

Section applications.
Context (apps : list (list R * list positive * list positive)) `{!ApplicationsMade apps}.

Lemma apply_to_second_inserts r l1 er2 : (forall l2, l2 ∈ er2 -> applied apps r l1 l2) ->
  inserts (fun σ ef f => apply_to_second r l1 er2 σ ef f) (er2 ≫= fun l2 => edges_of r l1 l2).
Proof.
  induction er2 as [|l2 er2 IH]; intros Happ; [apply inserts_nil|]. cbn [mbind list_bind].
  assert (Ha : applied apps r l1 l2) by (apply Happ; left).
  intros k σ f es Hf Hlim. cbn [apply_to_second].
  destruct (am_made σ k r l1 l2 (in_sub _ _ _ _ _ _ _ _ Hf) Ha) as (g&->&Hg). cbn [mbind option_bind].
  apply (inserts_app (fun σ ef f => insert_generated max_infos σ g ef f) (fun σ ef f => apply_to_second r l1 er2 σ ef f));
    [|apply IH; intros; apply Happ; by right|done|done].
  apply insert_generated_inserts; [done|by apply am_length| |];
    apply Forall_forall; intros e He; [by eapply am_ok|by eapply am_max].
Qed.

Lemma apply_to_first_inserts r er1 er2 : (forall l1 l2, l1 ∈ er1 -> l2 ∈ er2 -> applied apps r l1 l2) ->
  inserts (fun σ ef f => apply_to_first r er1 er2 σ ef f) (er1 ≫= fun l1 => er2 ≫= fun l2 => edges_of r l1 l2).
Proof.
  induction er1 as [|l1 er1 IH]; intros Happ; [apply inserts_nil|]. cbn [mbind list_bind apply_to_first].
  apply inserts_app; [apply apply_to_second_inserts; intros; apply Happ; [left|done]|].
  apply IH. intros; apply Happ; [by right|done].
Qed.

Lemma exhaustive_apply_inserts rr er1 er2 : (forall r, r ∈ rr -> rule_rhs_size r = 2) ->
  (forall r l1 l2, r ∈ rr -> l1 ∈ er1 -> l2 ∈ er2 -> applied apps r l1 l2) ->
  inserts (fun σ ef f => exhaustive_apply rr er1 er2 σ ef f) (made_edges edges_of (rr, er1, er2)).
Proof.
  intros Hsize Happ. unfold made_edges. cbn [fst snd]. induction rr as [|r rr IH]; [apply inserts_nil|].
  cbn [mbind list_bind exhaustive_apply]. apply inserts_app.
  - unfold apply_rule. rewrite (Hsize r) by left. cbn [assert_true Z.eqb Pos.eqb mbind option_bind].
    apply apply_to_first_inserts. intros; apply Happ; [left|done|done].
  - apply IH; [intros; apply Hsize; by right|intros; apply Happ; [by right|done|done]].
Qed.
End applications.

Lemma apply_all_inserts apps1 apps k σ f es : ApplicationsMade apps ->
  (forall a, a ∈ apps1 -> a ∈ apps) -> inserted es σ f ->
  insertions (es ++ (apps1 ≫= made_edges edges_of)) <= pq_limit ->
  exists σ' f', apply_all σ (count_edges k ef0) apps1 (mk_exhaustive f) =
      Some (Ok (σ', count_edges (k + length (apps1 ≫= made_edges edges_of)) ef0, mk_exhaustive f')) /\
    inserted (es ++ (apps1 ≫= made_edges edges_of)) σ' f'.
Proof.
  intros Hmade. revert k σ f es. induction apps1 as [|[[rr er1] er2] apps1 IH]; intros k σ f es Hsub Hf Hlim; cbn [apply_all].
  { exists σ, f. cbn [mbind list_bind length]. by rewrite Nat.add_0_r, app_nil_r. }
  cbn [mbind list_bind] in Hlim |- *. rewrite app_assoc in Hlim.
  assert (Ha : (rr, er1, er2) ∈ apps) by (apply Hsub; left).
  destruct (exhaustive_apply_inserts apps rr er1 er2) with (k := k) (σ := σ) (f := f) (es := es) as (σ1&f1&Hrun&Hf1).
  - intros r Hr. by apply (am_size (apps := apps) (rr, er1, er2)).
  - intros r l1 l2 Hr H1 H2. by exists (rr, er1, er2).
  - done.
  - etrans; [apply insertions_prefix|exact Hlim].
  - cbn [sf_apply_rules exhaustive_filter ex_filter fst snd]. rewrite Hrun. cbn [rbind mbind option_bind].
    destruct (IH (k + length (made_edges edges_of (rr, er1, er2)))%nat σ1 f1 _ ltac:(intros; apply Hsub; by right) Hf1 Hlim)
      as (σ2&f2&->&Hf2).
    exists σ2, f2. split; [by rewrite length_app, Nat.add_assoc|by rewrite app_assoc].
Qed.

Lemma count_zero : count_edges 0 ef0 = ef0.
Proof. destruct ef0. unfold count_edges. cbn. f_equal. lia. Qed.

(** The exhaustive filter inserts every edge of every application of a rule to a
    pair of edges, rules first and edges in the order of their cells, and counts
    them; nothing else gets into it. *)
Theorem exhaustive_filter_inserts p apps : ApplicationsMade apps -> new_filter p = Some (Ok f0) ->
  insertions (apps ≫= made_edges edges_of) <= pq_limit ->
  exists σ f, apply_all σ0 ef0 apps (mk_exhaustive f0) =
      Some (Ok (σ, count_edges (length (apps ≫= made_edges edges_of)) ef0, mk_exhaustive f)) /\
    filter_insert_edges hash_token hash_span max_equivalents σ0 (apps ≫= made_edges edges_of) f0 = Some (Ok (σ, f)) /\
    finalized f = false /\ σ0 ⊆ σ.
Proof.
  intros Hmade Hf0%(inserted_new hash_token hash_span max_equivalents σ0) Hlim.
  destruct (apply_all_inserts apps apps 0 σ0 f0 [] Hmade ltac:(done) Hf0 Hlim) as (σ&f&Hrun&Hf).
  rewrite count_zero in Hrun. exists σ, f. split; [done|]. split; [by apply Hf|]. split; by apply Hf.
Qed.
End exhaustive.
End filters.

(** * The two filters with a beam *)

Section compare.
Context {PQ : Type} `{!PriorityQueue (post_score_compare (score := score) (info_type := info_type)) PQ}.
Context `{!PriorityQueueLaws post_score_compare PQ}.
Context `{!StdAlgorithmLaws (alt_edge score), !InfoLaws info_type, !StrictWeak (score_lt (S := score)),
  !ScoreZeroLaws score}.
Context (max_infos : nat) (σ0 : store) (ef0 : factory) (edge_of : R -> positive -> positive -> edge).
Abbreviation apps_t := (list (list R * list positive * list positive)).

(** The cubes that [apply_rules] adds. *)
Definition cubes_of (apps : apps_t) : list (sorted_cube R positive positive) :=
  apps ≫= fun a => if nonempty a.1.1 && nonempty a.1.2 && nonempty a.2 then [mk_cube a.1.1 a.1.2 a.2] else [].

(** The one edge of an application. *)
Definition single_edge (r : R) (l1 l2 : positive) : list edge := [edge_of r l1 l2].

(** [edge_at] is the edge of an item. *)
Definition edges_at (cs : list (sorted_cube R positive positive)) (edge_at : item -> edge) : Prop :=
  forall i c r l1 l2, cs !! parent i = Some c -> item_x c i = Some r -> item_y c i = Some l1 -> item_z c i = Some l2 ->
    edge_at i = edge_of r l1 l2.

Lemma bind_positions {A B} (l : list A) (g : A -> list B) (h : nat -> list B) n :
  (forall i a, l !! i = Some a -> h (n + i)%nat = g a) -> seq n (length l) ≫= h = l ≫= g.
Proof.
  revert n. induction l as [|a l IH]; intros n Hh; [done|]. cbn [length seq mbind list_bind].
  rewrite <- (Nat.add_0_r n) at 1. rewrite (Hh 0%nat a eq_refl). f_equal. apply (IH (S n)). intros i b Hi.
  rewrite Nat.add_succ_comm. by apply Hh.
Qed.

Lemma fmap_of_bind {A B C} (f : B -> C) (g : A -> list B) (l : list A) :
  f <$> (l ≫= g) = l ≫= fun x => f <$> g x.
Proof. induction l as [|a l IH]; [done|]. cbn [mbind list_bind]. by rewrite fmap_app, <- IH. Qed.

Lemma fmap_as_bind {A B} (f : A -> B) (l : list A) : f <$> l = l ≫= fun x => [f x].
Proof. induction l as [|a l IH]; [done|]. change (f a :: (f <$> l) = f a :: (l ≫= fun x => [f x])). by rewrite IH. Qed.

Lemma edges_of_cube cs edge_at k c : edges_at cs edge_at -> cs !! k = Some c ->
  edge_at <$> items_of k c = made_edges single_edge (xs c, ys c, zs c).
Proof.
  intros Hat Hc. unfold items_of, made_edges. rewrite fmap_of_bind. cbn [fst snd].
  apply bind_positions. intros x r Hx. rewrite fmap_of_bind.
  apply bind_positions. intros y l1 Hy. rewrite <- list_fmap_compose, fmap_as_bind.
  apply bind_positions. intros z l2 Hz. unfold single_edge. f_equal. cbn [compose].
  by apply (Hat (mk_item k x y z) c).
Qed.

Lemma edges_of_cubes cs2 cs1 edge_at : edges_at (cs1 ++ cs2) edge_at ->
  edge_at <$> all_items (length cs1) cs2 = cs2 ≫= fun c => made_edges single_edge (xs c, ys c, zs c).
Proof.
  revert cs1. induction cs2 as [|c cs2 IH]; intros cs1 Hat; [done|]. cbn [all_items mbind list_bind].
  rewrite fmap_app. rewrite (edges_of_cube _ _ _ c Hat) by by apply list_lookup_middle. f_equal.
  assert (Hcs : cs1 ++ c :: cs2 = (cs1 ++ [c]) ++ cs2) by by rewrite <- app_assoc. rewrite Hcs in Hat.
  rewrite <- (IH (cs1 ++ [c]) Hat). f_equal. rewrite length_app, Nat.add_comm. done.
Qed.

Lemma bind_nil {A B} (l : list A) : l ≫= (fun _ => []) = ([] : list B).
Proof. induction l; done. Qed.

Lemma made_edges_empty a : nonempty a.1.1 && nonempty a.1.2 && nonempty a.2 = false -> made_edges single_edge a = [].
Proof.
  destruct a as [[rr er1] er2]. unfold made_edges. cbn [fst snd]. intros He.
  destruct rr as [|r0 rr0]; [done|]. destruct er1 as [|l0 er1]; [apply (bind_nil (r0 :: rr0))|].
  destruct er2; [|done]. clear He. induction (r0 :: rr0) as [|r rr IH]; [done|].
  cbn [mbind list_bind] in *. rewrite IH. rewrite app_nil_r. apply (bind_nil (l0 :: er1)).
Qed.

(** The items of the cubes are the applications. *)
Lemma edges_of_apps apps edge_at : edges_at (cubes_of apps) edge_at ->
  edge_at <$> all_items 0 (cubes_of apps) = apps ≫= made_edges single_edge.
Proof.
  intros Hat. rewrite (edges_of_cubes (cubes_of apps) [] edge_at Hat : edge_at <$> all_items 0 _ = _). clear Hat.
  unfold cubes_of. induction apps as [|a apps IH]; [done|]. cbn [mbind list_bind]. rewrite bind_app, IH. f_equal.
  destruct (nonempty _ && _ && _) eqn:E; [|by rewrite made_edges_empty].
  cbn [mbind list_bind xs ys zs]. rewrite app_nil_r. by destruct a as [[rr er1] er2].
Qed.

Lemma apply_all_cubes {P} `{!FilterPredicate (score := score) (info_type := info_type) P} apps σ ef cs
    (f : predicate_edge_filter (P := P)) :
  apply_all (SpanFilter0 := cube_heap_filter (PQ := PQ)) σ ef apps (mk_cube_heap cs f false) =
    Some (Ok (σ, ef, mk_cube_heap (cs ++ cubes_of apps) f false)).
Proof.
  revert cs. induction apps as [|a apps IH]; intros cs; cbn [apply_all]; [by rewrite app_nil_r|].
  cbn [sf_apply_rules cube_heap_filter rbind mbind option_bind]. unfold apply_rules. cbn [sorted_cube_list fuzzy_filter ch_finalized].
  unfold cubes_of. cbn [mbind list_bind]. fold (cubes_of apps).
  destruct (nonempty _ && _ && _); rewrite IH; [by rewrite <- app_assoc|done].
Qed.

(** The cubes make what the applications make. *)
Lemma edges_made_of_apps apps edge_at : edges_at (cubes_of apps) edge_at ->
  ApplicationsMade max_infos σ0 ef0 single_edge apps -> EdgesMade max_equivalents (cubes_of apps) σ0 ef0 edge_at.
Proof.
  intros Hat Hmade. pose proof Hmade as [_ _ _ Hok Hmax].
  assert (Happ : forall i, in_cubes (cubes_of apps) i -> exists c r l1 l2, cubes_of apps !! parent i = Some c /\
    item_x c i = Some r /\ item_y c i = Some l1 /\ item_z c i = Some l2 /\ applied apps r l1 l2 /\ edge_at i = edge_of r l1 l2).
  { intros i (c&Hc&Hx&Hy&Hz). apply lookup_lt_is_Some in Hx as [r Hr], Hy as [l1 H1], Hz as [l2 H2].
    exists c, r, l1, l2. do 4 (split; [done|]). split; [|by apply (Hat i c)].
    apply list_elem_of_lookup_2 in Hc. unfold cubes_of in Hc. apply list_elem_of_bind in Hc as (a&Hc&Ha).
    destruct (nonempty _ && _ && _); [|by apply not_elem_of_nil in Hc]. apply list_elem_of_singleton in Hc as ->.
    exists a. cbn [xs ys zs] in *. split; [done|]. split_and!; by eapply list_elem_of_lookup_2. }
  split.
  - intros σ n i Hσ (c&r&l1&l2&Hc&Hr&H1&H2&Ha&->)%Happ. unfold item_edge, create_first_edge.
    rewrite Hc; cbn [mbind option_bind]. rewrite Hr, H1, H2; cbn [mbind option_bind].
    destruct (am_made max_infos σ0 ef0 single_edge σ n r l1 l2 Hσ Ha) as (g&->&Hg). cbn [mbind option_bind].
    inversion Hg as [|? ? g' ? _ Hcall _]; subst. rewrite Hcall by done. cbn. by rewrite (count_edges_log ef0).
  - intros i (c&r&l1&l2&_&_&_&_&Ha&->)%Happ. apply (Hok r l1 l2); [done|left].
  - intros i (c&r&l1&l2&_&_&_&_&Ha&->)%Happ. apply (Hmax r l1 l2); [done|left].
Qed.

(** A filter with a beam keeps the beam of the edges. *)
Lemma inserted_beam thr p f0 es σ f `{!Beam thr} : new_ratio thr = Some p -> new_filter p = Some (Ok f0) ->
  inserted hash_token hash_span max_equivalents σ0 f0 es σ f -> ordered_alike es -> insertions es <= pq_limit ->
  (forall e, e ∈ es -> edge_ok σ0 e /\ 1 <= edge_equiv_max max_equivalents (pool_create e)) ->
  keeps_beam thr es (queued σ (pqueue f)).
Proof.
  intros Hp Hf0 Hin Hne Hlim Hall. destruct (ratio_run_new hash_token hash_span max_equivalents thr p σ0 Hp) as (f1&Hf1&Hrun0).
  assert (Ef : f1 = f0) by congruence. subst f1. clear Hf0 Hf1.
  destruct (ratio_runs hash_token hash_span max_equivalents thr es [] σ0 f0 Hrun0) as (σ2&f2&Hrun2&Hratio);
    [apply Forall_forall; intros e He; by apply Hall|apply Forall_forall; intros e He; by apply Hall|done|done|].
  pose proof (in_run _ _ _ _ _ _ _ _ Hin) as Hrun. rewrite Hrun in Hrun2. injection Hrun2 as <- <-.
  exact (rr_beam _ _ _ _ _ _ _ Hratio).
Qed.

(** C28: With a beam the best-first exploration and the exhaustive filter agree when every
    application of a rule makes one edge and scores do not rise along the cubes: given the
    same applications, both end with equivalent representatives of the same scores, and with
    the same edges when no two edges are equivalent.  Equivalent edges are supposed to have
    their totals ordered as their inside scores.  (When scores rise along the cubes, for
    which the fuzz of the filter is meant, nothing is said.) *)
Theorem cube_heap_matches_exhaustive thr p apps edge_at `{!Beam thr} :
  new_ratio thr = Some p -> ApplicationsMade max_infos σ0 ef0 single_edge apps ->
  edges_at (cubes_of apps) edge_at -> falling (cubes_of apps) edge_at ->
  ordered_alike (apps ≫= made_edges single_edge) -> insertions (apps ≫= made_edges single_edge) <= pq_limit ->
  exists f0 σe efe fe σc efc fc, new_filter p = Some (Ok f0) /\
    run_filter (SpanFilter0 := exhaustive_filter max_infos) σ0 ef0 apps (mk_exhaustive f0) =
      Some (Ok (σe, efe, mk_exhaustive fe)) /\
    run_filter (SpanFilter0 := cube_heap_filter (PQ := PQ)) σ0 ef0 apps (new_cube_heap f0) =
      Some (Ok (σc, efc, mk_cube_heap (cubes_of apps) fc false)) /\
    same_classes (queued σc (pqueue fc)) (queued σe (pqueue fe)) /\
    same_classes (queued σe (pqueue fe)) (queued σc (pqueue fc)) /\
    (inequivalent (apps ≫= made_edges single_edge) -> queued σc (pqueue fc) ≡ₚ queued σe (pqueue fe)).
Proof.
  intros Hp Hmade Hat Hfall Hne Hlim. destruct (ratio_run_new hash_token hash_span max_equivalents thr p σ0 Hp) as (f0&Hf0&Hrun0).
  pose proof (inserted_new hash_token hash_span max_equivalents σ0 f0 p Hf0) as Hin0.
  pose proof (edges_of_apps apps edge_at Hat) as Hedges. pose proof (edges_made_of_apps apps edge_at Hat Hmade) as Hcubes.
  destruct (apply_all_inserts max_infos σ0 ef0 f0 single_edge apps apps 0 σ0 f0 [] Hmade ltac:(done) Hin0 Hlim) as (σe&fe&Hrune&Hfe).
  rewrite (count_zero ef0) in Hrune.
  assert (Hall : forall e, e ∈ apps ≫= made_edges single_edge -> edge_ok σ0 e /\ 1 <= edge_equiv_max max_equivalents (pool_create e)).
  { intros e He. rewrite <- Hedges in He. apply list_elem_of_fmap in He as (i&->&Hi%in_cubes_all).
    destruct Hcubes as [_ Hok Hmax]. split; [by apply Hok|by apply Hmax]. }
  pose proof (inserted_beam thr p f0 _ σe fe Hp Hf0 Hfe Hne Hlim Hall) as Hqe. cbn [app] in Hqe.
  rewrite <- Hedges in Hlim, Hne.
  destruct (finalize_ok (PQ := PQ) hash_token hash_span max_equivalents (cubes_of apps) σ0 ef0 f0 edge_at p Hf0 Hlim)
    as (l&fr&n&σc&fc&Hfin&Hex&Hb&Hend).
  pose proof (beam_of_all hash_token hash_span max_equivalents (cubes_of apps) σ0 ef0 edge_at thr f0 l fr σc fc Hrun0 Hlim Hne Hfall Hex Hend) as Hqc.
  rewrite Hedges in Hqc.
  assert (Hq : inequivalent (apps ≫= made_edges single_edge) -> queued σc (pqueue fc) ≡ₚ queued σe (pqueue fe)).
  { intros Hi. by rewrite (keeps_beam_all thr _ _ Hi Hqc), (keeps_beam_all thr _ _ Hi Hqe). }
  exists f0, σe, (count_edges (length (apps ≫= made_edges single_edge)) ef0), (filter_finalize fe), σc, (count_edges n ef0), (filter_finalize fc).
  refine (conj Hf0 (conj _ (conj _ (conj (keeps_beam_same _ _ _ _ Hqc Hqe) (conj (keeps_beam_same _ _ _ _ Hqe Hqc) Hq))))).
  - clear Hf0. unfold run_filter. rewrite Hrune. reflexivity.
  - clear Hf0. unfold run_filter, new_cube_heap. rewrite (apply_all_cubes apps σ0 ef0 [] f0). exact Hfin.
Qed.
End compare.
End span_filter.

(** * Samples: those of [CubeHeap] *)

#[local] Existing Instances CubeHeap.cost_grammar CubeHeap.sample_combine CubeHeap.cost_compare_sw.

Definition cost_apps : list (list Z * list positive * list positive) :=
  [([1; 5], [1%positive; 2%positive], [3%positive]); ([2], [], [3%positive])].

Definition cost_edge_of (r : Z) (l1 l2 : positive) : edge (option Z) Z :=
  match create_first_edge cost_store cost_factory r l1 l2 with
  | Some x => x.1
  | None => cost_edge 3 0 0 0 2
  end.

Lemma cost_applied (Q : Z -> positive -> positive -> Prop) :
  Q 1 1%positive 3%positive -> Q 1 2%positive 3%positive -> Q 5 1%positive 3%positive -> Q 5 2%positive 3%positive ->
  forall r l1 l2, applied cost_apps r l1 l2 -> Q r l1 l2.
Proof.
  intros H1 H2 H3 H4 r l1 l2 (a&Ha&Hr&Hl1&Hl2). unfold cost_apps in Ha.
  rewrite !elem_of_cons, elem_of_nil in Ha. destruct Ha as [->|[->|[]]]; cbn [fst snd] in *;
    [|by apply not_elem_of_nil in Hl1].
  rewrite !elem_of_cons, elem_of_nil in Hr. rewrite !elem_of_cons, elem_of_nil in Hl1. rewrite elem_of_cons, elem_of_nil in Hl2.
  destruct Hr as [->|[->|[]]], Hl1 as [->|[->|[]]], Hl2 as [->|[]]; done.
Qed.

Lemma cost_made (σ : equiv_store (option Z) Z) n r l1 l2 i1 i2 v :
  cost_store ⊆ σ -> cost_store !! l1 = Some i1 -> cost_store !! l2 = Some i2 ->
  equiv_empty i1 = false -> equiv_empty i2 = false ->
  rt (m_rep i1) = sample_tag 1 -> rt (m_rep i2) = sample_tag 2 ->
  yields (create_info σ r (combine (spn (m_rep i1)) (spn (m_rep i2))) [m_rep i1; m_rep i2]) [v] ->
  cost_edge_of r l1 l2 = edge_of_info cost_factory r (Some l1) (Some l2) (combine (spn (m_rep i1)) (spn (m_rep i2)))
    (fun x => score_mul (score_mul x (inside (m_rep i1))) (inside (m_rep i2))) v ->
  exists g, create_binary_edge (count_edges n cost_factory) σ r (Some l1) (Some l2) = Some g /\
    makes cost_store g (single_edge cost_edge_of r l1 l2).
Proof.
  intros Hσ H1 H2 He1 He2 Hr1 Hr2 Hy He. unfold single_edge. rewrite He.
  apply (binary_rule_makes cost_store σ (count_edges n cost_factory) r l1 l2 i1 i2 [v] Hσ H1 H2 He1 He2);
    [by rewrite Hr1|by rewrite Hr2|done|exact Hy].
Qed.

#[local] Instance cost_applications : ApplicationsMade 4 1 cost_store cost_factory (single_edge cost_edge_of) cost_apps.
Proof.
  split.
  - done.
  - intros σ n r l1 l2 Hσ. revert r l1 l2.
    apply (cost_applied (fun r l1 l2 => exists g, create_binary_edge (count_edges n cost_factory) σ r (Some l1) (Some l2) = Some g /\
      makes cost_store g (single_edge cost_edge_of r l1 l2)));
      (eapply cost_made; [exact Hσ|reflexivity..|apply yields_range|reflexivity]).
  - apply (cost_applied (fun r l1 l2 => (length (single_edge cost_edge_of r l1 l2) <= 1)%nat)); done.
  - intros r l1 l2 e Ha ->%list_elem_of_singleton. revert r l1 l2 Ha.
    apply (cost_applied (fun r l1 l2 => edge_ok cost_store (cost_edge_of r l1 l2))); (split; [done|split; by eexists]).
  - intros r l1 l2 e Ha ->%list_elem_of_singleton. revert r l1 l2 Ha.
    apply (cost_applied (fun r l1 l2 => 1 <= edge_equiv_max 4 (pool_create (cost_edge_of r l1 l2)))); vm_compute; discriminate.
Qed.

Lemma cost_edges_inequivalent : inequivalent [cost_edge_of 1 1 3; cost_edge_of 1 2 3; cost_edge_of 5 1 3; cost_edge_of 5 2 3].
Proof.
  repeat split; intros r Hr; rewrite ?elem_of_cons, ?elem_of_nil in Hr; decompose [or] Hr; subst; (done || vm_compute; reflexivity).
Qed.

Lemma exhaustive_filter_inserts_witness :
  exists f0 σ f, new_filter (new_histogram 2) = Some (Ok f0) /\
    apply_all (SpanFilter0 := exhaustive_filter typ_and_idx sample_hash_span 4 1) cost_store cost_factory cost_apps (mk_exhaustive f0) =
      Some (Ok (σ, count_edges 4 cost_factory, mk_exhaustive f)) /\
    filter_insert_edges typ_and_idx sample_hash_span 4 cost_store
      [cost_edge_of 1 1 3; cost_edge_of 1 2 3; cost_edge_of 5 1 3; cost_edge_of 5 2 3] f0 = Some (Ok (σ, f)) /\
    finalized f = false /\ cost_store ⊆ σ.
Proof.
  destruct (new_filter_ok (score := option Z) (info_type := Z) typ_and_idx sample_hash_span 4 (new_histogram 2) cost_store)
    as (f0&Hf0&_).
  destruct (exhaustive_filter_inserts typ_and_idx sample_hash_span 4 1 cost_store cost_factory f0 (single_edge cost_edge_of)
    (new_histogram 2) cost_apps cost_applications Hf0) as (σ&f&H).
  - vm_compute. discriminate.
  - exists f0, σ, f. exact (conj Hf0 H).
Defined.

Lemma cube_heap_matches_exhaustive_witness :
  exists f0 σe efe fe σc efc fc, new_filter (mk_ratio (Some (-3)) None) = Some (Ok f0) /\
    run_filter (SpanFilter0 := exhaustive_filter typ_and_idx sample_hash_span 4 1) cost_store cost_factory cost_apps (mk_exhaustive f0) =
      Some (Ok (σe, efe, mk_exhaustive fe)) /\
    run_filter (SpanFilter0 := cube_heap_filter typ_and_idx sample_hash_span 4 (PQ := cost_queue)) cost_store cost_factory cost_apps
      (new_cube_heap f0) = Some (Ok (σc, efc, mk_cube_heap (cubes_of cost_apps) fc false)) /\
    same_classes (queued σc (pqueue fc)) (queued σe (pqueue fe)) /\
    same_classes (queued σe (pqueue fe)) (queued σc (pqueue fc)) /\
    (inequivalent (cost_apps ≫= made_edges (single_edge cost_edge_of)) -> queued σc (pqueue fc) ≡ₚ queued σe (pqueue fe)).
Proof.
  pose proof (log_beam (-3) ltac:(lia)) as Hbeam.
  apply (cube_heap_matches_exhaustive typ_and_idx sample_hash_span 4 (PQ := cost_queue) 1 cost_store cost_factory cost_edge_of
    (Some (-3)) (mk_ratio (Some (-3)) None) cost_apps cost_at).
  - reflexivity.
  - exact cost_applications.
  - intros [[|k] x y z] c r l1 l2 Hc; [|by destruct k]. injection Hc as <-. unfold item_x, item_y, item_z. cbn.
    destruct x as [|[|x]]; [| |done]; destruct y as [|[|y]]; [| |done| | |done]; destruct z as [|z]; try done;
      intros [= <-] [= <-] [= <-]; reflexivity.
  - intros j p (c&Hc&Hj). apply cost_falling. exists c. split; [|exact Hj].
    destruct j as [[|k] x y z]; [exact Hc|by destruct k].
  - apply inequivalent_alike. exact cost_edges_inequivalent.
  - vm_compute. discriminate.
Defined.
