(* ===== verification/FilterBank.v ===== *)
(** The bank of filters that applies binary rules to the chart: [filter_bank]
    (src/sbmt_decoder/include/sbmt/search/filter_bank.hpp and impl/filter_bank.ipp).

    The bank has the chart, the maps of [RuleMap] and a filter for each span.  To
    combine two spans it goes by the cells of the first, the representatives of the
    right hand sides that start with their root, the edges of the second and the
    rules of the right hand side.  The reference is the loop over all rules. *)
From S2P Require Import Prelude Span PriorityTable PriorityQueue TokenStorage Token Edge EdgeEquivalence EdgeQueue FilterPredicate Chart EdgeFilter SortedCube Generator CubeHeap RuleMap SpanFilter.
Open Scope Z_scope.

Section bank.
Context {score info_type R G : Type} `{!ScoreOps score, !ScoreZero score, !InfoOps info_type}.
Context `{!Inhabited score, !Inhabited info_type}.
Abbreviation edge := (edge score info_type).
Abbreviation store := (equiv_store score info_type).
Abbreviation factory := (edge_factory score).
Context `{!GrammarOps R score edge store G, !Generator G (info_type * score * score)}.
Context `{!StdAlgorithms (alt_edge score), !StdAlgorithms (R * score), HC : !HashCombine}.
Context (max_equivalents : Z).
Context (pow_tm pow_info : score -> score) (info_heuristic : R -> score).
Abbreviation app := (list R * list positive * list positive)%type.
Abbreviation chart := (basic_chart score).
Implicit Types (σ : store) (ef : factory) (ch : chart) (r : R) (rs : list R) (apps : list app) (s : span_t).

(** [concrete_edge_factory::rule_heuristic]: the powers and the heuristic of the info
    are those of the factory. *)
Definition rule_heuristic r : score :=
  score_mul (score_mul (rule_score r) (pow_tm (rule_score_estimate r))) (pow_info (info_heuristic r)).

Abbreviation rule_key := (rule_key rule_rhs_size rule_rhs).
Abbreviation rules := (rules rule_rhs_size rule_rhs).
Abbreviation reps := (reps rule_rhs_size rule_rhs).

Section filters.
Context {F : Type} `{!SpanFilter (score := score) (info_type := info_type) (R := R) F}.

(** The factory's [create]. *)
Context (create : span_t -> F).

(** A filter that was freed is [None]. *)
Record filter_bank := mk_bank {
  bank_chart : chart;
  span_filter_map : gmap (Z * Z) (option F);
  total_span : span_t;
  rhs_map : sorted_rhs_map (score := score) (R := R);
  bank_sig_map : signature_index_map (R := R)
}.
Implicit Types b : filter_bank.

Definition new_filter_bank (all_rules : list R) ch (ts : span_t) : option filter_bank :=
  m ← new_sorted_rhs_map rule_lhs rule_rhs_size rule_rhs rule_heuristic all_rules;
  sm ← new_signature_map rule_lhs rule_rhs_size rule_rhs all_rules;
  Some (mk_bank ch ∅ ts m sm).

Definition set_filter s (pf : option F) b : filter_bank :=
  mk_bank (bank_chart b) (<[span_key s := pf]> (span_filter_map b)) (total_span b) (rhs_map b) (bank_sig_map b).

Definition bank_get_create s b : option F * filter_bank :=
  match span_filter_map b !! span_key s with
  | Some pf => (pf, b)
  | None => let pf := Some (create s) in (pf, set_filter s pf b)
  end.

(** The loop over the representatives: [pf] is the filter of the target, which is
    dereferenced when rules are applied. *)
Fixpoint apply_to_reps (rs : list R) (c : unordered_cell score) s2 b σ ef (pf : option F)
  : option (result (store * factory * option F)) :=
  match rs with
  | [] => Some (Ok (σ, ef, pf))
  | r :: rs =>
      rhs2 ← rule_rhs r 1;
      er2 ← chart_edges σ rhs2 s2 (bank_chart b);
      match er2 with
      | [] => apply_to_reps rs c s2 b σ ef pf
      | _ => let er1 := edge_container c in
             rr ← rules (rule_key r) (rhs_map b);
             f ← pf;
             '(σ, ef, f) ⇐ sf_apply_rules σ ef rr er1 er2 f;
             apply_to_reps rs c s2 b σ ef (Some f)
      end
  end.

(** The loop over the cells of the first constituent. *)
Fixpoint apply_to_cells (cs : list (unordered_cell score)) s2 b σ ef (pf : option F)
  : option (result (store * factory * option F)) :=
  match cs with
  | [] => Some (Ok (σ, ef, pf))
  | c :: cs =>
      rhs1 ← cell_root σ c;
      rs ← reps rhs1 (bank_sig_map b);
      '(σ, ef, pf) ⇐ apply_to_reps rs c s2 b σ ef pf;
      apply_to_cells cs s2 b σ ef pf
  end.

Definition bank_apply_rules (first_constituent : span_t) (right_boundary : Z) σ ef b
  : option (result (store * factory * filter_bank)) :=
  let second_constituent := span_ctor (span_right first_constituent) right_boundary in
  let target := combine first_constituent second_constituent in
  let '(pf, b) := bank_get_create target b in
  '(σ, ef, pf) ⇐ apply_to_cells (chart_cells first_constituent (bank_chart b)) second_constituent b σ ef pf;
  Some (Ok (σ, ef, set_filter target pf b)).

(** The calls for several first constituents. *)
Fixpoint apply_splits (firsts : list span_t) (right_boundary : Z) σ ef b
  : option (result (store * factory * filter_bank)) :=
  match firsts with
  | [] => Some (Ok (σ, ef, b))
  | s :: firsts => '(σ, ef, b) ⇐ bank_apply_rules s right_boundary σ ef b; apply_splits firsts right_boundary σ ef b
  end.
End filters.

(** * The specification *)

(** A rule with the edges it is applied to. *)
Definition triples_of (a : app) : list (R * positive * positive) :=
  a.1.1 ≫= fun r => a.1.2 ≫= fun l1 => a.2 ≫= fun l2 => [(r, l1, l2)].
Definition app_triples apps : list (R * positive * positive) := apps ≫= triples_of.

(** The edges of a span for a token of a right hand side. *)
Definition edges_with σ ch s (t : option indexed_token) : list positive :=
  match t with Some t => default [] (chart_edges σ t s ch) | None => [] end.

(** The loop over the binary rules that are not to a toplevel tag. *)
Abbreviation lower_binary all_rules := (binary_rules rule_rhs_size (lower_rules rule_lhs all_rules)).
Definition rule_applications σ ch s1 s2 r : list (R * positive * positive) :=
  edges_with σ ch s1 (rule_rhs r 0) ≫= fun l1 => edges_with σ ch s2 (rule_rhs r 1) ≫= fun l2 => [(r, l1, l2)].
Definition all_applications σ ch (all_rules : list R) s1 s2 : list (R * positive * positive) :=
  lower_binary all_rules ≫= rule_applications σ ch s1 s2.

(** What a filter promises to the bank: from a state in which it has taken [apps] it
    takes one more application that is permitted, and leaves the store of the chart
    as it is. *)
Class FilterRuns {F} `{!SpanFilter (score := score) (info_type := info_type) (R := R) F} (σ0 : store) (permitted : list app -> Prop)
    (runs : list app -> store -> factory -> F -> Prop) : Prop := {
  fr_sub apps σ ef (f : F) : runs apps σ ef f -> σ0 ⊆ σ;
  fr_step apps (a : app) σ ef (f : F) : runs apps σ ef f -> permitted (apps ++ [a]) ->
    exists σ' ef' f', sf_apply_rules σ ef a.1.1 a.1.2 a.2 f = Some (Ok (σ', ef', f')) /\ runs (apps ++ [a]) σ' ef' f'
}.

(** * Lemmas *)

(** ** The chart in a larger store *)

Abbreviation cells_ok := (cells_ok max_equivalents).

Lemma representative_weaken σ0 σ l e : σ0 ⊆ σ -> representative σ0 (Some l) = Some e -> representative σ (Some l) = Some e.
Proof.
  intros Hσ. unfold representative. cbn [deref]. destruct (σ0 !! l) as [i|] eqn:E; [|done].
  by rewrite (lookup_weaken _ _ _ _ E Hσ).
Qed.

Lemma cell_root_weaken σ0 σ c t : σ0 ⊆ σ -> cell_root σ0 c = Some t -> cell_root σ c = Some t.
Proof.
  intros Hσ. unfold cell_root. destruct (head (edge_container c)) as [l|]; [|done]. cbn [mbind option_bind].
  destruct (representative σ0 (Some l)) as [e|] eqn:E; [|done]. by rewrite (representative_weaken _ _ _ _ Hσ E).
Qed.

Lemma find_cell_weaken σ0 σ t cs o : σ0 ⊆ σ -> find_cell σ0 t cs = Some o -> find_cell σ t cs = Some o.
Proof.
  intros Hσ. revert o. induction cs as [|c cs IH]; intros o; [done|]. cbn [find_cell].
  destruct (cell_root σ0 c) as [t'|] eqn:E; [|done]. rewrite (cell_root_weaken _ _ _ _ Hσ E). cbn [mbind option_bind].
  destruct (indexed_equal t' t); [done|]. destruct (find_cell σ0 t cs) as [o'|]; [|done]. by rewrite (IH o' eq_refl).
Qed.

Lemma chart_edges_weaken σ0 σ t s ch ls : σ0 ⊆ σ -> chart_edges σ0 t s ch = Some ls -> chart_edges σ t s ch = Some ls.
Proof.
  intros Hσ. unfold chart_edges. destruct (span_container ch !! span_key s) as [cs|]; [|done]. unfold span_edges.
  destruct (find_cell σ0 t cs) as [o|] eqn:E; [|done]. by rewrite (find_cell_weaken _ _ _ _ _ Hσ E).
Qed.

(** The cells of a span have one root each, and the edges with this root. *)
Definition cells_of σ0 ch s (ts : list indexed_token) (cs : list (unordered_cell score)) : Prop :=
  Forall2 (fun t c => cell_root σ0 c = Some t /\ edge_container c <> []) ts cs /\ NoDup ts /\
  (forall t, exists ls, chart_edges σ0 t s ch = Some ls /\ (t ∉ ts -> ls = [])) /\
  forall j t c, ts !! j = Some t -> cs !! j = Some c -> chart_edges σ0 t s ch = Some (edge_container c).

Lemma cells_of_ok σ0 ch s : (forall k cs, span_container ch !! k = Some cs -> cells_ok σ0 k cs) ->
  exists ts, cells_of σ0 ch s ts (chart_cells s ch).
Proof.
  intros Hch. unfold chart_cells, cells_of.
  assert (Hedges : forall t, chart_edges σ0 t s ch =
    match span_container ch !! span_key s with None => Some [] | Some cs => span_edges σ0 t cs end) by done.
  setoid_rewrite Hedges. clear Hedges. destruct (span_container ch !! span_key s) as [cs|] eqn:E; cbn [default from_option id].
  2: { exists []. split; [constructor|]. split; [constructor|]. split; [intros t; exists []; split; reflexivity|done]. }
  destruct (Hch _ _ E) as (ts&Hts&Hnd). exists ts. split; [|split; [done|]].
  { eapply Forall2_impl; [exact Hts|]. intros t c Hc. split; [by eapply cell_root_ok|exact (proj1 Hc)]. }
  unfold span_edges. split.
  - intros t. pose proof (find_cell_spec max_equivalents σ0 _ t ts cs Hts) as Hf.
    destruct (find_cell σ0 t cs) as [[[j c]|]|]; [| |done]; cbn [mbind option_bind]; eexists; (split; [done|]); [|done].
    intros Ht. destruct Hf as [Hf _]. by apply list_elem_of_lookup_2 in Hf.
  - intros j t c Ht Hc. pose proof (find_cell_spec max_equivalents σ0 _ t ts cs Hts) as Hf.
    destruct (find_cell σ0 t cs) as [[[j' c']|]|]; [| |done]; cbn [mbind option_bind].
    + destruct Hf as [Ht' Hc']. rewrite (NoDup_lookup _ _ _ _ Hnd Ht Ht') in Hc. rewrite Hc in Hc'. by injection Hc' as <-.
    + by apply list_elem_of_lookup_2 in Ht.
Qed.

(** ** Taking applications *)

Section takes.
Context {F : Type} `{!SpanFilter (score := score) (info_type := info_type) (R := R) F}.
Context (σ0 : store) (permitted : list app -> Prop) (runs : list app -> store -> factory -> F -> Prop).
Context `{!FilterRuns σ0 permitted runs}.
Abbreviation triple := (R * positive * positive)%type.
Implicit Types (T : list triple) (f : F).

(** No application is of an empty range. *)
Definition nonempty_app (a : app) : Prop := a.1.1 <> [] /\ a.1.2 <> [] /\ a.2 <> [].

(** The applications to [T] are permitted after [apps]. *)
Definition accepts T apps : Prop :=
  forall more, Forall nonempty_app more -> app_triples more ⊆+ T -> permitted (apps ++ more).

(** A loop that applies rules to what [T] has. *)
Definition takes (run : store -> factory -> option F -> option (result (store * factory * option F))) T : Prop :=
  forall apps σ ef f, runs apps σ ef f -> accepts T apps ->
  exists more σ' ef' f', run σ ef (Some f) = Some (Ok (σ', ef', Some f')) /\ runs (apps ++ more) σ' ef' f' /\
    Forall nonempty_app more /\ app_triples more ≡ₚ T.

Lemma accepts_prefix T T' apps : accepts (T ++ T') apps -> accepts T apps.
Proof. intros Ha more Hm Hs. apply Ha; [done|]. etrans; [exact Hs|]. by apply submseteq_inserts_r. Qed.

Lemma accepts_after T T' apps more : accepts (T ++ T') apps -> Forall nonempty_app more -> app_triples more ≡ₚ T ->
  accepts T' (apps ++ more).
Proof.
  intros Ha Hm HT more' Hm' Hs. rewrite <- app_assoc. apply Ha; [by apply Forall_app|].
  unfold app_triples. rewrite bind_app. apply submseteq_app; [by rewrite HT|done].
Qed.

Lemma takes_perm run T T' : T ≡ₚ T' -> takes run T -> takes run T'.
Proof.
  intros HT Hrun apps σ ef f Hf Ha. destruct (Hrun apps σ ef f Hf) as (more&σ'&ef'&f'&H1&H2&H3&H4).
  { intros more Hm Hs. apply Ha; [done|]. by rewrite <- HT. }
  exists more, σ', ef', f'. by rewrite <- HT.
Qed.

Lemma takes_nil : takes (fun σ ef pf => Some (Ok (σ, ef, pf))) [].
Proof. intros apps σ ef f Hf _. exists [], σ, ef, f. by rewrite app_nil_r. Qed.

Lemma takes_app run1 run2 T1 T2 : takes run1 T1 -> takes run2 T2 ->
  takes (fun σ ef pf => '(σ, ef, pf) ⇐ run1 σ ef pf; run2 σ ef pf) (T1 ++ T2).
Proof.
  intros H1 H2 apps σ ef f Hf Ha.
  destruct (H1 apps σ ef f Hf (accepts_prefix _ _ _ Ha)) as (m1&σ1&ef1&f1&->&Hf1&Hm1&HT1). cbn [rbind mbind option_bind].
  destruct (H2 _ σ1 ef1 f1 Hf1 (accepts_after _ _ _ _ Ha Hm1 HT1)) as (m2&σ2&ef2&f2&->&Hf2&Hm2&HT2).
  exists (m1 ++ m2), σ2, ef2, f2. split; [done|]. split; [by rewrite app_assoc|]. split; [by apply Forall_app|].
  unfold app_triples. rewrite bind_app. by apply Permutation_app.
Qed.

Lemma takes_one (rr : list R) (er1 er2 : list positive) : rr <> [] -> er1 <> [] -> er2 <> [] ->
  takes (fun σ ef pf => f ← pf; '(σ, ef, f) ⇐ sf_apply_rules σ ef rr er1 er2 f; Some (Ok (σ, ef, Some f)))
    (triples_of (rr, er1, er2)).
Proof.
  intros Hr H1 H2 apps σ ef f Hf Ha. cbn [mbind option_bind].
  destruct (fr_step apps (rr, er1, er2) σ ef f Hf) as (σ'&ef'&f'&Hs&Hf').
  - apply Ha; [by constructor|]. unfold app_triples. cbn [mbind list_bind]. by rewrite app_nil_r.
  - cbn [fst snd] in Hs. rewrite Hs. exists [(rr, er1, er2)], σ', ef', f'.
    split; [done|]. split; [done|]. split; [by constructor|]. unfold app_triples. cbn [mbind list_bind]. by rewrite app_nil_r.
Qed.

(** ** The loops *)

Context `{!StdAlgorithmLaws (R * score), !StrictWeak (score_lt (S := score))}.
Context (all_rules : list R).
Abbreviation rule_ok := (rule_ok rule_rhs_size rule_rhs).
Abbreviation sig r := (signature (rule_key r)).
Context (Hrules : Forall rule_ok all_rules) (ch : chart) (s1 s2 : span_t).
Context (ts2 : list indexed_token) (Hcells2 : cells_of σ0 ch s2 ts2 (chart_cells s2 ch)).

Lemma lower_rule_ok r : r ∈ lower_rules rule_lhs all_rules -> rule_ok r.
Proof. intros [_ Hr]%list_elem_of_filter. rewrite Forall_forall in Hrules. by apply Hrules. Qed.

(** Rules with one signature have one right hand side. *)
Lemma same_signature r r' : rule_ok r -> rule_ok r' -> sig r = sig r' -> rule_rhs_size r = 2 ->
  rule_rhs_size r' = 2 /\ rule_rhs r 0 = rule_rhs r' 0 /\ rule_rhs r 1 = rule_rhs r' 1.
Proof.
  intros Hr Hr' Hs H2. pose proof (length_signature _ Hr) as L. pose proof (length_signature _ Hr') as L'.
  pose proof (signature_lookup _ 0 Hr) as E0. pose proof (signature_lookup _ 0 Hr') as E0'.
  pose proof (signature_lookup _ 1 Hr) as E1. pose proof (signature_lookup _ 1 Hr') as E1'.
  cbn [key_size key_at RuleMap.rule_key] in *. rewrite Hs in *. split; [lia|].
  split; [rewrite <- E0, <- E0' by lia|rewrite <- E1, <- E1' by lia]; done.
Qed.

(** The rules of a representative, with the edges of the cells. *)
Definition rep_applications r : list triple :=
  with_signature rule_rhs_size rule_rhs (sig r) (lower_rules rule_lhs all_rules) ≫= rule_applications σ0 ch s1 s2.

Lemma rep_applications_at r t t2 rr er1 er2 : r ∈ lower_binary all_rules ->
  rule_rhs r 0 = Some t -> rule_rhs r 1 = Some t2 ->
  chart_edges σ0 t s1 ch = Some er1 -> chart_edges σ0 t2 s2 ch = Some er2 ->
  rr ≡ₚ with_signature rule_rhs_size rule_rhs (sig r) (lower_rules rule_lhs all_rules) ->
  triples_of (rr, er1, er2) ≡ₚ rep_applications r.
Proof.
  intros [H2 Hr]%list_elem_of_filter Ht Ht2 He1 He2 Hrr. unfold rep_applications, triples_of. cbn [fst snd]. rewrite Hrr.
  apply bind_perm_ext. intros r' [Hs Hr']%list_elem_of_filter.
  destruct (same_signature r r') as (_&E0&E1); [by apply lower_rule_ok|by apply lower_rule_ok|by symmetry|done|].
  unfold rule_applications, edges_with. by rewrite <- E0, <- E1, Ht, Ht2, He1, He2.
Qed.

Section built.
Context (b : filter_bank (F := F)) `{Hch : bank_chart b = ch}.
Context (Hmap : rhs_map_built rule_lhs rule_rhs_size rule_rhs rule_heuristic all_rules (rhs_map b)).
Context (Hsig : sig_map_built rule_lhs rule_rhs_size rule_rhs all_rules (bank_sig_map b)).

Lemma apply_to_reps_takes rs c t : (forall r, r ∈ rs -> r ∈ lower_binary all_rules /\ rule_rhs r 0 = Some t) ->
  chart_edges σ0 t s1 ch = Some (edge_container c) -> edge_container c <> [] ->
  takes (apply_to_reps rs c s2 b) (rs ≫= rep_applications).
Proof.
  intros Hrs Hc Hne. induction rs as [|r rs IH]; [apply takes_nil|]. cbn [mbind list_bind].
  destruct (Hrs r ltac:(left)) as [Hr Ht]. pose proof Hr as [H2 Hlow]%list_elem_of_filter.
  pose proof (lower_rule_ok r Hlow) as Hok. destruct (proj2 Hok 1%nat) as [t2 Ht2]; [cbn [key_size]; unfold RuleMap.rule_key; cbn; lia|].
  cbn [key_at RuleMap.rule_key] in Ht2. destruct Hcells2 as (_&_&Hall&_). destruct (Hall t2) as (er2&He2&_).
  destruct (rules_built _ _ _ _ _ _ _ Hok Hmap) as (rr&_&Hrr&_&Hperm&_).
  pose proof (rep_applications_at r t t2 rr _ er2 Hr Ht Ht2 Hc He2 Hperm) as Hone.
  specialize (IH (fun r' Hr' => Hrs r' (list_elem_of_further _ _ _ Hr'))).
  intros apps σ ef f Hf Ha. cbn [apply_to_reps]. rewrite Ht2. cbn [mbind option_bind].
  rewrite Hch, (chart_edges_weaken σ0 σ _ _ _ er2) by (done || by eapply fr_sub). cbn [mbind option_bind].
  destruct er2 as [|l2 er2].
  { assert (Hnil : rep_applications r = []).
    { apply Permutation_nil_r. rewrite <- Hone. unfold triples_of. rewrite bind_none; [done|]. intros. by apply bind_none. }
    rewrite Hnil in Ha |- *. exact (IH apps σ ef f Hf Ha). }
  rewrite Hrr. cbn [mbind option_bind].
  assert (Hrn : rr <> []).
  { intros ->. apply Permutation_nil_l in Hperm. apply (not_elem_of_nil r). rewrite Hperm. by apply list_elem_of_filter. }
  assert (H2n : l2 :: er2 <> []) by done.
  destruct (takes_app _ _ _ _ (takes_perm _ _ _ Hone (takes_one rr (edge_container c) (l2 :: er2) Hrn Hne H2n)) IH apps σ ef f Hf Ha)
    as (more&σ'&ef'&f'&Hrun&Hrest).
  exists more, σ', ef', f'. split; [|exact Hrest]. revert Hrun. cbn [mbind option_bind].
  destruct (sf_apply_rules σ ef rr _ _ f) as [[[[σ1 ef1] f1]|]|]; done.
Qed.

(** The rules that start with the root of a cell, by their representatives. *)
Lemma rep_groups t l : represents rule_rhs_size rule_rhs (starting_with rule_rhs t (lower_binary all_rules)) l ->
  l ≫= rep_applications ≡ₚ starting_with rule_rhs t (lower_binary all_rules) ≫= rule_applications σ0 ch s1 s2.
Proof.
  intros (Hnd&Hin&Hall). rewrite (bind_partition (fun r => sig r) _ _ (starting_with _ _ _) Hnd).
  2: { intros r Hr Hn. destruct (Hn (Hall r Hr)). }
  rewrite list_fmap_bind. apply bind_perm_ext. intros r Hr%Hin. cbn [compose]. unfold rep_applications, with_signature.
  apply list_elem_of_filter in Hr as [Ht [H2 Hlow]%list_elem_of_filter].
  assert (E : filter (fun x => sig x = sig r) (starting_with rule_rhs t (lower_binary all_rules)) =
    filter (fun x => sig x = sig r) (lower_rules rule_lhs all_rules)); [|by rewrite E].
  unfold starting_with, binary_rules. rewrite !list_filter_filter. apply list_filter_ext. intros x Hx.
  split; [tauto|]. intros Hs.
  destruct (same_signature r x) as (Hx2&H0&_); [by apply lower_rule_ok|by apply lower_rule_ok|by symmetry|done|].
  rewrite <- H0. tauto.
Qed.

Lemma apply_to_cells_takes ts cs :
  Forall2 (fun t c => cell_root σ0 c = Some t /\ edge_container c <> []) ts cs ->
  (forall j t c, ts !! j = Some t -> cs !! j = Some c -> chart_edges σ0 t s1 ch = Some (edge_container c)) ->
  takes (apply_to_cells cs s2 b)
    (ts ≫= fun t => starting_with rule_rhs t (lower_binary all_rules) ≫= rule_applications σ0 ch s1 s2).
Proof.
  intros Hcs. induction Hcs as [|t c ts cs [Ht Hne] Hcs IH]; intros Hedges; [apply takes_nil|]. cbn [mbind list_bind].
  specialize (IH (fun j => Hedges (S j))). pose proof (Hedges O t c eq_refl eq_refl) as Hc.
  destruct (reps_built _ _ _ t _ _ Hrules Hsig) as (l&_&Hl&_&Hrep&_).
  assert (Hreps : takes (apply_to_reps l c s2 b) (l ≫= rep_applications)).
  { apply (apply_to_reps_takes l c t); [|done|done]. intros r Hr. destruct Hrep as (_&Hin&_).
    apply Hin, list_elem_of_filter in Hr as [Hr0 Hr]. done. }
  intros apps σ ef f Hf Ha. cbn [apply_to_cells].
  rewrite (cell_root_weaken σ0 σ c t) by (done || by eapply fr_sub). cbn [mbind option_bind]. rewrite Hl. cbn [mbind option_bind].
  by apply (takes_app _ _ _ _ (takes_perm _ _ _ (rep_groups t l Hrep) Hreps) IH apps σ ef f Hf Ha).
Qed.

(** All rules, by the token they start with. *)
Lemma all_groups ts cs : cells_of σ0 ch s1 ts cs ->
  (ts ≫= fun t => starting_with rule_rhs t (lower_binary all_rules) ≫= rule_applications σ0 ch s1 s2) ≡ₚ
  all_applications σ0 ch all_rules s1 s2.
Proof.
  intros (_&Hnd&Hnone&_). unfold all_applications.
  rewrite (bind_partition (fun r => rule_rhs r 0) _ (Some <$> ts) (lower_binary all_rules)).
  - rewrite list_fmap_bind. done.
  - apply NoDup_fmap; [apply _|done].
  - intros r [H2 Hr]%list_elem_of_filter Hk. unfold rule_applications.
    destruct (proj2 (lower_rule_ok r Hr) 0%nat) as [t Ht]; [unfold RuleMap.rule_key; cbn; lia|].
    cbn [key_at RuleMap.rule_key] in Ht. rewrite Ht in Hk |- *. destruct (Hnone t) as (ls&Hls&Hempty).
    cbn [edges_with]. rewrite Hls, Hempty; [done|]. intros Hin. apply Hk. by apply list_elem_of_fmap_2.
Qed.
End built.
End takes.

(** * Combining spans *)

Section combining.
Context `{!StdAlgorithmLaws (R * score), !StrictWeak (score_lt (S := score))}.
Context {F : Type} `{!SpanFilter (score := score) (info_type := info_type) (R := R) F}.
Context (create : span_t -> F) (all_rules : list R) (Hrules : Forall (rule_ok rule_rhs_size rule_rhs) all_rules).
Context (σ0 : store).
Implicit Types (b : filter_bank (F := F)) (f : F).

(** A bank with the rules of the grammar and a chart that is typed. *)
Record bank_ok b : Prop := {
  bk_rhs : rhs_map_built rule_lhs rule_rhs_size rule_rhs rule_heuristic all_rules (rhs_map b);
  bk_sig : sig_map_built rule_lhs rule_rhs_size rule_rhs all_rules (bank_sig_map b);
  bk_cells k cs : span_container (bank_chart b) !! k = Some cs -> cells_ok σ0 k cs
}.

Lemma new_filter_bank_ok ch ts : (forall k cs, span_container ch !! k = Some cs -> cells_ok σ0 k cs) ->
  exists b, new_filter_bank all_rules ch ts = Some b /\ bank_ok b /\ span_filter_map b = ∅ /\
    bank_chart b = ch /\ total_span b = ts.
Proof.
  intros Hch. unfold new_filter_bank.
  destruct (new_sorted_rhs_map_built rule_lhs rule_rhs_size rule_rhs rule_heuristic all_rules Hrules) as (m&->&Hm).
  destruct (new_signature_map_built rule_lhs rule_rhs_size rule_rhs all_rules Hrules) as (sm&->&Hsm).
  cbn [mbind option_bind]. eexists. split; [done|]. by split.
Qed.

Lemma set_filter_ok s pf b : bank_ok b -> bank_ok (set_filter s pf b).
Proof. intros []. by split. Qed.

(** The filter of a span, made if there is none. *)
Definition filter_at s f b : Prop :=
  span_filter_map b !! span_key s = Some (Some f) \/ span_filter_map b !! span_key s = None /\ f = create s.

Lemma get_create_filter s f b : filter_at s f b -> exists b', bank_get_create create s b = (Some f, b') /\
  (forall pf, set_filter s pf b' = set_filter s pf b) /\ bank_chart b' = bank_chart b /\ (bank_ok b -> bank_ok b').
Proof.
  unfold bank_get_create. intros [->|[-> ->]]; eexists; (split; [done|]); [done|].
  split; [|split; [done|apply set_filter_ok]]. intros pf. unfold set_filter. cbn. by rewrite insert_insert_eq.
Qed.

Section runs.
Context (permitted : list app -> Prop) (runs : list app -> store -> factory -> F -> Prop).
Context `{!FilterRuns σ0 permitted runs}.

Lemma bank_apply_rules_ok s1 right apps σ ef f b : bank_ok b ->
  let s2 := span_ctor (span_right s1) right in
  let target := combine s1 s2 in
  let T := all_applications σ0 (bank_chart b) all_rules s1 s2 in
  filter_at target f b -> runs apps σ ef f -> accepts permitted T apps ->
  exists more σ' ef' f', bank_apply_rules create s1 right σ ef b = Some (Ok (σ', ef', set_filter target (Some f') b)) /\
    runs (apps ++ more) σ' ef' f' /\ Forall nonempty_app more /\ app_triples more ≡ₚ T.
Proof.
  intros Hb s2 target T Hf Hruns Ha. unfold bank_apply_rules. fold s2 target.
  destruct (get_create_filter target f b Hf) as (b'&->&Hset&Hch&Hok). specialize (Hok Hb). destruct Hok as [Hmap Hsig _].
  destruct (cells_of_ok σ0 (bank_chart b) s1 (bk_cells b Hb)) as (ts1&H1).
  destruct (cells_of_ok σ0 (bank_chart b) s2 (bk_cells b Hb)) as (ts2&H2). rewrite Hch.
  pose proof (apply_to_cells_takes σ0 permitted runs all_rules Hrules (bank_chart b) s1 s2 ts2 H2 b' (Hch := Hch) Hmap Hsig
    ts1 _ (proj1 H1) (proj2 (proj2 (proj2 H1)))) as Htakes.
  apply (takes_perm _ _ _ _ _ (all_groups σ0 all_rules Hrules (bank_chart b) s1 s2 ts1 _ H1)) in Htakes.
  destruct (Htakes apps σ ef f Hruns Ha) as (more&σ'&ef'&f'&->&Hrest). cbn [rbind mbind option_bind].
  exists more, σ', ef', f'. by rewrite Hset.
Qed.

Lemma target_of_split left s right : span_left s = u16 left ->
  combine s (span_ctor (span_right s) right) = span_ctor left right.
Proof.
  intros Hs. unfold combine, span_ctor. cbn. rewrite Hs. unfold u16, wrap. by rewrite !Z.mod_mod by lia.
Qed.

(** The applications of all rules to the pairs of a list of splits. *)
Definition split_applications ch (firsts : list span_t) right : list (R * positive * positive) :=
  firsts ≫= fun s => all_applications σ0 ch all_rules s (span_ctor (span_right s) right).

Lemma apply_splits_ok left right firsts apps σ ef f b : bank_ok b ->
  (forall s, s ∈ firsts -> span_left s = u16 left) -> filter_at (span_ctor left right) f b -> runs apps σ ef f ->
  accepts permitted (split_applications (bank_chart b) firsts right) apps ->
  exists more σ' ef' f' b', apply_splits create firsts right σ ef b = Some (Ok (σ', ef', b')) /\
    filter_at (span_ctor left right) f' b' /\ bank_chart b' = bank_chart b /\ runs (apps ++ more) σ' ef' f' /\
    app_triples more ≡ₚ split_applications (bank_chart b) firsts right /\
    forall pf, set_filter (span_ctor left right) pf b' = set_filter (span_ctor left right) pf b.
Proof.
  intros Hb Hleft. revert apps σ ef f b Hb. induction firsts as [|s firsts IH]; intros apps σ ef f b Hb Hf Hr Ha; cbn [apply_splits].
  { exists [], σ, ef, f, b. by rewrite app_nil_r. }
  unfold split_applications in Ha |- *. cbn [mbind list_bind] in Ha |- *.
  pose proof (target_of_split left s right (Hleft s ltac:(left))) as Ht.
  destruct (bank_apply_rules_ok s right apps σ ef f b Hb) as (m1&σ1&ef1&f1&->&Hr1&Hm1&HT1);
    [by rewrite Ht|done|by eapply accepts_prefix|]. cbn [rbind mbind option_bind]. rewrite Ht.
  destruct (IH (fun x Hx => Hleft x (list_elem_of_further _ _ _ Hx)) (apps ++ m1) σ1 ef1 f1
    (set_filter (span_ctor left right) (Some f1) b)) as (m2&σ2&ef2&f2&b2&->&Hf2&Hch2&Hr2&HT2&Hset).
  - by apply set_filter_ok.
  - left. unfold set_filter. cbn. by rewrite lookup_insert_eq.
  - done.
  - exact (accepts_after permitted _ _ _ _ Ha Hm1 HT1).
  - exists (m1 ++ m2), σ2, ef2, f2, b2. split; [done|]. split; [done|]. split; [done|]. split; [by rewrite app_assoc|].
    split; [unfold app_triples; rewrite bind_app; by apply Permutation_app|].
    intros pf. rewrite Hset. unfold set_filter. cbn. by rewrite insert_insert_eq.
Qed.

(** C7: The bank applies every binary rule to every pair of edges its right hand side
    names, once for each way to split the span: going by cells, representatives of
    right hand sides and rule maps is the loop over all rules.  Whatever filter the
    span has, as long as it takes these applications. *)
Theorem apply_splits_complete left right firsts ch ts ef f :
  (forall k cs, span_container ch !! k = Some cs -> cells_ok σ0 k cs) ->
  (forall s, s ∈ firsts -> span_left s = u16 left) -> f = create (span_ctor left right) -> runs [] σ0 ef f ->
  accepts permitted (split_applications ch firsts right) [] ->
  exists b apps σ' ef' f' b', new_filter_bank all_rules ch ts = Some b /\
    apply_splits create firsts right σ0 ef b = Some (Ok (σ', ef', b')) /\
    filter_at (span_ctor left right) f' b' /\ bank_chart b' = ch /\ runs apps σ' ef' f' /\
    app_triples apps ≡ₚ split_applications ch firsts right.
Proof.
  intros Hch Hleft Hf Hr Ha. destruct (new_filter_bank_ok ch ts Hch) as (b&Hnew&Hb&Hempty&Hbc&_). subst ch.
  destruct (apply_splits_ok left right firsts [] σ0 ef f b Hb Hleft) as (m&σ'&ef'&f'&b'&H1&H2&H3&H4&H5&_); [|done|done|].
  - right. by rewrite Hempty, lookup_empty.
  - by exists b, m, σ', ef', f', b'.
Qed.
End runs.
End combining.

(** * The filters take applications *)

Section instances.
Context (hash_token : indexed_token -> Z) (hash_span : span_t -> Z).
Context {P : Type} `{!FilterPredicate (score := score) (info_type := info_type) P}.
Abbreviation filter_of := (predicate_edge_filter (score := score) (P := P)).

(** The cube heap only notes them. *)
Section cube_heap.
Context {PQ : Type} `{!PriorityQueue (post_score_compare (score := score) (info_type := info_type)) PQ}.
Context (σ0 : store) (f0 : filter_of).

Definition cube_heap_runs apps σ ef (h : cube_heap_span_filter score R P) : Prop :=
  σ = σ0 /\ h = mk_cube_heap (cubes_of apps) f0 false.

Lemma cubes_snoc apps (a : app) : cubes_of (apps ++ [a]) =
  cubes_of apps ++ if nonempty a.1.1 && nonempty a.1.2 && nonempty a.2 then [mk_cube a.1.1 a.1.2 a.2] else [].
Proof. unfold cubes_of. rewrite bind_app. cbn [mbind list_bind]. by rewrite app_nil_r. Qed.

#[export] Instance cube_heap_takes :
  FilterRuns (SpanFilter0 := cube_heap_filter hash_token hash_span max_equivalents (PQ := PQ)) σ0 (fun _ => True) cube_heap_runs.
Proof.
  split; [by intros apps σ ef h [-> _]|]. intros apps [[rr er1] er2] σ ef h [-> ->] _. eexists _, _, _. split; [done|].
  split; [done|]. unfold apply_rules. cbn [sorted_cube_list fuzzy_filter ch_finalized fst snd]. rewrite cubes_snoc. cbn [fst snd].
  by destruct (nonempty rr && nonempty er1 && nonempty er2); [|rewrite app_nil_r].
Qed.
End cube_heap.

(** The exhaustive filter inserts the edges. *)
Section exhaustive.
Context `{!StdAlgorithmLaws (alt_edge score), !InfoLaws info_type, !StrictWeak (score_lt (S := score)), !ScoreZeroLaws score}.
Context `{!PredicateSafe hash_token hash_span max_equivalents P}.
Context (max_infos : nat) (σ0 : store) (ef0 : factory) (f0 : filter_of) (edges_of : R -> positive -> positive -> list edge).
Abbreviation made apps := (apps ≫= made_edges edges_of).
Abbreviation ApplicationsMade := (ApplicationsMade max_equivalents max_infos σ0 ef0 edges_of).

Definition exhaustive_permitted apps : Prop := ApplicationsMade apps /\ insertions (made apps) <= pq_limit.
Definition exhaustive_runs apps σ ef (x : exhaustive_span_filter (P := P)) : Prop :=
  inserted hash_token hash_span max_equivalents σ0 f0 (made apps) σ (ex_filter x) /\
  ef = count_edges (length (made apps)) ef0.

#[export] Instance exhaustive_takes :
  FilterRuns (SpanFilter0 := exhaustive_filter hash_token hash_span max_equivalents max_infos) σ0 exhaustive_permitted exhaustive_runs.
Proof.
  split; [intros apps σ ef x [Hi _]; exact (in_sub _ _ _ _ _ _ _ _ Hi)|].
  intros apps a σ ef [f] [Hi ->] [Hm Hl]. cbn [ex_filter] in Hi. rewrite bind_app in Hl.
  destruct (apply_all_inserts hash_token hash_span max_equivalents max_infos σ0 ef0 f0 edges_of [a] (apps ++ [a])
    (length (made apps)) σ f (made apps) Hm) as (σ'&f'&Hrun&Hi'); [|exact Hi|exact Hl|].
  { intros x ->%list_elem_of_singleton. apply elem_of_app. right. left. }
  cbn [apply_all] in Hrun. exists σ', (count_edges (length (made apps) + length (made [a])) ef0), (mk_exhaustive f').
  split; [revert Hrun; destruct (sf_apply_rules _ _ _ _ _ _) as [[[[σ1 ef1] f1]|]|]; done|].
  split; [by rewrite bind_app|]. by rewrite bind_app, length_app.
Qed.

(** An application for each triple. *)
Definition single_app (t : R * positive * positive) : app := ([t.1.1], [t.1.2], [t.2]).
Definition edges_of_triples (T : list (R * positive * positive)) : list edge := T ≫= fun t => edges_of t.1.1 t.1.2 t.2.

Lemma made_triples apps : made apps = edges_of_triples (app_triples apps).
Proof.
  unfold edges_of_triples, app_triples. induction apps as [|[[rr er1] er2] apps IH]; [done|]. cbn [mbind list_bind].
  rewrite bind_app, <- IH. f_equal. unfold made_edges, triples_of. cbn [fst snd].
  induction rr as [|r rr IHr]; [done|]. cbn [mbind list_bind]. rewrite bind_app, <- IHr. f_equal. clear IHr.
  induction er1 as [|l1 er1 IH1]; [done|]. cbn [mbind list_bind]. rewrite bind_app, <- IH1. f_equal. clear IH1.
  induction er2 as [|l2 er2 IH2]; [done|]. cbn [mbind list_bind]. rewrite IH2. done.
Qed.

Lemma elem_of_triples apps r l1 l2 : (r, l1, l2) ∈ app_triples apps <-> applied apps r l1 l2.
Proof.
  unfold app_triples, applied, triples_of. rewrite list_elem_of_bind. split.
  - intros (a&(r'&(l1'&(l2'&[= -> -> ->]%list_elem_of_singleton&H2)%list_elem_of_bind&H1)%list_elem_of_bind&Hr)%list_elem_of_bind&Ha).
    by exists a.
  - intros (a&Ha&Hr&H1&H2). exists a. split; [|done]. apply list_elem_of_bind. exists r. split; [|done].
    apply list_elem_of_bind. exists l1. split; [|done]. apply list_elem_of_bind. exists l2. split; [by left|done].
Qed.

Lemma triples_single T : app_triples (single_app <$> T) = T.
Proof.
  unfold app_triples. induction T as [|[[r l1] l2] T IH]; [done|]. cbn [fmap list_fmap mbind list_bind]. rewrite IH. done.
Qed.

Lemma applications_sub apps apps' : ApplicationsMade apps' -> Forall nonempty_app apps ->
  (forall r l1 l2, applied apps r l1 l2 -> applied apps' r l1 l2) -> ApplicationsMade apps.
Proof.
  intros [H1 H2 H3 H4 H5] Hne Happ. split; [|eauto..]. intros a r Ha Hr.
  rewrite Forall_forall in Hne. destruct (Hne a Ha) as (_&Hn1&Hn2).
  destruct (a.1.2) as [|l1 er1] eqn:E1; [done|]. destruct (a.2) as [|l2 er2] eqn:E2; [done|].
  destruct (Happ r l1 l2) as (a'&Ha'&Hr'&_); [|by apply (H1 a')].
  exists a. rewrite E1, E2. split; [done|]. split; [done|]. split; left.
Qed.

Lemma insertions_perm (es es' : list edge) : es ≡ₚ es' -> insertions es = insertions es'.
Proof. intros Hp. unfold insertions. by rewrite (Permutation_length Hp). Qed.

Lemma exhaustive_accepts T : ApplicationsMade (single_app <$> T) -> insertions (edges_of_triples T) <= pq_limit ->
  accepts exhaustive_permitted T [].
Proof.
  intros HT Hlim more Hm Hs. change (exhaustive_permitted more). split.
  - apply (applications_sub _ _ HT Hm). intros r l1 l2 Ha. apply elem_of_triples. rewrite triples_single.
    apply elem_of_triples in Ha. by eapply elem_of_submseteq.
  - rewrite made_triples. etrans; [|exact Hlim]. apply submseteq_Permutation in Hs as [k Hk].
    assert (Hp : edges_of_triples T ≡ₚ edges_of_triples (app_triples more) ++ edges_of_triples k).
    { unfold edges_of_triples. by rewrite Hk, bind_app. }
    rewrite (insertions_perm _ _ Hp). apply insertions_prefix.
Qed.
End exhaustive.
End instances.

(** * The beam of a span *)

Section beam.
Context `{!StdAlgorithmLaws (R * score), !StdAlgorithmLaws (alt_edge score), !InfoLaws info_type,
  !StrictWeak (score_lt (S := score)), !ScoreZeroLaws score}.
Context (hash_token : indexed_token -> Z) (hash_span : span_t -> Z) (max_infos : nat).
Abbreviation ratio_filter := (predicate_edge_filter (score := score) (P := ratio_predicate)).
Abbreviation exhaustive := (exhaustive_filter hash_token hash_span max_equivalents max_infos).

(** C8: What a span keeps: when the bank has combined all pairs of parts of a span whose
    filter is an exhaustive one with a beam, then, of the edges that the loop over all rules
    and all pairs of edges of the chart makes, the filter has one representative for each
    class of equivalent edges with an edge not below the threshold times the best score of
    all, with the best score of its class, and nothing else.  Equivalent edges are supposed
    to have their totals ordered as their inside scores, since they have the same
    heuristic. *)
Theorem span_keeps_beam (all_rules : list R) ch ts left right firsts σ0 ef0 edges_of create thr p f0 `{!Beam thr} :
  Forall (rule_ok rule_rhs_size rule_rhs) all_rules ->
  (forall k cs, span_container ch !! k = Some cs -> cells_ok σ0 k cs) ->
  (forall s, s ∈ firsts -> span_left s = u16 left) ->
  new_ratio thr = Some p -> new_filter p = Some (Ok f0) -> create (span_ctor left right) = mk_exhaustive f0 ->
  let T := split_applications all_rules σ0 ch firsts right in
  ApplicationsMade max_equivalents max_infos σ0 ef0 edges_of (single_app <$> T) ->
  ordered_alike (edges_of_triples edges_of T) -> insertions (edges_of_triples edges_of T) <= pq_limit ->
  exists b σ n f b', new_filter_bank all_rules ch ts = Some b /\
    apply_splits (SpanFilter0 := exhaustive) create firsts right σ0 ef0 b = Some (Ok (σ, count_edges n ef0, b')) /\
    filter_at create (span_ctor left right) (mk_exhaustive f) b' /\ bank_chart b' = ch /\
    keeps_beam thr (edges_of_triples edges_of T) (queued σ (pqueue f)).
Proof.
  intros Hrules Hch Hleft Hp Hf0 Hcreate T HT Hne Hlim.
  destruct (new_filter_bank_ok (F := exhaustive_span_filter (score := score) (P := ratio_predicate (score := score))) all_rules Hrules σ0 ch ts Hch)
    as (b&Hnew&Hb&Hempty&Hbc&_). subst ch.
  pose proof (inserted_new hash_token hash_span max_equivalents σ0 f0 p Hf0) as Hin0.
  destruct (apply_splits_ok (SpanFilter0 := exhaustive) create all_rules Hrules σ0 (exhaustive_permitted max_infos σ0 ef0 edges_of)
      (exhaustive_runs hash_token hash_span σ0 ef0 f0 edges_of) left right firsts [] σ0 ef0 (mk_exhaustive f0) b Hb Hleft)
    as (m&σ&ef&[f]&b'&Hrun&Hf&Hbc&[Hin ->]&Hm&_).
  - right. rewrite Hempty, lookup_empty. exact (conj eq_refl (eq_sym Hcreate)).
  - split; [exact Hin0|]. cbn [mbind list_bind length]. symmetry. apply count_zero.
  - exact (exhaustive_accepts max_infos σ0 ef0 edges_of T HT Hlim).
  - cbn [ex_filter] in Hin. rewrite app_nil_l in Hin.
    assert (Hmade : m ≫= made_edges edges_of ≡ₚ edges_of_triples edges_of T).
    { rewrite made_triples. unfold edges_of_triples. by rewrite Hm. }
    exists b, σ, (length (m ≫= made_edges edges_of)), f, b'.
    refine (conj Hnew (conj Hrun (conj Hf (conj Hbc _)))). eapply keeps_beam_perm; [apply _|exact Hmade|].
    apply (inserted_beam hash_token hash_span max_equivalents σ0 thr p f0 _ σ f Hp Hf0 Hin).
    + eapply ordered_alike_sub; [|exact Hne]. intros e He. by rewrite <- Hmade.
    + rewrite (insertions_perm _ _ Hmade). exact Hlim.
    + intros e He. rewrite Hmade in He. apply list_elem_of_bind in He as ([[r l1] l2]&He&Ht). cbn [fst snd] in He.
      assert (Ha : applied (single_app <$> T) r l1 l2) by (apply elem_of_triples; by rewrite triples_single).
      split; [by eapply am_ok|by eapply am_max].
Qed.
End beam.
End bank.

(** * Samples: those of [CubeHeap] in a chart *)

#[local] Existing Instances CubeHeap.cost_grammar CubeHeap.sample_combine.

Definition cost_chart : basic_chart (option Z) :=
  mk_chart 2 (<[(0, 1) := [mk_cell [1%positive; 2%positive] (Some (-4))]]>
    (<[(1, 2) := [mk_cell [3%positive] (Some (-1))]]> {[(0, 2) := []]})).

Lemma one_cell_ok k t ls (b : option Z) : ls <> [] -> NoDup ls ->
  (forall l, l ∈ ls -> exists i, cost_store !! l = Some i /\ equiv_ok 4 cost_store i /\ span_key (spn (m_rep i)) = k /\ rt (m_rep i) = t) ->
  (forall l l' i i', l ∈ ls -> l' ∈ ls -> cost_store !! l = Some i -> cost_store !! l' = Some i' ->
    equal_to (m_rep i) (m_rep i') = true -> l = l') -> cells_ok 4 cost_store k [mk_cell ls b].
Proof. intros H1 H2 H3 H4. exists [t]. split; [|apply NoDup_singleton]. by repeat constructor. Qed.

Lemma cost_cells_ok k cs : span_container cost_chart !! k = Some cs -> cells_ok 4 cost_store k cs.
Proof.
  unfold cost_chart. cbn [span_container].
  rewrite !lookup_insert_Some, lookup_singleton_Some. intros [[<- <-]|[_ [[<- <-]|[_ [<- <-]]]]].
  - apply (one_cell_ok _ (sample_tag 1)); [done|by apply (bool_decide_unpack _)| |].
    + intros l. rewrite !elem_of_cons, elem_of_nil. intros [->|[->|[]]]; eexists; (split; [reflexivity|]);
        (split; [by repeat split; (constructor || eexists || done)|done]).
    + intros l l' i i' Hl Hl'. rewrite !elem_of_cons, elem_of_nil in Hl, Hl'.
      destruct Hl as [->|[->|[]]], Hl' as [->|[->|[]]]; intros Hi Hi'; try done; vm_compute in Hi, Hi'; injection Hi as <-; injection Hi' as <-;
        vm_compute; discriminate.
  - apply (one_cell_ok _ (sample_tag 2)); [done|apply NoDup_singleton| |].
    + intros l ->%list_elem_of_singleton. eexists; split; [reflexivity|]. by repeat split; (constructor || eexists || done).
    + by intros l l' i i' ->%list_elem_of_singleton ->%list_elem_of_singleton.
  - exists []. split; constructor.
Qed.

Definition cost_bank_rules : list Z := [1; 5].
Definition cost_triples : list (Z * positive * positive) := split_applications cost_bank_rules cost_store cost_chart [mk_span 0 1] 2.

Example cost_triples_eq : cost_triples = [(1, 1%positive, 3%positive); (1, 2%positive, 3%positive);
  (5, 1%positive, 3%positive); (5, 2%positive, 3%positive)].
Proof. vm_compute. reflexivity. Qed.

Lemma cost_triples_made :
  ApplicationsMade 4 1 cost_store cost_factory (single_edge cost_edge_of) (single_app <$> cost_triples).
Proof.
  apply (applications_sub 4 1 cost_store cost_factory (single_edge cost_edge_of) _ cost_apps); [exact cost_applications| |].
  - rewrite cost_triples_eq. by repeat constructor.
  - intros r l1 l2 Ha%elem_of_triples. rewrite triples_single, cost_triples_eq in Ha. exists ([1; 5], [1%positive; 2%positive], [3%positive]).
    rewrite !elem_of_cons, elem_of_nil in Ha. cbn [fst snd].
    decompose [or] Ha; (simplify_eq || done); (split; [left|]); rewrite !elem_of_cons; auto.
Qed.

Lemma cost_rules_ok : Forall (rule_ok (R := Z) rule_rhs_size rule_rhs) cost_bank_rules.
Proof.
  repeat constructor; try done; intros [|[|x]] Hx; unfold rule_key in *; cbn in *; (by eexists) || lia.
Qed.

Lemma apply_splits_complete_witness :
  exists f0 : predicate_edge_filter (P := histogram_predicate), new_filter (new_histogram 2) = Some (Ok f0) /\
  exists b apps σ ef f b', new_filter_bank id id (fun _ => Some 0) cost_bank_rules cost_chart (mk_span 0 2) = Some b /\
    apply_splits (SpanFilter0 := cube_heap_filter typ_and_idx sample_hash_span 4 (PQ := cost_queue))
      (fun _ => new_cube_heap f0) [mk_span 0 1] 2 cost_store cost_factory b = Some (Ok (σ, ef, b')) /\
    filter_at (fun _ => new_cube_heap f0) (span_ctor 0 2) f b' /\ bank_chart b' = cost_chart /\
    cube_heap_runs cost_store f0 apps σ ef f /\ app_triples apps ≡ₚ cost_triples.
Proof.
  destruct (new_filter_ok (score := option Z) (info_type := Z) typ_and_idx sample_hash_span 4 (new_histogram 2) cost_store)
    as (f0&Hf0&_). exists f0. split; [exact Hf0|]. clear Hf0.
  apply (apply_splits_complete (SpanFilter0 := cube_heap_filter typ_and_idx sample_hash_span 4 (PQ := cost_queue)) 4
    id id (fun _ => Some 0) (fun _ => new_cube_heap f0) cost_bank_rules cost_rules_ok cost_store (fun _ => True)
    (cube_heap_runs cost_store f0) 0 2 [mk_span 0 1] cost_chart (mk_span 0 2) cost_factory (new_cube_heap f0)).
  - exact cost_cells_ok.
  - intros s ->%list_elem_of_singleton. reflexivity.
  - reflexivity.
  - exact (conj eq_refl eq_refl).
  - intros more _ _. exact I.
Defined.

Lemma span_keeps_beam_witness :
  exists f0, new_filter (mk_ratio (Some (-3)) None) = Some (Ok f0) /\
  exists b σ n f b', new_filter_bank id id (fun _ => Some 0) cost_bank_rules cost_chart (mk_span 0 2) = Some b /\
    apply_splits (SpanFilter0 := exhaustive_filter typ_and_idx sample_hash_span 4 1)
      (fun _ => mk_exhaustive f0) [mk_span 0 1] 2 cost_store cost_factory b = Some (Ok (σ, count_edges n cost_factory, b')) /\
    filter_at (fun _ => mk_exhaustive f0) (span_ctor 0 2) (mk_exhaustive f) b' /\ bank_chart b' = cost_chart /\
    keeps_beam (Some (-3)) (edges_of_triples (single_edge cost_edge_of) cost_triples) (queued σ (pqueue f)).
Proof.
  destruct (ratio_run_new (score := option Z) (info_type := Z) typ_and_idx sample_hash_span 4 (Some (-3))
    (mk_ratio (Some (-3)) None) cost_store) as (f0&Hf0&_); [reflexivity|].
  exists f0. split; [exact Hf0|]. pose proof (log_beam (-3) ltac:(lia)) as Hbeam.
  apply (span_keeps_beam 4 id id (fun _ => Some 0) typ_and_idx sample_hash_span 1 cost_bank_rules cost_chart (mk_span 0 2) 0 2
    [mk_span 0 1] cost_store cost_factory (single_edge cost_edge_of) (fun _ => mk_exhaustive f0) (Some (-3))
    (mk_ratio (Some (-3)) None) f0 cost_rules_ok cost_cells_ok).
  - intros s ->%list_elem_of_singleton. reflexivity.
  - reflexivity.
  - exact Hf0.
  - reflexivity.
  - exact cost_triples_made.
  - apply inequivalent_alike. exact cost_edges_inequivalent.
  - vm_compute. discriminate.
Defined.
