(* ===== verification/GraphSearch.v ===== *)
(** The graph algorithms of Boost that the search uses, as an interface:
    [depth_first_search] and [topological_sort].

    The search calls a visitor, which may change the graph while it is searched.  What
    Boost documents of it is a relation, the runs of the search; an implementation
    returns what a run ends with, as far as its memory allows.  The instance at the
    end shows that the interface can be implemented. *)
From S2P Require Import Prelude.

Inductive color := white | gray | black.
#[export] Instance color_eq_dec : EqDecision color.
Proof. solve_decision. Defined.

(** A graph that is part of a state [S], and what is called when a vertex is
    discovered and finished.  The vertices are numbered as they were added. *)
Record graph_visitor (S : Type) := mk_visitor {
  num_vertices : S -> nat;
  out_edges : S -> nat -> list nat;
  get_color : S -> nat -> color;
  put_color : nat -> color -> S -> S;
  discover_vertex : nat -> S -> option (result S);
  finish_vertex : nat -> S -> S
}.
Arguments mk_visitor {S}.
Arguments num_vertices {S}.
Arguments out_edges {S}.
Arguments get_color {S}.
Arguments put_color {S}.
Arguments discover_vertex {S}.
Arguments finish_vertex {S}.

Section runs.
Context {S : Type} (vis : graph_visitor S).
Implicit Types s : S.

(** The targets of out-edges, one after the other: one that is white is discovered,
    its own out-edges are followed, and it is finished.  [n] counts discoveries and roots. *)
Inductive edges_run : nat -> list nat -> S -> S -> Prop :=
| run_nil s : edges_run 0 [] s s
| run_seen n v vs s s' : get_color vis s v <> white -> edges_run n vs s s' -> edges_run n (v :: vs) s s'
| run_white n m v vs s s1 s2 s' :
    get_color vis s v = white ->
    discover_vertex vis v (put_color vis v gray s) = Some (Ok s1) ->
    edges_run n (out_edges vis s1 v) s1 s2 ->
    edges_run m vs (finish_vertex vis v (put_color vis v black s2)) s' ->
    edges_run (n + m + 1) (v :: vs) s s'.

(** The vertices are taken as roots, those too that are added on the way. *)
Inductive roots_run : nat -> nat -> S -> S -> Prop :=
| roots_end v s : num_vertices vis s = v -> roots_run 0 v s s
| roots_next n m v s s1 s' :
    (v < num_vertices vis s)%nat -> edges_run n [v] s s1 -> roots_run m (v + 1) s1 s' ->
    roots_run (n + m + 1) v s s'.

Definition whiten s : S := foldr (fun v s => put_color vis v white s) s (seq 0 (num_vertices vis s)).
Definition dfs_run (n : nat) s s' : Prop := roots_run n 0 (whiten s) s'.
End runs.

(** An order of the vertices in which every edge goes to an earlier one. *)
Definition edges_backward (out : nat -> list nat) (order : list nat) : Prop :=
  forall i u v, order !! i = Some u -> v ∈ out u -> v ∈ take i order.

(** [None] is memory that is exhausted, or for [topological_sort] a graph with a cycle
    ([not_a_dag]). *)
Class GraphAlgorithms := {
  vertex_limit : nat;
  depth_first_search {S} : graph_visitor S -> S -> option (result S);
  topological_sort : nat -> (nat -> list nat) -> option (list nat)
}.

Class GraphAlgorithmLaws `{!GraphAlgorithms} : Prop := {
  dfs_runs {S} (vis : graph_visitor S) n (s s' : S) :
    dfs_run vis n s s' -> (n <= vertex_limit)%nat -> depth_first_search vis s = Some (Ok s');
  topological_sort_ok n out order :
    order ≡ₚ seq 0 n -> edges_backward out order ->
    exists order', topological_sort n out = Some order' /\ order' ≡ₚ seq 0 n /\ edges_backward out order'
}.

(** * A search that makes the graph

    The visitor adds the edges of a vertex when the vertex is discovered, none of them
    to a vertex that is gray, and none at all beyond a depth: such a search ends, and
    the graph it leaves has no cycle. *)

Section making.
Context {S : Type} (vis : graph_visitor S).
Implicit Types s : S.
Abbreviation num := (num_vertices vis).
Abbreviation out := (out_edges vis).
Abbreviation col := (get_color vis).

(** [valid c s]: an invariant of the state, after at most [c] discoveries; [depth]
    counts the vertices that are discovered and not finished. *)
Class MakingVisitor (valid : nat -> S -> Prop) (depth : S -> nat) (max_depth max_out max_discoveries : nat) : Prop := {
  mv_put c v k s : valid c s -> valid c (put_color vis v k s);
  mv_put_color v k s w : col (put_color vis v k s) w = if decide (w = v) then k else col s w;
  mv_put_num v k s : num (put_color vis v k s) = num s;
  mv_put_out v k s w : out (put_color vis v k s) w = out s w;
  mv_put_depth v k s : depth (put_color vis v k s) = depth s;
  mv_finish c v s : valid c s -> valid c (finish_vertex vis v s);
  mv_finish_color v s w : col (finish_vertex vis v s) w = col s w;
  mv_finish_num v s : num (finish_vertex vis v s) = num s;
  mv_finish_out v s w : out (finish_vertex vis v s) w = out s w;
  mv_finish_depth v s : depth (finish_vertex vis v s) = pred (depth s);
  mv_discover c v s : valid c s -> (c < max_discoveries)%nat -> (v < num s)%nat -> out s v = [] ->
    exists s1, discover_vertex vis v s = Some (Ok s1) /\ valid (c + 1) s1 /\ depth s1 = (depth s + 1)%nat /\
      (num s <= num s1 <= num s + max_out)%nat /\ (length (out s1 v) <= max_out)%nat /\
      (forall w, (w < num s)%nat -> col s1 w = col s w /\ (w <> v -> out s1 w = out s w)) /\
      (forall w, (num s <= w < num s1)%nat -> col s1 w = white /\ out s1 w = [] /\ w ∈ out s1 v) /\
      (forall t, t ∈ out s1 v -> (t < num s1)%nat /\ col s1 t <> gray) /\
      ((max_depth <= depth s)%nat -> out s1 v = [])
}.

Context (valid : nat -> S -> Prop) (depth : S -> nat) (max_depth max_out max_discoveries : nat).
Context `{!MakingVisitor valid depth max_depth max_out max_discoveries}.

(** The discoveries below a vertex, [k] levels from the greatest depth. *)
Fixpoint below (k : nat) : nat := match k with O => 1 | Datatypes.S k => 1 + max_out * below k end.

(** What has been finished on the way from [s] to [s']: each vertex after those that
    its edges go to. *)
Record finished s s' (L : list nat) : Prop := {
  fi_nodup : NoDup L;
  fi_num : (num s <= num s')%nat;
  fi_black w : w ∈ L -> (w < num s')%nat /\ col s' w = black /\ ((w < num s)%nat -> col s w = white);
  fi_same w : (w < num s)%nat -> w ∉ L -> col s' w = col s w /\ out s' w = out s w;
  fi_new w : (num s <= w < num s')%nat -> w ∈ L;
  fi_order i u t : L !! i = Some u -> t ∈ out s' u -> ((t < num s)%nat /\ col s t = black) \/ t ∈ take i L
}.

(** White vertices have no edges yet. *)
Definition fresh_white s : Prop := forall w, (w < num s)%nat -> col s w = white -> out s w = [].

Lemma finished_nil s : finished s s [].
Proof.
  split; [constructor|done|by intros w ?%not_elem_of_nil|done|intros w Hw; lia|by intros i u t].
Qed.

Lemma finished_app s s1 s' L1 L2 : finished s s1 L1 -> finished s1 s' L2 -> finished s s' (L1 ++ L2).
Proof.
  intros [A1 A2 A3 A4 A5 A6] [B1 B2 B3 B4 B5 B6].
  assert (Hdisj : forall w, w ∈ L1 -> w ∉ L2).
  { intros w (Hw&Hb&_)%A3 Hw2. destruct (B3 w Hw2) as (_&_&Hwhite). rewrite Hwhite in Hb; done. }
  split.
  - apply NoDup_app. done.
  - lia.
  - intros w [Hw|Hw]%elem_of_app.
    + destruct (A3 w Hw) as (Hn&Hb&Hwh). destruct (B4 w Hn (Hdisj w Hw)) as [-> _]. split; [lia|]. done.
    + destruct (B3 w Hw) as (Hn&Hb&Hwh). split; [done|]. split; [done|]. intros Hws.
      destruct (decide (w ∈ L1)) as [Hin|Hnin]; [destruct (Hdisj w Hin Hw)|]. destruct (A4 w Hws Hnin) as [<- _]. apply Hwh. lia.
  - intros w Hw [H1 H2]%not_elem_of_app. destruct (A4 w Hw H1) as [<- <-]. apply B4; [lia|done].
  - intros w Hw. apply elem_of_app. destruct (decide (w < num s1)%nat); [left; apply A5; lia|right; apply B5; lia].
  - intros i u t [Hi|[Hi Hu]]%lookup_app_Some Ht.
    + rewrite take_app_le by (apply lookup_lt_Some in Hi; lia). apply (A6 i u t Hi).
      pose proof (list_elem_of_lookup_2 _ _ _ Hi) as Hin. destruct (A3 u Hin) as (Hn&_).
      destruct (B4 u Hn (Hdisj u Hin)) as [_ E]. by rewrite <- E.
    + rewrite take_app_ge by done. destruct (B6 _ u t Hu Ht) as [[Htn Htb]|Htk]; [|right; apply elem_of_app; by right].
      destruct (decide (t ∈ L1)) as [Hin|Hnin]; [right; apply elem_of_app; by left|].
      destruct (decide (t < num s)%nat) as [Hts|Hts]; [|destruct Hnin; apply A5; lia].
      left. split; [done|]. by destruct (A4 t Hts Hnin) as [<- _].
Qed.
Lemma fresh_white_finished s s' L : fresh_white s -> finished s s' L -> fresh_white s'.
Proof.
  intros Hs [F1 F2 F3 F4 F5 F6] w Hw Hwhite. destruct (decide (w ∈ L)) as [Hin|Hnin].
  { destruct (F3 w Hin) as (_&Hb&_). congruence. }
  destruct (decide (w < num s)%nat) as [Hlt|Hge]; [|destruct Hnin; apply F5; lia].
  destruct (F4 w Hlt Hnin) as [Hc ->]. apply Hs; congruence.
Qed.

(** The state after a vertex was discovered. *)
Definition discovered v s s1 : Prop :=
  (num s <= num s1)%nat /\
  (forall w, (w < num s)%nat -> col s1 w = (if decide (w = v) then gray else col s w) /\ (w <> v -> out s1 w = out s w)) /\
  (forall w, (num s <= w < num s1)%nat -> col s1 w = white /\ out s1 w = [] /\ w ∈ out s1 v) /\
  (forall t, t ∈ out s1 v -> (t < num s1)%nat /\ col s1 t <> gray).

Lemma discovered_white v s s1 : fresh_white s -> discovered v s s1 -> fresh_white s1.
Proof.
  intros Hs (Hn&Hold&Hnew&_) w Hw Hwhite. destruct (decide (w < num s)%nat) as [Hlt|Hge]; [|apply Hnew; lia].
  destruct (Hold w Hlt) as [Hc Ho]. case_decide as Hv; [congruence|]. rewrite Ho by done. apply Hs; congruence.
Qed.

Lemma finished_visit v s s1 s2 L : (v < num s)%nat -> col s v = white -> discovered v s s1 -> finished s1 s2 L ->
  (forall t, t ∈ out s1 v -> col s2 t <> white) ->
  finished s (finish_vertex vis v (put_color vis v black s2)) (L ++ [v]).
Proof.
  intros Hv Hwhite (Hn&Hold&Hnew&Htarget) [F1 F2 F3 F4 F5 F6] Hdone.
  assert (Hgray : col s1 v = gray) by (rewrite (proj1 (Hold v Hv)); by rewrite decide_True).
  assert (HvL : v ∉ L) by (intros (_&_&Hc)%F3; rewrite Hc in Hgray; [done|lia]).
  split.
  - apply NoDup_app. split; [done|]. split; [by intros w Hw ->%list_elem_of_singleton|apply NoDup_singleton].
  - rewrite mv_finish_num, mv_put_num. lia.
  - intros w Hw. rewrite mv_finish_num, mv_put_num, mv_finish_color, mv_put_color.
    apply elem_of_app in Hw as [Hw| ->%list_elem_of_singleton]; [|rewrite decide_True by done; split; [lia|done]].
    destruct (F3 w Hw) as (Hwn&Hb&Hwh). split; [done|]. split; [by case_decide|]. intros Hws.
    destruct (Hold w Hws) as [Hc _]. rewrite decide_False in Hc by (by intros ->). rewrite <- Hc. apply Hwh. lia.
  - intros w Hw [HwL Hwv]%not_elem_of_app. rewrite list_elem_of_singleton in Hwv.
    rewrite mv_finish_color, mv_put_color, decide_False, mv_finish_out, mv_put_out by done.
    destruct (F4 w ltac:(lia) HwL) as [-> ->], (Hold w Hw) as [Hc Ho]. by rewrite Hc, decide_False, Ho.
  - intros w Hw. rewrite mv_finish_num, mv_put_num in Hw. apply elem_of_app. left.
    destruct (decide (w < num s1)%nat) as [Hlt|Hge]; [|apply F5; lia].
    destruct (Hnew w ltac:(lia)) as (Hc&_&Hin). destruct (decide (w ∈ L)) as [|Hni]; [done|].
    destruct (Hdone w Hin). by destruct (F4 w Hlt Hni) as [-> _].
  - intros i u t Hi Ht. rewrite mv_finish_out, mv_put_out in Ht.
    assert (Hblack : (t < num s)%nat -> col s1 t = black -> col s t = black).
    { intros Hts Hb. destruct (Hold t Hts) as [Hc _]. case_decide; congruence. }
    assert (Hnewblack : (num s <= t < num s1)%nat -> col s1 t <> black) by (intros Hts Hb; destruct (Hnew t Hts); congruence).
    apply lookup_app_Some in Hi as [Hi|[Hi Hu]].
    + rewrite take_app_le by (apply lookup_lt_Some in Hi; lia). destruct (F6 i u t Hi Ht) as [[Htn Htb]|?]; [|by right].
      left. destruct (decide (t < num s)%nat); [auto|]. destruct Hnewblack; [lia|done].
    + apply list_lookup_singleton_Some in Hu as [Hi0 ->]. rewrite take_app_ge by lia.
      destruct (F4 u ltac:(lia) HvL) as [_ Eo]. rewrite Eo in Ht. destruct (Htarget t Ht) as [Htn Htg].
      destruct (decide (t ∈ L)) as [Hin|Hni]; [right; apply elem_of_app; by left|].
      destruct (F4 t Htn Hni) as [Ec _]. pose proof (Hdone t Ht) as Hd. rewrite Ec in Hd.
      assert (Hb : col s1 t = black) by by destruct (col s1 t). left.
      destruct (decide (t < num s)%nat); [auto|]. destruct Hnewblack; [lia|done].
Qed.
(** ** The search ends *)

(** A run that follows edges, from [c] discoveries on. *)
Definition runs_to (c : nat) (vs : list nat) (bound : nat) s : Prop :=
  exists n s' L, edges_run vis n vs s s' /\ valid (c + n) s' /\ (n <= bound)%nat /\ depth s' = depth s /\
    (num s' <= num s + n * max_out)%nat /\ finished s s' L /\ forall v, v ∈ vs -> col s' v <> white.

Lemma discover_white c v s : valid c s -> (c < max_discoveries)%nat -> (v < num s)%nat -> fresh_white s -> col s v = white ->
  exists s1, discover_vertex vis v (put_color vis v gray s) = Some (Ok s1) /\ valid (c + 1) s1 /\
    depth s1 = (depth s + 1)%nat /\ (num s1 <= num s + max_out)%nat /\ (length (out s1 v) <= max_out)%nat /\
    discovered v s s1 /\ ((max_depth <= depth s)%nat -> out s1 v = []).
Proof.
  intros Hval Hc Hv Hs Hwhite.
  destruct (mv_discover c v (put_color vis v gray s)) as (s1&Hd&Hval1&Hdep&Hn&Hlen&Hold&Hnew&Ht&Hmax);
    [by apply mv_put|done|by rewrite mv_put_num|rewrite mv_put_out; by apply Hs|].
  rewrite mv_put_num in Hn, Hold, Hnew. rewrite mv_put_depth in Hdep, Hmax.
  exists s1. split; [done|]. split; [done|]. split; [done|]. split; [lia|]. split; [done|]. split; [|done].
  split; [lia|]. split; [|done]. intros w Hw. rewrite (proj1 (Hold w Hw)), mv_put_color. split; [done|].
  intros Hwv. by rewrite (proj2 (Hold w Hw) Hwv), mv_put_out.
Qed.

Lemma finished_seen s s' L v : finished s s' L -> (v < num s)%nat -> col s v <> white -> col s' v <> white.
Proof.
  intros [_ _ F3 F4 _ _] Hv Hseen. destruct (decide (v ∈ L)) as [Hin|Hni].
  - by rewrite (proj1 (proj2 (F3 v Hin))).
  - by rewrite (proj1 (F4 v Hv Hni)).
Qed.

Lemma runs_to_nil c b s : valid c s -> runs_to c [] b s.
Proof.
  intros Hval. exists 0%nat, s, []. rewrite Nat.add_0_r. split; [constructor|]. split; [done|]. split; [lia|].
  split; [done|]. split; [lia|]. split; [apply finished_nil|by intros v ?%not_elem_of_nil].
Qed.

Lemma runs_to_seen c v vs b b' s : (v < num s)%nat -> col s v <> white -> runs_to c vs b s -> (b <= b')%nat ->
  runs_to c (v :: vs) b' s.
Proof.
  intros Hv Hseen (n&s'&L&Hrun&H1&H2&H3&H4&H5&H6) Hb. exists n, s', L. split; [by apply run_seen|].
  split; [done|]. split; [lia|]. split; [done|]. split; [done|]. split; [done|].
  intros w [->|Hw]%elem_of_cons; [by eapply finished_seen|by apply H6].
Qed.

Lemma runs_to_white c v vs b1 b2 b s : valid c s -> (c < max_discoveries)%nat -> (v < num s)%nat -> fresh_white s ->
  col s v = white ->
  (forall s1, valid (c + 1) s1 -> fresh_white s1 -> depth s1 = (depth s + 1)%nat -> discovered v s s1 ->
     (length (out s1 v) <= max_out)%nat -> ((max_depth <= depth s)%nat -> out s1 v = []) -> runs_to (c + 1) (out s1 v) b1 s1) ->
  (forall s3 c3, valid c3 s3 -> fresh_white s3 -> depth s3 = depth s -> (num s <= num s3)%nat -> (c3 <= c + 1 + b1)%nat ->
     runs_to c3 vs b2 s3) ->
  (1 + b1 + b2 <= b)%nat -> runs_to c (v :: vs) b s.
Proof.
  intros Hval Hc Hv Hs Hwhite Hbelow Hrest Hb.
  destruct (discover_white c v s Hval Hc Hv Hs Hwhite) as (s1&Hd&Hval1&Hdep1&Hn1&Hlen&Hdisc&Hmax).
  pose proof (discovered_white v s s1 Hs Hdisc) as Hs1.
  destruct (Hbelow s1 Hval1 Hs1 Hdep1 Hdisc Hlen Hmax) as (n&s2&L1&Hrun1&Hval2&Hnb&Hdep2&Hn2&Hf2&Hdone).
  pose proof (finished_visit v s s1 s2 L1 Hv Hwhite Hdisc Hf2 Hdone) as Hf3.
  set (s3 := finish_vertex vis v (put_color vis v black s2)) in *.
  assert (Hn3 : num s3 = num s2) by (unfold s3; by rewrite mv_finish_num, mv_put_num).
  destruct (Hrest s3 (c + 1 + n)%nat) as (m&s'&L2&Hrun2&Hval'&Hmb&Hdep'&Hn'&Hf'&Hdone').
  - by apply mv_finish, mv_put.
  - by apply (fresh_white_finished s s3 (L1 ++ [v])).
  - unfold s3. rewrite mv_finish_depth, mv_put_depth, Hdep2, Hdep1. lia.
  - apply (fi_num _ _ _ Hf3).
  - lia.
  - assert (Hdeps : depth s3 = depth s) by (unfold s3; rewrite mv_finish_depth, mv_put_depth, Hdep2, Hdep1; lia).
    exists (n + m + 1)%nat, s', ((L1 ++ [v]) ++ L2). split; [by eapply run_white|].
    split; [by replace (c + (n + m + 1))%nat with (c + 1 + n + m)%nat by lia|]. split; [lia|]. split; [congruence|].
    split; [lia|]. split; [by eapply finished_app|]. intros w [->|Hw]%elem_of_cons; [|by apply Hdone'].
    destruct (fi_black _ _ _ Hf3 v) as (Hvn&Hvb&_); [apply elem_of_app; right; left|].
    apply (finished_seen s3 s' L2 v Hf' Hvn). by rewrite Hvb.
Qed.

Lemma visit_edges k : forall vs s c, valid c s -> fresh_white s -> k = (max_depth - depth s)%nat ->
  Forall (fun v => v < num s)%nat vs -> (c + length vs * below k <= max_discoveries)%nat ->
  runs_to c vs (length vs * below k) s.
Proof.
  induction k as [k IHk] using lt_wf_ind. intros vs. induction vs as [|v vs IH]; intros s c Hval Hs Hk Hvs Hc; [by apply runs_to_nil|].
  apply Forall_cons in Hvs as [Hv Hvs]. cbn [length] in *.
  destruct (decide (col s v = white)) as [Hwhite|Hseen]; [|eapply runs_to_seen; [done|done|apply IH; [done..|lia]|lia]].
  assert (Hb : (1 <= below k)%nat) by (destruct k; cbn; lia).
  apply (runs_to_white c v vs (below k - 1) (length vs * below k)); [done|lia|done|done|done| | |lia].
  - intros s1 Hval1 Hs1 Hdep (_&_&_&Ht) Hlen Hmax. destruct k as [|k].
    { rewrite Hmax by lia. by apply runs_to_nil. }
    assert (Hmul : (length (out s1 v) * below k <= max_out * below k)%nat) by (by apply Nat.mul_le_mono_r).
    destruct (IHk k ltac:(lia) (out s1 v) s1 (c + 1)%nat Hval1 Hs1) as (n&s'&L&H1&H2&H3&H4); [lia| | |].
    + apply Forall_forall. intros t Htin. by apply Ht.
    + cbn [below] in Hc. lia.
    + exists n, s', L. split; [done|]. split; [done|]. split; [cbn [below]; lia|done].
  - intros s3 c3 Hval3 Hs3 Hdep Hn Hc3. apply IH; [done|done|by rewrite Hdep| |lia].
    eapply Forall_impl; [exact Hvs|]. intros w Hw. cbn in Hw. lia.
Qed.
(** ** The roots *)

Definition all_white s : Prop := forall w, (w < num s)%nat -> col s w = white /\ out s w = [].

Lemma finished_not_white s0 s L w : all_white s0 -> finished s0 s L -> (w < num s)%nat -> col s w <> white -> w ∈ L.
Proof.
  intros H0 [_ _ _ F4 F5 _] Hw Hc. destruct (decide (w ∈ L)) as [|Hni]; [done|].
  destruct (decide (w < num s0)%nat) as [Hlt|Hge]; [|apply F5; lia].
  destruct (F4 w Hlt Hni) as [E _]. rewrite E in Hc. by destruct (H0 w Hlt).
Qed.

(** The vertices that were added on the way have been visited. *)
Lemma roots_added m v s : (v + m = num s)%nat -> (forall w, (v <= w < num s)%nat -> col s w <> white) ->
  roots_run vis m v s s.
Proof.
  revert v. induction m as [|m IH]; intros v Hm Hseen; [constructor; lia|].
  replace (Datatypes.S m) with (0 + m + 1)%nat by lia. apply roots_next with s; [lia|apply run_seen; [apply Hseen; lia|constructor]|].
  apply IH; [lia|]. intros w Hw. apply Hseen. lia.
Qed.

Lemma roots_finish s0 m : forall v s c L, all_white s0 -> (v + m = num s0)%nat -> finished s0 s L -> valid c s -> depth s = 0%nat ->
  (forall w, (w < v)%nat -> col s w <> white) -> (c + m * below max_depth <= max_discoveries)%nat ->
  exists n c' s' L', roots_run vis n v s s' /\ finished s0 s' L' /\ valid c' s' /\ (c' <= c + m * below max_depth)%nat /\
    (num s' <= num s + m * below max_depth * max_out)%nat /\ (n + v <= m * below max_depth + num s')%nat /\
    forall w, (w < num s')%nat -> col s' w <> white.
Proof.
  induction m as [|m IH]; intros v s c L H0 Hv Hf Hval Hdep Hseen Hc.
  - pose proof (fi_num _ _ _ Hf) as Hn.
    assert (Hall : forall w, (w < num s)%nat -> col s w <> white).
    { intros w Hw. destruct (decide (w < num s0)%nat) as [Hlt|Hge]; [apply Hseen; lia|].
      by rewrite (proj1 (proj2 (fi_black _ _ _ Hf w (fi_new _ _ _ Hf w ltac:(lia))))). }
    exists (num s - v)%nat, c, s, L. split; [apply roots_added; [lia|intros w Hw; apply Hall; lia]|].
    split; [done|]. split; [done|]. split; [lia|]. split; [lia|]. split; [lia|done].
  - cbn [Nat.mul] in Hc. pose proof (fi_num _ _ _ Hf) as Hn.
    assert (Hs0 : fresh_white s0) by (intros w Hw _; by apply H0).
    destruct (visit_edges max_depth [v] s c Hval) as (n&s1&L1&Hrun&Hval1&Hnb&Hdep1&Hn1&Hf1&Hdone).
    + by eapply fresh_white_finished.
    + rewrite Hdep. lia.
    + constructor; [lia|constructor].
    + cbn [length]. lia.
    + cbn [length] in Hnb. destruct (IH (v + 1)%nat s1 (c + n)%nat (L ++ L1) H0) as (n'&c'&s'&L'&Hrun'&Hf'&Hval'&Hc'&Hnum'&Hn'&Hall');
        [lia|by eapply finished_app|done|by rewrite Hdep1| |lia|].
      { intros w Hw. destruct (decide (w = v)) as [->|Hne]; [apply Hdone; left|].
        apply (finished_seen s s1 L1 w Hf1); [lia|apply Hseen; lia]. }
      exists (n + n' + 1)%nat, c', s', L'. split; [eapply roots_next; [lia|done|done]|]. split; [done|]. split; [done|].
      assert (Hnb' : (n * max_out <= below max_depth * max_out)%nat) by (apply Nat.mul_le_mono_r; lia).
      cbn [Nat.mul]. rewrite Nat.mul_add_distr_r. split; [lia|]. split; [lia|]. split; [lia|done].
Qed.

Lemma whiten_state c s : valid c s -> (forall w, out s w = []) ->
  valid c (whiten vis s) /\ all_white (whiten vis s) /\ num (whiten vis s) = num s /\ depth (whiten vis s) = depth s.
Proof.
  intros Hval Hout. unfold whiten.
  assert (Hw : forall l, let s' := foldr (fun v s => put_color vis v white s) s l in
    valid c s' /\ num s' = num s /\ depth s' = depth s /\ (forall w, out s' w = []) /\ forall w, w ∈ l -> col s' w = white).
  { induction l as [|v l (IH1&IH2&IH3&IH4&IH5)]; [split_and!; try done; by intros w ?%not_elem_of_nil|]. cbn [foldr].
    split; [by apply mv_put|]. split; [by rewrite mv_put_num|]. split; [by rewrite mv_put_depth|].
    split; [intros w; by rewrite mv_put_out|]. intros w Hwl. rewrite mv_put_color. case_decide; [done|].
    apply elem_of_cons in Hwl as [->|Hwl]; [done|by apply IH5]. }
  destruct (Hw (seq 0 (num s))) as (H1&H2&H3&H4&H5). split; [done|]. split; [|done].
  intros w Hn. rewrite H2 in Hn. split; [apply H5, elem_of_seq; lia|apply H4].
Qed.

(** The search ends, and every edge of the graph it has made goes to a vertex that was
    finished before. *)
Definition search_cost (roots : nat) : nat := roots * below max_depth * (max_out + 1) + roots.

Lemma search_makes_dag `{!GraphAlgorithms, !GraphAlgorithmLaws} s : valid 0 s -> depth s = 0%nat -> (forall w, out s w = []) ->
  (num s * below max_depth <= max_discoveries)%nat -> (search_cost (num s) <= vertex_limit)%nat ->
  exists c s' order, depth_first_search vis s = Some (Ok s') /\ valid c s' /\ (c <= num s * below max_depth)%nat /\
    (num s' <= search_cost (num s))%nat /\ order ≡ₚ seq 0 (num s') /\ edges_backward (out s') order.
Proof.
  intros Hval Hdep Hout Hmax Hlim. destruct (whiten_state 0 s Hval Hout) as (Hval0&Hwh0&Hn0&Hdep0).
  destruct (roots_finish (whiten vis s) (num s) 0 (whiten vis s) 0 [] Hwh0) as (n&c&s'&L&Hrun&Hf&Hval'&Hc&Hn'&Hcost&Hall);
    [lia|apply finished_nil|done|congruence|intros w Hw; lia|lia|].
  unfold search_cost in *. rewrite Nat.mul_add_distr_l, Nat.mul_1_r in *. rewrite Hn0 in Hn'.
  exists c, s', L. split; [apply (dfs_runs vis n); [done|lia]|]. split; [done|]. split; [lia|]. split; [lia|]. split.
  - apply NoDup_Permutation; [apply Hf|apply NoDup_seq|]. intros w. rewrite elem_of_seq. split.
    + intros Hw. destruct (fi_black _ _ _ Hf w Hw) as (Hlt&_). lia.
    + intros Hw. apply (finished_not_white (whiten vis s) s' L w Hwh0 Hf); [lia|apply Hall; lia].
  - intros i u t Hi Ht. destruct (fi_order _ _ _ Hf i u t Hi Ht) as [[Hlt Hb]|?]; [|done].
    rewrite (proj1 (Hwh0 t Hlt)) in Hb. done.
Qed.
End making.

(** * An implementation *)

Section search.
Context {S : Type} (vis : graph_visitor S) (limit : nat).

Fixpoint search_edges (depth : nat) : list nat -> S -> option (result S) :=
  fix go vs s :=
    match vs with
    | [] => Some (Ok s)
    | v :: vs =>
        if decide (get_color vis s v = white) then
          match depth with
          | O => None
          | Datatypes.S depth =>
              s1 ⇐ discover_vertex vis v (put_color vis v gray s);
              s2 ⇐ search_edges depth (out_edges vis s1 v) s1;
              go vs (finish_vertex vis v (put_color vis v black s2))
          end
        else go vs s
    end.

Fixpoint search_roots (fuel v : nat) (s : S) : option (result S) :=
  if decide (v < num_vertices vis s)%nat then
    match fuel with
    | O => None
    | Datatypes.S fuel => s1 ⇐ search_edges limit [v] s; search_roots fuel (v + 1) s1
    end
  else Some (Ok s).

Lemma search_edges_runs n vs s s' depth : edges_run vis n vs s s' -> (n <= depth)%nat -> search_edges depth vs s = Some (Ok s').
Proof.
  intros Hrun. revert depth. induction Hrun as [s|n v vs s s' Hc _ IH|n m v vs s s1 s2 s' Hc Hd _ IH1 _ IH2]; intros depth Hn.
  - by destruct depth.
  - specialize (IH depth Hn). destruct depth as [|depth]; cbn [search_edges] in IH |- *; by rewrite decide_False.
  - destruct depth as [|depth]; [lia|]. specialize (IH2 (Datatypes.S depth) ltac:(lia)). cbn [search_edges] in IH2 |- *.
    rewrite decide_True by done. rewrite Hd. cbn [rbind mbind option_bind]. rewrite (IH1 depth) by lia. exact IH2.
Qed.

Lemma search_roots_runs n v s s' fuel : roots_run vis n v s s' -> (n <= fuel)%nat -> (n <= limit)%nat ->
  search_roots fuel v s = Some (Ok s').
Proof.
  intros Hrun. revert fuel. induction Hrun as [v s Hv|n m v s s1 s' Hv Hrun _ IH]; intros fuel Hn Hl.
  - destruct fuel; cbn [search_roots]; rewrite decide_False; (done || lia).
  - destruct fuel as [|fuel]; [lia|]. cbn [search_roots]. rewrite decide_True by done.
    rewrite (search_edges_runs n [v] s s1 limit Hrun) by lia. cbn [rbind mbind option_bind]. apply IH; lia.
Qed.
End search.

(** A vertex all of whose edges go to vertices that were taken is taken next. *)
Fixpoint take_vertices (fuel n : nat) (out : nat -> list nat) (taken : list nat) : option (list nat) :=
  match fuel with
  | O => Some taken
  | S fuel =>
      x ← list_find (fun v => (v ∉ taken) /\ Forall (fun w => w ∈ taken) (out v)) (seq 0 n);
      take_vertices fuel n out (taken ++ [x.2])
  end.

#[local] Instance search_graph : GraphAlgorithms := {|
  vertex_limit := 1000;
  depth_first_search S vis s := search_roots vis 1000 1000 0 (whiten vis s);
  topological_sort n out := take_vertices n n out []
|}.

(** The first vertex of the order that was not taken can be taken. *)
Lemma next_vertex n out order taken : order ≡ₚ seq 0 n -> edges_backward out order ->
  (length taken < n)%nat ->
  exists v, (v ∈ seq 0 n) /\ (v ∉ taken) /\ Forall (fun w => w ∈ taken) (out v).
Proof.
  intros Hp Hb Hl. destruct (list_find (fun v => v ∉ taken) order) as [[i v]|] eqn:E.
  - apply list_find_Some in E as (Hi&Hv&Hfirst). exists v. split; [|split; [done|]].
    { rewrite <- Hp. by eapply list_elem_of_lookup_2. }
    apply Forall_forall. intros w Hw. pose proof (Hb i v w Hi Hw) as [j Hj]%list_elem_of_lookup.
    apply lookup_take_Some in Hj as [Hj Hji]. destruct (decide (w ∈ taken)) as [Hin|Hn]; [done|].
    by destruct (Hfirst j w Hj Hji).
  - exfalso. apply list_find_None in E. rewrite Forall_forall in E.
    assert (Hs : order ⊆+ taken).
    { apply NoDup_submseteq; [rewrite Hp; apply NoDup_seq|]. intros v Hv. specialize (E v Hv).
      destruct (decide (v ∈ taken)); [done|]. by destruct E. }
    apply submseteq_length in Hs. rewrite (Permutation_length Hp), length_seq in Hs. lia.
Qed.

Lemma take_vertices_ok fuel n out order taken : order ≡ₚ seq 0 n -> edges_backward out order ->
  NoDup taken -> (forall v, v ∈ taken -> v ∈ seq 0 n) -> edges_backward out taken -> (length taken + fuel = n)%nat ->
  exists order', take_vertices fuel n out taken = Some order' /\ order' ≡ₚ seq 0 n /\ edges_backward out order'.
Proof.
  intros Hp Hb. revert taken. induction fuel as [|fuel IH]; intros taken Hnd Hin Ht Hl; cbn [take_vertices].
  - exists taken. split; [done|]. split; [|done].
    apply submseteq_length_Permutation; [by apply NoDup_submseteq|]. rewrite length_seq. lia.
  - destruct (next_vertex n out order taken Hp Hb ltac:(lia)) as (v&Hv&Hvt&Hout).
    destruct (list_find _ (seq 0 n)) as [[i x]|] eqn:E; cbn [mbind option_bind snd].
    2: { apply list_find_None in E. rewrite Forall_forall in E. by destruct (E v Hv). }
    apply list_find_Some in E as (Hi&[Hx Hox]&_). apply IH.
    + apply NoDup_app. split; [done|]. split; [|apply NoDup_singleton]. by intros y Hy ->%list_elem_of_singleton.
    + intros y [Hy| ->%list_elem_of_singleton]%elem_of_app; [by apply Hin|by eapply list_elem_of_lookup_2].
    + intros j u w [Hj|[Hj Hu]]%lookup_app_Some Hw.
      * pose proof (Ht j u w Hj Hw) as Hw'. rewrite take_app_le; [done|]. apply lookup_lt_Some in Hj. lia.
      * apply list_lookup_singleton_Some in Hu as [Hj0 <-]. replace j with (length taken) by lia.
        rewrite take_app_length. rewrite Forall_forall in Hox. by apply Hox.
    + rewrite length_app. cbn [length]. lia.
Qed.

#[local] Instance search_graph_laws : GraphAlgorithmLaws.
Proof.
  split.
  - intros S vis n s s' Hrun Hn. by apply (search_roots_runs vis 1000 n 0 (whiten vis s) s').
  - intros n out order Hp Hb. apply (take_vertices_ok n n out order []); try done; [constructor|by intros v ?%not_elem_of_nil].
Qed.
