(* ===== verification/UnaryFilter.v ===== *)
(** What unary rule application asks of a filter, and the filter that takes every edge:
    [unary_filter_interface], [stub_unary_filter] and [exhaustive_unary_filter]
    (src/sbmt_decoder/include/sbmt/search/unary_filter_interface.hpp).

    A unary filter makes the edges of rules applied to one edge and hands them out one
    after the other.  Those it has are a list beside the edge filter they passed. *)
From S2P Require Import Prelude Span PriorityTable PriorityQueue TokenStorage Token Edge EdgeEquivalence EdgeQueue FilterPredicate EdgeFilter Generator SpanFilter.
Open Scope Z_scope.

Section unary_filter.
Context {score info_type R G : Type} `{!ScoreOps score, !ScoreZero score, !InfoOps info_type}.
Context `{!Inhabited score, !Inhabited info_type}.
Abbreviation edge := (edge score info_type).
Abbreviation store := (equiv_store score info_type).
Abbreviation factory := (edge_factory score).
Context `{!GrammarOps R score edge store G, !Generator G (info_type * score * score)}.
Context `{!StdAlgorithms (alt_edge score), HC : !HashCombine}.
Context (hash_token : indexed_token -> Z) (hash_span : span_t -> Z) (max_equivalents : Z).
Implicit Types (σ : store) (e : edge) (es : list edge) (ef : factory) (r : R).

(** [unary_filter_interface] *)
Class UnaryFilter (F : Type) := {
  uf_apply_rules : store -> factory -> positive -> list R -> F -> option (result (store * factory * F));
  uf_top : F -> option edge;
  uf_pop : F -> option F;
  uf_empty : F -> bool
}.

(** * [stub_unary_filter] *)

Section stub.
Context {P : Type} `{!FilterPredicate (score := score) (info_type := info_type) P}.
Abbreviation filter_of := (predicate_edge_filter (score := score) (P := P)).
Abbreviation filter_insert_edge := (filter_insert_edge hash_token hash_span max_equivalents).

Record stub_unary_filter := mk_stub {
  stub_filt : filter_of;
  storage : list edge
}.
Implicit Types f : stub_unary_filter.

Definition add_edge σ e f : option (result (bool * store * stub_unary_filter)) :=
  '(retval, σ, filt) ⇐ filter_insert_edge σ e (stub_filt f);
  Some (Ok (is_true retval, σ, mk_stub filt (if is_true retval then storage f ++ [e] else storage f))).

(** * [exhaustive_unary_filter]

    The fuel of the inner loop is the number of infos that one application makes. *)
Context (max_infos : nat).

Fixpoint add_generated (n : nat) σ (g : edge_generator score G) ef f : option (result (store * factory * stub_unary_filter)) :=
  if edge_generator_more g then
    match n with
    | O => None
    | S n => c ← edge_generator_call σ g ef;
             '(_, σ, f) ⇐ add_edge σ c.1.1 f;
             add_generated n σ c.1.2 c.2 f
    end
  else Some (Ok (σ, ef, f)).

Fixpoint exhaustive_unary_apply (source : positive) (rr : list R) σ ef f
  : option (result (store * factory * stub_unary_filter)) :=
  match rr with
  | [] => Some (Ok (σ, ef, f))
  | r :: rr =>
      g ← create_unary_edge ef σ r (Some source);
      '(σ, ef, f) ⇐ add_generated max_infos σ g ef f;
      exhaustive_unary_apply source rr σ ef f
  end.

#[export] Instance exhaustive_unary_filter : UnaryFilter stub_unary_filter := {|
  uf_apply_rules σ ef source rr f := exhaustive_unary_apply source rr σ ef f;
  uf_top f := head (storage f);
  uf_pop f := match storage f with [] => None | _ :: es => Some (mk_stub (stub_filt f) es) end;
  uf_empty f := match storage f with [] => true | _ => false end
|}.
End stub.

(** * What a unary filter promises

    [unary_edge] is an edge that a rule makes of one child. *)

Definition unary_edge σ (source : positive) r e : Prop :=
  exists i, σ !! source = Some i /\ rt e = rule_lhs r /\ rule_id e = rule_number r /\
    child0 e = Some source /\ child1 e = None /\ spn e = spn (m_rep i).

Definition unary_rule σ (source : positive) r : Prop :=
  exists i, σ !! source = Some i /\ equiv_empty i = false /\ rule_rhs r 0 = Some (rt (m_rep i)) /\ rule_rhs_size r = 1.

Abbreviation writes := (writes max_equivalents).
Abbreviation equiv_ok := (equiv_ok max_equivalents).
Abbreviation edge_equiv_max := (edge_equiv_max max_equivalents).

(** [holds j σ0 σ es f]: after at most [j] applications the filter has the edges [es]
    to hand out; the part [σ0] of the store is not its own and stays as it is.  It
    takes [max_rules] rules at a time, [max_calls] times, and makes at most
    [max_edges] edges each time. *)
Class UnaryFilterLaws {F} `{!UnaryFilter F} (max_rules max_calls max_edges : nat)
    (holds : nat -> store -> store -> list edge -> F -> Prop) : Prop := {
  ul_sub j σ0 σ es (f : F) : holds j σ0 σ es f -> σ0 ⊆ σ;
  ul_empty j σ0 σ es (f : F) : holds j σ0 σ es f -> uf_empty f = true <-> es = [];
  ul_next j σ0 σ e es (f : F) : holds j σ0 σ (e :: es) f -> uf_top f = Some e /\
    exists f', uf_pop f = Some f' /\ holds j σ0 σ es f';
  ul_write j σ0 σ es (f : F) l i : holds j σ0 σ es f -> σ !! l = None \/ is_Some (σ0 !! l) -> writes σ l i ->
    holds j (<[l := i]> σ0) (<[l := i]> σ) es f;
  ul_apply j σ0 σ ef (f : F) source rr : holds j σ0 σ [] f -> (j < max_calls)%nat ->
    (length rr <= max_rules)%nat -> (forall r, r ∈ rr -> unary_rule σ0 source r) ->
    exists σ' ef' f' es, uf_apply_rules σ ef source rr f = Some (Ok (σ', ef', f')) /\ holds (S j) σ0 σ' es f' /\
      (length es <= max_edges)%nat /\
      Forall (fun e => edge_ok σ0 e /\ 1 <= edge_equiv_max (pool_create e) /\ exists r, r ∈ rr /\ unary_edge σ0 source r e) es
}.

(** * The exhaustive filter keeps the promises *)

(** Every unary application makes at most [max_infos] infos. *)
Class UnaryInfos (max_infos : nat) : Prop := {
  ui_yields σ r (s : span_t) e : exists infos, yields (create_info σ r s [e]) infos /\ (length infos <= max_infos)%nat;
  ui_lhs r : is_null (rule_lhs r) = false
}.

Lemma create_unary_edge_ok ef σ r l i : σ !! l = Some i -> equiv_empty i = false ->
  rule_rhs r 0 = Some (rt (m_rep i)) -> rule_rhs_size r = 1 ->
  create_unary_edge ef σ r (Some l) = Some (new_edge_generator r (create_info σ r (spn (m_rep i)) [m_rep i])
    (get_cell_heuristic ef (rule_lhs r) (spn (m_rep i))) (Some l) None).
Proof.
  intros Hl He Hr Hs. unfold create_unary_edge, representative, assert_rhs. cbn [deref].
  rewrite Hl; cbn [mbind option_bind]. rewrite He; cbn [negb assert_true mbind option_bind].
  rewrite Hr; cbn [mbind option_bind]. unfold indexed_equal. rewrite Z.eqb_refl. cbn [assert_true mbind option_bind].
  by rewrite Hs.
Qed.

(** A unary rule makes one edge for each info. *)
Lemma unary_rule_makes σ0 σ ef r l i (infos : list (info_type * score * score)) :
  σ0 ⊆ σ -> σ0 !! l = Some i -> equiv_empty i = false -> rule_rhs r 0 = Some (rt (m_rep i)) -> rule_rhs_size r = 1 ->
  yields (create_info σ r (spn (m_rep i)) [m_rep i]) infos ->
  exists g, create_unary_edge ef σ r (Some l) = Some g /\
    makes σ0 g (edge_of_info ef r (Some l) None (spn (m_rep i)) (fun x => score_mul x (inside (m_rep i))) <$> infos).
Proof.
  intros Hσ Hl He Hr Hs Hy. rewrite (create_unary_edge_ok ef σ r l i) by (done || by eapply lookup_weaken).
  eexists. split; [done|]. revert Hy. generalize (create_info σ r (spn (m_rep i)) [m_rep i]).
  intros gen Hy. induction Hy as [gen Hm|gen v gen' infos Hm Hp Hpop Hy IH]; [by constructor|].
  cbn [fmap list_fmap]. econstructor; [done| |exact IH]. intros σ' ef' Hσ'.
  unfold edge_generator_call, gcall, new_edge_generator. cbn [eg_generator tm_inside tm_heuristic eg_rule_id eg_root eg_e1 eg_e2].
  rewrite Hp; cbn [mbind option_bind]. rewrite Hpop; cbn [mbind option_bind]. destruct v as [[inf ins] h].
  unfold new_edge. cbn [deref]. by rewrite (lookup_weaken _ _ _ _ Hl Hσ').
Qed.

Section laws.
Context `{!StdAlgorithmLaws (alt_edge score), !InfoLaws info_type, !StrictWeak (score_lt (S := score)), !ScoreZeroLaws score}.
Context {P : Type} `{!FilterPredicate (score := score) (info_type := info_type) P, !PredicateSafe hash_token hash_span max_equivalents P}.
Context (max_infos max_rules max_calls : nat) `{!UnaryInfos max_infos}.
Context (Hmax : 1 <= u32 max_equivalents).
Implicit Types f : stub_unary_filter (P := P).

Context (Hcalls : insertion_bound (max_calls * (max_rules * max_infos)) <= pq_limit).
Abbreviation filter_beside := (filter_beside hash_token hash_span max_equivalents).

Definition stub_holds (j : nat) σ0 σ es f : Prop :=
  storage f = es /\ exists n, (n <= j * (max_rules * max_infos))%nat /\ filter_beside σ0 n σ (stub_filt f).

(** The edges that were added are some of [es]. *)
Definition added σ0 (n : nat) f es σ' f' : Prop :=
  filter_beside σ0 (n + length es) σ' (stub_filt f') /\
  exists new, storage f' = storage f ++ new /\ new `sublist_of` es.

Lemma added_app σ0 n f es1 σ1 f1 es2 σ2 f2 : added σ0 n f es1 σ1 f1 -> added σ0 (n + length es1) f1 es2 σ2 f2 ->
  added σ0 n f (es1 ++ es2) σ2 f2.
Proof.
  intros [_ (new1&H1&Hs1)] [Hb (new2&H2&Hs2)]. split; [by rewrite length_app, Nat.add_assoc|].
  exists (new1 ++ new2). split; [by rewrite H2, H1, app_assoc|by apply sublist_app].
Qed.

Lemma insertion_bound_mono n m : (n <= m)%nat -> insertion_bound n <= insertion_bound m.
Proof. unfold insertion_bound. nia. Qed.

Lemma add_edge_added σ0 n σ e f : filter_beside σ0 n σ (stub_filt f) -> edge_ok σ0 e ->
  1 <= edge_equiv_max (pool_create e) -> insertion_bound (S n) <= pq_limit ->
  exists b σ' f', add_edge σ e f = Some (Ok (b, σ', f')) /\ added σ0 n f [e] σ' f'.
Proof.
  intros Hf He Hm Hn. destruct (filter_beside_step hash_token hash_span max_equivalents σ0 n σ (stub_filt f) e Hf He Hm Hn)
    as (t&σ'&q'&Hins&Hq'). unfold add_edge. rewrite Hins. clear Hins. cbn [rbind mbind option_bind].
  eexists _, _, _. split; [done|]. split; [cbn [length stub_filt]; by rewrite Nat.add_1_r|].
  destruct (is_true t); cbn [storage]; [by exists [e]|].
  exists []. rewrite app_nil_r. split; [done|apply sublist_nil_l].
Qed.

Lemma add_generated_added σ0 n σ g ef f es k : makes σ0 g es -> (length es <= k)%nat ->
  Forall (fun e => edge_ok σ0 e /\ 1 <= edge_equiv_max (pool_create e)) es ->
  filter_beside σ0 n σ (stub_filt f) -> insertion_bound (n + length es) <= pq_limit ->
  exists σ' ef' f', add_generated k σ g ef f = Some (Ok (σ', ef', f')) /\ added σ0 n f es σ' f'.
Proof.
  intros Hg. revert n σ ef f k. induction Hg as [g Hm|g e g' es Hm Hcall Hg IH]; intros n σ ef f k Hk Hes Hf Hn.
  - exists σ, ef, f. split; [destruct k; cbn [add_generated]; by rewrite Hm|].
    split; [cbn [length]; by rewrite Nat.add_0_r|]. exists []. by rewrite app_nil_r.
  - destruct k as [|k]; [cbn in Hk; lia|]. cbn [add_generated length] in *. rewrite Hm.
    rewrite Hcall by apply (fb_sub _ _ _ _ _ _ _ Hf). cbn [mbind option_bind fst snd].
    apply Forall_cons in Hes as [[He Hme] Hes].
    destruct (add_edge_added σ0 n σ e f Hf He Hme) as (b&σ1&f1&->&Hf1).
    { etrans; [|exact Hn]. apply insertion_bound_mono. lia. }
    cbn [rbind mbind option_bind]. pose proof (proj1 Hf1) as Hb1. cbn [length] in Hb1. rewrite Nat.add_1_r in Hb1.
    destruct (IH (S n) σ1 (log_create_edge ef) f1 k ltac:(lia) Hes Hb1) as (σ2&ef2&f2&->&Hf2).
    { by replace (S n + length es)%nat with (n + S (length es))%nat by lia. }
    exists σ2, ef2, f2. split; [done|]. apply (added_app σ0 n f [e] σ1 f1 es); [done|]. by rewrite Nat.add_1_r.
Qed.

(** Every edge an application makes is of the rule and the child. *)
Lemma edge_of_info_unary σ0 ef r l i v : σ0 !! l = Some i -> equiv_empty i = false ->
  let e := edge_of_info ef r (Some l) None (spn (m_rep i)) (fun x => score_mul x (inside (m_rep i))) v in
  edge_ok σ0 e /\ 1 <= edge_equiv_max (pool_create e) /\ unary_edge σ0 l r e.
Proof.
  intros Hl He e. split; [|split].
  - split; [apply ui_lhs|]. split; [by exists i|done].
  - unfold EdgeEquivalence.edge_equiv_max, UINT_MAX. case_bool_decide; lia.
  - by exists i.
Qed.

Lemma exhaustive_unary_apply_added σ0 n σ source rr ef f : (forall r, r ∈ rr -> unary_rule σ0 source r) ->
  filter_beside σ0 n σ (stub_filt f) -> insertion_bound (n + length rr * max_infos) <= pq_limit ->
  exists σ' ef' f' es, exhaustive_unary_apply max_infos source rr σ ef f = Some (Ok (σ', ef', f')) /\ added σ0 n f es σ' f' /\
    (length es <= length rr * max_infos)%nat /\
    Forall (fun e => edge_ok σ0 e /\ 1 <= edge_equiv_max (pool_create e) /\ exists r, r ∈ rr /\ unary_edge σ0 source r e) es.
Proof.
  revert n σ ef f. induction rr as [|r rr IH]; intros n σ ef f Hrr Hf Hn; cbn [exhaustive_unary_apply].
  { exists σ, ef, f, []. split; [done|]. split; [|done]. split; [cbn [length]; by rewrite Nat.add_0_r|].
    exists []. by rewrite app_nil_r. }
  destruct (Hrr r ltac:(left)) as (i&Hi&He&Hr0&Hs1).
  destruct (ui_yields σ r (spn (m_rep i)) (m_rep i)) as (infos&Hy&Hl).
  destruct (unary_rule_makes σ0 σ ef r source i infos (fb_sub _ _ _ _ _ _ _ Hf) Hi He Hr0 Hs1 Hy) as (g&->&Hg).
  cbn [mbind option_bind]. set (es1 := edge_of_info _ _ _ _ _ _ <$> infos) in Hg.
  assert (Hes1 : Forall (fun e => edge_ok σ0 e /\ 1 <= edge_equiv_max (pool_create e) /\ unary_edge σ0 source r e) es1).
  { apply Forall_fmap, Forall_forall. intros v _. by apply edge_of_info_unary. }
  assert (Hlen1 : (length es1 <= max_infos)%nat) by (unfold es1; by rewrite length_fmap).
  destruct (add_generated_added σ0 n σ g ef f es1 max_infos Hg Hlen1) as (σ1&ef1&f1&->&Hf1); [|done| |].
  { eapply Forall_impl; [exact Hes1|]. by intros e (?&?&_). }
  { etrans; [|exact Hn]. apply insertion_bound_mono. cbn [length]. lia. }
  cbn [rbind mbind option_bind].
  destruct (IH (n + length es1)%nat σ1 ef1 f1) as (σ2&ef2&f2&es2&->&Hf2&Hlen2&Hes2);
    [intros x Hx; apply Hrr; by right|apply Hf1| |].
  { etrans; [|exact Hn]. apply insertion_bound_mono. cbn [length]. lia. }
  exists σ2, ef2, f2, (es1 ++ es2). split; [done|]. split; [by apply (added_app σ0 n f es1 σ1 f1)|].
  split; [rewrite length_app; cbn [length]; lia|]. apply Forall_app. split.
  - eapply Forall_impl; [exact Hes1|]. intros e (?&?&?). split; [done|]. split; [done|]. exists r. split; [left|done].
  - eapply Forall_impl; [exact Hes2|]. intros e (?&?&x&?&?). split; [done|]. split; [done|]. exists x. split; [by right|done].
Qed.

#[export] Instance exhaustive_unary_laws :
  UnaryFilterLaws (UnaryFilter0 := exhaustive_unary_filter max_infos) max_rules max_calls (max_rules * max_infos) stub_holds.
Proof.
  split.
  - intros j σ0 σ es f [_ (n&_&Hf)]. apply Hf.
  - intros j σ0 σ es f [<- _]. cbn. by destruct (storage f).
  - intros j σ0 σ e es f [Hs Hf]. cbn. rewrite Hs. split; [done|]. eexists. split; [done|]. by split.
  - intros j σ0 σ es f l i [Hs (n&Hn&Hf)] Hl Hw. split; [done|]. exists n. split; [done|]. by apply filter_beside_write.
  - intros j σ0 σ ef f source rr [Hs (n&Hn&Hf)] Hj Hrr Hrules.
    assert (Hmade : (length rr * max_infos <= max_rules * max_infos)%nat) by (by apply Nat.mul_le_mono_r).
    assert (Hall : (S j * (max_rules * max_infos) <= max_calls * (max_rules * max_infos))%nat) by (apply Nat.mul_le_mono_r; lia).
    rewrite Nat.mul_succ_l in Hall.
    destruct (exhaustive_unary_apply_added σ0 n σ source rr ef f Hrules Hf) as (σ'&ef'&f'&es&Hrun&[Hb (new&Hst&Hsub)]&Hlen&Hes).
    { etrans; [|exact Hcalls]. apply insertion_bound_mono. lia. }
    exists σ', ef', f', new. split; [exact Hrun|]. rewrite Hs in Hst. split; [split; [done|]|split].
    + exists (n + length es)%nat. split; [lia|done].
    + apply sublist_length in Hsub. lia.
    + rewrite Forall_forall in Hes. apply Forall_forall. intros e He. apply Hes. by eapply elem_of_sublist.
Qed.

(** A new filter owns nothing. *)
Lemma stub_holds_new p (f0 : predicate_edge_filter (P := P)) σ : new_filter p = Some (Ok f0) -> stub_holds 0 σ σ [] (mk_stub f0 []).
Proof.
  intros Hf. destruct (filter_beside_new hash_token hash_span max_equivalents σ f0 p Hf) as [Hb _].
  split; [reflexivity|]. exists 0%nat. split; [lia|exact Hb].
Qed.
End laws.
End unary_filter.
