(* ===== verification/ChartEquiv.v ===== *)
(** Equivalences put into a chart, and charts whose equivalences change:
    [basic_chart::insert_edge] of an equivalence
    (src/sbmt_decoder/include/sbmt/chart/chart.hpp, modelled in [Chart]).

    The chart shares the equivalence, or merges it into the equivalent one that it has.
    The cells stay well formed whenever no equivalence of the store is lost. *)
From S2P Require Import Prelude Span TokenStorage Token Edge EdgeEquivalence Chart.
Open Scope Z_scope.

Section chart_equiv.
Context {score info_type : Type} `{!ScoreOps score, !ScoreZero score, !InfoOps info_type}.
Context `{!Inhabited score, !Inhabited info_type}.
Abbreviation edge := (edge score info_type).
Abbreviation impl := (edge_equivalence_impl score info_type).
Abbreviation store := (equiv_store score info_type).
Context `{!StdAlgorithms (alt_edge score), HC : !HashCombine}.
Context (hash_token : indexed_token -> Z) (hash_span : span_t -> Z) (max_equivalents : Z).
Context `{!StdAlgorithmLaws (alt_edge score), !InfoLaws info_type, !StrictWeak (score_lt (S := score))}.
Abbreviation unordered_cell := (unordered_cell score).
Abbreviation basic_chart := (basic_chart score).
Implicit Types (σ : store) (e : edge) (i j : impl) (l : positive) (c : unordered_cell) (cs : list unordered_cell) (ch : basic_chart) (s : span_t) (k : Z * Z).
Abbreviation equiv_ok := (equiv_ok max_equivalents).
Abbreviation writes := (writes max_equivalents).
Abbreviation improves := (improves max_equivalents).
Abbreviation cell_ok := (cell_ok max_equivalents).
Abbreviation cells_ok := (cells_ok max_equivalents).
Abbreviation merge := (merge hash_token hash_span max_equivalents).
Abbreviation cell_insert_equiv := (cell_insert_equiv hash_token hash_span max_equivalents).
Abbreviation span_insert_equiv := (span_insert_equiv hash_token hash_span max_equivalents).
Abbreviation chart_insert_equiv := (chart_insert_equiv hash_token hash_span max_equivalents).

(** * Cells in an improved store *)

Lemma cell_ok_improves σ σ' k t c : improves σ σ' -> cell_ok σ k t c -> cell_ok σ' k t c.
Proof.
  intros Him (H1&H2&H3&H4). split; [done|]. split; [done|].
  assert (Hat : forall l, l ∈ edge_container c -> exists i i', σ !! l = Some i /\ σ' !! l = Some i' /\ equiv_ok σ' i' /\
    equal_to (m_rep i) (m_rep i') = true /\ span_key (spn (m_rep i)) = k /\ rt (m_rep i) = t).
  { intros l Hl. destruct (H3 l Hl) as (i&Hi&Hok&?). destruct (im_at _ _ _ Him l i Hi Hok) as (i'&?&?&?&_). by exists i, i'. }
  split.
  - intros l Hl. destruct (Hat l Hl) as (i&i'&_&Hi'&Hok'&(E1&E2&_)%equal_to_spec&Hk&Ht). exists i'.
    split; [done|]. split; [done|]. by rewrite <- E1, <- E2.
  - intros x y ix iy Hx Hy Hix Hiy Heq. destruct (Hat x Hx) as (jx&jx'&Hjx&Hjx'&_&Ex&_), (Hat y Hy) as (jy&jy'&Hjy&Hjy'&_&Ey&_).
    rewrite Hix in Hjx'. injection Hjx' as <-. rewrite Hiy in Hjy'. injection Hjy' as <-.
    apply (H4 x y jx jy Hx Hy Hjx Hjy). eauto using equal_to_trans, equal_to_sym.
Qed.

Lemma cells_ok_improves σ σ' k cs : improves σ σ' -> cells_ok σ k cs -> cells_ok σ' k cs.
Proof.
  intros Him (ts&Hts&Hnd). exists ts. split; [|done]. eapply Forall2_impl; [exact Hts|]. intros t c. by apply cell_ok_improves.
Qed.

(** * Putting in an equivalence *)

Inductive equiv_put σ l i (before after : positive -> Prop) : store -> Prop :=
| put_shared : (forall x, after x <-> before x \/ x = l) ->
    (forall x j, before x -> σ !! x = Some j -> equal_to (m_rep j) (m_rep i) = false) -> equiv_put σ l i before after σ
| put_merged w j j' : before w -> σ !! w = Some j -> equal_to (m_rep j) (m_rep i) = true ->
    merge σ i j = Some j' -> m_rep j' = best_edge (m_rep j) (edges_of i) -> writes σ w j' ->
    (forall x, after x <-> before x) -> equiv_put σ l i before after (<[w := j']> σ).

Lemma cell_insert_equiv_ok σ l i k t c : cell_ok σ k t c -> σ !! l = Some i -> equiv_ok σ i ->
  span_key (spn (m_rep i)) = k -> rt (m_rep i) = t -> l ∉ edge_container c ->
  exists σ' c', cell_insert_equiv σ l c = Some (σ', c') /\ cell_ok σ' k t c' /\
    equiv_put σ l i (fun x => x ∈ edge_container c) (fun x => x ∈ edge_container c') σ'.
Proof.
  intros Hc Hi Hok <- <- Hl. pose proof Hc as (H1&H2&H3&H4). unfold Chart.cell_insert_equiv.
  rewrite Hi, (representative_ok max_equivalents σ l i Hi Hok). cbn [mbind option_bind].
  destruct (cell_span_ok _ _ _ _ _ Hc) as (s&->&Hs). apply span_key_inj in Hs as ->.
  rewrite (cell_root_ok _ _ _ _ _ Hc). cbn [mbind option_bind].
  unfold indexed_equal, span_eqb. rewrite !Z.eqb_refl. cbn [andb assert_true mbind option_bind].
  assert (Hls : forall x, x ∈ edge_container c -> exists j, σ !! x = Some j /\ equiv_ok σ j)
    by (intros x Hx; destruct (H3 x Hx) as (j&?&?&_); eauto).
  pose proof (find_equiv_spec max_equivalents σ (m_rep i) (edge_container c) Hls) as Hf.
  destruct (find_equiv σ (m_rep i) (edge_container c)) as [[w|]|]; [| |done]; cbn [mbind option_bind].
  - destruct Hf as (j&Hw&Hj&Heq). rewrite decide_False by (by intros ->). rewrite Hj.
    destruct (H3 w Hw) as (j0&Hj0&Hokj&_). rewrite Hj in Hj0. injection Hj0 as <-. cbn [mbind option_bind].
    destruct (merge_step hash_token hash_span max_equivalents σ i j Hok Hokj Heq) as (j'&Hm&Hj'&Hrep&Hje).
    rewrite Hm. cbn [mbind option_bind].
    assert (Hwr : writes σ w j') by (split; [done|]; intros j2 Hj2; rewrite Hj in Hj2; by injection Hj2 as <-).
    do 2 eexists. split; [reflexivity|]. split; [by apply (cell_ok_write max_equivalents σ w j' _ _ c)|].
    by apply (put_merged σ l i _ _ w j j').
  - do 2 eexists. split; [reflexivity|]. split.
    + split; [done|]. cbn [edge_container]. split; [by constructor|]. split.
      * intros x [->|Hx]%elem_of_cons; [by exists i|by apply H3].
      * intros x y ix iy [->|Hx]%elem_of_cons [->|Hy]%elem_of_cons Hix Hiy He; [done| | |by eapply H4].
        -- rewrite Hi in Hix. injection Hix as <-. apply equal_to_sym in He. by rewrite (Hf y iy Hy Hiy) in He.
        -- rewrite Hi in Hiy. injection Hiy as <-. by rewrite (Hf x ix Hx Hix) in He.
    + apply put_shared; [|done]. cbn [edge_container]. intros x. rewrite elem_of_cons. tauto.
Qed.

Lemma span_insert_equiv_ok σ l i k cs : cells_ok σ k cs -> σ !! l = Some i -> equiv_ok σ i ->
  span_key (spn (m_rep i)) = k -> ~ held cs l ->
  exists σ' cs', span_insert_equiv σ l cs = Some (σ', cs') /\ cells_ok σ' k cs' /\ equiv_put σ l i (held cs) (held cs') σ'.
Proof.
  intros Hcs Hi Hok Hk Hl. pose proof Hcs as (ts&Hts&Hnd). unfold Chart.span_insert_equiv.
  rewrite (representative_ok max_equivalents σ l i Hi Hok). cbn [mbind option_bind].
  pose proof (find_cell_spec max_equivalents σ k (rt (m_rep i)) ts cs Hts) as Hf.
  assert (Hroot : forall x j d, d ∈ cs -> x ∈ edge_container d -> σ !! x = Some j -> equal_to (m_rep j) (m_rep i) = true ->
    exists n, cs !! n = Some d /\ ts !! n = Some (rt (m_rep i))).
  { intros x j d [n Hn]%list_elem_of_lookup Hx Hj E. exists n. split; [done|].
    exact (held_root max_equivalents _ _ _ _ _ _ _ _ _ Hts Hn Hx Hj E). }
  destruct (find_cell σ (rt (m_rep i)) cs) as [[[n c]|]|]; [| |done]; cbn [mbind option_bind].
  - destruct Hf as (Ht&Hj). pose proof (Forall2_lookup_lr _ _ _ _ _ _ Hts Ht Hj) as Hc.
    assert (Hin : c ∈ cs) by by eapply list_elem_of_lookup_2.
    destruct (cell_insert_equiv_ok σ l i k _ c Hc Hi Hok Hk eq_refl) as (σ'&c'&->&Hc'&Hput); [intros Hx; apply Hl; by exists c|].
    cbn [mbind option_bind fst snd]. do 2 eexists. split; [reflexivity|].
    assert (Hsub : forall x, x ∈ edge_container c -> x ∈ edge_container c').
    { destruct Hput as [Ha _|w j j' _ _ _ _ _ _ Ha]; intros x Hx; apply Ha; [by left|done]. }
    assert (Hgo : forall x, held (<[n := c']> cs) x <-> held cs x \/ x ∈ edge_container c').
    { intros x. split; [intros [Hx|Hx]%(held_replace _ _ _ _ _ Hj Hsub); [by left|by right]|].
      intros Hx. by apply (held_replace_mono _ _ _ _ _ Hj Hsub). }
    split.
    { exists ts. split; [|done]. rewrite <- (list_insert_id ts n (rt (m_rep i)) Ht). apply Forall2_insert; [|done].
      eapply Forall2_impl; [exact Hts|]. intros t d. destruct Hput as [|w j j' _ _ _ _ _ Hw _]; [done|]. by apply cell_ok_write. }
    destruct Hput as [Ha Hno|w j j' Hb Hw He Hm Hr Hwr Ha].
    + apply put_shared.
      * intros x. rewrite Hgo, Ha. split; [intros [?|[?|?]]; [by left| |by right]; left; by exists c|tauto].
      * intros x j (d&Hd&Hx) Hjx. destruct (equal_to (m_rep j) (m_rep i)) eqn:E; [|done].
        destruct (Hroot x j d Hd Hx Hjx E) as (n'&Hn'&Htn). rewrite (NoDup_lookup _ _ _ _ Hnd Htn Ht), Hj in Hn'.
        injection Hn' as <-. by rewrite (Hno x j Hx Hjx) in E.
    + apply (put_merged σ l i _ _ w j j'); try done; [by exists c|]. intros x. rewrite Hgo, Ha.
      split; [intros [?|?]; [done|by exists c]|by left].
  - unfold new_cell_equiv. rewrite (representative_ok max_equivalents σ l i Hi Hok). cbn [mbind option_bind].
    do 2 eexists. split; [reflexivity|]. split.
    + exists (rt (m_rep i) :: ts). split; [|by constructor]. constructor; [|done].
      split; [done|]. split; [apply NoDup_singleton|]. split; [intros x ->%list_elem_of_singleton; by exists i|].
      by intros x y ix iy ->%list_elem_of_singleton ->%list_elem_of_singleton.
    + apply put_shared.
      * intros x. rewrite held_cons. cbn [edge_container]. rewrite list_elem_of_singleton. tauto.
      * intros x j (d&Hd&Hx) Hjx. destruct (equal_to (m_rep j) (m_rep i)) eqn:E; [|done].
        destruct (Hroot x j d Hd Hx Hjx E) as (n'&_&Htn). destruct Hf. by eapply list_elem_of_lookup_2.
Qed.

(** ** The chart *)

(** The cells of every span are well formed. *)
Definition chart_typed σ ch : Prop := forall k cs, span_container ch !! k = Some cs -> cells_ok σ k cs.

(** The chart has an equivalence for the edge that is not worse. *)
Definition kept σ ch k e : Prop := exists l j, in_chart ch k l /\ σ !! l = Some j /\ equiv_ok σ j /\
  equal_to (m_rep j) e = true /\ score_lt (inside (m_rep j)) (inside e) = false.

(** Only the span [k] of the chart changes, and nothing in it is lost. *)
Record chart_grows k σ ch σ' ch' : Prop := {
  cg_typed : chart_typed σ' ch';
  cg_store : improves σ σ';
  cg_right : max_span_rt ch' = max_span_rt ch;
  cg_dom : dom (span_container ch') = dom (span_container ch);
  cg_other k' : k' <> k -> span_container ch' !! k' = span_container ch !! k';
  cg_members l : in_chart ch k l -> in_chart ch' k l
}.

Lemma chart_grows_refl k σ ch : chart_typed σ ch -> chart_grows k σ ch σ ch.
Proof. intros Ht. split; try done. apply (improves_refl max_equivalents). Qed.

Lemma chart_grows_trans k σ ch σ1 ch1 σ2 ch2 : chart_grows k σ ch σ1 ch1 -> chart_grows k σ1 ch1 σ2 ch2 -> chart_grows k σ ch σ2 ch2.
Proof.
  intros [A1 A2 A3 A4 A5 A6] [B1 B2 B3 B4 B5 B6]. split; try congruence; try done.
  - by apply (improves_trans max_equivalents _ σ1).
  - intros k' Hk. by rewrite B5, A5.
  - auto.
Qed.

Lemma kept_grows k σ ch σ' ch' e : chart_grows k σ ch σ' ch' -> kept σ ch k e -> kept σ' ch' k e.
Proof.
  intros Hg (l&j&Hl&Hj&Hok&He&Hs). destruct (im_at _ _ _ (cg_store _ _ _ _ _ Hg) l j Hj Hok) as (j'&Hj'&Hok'&He'&Hs').
  exists l, j'. split; [by apply (cg_members _ _ _ _ _ Hg)|]. split; [done|]. split; [done|].
  split; [|exact (sw_negtrans _ _ _ Hs' Hs)]. eauto using equal_to_trans, equal_to_sym.
Qed.

Lemma member_typed σ ch k l : chart_typed σ ch -> in_chart ch k l ->
  exists i, σ !! l = Some i /\ equiv_ok σ i /\ span_key (spn (m_rep i)) = k.
Proof. intros Ht (cs&Hcs&Hl). exact (held_key max_equivalents σ k cs l (Ht k cs Hcs) Hl). Qed.

Lemma member_kept σ ch k l i : chart_typed σ ch -> in_chart ch k l -> σ !! l = Some i -> kept σ ch k (m_rep i).
Proof.
  intros Ht Hl Hi. destruct (member_typed σ ch k l Ht Hl) as (i'&Hi'&Hok&_). rewrite Hi in Hi'. injection Hi' as <-.
  exists l, i. split; [done|]. split; [done|]. split; [done|]. split; [apply equal_to_refl|apply sw_irrefl].
Qed.

Lemma merged_not_worse i j j' : m_rep j' = best_edge (m_rep j) (edges_of i) -> equiv_empty i = false ->
  score_lt (inside (m_rep j')) (inside (m_rep j)) = false /\ score_lt (inside (m_rep j')) (inside (m_rep i)) = false.
Proof.
  intros -> Hne. pose proof (best_edge_best (m_rep j) (edges_of i)) as Hb. apply Forall_cons in Hb as [Hj Hi].
  split; [done|]. unfold edges_of in *. rewrite Hne in *. destruct (m_alts i); by apply Forall_cons in Hi as [Hi _].
Qed.

Lemma chart_insert_equiv_ok σ l i ch : chart_typed σ ch -> σ !! l = Some i -> equiv_ok σ i ->
  let k := span_key (spn (m_rep i)) in
  is_Some (span_container ch !! k) -> ~ in_chart ch k l ->
  exists σ' ch', chart_insert_equiv σ l ch = Some (σ', ch') /\ chart_grows k σ ch σ' ch' /\ kept σ' ch' k (m_rep i) /\
    equiv_put σ l i (in_chart ch k) (in_chart ch' k) σ'.
Proof.
  intros Ht Hi Hok k [cs Hcs] Hl. unfold Chart.chart_insert_equiv. rewrite Hi. cbn [mbind option_bind]. fold k. rewrite Hcs.
  cbn [mbind option_bind].
  destruct (span_insert_equiv_ok σ l i k cs (Ht k cs Hcs) Hi Hok eq_refl) as (σ'&cs'&->&Hcs'&Hput); [intros Hx; apply Hl; by exists cs|].
  cbn [mbind option_bind fst snd]. do 2 eexists. split; [reflexivity|]. set (ch' := mk_chart _ _).
  assert (Hin : forall x, in_chart ch' k x <-> held cs' x).
  { intros x. unfold in_chart, ch'. cbn [span_container]. rewrite lookup_insert_eq. split; [by intros (?&[= <-]&?)|eauto]. }
  assert (Hin0 : forall x, in_chart ch k x <-> held cs x).
  { intros x. unfold in_chart. rewrite Hcs. split; [by intros (?&[= <-]&?)|eauto]. }
  assert (Hput' : equiv_put σ l i (in_chart ch k) (in_chart ch' k) σ').
  { destruct Hput as [Ha Hno|w j j' Hb Hw He Hm Hr Hwr Ha].
    - apply put_shared; [intros x; by rewrite Hin, Hin0|]. intros x j Hx%Hin0. by apply Hno.
    - apply (put_merged σ l i _ _ w j j'); try done; [by apply Hin0|]. intros x. by rewrite Hin, Hin0. }
  assert (Him : improves σ σ').
  { destruct Hput as [|w j j' _ Hw _ _ Hr Hwr _]; [apply (improves_refl max_equivalents)|].
    apply (improves_write max_equivalents); [done|]. intros j2 Hj2. rewrite Hw in Hj2. injection Hj2 as <-.
    by destruct (merged_not_worse i j j' Hr (proj1 (proj1 Hok))). }
  assert (Hg : chart_grows k σ ch σ' ch').
  { split; [|done|done|cbn; by rewrite dom_insert_lookup_L by (by eexists)| |].
    - intros k' cs2. unfold ch'. cbn [span_container]. destruct (decide (k' = k)) as [->|Hk].
      + rewrite lookup_insert_eq. by intros [= <-].
      + rewrite lookup_insert_ne by done. intros Hd. by apply (cells_ok_improves σ), Ht.
    - intros k' Hk. unfold ch'. cbn [span_container]. by rewrite lookup_insert_ne.
    - intros x Hx. destruct Hput' as [Ha _|? ? ? _ _ _ _ _ _ Ha]; apply Ha; [by left|done]. }
  split; [done|]. split; [|done]. destruct Hput' as [Ha _|w j j' Hb Hw He _ Hr Hwr Ha].
  - apply (member_kept σ ch' k l i (cg_typed _ _ _ _ _ Hg)); [apply Ha; by right|done].
  - exists w, j'. rewrite lookup_insert_eq. split; [by apply Ha|]. split; [done|].
    split; [apply equiv_ok_write; [done|apply Hwr]|]. split; [|by destruct (merged_not_worse i j j' Hr (proj1 (proj1 Hok)))].
    apply (equal_to_trans _ (m_rep j)); [|done]. apply equal_to_sym. by apply Hwr.
Qed.
Lemma kept_le σ ch k e e' : kept σ ch k e' -> equal_to e e' = true -> score_lt (inside e') (inside e) = false -> kept σ ch k e.
Proof.
  intros (l&j&Hl&Hj&Hok&He&Hs) Hee Hle. exists l, j. split; [done|]. split; [done|]. split; [done|].
  split; [eauto using equal_to_trans, equal_to_sym|exact (sw_negtrans _ _ _ Hs Hle)].
Qed.

(** ** The members of a span *)

Definition span_members s ch : list positive := chart_cells s ch ≫= edge_container.

Lemma held_members cs l : held cs l <-> l ∈ cs ≫= edge_container.
Proof.
  rewrite list_elem_of_bind. split; intros (c&?&?); by exists c.
Qed.

Lemma in_chart_members s ch l : in_chart ch (span_key s) l <-> l ∈ span_members s ch.
Proof.
  unfold in_chart, span_members, chart_cells. rewrite <- held_members.
  destruct (span_container ch !! span_key s) as [cs|]; cbn [default].
  - split; [by intros (?&[= <-]&?)|by exists cs].
  - split; [by intros (?&?&_)|by intros (c&Hc%elem_of_nil&_)].
Qed.

Lemma cells_members_NoDup σ k ts cs : Forall2 (cell_ok σ k) ts cs -> NoDup ts -> NoDup (cs ≫= edge_container).
Proof.
  induction 1 as [|t c ts cs Hc Hcs IH]; [constructor|]. intros [Ht Hts]%NoDup_cons.
  change (NoDup (edge_container c ++ (cs ≫= edge_container))). pose proof Hc as (_&Hnd&Hcl&_). apply NoDup_app.
  split; [done|]. split; [|by apply IH].
  intros l Hl (d&Hld&[n Hn]%list_elem_of_lookup)%list_elem_of_bind.
  destruct (Hcl l Hl) as (i&Hi&_&_&Hrt). destruct (Forall2_lookup_r _ _ _ _ _ Hcs Hn) as (t'&Ht'&(_&_&Hdl&_)).
  destruct (Hdl l Hld) as (i'&Hi'&_&_&Hrt'). rewrite Hi in Hi'. injection Hi' as <-. apply Ht.
  rewrite <- Hrt, Hrt'. by eapply list_elem_of_lookup_2.
Qed.

Lemma members_NoDup σ s ch : chart_typed σ ch -> NoDup (span_members s ch).
Proof.
  intros Ht. unfold span_members, chart_cells. destruct (span_container ch !! span_key s) as [cs|] eqn:E; [|constructor].
  destruct (Ht _ _ E) as (ts&Hts&Hnd). by eapply cells_members_NoDup.
Qed.

(** Equivalences of one span, no two equivalent. *)
Definition at_key σ k l : Prop := exists i, σ !! l = Some i /\ equiv_ok σ i /\ span_key (spn (m_rep i)) = k.
Definition distinct σ (ls : list positive) : Prop := forall x y i j, x ∈ ls -> y ∈ ls ->
  σ !! x = Some i -> σ !! y = Some j -> equal_to (m_rep i) (m_rep j) = true -> x = y.

Lemma members_distinct σ s ch : chart_typed σ ch -> distinct σ (span_members s ch).
Proof.
  intros Ht x y i j (cs&Hcs&Hx)%in_chart_members (cs'&Hcs'&Hy)%in_chart_members. rewrite Hcs in Hcs'. injection Hcs' as <-.
  intros Hi Hj He. exact (held_unique max_equivalents σ (span_key s) cs x y i j (Ht _ _ Hcs) Hx Hy Hi Hj He).
Qed.

Lemma at_key_improves σ σ' k l : improves σ σ' -> at_key σ k l -> at_key σ' k l.
Proof.
  intros Him (i&Hi&Hok&<-). destruct (im_at _ _ _ Him l i Hi Hok) as (i'&Hi'&Hok'&(_&E&_)%equal_to_spec&_).
  exists i'. split; [done|]. split; [done|by rewrite E].
Qed.

Lemma distinct_improves σ σ' k ls : improves σ σ' -> Forall (at_key σ k) ls -> distinct σ ls -> distinct σ' ls.
Proof.
  intros Him Hls Hd x y i' j' Hx Hy Hi' Hj' He. rewrite Forall_forall in Hls.
  destruct (Hls x Hx) as (i&Hi&Hoki&_), (Hls y Hy) as (j&Hj&Hokj&_). apply (Hd x y i j Hx Hy Hi Hj).
  destruct (im_at _ _ _ Him x i Hi Hoki) as (i2&Hi2&_&E1&_). rewrite Hi' in Hi2. injection Hi2 as <-.
  destruct (im_at _ _ _ Him y j Hj Hokj) as (j2&Hj2&_&E2&_). rewrite Hj' in Hj2. injection Hj2 as <-.
  eauto using equal_to_trans, equal_to_sym.
Qed.

(** ** New members

    An equivalence without an equivalent one in the chart is added, and nothing is
    written. *)
Lemma chart_insert_new ls σ l k ch : chart_typed σ ch -> Forall (at_key σ k) ls -> distinct σ ls ->
  (forall x, in_chart ch k x -> x ∈ ls) -> l ∈ ls -> ~ in_chart ch k l -> is_Some (span_container ch !! k) ->
  exists ch', chart_insert_equiv σ l ch = Some (σ, ch') /\ chart_grows k σ ch σ ch' /\
    forall x, in_chart ch' k x <-> in_chart ch k x \/ x = l.
Proof.
  intros Ht Hls Hd Hsub Hl Hno Hk. rewrite Forall_forall in Hls. destruct (Hls l Hl) as (i&Hi&Hok&<-).
  destruct (chart_insert_equiv_ok σ l i ch Ht Hi Hok Hk Hno) as (σ'&ch'&Hrun&Hg&_&Hput). exists ch'.
  destruct Hput as [Hafter _|w j j' Hw Hj He _ _ _ _]; [done|].
  exfalso. apply Hno. by rewrite <- (Hd w l j i (Hsub w Hw) Hl Hj Hi He).
Qed.

Lemma chart_find_typed σ ch e : chart_typed σ ch -> is_Some (span_container ch !! span_key (spn e)) ->
  match chart_find σ e ch with
  | None => False
  | Some None => True
  | Some (Some l) => exists i, in_chart ch (span_key (spn e)) l /\ σ !! l = Some i /\ equal_to (m_rep i) e = true
  end.
Proof.
  intros Ht [cs Hcs]. unfold chart_find. rewrite Hcs. cbn [mbind option_bind].
  pose proof (span_find_spec max_equivalents σ _ e cs (Ht _ _ Hcs)) as Hf. destruct (span_find σ e cs) as [[l|]|]; [|done|done].
  destruct Hf as (i&Hl&Hi&He). exists i. split; [by exists cs|done].
Qed.

(** ** A span that is cleared *)

(** Only the span [k] of the chart changes. *)
Record span_changes k σ ch σ' ch' : Prop := {
  sc_typed : chart_typed σ' ch';
  sc_store : improves σ σ';
  sc_right : max_span_rt ch' = max_span_rt ch;
  sc_dom : dom (span_container ch') = dom (span_container ch);
  sc_other k' : k' <> k -> span_container ch' !! k' = span_container ch !! k'
}.

Lemma grows_changes k σ ch σ' ch' : chart_grows k σ ch σ' ch' -> span_changes k σ ch σ' ch'.
Proof. by intros []. Qed.

Lemma span_changes_trans k σ ch σ1 ch1 σ2 ch2 : span_changes k σ ch σ1 ch1 -> span_changes k σ1 ch1 σ2 ch2 -> span_changes k σ ch σ2 ch2.
Proof.
  intros [A1 A2 A3 A4 A5] [B1 B2 B3 B4 B5]. split; try congruence; try done.
  - by apply (improves_trans max_equivalents _ σ1).
  - intros k' Hk. by rewrite B5, A5.
Qed.

(** The store alone. *)
Lemma span_changes_store k σ ch σ' : chart_typed σ ch -> improves σ σ' -> span_changes k σ ch σ' ch.
Proof. intros Ht Him. split; try done. intros k' cs Hcs. by apply (cells_ok_improves σ), Ht. Qed.

Lemma span_kept k σ ch σ' ch' : span_changes k σ ch σ' ch' -> is_Some (span_container ch !! k) -> is_Some (span_container ch' !! k).
Proof. intros [_ _ _ Hd _]. rewrite <- !elem_of_dom. by rewrite Hd. Qed.

Lemma chart_clear_span_ok s σ ch : chart_typed σ ch -> is_Some (span_container ch !! span_key s) ->
  exists ch', chart_clear_span s ch = Some ch' /\ span_changes (span_key s) σ ch σ ch' /\ forall l, ~ in_chart ch' (span_key s) l.
Proof.
  intros Ht [cs Hcs]. unfold chart_clear_span. rewrite Hcs. cbn [mbind option_bind]. eexists. split; [done|]. split; [split|].
  - intros k' cs'. cbn [span_container]. destruct (decide (k' = span_key s)) as [->|Hk].
    + rewrite lookup_insert_eq. intros [= <-]. exists []. split; [constructor|constructor].
    + rewrite lookup_insert_ne by done. apply Ht.
  - apply (improves_refl max_equivalents).
  - done.
  - cbn. by rewrite dom_insert_lookup_L by (by eexists).
  - intros k' Hk. cbn [span_container]. by rewrite lookup_insert_ne.
  - intros l (cs'&Hcs'&c&Hc&_). cbn [span_container] in Hcs'. rewrite lookup_insert_eq in Hcs'. injection Hcs' as <-.
    by apply elem_of_nil in Hc.
Qed.
End chart_equiv.
