(* ===== verification/EquivSet.v ===== *)
(** Hash tables of equivalences by their representatives:
    [oa_hashtable< edge_equivalence<ET>, representative_edge<ET> >], the [equiv_set_t] of
    src/sbmt_decoder/include/sbmt/search/unary_applications.hpp.

    The elements are references; a table stays good when the objects change, as long as
    each stays equivalent to what it was.  [base] is the part of the store that has
    the elements. *)
From S2P Require Import Prelude Span OaTable OaHashtable PriorityTable PriorityQueue TokenStorage Token Edge EdgeEquivalence EdgeQueue.
Open Scope Z_scope.

Section equiv_set.
Context {score info_type : Type} `{!ScoreOps score, !ScoreZero score, !InfoOps info_type}.
Context `{!Inhabited score, !Inhabited info_type}.
Abbreviation edge := (edge score info_type).
Abbreviation store := (equiv_store score info_type).
Context `{!StdAlgorithms (alt_edge score), HC : !HashCombine}.
Context (hash_token : indexed_token -> Z) (hash_span : span_t -> Z) (max_equivalents : Z).
Implicit Types (σ base : store) (e r : edge) (l : positive) (set : oa_hashtable positive) (ls : list positive).

#[local] Instance edge_hash_key : HashKey edge := edge_key hash_token hash_span.

Definition set_insert σ l set : option (result (Z * bool * oa_hashtable positive)) :=
  ht_insert (representative_edge σ) l set.
Definition set_find σ e set : option Z := ht_find (representative_edge σ) e set.

(** * Lemmas *)

Section laws.
Context `{!StdAlgorithmLaws (alt_edge score), !InfoLaws info_type, !StrictWeak (score_lt (S := score)), !ScoreZeroLaws score}.
Abbreviation equiv_ok := (equiv_ok max_equivalents).
Abbreviation writes := (writes max_equivalents).
#[local] Instance edge_hash_key_laws : HashKeyLaws edge := edge_key_laws hash_token hash_span.

Definition alive base l : Prop := exists i, base !! l = Some i /\ equiv_ok base i.

(** A table of the elements [ls] after at most [n] insertions. *)
Record set_holds (n : Z) base set ls : Prop := {
  sh_table : exists slots, ht_ok (representative_edge base) set slots /\ held slots ≡ₚ ls;
  sh_usage : pq_usage n set;
  sh_alive : Forall (alive base) ls
}.

Lemma alive_rep base σ l : base ⊆ σ -> alive base l -> representative_edge σ l = representative_edge base l.
Proof.
  intros Hb (i&Hi&_). by rewrite (representative_edge_lookup base l i Hi), (representative_edge_lookup σ l i) by by eapply lookup_weaken.
Qed.

Lemma alive_write base l i x : writes base l i -> alive base x -> alive (<[l := i]> base) x.
Proof.
  intros Hw (j&Hj&Hok). destruct (writes_lookup max_equivalents base l i x j Hw Hj Hok) as (j'&?&?&_). by exists j'.
Qed.

Lemma set_new base : exists set, oa_hashtable_default 0 = Some (Ok set) /\ set_holds 0 base set [].
Proof.
  destruct (default_table_ok (representative_edge base)) as (set&Hs&(slots&Hok&Hh)&Hu). exists set. split; [done|].
  split; [|done|constructor]. exists slots. split; [done|by rewrite Hh].
Qed.

(** The table seen from a larger store. *)
Lemma set_table_ext n base σ set ls : base ⊆ σ -> set_holds n base set ls ->
  exists slots, ht_ok (representative_edge σ) set slots /\ held slots ≡ₚ ls.
Proof.
  intros Hb [(slots&Hok&Hp) _ Ha]. exists slots. split; [|done]. apply (ht_ok_ext (representative_edge base)); [|done].
  intros l Hl. rewrite Hp in Hl. rewrite Forall_forall in Ha. symmetry. by apply alive_rep, Ha.
Qed.

Lemma set_holds_le n n' base set ls : n <= n' -> set_holds n base set ls -> set_holds n' base set ls.
Proof. intros Hn [H1 H2 H3]. split; [done|by eapply pq_usage_le|done]. Qed.

Lemma set_holds_subseteq n base base' set ls : base ⊆ base' -> (forall i, equiv_ok base i -> equiv_ok base' i) ->
  set_holds n base set ls -> set_holds n base' set ls.
Proof.
  intros Hb Hok Hs. split; [by eapply set_table_ext|apply Hs|].
  eapply Forall_impl; [apply Hs|]. intros l (i&Hi&?). exists i. split; [by eapply lookup_weaken|by apply Hok].
Qed.

(** An object is written. *)
Lemma set_holds_write n base set ls l i : writes base l i -> set_holds n base set ls -> set_holds n (<[l := i]> base) set ls.
Proof.
  intros Hw [(slots&Hok&Hp) Hu Ha]. rewrite Forall_forall in Ha. split; [|done|].
  - exists slots. split; [|done]. apply (ht_ok_equal_keys (representative_edge base)); [|done].
    intros x Hx. rewrite Hp in Hx. destruct (Ha x Hx) as (j&Hj&Hj').
    destruct (writes_lookup max_equivalents base l i x j Hw Hj Hj') as (j'&Hj2&_&He).
    by rewrite (representative_edge_lookup _ _ _ Hj), (representative_edge_lookup _ _ _ Hj2).
  - apply Forall_forall. intros x Hx. apply alive_write; [done|by apply Ha].
Qed.

Lemma set_empty n base set ls : set_holds n base set ls -> ht_empty set = match ls with [] => true | _ => false end.
Proof.
  intros [(slots&([Ht _ _]&_&_)&Hp) _ _]. unfold ht_empty. rewrite (to_occ _ _ Ht), (held_occupied _ (to_slots _ _ Ht)).
  apply Permutation_length in Hp. rewrite Hp. by destruct ls.
Qed.

Lemma set_values n base set ls : set_holds n base set ls -> exists ls', table_values (tbl set) = Some ls' /\ ls' ≡ₚ ls.
Proof.
  intros [(slots&([Ht _ _]&_&_)&Hp) _ _]. exists (held slots). by rewrite (table_values_held_eq _ _ Ht).
Qed.

(** No two elements are equivalent. *)
Lemma set_inequivalent n base set ls : set_holds n base set ls -> inequivalent (representative_edge base <$> ls).
Proof.
  intros [(slots&(Hh&_&_)&Hp) _ _]. pose proof (hash_table_distinct _ _ _ Hh) as Hd.
  apply (inequivalent_perm (representative_edge base <$> held slots)); [by rewrite Hp|].
  clear Hh Hp. revert Hd. induction (held slots) as [|l ls' IH]; [done|]. intros [Hl Hd].
  split; [|by apply IH]. intros r (w&->&Hw)%list_elem_of_fmap. by apply Hl.
Qed.

(** An iterator to an element is not the end. *)
Lemma set_iterator n base set ls it l : set_holds n base set ls -> iterator_dereference (tbl set) it = Some l ->
  exists last, ht_end set = Some last /\ it <> last.
Proof.
  intros [(slots&([Ht _ _]&_&_)&_) _ _] Hd. destruct (dereference_slot _ _ _ _ Ht Hd) as (i&Hi&Hs).
  apply lookup_lt_Some in Hs. unfold ht_end. rewrite (table_end_eq _ _ Ht). eexists. split; [done|].
  pose proof (to_size _ _ Ht). lia.
Qed.

(** An element that is equivalent to the edge [e]. *)
Definition has_class base ls e : Prop :=
  exists l i, l ∈ ls /\ base !! l = Some i /\ equiv_ok base i /\ equal_to (m_rep i) e = true.

Lemma set_find_ok n base σ set ls e : base ⊆ σ -> set_holds n base set ls ->
  exists pos last, set_find σ e set = Some pos /\ ht_end set = Some last /\
    ((pos <> last /\ exists l i, l ∈ ls /\ base !! l = Some i /\ equiv_ok base i /\ equal_to (m_rep i) e = true /\
        iterator_dereference (tbl set) pos = Some l) \/
     (pos = last /\ forall l, l ∈ ls -> equal_to (representative_edge base l) e = false)).
Proof.
  intros Hb Hs. destruct (set_table_ext n base σ set ls Hb Hs) as (slots&Hok&Hp). pose proof (sh_alive _ _ _ _ Hs) as Ha.
  rewrite Forall_forall in Ha. unfold set_find.
  destruct (ht_find_spec (representative_edge σ) set slots e Hok) as [(l&pos&Hl&He&Hf&_&Hd)|(Hno&Hf&Hend)].
  - rewrite Hp in Hl. destruct (Ha l Hl) as (i&Hi&Hi'). destruct (set_iterator n base set ls pos l Hs Hd) as (last&Hlast&Hne).
    exists pos, last. split; [done|]. split; [done|]. left. split; [done|]. exists l, i. split; [done|]. split; [done|].
    split; [done|]. split; [|done]. cbn in He. rewrite (representative_edge_lookup σ l i) in He; [done|by eapply lookup_weaken].
  - destruct (ht_end set) as [last|]; [|done]. exists last, last. split; [done|]. split; [done|]. right. split; [done|].
    intros l Hl. rewrite <- (alive_rep base σ) by auto. apply Hno. by rewrite Hp.
Qed.

Lemma set_insert_ok n base σ set ls l i : base ⊆ σ -> set_holds n base set ls -> n < pq_limit ->
  base !! l = Some i -> equiv_ok base i ->
  exists pos b set' ls', set_insert σ l set = Some (Ok (pos, b, set')) /\ set_holds (n + 1) base set' ls' /\
    (exists w, w ∈ ls' /\ iterator_dereference (tbl set') pos = Some w /\ equal_to (representative_edge base w) (m_rep i) = true) /\
    ((exists w, w ∈ ls /\ equal_to (representative_edge base w) (m_rep i) = true) /\ set' = set /\ ls' = ls \/
     (forall w, w ∈ ls -> equal_to (representative_edge base w) (m_rep i) = false) /\ ls' = l :: ls).
Proof.
  intros Hb Hs Hn Hi Hok. destruct (set_table_ext n base σ set ls Hb Hs) as (slots&Htab&Hp).
  pose proof (sh_alive _ _ _ _ Hs) as Ha. rewrite Forall_forall in Ha.
  destruct (pq_usage_room n set Hn (sh_usage _ _ _ _ Hs)) as (s&Hg&Hroom).
  assert (Hl : representative_edge σ l = m_rep i) by (apply representative_edge_lookup; by eapply lookup_weaken).
  assert (Hli : representative_edge base l = m_rep i) by by apply representative_edge_lookup.
  unfold set_insert. destruct (ht_insert_spec (representative_edge σ) set slots l s Htab Hg)
    as [(w&it&Hw&He&->&Hd)|(Hno&[[Hs' _]|(it&set'&slots'&->&Hok'&Hp'&Hlf&Hd&Hgr)])]; [|lia|].
  - rewrite Hp in Hw. cbn in He. rewrite Hl, (alive_rep base σ) in He by auto.
    exists it, false, set, ls. split; [done|]. split; [eapply set_holds_le; [|done]; lia|].
    split; [by exists w|]. left. split; [by exists w|done].
  - exists it, true, set', (l :: ls). split; [done|].
    assert (Ha' : Forall (alive base) (l :: ls)) by (constructor; [by exists i|by apply Forall_forall]).
    split; [split|].
    + exists slots'. split; [|by rewrite Hp', Hp]. apply (ht_ok_ext (representative_edge σ)); [|done].
      intros x Hx. rewrite Hp', Hp in Hx. rewrite Forall_forall in Ha'. by apply alive_rep, Ha'.
    + eapply pq_usage_grown; [exact Hlf|exact Hgr|apply Hs].
    + done.
    + split; [exists l; split; [left|split; [done|rewrite Hli; apply equal_to_refl]]|].
      right. split; [|done]. intros w Hw. rewrite <- (alive_rep base σ) by auto. rewrite <- Hl. apply Hno. by rewrite Hp.
Qed.
End laws.
End equiv_set.
