(* ===== verification/UnaryApplications.v ===== *)
(** The unary rules of a span, applied in an order without cycles:
    [unary_applications] (src/sbmt_decoder/include/sbmt/search/unary_applications.hpp).

    A depth-first search makes a graph of edges, the start edges first: when a vertex is
    discovered the unary rules are applied to it, and what they make are its
    successors, unless they are on the way to it.  The graph is then sorted and the
    rules are applied again, now to all equivalent edges at once.  The graph
    algorithms are Boost's ([GraphSearch]). *)
From S2P Require Import Prelude Span OaTable OaHashtable PriorityTable PriorityQueue TokenStorage Token Edge EdgeEquivalence EdgeQueue FilterPredicate EdgeFilter Generator RuleMap SpanFilter GraphSearch UnaryFilter EquivSet.
Open Scope Z_scope.

Section unary_applications.
Context {score info_type R G : Type} `{!ScoreOps score, !ScoreZero score, !InfoOps info_type}.
Context `{!Inhabited score, !Inhabited info_type}.
Abbreviation edge := (edge score info_type).
Abbreviation store := (equiv_store score info_type).
Abbreviation factory := (edge_factory score).
Context `{!GrammarOps R score edge store G, !Generator G (info_type * score * score)}.
Context `{!StdAlgorithms (alt_edge score), !StdAlgorithms (R * score), !StdAlgorithms positive, HC : !HashCombine}.
Context `{!GraphAlgorithms}.
Context (hash_token : indexed_token -> Z) (hash_span : span_t -> Z) (max_equivalents : Z).

(** The grammar's rule by its number. *)
Context (grammar_rule : Z -> R).
Context {F : Type} `{!UnaryFilter (score := score) (info_type := info_type) (R := R) F}.
Implicit Types (σ : store) (e : edge) (r : R) (f : F).

Abbreviation rhs_map_t := (sorted_rhs_map (score := score) (R := R)).
Abbreviation rules := (rules rule_rhs_size rule_rhs).
Abbreviation toplevel_rules := (toplevel_rules rule_rhs_size rule_rhs).
Context (rhs_map : rhs_map_t) (toplevel : bool).

(** * The graph

    A vertex is its place in the list of vertices; it has an equivalence for a name, and
    its out-edges have rules for names.  [depth] is the counter that the two visitors
    share. *)

Record vertex := mk_vertex { vertex_name : positive; vertex_out : list (nat * R) }.

Record dag_state := mk_dag {
  dag_store : store;
  dag_factory : factory;
  dag_filter : F;
  graph : list vertex;
  vertex_map : list (edge * nat);
  color_map : gmap nat color;
  depth : nat
}.
Implicit Types s : dag_state.

Definition maxdepth : nat := 2.

Definition set_color_map (m : gmap nat color) s : dag_state :=
  mk_dag (dag_store s) (dag_factory s) (dag_filter s) (graph s) (vertex_map s) m (depth s).
Definition set_depth (d : nat) s : dag_state :=
  mk_dag (dag_store s) (dag_factory s) (dag_filter s) (graph s) (vertex_map s) (color_map s) d.
Definition put_filter f s : dag_state :=
  mk_dag (dag_store s) (dag_factory s) f (graph s) (vertex_map s) (color_map s) (depth s).

(** [get] and [put] of the color map; a [std::map] makes a missing color, which is
    white. *)
Definition color_of s (v : nat) : color := default white (color_map s !! v).
Definition put_color (v : nat) (c : color) s : dag_state := set_color_map (<[v := c]> (color_map s)) s.

(** [vmap.find(e)] *)
Definition find_vertex e (m : list (edge * nat)) : option nat :=
  snd ∘ snd <$> list_find (fun x => equal_to x.1 e = true) m.

Definition vertex_for_et e s : nat * dag_state :=
  match find_vertex e (vertex_map s) with
  | Some v => (v, s)
  | None =>
      let v := length (graph s) in
      let '(l, σ) := allocate (dag_store s) (pool_create e) in
      (v, mk_dag σ (dag_factory s) (dag_filter s) (graph s ++ [mk_vertex l []]) (vertex_map s ++ [(e, v)])
            (<[v := white]> (color_map s)) (depth s))
  end.

Definition add_edge_to_graph (v vv : nat) r s : dag_state :=
  mk_dag (dag_store s) (dag_factory s) (dag_filter s)
    (alter (fun x => mk_vertex (vertex_name x) (vertex_out x ++ [(vv, r)])) v (graph s))
    (vertex_map s) (color_map s) (depth s).

(** [creation_visitor::apply_rules]: the loop, with the number of edges an application
    makes as fuel, and the whole. *)
Fixpoint add_transitions (fuel : nat) (v : nat) s : option dag_state :=
  if uf_empty (dag_filter s) then Some s
  else
    match fuel with
    | O => None
    | S fuel =>
        e ← uf_top (dag_filter s);
        let r := grammar_rule (rule_id e) in
        let '(vv, s) := vertex_for_et e s in
        let s := if decide (color_of s vv = gray) then s else add_edge_to_graph v vv r s in
        f ← uf_pop (dag_filter s);
        add_transitions fuel v (put_filter f s)
    end.

Context (max_edges : nat).

Definition create_transitions (eq : positive) (v : nat) (rr : list R) s : option (result dag_state) :=
  '(σ, ef, f) ⇐ uf_apply_rules (dag_store s) (dag_factory s) eq rr (dag_filter s);
  s ← add_transitions max_edges v (mk_dag σ ef f (graph s) (vertex_map s) (color_map s) (depth s));
  Some (Ok s).

(** [assert(eq.size() == 1)] *)
Definition assert_single σ (eq : positive) : option unit :=
  q ← σ !! eq; assert_true (equiv_size q =? 1).

(** [creation_visitor::operator()] *)
Definition discover (v : nat) s : option (result dag_state) :=
  s ⇐ (if decide (depth s < maxdepth)%nat then
         x ← graph s !! v;
         let eq := vertex_name x in
         assert_single (dag_store s) eq ;;
         e ← representative (dag_store s) (Some eq);
         rr ← rules (array_key [rt e]) rhs_map;
         s ⇐ create_transitions eq v rr s;
         s ⇐ (if toplevel then
                rr ← toplevel_rules (array_key [rt e]) rhs_map;
                create_transitions eq v rr s
              else Some (Ok s));
         assert_single (dag_store s) eq ;;
         Some (Ok s)
       else Some (Ok s));
  Some (Ok (set_depth (depth s + 1) s)).

(** [finish_visitor::operator()] *)
Definition finish (v : nat) s : dag_state := set_depth (pred (depth s)) s.

Definition targets s (v : nat) : list nat := match graph s !! v with Some x => (vertex_out x).*1 | None => [] end.

Definition creation_visitor : graph_visitor dag_state :=
  mk_visitor (fun s => length (graph s)) targets color_of put_color discover finish.

(** * The equivalences

    [equiv_set] is a hash table of equivalences by their representatives. *)

Abbreviation equiv_set_t := (oa_hashtable positive).
Abbreviation insert_edge := (insert_edge hash_token hash_span max_equivalents).
Abbreviation set_insert := (set_insert hash_token hash_span).
Abbreviation set_find := (set_find hash_token hash_span).

(** An edge is merged into its equivalence in place, or makes a new one. *)
Definition merge_edge σ e (set : equiv_set_t) : option (result (store * equiv_set_t)) :=
  epos ← set_find σ e set;
  last ← ht_end set;
  if epos =? last then
    let '(l, σ) := allocate σ (pool_create e) in
    '(_, _, set) ⇐ set_insert σ l set; Some (Ok (σ, set))
  else
    l ← iterator_dereference (tbl set) epos;
    q ← σ !! l;
    q ← insert_edge σ e q;
    Some (Ok (<[l := q]> σ, set)).

(** The loop over the edges that were made from a vertex, with their number as fuel. *)
Context (max_collected : nat).

Fixpoint collect_edges (fuel : nat) σ f (set : equiv_set_t) : option (result (store * F * equiv_set_t)) :=
  if uf_empty f then Some (Ok (σ, f, set))
  else
    match fuel with
    | O => None
    | S fuel =>
        e ← uf_top f;
        '(σ, set) ⇐ merge_edge σ e set;
        f ← uf_pop f;
        collect_edges fuel σ f set
    end.

(** The loop over the sorted vertices. *)
Definition apply_to_vertex (x : vertex) σ (ef : factory) f (set : equiv_set_t)
  : option (result (store * factory * F * equiv_set_t)) :=
  let eq := vertex_name x in
  e ← representative σ (Some eq);
  pos ← set_find σ e set;
  last ← ht_end set;
  '(pos, set) ⇐ (if pos =? last then '(pos, _, set) ⇐ set_insert σ eq set; Some (Ok (pos, set))
                 else Some (Ok (pos, set)));
  l ← iterator_dereference (tbl set) pos;
  '(σ, ef, f) ⇐ uf_apply_rules σ ef l (vertex_out x).*2 f;
  '(σ, f, set) ⇐ collect_edges max_collected σ f set;
  Some (Ok (σ, ef, f, set)).

Fixpoint apply_to_vertices (g : list vertex) (vs : list nat) σ (ef : factory) f (set : equiv_set_t)
  : option (result (store * factory * F * equiv_set_t)) :=
  match vs with
  | [] => Some (Ok (σ, ef, f, set))
  | v :: vs =>
      x ← g !! v;
      '(σ, ef, f, set) ⇐ apply_to_vertex x σ ef f set;
      apply_to_vertices g vs σ ef f set
  end.

Definition apply_in_order (g : list vertex) (target : nat -> list nat) σ (ef : factory) f (set : equiv_set_t)
  : option (result (store * factory * F * equiv_set_t)) :=
  sorted_vertices ← topological_sort (length g) target;
  apply_to_vertices g (rev sorted_vertices) σ ef f set.

(** * The constructor *)

Definition greater_edge_score σ (l l' : positive) : bool := score_lt (representative_score σ l') (representative_score σ l).

Fixpoint add_start_edges (start_edges : list positive) s (set : equiv_set_t) : option (result (dag_state * equiv_set_t)) :=
  match start_edges with
  | [] => Some (Ok (s, set))
  | l :: start_edges =>
      e ← representative (dag_store s) (Some l);
      let s := (vertex_for_et e s).2 in
      '(_, _, set) ⇐ set_insert (dag_store s) l set;
      add_start_edges start_edges s set
  end.

(** [create] is the filter that the factory makes. *)
Definition new_unary_applications (start_edges : list positive) σ (ef : factory) (create : F)
  : option (result (store * factory * equiv_set_t)) :=
  set ⇐ oa_hashtable_default 0;
  '(s, set) ⇐ add_start_edges (std_sort (greater_edge_score σ) start_edges) (mk_dag σ ef create [] [] ∅ 0) set;
  if negb (ht_empty set) then
    s ⇐ depth_first_search creation_visitor s;
    '(σ, ef, _, set) ⇐ apply_in_order (graph s) (targets s) (dag_store s) (dag_factory s) create set;
    Some (Ok (σ, ef, set))
  else Some (Ok (dag_store s, dag_factory s, set)).

(** [begin()] to [end()] *)
Definition unary_results (set : equiv_set_t) : option (list positive) := table_values (tbl set).

(** * The graph grows *)

Implicit Types (es : list edge) (base : store).
Abbreviation len s := (length (graph s)).

(** From [s] to [s'] edges out of [v] were added, and vertices that are among their
    targets. *)
Record extends (v : nat) s s' (k : nat) : Prop := {
  ex_len : (len s <= len s' <= len s + k)%nat;
  ex_old w : (w < len s)%nat -> color_of s' w = color_of s w /\ (w <> v -> targets s' w = targets s w);
  ex_new w : (len s <= w < len s')%nat -> color_of s' w = white /\ targets s' w = [] /\ w ∈ targets s' v;
  ex_out : exists new, targets s' v = targets s v ++ new /\ (length new <= k)%nat /\
    forall t, t ∈ new -> (t < len s')%nat /\ color_of s' t <> gray;
  ex_name w x : graph s !! w = Some x -> exists x', graph s' !! w = Some x' /\ vertex_name x' = vertex_name x;
  ex_depth : depth s' = depth s
}.

Lemma extends_refl v s k : extends v s s k.
Proof.
  split; [lia|done|intros w Hw; lia| |intros w x Hx; by exists x|done].
  exists []. rewrite app_nil_r. split; [done|]. split; [cbn; lia|by intros t ?%not_elem_of_nil].
Qed.

Lemma extends_trans v s s1 s2 k1 k2 : (v < len s)%nat -> extends v s s1 k1 -> extends v s1 s2 k2 -> extends v s s2 (k1 + k2).
Proof.
  intros Hv [A1 A2 A3 (n1&A4&A4l&A4t) A5 A6] [B1 B2 B3 (n2&B4&B4l&B4t) B5 B6]. split.
  - lia.
  - intros w Hw. destruct (A2 w Hw) as [<- Ha], (B2 w ltac:(lia)) as [-> Hb]. split; [done|].
    intros Hwv. by rewrite Hb, Ha.
  - intros w Hw. destruct (decide (w < len s1)%nat) as [Hlt|Hge]; [|apply B3; lia].
    destruct (A3 w ltac:(lia)) as (Hc&Ho&Hin), (B2 w Hlt) as [-> Hb]. rewrite Hb by lia.
    split; [done|]. split; [done|]. rewrite B4. apply elem_of_app. by left.
  - exists (n1 ++ n2). rewrite B4, A4, app_assoc, length_app. split; [done|]. split; [lia|].
    intros t [Ht|Ht]%elem_of_app; [|by apply B4t]. destruct (A4t t Ht) as [Htn Htc].
    destruct (B2 t Htn) as [-> _]. split; [lia|done].
  - intros w x Hx. destruct (A5 w x Hx) as (x1&Hx1&<-). by apply B5.
  - congruence.
Qed.

Lemma extends_le v s s' k k' : (k <= k')%nat -> extends v s s' k -> extends v s s' k'.
Proof.
  intros Hk [A1 A2 A3 (n1&A4&A4l&A4t) A5 A6]. split; try done; [lia|]. exists n1. split; [done|]. split; [lia|done].
Qed.

(** The store, the filter, the factory and the counter play no part. *)
Lemma extends_same v s s' s1 s1' k : graph s1 = graph s -> color_map s1 = color_map s -> depth s1 = depth s ->
  graph s1' = graph s' -> color_map s1' = color_map s' -> depth s1' = depth s' -> extends v s s' k -> extends v s1 s1' k.
Proof.
  intros E1 E2 E3 E4 E5 E6 [A1 A2 A3 A4 A5 A6]. unfold color_of, targets in *.
  split; unfold color_of, targets; rewrite ?E1, ?E2, ?E3, ?E4, ?E5, ?E6; done.
Qed.

Lemma add_edge_extends v vv r s : (v < len s)%nat -> (vv < len s)%nat -> color_of s vv <> gray ->
  extends v s (add_edge_to_graph v vv r s) 1.
Proof.
  intros Hv Hvv Hc. unfold add_edge_to_graph. split; cbn [graph depth]; rewrite ?length_alter.
  - lia.
  - intros w Hw. split; [done|]. intros Hwv. unfold targets. cbn [graph]. by rewrite list_lookup_alter_ne.
  - intros w Hw. lia.
  - exists [vv]. split; [|split; [done|]].
    + unfold targets. cbn [graph]. rewrite list_lookup_alter_eq. destruct (lookup_lt_is_Some_2 _ _ Hv) as [x ->].
      cbn [fmap option_fmap option_map vertex_out]. by rewrite fmap_app.
    + intros t ->%list_elem_of_singleton. done.
  - intros w x Hx. destruct (decide (w = v)) as [->|Hne].
    + rewrite list_lookup_alter_eq, Hx. by eexists.
    + rewrite list_lookup_alter_ne by done. by exists x.
  - done.
Qed.

(** A new vertex with an edge to it. *)
Lemma new_vertex_extends v l r s s1 vv : (v < len s)%nat -> vv = len s ->
  graph s1 = graph s ++ [mk_vertex l []] -> color_map s1 = <[vv := white]> (color_map s) -> depth s1 = depth s ->
  extends v s (add_edge_to_graph v vv r s1) 1.
Proof.
  intros Hv -> Hg Hc Hd. assert (Hlen : len s1 = (len s + 1)%nat) by (rewrite Hg, length_app; cbn; lia).
  assert (Hcol : forall w, color_of s1 w = if decide (w = len s) then white else color_of s w).
  { intros w. unfold color_of. rewrite Hc. case_decide; [subst; by rewrite lookup_insert_eq|by rewrite lookup_insert_ne]. }
  assert (Htar : forall w, targets s1 w = targets s w).
  { intros w. unfold targets. rewrite Hg. destruct (decide (w < len s)%nat) as [Hlt|Hge]; [by rewrite lookup_app_l|].
    rewrite (lookup_ge_None_2 (graph s)) by lia. destruct ((graph s ++ _) !! w) as [x|] eqn:E; [|done].
    rewrite lookup_app_r in E by lia. destruct (w - len s)%nat eqn:Ew; [|done]. by injection E as <-. }
  destruct (add_edge_extends v (len s) r s1) as [A1 A2 A3 (n1&A4&A4l&A4t) A5 A6]; [lia|lia|rewrite Hcol; by rewrite decide_True|].
  assert (Hlen2 : len (add_edge_to_graph v (len s) r s1) = (len s + 1)%nat) by (cbn [add_edge_to_graph graph]; by rewrite length_alter).
  set (s2 := add_edge_to_graph v (len s) r s1) in *. split.
  - rewrite Hlen2. lia.
  - intros w Hw. destruct (A2 w ltac:(lia)) as [-> Ho]. rewrite Hcol, decide_False by lia. split; [done|].
    intros Hwv. by rewrite Ho, Htar.
  - intros w Hw. assert (w = len s) as -> by lia. destruct (A2 (len s) ltac:(lia)) as [-> Ho]. rewrite Hcol, decide_True by done.
    rewrite Ho by lia. rewrite Htar. split; [done|]. split.
    + unfold targets. by rewrite (lookup_ge_None_2 (graph s)) by lia.
    + unfold s2, targets, add_edge_to_graph. cbn [graph]. rewrite list_lookup_alter_eq.
      destruct (lookup_lt_is_Some_2 (graph s1) v ltac:(lia)) as [x ->]. cbn [fmap option_fmap option_map vertex_out].
      rewrite fmap_app. apply elem_of_app. right. left.
  - exists n1. by rewrite A4, Htar.
  - intros w x Hx. apply A5. rewrite Hg. by apply lookup_app_l_Some.
  - by rewrite A6.
Qed.

(** * The invariant of the graph *)

Abbreviation equiv_ok := (equiv_ok max_equivalents).
Abbreviation edge_equiv_max := (edge_equiv_max max_equivalents).

Section graph_invariant.
Context `{!InfoLaws info_type}.
Context (sp : span_t) (base0 : store) (max_rules max_calls : nat) (holds : nat -> store -> store -> list edge -> F -> Prop).
Context `{!UnaryFilterLaws max_equivalents max_rules max_calls max_edges holds}.

Lemma holds_sub j base σ es f : holds j base σ es f -> base ⊆ σ.
Proof. apply UnaryFilterLaws0. Qed.
Lemma holds_write j base σ es f l i : holds j base σ es f -> σ !! l = None \/ is_Some (base !! l) ->
  writes max_equivalents σ l i -> holds j (<[l := i]> base) (<[l := i]> σ) es f.
Proof. apply UnaryFilterLaws0. Qed.

(** A rule that rewrites the token [t], and not to a word. *)
Definition rewrites (t : indexed_token) r : Prop :=
  rule_rhs r 0 = Some t /\ rule_rhs_size r = 1 /\ is_lexical (rule_lhs r) = false.

(** A constituent of the span [sp]: no word. *)
Definition constituent e : Prop := spn e = sp /\ is_lexical (rt e) = false.

Lemma constituent_equal e e' : equal_to e e' = true -> constituent e -> constituent e'.
Proof. intros (E1&E2&_)%equal_to_spec [H1 H2]. split; congruence. Qed.

(** The names of the vertices are equivalences of one edge, in the part [base] of the
    store that is not the filter's; the rules at their out-edges rewrite them. *)
Record graph_ok base s : Prop := {
  go_name v x : graph s !! v = Some x -> exists i, base !! vertex_name x = Some i /\ equiv_ok base i /\ m_alts i = [] /\ constituent (m_rep i) /\
    Forall (rewrites (rt (m_rep i))) (vertex_out x).*2;
  go_map e v : (e, v) ∈ vertex_map s -> (v < len s)%nat
}.

Definition dag_ok base (j : nat) es s : Prop := holds j base (dag_store s) es (dag_filter s) /\ graph_ok base s.

(** The token of a vertex. *)
Definition vertex_token base s (v : nat) (t : indexed_token) : Prop :=
  exists x i, graph s !! v = Some x /\ base !! vertex_name x = Some i /\ rt (m_rep i) = t.

Lemma graph_ok_grows base base' s s' : base ⊆ base' -> graph s' = graph s -> vertex_map s' = vertex_map s ->
  graph_ok base s -> graph_ok base' s'.
Proof.
  intros Hb Hg Hm [H1 H2]. split; rewrite Hg; [|by rewrite Hm]. intros v x Hx.
  destruct (H1 v x Hx) as (i&Hi&Hok&?). exists i. split; [by eapply lookup_weaken|]. split; [by eapply equiv_ok_subseteq|done].
Qed.

Lemma vertex_token_extends base base' v s s' k w t : base ⊆ base' -> extends v s s' k -> vertex_token base s w t ->
  vertex_token base' s' w t.
Proof.
  intros Hb He (x&i&Hx&Hi&Ht). destruct (ex_name _ _ _ _ He w x Hx) as (x'&Hx'&Hn). exists x', i. rewrite Hn.
  split; [done|]. split; [by eapply lookup_weaken|done].
Qed.

Lemma find_vertex_some e m v : find_vertex e m = Some v -> exists e', (e', v) ∈ m.
Proof.
  unfold find_vertex. destruct (list_find _ m) as [[j [e' v']]|] eqn:E; [|done]. intros [= <-].
  apply list_find_Some in E as (Hj&_). exists e'. by eapply list_elem_of_lookup_2.
Qed.

(** The vertex of an edge: one that was there, or a new one. *)
Lemma vertex_for_et_ok base j es s e : dag_ok base j es s -> edge_ok base e -> constituent e ->
  1 <= edge_equiv_max (pool_create e) ->
  exists vv s1, vertex_for_et e s = (vv, s1) /\ dag_filter s1 = dag_filter s /\
    ((vv < len s)%nat /\ s1 = s \/
     exists base' l, vv = len s /\ base ⊆ base' /\ dag_ok base' j es s1 /\
       graph s1 = graph s ++ [mk_vertex l []] /\ color_map s1 = <[vv := white]> (color_map s) /\ depth s1 = depth s).
Proof.
  intros [Hh Hg] He Hsp Hm. unfold vertex_for_et. destruct (find_vertex e (vertex_map s)) as [v|] eqn:E.
  { exists v, s. split; [done|]. split; [done|]. left. split; [|done]. destruct (find_vertex_some _ _ _ E) as [e' He'].
    by eapply go_map. }
  unfold allocate. set (l := fresh (dom (dag_store s))). pose proof (allocate_fresh (dag_store s)) as Hl. fold l in Hl.
  eexists _, _. split; [done|]. split; [done|]. right. exists (<[l := pool_create e]> base), l. split; [done|].
  assert (Hbl : base !! l = None) by (eapply lookup_weaken_None; [exact Hl|by eapply holds_sub]).
  assert (Hsub : base ⊆ <[l := pool_create e]> base) by by apply insert_subseteq.
  split; [done|]. split; [|done]. split; cbn [dag_store dag_filter].
  - apply holds_write; [done|by left|]. apply new_writes; [|done|done]. eapply edge_ok_subseteq; [|exact He]. by eapply holds_sub.
  - destruct Hg as [H1 H2]. split; cbn [graph vertex_map].
    + intros v x [Hx|[Hn Hx]]%lookup_app_Some.
      * destruct (H1 v x Hx) as (i&Hi&Hok&?). exists i. split; [by eapply lookup_weaken|]. split; [by eapply equiv_ok_subseteq|done].
      * apply list_lookup_singleton_Some in Hx as [_ <-]. exists (pool_create e). cbn [vertex_name vertex_out].
        rewrite lookup_insert_eq. split; [done|]. split; [|split; [done|split; [done|constructor]]].
        eapply equiv_ok_subseteq; [exact Hsub|]. by apply new_equiv_ok.
    + intros e' v Hin. rewrite length_app. cbn [length]. apply elem_of_app in Hin as [Hin|Hin]; [specialize (H2 _ _ Hin); lia|].
      apply list_elem_of_singleton in Hin. injection Hin as _ ->. lia.
Qed.

Lemma add_edge_ok base j es s v vv r t : dag_ok base j es s -> vertex_token base s v t -> rewrites t r ->
  dag_ok base j es (add_edge_to_graph v vv r s).
Proof.
  intros [Hh [H1 H2]] (x&i&Hx&Hi&Ht) Hr. split; [done|]. split; cbn [add_edge_to_graph graph vertex_map].
  - intros w y Hy. destruct (decide (w = v)) as [->|Hne].
    + rewrite list_lookup_alter_eq, Hx in Hy. injection Hy as <-. cbn [vertex_name vertex_out].
      destruct (H1 v x Hx) as (i'&Hi'&Hok&Ha&Hs&Hf). exists i'. split; [done|]. split; [done|]. split; [done|]. split; [done|].
      rewrite fmap_app. apply Forall_app. split; [done|]. constructor; [|constructor]. cbn [snd].
      rewrite Hi' in Hi. injection Hi as ->. by rewrite Ht.
    + rewrite list_lookup_alter_ne in Hy by done. by apply (H1 w).
  - intros e w Hin. rewrite length_alter. by eapply H2.
Qed.

(** An edge that was made by a rule for the token [t]. *)
Definition makes_vertex base (t : indexed_token) e : Prop :=
  edge_ok base e /\ constituent e /\ 1 <= edge_equiv_max (pool_create e) /\ rewrites t (grammar_rule (rule_id e)).

Lemma makes_vertex_subseteq base base' t e : base ⊆ base' -> makes_vertex base t e -> makes_vertex base' t e.
Proof. intros Hb (H1&H2&H3). split; [by eapply edge_ok_subseteq|done]. Qed.

(** One edge: its vertex, and an edge to it unless it is gray. *)
Lemma transition_ok base j es s v t e : dag_ok base j es s -> vertex_token base s v t -> (v < len s)%nat -> makes_vertex base t e ->
  exists vv s1 base', vertex_for_et e s = (vv, s1) /\ base ⊆ base' /\
    let s2 := if decide (color_of s1 vv = gray) then s1 else add_edge_to_graph v vv (grammar_rule (rule_id e)) s1 in
    dag_ok base' j es s2 /\ extends v s s2 1 /\ dag_filter s2 = dag_filter s.
Proof.
  intros Hs Ht Hv (He&Hsp&Hm&Hr). destruct (vertex_for_et_ok base j es s e Hs He Hsp Hm) as (vv&s1&Hvv&Hf&Hcase).
  exists vv, s1. destruct Hcase as [[Hlt ->]|(base'&l&Hlt&Hb&Hs1&Hg&Hc&Hd)].
  - exists base. split; [done|]. split; [done|]. cbn zeta. destruct (decide (color_of s vv = gray)) as [Hgray|Hgray].
    + split; [done|]. split; [apply extends_refl|done].
    + split; [by eapply add_edge_ok|]. split; [by apply add_edge_extends|done].
  - exists base'. split; [done|]. split; [done|]. cbn zeta. rewrite decide_False.
    2: { unfold color_of. rewrite Hc, lookup_insert_eq. done. }
    split; [|split; [by eapply new_vertex_extends|done]]. eapply add_edge_ok; [done| |exact Hr].
    destruct Ht as (x&i&Hx&Hi&Ht). exists x, i. rewrite Hg. split; [by apply lookup_app_l_Some|].
    split; [by eapply lookup_weaken|done].
Qed.

Lemma add_transitions_ok es : forall fuel base j s v t, dag_ok base j es s -> vertex_token base s v t -> (v < len s)%nat ->
  (length es <= fuel)%nat -> Forall (makes_vertex base t) es ->
  exists base' s', add_transitions fuel v s = Some s' /\ base ⊆ base' /\ dag_ok base' j [] s' /\ extends v s s' (length es).
Proof.
  pose proof UnaryFilterLaws0 as [_ Hempty Hnext _ _].
  induction es as [|e es IH]; intros fuel base j s v t Hs Ht Hv Hfuel Hes.
  - pose proof (proj2 (Hempty _ _ _ _ _ (proj1 Hs)) eq_refl) as E. exists base, s.
    split; [destruct fuel; cbn [add_transitions]; by rewrite E|]. split; [done|]. split; [done|apply extends_refl].
  - destruct fuel as [|fuel]; [cbn in Hfuel; lia|]. cbn [add_transitions].
    assert (E : uf_empty (dag_filter s) = false).
    { destruct (uf_empty (dag_filter s)) eqn:E; [|done]. by apply (Hempty _ _ _ _ _ (proj1 Hs)) in E. }
    rewrite E. destruct (Hnext _ _ _ _ _ _ (proj1 Hs)) as [-> _]. cbn [mbind option_bind].
    apply Forall_cons in Hes as [He Hes].
    destruct (transition_ok base j (e :: es) s v t e Hs Ht Hv He) as (vv&s1&base'&->&Hb&Hs2&Hext&Hf).
    set (s2 := if decide _ then _ else _) in *. destruct (Hnext _ _ _ _ _ _ (proj1 Hs2)) as [_ (f'&->&Hh')]. cbn [mbind option_bind].
    assert (Hext3 : extends v s (put_filter f' s2) 1) by by apply (extends_same v s s2).
    destruct (IH fuel base' j (put_filter f' s2) v t) as (base3&s3&->&Hb3&Hs3&Hext').
    + split; [done|]. apply (graph_ok_grows base' base' s2); [done|done|done|apply Hs2].
    + by eapply vertex_token_extends.
    + pose proof (ex_len _ _ _ _ Hext3). lia.
    + cbn [length] in Hfuel. lia.
    + eapply Forall_impl; [exact Hes|]. intros x. by apply makes_vertex_subseteq.
    + exists base3, s3. split; [done|]. split; [by etrans|]. split; [done|]. by eapply (extends_trans v s _ s3 1).
Qed.

(** All edges of a list of rules for the token of a vertex. *)
Context (all_rules : list R) (Hnumber : forall r, r ∈ all_rules -> grammar_rule (rule_number r) = r).

Lemma create_transitions_ok base j s v x i rr : dag_ok base j [] s -> (j < max_calls)%nat -> graph s !! v = Some x ->
  base !! vertex_name x = Some i -> (length rr <= max_rules)%nat ->
  (forall r, r ∈ rr -> r ∈ all_rules /\ rewrites (rt (m_rep i)) r) ->
  exists base' s', create_transitions (vertex_name x) v rr s = Some (Ok s') /\ base ⊆ base' /\ dag_ok base' (S j) [] s' /\
    extends v s s' max_edges.
Proof.
  pose proof UnaryFilterLaws0 as [_ _ _ _ Happly]. intros [Hh Hg] Hj Hx Hi Hlen Hrr.
  destruct (go_name _ _ Hg v x Hx) as (i'&Hi'&Hok&Ha&Hsp&_). rewrite Hi in Hi'. injection Hi' as <-.
  destruct (Happly j base (dag_store s) (dag_factory s) (dag_filter s) (vertex_name x) rr Hh Hj Hlen)
    as (σ'&ef'&f'&es&Hrun&Hh'&Hes&Hmade).
  { intros r Hr. destruct (Hrr r Hr) as (_&Hr0&Hr1&_). exists i. split; [done|]. split; [apply Hok|done]. }
  unfold create_transitions. rewrite Hrun. cbn [rbind mbind option_bind].
  set (s1 := mk_dag σ' ef' f' (graph s) (vertex_map s) (color_map s) (depth s)).
  destruct (add_transitions_ok es max_edges base (S j) s1 v (rt (m_rep i))) as (base'&s'&->&Hb&Hs'&Hext).
  - split; [done|]. by apply (graph_ok_grows base base s).
  - by exists x, i.
  - by eapply lookup_lt_Some.
  - done.
  - eapply Forall_impl; [exact Hmade|]. intros e (He&Hm&r&Hr&(i'&Hi'&Hl&Hid&_&_&Hs)). destruct (Hrr r Hr) as [Hin Hw].
    split; [done|]. split; [|split; [done|by rewrite Hid, Hnumber]].
    destruct Hsp as [Hsp _]. split; [congruence|]. destruct Hw as (_&_&Hlex). by rewrite Hl.
  - cbn [mbind option_bind]. exists base', s'. split; [done|]. split; [done|]. split; [done|].
    apply (extends_le v s s' (length es)); [done|]. by apply (extends_same v s1 s').
Qed.

(** ** The visitor *)

Context (Hrules : Forall (rule_ok rule_rhs_size rule_rhs) all_rules) (rule_heuristic : R -> score).
Context (Hlhs : Forall (fun r => is_lexical (rule_lhs r) = false) all_rules).
Context (Hmap : rhs_map_built rule_lhs rule_rhs_size rule_rhs rule_heuristic all_rules rhs_map).
Abbreviation unary_rules t rs := (with_signature rule_rhs_size rule_rhs [t] rs).
Context (Hunary : forall t, (length (unary_rules t all_rules) <= max_rules)%nat).

Lemma unary_rules_sub t (Q : R -> Prop) `{!forall r, Decision (Q r)} l : l ≡ₚ unary_rules t (filter Q all_rules) ->
  (length l <= max_rules)%nat /\ forall r, r ∈ l -> r ∈ all_rules /\ rewrites t r.
Proof.
  intros Hl. split.
  - rewrite (Permutation_length Hl). etrans; [|apply (Hunary t)]. unfold with_signature.
    rewrite list_filter_filter.
    rewrite (list_filter_ext _ (fun r => Q r /\ signature (rule_key rule_rhs_size rule_rhs r) = [t])) by (intros; tauto).
    rewrite <- list_filter_filter. apply submseteq_length, sublist_submseteq, sublist_filter.
  - intros r Hr. rewrite Hl in Hr. apply list_elem_of_filter in Hr as [Hs [_ Hr]%list_elem_of_filter].
    split; [done|]. rewrite Forall_forall in Hrules. pose proof (Hrules r Hr) as Hok.
    pose proof (length_signature _ Hok) as Hlen. pose proof (signature_lookup _ 0 Hok) as Hhd.
    rewrite Hs in Hlen, Hhd. unfold rule_key in Hlen, Hhd. cbn [key_size key_at length lookup list_lookup] in Hlen, Hhd.
    split; [symmetry; apply Hhd; lia|]. split; [lia|]. rewrite Forall_forall in Hlhs. by apply Hlhs.
Qed.

Lemma unary_rules_found t : exists l u, rules (array_key [t]) rhs_map = Some l /\ toplevel_rules (array_key [t]) rhs_map = Some u /\
  ((length l <= max_rules)%nat /\ forall r, r ∈ l -> r ∈ all_rules /\ rewrites t r) /\
  ((length u <= max_rules)%nat /\ forall r, r ∈ u -> r ∈ all_rules /\ rewrites t r).
Proof.
  destruct (rules_built _ _ _ _ (array_key [t]) all_rules rhs_map (array_key_ok [t]) Hmap) as (l&u&Hl&Hu&Hpl&_&Hpu&_).
  exists l, u. split; [done|]. split; [done|]. split; by eapply unary_rules_sub.
Qed.

Lemma assert_single_ok base j es s v x : dag_ok base j es s -> graph s !! v = Some x ->
  exists i, base !! vertex_name x = Some i /\ assert_single (dag_store s) (vertex_name x) = Some tt /\
    representative (dag_store s) (Some (vertex_name x)) = Some (m_rep i).
Proof.
  intros [Hh Hg] Hx. destruct (go_name _ _ Hg v x Hx) as (i&Hi&Hok&Ha&_). exists i. split; [done|].
  pose proof (lookup_weaken _ _ _ _ Hi (holds_sub _ _ _ _ _ Hh)) as Hσ. pose proof (proj1 (proj1 Hok)) as Hn.
  split.
  - unfold assert_single. rewrite Hσ. cbn [mbind option_bind]. unfold equiv_size, equiv_empty. by rewrite Hn, Ha.
  - unfold representative. cbn [deref]. rewrite Hσ. cbn [mbind option_bind]. unfold equiv_empty. by rewrite Hn.
Qed.

Definition dag_at (c : nat) s : Prop := exists base j, (j <= 2 * c)%nat /\ base0 ⊆ base /\ dag_ok base j [] s.

(** A vertex has at most the edges of two applications. *)
Definition dag_valid (c : nat) s : Prop := dag_at c s /\ forall w, (length (targets s w) <= max_edges + max_edges)%nat.

(** The applications of one vertex. *)
Lemma apply_at_vertex c s v x i : (2 * (c + 1) <= max_calls)%nat -> graph s !! v = Some x ->
  forall base j, (j <= 2 * c)%nat -> base0 ⊆ base -> dag_ok base j [] s -> base !! vertex_name x = Some i ->
  exists l u s1 s2, rules (array_key [rt (m_rep i)]) rhs_map = Some l /\ toplevel_rules (array_key [rt (m_rep i)]) rhs_map = Some u /\
    create_transitions (vertex_name x) v l s = Some (Ok s1) /\
    create_transitions (vertex_name x) v u s1 = Some (Ok s2) /\
    (extends v s s1 max_edges /\ dag_at (c + 1) s1 /\ assert_single (dag_store s1) (vertex_name x) = Some tt) /\
    extends v s s2 (max_edges + max_edges) /\ dag_at (c + 1) s2 /\ assert_single (dag_store s2) (vertex_name x) = Some tt.
Proof.
  intros Hc Hx base j Hj Hb0 Hs Hi. destruct (unary_rules_found (rt (m_rep i))) as (l&u&Hl&Hu&[Hll Hlr]&[Hul Hur]).
  destruct (create_transitions_ok base j s v x i l Hs ltac:(lia) Hx Hi Hll Hlr) as (b1&s1&H1&Hb1&Hs1&E1).
  destruct (ex_name _ _ _ _ E1 v x Hx) as (x1&Hx1&Hn1).
  pose proof (lookup_weaken _ _ _ _ Hi Hb1) as Hi1. rewrite <- Hn1 in Hi1.
  destruct (create_transitions_ok b1 (S j) s1 v x1 i u Hs1 ltac:(lia) Hx1 Hi1 Hul Hur) as (b2&s2&H2&Hb2&Hs2&E2).
  destruct (ex_name _ _ _ _ E2 v x1 Hx1) as (x2&Hx2&Hn2). rewrite Hn1 in *.
  assert (E12 : extends v s s2 (max_edges + max_edges)).
  { eapply extends_trans; [|done|done]. by eapply lookup_lt_Some. }
  exists l, u, s1, s2. split; [done|]. split; [done|]. split; [done|]. split; [done|].
  destruct (assert_single_ok _ _ _ _ _ _ Hs1 Hx1) as (_&_&A1&_), (assert_single_ok _ _ _ _ _ _ Hs2 Hx2) as (_&_&A2&_).
  rewrite Hn1 in A1. rewrite Hn2 in A2.
  split; [split; [done|split; [|done]]|split; [done|split; [|done]]]; eexists _, _; (split; [|split; [|done]]); [lia|by etrans|lia|by etrans; [|etrans]].
Qed.

Context (max_discoveries : nat) (Hbudget : (2 * max_discoveries <= max_calls)%nat).

Lemma dag_at_same c s s' : dag_store s' = dag_store s -> dag_filter s' = dag_filter s -> graph s' = graph s ->
  vertex_map s' = vertex_map s -> dag_at c s -> dag_at c s'.
Proof.
  intros E1 E2 E3 E4 (base&j&Hj&Hb&Hh&Hg). exists base, j. split; [done|]. split; [done|].
  split; [by rewrite E1, E2|by apply (graph_ok_grows base base s)].
Qed.

Lemma dag_valid_same c s s' : dag_store s' = dag_store s -> dag_filter s' = dag_filter s -> graph s' = graph s ->
  vertex_map s' = vertex_map s -> dag_valid c s -> dag_valid c s'.
Proof.
  intros E1 E2 E3 E4 [Hs Ho]. split; [by apply (dag_at_same c s)|]. unfold targets. by rewrite E3.
Qed.

Lemma discover_extends c s v : dag_at c s -> (c < max_discoveries)%nat -> (v < len s)%nat ->
  exists s1, discover v s = Some (Ok (set_depth (depth s1 + 1) s1)) /\ extends v s s1 (max_edges + max_edges) /\
    dag_at (c + 1) s1 /\ ((maxdepth <= depth s)%nat -> s1 = s).
Proof.
  intros (base&j&Hj&Hb&Hs) Hc Hv. unfold discover. case_decide as Hd; cbn [rbind mbind option_bind].
  2: { exists s. split; [done|]. split; [apply extends_refl|]. split; [|done]. exists base, j. split; [lia|done]. }
  destruct (lookup_lt_is_Some_2 (graph s) v Hv) as [x Hx]. rewrite Hx. cbn [mbind option_bind].
  destruct (assert_single_ok _ _ _ _ _ _ Hs Hx) as (i&Hi&Ha&Hr).
  rewrite Ha; cbn [mbind option_bind]. rewrite Hr; cbn [mbind option_bind].
  destruct (apply_at_vertex c s v x i ltac:(lia) Hx base j Hj Hb Hs Hi) as (l&u&s1&s2&->&->&H1&H2&(E1&V1&A1)&E2&V2&A2).
  cbn [mbind option_bind]. rewrite H1. cbn [rbind mbind option_bind]. destruct toplevel.
  - rewrite H2. cbn [rbind mbind option_bind]. rewrite A2. cbn [rbind mbind option_bind]. exists s2. split; [done|].
    split; [done|]. split; [done|lia].
  - cbn [rbind mbind option_bind]. rewrite A1. cbn [rbind mbind option_bind]. exists s1. split; [done|].
    split; [|split; [done|lia]]. eapply extends_le; [|exact E1]. lia.
Qed.

#[export] Instance creation_visitor_makes :
  MakingVisitor creation_visitor dag_valid depth maxdepth (max_edges + max_edges) max_discoveries.
Proof.
  split; cbn [creation_visitor num_vertices out_edges get_color GraphSearch.put_color discover_vertex finish_vertex]; try done.
  - intros c v k s. by apply dag_valid_same.
  - intros v k s w. unfold color_of, put_color, set_color_map. cbn [color_map].
    case_decide; [subst; by rewrite lookup_insert_eq|by rewrite lookup_insert_ne].
  - intros c v s. by apply dag_valid_same.
  - intros c v s [Hat Hdeg] Hc Hv Hout.
    destruct (discover_extends c s v Hat Hc Hv) as (s1&->&[X1 X2 X3 (new&X4&X4l&X4t) X5 X6]&V1&Hmax).
    rewrite Hout in X4. cbn [app] in X4. exists (set_depth (depth s1 + 1) s1). split; [done|]. split.
    { apply (dag_valid_same _ s1); try done. split; [done|]. intros w. destruct (decide (w < len s)%nat) as [Hw|Hw].
      - destruct (decide (w = v)) as [->|Hne]; [by rewrite X4|]. by rewrite (proj2 (X2 w Hw) Hne).
      - destruct (decide (w < len s1)%nat) as [Hw1|Hw1]; [by rewrite (proj1 (proj2 (X3 w ltac:(lia)))); cbn; lia|].
        unfold targets. rewrite lookup_ge_None_2 by lia. cbn. lia. }
    cbn [set_depth graph depth]. unfold targets in *. unfold color_of in *. cbn [set_depth graph color_map].
    split; [by rewrite X6|]. split; [done|]. split; [by rewrite X4|].
    split; [done|]. split; [done|]. split; [by rewrite X4|]. intros Hd. by rewrite (Hmax Hd).
Qed.

(** ** The start *)

Context `{!StdAlgorithmLaws (alt_edge score), !StrictWeak (score_lt (S := score)), !ScoreZeroLaws score}.
Context (Hmax : 1 <= u32 max_equivalents).
Abbreviation set_holds := (set_holds hash_token hash_span max_equivalents).

(** An equivalence of the span. *)
Definition at_span base l : Prop := exists i, base !! l = Some i /\ equiv_ok base i /\ constituent (m_rep i).

Lemma edge_equiv_max_pos e : 1 <= edge_equiv_max (pool_create e).
Proof. unfold EdgeEquivalence.edge_equiv_max, UINT_MAX. case_bool_decide; lia. Qed.

Record started n s set ls : Prop := {
  st_valid : dag_valid 0 s;
  st_targets w : targets s w = [];
  st_depth : depth s = 0%nat;
  st_vertices : Z.of_nat (len s) <= n;
  st_set : set_holds n base0 set ls
}.

Lemma start_vertex n s set ls e : started n s set ls -> edge_ok base0 e -> constituent e ->
  started (n + 1) (vertex_for_et e s).2 set ls.
Proof.
  intros [Hv Ht Hd Hn Hs] He Hsp. pose proof Hv as [(base&j&Hj&Hb&Hdag) _].
  destruct (vertex_for_et_ok base j [] s e Hdag) as (vv&s1&->&Hf&Hcase); [by eapply edge_ok_subseteq|done|apply edge_equiv_max_pos|].
  cbn [snd]. apply (set_holds_le _ _ _ n (n + 1)) in Hs; [|lia].
  destruct Hcase as [[_ ->]|(base'&l&_&Hb'&Hdag'&Hg&_&Hd')]; [split; try done; lia|].
  assert (Ht1 : forall w, targets s1 w = []).
  { intros w. unfold targets. rewrite Hg. destruct ((graph s ++ _) !! w) as [x|] eqn:E; [|done].
    apply lookup_app_Some in E as [E|[_ [_ <-]%list_lookup_singleton_Some]]; [|done]. specialize (Ht w). unfold targets in Ht. by rewrite E in Ht. }
  split; [|done|congruence|rewrite Hg, length_app; cbn [length]; lia|done].
  split; [exists base', j; split; [done|split; [by etrans|done]]|]. intros w. rewrite Ht1. cbn. lia.
Qed.

Lemma add_start_edges_ok starts : forall n s set ls, started n s set ls -> Forall (at_span base0) starts ->
  inequivalent (representative_edge base0 <$> starts ++ ls) -> n + Z.of_nat (length starts) <= pq_limit ->
  exists s' set' ls', add_start_edges starts s set = Some (Ok (s', set')) /\
    started (n + Z.of_nat (length starts)) s' set' ls' /\ ls' ≡ₚ starts ++ ls.
Proof.
  induction starts as [|l starts IH]; intros n s set ls Hst Hstarts Hne Hn; cbn [add_start_edges length] in *.
  { exists s, set, ls. by rewrite Z.add_0_r. }
  apply Forall_cons in Hstarts as [(i&Hi&Hok&Hsp) Hstarts].
  pose proof Hst as [[(base&j&_&Hb&Hdag) _] _ _ _ _].
  rewrite (representative_ok max_equivalents _ l i); [|eapply lookup_weaken; [exact Hi|]|].
  2: { etrans; [exact Hb|]. by eapply holds_sub, Hdag. }
  2: { eapply equiv_ok_subseteq; [|exact Hok]. etrans; [exact Hb|]. by eapply holds_sub, Hdag. }
  cbn [mbind option_bind]. destruct (start_vertex n s set ls (m_rep i) Hst) as [V T D N St]; [apply Hok|done|].
  set (s1 := (vertex_for_et (m_rep i) s).2) in *. pose proof V as [(base1&j1&_&Hb1&Hdag1) _].
  cbn [fmap list_fmap app inequivalent] in Hne. destruct Hne as [Hl Hne].
  destruct (set_insert_ok hash_token hash_span max_equivalents n base0 (dag_store s1) set ls l i)
    as (pos&b&set'&ls'&->&St'&_&[((w&Hw&He)&_)|[_ ->]]).
  { etrans; [exact Hb1|]. by eapply holds_sub, Hdag1. }
  { apply Hst. } { lia. } { done. } { done. }
  { exfalso. rewrite (representative_edge_lookup _ _ _ Hi) in Hl. apply equal_to_sym in He. rewrite Hl in He; [done|].
    apply list_elem_of_fmap. exists w. split; [done|]. apply elem_of_app. by right. }
  cbn [rbind mbind option_bind].
  destruct (IH (n + 1) s1 set' (l :: ls)) as (s2&set2&ls2&->&St2&Hp); [by split|done| |lia|].
  { apply (inequivalent_perm (representative_edge base0 <$> l :: starts ++ ls)); [by rewrite Permutation_middle|by split]. }
  exists s2, set2, ls2. split; [done|]. split; [|by rewrite Hp, <- Permutation_middle].
  by replace (n + Z.of_nat (S (length starts))) with (n + 1 + Z.of_nat (length starts)) by lia.
Qed.
End graph_invariant.

(** * The rules are applied in order *)

Section application.
Context `{!InfoLaws info_type, !StdAlgorithmLaws (alt_edge score), !StrictWeak (score_lt (S := score)), !ScoreZeroLaws score}.
Context (sp : span_t) (max_rules max_calls : nat) (holds : nat -> store -> store -> list edge -> F -> Prop).
Context `{!UnaryFilterLaws max_equivalents max_rules max_calls max_collected holds}.
Implicit Types (set : equiv_set_t) (ls : list positive) (g : list vertex).
Abbreviation set_holds := (set_holds hash_token hash_span max_equivalents).
Abbreviation at_span := (at_span sp).
Abbreviation constituent := (constituent sp).

Abbreviation improves := (improves max_equivalents).

Lemma at_span_improves base base' l : improves base base' -> at_span base l -> at_span base' l.
Proof.
  intros Hb (i&Hi&Hok&Hs). destruct (im_at _ _ _ Hb l i Hi Hok) as (i'&Hi'&Hok'&He&_). exists i'.
  split; [done|]. split; [done|by eapply constituent_equal].
Qed.

Lemma has_class_improves base base' ls ls' e : improves base base' -> ls ⊆ ls' ->
  has_class max_equivalents base ls e -> has_class max_equivalents base' ls' e.
Proof.
  intros Hb Hls (l&i&Hl&Hi&Hok&He). destruct (im_at _ _ _ Hb l i Hi Hok) as (i'&Hi'&Hok'&He'&_). exists l, i'.
  split; [by apply Hls|]. split; [done|]. split; [done|]. apply (equal_to_trans _ (m_rep i)); [by apply equal_to_sym|done].
Qed.

(** A step leaves a filter with the edges [es] to hand out, and a set of at least the
    equivalences that were there. *)
Record grown (n : Z) (j : nat) es base ls base' σ' f' set' ls' : Prop := {
  gr_holds : holds j base' σ' es f';
  gr_set : set_holds n base' set' ls';
  gr_span : Forall (at_span base') ls';
  gr_improves : improves base base';
  gr_sub : ls ⊆ ls';
  gr_edges e : edge_ok base e -> edge_ok base' e
}.

Lemma grown_same n j es base σ f set ls : holds j base σ es f -> set_holds n base set ls -> Forall (at_span base) ls ->
  grown n j es base ls base σ f set ls.
Proof. intros. split; try done. apply (improves_refl max_equivalents). Qed.

Lemma grown_trans n j es base ls n1 j1 es1 base1 σ1 f1 set1 ls1 base2 σ2 f2 set2 ls2 :
  grown n1 j1 es1 base ls base1 σ1 f1 set1 ls1 -> grown n j es base1 ls1 base2 σ2 f2 set2 ls2 -> grown n j es base ls base2 σ2 f2 set2 ls2.
Proof.
  intros [_ _ _ A4 A5 A6] [B1 B2 B3 B4 B5 B6]. split; try done; [by eapply (improves_trans max_equivalents)|by etrans|auto].
Qed.

(** A merge has nothing from outside the smaller store. *)
Lemma step_ok_sub base σ e i i' : base ⊆ σ -> equiv_ok base i -> edge_ok base e ->
  step_ok max_equivalents σ e i (best_edge (m_rep i) [e]) i' -> step_ok max_equivalents base e i (best_edge (m_rep i) [e]) i'.
Proof.
  intros Hb Hi He (Hok'&Hrep&Hc&Hlen). split; [|done].
  assert (Hbest : edge_ok base (m_rep i')) by (rewrite Hrep; unfold best_edge; cbn; case_match; [done|apply Hi]).
  split; [done|]. split; [|apply Hok'].
  assert (Hall : Forall (alt_ok base) (alt_of e :: contents i)).
  { constructor; [apply He|]. unfold contents. case_match; [constructor|]. constructor; [apply Hi|apply Hi]. }
  rewrite Forall_forall in Hall. apply Forall_forall. intros a Ha. apply Hall. eapply elem_of_submseteq; [|exact Hc].
  unfold contents, equiv_empty. rewrite (proj1 Hbest). by right.
Qed.

Lemma merge_old n j base σ es f set ls e l i i' : holds j base σ es f -> set_holds n base set ls -> Forall (at_span base) ls ->
  l ∈ ls -> base !! l = Some i -> equiv_ok base i -> edge_ok base e -> equal_to (m_rep i) e = true ->
  step_ok max_equivalents σ e i (best_edge (m_rep i) [e]) i' ->
  let base' := <[l := i']> base in
  grown (n + 1) j es base ls base' (<[l := i']> σ) f set ls /\ has_class max_equivalents base' ls e.
Proof.
  pose proof UnaryFilterLaws0 as [Hsub _ _ Hwrite _]. intros Hh Hs Hsp Hl Hi Hok He Heq Hstep base'.
  pose proof (Hsub _ _ _ _ _ Hh) as Hb.
  destruct (step_writes max_equivalents σ l i e i') as [Hwσ Heq']; [by eapply equiv_ok_subseteq|by eapply lookup_weaken|done|done|].
  apply (step_ok_sub base) in Hstep; [|done..].
  destruct (step_writes max_equivalents base l i e i' Hok Hi Heq Hstep) as [Hw _].
  assert (Himp : improves base base').
  { apply (improves_write max_equivalents); [done|]. intros i2 Hi2. rewrite Hi in Hi2. injection Hi2 as <-.
    destruct Hstep as (_&->&_). pose proof (best_edge_best (m_rep i) [e]) as [? _]%Forall_cons. done. }
  split; [split|].
  - apply Hwrite; [done|by right; exists i|done].
  - eapply set_holds_le; [|by apply set_holds_write]. lia.
  - eapply Forall_impl; [exact Hsp|]. intros x. by apply at_span_improves.
  - done.
  - done.
  - intros x. by apply (edge_ok_write max_equivalents).
  - exists l, i'. unfold base'. rewrite lookup_insert_eq.
    split; [done|]. split; [done|]. split; [apply equiv_ok_write; [done|apply Hw]|done].
Qed.

Lemma merge_new n j base σ es f set ls e l : holds j base σ es f -> set_holds n base set ls -> Forall (at_span base) ls ->
  n < pq_limit -> edge_ok base e -> 1 <= edge_equiv_max (pool_create e) -> constituent e -> σ !! l = None ->
  (forall x, x ∈ ls -> equal_to (representative_edge base x) e = false) ->
  let base' := <[l := pool_create e]> base in
  exists pos b set', set_insert (<[l := pool_create e]> σ) l set = Some (Ok (pos, b, set')) /\
    grown (n + 1) j es base ls base' (<[l := pool_create e]> σ) f set' (l :: ls) /\ has_class max_equivalents base' (l :: ls) e.
Proof.
  pose proof UnaryFilterLaws0 as [Hsub _ _ Hwrite _]. intros Hh Hs Hsp Hn He Hm Hes Hl Hno base'.
  pose proof (Hsub _ _ _ _ _ Hh) as Hb. assert (Hbl : base !! l = None) by by eapply lookup_weaken_None.
  assert (Hwσ : writes max_equivalents σ l (pool_create e)) by (apply new_writes; [by eapply edge_ok_subseteq|done..]).
  assert (Hw : writes max_equivalents base l (pool_create e)) by by apply new_writes.
  assert (Hh' : holds j base' (<[l := pool_create e]> σ) es f) by (apply Hwrite; [done|by left|done]).
  assert (Himp : improves base base') by (apply (improves_write max_equivalents); [done|congruence]).
  assert (Hi : base' !! l = Some (pool_create e)) by (unfold base'; by rewrite lookup_insert_eq).
  assert (Hok : equiv_ok base' (pool_create e)) by (apply equiv_ok_write; [done|apply Hw]).
  destruct (set_insert_ok hash_token hash_span max_equivalents n base' (<[l := pool_create e]> σ) set ls l (pool_create e)
    (Hsub _ _ _ _ _ Hh')) as (pos&b&set'&ls'&->&Hs'&_&[((w&Hw'&Heq)&_)|[_ ->]]); [by apply set_holds_write|done..| |].
  { exfalso. pose proof (sh_alive _ _ _ _ _ _ _ Hs) as Ha. rewrite Forall_forall in Ha. destruct (Ha _ Hw') as (?&?&_).
    unfold base' in Heq. rewrite representative_write, decide_False in Heq by congruence. by rewrite Hno in Heq. }
  exists pos, b, set'. split; [done|]. split; [split; try done|].
  - constructor; [by exists (pool_create e)|]. eapply Forall_impl; [exact Hsp|]. intros x. by apply at_span_improves.
  - set_solver.
  - intros x. by apply (edge_ok_write max_equivalents).
  - exists l, (pool_create e). split; [left|]. split; [done|]. split; [done|apply equal_to_refl].
Qed.

(** The edge [e] is merged into the set. *)
Lemma merge_edge_ok n j base σ es f set ls e : holds j base σ es f -> set_holds n base set ls -> Forall (at_span base) ls ->
  n < pq_limit -> edge_ok base e -> 1 <= edge_equiv_max (pool_create e) -> constituent e ->
  exists base' σ' set' ls', merge_edge σ e set = Some (Ok (σ', set')) /\
    grown (n + 1) j es base ls base' σ' f set' ls' /\ has_class max_equivalents base' ls' e.
Proof.
  intros Hh Hs Hsp Hn He Hm Hes. pose proof UnaryFilterLaws0 as [Hsub _ _ _ _]. pose proof (Hsub _ _ _ _ _ Hh) as Hb. clear Hsub.
  unfold merge_edge. destruct (set_find_ok hash_token hash_span max_equivalents n base σ set ls e Hb Hs) as (pos&last&->&->&Hcase).
  cbn [mbind option_bind]. destruct Hcase as [(Hne&l&i&Hl&Hi&Hok&Heq&->)|[-> Hno]].
  - rewrite (proj2 (Z.eqb_neq pos last) Hne). cbn [mbind option_bind].
    rewrite (lookup_weaken _ _ _ _ Hi Hb). cbn [mbind option_bind].
    destruct (insert_edge_step hash_token hash_span max_equivalents σ e i) as (i'&->&Hstep);
      [by eapply equiv_ok_subseteq|by eapply edge_ok_subseteq|done|].
    destruct (merge_old n j base σ es f set ls e l i i' Hh Hs Hsp Hl Hi Hok He Heq Hstep) as [Hg Hc].
    by eexists _, _, _, _.
  - rewrite Z.eqb_refl. unfold allocate.
    destruct (merge_new n j base σ es f set ls e _ Hh Hs Hsp Hn He Hm Hes (allocate_fresh σ) Hno) as (pos&b&set'&->&Hg&Hc).
    by eexists _, _, _, _.
Qed.

(** An edge that an application at the span made. *)
Definition collectable base e : Prop := edge_ok base e /\ 1 <= edge_equiv_max (pool_create e) /\ constituent e.

Lemma collect_edges_ok es : forall fuel n j base σ f set ls, holds j base σ es f -> set_holds n base set ls ->
  Forall (at_span base) ls -> n + Z.of_nat (length es) <= pq_limit -> (length es <= fuel)%nat -> Forall (collectable base) es ->
  exists base' σ' f' set' ls', collect_edges fuel σ f set = Some (Ok (σ', f', set')) /\
    grown (n + Z.of_nat (length es)) j [] base ls base' σ' f' set' ls' /\ Forall (has_class max_equivalents base' ls') es.
Proof.
  pose proof UnaryFilterLaws0 as [_ Hempty Hnext _ _].
  induction es as [|e es IH]; intros fuel n j base σ f set ls Hh Hs Hsp Hn Hfuel Hes; cbn [length] in *.
  { pose proof (proj2 (Hempty _ _ _ _ _ Hh) eq_refl) as E. exists base, σ, f, set, ls.
    split; [destruct fuel; cbn [collect_edges]; by rewrite E|]. rewrite Z.add_0_r. split; [by apply grown_same|constructor]. }
  destruct fuel as [|fuel]; [lia|]. cbn [collect_edges].
  assert (E : uf_empty f = false).
  { destruct (uf_empty f) eqn:E; [|done]. by apply (Hempty _ _ _ _ _ Hh) in E. }
  rewrite E. destruct (Hnext _ _ _ _ _ _ Hh) as [-> _]. cbn [mbind option_bind]. apply Forall_cons in Hes as [(He&Hm&Hes1) Hes].
  destruct (merge_edge_ok n j base σ (e :: es) f set ls e Hh Hs Hsp ltac:(lia) He Hm Hes1) as (base1&σ1&set1&ls1&->&Hg&Hc).
  cbn [rbind mbind option_bind]. pose proof Hg as [G1 G2 G3 G4 G5 G6]. destruct (Hnext _ _ _ _ _ _ G1) as [_ (f1&->&Hh1)].
  cbn [mbind option_bind]. destruct (IH fuel (n + 1) j base1 σ1 f1 set1 ls1 Hh1 G2 G3) as (base2&σ2&f2&set2&ls2&->&Hg2&Hc2); [lia|lia| |].
  { eapply Forall_impl; [exact Hes|]. intros x (?&?). split; [by apply G6|done]. }
  exists base2, σ2, f2, set2, ls2. split; [done|].
  replace (n + Z.of_nat (S (length es))) with (n + 1 + Z.of_nat (length es)) by lia.
  split; [by eapply grown_trans|]. constructor; [|done].
  eapply has_class_improves; [apply Hg2|apply Hg2|done].
Qed.

Lemma grown_le n n' j es base ls base' σ' f' set' ls' : n <= n' -> grown n j es base ls base' σ' f' set' ls' ->
  grown n' j es base ls base' σ' f' set' ls'.
Proof. intros Hn [G1 G2 G3 G4 G5 G6]. split; try done. by eapply set_holds_le. Qed.

(** The equivalence of the set for a vertex. *)
Lemma vertex_in_set n base σ set ls l i : base ⊆ σ -> set_holds n base set ls -> Forall (at_span base) ls -> n < pq_limit ->
  base !! l = Some i -> equiv_ok base i -> constituent (m_rep i) ->
  exists pos last, set_find σ (m_rep i) set = Some pos /\ ht_end set = Some last /\
  exists pos' set' ls' w j, (if pos =? last then '(pos, _, set) ⇐ set_insert σ l set; Some (Ok (pos, set))
      else Some (Ok (pos, set))) = Some (Ok (pos', set')) /\
    set_holds (n + 1) base set' ls' /\ Forall (at_span base) ls' /\ ls ⊆ ls' /\
    iterator_dereference (tbl set') pos' = Some w /\ w ∈ ls' /\ base !! w = Some j /\ equiv_ok base j /\ equal_to (m_rep j) (m_rep i) = true.
Proof.
  intros Hb Hs Hsp Hn Hi Hok Hspi.
  destruct (set_find_ok hash_token hash_span max_equivalents n base σ set ls (m_rep i) Hb Hs) as (pos&last&->&->&Hcase).
  exists pos, last. split; [done|]. split; [done|]. destruct Hcase as [(Hne&w&j&Hw&Hj&Hokj&He&Hd)|[-> Hno]].
  - rewrite (proj2 (Z.eqb_neq pos last) Hne). exists pos, set, ls, w, j. split; [done|].
    split; [eapply set_holds_le; [|exact Hs]; lia|done].
  - rewrite Z.eqb_refl. destruct (set_insert_ok hash_token hash_span max_equivalents n base σ set ls l i Hb Hs Hn Hi Hok)
      as (pos'&b&set'&ls'&->&Hs'&(w&Hw&Hd&He)&Hls'). cbn [rbind mbind option_bind].
    assert (Hspl : Forall (at_span base) ls' /\ ls ⊆ ls').
    { destruct Hls' as [(_&_&->)|[_ ->]]; [done|]. split; [constructor; [by exists i|done]|set_solver]. }
    pose proof (proj1 Hspl) as Ha. rewrite Forall_forall in Ha. destruct (Ha w Hw) as (j&Hj&Hokj&_).
    rewrite (representative_edge_lookup _ _ _ Hj) in He. exists pos', set', ls', w, j. split; [done|]. split; [done|].
    split; [apply Hspl|]. split; [apply Hspl|done].
Qed.

(** The rules at the out-edges of a vertex fit its equivalence. *)
Definition name_ok base x i : Prop := (length (vertex_out x) <= max_rules)%nat /\
  base !! vertex_name x = Some i /\ equiv_ok base i /\ constituent (m_rep i) /\ Forall (rewrites (rt (m_rep i))) (vertex_out x).*2.

Lemma apply_to_vertex_ok n j base σ ef f set ls x i : holds j base σ [] f -> set_holds n base set ls -> Forall (at_span base) ls ->
  (j < max_calls)%nat -> n + 1 + Z.of_nat max_collected <= pq_limit -> name_ok base x i ->
  exists base' σ' ef' f' set' ls', apply_to_vertex x σ ef f set = Some (Ok (σ', ef', f', set')) /\
    grown (n + 1 + Z.of_nat max_collected) (S j) [] base ls base' σ' f' set' ls' /\ has_class max_equivalents base' ls' (m_rep i).
Proof.
  pose proof UnaryFilterLaws0 as [Hsub _ _ _ Happly]. intros Hh Hs Hsp Hj Hn (Hlen&Hi&Hok&Hspi&Hout).
  pose proof (Hsub _ _ _ _ _ Hh) as Hb. unfold apply_to_vertex.
  rewrite (representative_ok max_equivalents σ (vertex_name x) i); [|by eapply lookup_weaken|by eapply equiv_ok_subseteq].
  cbn [mbind option_bind].
  destruct (vertex_in_set n base σ set ls (vertex_name x) i Hb Hs Hsp ltac:(lia) Hi Hok Hspi)
    as (pos&last&->&->&pos'&set1&ls1&w&k&Hif&Hs1&Hsp1&Hsub1&Hd&Hw&Hk&Hokk&Hek).
  cbn [mbind option_bind]. rewrite Hif. cbn [rbind mbind option_bind]. rewrite Hd. cbn [mbind option_bind].
  pose proof (proj1 (equal_to_spec _ _) Hek) as (Ert&Espn&_).
  destruct (Happly j base σ ef f w (vertex_out x).*2 Hh Hj) as (σ1&ef1&f1&es&->&Hh1&Hes&Hmade).
  { by rewrite length_fmap. }
  { intros r Hr. rewrite Forall_forall in Hout. destruct (Hout r Hr) as (Hr0&Hr1&_). exists k. split; [done|].
    split; [apply Hokk|]. by rewrite Ert. }
  cbn [rbind mbind option_bind].
  destruct (collect_edges_ok es max_collected (n + 1) (S j) base σ1 f1 set1 ls1 Hh1 Hs1 Hsp1) as (base'&σ2&f2&set2&ls2&->&Hg&_); [lia|done| |].
  { eapply Forall_impl; [exact Hmade|]. intros e (He&Hm&r&Hr&(k'&Hk'&Hl&_&_&_&Hse)). split; [done|]. split; [done|].
    rewrite Forall_forall in Hout. destruct (Hout r Hr) as (_&_&Hlex), Hspi as [Hspi _]. split; [congruence|by rewrite Hl]. }
  cbn [rbind mbind option_bind]. exists base', σ2, ef1, f2, set2, ls2. split; [done|]. split.
  - apply (grown_le (n + 1 + Z.of_nat (length es))); [lia|]. destruct Hg as [G1 G2 G3 G4 G5 G6]. split; try done. by etrans.
  - eapply has_class_improves; [apply Hg|apply Hg|]. by exists w, k.
Qed.

Lemma name_ok_improves base base' x i : improves base base' -> name_ok base x i ->
  exists i', name_ok base' x i' /\ equal_to (m_rep i) (m_rep i') = true.
Proof.
  intros Hb (Hl&Hi&Hok&Hs&Hr). destruct (im_at _ _ _ Hb _ i Hi Hok) as (i'&Hi'&Hok'&He&_). exists i'. split; [|done].
  pose proof (constituent_equal _ _ _ He Hs). apply equal_to_spec in He as (E1&_). unfold name_ok. by rewrite <- E1.
Qed.

Lemma has_class_equal base ls e e' : equal_to e e' = true -> has_class max_equivalents base ls e -> has_class max_equivalents base ls e'.
Proof. intros He (l&i&Hl&Hi&Hok&Hei). exists l, i. split; [done|]. split; [done|]. split; [done|]. by eapply equal_to_trans. Qed.

(** All vertices of [vs]. *)
Lemma apply_to_vertices_ok g vs : forall n j base σ ef f set ls, holds j base σ [] f -> set_holds n base set ls ->
  Forall (at_span base) ls -> (j + length vs <= max_calls)%nat -> n + Z.of_nat (length vs * (1 + max_collected)) <= pq_limit ->
  Forall (fun v => exists x i, g !! v = Some x /\ name_ok base x i) vs ->
  exists base' σ' ef' f' set' ls', apply_to_vertices g vs σ ef f set = Some (Ok (σ', ef', f', set')) /\
    grown (n + Z.of_nat (length vs * (1 + max_collected))) (j + length vs) [] base ls base' σ' f' set' ls' /\
    forall v x i, v ∈ vs -> g !! v = Some x -> base !! vertex_name x = Some i -> has_class max_equivalents base' ls' (m_rep i).
Proof.
  induction vs as [|v vs IH]; intros n j base σ ef f set ls Hh Hs Hsp Hj Hn Hvs; cbn [apply_to_vertices length Nat.mul] in *.
  { exists base, σ, ef, f, set, ls. rewrite Nat.add_0_r, Z.add_0_r. split; [done|]. split; [by apply grown_same|].
    by intros v x i ?%not_elem_of_nil. }
  apply Forall_cons in Hvs as [(x&i&Hx&Hname) Hvs]. rewrite Hx. cbn [mbind option_bind].
  destruct (apply_to_vertex_ok n j base σ ef f set ls x i Hh Hs Hsp ltac:(lia) ltac:(lia) Hname)
    as (base1&σ1&ef1&f1&set1&ls1&->&Hg1&Hc1).
  cbn [rbind mbind option_bind]. pose proof Hg1 as [G1 G2 G3 G4 G5 G6].
  destruct (IH (n + 1 + Z.of_nat max_collected) (S j) base1 σ1 ef1 f1 set1 ls1 G1 G2 G3) as (base2&σ2&ef2&f2&set2&ls2&->&Hg2&Hc2); [lia|lia| |].
  { eapply Forall_impl; [exact Hvs|]. intros w (y&k&Hy&Hk). destruct (name_ok_improves base base1 y k G4 Hk) as (k'&Hk'&_). by exists y, k'. }
  exists base2, σ2, ef2, f2, set2, ls2. split; [done|].
  replace (n + Z.of_nat (1 + max_collected + length vs * (1 + max_collected)))
    with (n + 1 + Z.of_nat max_collected + Z.of_nat (length vs * (1 + max_collected))) by lia.
  replace (j + S (length vs))%nat with (S j + length vs)%nat by lia. split; [by eapply grown_trans|].
  intros w y k [->|Hw]%elem_of_cons Hy Hk.
  - rewrite Hx in Hy. injection Hy as <-. destruct Hname as (_&Hk'&_). rewrite Hk in Hk'. injection Hk' as ->.
    eapply has_class_improves; [apply Hg2|apply Hg2|done].
  - rewrite Forall_forall in Hvs. destruct (Hvs w Hw) as (y'&k'&Hy'&Hn'). rewrite Hy in Hy'. injection Hy' as <-.
    destruct (name_ok_improves base base1 y k' G4 Hn') as (k2&(_&Hk2&_)&He). destruct Hn' as (_&Hk'&_).
    rewrite Hk in Hk'. injection Hk' as ->. eapply has_class_equal; [apply equal_to_sym; exact He|].
    by apply (Hc2 w y k2).
Qed.
End application.

(** * The whole *)

Section whole.
Context `{!InfoLaws info_type, !StdAlgorithmLaws (alt_edge score), !StdAlgorithmLaws positive}.
Context `{!StrictWeak (score_lt (S := score)), !ScoreZeroLaws score, !GraphAlgorithmLaws}.
Context (all_rules : list R) (Hrules : Forall (rule_ok rule_rhs_size rule_rhs) all_rules) (rule_heuristic : R -> score).
Context (Hlhs : Forall (fun r => is_lexical (rule_lhs r) = false) all_rules).
Context (Hnumber : forall r, r ∈ all_rules -> grammar_rule (rule_number r) = r).
Context (Hmap : rhs_map_built rule_lhs rule_rhs_size rule_rhs rule_heuristic all_rules rhs_map).
Context (max_rules max_calls : nat) (holds : nat -> store -> store -> list edge -> F -> Prop).
Context `{HF : !UnaryFilterLaws max_equivalents max_rules max_calls max_edges holds}.
Context (max_rules' max_calls' : nat) (holds' : nat -> store -> store -> list edge -> F -> Prop).
Context `{HF' : !UnaryFilterLaws max_equivalents max_rules' max_calls' max_collected holds'}.
Context (Hmax : 1 <= u32 max_equivalents).
Context (Hunary : forall t, (length (with_signature rule_rhs_size rule_rhs [t] all_rules) <= max_rules)%nat).
Context (Hdegree : (max_edges + max_edges <= max_rules')%nat).
Context (create : F) (Hcreate : forall σ, holds 0 σ σ [] create) (Hcreate' : forall σ, holds' 0 σ σ [] create).
Implicit Types (set : equiv_set_t) (starts ls : list positive).
Abbreviation set_holds := (set_holds hash_token hash_span max_equivalents).

(** The size of the graph from [n] start edges, and room for it. *)
Definition discoveries (n : nat) : nat := n * below (max_edges + max_edges) maxdepth.
Definition vertices_bound (n : nat) : nat := search_cost maxdepth (max_edges + max_edges) n.
Record room (n : nat) : Prop := {
  room_calls : (2 * discoveries n <= max_calls)%nat;
  room_limit : (vertices_bound n <= vertex_limit)%nat;
  room_calls' : (vertices_bound n <= max_calls')%nat;
  room_set : Z.of_nat n + Z.of_nat (vertices_bound n * (1 + max_collected)) <= pq_limit
}.

(** The start edges are constituents of one span, no two equivalent. *)
Definition starts_ok sp σ starts : Prop :=
  Forall (at_span sp σ) starts /\ inequivalent (representative_edge σ <$> starts).

Lemma vertices_bound_mono n m : (n <= m)%nat -> (vertices_bound n <= vertices_bound m)%nat.
Proof. intros Hnm. unfold vertices_bound, search_cost. apply Nat.add_le_mono; [|done]. by do 2 apply Nat.mul_le_mono_r. Qed.

Lemma discoveries_mono n m : (n <= m)%nat -> (discoveries n <= discoveries m)%nat.
Proof. intros Hnm. unfold discoveries. by apply Nat.mul_le_mono_r. Qed.

(** The graph of start edges that are sorted. *)
Lemma dag_made sp σ ef starts set0 : starts_ok sp σ starts -> room (length starts) -> set_holds 0 σ set0 [] ->
  exists s set ls s' order c, add_start_edges starts (mk_dag σ ef create [] [] ∅ 0) set0 = Some (Ok (s, set)) /\
    ls ≡ₚ starts /\ set_holds (Z.of_nat (length starts)) σ set ls /\
    depth_first_search creation_visitor s = Some (Ok s') /\ dag_valid sp σ holds c s' /\
    (len s' <= vertices_bound (length starts))%nat /\ order ≡ₚ seq 0 (len s') /\ edges_backward (targets s') order /\ σ ⊆ dag_store s.
Proof.
  intros [Hst Hne] [R1 R2 _ R4] Hset0.
  assert (Hroom : Z.of_nat (length starts) <= pq_limit) by (revert R4; generalize (vertices_bound (length starts) * (1 + max_collected))%nat; lia).
  clear R4. destruct (add_start_edges_ok sp σ max_rules max_calls holds (discoveries (length starts)) R1 Hmax starts 0 (mk_dag σ ef create [] [] ∅ 0) set0 [])
    as (s&set&ls&Hadd&[V T D N St]&Hp); [|done|by rewrite app_nil_r|done|].
  { split; [|done|done|done|done]. split; [|intros w; exact (Nat.le_0_l _)]. exists σ, 0%nat. split; [lia|]. split; [done|].
    split; [apply Hcreate|]. split; [intros v x Hv; done|by intros e v ?%not_elem_of_nil]. }
  rewrite app_nil_r in Hp. assert (Hlen : (len s <= length starts)%nat) by lia.
  pose proof (discoveries_mono _ _ Hlen) as Hdm. pose proof (vertices_bound_mono _ _ Hlen) as Hvm.
  pose proof (creation_visitor_makes sp σ max_rules max_calls holds all_rules Hnumber Hrules rule_heuristic Hlhs Hmap Hunary
    (discoveries (length starts)) R1) as Hvis.
  destruct (search_makes_dag creation_visitor (dag_valid sp σ holds) depth maxdepth (max_edges + max_edges)
    (discoveries (length starts)) s) as (c&s'&order&Hdfs&V'&_&Hnum&Ho&Hb); [done|done|done|done|by etrans|].
  exists s, set, ls, s', order, c. split; [exact Hadd|]. split; [done|]. split; [done|]. split; [done|]. split; [done|].
  split; [etrans; [exact Hnum|exact Hvm]|]. split; [done|]. split; [done|].
  destruct V as [(base&j&_&Hsub&Hd&_) _]. etrans; [exact Hsub|]. by eapply holds_sub.
Qed.

Abbreviation improves := (improves max_equivalents).

(** What the results are: constituents of the span, no two equivalent, the start edges
    among them.  No equivalence of the store is lost or worse than before. *)
Record applied sp σ starts σ' set ls : Prop := {
  ap_values : unary_results set = Some ls;
  ap_span : Forall (at_span sp σ') ls;
  ap_inequivalent : inequivalent (representative_edge σ' <$> ls);
  ap_starts : starts ⊆ ls;
  ap_store : improves σ σ'
}.

Lemma applied_intro sp σ starts n base σ' set ls : base ⊆ σ' -> set_holds n base set ls ->
  Forall (at_span sp base) ls -> improves σ base -> starts ⊆ ls ->
  exists ls', applied sp σ starts σ' set ls'.
Proof.
  intros Hb Hs Hsp Himp Hsub. destruct (set_values _ _ _ _ _ _ _ Hs) as (ls'&Hv&Hp). exists ls'. split.
  - done.
  - rewrite Hp. eapply Forall_impl; [exact Hsp|]. intros l (i&Hi&Hok&?). exists i. split; [by eapply lookup_weaken|].
    split; [by eapply equiv_ok_subseteq|done].
  - apply (inequivalent_perm (representative_edge base <$> ls)); [|by eapply set_inequivalent].
    rewrite Hp. apply reflexive_eq, list_fmap_ext. intros k l Hl. symmetry. rewrite Forall_forall in Hsp.
    apply (alive_rep max_equivalents base σ' l Hb). destruct (Hsp l) as (i&?&?&_); [by eapply list_elem_of_lookup_2|]. by exists i.
  - intros l Hl. rewrite Hp. by apply Hsub.
  - eapply (improves_trans max_equivalents); [exact Himp|by apply (improves_subseteq max_equivalents)].
Qed.

Lemma alive_extends sp σ σ' ls : σ ⊆ σ' -> Forall (at_span sp σ) ls -> Forall (at_span sp σ') ls /\ forall i, equiv_ok σ i -> equiv_ok σ' i.
Proof.
  intros Hs Hls. split; [|intros i; by apply equiv_ok_subseteq]. eapply Forall_impl; [exact Hls|].
  intros l (i&Hi&Hok&?). exists i. split; [by eapply lookup_weaken|]. split; [by eapply equiv_ok_subseteq|done].
Qed.

(** The second pass, from the graph that the first has made. *)
Lemma apply_in_order_ok sp σ starts ls set s c order : Forall (at_span sp σ) starts -> ls ≡ₚ starts -> room (length starts) ->
  set_holds (Z.of_nat (length starts)) σ set ls -> dag_valid sp σ holds c s -> (len s <= vertices_bound (length starts))%nat ->
  order ≡ₚ seq 0 (len s) -> edges_backward (targets s) order ->
  exists σ' ef' f' set' ls', apply_in_order (graph s) (targets s) (dag_store s) (dag_factory s) create set = Some (Ok (σ', ef', f', set')) /\
    applied sp σ starts σ' set' ls'.
Proof.
  intros Hst Hp [_ _ R3 R4] Hset [(base&j&_&Hsub&Hh&[Hnames _]) Hdeg] Hlen Ho Hb.
  destruct (topological_sort_ok (len s) (targets s) order Ho Hb) as (order'&Hsort&Ho'&_).
  unfold apply_in_order. rewrite Hsort. cbn [mbind option_bind].
  assert (Hbase : base ⊆ dag_store s) by by eapply holds_sub.
  assert (Hs : σ ⊆ dag_store s) by by etrans. destruct (alive_extends sp σ (dag_store s) starts Hs Hst) as [Hst' Hmono].
  pose proof (Permutation_length Ho') as Hol. rewrite length_seq in Hol.
  assert (Hroom : (length (rev order') <= vertices_bound (length starts))%nat) by (by rewrite length_rev, Hol).
  destruct (apply_to_vertices_ok sp max_rules' max_calls' holds' (graph s) (rev order') (Z.of_nat (length starts)) 0
    (dag_store s) (dag_store s) (dag_factory s) create set ls) as (base'&σ'&ef'&f'&set'&ls'&Hrun&[G1 G2 G3 G4 G5 _]&_).
  - apply Hcreate'.
  - by apply (set_holds_subseteq _ _ _ _ σ).
  - by rewrite Hp.
  - cbn. lia.
  - etrans; [|exact R4]. apply Z.add_le_mono_l, Nat2Z.inj_le. by apply Nat.mul_le_mono_r.
  - apply Forall_forall. intros v Hv. rewrite <- (Permutation_rev order'), Ho' in Hv.
    apply elem_of_seq in Hv. destruct (lookup_lt_is_Some_2 (graph s) v) as [x Hx]; [lia|].
    destruct (Hnames v x Hx) as (i&Hi&Hok&_&Hsp&Hr). exists x, i. split; [done|]. split; [|split; [|split; [|done]]].
    + etrans; [|exact Hdegree]. specialize (Hdeg v). unfold targets in Hdeg. by rewrite Hx, length_fmap in Hdeg.
    + by eapply lookup_weaken.
    + exact (equiv_ok_subseteq max_equivalents base _ i Hbase Hok).
  - pose proof HF' as [Hsub' _ _ _ _].
    destruct (applied_intro sp σ starts _ base' σ' set' ls' (Hsub' _ _ _ _ _ G1) G2 G3) as (ls2&Hap).
    + eapply (improves_trans max_equivalents); [by apply (improves_subseteq max_equivalents)|done].
    + rewrite <- Hp. done.
    + exists σ', ef', f', set', ls2. split; [exact Hrun|done].
Qed.

Lemma start_sorted sp σ starts : starts_ok sp σ starts ->
  let sorted := std_sort (greater_edge_score σ) starts in
  starts_ok sp σ sorted /\ sorted ≡ₚ starts /\ length sorted = length starts.
Proof.
  intros [Hst Hne] sorted. assert (Hp : sorted ≡ₚ starts) by apply std_sort_perm.
  split; [split; [by rewrite Hp|]|split; [done|by apply Permutation_length]].
  apply (inequivalent_perm (representative_edge σ <$> starts)); [by rewrite Hp|done].
Qed.

(** C13: The graph of unary rules has no cycle: the depth-first search that makes it ends,
    within a number of vertices that depends on the start edges and the depth of two,
    and leaves an order of the vertices in which every edge goes to an earlier one. *)
Theorem unary_graph_acyclic sp σ ef starts : starts_ok sp σ starts -> room (length starts) ->
  exists set0 s set s' order, oa_hashtable_default 0 = Some (Ok set0) /\
    add_start_edges (std_sort (greater_edge_score σ) starts) (mk_dag σ ef create [] [] ∅ 0) set0 = Some (Ok (s, set)) /\
    depth_first_search creation_visitor s = Some (Ok s') /\ (len s' <= vertices_bound (length starts))%nat /\
    order ≡ₚ seq 0 (len s') /\ edges_backward (targets s') order.
Proof.
  intros Hst Hroom. destruct (start_sorted sp σ starts Hst) as (Hst'&Hp&Hlen).
  destruct (set_new hash_token hash_span max_equivalents σ) as (set0&Hset0&Hh0).
  destruct (dag_made sp σ ef _ set0 Hst') as (s&set&ls&s'&order&c&H1&_&_&H2&_&H3&H4&H5&_); [rewrite Hlen; exact Hroom|exact Hh0|].
  exists set0, s, set, s', order. rewrite Hlen in H3. repeat split; assumption.
Qed.

(** Both passes. *)
Lemma unary_applications_end sp σ ef starts : starts_ok sp σ starts -> room (length starts) ->
  exists σ' ef' set ls, new_unary_applications starts σ ef create = Some (Ok (σ', ef', set)) /\ applied sp σ starts σ' set ls.
Proof.
  intros Hst Hroom. destruct (start_sorted sp σ starts Hst) as (Hst'&Hp&Hlen). unfold new_unary_applications.
  destruct (set_new hash_token hash_span max_equivalents σ) as (set0&Hset0&Hh0). rewrite Hset0. clear Hset0. cbn [rbind mbind option_bind].
  destruct (dag_made sp σ ef _ set0 Hst') as (s&set&ls&s'&order&c&H1&Hls&Hset&H2&Hval&H3&H4&H5&Hsub); [rewrite Hlen; exact Hroom|exact Hh0|].
  rewrite H1. cbn [rbind mbind option_bind]. rewrite Hlen in Hset, H3. rewrite Hp in Hls.
  rewrite (set_empty _ _ _ _ _ _ _ Hset). destruct ls as [|l ls]; cbn [negb].
  - apply Permutation_nil_l in Hls. subst starts. destruct (set_values _ _ _ _ _ _ _ Hset) as (ls'&Hv&Hn%Permutation_nil_r). subst ls'.
    exists (dag_store s), (dag_factory s), set, []. split; [done|]. split; [done|constructor|done|done|by apply (improves_subseteq max_equivalents)].
  - destruct (apply_in_order_ok sp σ starts (l :: ls) set s' c order (proj1 Hst) Hls Hroom Hset Hval H3 H4 H5)
      as (σ'&ef'&f'&set'&ls'&Hrun&Hap).
    rewrite H2. cbn [rbind mbind option_bind]. rewrite Hrun. cbn [rbind mbind option_bind].
    exists σ', ef', set', ls'. split; [done|exact Hap].
Qed.

Lemma room_mono n m : (n <= m)%nat -> room m -> room n.
Proof.
  intros Hnm [R1 R2 R3 R4]. pose proof (discoveries_mono n m Hnm) as Hd. pose proof (vertices_bound_mono n m Hnm) as Hv.
  split; [lia|by etrans|by etrans|]. etrans; [|exact R4].
  pose proof (Nat.mul_le_mono_r _ _ (1 + max_collected) Hv). lia.
Qed.

(** C12: Unary rule application never fails.  From constituents of one span, no two of them
    equivalent, it ends with a set of constituents of that span, no two equivalent, in
    which every start edge still is; no equivalence of the store, of this span or
    another, is lost or has a worse representative than before. *)
Theorem unary_applications_succeed sp σ ef starts : starts_ok sp σ starts -> room (length starts) ->
  exists σ' ef' set ls, new_unary_applications starts σ ef create = Some (Ok (σ', ef', set)) /\ applied sp σ starts σ' set ls.
Proof. exact (unary_applications_end sp σ ef starts). Qed.
End whole.
End unary_applications.

(** * Samples

    The rule [10 a + b] makes a [b] of an [a]; the rules 12 and 21 make a cycle. *)

#[local] Existing Instances GraphSearch.search_graph GraphSearch.search_graph_laws.
#[local] Existing Instances CubeHeap.sample_combine CubeHeap.cost_compare_sw.

#[local] Instance chain_grammar :
  GrammarOps Z (option Z) (Edge.edge (option Z) Z) (equiv_store (option Z) Z) (list (Z * option Z * option Z)) := {|
  rule_rhs r i := [sample_tag (r / 10)] !! i;
  rule_rhs_size _ := 1;
  rule_lhs r := sample_tag (r mod 10);
  rule_number r := r;
  rule_score _ := Some (-1);
  rule_score_estimate _ := Some 0;
  create_info _ _ _ _ := [(0, Some (-1), Some 0)]
|}.

Definition chain_rules : list Z := [12; 21; 13; 23].
Definition chain_edge (t inside : Z) : Edge.edge (option Z) Z :=
  mk_edge (sample_tag t) 0 None None (Some inside) (Some inside) (mk_span 0 1) 0.

(** Equivalences of tags 1 and 2. *)
Definition chain_store : equiv_store (option Z) Z :=
  <[1%positive := mk_equiv [] (chain_edge 1 (-4))]> {[2%positive := mk_equiv [] (chain_edge 2 (-7))]}.
Definition chain_factory : edge_factory (option Z) := mk_factory None id (Some 0) 0.
Definition chain_map : option sorted_rhs_map :=
  new_sorted_rhs_map rule_lhs rule_rhs_size rule_rhs rule_score chain_rules.

Abbreviation chain_filter f0 := (mk_stub f0 []).

Example chain_results :
  match chain_map, new_filter (score := option Z) (new_histogram 10) with
  | Some m, Some (Ok f0) =>
      match new_unary_applications typ_and_idx sample_hash_span 4 id (UnaryFilter0 := exhaustive_unary_filter typ_and_idx sample_hash_span 4 1)
        m false 2 4 [1%positive] chain_store chain_factory (chain_filter f0) with
      | Some (Ok (σ, _, set)) =>
          (ls ← unary_results set;
          Some ((fun l => (rt (representative_edge σ l), inside (representative_edge σ l))) <$> ls))
      | _ => None
      end
  | _, _ => None
  end = Some [(sample_tag 1, Some (-4)); (sample_tag 2, Some (-6)); (sample_tag 3, Some (-6))].
Proof. vm_compute. reflexivity. Qed.

Lemma chain_rule_ok (r : Z) : rule_ok rule_rhs_size rule_rhs r.
Proof. apply (array_key_ok [sample_tag (r / 10)]). Qed.

Lemma chain_lhs : Forall (fun r : Z => is_lexical (rule_lhs r) = false) chain_rules.
Proof. by repeat constructor. Qed.

#[local] Instance chain_infos : UnaryInfos (score := option Z) (info_type := Z) (R := Z) 1.
Proof.
  split.
  - intros σ r s e. exists [(0, Some (-1), Some 0)]. split; [apply yields_range|done].
  - intros r. cbn. assert (Hr : 0 <= r mod 10 < 10) by (apply Z.mod_pos_bound; lia).
    unfold is_null, sample_tag. cbn [typ_and_idx]. apply Z.eqb_neq. unfold null_index.
    assert (type_stride = 1073741824) as -> by reflexivity. lia.
Qed.

Lemma chain_unary (t : indexed_token) : (length (with_signature rule_rhs_size rule_rhs [t] chain_rules) <= 2)%nat.
Proof.
  destruct (decide (t = sample_tag 1)) as [->|H1]; [vm_compute; lia|].
  destruct (decide (t = sample_tag 2)) as [->|H2]; [vm_compute; lia|].
  destruct (with_signature _ _ _ _) as [|r l] eqn:E; [cbn; lia|]. exfalso.
  assert (Hr : r ∈ with_signature rule_rhs_size rule_rhs [t] chain_rules) by (rewrite E; left).
  apply list_elem_of_filter in Hr as [Hs Hin]. change (signature _) with [sample_tag (r / 10)] in Hs. injection Hs as Hs.
  unfold chain_rules in Hin. rewrite !elem_of_cons, elem_of_nil in Hin.
  destruct Hin as [->|[->|[->|[->|[]]]]]; [destruct H1|destruct H2|destruct H1|destruct H2]; by rewrite <- Hs.
Qed.

Lemma chain_starts : starts_ok 4 (mk_span 0 1) chain_store [1%positive; 2%positive].
Proof.
  assert (Hok : forall t inside, edge_is_null (chain_edge t inside) = false -> rt (chain_edge t inside) = sample_tag t ->
    1 <= edge_equiv_max 4 (mk_equiv [] (chain_edge t inside)) -> equiv_ok 4 chain_store (mk_equiv [] (chain_edge t inside))).
  { intros t inside Hn _ Hm. split; [split; [done|done]|]. split; [constructor|]. split; [done|cbn; lia]. }
  split.
  - apply Forall_cons; split; [|apply Forall_singleton]; eexists;
      (split; [reflexivity|split; [apply Hok; (done || reflexivity || (vm_compute; discriminate))|split; reflexivity]]).
  - split; [|split; [|done]]; intros r Hr; [|by apply not_elem_of_nil in Hr].
    apply list_elem_of_singleton in Hr as ->. reflexivity.
Qed.

Lemma chain_room : room (H := search_graph) 2 4 84 212 2.
Proof. split; [vm_compute; lia|cbn; lia|vm_compute; lia|vm_compute; discriminate]. Qed.

Abbreviation chain_holds rules := (stub_holds typ_and_idx sample_hash_span 4 (P := histogram_predicate) 1 rules).
Abbreviation chain_exhaustive := (exhaustive_unary_filter typ_and_idx sample_hash_span 4 (R := Z) (P := histogram_predicate) 1).

#[local] Instance chain_laws : UnaryFilterLaws (UnaryFilter0 := chain_exhaustive) 4 2 84 2 (chain_holds 2).
Proof. apply (exhaustive_unary_laws typ_and_idx sample_hash_span 4 1 2 84); vm_compute; discriminate. Qed.

#[local] Instance chain_laws' : UnaryFilterLaws (UnaryFilter0 := chain_exhaustive) 4 4 212 4 (chain_holds 4).
Proof. apply (exhaustive_unary_laws typ_and_idx sample_hash_span 4 1 4 212); vm_compute; discriminate. Qed.

Lemma chain_made : exists m f0, chain_map = Some m /\ new_filter (score := option Z) (new_histogram 10) = Some (Ok f0) /\
  rhs_map_built rule_lhs rule_rhs_size rule_rhs rule_score chain_rules m /\
  forall rules σ, chain_holds rules 0 σ σ [] (mk_stub f0 []).
Proof.
  destruct (new_sorted_rhs_map_built rule_lhs rule_rhs_size rule_rhs rule_score chain_rules) as (m&Hm&Hb).
  { apply Forall_forall. intros r _. apply chain_rule_ok. }
  destruct (new_filter_ok (score := option Z) (info_type := Z) typ_and_idx sample_hash_span 4 (new_histogram 10) chain_store) as (f0&Hf0&_).
  exists m, f0. refine (conj Hm (conj Hf0 (conj Hb _))). intros rules σ. exact (stub_holds_new _ _ _ _ _ _ _ σ Hf0).
Qed.

Lemma unary_graph_acyclic_witness :
  exists m f0 set0 s set s' order, chain_map = Some m /\ new_filter (score := option Z) (new_histogram 10) = Some (Ok f0) /\
    oa_hashtable_default 0 = Some (Ok set0) /\
    add_start_edges typ_and_idx sample_hash_span (std_sort (greater_edge_score chain_store) [1%positive; 2%positive])
      (mk_dag chain_store chain_factory (mk_stub f0 []) [] [] ∅ 0) set0 = Some (Ok (s, set)) /\
    depth_first_search (creation_visitor id (UnaryFilter0 := chain_exhaustive) m true 2) s = Some (Ok s') /\
    (length (graph s') <= vertices_bound 2 2)%nat /\ order ≡ₚ seq 0 (length (graph s')) /\ edges_backward (targets s') order.
Proof.
  destruct chain_made as (m&f0&Hm&Hf0&Hb&Hnew). exists m, f0.
  destruct (unary_graph_acyclic typ_and_idx sample_hash_span 4 id (UnaryFilter0 := chain_exhaustive) m true 2 4 chain_rules
    (proj2 (Forall_forall _ _) (fun r _ => chain_rule_ok r)) rule_score chain_lhs (fun r _ => eq_refl) Hb 2 84 (chain_holds 2) 4 212
    ltac:(vm_compute; discriminate) chain_unary (le_n 4) (mk_stub f0 []) (Hnew 2%nat) (mk_span 0 1) chain_store chain_factory
    [1%positive; 2%positive] chain_starts chain_room) as (set0&s&set&s'&order&H).
  exists set0, s, set, s', order. exact (conj Hm (conj Hf0 H)).
Defined.

Lemma unary_applications_succeed_witness :
  exists m f0 σ ef set ls, chain_map = Some m /\ new_filter (score := option Z) (new_histogram 10) = Some (Ok f0) /\
    new_unary_applications typ_and_idx sample_hash_span 4 id (UnaryFilter0 := chain_exhaustive) m true 2 4
      [1%positive; 2%positive] chain_store chain_factory (mk_stub f0 []) = Some (Ok (σ, ef, set)) /\
    UnaryApplications.applied 4 (mk_span 0 1) chain_store [1%positive; 2%positive] σ set ls.
Proof.
  destruct chain_made as (m&f0&Hm&Hf0&Hb&Hnew). exists m, f0.
  destruct (unary_applications_succeed typ_and_idx sample_hash_span 4 id (UnaryFilter0 := chain_exhaustive) m true 2 4 chain_rules
    (proj2 (Forall_forall _ _) (fun r _ => chain_rule_ok r)) rule_score chain_lhs (fun r _ => eq_refl) Hb 2 84 (chain_holds 2) 4 212 (chain_holds 4)
    ltac:(vm_compute; discriminate) chain_unary (le_n 4) (mk_stub f0 []) (Hnew 2%nat) (Hnew 4%nat) (mk_span 0 1) chain_store chain_factory
    [1%positive; 2%positive] chain_starts chain_room) as (σ&ef&set&ls&H).
  exists σ, ef, set, ls. exact (conj Hm (conj Hf0 H)).
Defined.
