(* ===== verification/BankFinalize.v ===== *)
(** What the bank does when a span is finished: [filter_bank::finalize],
    [apply_unary_rules] and [apply_toplevel_rules]
    (src/sbmt_decoder/include/sbmt/search/impl/filter_bank.ipp).

    The filter of the span is finalized and its edges go to the chart.  Unary rules
    are applied to the constituents of the span and to its words; the span is cleared
    and filled with what they give.  The last span also gets the toplevel rules. *)
From S2P Require Import Prelude Span SpanGen OaTable OaHashtable PriorityTable PriorityQueue TokenStorage Token Edge EdgeEquivalence EdgeQueue FilterPredicate Chart ChartEquiv EdgeFilter SortedCube Generator CubeHeap RuleMap SpanFilter FilterBank GraphSearch UnaryFilter EquivSet UnaryApplications.
Open Scope Z_scope.

Section finalize.
Context {score info_type R G : Type} `{!ScoreOps score, !ScoreZero score, !InfoOps info_type}.
Context `{!Inhabited score, !Inhabited info_type}.
Abbreviation edge := (edge score info_type).
Abbreviation store := (equiv_store score info_type).
Abbreviation factory := (edge_factory score).
Abbreviation chart := (basic_chart score).
Abbreviation queue := (edge_queue score).
Context `{!GrammarOps R score edge store G, !Generator G (info_type * score * score)}.
Context `{!StdAlgorithms (alt_edge score), !StdAlgorithms (R * score), !StdAlgorithms positive, HC : !HashCombine}.
Context `{!GraphAlgorithms}.
Context (hash_token : indexed_token -> Z) (hash_span : span_t -> Z) (max_equivalents : Z).
Abbreviation queue_insert := (queue_insert hash_token hash_span max_equivalents).
Abbreviation queue_insert_edge := (queue_insert_edge hash_token hash_span max_equivalents).
Abbreviation chart_insert_equiv := (chart_insert_equiv hash_token hash_span max_equivalents).

(** The grammar: its rules by number, its unary rules by what they rewrite, those to
    toplevel tags apart. *)
Context (grammar_rule : Z -> R) (gram_unary_rules gram_toplevel_unary_rules : indexed_token -> list R).

(** The filters of spans, of unary rules and of the unary toplevel rules. *)
Context {F : Type} `{!SpanFilter (score := score) (info_type := info_type) (R := R) F}.
Context {UF : Type} `{!UnaryFilter (score := score) (info_type := info_type) (R := R) UF}.
Context {P : Type} `{!FilterPredicate (score := score) (info_type := info_type) P}.
Abbreviation edge_filter := (predicate_edge_filter (score := score) (P := P)).
Abbreviation filter_bank := (filter_bank (score := score) (R := R) (F := F)).
Context (create : span_t -> F) (create_unary : span_t -> UF) (create_toplevel : span_t -> edge_filter).
Implicit Types (σ : store) (ef : factory) (ch : chart) (q : queue) (b : filter_bank) (s : span_t) (r : R).

(** Fuel: the edges that a filter yields, the infos of an application, the edges of
    unary rules in the two passes of [UnaryApplications]. *)
Context (max_filtered max_infos max_edges max_collected : nat).

Definition set_chart ch b : filter_bank := mk_bank ch (span_filter_map b) (total_span b) (rhs_map b) (bank_sig_map b).

(** The bank of another sentence. *)
Definition set_total t b : filter_bank := mk_bank (bank_chart b) (span_filter_map b) t (rhs_map b) (bank_sig_map b).

(** [while (not pf->empty())]: an equivalence keeps its place when it is transferred
    from one pool to the other. *)
Fixpoint drain_filter (fuel : nat) σ (f : F) ch : option (store * chart * F) :=
  em ← sf_empty f;
  if (em : bool) then Some (σ, ch, f)
  else
    match fuel with
    | O => None
    | S fuel =>
        eq ← sf_top f;
        '(σ, ch) ← chart_insert_equiv σ eq ch;
        f ← sf_pop σ f;
        drain_filter fuel σ f ch
    end.

(** * The start edges *)

Fixpoint queue_edges (ls : list positive) σ q : option (result (store * queue)) :=
  match ls with
  | [] => Some (Ok (σ, q))
  | l :: ls => '(σ, _, q) ⇐ queue_insert σ l q; queue_edges ls σ q
  end.

(** [while (gen) equeue.insert(epool, gen())] *)
Fixpoint queue_generated (n : nat) σ (g : edge_generator score G) ef q : option (result (store * factory * queue)) :=
  if edge_generator_more g then
    match n with
    | O => None
    | S n => c ← edge_generator_call σ g ef;
             '(σ, _, q) ⇐ queue_insert_edge σ c.1.1 q;
             queue_generated n σ c.1.2 c.2 q
    end
  else Some (Ok (σ, ef, q)).

Fixpoint queue_unary (rr : list R) (l : positive) σ ef q : option (result (store * factory * queue)) :=
  match rr with
  | [] => Some (Ok (σ, ef, q))
  | r :: rr =>
      g ← create_unary_edge ef σ r (Some l);
      '(σ, ef, q) ⇐ queue_generated max_infos σ g ef q;
      queue_unary rr l σ ef q
  end.

(** The edges of a cell of words. *)
Fixpoint queue_words (ls : list positive) (c : unordered_cell score) σ ef q source_words
  : option (result (store * factory * queue * list positive)) :=
  match ls with
  | [] => Some (Ok (σ, ef, q, source_words))
  | l :: ls =>
      let source_words := source_words ++ [l] in
      t ← cell_root σ c;
      '(σ, ef, q) ⇐ queue_unary (gram_unary_rules t) l σ ef q;
      queue_words ls c σ ef q source_words
  end.

Fixpoint queue_cells (cs : list (unordered_cell score)) σ ef q source_words
  : option (result (store * factory * queue * list positive)) :=
  match cs with
  | [] => Some (Ok (σ, ef, q, source_words))
  | c :: cs =>
      t ← cell_root σ c;
      '(σ, ef, q, source_words) ⇐
        (if negb (is_lexical t) then '(σ, q) ⇐ queue_edges (edge_container c) σ q; Some (Ok (σ, ef, q, source_words))
         else queue_words (edge_container c) c σ ef q source_words);
      queue_cells cs σ ef q source_words
  end.

(** * [apply_unary_rules] *)

(** [start_edges.find(eq) != start_edges.end()] *)
Definition is_start_edge σ (starts : list positive) (eq : positive) : bool :=
  existsb (fun l => equal_to (representative_edge σ l) (representative_edge σ eq)) starts.

Fixpoint insert_unary_results (starts us : list positive) σ ch : option (store * chart) :=
  match us with
  | [] => Some (σ, ch)
  | u :: us =>
      '(σ, ch) ← (if is_start_edge σ starts u then Some (σ, ch) else chart_insert_equiv σ u ch);
      insert_unary_results starts us σ ch
  end.

Fixpoint insert_missing (starts : list positive) σ ch : option (store * chart) :=
  match starts with
  | [] => Some (σ, ch)
  | l :: starts =>
      e ← representative σ (Some l);
      pos ← chart_find σ e ch;
      '(σ, ch) ← (match pos with None => chart_insert_equiv σ l ch | Some _ => Some (σ, ch) end);
      insert_missing starts σ ch
  end.

Definition apply_unary_rules (starts : list positive) s σ ef b : option (result (store * factory * filter_bank)) :=
  '(σ, ef, set) ⇐ new_unary_applications hash_token hash_span max_equivalents grammar_rule (rhs_map b) false
                    max_edges max_collected starts σ ef (create_unary s);
  us ← unary_results set;
  '(σ, ch) ← insert_unary_results starts us σ (bank_chart b);
  '(σ, ch) ← insert_missing starts σ ch;
  Some (Ok (σ, ef, set_chart ch b)).

Fixpoint insert_words (words : list positive) σ ch : option (store * chart) :=
  match words with
  | [] => Some (σ, ch)
  | l :: words => '(σ, ch) ← chart_insert_equiv σ l ch; insert_words words σ ch
  end.

(** The unary rules of a span: the chart from before the loop over the cells to after
    the loop over the words. *)
Definition finalize_unary s σ ef b : option (result (store * factory * filter_bank)) :=
  equeue ⇐ new_edge_queue;
  '(σ, ef, equeue, source_words) ⇐ queue_cells (chart_cells s (bank_chart b)) σ ef equeue [];
  ch ← chart_clear_span s (bank_chart b);
  starts ← queue_elements equeue;
  '(σ, ef, b) ⇐ apply_unary_rules starts s σ ef (set_chart ch b);
  '(σ, ch) ← insert_words source_words σ (bank_chart b);
  Some (Ok (σ, ef, set_chart ch b)).

(** * [apply_toplevel_rules] *)

Fixpoint apply_toplevel_reps (rs : list R) (c : unordered_cell score) s2 b σ ef (f : F) : option (result (store * factory * F)) :=
  match rs with
  | [] => Some (Ok (σ, ef, f))
  | r :: rs =>
      rr ← toplevel_rules rule_rhs_size rule_rhs (rule_key rule_rhs_size rule_rhs r) (rhs_map b);
      rhs2 ← rule_rhs r 1;
      let er1 := edge_container c in
      er2 ← chart_edges σ rhs2 s2 (bank_chart b);
      '(σ, ef, f) ⇐ sf_apply_rules σ ef rr er1 er2 f;
      apply_toplevel_reps rs c s2 b σ ef f
  end.

Fixpoint apply_toplevel_cells (cs : list (unordered_cell score)) s2 b σ ef (f : F) : option (result (store * factory * F)) :=
  match cs with
  | [] => Some (Ok (σ, ef, f))
  | c :: cs =>
      t ← cell_root σ c;
      rs ← toplevel_reps rule_rhs_size rule_rhs t (bank_sig_map b);
      '(σ, ef, f) ⇐ apply_toplevel_reps rs c s2 b σ ef f;
      apply_toplevel_cells cs s2 b σ ef f
  end.

Fixpoint apply_toplevel_splits (parts : list (span_t * span_t)) b σ ef (f : F) : option (result (store * factory * F)) :=
  match parts with
  | [] => Some (Ok (σ, ef, f))
  | (first_constit, second_constit) :: parts =>
      '(σ, ef, f) ⇐ apply_toplevel_cells (chart_cells first_constit (bank_chart b)) second_constit b σ ef f;
      apply_toplevel_splits parts b σ ef f
  end.

(** [apply_unary_rule] *)
Abbreviation insert_generated := (insert_generated hash_token hash_span max_equivalents).
Fixpoint apply_unary_rule r (er : list positive) σ ef (f : edge_filter) : option (result (store * factory * edge_filter)) :=
  match er with
  | [] => Some (Ok (σ, ef, f))
  | l :: er =>
      g ← create_unary_edge ef σ r (Some l);
      '(σ, ef, f) ⇐ insert_generated max_infos σ g ef f;
      apply_unary_rule r er σ ef f
  end.

Fixpoint apply_toplevel_unary (rr : list R) (er : list positive) σ ef (f : edge_filter) : option (result (store * factory * edge_filter)) :=
  match rr with
  | [] => Some (Ok (σ, ef, f))
  | r :: rr => '(σ, ef, f) ⇐ apply_unary_rule r er σ ef f; apply_toplevel_unary rr er σ ef f
  end.

Fixpoint apply_unary_cells (cs : list (unordered_cell score)) b σ ef (f : edge_filter) : option (result (store * factory * edge_filter)) :=
  match cs with
  | [] => Some (Ok (σ, ef, f))
  | c :: cs =>
      t ← cell_root σ c;
      er ← chart_edges σ t (total_span b) (bank_chart b);
      '(σ, ef, f) ⇐ apply_toplevel_unary (gram_toplevel_unary_rules t) er σ ef f;
      apply_unary_cells cs b σ ef f
  end.

(** [while (not unary_filter.empty())] *)
Fixpoint drain_edge_filter (fuel : nat) σ (f : edge_filter) ch : option (store * chart) :=
  em ← filter_empty f;
  if (em : bool) then Some (σ, ch)
  else
    match fuel with
    | O => None
    | S fuel =>
        eq ← filter_top f;
        '(σ, ch) ← chart_insert_equiv σ eq ch;
        f ← filter_pop hash_token hash_span σ f;
        drain_edge_filter fuel σ f ch
    end.

Definition apply_toplevel_rules σ ef b : option (result (store * factory * filter_bank)) :=
  pg ← partitions_of (total_span b);
  let unary_filter := create_toplevel (total_span b) in
  let binary_filter := create (total_span b) in
  '(σ, ef, binary_filter) ⇐ apply_toplevel_splits pg b σ ef binary_filter;
  '(σ, ef, unary_filter) ⇐ apply_unary_cells (chart_cells (total_span b) (bank_chart b)) b σ ef unary_filter;
  '(σ, ef, binary_filter) ⇐ sf_finalize σ ef binary_filter;
  let unary_filter := filter_finalize unary_filter in
  '(σ, ch, _) ← drain_filter max_filtered σ binary_filter (bank_chart b);
  '(σ, ch) ← drain_edge_filter max_filtered σ unary_filter ch;
  Some (Ok (σ, ef, set_chart ch b)).

(** * [finalize] *)

Definition bank_finalize s σ ef b : option (result (store * factory * filter_bank)) :=
  let '(pf, b) := bank_get_create create s b in
  match pf with
  | None => Some (Ok (σ, ef, b))
  | Some f =>
      if sf_is_finalized f then Some (Ok (σ, ef, b))
      else
        '(σ, ef, f) ⇐ sf_finalize σ ef f;
        '(σ, ch, _) ← drain_filter max_filtered σ f (bank_chart b);
        '(σ, ef, b) ⇐ finalize_unary s σ ef (set_chart ch b);
        let b := set_filter s None b in
        if span_eqb (total_span b) s then apply_toplevel_rules σ ef b else Some (Ok (σ, ef, b))
  end.
End finalize.

(** * Finalizing a span

    A filter that is finalized hands out the equivalences [ls], in an order of its
    own; writing to others does not change that. *)
Section finalizing.
Context {score info_type R G : Type} `{!ScoreOps score, !ScoreZero score, !InfoOps info_type}.
Context `{!Inhabited score, !Inhabited info_type}.
Abbreviation edge := (edge score info_type).
Abbreviation store := (equiv_store score info_type).
Abbreviation factory := (edge_factory score).
Abbreviation chart := (basic_chart score).
Abbreviation queue := (edge_queue score).
Context `{!GrammarOps R score edge store G, !Generator G (info_type * score * score)}.
Context `{!StdAlgorithms (alt_edge score), !StdAlgorithms (R * score), !StdAlgorithms positive, HC : !HashCombine}.
Context `{!GraphAlgorithms}.
Context (hash_token : indexed_token -> Z) (hash_span : span_t -> Z) (max_equivalents : Z).
Context `{!StdAlgorithmLaws (alt_edge score), !InfoLaws info_type, !StrictWeak (score_lt (S := score)), !ScoreZeroLaws score}.
Abbreviation equiv_ok := (equiv_ok max_equivalents).
Abbreviation writes := (writes max_equivalents).
Abbreviation improves := (improves max_equivalents).
Abbreviation chart_typed := (chart_typed max_equivalents).
Abbreviation chart_grows := (chart_grows max_equivalents).
Abbreviation span_changes := (span_changes max_equivalents).
Abbreviation kept := (kept max_equivalents).
Abbreviation at_key := (at_key max_equivalents).
Abbreviation at_span := (at_span max_equivalents).
Abbreviation drain_filter := (drain_filter hash_token hash_span max_equivalents).
Implicit Types (σ : store) (ef : factory) (ch : chart) (q : queue) (s : span_t) (r : R) (ls us words : list positive) (k : Z * Z).

Class FilterDrains {F} `{!SpanFilter (score := score) (info_type := info_type) (R := R) F} (ready : store -> F -> list positive -> Prop) : Prop := {
  fd_empty σ (f : F) ls : ready σ f ls -> sf_empty f = Some (bool_decide (ls = []));
  fd_next σ (f : F) ls : ready σ f ls -> ls <> [] -> exists l ls' f', sf_top f = Some l /\ sf_pop σ f = Some f' /\
    ls ≡ₚ l :: ls' /\ ready σ f' ls';
  fd_write σ (f : F) ls l i : ready σ f ls -> l ∉ ls -> writes σ l i -> ready (<[l := i]> σ) f ls
}.

Section drain.
Context {F : Type} `{!SpanFilter (score := score) (info_type := info_type) (R := R) F}.
Context (ready : store -> F -> list positive -> Prop) `{!FilterDrains ready}.

(** What is ready is still so when an equivalence has been put into the chart. *)
Lemma ready_put σ (f : F) ls l i σ' before after : ready σ f ls -> (forall x, before x -> x ∉ ls) ->
  equiv_put hash_token hash_span max_equivalents σ l i before after σ' -> ready σ' f ls.
Proof. intros Hr Hb [|w j j' Hw _ _ _ _ Hwr _]; [done|]. apply fd_write; auto. Qed.

Lemma drain_filter_ok k : forall fuel ls σ (f : F) ch, ready σ f ls -> chart_typed σ ch -> NoDup ls -> Forall (at_key σ k) ls ->
  (forall l, l ∈ ls -> ~ in_chart ch k l) -> is_Some (span_container ch !! k) -> (length ls <= fuel)%nat ->
  exists σ' ch' f', drain_filter fuel σ f ch = Some (σ', ch', f') /\ chart_grows k σ ch σ' ch' /\
    (forall l i, l ∈ ls -> σ !! l = Some i -> kept σ' ch' k (m_rep i)) /\
    (forall x, in_chart ch' k x -> in_chart ch k x \/ x ∈ ls) /\
    (forall x, ~ in_chart ch k x -> x ∉ ls -> σ' !! x = σ !! x).
Proof.
  induction fuel as [|fuel IH]; intros ls σ f ch Hr Ht Hnd Hat Hno Hk Hlen; cbn [BankFinalize.drain_filter];
    rewrite (fd_empty σ f ls Hr); cbn [mbind option_bind];
    (destruct (decide (ls = [])) as [->|Hne]; [rewrite bool_decide_true by done|rewrite bool_decide_false by done]).
  - exists σ, ch, f. split; [done|]. split; [by apply chart_grows_refl|]. split; [by intros l i ?%elem_of_nil|]. split; [by left|done].
  - destruct ls; [done|cbn in Hlen; lia].
  - exists σ, ch, f. split; [done|]. split; [by apply chart_grows_refl|]. split; [by intros l i ?%elem_of_nil|]. split; [by left|done].
  - destruct (fd_next σ f ls Hr Hne) as (l&ls'&f1&Htop&_&Hp&_). rewrite Htop. cbn [mbind option_bind].
    pose proof Hat as Hat'. rewrite Hp in Hat'. apply Forall_cons in Hat' as [(i&Hi&Hok&<-) _].
    assert (Hl : l ∈ ls) by (rewrite Hp; left).
    destruct (chart_insert_equiv_ok hash_token hash_span max_equivalents σ l i ch) as (σ1&ch1&->&Hg&Hkept&Hput); [done|done|done|done|by apply Hno|].
    cbn [mbind option_bind]. set (k := span_key (spn (m_rep i))) in *.
    pose proof (ready_put σ f ls l i σ1 _ _ Hr (fun x Hx Hin => Hno x Hin Hx) Hput) as Hr1.
    destruct (fd_next σ1 f ls Hr1 Hne) as (l1&ls1&f2&Htop1&->&Hp1&Hr2). rewrite Htop in Htop1. injection Htop1 as <-.
    cbn [mbind option_bind]. assert (Hsub : forall x, x ∈ ls1 -> x ∈ ls) by (intros x Hx; rewrite Hp1; by right).
    assert (Hl1 : (l ∉ ls1) /\ NoDup ls1) by (apply NoDup_cons; by rewrite <- Hp1).
    assert (Hafter : forall x, in_chart ch1 k x -> in_chart ch k x \/ x = l).
    { destruct Hput as [Ha _|? ? ? _ _ _ _ _ _ Ha]; intros x Hx%Ha; [done|by left]. }
    assert (Hsame : forall x, ~ in_chart ch k x -> σ1 !! x = σ !! x).
    { destruct Hput as [_ _|w j j' Hw _ _ _ _ _ _]; [done|]. intros x Hx. rewrite lookup_insert_ne; [done|]. by intros ->. }
    destruct (IH ls1 σ1 f2 ch1 Hr2 (cg_typed _ _ _ _ _ _ Hg)) as (σ2&ch2&f3&->&Hg2&Hkept2&Hin2&Hsame2).
    + apply Hl1.
    + apply Forall_forall. intros x Hx. rewrite Forall_forall in Hat.
      apply (at_key_improves max_equivalents σ); [apply Hg|by apply Hat, Hsub].
    + intros x Hx Hin. apply Hafter in Hin as [Hin| ->]; [by apply (Hno x (Hsub x Hx))|by apply Hl1].
    + eapply span_kept; [by eapply grows_changes|done].
    + pose proof (Permutation_length Hp1) as E. cbn in E. lia.
    + exists σ2, ch2, f3. split; [done|]. split; [by eapply chart_grows_trans|]. split.
      * intros x j Hx Hj. rewrite Hp1 in Hx. apply elem_of_cons in Hx as [->|Hx].
        -- rewrite Hi in Hj. injection Hj as <-. by eapply kept_grows.
        -- rewrite Forall_forall in Hat. destruct (Hat x (Hsub x Hx)) as (j0&Hj0&Hokj&_). rewrite Hj in Hj0. injection Hj0 as <-.
           destruct (im_at _ _ _ (cg_store _ _ _ _ _ _ Hg) x j Hj Hokj) as (j1&Hj1&_&He&Hs).
           apply (kept_le max_equivalents σ2 ch2 k _ (m_rep j1)); [by apply (Hkept2 x)|exact He|exact Hs].
      * split; [intros x [Hx|Hx]%Hin2; [|right; by apply Hsub]; apply Hafter in Hx as [Hx| ->]; [by left|by right]|].
        intros x Hx Hxl. rewrite Hsame2, Hsame; [done|done| |by intros ?%Hsub]. intros [?| ->]%Hafter; [done|by apply Hxl].
Qed.
End drain.

(** ** The start edges *)

Abbreviation rewrites := (rewrites (score := score) (info_type := info_type) (R := R) (G := G)).
Abbreviation edge_equiv_max := (edge_equiv_max max_equivalents).
Abbreviation queue_ok := (queue_ok hash_token hash_span max_equivalents).
Abbreviation items q := (priority_heap (ptable q)).
Abbreviation queued := (queued (score := score) (info_type := info_type)).
Abbreviation distinct := (distinct (score := score) (info_type := info_type)).

(** The store grows by an equivalence of the queue, or one of them improves. *)
Lemma queue_inserted_improves n s σ q e σ' q' : queue_ok n σ q -> edge_ok σ e -> constituent s e ->
  1 <= edge_equiv_max (pool_create e) -> Forall (at_span s σ) (items q) ->
  queue_inserted hash_token hash_span max_equivalents σ q e σ' q' -> improves σ σ' /\ Forall (at_span s σ') (items q').
Proof.
  intros Hq He Hes Hm Hsp [q1 l Hl _ Hit _|q1 l i i' rest Hl Hi Heq Hins Hit _ _].
  - assert (Hw : writes σ l (pool_create e)) by by apply new_writes.
    assert (Him : improves σ (<[l := pool_create e]> σ)) by (apply (improves_write max_equivalents); [done|congruence]).
    split; [done|]. rewrite Hit. constructor; [|eapply Forall_impl; [exact Hsp|]; intros x; by apply at_span_improves].
    exists (pool_create e). rewrite lookup_insert_eq. split; [done|]. split; [apply equiv_ok_write; [done|apply Hw]|done].
  - destruct (queue_live _ _ _ _ _ _ _ Hq Hl) as (i0&Hi0&Hok&_). rewrite Hi in Hi0. injection Hi0 as <-.
    destruct (insert_edge_step hash_token hash_span max_equivalents σ e i Hok He Heq) as (i1&Hins1&Hstep).
    rewrite Hins in Hins1. injection Hins1 as <-.
    destruct (step_writes max_equivalents σ l i e i' Hok Hi Heq Hstep) as [Hw _].
    assert (Him : improves σ (<[l := i']> σ)).
    { apply (improves_write max_equivalents); [done|]. intros i2 Hi2. rewrite Hi in Hi2. injection Hi2 as <-.
      destruct Hstep as (_&->&_). pose proof (best_edge_best (m_rep i) [e]) as [? _]%Forall_cons. done. }
    split; [done|]. rewrite Hit. eapply Forall_impl; [exact Hsp|]. intros x. by apply at_span_improves.
Qed.

Section starts.
Context (gram_unary_rules : indexed_token -> list R) (max_infos max_word_rules : nat) `{!UnaryInfos (R := R) max_infos}.
Context (Hgram : forall t, (length (gram_unary_rules t) <= max_word_rules)%nat /\ forall r, r ∈ gram_unary_rules t -> rewrites t r).
Context (Hmax : 1 <= u32 max_equivalents).
Abbreviation queue_cells := (queue_cells hash_token hash_span max_equivalents gram_unary_rules max_infos).

(** Constituents go to the queue as they are. *)
Lemma queue_edges_new k ls : forall n σ q, queue_ok n σ q -> n + Z.of_nat (length ls) <= pq_limit ->
  Forall (at_key σ k) ls -> NoDup (ls ++ items q) -> distinct σ (ls ++ items q) ->
  exists q', queue_edges hash_token hash_span max_equivalents ls σ q = Some (Ok (σ, q')) /\
    queue_ok (n + Z.of_nat (length ls)) σ q' /\ items q' ≡ₚ ls ++ items q.
Proof.
  induction ls as [|l ls IH]; intros n σ q Hq Hn Hls Hnd Hd; cbn [queue_edges length app] in *.
  { exists q. by rewrite Z.add_0_r. }
  apply Forall_cons in Hls as [(i&Hi&Hok&Hk) Hls]. apply NoDup_cons in Hnd as [Hl Hnd].
  destruct (queue_insert_new_ok hash_token hash_span max_equivalents n σ q l i Hq ltac:(lia) Hi Hok) as (pos&q1&->&Hq1&_&Hit&_).
  { intros r (x&->&Hx)%list_elem_of_fmap. destruct (queue_live _ _ _ _ _ _ _ Hq Hx) as (j&Hj&_).
    rewrite (representative_edge_lookup _ _ _ Hj). apply not_true_is_false. intros He. apply Hl.
    assert (x = l) as <-; [|apply elem_of_app; by right].
    apply (Hd x l j i); [right; apply elem_of_app; by right|left|done..]. }
  cbn [rbind mbind option_bind].
  assert (Hsub : forall x, x ∈ ls ++ items q1 <-> x ∈ l :: ls ++ items q).
  { intros x. by rewrite Hit, <- Permutation_middle. }
  destruct (IH (n + 1) σ q1) as (q2&->&Hq2&Hit2); [done|lia|done| | |].
  - rewrite Hit, <- Permutation_middle. by constructor.
  - intros x y i' j' Hx%Hsub Hy%Hsub. by apply Hd.
  - exists q2. split; [done|]. replace (n + Z.of_nat (S (length ls))) with (n + 1 + Z.of_nat (length ls)) by lia.
    split; [done|]. by rewrite Hit2, Hit, <- Permutation_middle.
Qed.

Lemma queue_cells_constituents k ef words ts cs : forall n σ q, Forall2 (cell_ok max_equivalents σ k) ts cs ->
  Forall (fun t => is_lexical t = false) ts -> queue_ok n σ q -> let ls := cs ≫= edge_container in
  n + Z.of_nat (length ls) <= pq_limit -> NoDup (ls ++ items q) -> distinct σ (ls ++ items q) ->
  exists q', queue_cells cs σ ef q words = Some (Ok (σ, ef, q', words)) /\
    queue_ok (n + Z.of_nat (length ls)) σ q' /\ items q' ≡ₚ ls ++ items q.
Proof.
  intros n σ q Hcs. revert n q. induction Hcs as [|t c ts cs Hc Hcs IH]; intros n q Hts Hq ls Hn Hnd Hd.
  { exists q. cbn. by rewrite Z.add_0_r. }
  change (ls) with (edge_container c ++ (cs ≫= edge_container)) in *. clear ls. cbn [BankFinalize.queue_cells].
  apply Forall_cons in Hts as [Ht Hts]. rewrite (cell_root_ok max_equivalents σ k t c Hc). cbn [mbind option_bind].
  rewrite Ht. cbn [negb]. rewrite length_app in *.
  assert (Hswap : forall (ls1 ls2 : list positive), (ls1 ++ ls2) ++ items q ≡ₚ ls2 ++ ls1 ++ items q).
  { intros. by rewrite (Permutation_app_comm ls1), <- app_assoc. }
  destruct (queue_edges_new k (edge_container c) n σ q Hq ltac:(lia)) as (q1&->&Hq1&Hit1).
  - apply Forall_forall. intros l Hl. destruct Hc as (_&_&Hc&_). destruct (Hc l Hl) as (i&?&?&?&_). by exists i.
  - rewrite Hswap in Hnd. by apply NoDup_app in Hnd as (_&_&?).
  - intros x y i j Hx Hy. apply Hd; rewrite Hswap; apply elem_of_app; by right.
  - cbn [rbind mbind option_bind]. destruct (IH (n + Z.of_nat (length (edge_container c))) q1 Hts Hq1) as (q2&->&Hq2&Hit2).
    + lia.
    + by rewrite Hit1, <- Hswap.
    + intros x y i j. rewrite Hit1, <- Hswap. apply Hd.
    + exists q2. split; [done|]. split; [eapply queue_ok_le; [|exact Hq2]; lia|]. by rewrite Hit2, Hit1, Hswap.
Qed.

(** *** The rules of words

    The queue has only equivalences that the unary rules have made: the store [σ0]
    from before is not written. *)
Record queue_beside (m : nat) σ0 s σ q : Prop := {
  qb_ok : queue_ok (Z.of_nat m) σ q;
  qb_sub : σ0 ⊆ σ;
  qb_fresh l : l ∈ items q -> σ0 !! l = None;
  qb_span : Forall (at_span s σ) (items q);
  qb_length : (length (items q) <= m)%nat
}.

(** An edge that can be put into the queue. *)
Definition queueable σ0 s e : Prop := edge_ok σ0 e /\ constituent s e /\ 1 <= edge_equiv_max (pool_create e).

Lemma queue_beside_step m σ0 s σ q e : queue_beside m σ0 s σ q -> queueable σ0 s e -> Z.of_nat (S m) <= pq_limit ->
  exists σ' pos q', queue_insert_edge hash_token hash_span max_equivalents σ e q = Some (Ok (σ', pos, q')) /\
    queue_beside (S m) σ0 s σ' q'.
Proof.
  intros [Hq Hsub Hfresh Hsp Hlen] (He&Hes&Hm) Hn. assert (Heσ : edge_ok σ e) by by eapply edge_ok_subseteq.
  destruct (queue_insert_edge_ok hash_token hash_span max_equivalents (Z.of_nat m) σ q e Hq ltac:(lia) Heσ Hm)
    as (σ'&pos&q'&Hrun&Hq'&_&Hins). exists σ', pos, q'. split; [done|].
  replace (Z.of_nat m + 1) with (Z.of_nat (S m)) in Hq' by lia.
  destruct (queue_inserted_improves (Z.of_nat m) s σ q e σ' q' Hq Heσ Hes Hm Hsp Hins) as [_ Hsp'].
  destruct Hins as [q' l Hl _ Hit _|q' l i i' rest Hl _ _ _ Hit _ _].
  - split; [done|by apply insert_subseteq_r; [eapply lookup_weaken_None|]| |done|].
    + intros x. rewrite Hit. intros [->|Hx]%elem_of_cons; [by eapply lookup_weaken_None|by apply Hfresh].
    + apply Permutation_length in Hit. cbn in Hit. lia.
  - split; [done|by apply insert_subseteq_r; [apply Hfresh|]| |done|].
    + intros x. rewrite Hit. apply Hfresh.
    + apply Permutation_length in Hit. lia.
Qed.

Lemma queue_beside_le m m' σ0 s σ q : (m <= m')%nat -> queue_beside m σ0 s σ q -> queue_beside m' σ0 s σ q.
Proof. intros Hm [Q1 Q2 Q3 Q4 Q5]. split; try done; [eapply queue_ok_le; [|exact Q1]; lia|lia]. Qed.

Lemma queue_generated_ok σ0 s es : forall n m σ ef q g, makes σ0 g es -> Forall (queueable σ0 s) es -> (length es <= n)%nat ->
  queue_beside m σ0 s σ q -> Z.of_nat (m + length es) <= pq_limit ->
  exists σ' ef' q', queue_generated hash_token hash_span max_equivalents n σ g ef q = Some (Ok (σ', ef', q')) /\
    queue_beside (m + length es) σ0 s σ' q'.
Proof.
  intros n m σ ef q g Hg. revert n m σ ef q.
  induction Hg as [g Hmore|g e g' es Hmore Hcall Hg IH]; intros n m σ ef q Hes Hn Hq Hlim.
  - exists σ, ef, q. split; [destruct n; cbn [queue_generated]; by rewrite Hmore|]. cbn [length]. by rewrite Nat.add_0_r.
  - destruct n as [|n]; [cbn in Hn; lia|]. cbn [queue_generated length] in *. rewrite Hmore.
    rewrite Hcall by apply (qb_sub _ _ _ _ _ Hq). cbn [mbind option_bind fst snd]. apply Forall_cons in Hes as [He Hes].
    destruct (queue_beside_step m σ0 s σ q e Hq He ltac:(lia)) as (σ1&pos&q1&->&Hq1). cbn [rbind mbind option_bind].
    destruct (IH n (S m) σ1 (log_create_edge ef) q1 Hes ltac:(lia) Hq1 ltac:(lia)) as (σ2&ef2&q2&->&Hq2).
    exists σ2, ef2, q2. split; [done|]. by rewrite <- Nat.add_succ_comm.
Qed.

(** The unary rules of a word [l]. *)
Lemma queue_unary_ok σ0 s l i rr : forall m σ ef q, σ0 !! l = Some i -> equiv_ok σ0 i -> spn (m_rep i) = s ->
  (forall r, r ∈ rr -> rewrites (rt (m_rep i)) r) ->
  queue_beside m σ0 s σ q -> Z.of_nat (m + length rr * max_infos) <= pq_limit ->
  exists σ' ef' q', queue_unary hash_token hash_span max_equivalents max_infos rr l σ ef q = Some (Ok (σ', ef', q')) /\
    queue_beside (m + length rr * max_infos) σ0 s σ' q'.
Proof.
  induction rr as [|r rr IH]; intros m σ ef q Hl Hok Hs Hrr Hq Hlim; cbn [queue_unary length Nat.mul] in *.
  { exists σ, ef, q. split; [done|]. by rewrite Nat.add_0_r. }
  destruct (Hrr r ltac:(left)) as (Hr0&Hr1&Hlex). pose proof (proj1 (proj1 Hok)) as Hne.
  assert (Hem : equiv_empty i = false) by done.
  destruct (ui_yields σ r (spn (m_rep i)) (m_rep i)) as (infos&Hy&Hinf).
  destruct (unary_rule_makes σ0 σ ef r l i infos (qb_sub _ _ _ _ _ Hq) Hl Hem Hr0 Hr1 Hy) as (g&->&Hg).
  cbn [mbind option_bind]. set (es := _ <$> infos) in Hg. assert (Hes : (length es <= max_infos)%nat) by (unfold es; by rewrite length_fmap).
  destruct (queue_generated_ok σ0 s es max_infos m σ ef q g Hg) as (σ1&ef1&q1&->&Hq1); [|done|done|lia|].
  { apply Forall_fmap, Forall_forall. intros v _. destruct (edge_of_info_unary max_equivalents max_infos Hmax σ0 ef r l i v Hl Hem) as (H1&H2&_).
    split; [done|]. split; [|done]. split; [done|]. done. }
  cbn [rbind mbind option_bind].
  destruct (IH (m + max_infos)%nat σ1 ef1 q1 Hl Hok Hs (fun r' Hr' => Hrr r' (list_elem_of_further _ _ _ Hr'))) as (σ2&ef2&q2&->&Hq2).
  - eapply queue_beside_le; [|exact Hq1]. lia.
  - lia.
  - exists σ2, ef2, q2. split; [done|]. by rewrite Nat.add_assoc.
Qed.

Definition per_word : nat := max_word_rules * max_infos.

Lemma queue_words_ok σ0 s t c ls : forall m σ ef q words, cell_ok max_equivalents σ0 (span_key s) t c ->
  (forall l, l ∈ ls -> l ∈ edge_container c) -> queue_beside m σ0 s σ q -> Z.of_nat (m + length ls * per_word) <= pq_limit ->
  exists σ' ef' q', queue_words hash_token hash_span max_equivalents gram_unary_rules max_infos ls c σ ef q words =
    Some (Ok (σ', ef', q', words ++ ls)) /\ queue_beside (m + length ls * per_word) σ0 s σ' q'.
Proof.
  induction ls as [|l ls IH]; intros m σ ef q words Hc Hls Hq Hlim; cbn [queue_words length Nat.mul] in *.
  { exists σ, ef, q. by rewrite app_nil_r, Nat.add_0_r. }
  rewrite (cell_root_weaken σ0 σ c t (qb_sub _ _ _ _ _ Hq)) by by eapply cell_root_ok. cbn [mbind option_bind].
  destruct Hc as (H1&H2&H3&H4). destruct (H3 l (Hls l ltac:(left))) as (i&Hi&Hok&Hk%span_key_inj&Hrt).
  destruct (Hgram t) as [Hlen Hrr]. assert (Hb : (length (gram_unary_rules t) * max_infos <= per_word)%nat) by (by apply Nat.mul_le_mono_r).
  destruct (queue_unary_ok σ0 s l i (gram_unary_rules t) m σ ef q Hi Hok Hk) as (σ1&ef1&q1&->&Hq1); [by rewrite Hrt|done|lia|].
  cbn [rbind mbind option_bind].
  destruct (IH (m + per_word)%nat σ1 ef1 q1 (words ++ [l])) as (σ2&ef2&q2&->&Hq2); [done| |eapply queue_beside_le; [|exact Hq1]; lia|lia|].
  { intros x Hx. apply Hls. by right. }
  exists σ2, ef2, q2. rewrite <- app_assoc. split; [done|]. by rewrite Nat.add_assoc.
Qed.

Lemma queue_cells_words σ0 s ts cs : Forall2 (cell_ok max_equivalents σ0 (span_key s)) ts cs -> Forall (fun t => is_lexical t = true) ts ->
  forall m σ ef q words, let ls := cs ≫= edge_container in queue_beside m σ0 s σ q -> Z.of_nat (m + length ls * per_word) <= pq_limit ->
  exists σ' ef' q', queue_cells cs σ ef q words = Some (Ok (σ', ef', q', words ++ ls)) /\ queue_beside (m + length ls * per_word) σ0 s σ' q'.
Proof.
  induction 1 as [|t c ts cs Hc Hcs IH]; intros Hts m σ ef q words ls Hq Hlim.
  { exists σ, ef, q. cbn. by rewrite app_nil_r, Nat.add_0_r. }
  change ls with (edge_container c ++ (cs ≫= edge_container)) in *. clear ls. cbn [BankFinalize.queue_cells].
  apply Forall_cons in Hts as [Ht Hts]. rewrite length_app, Nat.mul_add_distr_r, Nat.add_assoc in *.
  rewrite (cell_root_weaken σ0 σ c t (qb_sub _ _ _ _ _ Hq)) by by eapply cell_root_ok. cbn [mbind option_bind]. rewrite Ht. cbn [negb].
  destruct (queue_words_ok σ0 s t c (edge_container c) m σ ef q words Hc (fun l Hl => Hl) Hq ltac:(lia)) as (σ1&ef1&q1&->&Hq1).
  cbn [rbind mbind option_bind].
  destruct (IH Hts (m + length (edge_container c) * per_word)%nat σ1 ef1 q1 (words ++ edge_container c) Hq1 ltac:(lia)) as (σ2&ef2&q2&->&Hq2).
  exists σ2, ef2, q2. by rewrite <- app_assoc.
Qed.

(** *** All the cells of a span, words or constituents *)

Definition root_of σ l : indexed_token := rt (representative_edge σ l).
Definition uniform σ s ch (b : bool) : Prop := forall l, l ∈ span_members s ch -> is_lexical (root_of σ l) = b.

(** What [queue_cells] leaves: the start edges, and the words. *)
Record starts_made s σ ch σ' starts words : Prop := {
  sm_starts : starts_ok max_equivalents s σ' starts;
  sm_store : improves σ σ';
  sm_cover l : l ∈ span_members s ch -> l ∈ starts \/ l ∈ words;
  sm_words l : l ∈ words -> l ∈ span_members s ch /\ is_lexical (root_of σ l) = true
}.

Lemma cells_uniform σ s ch ts cs b : span_container ch !! span_key s = Some cs -> Forall2 (cell_ok max_equivalents σ (span_key s)) ts cs ->
  uniform σ s ch b -> Forall (fun t => is_lexical t = b) ts.
Proof.
  intros Hcs Hts Hu. apply Forall_forall. intros t [n Hn]%list_elem_of_lookup.
  destruct (Forall2_lookup_l _ _ _ _ _ Hts Hn) as (c&Hc&Hok). destruct (cell_head _ _ _ _ _ Hok) as (l&i&Hl&Hi&_&_&<-).
  rewrite <- (representative_edge_lookup σ l i Hi). apply Hu, in_chart_members. exists cs. split; [done|].
  exists c. split; [by eapply list_elem_of_lookup_2|]. destruct (edge_container c); [done|]. injection Hl as <-. left.
Qed.

Lemma start_constituents s σ ef ch : chart_typed σ ch -> is_Some (span_container ch !! span_key s) -> uniform σ s ch false ->
  Z.of_nat (length (span_members s ch)) <= pq_limit ->
  exists q0 q starts, new_edge_queue = Some (Ok q0) /\ queue_cells (chart_cells s ch) σ ef q0 [] = Some (Ok (σ, ef, q, [])) /\
    queue_elements q = Some starts /\ starts_made s σ ch σ starts [] /\ (length starts <= length (span_members s ch))%nat.
Proof.
  intros Ht [cs Hcs] Hu Hlim. pose proof (members_NoDup max_equivalents σ s ch Ht) as Hnd.
  pose proof (members_distinct max_equivalents σ s ch Ht) as Hd.
  destruct (new_edge_queue_ok hash_token hash_span max_equivalents σ) as (q0&->&[Hq0 _ _ _]&Hi0). exists q0.
  destruct (Ht _ _ Hcs) as (ts&Hts&_). pose proof (cells_uniform σ s ch ts cs false Hcs Hts Hu) as Hlex.
  unfold span_members, chart_cells in *. rewrite Hcs in *. cbn [default] in *.
  destruct (queue_cells_constituents (span_key s) ef [] ts cs 0 σ q0 Hts Hlex Hq0) as (q&Hrun&Hq&Hit); [exact Hlim|by rewrite Hi0, app_nil_r|by rewrite Hi0, app_nil_r|].
  rewrite Hi0, app_nil_r in Hit. destruct (queue_elements_ok hash_token hash_span max_equivalents _ σ q Hq) as (starts&Hst&Hp).
  exists q, starts. split; [done|]. split; [done|]. split; [done|].
  assert (Hin : forall l, l ∈ starts <-> l ∈ cs ≫= edge_container) by (intros l; by rewrite Hp, Hit).
  split; [|by rewrite Hp, Hit]. split; [split| | |].
  - apply Forall_forall. intros l Hl%Hin. destruct (Ht _ _ Hcs) as (ts'&Hts'&_).
    destruct (held_key max_equivalents σ (span_key s) cs l (Ht _ _ Hcs)) as (i&Hi&Hok&Hk%span_key_inj); [by apply held_members|].
    exists i. split; [done|]. split; [done|]. split; [done|]. rewrite <- (Hu l); [|unfold span_members, chart_cells; by rewrite Hcs].
    unfold root_of. by rewrite (representative_edge_lookup σ l i Hi).
  - apply (inequivalent_perm (queued σ q)); [unfold EdgeQueue.queued; by rewrite Hp|by eapply queued_inequivalent].
  - apply (improves_refl max_equivalents).
  - intros l Hl. left. apply Hin. unfold span_members, chart_cells in Hl. by rewrite Hcs in Hl.
  - intros l ?%elem_of_nil. done.
Qed.

Lemma start_words s σ ef ch : chart_typed σ ch -> is_Some (span_container ch !! span_key s) -> uniform σ s ch true ->
  Z.of_nat (length (span_members s ch) * per_word) <= pq_limit ->
  exists q0 σ' ef' q starts, new_edge_queue = Some (Ok q0) /\
    queue_cells (chart_cells s ch) σ ef q0 [] = Some (Ok (σ', ef', q, span_members s ch)) /\
    queue_elements q = Some starts /\ starts_made s σ ch σ' starts (span_members s ch) /\
    (length starts <= length (span_members s ch) * per_word)%nat.
Proof.
  intros Ht [cs Hcs] Hu Hlim. destruct (new_edge_queue_ok hash_token hash_span max_equivalents σ) as (q0&->&[Hq0 _ _ _]&Hi0). exists q0.
  destruct (Ht _ _ Hcs) as (ts&Hts&_). pose proof (cells_uniform σ s ch ts cs true Hcs Hts Hu) as Hlex.
  assert (Hb : queue_beside 0 σ s σ q0) by (split; [exact Hq0|done|intros l; by rewrite Hi0, elem_of_nil|by rewrite Hi0|by rewrite Hi0]).
  assert (Hcells : chart_cells s ch = cs) by (unfold chart_cells; by rewrite Hcs).
  assert (Hmem : span_members s ch = cs ≫= edge_container) by (unfold span_members; by rewrite Hcells).
  rewrite Hmem in Hlim. destruct (queue_cells_words σ s ts cs Hts Hlex 0 σ ef q0 [] Hb Hlim) as (σ'&ef'&q&Hrun&[B1 B2 B3 B4 B5]).
  destruct (queue_elements_ok hash_token hash_span max_equivalents _ σ' q B1) as (starts&Hst&Hp).
  exists σ', ef', q, starts. rewrite Hcells, Hmem. split; [done|]. split; [exact Hrun|]. split; [done|].
  split; [|rewrite Hp; exact B5]. split; [split| | |].
  - by rewrite Hp.
  - apply (inequivalent_perm (queued σ' q)); [unfold EdgeQueue.queued; by rewrite Hp|by eapply queued_inequivalent].
  - by apply (improves_subseteq max_equivalents).
  - intros l. rewrite Hmem. by right.
  - intros l. rewrite <- Hmem. intros Hl. split; [done|]. by apply Hu.
Qed.

(** Room for the start edges. *)
Definition start_room σ s ch (n : nat) : Prop := Z.of_nat n <= pq_limit /\
  (uniform σ s ch false /\ (length (span_members s ch) <= n)%nat \/
   uniform σ s ch true /\ (length (span_members s ch) * per_word <= n)%nat).

Lemma start_edges_ok s σ ef ch n : chart_typed σ ch -> is_Some (span_container ch !! span_key s) -> start_room σ s ch n ->
  exists q0 σ' ef' q starts words, new_edge_queue = Some (Ok q0) /\
    queue_cells (chart_cells s ch) σ ef q0 [] = Some (Ok (σ', ef', q, words)) /\
    queue_elements q = Some starts /\ starts_made s σ ch σ' starts words /\ NoDup words /\ (length starts <= n)%nat.
Proof.
  intros Ht Hk [Hn [[Hu Hlen]|[Hu Hlen]]].
  - destruct (start_constituents s σ ef ch Ht Hk Hu ltac:(lia)) as (q0&q&starts&Hq0&Hrun&Hel&Hmade&Hl).
    exists q0, σ, ef, q, starts, []. split; [exact Hq0|]. split; [done|]. split; [done|]. split; [done|]. split; [constructor|lia].
  - destruct (start_words s σ ef ch Ht Hk Hu ltac:(lia)) as (q0&σ'&ef'&q&starts&Hq0&Hrun&Hel&Hmade&Hl).
    exists q0, σ', ef', q, starts, (span_members s ch). split; [exact Hq0|]. split; [done|]. split; [done|]. split; [done|].
    split; [by apply (members_NoDup max_equivalents σ)|lia].
Qed.
End starts.

(** ** The results go back to the chart *)

Abbreviation chart_insert_equiv := (chart_insert_equiv hash_token hash_span max_equivalents).

Lemma inequivalent_NoDup σ ls : inequivalent (representative_edge σ <$> ls) -> NoDup ls.
Proof.
  induction ls as [|l ls IH]; [constructor|]. cbn [fmap list_fmap inequivalent]. intros [Hl Hls]. constructor; [|by apply IH].
  intros Hin. assert (E : equal_to (representative_edge σ l) (representative_edge σ l) = false) by (by apply Hl, list_elem_of_fmap_2).
  by rewrite equal_to_refl in E.
Qed.

Lemma inequivalent_distinct σ ls : inequivalent (representative_edge σ <$> ls) -> distinct σ ls.
Proof.
  induction ls as [|l ls IH]; cbn [fmap list_fmap inequivalent]; [by intros _ x y i j ?%elem_of_nil|].
  intros [Hl Hls] x y i j Hx Hy Hi Hj He. specialize (IH Hls).
  assert (Hno : forall z n, z ∈ ls -> σ !! z = Some n -> equal_to (representative_edge σ l) (m_rep n) = false).
  { intros z n Hz Hn. apply Hl. apply list_elem_of_fmap. exists z. by rewrite (representative_edge_lookup σ z n Hn). }
  apply elem_of_cons in Hx as [->|Hx]; apply elem_of_cons in Hy as [->|Hy]; [done| | |by eapply IH].
  - pose proof (Hno y j Hy Hj) as E. rewrite (representative_edge_lookup σ l i Hi) in E. congruence.
  - pose proof (Hno x i Hx Hi) as E. rewrite (representative_edge_lookup σ l j Hj) in E. apply equal_to_sym in He. congruence.
Qed.

Section fill.
Context (k : Z * Z) σ (ch0 : chart) (ls : list positive).
Context (Hls : Forall (at_key σ k) ls) (Hd : distinct σ ls) (Hk : is_Some (span_container ch0 !! k)).
Implicit Types xs : list positive.

(** The span has exactly the equivalences of [xs], the rest is as in [ch0]. *)
Definition filled xs ch : Prop := span_changes k σ ch0 σ ch /\ forall x, in_chart ch k x <-> x ∈ xs.

Lemma fill_one xs ch l : filled xs ch -> xs ⊆ ls -> l ∈ ls -> l ∉ xs ->
  exists ch', chart_insert_equiv σ l ch = Some (σ, ch') /\ filled (l :: xs) ch'.
Proof.
  intros [Hc Hin] Hxs Hl Hno.
  destruct (chart_insert_new hash_token hash_span max_equivalents ls σ l k ch) as (ch'&Hrun&Hg&Hin').
  - apply Hc.
  - done.
  - done.
  - intros x Hx%Hin. by apply Hxs.
  - done.
  - by rewrite Hin.
  - eapply span_kept; [exact Hc|done].
  - exists ch'. split; [done|]. split; [by apply (span_changes_trans max_equivalents k σ ch0 σ ch); [|apply grows_changes]|].
    intros x. rewrite Hin', Hin, elem_of_cons. tauto.
Qed.

Lemma insert_words_ok words : forall xs ch, filled xs ch -> xs ⊆ ls -> words ⊆ ls -> NoDup words -> (forall x, x ∈ words -> x ∉ xs) ->
  exists xs' ch', insert_words hash_token hash_span max_equivalents words σ ch = Some (σ, ch') /\ filled xs' ch' /\
    forall x, x ∈ xs' <-> x ∈ xs \/ x ∈ words.
Proof.
  induction words as [|l words IH]; intros xs ch Hf Hxs Hw Hnd Hno; cbn [insert_words].
  { exists xs, ch. split; [done|]. split; [done|]. intros x. rewrite elem_of_nil. tauto. }
  apply NoDup_cons in Hnd as [Hl Hnd].
  destruct (fill_one xs ch l Hf Hxs) as (ch1&->&Hf1); [apply Hw; left|apply Hno; left|]. cbn [mbind option_bind].
  destruct (IH (l :: xs) ch1 Hf1) as (xs2&ch2&->&Hf2&Hin2); [set_solver|set_solver|done|set_solver|].
  exists xs2, ch2. split; [done|]. split; [done|]. intros x. rewrite Hin2, !elem_of_cons. tauto.
Qed.

Lemma same_equivalence x y : x ∈ ls -> y ∈ ls -> equal_to (representative_edge σ x) (representative_edge σ y) = true -> x = y.
Proof.
  intros Hx Hy He. pose proof Hls as Hls'. rewrite Forall_forall in Hls'. destruct (Hls' x Hx) as (i&Hi&_), (Hls' y Hy) as (j&Hj&_).
  rewrite (representative_edge_lookup σ x i Hi), (representative_edge_lookup σ y j Hj) in He. by apply (Hd x y i j).
Qed.

Lemma is_start_edge_ok starts u : starts ⊆ ls -> u ∈ ls -> is_start_edge σ starts u = bool_decide (u ∈ starts).
Proof.
  intros Hst Hu. unfold is_start_edge. case_bool_decide as Hu2; [apply existsb_exists|apply not_true_is_false; rewrite existsb_exists].
  - exists u. split; [by apply list_elem_of_In|apply equal_to_refl].
  - intros (l&Hl%list_elem_of_In&He). destruct Hu2. by rewrite <- (same_equivalence l u (Hst l Hl) Hu He).
Qed.

Lemma insert_unary_results_ok starts us : forall xs ch, filled xs ch -> xs ⊆ ls -> starts ⊆ ls -> us ⊆ ls -> NoDup us ->
  (forall x, x ∈ us -> x ∉ xs) ->
  exists xs' ch', insert_unary_results hash_token hash_span max_equivalents starts us σ ch = Some (σ, ch') /\ filled xs' ch' /\
    forall x, x ∈ xs' <-> x ∈ xs \/ x ∈ us /\ x ∉ starts.
Proof.
  induction us as [|u us IH]; intros xs ch Hf Hxs Hst Hus Hnd Hno; cbn [insert_unary_results].
  { exists xs, ch. split; [done|]. split; [done|]. intros x. rewrite elem_of_nil. tauto. }
  apply NoDup_cons in Hnd as [Hu Hnd]. rewrite (is_start_edge_ok starts u) by (done || apply Hus; left).
  case_bool_decide as Hs; cbn [mbind option_bind].
  - destruct (IH xs ch Hf Hxs Hst) as (xs2&ch2&->&Hf2&Hin2); [set_solver|done|set_solver|].
    exists xs2, ch2. split; [done|]. split; [done|]. intros x. rewrite Hin2, elem_of_cons. naive_solver.
  - destruct (fill_one xs ch u Hf Hxs) as (ch1&->&Hf1); [apply Hus; left|apply Hno; left|]. cbn [mbind option_bind].
    destruct (IH (u :: xs) ch1 Hf1) as (xs2&ch2&->&Hf2&Hin2); [set_solver|done|set_solver|done|set_solver|].
    exists xs2, ch2. split; [done|]. split; [done|]. intros x. rewrite Hin2, !elem_of_cons. naive_solver.
Qed.

Lemma insert_missing_ok starts : forall xs ch, filled xs ch -> xs ⊆ ls -> starts ⊆ ls -> NoDup starts -> (forall x, x ∈ starts -> x ∉ xs) ->
  exists xs' ch', insert_missing hash_token hash_span max_equivalents starts σ ch = Some (σ, ch') /\ filled xs' ch' /\
    forall x, x ∈ xs' <-> x ∈ xs \/ x ∈ starts.
Proof.
  induction starts as [|l starts IH]; intros xs ch Hf Hxs Hst Hnd Hno; cbn [insert_missing].
  { exists xs, ch. split; [done|]. split; [done|]. intros x. rewrite elem_of_nil. tauto. }
  apply NoDup_cons in Hnd as [Hl Hnd]. assert (Hlls : l ∈ ls) by (apply Hst; left).
  pose proof Hls as Hls'. rewrite Forall_forall in Hls'. destruct (Hls' l Hlls) as (i&Hi&Hok&Hki).
  rewrite (representative_ok max_equivalents σ l i Hi Hok). cbn [mbind option_bind].
  pose proof (chart_find_typed max_equivalents σ ch (m_rep i) (sc_typed _ _ _ _ _ _ (proj1 Hf))) as Hfind.
  rewrite Hki in Hfind. specialize (Hfind (span_kept _ _ _ _ _ _ (proj1 Hf) Hk)).
  destruct (chart_find σ (m_rep i) ch) as [[w|]|]; [| |done]; cbn [mbind option_bind].
  { exfalso. destruct Hfind as (j&Hw%(proj2 Hf)&Hj&He). apply (Hno l ltac:(left)).
    by rewrite <- (Hd w l j i (Hxs w Hw) Hlls Hj Hi He). }
  destruct (fill_one xs ch l Hf Hxs Hlls) as (ch1&->&Hf1); [apply Hno; left|]. cbn [mbind option_bind].
  destruct (IH (l :: xs) ch1 Hf1) as (xs2&ch2&->&Hf2&Hin2); [set_solver|set_solver|done|set_solver|].
  exists xs2, ch2. split; [done|]. split; [done|]. intros x. rewrite Hin2, !elem_of_cons. tauto.
Qed.
End fill.

(** ** The whole *)

Section finish.
Context {F : Type} `{!SpanFilter (score := score) (info_type := info_type) (R := R) F}.
Context {UF : Type} `{!UnaryFilter (score := score) (info_type := info_type) (R := R) UF}.
Context {P : Type} `{!FilterPredicate (score := score) (info_type := info_type) P}.
Abbreviation filter_bank := (filter_bank (score := score) (R := R) (F := F)).
Context `{!StdAlgorithmLaws positive, !GraphAlgorithmLaws}.
Context (grammar_rule : Z -> R) (gram_unary_rules gram_toplevel_unary_rules : indexed_token -> list R).
Context (all_rules : list R) (Hrules : Forall (rule_ok rule_rhs_size rule_rhs) all_rules) (heuristic : R -> score).
Context (Hlhs : Forall (fun r => is_lexical (rule_lhs r) = false) all_rules).
Context (Hnumber : forall r, r ∈ all_rules -> grammar_rule (rule_number r) = r).
Context (max_filtered max_infos max_edges max_collected max_word_rules : nat) `{!UnaryInfos (R := R) max_infos}.
Context (Hgram : forall t, (length (gram_unary_rules t) <= max_word_rules)%nat /\ forall r, r ∈ gram_unary_rules t -> rewrites t r).
Context (max_rules max_calls : nat) (holds : nat -> store -> store -> list edge -> UF -> Prop).
Context `{HF : !UnaryFilterLaws max_equivalents max_rules max_calls max_edges holds}.
Context (max_rules' max_calls' : nat) (holds' : nat -> store -> store -> list edge -> UF -> Prop).
Context `{HF' : !UnaryFilterLaws max_equivalents max_rules' max_calls' max_collected holds'}.
Context (Hmax : 1 <= u32 max_equivalents).
Context (Hunary : forall t, (length (with_signature rule_rhs_size rule_rhs [t] all_rules) <= max_rules)%nat).
Context (Hdegree : (max_edges + max_edges <= max_rules')%nat).
Context (create : span_t -> F) (create_unary : span_t -> UF) (create_toplevel : span_t -> predicate_edge_filter (score := score) (P := P)).
Context (Hcreate : forall s σ, holds 0 σ σ [] (create_unary s)) (Hcreate' : forall s σ, holds' 0 σ σ [] (create_unary s)).
Context (ready : store -> F -> list positive -> Prop) `{!FilterDrains ready}.
Implicit Types (b : filter_bank) (f : F).
Abbreviation room := (room max_edges max_collected max_calls max_calls').
Abbreviation map_built := (rhs_map_built rule_lhs rule_rhs_size rule_rhs heuristic all_rules).
Abbreviation start_room := (start_room max_infos max_word_rules).
Abbreviation finalize_unary := (finalize_unary hash_token hash_span max_equivalents grammar_rule gram_unary_rules create_unary max_infos max_edges max_collected).
Abbreviation bank_finalize := (bank_finalize hash_token hash_span max_equivalents grammar_rule gram_unary_rules gram_toplevel_unary_rules
  create create_unary create_toplevel max_filtered max_infos max_edges max_collected).

(** Only the span [s] changes, and it keeps what it had. *)
Record span_finished s σ ch σ' ch' : Prop := {
  sp_changes : span_changes (span_key s) σ ch σ' ch';
  sp_kept l i : in_chart ch (span_key s) l -> σ !! l = Some i -> kept σ' ch' (span_key s) (m_rep i)
}.

(** The results and the words can be in one span together. *)
Lemma results_and_words s σ ch σ1 starts words σ2 set us : chart_typed σ ch -> starts_made s σ ch σ1 starts words ->
  UnaryApplications.applied max_equivalents s σ1 starts σ2 set us ->
  improves σ σ2 /\ Forall (at_key σ2 (span_key s)) (us ++ words) /\ distinct σ2 (us ++ words) /\
  NoDup us /\ starts ⊆ us /\ (forall x, x ∈ words -> x ∉ us).
Proof.
  intros Ht [[Hst Hine] Hi1 Hcov Hw] [_ Hus Hui Hsu Hi2].
  assert (Hi : improves σ σ2) by by apply (improves_trans max_equivalents σ σ1).
  assert (Hwat : Forall (at_key σ (span_key s)) words).
  { apply Forall_forall. intros l [Hl%in_chart_members _]%Hw. exact (member_typed max_equivalents σ ch _ l Ht Hl). }
  assert (Hwlex : forall l j, l ∈ words -> σ2 !! l = Some j -> is_lexical (rt (m_rep j)) = true).
  { intros l j Hl Hj. rewrite Forall_forall in Hwat. destruct (Hwat l Hl) as (i&Hil&Hok&_). destruct (Hw l Hl) as [_ Hlex].
    unfold root_of in Hlex. rewrite (representative_edge_lookup σ l i Hil) in Hlex.
    destruct (im_at _ _ _ Hi l i Hil Hok) as (j'&Hj'&_&(E&_)%equal_to_spec&_). rewrite Hj in Hj'. injection Hj' as <-. by rewrite <- E. }
  assert (Hulex : forall l j, l ∈ us -> σ2 !! l = Some j -> is_lexical (rt (m_rep j)) = false).
  { intros l j Hl Hj. rewrite Forall_forall in Hus. destruct (Hus l Hl) as (j'&Hj'&_&_&?). rewrite Hj in Hj'. by injection Hj' as <-. }
  assert (Hwd : distinct σ2 words).
  { apply (distinct_improves max_equivalents σ _ (span_key s)); [done|done|]. intros x y i j [Hx _]%Hw [Hy _]%Hw.
    by apply (members_distinct max_equivalents σ s ch Ht). }
  split; [done|]. split; [|split; [|split; [by eapply inequivalent_NoDup|split; [done|]]]].
  - apply Forall_app. split; [|eapply Forall_impl; [exact Hwat|]; intros l; by apply at_key_improves].
    eapply Forall_impl; [exact Hus|]. intros l (i&?&?&<-&_). by exists i.
  - pose proof (inequivalent_distinct σ2 us Hui) as Hud.
    intros x y i j [Hx|Hx]%elem_of_app [Hy|Hy]%elem_of_app Hxi Hyj He; [by apply (Hud x y i j)| | |by apply (Hwd x y i j)];
      apply equal_to_spec in He as (E&_).
    + pose proof (Hulex x i Hx Hxi) as E1. rewrite E, (Hwlex y j Hy Hyj) in E1. done.
    + pose proof (Hulex y j Hy Hyj) as E1. rewrite <- E, (Hwlex x i Hx Hxi) in E1. done.
  - intros x Hx Hxu. rewrite Forall_forall in Hus. destruct (Hus x Hxu) as (j&Hj&_&_&E). by rewrite (Hwlex x j Hx Hj) in E.
Qed.

(** The three loops that fill the span. *)
Lemma span_filled s σ ch0 starts us words : chart_typed σ ch0 -> is_Some (span_container ch0 !! span_key s) ->
  (forall l, ~ in_chart ch0 (span_key s) l) -> Forall (at_key σ (span_key s)) (us ++ words) -> distinct σ (us ++ words) ->
  NoDup us -> NoDup starts -> NoDup words -> starts ⊆ us -> (forall x, x ∈ words -> x ∉ us) ->
  exists ch1 ch2 ch3, insert_unary_results hash_token hash_span max_equivalents starts us σ ch0 = Some (σ, ch1) /\
    insert_missing hash_token hash_span max_equivalents starts σ ch1 = Some (σ, ch2) /\
    insert_words hash_token hash_span max_equivalents words σ ch2 = Some (σ, ch3) /\
    span_changes (span_key s) σ ch0 σ ch3 /\ forall x, in_chart ch3 (span_key s) x <-> x ∈ us ++ words.
Proof.
  intros Ht Hk Hno Hat Hd Hus Hst Hws Hsu Hwu. set (k := span_key s) in *. set (ls := us ++ words) in *.
  assert (Hf0 : filled k σ ch0 [] ch0).
  { split; [apply grows_changes; by apply chart_grows_refl|]. intros x. split; [by intros ?%Hno|by intros ?%elem_of_nil]. }
  assert (Hul : us ⊆ ls) by (intros x Hx; apply elem_of_app; by left).
  assert (Hwl : words ⊆ ls) by (intros x Hx; apply elem_of_app; by right).
  assert (Hsl : starts ⊆ ls) by by etrans.
  destruct (insert_unary_results_ok k σ ch0 ls Hat Hd Hk starts us [] ch0) as (xs1&ch1&H1&Hf1&Hin1);
    [done|by intros x ?%elem_of_nil|done|done|done|by intros x _ ?%elem_of_nil|].
  assert (Hl1 : xs1 ⊆ ls) by (intros x [?%elem_of_nil|[? _]]%Hin1; [done|by apply Hul]).
  destruct (insert_missing_ok k σ ch0 ls Hat Hd Hk starts xs1 ch1) as (xs2&ch2&H2&Hf2&Hin2);
    [done|done|done|done|by intros x ? [?%elem_of_nil|[_ ?]]%Hin1|].
  assert (Hl2 : xs2 ⊆ ls) by (intros x [?|?]%Hin2; [by apply Hl1|by apply Hsl]).
  destruct (insert_words_ok k σ ch0 ls Hat Hd Hk words xs2 ch2) as (xs3&ch3&H3&[Hc3 Hf3]&Hin3); [done|done|done|done| |].
  { intros x Hx. rewrite Hin2, Hin1, elem_of_nil. specialize (Hsu x). specialize (Hwu x Hx). tauto. }
  exists ch1, ch2, ch3. split; [done|]. split; [done|]. split; [done|]. split; [done|].
  intros x. rewrite Hf3, Hin3, Hin2, Hin1. unfold ls. rewrite elem_of_app, elem_of_nil. specialize (Hsu x).
  destruct (decide (x ∈ starts)) as [E|E]; tauto.
Qed.

Lemma room_limit_pq n : room n -> Z.of_nat n <= pq_limit.
Proof. intros [_ _ _ Hn]. lia. Qed.

Lemma finalize_unary_ok s σ ef b n : chart_typed σ (bank_chart b) -> is_Some (span_container (bank_chart b) !! span_key s) ->
  start_room σ s (bank_chart b) n -> room n -> map_built (rhs_map b) ->
  exists σ' ef' ch', finalize_unary s σ ef b = Some (Ok (σ', ef', set_chart ch' b)) /\ span_finished s σ (bank_chart b) σ' ch'.
Proof.
  intros Ht Hk Hsr Hroom Hmap. unfold BankFinalize.finalize_unary.
  destruct (start_edges_ok gram_unary_rules max_infos max_word_rules Hgram Hmax s σ ef (bank_chart b) n Ht Hk Hsr)
    as (q0&σ1&ef1&q&starts&words&Hq0&Hcells&Hel&Hmade&Hwnd&Hlen).
  rewrite Hq0. clear Hq0. cbn [rbind mbind option_bind]. rewrite Hcells. clear Hcells. cbn [rbind mbind option_bind].
  destruct (chart_clear_span_ok max_equivalents s σ (bank_chart b) Ht Hk) as (ch0&->&Hc0&Hno). cbn [mbind option_bind].
  rewrite Hel. cbn [mbind option_bind]. unfold apply_unary_rules. cbn [bank_chart rhs_map set_chart].
  destruct (unary_applications_end hash_token hash_span max_equivalents grammar_rule (rhs_map b) false max_edges max_collected
    all_rules Hrules heuristic Hlhs Hnumber Hmap max_rules max_calls holds max_rules' max_calls' holds' Hmax Hunary Hdegree
    (create_unary s) (Hcreate s) (Hcreate' s) s σ1 ef1 starts (sm_starts _ _ _ _ _ _ Hmade)) as (σ2&ef2&set&us&Hrun&Hap).
  { by eapply room_mono. }
  rewrite Hrun. clear Hrun. cbn [rbind mbind option_bind]. pose proof Hap as [-> _ _ _ _]. cbn [mbind option_bind].
  destruct (results_and_words s σ (bank_chart b) σ1 starts words σ2 set us Ht Hmade Hap) as (Hi&Hat&Hd&Hus&Hsu&Hwu).
  assert (Hs2 : span_changes (span_key s) σ ch0 σ2 ch0).
  { apply (span_changes_store max_equivalents); [apply Hc0|done]. }
  destruct (span_filled s σ2 ch0 starts us words) as (ch1&ch2&ch3&->&H2&H3&Hc3&Hin); [apply Hs2| |done|done|done|done| |done|done|done|].
  { eapply span_kept; [exact Hc0|done]. }
  { apply (inequivalent_NoDup σ1), Hmade. }
  cbn [mbind option_bind]. rewrite H2. cbn [rbind mbind option_bind bank_chart set_chart]. rewrite H3. cbn [mbind option_bind].
  exists σ2, ef2, ch3. split; [done|].
  assert (Hall : span_changes (span_key s) σ (bank_chart b) σ2 ch3).
  { apply (span_changes_trans max_equivalents _ σ _ σ ch0); [done|]. by apply (span_changes_trans max_equivalents _ σ _ σ2 ch0). }
  split; [done|]. intros l i Hl Hil. destruct (member_typed max_equivalents σ _ _ l Ht Hl) as (i'&Hi'&Hok&_).
  rewrite Hil in Hi'. injection Hi' as <-. destruct (im_at _ _ _ Hi l i Hil Hok) as (j&Hj&Hokj&He&Hsc).
  exists l, j. split; [|split; [done|split; [done|split; [by apply equal_to_sym|done]]]].
  apply Hin, elem_of_app. apply in_chart_members in Hl. destruct (sm_cover _ _ _ _ _ _ Hmade l Hl); [left; by apply Hsu|by right].
Qed.

(** What is at the span before: its constituents, or its words and nothing in the filter. *)
Definition span_room σ s ch ls (n : nat) : Prop :=
  uniform σ s ch false /\ Forall (fun l => is_lexical (root_of σ l) = false) ls /\ (length (span_members s ch) + length ls <= n)%nat \/
  uniform σ s ch true /\ ls = [] /\ (length (span_members s ch) * (max_word_rules * max_infos) <= n)%nat.

Lemma root_improves σ σ' l i : improves σ σ' -> σ !! l = Some i -> equiv_ok σ i -> root_of σ' l = root_of σ l.
Proof.
  intros Him Hi Hok. destruct (im_at _ _ _ Him l i Hi Hok) as (i'&Hi'&_&(E&_)%equal_to_spec&_). unfold root_of.
  by rewrite (representative_edge_lookup σ l i Hi), (representative_edge_lookup σ' l i' Hi').
Qed.

(** The room after the filter has been emptied into the chart. *)
Lemma span_room_drained s σ ch ls n σ' ch' : chart_typed σ ch -> Forall (at_key σ (span_key s)) ls ->
  chart_grows (span_key s) σ ch σ' ch' -> (forall x, in_chart ch' (span_key s) x -> in_chart ch (span_key s) x \/ x ∈ ls) ->
  span_room σ s ch ls n -> room n -> start_room σ' s ch' n.
Proof.
  intros Ht Hls Hg Hin Hsr Hn. split; [by apply room_limit_pq|].
  assert (Hincl : forall x, x ∈ span_members s ch' -> x ∈ span_members s ch ++ ls).
  { intros x [Hx|Hx]%in_chart_members%Hin; apply elem_of_app; [left; by apply in_chart_members|by right]. }
  assert (Hlen : (length (span_members s ch') <= length (span_members s ch) + length ls)%nat).
  { rewrite <- length_app. apply submseteq_length, NoDup_submseteq; [|done]. apply (members_NoDup max_equivalents σ'), Hg. }
  assert (Hroot : forall x, x ∈ span_members s ch' -> root_of σ' x = root_of σ x).
  { intros x [Hx|Hx]%Hincl%elem_of_app.
    - apply in_chart_members in Hx. destruct (member_typed max_equivalents σ ch _ x Ht Hx) as (i&?&?&_).
      eapply root_improves; [apply Hg|done|done].
    - rewrite Forall_forall in Hls. destruct (Hls x Hx) as (i&?&?&_). eapply root_improves; [apply Hg|done|done]. }
  destruct Hsr as [(Hu&Hl&Hb)|(Hu&->&Hb)]; [left|right]; (split; [intros x Hx; rewrite (Hroot x Hx); apply Hincl, elem_of_app in Hx|]).
  - destruct Hx as [Hx|Hx]; [by apply Hu|]. rewrite Forall_forall in Hl. by apply Hl.
  - lia.
  - destruct Hx as [Hx|?%elem_of_nil]; [by apply Hu|done].
  - etrans; [|exact Hb]. apply Nat.mul_le_mono_r. cbn in Hlen. lia.
Qed.

(** What the filter of a span hands out: equivalences of the span that the chart does
    not have. *)
Record handed_out s σ ch f ls : Prop := {
  ho_ready : ready σ f ls;
  ho_distinct : NoDup ls;
  ho_span : Forall (at_key σ (span_key s)) ls;
  ho_new l : l ∈ ls -> ~ in_chart ch (span_key s) l;
  ho_fuel : (length ls <= max_filtered)%nat
}.

Lemma get_create_bank s f b : filter_at create s f b -> exists b', bank_get_create create s b = (Some f, b') /\
  bank_chart b' = bank_chart b /\ rhs_map b' = rhs_map b /\ total_span b' = total_span b /\
  forall pf ch, set_filter s pf (set_chart ch b') = set_filter s pf (set_chart ch b).
Proof.
  unfold bank_get_create. intros [->|[-> ->]]; eexists; (split; [done|]); [done|]. repeat (split; [done|]).
  intros pf ch. unfold set_filter, set_chart. cbn. by rewrite insert_insert_eq.
Qed.

Abbreviation apply_toplevel_rules := (apply_toplevel_rules hash_token hash_span max_equivalents gram_toplevel_unary_rules
  create create_toplevel max_filtered max_infos).

(** The unary rules of a span read the chart and the rules of the bank only. *)
Lemma finalize_unary_same s σ ef b b0 σ' ef' ch : bank_chart b0 = bank_chart b -> rhs_map b0 = rhs_map b ->
  finalize_unary s σ ef b = Some (Ok (σ', ef', set_chart ch b)) -> finalize_unary s σ ef b0 = Some (Ok (σ', ef', set_chart ch b0)).
Proof.
  unfold BankFinalize.finalize_unary, apply_unary_rules. intros -> Hr. cbn [bank_chart rhs_map set_chart]. rewrite Hr.
  destruct new_edge_queue as [[q|]|]; cbn [rbind mbind option_bind]; [|discriminate..].
  destruct (queue_cells _ _ _ _ _ _ _ _ _) as [[[[[σ1 ef1] q1] words]|]|]; cbn [rbind mbind option_bind]; [|discriminate..].
  destruct (chart_clear_span s (bank_chart b)) as [ch0|]; cbn [mbind option_bind]; [|discriminate].
  destruct (queue_elements q1) as [starts|]; cbn [mbind option_bind bank_chart rhs_map set_chart]; [|discriminate].
  destruct (new_unary_applications _ _ _ _ _ _ _ _ _ _ _ _) as [[[[σ2 ef2] set]|]|]; cbn [rbind mbind option_bind]; [|discriminate..].
  destruct (unary_results set) as [us|]; cbn [mbind option_bind]; [|discriminate].
  destruct (insert_unary_results _ _ _ _ _ _ _) as [[σ3 ch1]|]; cbn [mbind option_bind]; [|discriminate].
  destruct (insert_missing _ _ _ _ _ _) as [[σ4 ch2]|]; cbn [rbind mbind option_bind bank_chart set_chart]; [|discriminate].
  destruct (insert_words _ _ _ _ _ _) as [[σ5 ch3]|]; cbn [mbind option_bind]; [|discriminate].
  by intros [= -> -> ->].
Qed.

(** Everything up to the toplevel rules, which is the same for every sentence that the
    span is in. *)
Lemma finalize_span_ok s σ ef b f σ1 ef1 f1 ls n :
  filter_at create s f b -> sf_is_finalized f = false ->
  sf_finalize σ ef f = Some (Ok (σ1, ef1, f1)) -> handed_out s σ1 (bank_chart b) f1 ls ->
  chart_typed σ1 (bank_chart b) -> is_Some (span_container (bank_chart b) !! span_key s) ->
  span_room σ1 s (bank_chart b) ls n -> room n -> map_built (rhs_map b) ->
  exists σ' ef' ch', (forall t, let b' := set_filter s None (set_chart ch' (set_total t b)) in
      bank_finalize s σ ef (set_total t b) = if span_eqb t s then apply_toplevel_rules σ' ef' b' else Some (Ok (σ', ef', b'))) /\
    span_changes (span_key s) σ1 (bank_chart b) σ' ch' /\
    forall l i, l ∈ ls \/ in_chart (bank_chart b) (span_key s) l -> σ1 !! l = Some i -> kept σ' ch' (span_key s) (m_rep i).
Proof.
  intros Hf Hnf Hfin [H1 H2 H3 H4 H5] Ht Hk Hsr Hroom Hmap.
  destruct (drain_filter_ok ready (span_key s) max_filtered ls σ1 f1 (bank_chart b)) as (σ2&ch2&f2&Hdrain&Hg&Hkept&Hin&_); [done..|].
  pose proof (cg_typed _ _ _ _ _ _ Hg) as Ht2. pose proof (grows_changes _ _ _ _ _ _ Hg) as Hc2.
  destruct (finalize_unary_ok s σ2 ef1 (set_chart ch2 b) n) as (σ3&ef3&ch3&Hun&[Hc3 Hk3]); [done|by eapply span_kept| |done|done|].
  { exact (span_room_drained s σ1 (bank_chart b) ls n σ2 ch2 Ht H3 Hg Hin Hsr Hroom). }
  exists σ3, ef3, ch3. split; [|split; [by apply (span_changes_trans max_equivalents _ σ1 _ σ2 ch2)|]].
  - intros t. unfold BankFinalize.bank_finalize.
    destruct (get_create_bank s f (set_total t b) Hf) as (b'&->&Hch&Hrm&Htot&Hset). rewrite Hnf, Hfin, Hch. cbn [rbind mbind option_bind].
    cbn [bank_chart set_total]. rewrite Hdrain. cbn [mbind option_bind].
    rewrite (finalize_unary_same s σ2 ef1 (set_chart ch2 b) (set_chart ch2 b') σ3 ef3 ch3 eq_refl Hrm Hun).
    cbn [rbind mbind option_bind set_chart set_filter total_span]. rewrite Htot. cbn zeta. by rewrite <- Hset.
  - assert (Hfin' : forall e, kept σ2 ch2 (span_key s) e -> kept σ3 ch3 (span_key s) e).
    { intros e (l&j&Hl&Hj&Hok&He&Hsc). apply (kept_le max_equivalents σ3 ch3 _ e (m_rep j)); [by eapply Hk3|by apply equal_to_sym|done]. }
    intros l i [Hl|Hl] Hi; apply Hfin'; [by apply (Hkept l)|].
    apply (kept_grows max_equivalents _ σ1 (bank_chart b)); [exact Hg|]. by apply (member_kept max_equivalents σ1 _ _ l).
Qed.

Lemma set_total_same b : set_total (total_span b) b = b.
Proof. by destruct b. Qed.

(** C9: When the bank finishes a span that is not the whole sentence, it does not fail:
    the filter is emptied into the chart, the unary rules are applied, and the span is
    filled with their results.  For every edge that was in the span or that the filter
    hands out the chart then has an equivalent one that is not worse; the other spans
    have the same equivalences, the chart stays well formed, and the filter is freed. *)
Theorem bank_finalize_keeps s σ ef b f σ1 ef1 f1 ls n :
  filter_at create s f b -> sf_is_finalized f = false -> span_eqb (total_span b) s = false ->
  sf_finalize σ ef f = Some (Ok (σ1, ef1, f1)) -> handed_out s σ1 (bank_chart b) f1 ls ->
  chart_typed σ1 (bank_chart b) -> is_Some (span_container (bank_chart b) !! span_key s) ->
  span_room σ1 s (bank_chart b) ls n -> room n -> map_built (rhs_map b) ->
  exists σ' ef' ch', bank_finalize s σ ef b = Some (Ok (σ', ef', set_filter s None (set_chart ch' b))) /\
    span_changes (span_key s) σ1 (bank_chart b) σ' ch' /\
    forall l i, l ∈ ls \/ in_chart (bank_chart b) (span_key s) l -> σ1 !! l = Some i -> kept σ' ch' (span_key s) (m_rep i).
Proof.
  intros Hf Hnf Hts Hfin Hho Ht Hk Hsr Hroom Hmap.
  destruct (finalize_span_ok s σ ef b f σ1 ef1 f1 ls n Hf Hnf Hfin Hho Ht Hk Hsr Hroom Hmap) as (σ'&ef'&ch'&Hrun&Hrest).
  specialize (Hrun (total_span b)). rewrite set_total_same, Hts in Hrun. exists σ', ef', ch'. exact (conj Hrun Hrest).
Qed.
End finish.

(** ** The exhaustive filter hands out its queue *)

Section exhaustive.
Context {P : Type} `{!FilterPredicate (score := score) (info_type := info_type) P}.
Abbreviation exhaustive_filter := (exhaustive_filter (R := R) (P := P) hash_token hash_span max_equivalents).

Definition queue_ready σ (x : exhaustive_span_filter (P := P)) ls : Prop :=
  finalized (ex_filter x) = true /\ (exists n, queue_ok n σ (pqueue (ex_filter x))) /\ ls ≡ₚ items (pqueue (ex_filter x)).

#[export] Instance exhaustive_drains max_infos : FilterDrains (SpanFilter0 := exhaustive_filter max_infos) queue_ready.
Proof.
  split.
  - intros σ f ls (_&(n&Hq)&Hp). cbn. unfold filter_empty. rewrite (queue_empty_ok _ _ _ _ _ _ Hq).
    destruct (items (pqueue (ex_filter f))) as [|l its].
    + apply Permutation_nil_r in Hp as ->. done.
    + rewrite bool_decide_false; [done|]. intros ->. by apply Permutation_nil_l in Hp.
  - intros σ f ls (Hfin&(n&Hq)&Hp) Hne. cbn. unfold filter_top, filter_pop, queue_top, pt_top. rewrite Hfin. cbn [assert_true mbind option_bind].
    destruct (items (pqueue (ex_filter f))) as [|l its] eqn:E; [by apply Permutation_nil_r in Hp|].
    destruct (queue_pop_ok hash_token hash_span max_equivalents n σ (pqueue (ex_filter f)) l Hq) as (q'&->&Hq'&_&Hit).
    { unfold queue_top, pt_top. by rewrite E. }
    cbn [mbind option_bind]. exists l, (items q'). eexists. split; [done|]. split; [done|].
    split; [by rewrite Hp, <- E|]. split; [done|]. split; [by exists n|done].
  - intros σ f ls l i (Hfin&(n&Hq)&Hp) Hl Hw. split; [done|]. split; [|done]. exists n.
    apply (queue_ok_write hash_token hash_span max_equivalents n σ _ l i Hq); [by rewrite <- Hp|done].
Qed.
End exhaustive.
End finalizing.

(** * Samples: the rules of [UnaryApplications], a chart with tag 1, a filter with tag 2 *)

#[local] Existing Instances GraphSearch.search_graph GraphSearch.search_graph_laws UnaryApplications.chain_grammar
  UnaryApplications.chain_infos UnaryApplications.chain_laws UnaryApplications.chain_laws'.
#[local] Existing Instances CubeHeap.sample_combine CubeHeap.cost_compare_sw.

Definition chain_chart : basic_chart (option Z) :=
  mk_chart 2 (<[(0, 1) := [mk_cell [1%positive] (Some (-4))]]> {[(0, 2) := []]}).

(** The filter has the equivalence 2 and is finalized next. *)
Definition chain_ready (q : edge_queue (option Z)) : exhaustive_span_filter (P := histogram_predicate) :=
  mk_exhaustive (mk_filter [] (new_histogram 10) q false).
Definition chain_bank (q : edge_queue (option Z)) : option (filter_bank (F := exhaustive_span_filter (P := histogram_predicate))) :=
  b ← new_filter_bank id id (fun _ => Some 0) chain_rules chain_chart (mk_span 0 2);
  Some (set_filter (mk_span 0 1) (Some (chain_ready q)) b).

Abbreviation chain_finalize f0 := (bank_finalize typ_and_idx sample_hash_span 4 id (fun _ => []) (fun _ => [])
  (SpanFilter0 := exhaustive_filter typ_and_idx sample_hash_span 4 (R := Z) (P := histogram_predicate) 1)
  (UnaryFilter0 := chain_exhaustive) (fun _ => mk_exhaustive f0) (fun _ => mk_stub f0 []) (fun _ => f0) 10 1 2 4).

(** Tag 3 is made of tag 2, and tag 2 of tag 1 is better than the one in the filter. *)
Example chain_finalized :
  match new_edge_queue, new_filter (score := option Z) (new_histogram 10) with
  | Some (Ok q), Some (Ok f0) =>
      match queue_insert typ_and_idx sample_hash_span 4 chain_store 2%positive q with
      | Some (Ok (σ, _, q)) =>
          b ← chain_bank q;
          match chain_finalize f0 (mk_span 0 1) σ chain_factory b with
          | Some (Ok (σ, _, b)) => Some ((fun l => (rt (representative_edge σ l), inside (representative_edge σ l))) <$>
                                     span_members (mk_span 0 1) (bank_chart b), span_filter_map b !! (0, 1))
          | _ => None
          end
      | _ => None
      end
  | _, _ => None
  end = Some ([(sample_tag 2, Some (-6)); (sample_tag 1, Some (-4)); (sample_tag 3, Some (-6))], Some None).
Proof. vm_compute. reflexivity. Qed.

Lemma chain_at l : l ∈ [1%positive; 2%positive] -> exists i, chain_store !! l = Some i /\ equiv_ok 4 chain_store i /\
  spn (m_rep i) = mk_span 0 1 /\ is_lexical (rt (m_rep i)) = false.
Proof. intros Hl. destruct chain_starts as [Hs _]. rewrite Forall_forall in Hs. destruct (Hs l Hl) as (i&?&?&?). by exists i. Qed.

Lemma chain_typed : chart_typed 4 chain_store chain_chart.
Proof.
  intros k cs. unfold chain_chart. cbn [span_container]. rewrite lookup_insert_Some, lookup_singleton_Some.
  intros [[<- <-]|[_ [<- <-]]]; [|exists []; split; constructor].
  exists [sample_tag 1]. split; [|apply NoDup_singleton]. constructor; [|constructor].
  split; [done|]. split; [apply NoDup_singleton|]. split.
  - intros l ->%list_elem_of_singleton. destruct (chain_at 1%positive) as (i&Hi&Hok&Hs&_); [left|]. exists i.
    split; [done|]. split; [done|]. injection Hi as <-. done.
  - by intros l l' i i' ->%list_elem_of_singleton ->%list_elem_of_singleton.
Qed.

Lemma chain_queue : exists q0 pos q, new_edge_queue = Some (Ok q0) /\
  queue_insert typ_and_idx sample_hash_span 4 chain_store 2%positive q0 = Some (Ok (chain_store, pos, q)) /\
  EdgeQueue.queue_ok typ_and_idx sample_hash_span 4 1 chain_store q /\ priority_heap (ptable q) ≡ₚ [2%positive].
Proof.
  destruct (new_edge_queue_ok typ_and_idx sample_hash_span 4 chain_store) as (q0&Hq0&[Hok _ _ _]&Hit). exists q0.
  destruct (chain_at 2%positive) as (i&Hi&Hoki&_); [right; left|].
  destruct (queue_insert_new_ok typ_and_idx sample_hash_span 4 0 chain_store q0 2%positive i Hok eq_refl Hi Hoki) as (pos&q&Hins&Hq&_&Hp&_).
  { clear Hq0. intros r. unfold EdgeQueue.queued. rewrite Hit. intros Hr%elem_of_nil. destruct Hr. }
  rewrite Hit in Hp. exists pos, q. exact (conj Hq0 (conj Hins (conj Hq Hp))).
Qed.

Lemma chain_handed_out q : EdgeQueue.queue_ok typ_and_idx sample_hash_span 4 1 chain_store q -> priority_heap (ptable q) ≡ₚ [2%positive] ->
  handed_out 4 10 (queue_ready typ_and_idx sample_hash_span 4) (mk_span 0 1) chain_store chain_chart
    (mk_exhaustive (filter_finalize (ex_filter (chain_ready q)))) [2%positive].
Proof.
  intros Hq Hp. split.
  - split; [done|]. split; [by exists 1|by symmetry].
  - apply NoDup_singleton.
  - apply Forall_singleton. destruct (chain_at 2%positive) as (i&?&?&<-&_); [right; left|]. by exists i.
  - intros l ->%list_elem_of_singleton (cs&Hcs&c&Hc&Hin). vm_compute in Hcs. injection Hcs as <-.
    apply list_elem_of_singleton in Hc as ->. by apply list_elem_of_singleton in Hin.
  - cbn. lia.
Qed.

Lemma chain_span_room : span_room 1 0 chain_store (mk_span 0 1) chain_chart [2%positive] 2.
Proof.
  left. split; [|split; [|vm_compute; lia]].
  - intros l Hl. change (span_members _ _) with [1%positive] in Hl. by apply list_elem_of_singleton in Hl as ->.
  - by apply Forall_singleton.
Qed.

Lemma bank_finalize_keeps_witness :
  exists q f0 b σ' ef' ch', new_filter (score := option Z) (new_histogram 10) = Some (Ok f0) /\ chain_bank q = Some b /\
    chain_finalize f0 (mk_span 0 1) chain_store chain_factory b = Some (Ok (σ', ef', set_filter (mk_span 0 1) None (set_chart ch' b))) /\
    span_changes 4 (0, 1) chain_store chain_chart σ' ch' /\
    forall l i, l ∈ [2%positive] \/ in_chart chain_chart (0, 1) l -> chain_store !! l = Some i -> kept 4 σ' ch' (0, 1) (m_rep i).
Proof.
  destruct chain_queue as (q0&pos&q&_&_&Hq&Hp). destruct chain_made as (m&f0&_&Hf0&_&Hnew).
  destruct (new_filter_bank_ok (F := exhaustive_span_filter (score := option Z) (P := histogram_predicate)) 4 id id (fun _ => Some 0) chain_rules
    (proj2 (Forall_forall _ _) (fun r _ => chain_rule_ok r)) chain_store chain_chart (mk_span 0 2) chain_typed) as (b0&Hb0&[Hmap _ _]&_&Hch&Hts).
  set (b := set_filter (mk_span 0 1) (Some (chain_ready q)) b0).
  assert (Hb : chain_bank q = Some b) by (unfold chain_bank; rewrite Hb0; reflexivity).
  destruct (bank_finalize_keeps typ_and_idx sample_hash_span 4 (SpanFilter0 := exhaustive_filter typ_and_idx sample_hash_span 4 (R := Z) (P := histogram_predicate) 1)
    (UnaryFilter0 := chain_exhaustive) (P := histogram_predicate) id (fun _ => []) (fun _ => []) chain_rules
    (proj2 (Forall_forall _ _) (fun r _ => chain_rule_ok r)) (rule_heuristic id id (fun _ => Some 0)) chain_lhs (fun r _ => eq_refl) 10 1 2 4 0
    (fun t => conj (Nat.le_refl 0) (fun r Hr => False_ind _ (not_elem_of_nil r Hr))) 2 84 (chain_holds 2) 4 212 (chain_holds 4)
    ltac:(vm_compute; discriminate) chain_unary (le_n 4) (fun _ => mk_exhaustive f0) (fun _ => mk_stub f0 []) (fun _ => f0)
    (fun _ => Hnew 2%nat) (fun _ => Hnew 4%nat) (queue_ready typ_and_idx sample_hash_span 4)
    (mk_span 0 1) chain_store chain_factory b (chain_ready q) chain_store chain_factory
    (mk_exhaustive (filter_finalize (ex_filter (chain_ready q)))) [2%positive] 2)
    as (σ'&ef'&ch'&Hrun&Hc&Hk).
  - left. unfold b, set_filter. cbn [span_filter_map]. apply lookup_insert_eq.
  - reflexivity.
  - unfold b. cbn [total_span set_filter]. rewrite Hts. reflexivity.
  - reflexivity.
  - unfold b. cbn [bank_chart set_filter]. rewrite Hch. exact (chain_handed_out q Hq Hp).
  - unfold b. cbn [bank_chart set_filter]. rewrite Hch. exact chain_typed.
  - unfold b. cbn [bank_chart set_filter]. rewrite Hch. eexists. reflexivity.
  - unfold b. cbn [bank_chart set_filter]. rewrite Hch. exact chain_span_room.
  - exact chain_room.
  - exact Hmap.
  - unfold b in Hc, Hk. cbn [bank_chart set_filter] in Hc, Hk. rewrite Hch in Hc, Hk. exists q, f0, b, σ', ef', ch'.
    exact (conj Hf0 (conj Hb (conj Hrun (conj Hc Hk)))).
Defined.
