(* ===== verification/ExhaustiveBank.v ===== *)
(** An exhaustive filter in the bank: what it holds after the applications of a span,
    how it is emptied into the chart, and the rules to the toplevel tag
    ([apply_toplevel_rules]), which put edges into two such filters. *)
From S2P Require Import Prelude Span SpanGen ParseOrder OaTable OaHashtable PriorityTable PriorityQueue TokenStorage Token Edge EdgeEquivalence EdgeQueue FilterPredicate Chart ChartEquiv EdgeFilter SortedCube Generator CubeHeap RuleMap SpanFilter FilterBank GraphSearch UnaryFilter EquivSet UnaryApplications BankFinalize.
Open Scope Z_scope.

Section parse.
Context {score info_type R G : Type} `{!ScoreOps score, !ScoreZero score, !InfoOps info_type}.
Context `{!Inhabited score, !Inhabited info_type}.
Abbreviation edge := (edge score info_type).
Abbreviation store := (equiv_store score info_type).
Abbreviation factory := (edge_factory score).
Abbreviation chart := (basic_chart score).
Context `{!GrammarOps R score edge store G, !Generator G (info_type * score * score)}.
Context `{!StdAlgorithms (alt_edge score), !StdAlgorithms (R * score), !StdAlgorithms positive, HC : !HashCombine}.
Context `{HG : !GraphAlgorithms}.
Context (hash_token : indexed_token -> Z) (hash_span : span_t -> Z) (max_equivalents : Z).
Context {P : Type} `{!FilterPredicate (score := score) (info_type := info_type) P}.
Abbreviation filter_of := (predicate_edge_filter (score := score) (P := P)).
Abbreviation span_filter := (exhaustive_span_filter (score := score) (P := P)).
Abbreviation bank := (filter_bank (score := score) (R := R) (F := span_filter)).
Context (max_infos : nat).
Abbreviation exhaustive_filter := (exhaustive_filter hash_token hash_span max_equivalents (R := R) (P := P) max_infos).
#[local] Existing Instance SpanFilter.exhaustive_filter.
Implicit Types (σ : store) (e : edge) (ef : factory) (ch : chart) (b : bank) (s : span_t) (r : R) (l : positive) (k : Z * Z).

(** * A filter and what it has taken

    After at most [n] edges at the span [s], beside the store [σ0]. *)
Section serving.
Context `{!StdAlgorithmLaws (alt_edge score), !InfoLaws info_type, !StrictWeak (score_lt (S := score)), !ScoreZeroLaws score}.
Context `{!PredicateSafe hash_token hash_span max_equivalents P}.
Context (Hmax : 1 <= u32 max_equivalents).
Abbreviation equiv_ok := (equiv_ok max_equivalents).
Abbreviation writes := (writes max_equivalents).
Abbreviation improves := (improves max_equivalents).
Abbreviation at_span := (at_span max_equivalents).
Abbreviation at_key := (at_key max_equivalents).
Abbreviation queueable := (queueable max_equivalents).
Abbreviation items q := (priority_heap (ptable q)).
Abbreviation filter_beside := (filter_beside hash_token hash_span max_equivalents).
Abbreviation filter_insert_edge := (filter_insert_edge hash_token hash_span max_equivalents).
Abbreviation insert_generated := (insert_generated hash_token hash_span max_equivalents).
Implicit Types f : filter_of.

(** An equivalence over the store [σ0]. *)
Definition own_at s σ0 σ l : Prop := exists i, σ !! l = Some i /\ equiv_ok σ0 i /\ constituent s (m_rep i).

Record serving (n : nat) s σ0 σ f : Prop := {
  sv_beside : filter_beside σ0 n σ f;
  sv_own : Forall (own_at s σ0 σ) (items (pqueue f))
}.

Lemma sv_span n s σ0 σ f : serving n s σ0 σ f -> Forall (at_span s σ) (items (pqueue f)).
Proof.
  intros [Hf Hown]. eapply Forall_impl; [exact Hown|]. intros l (i&Hi&Hok&Hs). exists i. split; [done|]. split; [|done].
  apply (equiv_ok_subseteq max_equivalents σ0); [apply (fb_sub _ _ _ _ _ _ _ Hf)|done].
Qed.

Lemma insertion_bound_le n m : (n <= m)%nat -> insertion_bound n <= insertion_bound m.
Proof. unfold insertion_bound. nia. Qed.

Lemma filter_beside_le n m σ0 σ f : (n <= m)%nat -> filter_beside σ0 n σ f -> filter_beside σ0 m σ f.
Proof.
  intros Hnm [F1 F2 F3 F4 F5]. split; try done; [|lia]. eapply queue_ok_le; [|exact F1]. by apply insertion_bound_le.
Qed.

Lemma serving_le n m s σ0 σ f : (n <= m)%nat -> serving n s σ0 σ f -> serving m s σ0 σ f.
Proof. intros Hnm [S1 S2]. split; [by eapply filter_beside_le|done]. Qed.

Lemma inserted_own n s σ0 σ q e σ' q' : queue_ok hash_token hash_span max_equivalents n σ q -> σ0 ⊆ σ -> queueable σ0 s e ->
  Forall (own_at s σ0 σ) (items q) -> queue_inserted hash_token hash_span max_equivalents σ q e σ' q' -> Forall (own_at s σ0 σ') (items q').
Proof.
  intros Hq Hsub (He&Hes&Hm) Hown Hins. rewrite Forall_forall in Hown. apply Forall_forall.
  destruct Hins as [q1 l Hl _ Hit _|q1 l i i' rest Hl Hi Heq Hins Hit _ _]; intros x; rewrite Hit.
  - intros [->|Hx]%elem_of_cons.
    + exists (pool_create e). rewrite lookup_insert_eq. split; [done|]. split; [by apply (new_equiv_ok max_equivalents)|done].
    + destruct (Hown x Hx) as (i&Hi&?&?). exists i. rewrite lookup_insert_ne; [done|]. intros ->. by rewrite Hi in Hl.
  - intros Hx. destruct (decide (x = l)) as [->|Hne].
    + destruct (Hown l Hl) as (i0&Hi0&Hok&Hc). rewrite Hi in Hi0. injection Hi0 as <-. pose proof He as [Hen Hea].
      destruct (insert_edge_step hash_token hash_span max_equivalents σ e i) as (i1&Hins1&Hstep);
        [by apply (equiv_ok_subseteq max_equivalents σ0)|by eapply edge_ok_subseteq|done|].
      rewrite Hins in Hins1. injection Hins1 as <-. apply (step_ok_sub max_equivalents σ0) in Hstep as (Hok'&Hrep&_); [|done..].
      exists i'. rewrite lookup_insert_eq. split; [done|]. split; [done|]. rewrite Hrep. unfold best_edge. cbn [foldl]. by case_match.
    + destruct (Hown x Hx) as (i0&?&?&?). exists i0. by rewrite lookup_insert_ne.
Qed.

Lemma serving_step n s σ0 σ e f : serving n s σ0 σ f -> queueable σ0 s e -> insertion_bound (S n) <= pq_limit ->
  exists t σ' f', filter_insert_edge σ e f = Some (Ok (t, σ', f')) /\ serving (S n) s σ0 σ' f'.
Proof.
  intros [Hf Hown] He Hn. pose proof He as (Hed&_&Hm).
  destruct (filter_beside_step hash_token hash_span max_equivalents σ0 n σ f e Hf Hed Hm Hn) as (t&σ'&f'&Hins&Hf').
  pose proof Hf as [Hq Hopen Hlen Hsub _]. assert (Heσ : edge_ok σ e) by by eapply edge_ok_subseteq.
  assert (Hroom : insertion_bound n + 2 + Z.of_nat (length (items (pqueue f))) <= insertion_bound (S n)) by (unfold insertion_bound; lia).
  destruct (filter_insert_edge_ok hash_token hash_span max_equivalents _ σ e f Hq Hopen Heσ Hm ltac:(lia))
    as (t2&σ2&f2&q1&dropped&Hins2&Hq1&[_ _ Hit _]&_).
  rewrite Hins in Hins2. injection Hins2 as <- <- <-. exists t, σ', f'. split; [done|]. split; [done|].
  assert (Hall : Forall (own_at s σ0 σ') (items q1)).
  { destruct (is_true t); [by eapply (inserted_own _ s σ0 σ)|by destruct Hq1 as [-> ->]]. }
  rewrite Hit in Hall. by apply Forall_app in Hall as [_ ?].
Qed.

Lemma insert_generated_serving s σ0 es : forall j n σ ef f g, makes σ0 g es -> Forall (queueable σ0 s) es -> (length es <= j)%nat ->
  serving n s σ0 σ f -> insertion_bound (n + length es) <= pq_limit ->
  exists σ' ef' f', insert_generated j σ g ef f = Some (Ok (σ', ef', f')) /\ serving (n + length es) s σ0 σ' f'.
Proof.
  intros j n σ ef f g Hg. revert j n σ ef f.
  induction Hg as [g Hmore|g e g' es Hmore Hcall Hg IH]; intros j n σ ef f Hes Hj Hf Hlim.
  - exists σ, ef, f. split; [destruct j; cbn [SpanFilter.insert_generated]; by rewrite Hmore|]. cbn [length]. by rewrite Nat.add_0_r.
  - destruct j as [|j]; [cbn in Hj; lia|]. cbn [SpanFilter.insert_generated length] in *. rewrite Hmore.
    rewrite Hcall by apply (fb_sub _ _ _ _ _ _ _ (sv_beside _ _ _ _ _ Hf)). cbn [mbind option_bind fst snd].
    apply Forall_cons in Hes as [He Hes].
    destruct (serving_step n s σ0 σ e f Hf He) as (t&σ1&f1&->&Hf1); [etrans; [|exact Hlim]; apply insertion_bound_le; lia|].
    cbn [rbind mbind option_bind].
    destruct (IH j (S n) σ1 (log_create_edge ef) f1 Hes ltac:(lia) Hf1) as (σ2&ef2&f2&->&Hf2); [by rewrite Nat.add_succ_comm|].
    exists σ2, ef2, f2. split; [done|]. by rewrite <- Nat.add_succ_comm.
Qed.

(** ** The rules of two constituents *)

(** Every rule makes at most [max_infos] infos of two children. *)
Context `{!UnaryInfos (R := R) max_infos}.
Context (Hbinary : forall σ r s e1 e2, exists infos, yields (create_info σ r s [e1; e2]) infos /\ (length infos <= max_infos)%nat).

(** A binary rule, not to a word, of two children whose spans make up [s]. *)
Definition fits σ0 s r l1 l2 : Prop := is_lexical (rule_lhs r) = false /\
  exists i1 i2, σ0 !! l1 = Some i1 /\ equiv_ok σ0 i1 /\ rule_rhs r 0 = Some (rt (m_rep i1)) /\
    σ0 !! l2 = Some i2 /\ equiv_ok σ0 i2 /\ rule_rhs r 1 = Some (rt (m_rep i2)) /\
    combine (spn (m_rep i1)) (spn (m_rep i2)) = s.

Lemma fitting_edges s σ0 σ ef r l1 l2 : σ0 ⊆ σ -> rule_rhs_size r = 2 -> fits σ0 s r l1 l2 ->
  exists g es, create_binary_edge ef σ r (Some l1) (Some l2) = Some g /\ makes σ0 g es /\
    (length es <= max_infos)%nat /\ Forall (queueable σ0 s) es.
Proof.
  intros Hσ Hr2 (Hlex&i1&i2&H1&Hok1&Hr0&H2&Hok2&Hr1&<-).
  assert (E1 : equiv_empty i1 = false) by apply Hok1. assert (E2 : equiv_empty i2 = false) by apply Hok2.
  destruct (Hbinary σ r (combine (spn (m_rep i1)) (spn (m_rep i2))) (m_rep i1) (m_rep i2)) as (infos&Hy&Hlen).
  destruct (binary_rule_makes σ0 σ ef r l1 l2 i1 i2 infos Hσ H1 H2 E1 E2 Hr0 Hr1 Hr2 Hy) as (g&Hg&Hmakes).
  exists g. eexists. split; [done|]. split; [exact Hmakes|]. split; [by rewrite length_fmap|].
  apply Forall_fmap, Forall_forall. intros v _. split; [|split].
  - split; [apply ui_lhs|]. split; [by exists i1|by exists i2].
  - done.
  - unfold EdgeEquivalence.edge_equiv_max, UINT_MAX. case_bool_decide; lia.
Qed.

(** How many edges an application can make. *)
Definition makeable (rr : list R) (er1 er2 : list positive) : nat := length rr * (length er1 * (length er2 * max_infos)).

(** A loop that puts at most [c] edges into the filter; [inj] is the filter as the
    loop has it. *)
Definition adds {X} (inj : filter_of -> X) s σ0 (run : store -> factory -> X -> option (result (store * factory * X))) (c : nat) : Prop :=
  forall n σ ef f, serving n s σ0 σ f -> insertion_bound (n + c) <= pq_limit ->
  exists σ' ef' f', run σ ef (inj f) = Some (Ok (σ', ef', inj f')) /\ serving (n + c) s σ0 σ' f'.

Section adds.
Context {X : Type} (inj : filter_of -> X) (s : span_t) (σ0 : store).
Implicit Types run : store -> factory -> X -> option (result (store * factory * X)).
Abbreviation adds := (adds inj s σ0).

Lemma adds_nil : adds (fun σ ef x => Some (Ok (σ, ef, x))) 0.
Proof. intros n σ ef f Hf _. exists σ, ef, f. by rewrite Nat.add_0_r. Qed.

Lemma adds_le run c c' : (c <= c')%nat -> adds run c -> adds run c'.
Proof.
  intros Hc Hrun n σ ef f Hf Hlim. destruct (Hrun n σ ef f Hf) as (σ'&ef'&f'&Hr&Hf').
  - etrans; [|exact Hlim]. apply insertion_bound_le. lia.
  - exists σ', ef', f'. split; [done|]. eapply serving_le; [|exact Hf']. lia.
Qed.

Lemma adds_app run1 run2 c1 c2 : adds run1 c1 -> adds run2 c2 ->
  adds (fun σ ef x => '(σ, ef, x) ⇐ run1 σ ef x; run2 σ ef x) (c1 + c2).
Proof.
  intros H1 H2 n σ ef f Hf Hlim. destruct (H1 n σ ef f Hf) as (σ1&ef1&f1&->&Hf1).
  - etrans; [|exact Hlim]. apply insertion_bound_le. lia.
  - cbn [rbind mbind option_bind]. rewrite Nat.add_assoc in Hlim |- *. by apply H2.
Qed.

(** A loop whose body depends on the store. *)
Lemma adds_at run c : (forall σ ef f, σ0 ⊆ σ -> exists run', run σ ef (inj f) = run' σ ef (inj f) /\ adds run' c) -> adds run c.
Proof.
  intros Hat n σ ef f Hf Hlim. destruct (Hat σ ef f) as (run'&->&Hrun); [apply (fb_sub _ _ _ _ _ _ _ (sv_beside _ _ _ _ _ Hf))|].
  by apply Hrun.
Qed.
End adds.

(** The edges of one application. *)
Lemma generated_adds s σ0 g es : makes σ0 g es -> (length es <= max_infos)%nat -> Forall (queueable σ0 s) es ->
  adds id s σ0 (fun σ ef f => insert_generated max_infos σ g ef f) max_infos.
Proof.
  intros Hg Hlen Hes. apply (adds_le _ _ _ _ (length es)); [done|]. intros n σ ef f Hf Hlim.
  by apply insert_generated_serving.
Qed.

Lemma apply_to_second_adds s σ0 r l1 er2 : rule_rhs_size r = 2 -> (forall l2, l2 ∈ er2 -> fits σ0 s r l1 l2) ->
  adds id s σ0 (apply_to_second hash_token hash_span max_equivalents max_infos r l1 er2) (length er2 * max_infos).
Proof.
  intros Hr2. induction er2 as [|l2 er2 IH]; intros Hfit; [apply adds_nil|]. apply adds_at. intros σ ef f Hσ.
  destruct (fitting_edges s σ0 σ ef r l1 l2 Hσ Hr2 (Hfit l2 ltac:(left))) as (g&es&Hc&Hg&Hlen&Hes).
  eexists. split; [|apply adds_app; [by eapply generated_adds|apply IH; intros x Hx; apply Hfit; by right]].
  cbn [apply_to_second]. by rewrite Hc.
Qed.

Lemma apply_to_first_adds s σ0 r er1 er2 : rule_rhs_size r = 2 -> (forall l1 l2, l1 ∈ er1 -> l2 ∈ er2 -> fits σ0 s r l1 l2) ->
  adds id s σ0 (apply_to_first hash_token hash_span max_equivalents max_infos r er1 er2) (length er1 * (length er2 * max_infos)).
Proof.
  intros Hr2. induction er1 as [|l1 er1 IH]; intros Hfit; [apply adds_nil|].
  apply adds_app; [apply apply_to_second_adds; [done|intros; apply Hfit; [left|done]]|].
  apply IH. intros; apply Hfit; [by right|done].
Qed.

Lemma exhaustive_apply_adds s σ0 rr er1 er2 : (forall r, r ∈ rr -> rule_rhs_size r = 2) ->
  (forall r l1 l2, r ∈ rr -> l1 ∈ er1 -> l2 ∈ er2 -> fits σ0 s r l1 l2) ->
  adds id s σ0 (exhaustive_apply hash_token hash_span max_equivalents max_infos rr er1 er2) (makeable rr er1 er2).
Proof.
  unfold makeable. induction rr as [|r rr IH]; intros Hsize Hfit; [apply adds_nil|]. apply adds_app.
  - unfold apply_rule. rewrite (Hsize r) by left. apply apply_to_first_adds; [by apply Hsize; left|]. intros; apply Hfit; [left|done|done].
  - apply IH; [intros; apply Hsize; by right|intros; apply Hfit; [by right|done|done]].
Qed.

(** The same as the filter interface has it. *)
Lemma exhaustive_filter_adds s σ0 rr er1 er2 : (forall r, r ∈ rr -> rule_rhs_size r = 2) ->
  (forall r l1 l2, r ∈ rr -> l1 ∈ er1 -> l2 ∈ er2 -> fits σ0 s r l1 l2) ->
  adds mk_exhaustive s σ0 (fun σ ef xf => sf_apply_rules (SpanFilter := exhaustive_filter) σ ef rr er1 er2 xf) (makeable rr er1 er2).
Proof.
  intros Hsize Hfit n σ ef f Hf Hlim. destruct (exhaustive_apply_adds s σ0 rr er1 er2 Hsize Hfit n σ ef f Hf Hlim) as (σ'&ef'&f'&Hrun&Hf').
  exists σ', ef', f'. split; [|done]. cbn. unfold id in Hrun. by rewrite Hrun.
Qed.

(** ** As the filter of a bank *)

Abbreviation app := (list R * list positive * list positive)%type.
Implicit Types (apps : list app) (xf : span_filter).

Definition serves s σ0 apps σ ef xf : Prop := serving (length (app_triples apps) * max_infos) s σ0 σ (ex_filter xf).
Definition servable s σ0 apps : Prop := Forall nonempty_app apps /\
  (forall r l1 l2, (r, l1, l2) ∈ app_triples apps -> rule_rhs_size r = 2 /\ fits σ0 s r l1 l2) /\
  insertion_bound (length (app_triples apps) * max_infos) <= pq_limit.

Lemma length_constant {A B} (f : A -> list B) (n : nat) (xs : list A) : (forall x, x ∈ xs -> length (f x) = n) ->
  length (xs ≫= f) = (length xs * n)%nat.
Proof.
  induction xs as [|x xs IH]; intros Hf; [done|]. cbn [mbind list_bind length Nat.mul]. rewrite length_app, (Hf x ltac:(left)).
  f_equal. apply IH. intros y Hy. apply Hf. by right.
Qed.

Lemma length_triples_of rr er1 er2 : (length (triples_of (R := R) (rr, er1, er2)) * max_infos = makeable rr er1 er2)%nat.
Proof.
  unfold triples_of, makeable. cbn [fst snd]. rewrite (length_constant _ (length er1 * length er2)); [nia|].
  intros r _. apply (length_constant _ (length er2)). intros l1 _. rewrite (length_constant _ 1%nat); [lia|done].
Qed.

Lemma elem_of_triples_of (r : R) l1 l2 rr er1 er2 : r ∈ rr -> l1 ∈ er1 -> l2 ∈ er2 -> (r, l1, l2) ∈ triples_of (rr, er1, er2).
Proof.
  intros Hr H1 H2. unfold triples_of. cbn [fst snd]. apply list_elem_of_bind. exists r. split; [|done].
  apply list_elem_of_bind. exists l1. split; [|done]. apply list_elem_of_bind. exists l2. split; [left|done].
Qed.

(** What there is to know of the application that is next. *)
Lemma servable_last s σ0 apps rr er1 er2 : servable s σ0 (apps ++ [(rr, er1, er2)]) ->
  (forall r, r ∈ rr -> rule_rhs_size r = 2) /\ (forall r l1 l2, r ∈ rr -> l1 ∈ er1 -> l2 ∈ er2 -> fits σ0 s r l1 l2) /\
  insertion_bound (length (app_triples apps) * max_infos + makeable rr er1 er2) <= pq_limit /\
  (length (app_triples (apps ++ [(rr, er1, er2)])) * max_infos = length (app_triples apps) * max_infos + makeable rr er1 er2)%nat.
Proof.
  intros (Hne&Hfit&Hlim). unfold app_triples in *. rewrite bind_app in *. cbn [mbind list_bind] in *.
  rewrite app_nil_r, length_app, Nat.mul_add_distr_r, length_triples_of in *.
  apply Forall_app in Hne as [_ [(Hr&H1&H2) _]%Forall_cons]. cbn [fst snd] in *.
  assert (Hall : forall r l1 l2, r ∈ rr -> l1 ∈ er1 -> l2 ∈ er2 -> rule_rhs_size r = 2 /\ fits σ0 s r l1 l2).
  { intros r l1 l2 Hr' H1' H2'. apply Hfit, elem_of_app. right. by apply elem_of_triples_of. }
  split; [|split; [intros r l1 l2 h h1 h2; apply (Hall r l1 l2 h h1 h2)|done]].
  intros r Hr'. destruct er1 as [|l1 er1]; [done|]. destruct er2 as [|l2 er2]; [done|].
  by destruct (Hall r l1 l2 Hr' ltac:(left) ltac:(left)).
Qed.

#[export] Instance exhaustive_serves s σ0 : FilterRuns (SpanFilter0 := exhaustive_filter) σ0 (servable s σ0) (serves s σ0).
Proof.
  split; [intros apps σ ef x [Hx _]; apply Hx|].
  intros apps [[rr er1] er2] σ ef [f] Hf Hp. destruct (servable_last s σ0 apps rr er1 er2 Hp) as (Hsize&Hfit&Hlim&Hlen).
  unfold serves in *. cbn [ex_filter fst snd] in *.
  destruct (exhaustive_filter_adds s σ0 rr er1 er2 Hsize Hfit _ σ ef f Hf Hlim) as (σ'&ef'&f'&Hrun&Hf').
  exists σ', ef', (mk_exhaustive f'). split; [exact Hrun|]. rewrite Hlen. exact Hf'.
Qed.

Lemma accepts_fitting s σ0 T : (forall r l1 l2, (r, l1, l2) ∈ T -> rule_rhs_size r = 2 /\ fits σ0 s r l1 l2) ->
  insertion_bound (length T * max_infos) <= pq_limit -> accepts (servable s σ0) T [].
Proof.
  intros HT Hlim more Hne Hsub. split; [done|]. split.
  - intros r l1 l2 Ht. apply HT. by eapply elem_of_submseteq.
  - etrans; [|exact Hlim]. apply insertion_bound_le, Nat.mul_le_mono_r. by apply submseteq_length.
Qed.

(** ** The applications at a chart *)

Abbreviation chart_typed := (chart_typed max_equivalents).

Lemma chart_edges_members σ s t ch ls : chart_typed σ ch -> chart_edges σ t s ch = Some ls ->
  (length ls <= length (span_members s ch))%nat /\
  forall l, l ∈ ls -> l ∈ span_members s ch /\ exists i, σ !! l = Some i /\ equiv_ok σ i /\ spn (m_rep i) = s /\ rt (m_rep i) = t.
Proof.
  intros Ht. unfold chart_edges, span_members, chart_cells. destruct (span_container ch !! span_key s) as [cs|] eqn:Hcs; cbn [default].
  2: { intros [= <-]. split; [done|by intros l ?%elem_of_nil]. }
  destruct (Ht _ _ Hcs) as (ts&Hts&_). unfold span_edges.
  pose proof (find_cell_spec max_equivalents σ _ t ts cs Hts) as Hf.
  destruct (find_cell σ t cs) as [[[j c]|]|]; [| |done]; cbn [mbind option_bind].
  2: { intros [= <-]. split; [cbn; lia|by intros l ?%elem_of_nil]. }
  intros [= <-]. destruct Hf as [Htj Hcj]. pose proof (Forall2_lookup_lr _ _ _ _ _ _ Hts Htj Hcj) as (_&Hnd&Hc&_).
  assert (Hin : forall l, l ∈ edge_container c -> l ∈ cs ≫= edge_container).
  { intros l Hl. apply list_elem_of_bind. exists c. split; [done|by eapply list_elem_of_lookup_2]. }
  split; [by apply submseteq_length, NoDup_submseteq|].
  intros l Hl. split; [by apply Hin|]. destruct (Hc l Hl) as (i&?&?&Hk%span_key_inj&?). by exists i.
Qed.

Lemma edges_with_members σ s ot ch : chart_typed σ ch -> (length (edges_with σ ch s ot) <= length (span_members s ch))%nat /\
  forall l, l ∈ edges_with σ ch s ot -> exists t i, ot = Some t /\ σ !! l = Some i /\ equiv_ok σ i /\ spn (m_rep i) = s /\ rt (m_rep i) = t.
Proof.
  intros Ht. destruct ot as [t|]; [|split; [cbn; lia|by intros l ?%elem_of_nil]]. cbn [edges_with].
  destruct (chart_edges σ t s ch) as [ls|] eqn:E; [|split; [cbn; lia|by intros l ?%elem_of_nil]]. cbn [default].
  destruct (chart_edges_members σ s t ch ls Ht E) as [Hlen Hls]. split; [done|]. intros l Hl.
  destruct (Hls l Hl) as (_&i&?). by exists t, i.
Qed.

Lemma length_bounded {A B} (f : A -> list B) (n : nat) (xs : list A) : (forall x, x ∈ xs -> (length (f x) <= n)%nat) ->
  (length (xs ≫= f) <= length xs * n)%nat.
Proof.
  induction xs as [|x xs IH]; intros Hf; [done|]. cbn [mbind list_bind length Nat.mul]. rewrite length_app.
  apply Nat.add_le_mono; [apply Hf; left|]. apply IH. intros y Hy. apply Hf. by right.
Qed.

(** No span has more than [M] equivalences. *)
Definition roomy (M : nat) ch : Prop := forall s, (length (span_members s ch) <= M)%nat.

Lemma split_applications_ok (all_rules : list R) M σ ch s firsts : chart_typed σ ch -> roomy M ch ->
  Forall (fun r => is_lexical (rule_lhs r) = false) all_rules ->
  (forall s1, s1 ∈ firsts -> combine s1 (span_ctor (span_right s1) (span_right s)) = s) ->
  let T := split_applications all_rules σ ch firsts (span_right s) in
  (length T <= length firsts * (length all_rules * (M * M)))%nat /\
  forall r l1 l2, (r, l1, l2) ∈ T -> rule_rhs_size r = 2 /\ fits σ s r l1 l2.
Proof.
  intros Ht HM Hlhs Hs T. split.
  - apply length_bounded. intros s1 _. unfold all_applications.
    etrans; [apply (length_bounded _ (M * M))|].
    + intros r _. unfold rule_applications. etrans; [apply (length_bounded _ M)|].
      * intros l1 _. rewrite (length_constant _ 1%nat) by done. rewrite Nat.mul_1_r.
        etrans; [apply (edges_with_members σ _ _ ch Ht)|apply HM].
      * apply Nat.mul_le_mono_r. etrans; [apply (edges_with_members σ _ _ ch Ht)|apply HM].
    + apply Nat.mul_le_mono_r. unfold binary_rules, lower_rules. etrans; apply sublist_length, sublist_filter.
  - intros r l1 l2 (s1&(r'&(a1&(a2&Hin&H2)%list_elem_of_bind&H1)%list_elem_of_bind&Hr)%list_elem_of_bind&Hs1)%list_elem_of_bind.
    apply list_elem_of_singleton in Hin. injection Hin as <- <- <-. apply list_elem_of_filter in Hr as [Hr2 [_ Hr]%list_elem_of_filter].
    split; [done|]. rewrite Forall_forall in Hlhs. split; [by apply Hlhs|].
    destruct (edges_with_members σ s1 (rule_rhs r 0) ch Ht) as [_ E1]. destruct (E1 _ H1) as (t1&i1&Hr0&Hi1&Hok1&Hs1'&<-).
    destruct (edges_with_members σ (span_ctor (span_right s1) (span_right s)) (rule_rhs r 1) ch Ht) as [_ E2].
    destruct (E2 _ H2) as (t2&i2&Hr1&Hi2&Hok2&Hs2'&<-). exists i1, i2. rewrite Hs1', Hs2', (Hs s1 Hs1). done.
Qed.

(** ** What the filter hands out *)

Abbreviation queue_ready := (queue_ready hash_token hash_span max_equivalents (P := P)).

(** A filter of at most [n] edges at the span [s], whatever is beside it. *)
Record holding (n : nat) s σ f : Prop := {
  hd_queue : queue_ok hash_token hash_span max_equivalents (insertion_bound n) σ (pqueue f);
  hd_length : (length (items (pqueue f)) <= n)%nat;
  hd_span : Forall (at_span s σ) (items (pqueue f))
}.

Lemma serving_holding n s σ0 σ f : serving n s σ0 σ f -> holding n s σ f.
Proof. intros Hf. pose proof (sv_span _ _ _ _ _ Hf) as Hsp. destruct Hf as [[? _ ? _ _] _]. by split. Qed.

Lemma holding_items n s σ f : holding n s σ f ->
  NoDup (items (pqueue f)) /\ Forall (at_key σ (span_key s)) (items (pqueue f)) /\
  Forall (fun l => is_lexical (root_of σ l) = false) (items (pqueue f)) /\ (length (items (pqueue f)) <= n)%nat.
Proof.
  intros [Hq Hlen Hsp]. split; [by eapply queue_NoDup|]. split; [|split; [|done]]; (eapply Forall_impl; [exact Hsp|]); intros l (i&Hi&Hok&Hs&Hlex).
  - exists i. by rewrite Hs.
  - unfold root_of. by rewrite (representative_edge_lookup σ l i Hi).
Qed.

(** Nothing of the filter is in a chart over the store beside it. *)
Lemma serving_new n s σ0 σ f ch k l : serving n s σ0 σ f -> chart_typed σ0 ch -> l ∈ items (pqueue f) -> ~ in_chart ch k l.
Proof.
  intros [[_ _ _ _ Hfresh] _] Ht Hl Hin. destruct (member_typed max_equivalents σ0 ch k l Ht Hin) as (i&Hi&_).
  by rewrite Hfresh in Hi.
Qed.

Lemma holding_ready n s σ f : holding n s σ f -> queue_ready σ (mk_exhaustive (filter_finalize f)) (items (pqueue f)).
Proof. intros [Hq _ _]. split; [done|]. split; [by eexists|done]. Qed.

Lemma serving_handed_out n s σ0 σ f ch max_filtered : serving n s σ0 σ f -> chart_typed σ0 ch -> (n <= max_filtered)%nat ->
  BankFinalize.handed_out max_equivalents max_filtered queue_ready s σ ch (mk_exhaustive (filter_finalize f)) (items (pqueue f)).
Proof.
  intros Hf Ht Hn. pose proof (serving_holding _ _ _ _ _ Hf) as Hh. destruct (holding_items n s σ f Hh) as (Hnd&Hat&_&Hlen).
  split; [by eapply holding_ready|done|done| |lia].
  intros l Hl. by eapply serving_new.
Qed.

Lemma serving_create s σ p f0 : new_filter p = Some (Ok f0) -> serving 0 s σ σ f0.
Proof.
  intros Hf. destruct (filter_beside_new hash_token hash_span max_equivalents σ f0 p Hf) as [Hb Hi]. clear Hf.
  split; [exact Hb|]. rewrite Hi. constructor.
Qed.

(** *** A filter is emptied into the chart *)

Lemma drain_edge_filter_as (fuel : nat) : forall σ f ch, drain_edge_filter hash_token hash_span max_equivalents fuel σ f ch =
  '(σ', ch', _) ← drain_filter hash_token hash_span max_equivalents (SpanFilter0 := exhaustive_filter) fuel σ (mk_exhaustive f) ch; Some (σ', ch').
Proof.
  induction fuel as [|fuel IH]; intros σ f ch; cbn [drain_edge_filter drain_filter sf_empty sf_top sf_pop SpanFilter.exhaustive_filter ex_filter];
    (destruct (filter_empty f) as [[]|]; [done| |done]); [done|]. cbn [mbind option_bind].
  destruct (filter_top f) as [l|]; [|done]. cbn [mbind option_bind].
  destruct (Chart.chart_insert_equiv _ _ _ σ l ch) as [[σ1 ch1]|]; [|done]. cbn [mbind option_bind].
  destruct (filter_pop _ _ σ1 f) as [f1|]; [|done]. cbn [mbind option_bind]. apply IH.
Qed.

(** Another filter has made equivalences of its own, or the chart has changed. *)
Lemma holding_frame n s σ σ' f : holding n s σ f ->
  (forall x i, x ∈ items (pqueue f) -> σ !! x = Some i -> equiv_ok σ i -> σ' !! x = Some i /\ equiv_ok σ' i) -> holding n s σ' f.
Proof.
  intros [Hq Hlen Hsp] Hframe. split; [by eapply queue_ok_frame|done|].
  rewrite Forall_forall in Hsp. apply Forall_forall. intros x Hx. destruct (Hsp x Hx) as (i&Hi&Hok&Hs).
  destruct (Hframe x i Hx Hi Hok). by exists i.
Qed.

Lemma drain_holding n s σ f ch k max_filtered : holding n s σ f -> k = span_key s -> chart_typed σ ch ->
  (forall l, l ∈ items (pqueue f) -> ~ in_chart ch k l) -> is_Some (span_container ch !! k) -> (n <= max_filtered)%nat ->
  exists σ' ch' xf, drain_filter hash_token hash_span max_equivalents (SpanFilter0 := exhaustive_filter) max_filtered σ
      (mk_exhaustive (filter_finalize f)) ch = Some (σ', ch', xf) /\
    chart_grows max_equivalents k σ ch σ' ch' /\
    (forall x, in_chart ch' k x -> in_chart ch k x \/ x ∈ items (pqueue f)) /\
    (forall x, ~ in_chart ch k x -> x ∉ items (pqueue f) -> σ' !! x = σ !! x).
Proof.
  intros Hf -> Htyped Hno Hk Hn. destruct (holding_items n s σ f Hf) as (Hnd&Hat&_&Hlen).
  pose proof (exhaustive_drains hash_token hash_span max_equivalents (R := R) (P := P) max_infos) as Hdr.
  destruct (drain_filter_ok hash_token hash_span max_equivalents (SpanFilter0 := exhaustive_filter) queue_ready (span_key s) max_filtered (items (pqueue f)) σ
    (mk_exhaustive (filter_finalize f)) ch) as (σ'&ch'&xf&Hrun&Hg&_&Hin&Hsame); [by eapply holding_ready|done..|lia|].
  by exists σ', ch', xf.
Qed.
(** ** The loops over the toplevel rules *)

Section toplevel.
Context (all_rules : list R) (Hrules : Forall (rule_ok rule_rhs_size rule_rhs) all_rules) (heuristic : R -> score).
Context `{!StdAlgorithmLaws (R * score)}.
Context (Hlhs : Forall (fun r => is_lexical (rule_lhs r) = false) all_rules).
Context (M : nat) (σ0 : store) (b : bank) (Ht : chart_typed σ0 (bank_chart b)) (HM : roomy M (bank_chart b)).
Context (Hmap : rhs_map_built rule_lhs rule_rhs_size rule_rhs heuristic all_rules (rhs_map b)).
Context (Hsig : sig_map_built rule_lhs rule_rhs_size rule_rhs all_rules (bank_sig_map b)).
Abbreviation R0 := (length all_rules).

Lemma upper_rule_in r : r ∈ upper_rules rule_lhs all_rules -> r ∈ all_rules.
Proof. by intros [_ ?]%list_elem_of_filter. Qed.

(** The edges of one token at a span. *)
Lemma typed_edges σ t s : σ0 ⊆ σ -> exists ls, chart_edges σ t s (bank_chart b) = Some ls /\ (length ls <= M)%nat /\
  forall l, l ∈ ls -> exists i, σ0 !! l = Some i /\ equiv_ok σ0 i /\ spn (m_rep i) = s /\ rt (m_rep i) = t.
Proof.
  intros Hσ. destruct (cells_of_ok max_equivalents σ0 (bank_chart b) s Ht) as (ts&_&_&Hall&_). destruct (Hall t) as (ls&Hls&_).
  exists ls. destruct (chart_edges_members σ0 s t _ ls Ht Hls) as [Hlen Hin].
  split; [by eapply chart_edges_weaken|]. split; [etrans; [exact Hlen|apply HM]|]. intros l Hl. by destruct (Hin l Hl) as [_ ?].
Qed.

(** A cell of a span. *)
Definition cell_at σ s c t : Prop := cell_root σ c = Some t /\ (length (edge_container c) <= M)%nat /\
  forall l, l ∈ edge_container c -> exists i, σ !! l = Some i /\ equiv_ok σ i /\ spn (m_rep i) = s /\ rt (m_rep i) = t.

Lemma cells_at s c : c ∈ chart_cells s (bank_chart b) -> exists t, cell_at σ0 s c t.
Proof.
  pose proof (HM s) as Hlen. unfold span_members, chart_cells in *. destruct (span_container (bank_chart b) !! span_key s) as [cs|] eqn:Hcs; cbn [default] in *.
  2: { by intros ?%elem_of_nil. }
  destruct (Ht _ _ Hcs) as (ts&Hts&_). intros [j Hj]%list_elem_of_lookup. destruct (Forall2_lookup_r _ _ _ _ _ Hts Hj) as (t&_&Hc).
  exists t. pose proof Hc as (_&Hnd&Hl&_). split; [by eapply cell_root_ok|]. split.
  - etrans; [|exact Hlen]. apply submseteq_length, NoDup_submseteq; [done|]. intros l Hl'. apply list_elem_of_bind.
    exists c. split; [done|by eapply list_elem_of_lookup_2].
  - intros l Hl'. destruct (Hl l Hl') as (i&?&?&Hk%span_key_inj&?). by exists i.
Qed.

Lemma cells_length s : (length (chart_cells s (bank_chart b)) <= M)%nat.
Proof.
  etrans; [|apply (HM s)]. unfold span_members, chart_cells. destruct (span_container (bank_chart b) !! span_key s) as [cs|] eqn:Hcs; cbn [default]; [|cbn; lia].
  destruct (Ht _ _ Hcs) as (ts&Hts&_). clear Hcs. induction Hts as [|t c ts cs (Hne&_) Hcs IH]; [cbn; lia|].
  unfold id in *. cbn [mbind list_bind]. rewrite length_app.
  assert (Hpos : (0 < length (edge_container c))%nat) by (destruct (edge_container c); [done|cbn; lia]).
  exact (Nat.add_le_mono _ _ _ _ Hpos IH).
Qed.

(** The rules of one representative. *)
Lemma toplevel_rules_fit s1 s2 s c t r : combine s1 s2 = s -> cell_at σ0 s1 c t ->
  r ∈ starting_with rule_rhs t (binary_rules rule_rhs_size (upper_rules rule_lhs all_rules)) ->
  exists rhs2 rr, rule_rhs r 1 = Some rhs2 /\ toplevel_rules rule_rhs_size rule_rhs (rule_key rule_rhs_size rule_rhs r) (rhs_map b) = Some rr /\
    (length rr <= R0)%nat /\ (forall r', r' ∈ rr -> rule_rhs_size r' = 2) /\
    forall er2 : list positive, (forall l, l ∈ er2 -> exists i, σ0 !! l = Some i /\ equiv_ok σ0 i /\ spn (m_rep i) = s2 /\ rt (m_rep i) = rhs2) ->
      forall r' l1 l2, r' ∈ rr -> l1 ∈ edge_container c -> l2 ∈ er2 -> fits σ0 s r' l1 l2.
Proof.
  intros Hs (_&_&Hc) [Hr0 [H2 Hr]%list_elem_of_filter]%list_elem_of_filter.
  assert (Hok : forall x, x ∈ all_rules -> rule_ok rule_rhs_size rule_rhs x) by (by apply Forall_forall).
  pose proof (Hok r (upper_rule_in r Hr)) as Hrok.
  destruct (proj2 Hrok 1%nat) as [rhs2 Hr1]; [unfold rule_key; cbn; lia|]. cbn [key_at rule_key] in Hr1.
  destruct (rules_built _ _ _ _ (rule_key rule_rhs_size rule_rhs r) all_rules (rhs_map b) Hrok Hmap) as (l&rr&_&Hrr&_&_&Hp&_).
  assert (Hin : forall r', r' ∈ rr -> r' ∈ all_rules /\ rule_rhs_size r' = 2 /\ rule_rhs r' 0 = Some t /\ rule_rhs r' 1 = Some rhs2).
  { intros r' Hr'. rewrite Hp in Hr'. apply list_elem_of_filter in Hr' as [Hsg Hr'%upper_rule_in]. split; [done|].
    destruct (same_signature r r') as (?&<-&<-); [done|by apply Hok|by symmetry|done|done]. }
  exists rhs2, rr. split; [done|]. split; [done|]. split.
  { rewrite (Permutation_length Hp). unfold with_signature, upper_rules. etrans; apply sublist_length, sublist_filter. }
  split; [intros r' Hr'; by destruct (Hin r' Hr') as (_&?&_)|].
  intros er2 Her2 r' l1 l2 Hr' H1 Hl2. destruct (Hin r' Hr') as (Ha&_&E0&E1). rewrite Forall_forall in Hlhs. split; [by apply Hlhs|].
  destruct (Hc l1 H1) as (i1&?&?&Hs1&Ht1), (Her2 l2 Hl2) as (i2&?&?&Hs2&Ht2). exists i1, i2. by rewrite Ht1, Ht2, Hs1, Hs2.
Qed.

Definition per_rep : nat := R0 * (M * (M * max_infos)).

Lemma apply_toplevel_reps_adds s1 s2 s c t rs : combine s1 s2 = s -> cell_at σ0 s1 c t ->
  (forall r, r ∈ rs -> r ∈ starting_with rule_rhs t (binary_rules rule_rhs_size (upper_rules rule_lhs all_rules))) ->
  adds mk_exhaustive s σ0 (apply_toplevel_reps (SpanFilter0 := exhaustive_filter) rs c s2 b) (length rs * per_rep).
Proof.
  intros Hs Hc. induction rs as [|r rs IH]; intros Hrs; [apply adds_nil|]. apply adds_at. intros σ ef f Hσ.
  destruct (toplevel_rules_fit s1 s2 s c t r Hs Hc (Hrs r ltac:(left))) as (rhs2&rr&Hr1&Hrr&Hlen&Hsize&Hfit).
  destruct (typed_edges σ rhs2 s2 Hσ) as (er2&Her&Hlen2&Her2). pose proof Hc as (_&Hlen1&_).
  assert (Hb : (makeable rr (edge_container c) er2 <= per_rep)%nat).
  { unfold makeable, per_rep. apply Nat.mul_le_mono; [done|]. apply Nat.mul_le_mono; [done|]. by apply Nat.mul_le_mono_r. }
  eexists. split; [|apply adds_app; [apply (adds_le _ _ _ _ _ _ Hb); exact (exhaustive_filter_adds s σ0 rr _ er2 Hsize (Hfit er2 Her2))|]].
  - cbn [apply_toplevel_reps]. rewrite Hr1, Hrr. cbn [mbind option_bind]. by rewrite Her.
  - apply IH. intros x Hx. apply Hrs. by right.
Qed.

Definition per_cell : nat := R0 * per_rep.

Lemma apply_toplevel_cells_adds s1 s2 s cs : combine s1 s2 = s -> (forall c, c ∈ cs -> exists t, cell_at σ0 s1 c t) ->
  adds mk_exhaustive s σ0 (apply_toplevel_cells (SpanFilter0 := exhaustive_filter) cs s2 b) (length cs * per_cell).
Proof.
  intros Hs. induction cs as [|c cs IH]; intros Hcs; [apply adds_nil|]. apply adds_at. intros σ ef f Hσ.
  destruct (Hcs c ltac:(left)) as (t&Hc). destruct (reps_built _ _ _ t _ _ Hrules Hsig) as (l&u&_&Hu&_&(Hnd&Hin&_)).
  assert (Hlen : (length u <= R0)%nat).
  { apply NoDup_fmap_1 in Hnd. apply submseteq_length, NoDup_submseteq; [done|]. intros r Hr%Hin.
    apply list_elem_of_filter in Hr as [_ [_ ?%upper_rule_in]%list_elem_of_filter]. done. }
  eexists. split; [|apply adds_app; [apply (adds_le _ _ _ _ (length u * per_rep)); [by apply Nat.mul_le_mono_r|]|]].
  - cbn [apply_toplevel_cells]. rewrite (cell_root_weaken σ0 σ c t Hσ (proj1 Hc)). cbn [mbind option_bind]. by rewrite Hu.
  - by apply (apply_toplevel_reps_adds s1 s2 s c t u).
  - apply IH. intros x Hx. apply Hcs. by right.
Qed.

Definition per_split : nat := M * per_cell.

Lemma apply_toplevel_splits_adds s parts : (forall p, p ∈ parts -> combine p.1 p.2 = s) ->
  adds mk_exhaustive s σ0 (apply_toplevel_splits (SpanFilter0 := exhaustive_filter) parts b) (length parts * per_split).
Proof.
  induction parts as [|[s1 s2] parts IH]; intros Hparts; [apply adds_nil|]. apply adds_app.
  - apply (adds_le _ _ _ _ (length (chart_cells s1 (bank_chart b)) * per_cell)); [apply Nat.mul_le_mono_r, cells_length|].
    apply (apply_toplevel_cells_adds s1 s2 s); [exact (Hparts (s1, s2) ltac:(left))|apply cells_at].
  - apply IH. intros x Hx. apply Hparts. by right.
Qed.

(** *** The unary rules *)

Context (gram_toplevel_unary_rules : indexed_token -> list R) (W : nat).
Abbreviation rewrites := (rewrites (score := score) (info_type := info_type) (R := R) (G := G)).
Context (Hgram : forall t, (length (gram_toplevel_unary_rules t) <= W)%nat /\ forall r, r ∈ gram_toplevel_unary_rules t -> rewrites t r).

Lemma apply_unary_rule_adds s t r er : rewrites t r ->
  (forall l, l ∈ er -> exists i, σ0 !! l = Some i /\ equiv_ok σ0 i /\ spn (m_rep i) = s /\ rt (m_rep i) = t) ->
  adds id s σ0 (apply_unary_rule hash_token hash_span max_equivalents max_infos r er) (length er * max_infos).
Proof.
  intros (Hr0&Hr1&Hlex). induction er as [|l er IH]; intros Her; [apply adds_nil|]. apply adds_at. intros σ ef f Hσ.
  destruct (Her l ltac:(left)) as (i&Hi&Hok&Hs&Hrt). assert (He : equiv_empty i = false) by apply Hok. rewrite <- Hrt in Hr0.
  destruct (ui_yields σ r (spn (m_rep i)) (m_rep i)) as (infos&Hy&Hlen).
  destruct (unary_rule_makes σ0 σ ef r l i infos Hσ Hi He Hr0 Hr1 Hy) as (g&Hc&Hg). rewrite Hrt in Hr0.
  eexists. split; [|apply adds_app; [eapply generated_adds; [exact Hg|by rewrite length_fmap|]|apply IH; intros x Hx; apply Her; by right]].
  - cbn [apply_unary_rule]. by rewrite Hc.
  - apply Forall_fmap, Forall_forall. intros v _. destruct (edge_of_info_unary max_equivalents max_infos Hmax σ0 ef r l i v Hi He) as (H1&H2&_).
    split; [done|]. split; [|done]. split; [done|]. done.
Qed.

Lemma apply_toplevel_unary_adds s t rr er : (forall r, r ∈ rr -> rewrites t r) -> (length er <= M)%nat ->
  (forall l, l ∈ er -> exists i, σ0 !! l = Some i /\ equiv_ok σ0 i /\ spn (m_rep i) = s /\ rt (m_rep i) = t) ->
  adds id s σ0 (apply_toplevel_unary hash_token hash_span max_equivalents max_infos rr er) (length rr * (M * max_infos)).
Proof.
  intros Hrr Hlen Her. induction rr as [|r rr IH]; [apply adds_nil|]. apply adds_app.
  - apply (adds_le _ _ _ _ (length er * max_infos)); [by apply Nat.mul_le_mono_r|]. apply (apply_unary_rule_adds s t); [apply Hrr; left|done].
  - apply IH. intros x Hx. apply Hrr. by right.
Qed.

Definition per_unary_cell : nat := W * (M * max_infos).

Lemma apply_unary_cells_adds cs : (forall c, c ∈ cs -> exists t, cell_at σ0 (total_span b) c t) ->
  adds id (total_span b) σ0 (apply_unary_cells hash_token hash_span max_equivalents gram_toplevel_unary_rules max_infos cs b)
    (length cs * per_unary_cell).
Proof.
  induction cs as [|c cs IH]; intros Hcs; [apply adds_nil|]. apply adds_at. intros σ ef f Hσ.
  destruct (Hcs c ltac:(left)) as (t&Hc). destruct (typed_edges σ t (total_span b) Hσ) as (er&Her&Hlen&Hall). destruct (Hgram t) as [HW Hrr].
  eexists. split; [|apply adds_app; [apply (adds_le _ _ _ _ (length (gram_toplevel_unary_rules t) * (M * max_infos))); [by apply Nat.mul_le_mono_r|]|]].
  - cbn [apply_unary_cells]. rewrite (cell_root_weaken σ0 σ c t Hσ (proj1 Hc)). cbn [mbind option_bind]. by rewrite Her.
  - by apply (apply_toplevel_unary_adds _ t).
  - apply IH. intros x Hx. apply Hcs. by right.
Qed.
End toplevel.

Lemma combine_split s m : span_ok s -> span_left s < m < span_right s -> combine (split_at s m).1 (split_at s m).2 = s.
Proof.
  intros (?&?&?) Hm. unfold combine, split_at. cbn [fst snd span_left span_right]. destruct s as [sl sr]. cbn [span_left span_right] in *.
  apply span_ctor_small; lia.
Qed.

(** ** Two filters over one another are emptied into a chart *)

Lemma typed_subseteq σ σ' ch : σ ⊆ σ' -> chart_typed σ ch -> chart_typed σ' ch.
Proof. intros Hs Ht k cs Hcs. apply (cells_ok_improves max_equivalents σ); [by apply (improves_subseteq max_equivalents)|by apply Ht]. Qed.

Lemma serving_later n1 n2 s1 s2 σ σ1 σ2 f1 f2 l : serving n1 s1 σ σ1 f1 -> serving n2 s2 σ1 σ2 f2 -> l ∈ items (pqueue f2) ->
  l ∉ items (pqueue f1).
Proof.
  intros Hf1 Hf2 Hl Hin. pose proof (fb_fresh _ _ _ _ _ _ _ (sv_beside _ _ _ _ _ Hf2) l Hl) as Hfresh.
  pose proof (sv_span _ _ _ _ _ Hf1) as Hsp. rewrite Forall_forall in Hsp. destruct (Hsp l Hin) as (i&Hi&_). by rewrite Hi in Hfresh.
Qed.

Lemma drain_two n1 n2 s σ σ1 σ2 f1 f2 ch max_filtered : chart_typed σ ch -> is_Some (span_container ch !! span_key s) ->
  serving n1 s σ σ1 f1 -> serving n2 s σ1 σ2 f2 -> (n1 <= max_filtered)%nat -> (n2 <= max_filtered)%nat ->
  exists σ3 ch3 x3 σ4 ch4,
    drain_filter hash_token hash_span max_equivalents (SpanFilter0 := exhaustive_filter) max_filtered σ2 (mk_exhaustive (filter_finalize f1)) ch =
      Some (σ3, ch3, x3) /\
    drain_edge_filter hash_token hash_span max_equivalents max_filtered σ3 (filter_finalize f2) ch3 = Some (σ4, ch4) /\
    chart_grows max_equivalents (span_key s) σ2 ch σ4 ch4.
Proof.
  intros Ht Hk Hf1 Hf2 F1 F2.
  pose proof (fb_sub _ _ _ _ _ _ _ (sv_beside _ _ _ _ _ Hf1)) as H01. pose proof (fb_sub _ _ _ _ _ _ _ (sv_beside _ _ _ _ _ Hf2)) as H12.
  assert (H02 : σ ⊆ σ2) by by etrans. pose proof (typed_subseteq σ σ2 _ H02 Ht) as Ht2.
  assert (Hf1' : holding n1 s σ2 f1).
  { apply (holding_frame _ _ σ1); [by eapply serving_holding|]. intros x i _ Hi Hoki. split; [by eapply lookup_weaken|by apply (equiv_ok_subseteq max_equivalents σ1)]. }
  destruct (drain_holding _ s σ2 f1 ch (span_key s) max_filtered Hf1' eq_refl Ht2) as (σ3&ch3&x3&Hr3&Hg3&Hin3&Hsame3);
    [intros l Hl; by apply (serving_new _ _ σ σ1 f1 _ _ _ Hf1 Ht)|done|done|].
  assert (Hnew : forall l, l ∈ items (pqueue f2) -> ~ in_chart ch (span_key s) l /\ l ∉ items (pqueue f1)).
  { intros l Hl. split; [by apply (serving_new _ _ σ1 σ2 f2 _ _ _ Hf2 (typed_subseteq σ σ1 ch H01 Ht))|exact (serving_later _ _ _ _ σ σ1 σ2 f1 f2 l Hf1 Hf2 Hl)]. }
  assert (Hf2' : holding n2 s σ3 f2).
  { apply (holding_frame _ _ σ2); [by eapply serving_holding|]. intros x i Hx Hi Hoki. destruct (Hnew x Hx) as [Hn1 Hn2].
    destruct (im_at _ _ _ (cg_store _ _ _ _ _ _ Hg3) x i Hi Hoki) as (i'&Hi'&Hok'&_).
    rewrite (Hsame3 x Hn1 Hn2), Hi in Hi'. injection Hi' as <-. by rewrite (Hsame3 x Hn1 Hn2). }
  destruct (drain_holding _ s σ3 f2 ch3 (span_key s) max_filtered Hf2' eq_refl (cg_typed _ _ _ _ _ _ Hg3)) as (σ4&ch4&x4&Hr4&Hg4&_&_).
  - intros l Hl [Hin|Hin]%Hin3; by destruct (Hnew l Hl).
  - eapply span_kept; [by eapply grows_changes|done].
  - done.
  - exists σ3, ch3, x3, σ4, ch4. split; [done|]. split; [by rewrite drain_edge_filter_as, Hr4|].
    exact (chart_grows_trans max_equivalents _ _ _ _ _ _ _ Hg3 Hg4).
Qed.

(** ** The toplevel rules *)

Section toplevel_rules.
Context (all_rules : list R) (Hrules : Forall (rule_ok rule_rhs_size rule_rhs) all_rules) (heuristic : R -> score).
Context `{!StdAlgorithmLaws (R * score)}.
Context (Hlhs : Forall (fun r => is_lexical (rule_lhs r) = false) all_rules).
Context (gram_toplevel_unary_rules : indexed_token -> list R) (W : nat).
Context (Hgram : forall t, (length (gram_toplevel_unary_rules t) <= W)%nat /\ forall r, r ∈ gram_toplevel_unary_rules t ->
  rewrites (score := score) (info_type := info_type) (R := R) (G := G) t r).
Context (M : nat) (b : bank) (HM : roomy M (bank_chart b)).
Context (Hmap : rhs_map_built rule_lhs rule_rhs_size rule_rhs heuristic all_rules (rhs_map b)).
Context (Hsig : sig_map_built rule_lhs rule_rhs_size rule_rhs all_rules (bank_sig_map b)).
Context (p : P) (f0 : filter_of) (Hf0 : new_filter p = Some (Ok f0)) (max_filtered : nat).
Abbreviation target := (total_span b).

(** Both filters fit. *)
Record toplevel_room : Prop := {
  tr_ok : span_ok target;
  tr_length : 1 <= span_length target;
  tr_binary : insertion_bound (length (all_splits target) * per_split all_rules M) <= pq_limit;
  tr_binary_fuel : (length (all_splits target) * per_split all_rules M <= max_filtered)%nat;
  tr_unary : insertion_bound (M * per_unary_cell M W) <= pq_limit;
  tr_unary_fuel : (M * per_unary_cell M W <= max_filtered)%nat
}.

(** The two filters, before they are emptied. *)
Lemma toplevel_filters σ ef : chart_typed σ (bank_chart b) -> toplevel_room ->
  exists σ1 ef1 f1 σ2 ef2 f2,
    apply_toplevel_splits (SpanFilter0 := exhaustive_filter) (all_splits target) b σ ef (mk_exhaustive f0) = Some (Ok (σ1, ef1, mk_exhaustive f1)) /\
    apply_unary_cells hash_token hash_span max_equivalents gram_toplevel_unary_rules max_infos (chart_cells target (bank_chart b)) b σ1 ef1 f0 =
      Some (Ok (σ2, ef2, f2)) /\
    serving (length (all_splits target) * per_split all_rules M) target σ σ1 f1 /\
    serving (M * per_unary_cell M W) target σ1 σ2 f2.
Proof.
  intros Ht [Hok Hlen B1 _ B2 _].
  assert (Hparts : forall q, q ∈ all_splits target -> combine q.1 q.2 = target).
  { intros q (m&Hm&->)%elem_of_all_splits. by apply combine_split. }
  destruct (apply_toplevel_splits_adds all_rules Hrules heuristic Hlhs M σ b Ht HM Hmap Hsig target (all_splits target) Hparts
    0%nat σ ef f0 (serving_create target σ p f0 Hf0) B1) as (σ1&ef1&f1&H1&Hf1). rewrite Nat.add_0_l in Hf1.
  pose proof (fb_sub _ _ _ _ _ _ _ (sv_beside _ _ _ _ _ Hf1)) as H01. pose proof (typed_subseteq σ σ1 _ H01 Ht) as Ht1.
  assert (Hcells : adds id target σ1 (apply_unary_cells hash_token hash_span max_equivalents gram_toplevel_unary_rules max_infos
    (chart_cells target (bank_chart b)) b) (M * per_unary_cell M W)).
  { eapply adds_le; [apply Nat.mul_le_mono_r, (cells_length M σ1 b Ht1 HM)|].
    apply (apply_unary_cells_adds M σ1 b Ht1 HM gram_toplevel_unary_rules W Hgram). apply (cells_at M σ1 b Ht1 HM). }
  destruct (Hcells 0%nat σ1 ef1 f0 (serving_create target σ1 p f0 Hf0) B2) as (σ2&ef2&f2&H2&Hf2).
  exists σ1, ef1, f1, σ2, ef2, f2. split; [exact H1|]. split; [exact H2|]. split; [exact Hf1|exact Hf2].
Qed.

Lemma apply_toplevel_rules_ok σ ef : chart_typed σ (bank_chart b) -> toplevel_room -> is_Some (span_container (bank_chart b) !! span_key target) ->
  exists σ' ef' ch', apply_toplevel_rules hash_token hash_span max_equivalents gram_toplevel_unary_rules (SpanFilter0 := exhaustive_filter)
      (fun _ => mk_exhaustive f0) (fun _ => f0) max_filtered max_infos σ ef b = Some (Ok (σ', ef', set_chart ch' b)) /\
    improves σ σ' /\ span_changes max_equivalents (span_key target) σ (bank_chart b) σ' ch' /\
    forall l, in_chart (bank_chart b) (span_key target) l -> in_chart ch' (span_key target) l.
Proof.
  intros Ht Hr Hk. pose proof Hr as [Hok Hlen _ F1 _ F2].
  destruct (toplevel_filters σ ef Ht Hr) as (σ1&ef1&f1&σ2&ef2&f2&H1&H2&Hf1&Hf2). unfold apply_toplevel_rules.
  rewrite partitions_of_all by done. cbn [mbind option_bind]. rewrite H1. cbn [rbind mbind option_bind]. rewrite H2. cbn [rbind mbind option_bind].
  cbn [sf_finalize SpanFilter.exhaustive_filter ex_filter rbind mbind option_bind].
  destruct (drain_two _ _ target σ σ1 σ2 f1 f2 (bank_chart b) max_filtered Ht Hk Hf1 Hf2 F1 F2) as (σ3&ch3&x3&σ4&ch4&Hr3&Hr4&Hg).
  rewrite Hr3. cbn [mbind option_bind]. rewrite Hr4. cbn [mbind option_bind]. exists σ4, ef2, ch4. split; [reflexivity|].
  pose proof (fb_sub _ _ _ _ _ _ _ (sv_beside _ _ _ _ _ Hf1)) as H01. pose proof (fb_sub _ _ _ _ _ _ _ (sv_beside _ _ _ _ _ Hf2)) as H12.
  clear Hf0 H1 H2 Hr3 Hr4. assert (H02 : σ ⊆ σ2) by by etrans.
  split; [apply (improves_trans max_equivalents _ σ2); [by apply (improves_subseteq max_equivalents)|apply Hg]|].
  split; [|apply (cg_members _ _ _ _ _ _ Hg)].
  apply (span_changes_trans max_equivalents _ σ _ σ2 (bank_chart b)); [|by apply grows_changes].
  apply (span_changes_store max_equivalents); [by eapply typed_subseteq|by apply (improves_subseteq max_equivalents)].
Qed.
End toplevel_rules.
End serving.
End parse.
