(* ===== verification/BankParse.v ===== *)
(** Parsing a sentence: the CKY loop of [ParseOrder] over the bank of [FilterBank] and
    [BankFinalize], with exhaustive filters.

    The bank is an instance of the interface that [parse_cky] asks for.  From a chart
    with the words of the sentence the parse ends without failure, as long as no
    span gets more edges than there is room for, and leaves a well formed chart. *)
From S2P Require Import Prelude Span SpanGen ParseOrder OaTable OaHashtable PriorityTable PriorityQueue TokenStorage Token Edge EdgeEquivalence EdgeQueue FilterPredicate Chart ChartEquiv EdgeFilter SortedCube Generator CubeHeap RuleMap SpanFilter FilterBank GraphSearch UnaryFilter EquivSet UnaryApplications BankFinalize ExhaustiveBank.
Open Scope Z_scope.

(** * The spans in the order of the loop *)

Definition spans_of (target : span_t) : list span_t := seqZ 1 (span_length target) ≫= all_shifts target.

Lemma cky_calls_spans target : cky_calls target = spans_of target ≫= span_calls.
Proof.
  unfold cky_calls, spans_of. induction (seqZ 1 (span_length target)) as [|len lens IH]; [done|].
  cbn [mbind list_bind]. by rewrite bind_app, <- IH.
Qed.

Lemma elem_of_spans target s : span_ok target -> s ∈ spans_of target <->
  span_left target <= span_left s /\ span_left s < span_right s /\ span_right s <= span_right target.
Proof.
  intros H. unfold spans_of. rewrite list_elem_of_bind. setoid_rewrite elem_of_all_shifts. setoid_rewrite elem_of_seqZ.
  rewrite length_ok by done. split.
  - intros (len&(k&->&?&?)&?). cbn [span_left span_right]. lia.
  - destruct s as [l r]. cbn [span_left span_right]. intros ?. exists (r - l). split; [|lia]. exists l. split; [f_equal; lia|lia].
Qed.

Lemma spans_ok target s : span_ok target -> s ∈ spans_of target -> span_ok s /\ 1 <= span_length s <= span_length target.
Proof.
  intros H Hs%elem_of_spans; [|done]. pose proof H as (?&?&?). assert (Hok : span_ok s) by (unfold span_ok; lia).
  rewrite !length_ok by done. split; [done|lia].
Qed.

Lemma spans_NoDup target : span_ok target -> NoDup (spans_of target).
Proof.
  intros H. pose proof H as (?&?&?). unfold spans_of. apply NoDup_bind; [| |apply NoDup_seqZ].
  - intros len1 len2 s Hl1%elem_of_seqZ Hl2%elem_of_seqZ (k1&->&?&?)%elem_of_all_shifts (k2&Hk&?&?)%elem_of_all_shifts.
    injection Hk as -> ?. lia.
  - intros len _. unfold all_shifts. apply NoDup_fmap_2; [|apply NoDup_seqZ]. by intros x y [= ->].
Qed.

(** The sentence itself is the last span. *)
Lemma spans_last target : span_ok target -> 1 <= span_length target -> exists before, spans_of target = before ++ [target].
Proof.
  intros H Hl. exists (seqZ 1 (span_length target - 1) ≫= all_shifts target). unfold spans_of.
  replace (span_length target) with (span_length target - 1 + 1) at 1 by lia. rewrite seqZ_app by lia. rewrite bind_app. f_equal.
  rewrite (seqZ_cons _ 1), seqZ_nil by lia. cbn [mbind list_bind]. rewrite app_nil_r.
  replace (1 + (span_length target - 1)) with (span_length target) by lia. unfold all_shifts. pose proof (length_ok _ H) as Hlen.
  replace (span_right target - span_left target - span_length target + 1) with 1 by lia.
  rewrite seqZ_cons, seqZ_nil by lia. cbn [fmap list_fmap]. destruct target as [l r]. cbn [span_left span_right] in *.
  do 2 f_equal; lia.
Qed.

(** * The bank behind the interface of the loop *)

Section bank.
Context {score info_type R G : Type} `{!ScoreOps score, !ScoreZero score, !InfoOps info_type}.
Context `{!Inhabited score, !Inhabited info_type}.
Abbreviation edge := (edge score info_type).
Abbreviation store := (equiv_store score info_type).
Abbreviation factory := (edge_factory score).
Context `{!GrammarOps R score edge store G, !Generator G (info_type * score * score)}.
Context `{!StdAlgorithms (alt_edge score), !StdAlgorithms (R * score), !StdAlgorithms positive, HC : !HashCombine}.
Context `{HG : !GraphAlgorithms}.
Context (hash_token : indexed_token -> Z) (hash_span : span_t -> Z) (max_equivalents : Z).
Context (grammar_rule : Z -> R) (gram_unary_rules gram_toplevel_unary_rules : indexed_token -> list R).
Context {F : Type} `{!SpanFilter (score := score) (info_type := info_type) (R := R) F}.
Context {UF : Type} `{!UnaryFilter (score := score) (info_type := info_type) (R := R) UF}.
Context {P : Type} `{!FilterPredicate (score := score) (info_type := info_type) P}.
Context (create : span_t -> F) (create_unary : span_t -> UF) (create_toplevel : span_t -> predicate_edge_filter (score := score) (P := P)).
Context (max_filtered max_infos max_edges max_collected : nat).

(** The store, the edge factory and the bank, or a failure. *)
Definition bank_state : Type := option (result (store * factory * filter_bank (score := score) (R := R) (F := F))).

Definition bank_calls : ParseOrder.FilterBank bank_state := {|
  fb_apply_rules first_constituent right_boundary st := '(σ, ef, b) ⇐ st; bank_apply_rules create first_constituent right_boundary σ ef b;
  fb_finalize s st := '(σ, ef, b) ⇐ st;
    bank_finalize hash_token hash_span max_equivalents grammar_rule gram_unary_rules gram_toplevel_unary_rules
      create create_unary create_toplevel max_filtered max_infos max_edges max_collected s σ ef b
|}.
#[local] Existing Instance bank_calls.

Lemma run_failed calls : run_calls calls (None : bank_state) = None.
Proof. by induction calls as [|[] calls IH]. Qed.

Lemma run_throw calls x : run_calls calls (Some (Throw x) : bank_state) = Some (Throw x).
Proof. by induction calls as [|[] calls IH]. Qed.

(** The calls for the splits of a span are [apply_splits]. *)
Lemma run_apply_splits right firsts : forall σ ef b,
  run_calls ((fun s => ApplyRules s right) <$> firsts) (Some (Ok (σ, ef, b)) : bank_state) = apply_splits create firsts right σ ef b.
Proof.
  induction firsts as [|s firsts IH]; intros σ ef b; [done|]. cbn [fmap list_fmap apply_splits].
  change (run_calls (?c :: ?cs) ?st) with (run_calls cs (run_call st c)). cbn [run_call fb_apply_rules bank_calls rbind mbind option_bind].
  destruct (bank_apply_rules create s right σ ef b) as [[[[σ1 ef1] b1]|]|]; cbn [rbind mbind option_bind]; [apply IH|apply run_throw|apply run_failed].
Qed.

Lemma run_span_calls s σ ef b : run_calls (span_calls s) (Some (Ok (σ, ef, b)) : bank_state) =
  fb_finalize s (apply_splits create (fst <$> all_splits s) (span_right s) σ ef b).
Proof.
  unfold span_calls. rewrite run_calls_app. rewrite <- run_apply_splits. unfold run_calls at 1. cbn [foldl run_call]. do 2 f_equal.
  unfold all_splits. by rewrite <- !list_fmap_compose.
Qed.
End bank.

(** * The parse with exhaustive filters *)

Section parse.
Context {score info_type R G : Type} `{!ScoreOps score, !ScoreZero score, !InfoOps info_type}.
Context `{!Inhabited score, !Inhabited info_type}.
Abbreviation edge := (edge score info_type).
Abbreviation store := (equiv_store score info_type).
Abbreviation factory := (edge_factory score).
Abbreviation chart := (basic_chart score).
Context `{!GrammarOps R score edge store G, !Generator G (info_type * score * score)}.
Context `{!StdAlgorithms (alt_edge score), !StdAlgorithms (R * score), !StdAlgorithms positive, HC : !HashCombine}.
Context `{HG : !GraphAlgorithms}.
Context (hash_token : indexed_token -> Z) (hash_span : span_t -> Z) (max_equivalents : Z).
Context {P : Type} `{!FilterPredicate (score := score) (info_type := info_type) P}.
Context {UF : Type} `{!UnaryFilter (score := score) (info_type := info_type) (R := R) UF}.
Abbreviation span_filter := (exhaustive_span_filter (score := score) (P := P)).
Abbreviation bank := (filter_bank (score := score) (R := R) (F := span_filter)).
Implicit Types (σ : store) (e : edge) (ef : factory) (ch : chart) (b : bank) (s : span_t) (r : R) (l : positive) (k : Z * Z).

Context `{!StdAlgorithmLaws (alt_edge score), !StdAlgorithmLaws (R * score), !StdAlgorithmLaws positive, HGL : !GraphAlgorithmLaws}.
Context `{!InfoLaws info_type, !StrictWeak (score_lt (S := score)), !ScoreZeroLaws score}.
Context `{!PredicateSafe hash_token hash_span max_equivalents P}.
Context (Hmax : 1 <= u32 max_equivalents).

(** The grammar: every rule makes at most [max_infos] infos. *)
Context (grammar_rule : Z -> R) (gram_unary_rules gram_toplevel_unary_rules : indexed_token -> list R).
Context (all_rules : list R) (Hrules : Forall (rule_ok rule_rhs_size rule_rhs) all_rules).
Context (Hlhs : Forall (fun r => is_lexical (rule_lhs r) = false) all_rules).
Context (Hnumber : forall r, r ∈ all_rules -> grammar_rule (rule_number r) = r).
Context (pow_tm pow_info : score -> score) (info_heuristic : R -> score).
Context (max_filtered max_infos max_edges max_collected max_word_rules : nat) `{!UnaryInfos (R := R) max_infos}.
Context (Hbinary : forall σ r s e1 e2, exists infos, yields (create_info σ r s [e1; e2]) infos /\ (length infos <= max_infos)%nat).
Abbreviation rewrites := (rewrites (score := score) (info_type := info_type) (R := R) (G := G)).
Context (Hgram : forall t, (length (gram_unary_rules t) <= max_word_rules)%nat /\ forall r, r ∈ gram_unary_rules t -> rewrites t r).
Context (Htop : forall t, (length (gram_toplevel_unary_rules t) <= max_word_rules)%nat /\ forall r, r ∈ gram_toplevel_unary_rules t -> rewrites t r).

(** The filters of the factory. *)
Context (max_rules max_calls : nat) (holds : nat -> store -> store -> list edge -> UF -> Prop).
Context `{HF : !UnaryFilterLaws max_equivalents max_rules max_calls max_edges holds}.
Context (max_rules' max_calls' : nat) (holds' : nat -> store -> store -> list edge -> UF -> Prop).
Context `{HF' : !UnaryFilterLaws max_equivalents max_rules' max_calls' max_collected holds'}.
Context (Hunary : forall t, (length (with_signature rule_rhs_size rule_rhs [t] all_rules) <= max_rules)%nat).
Context (Hdegree : (max_edges + max_edges <= max_rules')%nat).
Context (create_unary : span_t -> UF).
Context (Hcreate : forall s σ, holds 0 σ σ [] (create_unary s)) (Hcreate' : forall s σ, holds' 0 σ σ [] (create_unary s)).
Context (p : P) (f0 : predicate_edge_filter (score := score) (P := P)) (M : nat).

Abbreviation improves := (improves max_equivalents).
Abbreviation equiv_ok := (equiv_ok max_equivalents).
Abbreviation chart_typed := (chart_typed max_equivalents).
Abbreviation span_changes := (span_changes max_equivalents).
Abbreviation kept := (kept max_equivalents).
Abbreviation roomy := (roomy (score := score) M).
Abbreviation heuristic := (rule_heuristic pow_tm pow_info info_heuristic).
Abbreviation exhaustive := (SpanFilter.exhaustive_filter hash_token hash_span max_equivalents (R := R) (P := P) max_infos).
#[local] Existing Instance SpanFilter.exhaustive_filter.
Abbreviation create := (fun _ : span_t => mk_exhaustive f0).
Abbreviation state := (bank_state (score := score) (info_type := info_type) (R := R) (F := span_filter)).
Abbreviation calls := (bank_calls hash_token hash_span max_equivalents grammar_rule gram_unary_rules gram_toplevel_unary_rules
  (SpanFilter0 := exhaustive) create create_unary (fun _ => f0) max_filtered max_infos max_edges max_collected).
Abbreviation run := (run_calls (FilterBank0 := calls)).
Abbreviation bank_finalize := (bank_finalize hash_token hash_span max_equivalents grammar_rule gram_unary_rules gram_toplevel_unary_rules
  (SpanFilter0 := exhaustive) create create_unary (fun _ => f0) max_filtered max_infos max_edges max_collected).
Abbreviation apply_toplevel_rules := (apply_toplevel_rules hash_token hash_span max_equivalents gram_toplevel_unary_rules
  (SpanFilter0 := exhaustive) create (fun _ => f0) max_filtered max_infos).

(** ** Between the spans

    The spans of [todo] have their cells and no filter yet; those of one word have the
    words only, and the others nothing. *)
Record parsing (todo : list span_t) σ b : Prop := {
  pz_typed : chart_typed σ (bank_chart b);
  pz_rhs : rhs_map_built rule_lhs rule_rhs_size rule_rhs heuristic all_rules (rhs_map b);
  pz_sig : sig_map_built rule_lhs rule_rhs_size rule_rhs all_rules (bank_sig_map b);
  pz_span s : s ∈ todo -> is_Some (span_container (bank_chart b) !! span_key s);
  pz_filter s : s ∈ todo -> span_filter_map b !! span_key s = None;
  pz_words s : s ∈ todo -> if span_length s =? 1 then uniform σ s (bank_chart b) true else span_members s (bank_chart b) = []
}.

(** What the spans of [done] change: their filters are freed, and every edge of the chart
    has an equivalent one that is not worse. *)
Record progress (done : list span_t) σ b σ' b' : Prop := {
  pr_store : improves σ σ';
  pr_dom : dom (span_container (bank_chart b')) = dom (span_container (bank_chart b));
  pr_freed s : s ∈ done -> span_filter_map b' !! span_key s = Some None;
  pr_others s : s ∉ done -> span_filter_map b' !! span_key s = span_filter_map b !! span_key s;
  pr_kept k e : kept σ (bank_chart b) k e -> kept σ' (bank_chart b') k e
}.

Lemma progress_refl σ b : progress [] σ b σ b.
Proof. split; [apply (improves_refl max_equivalents)|done|by intros s ?%elem_of_nil|done|done]. Qed.

Lemma progress_trans done1 done2 σ b σ1 b1 σ2 b2 : progress done1 σ b σ1 b1 -> progress done2 σ1 b1 σ2 b2 ->
  progress (done1 ++ done2) σ b σ2 b2.
Proof.
  intros [A1 A2 A3 A4 A5] [B1 B2 B3 B4 B5]. split.
  - by apply (improves_trans max_equivalents _ σ1).
  - by rewrite B2.
  - intros s Hs. destruct (decide (s ∈ done2)) as [Hd|Hd]; [by apply B3|]. rewrite B4 by done. apply A3.
    by apply elem_of_app in Hs as [?|?].
  - intros s Hs. rewrite not_elem_of_app in Hs. destruct Hs. by rewrite B4, A4.
  - intros k e ?. by apply B5, A5.
Qed.

Lemma kept_elsewhere k k0 σ ch σ' ch' e : span_changes k0 σ ch σ' ch' -> k <> k0 -> kept σ ch k e -> kept σ' ch' k e.
Proof.
  intros Hc Hk (l&j&(cs&Hcs&Hl)&Hj&Hok&He&Hs). destruct (im_at _ _ _ (sc_store _ _ _ _ _ _ Hc) l j Hj Hok) as (j'&Hj'&Hok'&He'&Hs').
  exists l, j'. split; [exists cs; by rewrite (sc_other _ _ _ _ _ _ Hc) by done|]. split; [done|]. split; [done|].
  split; [|exact (sw_negtrans _ _ _ Hs' Hs)]. eauto using equal_to_trans, equal_to_sym.
Qed.

Lemma kept_members s σ ch σ' ch' k e : chart_typed σ ch -> span_changes (span_key s) σ ch σ' ch' ->
  (forall l i, in_chart ch (span_key s) l -> σ !! l = Some i -> kept σ' ch' (span_key s) (m_rep i)) -> kept σ ch k e -> kept σ' ch' k e.
Proof.
  intros Ht Hc Hk. destruct (decide (k = span_key s)) as [->|Hne]; [|by eapply kept_elsewhere].
  intros (l&j&Hl&Hj&Hok&He&Hs). apply (kept_le max_equivalents σ' ch' _ e (m_rep j)); [by apply (Hk l j)|by apply equal_to_sym|done].
Qed.

(** One span is finished, the others are as they were. *)
Lemma parsing_step s todo σ b σ' ch' : parsing (s :: todo) σ b -> s ∉ todo -> span_changes (span_key s) σ (bank_chart b) σ' ch' ->
  parsing todo σ' (set_filter s None (set_chart ch' b)).
Proof.
  intros [Z1 Z2 Z3 Z4 Z5 Z6] Hs [C1 C2 C3 C4 C5].
  assert (Hne : forall t, t ∈ todo -> span_key t <> span_key s) by (intros t Ht ->%span_key_inj; done).
  split; cbn [bank_chart rhs_map bank_sig_map span_filter_map set_chart set_filter]; [done|done|done|..].
  - intros t Ht. rewrite C5 by by apply Hne. apply Z4. by right.
  - intros t Ht. rewrite lookup_insert_ne; [apply Z5; by right|]. intros E. by apply (Hne t Ht).
  - intros t Ht. specialize (Z6 t ltac:(by right)). unfold uniform, span_members, chart_cells in *. rewrite C5 by by apply Hne.
    destruct (span_length t =? 1); [|done]. intros l Hl. rewrite <- (Z6 l Hl).
    change (l ∈ span_members t (bank_chart b)) in Hl. rewrite <- in_chart_members in Hl.
    destruct (member_typed max_equivalents σ _ _ l Z1 Hl) as (i&Hi&Hok&_). f_equal. by apply (root_improves max_equivalents σ σ' l i).
Qed.

Lemma progress_step s σ b σ' ch' : chart_typed σ (bank_chart b) -> span_changes (span_key s) σ (bank_chart b) σ' ch' ->
  (forall l i, in_chart (bank_chart b) (span_key s) l -> σ !! l = Some i -> kept σ' ch' (span_key s) (m_rep i)) ->
  progress [s] σ b σ' (set_filter s None (set_chart ch' b)).
Proof.
  intros Ht Hc Hk. split; cbn [bank_chart span_filter_map set_chart set_filter]; [apply Hc|apply Hc| | |].
  - intros t ->%list_elem_of_singleton. by rewrite lookup_insert_eq.
  - intros t Hts. rewrite lookup_insert_ne; [done|]. intros E%span_key_inj. subst t. apply Hts. left.
  - intros k e. by apply (kept_members s).
Qed.

(** ** The splits of one span *)

(** The bank's rules do not depend on the sentence. *)
Lemma apply_to_reps_total t rs c s2 b : forall σ ef pf,
  apply_to_reps (SpanFilter0 := exhaustive) rs c s2 (set_total t b) σ ef pf = apply_to_reps (SpanFilter0 := exhaustive) rs c s2 b σ ef pf.
Proof.
  induction rs as [|r rs IH]; intros σ ef pf; [done|]. cbn [apply_to_reps bank_chart rhs_map set_total].
  destruct (rule_rhs r 1) as [rhs2|]; [|done]. cbn [mbind option_bind].
  destruct (chart_edges σ rhs2 s2 (bank_chart b)) as [[|l er2]|]; [apply IH| |done]. cbn [mbind option_bind].
  destruct (rules rule_rhs_size rule_rhs _ _) as [rr|]; [|done]. destruct pf as [f|]; [|done]. cbn [mbind option_bind].
  destruct (sf_apply_rules σ ef rr _ _ f) as [[[[σ1 ef1] f1]|]|]; [apply IH|done|done].
Qed.

Lemma apply_to_cells_total t cs s2 b : forall σ ef pf,
  apply_to_cells (SpanFilter0 := exhaustive) cs s2 (set_total t b) σ ef pf = apply_to_cells (SpanFilter0 := exhaustive) cs s2 b σ ef pf.
Proof.
  induction cs as [|c cs IH]; intros σ ef pf; [done|]. cbn [apply_to_cells bank_sig_map set_total].
  destruct (cell_root σ c) as [t1|]; [|done]. cbn [mbind option_bind].
  destruct (reps _ _ _ _) as [rs|]; [|done]. cbn [mbind option_bind]. rewrite apply_to_reps_total.
  destruct (apply_to_reps rs c s2 b σ ef pf) as [[[[σ1 ef1] f1]|]|]; [apply IH|done|done].
Qed.

Lemma bank_apply_rules_total t s right σ ef b : bank_apply_rules (SpanFilter0 := exhaustive) create s right σ ef (set_total t b) =
  '(σ, ef, b) ⇐ bank_apply_rules (SpanFilter0 := exhaustive) create s right σ ef b; Some (Ok (σ, ef, set_total t b)).
Proof.
  unfold bank_apply_rules, bank_get_create. cbn [span_filter_map set_total].
  set (target := combine _ _). destruct (span_filter_map b !! span_key target) as [pf|].
  - rewrite apply_to_cells_total. by destruct (apply_to_cells _ _ b _ _ _) as [[[[? ?] ?]|]|].
  - change (set_filter target ?pf (set_total t b)) with (set_total t (set_filter target pf b)). rewrite apply_to_cells_total.
    by destruct (apply_to_cells _ _ _ _ _ _) as [[[[? ?] ?]|]|].
Qed.

Lemma apply_splits_total t right firsts : forall σ ef b, apply_splits (SpanFilter0 := exhaustive) create firsts right σ ef (set_total t b) =
  '(σ, ef, b) ⇐ apply_splits (SpanFilter0 := exhaustive) create firsts right σ ef b; Some (Ok (σ, ef, set_total t b)).
Proof.
  induction firsts as [|s firsts IH]; intros σ ef b; [done|]. cbn [apply_splits]. rewrite bank_apply_rules_total.
  destruct (bank_apply_rules create s right σ ef b) as [[[[σ1 ef1] b1]|]|]; cbn [rbind mbind option_bind]; [apply IH|done|done].
Qed.

(** The edges that a span of at most [n] words can get from its splits. *)
Definition split_bound (n : nat) : nat := n * (length all_rules * (M * M)) * max_infos.

Lemma length_splits s n : span_ok s -> span_length s <= Z.of_nat n -> (length (fst <$> all_splits s) <= n)%nat.
Proof.
  intros Hok Hl. rewrite length_ok in Hl by done. pose proof Hok as (?&?&?). unfold all_splits. rewrite !length_fmap, length_seqZ. lia.
Qed.

Lemma span_ctor_same s : span_ok s -> span_ctor (span_left s) (span_right s) = s.
Proof. destruct s as [sl sr]. intros (?&?&?). cbn [span_left span_right] in *. apply span_ctor_small; lia. Qed.

Lemma all_splits_word s : span_ok s -> span_length s = 1 -> all_splits s = [].
Proof. intros Hok Hl. rewrite length_ok in Hl by done. unfold all_splits. by rewrite seqZ_nil by lia. Qed.

Lemma splits_ok s todo n σ ef b : parsing (s :: todo) σ b -> roomy (bank_chart b) -> span_ok s -> span_length s <= Z.of_nat n ->
  insertion_bound (split_bound n) <= pq_limit -> new_filter p = Some (Ok f0) ->
  exists σ1 ef1 f1 b1, apply_splits (SpanFilter0 := exhaustive) create (fst <$> all_splits s) (span_right s) σ ef b = Some (Ok (σ1, ef1, b1)) /\
    filter_at create s (mk_exhaustive f1) b1 /\ bank_chart b1 = bank_chart b /\ (forall pf, set_filter s pf b1 = set_filter s pf b) /\
    serving hash_token hash_span max_equivalents (if span_length s =? 1 then 0 else split_bound n) s σ σ1 f1.
Proof.
  intros [Z1 Z2 Z3 Z4 Z5 Z6] HM Hok Hn Hlim Hf0.
  pose proof (serving_create hash_token hash_span max_equivalents s σ p f0 Hf0) as Hnew. clear Hf0.
  set (firsts := fst <$> all_splits s).
  assert (Hleft : forall x, x ∈ firsts -> span_left x = u16 (span_left s)).
  { intros x (q&->&(m&->&_)%list_elem_of_fmap)%list_elem_of_fmap. cbn. destruct Hok as (?&?&?). by rewrite u16_small by lia. }
  pose proof (span_ctor_same s Hok) as Hs.
  assert (Hcomb : forall s1, s1 ∈ firsts -> combine s1 (span_ctor (span_right s1) (span_right s)) = s).
  { intros x Hx. by rewrite (target_of_split _ _ _ (Hleft x Hx)). }
  destruct (split_applications_ok max_equivalents all_rules M σ (bank_chart b) s firsts Z1 HM Hlhs Hcomb) as [Hlen Hfit].
  set (T := split_applications _ _ _ _ _) in *.
  assert (HT : (length T * max_infos <= if (span_length s =? 1)%Z then 0 else split_bound n)%nat).
  { destruct (span_length s =? 1) eqn:E.
    - unfold firsts in Hlen. rewrite all_splits_word in Hlen by (done || lia). cbn in Hlen. assert (length T = 0)%nat as -> by lia. done.
    - unfold split_bound. apply Nat.mul_le_mono_r. etrans; [exact Hlen|]. apply Nat.mul_le_mono_r. by apply length_splits. }
  assert (Hacc : insertion_bound (length T * max_infos) <= pq_limit).
  { etrans; [|exact Hlim]. apply insertion_bound_le. etrans; [exact HT|]. destruct (span_length s =? 1); lia. }
  pose proof (exhaustive_serves hash_token hash_span max_equivalents (P := P) max_infos Hmax Hbinary s σ) as Hruns.
  destruct (apply_splits_ok max_equivalents pow_tm pow_info info_heuristic (SpanFilter0 := exhaustive) create all_rules Hrules σ
    (servable max_equivalents max_infos s σ) (serves hash_token hash_span max_equivalents max_infos s σ) (FilterRuns0 := Hruns)
    (span_left s) (span_right s) firsts [] σ ef (mk_exhaustive f0) b) as (m&σ1&ef1&[f1]&b1&Hrun&Hf1&Hb1&Hsv&HTm&Hset).
  - by split.
  - exact Hleft.
  - right. rewrite Hs. split; [apply Z5; left|done].
  - exact Hnew.
  - exact (accepts_fitting max_equivalents max_infos s σ T Hfit Hacc).
  - rewrite Hs in Hf1, Hset. exists σ1, ef1, f1, b1. split; [exact Hrun|]. split; [exact Hf1|]. split; [exact Hb1|]. split; [exact Hset|].
    unfold serves in Hsv. cbn [ex_filter] in Hsv. rewrite app_nil_l, (Permutation_length HTm) in Hsv.
    by apply (serving_le hash_token hash_span max_equivalents (length T * max_infos)).
Qed.

(** ** The calls of one span *)

Lemma set_chart_filter s pf ch b b1 : (forall pf, set_filter s pf b1 = set_filter s pf b) ->
  set_filter s pf (set_chart ch b1) = set_filter s pf (set_chart ch b).
Proof. intros Hset. change (set_chart ch (set_filter s pf b1) = set_chart ch (set_filter s pf b)). by rewrite Hset. Qed.

(** What is at a span when it is finished. *)
Lemma span_room_ready s todo n σ σ1 b (f1 : predicate_edge_filter (score := score) (P := P)) : parsing (s :: todo) σ b -> roomy (bank_chart b) ->
  serving hash_token hash_span max_equivalents (if span_length s =? 1 then 0 else split_bound n) s σ σ1 f1 ->
  span_room max_infos max_word_rules σ1 s (bank_chart b) (priority_heap (ptable (pqueue f1))) (split_bound n + M * (max_word_rules * max_infos)).
Proof.
  intros [Z1 _ _ _ _ Z6] HM Hf1. specialize (Z6 s ltac:(left)). destruct (holding_items hash_token hash_span max_equivalents _ _ _ _ (serving_holding hash_token hash_span max_equivalents _ _ _ _ _ Hf1)) as (_&_&Hlex&Hlen).
  pose proof (fb_sub _ _ _ _ _ _ _ (sv_beside _ _ _ _ _ _ _ _ Hf1)) as Hsub.
  destruct (span_length s =? 1); [right|left].
  - split; [|split].
    + intros l Hl. rewrite <- (Z6 l Hl). rewrite <- in_chart_members in Hl. destruct (member_typed max_equivalents σ _ _ l Z1 Hl) as (i&Hi&Hok&_).
      f_equal. apply (root_improves max_equivalents σ σ1 l i); [by apply (improves_subseteq max_equivalents)|done|done].
    + apply nil_length_inv. lia.
    + pose proof (Nat.mul_le_mono_r _ _ (max_word_rules * max_infos) (HM s)). lia.
  - split; [intros l Hl; rewrite Z6 in Hl; by apply elem_of_nil in Hl|]. split; [done|]. rewrite Z6. cbn [length]. lia.
Qed.

Lemma span_step s todo n σ ef b : parsing (s :: todo) σ b -> s ∉ todo -> roomy (bank_chart b) -> span_ok s -> span_length s <= Z.of_nat n ->
  insertion_bound (split_bound n) <= pq_limit -> (split_bound n <= max_filtered)%nat ->
  room max_edges max_collected max_calls max_calls' (split_bound n + M * (max_word_rules * max_infos)) -> new_filter p = Some (Ok f0) ->
  exists σ' ef' b', (forall t, run (span_calls s) (Some (Ok (σ, ef, set_total t b))) =
      if span_eqb t s then apply_toplevel_rules σ' ef' (set_total t b') else Some (Ok (σ', ef', set_total t b'))) /\
    parsing todo σ' b' /\ progress [s] σ b σ' b'.
Proof.
  intros Hp Hs HM Hok Hn Hlim Hfuel Hroom Hf0.
  destruct (splits_ok s todo n σ ef b Hp HM Hok Hn Hlim Hf0) as (σ1&ef1&f1&b1&Hrun&Hat&Hch&Hset&Hf1). clear Hf0.
  pose proof (fb_sub _ _ _ _ _ _ _ (sv_beside _ _ _ _ _ _ _ _ Hf1)) as Hsub. pose proof Hp as [Z1 Z2 _ Z4 _ _].
  pose proof (typed_subseteq max_equivalents σ σ1 _ Hsub Z1) as Ht1. pose proof (f_equal rhs_map (Hset None)) as Hmap. cbn in Hmap.
  destruct (finalize_span_ok hash_token hash_span max_equivalents (SpanFilter0 := exhaustive) (P := P) grammar_rule gram_unary_rules gram_toplevel_unary_rules
    all_rules Hrules heuristic Hlhs Hnumber max_filtered max_infos max_edges max_collected max_word_rules Hgram max_rules max_calls holds
    max_rules' max_calls' holds' Hmax Hunary Hdegree create create_unary (fun _ => f0) Hcreate Hcreate'
    (queue_ready hash_token hash_span max_equivalents) (FilterDrains0 := exhaustive_drains hash_token hash_span max_equivalents max_infos)
    s σ1 ef1 b1 (mk_exhaustive f1) σ1 ef1 (mk_exhaustive (filter_finalize f1)) (priority_heap (ptable (pqueue f1)))
    (split_bound n + M * (max_word_rules * max_infos))) as (σ2&ef2&ch2&Hfin&Hc&Hk).
  - exact Hat.
  - exact (fb_open _ _ _ _ _ _ _ (sv_beside _ _ _ _ _ _ _ _ Hf1)).
  - reflexivity.
  - rewrite Hch. apply (serving_handed_out hash_token hash_span max_equivalents _ s σ σ1 f1 _ _ Hf1 Z1). destruct (span_length s =? 1); lia.
  - by rewrite Hch.
  - rewrite Hch. apply Z4. left.
  - rewrite Hch. by eapply span_room_ready.
  - exact Hroom.
  - by rewrite Hmap.
  - rewrite Hch in Hc, Hk. exists σ2, ef2, (set_filter s None (set_chart ch2 b)).
    assert (Hc0 : span_changes (span_key s) σ (bank_chart b) σ2 ch2).
    { apply (span_changes_trans max_equivalents _ σ _ σ1 (bank_chart b)); [|done].
      apply (span_changes_store max_equivalents); [done|by apply (improves_subseteq max_equivalents)]. }
    split; [|split; [by apply (parsing_step s todo σ b)|]].
    + intros t. rewrite run_span_calls, apply_splits_total, Hrun. cbn [rbind mbind option_bind fb_finalize bank_calls]. rewrite Hfin.
      cbn zeta. by rewrite <- (set_chart_filter s None ch2 b b1 Hset).
    + apply (progress_step s); [done|done|]. intros l i Hl Hi. apply (Hk l i); [by right|by eapply lookup_weaken].
Qed.

(** ** The whole loop *)

(** The span of no sentence. *)
Definition apart : span_t := mk_span 0 0.

(** The bounds for sentences of [n] words. *)
Record limits (n : nat) : Prop := {
  li_filter : insertion_bound (split_bound n) <= pq_limit;
  li_fuel : (split_bound n <= max_filtered)%nat;
  li_room : room max_edges max_collected max_calls max_calls' (split_bound n + M * (max_word_rules * max_infos))
}.

(** After no prefix of the spans, finished without the toplevel rules, a span has more
    than [M] equivalences. *)
Definition never_overfull (spans : list span_t) σ ef b : Prop := forall j σ' ef' b',
  run (take j spans ≫= span_calls) (Some (Ok (σ, ef, set_total apart b))) = Some (Ok (σ', ef', b')) -> roomy (bank_chart b').

Lemma spans_run todo : forall rest n σ ef b, parsing (todo ++ rest) σ b -> NoDup (todo ++ rest) ->
  (forall s, s ∈ todo -> span_ok s /\ 1 <= span_length s <= Z.of_nat n) -> limits n -> never_overfull todo σ ef b -> new_filter p = Some (Ok f0) ->
  exists σ' ef' b', (forall t, t ∉ todo -> run (todo ≫= span_calls) (Some (Ok (σ, ef, set_total t b))) = Some (Ok (σ', ef', set_total t b'))) /\
    parsing rest σ' b' /\ progress todo σ b σ' b'.
Proof.
  induction todo as [|s todo IH]; intros rest n σ ef b Hp Hnd Hspans Hl HM Hf0.
  - exists σ, ef, b. split; [reflexivity|]. split; [exact Hp|apply progress_refl].
  - cbn [app] in Hp, Hnd. apply NoDup_cons in Hnd as [Hs Hnd]. destruct (Hspans s ltac:(left)) as [Hok [H1 Hn]]. pose proof Hl as [Hlim Hfuel Hroom].
    destruct (span_step s (todo ++ rest) n σ ef b Hp Hs) as (σ1&ef1&b1&Hrun&Hp1&Hpr1); [|exact Hok|exact Hn|exact Hlim|exact Hfuel|exact Hroom|exact Hf0|].
    { exact (HM 0%nat σ ef (set_total apart b) eq_refl). }
    assert (Hne : forall t, t <> s -> run (span_calls s) (Some (Ok (σ, ef, set_total t b))) = Some (Ok (σ1, ef1, set_total t b1))).
    { intros t Hts. rewrite Hrun. by rewrite (proj2 (span_eqb_false t s) Hts). }
    assert (Hs0 : apart <> s).
    { intros <-. by apply H1. }
    destruct (IH rest n σ1 ef1 b1 Hp1 Hnd) as (σ2&ef2&b2&Hrun2&Hp2&Hpr2); [intros t Ht; apply Hspans; by right|exact Hl| |exact Hf0|].
    { intros j σ' ef' b' Hj. apply (HM (S j) σ' ef' b'). cbn [take mbind list_bind]. rewrite run_calls_app, (Hne apart Hs0). exact Hj. }
    exists σ2, ef2, b2. split; [|split; [exact Hp2|exact (progress_trans [s] todo _ _ _ _ _ _ Hpr1 Hpr2)]].
    intros t Ht. rewrite not_elem_of_cons in Ht. destruct Ht. cbn [mbind list_bind]. rewrite run_calls_app, Hne by assumption. by apply Hrun2.
Qed.

(** The toplevel rules only add edges to the last span. *)
Lemma progress_toplevel done s σ b σ1 b1 σ' ch' : progress done σ b σ1 b1 -> chart_typed σ1 (bank_chart b1) ->
  span_changes (span_key s) σ1 (bank_chart b1) σ' ch' -> improves σ1 σ' ->
  (forall l, in_chart (bank_chart b1) (span_key s) l -> in_chart ch' (span_key s) l) -> progress done σ b σ' (set_chart ch' b1).
Proof.
  intros [P1 P2 P3 P4 P5] Ht Hc Hi Hin. split; cbn [bank_chart span_filter_map set_chart]; [|..]; try done.
  - by apply (improves_trans max_equivalents _ σ1).
  - by rewrite (sc_dom _ _ _ _ _ _ Hc).
  - intros k e Hk%P5. apply (kept_members s σ1 (bank_chart b1)); [done|done| |done]. intros l i Hl Hli.
    apply (kept_grows max_equivalents _ σ1 (bank_chart b1)); [|by apply (member_kept max_equivalents σ1 _ _ l i)]. destruct Hc. by split.
Qed.

Lemma finalize_again s σ ef b : span_filter_map b !! span_key s = Some None -> bank_finalize s σ ef b = Some (Ok (σ, ef, b)).
Proof. intros H. unfold BankFinalize.bank_finalize, bank_get_create. by rewrite H. Qed.

Lemma toplevel_room_total W b b' : total_span b' = total_span b -> toplevel_room max_infos all_rules W M b max_filtered ->
  toplevel_room max_infos all_rules W M b' max_filtered.
Proof. intros E []. split; by rewrite ?E. Qed.

Lemma never_overfull_prefix before after σ ef b : never_overfull (before ++ after) σ ef b -> never_overfull before σ ef b.
Proof.
  intros HM j σ' ef' b' Hj. apply (HM (j `min` length before)%nat σ' ef' b').
  by rewrite take_app_le, <- take_take, (take_ge before) by lia.
Qed.

(** C3: Parsing a sentence ends, and without failure: from a chart with the words of the
    sentence, in which every span has its place and no filter was made, as long as no
    span gets more than [M] equivalences and the filters have room for what [M] of them
    make.  The chart that is left is well formed, for every edge that was in it there is
    an equivalent one that is not worse, and all the filters were freed. *)
Theorem parse_succeeds σ ef b : let target := total_span b in let n := Z.to_nat (span_length target) in
  span_ok target -> 1 <= span_length target < 65535 -> parsing (spans_of target) σ b -> never_overfull (spans_of target) σ ef b ->
  limits n -> toplevel_room max_infos all_rules max_word_rules M b max_filtered -> new_filter p = Some (Ok f0) ->
  exists σ' ef' b', parse_cky (FilterBank0 := calls) full_cky_generator target (Some (Ok (σ, ef, b))) = Some (Some (Ok (σ', ef', b'))) /\
    chart_typed σ' (bank_chart b') /\ progress (spans_of target) σ b σ' b'.
Proof.
  intros target n Hok [H1 H2] Hp HM Hl Htop' Hf0. destruct (spans_last target Hok H1) as (before&Hsp).
  pose proof (spans_NoDup target Hok) as Hnd. rewrite Hsp in Hnd, Hp.
  assert (Hspans : forall s, s ∈ before ++ [target] -> span_ok s /\ 1 <= span_length s <= Z.of_nat n).
  { intros s Hs. rewrite <- Hsp in Hs. destruct (spans_ok target s Hok Hs) as (?&?&?). unfold n. split; [done|lia]. }
  assert (Hnot : target ∉ before).
  { intros Hin. apply NoDup_app in Hnd as (_&Hd&_). apply (Hd target Hin). left. }
  pose proof HM as HM1. rewrite Hsp in HM1. apply never_overfull_prefix in HM1.
  destruct (spans_run before [target] n σ ef b Hp Hnd) as (σ1&ef1&b1&Hrun&Hp1&Hpr1);
    [intros s Hs; apply Hspans, elem_of_app; by left|exact Hl|exact HM1|exact Hf0|].
  destruct (Hspans target) as [_ [_ Hn]]; [apply elem_of_app; right; left|]. pose proof Hl as [Hlim Hfuel Hroom].
  assert (Hapart : apart ∉ before ++ [target]) by (intros Ha; destruct (Hspans apart Ha) as (_&Hlen&_); by apply Hlen).
  rewrite not_elem_of_app, list_elem_of_singleton in Hapart. destruct Hapart as [Ha1 Ha2].
  assert (HM2 : roomy (bank_chart b1)).
  { apply (HM (length before) σ1 ef1 (set_total apart b1)). rewrite Hsp, take_app_length. by apply Hrun. }
  destruct (span_step target [] n σ1 ef1 b1 Hp1) as (σ2&ef2&b2&Hstep&Hp2&Hpr2);
    [by apply not_elem_of_nil|exact HM2|exact Hok|exact Hn|exact Hlim|exact Hfuel|exact Hroom|exact Hf0|].
  assert (HM3 : roomy (bank_chart b2)).
  { apply (HM (length (before ++ [target])) σ2 ef2 (set_total apart b2)). rewrite Hsp, firstn_all, bind_app, run_calls_app, (Hrun apart Ha1).
    cbn [mbind list_bind]. rewrite app_nil_r, Hstep. by rewrite (proj2 (span_eqb_false apart target) Ha2). }
  pose proof Hp2 as [T1 T2 T3 _ _ _].
  pose proof (progress_trans _ _ _ _ _ _ _ _ Hpr1 Hpr2) as Hpr. rewrite <- Hsp in Hpr.
  destruct (apply_toplevel_rules_ok hash_token hash_span max_equivalents max_infos Hmax Hbinary all_rules Hrules heuristic Hlhs
    gram_toplevel_unary_rules max_word_rules Htop M (set_total target b2) HM3 T2 T3 p f0 Hf0 max_filtered σ2 ef2 T1)
    as (σ3&ef3&ch3&Htr&Hi3&Hc3&Hin3); [by apply (toplevel_room_total _ b)| |].
  { cbn [bank_chart set_total total_span]. apply elem_of_dom. rewrite (pr_dom _ _ _ _ _ Hpr2), elem_of_dom. apply Hp1. left. }
  exists σ3, ef3, (set_chart ch3 (set_total target b2)). split; [|split].
  - rewrite parse_cky_calls by done. rewrite run_calls_app, cky_calls_spans, Hsp, bind_app, run_calls_app.
    replace b with (set_total target b) at 1 by apply set_total_same. rewrite (Hrun target Hnot). cbn [mbind list_bind]. rewrite app_nil_r, Hstep, span_eqb_refl, Htr.
    cbn [run_calls foldl run_call fb_finalize bank_calls rbind mbind option_bind]. do 2 f_equal. apply finalize_again.
    cbn [span_filter_map set_chart set_total]. apply (pr_freed _ _ _ _ _ Hpr2). left.
  - apply Hc3.
  - eapply (progress_toplevel (spans_of target) target σ b σ2 (set_total target b2)); [by destruct Hpr; split|exact T1|exact Hc3|exact Hi3|exact Hin3].
Qed.
End parse.

(** * A sentence

    Word 1 is a tag 1 and word 2 a tag 2; tags 1 and 2 are a tag 3 and, by another rule,
    a sentence; a tag 3 is a tag 4; a tag 4 is a sentence. *)

#[local] Existing Instances GraphSearch.search_graph GraphSearch.search_graph_laws.
#[local] Existing Instances CubeHeap.sample_combine CubeHeap.cost_compare_sw.

Definition sample_word (n : Z) : indexed_token := mk_indexed n.

Definition sentence_rhs (r : Z) : list indexed_token :=
  if r =? 1 then [sample_word 1] else if r =? 2 then [sample_word 2] else if r =? 3 then [sample_tag 1; sample_tag 2]
  else if r =? 4 then [sample_tag 1; sample_tag 2] else if r =? 5 then [sample_tag 3] else [sample_tag 4].
Definition sentence_lhs (r : Z) : indexed_token :=
  if r =? 1 then sample_tag 1 else if r =? 2 then sample_tag 2 else if r =? 3 then sample_tag 3
  else if r =? 5 then sample_tag 4 else indexed_token_top.

#[local] Instance sentence_grammar :
  GrammarOps Z (option Z) (Edge.edge (option Z) Z) (equiv_store (option Z) Z) (list (Z * option Z * option Z)) := {|
  rule_rhs r i := sentence_rhs r !! i;
  rule_rhs_size r := Z.of_nat (length (sentence_rhs r));
  rule_lhs := sentence_lhs;
  rule_number r := r;
  rule_score r := Some (- r);
  rule_score_estimate _ := Some 0;
  create_info _ r _ _ := [(0, Some (- r), Some 0)]
|}.

Definition sentence_rules : list Z := [3; 4; 5].
Definition word_rules (t : indexed_token) : list Z :=
  if bool_decide (t = sample_word 1) then [1] else if bool_decide (t = sample_word 2) then [2] else [].
Definition top_unary_rules (t : indexed_token) : list Z := if bool_decide (t = sample_tag 4) then [6] else [].

Definition word_edge (n l : Z) : Edge.edge (option Z) Z :=
  mk_edge (sample_word n) 0 None None (Some 0) (Some 0) (mk_span l (l + 1)) 0.
Definition sentence_store : equiv_store (option Z) Z :=
  <[1%positive := mk_equiv [] (word_edge 1 0)]> {[2%positive := mk_equiv [] (word_edge 2 1)]}.
Definition sentence_chart : basic_chart (option Z) :=
  mk_chart 2 (<[(0, 1) := [mk_cell [1%positive] (Some 0)]]> (<[(1, 2) := [mk_cell [2%positive] (Some 0)]]> {[(0, 2) := []]})).
Definition sentence_factory : edge_factory (option Z) := mk_factory None id (Some 0) 0.

Abbreviation sentence_filter := (exhaustive_filter typ_and_idx sample_hash_span 4 (R := Z) (P := histogram_predicate) 1).
Abbreviation sentence_unary := (exhaustive_unary_filter typ_and_idx sample_hash_span 4 (R := Z) (P := histogram_predicate) 1).
Definition sentence_bank : option (filter_bank (score := option Z) (R := Z) (F := exhaustive_span_filter (score := option Z) (P := histogram_predicate))) :=
  new_filter_bank id id (fun _ => Some 0) sentence_rules sentence_chart (mk_span 0 2).
Abbreviation sentence_calls f0 := (bank_calls typ_and_idx sample_hash_span 4 id word_rules top_unary_rules
  (SpanFilter0 := sentence_filter) (UnaryFilter0 := sentence_unary) (fun _ => mk_exhaustive f0) (fun _ => mk_stub f0 []) (fun _ => f0) 100 1 1 2).

Definition parse_sentence : option (list (indexed_token * option Z) * Z) :=
  match new_filter (score := option Z) (new_histogram 10), sentence_bank with
  | Some (Ok f0), Some b =>
      match parse_cky (FilterBank0 := sentence_calls f0) full_cky_generator (mk_span 0 2) (Some (Ok (sentence_store, sentence_factory, b))) with
      | Some (Some (Ok (σ, ef, b))) => Some ((fun l => (rt (representative_edge σ l), inside (representative_edge σ l))) <$>
          span_members (mk_span 0 2) (bank_chart b), num_edges ef)
      | _ => None
      end
  | _, _ => None
  end.

(** The sentence and the tags that are not below it, the two edges of a sentence being
    one equivalence; seven edges were made. *)
Example sentence_parsed : parse_sentence =
  Some ([(indexed_token_top, Some (-14)); (sample_tag 3, Some (-12)); (sample_tag 4, Some (-22))], 7).
Proof. vm_compute. reflexivity. Qed.

Lemma sentence_rule_ok : Forall (rule_ok (R := Z) rule_rhs_size rule_rhs) sentence_rules.
Proof. repeat constructor; try done; intros [|[|x]] Hx; unfold rule_key in *; cbn in *; (by eexists) || lia. Qed.

Lemma sentence_lhs_ok r : is_null (sentence_lhs r) = false /\ is_lexical (sentence_lhs r) = false.
Proof. unfold sentence_lhs. by repeat case_match. Qed.

#[local] Instance sentence_infos : UnaryInfos (score := option Z) (info_type := Z) (R := Z) 1.
Proof.
  split.
  - intros σ r s e. eexists. split; [apply yields_range|done].
  - intros r. apply sentence_lhs_ok.
Qed.

#[local] Instance sentence_laws : UnaryFilterLaws (UnaryFilter0 := sentence_unary) 4 1 364 1
  (stub_holds typ_and_idx sample_hash_span 4 (P := histogram_predicate) 1 1).
Proof. apply (exhaustive_unary_laws typ_and_idx sample_hash_span 4 1 1 364); vm_compute; discriminate. Qed.

#[local] Instance sentence_laws' : UnaryFilterLaws (UnaryFilter0 := sentence_unary) 4 2 572 2
  (stub_holds typ_and_idx sample_hash_span 4 (P := histogram_predicate) 1 2).
Proof. apply (exhaustive_unary_laws typ_and_idx sample_hash_span 4 1 2 572); vm_compute; discriminate. Qed.

Lemma word_rules_ok t : (length (word_rules t) <= 1)%nat /\ forall r, r ∈ word_rules t ->
  rewrites (score := option Z) (info_type := Z) (R := Z) (G := list (Z * option Z * option Z)) t r.
Proof.
  unfold word_rules. split; [by repeat case_bool_decide; cbn; lia|].
  repeat case_bool_decide; subst; intros r Hr; apply list_elem_of_singleton in Hr || apply elem_of_nil in Hr; by subst.
Qed.

Lemma top_unary_rules_ok t : (length (top_unary_rules t) <= 1)%nat /\ forall r, r ∈ top_unary_rules t ->
  rewrites (score := option Z) (info_type := Z) (R := Z) (G := list (Z * option Z * option Z)) t r.
Proof.
  unfold top_unary_rules. split; [by case_bool_decide; cbn; lia|].
  case_bool_decide; subst; intros r Hr; apply list_elem_of_singleton in Hr || apply elem_of_nil in Hr; by subst.
Qed.

Lemma sentence_unary_rules (t : indexed_token) : (length (with_signature (R := Z) rule_rhs_size rule_rhs [t] sentence_rules) <= 1)%nat.
Proof.
  destruct (decide (t = sample_tag 3)) as [->|Hne]; [vm_compute; lia|].
  destruct (with_signature _ _ _ _) as [|r l] eqn:E; [cbn; lia|]. exfalso.
  assert (Hr : r ∈ with_signature (R := Z) rule_rhs_size rule_rhs [t] sentence_rules) by (rewrite E; left).
  apply list_elem_of_filter in Hr as [Hs Hin]. unfold sentence_rules in Hin. rewrite !elem_of_cons, elem_of_nil in Hin.
  destruct Hin as [->|[->|[->|[]]]]; vm_compute in Hs; [discriminate|discriminate|]. injection Hs as Hs. by apply Hne.
Qed.

Lemma sentence_word l : l ∈ [1%positive; 2%positive] -> exists i, sentence_store !! l = Some i /\ equiv_ok 4 sentence_store i /\
  span_key (spn (m_rep i)) = (if bool_decide (l = 1%positive) then (0, 1) else (1, 2)) /\
  rt (m_rep i) = sample_word (if bool_decide (l = 1%positive) then 1 else 2).
Proof.
  rewrite !elem_of_cons, elem_of_nil. intros [->|[->|[]]]; eexists; (split; [reflexivity|]);
    (split; [by repeat split; (constructor || eexists || done)|done]).
Qed.

Lemma sentence_typed : chart_typed 4 sentence_store sentence_chart.
Proof.
  assert (Hone : forall l k t, l ∈ [1%positive; 2%positive] -> k = (if bool_decide (l = 1%positive) then (0, 1) else (1, 2)) ->
    t = sample_word (if bool_decide (l = 1%positive) then 1 else 2) -> cells_ok 4 sentence_store k [mk_cell [l] (Some 0)]).
  { intros l k t Hl -> ->. destruct (sentence_word l Hl) as (i&Hi&Hok&Hk&Ht).
    exists [sample_word (if bool_decide (l = 1%positive) then 1 else 2)]. split; [|apply NoDup_singleton]. constructor; [|constructor].
    split; [done|]. split; [apply NoDup_singleton|]. split; [intros x ->%list_elem_of_singleton; by exists i|].
    by intros x y ? ? ->%list_elem_of_singleton ->%list_elem_of_singleton. }
  intros k cs. unfold sentence_chart. cbn [span_container]. rewrite !lookup_insert_Some, lookup_singleton_Some.
  intros [[<- <-]|[_ [[<- <-]|[_ [<- <-]]]]]; [by eapply (Hone 1%positive); [left|..]|by eapply (Hone 2%positive); [right; left|..]|].
  exists []. split; constructor.
Qed.

(** No span has more than two equivalences before the toplevel rules. *)
Definition chart_within (M : nat) (ch : basic_chart (option Z)) : bool :=
  forallb (fun p => (length (p.2 ≫= edge_container) <=? M)%nat) (map_to_list (span_container ch)).

Lemma chart_within_roomy M ch : chart_within M ch = true -> roomy M ch.
Proof.
  intros Hch s. unfold span_members, chart_cells. destruct (span_container ch !! span_key s) as [cs|] eqn:E; [|cbn; lia].
  unfold chart_within in Hch. rewrite forallb_forall in Hch. apply elem_of_map_to_list, list_elem_of_In, Hch in E. by apply Nat.leb_le in E.
Qed.

Definition sentence_within (f0 : predicate_edge_filter (P := histogram_predicate)) b (j : nat) : bool :=
  match run_calls (FilterBank0 := sentence_calls f0) (take j (spans_of (mk_span 0 2)) ≫= span_calls)
          (Some (Ok (sentence_store, sentence_factory, set_total apart b))) with
  | Some (Ok (_, _, b)) => chart_within 2 (bank_chart b)
  | _ => true
  end.

Lemma sentence_within_ok : match new_filter (score := option Z) (new_histogram 10), sentence_bank with
  | Some (Ok f0), Some b => forallb (sentence_within f0 b) [0; 1; 2; 3]%nat
  | _, _ => false
  end = true.
Proof. vm_compute. reflexivity. Qed.

Lemma sentence_never_overfull (f0 : predicate_edge_filter (P := histogram_predicate)) b : new_filter (score := option Z) (new_histogram 10) = Some (Ok f0) -> sentence_bank = Some b ->
  never_overfull typ_and_idx sample_hash_span 4 (UnaryFilter0 := sentence_unary) id word_rules top_unary_rules 100 1 1 2 (fun _ => mk_stub f0 [])
    f0 2 (spans_of (mk_span 0 2)) sentence_store sentence_factory b.
Proof.
  intros Hf0 Hb. pose proof sentence_within_ok as Hall. rewrite Hf0, Hb in Hall. clear Hf0 Hb. rewrite forallb_forall in Hall.
  intros j σ' ef' b' Hrun.
  assert (Hj : exists i, i ∈ [0; 1; 2; 3]%nat /\ take j (spans_of (mk_span 0 2)) = take i (spans_of (mk_span 0 2))).
  { exists (j `min` 3)%nat. split; [|rewrite <- take_take; f_equal; reflexivity].
    destruct j as [|[|[|j]]]; [left|right; left|right; right; left|rewrite Nat.min_r by lia; right; right; right; left]. }
  destruct Hj as (i&Hi%list_elem_of_In&Hj). rewrite Hj in Hrun. specialize (Hall i Hi). unfold sentence_within in Hall.
  rewrite Hrun in Hall. by apply chart_within_roomy.
Qed.

Lemma sentence_parsing (b : filter_bank (score := option Z) (R := Z) (F := exhaustive_span_filter (score := option Z) (P := histogram_predicate))) : bank_ok 4 id id (fun _ => Some 0) sentence_rules sentence_store b -> span_filter_map b = ∅ ->
  bank_chart b = sentence_chart -> parsing 4 sentence_rules id id (fun _ => Some 0) (spans_of (mk_span 0 2)) sentence_store b.
Proof.
  intros [Hmap Hsig _] Hempty Hch. assert (Hs : spans_of (mk_span 0 2) = [mk_span 0 1; mk_span 1 2; mk_span 0 2]) by (vm_compute; reflexivity).
  rewrite Hs. split; [rewrite Hch; exact sentence_typed|exact Hmap|exact Hsig|..]; intros s Hin.
  - rewrite Hch. rewrite !elem_of_cons, elem_of_nil in Hin. destruct Hin as [->|[->|[->|[]]]]; by eexists.
  - rewrite Hempty. apply lookup_empty.
  - rewrite Hch. rewrite !elem_of_cons, elem_of_nil in Hin. destruct Hin as [->|[->|[->|[]]]]; [| |by vm_compute];
      intros l Hl; vm_compute in Hl; apply list_elem_of_singleton in Hl as ->; reflexivity.
Qed.

Lemma parse_succeeds_witness :
  exists f0 b σ ef b', new_filter (score := option Z) (new_histogram 10) = Some (Ok f0) /\ sentence_bank = Some b /\
    parse_cky (FilterBank0 := sentence_calls f0) full_cky_generator (total_span b) (Some (Ok (sentence_store, sentence_factory, b))) =
      Some (Some (Ok (σ, ef, b'))) /\
    chart_typed 4 σ (bank_chart b') /\ progress 4 (spans_of (total_span b)) sentence_store b σ b'.
Proof.
  destruct (new_filter_ok (score := option Z) (info_type := Z) typ_and_idx sample_hash_span 4 (new_histogram 10) sentence_store) as (f0&Hf0&_).
  destruct (new_filter_bank_ok (F := exhaustive_span_filter (score := option Z) (P := histogram_predicate)) 4 id id (fun _ => Some 0) sentence_rules
    sentence_rule_ok sentence_store sentence_chart (mk_span 0 2) sentence_typed) as (b&Hb&Hok&Hempty&Hch&Hts).
  destruct (parse_succeeds typ_and_idx sample_hash_span 4 (P := histogram_predicate) (UnaryFilter0 := sentence_unary)
    ltac:(vm_compute; discriminate) id word_rules top_unary_rules sentence_rules sentence_rule_ok
    (proj2 (Forall_forall _ _) (fun r _ => proj2 (sentence_lhs_ok r))) (fun r _ => eq_refl) id id (fun _ => Some 0) 100 1 1 2 1
    (fun σ r s e1 e2 => ex_intro _ _ (conj (yields_range _) (le_n 1))) word_rules_ok top_unary_rules_ok
    1 364 (stub_holds typ_and_idx sample_hash_span 4 (P := histogram_predicate) 1 1)
    2 572 (stub_holds typ_and_idx sample_hash_span 4 (P := histogram_predicate) 1 2) sentence_unary_rules (le_n 2)
    (fun _ => mk_stub f0 []) (fun _ σ => stub_holds_new _ _ _ _ _ _ _ σ Hf0) (fun _ σ => stub_holds_new _ _ _ _ _ _ _ σ Hf0)
    (new_histogram 10) f0 2 sentence_store sentence_factory b) as (σ&ef&b'&Hrun&Ht&Hpr); rewrite ?Hts.
  - repeat split; vm_compute; discriminate.
  - split; [vm_compute; discriminate|vm_compute; reflexivity].
  - exact (sentence_parsing b Hok Hempty Hch).
  - exact (sentence_never_overfull f0 b Hf0 Hb).
  - split; [vm_compute; discriminate|vm_compute; lia|].
    split; [..|vm_compute; discriminate]; apply Nat.leb_le; vm_compute; reflexivity.
  - split; rewrite ?Hts; [repeat split; vm_compute; discriminate|vm_compute; discriminate|vm_compute; discriminate
      |apply Nat.leb_le; vm_compute; reflexivity|vm_compute; discriminate|apply Nat.leb_le; vm_compute; reflexivity].
  - exact Hf0.
  - exists f0, b, σ, ef, b'. exact (conj Hf0 (conj Hb (conj Hrun (conj Ht Hpr)))).
Defined.
