(* ===== verification/FilterCombinators.v ===== *)
(** Filters made of filters: [nested_filter] with the filters derived from it,
    [or_filter] with its predicates (src/sbmt_decoder/include/sbmt/search/
    nested_filter.hpp, negative_block_filter.hpp, limit_syntax_length_filter.hpp,
    block_parser.hpp, or_filter.hpp, impl/or_filter.ipp, separate_bins_filter.hpp,
    quasi_bin_filter.hpp, special_lhs_factory.hpp).

    A nested filter passes every call on and only narrows the range of rules; an
    [or_filter] gives each rule to one of two filters.  What they promise to the
    bank follows from what the filters in them promise: they are instances of the
    same classes. *)
From S2P Require Import Prelude Span PriorityTable PriorityQueue TokenStorage Token Edge EdgeEquivalence EdgeQueue FilterPredicate Chart ChartEquiv EdgeFilter SortedCube Generator CubeHeap RuleMap SpanFilter FilterBank GraphSearch UnaryFilter EquivSet UnaryApplications BankFinalize ExhaustiveBank BankParse.
Open Scope Z_scope.

Section combinators.
Context {score info_type R G : Type} `{!ScoreOps score, !ScoreZero score, !InfoOps info_type}.
Context `{!Inhabited score, !Inhabited info_type}.
Abbreviation edge := (edge score info_type).
Abbreviation store := (equiv_store score info_type).
Abbreviation factory := (edge_factory score).
Context `{!GrammarOps R score edge store G, !Generator G (info_type * score * score)}.
Abbreviation SpanFilter F := (SpanFilter (score := score) (info_type := info_type) (R := R) F).
Abbreviation UnaryFilter F := (UnaryFilter (score := score) (info_type := info_type) (R := R) F).
Abbreviation app := (list R * list positive * list positive)%type.
Implicit Types (σ : store) (ef : factory) (r : R) (rr : list R) (apps : list app) (s : span_t).

(** [make_filter_iterator(p, ritr, rend)] to its end. *)
Definition filter_rules (p : R -> bool) rr : list R := filter (fun r => p r = true) rr.

(** * [nested_filter]

    [A] has the members of the derived class, [narrow] is what its [apply_rules] does
    to the range of rules. *)
Class Narrows (A : Type) := narrow : A -> list R -> list R.

Record nested_filter (F A : Type) := mk_nested { nested : F; own : A }.
#[global] Arguments mk_nested {F A}.
#[global] Arguments nested {F A}.
#[global] Arguments own {F A}.

Section nested.
Context {F A : Type} `{!SpanFilter F, !Narrows A}.

#[export] Instance nested_span_filter : SpanFilter (nested_filter F A) := {|
  sf_apply_rules σ ef rr er1 er2 f :=
    '(σ, ef, g) ⇐ sf_apply_rules σ ef (narrow (own f) rr) er1 er2 (nested f); Some (Ok (σ, ef, mk_nested g (own f)));
  sf_finalize σ ef f := '(σ, ef, g) ⇐ sf_finalize σ ef (nested f); Some (Ok (σ, ef, mk_nested g (own f)));
  sf_is_finalized f := sf_is_finalized (nested f);
  sf_top f := sf_top (nested f);
  sf_pop σ f := g ← sf_pop σ (nested f); Some (mk_nested g (own f));
  sf_empty f := sf_empty (nested f) |}.
End nested.

Section nested_unary.
Context {F A : Type} `{!UnaryFilter F, !Narrows A}.

(** [nested_unary_filter] *)
#[export] Instance nested_unary_filter : UnaryFilter (nested_filter F A) := {|
  uf_apply_rules σ ef source rr f :=
    '(σ, ef, g) ⇐ uf_apply_rules σ ef source (narrow (own f) rr) (nested f); Some (Ok (σ, ef, mk_nested g (own f)));
  uf_top f := uf_top (nested f);
  uf_pop f := g ← uf_pop (nested f); Some (mk_nested g (own f));
  uf_empty f := uf_empty (nested f) |}.
End nested_unary.

(** ** [block_parser_filter] and [block_parser_unary_filter] *)

Record block_parser_own := mk_block_parser { preserve_order : bool }.

(** [order_preserve_filt] *)
Definition order_preserve_filt r : bool := false.

#[export] Instance block_parser_narrows : Narrows block_parser_own := fun a rr =>
  if negb (preserve_order a) then rr else filter_rules order_preserve_filt rr.

(** ** [negative_block_filter] *)

Record negative_block_own := mk_negative_block { banned : bool }.

Definition is_virt_rule r : bool := bool_decide (token_type (rule_lhs r) = virtual_tag_token).

#[export] Instance negative_block_narrows : Narrows negative_block_own := fun a rr =>
  if negb (banned a) then rr else filter_rules is_virt_rule rr.

(** [negative_block_filter_factory::create]: [blocks] are the spans that are allowed. *)
Definition create_negative_block {F} (create : span_t -> F) (blocks : list span_t) (target_span : span_t) :
    nested_filter F negative_block_own :=
  mk_nested (create target_span) (mk_negative_block (negb (existsb (span_eqb target_span) blocks))).

(** ** [limit_syntax_length_filter] *)

Record limit_syntax_own := mk_limit_syntax { glue_symbol : indexed_token; toplevel_symbol : indexed_token; limit_syntax : bool }.

Definition top_or_glue (glue toplevel : indexed_token) r : bool :=
  token_equal (rule_lhs r) glue || token_equal (rule_lhs r) toplevel.

#[export] Instance limit_syntax_narrows : Narrows limit_syntax_own := fun a rr =>
  if limit_syntax a then filter_rules (top_or_glue (glue_symbol a) (toplevel_symbol a)) rr else rr.

(** [limit_syntax_length_factory::create] *)
Definition create_limit_syntax {F} (create : span_t -> F) (glue toplevel : indexed_token) (max_length : Z) (target_span : span_t) :
    nested_filter F limit_syntax_own :=
  mk_nested (create target_span) (mk_limit_syntax glue toplevel (max_length <? span_length target_span)).

(** * [or_filter] *)

Record or_filter (T F : Type) := mk_or { true_filter : T; false_filter : F; over_false : bool }.
#[global] Arguments mk_or {T F}.
#[global] Arguments true_filter {T F}.
#[global] Arguments false_filter {T F}.
#[global] Arguments over_false {T F}.

(** [or_filter_factory::create] *)
Definition create_or {T F} (create_true : span_t -> T) (create_false : span_t -> F) (target_span : span_t) : or_filter T F :=
  mk_or (create_true target_span) (create_false target_span) false.

Section or_filter.
Context {T F : Type} `{!SpanFilter T, !SpanFilter F}.
Context (predicate : R -> bool).
Implicit Types f : or_filter T F.

Definition or_apply_rules σ ef rr (er1 er2 : list positive) f : option (result (store * factory * or_filter T F)) :=
  match rr with
  | [] => Some (Ok (σ, ef, f))
  | _ =>
      '(σ, ef, tf) ⇐ sf_apply_rules σ ef (filter_rules predicate rr) er1 er2 (true_filter f);
      '(σ, ef, ff) ⇐ sf_apply_rules σ ef (filter_rules (fun r => negb (predicate r)) rr) er1 er2 (false_filter f);
      Some (Ok (σ, ef, mk_or tf ff (over_false f)))
  end.

Definition or_finalize σ ef f : option (result (store * factory * or_filter T F)) :=
  '(σ, ef, ff) ⇐ sf_finalize σ ef (false_filter f);
  '(σ, ef, tf) ⇐ sf_finalize σ ef (true_filter f);
  em ← sf_empty ff;
  Some (Ok (σ, ef, mk_or tf ff (negb em))).

Definition or_top f : option positive := if over_false f then sf_top (false_filter f) else sf_top (true_filter f).

(** [false_filter->empty() and true_filter->empty()] *)
Definition or_empty f : option bool :=
  em ← sf_empty (false_filter f);
  if (em : bool) then sf_empty (true_filter f) else Some false.

Definition or_pop σ f : option (or_filter T F) :=
  if over_false f
  then ff ← sf_pop σ (false_filter f);
       em ← sf_empty ff;
       Some (mk_or (true_filter f) ff (if em : bool then false else over_false f))
  else tf ← sf_pop σ (true_filter f); Some (mk_or tf (false_filter f) (over_false f)).

#[export] Instance or_span_filter : SpanFilter (or_filter T F) := {|
  sf_apply_rules := or_apply_rules;
  sf_finalize := or_finalize;
  sf_is_finalized f := sf_is_finalized (false_filter f) && sf_is_finalized (true_filter f);
  sf_top := or_top;
  sf_pop := or_pop;
  sf_empty := or_empty |}.
End or_filter.

(** ** The predicates *)

(** [is_tag_rule] of [separate_bins_factory]. *)
Definition is_tag_rule r : bool := negb (bool_decide (token_type (rule_lhs r) = virtual_tag_token)).

(** [is_special_lhs] of [special_lhs_factory]. *)
Definition is_special_lhs (tok : indexed_token) r : bool := token_equal (rule_lhs r) tok.

(** [is_quasi_bin] of [quasi_bin_factory]: [rule_rhs] is in range below its size. *)
Fixpoint no_foreign (n : nat) (x : nat) r : option bool :=
  match n with
  | O => Some true
  | S n => t ← rule_rhs r x; if bool_decide (token_type t = foreign_token) then Some false else no_foreign n (S x) r
  end.
Definition is_quasi_bin r : option bool :=
  if bool_decide (token_type (rule_lhs r) = tag_token) then Some true else no_foreign (Z.to_nat (rule_rhs_size r)) 0 r.

(** * What the combinators promise *)

Lemma filter_rules_all (p : R -> bool) rr : (forall r, p r = true) -> filter_rules p rr = rr.
Proof. intros Hp. unfold filter_rules. induction rr as [|r rr IH]; [done|]. by rewrite filter_cons_True, IH by apply Hp. Qed.

(** The applications of the rules that satisfy [p]. *)
Definition select (p : R -> bool) apps : list app :=
  apps ≫= fun a => match filter_rules p a.1.1 with [] => [] | rr => [(rr, a.1.2, a.2)] end.

Lemma select_snoc p apps a : select p (apps ++ [a]) = select p apps ++ select p [a].
Proof. apply bind_app. Qed.

Lemma filter_same {X} (Q : X -> Prop) `{!forall x, Decision (Q x)} (xs : list X) : (forall x, x ∈ xs -> Q x) -> filter Q xs = xs.
Proof.
  induction xs as [|x xs IH]; intros Hxs; [done|]. rewrite filter_cons_True by (apply Hxs; left). f_equal. apply IH.
  intros y Hy. apply Hxs. by right.
Qed.

Lemma filter_all_out {X} (Q : X -> Prop) `{!forall x, Decision (Q x)} (xs : list X) : (forall x, x ∈ xs -> ~ Q x) -> filter Q xs = [].
Proof. 
  induction xs as [|x xs IH]; intros Hxs; [done|]. rewrite filter_cons_False by (apply Hxs; left). apply IH.
  intros y Hy. apply Hxs. by right.
Qed.

Lemma triples_filter p rr (er1 er2 : list positive) :
  triples_of (filter_rules p rr, er1, er2) = filter (fun t => p t.1.1 = true) (triples_of (rr, er1, er2)).
Proof.
  unfold triples_of, filter_rules. cbn [fst snd]. induction rr as [|r rr IH]; [done|]. rewrite filter_cons. cbn [mbind list_bind].
  rewrite filter_app, <- IH. set (block := er1 ≫= _).
  assert (Hb : forall t, t ∈ block -> t.1.1 = r).
  { intros t (l1&(l2&Ht%list_elem_of_singleton&_)%list_elem_of_bind&_)%list_elem_of_bind. by subst t. }
  destruct (decide (p r = true)) as [Hp|Hp]; cbn [mbind list_bind].
  - rewrite (filter_same _ block); [done|]. intros t Ht. by rewrite (Hb t Ht).
  - rewrite (filter_all_out _ block); [done|]. intros t Ht. by rewrite (Hb t Ht).
Qed.

Lemma select_triples p apps : app_triples (select p apps) = filter (fun t => p t.1.1 = true) (app_triples apps).
Proof.
  unfold app_triples, select. induction apps as [|[[rr er1] er2] apps IH]; [done|]. cbn [mbind list_bind fst snd].
  rewrite bind_app, filter_app, IH, <- triples_filter. f_equal. destruct (filter_rules p rr) as [|r rr']; [done|].
  cbn [mbind list_bind]. by rewrite app_nil_r.
Qed.

(** The two parts of the applications are all of them. *)
Lemma select_partition p apps : app_triples apps ≡ₚ app_triples (select p apps) ++ app_triples (select (fun r => negb (p r)) apps).
Proof.
  rewrite !select_triples. induction (app_triples apps) as [|t ts IH]; [done|]. rewrite !filter_cons.
  destruct (decide (p t.1.1 = true)) as [Hp|Hp].
  - rewrite decide_False by (by rewrite Hp). cbn. by rewrite <- IH.
  - rewrite decide_True by (by destruct (p t.1.1)). by rewrite <- Permutation_middle, <- IH.
Qed.

(** A filter that does nothing when there is no rule. *)
Class IdleFilter {F} `{!SpanFilter F} : Prop :=
  idle σ ef er1 er2 (f : F) : sf_apply_rules σ ef [] er1 er2 f = Some (Ok (σ, ef, f)).

Lemma select_one p a : select p [a] = [] /\ filter_rules p a.1.1 = [] \/ select p [a] = [(filter_rules p a.1.1, a.1.2, a.2)].
Proof. unfold select. cbn [mbind list_bind]. rewrite app_nil_r. destruct (filter_rules p a.1.1); [by left|by right]. Qed.

(** One application, of the rules that are left of it. *)
Lemma runs_select {F} `{!SpanFilter F, !IdleFilter (F := F)} (σ0 : store) permitted runs `{!FilterRuns σ0 permitted runs} p apps a σ ef (f : F) :
  runs apps σ ef f -> permitted (apps ++ select p [a]) ->
  exists σ' ef' f', sf_apply_rules σ ef (filter_rules p a.1.1) a.1.2 a.2 f = Some (Ok (σ', ef', f')) /\ runs (apps ++ select p [a]) σ' ef' f'.
Proof.
  intros Hr Hp. destruct (select_one p a) as [[Hs Hrr]|Hs]; rewrite Hs in *.
  - rewrite Hrr. exists σ, ef, f. rewrite app_nil_r. split; [apply idle|done].
  - by apply (fr_step apps (filter_rules p a.1.1, a.1.2, a.2)).
Qed.

(** ** Nested filters *)

(** The rules that [narrow] leaves. *)
Class NarrowsTo {A} `{!Narrows A} (a : A) (p : R -> bool) : Prop := narrows_to rr : narrow a rr = filter_rules p rr.

#[export] Instance block_parser_to a : NarrowsTo a (fun r => negb (preserve_order a) || order_preserve_filt r).
Proof. intros rr. unfold narrow, block_parser_narrows. destruct (preserve_order a); [done|]. symmetry. by apply filter_rules_all. Qed.

#[export] Instance negative_block_to a : NarrowsTo a (fun r => negb (banned a) || is_virt_rule r).
Proof. intros rr. unfold narrow, negative_block_narrows. destruct (banned a); [done|]. symmetry. by apply filter_rules_all. Qed.

#[export] Instance limit_syntax_to a : NarrowsTo a (fun r => negb (limit_syntax a) || top_or_glue (glue_symbol a) (toplevel_symbol a) r).
Proof. intros rr. unfold narrow, limit_syntax_narrows. destruct (limit_syntax a); [done|]. symmetry. by apply filter_rules_all. Qed.

Lemma nested_idle {F A} `{!SpanFilter F, !IdleFilter (F := F), !Narrows A} : (forall a : A, exists p, NarrowsTo a p) -> IdleFilter (F := nested_filter F A).
Proof. intros Ha σ ef er1 er2 [f a]. destruct (Ha a) as (p&Hp). cbn. rewrite (narrows_to (a := a)). cbn. by rewrite idle. Qed.

Section nested_laws.
Context {F A : Type} `{!SpanFilter F, !IdleFilter (F := F), !Narrows A} (a : A) (p : R -> bool) `{!NarrowsTo a p}.

#[export] Instance nested_runs (σ0 : store) permitted runs `{!FilterRuns (F := F) σ0 permitted runs} :
  FilterRuns (F := nested_filter F A) σ0 (fun apps => permitted (select p apps))
    (fun apps σ ef f => own f = a /\ runs (select p apps) σ ef (nested f)).
Proof.
  split; [intros apps σ ef f [_ Hr]; by eapply fr_sub|]. intros apps x σ ef [f o] [Ho Hr] Hp. cbn [own nested] in *. subst o. rewrite select_snoc in *.
  destruct (runs_select σ0 permitted runs p (select p apps) x σ ef f Hr Hp) as (σ'&ef'&f'&Hrun&Hr'). exists σ', ef', (mk_nested f' a).
  cbn [sf_apply_rules nested_span_filter own nested]. rewrite narrows_to, Hrun. done.
Qed.

Lemma nested_apply_all apps : forall σ ef (f : F), apply_all σ ef apps (mk_nested f a) =
  '(σ', ef', g) ⇐ apply_all σ ef (select p apps) f; Some (Ok (σ', ef', mk_nested g a)).
Proof.
  induction apps as [|x apps IH]; intros σ ef f; [done|].
  assert (Hsel : select p (x :: apps) = select p [x] ++ select p apps) by (unfold select; by rewrite <- bind_app).
  rewrite Hsel. cbn [apply_all sf_apply_rules nested_span_filter own nested]. rewrite narrows_to.
  destruct (select_one p x) as [[-> ->]| ->].
  - rewrite idle. cbn [rbind mbind option_bind]. apply IH.
  - cbn [Datatypes.app apply_all fst snd]. destruct (sf_apply_rules _ _ _ _ _ f) as [[[[σ1 ef1] f1]|e]|]; cbn [rbind mbind option_bind]; [apply IH|done|done].
Qed.

(** A nested filter runs as the filter in it does over the applications of the rules
    that are left to it. *)
Theorem nested_filter_run apps σ ef (f : F) : run_filter σ ef apps (mk_nested f a) =
  '(σ', ef', g) ⇐ run_filter σ ef (select p apps) f; Some (Ok (σ', ef', mk_nested g a)).
Proof.
  unfold run_filter. rewrite nested_apply_all. destruct (apply_all σ ef (select p apps) f) as [[[[σ1 ef1] f1]|e]|]; [|done|done].
  cbn [rbind mbind option_bind sf_finalize nested_span_filter nested own].
  destruct (sf_finalize σ1 ef1 f1) as [[[[σ2 ef2] f2]|e]|]; reflexivity.
Qed.
End nested_laws.

(** ** Handing out *)

Section drains.
Context (max_equivalents : Z).
Abbreviation FilterDrains ready := (FilterDrains (score := score) (info_type := info_type) (R := R) max_equivalents ready).

#[export] Instance nested_drains {F A} `{!SpanFilter F, !Narrows A} (ready : store -> F -> list positive -> Prop) `{!FilterDrains ready} :
  FilterDrains (fun σ (f : nested_filter F A) ls => ready σ (nested f) ls).
Proof.
  split; [intros σ f ls Hr; exact (fd_empty max_equivalents σ (nested f) ls Hr)| |intros σ f ls l i Hr; exact (fd_write max_equivalents σ (nested f) ls l i Hr)].
  intros σ f ls Hr Hne.
  destruct (fd_next max_equivalents σ (nested f) ls Hr Hne) as (l&ls'&f'&Htop&Hpop&Hp&Hr'). exists l, ls', (mk_nested f' (own f)). split; [done|].
  split; [cbn; by rewrite Hpop|done].
Qed.

Section or_drains.
Context {T F : Type} `{!SpanFilter T, !SpanFilter F} (p : R -> bool).
Context (readyT : store -> T -> list positive -> Prop) `{!FilterDrains readyT}.
Context (readyF : store -> F -> list positive -> Prop) `{!FilterDrains readyF}.

(** The false filter is emptied first. *)
Definition or_ready σ (f : or_filter T F) ls : Prop := exists lt lf, readyT σ (true_filter f) lt /\ readyF σ (false_filter f) lf /\
  ls ≡ₚ lf ++ lt /\ over_false f = negb (bool_decide (lf = [])).

#[export] Instance or_drains : BankFinalize.FilterDrains (F := or_filter T F) (SpanFilter0 := or_span_filter p) max_equivalents or_ready.
Proof.
  split.
  - intros σ f ls (lt&lf&Ht&Hf&Hp&_). cbn. unfold or_empty. rewrite (fd_empty max_equivalents σ _ lf Hf). cbn [mbind option_bind].
    destruct lf as [|l lf].
    2: { rewrite !bool_decide_eq_false_2; [done| |done]. intros E. subst ls. apply Permutation_nil_l in Hp. discriminate. }
    rewrite bool_decide_eq_true_2, (fd_empty max_equivalents σ _ lt Ht) by done. f_equal. apply bool_decide_ext.
    split; [intros ->; by apply Permutation_nil_r in Hp|intros ->; by apply Permutation_nil_l in Hp].
  - intros σ [t f o] ls (lt&lf&Ht&Hf&Hp&Ho) Hne. cbn [true_filter false_filter over_false sf_top sf_pop or_span_filter] in *.
    unfold or_top, or_pop. cbn [true_filter false_filter over_false]. destruct o.
    + destruct lf as [|x lf]; [by rewrite bool_decide_eq_true_2 in Ho|]. destruct (fd_next max_equivalents σ f (x :: lf) Hf) as (l&lf'&f'&Htop&Hpop&Hl&Hf'); [done|].
      rewrite Hpop. cbn [mbind option_bind]. rewrite (fd_empty max_equivalents σ f' lf' Hf'). cbn [mbind option_bind]. exists l, (lf' ++ lt). eexists.
      split; [done|]. split; [done|]. split; [by rewrite Hp, Hl|]. exists lt, lf'. cbn. split; [done|]. split; [done|]. split; [done|].
      by destruct (bool_decide (lf' = [])).
    + destruct lf as [|x lf]; [|by rewrite bool_decide_eq_false_2 in Ho]. cbn [Datatypes.app] in Hp.
      assert (Hlt : lt <> []) by (intros ->; by apply Permutation_nil_r in Hp).
      destruct (fd_next max_equivalents σ t lt Ht Hlt) as (l&lt'&t'&Htop&Hpop&Hl&Ht'). rewrite Hpop. cbn [mbind option_bind]. exists l, lt'. eexists.
      split; [done|]. split; [done|]. split; [by rewrite Hp|]. by exists lt', [].
  - intros σ f ls l i (lt&lf&Ht&Hf&Hp&Ho) Hl Hw. rewrite Hp, not_elem_of_app in Hl. destruct Hl as [Hlf Hlt]. exists lt, lf.
    split; [by apply (fd_write max_equivalents)|]. split; [by apply (fd_write max_equivalents)|done].
Qed.
End or_drains.
End drains.

(** ** The filter of two filters takes applications *)

(** Two filters beside each other over one store: neither takes what is of the other. *)
Class FilterPair {T F} `{!SpanFilter T, !SpanFilter F} (σ0 : store) (permT permF : list app -> Prop)
    (pair : list app -> list app -> store -> factory -> T -> F -> Prop) : Prop := {
  fp_sub a b σ ef (t : T) (f : F) : pair a b σ ef t f -> σ0 ⊆ σ;
  fp_true a b x σ ef (t : T) (f : F) : pair a b σ ef t f -> permT (a ++ [x]) ->
    exists σ' ef' t', sf_apply_rules σ ef x.1.1 x.1.2 x.2 t = Some (Ok (σ', ef', t')) /\ pair (a ++ [x]) b σ' ef' t' f;
  fp_false a b x σ ef (t : T) (f : F) : pair a b σ ef t f -> permF (b ++ [x]) ->
    exists σ' ef' f', sf_apply_rules σ ef x.1.1 x.1.2 x.2 f = Some (Ok (σ', ef', f')) /\ pair a (b ++ [x]) σ' ef' t f'
}.

Section or_runs.
Context {T F : Type} `{!SpanFilter T, !SpanFilter F, !IdleFilter (F := T), !IdleFilter (F := F)} (p : R -> bool).
Context (σ0 : store) (permT permF : list app -> Prop) (pair : list app -> list app -> store -> factory -> T -> F -> Prop).
Context `{!FilterPair σ0 permT permF pair}.
Abbreviation np := (fun r => negb (p r)).

Lemma pair_true a b x q σ ef (t : T) (f : F) : pair a b σ ef t f -> permT (a ++ select q [x]) ->
  exists σ' ef' t', sf_apply_rules σ ef (filter_rules q x.1.1) x.1.2 x.2 t = Some (Ok (σ', ef', t')) /\ pair (a ++ select q [x]) b σ' ef' t' f.
Proof.
  intros Hp Hperm. destruct (select_one q x) as [[Hs Hr]|Hs]; rewrite Hs in *.
  - rewrite Hr. exists σ, ef, t. rewrite app_nil_r. split; [apply idle|done].
  - by apply (fp_true a b (filter_rules q x.1.1, x.1.2, x.2)).
Qed.

Lemma pair_false a b x q σ ef (t : T) (f : F) : pair a b σ ef t f -> permF (b ++ select q [x]) ->
  exists σ' ef' f', sf_apply_rules σ ef (filter_rules q x.1.1) x.1.2 x.2 f = Some (Ok (σ', ef', f')) /\ pair a (b ++ select q [x]) σ' ef' t f'.
Proof.
  intros Hp Hperm. destruct (select_one q x) as [[Hs Hr]|Hs]; rewrite Hs in *.
  - rewrite Hr. exists σ, ef, f. rewrite app_nil_r. split; [apply idle|done].
  - by apply (fp_false a b (filter_rules q x.1.1, x.1.2, x.2)).
Qed.

(** What each filter has taken. *)
Definition or_taken apps σ ef (f : or_filter T F) : Prop :=
  over_false f = false /\ pair (select p apps) (select np apps) σ ef (true_filter f) (false_filter f).
Definition or_permitted apps : Prop := permT (select p apps) /\ permF (select np apps).

#[export] Instance or_runs : FilterRuns (F := or_filter T F) (SpanFilter0 := or_span_filter p) σ0 or_permitted or_taken.
Proof.
  split; [intros apps σ ef f [_ Hp]; exact (fp_sub _ _ σ ef _ _ Hp)|]. intros apps x σ ef [t f o] [Ho Hp] [HT HF]. cbn [over_false true_filter false_filter] in *. subst o.
  rewrite select_snoc in HT, HF. destruct (pair_true _ _ x p σ ef t f Hp HT) as (σ1&ef1&t1&H1&Hp1).
  destruct (pair_false _ _ x np σ1 ef1 t1 f Hp1 HF) as (σ2&ef2&f2&H2&Hp2).
  assert (Hrun : or_apply_rules p σ ef x.1.1 x.1.2 x.2 (mk_or t f false) = Some (Ok (if nonempty x.1.1 then (σ2, ef2, mk_or t1 f2 false) else (σ, ef, mk_or t f false)))).
  { unfold or_apply_rules. destruct (x.1.1) as [|r rr]; [done|]. cbn [nonempty true_filter false_filter over_false]. rewrite H1. cbn [rbind mbind option_bind].
    by rewrite H2. }
  destruct (x.1.1) as [|r rr] eqn:E; cbn [nonempty] in Hrun.
  - exists σ, ef, (mk_or t f false). split; [exact Hrun|]. split; [done|]. cbn [true_filter false_filter]. rewrite !select_snoc.
    assert (forall q, select q [x] = []) as Hs by (intros q; unfold select; cbn; by rewrite E). by rewrite !Hs, !app_nil_r.
  - exists σ2, ef2, (mk_or t1 f2 false). split; [exact Hrun|]. split; [done|]. cbn [true_filter false_filter]. by rewrite !select_snoc.
Qed.
End or_runs.

(** All applications of a list, when what is permitted is so for its prefixes. *)
Lemma runs_apply_all {F} `{!SpanFilter F} (σ0 : store) permitted runs `{!FilterRuns (F := F) σ0 permitted runs} (more : list app) :
  (forall a b, permitted (a ++ b) -> permitted a) -> forall apps σ ef f, runs apps σ ef f -> permitted (apps ++ more) ->
  exists σ' ef' f', apply_all σ ef more f = Some (Ok (σ', ef', f')) /\ runs (apps ++ more) σ' ef' f'.
Proof.
  intros Hclosed. induction more as [|a more IH]; intros apps σ ef f Hr Hp; cbn [apply_all].
  - exists σ, ef, f. by rewrite app_nil_r.
  - replace (apps ++ a :: more) with ((apps ++ [a]) ++ more) in Hp |- * by (by rewrite <- app_assoc).
    destruct (fr_step apps a σ ef f Hr (Hclosed _ _ Hp)) as (σ1&ef1&f1&->&Hr1).
    cbn [rbind mbind option_bind]. by apply IH.
Qed.
End combinators.

(** * Two exhaustive filters *)

Section exhaustive.
Context {score info_type R G : Type} `{!ScoreOps score, !ScoreZero score, !InfoOps info_type}.
Context `{!Inhabited score, !Inhabited info_type}.
Abbreviation edge := (edge score info_type).
Abbreviation store := (equiv_store score info_type).
Abbreviation factory := (edge_factory score).
Abbreviation chart := (basic_chart score).
Context `{!GrammarOps R score edge store G, !Generator G (info_type * score * score)}.
Context `{!StdAlgorithms (alt_edge score), HC : !HashCombine}.
Context (hash_token : indexed_token -> Z) (hash_span : span_t -> Z) (max_equivalents : Z).
Context {PT PF : Type} `{!FilterPredicate (score := score) (info_type := info_type) PT, !FilterPredicate (score := score) (info_type := info_type) PF}.
Context (max_infos : nat).
Context `{!StdAlgorithmLaws (alt_edge score), !InfoLaws info_type, !StrictWeak (score_lt (S := score)), !ScoreZeroLaws score}.
Context `{!PredicateSafe hash_token hash_span max_equivalents PT, !PredicateSafe hash_token hash_span max_equivalents PF}.
Context (Hmax : 1 <= u32 max_equivalents) `{!UnaryInfos (R := R) max_infos}.
Context (Hbinary : forall (σ : store) r s e1 e2, exists infos, yields (create_info σ r s [e1; e2]) infos /\ (length infos <= max_infos)%nat).
Abbreviation app := (list R * list positive * list positive)%type.
Abbreviation items q := (priority_heap (ptable q)).
Abbreviation equiv_ok := (equiv_ok max_equivalents).
Abbreviation serving := (serving hash_token hash_span max_equivalents).
Abbreviation fits := (fits max_equivalents).
Abbreviation servable := (servable max_equivalents max_infos).
Abbreviation exhaustive P := (SpanFilter.exhaustive_filter hash_token hash_span max_equivalents (R := R) (P := P) max_infos).
Implicit Types (σ : store) (ef : factory) (ch : chart) (s : span_t) (r : R).

Lemma fits_subseteq σ0 σ1 s r l1 l2 : σ0 ⊆ σ1 -> fits σ0 s r l1 l2 -> fits σ1 s r l1 l2.
Proof.
  intros Hs (H1&i1&i2&H2&H3&H4&H5&H6&H7&H8). split; [done|]. exists i1, i2.
  split; [by eapply lookup_weaken|]. split; [by apply (equiv_ok_subseteq max_equivalents σ0)|]. split; [done|].
  split; [by eapply lookup_weaken|]. split; [by apply (equiv_ok_subseteq max_equivalents σ0)|done].
Qed.

(** The part of the store that is not of a filter. *)
Definition apart_from {P} (f : predicate_edge_filter (score := score) (P := P)) σ : store := filter (fun x => x.1 ∉ items (pqueue f)) σ.

Lemma apart_lookup {P} (f : predicate_edge_filter (score := score) (P := P)) σ x i : apart_from f σ !! x = Some i <-> σ !! x = Some i /\ x ∉ items (pqueue f).
Proof. apply map_lookup_filter_Some. Qed.

Lemma serving_apart {P} n s σ0 σ (f : predicate_edge_filter (score := score) (P := P)) : serving n s σ0 σ f ->
  σ0 ⊆ apart_from f σ /\ serving n s (apart_from f σ) σ f.
Proof.
  intros [[Hq Hopen Hlen Hsub Hfresh] Hown]. assert (Hsub' : σ0 ⊆ apart_from f σ).
  { apply map_subseteq_spec. intros x i Hi. apply apart_lookup. split; [by eapply lookup_weaken|]. intros Hx. rewrite Hfresh in Hi by done. done. }
  split; [exact Hsub'|]. split; [split; [exact Hq|exact Hopen|exact Hlen|apply map_filter_subseteq|]|].
  - intros x Hx. apply map_lookup_filter_None. right. intros i _ Hn. by apply Hn.
  - eapply Forall_impl; [exact Hown|]. intros x (i&Hi&Hok&Hc). exists i. split; [exact Hi|]. split; [|exact Hc].
    by apply (equiv_ok_subseteq max_equivalents σ0).
Qed.

(** A part of the store that has the filter in it is kept. *)
Lemma serving_kept {P} m s σ0 σ1 σ σ' (g : predicate_edge_filter (score := score) (P := P)) : serving m s σ0 σ g ->
  (forall x i, x ∈ items (pqueue g) -> σ !! x = Some i -> σ1 !! x = Some i) -> σ0 ⊆ σ1 -> σ1 ⊆ σ' -> serving m s σ0 σ' g.
Proof.
  intros [[G1 G2 G3 G4 G5] Hown] Hkeep H01 H1. rewrite Forall_forall in Hown.
  assert (Hat : forall x i, x ∈ items (pqueue g) -> σ !! x = Some i -> σ' !! x = Some i) by (intros x i Hx Hi; eapply lookup_weaken; [by eapply Hkeep|done]).
  split; [split; [|exact G2|exact G3|by etrans|exact G5]|].
  - eapply (queue_ok_frame hash_token hash_span max_equivalents); [exact G1|]. intros x i Hx Hi Hok. destruct (Hown x Hx) as (j&Hj&Hjok&_). rewrite Hi in Hj. injection Hj as <-.
    split; [by apply Hat|]. apply (equiv_ok_subseteq max_equivalents σ0); [by etrans|done].
  - apply Forall_forall. intros x Hx. destruct (Hown x Hx) as (j&Hj&?). exists j. split; [by apply Hat|done].
Qed.

(** What a filter does leaves alone what is of another, over the same store. *)
Lemma serving_step_apart {P P' : Type} `{!FilterPredicate (score := score) (info_type := info_type) P, !PredicateSafe hash_token hash_span max_equivalents P}
    n m s σ0 σ ef (f : predicate_edge_filter (score := score) (P := P)) (g : predicate_edge_filter (score := score) (P := P')) rr er1 er2 :
  serving n s σ0 σ f -> serving m s σ0 σ g -> (forall x, x ∈ items (pqueue f) -> x ∉ items (pqueue g)) ->
  (forall r, r ∈ rr -> rule_rhs_size r = 2) -> (forall r l1 l2, r ∈ rr -> l1 ∈ er1 -> l2 ∈ er2 -> fits σ0 s r l1 l2) ->
  insertion_bound (n + makeable max_infos rr er1 er2) <= pq_limit ->
  exists σ' ef' f', sf_apply_rules (SpanFilter := exhaustive P) σ ef rr er1 er2 (mk_exhaustive f) = Some (Ok (σ', ef', mk_exhaustive f')) /\
    serving (n + makeable max_infos rr er1 er2) s σ0 σ' f' /\ serving m s σ0 σ' g /\ (forall x, x ∈ items (pqueue f') -> x ∉ items (pqueue g)).
Proof.
  intros Hf Hg Hd Hsize Hfit Hlim. destruct (serving_apart n s σ0 σ f Hf) as [H0 Hf1]. set (σ1 := apart_from f σ) in *.
  destruct (exhaustive_filter_adds hash_token hash_span max_equivalents max_infos Hmax Hbinary s σ0 rr er1 er2 Hsize Hfit n σ ef f Hf Hlim)
    as (σ'&ef'&f'&Hrun&Hf').
  destruct (exhaustive_filter_adds hash_token hash_span max_equivalents max_infos Hmax Hbinary s σ1 rr er1 er2 Hsize
    (fun r l1 l2 h h1 h2 => fits_subseteq σ0 σ1 s r l1 l2 H0 (Hfit r l1 l2 h h1 h2)) n σ ef f Hf1 Hlim) as (σ2&ef2&f2&Hrun2&Hf2).
  rewrite Hrun in Hrun2. injection Hrun2 as <- <- <-.
  pose proof (fb_sub _ _ _ _ _ _ _ (sv_beside _ _ _ _ _ _ _ _ Hf2)) as H1. pose proof (fb_fresh _ _ _ _ _ _ _ (sv_beside _ _ _ _ _ _ _ _ Hf2)) as Hfresh.
  assert (Hkeep : forall x i, x ∈ items (pqueue g) -> σ !! x = Some i -> σ1 !! x = Some i).
  { intros x i Hx Hi. apply apart_lookup. split; [done|]. intros Hxf. by apply (Hd x). }
  exists σ', ef', f'. split; [exact Hrun|]. split; [exact Hf'|]. split.
  - by apply (serving_kept m s σ0 σ1 σ).
  - intros x Hx Hxg. destruct Hg as [_ Hown]. rewrite Forall_forall in Hown. destruct (Hown x Hxg) as (i&Hi&_).
    specialize (Hfresh x Hx). by rewrite (Hkeep x i Hxg Hi) in Hfresh.
Qed.

#[export] Instance exhaustive_idle {P} `{!FilterPredicate (score := score) (info_type := info_type) P} : IdleFilter (SpanFilter0 := exhaustive P).
Proof. intros σ ef er1 er2 [f]. done. Qed.

#[export] Instance cube_heap_idle {P PQ} `{!FilterPredicate (score := score) (info_type := info_type) P}
  `{!PriorityQueue (post_score_compare (score := score) (info_type := info_type)) PQ} :
  IdleFilter (SpanFilter0 := cube_heap_filter hash_token hash_span max_equivalents (R := R) (P := P) (PQ := PQ)).
Proof. by intros σ ef er1 er2 [cs f b]. Qed.

(** ** The pair of them *)

Abbreviation span_filter P := (exhaustive_span_filter (score := score) (P := P)).
Abbreviation serves := (serves hash_token hash_span max_equivalents max_infos).
Abbreviation Items xf := (items (pqueue (ex_filter xf))).

Definition both_serve s σ0 (a b : list app) σ ef (t : span_filter PT) (f : span_filter PF) : Prop :=
  serves s σ0 a σ ef t /\ serves s σ0 b σ ef f /\ forall x, x ∈ Items t -> x ∉ Items f.

#[export] Instance both_pair s σ0 : FilterPair (SpanFilter0 := exhaustive PT) (SpanFilter1 := exhaustive PF) σ0 (servable s σ0) (servable s σ0) (both_serve s σ0).
Proof.
  split.
  - intros a b σ ef t f ([Ht _]&_&_). apply (fb_sub _ _ _ _ _ _ _ Ht).
  - intros a b [[rr er1] er2] σ ef [t] [f] (Ht&Hf&Hd) Hp. unfold both_serve, ExhaustiveBank.serves in *. cbn [ex_filter fst snd] in *.
    destruct (servable_last max_equivalents max_infos s σ0 a rr er1 er2 Hp) as (Hsize&Hfit&Hlim&Hlen). rewrite Hlen.
    destruct (serving_step_apart _ _ s σ0 σ ef t f rr er1 er2 Ht Hf Hd Hsize Hfit Hlim) as (σ'&ef'&t'&Hrun&?&?&?).
    by exists σ', ef', (mk_exhaustive t').
  - intros a b [[rr er1] er2] σ ef [t] [f] (Ht&Hf&Hd) Hp. unfold both_serve, ExhaustiveBank.serves in *. cbn [ex_filter fst snd] in *.
    destruct (servable_last max_equivalents max_infos s σ0 b rr er1 er2 Hp) as (Hsize&Hfit&Hlim&Hlen). rewrite Hlen.
    assert (Hd' : forall x, x ∈ items (pqueue f) -> x ∉ items (pqueue t)) by (intros x Hx Hxt; by apply (Hd x)).
    destruct (serving_step_apart _ _ s σ0 σ ef f t rr er1 er2 Hf Ht Hd' Hsize Hfit Hlim) as (σ'&ef'&f'&Hrun&H1&H2&H3).
    exists σ', ef', (mk_exhaustive f'). split; [exact Hrun|]. split; [done|]. split; [done|]. intros x Hx Hxf. by apply (H3 x).
Qed.
Abbreviation queue_ready := (queue_ready hash_token hash_span max_equivalents).
Abbreviation chart_typed := (chart_typed max_equivalents).
Abbreviation handed_out := (BankFinalize.handed_out max_equivalents).

(** The finalized pair. *)
Lemma both_handed_out s σ0 a b σ ef t f ch max_filtered : both_serve s σ0 a b σ ef t f -> chart_typed σ0 ch ->
  ((length (app_triples a) + length (app_triples b)) * max_infos <= max_filtered)%nat ->
  exists f1, or_finalize (SpanFilter0 := exhaustive PT) (SpanFilter1 := exhaustive PF) σ ef (mk_or t f false) = Some (Ok (σ, ef, f1)) /\
    Items (true_filter f1) = Items t /\ Items (false_filter f1) = Items f /\
    handed_out max_filtered (or_ready queue_ready queue_ready) s σ ch f1 (Items f ++ Items t).
Proof.
  intros (Ht&Hf&Hd) Hch Hn. pose proof (serving_handed_out _ _ _ _ s σ0 σ _ ch _ Ht Hch (Nat.le_refl _)) as [T1 T2 T3 T4 T5].
  pose proof (serving_handed_out _ _ _ _ s σ0 σ _ ch _ Hf Hch (Nat.le_refl _)) as [F1 F2 F3 F4 F5].
  unfold or_finalize. cbn [sf_finalize SpanFilter.exhaustive_filter true_filter false_filter over_false ex_filter rbind mbind option_bind sf_empty].
  pose proof (exhaustive_drains hash_token hash_span max_equivalents (R := R) (P := PF) max_infos) as Hdr.
  pose proof (fd_empty max_equivalents (FilterDrains := Hdr) σ _ _ F1) as Hem. cbn [sf_empty SpanFilter.exhaustive_filter ex_filter] in Hem. rewrite Hem. cbn [mbind option_bind].
  eexists. split; [reflexivity|]. split; [done|]. split; [done|]. split.
  - exists (Items t), (Items f). split; [exact T1|]. split; [exact F1|]. done.
  - apply NoDup_app. split; [done|]. split; [|done]. intros x Hx Hxt. by apply (Hd x).
  - by apply Forall_app.
  - intros l [Hl|Hl]%elem_of_app; [by apply F4|by apply T4].
  - rewrite length_app. lia.
Qed.

Lemma servable_prefix s σ0 a b : servable s σ0 (a ++ b) -> servable s σ0 a.
Proof.
  unfold ExhaustiveBank.servable, app_triples. rewrite bind_app. intros ([Ha _]%Forall_app&Hfit&Hlim). split; [exact Ha|]. split.
  - intros r l1 l2 Hin. apply Hfit, elem_of_app. by left.
  - etrans; [|exact Hlim]. apply insertion_bound_le. rewrite length_app. lia.
Qed.

Lemma new_pair s σ ef (pt : PT) (pf : PF) t0 f0 : new_filter pt = Some (Ok t0) -> new_filter pf = Some (Ok f0) ->
  both_serve s σ [] [] σ ef (mk_exhaustive t0) (mk_exhaustive f0).
Proof.
  intros Ht0 Hf0. split; [exact (serving_create hash_token hash_span max_equivalents s σ pt t0 Ht0)|].
  split; [exact (serving_create hash_token hash_span max_equivalents s σ pf f0 Hf0)|].
  destruct (filter_beside_new hash_token hash_span max_equivalents σ t0 pt Ht0) as [_ Hi]. clear Ht0 Hf0.
  cbn [ex_filter]. rewrite Hi. by intros x ?%elem_of_nil.
Qed.

Lemma drain_filter_empties {F} `{!SpanFilter (score := score) (info_type := info_type) (R := R) F} (n : nat) : forall σ (f : F) ch σ' ch' f',
  drain_filter hash_token hash_span max_equivalents n σ f ch = Some (σ', ch', f') -> sf_empty f' = Some true.
Proof.
  induction n as [|n IH]; intros σ f ch σ' ch' f'; cbn [drain_filter]; (destruct (sf_empty f) as [[]|] eqn:E; cbn [mbind option_bind]; [|try done|done]).
  - by intros [= _ _ <-].
  - by intros [= _ _ <-].
  - destruct (sf_top f) as [l|]; cbn [mbind option_bind]; [|done]. destruct (Chart.chart_insert_equiv _ _ _ σ l ch) as [[σ1 ch1]|]; cbn [mbind option_bind]; [|done].
    destruct (sf_pop σ1 f) as [f1|]; cbn [mbind option_bind]; [|done]. apply IH.
Qed.

(** A new [or_filter] at a span takes every application that its two filters are
    good for, each rule going to the one or the other; finalized and emptied into the
    chart, every edge of both filters is kept there or bettered, and both are empty. *)
Theorem or_filter_serves (p : R -> bool) s σ ef ch apps (pt : PT) (pf : PF) t0 f0 max_filtered :
  new_filter pt = Some (Ok t0) -> new_filter pf = Some (Ok f0) -> chart_typed σ ch -> is_Some (span_container ch !! span_key s) ->
  servable s σ (select p apps) -> servable s σ (select (fun r => negb (p r)) apps) -> (length (app_triples apps) * max_infos <= max_filtered)%nat ->
  exists σ1 ef1 f1 σ2 ch2 f2,
    run_filter (SpanFilter0 := or_span_filter (SpanFilter0 := exhaustive PT) (SpanFilter1 := exhaustive PF) p) σ ef apps
      (create_or (fun _ => mk_exhaustive t0) (fun _ => mk_exhaustive f0) s) = Some (Ok (σ1, ef1, f1)) /\
    σ ⊆ σ1 /\
    drain_filter hash_token hash_span max_equivalents (SpanFilter0 := or_span_filter (SpanFilter0 := exhaustive PT) (SpanFilter1 := exhaustive PF) p)
      max_filtered σ1 f1 ch = Some (σ2, ch2, f2) /\
    or_empty (SpanFilter0 := exhaustive PT) (SpanFilter1 := exhaustive PF) f2 = Some true /\
    chart_grows max_equivalents (span_key s) σ1 ch σ2 ch2 /\
    (forall l i, l ∈ Items (false_filter f1) ++ Items (true_filter f1) -> σ1 !! l = Some i -> kept max_equivalents σ2 ch2 (span_key s) (m_rep i)).
Proof.
  intros Ht0 Hf0 Hch Hk HpT HpF Hn. pose proof (new_pair s σ ef pt pf t0 f0 Ht0 Hf0) as Hnew. clear Ht0 Hf0.
  destruct (runs_apply_all (SpanFilter0 := or_span_filter (SpanFilter0 := exhaustive PT) (SpanFilter1 := exhaustive PF) p) σ (or_permitted p (servable s σ) (servable s σ)) (or_taken p (both_serve s σ))
    apps) with (apps := @nil app) (σ := σ) (ef := ef) (f := mk_or (mk_exhaustive t0) (mk_exhaustive f0) false)
    as (σ1&ef1&[t f o]&Happ&[Ho Hboth]).
  - intros a b [H1 H2]. unfold or_permitted, select in *. rewrite bind_app in H1, H2. split; by eapply servable_prefix.
  - split; [done|exact Hnew].
  - by split.
  - cbn [over_false true_filter false_filter] in *. subst o. cbn [Datatypes.app] in Hboth.
    assert (Hsub : σ ⊆ σ1) by (destruct Hboth as ([Hb _]&_); apply (fb_sub _ _ _ _ _ _ _ Hb)).
    destruct (both_handed_out s σ _ _ σ1 ef1 t f ch max_filtered Hboth Hch) as (f1&Hfin&Hit&Hif&[H1 H2 H3 H4 H5]).
    { rewrite <- length_app, <- (Permutation_length (select_partition p apps)). exact Hn. }
    pose proof (exhaustive_drains hash_token hash_span max_equivalents (R := R) (P := PT) max_infos) as HdT.
    pose proof (exhaustive_drains hash_token hash_span max_equivalents (R := R) (P := PF) max_infos) as HdF.
    pose proof (or_drains max_equivalents (SpanFilter0 := exhaustive PT) (SpanFilter1 := exhaustive PF) p queue_ready queue_ready) as Hdr.
    destruct (drain_filter_ok hash_token hash_span max_equivalents (FilterDrains0 := Hdr) (or_ready queue_ready queue_ready) (span_key s) max_filtered _ σ1 f1 ch H1)
      as (σ2&ch2&f2&Hdrain&Hg&Hkept&_); [by eapply typed_subseteq|done..|].
    exists σ1, ef1, f1, σ2, ch2, f2. split; [unfold run_filter, create_or; rewrite Happ; exact Hfin|]. split; [done|]. split; [exact Hdrain|].
    split; [exact (drain_filter_empties _ _ _ _ _ _ _ Hdrain)|]. split; [exact Hg|]. rewrite Hit, Hif. exact Hkept.
Qed.
End exhaustive.

(** * A pair of filters

    A tag 1 before a tag 2 is a sentence, and a tag 3; the first goes to the filter of
    the toplevel tag. *)

#[local] Existing Instances BankParse.sentence_grammar BankParse.sentence_infos CubeHeap.sample_combine CubeHeap.cost_compare_sw.

Definition tag_edge (n l : Z) : Edge.edge (option Z) Z :=
  mk_edge (sample_tag n) 0 None None (Some 0) (Some 0) (mk_span l (l + 1)) 0.
Definition pair_store : equiv_store (option Z) Z :=
  <[1%positive := mk_equiv [] (tag_edge 1 0)]> {[2%positive := mk_equiv [] (tag_edge 2 1)]}.
Definition pair_chart : basic_chart (option Z) := mk_chart 2 {[(0, 2) := []]}.
Definition pair_apps : list (list Z * list positive * list positive) := [([3; 4], [1%positive], [2%positive])].
Abbreviation to_toplevel := (is_special_lhs (R := Z) indexed_token_top).
Abbreviation histogram_filter := (SpanFilter.exhaustive_filter typ_and_idx sample_hash_span 4 (R := Z) (P := histogram_predicate) 1).

(** What the pair puts into the chart, and which filter is emptied first. *)
Definition pair_run : option (list (indexed_token * option Z) * option indexed_token) :=
  match new_filter (score := option Z) (new_histogram 10) with
  | Some (Ok f0) =>
      match run_filter (SpanFilter0 := or_span_filter (SpanFilter0 := histogram_filter) (SpanFilter1 := histogram_filter) to_toplevel)
          pair_store sentence_factory pair_apps (create_or (fun _ => mk_exhaustive f0) (fun _ => mk_exhaustive f0) (mk_span 0 2)) with
      | Some (Ok (σ, _, f)) =>
          match drain_filter typ_and_idx sample_hash_span 4
              (SpanFilter0 := or_span_filter (SpanFilter0 := histogram_filter) (SpanFilter1 := histogram_filter) to_toplevel) 2 σ f pair_chart with
          | Some (σ', ch, _) => Some ((fun l => (rt (representative_edge σ' l), inside (representative_edge σ' l))) <$> span_members (mk_span 0 2) ch,
              (fun l => rt (representative_edge σ l)) <$> or_top (SpanFilter0 := histogram_filter) (SpanFilter1 := histogram_filter) f)
          | None => None
          end
      | _ => None
      end
  | _ => None
  end.

Example pair_ran : pair_run = Some ([(indexed_token_top, Some (-8)); (sample_tag 3, Some (-6))], Some (sample_tag 3)).
Proof. vm_compute. reflexivity. Qed.

Lemma pair_servable (p : Z -> bool) : servable 4 1 (mk_span 0 2) pair_store (select p pair_apps).
Proof.
  assert (Hfit : forall r, r ∈ [3; 4] -> rule_rhs_size r = 2 /\ fits 4 pair_store (mk_span 0 2) r 1%positive 2%positive).
  { intros r Hr. split; [|split; [apply sentence_lhs_ok|exists (mk_equiv [] (tag_edge 1 0)), (mk_equiv [] (tag_edge 2 1))]];
      rewrite !elem_of_cons, elem_of_nil in Hr; destruct Hr as [->|[->|[]]]; try done;
      (split; [done|]; split; [by repeat split; (constructor || done)|]; split; [done|]; split; [done|];
       split; [by repeat split; (constructor || done)|done]). }
  split; [|split].
  - unfold select, pair_apps, filter_rules. cbn [mbind list_bind fst snd]. rewrite !filter_cons, filter_nil.
    repeat case_decide; repeat constructor; discriminate.
  - intros r l1 l2. rewrite select_triples. intros [_ Hin]%list_elem_of_filter.
    change (app_triples pair_apps) with [(3, 1%positive, 2%positive); (4, 1%positive, 2%positive)] in Hin.
    rewrite !elem_of_cons, elem_of_nil in Hin. destruct Hin as [[= -> -> ->]|[[= -> -> ->]|[]]]; apply Hfit; [left|right; left].
  - rewrite select_triples. etrans; [apply insertion_bound_le, Nat.mul_le_mono_r, length_filter|]. vm_compute. discriminate.
Qed.

Lemma or_filter_serves_witness : exists f0 σ1 ef1 f1 σ2 ch2 f2,
  new_filter (score := option Z) (new_histogram 10) = Some (Ok f0) /\
  run_filter (SpanFilter0 := or_span_filter (SpanFilter0 := histogram_filter) (SpanFilter1 := histogram_filter) to_toplevel)
    pair_store sentence_factory pair_apps (create_or (fun _ => mk_exhaustive f0) (fun _ => mk_exhaustive f0) (mk_span 0 2)) = Some (Ok (σ1, ef1, f1)) /\
  drain_filter typ_and_idx sample_hash_span 4 (SpanFilter0 := or_span_filter (SpanFilter0 := histogram_filter) (SpanFilter1 := histogram_filter) to_toplevel)
    2 σ1 f1 pair_chart = Some (σ2, ch2, f2) /\
  or_empty (SpanFilter0 := histogram_filter) (SpanFilter1 := histogram_filter) f2 = Some true.
Proof.
  destruct (new_filter_ok (score := option Z) (info_type := Z) typ_and_idx sample_hash_span 4 (new_histogram 10) pair_store) as (f0&Hf0&_).
  destruct (or_filter_serves typ_and_idx sample_hash_span 4 (PT := histogram_predicate) (PF := histogram_predicate) 1 ltac:(vm_compute; discriminate)
    (fun σ r s e1 e2 => ex_intro _ _ (conj (yields_range _) (le_n 1))) to_toplevel (mk_span 0 2) pair_store sentence_factory pair_chart pair_apps
    (new_histogram 10) (new_histogram 10) f0 f0 2) as (σ1&ef1&f1&σ2&ch2&f2&H1&_&H2&H3&_).
  - exact Hf0.
  - exact Hf0.
  - intros k cs. unfold pair_chart. cbn [span_container]. rewrite lookup_singleton_Some. intros [_ <-]. exists []. split; constructor.
  - by eexists.
  - apply pair_servable.
  - apply pair_servable.
  - apply Nat.leb_le. vm_compute. reflexivity.
  - exists f0, σ1, ef1, f1, σ2, ch2, f2. exact (conj Hf0 (conj H1 (conj H2 H3))).
Defined.

(** A span that is not a block takes no rule but to a virtual tag: there is none here. *)
Lemma nested_filter_run_witness : exists f0 : predicate_edge_filter (score := option Z) (P := histogram_predicate),
  new_filter (score := option Z) (new_histogram 10) = Some (Ok f0) /\
  run_filter (SpanFilter0 := nested_span_filter (SpanFilter0 := histogram_filter)) pair_store sentence_factory pair_apps
    (create_negative_block (fun _ => mk_exhaustive f0) [mk_span 0 1; mk_span 1 2] (mk_span 0 2)) =
  Some (Ok (pair_store, sentence_factory, mk_nested (mk_exhaustive (filter_finalize f0)) (mk_negative_block true))).
Proof.
  destruct (new_filter_ok (score := option Z) (info_type := Z) typ_and_idx sample_hash_span 4 (new_histogram 10) pair_store) as (f0&Hf0&_).
  exists f0. split; [exact Hf0|]. unfold create_negative_block.
  rewrite (nested_filter_run (SpanFilter0 := histogram_filter) (mk_negative_block true) (fun r => negb true || is_virt_rule r) pair_apps pair_store
    sentence_factory (mk_exhaustive f0)).
  reflexivity.
Defined.
