(* ===== verification/BlockParser.v ===== *)
(** Parsing a lattice block by block: the tree of blocks ([lattice_tree] of
    src/sbmt_decoder/include/sbmt/search/block_lattice_tree.hpp and
    src/block_lattice_tree.cpp), the chart made of its leaves ([block_lattice_chart]),
    the bank that transforms spans ([transform_filter_bank]) and the recursive parse
    ([block_parse_cky]) of search/block_parser.hpp.

    A block is parsed as a sentence whose words are its children: the parse goes over
    the spans of the indices of the children's boundaries, and every span is transformed
    before the bank sees it.  After a block only the native tags of its span are left. *)
From S2P Require Import Prelude Span SpanGen ParseOrder OaTable OaHashtable PriorityTable PriorityQueue TokenStorage Token Edge EdgeEquivalence EdgeQueue FilterPredicate Chart ChartEquiv EdgeFilter SortedCube Generator CubeHeap RuleMap SpanFilter FilterBank GraphSearch UnaryFilter EquivSet UnaryApplications BankFinalize BankParse FilterCombinators.
Open Scope Z_scope.

(** * [lattice_tree] *)

(** [lattice_edge], without its features, which are text. *)
Record lattice_edge := mk_lattice_edge {
  le_span : span_t;
  le_source : indexed_token;
  le_rule_id : Z;
  le_syntax_rule_id : Z
}.

(** [leaf_node] and [internal_node] *)
#[warnings="-register-all"]
Inductive lattice_node :=
  | leaf_node (e : lattice_edge)
  | internal_node (spn : span_t) (children : list lattice_node).

Definition is_internal (n : lattice_node) : bool := match n with internal_node _ _ => true | leaf_node _ => false end.
Definition node_span (n : lattice_node) : span_t := match n with internal_node s _ => s | leaf_node e => le_span e end.

(** [lattice_tree::exception]: a leaf has no children, a block no edge. *)
Definition unsupported (call : string) : string := "function call " +:+ call +:+ " unsupported by type".
Definition node_children (n : lattice_node) : result (list lattice_node) :=
  match n with internal_node _ cs => Ok cs | leaf_node _ => Throw (unsupported "children_begin") end.
Definition lat_edge (n : lattice_node) : result lattice_edge :=
  match n with leaf_node e => Ok e | internal_node _ _ => Throw (unsupported "lat_edge") end.

(** The constructor of [internal_node] from a range of children. *)
Definition hull (children : list lattice_node) : span_t :=
  let first (f : span_t -> Z) := match children with c :: _ => f (node_span c) | [] => 0 end in
  span_ctor (foldl (fun m c => Z.min m (span_left (node_span c))) (first span_left) children)
            (foldl (fun m c => Z.max m (span_right (node_span c))) (first span_right) children).
Definition new_internal_node (children : list lattice_node) : lattice_node := internal_node (hull children) children.

(** [node::node()] *)
Definition new_node : lattice_node := internal_node (mk_span 0 0) [].

(** [visit_edges]: the edges that [v] is called on. *)
Fixpoint visit_edges (n : lattice_node) : list lattice_edge :=
  match n with
  | leaf_node e => [e]
  | internal_node _ cs => (fix visit cs := match cs with [] => [] | c :: cs => visit_edges c ++ visit cs end) cs
  end.

(** [id] and the features are left out. *)
Record lattice_tree := mk_lattice_tree { root : lattice_node; span_restrictions : list span_t }.
Definition has_span_restrictions (tree : lattice_tree) : bool := match span_restrictions tree with [] => false | _ => true end.

(** [std::set<span_index_t>::insert] *)
Fixpoint set_insert (x : Z) (l : list Z) : list Z :=
  match l with
  | [] => [x]
  | y :: l' => if x <? y then x :: l else if y <? x then y :: set_insert x l' else l
  end.

(** The set [sset] of [block_parse_cky::parse], which becomes the [span_transform]. *)
Definition boundaries (children : list lattice_node) : list Z :=
  foldl (fun s c => set_insert (span_right (node_span c)) (set_insert (span_left (node_span c)) s)) [] children.

(** [compute_blocks], as the spans it inserts. *)
Fixpoint compute_blocks (n : lattice_node) : list span_t :=
  match n with
  | leaf_node _ => []
  | internal_node s cs => s :: (fix compute cs := match cs with [] => [] | c :: cs => compute_blocks c ++ compute cs end) cs
  end.

(** * [transform_filter_bank]

    The bank [fb] behind it, whose state is lost with a failure or an exception. *)
Definition transform_bank {X} (t : list Z) `{!FilterBank (option (result X))} : FilterBank (option (result X)) := {|
  fb_apply_rules first_constit right_boundary st := x ⇐ st;
    s ← transform_span t first_constit; r ← transform_index t right_boundary; fb_apply_rules s r (Some (Ok x));
  fb_finalize s st := x ⇐ st; s ← transform_span t s; fb_finalize s (Some (Ok x))
|}.

(** * The parse of a lattice *)

Section block_parser.
Context {score info_type R G : Type} `{!ScoreOps score, !ScoreZero score, !InfoOps info_type}.
Context `{!Inhabited score, !Inhabited info_type}.
Abbreviation edge := (edge score info_type).
Abbreviation store := (equiv_store score info_type).
Abbreviation factory := (edge_factory score).
Abbreviation chart := (basic_chart score).
Context `{!GrammarOps R score edge store G, !Generator G (info_type * score * score)}.
Context `{!StdAlgorithms (alt_edge score), !StdAlgorithms (R * score), !StdAlgorithms positive, HC : !HashCombine}.
Context `{HG : !GraphAlgorithms}.
Context (hash_token : indexed_token -> Z) (hash_span : span_t -> Z) (max_equivalents : Z).
Abbreviation chart_insert_edge := (Chart.chart_insert_edge hash_token hash_span max_equivalents).
Abbreviation chart_insert_equiv := (Chart.chart_insert_equiv hash_token hash_span max_equivalents).
Implicit Types (σ : store) (e : edge) (ef : factory) (ch : chart) (s : span_t) (r : R).

(** ** [block_lattice_chart]

    [grammar_rule] is [gram.rule(id)].  The fuel of the loops: the infos of an
    application, and the edges of the queue. *)
Section lattice_chart.
Context (grammar_rule : Z -> R) (no_info : info_type) (max_infos max_edges : nat).
Abbreviation queue := edge_queue.

(** [while (gen) chart.insert_edge(epool, gen())] *)
Fixpoint chart_insert_generated (n : nat) σ (g : edge_generator score G) ef ch : option (store * factory * chart) :=
  if edge_generator_more g then
    match n with
    | O => None
    | S n => c ← edge_generator_call σ g ef;
             '(σ, ch) ← chart_insert_edge σ c.1.1 ch;
             chart_insert_generated n σ c.1.2 c.2 ch
    end
  else Some (σ, ef, ch).

(** [while (not edges.empty())]: the rule [br] applied to every edge of the queue. *)
Fixpoint insert_queued (n : nat) (br : R) σ ef ch q : option (store * factory * chart) :=
  em ← queue_empty q;
  if (em : bool) then Some (σ, ef, ch)
  else
    match n with
    | O => None
    | S n =>
        l ← queue_top q;
        gen2 ← create_unary_edge ef σ br (Some l);
        q ← queue_pop hash_token hash_span σ q;
        '(σ, ef, ch) ← chart_insert_generated max_infos σ gen2 ef ch;
        insert_queued n br σ ef ch q
    end.

(** What [init_chart] does with a leaf. *)
Definition init_leaf (le : lattice_edge) σ ef ch : option (result (store * factory * chart)) :=
  let '(f, ef) := create_word_edge no_info (le_source le) (le_span le) as_one ef in
  let '(fq, σ) := allocate σ (pool_create f) in
  let br := grammar_rule (le_rule_id le) in
  gen ← create_unary_edge ef σ br (Some fq);
  if le_syntax_rule_id le =? NULL_GRAMMAR_RULE_ID then
    '(σ, ef, ch) ← chart_insert_generated max_infos σ gen ef ch; Some (Ok (σ, ef, ch))
  else
    edges ⇐ new_edge_queue;
    let br := grammar_rule (le_syntax_rule_id le) in
    '(σ, ef, edges) ⇐ queue_generated hash_token hash_span max_equivalents max_infos σ gen ef edges;
    '(σ, ef, ch) ← insert_queued max_edges br σ ef ch edges; Some (Ok (σ, ef, ch)).

(** A leaf at the top does nothing. *)
Fixpoint init_node (n : lattice_node) σ ef ch : option (result (store * factory * chart)) :=
  match n with
  | leaf_node _ => Some (Ok (σ, ef, ch))
  | internal_node _ cs =>
      (fix init cs σ ef ch := match cs with
       | [] => Some (Ok (σ, ef, ch))
       | c :: cs => '(σ, ef, ch) ⇐ match c with leaf_node le => init_leaf le σ ef ch | internal_node _ _ => init_node c σ ef ch end;
                    init cs σ ef ch
       end) cs σ ef ch
  end.

Definition init_chart (tree : lattice_tree) σ ef ch : option (result (store * factory * chart)) :=
  ch ← chart_reset (span_right (node_span (root tree))) ch; init_node (root tree) σ ef ch.
End lattice_chart.

(** ** [remove_incomplete_edges] *)

(** The keepers, in the order of the cells. *)
Fixpoint keepers (cs : list (unordered_cell score)) σ : option (list positive) :=
  match cs with
  | [] => Some []
  | c :: cs => t ← cell_root σ c; ls ← keepers cs σ; Some (if is_native_tag t then edge_container c ++ ls else ls)
  end.

Fixpoint insert_equivs (ls : list positive) σ ch : option (store * chart) :=
  match ls with
  | [] => Some (σ, ch)
  | l :: ls => '(σ, ch) ← chart_insert_equiv σ l ch; insert_equivs ls σ ch
  end.

Definition remove_incomplete_edges s σ ch : option (store * chart) :=
  ls ← keepers (chart_cells s ch) σ;
  ch ← chart_clear_span s ch;
  insert_equivs ls σ ch.

(** ** [block_parse_cky] *)

Section parse_blocks.
Context (pow_tm pow_info : score -> score) (info_heuristic : R -> score) (all_rules : list R).
Context (grammar_rule : Z -> R) (gram_unary_rules gram_toplevel_unary_rules : indexed_token -> list R).
Context {UF : Type} `{!UnaryFilter (score := score) (info_type := info_type) (R := R) UF}.
Context {P : Type} `{!FilterPredicate (score := score) (info_type := info_type) P}.
Context (create_unary : span_t -> UF) (create_toplevel : span_t -> predicate_edge_filter (score := score) (P := P)).
Context (max_filtered max_infos max_edges max_collected : nat).

Section factory.
Context {F : Type} `{!SpanFilter (score := score) (info_type := info_type) (R := R) F}.
Context (create : span_t -> F).

(** The factories of the constructor of [transform_filter_bank], with [preserve_order] false. *)
Definition create_block_filter s : nested_filter F block_parser_own := mk_nested (create s) (mk_block_parser false).
Definition create_block_unary s : nested_filter UF block_parser_own := mk_nested (create_unary s) (mk_block_parser false).

Abbreviation block_state := (bank_state (score := score) (info_type := info_type) (R := R) (F := nested_filter F block_parser_own)).

#[export] Instance block_bank : FilterBank block_state :=
  bank_calls hash_token hash_span max_equivalents grammar_rule gram_unary_rules gram_toplevel_unary_rules
    create_block_filter create_block_unary create_toplevel max_filtered max_infos max_edges max_collected.

(** What a parse does with the bank of a block, and what is left of it. *)
Definition with_bank (total : span_t) (parse : block_state -> option block_state)
    σ ef ch : option (result (store * factory * chart)) :=
  b ← new_filter_bank pow_tm pow_info info_heuristic all_rules ch total;
  st ← parse (Some (Ok (σ, ef, b)));
  '(σ, ef, b) ⇐ st;
  '(σ, ch) ← remove_incomplete_edges total σ (bank_chart b);
  Some (Ok (σ, ef, ch)).

(** The end of [parse], after the children. *)
Definition parse_block (sset : list Z) (total : span_t) σ ef ch : option (result (store * factory * chart)) :=
  with_bank total
    (parse_cky (FilterBank0 := transform_bank sset) full_cky_generator (span_ctor 0 (Z.of_nat (length sset) - 1))) σ ef ch.

Fixpoint block_parse (n : lattice_node) (total : span_t) σ ef ch : option (result (store * factory * chart)) :=
  match n with
  | leaf_node _ => Some (Ok (σ, ef, ch))
  | internal_node _ cs =>
      '(σ, ef, ch) ⇐ (fix children cs σ ef ch := match cs with
        | [] => Some (Ok (σ, ef, ch))
        | c :: cs => '(σ, ef, ch) ⇐ block_parse c (node_span c) σ ef ch; children cs σ ef ch
        end) cs σ ef ch;
      parse_block (boundaries cs) total σ ef ch
  end.
End factory.

(** [block_parse_cky::operator()]; it does not use the generator it is given. *)
Definition block_parse_cky {F : Type} `{!SpanFilter (score := score) (info_type := info_type) (R := R) F} (create : span_t -> F)
    (tree : lattice_tree) (total_span : span_t) σ ef ch : option (result (store * factory * chart)) :=
  if has_span_restrictions tree
  then block_parse (create_negative_block create (span_restrictions tree)) (root tree) total_span σ ef ch
  else block_parse create (root tree) total_span σ ef ch.
End parse_blocks.

(** * Lemmas *)

(** ** The spans of a lattice *)

Lemma lattice_node_nested_ind (Q : lattice_node -> Prop) : (forall le, Q (leaf_node le)) ->
  (forall s cs, Forall Q cs -> Q (internal_node s cs)) -> forall n, Q n.
Proof.
  intros Hleaf Hint. fix IH 1. intros [le|s cs]; [apply Hleaf|]. apply Hint. induction cs as [|c cs IHcs]; constructor; [apply IH|exact IHcs].
Qed.

(** A span of at least one word whose ends are indices. *)
Definition proper (s : span_t) : Prop := 0 <= span_left s < span_right s /\ span_right s < 65535.

(** Leaves have proper spans, blocks have children and the hull of their spans. *)
#[warnings="-register-all"]
Inductive well_formed : lattice_node -> Prop :=
  | wf_leaf le : proper (le_span le) -> well_formed (leaf_node le)
  | wf_internal cs : cs <> [] -> Forall well_formed cs -> well_formed (new_internal_node cs).

Lemma foldl_min (f : lattice_node -> Z) cs : forall m, (foldl (fun m c => Z.min m (f c)) m cs = m \/ exists c, c ∈ cs /\ foldl (fun m c => Z.min m (f c)) m cs = f c) /\
  foldl (fun m c => Z.min m (f c)) m cs <= m /\ forall c, c ∈ cs -> foldl (fun m c => Z.min m (f c)) m cs <= f c.
Proof.
  induction cs as [|c cs IH]; intros m; cbn [foldl]; [split; [by left|]; split; [lia|by intros c ?%elem_of_nil]|].
  destruct (IH (Z.min m (f c))) as (Hm&Hle&Hall). split; [|split; [lia|]].
  - destruct Hm as [->|(c'&Hc'&->)]; [|right; exists c'; split; [by right|done]].
    destruct (Z.min_spec m (f c)) as [[_ ->]|[_ ->]]; [by left|right; exists c; split; [left|done]].
  - intros c' [->|Hc']%elem_of_cons; [lia|by apply Hall].
Qed.

Lemma foldl_max (f : lattice_node -> Z) cs : forall m, (foldl (fun m c => Z.max m (f c)) m cs = m \/ exists c, c ∈ cs /\ foldl (fun m c => Z.max m (f c)) m cs = f c) /\
  m <= foldl (fun m c => Z.max m (f c)) m cs /\ forall c, c ∈ cs -> f c <= foldl (fun m c => Z.max m (f c)) m cs.
Proof.
  induction cs as [|c cs IH]; intros m; cbn [foldl]; [split; [by left|]; split; [lia|by intros c ?%elem_of_nil]|].
  destruct (IH (Z.max m (f c))) as (Hm&Hle&Hall). split; [|split; [lia|]].
  - destruct Hm as [->|(c'&Hc'&->)]; [|right; exists c'; split; [by right|done]].
    destruct (Z.max_spec m (f c)) as [[_ ->]|[_ ->]]; [right; exists c; split; [left|done]|by left].
  - intros c' [->|Hc']%elem_of_cons; [lia|by apply Hall].
Qed.

(** The hull has the least and the greatest of the ends. *)
Lemma hull_ok cs : cs <> [] -> (forall c, c ∈ cs -> proper (node_span c)) -> proper (hull cs) /\
  (exists c, c ∈ cs /\ span_left (hull cs) = span_left (node_span c)) /\ (exists c, c ∈ cs /\ span_right (hull cs) = span_right (node_span c)) /\
  forall c, c ∈ cs -> span_left (hull cs) <= span_left (node_span c) /\ span_right (node_span c) <= span_right (hull cs).
Proof.
  intros Hne Hcs. destruct cs as [|c0 cs]; [done|]. clear Hne. unfold hull. cbv beta zeta iota.
  destruct (foldl_min (fun c => span_left (node_span c)) (c0 :: cs) (span_left (node_span c0))) as (Hm&_&Hmin).
  destruct (foldl_max (fun c => span_right (node_span c)) (c0 :: cs) (span_right (node_span c0))) as (HM&_&Hmax).
  assert (H1 : exists c, c ∈ c0 :: cs /\ foldl (fun m c => Z.min m (span_left (node_span c))) (span_left (node_span c0)) (c0 :: cs) = span_left (node_span c)).
  { destruct Hm as [->|Hm]; [exists c0; split; [left|done]|exact Hm]. }
  assert (H2 : exists c, c ∈ c0 :: cs /\ foldl (fun m c => Z.max m (span_right (node_span c))) (span_right (node_span c0)) (c0 :: cs) = span_right (node_span c)).
  { destruct HM as [->|HM]; [exists c0; split; [left|done]|exact HM]. }
  clear Hm HM. set (l := foldl _ _ _) in *. set (r := foldl (fun m c => Z.max m _) _ _) in *.
  destruct (H1) as (c1&Hc1&E1), (H2) as (c2&Hc2&E2). pose proof (Hcs c1 Hc1) as [? ?]. pose proof (Hcs c2 Hc2) as [? ?].
  pose proof (Hmin c2 Hc2). pose proof (Hmax c1 Hc1). cbv beta in *. rewrite span_ctor_small by lia.
  split; [unfold proper; cbn [span_left span_right]; lia|]. split; [exact H1|]. split; [exact H2|]. intros c Hc. split; [by apply Hmin|by apply Hmax].
Qed.

Lemma well_formed_proper n : well_formed n -> proper (node_span n).
Proof.
  induction n as [le|s cs IH] using lattice_node_nested_ind; intros Hn; inversion Hn as [?|? Hne Hcs]; subst; [done|].
  apply hull_ok; [done|]. intros c Hc. rewrite Forall_forall in IH, Hcs. by apply IH, Hcs.
Qed.

(** The words of a lattice are inside its span. *)
Lemma leaves_within n : well_formed n -> forall le, le ∈ visit_edges n ->
  proper (le_span le) /\ span_left (node_span n) <= span_left (le_span le) /\ span_right (le_span le) <= span_right (node_span n).
Proof.
  induction n as [le0|s cs IH] using lattice_node_nested_ind; intros Hn le Hle; cbn [visit_edges] in Hle.
  - apply list_elem_of_singleton in Hle as ->. inversion Hn; subst. cbn [node_span]. split; [done|lia].
  - pose proof (well_formed_proper _ Hn) as Hproper. inversion Hn as [|? Hne Hcs]; subst. cbn [node_span] in *.
    assert (Hin : exists c, c ∈ cs /\ le ∈ visit_edges c).
    { clear -Hle. induction cs as [|c cs IH]; [by apply elem_of_nil in Hle|]. apply elem_of_app in Hle as [Hle|Hle]; [exists c; split; [left|done]|].
      destruct (IH Hle) as (c'&?&?). exists c'. split; [by right|done]. }
    destruct Hin as (c&Hc&Hlc). rewrite Forall_forall in IH, Hcs.
    destruct (IH c Hc (Hcs c Hc) le Hlc) as (Hp&H1&H2). destruct (hull_ok cs Hne) as (_&_&_&Hall); [intros d Hd; by apply well_formed_proper, Hcs|].
    destruct (Hall c Hc). split; [done|]. cbn [new_internal_node node_span]. lia.
Qed.

(** *** The indices of a block *)

Lemma elem_of_set_insert x y l : y ∈ set_insert x l <-> y = x \/ y ∈ l.
Proof.
  induction l as [|z l IH]; cbn [set_insert]; [by rewrite list_elem_of_singleton, elem_of_nil; tauto|].
  destruct (Z.ltb_spec x z); [rewrite !elem_of_cons; tauto|]. destruct (Z.ltb_spec z x); rewrite !elem_of_cons, ?IH; [tauto|].
  assert (x = z) as -> by lia. tauto.
Qed.

Lemma set_insert_sorted x l : StronglySorted Z.lt l -> StronglySorted Z.lt (set_insert x l).
Proof.
  induction 1 as [|z l Hl IH Hz]; cbn [set_insert]; [repeat constructor|].
  destruct (Z.ltb_spec x z); [|destruct (Z.ltb_spec z x)].
  - constructor; [by constructor|]. constructor; [done|]. eapply Forall_impl; [exact Hz|]. intros y Hy. cbv beta in *. lia.
  - constructor; [exact IH|]. rewrite Forall_forall in Hz. apply Forall_forall. intros y [->|Hy]%elem_of_set_insert; [done|by apply Hz].
  - by constructor.
Qed.

Lemma boundaries_from cs : forall acc : list Z, StronglySorted Z.lt acc ->
  let t := foldl (fun (acc : list Z) c => set_insert (span_right (node_span c)) (set_insert (span_left (node_span c)) acc)) acc cs in
  StronglySorted Z.lt t /\ forall x, x ∈ t <-> x ∈ acc \/ exists c, c ∈ cs /\ (x = span_left (node_span c) \/ x = span_right (node_span c)).
Proof.
  induction cs as [|c cs IH]; intros acc Hs t.
  - split; [done|]. intros x. split; [by left|]. intros [?|(c&?%elem_of_nil&_)]; done.
  - destruct (IH (set_insert (span_right (node_span c)) (set_insert (span_left (node_span c)) acc))) as [Ht Hx]; [by do 2 apply set_insert_sorted|].
    split; [exact Ht|]. intros x. unfold t. cbn [foldl]. rewrite Hx, !elem_of_set_insert. setoid_rewrite elem_of_cons.
    split; [intros [[?|[?|?]]|(c'&?&?)]; eauto 6|]. intros [?|(c'&[->|?]&[?|?])]; eauto 6.
Qed.

Lemma boundaries_sorted cs : StronglySorted Z.lt (boundaries cs).
Proof. by apply (boundaries_from cs []); constructor. Qed.

Lemma elem_of_boundaries x cs : x ∈ boundaries cs <-> exists c, c ∈ cs /\ (x = span_left (node_span c) \/ x = span_right (node_span c)).
Proof.
  rewrite (proj2 (boundaries_from cs [] ltac:(constructor)) x). rewrite elem_of_nil. tauto.
Qed.

Lemma sorted_length l : StronglySorted Z.lt l -> forall a b, Forall (fun x => a <= x < b) l -> (length l <= Z.to_nat (b - a))%nat.
Proof.
  induction 1 as [|x l Hl IH Hx]; intros a b Hab; cbn [length]; [lia|]. apply Forall_cons in Hab as [Hxab Hab].
  assert (Hlen : (length l <= Z.to_nat (b - (x + 1)))%nat); [|lia]. apply IH. rewrite Forall_forall in Hx, Hab. apply Forall_forall.
  intros y Hy. specialize (Hx y Hy). specialize (Hab y Hy). lia.
Qed.

(** The index of an end. *)
Lemma block_indices cs : cs <> [] -> (forall c, c ∈ cs -> proper (node_span c)) ->
  Forall (fun x => 0 <= x < 65535) (boundaries cs) /\ 2 <= Z.of_nat (length (boundaries cs)) <= 65535 /\
  boundaries cs !! 0%nat = Some (span_left (hull cs)) /\ boundaries cs !! (length (boundaries cs) - 1)%nat = Some (span_right (hull cs)).
Proof.
  intros Hne Hcs. destruct (hull_ok cs Hne Hcs) as ([Hlr Hr]&(c1&Hc1&El)&(c2&Hc2&Er)&Hall). pose proof (boundaries_sorted cs) as Hs.
  assert (Hin : forall x, x ∈ boundaries cs -> span_left (hull cs) <= x <= span_right (hull cs)).
  { intros x (c&Hc&Hx)%elem_of_boundaries. destruct (Hall c Hc). destruct (Hcs c Hc). destruct Hx; lia. }
  assert (H1 : span_left (hull cs) ∈ boundaries cs) by (apply elem_of_boundaries; exists c1; split; [done|by left]).
  assert (H2 : span_right (hull cs) ∈ boundaries cs) by (apply elem_of_boundaries; exists c2; split; [done|by right]).
  apply list_elem_of_lookup in H1 as [i Hi], H2 as [j Hj]. pose proof (lookup_lt_Some _ _ _ Hi) as Hil. pose proof (lookup_lt_Some _ _ _ Hj) as Hjl.
  assert (Hi0 : i = 0%nat).
  { destruct i as [|i]; [done|]. destruct (lookup_lt_is_Some_2 (boundaries cs) 0%nat ltac:(lia)) as [x Hx].
    pose proof (StronglySorted_lookup_lt _ _ 0%nat (S i) _ _ Hs Hx Hi ltac:(lia)). pose proof (Hin x (list_elem_of_lookup_2 _ _ _ Hx)). lia. }
  assert (Hjn : j = (length (boundaries cs) - 1)%nat).
  { destruct (decide (j = length (boundaries cs) - 1)%nat) as [|Hj']; [done|].
    destruct (lookup_lt_is_Some_2 (boundaries cs) (length (boundaries cs) - 1)%nat ltac:(lia)) as [x Hx].
    pose proof (StronglySorted_lookup_lt _ _ j _ _ _ Hs Hj Hx ltac:(lia)). pose proof (Hin x (list_elem_of_lookup_2 _ _ _ Hx)). lia. }
  assert (Hne' : i <> j) by (intros E; assert (span_left (hull cs) = span_right (hull cs)) by congruence; lia). subst i j.
  split; [apply Forall_forall; intros x Hx; pose proof (Hin x Hx); destruct (Hcs c1 Hc1); lia|]. split; [split; [lia|]|by split].
  pose proof (sorted_length (boundaries cs) Hs (span_left (hull cs)) (span_right (hull cs) + 1)) as Hlen.
  destruct (Hcs c1 Hc1). destruct (Hcs c2 Hc2). enough (length (boundaries cs) <= Z.to_nat (span_right (hull cs) + 1 - span_left (hull cs)))%nat by lia.
  apply Hlen, Forall_forall. intros x Hx. pose proof (Hin x Hx). lia.
Qed.

(** ** The bank that transforms *)

(** A bank does nothing more after a failure or an exception. *)
Class StrictBank {X} `{!FilterBank (option (result X))} : Prop := {
  sb_apply_failed s right : fb_apply_rules s right (None : option (result X)) = None;
  sb_finalize_failed s : fb_finalize s (None : option (result X)) = None;
  sb_apply_thrown s right m : fb_apply_rules s right (Some (Throw m) : option (result X)) = Some (Throw m);
  sb_finalize_thrown s m : fb_finalize s (Some (Throw m) : option (result X)) = Some (Throw m)
}.

Definition at_index (t : list Z) (i : Z) : Z := default 0 (t !! Z.to_nat i).
Definition image (t : list Z) s : span_t := mk_span (at_index t (span_left s)) (at_index t (span_right s)).
Definition image_call (t : list Z) (c : fb_call) : fb_call :=
  match c with ApplyRules s r => ApplyRules (image t s) (at_index t r) | Finalize s => Finalize (image t s) end.

(** The calls for the span from the boundary [i] to the boundary [j], and for a block. *)
Definition coarse_calls (t : list Z) (i j : Z) : list fb_call :=
  ((fun m => ApplyRules (mk_span (at_index t i) (at_index t m)) (at_index t j)) <$> seqZ (i + 1) (j - i - 1)) ++
  [Finalize (mk_span (at_index t i) (at_index t j))].
Definition block_calls (t : list Z) : list fb_call :=
  let k := Z.of_nat (length t) - 1 in
  (seqZ 1 k ≫= fun len => seqZ 0 (k - len + 1) ≫= fun i => coarse_calls t i (i + len)) ++
  [Finalize (mk_span (at_index t 0) (at_index t k))].

Definition index_ok (t : list Z) (i : Z) : Prop := 0 <= i < Z.of_nat (length t).
Definition span_indices (t : list Z) s : Prop := index_ok t (span_left s) /\ index_ok t (span_right s).
Definition call_indices (t : list Z) (c : fb_call) : Prop :=
  match c with ApplyRules s r => span_indices t s /\ index_ok t r | Finalize s => span_indices t s end.

Section transforming.
Context (t : list Z) (Ht : Forall (fun x => 0 <= x < 65535) t).

Lemma transform_index_at i : index_ok t i -> transform_index t i = Some (at_index t i).
Proof.
  intros Hi. unfold transform_index, at_index. unfold index_ok in Hi.
  destruct (lookup_lt_is_Some_2 t (Z.to_nat i) ltac:(lia)) as [x Hx]. by rewrite Hx.
Qed.

Lemma at_index_bounds i : index_ok t i -> 0 <= at_index t i < 65535.
Proof.
  intros Hi%transform_index_at. rewrite Forall_forall in Ht. apply Ht. by eapply list_elem_of_lookup_2.
Qed.

Lemma transform_span_image s : span_indices t s -> transform_span t s = Some (image t s).
Proof.
  intros [Hl Hr]. unfold transform_span. rewrite (transform_index_at _ Hl), (transform_index_at _ Hr). cbn [mbind option_bind].
  pose proof (at_index_bounds _ Hl). pose proof (at_index_bounds _ Hr). by rewrite span_ctor_small by lia.
Qed.

Lemma run_transformed {X} `{!FilterBank (option (result X)), !StrictBank (X := X)} calls : Forall (call_indices t) calls ->
  forall st : option (result X), run_calls (FilterBank0 := transform_bank t) calls st = run_calls (image_call t <$> calls) st.
Proof.
  induction 1 as [|c calls Hc Hcalls IH]; intros st; [done|].
  change (run_calls (FilterBank0 := transform_bank t) calls (run_call (FilterBank0 := transform_bank t) st c) =
    run_calls (image_call t <$> calls) (run_call st (image_call t c))).
  rewrite IH. f_equal. destruct c as [s r|s]; cbn [run_call image_call fb_apply_rules fb_finalize transform_bank call_indices] in *.
  - destruct Hc as [Hs Hr]. destruct st as [[x|m]|]; cbn [rbind mbind option_bind].
    + by rewrite transform_span_image, transform_index_at.
    + by rewrite sb_apply_thrown.
    + by rewrite sb_apply_failed.
  - destruct st as [[x|m]|]; cbn [rbind mbind option_bind].
    + by rewrite transform_span_image.
    + by rewrite sb_finalize_thrown.
    + by rewrite sb_finalize_failed.
Qed.
End transforming.

Lemma fmap_bind_ext {A B C} (f : B -> C) (g : A -> list B) (h : A -> list C) (l : list A) : (forall x, x ∈ l -> f <$> g x = h x) -> f <$> (l ≫= g) = l ≫= h.
Proof.
  induction l as [|x l IH]; intros Hl; [done|]. cbn [mbind list_bind]. rewrite fmap_app, Hl by left. f_equal. apply IH. intros y Hy. apply Hl. by right.
Qed.

Section block_calls.
Context (t : list Z) (Hlen : 2 <= Z.of_nat (length t) <= 65535).
Abbreviation last := (Z.of_nat (length t) - 1).
Abbreviation words := (mk_span 0 last).

Lemma words_ok : span_ok words /\ span_length words = last.
Proof. assert (Hok : span_ok words) by (unfold span_ok; cbn [span_left span_right]; lia). split; [done|]. rewrite length_ok by done. cbn [span_left span_right]. lia. Qed.

Lemma image_span_calls i j : image_call t <$> span_calls (mk_span i j) = coarse_calls t i j.
Proof.
  unfold span_calls, coarse_calls, all_splits. rewrite fmap_app. f_equal. rewrite <- !list_fmap_compose. done.
Qed.

Lemma image_cky_calls : image_call t <$> (cky_calls words ++ [Finalize words]) = block_calls t.
Proof.
  destruct words_ok as [_ Hw]. unfold block_calls, cky_calls. rewrite fmap_app, Hw. f_equal. apply fmap_bind_ext. intros len _.
  unfold all_shifts. rewrite list_fmap_bind. cbn [span_left span_right]. rewrite Z.sub_0_r.
  apply fmap_bind_ext. intros i _. apply image_span_calls.
Qed.

Lemma cky_calls_indices : Forall (call_indices t) (cky_calls words ++ [Finalize words]).
Proof.
  destruct words_ok as [Hok Hw]. apply Forall_app. split; [|constructor; [|constructor]; unfold call_indices, span_indices, index_ok; cbn [span_left span_right]; lia].
  unfold cky_calls. rewrite Hw. apply Forall_forall. intros c (len&(s&Hc&Hs)%list_elem_of_bind&Hlen'%elem_of_seqZ)%list_elem_of_bind.
  apply elem_of_all_shifts in Hs as (i&->&Hi1&Hi2). cbn [span_left span_right] in Hi1, Hi2.
  unfold span_calls in Hc. apply elem_of_app in Hc as [Hc|Hc].
  - apply list_elem_of_fmap in Hc as (q&->&(m&->&Hm%elem_of_seqZ)%list_elem_of_fmap). cbn [span_left span_right] in Hm.
    unfold call_indices, span_indices, index_ok, split_at. cbn [fst snd span_left span_right]. lia.
  - apply list_elem_of_singleton in Hc as ->. unfold call_indices, span_indices, index_ok. cbn [span_left span_right]. lia.
Qed.

(** The parse over the indices is the calls for the boundaries. *)
Lemma parse_transformed {X} `{!FilterBank (option (result X)), !StrictBank (X := X)} (st : option (result X)) : Forall (fun x => 0 <= x < 65535) t ->
  parse_cky (FilterBank0 := transform_bank t) full_cky_generator (span_ctor 0 last) st = Some (run_calls (block_calls t) st).
Proof.
  intros Ht. rewrite span_ctor_small by lia. destruct words_ok as [Hok Hw]. rewrite parse_cky_calls by (done || lia).
  by rewrite (run_transformed t Ht) by apply cky_calls_indices; rewrite image_cky_calls.
Qed.
End block_calls.

(** The span of a child is one of those that the block is parsed for, and the last is its own. *)
Lemma block_calls_spans cs : cs <> [] -> (forall c, c ∈ cs -> proper (node_span c)) ->
  (forall c, c ∈ cs -> Finalize (node_span c) ∈ block_calls (boundaries cs)) /\
  exists before, block_calls (boundaries cs) = before ++ [Finalize (hull cs)].
Proof.
  intros Hne Hcs. destruct (block_indices cs Hne Hcs) as (_&Hlen&H0&Hlast). pose proof (boundaries_sorted cs) as Hs. split.
  - intros c Hc. unfold block_calls. apply elem_of_app. left.
    assert (Hl : span_left (node_span c) ∈ boundaries cs) by (apply elem_of_boundaries; exists c; split; [done|by left]).
    assert (Hr : span_right (node_span c) ∈ boundaries cs) by (apply elem_of_boundaries; exists c; split; [done|by right]).
    apply list_elem_of_lookup in Hl as [i Hi], Hr as [j Hj]. pose proof (lookup_lt_Some _ _ _ Hi). pose proof (lookup_lt_Some _ _ _ Hj).
    assert (Hij : (i < j)%nat).
    { destruct (Hcs c Hc) as [? _]. destruct (decide (i < j)%nat) as [|Hji]; [done|]. destruct (decide (i = j)) as [->|Hne'].
      - rewrite Hi in Hj. injection Hj as Hj. lia.
      - pose proof (StronglySorted_lookup_lt _ _ j i _ _ Hs Hj Hi ltac:(lia)). lia. }
    apply list_elem_of_bind. exists (Z.of_nat j - Z.of_nat i). split; [|apply elem_of_seqZ; lia].
    apply list_elem_of_bind. exists (Z.of_nat i). split; [|apply elem_of_seqZ; lia].
    unfold coarse_calls. apply elem_of_app. right. apply list_elem_of_singleton. f_equal. unfold at_index.
    replace (Z.to_nat (Z.of_nat i + (Z.of_nat j - Z.of_nat i))) with j by lia. rewrite Nat2Z.id, Hi, Hj. cbn [default]. by destruct (node_span c).
  - eexists. unfold block_calls. f_equal. do 2 f_equal. unfold at_index.
    replace (Z.to_nat (Z.of_nat (length (boundaries cs)) - 1)) with (length (boundaries cs) - 1)%nat by lia. change (Z.to_nat 0) with 0%nat.
    rewrite H0, Hlast. cbn [default]. by destruct (hull cs).
Qed.

(** ** What is kept of a block *)

Section keeping.
Context `{!StdAlgorithmLaws (alt_edge score), !InfoLaws info_type, !StrictWeak (score_lt (S := score)), !ScoreZeroLaws score}.
Abbreviation chart_typed := (chart_typed max_equivalents).
Abbreviation span_changes := (span_changes max_equivalents).
Abbreviation at_key := (at_key max_equivalents).

Definition native σ (l : positive) : Prop := is_native_tag (root_of σ l) = true.
#[export] Instance native_dec σ l : Decision (native σ l) := decide (is_native_tag (root_of σ l) = true).

Lemma keepers_filter σ k ts cs : Forall2 (cell_ok max_equivalents σ k) ts cs -> keepers cs σ = Some (filter (native σ) (cs ≫= edge_container)).
Proof.
  induction 1 as [|t c ts cs Hc Hcs IH]; [done|]. cbn [keepers mbind list_bind]. rewrite (cell_root_ok max_equivalents σ k t c Hc), IH. cbn [mbind option_bind].
  rewrite filter_app. destruct Hc as (_&_&Hl&_). assert (Hroot : forall l, l ∈ edge_container c -> root_of σ l = t).
  { intros l Hin. destruct (Hl l Hin) as (i&Hi&_&_&<-). unfold root_of. by rewrite (representative_edge_lookup σ l i Hi). }
  f_equal. destruct (is_native_tag t) eqn:E.
  - rewrite (filter_same _ (edge_container c)); [done|]. intros l Hin. unfold native. by rewrite Hroot.
  - rewrite (filter_all_out _ (edge_container c)); [done|]. intros l Hin. unfold native. by rewrite Hroot, E.
Qed.

Lemma members_at_key σ s ch : chart_typed σ ch -> Forall (at_key σ (span_key s)) (span_members s ch).
Proof.
  intros Ht. apply Forall_forall. intros l Hl. rewrite <- in_chart_members in Hl.
  destruct (member_typed max_equivalents σ ch _ l Ht Hl) as (i&?&?&?). by exists i.
Qed.

Lemma insert_equivs_ok ls0 k σ : Forall (at_key σ k) ls0 -> distinct σ ls0 -> forall ls ch, chart_typed σ ch ->
  (forall x, in_chart ch k x -> x ∈ ls0) -> (forall x, x ∈ ls -> x ∈ ls0 /\ ~ in_chart ch k x) -> NoDup ls -> is_Some (span_container ch !! k) ->
  exists ch', insert_equivs ls σ ch = Some (σ, ch') /\ span_changes k σ ch σ ch' /\ forall x, in_chart ch' k x <-> in_chart ch k x \/ x ∈ ls.
Proof.
  intros Hat Hd. induction ls as [|l ls IH]; intros ch Ht Hsub Hls Hnd Hk.
  - exists ch. split; [done|]. split; [apply (span_changes_store max_equivalents); [done|apply (improves_refl max_equivalents)]|]. intros x. rewrite elem_of_nil. tauto.
  - apply NoDup_cons in Hnd as [Hl Hnd]. destruct (Hls l ltac:(left)) as [Hl0 Hno].
    destruct (chart_insert_new hash_token hash_span max_equivalents ls0 σ l k ch Ht Hat Hd Hsub Hl0 Hno Hk) as (ch1&Hrun&Hg&Hin).
    destruct (IH ch1) as (ch2&Hrun2&Hc2&Hin2).
    + apply Hg.
    + intros x [Hx| ->]%Hin; [by apply Hsub|done].
    + intros x Hx. split; [apply Hls; by right|]. intros [Hx1| ->]%Hin; [|done]. by apply (Hls x ltac:(by right)).
    + done.
    + eapply (span_kept max_equivalents); [eapply grows_changes, Hg|done].
    + exists ch2. cbn [insert_equivs]. rewrite Hrun. split; [exact Hrun2|]. split.
      * eapply (span_changes_trans max_equivalents); [eapply grows_changes, Hg|exact Hc2].
      * intros x. rewrite Hin2, Hin, elem_of_cons. tauto.
Qed.

(** C11: after a block, the equivalences of its span that stay in the chart are those of
    the native tags; no other span and no equivalence is changed. *)
Theorem remove_incomplete_edges_keeps s σ ch : chart_typed σ ch -> is_Some (span_container ch !! span_key s) ->
  exists ch', remove_incomplete_edges s σ ch = Some (σ, ch') /\ span_changes (span_key s) σ ch σ ch' /\
    forall l, in_chart ch' (span_key s) l <-> in_chart ch (span_key s) l /\ native σ l.
Proof.
  intros Ht Hk. destruct (chart_clear_span_ok max_equivalents s σ ch Ht Hk) as (ch1&Hclear&Hc1&Hnone).
  assert (Hkeep : keepers (chart_cells s ch) σ = Some (filter (native σ) (span_members s ch))).
  { unfold span_members, chart_cells. destruct Hk as [cs Hcs]. rewrite Hcs. cbn [default]. destruct (Ht _ _ Hcs) as (ts&Hts&_). by eapply keepers_filter. }
  destruct (insert_equivs_ok (span_members s ch) (span_key s) σ (members_at_key σ s ch Ht) (members_distinct max_equivalents σ s ch Ht)
    (filter (native σ) (span_members s ch)) ch1) as (ch2&Hrun&Hc2&Hin).
  - apply Hc1.
  - intros x Hx. by apply Hnone in Hx.
  - intros x [_ Hx]%list_elem_of_filter. split; [done|apply Hnone].
  - apply NoDup_filter. by apply (members_NoDup max_equivalents σ).
  - by eapply (span_kept max_equivalents).
  - exists ch2. unfold remove_incomplete_edges. rewrite Hkeep, Hclear. cbn [mbind option_bind]. split; [exact Hrun|]. split.
    + by apply (span_changes_trans max_equivalents _ σ ch σ ch1).
    + intros l. rewrite Hin, list_elem_of_filter, (in_chart_members s ch). split; [intros [Hl|]; [by apply Hnone in Hl|tauto]|tauto].
Qed.
End keeping.

(** ** The blocks in their order *)

(** The blocks below a node, each after the blocks in it, with the spans they are
    finished at. *)
Fixpoint blocks (n : lattice_node) (total : span_t) : list (list Z * span_t) :=
  match n with
  | leaf_node _ => []
  | internal_node _ cs =>
      (fix below cs := match cs with [] => [] | c :: cs => blocks c (node_span c) ++ below cs end) cs ++ [(boundaries cs, total)]
  end.

Section order.
Context (pow_tm pow_info : score -> score) (info_heuristic : R -> score) (all_rules : list R).
Context (grammar_rule : Z -> R) (gram_unary_rules gram_toplevel_unary_rules : indexed_token -> list R).
Context {UF : Type} `{!UnaryFilter (score := score) (info_type := info_type) (R := R) UF}.
Context {P : Type} `{!FilterPredicate (score := score) (info_type := info_type) P}.
Context (create_unary : span_t -> UF) (create_toplevel : span_t -> predicate_edge_filter (score := score) (P := P)).
Context (max_filtered max_infos max_edges max_collected : nat).
Context {F : Type} `{!SpanFilter (score := score) (info_type := info_type) (R := R) F} (create : span_t -> F).
Abbreviation parse_lattice := (block_parse pow_tm pow_info info_heuristic all_rules grammar_rule gram_unary_rules gram_toplevel_unary_rules
  create_unary create_toplevel max_filtered max_infos max_edges max_collected create).
Abbreviation finish_block := (parse_block pow_tm pow_info info_heuristic all_rules grammar_rule gram_unary_rules gram_toplevel_unary_rules
  create_unary create_toplevel max_filtered max_infos max_edges max_collected create).
Abbreviation in_bank := (with_bank pow_tm pow_info info_heuristic all_rules (F := F)).
Abbreviation bank_of := (block_bank grammar_rule gram_unary_rules gram_toplevel_unary_rules
  create_unary create_toplevel max_filtered max_infos max_edges max_collected create).

#[export] Instance block_bank_strict : StrictBank (FilterBank0 := bank_of).
Proof. by split. Qed.

(** One block after another: a bank of its own, the calls for its boundaries, and what
    is kept. *)
Fixpoint run_blocks (bs : list (list Z * span_t)) σ ef ch : option (result (store * factory * chart)) :=
  match bs with
  | [] => Some (Ok (σ, ef, ch))
  | (t, total) :: bs => '(σ, ef, ch) ⇐ in_bank total (fun st => Some (run_calls (FilterBank0 := bank_of) (block_calls t) st)) σ ef ch; run_blocks bs σ ef ch
  end.

Lemma run_blocks_app bs bs' : forall σ ef ch, run_blocks (bs ++ bs') σ ef ch = '(σ, ef, ch) ⇐ run_blocks bs σ ef ch; run_blocks bs' σ ef ch.
Proof.
  induction bs as [|[t total] bs IH]; intros σ ef ch; [done|]. cbn [app run_blocks].
  destruct (in_bank total _ σ ef ch) as [[[[σ1 ef1] ch1]|m]|]; [apply IH|done|done].
Qed.

Lemma in_bank_ext total p q σ ef ch : (forall st, p st = q st) -> in_bank total p σ ef ch = in_bank total q σ ef ch.
Proof. intros Hpq. unfold with_bank. destruct (new_filter_bank _ _ _ _ ch total) as [b|]; [|done]. cbn [mbind option_bind]. by rewrite Hpq. Qed.

Lemma run_one_block t total σ ef ch : run_blocks [(t, total)] σ ef ch =
  in_bank total (fun st => Some (run_calls (FilterBank0 := bank_of) (block_calls t) st)) σ ef ch.
Proof. cbn [run_blocks]. by destruct (in_bank total _ σ ef ch) as [[[[σ1 ef1] ch1]|m]|]. Qed.

Lemma parse_block_calls cs total σ ef ch : cs <> [] -> (forall c, c ∈ cs -> proper (node_span c)) ->
  finish_block (boundaries cs) total σ ef ch = run_blocks [(boundaries cs, total)] σ ef ch.
Proof.
  intros Hne Hcs. destruct (block_indices cs Hne Hcs) as (Hall&Hlen&_). rewrite run_one_block. unfold parse_block.
  apply in_bank_ext. intros st. exact (parse_transformed (boundaries cs) Hlen st Hall).
Qed.

(** C4: the parse of a lattice is the parse of its blocks, the inner ones first, each
    with a bank of its own that is called for the spans between the boundaries of its
    children, as the loop of the parse orders them; of each block the native tags are
    kept. *)
Theorem block_parse_refines n : well_formed n -> forall total σ ef ch, parse_lattice n total σ ef ch = run_blocks (blocks n total) σ ef ch.
Proof.
  induction n as [le|s cs IH] using lattice_node_nested_ind; intros Hn total σ ef ch; [done|].
  inversion Hn as [|? Hne Hcs E]; subst. cbn [block_parse blocks]. rewrite run_blocks_app.
  assert (Hproper : forall c, c ∈ cs -> proper (node_span c)).
  { intros c Hc. rewrite Forall_forall in Hcs. by apply well_formed_proper, Hcs. }
  assert (Hb : forall σ ef ch, finish_block (boundaries cs) total σ ef ch = run_blocks [(boundaries cs, total)] σ ef ch) by (intros; by apply parse_block_calls).
  enough (forall ds, Forall (fun c => well_formed c -> forall total σ ef ch, parse_lattice c total σ ef ch = run_blocks (blocks c total) σ ef ch) ds -> Forall well_formed ds ->
    forall σ ef ch, (fix children cs σ ef ch := match cs with
        | [] => Some (Ok (σ, ef, ch))
        | c :: cs => '(σ, ef, ch) ⇐ parse_lattice c (node_span c) σ ef ch; children cs σ ef ch
        end) ds σ ef ch =
      run_blocks ((fix below cs := match cs with [] => [] | c :: cs => blocks c (node_span c) ++ below cs end) ds) σ ef ch) as Hds.
  { rewrite (Hds cs IH Hcs). destruct (run_blocks _ σ ef ch) as [[[[σ1 ef1] ch1]|m]|]; [apply Hb|done|done]. }
  induction ds as [|d ds IHds]; intros Hd Hw; [done|]. apply Forall_cons in Hd as [Hd Hds], Hw as [Hwd Hws]. intros σ1 ef1 ch1.
  rewrite run_blocks_app, (Hd Hwd). destruct (run_blocks (blocks d _) σ1 ef1 ch1) as [[[[σ2 ef2] ch2]|m]|]; [by apply IHds|done|done].
Qed.
End order.

(** ** The chart of the leaves *)

Section leaves.
Context `{!StdAlgorithmLaws (alt_edge score), !InfoLaws info_type, !StrictWeak (score_lt (S := score)), !ScoreZeroLaws score}.
Context (Hmax : 1 <= u32 max_equivalents).
Abbreviation improves := (improves max_equivalents).
Abbreviation chart_ok := (chart_ok max_equivalents).
Abbreviation placed ch k := (is_Some (span_container ch !! k)).
Implicit Types es : list edge.

Lemma inserted_improves σ e (hb ha : positive -> Prop) σ' : Chart.inserted max_equivalents σ e hb ha σ' -> improves σ σ'.
Proof.
  intros (l&i'&->&Hw&_&_&_&Hcase). apply (improves_write max_equivalents); [done|]. intros i Hi.
  destruct Hcase as [(i0&_&Hi0&_&_&(_&->&_))|(Hl&_)]; [|congruence].
  rewrite Hi in Hi0. injection Hi0 as <-. by pose proof (best_edge_best (m_rep i) [e]) as [? _]%Forall_cons.
Qed.

(** What is in the store and not in the chart. *)
Definition beside σ ch (x : positive) : Prop := is_Some (σ !! x) /\ forall k, ~ in_chart ch k x.
Definition leaves_alone σ ch σ' ch' : Prop := improves σ σ' /\ dom (span_container ch') = dom (span_container ch) /\
  forall x, beside σ ch x -> σ' !! x = σ !! x /\ beside σ' ch' x.

Lemma leaves_alone_trans σ ch σ1 ch1 σ2 ch2 : leaves_alone σ ch σ1 ch1 -> leaves_alone σ1 ch1 σ2 ch2 -> leaves_alone σ ch σ2 ch2.
Proof.
  intros (A1&A2&A3) (B1&B2&B3). split; [by apply (improves_trans max_equivalents _ σ1)|]. split; [by rewrite B2|].
  intros x Hx. destruct (A3 x Hx) as [E1 Hx1]. destruct (B3 x Hx1) as [E2 Hx2]. split; [by rewrite E2|done].
Qed.

Lemma chart_insert_beside σ ch es e : chart_ok σ ch es -> edge_ok σ e -> 1 <= edge_equiv_max max_equivalents (pool_create e) -> placed ch (span_key (spn e)) ->
  exists σ' ch', chart_insert_edge σ e ch = Some (σ', ch') /\ chart_ok σ' ch' (es ++ [e]) /\ leaves_alone σ ch σ' ch'.
Proof.
  intros Hch He Hm Hp. destruct (chart_insert_ok hash_token hash_span max_equivalents σ ch es e Hch He Hm Hp) as (σ'&ch'&Hrun&Hok&Hdom).
  exists σ', ch'. split; [exact Hrun|]. split; [exact Hok|]. destruct Hp as [cs Hcs]. unfold Chart.chart_insert_edge in Hrun. rewrite Hcs in Hrun. cbn [mbind option_bind] in Hrun.
  destruct (span_insert_ok hash_token hash_span max_equivalents σ e _ cs (co_cells _ _ _ _ Hch _ _ Hcs) He eq_refl Hm) as (σ1&cs'&Hins&_&Hinserted).
  rewrite Hins in Hrun. cbn [mbind option_bind fst snd] in Hrun. injection Hrun as <- <-. pose proof (inserted_improves _ _ _ _ _ Hinserted) as Him.
  destruct Hinserted as (l&i'&->&Hw&_&_&Hheld&Hcase). split; [exact Him|]. split; [exact Hdom|]. intros x [[j Hj] Hx].
  assert (Hxl : x <> l).
  { intros ->. destruct Hcase as [(i&Hl&_)|(Hl&_)]; [|congruence]. apply (Hx (span_key (spn e))). by exists cs. }
  rewrite lookup_insert_ne by done. split; [done|]. split; [rewrite lookup_insert_ne by done; by exists j|]. intros k Hk.
  apply (in_chart_insert ch _ cs cs' x l (max_span_rt ch) Hcs Hheld) in Hk as [Hk|[_ ?]]; [by apply (Hx k)|done].
Qed.

(** A factory after it has made more edges, which it counts. *)
Definition counted ef ef' : Prop := cells ef' = cells ef /\ pow_weight ef' = pow_weight ef /\ h_unseen_cell ef' = h_unseen_cell ef.

Lemma counted_trans ef ef1 ef2 : counted ef ef1 -> counted ef1 ef2 -> counted ef ef2.
Proof. intros (?&?&?) (?&?&?). split_and!; congruence. Qed.

Lemma counted_edge ef ef' r (e1 e2 : equiv_p) s (child_inside : score -> score) (v : info_type * score * score) :
  counted ef ef' -> edge_of_info ef' r e1 e2 s child_inside v = edge_of_info ef r e1 e2 s child_inside v.
Proof. intros (H1&H2&H3). unfold edge_of_info, get_cell_heuristic. by rewrite H1, H2, H3. Qed.

(** The edges of a generator go into the chart. *)
Lemma chart_insert_generated_ok (σb : store) new : forall n g σ ef ch es, makes σb g new -> σb ⊆ σ -> (forall x, is_Some (σb !! x) -> beside σ ch x) ->
  chart_ok σ ch es -> Forall (fun e => edge_ok σb e /\ 1 <= edge_equiv_max max_equivalents (pool_create e) /\ placed ch (span_key (spn e))) new -> (length new <= n)%nat ->
  exists σ' ef' ch', chart_insert_generated n σ g ef ch = Some (σ', ef', ch') /\ chart_ok σ' ch' (es ++ new) /\ leaves_alone σ ch σ' ch' /\ counted ef ef'.
Proof.
  intros n g σ ef ch es Hg. revert n σ ef ch es.
  induction Hg as [g Hmore|g e g' new Hmore Hcall Hg IH]; intros n σ ef ch es Hsub Hb Hch Hnew Hn.
  - exists σ, ef, ch. split; [destruct n; cbn [chart_insert_generated]; by rewrite Hmore|]. rewrite app_nil_r. split; [done|].
    split; [split; [apply (improves_refl max_equivalents)|by split]|done].
  - destruct n as [|n]; [cbn in Hn; lia|]. cbn [chart_insert_generated length] in *. rewrite Hmore, Hcall by done. cbn [mbind option_bind fst snd].
    apply Forall_cons in Hnew as [(He&Hm&Hp) Hnew].
    destruct (chart_insert_beside σ ch es e Hch) as (σ1&ch1&->&Hch1&Hla); [by eapply edge_ok_subseteq|done|done|]. cbn [mbind option_bind].
    pose proof Hla as (_&Hdom&Hal).
    destruct (IH n σ1 (log_create_edge ef) ch1 (es ++ [e])) as (σ2&ef2&ch2&Hrun&Hch2&Hla2&Hef).
    + apply map_subseteq_spec. intros x i Hi. destruct (Hal x) as [-> _]; [apply Hb; by eexists|by eapply lookup_weaken].
    + intros x Hx. apply Hal. by apply Hb.
    + exact Hch1.
    + eapply Forall_impl; [exact Hnew|]. intros e' (?&?&Hp'). split; [done|]. split; [done|]. apply elem_of_dom. rewrite Hdom. by apply elem_of_dom.
    + lia.
    + exists σ2, ef2, ch2. split; [exact Hrun|]. rewrite <- app_assoc in Hch2. split; [exact Hch2|]. split; [by eapply leaves_alone_trans|exact Hef].
Qed.

(** The edges of a generator go into a queue whose equivalences are new. *)
Lemma queue_generated_of (σ0 : store) new : forall n g σ ef q pre, makes σ0 g new -> σ0 ⊆ σ -> (forall x, x ∈ priority_heap (ptable q) -> σ0 !! x = None) ->
  queue_of hash_token hash_span max_equivalents pre σ q -> Forall (fun e => edge_ok σ0 e /\ 1 <= edge_equiv_max max_equivalents (pool_create e)) new ->
  (length new <= n)%nat -> Z.of_nat (length pre + length new) <= pq_limit ->
  exists σ' ef' q', queue_generated hash_token hash_span max_equivalents n σ g ef q = Some (Ok (σ', ef', q')) /\
    queue_of hash_token hash_span max_equivalents (pre ++ new) σ' q' /\ σ0 ⊆ σ' /\ (forall x, x ∈ priority_heap (ptable q') -> σ0 !! x = None) /\ counted ef ef'.
Proof.
  intros n g σ ef q pre Hg. revert n σ ef q pre.
  induction Hg as [g Hmore|g e g' new Hmore Hcall Hg IH]; intros n σ ef q pre Hsub Hfresh Hq Hnew Hn Hlim.
  - exists σ, ef, q. split; [destruct n; cbn [queue_generated]; by rewrite Hmore|]. by rewrite app_nil_r.
  - destruct n as [|n]; [cbn in Hn; lia|]. cbn [queue_generated length] in *. rewrite Hmore, Hcall by done. cbn [mbind option_bind fst snd].
    apply Forall_cons in Hnew as [(He&Hm) Hnew].
    destruct (queue_insert_edge_ok hash_token hash_span max_equivalents _ σ q e (qo_ok _ _ _ _ _ _ Hq) ltac:(lia)) as (σ1&pos&q1&->&Hq1&Hhigh&Hins);
      [by eapply edge_ok_subseteq|done|]. cbn [rbind mbind option_bind].
    assert (Hok1 : queue_of hash_token hash_span max_equivalents (pre ++ [e]) σ1 q1).
    { apply (queue_of_step hash_token hash_span max_equivalents pre σ q e); [done| |done|done]. by replace (Z.of_nat (S (length pre))) with (Z.of_nat (length pre) + 1) by lia. }
    assert (Hframe : σ0 ⊆ σ1 /\ forall x, x ∈ priority_heap (ptable q1) -> σ0 !! x = None).
    { destruct Hins as [q1 l Hl _ Hit _|q1 l i i' rest Hl _ _ _ Hit _ _].
      - split; [by apply insert_subseteq_r; [eapply lookup_weaken_None|]|]. intros x. rewrite Hit. intros [->|Hx]%elem_of_cons; [by eapply lookup_weaken_None|by apply Hfresh].
      - split; [by apply insert_subseteq_r; [apply Hfresh|]|]. intros x. rewrite Hit. apply Hfresh. }
    destruct Hframe as [Hsub1 Hfresh1].
    destruct (IH n σ1 (log_create_edge ef) q1 (pre ++ [e]) Hsub1 Hfresh1 Hok1 Hnew ltac:(lia)) as (σ2&ef2&q2&Hrun&Hq2&?&?&Hef); [rewrite length_app; cbn; lia|].
    exists σ2, ef2, q2. rewrite <- app_assoc in Hq2. done.
Qed.

Lemma chart_ok_subseteq σ σ' ch es : σ ⊆ σ' -> chart_ok σ ch es -> chart_ok σ' ch es.
Proof.
  intros Hs Hch. pose proof Hch as [C1 C2 C3]. split.
  - intros k cs Hcs. apply (cells_ok_improves max_equivalents σ); [by apply (improves_subseteq max_equivalents)|by apply C1].
  - intros k l Hl. destruct (C2 k l Hl) as (i&Hi&Hc). exists i. split; [by eapply lookup_weaken|done].
  - intros e He. destruct (C3 e He) as (l&i&Hl&Hi&?). exists l, i. split; [done|]. split; [by eapply lookup_weaken|done].
Qed.

(** What is new in the store is beside the chart. *)
Lemma new_beside σ σ' ch es x : chart_ok σ ch es -> σ !! x = None -> is_Some (σ' !! x) -> beside σ' ch x.
Proof.
  intros Hch Hx Hx'. split; [done|]. intros k (cs&Hcs&Hl).
  destruct (held_key max_equivalents σ k cs x (co_cells _ _ _ _ Hch _ _ Hcs) Hl) as (i&Hi&_). congruence.
Qed.

Lemma beside_subseteq σ σ' ch x : σ ⊆ σ' -> beside σ ch x -> beside σ' ch x.
Proof. intros Hs [[i Hi] Hx]. split; [exists i; by eapply lookup_weaken|done]. Qed.

Section rules.
Context (grammar_rule : Z -> R) (no_info : info_type) (max_infos max_edges : nat) `{!UnaryInfos (R := R) max_infos}.

Definition made_by (r : R) s e : Prop := rt e = rule_lhs r /\ spn e = s.
Definition unary_to (t : indexed_token) (r : R) : Prop := rule_rhs r 0 = Some t /\ rule_rhs_size r = 1.

(** The edges that the rule [r] makes of [e], the representative of the equivalence at [l]:
    one for each info. *)
Definition made_of ef (r : R) e (new : list edge) : Prop :=
  exists σ l i infos, σ !! l = Some i /\ m_rep i = e /\ yields (create_info σ r (spn e) [e]) infos /\
    new = edge_of_info ef r (Some l) None (spn e) (fun x => score_mul x (inside e)) <$> infos.

Lemma made_of_by ef r e new : made_of ef r e new -> Forall (made_by r (spn e)) new.
Proof. intros (σ&l&i&infos&_&_&_&->). apply Forall_fmap, Forall_forall. by intros v _. Qed.

Lemma made_of_counted ef ef' r e new : counted ef ef' -> made_of ef' r e new -> made_of ef r e new.
Proof.
  intros Hef (σ&l&i&infos&Hl&Hi&Hy&->). exists σ, l, i, infos. split; [done|]. split; [done|]. split; [done|].
  apply list_fmap_ext. intros k v _. by apply counted_edge.
Qed.

(** The representatives of the classes of [es], each the first of the best edges of its
    class. *)
Definition representatives es (rs : list edge) : Prop :=
  inequivalent rs /\ forall e, e ∈ rs <-> exists e0 rest, class_of e es = e0 :: rest /\ e = best_edge e0 rest.

(** The edges that a unary rule makes of one equivalence. *)
Lemma unary_rule_edges r l i σ ef : σ !! l = Some i -> equiv_empty i = false -> unary_to (rt (m_rep i)) r ->
  exists g new, create_unary_edge ef σ r (Some l) = Some g /\ (length new <= max_infos)%nat /\ made_of ef r (m_rep i) new /\
    makes {[l := i]} g new /\ Forall (fun e => edge_ok {[l := i]} e /\ 1 <= edge_equiv_max max_equivalents (pool_create e)) new.
Proof.
  intros Hl He [Hr0 Hr1]. destruct (ui_yields σ r (spn (m_rep i)) (m_rep i)) as (infos&Hy&Hlen).
  assert (Hsing : ({[l := i]} : store) !! l = Some i) by apply lookup_singleton_eq.
  destruct (unary_rule_makes {[l := i]} σ ef r l i infos) as (g&Hg&Hmakes); [by apply map_singleton_subseteq_l|done..|].
  exists g, (edge_of_info ef r (Some l) None (spn (m_rep i)) (fun x => score_mul x (inside (m_rep i))) <$> infos).
  split; [exact Hg|]. split; [by rewrite length_fmap|]. split; [by exists σ, l, i, infos|]. split; [exact Hmakes|].
  apply Forall_fmap, Forall_forall. intros v _.
  destruct (edge_of_info_unary max_equivalents max_infos Hmax {[l := i]} ef r l i v Hsing He) as (H1&H2&_). by split.
Qed.

Lemma unary_inserted r l i σ ef ch es : σ !! l = Some i -> equiv_empty i = false -> beside σ ch l -> unary_to (rt (m_rep i)) r ->
  placed ch (span_key (spn (m_rep i))) -> chart_ok σ ch es ->
  exists g σ' ef' ch' new, create_unary_edge ef σ r (Some l) = Some g /\ chart_insert_generated max_infos σ g ef ch = Some (σ', ef', ch') /\
    chart_ok σ' ch' (es ++ new) /\ leaves_alone σ ch σ' ch' /\ counted ef ef' /\ made_of ef r (m_rep i) new.
Proof.
  intros Hl He Hb Hr Hp Hch. destruct (unary_rule_edges r l i σ ef Hl He Hr) as (g&new&Hg&Hlen&Hmade&Hmakes&Hnew).
  destruct (chart_insert_generated_ok {[l := i]} new max_infos g σ ef ch es Hmakes) as (σ'&ef'&ch'&Hrun&Hch'&Hla&Hef).
  - by apply map_singleton_subseteq_l.
  - intros x [j Hj]. apply lookup_singleton_Some in Hj as [<- _]. exact Hb.
  - exact Hch.
  - pose proof (made_of_by _ _ _ _ Hmade) as Hby. rewrite Forall_forall in Hby, Hnew. apply Forall_forall.
    intros e Hin. destruct (Hnew e Hin) as [??]. destruct (Hby e Hin) as [_ ->]. done.
  - exact Hlen.
  - by exists g, σ', ef', ch', new.
Qed.

(** Every edge of the queue. *)
Lemma insert_queued_ok r s t : unary_to t r -> forall n σ ef ch q m es, queue_ok hash_token hash_span max_equivalents m σ q ->
  (forall l i, l ∈ priority_heap (ptable q) -> σ !! l = Some i -> beside σ ch l /\ rt (m_rep i) = t /\ spn (m_rep i) = s) ->
  placed ch (span_key s) -> chart_ok σ ch es -> (length (priority_heap (ptable q)) <= n)%nat ->
  exists σ' ef' ch' rs news, insert_queued max_infos n r σ ef ch q = Some (σ', ef', ch') /\ chart_ok σ' ch' (es ++ concat news) /\
    leaves_alone σ ch σ' ch' /\ counted ef ef' /\ rs ≡ₚ queued σ q /\ Forall2 (made_of ef r) rs news.
Proof.
  intros Hr. induction n as [|n IH]; intros σ ef ch q m es Hq Hitems Hp Hch Hn; cbn [insert_queued];
    rewrite (queue_empty_ok _ _ _ _ _ _ Hq); cbn [mbind option_bind]; destruct (priority_heap (ptable q)) as [|l its] eqn:Eq.
  1, 3: exists σ, ef, ch, [], []; rewrite app_nil_r; split; [done|]; split; [done|]; split; [split; [apply (improves_refl max_equivalents)|by split]|];
    split; [done|]; split; [unfold queued; by rewrite Eq|constructor].
  { cbn in Hn. lia. }
  assert (Htop : queue_top q = Some l) by (unfold queue_top, pt_top; by rewrite Eq). rewrite Htop. cbn [mbind option_bind].
  destruct (queue_live hash_token hash_span max_equivalents m σ q l Hq) as (i&Hi&Hok&_); [rewrite Eq; left|].
  destruct (Hitems l i ltac:(left) Hi) as (Hb&Hrt&Hs). pose proof (unary_inserted r l i σ ef ch es Hi (proj1 (proj1 Hok)) Hb) as Hone. rewrite Hrt, Hs in Hone.
  destruct (Hone Hr Hp Hch) as (g&σ1&ef1&ch1&new&->&Hrun&Hch1&Hla&Hef1&Hnew). cbn [mbind option_bind].
  destruct (queue_pop_ok hash_token hash_span max_equivalents m σ q l Hq Htop) as (q'&->&Hq'&_&Hit). cbn [mbind option_bind]. rewrite Hrun. cbn [mbind option_bind].
  rewrite Eq in Hit. pose proof Hla as (Him&Hdom&Hal).
  assert (Hin : forall x, x ∈ priority_heap (ptable q') -> x ∈ l :: its) by (intros x Hx; rewrite Hit; by right).
  assert (Hsame : forall x, x ∈ priority_heap (ptable q') -> σ1 !! x = σ !! x).
  { intros x Hx. destruct (queue_live hash_token hash_span max_equivalents m σ q' x Hq' Hx) as (j&Hj&_). by apply Hal, (Hitems x j (Hin x Hx) Hj). }
  destruct (IH σ1 ef1 ch1 q' m (es ++ new)) as (σ2&ef2&ch2&rs&news&Hrun2&Hch2&Hla2&Hef2&Hrs&Hnews).
  - apply (queue_ok_frame hash_token hash_span max_equivalents m σ); [exact Hq'|]. intros x j Hx Hj Hokj.
    pose proof (Hsame x Hx) as E. destruct (im_at _ _ _ Him x j Hj Hokj) as (j'&Hj'&Hok'&_).
    rewrite E, Hj in Hj'. injection Hj' as <-. by rewrite E.
  - intros x j Hx Hj. rewrite (Hsame x Hx) in Hj. destruct (Hitems x j (Hin x Hx) Hj) as (Hbx&Hx2). split; [by apply Hal|done].
  - apply elem_of_dom. rewrite Hdom. by apply elem_of_dom.
  - exact Hch1.
  - apply Permutation_length in Hit. cbn [length] in Hit, Hn. lia.
  - exists σ2, ef2, ch2, (m_rep i :: rs), (new :: news). split; [exact Hrun2|]. rewrite <- app_assoc in Hch2. split; [exact Hch2|].
    split; [by eapply leaves_alone_trans|]. split; [by eapply counted_trans|]. split.
    + rewrite Hrs. unfold queued. rewrite Eq, (fmap_Permutation _ _ _ Hit). cbn [fmap list_fmap].
      rewrite (representative_edge_lookup _ _ _ Hi). apply Permutation_skip, Permutation_refl'. apply list_fmap_ext.
      intros k x Hx. unfold representative_edge. by rewrite (Hsame x) by by eapply list_elem_of_lookup_2.
    + constructor; [exact Hnew|]. eapply Forall2_impl; [exact Hnews|]. intros e es' He. by eapply made_of_counted.
Qed.

(** The queue holds the representatives of the edges that were put into it. *)
Lemma queue_representatives new σ q rs : queue_of hash_token hash_span max_equivalents new σ q -> rs ≡ₚ queued σ q -> representatives new rs.
Proof.
  intros [Hq Hcl Hco _] Hrs. pose proof (queued_inequivalent _ _ _ _ _ _ Hq) as Hne. split; [by eapply inequivalent_perm|].
  intros r. rewrite Hrs. split; [apply Hcl|]. intros (e0&rest&Hc&Hr0).
  assert (He0 : e0 ∈ class_of r new) by (rewrite Hc; left). unfold class_of in He0. apply list_elem_of_filter in He0 as [Heq He0].
  destruct (Hco e0 He0) as (r1&Hr1&Hre). destruct (Hcl r1 Hr1) as (e1&rest1&Hc1&Hr2).
  rewrite (class_of_equal r1 r), Hc in Hc1 by eauto using equal_to_trans, equal_to_sym.
  injection Hc1 as <- <-. by rewrite Hr0, <- Hr2.
Qed.

Lemma makes_subseteq (σ0 σ1 : store) g new : σ0 ⊆ σ1 -> makes σ0 g new -> makes σ1 g new.
Proof.
  intros Hs. induction 1 as [g Hmore|g e g' new Hmore Hcall Hg IH]; [by constructor|]. econstructor; [done| |exact IH].
  intros σ ef Hσ. apply Hcall. by etrans.
Qed.

Lemma leaves_alone_subseteq σ σ' ch : σ ⊆ σ' -> leaves_alone σ ch σ' ch.
Proof.
  intros Hs. split; [by apply (improves_subseteq max_equivalents)|]. split; [done|]. intros x Hx.
  split; [|by eapply beside_subseteq]. destruct Hx as [[i Hi] _]. rewrite Hi. by eapply lookup_weaken.
Qed.

(** The queue holds edges that were put into it. *)
Lemma queued_of new σ q l i : queue_of hash_token hash_span max_equivalents new σ q -> l ∈ priority_heap (ptable q) -> σ !! l = Some i -> m_rep i ∈ new.
Proof.
  intros Hq Hl Hi. assert (Hin : m_rep i ∈ queued σ q).
  { apply list_elem_of_fmap. exists l. split; [|done]. by rewrite (representative_edge_lookup σ l i Hi). }
  destruct (qo_classes _ _ _ _ _ _ Hq (m_rep i) Hin) as (e0&rest&Hc&Hb).
  assert (Hcl : m_rep i ∈ class_of (m_rep i) new).
  { rewrite Hc. rewrite Hb at 1. destruct (best_edge_in e0 rest) as [->|?]; [left|by right]. }
  by apply list_elem_of_filter in Hcl as [_ ?].
Qed.

Lemma queued_length new σ q : queue_of hash_token hash_span max_equivalents new σ q -> (length (priority_heap (ptable q)) <= length new)%nat.
Proof.
  intros Hq. rewrite <- (length_fmap (representative_edge σ)). fold (queued σ q).
  apply submseteq_length, NoDup_submseteq.
  - pose proof (queued_inequivalent _ _ _ _ _ _ (qo_ok _ _ _ _ _ _ Hq)) as Hn. induction (queued σ q) as [|e es IH]; [constructor|].
    destruct Hn as [He Hn]. constructor; [|by apply IH]. intros Hin. pose proof (He e Hin) as F. by rewrite equal_to_refl in F.
  - intros r Hr. apply list_elem_of_fmap in Hr as (l&->&Hl).
    destruct (queue_live hash_token hash_span max_equivalents _ σ q l (qo_ok _ _ _ _ _ _ Hq) Hl) as (i&Hi&_).
    rewrite (representative_edge_lookup σ l i Hi). by eapply queued_of.
Qed.

(** The rules of a leaf are for its word, the second for what the first makes. *)
Record leaf_ok (le : lattice_edge) : Prop := {
  lo_word : is_null (le_source le) = false;
  lo_rule : unary_to (le_source le) (grammar_rule (le_rule_id le));
  lo_syntax : le_syntax_rule_id le <> NULL_GRAMMAR_RULE_ID ->
    unary_to (rule_lhs (grammar_rule (le_rule_id le))) (grammar_rule (le_syntax_rule_id le))
}.

(** The edges that a leaf puts into the chart: those its rule makes of its word, or, when
    it has a syntax rule, those that this one makes of the representatives of these. *)
Definition leaf_makes ef (le : lattice_edge) (new : list edge) : Prop :=
  let word := (create_word_edge no_info (le_source le) (le_span le) as_one ef).1 in
  exists first, made_of ef (grammar_rule (le_rule_id le)) word first /\
    if le_syntax_rule_id le =? NULL_GRAMMAR_RULE_ID then new = first
    else exists rs news, representatives first rs /\
      Forall2 (made_of ef (grammar_rule (le_syntax_rule_id le))) rs news /\ new = concat news.

Context (Hinfos : Z.of_nat max_infos <= pq_limit) (Hedges : (max_infos <= max_edges)%nat).
Abbreviation start_leaf := (init_leaf grammar_rule no_info max_infos max_edges).
Abbreviation start_node := (init_node grammar_rule no_info max_infos max_edges).

(** The word of a leaf is put into the store, not into the chart. *)
Lemma word_allocated le σ ef ch es : leaf_ok le -> chart_ok σ ch es ->
  exists f ef1 fq σ1, create_word_edge no_info (le_source le) (le_span le) as_one ef = (f, ef1) /\ counted ef ef1 /\ allocate σ (pool_create f) = (fq, σ1) /\
    σ1 !! fq = Some (pool_create f) /\ equiv_empty (pool_create f) = false /\ rt f = le_source le /\ spn f = le_span le /\
    σ ⊆ σ1 /\ beside σ1 ch fq.
Proof.
  intros Hle Hch. destruct (create_word_edge no_info (le_source le) (le_span le) as_one ef) as [f ef1] eqn:Ef.
  injection Ef as <- <-. set (f := mk_edge _ _ _ _ _ _ _ _). exists f, (log_create_edge ef), (fresh (dom σ)), (<[fresh (dom σ) := pool_create f]> σ).
  pose proof (allocate_fresh σ) as Hfresh. split; [done|]. split; [done|]. split; [done|]. split; [apply lookup_insert_eq|]. split; [exact (lo_word le Hle)|].
  split; [done|]. split; [done|]. split; [by apply insert_subseteq|].
  eapply new_beside; [exact Hch|exact Hfresh|]. rewrite lookup_insert_eq. by eexists.
Qed.

Lemma init_leaf_ok le σ ef ch es : leaf_ok le -> placed ch (span_key (le_span le)) -> chart_ok σ ch es ->
  exists σ' ef' ch' new, start_leaf le σ ef ch = Some (Ok (σ', ef', ch')) /\ chart_ok σ' ch' (es ++ new) /\ leaves_alone σ ch σ' ch' /\
    counted ef ef' /\ leaf_makes ef le new.
Proof.
  intros Hle Hp Hch. destruct (word_allocated le σ ef ch es Hle Hch) as (f&ef1&fq&σ1&Hf&Hef1&Ha&Hl&He&Hrt&Hs&Hsub&Hb).
  pose proof (lo_rule le Hle) as Hr. pose proof (chart_ok_subseteq _ _ _ _ Hsub Hch) as Hch1. pose proof (leaves_alone_subseteq σ σ1 ch Hsub) as Hla1.
  unfold init_leaf, leaf_makes. rewrite Hf, Ha. cbn [fst]. rewrite <- Hrt in Hr. rewrite <- Hs in Hp.
  destruct (Z.eqb_spec (le_syntax_rule_id le) NULL_GRAMMAR_RULE_ID) as [Hsyn|Hsyn].
  - destruct (unary_inserted (grammar_rule (le_rule_id le)) fq (pool_create f) σ1 ef1 ch es Hl He Hb Hr Hp Hch1)
      as (g&σ2&ef2&ch2&new&->&Hrun&Hch2&Hla2&Hef2&Hnew). cbn [mbind option_bind]. rewrite Hrun. cbn [mbind option_bind].
    exists σ2, ef2, ch2, new. split; [done|]. split; [done|]. split; [by eapply leaves_alone_trans|]. split; [by eapply counted_trans|].
    exists new. split; [by eapply made_of_counted|done].
  - destruct (unary_rule_edges (grammar_rule (le_rule_id le)) fq (pool_create f) σ1 ef1 Hl He Hr) as (g&first&->&Hlen&Hmade&Hmakes&Hnew).
    cbn [mbind option_bind]. destruct (new_edge_queue_ok hash_token hash_span max_equivalents σ1) as (q0&Hq0&Hof&Hit). rewrite Hq0. clear Hq0. cbn [rbind mbind option_bind].
    assert (Hsing : ({[fq := pool_create f]} : store) ⊆ σ1) by (by apply map_singleton_subseteq_l).
    destruct (queue_generated_of σ1 first max_infos g σ1 ef1 q0 []) as (σ2&ef2&q&->&Hq&Hsub2&Hfresh&Hef2); [by eapply makes_subseteq|done| |done| |done|cbn; lia|].
    { rewrite Hit. by intros x ?%elem_of_nil. }
    { eapply Forall_impl; [exact Hnew|]. intros e [? ?]. split; [by eapply edge_ok_subseteq|done]. }
    cbn [rbind mbind option_bind app] in *. pose proof (queued_length _ _ _ Hq) as Hql. pose proof (made_of_by _ _ _ _ Hmade) as Hby.
    destruct (insert_queued_ok (grammar_rule (le_syntax_rule_id le)) (spn f) _ (lo_syntax le Hle Hsyn) max_edges σ2 ef2 ch q _ es (qo_ok _ _ _ _ _ _ Hq))
      as (σ3&ef3&ch3&rs&news&->&Hch3&Hla3&Hef3&Hrs&Hnews).
    + intros l i Hin Hi. split; [eapply new_beside; [exact Hch1|by apply Hfresh|by exists i]|].
      rewrite Forall_forall in Hby. exact (Hby _ (queued_of _ _ _ _ _ Hq Hin Hi)).
    + exact Hp.
    + by eapply chart_ok_subseteq.
    + lia.
    + cbn [mbind option_bind]. assert (Hef12 : counted ef ef2) by exact (counted_trans _ _ _ Hef1 Hef2).
      exists σ3, ef3, ch3, (concat news). split; [done|]. split; [done|].
      split; [eapply leaves_alone_trans; [exact Hla1|]; by eapply leaves_alone_trans; [apply leaves_alone_subseteq|]|].
      split; [eapply (counted_trans ef ef2); [exact Hef12|exact Hef3]|]. exists first. split; [exact (made_of_counted _ _ _ _ _ Hef1 Hmade)|]. exists rs, news.
      split; [by eapply queue_representatives|]. split; [|done].
      eapply Forall2_impl; [exact Hnews|]. intros e es' He'. exact (made_of_counted _ _ _ _ _ Hef12 He').
Qed.

(** The leaves that the chart is made of: one at the top is none. *)
Definition chart_leaves (n : lattice_node) : list lattice_edge := if is_internal n then visit_edges n else [].

Lemma leaf_makes_counted ef ef' le new : counted ef ef' -> leaf_makes ef' le new -> leaf_makes ef le new.
Proof.
  intros Hef (first&Hfirst&Hnew). unfold leaf_makes.
  assert (Hw : (create_word_edge no_info (le_source le) (le_span le) as_one ef').1 = (create_word_edge no_info (le_source le) (le_span le) as_one ef).1).
  { destruct Hef as (H1&H2&H3). unfold create_word_edge, get_cell_heuristic. cbn. by rewrite ?H1, ?H2, ?H3. }
  rewrite Hw in Hfirst. exists first. split; [by eapply made_of_counted|]. destruct (_ =? _); [done|].
  destruct Hnew as (rs&news&Hrs&Hnews&->). exists rs, news. split; [done|]. split; [|done].
  eapply Forall2_impl; [exact Hnews|]. intros e es' He'. by eapply made_of_counted.
Qed.

Lemma init_node_ok n : forall σ ef ch es, (forall le, le ∈ visit_edges n -> leaf_ok le /\ placed ch (span_key (le_span le))) -> chart_ok σ ch es ->
  exists σ' ef' ch' news, start_node n σ ef ch = Some (Ok (σ', ef', ch')) /\ chart_ok σ' ch' (es ++ concat news) /\ leaves_alone σ ch σ' ch' /\
    counted ef ef' /\ Forall2 (leaf_makes ef) (chart_leaves n) news.
Proof.
  unfold chart_leaves. induction n as [le|s cs IH] using lattice_node_nested_ind; intros σ ef ch es Hn Hch; cbn [init_node visit_edges is_internal] in *.
  - exists σ, ef, ch, []. rewrite app_nil_r. split; [done|]. split; [done|]. split; [by apply leaves_alone_subseteq|by split].
  - revert σ ef ch es Hn Hch. induction cs as [|c cs IHcs]; intros σ ef ch es Hn Hch.
    { exists σ, ef, ch, []. rewrite app_nil_r. split; [done|]. split; [done|]. split; [by apply leaves_alone_subseteq|by split]. }
    apply Forall_cons in IH as [IHc IH].
    assert (Hc : exists σ1 ef1 ch1 news, match c with leaf_node le => start_leaf le σ ef ch | internal_node _ _ => start_node c σ ef ch end = Some (Ok (σ1, ef1, ch1)) /\
      chart_ok σ1 ch1 (es ++ concat news) /\ leaves_alone σ ch σ1 ch1 /\ counted ef ef1 /\ Forall2 (leaf_makes ef) (visit_edges c) news).
    { destruct c as [le|sc ds].
      - destruct (Hn le) as [Hle Hp]; [apply elem_of_app; left; left|].
        destruct (init_leaf_ok le σ ef ch es Hle Hp Hch) as (σ1&ef1&ch1&new&Hrun&Hch1&Hla&Hef&Hnew). exists σ1, ef1, ch1, [new]. cbn [concat].
        rewrite app_nil_r. split; [exact Hrun|]. split; [done|]. split; [done|]. split; [done|]. by constructor.
      - apply IHc; [|done]. intros le Hle. apply Hn, elem_of_app. by left. }
    destruct Hc as (σ1&ef1&ch1&news&Hrun&Hch1&Hla&Hef1&Hnew). rewrite Hrun. cbn [rbind mbind option_bind].
    destruct (IHcs IH σ1 ef1 ch1 (es ++ concat news)) as (σ2&ef2&ch2&news2&Hrun2&Hch2&Hla2&Hef2&Hnew2); [|done|].
    { intros le Hle. destruct (Hn le) as [? Hp]; [apply elem_of_app; by right|]. split; [done|].
      apply elem_of_dom. rewrite (proj1 (proj2 Hla)). by apply elem_of_dom. }
    exists σ2, ef2, ch2, (news ++ news2). split; [exact Hrun2|]. rewrite concat_app, app_assoc. split; [done|]. split; [by eapply leaves_alone_trans|].
    split; [by eapply counted_trans|]. apply Forall2_app; [done|]. eapply Forall2_impl; [exact Hnew2|]. intros le new. by apply leaf_makes_counted.
Qed.

(** C10: the chart of a lattice is made without a failure: every span of the sentence has
    its place, what is in the store before is there and not worse, and the chart has the
    classes of exactly these edges, leaf after leaf: those that the rule of the leaf makes
    of its word or, when the leaf has a syntax rule, those that the syntax rule makes of
    the best of each class of these. *)
Theorem init_chart_ok tree σ ef ch : well_formed (root tree) -> (forall le, le ∈ visit_edges (root tree) -> leaf_ok le) ->
  exists σ' ef' ch' news, init_chart grammar_rule no_info max_infos max_edges tree σ ef ch = Some (Ok (σ', ef', ch')) /\
    chart_ok σ' ch' (concat news) /\ Forall2 (leaf_makes ef) (chart_leaves (root tree)) news /\
    improves σ σ' /\ (forall k, placed ch' k <-> 0 <= k.1 < k.2 /\ k.2 <= span_right (node_span (root tree))).
Proof.
  intros Hwf Hleaves. destruct (well_formed_proper _ Hwf) as [Hlr Hr]. set (n := span_right (node_span (root tree))) in *.
  assert (Hn : 1 <= n < 65535) by lia. destruct (new_chart_ok (score := score) n Hn) as (ch0&Hch0&_&Hk).
  assert (Hk0 : forall k, placed ch0 k <-> 0 <= k.1 < k.2 /\ k.2 <= n) by (intros k; rewrite Hk; by case_decide; split).
  pose proof (chart_ok_new max_equivalents σ n ch0 Hn Hch0) as Hok0.
  destruct (init_node_ok (root tree) σ ef ch0 []) as (σ'&ef'&ch'&news&Hrun&Hch'&(Him&Hdom&_)&_&Hes).
  - intros le Hle. split; [by apply Hleaves|]. apply Hk0. cbn [span_key fst snd]. destruct (leaves_within _ Hwf le Hle) as ((?&?)&?&?). lia.
  - exact Hok0.
  - exists σ', ef', ch', news. unfold init_chart, chart_reset. fold n. rewrite Hch0. cbn [mbind option_bind].
    split; [exact Hrun|]. split; [exact Hch'|]. split; [exact Hes|]. split; [exact Him|].
    intros k. rewrite <- Hk0, <- !elem_of_dom. by rewrite Hdom.
Qed.
End rules.
End leaves.
End block_parser.

(** * A lattice

    The sentence of [BankParse], as a block of its two words in a block of its own. *)

#[local] Existing Instances GraphSearch.search_graph BankParse.sentence_grammar BankParse.sentence_infos CubeHeap.sample_combine CubeHeap.cost_compare_sw.

Definition word_leaf (n l : Z) : lattice_node := leaf_node (mk_lattice_edge (mk_span l (l + 1)) (sample_word n) n NULL_GRAMMAR_RULE_ID).
Definition two_words : lattice_node := new_internal_node [word_leaf 1 0; word_leaf 2 1].
Definition sentence_lattice : lattice_tree := mk_lattice_tree (new_internal_node [two_words]) [].
Definition no_chart : basic_chart (option Z) := mk_chart 0 ∅.

Abbreviation lattice_init tree σ := (init_chart typ_and_idx sample_hash_span 4 id 0 1 1 tree σ sentence_factory no_chart).
Abbreviation lattice_parse f0 := (block_parse_cky typ_and_idx sample_hash_span 4 id id (fun _ => Some 0) sentence_rules id (fun _ => []) top_unary_rules
  (SpanFilter0 := sentence_filter) (UnaryFilter0 := sentence_unary) (fun _ => mk_stub f0 []) (fun _ => f0) 100 1 1 2 (fun _ => mk_exhaustive f0)).

(** The parse of the lattice with these restrictions, which are the spans that rules are let into. *)
Definition parse_lattice_with (restrictions : list span_t) : option (list (indexed_token * option Z)) :=
  match new_filter (score := option Z) (new_histogram 10), lattice_init sentence_lattice ∅ with
  | Some (Ok f0), Some (Ok (σ, ef, ch)) =>
      match lattice_parse f0 (mk_lattice_tree (root sentence_lattice) restrictions) (mk_span 0 2) σ ef ch with
      | Some (Ok (σ, ef, ch)) => Some ((fun l => (rt (representative_edge σ l), inside (representative_edge σ l))) <$> span_members (mk_span 0 2) ch)
      | _ => None
      end
  | _, _ => None
  end.

Example lattice_parsed : parse_lattice_with [] = Some [(sample_tag 3, Some (-12)); (sample_tag 4, Some (-22)); (indexed_token_top, Some (-14))].
Proof. vm_compute. reflexivity. Qed.

(** The sentence is not one of the spans: there is nothing for it. *)
Example lattice_restricted : parse_lattice_with [mk_span 0 1] = Some [].
Proof. vm_compute. reflexivity. Qed.

Lemma word_leaf_ok n l : 0 <= l < 65534 -> well_formed (word_leaf n l).
Proof. intros Hl. apply wf_leaf. unfold proper. cbn [le_span span_left span_right]. lia. Qed.

Lemma two_words_ok : well_formed two_words.
Proof. apply wf_internal; [done|]. repeat constructor; vm_compute; (discriminate || reflexivity). Qed.

Lemma sentence_lattice_ok : well_formed (root sentence_lattice).
Proof. apply wf_internal; [done|]. constructor; [exact two_words_ok|constructor]. Qed.

Lemma init_chart_ok_witness : exists σ' ef' ch' news, lattice_init sentence_lattice ∅ = Some (Ok (σ', ef', ch')) /\ chart_ok 4 σ' ch' (concat news) /\
  Forall2 (leaf_makes id 0 sentence_factory)
    [mk_lattice_edge (mk_span 0 1) (sample_word 1) 1 0; mk_lattice_edge (mk_span 1 2) (sample_word 2) 2 0] news /\
  (forall k, is_Some (span_container ch' !! k) <-> 0 <= k.1 < k.2 /\ k.2 <= 2).
Proof.
  destruct (init_chart_ok typ_and_idx sample_hash_span 4 ltac:(vm_compute; discriminate) id 0 1 1 ltac:(vm_compute; discriminate) (le_n 1) sentence_lattice ∅
    sentence_factory no_chart sentence_lattice_ok) as (σ'&ef'&ch'&news&Hrun&Hch&Hnews&_&Hk).
  - intros le Hle. change (visit_edges (root sentence_lattice)) with
      [mk_lattice_edge (mk_span 0 1) (sample_word 1) 1 0; mk_lattice_edge (mk_span 1 2) (sample_word 2) 2 0] in Hle.
    rewrite !elem_of_cons, elem_of_nil in Hle. destruct Hle as [->|[->|[]]]; (split; [done|by split|done]).
  - exists σ', ef', ch', news. exact (conj Hrun (conj Hch (conj Hnews Hk))).
Defined.

Lemma block_parse_refines_witness : exists f0 : predicate_edge_filter (score := option Z) (P := histogram_predicate),
  new_filter (score := option Z) (new_histogram 10) = Some (Ok f0) /\
  lattice_parse f0 sentence_lattice (mk_span 0 2) sentence_store sentence_factory sentence_chart =
  run_blocks typ_and_idx sample_hash_span 4 id id (fun _ => Some 0) sentence_rules id (fun _ => []) top_unary_rules
    (SpanFilter0 := sentence_filter) (UnaryFilter0 := sentence_unary) (fun _ => mk_stub f0 []) (fun _ => f0) 100 1 1 2 (fun _ => mk_exhaustive f0)
    [([0; 1; 2], mk_span 0 2); ([0; 2], mk_span 0 2)] sentence_store sentence_factory sentence_chart.
Proof.
  destruct (new_filter_ok (score := option Z) (info_type := Z) typ_and_idx sample_hash_span 4 (new_histogram 10) sentence_store) as (f0&Hf0&_).
  exists f0. split; [exact Hf0|]. clear Hf0. apply (block_parse_refines typ_and_idx sample_hash_span 4 id id (fun _ => Some 0) sentence_rules id (fun _ => []) top_unary_rules
    (SpanFilter0 := sentence_filter) (UnaryFilter0 := sentence_unary) (fun _ => mk_stub f0 []) (fun _ => f0) 100 1 1 2 (fun _ => mk_exhaustive f0)
    (root sentence_lattice) sentence_lattice_ok).
Defined.

(** Words are not kept. *)
Lemma remove_incomplete_edges_keeps_witness : exists ch', remove_incomplete_edges typ_and_idx sample_hash_span 4 (mk_span 0 1) sentence_store sentence_chart =
  Some (sentence_store, ch') /\ forall l, in_chart ch' (0, 1) l <-> in_chart sentence_chart (0, 1) l /\ native sentence_store l.
Proof.
  destruct (remove_incomplete_edges_keeps typ_and_idx sample_hash_span 4 (mk_span 0 1) sentence_store sentence_chart sentence_typed ltac:(by eexists))
    as (ch'&Hrun&_&Hin).
  exists ch'. split; [exact Hrun|exact Hin].
Defined.
