(* ===== verification/Binarizer.v ===== *)
(** The linear-time ITG bracketer of src/itg-binarizer/binal.cc: the nodes and the stack
    ([nodes], [stck], [top]), the macro [stacking], [combine] and [bracketing].

    The bracketer shifts the states of a rule from left to right and, whenever it can,
    reduces the two topmost nodes, when the spans of the left side they cover are adjacent,
    straight or inverted.  The array of nodes and the array used as a stack are refined to a
    stack of binary trees ([represents]); the greedy reduction is then shown to be
    confluent, so that the bracketer accepts exactly the permutations of inversion
    transduction grammars ([itg]).  The labels and the word indices of the nodes are filled in
    by [output], which is not modelled. *)
From S2P Require Import Prelude.
Open Scope Z_scope.

(** * The data *)

(** [struct node]: the span of the left-hand side it covers, its children as indices of
    [nodes], its tag (1 straight, 2 inverted, 3 a leaf), whether its symbol is virtual, and its label.
    The constructor leaves the indices of the foreign and of the English words unset. *)
Record node := mk_node {
  nd_left : Z;
  nd_right : Z;
  c_left_idx : option Z;
  c_right_idx : option Z;
  e_left_idx : option Z;
  e_right_idx : option Z;
  leftchild : Z;
  rightchild : Z;
  tag : Z;
  virt : Z;
  label : string
}.

(** The constructor [node(l, r, lc, rc, t, v)] *)
Definition new_node (l r lc rc t v : Z) : node := mk_node l r None None None None lc rc t v EmptyString.

(** The globals [nodes], [stck] and [top] *)
Record bstate := mk_bstate { nodes : list node; stck : list Z; top : Z }.

(** Reading a vector: [None] is an access out of its bounds. *)
Definition vec_get {A} (v : list A) (i : Z) : option A := if i <? 0 then None else v !! Z.to_nat i.

(** Writing a vector *)
Definition vec_set {A} (v : list A) (i : Z) (x : A) : option (list A) :=
  if (0 <=? i) && (i <? Z.of_nat (length v)) then Some (<[Z.to_nat i := x]> v) else None.

(** [stacking(lft, rht, aidx, bidx, t, v)] *)
Definition stacking (lft rht aidx bidx t v : Z) (s : bstate) : option bstate :=
  let nodes' := nodes s ++ [new_node lft rht aidx bidx t v] in
  stck' ← vec_set (stck s) (top s) (Z.of_nat (length nodes') - 1);
  Some (mk_bstate nodes' stck' (top s + 1)).

(** [straight(na, nb)] and [inverted(na, nb)] *)
Definition straight (na nb : node) : bool := nd_right na =? nd_left nb - 1.
Definition inverted (na nb : node) : bool := nd_left na =? nd_right nb + 1.

Definition pop2 (s : bstate) : bstate := mk_bstate (nodes s) (stck s) (top s - 2).

(** [combine]: the loop over [top > 1 && can] *)
Fixpoint combine_loop (fuel : nat) (s : bstate) : option bstate :=
  match fuel with
  | O => None
  | S fuel =>
      if 1 <? top s then
        aidx ← vec_get (stck s) (top s - 2);
        bidx ← vec_get (stck s) (top s - 1);
        na ← vec_get (nodes s) aidx;
        nb ← vec_get (nodes s) bidx;
        if straight na nb then
          s' ← stacking (nd_left na) (nd_right nb) aidx bidx 1 1 (pop2 s); combine_loop fuel s'
        else if inverted na nb then
          s' ← stacking (nd_left nb) (nd_right na) aidx bidx 2 1 (pop2 s); combine_loop fuel s'
        else Some s
      else Some s
  end.

(** Each turn of the loop that goes on takes one node off the stack: [top] turns are enough. *)
Definition combine (s : bstate) : option bstate := combine_loop (S (Z.to_nat (top s))) s.

(** The loop of [bracketing] over [Alignment] *)
Fixpoint bracket_loop (alignment : list Z) (s : bstate) : option bstate :=
  match alignment with
  | [] => Some s
  | a :: alignment =>
      s1 ← stacking a a (-1) (-1) 3 0 s;
      s2 ← combine s1;
      bracket_loop alignment s2
  end.

(** The first part of [bracketing]: [stck] keeps what it holds when it is resized. *)
Definition bracketing_parse (stck0 : list Z) (alignment : list Z) : option bstate :=
  bracket_loop alignment (mk_bstate [] (resize (length alignment) 0 stck0) 0).

(** What [bracketing] does with a rule *)
Inductive verdict :=
  | NonItgLine                  (** the line goes to [non_itg_out] *)
  | LeftRightBinarize           (** [left_right_binarize(line)] *)
  | ItgLine                     (** the line goes to [itg_out] *)
  | Output (index : Z).         (** [output(index)] *)

(** The counters [bin] and [nonbin], and the globals that the output of a rule starts from *)
Record counters := mk_counters { bin : Z; nonbin : Z; rhsptr : Z; prev_leaf : option Z; vRules : Z }.

(** [bracketing] *)
Definition bracketing (filteringMode left_right_backoff : bool) (stck0 alignment : list Z) (c : counters) :
    option (bstate * counters * list verdict) :=
  s ← bracketing_parse stck0 alignment;
  if 1 <? top s then
    Some (s, mk_counters (bin c) (nonbin c + 1) 0 None 0,
          (if filteringMode then [NonItgLine] else []) ++ (if left_right_backoff then [LeftRightBinarize] else []))
  else if negb filteringMode then
    let c' := mk_counters (bin c + 1) (nonbin c) 0 None 0 in
    if top s =? 1 then i ← vec_get (stck s) 0; Some (s, c', [Output i])
    else Some (s, c', [Output (-1)])
  else Some (s, mk_counters (bin c + 1) (nonbin c) 0 None (vRules c), [ItgLine]).

Example bracketing_inverted : bracketing false false [] [2; 1; 3] (mk_counters 0 0 5 None 2) ≫= (fun '(s, c, v) => Some (length (nodes s), c, v)) =
  Some (5%nat, mk_counters 1 0 0 None 0, [Output 4]).
Proof. reflexivity. Qed.
Example bracketing_nonitg : bracketing true true [] [2; 4; 1; 3] (mk_counters 0 0 0 None 0) ≫= (fun '(s, c, v) => Some (top s, c, v)) =
  Some (4, mk_counters 0 1 0 None 0, [NonItgLine; LeftRightBinarize]).
Proof. reflexivity. Qed.

(** * The stack of trees *)

(** A binary bracketing of the states: its leaves in the order of the right-hand side *)
Inductive btree := Leaf (a : Z) | Bin (inv : bool) (l r : btree).

Fixpoint tspan (t : btree) : Z * Z :=
  match t with
  | Leaf a => (a, a)
  | Bin false l r => ((tspan l).1, (tspan r).2)
  | Bin true l r => ((tspan r).1, (tspan l).2)
  end.

Fixpoint frontier (t : btree) : list Z :=
  match t with Leaf a => [a] | Bin _ l r => frontier l ++ frontier r end.

(** The number of its nodes *)
Fixpoint tsize (t : btree) : nat :=
  match t with Leaf _ => 1%nat | Bin _ l r => (tsize l + tsize r + 1)%nat end.

(** Whether two spans can be combined, and how *)
Definition joins (x y : Z * Z) : option bool :=
  if x.2 =? y.1 - 1 then Some false else if x.1 =? y.2 + 1 then Some true else None.

(** The reduction of a stack (its top first) under a new tree *)
Fixpoint reduce (t : btree) (st : list btree) : list btree :=
  match st with
  | [] => [t]
  | u :: st' =>
      match joins (tspan u) (tspan t) with
      | Some inv => reduce (Bin inv u t) st'
      | None => t :: st
      end
  end.

Definition shift (st : list btree) (a : Z) : list btree := reduce (Leaf a) st.

(** The greedy shift-reduce parse of the states *)
Definition shift_reduce (alignment : list Z) : list btree := foldl shift [] alignment.

(** The nodes of a tree in the order of their creation, the first one at index [base] *)
Fixpoint postorder (base : Z) (t : btree) : list node :=
  match t with
  | Leaf a => [new_node a a (-1) (-1) 3 0]
  | Bin inv l r =>
      let a := base + Z.of_nat (tsize l) in
      let b := a + Z.of_nat (tsize r) in
      postorder base l ++ postorder a r ++
      [new_node (tspan t).1 (tspan t).2 (a - 1) (b - 1) (if inv then 2 else 1) 1]
  end.

(** The nodes of a stack (its bottom first), and the indices of the roots *)
Fixpoint forest_nodes (base : Z) (ts : list btree) : list node :=
  match ts with [] => [] | t :: ts => postorder base t ++ forest_nodes (base + Z.of_nat (tsize t)) ts end.
Fixpoint forest_roots (base : Z) (ts : list btree) : list Z :=
  match ts with
  | [] => []
  | t :: ts => (base + Z.of_nat (tsize t) - 1) :: forest_roots (base + Z.of_nat (tsize t)) ts
  end.

Definition forest_size (ts : list btree) : nat := sum_list_with tsize ts.

(** The state of the bracketer with the trees [ts] on its stack, the bottom first *)
Record represents (s : bstate) (ts : list btree) : Prop := {
  rep_nodes : nodes s = forest_nodes 0 ts;
  rep_top : top s = Z.of_nat (length ts);
  rep_fits : (length ts <= length (stck s))%nat;
  rep_live : take (length ts) (stck s) = forest_roots 0 ts
}.

(** * The arrays are the stack of trees *)

Lemma length_postorder base t : length (postorder base t) = tsize t.
Proof.
  revert base. induction t as [a|inv l IHl r IHr]; intros base; [done|]. cbn [postorder tsize].
  rewrite !length_app, IHl, IHr. cbn [length]. lia.
Qed.

Lemma tsize_pos t : (1 <= tsize t)%nat.
Proof. destruct t; cbn [tsize]; lia. Qed.

Lemma forest_nodes_app base ts us :
  forest_nodes base (ts ++ us) = forest_nodes base ts ++ forest_nodes (base + Z.of_nat (forest_size ts)) us.
Proof.
  revert base. induction ts as [|t ts IH]; intros base; cbn [app forest_nodes]; [by rewrite Z.add_0_r|].
  rewrite IH, <- app_assoc. do 3 f_equal. unfold forest_size. cbn [sum_list_with]. lia.
Qed.

Lemma forest_roots_app base ts us :
  forest_roots base (ts ++ us) = forest_roots base ts ++ forest_roots (base + Z.of_nat (forest_size ts)) us.
Proof.
  revert base. induction ts as [|t ts IH]; intros base; cbn [app forest_roots]; [by rewrite Z.add_0_r|].
  rewrite IH. do 3 f_equal. unfold forest_size. cbn [sum_list_with]. lia.
Qed.

Lemma length_forest_nodes base ts : length (forest_nodes base ts) = forest_size ts.
Proof.
  revert base. induction ts as [|t ts IH]; intros base; [done|]. cbn [forest_nodes]. rewrite length_app, length_postorder, IH. done.
Qed.

Lemma length_forest_roots base ts : length (forest_roots base ts) = length ts.
Proof. revert base. induction ts as [|t ts IH]; intros base; cbn [forest_roots length]; [done|]. by rewrite IH. Qed.

Lemma forest_size_app ts us : forest_size (ts ++ us) = (forest_size ts + forest_size us)%nat.
Proof. unfold forest_size. induction ts as [|t ts IH]; cbn [app sum_list_with]; [done|]. lia. Qed.

(** The root comes last and has the span of the tree. *)
Lemma postorder_root base t : exists nd, last (postorder base t) = Some nd /\ nd_left nd = (tspan t).1 /\ nd_right nd = (tspan t).2.
Proof.
  destruct t as [a|inv l r]; cbn [postorder]; [by eexists|]. rewrite app_assoc, last_snoc. eexists. by split.
Qed.

Lemma vec_get_nat {A} (v : list A) (i : nat) : vec_get v (Z.of_nat i) = v !! i.
Proof. unfold vec_get. rewrite (proj2 (Z.ltb_ge _ _)) by lia. by rewrite Nat2Z.id. Qed.

Lemma vec_set_nat {A} (v : list A) (i : nat) x : (i < length v)%nat -> vec_set v (Z.of_nat i) x = Some (<[i := x]> v).
Proof.
  intros Hi. unfold vec_set. rewrite (proj2 (Z.leb_le _ _)), (proj2 (Z.ltb_lt _ _)) by lia. cbn. by rewrite Nat2Z.id.
Qed.

(** The node of a root on the stack. *)
Lemma represents_root s ts t us : represents s (ts ++ t :: us) -> let k := length ts in
  exists i nd, vec_get (stck s) (Z.of_nat k) = Some i /\ vec_get (nodes s) i = Some nd /\
    i = Z.of_nat (forest_size (ts ++ [t])) - 1 /\ nd_left nd = (tspan t).1 /\ nd_right nd = (tspan t).2.
Proof.
  intros [Hn Ht Hf Hl] k. pose proof (tsize_pos t) as Hpos.
  assert (Hsize : forest_size (ts ++ [t]) = (forest_size ts + tsize t)%nat) by (rewrite forest_size_app; unfold forest_size; cbn; lia).
  destruct (postorder_root (Z.of_nat (forest_size ts)) t) as (nd&Hlast&H1&H2).
  exists (Z.of_nat (forest_size ts + tsize t - 1)%nat), nd. split; [|split; [|split; [rewrite Hsize; lia|done]]].
  - rewrite vec_get_nat. assert (Hlook : take (length (ts ++ t :: us)) (stck s) !! k = Some (Z.of_nat (forest_size ts + tsize t - 1)%nat)).
    { rewrite Hl, forest_roots_app, lookup_app_r by (by rewrite length_forest_roots). rewrite length_forest_roots. unfold k.
      rewrite Nat.sub_diag. cbn [forest_roots lookup list_lookup]. f_equal. lia. }
    by apply lookup_take_Some in Hlook as [? _].
  - rewrite vec_get_nat, Hn, forest_nodes_app. cbn [forest_nodes]. rewrite lookup_app_r by (rewrite length_forest_nodes; lia).
    rewrite length_forest_nodes, lookup_app_l by (rewrite length_postorder; lia).
    rewrite last_lookup, length_postorder in Hlast. rewrite <- Hlast. f_equal. lia.
Qed.

(** [stacking] of the node that makes a tree of the last trees [us] of the stack. *)
Lemma stacking_represents s ts us t lft rht a b tg v : represents s (ts ++ us) ->
  (length ts < length (stck s))%nat ->
  postorder (Z.of_nat (forest_size ts)) t = forest_nodes (Z.of_nat (forest_size ts)) us ++ [new_node lft rht a b tg v] ->
  exists s', stacking lft rht a b tg v (mk_bstate (nodes s) (stck s) (Z.of_nat (length ts))) = Some s' /\
    represents s' (ts ++ [t]) /\ length (stck s') = length (stck s).
Proof.
  intros [Hn Ht Hf Hl] Hroom Hpost. unfold stacking. cbn [nodes stck top]. rewrite vec_set_nat by done. cbn [mbind option_bind].
  set (x := Z.of_nat (length (nodes s ++ _)) - 1). eexists. split; [done|]. split; [|cbn [stck]; by rewrite length_insert].
  assert (Hx : x = Z.of_nat (forest_size ts) + Z.of_nat (tsize t) - 1).
  { unfold x. rewrite length_app, Hn, length_forest_nodes, forest_size_app. cbn [length].
    pose proof (f_equal length Hpost) as Hlen. rewrite length_postorder, length_app, length_forest_nodes in Hlen. cbn [length] in Hlen. lia. }
  split; cbn [nodes stck top].
  - rewrite Hn, !forest_nodes_app. cbn [forest_nodes]. rewrite !Z.add_0_l, app_nil_r, Hpost. by rewrite app_assoc.
  - rewrite length_app. cbn [length]. lia.
  - rewrite length_app, length_insert. cbn [length]. lia.
  - rewrite length_app, forest_roots_app. cbn [length forest_roots]. rewrite Nat.add_1_r.
    erewrite take_S_r; [|by apply list_lookup_insert_eq]. rewrite take_insert_ge by lia. rewrite Z.add_0_l, Hx. f_equal.
    assert (Hpre : take (length ts) (take (length (ts ++ us)) (stck s)) = take (length ts) (forest_roots 0 (ts ++ us))) by by rewrite Hl.
    rewrite take_take, length_app, Nat.min_l in Hpre by lia. rewrite Hpre, forest_roots_app.
    rewrite take_app_le by (by rewrite length_forest_roots). rewrite take_ge by (by rewrite length_forest_roots). done.
Qed.

(** [combine] is [reduce]. *)
Lemma combine_loop_reduce ts : forall fuel s t, represents s (ts ++ [t]) -> (length ts < fuel)%nat ->
  exists s', combine_loop fuel s = Some s' /\ represents s' (rev (reduce t (rev ts))) /\ length (stck s') = length (stck s).
Proof.
  induction ts as [|u ts IH] using rev_ind; intros fuel s t Hs Hfuel; (destruct fuel as [|fuel]; [lia|]); cbn [combine_loop];
    pose proof Hs as [_ Htop Hfit _]; rewrite Htop.
  { exists s. done. }
  rewrite !length_app. cbn [length]. rewrite (proj2 (Z.ltb_lt _ _)) by lia.
  rewrite length_app in Hfuel. cbn [length] in Hfuel. rewrite <- app_assoc in Hs. cbn [app] in Hs.
  destruct (represents_root s ts u [t] Hs) as (i&na&Hi&Hna&Hia&Hla&Hra). pose proof Hs as Hs'.
  rewrite (cons_middle u), app_assoc in Hs'. destruct (represents_root s (ts ++ [u]) t [] Hs') as (j&nb&Hj&Hnb&Hjb&Hlb&Hrb).
  replace (Z.of_nat (length ts + 1 + 1) - 2) with (Z.of_nat (length ts)) by lia.
  replace (Z.of_nat (length ts + 1 + 1) - 1) with (Z.of_nat (length (ts ++ [u]))) by (rewrite length_app; cbn [length]; lia).
  rewrite Hi, Hj. cbn [mbind option_bind]. rewrite Hna, Hnb. cbn [mbind option_bind].
  assert (Hpost : forall inv, postorder (Z.of_nat (forest_size ts)) (Bin inv u t) =
    forest_nodes (Z.of_nat (forest_size ts)) [u; t] ++ [new_node (tspan (Bin inv u t)).1 (tspan (Bin inv u t)).2 i j (if inv then 2 else 1) 1]).
  { intros inv. cbn [postorder forest_nodes]. rewrite app_nil_r, <- app_assoc. do 4 f_equal.
    - rewrite Hia, forest_size_app. unfold forest_size. cbn [sum_list_with]. lia.
    - rewrite Hjb, !forest_size_app. unfold forest_size. cbn [sum_list_with]. lia. }
  assert (Hpop : pop2 s = mk_bstate (nodes s) (stck s) (Z.of_nat (length ts))).
  { unfold pop2. f_equal. rewrite Htop, !length_app. cbn [length]. lia. }
  assert (Hroom : (length ts < length (stck s))%nat) by (rewrite !length_app in Hfit; cbn [length] in Hfit; lia).
  rewrite rev_app_distr. cbn [rev app reduce]. unfold joins, straight, inverted. rewrite Hla, Hra, Hlb, Hrb, Hpop.
  destruct ((tspan u).2 =? (tspan t).1 - 1) eqn:Es; [|destruct ((tspan u).1 =? (tspan t).2 + 1) eqn:Ei].
  - destruct (stacking_represents s ts [u; t] (Bin false u t) _ _ _ _ _ _ Hs Hroom (Hpost false)) as (s1&Hst&Hs1&Hl1).
    cbn [tspan fst snd] in Hst. rewrite Hst. cbn [mbind option_bind].
    destruct (IH fuel s1 (Bin false u t) Hs1 ltac:(lia)) as (s2&->&Hs2&Hl2). exists s2. split; [done|]. split; [exact Hs2|congruence].
  - destruct (stacking_represents s ts [u; t] (Bin true u t) _ _ _ _ _ _ Hs Hroom (Hpost true)) as (s1&Hst&Hs1&Hl1).
    cbn [tspan fst snd] in Hst. rewrite Hst. cbn [mbind option_bind].
    destruct (IH fuel s1 (Bin true u t) Hs1 ltac:(lia)) as (s2&->&Hs2&Hl2). exists s2. split; [done|]. split; [exact Hs2|congruence].
  - exists s. split; [done|]. split; [|done]. cbn [rev]. rewrite rev_involutive, <- app_assoc. exact Hs.
Qed.

Lemma length_reduce t st : (length (reduce t st) <= S (length st))%nat.
Proof.
  revert t. induction st as [|u st IH]; intros t; cbn [reduce]; [done|]. destruct (joins _ _); cbn [length]; [|lia].
  specialize (IH (Bin b u t)). lia.
Qed.

Lemma bracket_loop_shifts alignment : forall s st, represents s (rev st) -> (length st + length alignment <= length (stck s))%nat ->
  exists s', bracket_loop alignment s = Some s' /\ represents s' (rev (foldl shift st alignment)).
Proof.
  induction alignment as [|a alignment IH]; intros s st Hs Hroom; cbn [bracket_loop foldl]; [by exists s|]. cbn [length] in Hroom.
  pose proof Hs as [_ Htop Hfit _]. rewrite length_rev in Htop, Hfit.
  destruct (stacking_represents s (rev st) [] (Leaf a) a a (-1) (-1) 3 0) as (s1&Hst&Hs1&Hl1).
  { by rewrite app_nil_r. }
  { rewrite length_rev. lia. }
  { done. }
  assert (Es : mk_bstate (nodes s) (stck s) (Z.of_nat (length (rev st))) = s).
  { rewrite length_rev, <- Htop. by destruct s. }
  rewrite Es in Hst. rewrite Hst. cbn [mbind option_bind]. unfold combine.
  destruct (combine_loop_reduce (rev st) (S (Z.to_nat (top s1))) s1 (Leaf a) Hs1) as (s2&->&Hs2&Hl2).
  { rewrite (rep_top _ _ Hs1), length_app, Nat2Z.id. cbn [length]. lia. }
  cbn [mbind option_bind]. rewrite rev_involutive in Hs2. apply IH; [exact Hs2|].
  pose proof (length_reduce (Leaf a) st). unfold shift. lia.
Qed.

(** The bracketer never leaves its vectors, and ends with the stack of the greedy parse. *)
Lemma bracketing_parse_ok stck0 alignment :
  exists s, bracketing_parse stck0 alignment = Some s /\ represents s (rev (shift_reduce alignment)).
Proof.
  apply bracket_loop_shifts; cbn [length stck]; [|by rewrite length_resize]. split; cbn [nodes stck top rev length]; try done. lia.
Qed.


(** * The permutations of inversion transduction grammars *)

(** The spans [xs], in the order of the right-hand side, cover the span [sp] of the left-hand
    side by concatenations of adjacent spans, straight or inverted. *)
Inductive itg : list (Z * Z) -> Z * Z -> Prop :=
  | itg_one x : itg [x] x
  | itg_straight xs ys l m r : itg xs (l, m) -> itg ys (m + 1, r) -> itg (xs ++ ys) (l, r)
  | itg_inverted xs ys l m r : itg xs (m + 1, r) -> itg ys (l, m) -> itg (xs ++ ys) (l, r).

(** The span of one state *)
Definition single (a : Z) : Z * Z := (a, a).

Definition nonempty (x : Z * Z) : Prop := x.1 <= x.2.

Lemma itg_not_nil xs sp : itg xs sp -> xs <> [].
Proof. induction 1 as [x|xs ys l m r _ IHx _ IHy|xs ys l m r _ IHx _ IHy]; [done|by destruct xs..]. Qed.

Lemma itg_nonempty xs sp : itg xs sp -> Forall nonempty xs -> nonempty sp /\ xs <> [].
Proof.
  induction 1 as [x|xs ys l m r _ IHx _ IHy|xs ys l m r _ IHx _ IHy]; intros Hne; [split; [by inversion Hne|discriminate]|..];
    apply Forall_app in Hne as [Hx Hy]; destruct (IHx Hx) as [H1 H2], (IHy Hy) as [H3 H4]; unfold nonempty in *; cbn [fst snd] in *;
    (split; [lia|]; by destruct xs).
Qed.

(** Every span is inside of the whole. *)
Lemma itg_inside xs sp : itg xs sp -> Forall nonempty xs -> Forall (fun x => sp.1 <= x.1 /\ x.2 <= sp.2) xs.
Proof.
  induction 1 as [x|xs ys l m r Hx IHx Hy IHy|xs ys l m r Hx IHx Hy IHy]; intros Hne; [by apply Forall_singleton|..];
    apply Forall_app in Hne as [Hnx Hny]; destruct (itg_nonempty _ _ Hx Hnx) as [H1 _], (itg_nonempty _ _ Hy Hny) as [H2 _];
    unfold nonempty in *; cbn [fst snd] in *; (apply Forall_app; split;
    [eapply Forall_impl; [exact (IHx Hnx)|]|eapply Forall_impl; [exact (IHy Hny)|]]); intros z [? ?]; cbn [fst snd] in *; lia.
Qed.

(** The two symmetries of the grammar: reading from right to left, and turning the left side round. *)
Definition flip (x : Z * Z) : Z * Z := (- x.2, - x.1).

Lemma itg_rev xs sp : itg xs sp -> itg (rev xs) sp.
Proof.
  induction 1 as [x|xs ys l m r _ IHx _ IHy|xs ys l m r _ IHx _ IHy]; [apply itg_one|..]; rewrite rev_app_distr;
    [by eapply itg_inverted|by eapply itg_straight].
Qed.

Lemma itg_flip xs sp : itg xs sp -> itg (map flip xs) (flip sp).
Proof.
  induction 1 as [x|xs ys l m r _ IHx _ IHy|xs ys l m r _ IHx _ IHy]; [apply itg_one|..]; rewrite map_app; unfold flip in IHx, IHy; cbn [fst snd] in *;
    unfold flip at 3; cbn [fst snd]; [eapply (itg_inverted _ _ _ (- (m + 1)))|eapply (itg_straight _ _ _ (- (m + 1)))];
    try replace (- (m + 1) + 1) with (- m) by lia; done.
Qed.

Lemma flip_flip xs : map flip (map flip xs) = xs.
Proof. induction xs as [|[l r] xs IH]; [done|]. cbn [map]. rewrite IH. unfold flip. cbn [fst snd]. by rewrite !Z.opp_involutive. Qed.

Lemma nonempty_flip xs : Forall nonempty xs -> Forall nonempty (map flip xs).
Proof. intros H. apply Forall_map. eapply Forall_impl; [exact H|]. intros [l r]. unfold nonempty, flip. cbn [fst snd]. lia. Qed.

(** A span that is the last one on both sides can be taken off. *)
Lemma peel_last_high xs a l r : itg (xs ++ [a]) (l, r) -> Forall nonempty (xs ++ [a]) -> a.2 = r ->
  (xs = [] /\ a = (l, r)) \/ itg xs (l, a.1 - 1).
Proof.
  remember (xs ++ [a]) as ws eqn:Ew. remember (l, r) as sp eqn:Es. intros H. revert xs l r Ew Es.
  induction H as [x|us vs l m r Hu IHu Hv IHv|us vs l m r Hu IHu Hv IHv]; intros xs l' r' Ew Es Hne Ha.
  - destruct xs as [|? [|? ?]]; injection Ew as <-; [by left|done..].
  - injection Es as <- <-. apply Forall_app in Hne as [Hnu Hnv]. destruct (itg_nonempty _ _ Hv Hnv) as [_ Hnil].
    destruct (exists_last Hnil) as (vs'&b&->). rewrite app_assoc in Ew. apply app_inj_tail in Ew as [<- <-]. right.
    destruct (IHv vs' (m + 1) r eq_refl eq_refl Hnv Ha) as [[-> ->]|Hv']; [|by eapply itg_straight].
    rewrite app_nil_r. cbn [fst]. by replace (m + 1 - 1) with m by lia.
  - injection Es as <- <-. apply Forall_app in Hne as [Hnu Hnv]. destruct (itg_nonempty _ _ Hv Hnv) as [_ Hnil].
    destruct (exists_last Hnil) as (vs'&b&->). rewrite app_assoc in Ew. apply app_inj_tail in Ew as [<- <-].
    pose proof (itg_inside _ _ Hv Hnv) as Hin. apply Forall_app in Hin as [_ Hin]. apply Forall_inv in Hin as [_ Hb].
    destruct (itg_nonempty _ _ Hu Hnu) as [Hn _]. unfold nonempty in Hn. cbn [fst snd] in *. lia.
Qed.

Lemma peel_first_low ys b l r : itg (b :: ys) (l, r) -> Forall nonempty (b :: ys) -> b.1 = l ->
  (ys = [] /\ b = (l, r)) \/ itg ys (b.2 + 1, r).
Proof.
  intros H Hne Hb. pose proof (itg_flip _ _ (itg_rev _ _ H)) as H'. cbn [rev] in H'. rewrite map_app in H'. cbn [map] in H'.
  destruct (peel_last_high (map flip (rev ys)) (flip b) (- r) (- l)) as [[Hnil Hf]|Hp]; [exact H'|..].
  - change [flip b] with (map flip [b]). rewrite <- map_app. apply nonempty_flip. change (Forall nonempty (rev (b :: ys))). by apply Forall_rev.
  - unfold flip. cbn [snd]. lia.
  - left. split.
    + apply map_eq_nil in Hnil. rewrite <- (rev_involutive ys), Hnil. done.
    + destruct b as [b1 b2]. unfold flip in Hf. cbn [fst snd] in *. injection Hf as ??. f_equal; lia.
  - right. apply itg_flip, itg_rev in Hp. rewrite flip_flip, rev_involutive in Hp. unfold flip in Hp. cbn [fst snd] in Hp.
    by replace (b.2 + 1) with (- (- b.2 - 1)) by lia; replace r with (- - r) at 1 by lia.
Qed.

(** Where a pair of neighbours is in a concatenation *)
Lemma split_pair {A} (us vs xs ys : list A) a b : us ++ vs = xs ++ a :: b :: ys ->
  (exists zs, us = xs ++ a :: b :: zs /\ ys = zs ++ vs) \/ (us = xs ++ [a] /\ vs = b :: ys) \/
  (exists zs, vs = zs ++ a :: b :: ys /\ xs = us ++ zs).
Proof.
  intros H. apply app_eq_inv in H as [(zs&->&H)|(zs&->&->)]; [|by right; right; exists zs].
  destruct zs as [|z [|z' zs]]; cbn [app] in H.
  - right. right. exists []. by rewrite !app_nil_r.
  - injection H as <- <-. right. by left.
  - injection H as <- <- ->. left. by exists zs.
Qed.

(** Neighbours whose spans are adjacent may be merged first. *)
Lemma merge_straight xs a b ys sp : itg (xs ++ a :: b :: ys) sp -> Forall nonempty (xs ++ a :: b :: ys) -> a.2 = b.1 - 1 ->
  itg (xs ++ (a.1, b.2) :: ys) sp.
Proof.
  remember (xs ++ a :: b :: ys) as ws eqn:Ew. intros H. revert xs ys Ew.
  induction H as [x|us vs l m r Hu IHu Hv IHv|us vs l m r Hu IHu Hv IHv]; intros xs ys Ew Hne Hab;
    [by destruct xs as [|? [|? ?]]|..]; apply Forall_app in Hne as [Hnu Hnv];
    (destruct (split_pair _ _ _ _ _ _ Ew) as [(zs&->&->)|[[-> ->]|(zs&->&->)]]).
  - rewrite app_comm_cons, app_assoc. eapply itg_straight; [by apply IHu|exact Hv].
  - pose proof (itg_inside _ _ Hu Hnu) as Hin. apply Forall_app in Hin as [_ Hin]. apply Forall_inv in Hin.
    pose proof (itg_inside _ _ Hv Hnv) as Hin'. pose proof (Forall_inv Hin') as Hb. cbn [fst snd] in *.
    assert (Hl : itg (xs ++ [(a.1, b.2)]) (l, b.2)).
    { destruct (peel_last_high xs a l m Hu Hnu ltac:(lia)) as [[-> ->]|Hp]; [apply itg_one|].
      eapply itg_straight; [exact Hp|]. replace (a.1 - 1 + 1) with a.1 by lia. apply itg_one. }
    destruct (peel_first_low ys b (m + 1) r Hv Hnv ltac:(lia)) as [[-> ->]|Hp]; [exact Hl|].
    rewrite (cons_middle (a.1, b.2)), app_assoc. by eapply itg_straight.
  - rewrite <- app_assoc. eapply itg_straight; [exact Hu|by apply IHv].
  - rewrite app_comm_cons, app_assoc. eapply itg_inverted; [by apply IHu|exact Hv].
  - pose proof (itg_inside _ _ Hu Hnu) as Hin. apply Forall_app in Hin as [_ Hin]. apply Forall_inv in Hin.
    pose proof (itg_inside _ _ Hv Hnv) as Hin'. pose proof (Forall_inv Hin') as Hb. cbn [fst snd] in *.
    apply Forall_app in Hnu as [_ Hna]. apply Forall_inv in Hna. pose proof (Forall_inv Hnv) as Hnb. unfold nonempty in *. lia.
  - rewrite <- app_assoc. eapply itg_inverted; [exact Hu|by apply IHv].
Qed.

Lemma merge_inverted xs a b ys sp : itg (xs ++ a :: b :: ys) sp -> Forall nonempty (xs ++ a :: b :: ys) -> a.1 = b.2 + 1 ->
  itg (xs ++ (b.1, a.2) :: ys) sp.
Proof.
  intros H Hne Hab. apply itg_flip in H. apply nonempty_flip in Hne. rewrite map_app in H, Hne. cbn [map] in H, Hne.
  apply merge_straight in H; [|exact Hne|unfold flip; cbn [fst snd]; lia]. apply itg_flip in H.
  rewrite map_app in H. cbn [map] in H. rewrite !flip_flip in H. destruct sp as [l r]. unfold flip in H at 1 2 3 4. cbn [fst snd] in H.
  unfold flip in H. cbn [fst snd] in H. by rewrite !Z.opp_involutive in H.
Qed.

Lemma itg_single x sp : itg [x] sp -> sp = x.
Proof.
  remember [x] as ws eqn:Ew. induction 1 as [y|us vs l m r Hu _ Hv _|us vs l m r Hu _ Hv _]; [by injection Ew|..];
    apply itg_not_nil in Hu, Hv; by destruct us as [|? []], vs.
Qed.

(** A list of spans that a grammar covers has neighbours that can be merged. *)
Lemma itg_mergeable ws sp : itg ws sp -> (2 <= length ws)%nat ->
  exists xs a b ys inv, ws = xs ++ a :: b :: ys /\ joins a b = Some inv.
Proof.
  induction 1 as [x|us vs l m r Hu IHu Hv IHv|us vs l m r Hu IHu Hv IHv]; intros Hlen; [cbn [length] in Hlen; lia|..];
    (destruct (decide (2 <= length us)%nat) as [H2|H2];
     [destruct (IHu H2) as (xs&a&b&ys&inv&->&Hj); exists xs, a, b, (ys ++ vs), inv; by rewrite <- app_assoc|];
     destruct (decide (2 <= length vs)%nat) as [H3|H3];
     [destruct (IHv H3) as (xs&a&b&ys&inv&->&Hj); exists (us ++ xs), a, b, ys, inv; by rewrite <- app_assoc|]).
  - apply itg_not_nil in Hu as Hnu. apply itg_not_nil in Hv as Hnv. destruct us as [|u [|? ?]], vs as [|v [|? ?]]; cbn [length] in *; try lia; try done.
    apply itg_single in Hu as <-. apply itg_single in Hv as <-. exists [], (l, m), (m + 1, r), [], false. split; [done|].
    unfold joins. cbn [fst snd]. by rewrite (proj2 (Z.eqb_eq _ _)) by lia.
  - apply itg_not_nil in Hu as Hnu. apply itg_not_nil in Hv as Hnv. destruct us as [|u [|? ?]], vs as [|v [|? ?]]; cbn [length] in *; try lia; try done.
    apply itg_single in Hu as <-. apply itg_single in Hv as <-. exists [], (m + 1, r), (l, m), []. unfold joins. cbn [fst snd].
    destruct (r =? l - 1); [by eexists|]. exists true. by rewrite Z.eqb_refl.
Qed.

(** * The greedy parse is complete *)

(** The trees that the bracketer makes: neighbours are only combined when their spans are adjacent. *)
Fixpoint well_joined (t : btree) : Prop :=
  match t with Leaf _ => True | Bin inv l r => well_joined l /\ well_joined r /\ joins (tspan l) (tspan r) = Some inv end.

Lemma tspan_nonempty t : well_joined t -> nonempty (tspan t).
Proof.
  induction t as [a|inv l IHl r IHr]; [intros _; unfold nonempty; cbn; lia|]. cbn [well_joined]. intros (Hl&Hr&Hj).
  specialize (IHl Hl). specialize (IHr Hr). unfold joins in Hj. unfold nonempty in *.
  destruct (Z.eqb_spec (tspan l).2 ((tspan r).1 - 1)); [|destruct (Z.eqb_spec (tspan l).1 ((tspan r).2 + 1)); [|done]];
    injection Hj as <-; cbn [tspan fst snd]; lia.
Qed.

(** A tree is a derivation of its leaves. *)
Lemma well_joined_itg t : well_joined t -> itg (map single (frontier t)) (tspan t).
Proof.
  induction t as [a|inv l IHl r IHr]; [intros _; apply itg_one|]. cbn [well_joined frontier]. intros (Hl&Hr&Hj).
  specialize (IHl Hl). specialize (IHr Hr). rewrite map_app. destruct (tspan l) as [l1 l2] eqn:El, (tspan r) as [r1 r2] eqn:Er. unfold joins in Hj. cbn [fst snd] in Hj.
  destruct (Z.eqb_spec l2 (r1 - 1)); [|destruct (Z.eqb_spec l1 (r2 + 1)); [|done]]; injection Hj as <-; cbn [tspan]; rewrite El, Er; cbn [fst snd].
  - eapply (itg_straight _ _ _ l2); [done|]. by replace (l2 + 1) with r1 by lia.
  - eapply (itg_inverted _ _ _ r2); [|done]. by replace (r2 + 1) with l1 by lia.
Qed.

(** The spans of a stack, its bottom first *)
Definition stack_spans (st : list btree) : list (Z * Z) := map tspan (rev st).

(** No two neighbours of a stack (its top first) can be combined. *)
Fixpoint stuck (st : list btree) : Prop :=
  match st with
  | t :: (u :: _) as st' => joins (tspan u) (tspan t) = None /\ stuck st'
  | _ => True
  end.

Lemma reduce_well_joined st : forall t, well_joined t -> Forall well_joined st -> Forall well_joined (reduce t st).
Proof.
  induction st as [|u st IH]; intros t Ht Hst; cbn [reduce]; [by constructor|]. inversion Hst as [|? ? Hu Hst']; subst.
  destruct (joins _ _) eqn:Ej; [|by constructor]. apply IH; [|done]. cbn [well_joined]. done.
Qed.

Lemma reduce_stuck st : forall t, stuck st -> stuck (reduce t st).
Proof.
  induction st as [|u st IH]; intros t Hst; cbn [reduce]; [done|]. destruct (joins _ _) eqn:Ej; [|by split].
  apply IH. by destruct st; [|destruct Hst].
Qed.

Lemma reduce_frontier st : forall t, concat (map frontier (rev (reduce t st))) = concat (map frontier (rev st)) ++ frontier t.
Proof.
  induction st as [|u st IH]; intros t; cbn [reduce]; [cbn; by rewrite app_nil_r|].
  destruct (joins _ _) as [inv|]; [rewrite IH|]; cbn [rev frontier]; rewrite !map_app, !concat_app; cbn [map concat]; rewrite !app_nil_r, ?app_assoc; done.
Qed.

(** A reduction does not lose a derivation. *)
Lemma reduce_itg st : forall t zs sp, well_joined t -> Forall well_joined st -> Forall nonempty zs ->
  itg (stack_spans (t :: st) ++ zs) sp -> itg (stack_spans (reduce t st) ++ zs) sp.
Proof.
  induction st as [|u st IH]; intros t zs sp Ht Hst Hz H; cbn [reduce]; [done|]. inversion Hst as [|? ? Hu Hst']; subst.
  destruct (joins (tspan u) (tspan t)) as [inv|] eqn:Ej; [|done]. apply IH; [by cbn [well_joined]|done|done|].
  unfold stack_spans in *. cbn [rev] in *. rewrite !map_app, <- !app_assoc in *. cbn [map app] in *.
  assert (Hne : Forall nonempty (map tspan (rev st) ++ tspan u :: tspan t :: zs)).
  { apply Forall_app. split; [|constructor; [by apply tspan_nonempty|constructor; [by apply tspan_nonempty|done]]].
    apply Forall_map, Forall_rev. eapply Forall_impl; [exact Hst'|]. apply tspan_nonempty. }
  unfold joins in Ej. destruct (Z.eqb_spec (tspan u).2 ((tspan t).1 - 1)); [injection Ej as <-; by apply merge_straight|].
  destruct (Z.eqb_spec (tspan u).1 ((tspan t).2 + 1)); [injection Ej as <-; by apply merge_inverted|done].
Qed.

(** The stack of the greedy parse after some states, with the states that are left *)
Record parse_inv (seen : list Z) (st : list btree) : Prop := {
  pi_joined : Forall well_joined st;
  pi_stuck : stuck st;
  pi_frontier : concat (map frontier (rev st)) = seen
}.

Lemma shift_reduce_inv al : forall st seen, parse_inv seen st -> parse_inv (seen ++ al) (foldl shift st al).
Proof.
  induction al as [|a al IH]; intros st seen [Hw Hs Hf]; cbn [foldl]; [by rewrite app_nil_r|].
  rewrite (cons_middle a), app_assoc. apply IH. unfold shift. split; [by apply reduce_well_joined|by apply reduce_stuck|].
  by rewrite reduce_frontier, Hf.
Qed.

Lemma nonempty_singles al : Forall nonempty (map single al).
Proof. apply Forall_map, Forall_true. intros a. unfold nonempty. cbn. lia. Qed.

Lemma shift_reduce_itg al : forall st sp, Forall well_joined st ->
  itg (stack_spans st ++ map single al) sp -> itg (stack_spans (foldl shift st al)) sp.
Proof.
  induction al as [|a al IH]; intros st sp Hw H; cbn [foldl map] in *; [by rewrite app_nil_r in H|].
  apply IH; [by apply reduce_well_joined|]. unfold shift. apply reduce_itg; [done|done|apply nonempty_singles|].
  unfold stack_spans in *. cbn [rev]. rewrite map_app, <- app_assoc. exact H.
Qed.

(** A stack on which nothing can be combined and that has a derivation is one tree. *)
Lemma stuck_pair st : stuck st -> forall xs a b ys, stack_spans st = xs ++ a :: b :: ys -> joins a b = None.
Proof.
  unfold stack_spans. induction st as [|t st IH]; intros Hs xs a b ys He; [by destruct xs|]. cbn [rev] in He. rewrite map_app in He. cbn [map] in He.
  destruct (split_pair _ _ _ _ _ _ He) as [(zs&H&_)|[[H H']|(zs&H&_)]].
  - apply (IH ltac:(by destruct st; [|destruct Hs]) xs a b zs). exact H.
  - injection H' as <- _. destruct st as [|u st]; [by destruct xs|]. destruct Hs as [Hj _]. cbn [rev] in H. rewrite map_app in H.
    cbn [map] in H. apply app_inj_tail in H as [_ <-]. exact Hj.
  - by destruct zs as [|? [|? ?]].
Qed.

Lemma stuck_itg st sp : stuck st -> itg (stack_spans st) sp -> exists t, st = [t] /\ tspan t = sp.
Proof.
  intros Hs H. destruct (decide (2 <= length (stack_spans st))%nat) as [H2|H2].
  { destruct (itg_mergeable _ _ H H2) as (xs&a&b&ys&inv&He&Hj). by rewrite (stuck_pair st Hs _ _ _ _ He) in Hj. }
  unfold stack_spans in *. rewrite length_map, length_rev in H2. destruct st as [|t [|? ?]]; cbn [length] in H2; [by apply itg_not_nil in H| |lia].
  exists t. split; [done|]. by apply itg_single in H.
Qed.

(** A tree of [n] states has [2 * n - 1] nodes: the bracketer takes linear time. *)
Lemma tsize_frontier t : (tsize t + 1 = 2 * length (frontier t))%nat.
Proof. induction t as [a|inv l IHl r IHr]; [done|]. cbn [tsize frontier]. rewrite length_app. lia. Qed.

Lemma forest_size_frontier ts : (forest_size ts + length ts = 2 * length (concat (map frontier ts)))%nat.
Proof.
  unfold forest_size. induction ts as [|t ts IH]; [done|]. cbn [sum_list_with length map concat]. rewrite length_app.
  pose proof (tsize_frontier t). lia.
Qed.

(** The spans of a derivation cover their span, each of its places once. *)
Lemma itg_places xs sp : itg xs sp -> Forall nonempty xs ->
  concat (map (fun x => seqZ x.1 (x.2 - x.1 + 1)) xs) ≡ₚ seqZ sp.1 (sp.2 - sp.1 + 1).
Proof.
  induction 1 as [x|xs ys l m r Hx IHx Hy IHy|xs ys l m r Hx IHx Hy IHy]; intros Hne; [cbn; by rewrite app_nil_r|..];
    apply Forall_app in Hne as [Hnx Hny]; destruct (itg_nonempty _ _ Hx Hnx) as [H1 _], (itg_nonempty _ _ Hy Hny) as [H2 _];
    unfold nonempty in *; cbn [fst snd] in *; rewrite map_app, concat_app; rewrite (IHx Hnx), (IHy Hny);
    replace (r - l + 1) with ((m - l + 1) + (r - (m + 1) + 1)) by lia; rewrite (seqZ_app l (m - l + 1) (r - (m + 1) + 1)) by lia;
    replace (l + (m - l + 1)) with (m + 1) by lia; [reflexivity|apply Permutation_app_comm].
Qed.

Lemma itg_permutation al sp : itg (map single al) sp -> al ≡ₚ seqZ sp.1 (sp.2 - sp.1 + 1).
Proof.
  intros H. rewrite <- (itg_places _ _ H (nonempty_singles al)). rewrite map_map.
  assert (E : concat (map (fun a => seqZ (single a).1 ((single a).2 - (single a).1 + 1)) al) = al); [|by rewrite E].
  clear H. induction al as [|a al IH]; [done|]. cbn [map concat]. unfold single at 1 2 3. cbn [fst snd]. replace (a - a + 1) with 1 by lia.
  f_equal. exact IH.
Qed.

(** The greedy parse of the states from an empty stack *)
Lemma shift_reduce_parse al : parse_inv al (shift_reduce al).
Proof. exact (shift_reduce_inv al [] [] ltac:(split; [constructor|done|done])). Qed.

(** The nodes of a stack of one tree, and of none *)
Lemma represents_one s t : represents s [t] -> nodes s = postorder 0 t /\ top s = 1 /\ vec_get (stck s) 0 = Some (Z.of_nat (tsize t) - 1).
Proof.
  intros Hr. destruct (represents_root s [] t [] Hr) as (i&nd&Hi&_&Hn&_). destruct Hr as [H Ht _ _].
  cbn [forest_nodes] in H. rewrite app_nil_r in H. split; [done|]. split; [done|]. change (vec_get (stck s) 0 = Some i) in Hi. rewrite Hi, Hn. unfold forest_size. cbn. do 2 f_equal. lia.
Qed.

(** When more than one tree is left *)
Lemma shift_reduce_many al : al <> [] -> (forall sp, ~ itg (map single al) sp) -> (2 <= length (shift_reduce al))%nat.
Proof.
  intros Hal Hno. destruct (shift_reduce_parse al) as [Hw _ Hf]. destruct (shift_reduce al) as [|t [|u st]]; cbn [length]; [by rewrite <- Hf in Hal| |lia].
  exfalso. apply (Hno (tspan t)). cbn in Hf. rewrite app_nil_r in Hf. rewrite <- Hf. apply well_joined_itg. by inversion Hw.
Qed.

(** * The properties *)

(** C37: the bracketer ends for every rule without leaving its vectors.  What it has on its stack
    is a row of bracketings of the states, in their order, that combine spans of the left side
    only where they are adjacent; no two neighbours can be combined.  The nodes are those of the
    bracketings, children before their parents; it has made two for every state, less one for
    each bracketing that is left. *)
Theorem bracketing_refines filteringMode left_right_backoff stck0 alignment c :
  exists s c' v ts, bracketing filteringMode left_right_backoff stck0 alignment c = Some (s, c', v) /\
    represents s ts /\ Forall well_joined ts /\ concat (map frontier ts) = alignment /\
    (forall us t u vs, ts = us ++ t :: u :: vs -> joins (tspan t) (tspan u) = None) /\
    Z.of_nat (length (nodes s)) = 2 * Z.of_nat (length alignment) - top s.
Proof.
  destruct (bracketing_parse_ok stck0 alignment) as (s&Hs&Hr). destruct (shift_reduce_parse alignment) as [Hw Hst Hf].
  assert (Hrest : Forall well_joined (rev (shift_reduce alignment)) /\ concat (map frontier (rev (shift_reduce alignment))) = alignment /\
    (forall us t u vs, rev (shift_reduce alignment) = us ++ t :: u :: vs -> joins (tspan t) (tspan u) = None) /\
    Z.of_nat (length (nodes s)) = 2 * Z.of_nat (length alignment) - top s).
  { split; [by apply Forall_rev|]. split; [done|]. split.
    - intros us t u vs He. apply (stuck_pair _ Hst (map tspan us) _ _ (map tspan vs)). unfold stack_spans. by rewrite He, map_app.
    - rewrite (rep_nodes _ _ Hr), (rep_top _ _ Hr), length_forest_nodes. pose proof (forest_size_frontier (rev (shift_reduce alignment))) as E.
      rewrite Hf in E. lia. }
  unfold bracketing. rewrite Hs. cbn [mbind option_bind].
  destruct (Z.ltb_spec 1 (top s)) as [Ht|Ht]; [by do 4 eexists|]. destruct filteringMode; cbn [negb]; [by do 4 eexists|].
  destruct (Z.eqb_spec (top s) 1) as [E|E]; [|by do 4 eexists]. pose proof (rep_top _ _ Hr) as Etop. rewrite E in Etop.
  destruct (rev (shift_reduce alignment)) as [|t [|? ?]] eqn:Es; cbn [length] in Etop; try lia.
  destruct (represents_one s t Hr) as (_&_&->). cbn [mbind option_bind]. by do 4 eexists.
Qed.

Lemma bracketing_refines_witness : exists s c' v ts, bracketing true true [] [2; 4; 1; 3] (mk_counters 0 0 0 None 0) = Some (s, c', v) /\
  represents s ts /\ Forall well_joined ts /\ concat (map frontier ts) = [2; 4; 1; 3] /\
  (forall us t u vs, ts = us ++ t :: u :: vs -> joins (tspan t) (tspan u) = None) /\
  Z.of_nat (length (nodes s)) = 2 * 4 - top s.
Proof. exact (bracketing_refines true true [] [2; 4; 1; 3] (mk_counters 0 0 0 None 0)). Defined.

(** C36: the bracketer takes a rule exactly when its alignment is one of an inversion transduction
    grammar.  If the states have a derivation of a span, they are a permutation of its places, one
    bracketing of that span over all the states is left, its nodes are the nodes made, and the
    rule is put out from its root (or to the file of such lines); a rule without states is put
    out without a root; every other rule is counted and treated as one that has no binarization. *)
Theorem bracketing_decides filteringMode left_right_backoff stck0 alignment c :
  exists s c' v, bracketing filteringMode left_right_backoff stck0 alignment c = Some (s, c', v) /\
    (forall sp, itg (map single alignment) sp ->
      alignment ≡ₚ seqZ sp.1 (sp.2 - sp.1 + 1) /\
      exists t, well_joined t /\ frontier t = alignment /\ tspan t = sp /\ nodes s = postorder 0 t /\
        bin c' = bin c + 1 /\ nonbin c' = nonbin c /\
        v = if filteringMode then [ItgLine] else [Output (Z.of_nat (length (nodes s)) - 1)]) /\
    (alignment = [] -> nodes s = [] /\ bin c' = bin c + 1 /\ nonbin c' = nonbin c /\ v = if filteringMode then [ItgLine] else [Output (-1)]) /\
    (alignment <> [] -> (forall sp, ~ itg (map single alignment) sp) ->
      bin c' = bin c /\ nonbin c' = nonbin c + 1 /\
      v = (if filteringMode then [NonItgLine] else []) ++ (if left_right_backoff then [LeftRightBinarize] else [])).
Proof.
  destruct (bracketing_parse_ok stck0 alignment) as (s&Hs&Hr). destruct (shift_reduce_parse alignment) as [Hw Hst Hf].
  unfold bracketing. rewrite Hs. cbn [mbind option_bind]. pose proof (rep_top _ _ Hr) as Htop. rewrite length_rev in Htop.
  destruct (decide (alignment = [])) as [->|Hal].
  { rewrite Htop. cbn [shift_reduce foldl length Z.of_nat]. exists s. destruct filteringMode; cbn; do 2 eexists; (split; [done|]);
      (split; [intros sp H; by apply itg_not_nil in H|split; [intros _; by rewrite (rep_nodes _ _ Hr)|done]]). }
  destruct (decide (2 <= length (shift_reduce alignment))%nat) as [H2|H2].
  { rewrite (proj2 (Z.ltb_lt _ _)) by lia. do 3 eexists. split; [done|]. split; [|split; [done|by intros _ _]]. intros sp H.
    destruct (stuck_itg _ sp Hst) as (t&E&_); [by apply (shift_reduce_itg alignment [] sp)|]. rewrite E in H2. cbn [length] in H2. lia. }
  destruct (shift_reduce alignment) as [|t [|? ?]] eqn:E; cbn [length] in H2; [by rewrite <- Hf in Hal| |lia].
  destruct (represents_one s t Hr) as (Hn&Ht&Hroot). cbn in Hf. rewrite app_nil_r in Hf. pose proof (Forall_inv Hw) as Hwt.
  assert (Hlen : Z.of_nat (length (nodes s)) = Z.of_nat (tsize t)) by (by rewrite Hn, length_postorder).
  rewrite Ht, Hroot. cbn. exists s. destruct filteringMode; cbn; do 2 eexists; (split; [done|]); (split; [|split; [done|]]);
    try (intros _ Hno; exfalso; apply (Hno (tspan t)); rewrite <- Hf; by apply well_joined_itg);
    intros sp H; (split; [by apply itg_permutation|]); exists t; rewrite ?Hlen;
    (destruct (stuck_itg [t] sp Hst) as (t'&[= <-]&Hsp); [rewrite <- E; by apply (shift_reduce_itg alignment [] sp)|]); done.
Qed.

Lemma bracketing_decides_witness : let al := [3; 2; 5; 4] in
  exists s c' v, bracketing false true [] al (mk_counters 0 0 0 None 0) = Some (s, c', v) /\ al ≡ₚ seqZ 2 4 /\ v = [Output 6].
Proof.
  intros al. destruct (bracketing_decides false true [] al (mk_counters 0 0 0 None 0)) as (s&c'&v&H&Hitg&_). exists s, c', v. split; [exact H|].
  assert (Hd : itg (map single al) (2, 5)).
  { apply (itg_straight [(3, 3); (2, 2)] [(5, 5); (4, 4)] 2 3 5).
    - apply (itg_inverted [(3, 3)] [(2, 2)] 2 2 3); apply itg_one.
    - apply (itg_inverted [(5, 5)] [(4, 4)] 4 4 5); apply itg_one. }
  destruct (Hitg (2, 5) Hd) as [Hp (t&_&_&_&_&_&_&Hv)]. split; [exact Hp|]. rewrite Hv. vm_compute in H. injection H as <- _ _. reflexivity.
Defined.
